(* ===== verification/_CoqProject ===== *)
-Q . S2P
Prelude.v
GoString.v
Value.v
Relalg.v
Interp.v
InterpFacts.v
Check.v
InterpTheorems.v
Entity.v
EntityFacts.v
Numbers.v
WriteCheck.v
Rbac.v
RbacTheorems.v
Dialect.v
Codegen.v
CodegenFacts.v
CodegenTheorems.v
FieldUses.v
Order.v
OrderFacts.v
Mask.v
Filter.v
Budget.v
BudgetTheorems.v
RateLimit.v
Transaction.v
TransactionSystem.v
TransactionTheorems.v
Merge.v
MergeTheorems.v
Workspace.v
ExpiryHeap.v
Cache.v
CacheTheorems.v
Cost.v
CostTheorems.v
Feedback.v
Invalidation.v
InvalidationTheorems.v
CascadeCheck.v
CascadeTheorems.v
Pipeline.v
PipelineFacts.v
WriteTools.v
WriteToolsTheorems.v
Related.v
ReadTool.v
ReadTheorems.v
Results.v
ResultsTheorems.v
JoinKey.v
JoinKeyTheorems.v
RunStatement.v
RunTheorems.v
RunRead.v
RunReadTheorems.v
ExpandTheorems.v
RunWrite.v
RunWriteTheorems.v
ExecuteSQL.v
Aggregate.v
Procedure.v
AggregateTheorems.v
ProcedureTheorems.v
Semaphore.v
SemaphoreTheorems.v
Lane.v
LaneTheorems.v
Engine.v
Revision.v
Prepared.v
Describe.v
Redact.v
Leasing.v
LeasingTheorems.v
TransactionTools.v
RunTool.v
EventStore.v
Keyed.v
