(* ===== verification/Prelude.v ===== *)
(** * The governed core of sql-mcp-server

    The server lets agents read and write databases without writing SQL.  A
    tool call names an entity, fields, a filter; the server authorizes it,
    confines it to the caller's rows, turns it into a relational plan, renders
    the plan as SQL for the database's dialect with every value as an
    argument, and runs it within the caller's limits.  This library models
    the decisions of that path, the machinery that runs it concurrently, and
    the stores beside it, and proves what they promise.

    ** Parts of the program, and where they are modelled

    Plans and their meaning:
    - core/relalg (plans and predicates, their validation): [Relalg].  Go's
      interfaces Expr and Predicate are inductive types; a nil Predicate is
      [PNil].
    - core/relalg/interp (the reference semantics of plans): [Value] (dynamic
      values, their order and keys), [Interp] (Eval, with the sub-evaluators of
      predicates, joins, aggregates, sorts), [Check] (the partial evaluator of
      a row scope on a row some columns of which are unknown); [InterpFacts],
      [InterpTheorems].
    - core/dialect and the dialects of x/providers: [Dialect], with the
      interface as a record, its laws as the class [lawful_dialect], and
      instances for PostgreSQL, MySQL and OceanBase.
    - core/codegen (SQL generation): [Codegen], in a monad of the builder's
      state and Go's errors; [CodegenFacts] and [CodegenTheorems] are proved
      for every lawful dialect.

    Who may do what:
    - core/entity (metadata, the registry that resolves names): [Entity],
      [EntityFacts].
    - core/rbac (grants, field access, row policies): [Rbac]; the memo tables
      of GrantAuthorizer are state passed through Authorize and Usable;
      [RbacTheorems].
    - core/mask: [Mask].  core/audit/redact.go: [Redact].
    - core/cost (the cost gate): [Cost] (scores, layers, the chain, templates),
      [CostTheorems], [Feedback] (the windows of what statements cost).

    The tools, core/tool:
    - the steps they share: [Numbers] (alias.go, numbers.go), [FieldUses]
      (field_uses.go), [Filter] (filter.go), [Order] and [OrderFacts]
      (order.go, the cursors), [Related] (related.go), [WriteCheck]
      (write_check.go), [CascadeCheck] and [CascadeTheorems] (cascade.go),
      [Pipeline] and [PipelineFacts] (resolution, routing, authorization,
      compilation, gate).
    - what each makes of a request: [ReadTool] and [ReadTheorems],
      [WriteTools] and [WriteToolsTheorems], [Aggregate] and
      [AggregateTheorems], [Procedure] and [ProcedureTheorems], [Describe]
      (describe_entities and the references of entity_ref.go).
    - what is run: [RunStatement] and [RunTheorems] (statements, rows,
      errors, what follows a write), [RunRead], [RunReadTheorems],
      [ExpandTheorems], [JoinKey] and [JoinKeyTheorems] (reads, their cache and
      their expansions), [RunWrite] and [RunWriteTheorems], [ExecuteSQL] (the
      escape hatch), [Results] and [ResultsTheorems] (the memory of results),
      [RunTool] (what every call goes through).
    - transactions: [Transaction] (handles, statements, ends, tombstones),
      [TransactionSystem] (the manager as a transition system of its critical
      sections, those of one lookup apart), [TransactionTheorems], [TransactionTools] (the tools).
    - what a write makes stale: [Invalidation], [InvalidationTheorems]
      (invalidation.go and the WriteTracker of routing.go).

    Machinery and stores:
    - core/budget: [Budget], [BudgetTheorems].  core/ratelimit: [RateLimit]
      (Adaptive and Breaker, one atomic access per step), [Keyed] (the limits of
      each caller).
    - core/bus: [Semaphore], [SemaphoreTheorems] (semaphore.go), [Lane],
      [LaneTheorems] (lane.go, bus.go).  core/engine: [Engine].
    - core/cache: [ExpiryHeap] (container/heap as the cache uses it), [Cache],
      [CacheTheorems].  core/store/prepared.go: [Prepared].
    - core/workspace (configuration drafts): [Merge] (three-way merge,
      comparison, addressing), [MergeTheorems], [Workspace] (replay, carried
      conflicts, resolution, the store).  core/revision: [Revision].
    - x/catalog/batches.go and x/leasing (scan batches run across processes):
      [Leasing], [LeasingTheorems].
    - x/mcpserver/eventstore.go (events for clients that reconnect):
      [EventStore].

    [GoString] has Go's strings: UTF-8 decoding, runes, byte search.  This
    file has what they share: errors, the result monad, int64 wrap-around,
    lists, sums, and the rewrite database [sqlmcp].

    ** How they interact

    [RunTool] admits a call, reserves its budget, runs the tool through the
    engine (whose key decides which calls share an execution), accounts for it
    and records it.  A tool asks the registry for the entity, rbac for a
    Decision (a row filter and the fields shown), [FieldUses] for the call's
    fields; [Filter], [Order], [Related] and the Decision's filter make the
    predicate of a plan; [WriteCheck] uses [Check] on the same filter for
    creates and updates; [Codegen] renders the plan, and [Cost] gates it with
    the keys [Entity] knows.  The interpreter is the meaning the code
    generator, the cursor predicates and the write checks are proved against.
    A write's cascades pass [CascadeCheck] with the same authorizer, and what
    it made stale is dropped from [Cache] by [Invalidation], at once or when
    its transaction commits.  A Context carries the parts to the tools; the
    theorems on running a call take the planning theorems and add what is done
    with the answers of the database.

    ** What the theorems show

    - Authorization: an allowed request, of fields with names, is covered by
      grants the caller's role has, its row filter is exactly theirs within the
      tenant, memoizing and missing subject attributes do not widen it, and a
      denial's retry hint works.
    - The tools end to end: whatever the request, a statement that read,
      aggregate, create, update, delete or execute makes is of the entity it
      names, which is served, selects by the caller's own filter, is authorized
      for the caller in every field it uses, across relationships too, confined
      to the caller's rows before and after it, of one row where the gate
      requires a key, and covered in everything it cascades to.
    - Running: rows leave masked, cut and counted; an expansion asks for all
      the children of its rows in governed statements and attaches exactly
      those that match; cached reads are those of the same caller and of no
      older state; a write
      reaches the database at most once, is followed whatever its outcome, and
      its error says what may have happened; the escape hatch runs nothing
      that was not permitted, estimated and recorded first.
    - Calls: an execution is shared by the same read of the same caller only;
      accounting completes once and never reports a write as failed.
    - Writes: a row a create inserts is inside the caller's scope and has the
      values its equalities pin; an update confined by its check leaves every
      row in scope; refusals are justified; keys do not change.
    - SQL: no value reaches the text, placeholders and arguments match, quoted
      identifiers are one token, predicates are validated before they are
      rendered, one SELECT has the meaning of the plan it flattens, a key
      point reads at most one row, a cap is a LIMIT.
    - Reads: cursors select exactly the rows after them and pages partition
      the result; filters are bounded, and the fields checked are those read.
    - Semantics: evaluation is type-safe; validation, LIKE, sorting, grouping,
      joins and the partial evaluator have the declarative meanings stated.
    - Names and descriptions: resolution is unique, the short name shown
      resolves back, a description shows exactly what the caller may use, and
      the log keeps nothing sensitive of an input spelled as expected.
    - Limits: budget counters are exact in every reachable state, admission
      keeps the limits, eviction is fair; a caller's calls in flight are counted
      exactly across changes of its limits; the limiter, the breaker, the
      semaphores and the lanes keep their bounds and counts under the
      interleavings they are exposed to, and no lane stalls.
    - Shared executions: callers of one execution get its result, one that
      leaves never ends it for others before the deadline it was started
      with, and a cancelled one is never joined.
    - Transactions: one begins only for whoever may use the datasource, every
      handle ends once, what is recorded and replied of an end is what
      happened (a lookup that found it expired as it committed apart), open
      transactions are bounded, and shutdown and the finishing loop end.
    - Cost gate: no bypass skips a guard that is configured, tightening never loosens, an
      admitted read is capped; the feedback windows refine the history.
    - Cache: a result older than the last write of what it read is never
      served; bounds hold; a write drops every cached read of every relation
      its cascades can reach.  Prepared statements: one in use is never closed,
      one retired is closed once, and a failure caused by one caller is not
      given to another.
    - Drafts and revisions: a merge loses and overwrites nothing silently,
      replay keeps every step, a resolution decides what it says, the store is
      compare-and-set, setting and getting a path round-trip where its elements
      have their keys, published history is never rewritten before the
      identifiers wrap.
    - Scan batches: what is settled stays settled and is what work returned,
      and, unless a heartbeat takes a batch back, no attempt is worked on
      twice, across any failures of processes and of the store.
    - Reconnection: a replay is exactly what was missed since the stream was
      last opened, or is refused, and the events kept are bounded but for one.

    Examples whose comments say so ([rowKey_collision],
    [empty_field_hides_denied_field], [breaker_race_two_probes],
    [null_removed_locally], [small_table_scores_as_index],
    [metadata_false_yes], [redaction_case_leak], [heartbeat_takes_back],
    [large_event_costs_others], [room_not_made], [reopened_forgets],
    [expired_though_committed], [imported_top_overwrites],
    [missing_element_loses_key]) show where the code does not do what it says.

    ** Choices

    - A Go error is the sentinel it wraps; texts are dropped.  A run-time
      panic is [Err Panic], and the theorems that say a function returns
      exclude it.
    - Loops that are not structural have fuel that the theorems show to be
      enough: pruneLoop's is the number of idle states; the heap's and
      dropWhile's the size of the heap; computeLoop's and walkCascades' count
      the cascades of the registry; gcdLoop's 128 rounds exceed what 64-bit
      operands need; batches' and skipLoop's are lengths of lists each round
      shortens; basedLoop's the number of revisions; Merge's the depth of its
      values; roomLoop's the events and streams kept; allPages' (which is a
      client's loop) the number of entities.
    - int64 arithmetic that can overflow wraps ([w64]), the identifiers of
      revisions among it; counts of calls and of threads are unbounded
      integers.  float64 values are decimal
      (mantissa, exponent) pairs with exact comparison; what the code calls of
      strconv, math/big, unicode, encoding/json and SHA-256 are parameters of
      classes and sections ([GoStd], [CostStd], [Unicode], [SubjectText]), each
      with an instance or a witness.
    - The database is an environment: what it answers to the n-th statement,
      and what other calls do to the shared state meanwhile, are functions the
      theorems quantify over.
    - Go ranges over maps in an arbitrary order: where the order can matter it
      is a parameter, some permutation of the entries.
    - A transaction's token is the identity of its handle; connections, runs,
      threads and statements are numbers.  Ghost fields ([h_calls] of a
      handle, [e_stamp] of a cache entry, [le_begun] of the leases) record
      history the code does not keep and no operation reads.
    - Configuration values are JSON trees with objects as finite maps; the
      memo of canonical texts is left out.
    - Methods under a mutex are one step for each time they hold it (a
      transaction's lookup lets it go between reading a handle and ending it);
      lock-free ones step at each atomic access; a call of a store or of a database is a step of its own, whose
      answer may be lost where the code retries.

    ** Not modelled

    Database drivers, transports, the administration service and its web
    interface, the loading and validation of configuration files, JSON schemas,
    telemetry and hooks, command lines: input and output, generated code, or
    data without decisions.  Token buckets are float64 arithmetic on the wall
    clock; their answers are inputs.  Decoding of JSON inputs, timeouts and the
    texts of denials are left out of the tools. *)

From stdpp Require Export base tactics list gmap strings pretty.
From Stdlib Require Export ZArith Lia Ascii.
From Stdlib Require Import Sorting.Sorted.

#[global] Open Scope Z_scope.
#[global] Set Default Proof Using "Type".

(** ** Errors

    A Go [error] is modelled by the sentinel it wraps ([errors.Is]); message
    texts are dropped.  [Panic] is a run-time panic (an index out of range, a
    nil dereference), which no function of the program returns as an error. *)
Inductive error : Type :=
  (* core/relalg *)
  | ErrInvalidOp | ErrInvalidAggFunc | ErrUnknownPredicate
  | ErrInvalidPredicate | ErrINCardinality
  (* core/relalg/interp *)
  | ErrUnsupported | ErrUnknownColumn | ErrUnknownRelation
  | ErrIncomparable | ErrJoinCardinality | ErrMixed | ErrLimit
  (* core/codegen *)
  | ErrUnsupportedExpr | ErrUnboundedWrite | ErrINValue | ErrInsertShape
  (* core/entity *)
  | ErrDuplicateEntity | ErrEmptyName
  (* core/tool *)
  | ErrInvalidInput | ErrRowPolicyViolation | ErrSubject | ErrUnauthorized
  (* core/budget, core/ratelimit *)
  | ErrExceeded | ErrRateLimited | ErrCircuitOpen
  (* the Go run time *)
  | Panic.

#[global] Instance error_eq_dec : EqDecision error.
Proof. solve_decision. Defined.

(** ** The result of fallible code: a value, or an error. *)
Inductive result (A : Type) : Type :=
  | Ok (a : A)
  | Err (e : error).
Arguments Ok {A} a.
Arguments Err {A} e.

#[global] Instance result_ret : MRet result := @Ok.
#[global] Instance result_bind : MBind result := fun A B k c =>
  match c with Ok a => k a | Err e => Err e end.
#[global] Instance result_fmap : FMap result := fun A B f c =>
  match c with Ok a => Ok (f a) | Err e => Err e end.

Definition is_ok {A} (r : result A) : bool :=
  match r with Ok _ => true | Err _ => false end.

(** [guard_ok b e]: go on when [b], else fail with [e]. *)
Definition check (b : bool) (e : error) : result unit :=
  if b then Ok tt else Err e.

(** [row[i]]: an index past the slice panics. *)
Definition index {A} (l : list A) (i : nat) : result A :=
  match l !! i with Some a => Ok a | None => Err Panic end.

Lemma bind_ok {A B} (c : result A) (k : A -> result B) b :
  c ≫= k = Ok b -> exists a, c = Ok a /\ k a = Ok b.
Proof. destruct c; cbn; [eauto|done]. Qed.

Lemma fmap_ok {A B} (c : result A) (f : A -> B) b :
  f <$> c = Ok b -> exists a, c = Ok a /\ b = f a.
Proof. destruct c; cbn; intros [=]; eauto. Qed.

Lemma index_ok {A} (l : list A) i a : index l i = Ok a <-> l !! i = Some a.
Proof. unfold index. destruct (l !! i); naive_solver. Qed.

Lemma check_ok b e u : check b e = Ok u <-> b = true.
Proof. unfold check. destruct b, u; naive_solver. Qed.

(** Inverts every successful computation of the context, one bind at a time. *)
Ltac inv_ok1 :=
  match goal with
  | H : Ok _ = Ok _ |- _ => injection H as H
  | H : Err _ = Ok _ |- _ => discriminate H
  | H : Ok _ = Err _ |- _ => discriminate H
  | H : mret _ = Ok _ |- _ => unfold mret, result_ret in H
  | H : (_ ≫= _) = Ok _ |- _ =>
      apply bind_ok in H; let a := fresh "a" in let E := fresh "E" in destruct H as (a & E & H)
  | H : mbind _ _ = Ok _ |- _ =>
      apply bind_ok in H; let a := fresh "a" in let E := fresh "E" in destruct H as (a & E & H)
  | H : check _ _ = Ok _ |- _ => apply check_ok in H
  end.
Ltac inv_ok := repeat (inv_ok1; simplify_eq).

(** ** Lists *)

Lemma mapM_ok {A B} (f : A -> result B) (l : list A) (k : list B) :
  mapM f l = Ok k <-> Forall2 (fun a b => f a = Ok b) l k.
Proof.
  revert k. induction l as [|a l IH]; intros k; simpl; split.
  - intros H; inv_ok. constructor.
  - by inversion 1.
  - intros H; inv_ok. constructor; [done|]. by apply IH.
  - inversion 1 as [|? b ? k' Hb Hk]; subst. rewrite Hb; cbn.
    apply IH in Hk. by rewrite Hk.
Qed.

Lemma mapM_length {A B} (f : A -> result B) l k :
  mapM f l = Ok k -> length k = length l.
Proof. intros H%mapM_ok. by symmetry; eapply Forall2_length. Qed.

(** [filterM]: the elements a fallible test keeps, the first error winning. *)
Fixpoint filterM {A} (f : A -> result bool) (l : list A) : result (list A) :=
  match l with
  | [] => Ok []
  | a :: l => b ← f a; k ← filterM f l; Ok (if (b : bool) then a :: k else k)
  end.

Lemma filterM_elem {A} (f : A -> result bool) l k a :
  filterM f l = Ok k -> a ∈ k <-> a ∈ l /\ f a = Ok true.
Proof.
  revert k. induction l as [|x l IH]; intros k H; simpl in H; inv_ok.
  - rewrite elem_of_nil. naive_solver.
  - rewrite elem_of_cons. specialize (IH _ E0) as Hk.
    destruct a0; rewrite ?elem_of_cons, Hk; intuition congruence.
Qed.

Lemma filterM_sublist {A} (f : A -> result bool) l k :
  filterM f l = Ok k -> k `sublist_of` l.
Proof.
  revert k. induction l as [|x l IH]; intros k H; simpl in H; inv_ok; [constructor|].
  destruct a; [apply sublist_skip|apply sublist_cons]; eauto.
Qed.

(** ** Strings

    A Go string is a sequence of bytes: [string], whose characters are the
    256 byte values. *)

Fixpoint has_byte (c : Ascii.ascii) (s : string) : bool :=
  match s with
  | EmptyString => false
  | String d s => Ascii.eqb c d || has_byte c s
  end.

Lemma has_byte_app c s t : has_byte c (s +:+ t) = has_byte c s || has_byte c t.
Proof. induction s as [|d s IH]; simpl; [done|]. by rewrite IH, orb_assoc. Qed.

Lemma string_app_assoc (s t u : string) : (s +:+ t) +:+ u = s +:+ (t +:+ u).
Proof. induction s as [|d s IH]; [done|]. unfold String.append in *. simpl. by rewrite IH. Qed.

Lemma string_app_nil_r (s : string) : s +:+ "" = s.
Proof. induction s as [|d s IH]; [done|]. unfold String.append in *. simpl. by rewrite IH. Qed.

Lemma string_length_app (s t : string) :
  String.length (s +:+ t) = (String.length s + String.length t)%nat.
Proof. induction s as [|d s IH]; [done|]. unfold String.append in *. simpl. by rewrite IH. Qed.

Lemma string_app_inj_r (s t u : string) : s +:+ u = t +:+ u -> s = t.
Proof.
  revert t. induction s as [|a s IH]; intros [|b t] H; try done.
  1,2: apply (f_equal String.length) in H; rewrite !string_length_app in H; simpl in H; lia.
  injection H as -> H. f_equal. auto.
Qed.

(** A separator neither prefix holds splits a string in one way. *)
Lemma split_byte_inj c s s' t t' :
  has_byte c s = false -> has_byte c s' = false ->
  s +:+ String c t = s' +:+ String c t' -> s = s' /\ t = t'.
Proof.
  revert s'. induction s as [|d s IH]; intros [|d' s']; cbn; intros H H' [=]; subst; try done.
  - by rewrite Ascii.eqb_refl in H'.
  - by rewrite Ascii.eqb_refl in H.
  - apply orb_false_iff in H as [_ H], H' as [_ H'].
    destruct (IH s') as [-> ->]; done.
Qed.

(** Decimal numerals hold digits and a leading sign only. *)
Definition digit_or_dash (c : Ascii.ascii) : bool :=
  existsb (Ascii.eqb c) ["0";"1";"2";"3";"4";"5";"6";"7";"8";"9";"-"]%char.

Lemma pretty_N_go_bytes c x s :
  digit_or_dash c = false -> has_byte c s = false -> has_byte c (pretty_N_go x s) = false.
Proof.
  intros Hc. revert s. induction (N.lt_wf_0 x) as [x _ IH]; intros s Hs.
  assert (x = 0 \/ 0 < x)%N as [->|Hx] by lia; [by rewrite pretty_N_go_0|].
  rewrite pretty_N_go_step by done. apply IH; [by apply N.div_lt|].
  cbn. rewrite Hs, orb_false_r. unfold digit_or_dash in Hc. simpl in Hc.
  rewrite !orb_false_iff in Hc. destruct_and!. unfold pretty_N_char. by repeat case_match.
Qed.

Lemma pretty_Z_bytes c (z : Z) : digit_or_dash c = false -> has_byte c (pretty z) = false.
Proof.
  intros Hc. assert (forall n : N, has_byte c (pretty n) = false) as HN.
  { intros n. unfold pretty, pretty_N. case_decide; [|by apply pretty_N_go_bytes].
    unfold digit_or_dash in Hc. simpl in Hc. rewrite !orb_false_iff in Hc.
    destruct_and!. simpl. by rewrite orb_false_r. }
  destruct z as [|p|p]; [apply (HN 0%N)|apply (HN (Npos p))|].
  change (has_byte c ("-" +:+ pretty (Npos p)) = false).
  rewrite has_byte_app, HN, orb_false_r. unfold digit_or_dash in Hc. simpl in Hc.
  rewrite !orb_false_iff in Hc. destruct_and!. simpl. by rewrite orb_false_r.
Qed.

(** ** Machine integers *)

(** int64 arithmetic wraps around. *)
Definition w64 (z : Z) : Z := (z + 2 ^ 63) mod 2 ^ 64 - 2 ^ 63.

Lemma w64_id z : - 2 ^ 63 <= z < 2 ^ 63 -> w64 z = z.
Proof. intros H. unfold w64. rewrite Z.mod_small; lia. Qed.

Lemma w64_w64_add a b : w64 (w64 a + b) = w64 (a + b).
Proof.
  unfold w64. replace ((a + 2 ^ 63) mod 2 ^ 64 - 2 ^ 63 + b + 2 ^ 63) with ((a + 2 ^ 63) mod 2 ^ 64 + b) by lia.
  rewrite Zplus_mod_idemp_l. do 2 f_equal. lia.
Qed.

(** ** Sums over a list *)

Fixpoint sumOver {A} (g : A -> Z) (l : list A) : Z := match l with [] => 0 | x :: l => g x + sumOver g l end.

Lemma sumOver_insert {A} (g : A -> Z) l i x y : l !! i = Some x -> sumOver g (<[i := y]> l) = sumOver g l - g x + g y.
Proof.
  revert i. induction l as [|z l IH]; intros [|i] H; simplify_eq/=; [lia|]. rewrite (IH i) by done. lia.
Qed.

Lemma sumOver_le {A} (g h : A -> Z) l : (forall x, x ∈ l -> g x <= h x) -> sumOver g l <= sumOver h l.
Proof.
  induction l as [|x l IH]; intros H; simpl; [lia|]. pose proof (H x ltac:(constructor)).
  specialize (IH ltac:(intros; apply H; by constructor)). lia.
Qed.

Lemma sumOver_perm {A} (g : A -> Z) l k : l ≡ₚ k -> sumOver g l = sumOver g k.
Proof. induction 1; simpl; lia. Qed.

Lemma sumOver_ext {A} (g h : A -> Z) l : (forall x, x ∈ l -> g x = h x) -> sumOver g l = sumOver h l.
Proof. induction l as [|x l IH]; intros He; simpl; [done|]. rewrite (He x), IH; [done| |set_solver]. intros y Hy. apply He. set_solver. Qed.

Lemma sumOver_zero {A} (g : A -> Z) l : (forall x, x ∈ l -> g x = 0) -> sumOver g l = 0.
Proof. intros Hz. induction l as [|x l IH]; simpl; [done|]. rewrite Hz, IH by set_solver. done. Qed.

Lemma sumOver_snoc {A} (g : A -> Z) l a : sumOver g (l ++ [a]) = sumOver g l + g a.
Proof. induction l as [|y l IH]; simpl; lia. Qed.

Lemma sumOver_nonneg {A} (g : A -> Z) l : (forall a, 0 <= g a) -> 0 <= sumOver g l.
Proof. intros Hg. induction l as [|y l IH]; simpl; [lia|]. specialize (Hg y). lia. Qed.

Lemma sumOver_zero_all {A} (g : A -> Z) l i a : (forall b, 0 <= g b) -> sumOver g l = 0 -> l !! i = Some a -> g a = 0.
Proof.
  intros Hg Hs Hi. pose proof (sumOver_insert g l i a a Hi) as Hx. revert l Hs Hi Hx. induction i as [|i IH]; intros [|y l] Hs Hi Hx; simpl in *; try done.
  - injection Hi as ->. pose proof (sumOver_nonneg g l Hg). specialize (Hg a). lia.
  - pose proof (sumOver_nonneg g l Hg). pose proof (Hg y). apply (IH l); [lia|done|lia].
Qed.

Lemma sumOver_pointwise {A B} (g : A -> Z) (h : B -> Z) (l : list A) (k : list B) :
  length l = length k -> (forall i x y, l !! i = Some x -> k !! i = Some y -> g x <= h y) -> sumOver g l <= sumOver h k.
Proof.
  revert k. induction l as [|x l IH]; intros [|y k] Hlen Hp; simpl in *; try lia. specialize (IH k ltac:(lia)).
  specialize (Hp 0%nat x y eq_refl eq_refl) as H0. assert (sumOver g l <= sumOver h k); [|lia]. apply IH. intros i a b Ha Hb. by apply (Hp (S i)).
Qed.

(** ** Sorted lists *)

Lemma StronglySorted_snoc {A} (R : A -> A -> Prop) l x :
  StronglySorted R l -> Forall (fun y => R y x) l -> StronglySorted R (l ++ [x]).
Proof.
  induction 1 as [|y l Hs IH Hy]; intros H; simpl; [repeat constructor|].
  apply Forall_cons in H as [Hyx H]. constructor; [auto|].
  apply Forall_app. split; [done|]. by constructor.
Qed.

Lemma Sorted_filter {A} (R : A -> A -> Prop) (P : A -> Prop) `{!forall x, Decision (P x)} l :
  StronglySorted R l -> StronglySorted R (filter P l).
Proof.
  induction 1 as [|x l Hl IH Hx]; [constructor|]. rewrite filter_cons. destruct (decide (P x)); [|done].
  constructor; [done|]. apply Forall_forall. intros y [_ Hy]%list_elem_of_filter. by eapply Forall_forall in Hx.
Qed.

Lemma Sorted_ext {A} (R S : A -> A -> Prop) l :
  (forall a b, a ∈ l -> b ∈ l -> R a b -> S a b) -> StronglySorted R l -> StronglySorted S l.
Proof.
  intros HRS Hl. induction Hl as [|x l Hl IH Hx]; [constructor|]. constructor.
  - apply IH. intros a b Ha Hb. apply HRS; by constructor.
  - apply Forall_forall. intros y Hy. apply HRS; [by constructor|by constructor|]. by eapply Forall_forall in Hx.
Qed.

Lemma list_filter_empty {A} (P : A -> Prop) `{!forall x, Decision (P x)} l :
  (forall x, x ∈ l -> ~ P x) -> filter P l = [].
Proof.
  induction l as [|x l IH]; intros Hl; [done|]. rewrite filter_cons_False by (apply Hl; constructor).
  apply IH. intros y Hy. apply Hl. by constructor.
Qed.

(** ** Sets *)

Lemma size_list_to_set_le (l : list string) : (size (list_to_set l : gset string) <= length l)%nat.
Proof.
  induction l as [|x l IH]; [done|]. simpl.
  pose proof (size_union_alt ({[x]} : gset string) (list_to_set l)) as Hu. rewrite size_singleton in Hu.
  assert (size ((list_to_set l : gset string) ∖ {[x]}) <= size (list_to_set l : gset string))%nat
    by (apply subseteq_size; set_solver). lia.
Qed.

Create HintDb sqlmcp.
#[export] Hint Rewrite has_byte_app string_app_assoc string_app_nil_r : sqlmcp.
