(* ===== verification/GoString.v ===== *)
(** Go strings as text: UTF-8 runes ([range s], [[]rune(s)], [string(r)],
    utf8.DecodeRuneInString) and the parts of package strings the code uses
    (ToLower, TrimSpace, EqualFold against desc, Cut, HasPrefix, HasSuffix). *)

From S2P Require Import Prelude.

(** ** Bytes *)

Definition byteZ (c : ascii) : Z := Z.of_N (N_of_ascii c).
Definition asciiZ (b : Z) : ascii := ascii_of_N (Z.to_N b).

Fixpoint bytes (s : string) : list Z :=
  match s with EmptyString => [] | String c s => byteZ c :: bytes s end.

Fixpoint of_bytes (bs : list Z) : string :=
  match bs with [] => EmptyString | b :: bs => String (asciiZ b) (of_bytes bs) end.

(** ** Decoding

    The ranges are those of utf8.DecodeRune: a byte that starts no valid
    sequence decodes as U+FFFD, one byte wide. *)

Definition RuneError : Z := 0xFFFD.

Definition inb (lo hi b : Z) : bool := (lo <=? b) && (b <=? hi).
Definition cont (b : Z) : bool := inb 0x80 0xBF b.

Definition valid2 (b0 b1 : Z) : bool := inb 0xC2 0xDF b0 && cont b1.
Definition valid3 (b0 b1 b2 : Z) : bool :=
  ((b0 =? 0xE0) && inb 0xA0 0xBF b1
   || (b0 =? 0xED) && inb 0x80 0x9F b1
   || (inb 0xE1 0xEC b0 || inb 0xEE 0xEF b0) && cont b1) && cont b2.
Definition valid4 (b0 b1 b2 b3 : Z) : bool :=
  ((b0 =? 0xF0) && inb 0x90 0xBF b1
   || (b0 =? 0xF4) && inb 0x80 0x8F b1
   || inb 0xF1 0xF3 b0 && cont b1) && cont b2 && cont b3.

Definition rune2 (b0 b1 : Z) : Z := (b0 - 0xC0) * 0x40 + (b1 - 0x80).
Definition rune3 (b0 b1 b2 : Z) : Z :=
  (b0 - 0xE0) * 0x1000 + (b1 - 0x80) * 0x40 + (b2 - 0x80).
Definition rune4 (b0 b1 b2 b3 : Z) : Z :=
  (b0 - 0xF0) * 0x40000 + (b1 - 0x80) * 0x1000 + (b2 - 0x80) * 0x40 + (b3 - 0x80).

Fixpoint decode (bs : list Z) : list Z :=
  match bs with
  | [] => []
  | b0 :: r0 =>
    if b0 <? 0x80 then b0 :: decode r0
    else match r0 with
    | b1 :: r1 =>
      if valid2 b0 b1 then rune2 b0 b1 :: decode r1
      else match r1 with
      | b2 :: r2 =>
        if valid3 b0 b1 b2 then rune3 b0 b1 b2 :: decode r2
        else match r2 with
        | b3 :: r3 =>
          if valid4 b0 b1 b2 b3 then rune4 b0 b1 b2 b3 :: decode r3
          else RuneError :: decode r0
        | [] => RuneError :: decode r0
        end
      | [] => RuneError :: decode r0
      end
    | [] => RuneError :: decode r0
    end
  end.

Definition runes (s : string) : list Z := decode (bytes s).

(** The width of the first rune (utf8.DecodeRuneInString's second result). *)
Definition firstWidth (s : string) : nat :=
  match bytes s with
  | [] => 0%nat
  | b0 :: r =>
    if b0 <? 0x80 then 1%nat
    else match r with
    | b1 :: r => if valid2 b0 b1 then 2%nat else
      match r with
      | b2 :: r => if valid3 b0 b1 b2 then 3%nat else
        match r with
        | b3 :: _ => if valid4 b0 b1 b2 b3 then 4%nat else 1%nat
        | [] => 1%nat
        end
      | [] => 1%nat
      end
    | [] => 1%nat
    end
  end.

(** ** Encoding: [string(r)] of a rune *)

Definition valid_rune (r : Z) : bool := inb 0 0xD7FF r || inb 0xE000 0x10FFFF r.

Definition encodeRune (r : Z) : list Z :=
  let r := if valid_rune r then r else RuneError in
  if r <? 0x80 then [r]
  else if r <? 0x800 then [0xC0 + r / 0x40; 0x80 + r mod 0x40]
  else if r <? 0x10000 then
    [0xE0 + r / 0x1000; 0x80 + (r / 0x40) mod 0x40; 0x80 + r mod 0x40]
  else [0xF0 + r / 0x40000; 0x80 + (r / 0x1000) mod 0x40;
        0x80 + (r / 0x40) mod 0x40; 0x80 + r mod 0x40].

Definition of_runes (rs : list Z) : string := of_bytes (flat_map encodeRune rs).

(** ** Package strings *)

Definition prefix_of (p s : string) : bool := String.prefix p s.

(** [s[:n]] and [s[n:]] *)
Definition str_take (n : nat) (s : string) : string := String.substring 0 n s.
Definition str_drop (n : nat) (s : string) : string :=
  String.substring n (String.length s - n) s.

Definition has_suffix (s t : string) : bool :=
  (String.length t <=? String.length s)%nat &&
  bool_decide (str_drop (String.length s - String.length t) s = t).

(** strings.Cut(s, sep) for a one-byte separator *)
Fixpoint cut (sep : ascii) (s : string) : option (string * string) :=
  match s with
  | EmptyString => None
  | String c s =>
      if Ascii.eqb c sep then Some (EmptyString, s)
      else match cut sep s with
           | Some (a, b) => Some (String c a, b)
           | None => None
           end
  end.

(** unicode.IsSpace *)
Definition is_space (r : Z) : bool :=
  inb 9 13 r || (r =? 32) || (r =? 0x85) || (r =? 0xA0) || (r =? 0x1680)
  || inb 0x2000 0x200A r || (r =? 0x2028) || (r =? 0x2029) || (r =? 0x202F)
  || (r =? 0x205F) || (r =? 0x3000).

Fixpoint drop_spaces (rs : list Z) : list Z :=
  match rs with
  | r :: rs' => if is_space r then drop_spaces rs' else rs
  | [] => []
  end.

(** unicode.ToLower: ASCII as Go has it, the rest from the Unicode tables,
    which are a parameter. *)
Definition lowerRune (unicode_lower : Z -> Z) (r : Z) : Z :=
  if inb 65 90 r then r + 32 else if r <? 0x80 then r else unicode_lower r.

(** strings.ToLower(strings.TrimSpace(s)): the runes, trimmed and mapped
    (strings.Map writes an invalid byte as U+FFFD). *)
Definition lower_trim (unicode_lower : Z -> Z) (s : string) : string :=
  of_runes (map (lowerRune unicode_lower)
             (reverse (drop_spaces (reverse (drop_spaces (runes s)))))).

(** strings.ToLower(s) *)
Definition lower (unicode_lower : Z -> Z) (s : string) : string :=
  of_runes (map (lowerRune unicode_lower) (runes s)).

(** strings.EqualFold(s, desc): the long s (U+017F) folds to s. *)
Definition is_desc (s : string) : bool :=
  match runes s with
  | [d; e; s; c] =>
      ((d =? 100) || (d =? 68)) && ((e =? 101) || (e =? 69))
      && ((s =? 115) || (s =? 83) || (s =? 0x17F)) && ((c =? 99) || (c =? 67))
  | _ => false
  end.

(** ** Round trips *)

Lemma byteZ_range c : 0 <= byteZ c < 256.
Proof. unfold byteZ. pose proof (N_ascii_bounded c). lia. Qed.

Lemma asciiZ_byteZ c : asciiZ (byteZ c) = c.
Proof. unfold asciiZ, byteZ. by rewrite N2Z.id, ascii_N_embedding. Qed.

Lemma byteZ_asciiZ b : 0 <= b < 256 -> byteZ (asciiZ b) = b.
Proof. intros. unfold asciiZ, byteZ. rewrite N_ascii_embedding; lia. Qed.

Lemma of_bytes_bytes s : of_bytes (bytes s) = s.
Proof. induction s; simpl; [done|]. by rewrite asciiZ_byteZ, IHs. Qed.

Lemma bytes_of_bytes bs : Forall (fun b => 0 <= b < 256) bs -> bytes (of_bytes bs) = bs.
Proof. induction 1; simpl; [done|]. rewrite byteZ_asciiZ by done. congruence. Qed.

Lemma bytes_app s t : bytes (s +:+ t) = bytes s ++ bytes t.
Proof. induction s; [done|]. simpl. by rewrite IHs. Qed.

Lemma inb_spec lo hi b : inb lo hi b = true <-> lo <= b <= hi.
Proof. unfold inb. rewrite andb_true_iff, !Z.leb_le. lia. Qed.

Lemma inb_false lo hi b : inb lo hi b = false <-> b < lo \/ hi < b.
Proof. rewrite <- not_true_iff_false, inb_spec. lia. Qed.

(** The encoding of a valid rune, with the bounds of its bytes. *)
Lemma encodeRune_bytes r : Forall (fun b => 0 <= b < 256) (encodeRune r).
Proof.
  unfold encodeRune. set (r' := if valid_rune r then r else RuneError).
  assert (0 <= r' <= 0x10FFFF).
  { subst r'. destruct (valid_rune r) eqn:E; [|unfold RuneError; lia].
    unfold valid_rune in E. apply orb_true_iff in E. rewrite !inb_spec in E. lia. }
  assert (forall a, 0 <= a mod 64 < 64) by (intros; apply Z.mod_pos_bound; lia).
  repeat case_match; repeat constructor; rewrite ?Z.ltb_lt, ?Z.ltb_ge in *;
    try (pose proof (H0 r'); pose proof (H0 (r' / 64)); pose proof (H0 (r' / 4096)); lia);
    Z.div_mod_to_equations; lia.
Qed.

Lemma decode_encodeRune r bs :
  valid_rune r = true -> decode (encodeRune r ++ bs) = r :: decode bs.
Proof.
  intros Hv. unfold encodeRune. rewrite Hv.
  unfold valid_rune in Hv. apply orb_true_iff in Hv. rewrite !inb_spec in Hv.
  destruct (Z.ltb_spec r 0x80) as [H1|H1].
  { simpl. by rewrite (proj2 (Z.ltb_lt _ _) H1). }
  assert (forall q, 0 <= q mod 64 < 64) as Hm by (intros; apply Z.mod_pos_bound; lia).
  pose proof (Hm r) as Hm0. pose proof (Hm (r / 64)) as Hm1. pose proof (Hm (r / 4096)) as Hm2.
  pose proof (Z.div_mod r 64 ltac:(lia)) as D0.
  pose proof (Z.div_mod (r / 64) 64 ltac:(lia)) as D1.
  pose proof (Z.div_mod (r / 4096) 64 ltac:(lia)) as D2.
  assert (r / 4096 = r / 64 / 64) as E1 by (rewrite Z.div_div by lia; done).
  assert (r / 262144 = r / 4096 / 64) as E2 by (rewrite Z.div_div by lia; done).
  destruct (Z.ltb_spec r 0x800) as [H2|H2].
  { cbn [app decode]. rewrite (proj2 (Z.ltb_ge _ _)) by lia.
    assert (valid2 (192 + r / 64) (128 + r mod 64) = true) as ->.
    { unfold valid2, cont. rewrite andb_true_iff, !inb_spec. lia. }
    f_equal. unfold rune2. lia. }
  destruct (Z.ltb_spec r 0x10000) as [H3|H3].
  { cbn [app decode]. rewrite (proj2 (Z.ltb_ge _ _)) by lia.
    assert (valid2 (224 + r / 4096) (128 + (r / 64) mod 64) = false) as ->.
    { unfold valid2. apply andb_false_iff. left. apply inb_false. lia. }
    assert (valid3 (224 + r / 4096) (128 + (r / 64) mod 64) (128 + r mod 64) = true) as ->.
    { unfold valid3, cont. rewrite !andb_true_iff, !orb_true_iff, !andb_true_iff, !orb_true_iff,
        !Z.eqb_eq, !inb_spec. lia. }
    f_equal. unfold rune3. lia. }
  cbn [app decode]. rewrite (proj2 (Z.ltb_ge _ _)) by lia.
  assert (forall b, valid2 (240 + r / 262144) b = false) as ->.
  { intros. unfold valid2. apply andb_false_iff. left. apply inb_false. lia. }
  assert (forall b c, valid3 (240 + r / 262144) b c = false) as ->.
  { intros. unfold valid3. apply andb_false_iff. left.
    rewrite !orb_false_iff, !andb_false_iff, !Z.eqb_neq, !orb_false_iff, !inb_false. lia. }
  assert (valid4 (240 + r / 262144) (128 + (r / 4096) mod 64) (128 + (r / 64) mod 64)
            (128 + r mod 64) = true) as ->.
  { unfold valid4, cont. rewrite !andb_true_iff, !orb_true_iff, !andb_true_iff,
      !Z.eqb_eq, !inb_spec. lia. }
  f_equal. unfold rune4. lia.
Qed.

Lemma runes_of_runes rs :
  Forall (fun r => valid_rune r = true) rs -> runes (of_runes rs) = rs.
Proof.
  intros H. unfold runes, of_runes. rewrite bytes_of_bytes.
  - induction H as [|r rs Hr _ IH]; simpl; [done|]. by rewrite decode_encodeRune, IH.
  - clear H. induction rs; simpl; [constructor|]. apply Forall_app. split; [|done].
    apply encodeRune_bytes.
Qed.
