(* ===== verification/Value.v ===== *)
(** Go's dynamic values ([any]) and their comparison: core/relalg/interp/value.go.

    The value type lists the dynamic types the modelled code tells apart;
    [compareValues] is the order the interpreter filters, joins and sorts by,
    and [valueKey]/[rowKey] the canonical text DISTINCT and GROUP BY hash by. *)

From Stdlib Require Import QArith Qreduction.
From S2P Require Import Prelude.

#[global] Open Scope Z_scope.

(** ** The values *)

Inductive int_kind : Type :=
  | KInt | KInt8 | KInt16 | KInt32 | KInt64
  | KUint | KUint8 | KUint16 | KUint32 | KUint64.

#[global] Instance int_kind_eq_dec : EqDecision int_kind.
Proof. solve_decision. Defined.

(** A [float64]: NaN, an infinity, or a finite number, given by the shortest
    decimal that reads back as it ([strconv.FormatFloat(f, 'g', -1, 64)]):
    [FFin m e] is [m * 10^e].  Every finite float has one, and the code looks
    at a float through it only. *)
Inductive float64 : Type :=
  | FNaN
  | FInf (neg : bool)
  | FFin (m e : Z).

Inductive value : Type :=
  | VNil
  | VBool (b : bool)
  | VInt (k : int_kind) (n : Z)
  | VFloat64 (f : float64)
  | VFloat32 (f : float64)
  | VRat (r : option Q)          (** *big.Rat; [None] is the nil pointer *)
  | VString (s : string)
  | VBytes (s : string)
  | VNumber (s : string)         (** json.Number *)
  | VList (l : list value)       (** []any *)
  | VMap (m : list (string * value))
  | VStringer (s : string)       (** any other fmt.Stringer, by its text *)
  | VOther (t : string).         (** any other dynamic type, by its name *)

Definition is_nil (v : value) : bool := match v with VNil => true | _ => false end.

Lemma is_nil_spec v : is_nil v = true <-> v = VNil.
Proof. destruct v; naive_solver. Qed.

(** ** toRat: the exact rational of a numeric value *)

Definition decimal (m e : Z) : Q :=
  if 0 <=? e then inject_Z (m * 10 ^ e) else Qmake m (Z.to_pos (10 ^ (- e))).

Definition toRat (v : value) : option Q :=
  match v with
  | VInt KInt n | VInt KInt32 n | VInt KInt64 n => Some (inject_Z n)
  | VFloat64 (FFin m e) => Some (decimal m e)
  | VRat r => r
  | _ => None
  end.

Definition boolCmp (a b : bool) : comparison :=
  if Bool.eqb a b then Eq else if negb a then Lt else Gt.

(** compareValues: numbers numerically, strings bytewise, false before true;
    anything else is incomparable. *)
Definition compareValues (a b : value) : result comparison :=
  match toRat a with
  | Some ra => match toRat b with
               | Some rb => Ok (Qcompare ra rb)
               | None => Err ErrIncomparable
               end
  | None =>
    match a with
    | VString sa => match b with
                    | VString sb => Ok (String.compare sa sb)
                    | _ => Err ErrIncomparable
                    end
    | VBool ba => match b with
                  | VBool bb => Ok (boolCmp ba bb)
                  | _ => Err ErrIncomparable
                  end
    | _ => Err ErrIncomparable
    end
  end.

(** compareForSort: two NULLs tie. *)
Definition compareForSort (a b : value) : result comparison :=
  if is_nil a && is_nil b then Ok Eq else compareValues a b.

(** ** Keys *)

(** [big.Rat.RatString]: lowest terms, the denominator only when it is not 1. *)
Definition ratString (q : Q) : string :=
  let r := Qred q in
  if decide (Qden r = 1%positive) then pretty (Qnum r)
  else (pretty (Qnum r) +:+ "/" +:+ pretty (Zpos (Qden r)))%string.

Definition valueKey (v : value) : result string :=
  if is_nil v then Ok "n"%string
  else match toRat v with
  | Some r => Ok ("r:" +:+ ratString r)%string
  | None =>
    match v with
    | VString s => Ok ("s:" +:+ s)%string
    | VBool b => Ok (if b then "b:1" else "b:0")%string
    | _ => Err ErrIncomparable
    end
  end.

Definition NUL : string := String Ascii.zero EmptyString.

(** [strings.Join(parts, sep)] *)
Fixpoint join (sep : string) (parts : list string) : string :=
  match parts with
  | [] => ""
  | [p] => p
  | p :: ps => p +:+ sep +:+ join sep ps
  end%string.

Definition rowKey (row : list value) : result string :=
  parts ← mapM valueKey row; Ok (join NUL parts).

(** ** The order *)

(** What a comparable value is compared by. *)
Inductive ordkey : Type :=
  | ONum (q : Q)
  | OStr (s : string)
  | OBool (b : bool).

Definition ordKey (v : value) : option ordkey :=
  match toRat v with
  | Some q => Some (ONum q)
  | None => match v with
            | VString s => Some (OStr s)
            | VBool b => Some (OBool b)
            | _ => None
            end
  end.

Definition ordCompare (a b : ordkey) : option comparison :=
  match a, b with
  | ONum p, ONum q => Some (Qcompare p q)
  | OStr s, OStr t => Some (String.compare s t)
  | OBool x, OBool y => Some (boolCmp x y)
  | _, _ => None
  end.

Lemma toRat_string s : toRat (VString s) = None. Proof. done. Qed.

Lemma compareValues_ord a b :
  compareValues a b =
    match ordKey a, ordKey b with
    | Some x, Some y => match ordCompare x y with Some c => Ok c | None => Err ErrIncomparable end
    | _, _ => Err ErrIncomparable
    end.
Proof.
  unfold compareValues, ordKey.
  destruct (toRat a) eqn:Ea, (toRat b) eqn:Eb; simpl; repeat case_match; simplify_eq/=; done.
Qed.

(** *** Laws of the three orders *)

Lemma boolCmp_antisym a b : boolCmp b a = CompOpp (boolCmp a b).
Proof. by destruct a, b. Qed.

Lemma boolCmp_eq a b : boolCmp a b = Eq <-> a = b.
Proof. destruct a, b; cbn; naive_solver. Qed.

Lemma Ascii_compare_trans a b c :
  Ascii.compare a b = Lt -> Ascii.compare b c = Lt -> Ascii.compare a c = Lt.
Proof. unfold Ascii.compare. rewrite !N.compare_lt_iff. lia. Qed.

Lemma Ascii_compare_eq a b : Ascii.compare a b = Eq <-> a = b.
Proof.
  unfold Ascii.compare. rewrite N.compare_eq_iff. split; [|by intros ->].
  intros H. by rewrite <- (Ascii.ascii_N_embedding a), H, Ascii.ascii_N_embedding.
Qed.

Lemma String_compare_refl s : String.compare s s = Eq.
Proof.
  induction s as [|a s IH]; [done|]. simpl.
  by assert (Ascii.compare a a = Eq) as -> by by apply Ascii_compare_eq.
Qed.

Lemma String_compare_trans s t u :
  String.compare s t = Lt -> String.compare t u = Lt -> String.compare s u = Lt.
Proof.
  revert t u. induction s as [|a s IH]; intros [|b t] [|c u]; simpl; try done.
  destruct (Ascii.compare a b) eqn:Eab; try done;
    destruct (Ascii.compare b c) eqn:Ebc; try done; intros H1 H2;
    try apply Ascii_compare_eq in Eab as ->; try apply Ascii_compare_eq in Ebc as ->.
  - assert (Ascii.compare c c = Eq) as -> by by apply Ascii_compare_eq. eauto.
  - by rewrite Ebc.
  - by rewrite Eab.
  - by rewrite (Ascii_compare_trans _ _ _ Eab Ebc).
Qed.

(** A comparison that is a total preorder on the keys of one kind. *)
Lemma ordCompare_antisym a b :
  ordCompare b a = CompOpp <$> ordCompare a b.
Proof.
  destruct a, b; simpl; try done; f_equal.
  - by rewrite Qcompare_antisym.
  - by rewrite String.compare_antisym.
  - apply boolCmp_antisym.
Qed.

Lemma ordCompare_refl a : ordCompare a a = Some Eq.
Proof.
  destruct a; simpl; f_equal.
  - by apply Qeq_alt.
  - apply String_compare_refl.
  - by apply boolCmp_eq.
Qed.

(** Equal keys compare alike with every other key. *)
Lemma ordCompare_eq_l a b c :
  ordCompare a b = Some Eq -> ordCompare a c = ordCompare b c.
Proof.
  destruct a, b; simpl; intros [= H]; destruct c; simpl; try done; f_equal.
  - apply Qeq_alt in H. by rewrite H.
  - apply String.compare_eq_iff in H. by subst.
  - apply boolCmp_eq in H. by subst.
Qed.

Lemma ordCompare_lt_trans a b c :
  ordCompare a b = Some Lt -> ordCompare b c = Some Lt -> ordCompare a c = Some Lt.
Proof.
  destruct a, b; simpl; intros [= H]; destruct c; simpl; intros [= H2]; f_equal.
  - apply Qlt_alt in H, H2. apply Qlt_alt. eapply Qlt_trans; eauto.
  - eapply String_compare_trans; eauto.
  - by destruct b0, b, b1.
Qed.

(** *** Lifted to values *)

Lemma compareValues_antisym a b :
  compareValues b a = CompOpp <$> compareValues a b.
Proof.
  rewrite !compareValues_ord. destruct (ordKey a), (ordKey b); try done.
  rewrite (ordCompare_antisym o o0). by destruct (ordCompare o o0).
Qed.

Lemma compareValues_eq_l a b v :
  compareValues a b = Ok Eq -> compareValues a v = compareValues b v.
Proof.
  rewrite !compareValues_ord. destruct (ordKey a) as [ka|]; [|done].
  destruct (ordKey b) as [kb|]; [|done].
  destruct (ordCompare ka kb) as [[]|] eqn:E; try done. intros _.
  destruct (ordKey v); [|done]. by rewrite (ordCompare_eq_l _ _ _ E).
Qed.

Lemma compareValues_eq_sym a b : compareValues a b = Ok Eq -> compareValues b a = Ok Eq.
Proof. intros H. by rewrite compareValues_antisym, H. Qed.

Lemma compareValues_eq_r a b v :
  compareValues a b = Ok Eq -> compareValues v a = compareValues v b.
Proof.
  intros H. rewrite (compareValues_antisym a v), (compareValues_antisym b v).
  by rewrite (compareValues_eq_l _ _ _ H).
Qed.

Lemma compareValues_eq_trans a b c :
  compareValues a b = Ok Eq -> compareValues b c = Ok Eq -> compareValues a c = Ok Eq.
Proof. intros H H2. by rewrite (compareValues_eq_l _ _ _ H). Qed.

Lemma compareValues_lt_trans a b c :
  compareValues a b = Ok Lt -> compareValues b c = Ok Lt -> compareValues a c = Ok Lt.
Proof.
  rewrite !compareValues_ord.
  destruct (ordKey a) as [x|], (ordKey b) as [y|], (ordKey c) as [z|]; try done;
    destruct (ordCompare x y) as [[]|] eqn:E1; try done;
    destruct (ordCompare y z) as [[]|] eqn:E2; try done.
  intros _ _. by rewrite (ordCompare_lt_trans _ _ _ E1 E2).
Qed.

Lemma compareValues_nil_l v : compareValues VNil v = Err ErrIncomparable.
Proof. done. Qed.

Lemma compareValues_nil_r v : compareValues v VNil = Err ErrIncomparable.
Proof. rewrite compareValues_ord. simpl. by destruct (ordKey v). Qed.

Lemma compareValues_ok_not_nil a b c :
  compareValues a b = Ok c -> is_nil a = false /\ is_nil b = false.
Proof.
  intros H. split; apply not_true_iff_false; rewrite is_nil_spec; intros ->.
  - by rewrite compareValues_nil_l in H.
  - by rewrite compareValues_nil_r in H.
Qed.

(** ** The keys tell values apart *)

Lemma ratString_bytes c q :
  digit_or_dash c = false -> c <> "/"%char -> has_byte c (ratString q) = false.
Proof.
  intros Hc Hs. unfold ratString. case_decide; [by apply pretty_Z_bytes|].
  rewrite !has_byte_app, !pretty_Z_bytes by done. simpl.
  by rewrite (proj2 (Ascii.eqb_neq _ _)).
Qed.

Lemma ratString_inj p q : ratString p = ratString q -> Qeq p q.
Proof.
  intros H. rewrite <- (Qred_correct p), <- (Qred_correct q). revert H.
  unfold ratString. destruct (Qred p) as [n d], (Qred q) as [n' d']; simpl.
  assert (forall z : Z, has_byte "/" (pretty z) = false) as Hz
    by (intros; by apply pretty_Z_bytes).
  repeat case_decide; subst; intros HS.
  - apply (inj pretty) in HS. by subst.
  - apply (f_equal (has_byte "/")) in HS. rewrite !has_byte_app, !Hz in HS. done.
  - apply (f_equal (has_byte "/")) in HS. rewrite !has_byte_app, !Hz in HS. done.
  - apply split_byte_inj in HS as [Hn Hd]; [|done..].
    apply (inj pretty) in Hn, Hd. by simplify_eq.
Qed.

(** Values with one key are both NULL or equal in the order. *)
Lemma valueKey_inj a b k :
  valueKey a = Ok k -> valueKey b = Ok k -> (a = VNil /\ b = VNil) \/ compareValues a b = Ok Eq.
Proof.
  unfold valueKey. destruct (is_nil a) eqn:Na; [apply is_nil_spec in Na as ->|].
  { intros [= <-]. destruct (is_nil b) eqn:Nb; [apply is_nil_spec in Nb as ->; auto|].
    destruct (toRat b); [done|]. destruct b; try done. by destruct b. }
  destruct (is_nil b) eqn:Nb; [apply is_nil_spec in Nb as ->|].
  { intros Ha [= <-]. destruct (toRat a); [done|]. destruct a; try done. by destruct b. }
  intros Ha Hb. right. rewrite compareValues_ord. unfold ordKey.
  destruct (toRat a) as [p|] eqn:Ea, (toRat b) as [q|] eqn:Eb.
  - simplify_eq. simpl. f_equal. by apply Qeq_alt, ratString_inj.
  - destruct b; try done; [destruct b|]; simplify_eq.
  - destruct a; try done; [destruct b0|]; simplify_eq.
  - destruct a as [|x| | | | |s| | | | | |], b as [|y| | | | |s2| | | | | |]; try done;
      try destruct x; try destruct y; simplify_eq; try done.
    simpl. by rewrite String_compare_refl.
Qed.

(** Equal values have one key. *)
Lemma valueKey_eq a b : compareValues a b = Ok Eq -> valueKey a = valueKey b.
Proof.
  intros H. destruct (compareValues_ok_not_nil _ _ _ H) as [Na Nb].
  rewrite compareValues_ord in H. unfold valueKey. rewrite Na, Nb. unfold ordKey in H.
  destruct (toRat a) as [p|], (toRat b) as [q|].
  - simpl in H. injection H as H. apply Qeq_alt in H. unfold ratString.
    by rewrite (Qred_complete _ _ H).
  - destruct b; done.
  - destruct a; done.
  - destruct a as [|x| | | | |s| | | | | |], b as [|y| | | | |s2| | | | | |]; try done; simpl in H.
    + by destruct x, y.
    + injection H as H. apply String.compare_eq_iff in H. by subst.
Qed.

(** No NUL byte in a text cell (PostgreSQL's [text] has none). *)
Definition nul_free (v : value) : bool :=
  match v with VString s => negb (has_byte Ascii.zero s) | _ => true end.

Lemma valueKey_nul_free v k :
  nul_free v = true -> valueKey v = Ok k -> has_byte Ascii.zero k = false.
Proof.
  unfold valueKey. destruct (is_nil v); [by intros _ [= <-]|].
  destruct (toRat v) as [q|] eqn:E.
  { intros _ [= <-]. rewrite has_byte_app. by rewrite ratString_bytes. }
  destruct v as [|b| | | | |s| | | | | |]; try done; intros H [= <-].
  - by destruct b.
  - simpl. apply negb_true_iff in H. exact H.
Qed.

Lemma join_inj ps qs :
  Forall (fun p => has_byte Ascii.zero p = false) ps ->
  Forall (fun p => has_byte Ascii.zero p = false) qs ->
  length ps = length qs -> join NUL ps = join NUL qs -> ps = qs.
Proof.
  intros Hp. revert qs. induction Hp as [|p ps Hp Hps IH]; intros [|q qs] Hq Hl H; try done.
  apply Forall_cons in Hq as [Hq Hqs]. injection Hl as Hl.
  destruct ps as [|p' ps], qs as [|q' qs]; try done; simpl in H; [by f_equal|].
  apply split_byte_inj in H as [-> H]; [|done..]. f_equal. by apply IH.
Qed.

(** Cells that hash alike: both NULL, or equal. *)
Definition same_cell (a b : value) : Prop := (a = VNil /\ b = VNil) \/ compareValues a b = Ok Eq.

Lemma rowKey_inj r1 r2 k :
  Forall (fun v => nul_free v = true) r1 -> Forall (fun v => nul_free v = true) r2 ->
  length r1 = length r2 -> rowKey r1 = Ok k -> rowKey r2 = Ok k -> Forall2 same_cell r1 r2.
Proof.
  intros N1 N2 Hl H1 H2. unfold rowKey in *. inv_ok.
  assert (forall r ps, Forall (fun v => nul_free v = true) r -> mapM valueKey r = Ok ps ->
            Forall (fun p => has_byte Ascii.zero p = false) ps) as Hfree.
  { intros r ps Hn Hm%mapM_ok. induction Hm; constructor; apply Forall_cons in Hn as [??];
      eauto using valueKey_nul_free. }
  pose proof (mapM_length _ _ _ E) as L1. pose proof (mapM_length _ _ _ E0) as L2.
  eapply join_inj in H1; [|eauto..|lia]. subst.
  apply mapM_ok in E, E0. clear -E E0. revert r2 E. induction E0 as [|y k r1 ks Hy _ IH];
    intros r2 E; inversion E; subst; constructor; eauto.
  eapply valueKey_inj; eauto.
Qed.

(** [rowKey] joins with NUL, so two different rows with NUL in their text
    cells may share a key. *)
Example rowKey_collision :
  rowKey [VString ("a" +:+ NUL +:+ "s:b"); VString "c"] =
  rowKey [VString "a"; VString ("b" +:+ NUL +:+ "s:c")].
Proof. reflexivity. Qed.
