(* ===== verification/Relalg.v ===== *)
(** The relational algebra IR: core/relalg (relalg.go, validate.go, walk.go).

    Logical plans ([Expr]) and predicates ([Predicate]) as the code has them,
    the whitelist validation every plan passes before it is rendered or
    evaluated, and the predicate walks.  A nil interface value is a
    constructor of its own ([PNil], [ENil]): the code tests for it. *)

From S2P Require Import Prelude Value.

(** ** Operators and aggregate functions

    Both are Go strings; the constants are constructors and every other
    string is [OpOther]/[AggOther]. *)

Inductive Op : Type :=
  | OpEq | OpNe | OpGt | OpGte | OpLt | OpLte
  | OpIn | OpNotIn | OpLike | OpIsNull | OpIsNotNull
  | OpOther (s : string).

#[global] Instance Op_eq_dec : EqDecision Op.
Proof. solve_decision. Defined.

Definition Op_of_string (s : string) : Op :=
  if decide (s = "eq") then OpEq else if decide (s = "ne") then OpNe
  else if decide (s = "gt") then OpGt else if decide (s = "gte") then OpGte
  else if decide (s = "lt") then OpLt else if decide (s = "lte") then OpLte
  else if decide (s = "in") then OpIn else if decide (s = "not_in") then OpNotIn
  else if decide (s = "like") then OpLike else if decide (s = "is_null") then OpIsNull
  else if decide (s = "is_not_null") then OpIsNotNull else OpOther s.

Definition Op_Valid (o : Op) : bool :=
  match o with OpOther _ => false | _ => true end.

Inductive AggFunc : Type :=
  | AggCount | AggSum | AggAvg | AggMin | AggMax
  | AggOther (s : string).

#[global] Instance AggFunc_eq_dec : EqDecision AggFunc.
Proof. solve_decision. Defined.

Definition AggFunc_Valid (f : AggFunc) : bool :=
  match f with AggOther _ => false | _ => true end.

(** [string(f)] *)
Definition AggFunc_string (f : AggFunc) : string :=
  match f with
  | AggCount => "count" | AggSum => "sum" | AggAvg => "avg"
  | AggMin => "min" | AggMax => "max" | AggOther s => s
  end.

(** ** Plan data *)

Record RelationRef : Type := mkRef { Schema : string; RefName : string }.

Record ProjectItem : Type := mkItem { ItemField : string; ItemAlias : string }.

Definition ProjectFields (fields : list string) : list ProjectItem :=
  (fun f => {| ItemField := f; ItemAlias := "" |}) <$> fields.

Record AggCall : Type := mkAgg {
  AggFn : AggFunc;
  AggField : string;
  AggDistinct : bool;
  AggName : string;
}.

Record OrderTerm : Type := mkTerm {
  TermField : string;
  TermDir : string;
  TermNullable : bool;
}.

Definition Tuple : Type := list value.

Record SetItem : Type := mkSet { SetField : string; SetValue : value }.

Record JoinPair : Type := mkPair { PLeft : string; PRight : string }.

(** ** Predicates *)

Record Condition : Type := mkCond {
  CField : string;
  COp : Op;
  CValue : value;
}.

Inductive Predicate : Type :=
  | PNil
  | PCond (c : Condition)
  | PAnd (ps : list Predicate)
  | POr (ps : list Predicate)
  | PNot (p : Predicate)
  | PExists (r : RelationRef) (on : list JoinPair) (p : Predicate).

Definition is_pnil (p : Predicate) : bool :=
  match p with PNil => true | _ => false end.

(** Induction through the lists of AND and OR. *)
Section Predicate_ind.
Context (P : Predicate -> Prop).
Hypothesis HNil : P PNil.
Hypothesis HCond : forall c, P (PCond c).
Hypothesis HAnd : forall ps, Forall P ps -> P (PAnd ps).
Hypothesis HOr : forall ps, Forall P ps -> P (POr ps).
Hypothesis HNot : forall p, P p -> P (PNot p).
Hypothesis HExists : forall r on p, P p -> P (PExists r on p).

Fixpoint Predicate_ind' (p : Predicate) : P p :=
  let all := fix all (ps : list Predicate) : Forall P ps :=
    match ps with
    | [] => Forall_nil_2 P
    | q :: qs => Forall_cons_2 P q qs (Predicate_ind' q) (all qs)
    end in
  match p with
  | PNil => HNil
  | PCond c => HCond c
  | PAnd ps => HAnd ps (all ps)
  | POr ps => HOr ps (all ps)
  | PNot q => HNot q (Predicate_ind' q)
  | PExists r on q => HExists r on q (Predicate_ind' q)
  end.
End Predicate_ind.

(** ** Plans *)

Inductive Expr : Type :=
  | ENil
  | EScan (r : RelationRef) (alias : string)
  | ESelect (input : Expr) (p : Predicate)
  | EProject (input : Expr) (items : list ProjectItem)
  | EAggregate (input : Expr) (groupBy : list string) (aggs : list AggCall)
  | ESort (input : Expr) (orderBy : list OrderTerm)
  | ELimit (input : Expr) (count offset : Z)
  | EJoin (input : Expr) (right : RelationRef) (alias : string)
          (on : list JoinPair) (rightPredicate : Predicate)
  | EHaving (input : Expr) (p : Predicate)
  | EDistinct (input : Expr)
  | EInsert (target : RelationRef) (columns : list string) (tuples : list Tuple)
  | EUpdate (target : RelationRef) (p : Predicate) (set : list SetItem)
  | EDelete (target : RelationRef) (p : Predicate)
  | ECall (procedure : RelationRef) (args : list value).

(** Input: the input of a unary node. *)
Definition Input (e : Expr) : option Expr :=
  match e with
  | ESelect i _ | EProject i _ | EAggregate i _ _ | ESort i _ | ELimit i _ _
  | EDistinct i | EHaving i _ | EJoin i _ _ _ _ => Some i
  | _ => None
  end.

(** ** Validation *)

Fixpoint HasExists (p : Predicate) : bool :=
  match p with
  | PExists _ _ _ => true
  | PAnd ps | POr ps => existsb HasExists ps
  | PNot q => HasExists q
  | PNil | PCond _ => false
  end.

Definition validateCondition (c : Condition) (maxIN : Z) : result unit :=
  if decide (CField c = "") then Err ErrInvalidPredicate
  else if negb (Op_Valid (COp c)) then Err ErrInvalidOp
  else match COp c with
  | OpIsNull | OpIsNotNull => if is_nil (CValue c) then Ok tt else Err ErrInvalidPredicate
  | OpIn | OpNotIn =>
      match CValue c with
      | VList values =>
          if (length values =? 0)%nat || (maxIN <? Z.of_nat (length values))
          then Err ErrINCardinality else Ok tt
      | _ => Err ErrINCardinality
      end
  | _ => Ok tt
  end.

(** The loop of validatePredicateList, each operand checked by [validate]. *)
Fixpoint validateEach (validate : Predicate -> result unit) (ps : list Predicate) : result unit :=
  match ps with
  | [] => Ok tt
  | p :: ps =>
      if is_pnil p then Err ErrInvalidPredicate
      else _ ← validate p; validateEach validate ps
  end.

Definition validatePredicateList (validate : Predicate -> result unit) (ps : list Predicate) : result unit :=
  if (length ps =? 0)%nat then Err ErrInvalidPredicate else validateEach validate ps.

Definition DefaultMaxINCardinality : Z := 1000.

(** ValidatePredicateWithMaxINCardinality.  Every call checks [maxIN] first,
    and it never changes: the recursion below it is [validateWith]. *)
Fixpoint validateWith (maxIN : Z) (p : Predicate) : result unit :=
  match p with
  | PNil => Ok tt
  | PCond c => validateCondition c maxIN
  | PAnd ps => validatePredicateList (validateWith maxIN) ps
  | POr ps => validatePredicateList (validateWith maxIN) ps
  | PNot q => if is_pnil q then Err ErrInvalidPredicate else validateWith maxIN q
  | PExists r on q =>
      if bool_decide (RefName r = "") || (length on =? 0)%nat then Err ErrInvalidPredicate
      else if HasExists q then Err ErrInvalidPredicate
      else validateWith maxIN q
  end.

Definition ValidatePredicateWithMaxINCardinality (p : Predicate) (maxIN : Z) : result unit :=
  if maxIN <=? 0 then Err ErrINCardinality else validateWith maxIN p.

Definition ValidatePredicate (p : Predicate) : result unit :=
  ValidatePredicateWithMaxINCardinality p DefaultMaxINCardinality.

(** ** Walks *)

Fixpoint MapConditions (p : Predicate) (f : Condition -> Condition) : Predicate :=
  match p with
  | PCond c => PCond (f c)
  | PAnd ps => PAnd (map (fun q => MapConditions q f) ps)
  | POr ps => POr (map (fun q => MapConditions q f) ps)
  | PNot q => PNot (MapConditions q f)
  | PNil | PExists _ _ _ => p
  end.

(** The conditions of p in the order the walk meets them, EXISTS left out. *)
Fixpoint conditions (p : Predicate) : list Condition :=
  match p with
  | PCond c => [c]
  | PAnd ps | POr ps => flat_map conditions ps
  | PNot q => conditions q
  | PNil | PExists _ _ _ => []
  end.

(** Each once, in the order they first appear ([seen] and [out] of Fields). *)
Fixpoint dedup (seen : list string) (l : list string) : list string :=
  match l with
  | [] => []
  | x :: l => if bool_decide (x ∈ seen) then dedup seen l else x :: dedup (x :: seen) l
  end.

Definition Fields (p : Predicate) : list string := dedup [] (CField <$> conditions p).

(** ** Lemmas *)

Lemma dedup_elem seen l x : x ∈ dedup seen l <-> x ∈ l /\ x ∉ seen.
Proof.
  revert seen. induction l as [|y l IH]; intros seen; simpl.
  - rewrite elem_of_nil. tauto.
  - case_bool_decide as Hy; rewrite ?elem_of_cons, IH, ?not_elem_of_cons.
    + split; [tauto|]. intros [[->|?] ?]; tauto.
    + destruct (decide (x = y)) as [->|]; tauto.
Qed.

Lemma dedup_NoDup seen l : NoDup (dedup seen l).
Proof.
  revert seen. induction l as [|y l IH]; intros seen; simpl; [constructor|].
  case_bool_decide; [done|]. constructor; [|done]. rewrite dedup_elem, elem_of_cons. tauto.
Qed.

Lemma Fields_spec p x : x ∈ Fields p <-> exists c, c ∈ conditions p /\ CField c = x.
Proof.
  unfold Fields. rewrite dedup_elem, list_elem_of_fmap. split.
  - intros [(c & -> & ?) _]. eauto.
  - intros (c & ? & <-). split; [eauto|apply not_elem_of_nil].
Qed.

Lemma HasExists_MapConditions p f : HasExists (MapConditions p f) = HasExists p.
Proof.
  induction p as [| | ps IH | ps IH | |] using Predicate_ind'; simpl; try done;
    induction IH as [|q ps Hq _ IH2]; simpl; [done|by rewrite Hq, IH2|done|by rewrite Hq, IH2].
Qed.

Lemma conditions_MapConditions p f : conditions (MapConditions p f) = map f (conditions p).
Proof.
  induction p as [| | ps IH | ps IH | |] using Predicate_ind'; simpl; try done;
    induction IH as [|q ps Hq _ IH2]; simpl; rewrite ?map_app; [done|by rewrite Hq, IH2|done|by rewrite Hq, IH2].
Qed.

Lemma MapConditions_compose p f g :
  MapConditions (MapConditions p g) f = MapConditions p (fun c => f (g c)).
Proof.
  induction p as [| | ps IH | ps IH | |] using Predicate_ind'; simpl; try done; try congruence;
    f_equal; rewrite map_map; induction IH; simpl; congruence.
Qed.

Lemma validateEach_ok v ps :
  validateEach v ps = Ok tt <-> Forall (fun p => is_pnil p = false /\ v p = Ok tt) ps.
Proof.
  induction ps as [|p ps IH]; simpl; [by split|].
  rewrite Forall_cons, <- IH. destruct (is_pnil p); [naive_solver|].
  destruct (v p) as [[]|]; cbn; [tauto|]. split; [done|]. by intros [[_ [=]] _].
Qed.

(** What validation accepts, stated outright. *)
Fixpoint wf_predicate (maxIN : Z) (p : Predicate) : Prop :=
  match p with
  | PNil => True
  | PCond c =>
      CField c <> ""%string /\ Op_Valid (COp c) = true /\
      (COp c = OpIsNull \/ COp c = OpIsNotNull -> CValue c = VNil) /\
      (COp c = OpIn \/ COp c = OpNotIn ->
         exists vs, CValue c = VList vs /\ vs <> [] /\ Z.of_nat (length vs) <= maxIN)
  | PAnd ps | POr ps =>
      ps <> [] /\ fold_right (fun q acc => q <> PNil /\ wf_predicate maxIN q /\ acc) True ps
  | PNot q => q <> PNil /\ wf_predicate maxIN q
  | PExists r on q =>
      RefName r <> ""%string /\ on <> [] /\ HasExists q = false /\ wf_predicate maxIN q
  end.

Lemma validateCondition_ok c maxIN :
  validateCondition c maxIN = Ok tt <-> wf_predicate maxIN (PCond c).
Proof.
  unfold validateCondition. simpl. case_decide as Hf; [naive_solver|].
  destruct (Op_Valid (COp c)) eqn:Ho; simpl; [|naive_solver].
  destruct (COp c); simpl in *; try done;
    try (split; [intros _; split_and!; naive_solver|done]).
  3,4: destruct (is_nil (CValue c)) eqn:E; [apply is_nil_spec in E|]; split; try done;
    try naive_solver; intros (_ & _ & H & _); by rewrite H in E by auto.
  all: destruct (CValue c); try (split; [done|]; intros (_ & _ & _ & H); naive_solver);
    destruct l as [|v l]; simpl; [split; [done|]; intros (_ & _ & _ & H); naive_solver|];
    destruct (Z.ltb_spec maxIN (Z.of_nat (S (length l)))) as [Hl|Hl].
  1,3: split; [done|]; intros (_ & _ & _ & H2); destruct H2 as (? & [= <-] & _ & H2); [auto|];
    simpl in *; lia.
  all: split; [|done]; intros _; split_and!; [done|done|naive_solver|];
    intros _; eexists; split_and!; [done..|]; simpl; lia.
Qed.

Lemma is_pnil_false p : is_pnil p = false <-> p <> PNil.
Proof. destruct p; naive_solver. Qed.

Lemma validatePredicateList_ok maxIN ps :
  Forall (fun p => validateWith maxIN p = Ok tt <-> wf_predicate maxIN p) ps ->
  validatePredicateList (validateWith maxIN) ps = Ok tt <->
  ps <> [] /\ fold_right (fun q acc => q <> PNil /\ wf_predicate maxIN q /\ acc) True ps.
Proof.
  intros IH. unfold validatePredicateList. destruct ps as [|p0 ps0]; [simpl; naive_solver|].
  simpl (_ =? _)%nat. cbv iota. rewrite validateEach_ok. remember (p0 :: ps0) as ps eqn:Eps.
  assert (ps <> []) as Hne by by subst. clear Eps.
  transitivity (fold_right (fun q acc => q <> PNil /\ wf_predicate maxIN q /\ acc) True ps);
    [|tauto]. clear Hne.
  induction IH as [|p ps Hp _ IH]; simpl; [by split|].
  rewrite Forall_cons, IH, Hp, is_pnil_false. tauto.
Qed.

Lemma validateWith_ok maxIN p : validateWith maxIN p = Ok tt <-> wf_predicate maxIN p.
Proof.
  induction p as [|c|ps IH|ps IH|p IH|r on p IH] using Predicate_ind'; simpl.
  - naive_solver.
  - apply validateCondition_ok.
  - by apply validatePredicateList_ok.
  - by apply validatePredicateList_ok.
  - rewrite <- is_pnil_false. destruct (is_pnil p); naive_solver.
  - rewrite <- IH. case_bool_decide; simpl; [naive_solver|].
    destruct on; simpl; [naive_solver|]. destruct (HasExists p); naive_solver.
Qed.
