(* ===== verification/Interp.v ===== *)
(** The reference interpreter of the read-path IR: core/relalg/interp
    (predicate.go, join.go, interp.go, aggregate.go).

    A relation carries its columns, its rows, the database its predicates
    evaluate EXISTS against and how many of its last columns joins added.
    Each operator is the Go function on its evaluated input; [eval] composes
    them as the Go function does. *)

From Stdlib Require Import QArith.
From S2P Require Import Prelude GoString Value Relalg.

#[global] Open Scope Z_scope.

(** ** Three-valued logic *)

Inductive tri : Type := triFalse | triUnknown | triTrue.

#[global] Instance tri_eq_dec : EqDecision tri.
Proof. solve_decision. Defined.

Definition triNot (v : tri) : tri :=
  match v with triTrue => triFalse | triFalse => triTrue | triUnknown => triUnknown end.

Definition boolTri (b : bool) : tri := if b then triTrue else triFalse.

(** ** Tables and relations *)

Record Table : Type := mkTable { TCols : list string; TRows : list (list value) }.

Abbreviation DB := (gmap string Table).

Record relation : Type := mkRel {
  Cols : list string;
  Rows : list (list value);
  rdb : DB;
  hidden : nat;
}.

(** [r[:n]]: past the row it panics. *)
Definition slice_to {A} (n : nat) (l : list A) : result (list A) :=
  if (n <=? length l)%nat then Ok (take n l) else Err Panic.

Definition visible (r : relation) : result relation :=
  if (hidden r =? 0)%nat then Ok r
  else
    _ ← check (hidden r <=? length (Cols r))%nat Panic;
    let n := (length (Cols r) - hidden r)%nat in
    rows ← mapM (slice_to n) (Rows r);
    Ok {| Cols := take n (Cols r); Rows := rows; rdb := ∅; hidden := 0 |}.

Fixpoint find_index (name : string) (cols : list string) : option nat :=
  match cols with
  | [] => None
  | c :: cols => if decide (c = name) then Some 0%nat else S <$> find_index name cols
  end.

Definition colIndex (r : relation) (name : string) : result nat :=
  match find_index name (Cols r) with Some i => Ok i | None => Err ErrUnknownColumn end.

(** ** Conditions *)

Definition evalComparison (left : value) (op : Op) (right : value) : result tri :=
  if is_nil left || is_nil right then Ok triUnknown
  else
    c ← compareValues left right;
    match op with
    | OpEq => Ok (boolTri (match c with Eq => true | _ => false end))
    | OpNe => Ok (boolTri (match c with Eq => false | _ => true end))
    | OpGt => Ok (boolTri (match c with Gt => true | _ => false end))
    | OpGte => Ok (boolTri (match c with Lt => false | _ => true end))
    | OpLt => Ok (boolTri (match c with Lt => true | _ => false end))
    | OpLte => Ok (boolTri (match c with Gt => false | _ => true end))
    | _ => Err ErrUnsupported
    end.

(** The loop of evalIn, [result] the outcome so far. *)
Fixpoint evalInLoop (left : value) (values : list value) (acc : tri) : result tri :=
  match values with
  | [] => Ok acc
  | v :: values =>
      eq ← evalComparison left OpEq v;
      match eq with
      | triTrue => Ok triTrue
      | triUnknown => evalInLoop left values triUnknown
      | triFalse => evalInLoop left values acc
      end
  end.

Definition evalIn (left value : value) : result tri :=
  match value with
  | VList values => evalInLoop left values triFalse
  | _ => Err ErrUnsupported
  end.

(** likeRegexp: the pattern as a sequence of regexp items, anchored at both
    ends, [.] matching any rune. *)
Inductive like_item : Type :=
  | LLit (r : Z)   (** QuoteMeta(string(r)) *)
  | LOne           (** . *)
  | LAny.          (** .* *)

Fixpoint likeItems (escaped : bool) (pattern : list Z) : list like_item :=
  match pattern with
  | [] => if escaped then [LLit 92] else []
  | r :: rest =>
      if escaped then LLit r :: likeItems false rest
      else if r =? 92 then likeItems true rest
      else if r =? 37 then LAny :: likeItems false rest
      else if r =? 95 then LOne :: likeItems false rest
      else LLit r :: likeItems false rest
  end.

Definition likeRegexp (pattern : string) : list like_item := likeItems false (runes pattern).

(** re.MatchString on the runes of the subject. *)
Fixpoint likeMatch (re : list like_item) : list Z -> bool :=
  match re with
  | [] => fun s => match s with [] => true | _ => false end
  | LLit r :: re => fun s => match s with x :: s => (x =? r) && likeMatch re s | [] => false end
  | LOne :: re => fun s => match s with _ :: s => likeMatch re s | [] => false end
  | LAny :: re => fix any (s : list Z) :=
      likeMatch re s || match s with _ :: s => any s | [] => false end
  end.

Definition evalLike (left pattern : value) : result tri :=
  if is_nil left || is_nil pattern then Ok triUnknown
  else match left, pattern with
  | VString s, VString p => Ok (boolTri (likeMatch (likeRegexp p) (runes s)))
  | _, _ => Err ErrIncomparable
  end.

Definition evalOp (left : value) (c : Condition) : result tri :=
  match COp c with
  | OpIsNull => Ok (boolTri (is_nil left))
  | OpIsNotNull => Ok (boolTri (negb (is_nil left)))
  | OpIn => evalIn left (CValue c)
  | OpNotIn => v ← evalIn left (CValue c); Ok (triNot v)
  | OpLike => evalLike left (CValue c)
  | op => evalComparison left op (CValue c)
  end.

Definition evalCondition (r : relation) (row : list value) (c : Condition) : result tri :=
  i ← colIndex r (CField c);
  v ← index row i;
  evalOp v c.

(** ** Predicates *)

(** evalAnd and evalOr: [ev] evaluates an operand, [acc] is [result]. *)
Definition evalAnd (ev : Predicate -> result tri) : tri -> list Predicate -> result tri :=
  fix go (acc : tri) (ps : list Predicate) : result tri :=
    match ps with
    | [] => Ok acc
    | p :: ps =>
        v ← ev p;
        match v with
        | triFalse => Ok triFalse
        | triUnknown => go triUnknown ps
        | triTrue => go acc ps
        end
    end.

Definition evalOr (ev : Predicate -> result tri) : tri -> list Predicate -> result tri :=
  fix go (acc : tri) (ps : list Predicate) : result tri :=
    match ps with
    | [] => Ok acc
    | p :: ps =>
        v ← ev p;
        match v with
        | triTrue => Ok triTrue
        | triUnknown => go triUnknown ps
        | triFalse => go acc ps
        end
    end.

(** eval of a Scan: a lookup by name (schemas are ignored). *)
Definition evalScan (db : DB) (r : RelationRef) : result relation :=
  match db !! RefName r with
  | Some t => Ok {| Cols := TCols t; Rows := TRows t; rdb := ∅; hidden := 0 |}
  | None => Err ErrUnknownRelation
  end.

(** The inner loop of matching: the join columns are equal (every pair is
    compared, also after one differs). *)
Fixpoint onMatches (left : relation) (row : list value) (right : relation) (candidate : list value)
    (on : list JoinPair) (ok : bool) : result bool :=
  match on with
  | [] => Ok ok
  | p :: on =>
      l ← colIndex left (PLeft p);
      r ← colIndex right (PRight p);
      lv ← index row l;
      rv ← index candidate r;
      eq ← evalComparison lv OpEq rv;
      onMatches left row right candidate on (ok && bool_decide (eq = triTrue))
  end.

(** matching: the rows of right [row] joins, [evp] evaluating the predicate
    on a row of right. *)
Definition matching (left : relation) (row : list value) (right : relation) (on : list JoinPair)
    (evp : list value -> result tri) : result (list (list value)) :=
  filterM (fun candidate =>
    ok ← onMatches left row right candidate on true;
    if (ok : bool) then v ← evp candidate; Ok (bool_decide (v = triTrue))
    else Ok false) (Rows right).

Definition with_db (r : relation) (db : DB) : relation :=
  {| Cols := Cols r; Rows := Rows r; rdb := db; hidden := hidden r |}.

Fixpoint evalPredicate (p : Predicate) (rel : relation) (row : list value) {struct p} : result tri :=
  match p with
  | PNil => Ok triTrue
  | PCond c => evalCondition rel row c
  | PAnd ps => evalAnd (fun q => evalPredicate q rel row) triTrue ps
  | POr ps => evalOr (fun q => evalPredicate q rel row) triFalse ps
  | PNot q => v ← evalPredicate q rel row; Ok (triNot v)
  | PExists r on q =>   (* evalExists *)
      inner ← evalScan (rdb rel) r;
      let inner := with_db inner (rdb rel) in
      matches ← matching rel row inner on (evalPredicate q inner);
      Ok (boolTri (0 <? length matches)%nat)
  end.

Definition evalExists (outer : relation) (row : list value) (r : RelationRef) (on : list JoinPair)
    (q : Predicate) : result tri := evalPredicate (PExists r on q) outer row.

(** ** Operators, on their evaluated input *)

Definition evalSelect (db : DB) (input : relation) (p : Predicate) : result relation :=
  _ ← ValidatePredicate p;
  let input := with_db input db in
  rows ← filterM (fun row => v ← evalPredicate p input row; Ok (bool_decide (v = triTrue))) (Rows input);
  Ok {| Cols := Cols input; Rows := rows; rdb := ∅; hidden := hidden input |}.

Definition project_name (item : ProjectItem) : string :=
  if decide (ItemAlias item = "") then ItemField item else ItemAlias item.

Definition evalProject (input : relation) (items : list ProjectItem) : result relation :=
  idx ← mapM (fun item => colIndex input (ItemField item)) items;
  rows ← mapM (fun row => mapM (index row) idx) (Rows input);
  Ok {| Cols := project_name <$> items; Rows := rows; rdb := ∅; hidden := 0 |}.

(** The closure sort.SliceStable calls: whether a comes before b, and the
    error compareForSort met, if any. *)
Fixpoint sortLess (terms : list (nat * OrderTerm)) (a b : list value) : result (bool * option error) :=
  match terms with
  | [] => Ok (false, None)
  | (i, t) :: terms =>
      x ← index a i; y ← index b i;
      if negb (Bool.eqb (is_nil x) (is_nil y)) then Ok (is_nil y, None)
      else
        let '(c, e) := match compareForSort x y with Ok c => (c, None) | Err e => (Eq, Some e) end in
        match (if is_desc (TermDir t) then CompOpp c else c) with
        | Lt => Ok (true, e)
        | Gt => Ok (false, e)
        | Eq => '(b, e') ← sortLess terms a b; Ok (b, match e with Some _ => e | None => e' end)
        end
  end.

(** sort.SliceStable as an insertion sort: a row moves left past the rows it
    comes before.  The sorted rows are kept reversed, the last one first;
    [err] is sortErr, the first error. *)
Fixpoint insertRow (terms : list (nat * OrderTerm)) (row : list value) (sorted : list (list value))
    (err : option error) : result (list (list value) * option error) :=
  match sorted with
  | [] => Ok ([row], err)
  | last :: rest =>
      '(before, e) ← sortLess terms row last;
      let err := match err with Some _ => err | None => e end in
      if (before : bool)
      then '(rest, err) ← insertRow terms row rest err; Ok (last :: rest, err)
      else Ok (row :: last :: rest, err)
  end.

Fixpoint sliceStable (terms : list (nat * OrderTerm)) (rows : list (list value))
    (sorted : list (list value)) (err : option error) : result (list (list value) * option error) :=
  match rows with
  | [] => Ok (reverse sorted, err)
  | row :: rows =>
      '(sorted, err) ← insertRow terms row sorted err;
      sliceStable terms rows sorted err
  end.

Definition evalSort (input : relation) (orderBy : list OrderTerm) : result relation :=
  idx ← mapM (fun t => colIndex input (TermField t)) orderBy;
  '(rows, sortErr) ← sliceStable (zip idx orderBy) (Rows input) [] None;
  match (sortErr : option error) with
  | Some e => Err e
  | None => Ok {| Cols := Cols input; Rows := rows; rdb := ∅; hidden := hidden input |}
  end.

Definition evalLimit (input : relation) (count offset : Z) : result relation :=
  if (count <? 1) || (offset <? 0) then Err ErrLimit
  else
    let n := Z.of_nat (length (Rows input)) in
    let start := if n <? offset then n else offset in
    let stop := if count <? n - start then start + count else n in
    Ok {| Cols := Cols input;
          Rows := take (Z.to_nat (stop - start)) (drop (Z.to_nat start) (Rows input));
          rdb := ∅; hidden := hidden input |}.

(** The loop of evalDistinct; [seen] are the keys met. *)
Fixpoint distinctRows (seen : gset string) (rows : list (list value)) : result (list (list value)) :=
  match rows with
  | [] => Ok []
  | row :: rows =>
      key ← rowKey row;
      if decide (key ∈ seen) then distinctRows seen rows
      else out ← distinctRows ({[key]} ∪ seen) rows; Ok (row :: out)
  end.

Definition evalDistinct (input : relation) : result relation :=
  input ← visible input;
  rows ← distinctRows ∅ (Rows input);
  Ok {| Cols := Cols input; Rows := rows; rdb := ∅; hidden := 0 |}.

Definition evalJoin (db : DB) (input : relation) (rightRef : RelationRef) (alias : string)
    (on : list JoinPair) (rightPredicate : Predicate) : result relation :=
  right ← evalScan db rightRef;
  rows ← mapM (fun row =>
    matches ← matching input row right on (evalPredicate rightPredicate right);
    match matches with
    | [] => Ok (row ++ replicate (length (Cols right)) VNil)
    | [m] => Ok (row ++ m)
    | _ => Err ErrJoinCardinality
    end) (Rows input);
  Ok {| Cols := Cols input ++ ((fun c => alias +:+ "." +:+ c) <$> Cols right);
        Rows := rows; rdb := ∅; hidden := (hidden input + length (Cols right))%nat |}.

(** ** Aggregation *)

Definition aggregateCols (groupBy : list string) (aggs : list AggCall) : list string :=
  groupBy ++ ((fun a => if decide (AggName a = "") then AggFunc_string (AggFn a) else AggName a) <$> aggs).

(** groupRows: the groups with their keys, in first-seen order (the map and
    [order] of the Go function in one list). *)
Fixpoint addToGroup (key : string) (row : list value) (groups : list (string * list (list value))) :
    list (string * list (list value)) :=
  match groups with
  | [] => [(key, [row])]
  | (k, rows) :: groups =>
      if decide (k = key) then (k, rows ++ [row]) :: groups
      else (k, rows) :: addToGroup key row groups
  end.

Fixpoint groupRows (groupIdx : list nat) (rows : list (list value))
    (groups : list (string * list (list value))) : result (list (string * list (list value))) :=
  match rows with
  | [] => Ok groups
  | row :: rows =>
      keyVals ← mapM (index row) groupIdx;
      key ← rowKey keyVals;
      groupRows groupIdx rows (addToGroup key row groups)
  end.

(** The loop of aggregateInput; [seen] are the keys of a DISTINCT call. *)
Fixpoint collectValues (distinct : bool) (i : nat) (seen : gset string) (rows : list (list value)) :
    result (list value) :=
  match rows with
  | [] => Ok []
  | row :: rows =>
      v ← index row i;
      if is_nil v then collectValues distinct i seen rows
      else if distinct then
        key ← valueKey v;
        if decide (key ∈ seen) then collectValues distinct i seen rows
        else vs ← collectValues distinct i ({[key]} ∪ seen) rows; Ok (v :: vs)
      else vs ← collectValues distinct i seen rows; Ok (v :: vs)
  end.

Definition aggregateInput (input : relation) (rows : list (list value)) (call : AggCall) :
    result (list value) :=
  i ← colIndex input (AggField call);
  collectValues (AggDistinct call) i ∅ rows.

Fixpoint sumLoop (total : Q) (values : list value) : result Q :=
  match values with
  | [] => Ok total
  | v :: values =>
      match toRat v with
      | Some r => sumLoop (Qplus total r) values
      | None => Err ErrIncomparable
      end
  end.

Definition sumValues (values : list value) : result value :=
  match values with
  | [] => Ok VNil
  | _ => total ← sumLoop 0%Q values; Ok (VRat (Some total))
  end.

Definition avgValues (values : list value) : result value :=
  match values with
  | [] => Ok VNil
  | _ => total ← sumLoop 0%Q values;
         Ok (VRat (Some (Qdiv total (inject_Z (Z.of_nat (length values))))))
  end.

Fixpoint minMaxLoop (min : bool) (best : value) (values : list value) : result value :=
  match values with
  | [] => Ok best
  | v :: values =>
      c ← compareValues v best;
      minMaxLoop min (match c, min with Lt, true | Gt, false => v | _, _ => best end) values
  end.

Definition minMaxValues (values : list value) (min : bool) : result value :=
  match values with
  | [] => Ok VNil
  | v :: values => minMaxLoop min v values
  end.

Definition aggregateCall (input : relation) (rows : list (list value)) (call : AggCall) : result value :=
  if negb (AggFunc_Valid (AggFn call)) then Err ErrInvalidAggFunc
  else if bool_decide (AggFn call = AggCount) && bool_decide (AggField call = "")
  then Ok (VInt KInt64 (Z.of_nat (length rows)))
  else
    values ← aggregateInput input rows call;
    match AggFn call with
    | AggCount => Ok (VInt KInt64 (Z.of_nat (length values)))
    | AggSum => sumValues values
    | AggAvg => avgValues values
    | f => minMaxValues values (bool_decide (f = AggMin))
    end.

Definition aggregateRow (input : relation) (rows : list (list value)) (aggs : list AggCall)
    (groupIdx : list nat) : result (list value) :=
  keys ← match rows with
         | [] => Ok []
         | first :: _ => mapM (index first) groupIdx
         end;
  calls ← mapM (aggregateCall input rows) aggs;
  Ok (keys ++ calls).

(** A global aggregate over no rows has one, empty, group. *)
Definition globalGroup (groupBy : list string) (groups : list (string * list (list value))) :
    list (string * list (list value)) :=
  match groupBy, groups with [], [] => [("", [])] | _, _ => groups end.

Definition evalAggregate (input : relation) (groupBy : list string) (aggs : list AggCall) :
    result relation :=
  groupIdx ← mapM (colIndex input) groupBy;
  groups ← groupRows groupIdx (Rows input) [];
  rows ← mapM (fun g => aggregateRow input g.2 aggs groupIdx) (globalGroup groupBy groups);
  Ok {| Cols := aggregateCols groupBy aggs; Rows := rows; rdb := ∅; hidden := 0 |}.

(** ** The evaluator *)

Fixpoint eval (db : DB) (e : Expr) : result relation :=
  match e with
  | EScan r _ => evalScan db r
  | ESelect i p => input ← eval db i; evalSelect db input p
  | EProject i items => input ← eval db i; evalProject input items
  | EAggregate i groupBy aggs => input ← eval db i; evalAggregate input groupBy aggs
  | ESort i orderBy => input ← eval db i; evalSort input orderBy
  | ELimit i count offset => input ← eval db i; evalLimit input count offset
  | EDistinct i => input ← eval db i; evalDistinct input
  | EJoin i rightRef alias on p => input ← eval db i; evalJoin db input rightRef alias on p
  | EHaving i p =>
      match i with
      | EAggregate _ _ _ => input ← eval db i; evalSelect db input p
      | _ => Err ErrUnsupported
      end
  | ENil | EInsert _ _ _ | EUpdate _ _ _ | EDelete _ _ | ECall _ _ => Err ErrUnsupported
  end.

(** Eval: the columns joins added are not part of the result. *)
Definition Eval (db : DB) (e : Expr) : result Table :=
  r ← eval db e;
  r ← visible r;
  Ok {| TCols := Cols r; TRows := Rows r |}.

(** ** Well-formedness: every row has a cell per column *)

Definition wf_rel (r : relation) : Prop :=
  Forall (fun row => length row = length (Cols r)) (Rows r) /\ (hidden r <= length (Cols r))%nat.

Definition wf_db (db : DB) : Prop :=
  map_Forall (fun _ t => Forall (fun row => length row = length (TCols t)) (TRows t)) db.

(** No panic: a computation that errs does so with an error of the program. *)
Definition no_panic {A} (r : result A) : Prop := r <> Err Panic.
