(* ===== verification/InterpFacts.v ===== *)
(** Properties of the reference interpreter: type preservation and absence of
    panics, the laws of the three-valued predicates, what each operator
    returns, and the order [evalSort] produces. *)

From Stdlib Require Import QArith Sorting.Sorted.
From Stdlib Require Import Sorting.Sorted.
From S2P Require Import Prelude GoString Value Relalg Interp.

#[local] Open Scope Z_scope.

(** ** Type preservation and no panic *)

(** [safe P c]: [c] does not panic, and its result satisfies [P]. *)
Definition safe {A} (P : A -> Prop) (c : result A) : Prop :=
  match c with Ok a => P a | Err e => e <> Panic end.

Lemma safe_bind {A B} (P : A -> Prop) (Q : B -> Prop) (c : result A) (k : A -> result B) :
  safe P c -> (forall a, P a -> safe Q (k a)) -> safe Q (c ≫= k).
Proof. destruct c; cbn; auto. Qed.

Lemma safe_mono {A} (P Q : A -> Prop) (c : result A) :
  safe P c -> (forall a, P a -> Q a) -> safe Q c.
Proof. destruct c; cbn; auto. Qed.

Lemma safe_mapM {A B} (P : A -> Prop) (Q : B -> Prop) (f : A -> result B) l :
  Forall P l -> (forall a, P a -> safe Q (f a)) -> safe (Forall Q) (mapM f l).
Proof.
  intros Hl Hf. induction Hl as [|a l Ha _ IH]; cbn; [constructor|].
  specialize (Hf a Ha). destruct (f a); cbn in *; [|done].
  destruct (mapM f l); cbn in *; [by constructor|done].
Qed.

Lemma safe_mapM_length {A B} (P : A -> Prop) (Q : B -> Prop) (f : A -> result B) l :
  Forall P l -> (forall a, P a -> safe Q (f a)) ->
  safe (fun k => length k = length l /\ Forall Q k) (mapM f l).
Proof.
  intros Hl Hf. pose proof (safe_mapM P Q f l Hl Hf) as H.
  destruct (mapM f l) eqn:E; cbn in *; [|done]. split; [by eapply mapM_length|done].
Qed.

Lemma safe_filterM {A} (P : A -> Prop) (f : A -> result bool) l :
  Forall P l -> (forall a, P a -> safe (fun _ => True) (f a)) -> safe (Forall P) (filterM f l).
Proof.
  intros Hl Hf. induction Hl as [|a l Ha _ IH]; cbn; [constructor|].
  specialize (Hf a Ha). destruct (f a) as [b|]; cbn in *; [|done].
  destruct (filterM f l); cbn in *; [|done]. destruct b; [by constructor|done].
Qed.

Lemma safe_index {A} (l : list A) i : (i < length l)%nat -> safe (fun _ => True) (index l i).
Proof. intros [a Ha]%lookup_lt_is_Some_2. unfold index. by rewrite Ha. Qed.

Lemma find_index_lt name cols i : find_index name cols = Some i -> (i < length cols)%nat.
Proof.
  revert i. induction cols as [|c cols IH]; intros i; simpl; [done|].
  case_decide; [intros [= <-]; lia|].
  destruct (find_index name cols) as [j|]; simpl; [|done]. intros [= <-].
  specialize (IH j eq_refl). lia.
Qed.

Lemma safe_colIndex r name : safe (fun i => i < length (Cols r))%nat (colIndex r name).
Proof. unfold colIndex. destruct (find_index name (Cols r)) eqn:E; [by eapply find_index_lt|done]. Qed.

Lemma safe_compareValues a b : safe (fun _ => True) (compareValues a b).
Proof. unfold compareValues. by repeat case_match. Qed.

Lemma safe_valueKey v : safe (fun _ => True) (valueKey v).
Proof. unfold valueKey. by repeat case_match. Qed.

Lemma safe_rowKey row : safe (fun _ => True) (rowKey row).
Proof.
  unfold rowKey. eapply safe_bind; [|done].
  eapply (safe_mapM (fun _ => True) (fun _ => True)); [by apply Forall_true|].
  intros v _. apply safe_valueKey.
Qed.

Lemma safe_evalComparison l op r : safe (fun _ => True) (evalComparison l op r).
Proof.
  unfold evalComparison. case_match; [done|].
  eapply safe_bind; [apply safe_compareValues|]. intros c _. by destruct op.
Qed.

Lemma safe_evalOp v c : safe (fun _ => True) (evalOp v c).
Proof.
  assert (forall w, safe (fun _ => True) (evalIn v w)) as Hin.
  { intros w. unfold evalIn. destruct w; try done. generalize triFalse as acc.
    induction l as [|x l IH]; intros acc; [done|]. simpl.
    eapply safe_bind; [apply safe_evalComparison|]. by intros [] _. }
  unfold evalOp. destruct (COp c); try done; try apply safe_evalComparison.
  - eapply safe_bind; [done|done].
  - unfold evalLike. by repeat case_match.
Qed.

Lemma safe_evalCondition r row c :
  length row = length (Cols r) -> safe (fun _ => True) (evalCondition r row c).
Proof.
  intros Hl. unfold evalCondition. eapply safe_bind; [apply safe_colIndex|]. intros i Hi.
  eapply safe_bind; [apply safe_index; simpl in *; lia|]. intros v _. apply safe_evalOp.
Qed.

Lemma safe_evalScan db ref :
  wf_db db -> safe (fun r => wf_rel r /\ hidden r = 0%nat /\ rdb r = ∅) (evalScan db ref).
Proof.
  intros Hdb. unfold evalScan. destruct (db !! RefName ref) as [t|] eqn:E; [|done].
  specialize (Hdb _ _ E). simpl. split; [|done]. split; simpl; [done|lia].
Qed.

Lemma wf_db_empty : wf_db ∅.
Proof. apply map_Forall_empty. Qed.

Lemma safe_onMatches left row right cand on ok :
  length row = length (Cols left) -> length cand = length (Cols right) ->
  safe (fun _ => True) (onMatches left row right cand on ok).
Proof.
  intros Hl Hr. revert ok. induction on as [|p on IH]; intros ok; [done|]. simpl.
  eapply safe_bind; [apply safe_colIndex|]. intros i Hi.
  eapply safe_bind; [apply safe_colIndex|]. intros j Hj.
  eapply safe_bind; [apply safe_index; simpl in *; lia|]. intros x _.
  eapply safe_bind; [apply safe_index; simpl in *; lia|]. intros y _.
  eapply safe_bind; [apply safe_evalComparison|]. auto.
Qed.

Lemma safe_matching left row right on evp :
  length row = length (Cols left) -> wf_rel right ->
  (forall cand, length cand = length (Cols right) -> safe (fun _ => True) (evp cand)) ->
  safe (Forall (fun m => length m = length (Cols right))) (matching left row right on evp).
Proof.
  intros Hl [Hr _] Hp. unfold matching. apply safe_filterM; [done|]. intros cand Hc.
  eapply safe_bind; [by apply safe_onMatches|]. intros [] _; [|done].
  eapply safe_bind; [by apply Hp|done].
Qed.

Lemma evalAnd_cons ev acc p ps :
  evalAnd ev acc (p :: ps) =
    v ← ev p; match v with triFalse => Ok triFalse | triUnknown => evalAnd ev triUnknown ps
                         | triTrue => evalAnd ev acc ps end.
Proof. done. Qed.

Lemma evalOr_cons ev acc p ps :
  evalOr ev acc (p :: ps) =
    v ← ev p; match v with triTrue => Ok triTrue | triUnknown => evalOr ev triUnknown ps
                         | triFalse => evalOr ev acc ps end.
Proof. done. Qed.

Lemma safe_evalPredicate p : forall rel row,
  wf_db (rdb rel) -> length row = length (Cols rel) ->
  safe (fun _ => True) (evalPredicate p rel row).
Proof.
  induction p as [|c|ps IH|ps IH|p IH|r on p IH] using Predicate_ind'; intros rel row Hdb Hl; simpl.
  - done.
  - by apply safe_evalCondition.
  - generalize triTrue as acc. induction IH as [|q ps Hq _ IHl]; intros acc; [done|].
    rewrite evalAnd_cons. eapply safe_bind; [by apply Hq|]. by intros [] _.
  - generalize triFalse as acc. induction IH as [|q ps Hq _ IHl]; intros acc; [done|].
    rewrite evalOr_cons. eapply safe_bind; [by apply Hq|]. by intros [] _.
  - eapply safe_bind; [by apply IH|done].
  - eapply safe_bind; [by apply safe_evalScan|]. intros inner [Hw _].
    eapply safe_bind; [|done]. apply safe_matching; [done|done|]. intros cand Hc. by apply IH.
Qed.

Lemma safe_validateWith m p : safe (fun _ => True) (validateWith m p).
Proof.
  assert (forall ps, Forall (fun p => safe (fun _ => True) (validateWith m p)) ps ->
            safe (fun _ => True) (validatePredicateList (validateWith m) ps)) as Hlist.
  { intros ps H. unfold validatePredicateList. case_match; [done|].
    induction H as [|q ps Hq _ IH]; simpl; [done|]. case_match; [done|].
    eapply safe_bind; [done|]. intros _ _.
    destruct ps; [done|]. by apply IH. }
  induction p using Predicate_ind'; simpl; repeat case_match; eauto; try done.
  unfold validateCondition. by repeat case_match.
Qed.

Lemma safe_ValidatePredicate p : safe (fun _ => True) (ValidatePredicate p).
Proof.
  unfold ValidatePredicate, ValidatePredicateWithMaxINCardinality.
  case_match; [done|]. apply safe_validateWith.
Qed.

Lemma safe_evalSelect db r p : wf_db db -> wf_rel r -> safe wf_rel (evalSelect db r p).
Proof.
  intros Hdb [Hr Hh]. unfold evalSelect. eapply safe_bind; [apply safe_ValidatePredicate|]. intros _ _.
  eapply safe_bind; [apply (safe_filterM (fun row => length row = length (Cols r))); [done|]|].
  - intros row Hl. eapply safe_bind; [by apply safe_evalPredicate|done].
  - intros rows Hrows. by split.
Qed.

Lemma safe_cells (row : list value) (idx : list nat) n :
  length row = n -> Forall (fun i => i < n)%nat idx ->
  safe (fun k => length k = length idx) (mapM (index row) idx).
Proof.
  intros <- Hi. eapply safe_mono;
    [eapply (safe_mapM_length _ (fun _ => True)); [exact Hi|]; intros i Hlt; by apply safe_index|].
  by intros k [Hk _].
Qed.

Lemma safe_colIndexes r (names : list string) :
  safe (fun idx => length idx = length names /\ Forall (fun i => i < length (Cols r))%nat idx)
       (mapM (colIndex r) names).
Proof.
  apply (safe_mapM_length (fun _ => True)); [by apply Forall_true|].
  intros n _. apply safe_colIndex.
Qed.

Lemma mapM_fmap {A B C} (f : A -> B) (g : B -> result C) l :
  mapM g (f <$> l) = mapM (fun a => g (f a)) l.
Proof. induction l as [|a l IH]; cbn; [done|]. by rewrite <- IH. Qed.

Lemma safe_evalProject r items : wf_rel r -> safe wf_rel (evalProject r items).
Proof.
  intros [Hr _]. unfold evalProject. rewrite <- (mapM_fmap ItemField (colIndex r)).
  eapply safe_bind; [apply safe_colIndexes|]. intros idx [Hl Hi].
  eapply safe_bind; [eapply safe_mapM; [exact Hr|]; intros row Hrow;
    exact (safe_cells row idx _ Hrow Hi)|].
  intros rows Hrows. split; simpl; [|lia]. rewrite length_fmap in *.
  eapply Forall_impl; [exact Hrows|]. simpl. congruence.
Qed.

Lemma safe_sortLess terms a b n :
  length a = n -> length b = n -> Forall (fun t => t.1 < n)%nat terms ->
  safe (fun '(_, e) => e <> Some Panic) (sortLess terms a b).
Proof.
  intros <- Hb. induction 1 as [|[i t] terms Hi _ IH]; [done|]. simpl in *.
  eapply safe_bind; [by apply safe_index|]. intros x _.
  eapply safe_bind; [apply safe_index; lia|]. intros y _.
  case_match; [done|]. destruct (compareForSort x y) as [c|e] eqn:E.
  - destruct (is_desc (TermDir t)), c; simpl; try done;
      (eapply safe_bind; [exact IH|]; by intros [??]).
  - assert (e <> Panic).
    { unfold compareForSort in E. case_match; [done|].
      pose proof (safe_compareValues x y) as Hs. by rewrite E in Hs. }
    destruct (is_desc (TermDir t)); simpl; (eapply safe_bind; [exact IH|]; intros [??] _; naive_solver).
Qed.

Lemma safe_insertRow terms row sorted err n :
  length row = n -> Forall (fun r => length r = n) sorted ->
  Forall (fun t => t.1 < n)%nat terms -> err <> Some Panic ->
  safe (fun '(k, e) => Forall (fun r : list value => length r = n) k /\ e <> Some Panic)
       (insertRow terms row sorted err).
Proof.
  intros Hrow Hs Ht. revert err. induction Hs as [|x rest Hx Hrest IH]; intros err He; simpl.
  { split; [by repeat constructor|done]. }
  eapply safe_bind; [by eapply safe_sortLess|]. intros [b e] Hb.
  assert (match err with Some _ => err | None => e end <> Some Panic) by by destruct err.
  destruct b; [|simpl; split; [by repeat constructor|done]].
  eapply safe_bind; [by apply IH|]. intros [k e2] [Hk He2]. simpl. split; [by constructor|done].
Qed.

Lemma safe_sliceStable terms rows sorted err n :
  Forall (fun r => length r = n) rows -> Forall (fun r => length r = n) sorted ->
  Forall (fun t => t.1 < n)%nat terms -> err <> Some Panic ->
  safe (fun '(k, e) => Forall (fun r : list value => length r = n) k /\ e <> Some Panic)
       (sliceStable terms rows sorted err).
Proof.
  intros Hr Hs Ht. revert sorted Hs err. induction Hr as [|row rows Hrow _ IH]; intros sorted Hs err He; simpl.
  { split; [by apply Forall_reverse|done]. }
  eapply safe_bind; [by eapply safe_insertRow|]. intros [k e] [Hk He2]. by apply IH.
Qed.

Lemma Forall_zip_fst {A B} (P : A -> Prop) (l : list A) (k : list B) :
  Forall P l -> Forall (fun t => P t.1) (zip l k).
Proof. intros H. revert k. induction H; intros [|b k]; simpl; constructor; auto. Qed.

Lemma safe_evalSort r orderBy : wf_rel r -> safe wf_rel (evalSort r orderBy).
Proof.
  intros [Hr Hh]. unfold evalSort. rewrite <- (mapM_fmap TermField (colIndex r)).
  eapply safe_bind; [apply safe_colIndexes|]. intros idx [_ Hi].
  eapply safe_bind; [eapply safe_sliceStable; [exact Hr|by apply Forall_nil_2|exact (Forall_zip_fst _ idx orderBy Hi)|done]|].
  intros [rows [e|]] [Hrows He]; simpl; [congruence|]. by split.
Qed.

Lemma safe_evalLimit r n o : wf_rel r -> safe wf_rel (evalLimit r n o).
Proof.
  intros [Hr Hh]. unfold evalLimit. case_match; [done|]. split; simpl; [|done].
  by apply Forall_take, Forall_drop.
Qed.

Lemma safe_visible r : wf_rel r -> safe wf_rel (visible r).
Proof.
  intros [Hr Hh]. unfold visible. case_match; [by split|].
  rewrite (proj2 (Nat.leb_le _ _) Hh). cbn. set (n := (length (Cols r) - hidden r)%nat).
  eapply safe_bind.
  { eapply (safe_mapM _ (fun row => length row = n)); [exact Hr|]. intros row Hrow.
    simpl in Hrow. unfold slice_to. rewrite (proj2 (Nat.leb_le _ _)) by (subst n; lia). simpl.
    rewrite length_take. subst n. lia. }
  intros rows Hrows. split; simpl; [|lia]. eapply Forall_impl; [exact Hrows|]. simpl.
  intros row ->. rewrite length_take. subst n. lia.
Qed.

Lemma safe_distinctRows n seen rows :
  Forall (fun r => length r = n) rows ->
  safe (Forall (fun r : list value => length r = n)) (distinctRows seen rows).
Proof.
  intros H. revert seen. induction H as [|row rows Hrow _ IH]; intros seen; simpl; [constructor|].
  eapply safe_bind; [apply safe_rowKey|]. intros k _. case_decide; [done|].
  eapply safe_bind; [apply IH|]. intros out Hout. by constructor.
Qed.

Lemma safe_evalDistinct r : wf_rel r -> safe wf_rel (evalDistinct r).
Proof.
  intros H. unfold evalDistinct. eapply safe_bind; [by apply safe_visible|]. intros v [Hv _].
  eapply safe_bind; [by apply safe_distinctRows|]. intros rows Hrows. split; simpl; [done|lia].
Qed.

Lemma safe_evalJoin db r ref alias on p :
  wf_db db -> wf_rel r -> safe wf_rel (evalJoin db r ref alias on p).
Proof.
  intros Hdb [Hr Hh]. unfold evalJoin. eapply safe_bind; [by apply safe_evalScan|].
  intros right (Hright & _ & Hrdb). pose proof Hright as [Hrows _].
  eapply safe_bind.
  { eapply (safe_mapM _ (fun row => length row = length (Cols r) + length (Cols right))%nat);
      [exact Hr|]. intros row Hrow. simpl in Hrow.
    eapply safe_bind; [apply safe_matching; [done|done|]|].
    - intros cand Hc. apply safe_evalPredicate; [|done]. rewrite Hrdb. apply wf_db_empty.
    - intros [|m [|]] Hm; simpl; [|rewrite Forall_singleton in Hm|done];
        rewrite length_app, ?length_replicate; lia. }
  intros rows Hout. split; simpl; rewrite length_app, length_fmap; [done|lia].
Qed.

Lemma addToGroup_Forall (P : list value -> Prop) k row groups :
  P row -> Forall (fun g => Forall P g.2) groups -> Forall (fun g => Forall P g.2) (addToGroup k row groups).
Proof.
  intros Hrow. induction 1 as [|[k' rows] groups Hg Hgs IH]; simpl.
  - repeat constructor; simpl; auto.
  - case_decide; constructor; simpl in *; auto. apply Forall_app. auto.
Qed.

Lemma safe_groupRows n idx rows groups :
  Forall (fun r => length r = n) rows -> Forall (fun i => i < n)%nat idx ->
  Forall (fun g => Forall (fun r => length r = n) g.2) groups ->
  safe (Forall (fun g : string * list (list value) => Forall (fun r => length r = n) g.2))
       (groupRows idx rows groups).
Proof.
  intros Hr Hi. revert groups. induction Hr as [|row rows Hrow _ IH]; intros groups Hg; simpl; [done|].
  eapply safe_bind; [by eapply safe_cells|]. intros kv _.
  eapply safe_bind; [apply safe_rowKey|]. intros key _. apply IH. by apply addToGroup_Forall.
Qed.

Lemma safe_aggregateCall r rows call :
  Forall (fun row => length row = length (Cols r)) rows ->
  safe (fun _ => True) (aggregateCall r rows call).
Proof.
  intros Hr. unfold aggregateCall. case_match; [done|]. case_match; [done|].
  eapply safe_bind.
  { eapply safe_bind; [apply safe_colIndex|]. intros i Hi. generalize (∅ : gset string) as seen.
    instantiate (1 := fun _ => True).
    induction Hr as [|row rows Hrow _ IH]; intros seen; simpl; [done|].
    eapply safe_bind; [apply safe_index; simpl in *; lia|]. intros v _.
    case_match; [apply IH|]. case_match.
    - eapply safe_bind; [apply safe_valueKey|]. intros key _. destruct (decide (key ∈ seen)); [apply IH|].
      eapply safe_bind; [apply IH|done].
    - eapply safe_bind; [apply IH|done]. }
  intros values _.
  assert (forall t, safe (fun _ => True) (sumLoop t values)) as Hsum.
  { induction values as [|v vs IH]; intros t; simpl; [done|]. case_match; [apply IH|done]. }
  assert (forall b, safe (fun _ => True) (minMaxValues values b)) as Hmm.
  { intros b. unfold minMaxValues. destruct values as [|v vs]; [done|]. clear Hsum.
    revert v. induction vs as [|w vs IH]; intros v; simpl; [done|].
    eapply safe_bind; [apply safe_compareValues|]. intros c _. apply IH. }
  destruct (AggFn call); try done; try apply Hmm.
  - unfold sumValues. destruct values; [done|]. eapply safe_bind; [apply Hsum|done].
  - unfold avgValues. destruct values; [done|]. eapply safe_bind; [apply Hsum|done].
Qed.

Lemma safe_aggregateRow r rows aggs idx :
  Forall (fun row => length row = length (Cols r)) rows ->
  Forall (fun i => i < length (Cols r))%nat idx -> (rows = [] -> idx = []) ->
  safe (fun row => length row = length idx + length aggs)%nat (aggregateRow r rows aggs idx).
Proof.
  intros Hr Hi Hne. unfold aggregateRow. eapply (safe_bind (fun k => length k = length idx)).
  { destruct Hr as [|row rows Hrow _]; [by rewrite Hne|]. by eapply safe_cells. }
  intros keys Hk. eapply safe_bind.
  { apply (safe_mapM_length (fun _ => True) (fun _ => True)); [by apply Forall_true|].
    intros a _. by apply safe_aggregateCall. }
  intros calls [Hc _]. simpl. rewrite length_app. congruence.
Qed.

Lemma addToGroup_ne k row groups :
  Forall (fun g => g.2 <> []) groups -> Forall (fun g => g.2 <> []) (addToGroup k row groups).
Proof.
  induction 1 as [|[k' rows] groups Hg Hgs IH]; simpl; [by repeat constructor|].
  case_decide; constructor; simpl in *; try done. by destruct rows.
Qed.

Lemma groupRows_ne idx rows groups out :
  Forall (fun g => g.2 <> []) groups -> groupRows idx rows groups = Ok out ->
  Forall (fun g => g.2 <> []) out.
Proof.
  revert groups. induction rows as [|row rows IH]; intros groups Hg H; simpl in H; inv_ok; [done|].
  eapply IH; [|done]. by apply addToGroup_ne.
Qed.

Lemma safe_evalAggregate r groupBy aggs : wf_rel r -> safe wf_rel (evalAggregate r groupBy aggs).
Proof.
  intros [Hr _]. unfold evalAggregate.
  eapply safe_bind; [apply safe_colIndexes|]. intros idx [Hl Hi].
  pose proof (safe_groupRows (length (Cols r)) idx (Rows r) [] Hr Hi (Forall_nil_2 _)) as Hsafe.
  destruct (groupRows idx (Rows r) []) as [groups|] eqn:E; cbn in Hsafe |- *; [|done].
  apply groupRows_ne in E; [|by apply Forall_nil_2].
  assert (Forall (fun g => Forall (fun row => length row = length (Cols r)) g.2 /\
                           (g.2 = [] -> idx = [])) (globalGroup groupBy groups)) as Hg.
  { assert (Forall (fun g => Forall (fun row => length row = length (Cols r)) g.2 /\
                             (g.2 = [] -> idx = [])) groups).
    { apply Forall_and; split; [done|]. eapply Forall_impl; [exact E|]. naive_solver. }
    unfold globalGroup. destruct groupBy, groups; try done. destruct idx; [|done].
    repeat constructor. }
  eapply safe_bind.
  { eapply safe_mapM; [exact Hg|]. intros g [Hg1 Hg2]. by apply safe_aggregateRow. }
  intros rows Hrows. split; simpl; [|lia]. unfold aggregateCols. rewrite length_app, length_fmap.
  eapply Forall_impl; [exact Hrows|]. simpl. congruence.
Qed.

#[export] Hint Resolve safe_evalScan safe_evalSelect safe_evalProject safe_evalAggregate safe_evalSort
  safe_evalLimit safe_evalDistinct safe_evalJoin : sqlmcp.

Lemma safe_eval db e : wf_db db -> safe wf_rel (eval db e).
Proof.
  intros Hdb. induction e; simpl; try done;
    try (eapply safe_bind; [eassumption|]; intros; auto with sqlmcp; fail).
  - eapply safe_mono; [by apply safe_evalScan|]. by intros ? [? _].
  - destruct e; try done. eapply safe_bind; [exact IHe|]. auto with sqlmcp.
Qed.


(** * The order of evalSort: NULLs last, then the terms' directions, terms in
    turn.  [lexCmp] is that order as a comparison; sortLess decides it, and
    evalSort returns a permutation of its input that respects it. *)

(** ** The order as a comparison *)

(** Two cells under one term; [None] when they are incomparable. *)
Definition termCmp (dir : string) (x y : value) : option comparison :=
  if negb (Bool.eqb (is_nil x) (is_nil y)) then Some (if is_nil y then Lt else Gt)
  else match compareForSort x y with
       | Ok c => Some (if is_desc dir then CompOpp c else c)
       | Err _ => None
       end.

Fixpoint lexCmp (terms : list (nat * OrderTerm)) (a b : list value) : option comparison :=
  match terms with
  | [] => Some Eq
  | (i, t) :: terms =>
      match a !! i, b !! i with
      | Some x, Some y =>
          match termCmp (TermDir t) x y with
          | Some Eq => lexCmp terms a b
          | r => r
          end
      | _, _ => None
      end
  end.

Definition is_Lt (c : comparison) : bool := match c with Lt => true | _ => false end.

(** sortLess without an error decides lexCmp. *)
Lemma sortLess_lex terms a b r :
  sortLess terms a b = Ok (r, None) <-> exists c, lexCmp terms a b = Some c /\ r = is_Lt c.
Proof.
  induction terms as [|[i t] terms IH]; simpl.
  { split; [intros [= <-]; eauto|]. by intros (c & [= <-] & ->). }
  unfold index. destruct (a !! i) as [x|]; cbn; [|naive_solver].
  destruct (b !! i) as [y|]; cbn; [|naive_solver].
  unfold termCmp. destruct (negb (Bool.eqb (is_nil x) (is_nil y))).
  { split.
    - intros [= <-]. destruct (is_nil y); eauto.
    - intros (c & H & ->). by destruct (is_nil y); simplify_eq. }
  destruct (compareForSort x y) as [c|e].
  - destruct (if is_desc (TermDir t) then CompOpp c else c) eqn:E; rewrite ?E.
    + rewrite <- IH. destruct (sortLess terms a b) as [[b' [e'|]]|]; cbn; naive_solver.
    + split; [intros [= <-]; eauto|by intros (? & [= <-] & ->)].
    + split; [intros [= <-]; eauto|by intros (? & [= <-] & ->)].
  - assert ((if is_desc (TermDir t) then CompOpp Eq else Eq) = Eq) as -> by by case_match.
    split; [|naive_solver]. destruct (sortLess terms a b) as [[b' e']|]; cbn; naive_solver.
Qed.

(** ** Laws *)

Lemma compareForSort_antisym x y : compareForSort y x = CompOpp <$> compareForSort x y.
Proof.
  unfold compareForSort. rewrite (andb_comm (is_nil y)). case_match; [done|].
  apply compareValues_antisym.
Qed.

Lemma termCmp_antisym dir x y : termCmp dir y x = CompOpp <$> termCmp dir x y.
Proof.
  unfold termCmp. rewrite (compareForSort_antisym x y).
  destruct (is_nil x), (is_nil y); simpl; try done;
    destruct (compareForSort x y) as [[]|]; simpl; try done; by destruct (is_desc dir).
Qed.

Lemma lexCmp_antisym terms a b : lexCmp terms b a = CompOpp <$> lexCmp terms a b.
Proof.
  induction terms as [|[i t] terms IH]; simpl; [done|].
  destruct (a !! i), (b !! i); try done. rewrite (termCmp_antisym _ v v0).
  destruct (termCmp (TermDir t) v v0) as [[]|]; done.
Qed.

(** [thenCmp c d]: where c and d, neither [Gt], lead from x over y to z. *)
Definition thenCmp (c d : comparison) : comparison := match c with Eq => d | _ => c end.

Lemma compareValues_trans a b c r1 r2 :
  compareValues a b = Ok r1 -> compareValues b c = Ok r2 -> r1 <> Gt -> r2 <> Gt ->
  compareValues a c = Ok (thenCmp r1 r2).
Proof.
  intros H1 H2 N1 N2. destruct r1; simpl; [by rewrite (compareValues_eq_l _ _ _ H1)| |done].
  destruct r2; [by rewrite <- (compareValues_eq_r _ _ _ H2)| |done].
  by eapply compareValues_lt_trans.
Qed.

Lemma compareValues_flip a b r : compareValues a b = Ok r -> compareValues b a = Ok (CompOpp r).
Proof. intros H. by rewrite compareValues_antisym, H. Qed.

Lemma termCmp_trans dir x y z r1 r2 :
  termCmp dir x y = Some r1 -> termCmp dir y z = Some r2 -> r1 <> Gt -> r2 <> Gt ->
  termCmp dir x z = Some (thenCmp r1 r2).
Proof.
  unfold termCmp, compareForSort.
  destruct (is_nil x) eqn:Nx, (is_nil y) eqn:Ny, (is_nil z) eqn:Nz; simpl;
    try (intros; simplify_eq/=; by destruct (is_desc dir)).
  - destruct (compareValues x y) as [c|] eqn:Exy; [|done]. intros [= <-] [= <-] N1 _.
    by destruct (is_desc dir), c.
  - destruct (compareValues x y) as [c|] eqn:Exy; [|done].
    destruct (compareValues y z) as [d|] eqn:Eyz; [|done]. intros [= <-] [= <-] N1 N2.
    destruct (is_desc dir).
    + apply compareValues_flip in Exy, Eyz.
      assert (compareValues z x = Ok (thenCmp (CompOpp d) (CompOpp c))) as H
        by (eapply compareValues_trans; eauto).
      apply compareValues_flip in H. rewrite H. f_equal. by destruct c, d.
    + by rewrite (compareValues_trans _ _ _ _ _ Exy Eyz N1 N2).
Qed.

Lemma lexCmp_trans terms a b c r1 r2 :
  lexCmp terms a b = Some r1 -> lexCmp terms b c = Some r2 -> r1 <> Gt -> r2 <> Gt ->
  lexCmp terms a c = Some (thenCmp r1 r2).
Proof.
  induction terms as [|[i t] terms IH]; simpl; [by intros [= <-] [= <-]|].
  destruct (a !! i) as [x|], (b !! i) as [y|], (c !! i) as [z|]; try done.
  destruct (termCmp (TermDir t) x y) as [c1|] eqn:E1; [|done].
  destruct (termCmp (TermDir t) y z) as [c2|] eqn:E2; [|by destruct c1].
  intros H1 H2 N1 N2.
  assert (c1 <> Gt) as G1 by (intros ->; congruence).
  assert (c2 <> Gt) as G2 by (intros ->; congruence).
  rewrite (termCmp_trans _ _ _ _ _ _ E1 E2 G1 G2).
  destruct c1, c2; simplify_eq/=; try done; [by apply IH|by destruct r1].
Qed.

(** [row_le terms a b]: b does not come before a, and they are comparable. *)
Definition row_le (terms : list (nat * OrderTerm)) (a b : list value) : Prop :=
  exists c, lexCmp terms a b = Some c /\ c <> Gt.

#[global] Instance row_le_trans terms : Transitive (row_le terms).
Proof.
  intros a b c (r1 & H1 & N1) (r2 & H2 & N2). exists (thenCmp r1 r2). split.
  - by eapply lexCmp_trans.
  - by destruct r1, r2.
Qed.

Lemma sortLess_le terms a b :
  sortLess terms b a = Ok (false, None) -> row_le terms a b.
Proof.
  intros (c & H & Hc)%sortLess_lex. exists (CompOpp c).
  rewrite (lexCmp_antisym terms b a), H. split; [done|]. by destruct c.
Qed.

Lemma sortLess_lt terms a b :
  sortLess terms a b = Ok (true, None) -> row_le terms a b.
Proof. intros (c & H & Hc)%sortLess_lex. exists c. split; [done|]. by destruct c. Qed.

(** ** The insertion sort *)

Lemma insertRow_perm terms row sorted err k e :
  insertRow terms row sorted err = Ok (k, e) -> row :: sorted ≡ₚ k.
Proof.
  revert err k e. induction sorted as [|x rest IH]; intros err k e H; simpl in H; inv_ok; [done|].
  destruct a as [b e1], b; inv_ok; [|done]. destruct a as [k1 e2]. inv_ok. apply IH in E0.
  rewrite <- E0. constructor.
Qed.

Lemma sliceStable_perm terms rows sorted err k e :
  sliceStable terms rows sorted err = Ok (k, e) -> rows ++ sorted ≡ₚ k.
Proof.
  revert sorted err. induction rows as [|row rows IH]; intros sorted err H; simpl in H; inv_ok.
  { simpl. symmetry. apply reverse_Permutation. }
  destruct a as [s e1]. apply insertRow_perm in E. apply IH in H.
  rewrite <- H, <- E. simpl. apply Permutation_middle.
Qed.

(** An error, once met, stays. *)
Lemma insertRow_err terms row sorted err k :
  insertRow terms row sorted err = Ok (k, None) -> err = None.
Proof.
  revert err k. induction sorted as [|x rest IH]; intros err k H; simpl in H; inv_ok; [done|].
  destruct a as [[] e1]; inv_ok.
  - destruct a as [k1 e2]. inv_ok. apply IH in E0. by destruct err.
  - by destruct err.
Qed.

Lemma sliceStable_err terms rows sorted err k :
  sliceStable terms rows sorted err = Ok (k, None) -> err = None.
Proof.
  revert sorted err. induction rows as [|row rows IH]; intros sorted err H; simpl in H; inv_ok; [done|].
  destruct a as [s e1]. apply IH in H as ->. by eapply insertRow_err.
Qed.

(** The rows sorted so far, last first, are in descending order. *)
Abbreviation descending terms := (StronglySorted (flip (row_le terms))).

Lemma insertRow_sorted terms row sorted err k :
  insertRow terms row sorted err = Ok (k, None) -> descending terms sorted -> descending terms k.
Proof.
  revert err k. induction sorted as [|x rest IH]; intros err k H Hs; simpl in H; inv_ok.
  { repeat constructor. }
  apply StronglySorted_inv in Hs as [Hrest Hx].
  destruct a as [[] e1]; inv_ok.
  - destruct a as [k1 e2]. inv_ok. pose proof (insertRow_err _ _ _ _ _ E0) as He.
    destruct err; [done|]. subst e1. pose proof (insertRow_perm _ _ _ _ _ _ E0) as Hp.
    constructor; [by eapply IH|]. rewrite <- Hp. constructor; [|done].
    by apply sortLess_lt.
  - destruct err; [done|]. subst e1. apply sortLess_le in E.
    constructor; [by constructor|]. constructor; [done|].
    eapply Forall_impl; [exact Hx|]. intros y Hy. unfold flip in *. by etrans.
Qed.

Lemma StronglySorted_reverse {A} (R : A -> A -> Prop) l :
  StronglySorted (flip R) l -> StronglySorted R (reverse l).
Proof.
  induction 1 as [|x l Hs IH Hx]; [constructor|]. rewrite reverse_cons.
  apply StronglySorted_snoc; [done|]. by apply Forall_reverse.
Qed.

Lemma sliceStable_sorted terms rows sorted err k :
  sliceStable terms rows sorted err = Ok (k, None) -> descending terms sorted ->
  StronglySorted (row_le terms) k.
Proof.
  revert sorted err. induction rows as [|row rows IH]; intros sorted err H Hs; simpl in H; inv_ok.
  { by apply StronglySorted_reverse. }
  destruct a as [s e1]. pose proof (sliceStable_err _ _ _ _ _ H) as ->.
  eapply IH; [done|]. by eapply insertRow_sorted.
Qed.

(** The terms of an order with the columns they name. *)
Definition orderTerms (r : relation) (orderBy : list OrderTerm) : result (list (nat * OrderTerm)) :=
  idx ← mapM (fun t => colIndex r (TermField t)) orderBy; Ok (zip idx orderBy).

Lemma evalSort_spec r orderBy out :
  evalSort r orderBy = Ok out ->
  exists terms, orderTerms r orderBy = Ok terms /\ Cols out = Cols r /\ hidden out = hidden r /\
    Rows r ≡ₚ Rows out /\ StronglySorted (row_le terms) (Rows out).
Proof.
  unfold evalSort, orderTerms. intros H. inv_ok. destruct a0 as [rows [e|]]; inv_ok.
  exists (zip a orderBy). rewrite E. cbn. split_and!; [done..| |].
  - apply sliceStable_perm in E0. by rewrite app_nil_r in E0.
  - eapply sliceStable_sorted; [done|constructor].
Qed.


(** * Laws of the interpreter's predicates: three-valued AND, OR and NOT, IN as
    a disjunction of equalities, LIKE against its language, which cells a
    predicate reads, and the rows a selection keeps. *)

(** ** AND and OR *)

Lemma triNot_involutive v : triNot (triNot v) = v.
Proof. by destruct v. Qed.

(** De Morgan, errors included: NOT of an AND is the OR of the NOTs. *)
Lemma evalOr_triNot ev acc ps :
  evalOr (fun q => v ← ev q; Ok (triNot v)) (triNot acc) ps = triNot <$> evalAnd ev acc ps.
Proof.
  revert acc. induction ps as [|p ps IH]; intros acc; [done|].
  rewrite evalAnd_cons, evalOr_cons. destruct (ev p) as [[]|]; try done;
    [apply (IH triUnknown)|apply (IH acc)].
Qed.

Lemma evalOr_map (ev : Predicate -> result tri) (f : Predicate -> Predicate) acc ps :
  evalOr ev acc (map f ps) = evalOr (fun q => ev (f q)) acc ps.
Proof.
  revert acc. induction ps as [|p ps IH]; intros acc; [done|]. simpl map. rewrite !evalOr_cons.
  destruct (ev (f p)) as [[]|]; cbn; auto.
Qed.

Lemma evalAnd_map (ev : Predicate -> result tri) (f : Predicate -> Predicate) acc ps :
  evalAnd ev acc (map f ps) = evalAnd (fun q => ev (f q)) acc ps.
Proof.
  revert acc. induction ps as [|p ps IH]; intros acc; [done|]. simpl map. rewrite !evalAnd_cons.
  destruct (ev (f p)) as [[]|]; cbn; auto.
Qed.

Lemma evalAnd_ext (f g : Predicate -> result tri) acc ps :
  Forall (fun p => f p = g p) ps -> evalAnd f acc ps = evalAnd g acc ps.
Proof.
  intros H. revert acc. induction H as [|p ps Hp _ IH]; intros acc; [done|].
  rewrite !evalAnd_cons, Hp. destruct (g p) as [[]|]; cbn; auto.
Qed.

Lemma evalOr_ext (f g : Predicate -> result tri) acc ps :
  Forall (fun p => f p = g p) ps -> evalOr f acc ps = evalOr g acc ps.
Proof.
  intros H. revert acc. induction H as [|p ps Hp _ IH]; intros acc; [done|].
  rewrite !evalOr_cons, Hp. destruct (g p) as [[]|]; cbn; auto.
Qed.

(** An AND is TRUE when every operand is, an OR when some operand is and the
    ones before it evaluate. *)
Lemma evalAnd_true ev ps :
  evalAnd ev triTrue ps = Ok triTrue <-> Forall (fun p => ev p = Ok triTrue) ps.
Proof.
  induction ps as [|p ps IH]; [split; [by constructor|done]|].
  rewrite evalAnd_cons, Forall_cons, <- IH.
  assert (evalAnd ev triUnknown ps <> Ok triTrue).
  { clear IH. induction ps as [|q ps IH]; [done|]. rewrite evalAnd_cons.
    by destruct (ev q) as [[]|]. }
  destruct (ev p) as [[]|]; cbn; naive_solver.
Qed.

Lemma evalOr_true ev acc ps :
  acc <> triTrue -> evalOr ev acc ps = Ok triTrue -> exists p, p ∈ ps /\ ev p = Ok triTrue.
Proof.
  revert acc. induction ps as [|p ps IH]; intros acc Ha; [naive_solver|].
  rewrite evalOr_cons. destruct (ev p) as [[]|] eqn:E; cbn; [| |naive_solver set_solver|done];
    intros H; eapply IH in H as (q & Hq & Hv); try done; exists q; split; [set_solver|done|set_solver|done].
Qed.

Lemma evalOr_total ev acc ps :
  Forall (fun p => is_Some (match ev p with Ok v => Some v | Err _ => None end)) ps ->
  Exists (fun p => ev p = Ok triTrue) ps -> evalOr ev acc ps = Ok triTrue.
Proof.
  intros H. revert acc. induction H as [|p ps Hp _ IH]; intros acc He; [by inversion He|].
  rewrite evalOr_cons. apply Exists_cons in He. destruct (ev p) as [[]|]; cbn.
  - apply IH. naive_solver.
  - apply IH. naive_solver.
  - done.
  - by destruct Hp.
Qed.

(** ** IN *)

Lemma evalCondition_at rel row c i x :
  colIndex rel (CField c) = Ok i -> index row i = Ok x -> evalCondition rel row c = evalOp x c.
Proof. intros Hi Hx. unfold evalCondition. rewrite Hi. cbn. by rewrite Hx. Qed.

(** x IN (v1..vn) is x = v1 OR ... OR x = vn, errors included. *)
Lemma evalInLoop_or rel row f i x vs acc :
  colIndex rel f = Ok i -> index row i = Ok x ->
  evalInLoop x vs acc =
  evalOr (fun q => evalPredicate q rel row) acc ((fun v => PCond (mkCond f OpEq v)) <$> vs).
Proof.
  intros Hi Hx. revert acc. induction vs as [|v vs IH]; intros acc; [done|].
  rewrite fmap_cons, evalOr_cons. cbn [evalInLoop evalPredicate].
  rewrite (evalCondition_at rel row (mkCond f OpEq v) i x) by done. unfold evalOp. cbn [COp CValue].
  destruct (evalComparison x OpEq v) as [[]|]; [apply IH|apply IH|done|done].
Qed.

Lemma evalIn_as_or rel row f vs :
  vs <> [] ->
  evalPredicate (PCond (mkCond f OpIn (VList vs))) rel row =
  evalPredicate (POr ((fun v => PCond (mkCond f OpEq v)) <$> vs)) rel row.
Proof.
  intros Hne. destruct vs as [|v0 vs]; [done|]. cbn [evalPredicate].
  destruct (colIndex rel f) as [i|e] eqn:Hi.
  - destruct (index row i) as [x|e] eqn:Hx.
    + rewrite <- (evalInLoop_or rel row f i x) by done. by rewrite (evalCondition_at _ _ _ i x).
    + rewrite fmap_cons, evalOr_cons. cbn [evalPredicate]. unfold evalCondition. simpl CField.
      rewrite Hi. cbn. by rewrite Hx.
  - rewrite fmap_cons, evalOr_cons. cbn [evalPredicate]. unfold evalCondition. simpl CField. by rewrite Hi.
Qed.

(** ** LIKE *)

(** The texts an item stands for. *)
Definition item_matches (it : like_item) (seg : list Z) : Prop :=
  match it with
  | LLit r => seg = [r]
  | LOne => exists r, seg = [r]
  | LAny => True
  end.

(** The pattern's language: the subject cut into one segment per item. *)
Definition like_language (re : list like_item) (s : list Z) : Prop :=
  exists segs, Forall2 item_matches re segs /\ s = concat segs.

Lemma likeMatch_spec re s : likeMatch re s = true <-> like_language re s.
Proof.
  revert s. induction re as [|it re IH]; intros s.
  { destruct s as [|x s]; simpl; split; try done.
    - intros _. by exists [].
    - intros (segs & Hf & Hs). by inversion Hf; subst. }
  assert (forall s, like_language (it :: re) s <->
            exists seg rest, item_matches it seg /\ like_language re rest /\ s = seg ++ rest) as Hcons.
  { intros t. split.
    - intros (segs & Hf & ->). inversion Hf as [|? seg ? segs' Hi Hr]; subst.
      exists seg, (concat segs'). split_and!; [done|by exists segs'|done].
    - intros (seg & rest & Hi & (segs & Hf & ->) & ->). exists (seg :: segs). by split; [constructor|]. }
  destruct it as [r| |]; simpl.
  - rewrite Hcons. destruct s as [|x s]; [split; [done|]; by intros (? & ? & -> & _ & [=])|].
    rewrite andb_true_iff, Z.eqb_eq, IH. split.
    + intros [-> H]. by exists [r], s.
    + by intros (? & rest & -> & H & [= -> ->]).
  - rewrite Hcons. destruct s as [|x s]; [split; [done|]; by intros (? & ? & [? ->] & _ & [=])|].
    rewrite IH. split.
    + intros H. exists [x], s. by split_and!; [exists x| |].
    + by intros (? & rest & [y ->] & H & [= -> ->]).
  - induction s as [|x s IHs]; rewrite orb_true_iff, IH, Hcons.
    + split.
      * intros [H|H]; [|done]. by exists [], [].
      * intros (seg & rest & _ & H & E). left. by destruct seg, rest.
    + rewrite IHs, Hcons. split.
      * intros [H|(seg & rest & _ & H & ->)]; [by exists [], (x :: s)|by exists (x :: seg), rest].
      * intros ([|y seg] & rest & _ & H & E); simplify_eq/=; [by left|].
        right. by exists seg, rest.
Qed.

(** ** What a predicate reads *)

(** Rows that agree on the columns p's conditions name evaluate p alike. *)
Definition agree_on (rel : relation) (fields : list string) (a b : list value) : Prop :=
  forall f i, f ∈ fields -> colIndex rel f = Ok i -> a !! i = b !! i.

Lemma evalCondition_frame rel a b c :
  agree_on rel [CField c] a b -> evalCondition rel a c = evalCondition rel b c.
Proof.
  intros H. unfold evalCondition. destruct (colIndex rel (CField c)) as [i|] eqn:E; [|done]. cbn.
  unfold index. rewrite (H (CField c) i); [done|set_solver|done].
Qed.

Lemma evalPredicate_frame_conditions p : forall rel a b,
  HasExists p = false -> agree_on rel (CField <$> conditions p) a b ->
  evalPredicate p rel a = evalPredicate p rel b.
Proof.
  assert (forall (ps : list Predicate) rel a b,
    Forall (fun p => forall rel a b, HasExists p = false -> agree_on rel (CField <$> conditions p) a b ->
      evalPredicate p rel a = evalPredicate p rel b) ps ->
    existsb HasExists ps = false -> agree_on rel (CField <$> flat_map conditions ps) a b ->
    Forall (fun p => evalPredicate p rel a = evalPredicate p rel b) ps) as Hlist.
  { intros ps rel a b H. induction H as [|q ps Hq _ IH]; intros He Ha; constructor; simpl in *.
    - apply orb_false_iff in He as [He _]. apply Hq; [done|].
      intros f i Hf. apply Ha. rewrite fmap_app. set_solver.
    - apply orb_false_iff in He as [_ He]. apply IH; [done|].
      intros f i Hf. apply Ha. rewrite fmap_app. set_solver. }
  induction p as [|c|ps IH|ps IH|p IH|r on p IH] using Predicate_ind'; intros rel a b He Ha; simpl in *.
  - done.
  - by apply evalCondition_frame.
  - apply evalAnd_ext. by apply Hlist.
  - apply evalOr_ext. by apply Hlist.
  - by rewrite (IH rel a b).
  - done.
Qed.

Lemma evalPredicate_frame p rel a b :
  HasExists p = false -> agree_on rel (Fields p) a b -> evalPredicate p rel a = evalPredicate p rel b.
Proof.
  intros He Ha. apply evalPredicate_frame_conditions; [done|]. intros f i Hf. apply Ha.
  apply Fields_spec. apply list_elem_of_fmap in Hf. naive_solver.
Qed.

(** ** Selection *)

Lemma evalSelect_spec db r p out :
  evalSelect db r p = Ok out ->
  Cols out = Cols r /\ hidden out = hidden r /\ Rows out `sublist_of` Rows r /\
  (forall row, row ∈ Rows out <-> row ∈ Rows r /\ evalPredicate p (with_db r db) row = Ok triTrue).
Proof.
  unfold evalSelect. intros H. inv_ok. simpl.
  match goal with H : filterM _ _ = Ok _ |- _ => rename H into Hf end. split_and!; [done|done| |].
  - by eapply filterM_sublist in Hf.
  - intros row. rewrite (filterM_elem _ _ _ row Hf). simpl.
    destruct (evalPredicate p (with_db r db) row) as [[]|]; cbn; naive_solver.
Qed.
