(* ===== verification/Check.v ===== *)
(** Partial evaluation of a row-scope predicate: core/relalg/interp/check.go.

    [Check] decides a predicate on a row of which only some columns are
    known, or returns the residual the rest decides.  Its verdicts are sound
    for every completion of the row. *)

From S2P Require Import Prelude GoString Value Relalg Interp InterpFacts.

Inductive Verdict : Type := Fails | Holds | Depends.

(** A decided value ([pred] nil) or a residual predicate. *)
Record partial : Type := mkPartial { pv : tri; ppred : Predicate }.

Definition decided (v : tri) : partial := mkPartial v PNil.
Definition residual (p : Predicate) : partial := mkPartial triFalse p.

(** partialList's loop over the operands, [ev] evaluating one: a dominant
    operand decides the list at once, else the residuals in order and whether
    an operand was UNKNOWN. *)
Definition partialLoop (ev : Predicate -> result partial) (dominant : tri) :
    list Predicate -> list Predicate -> bool -> result (partial + (list Predicate * bool)) :=
  fix go (ps residuals : list Predicate) (unknown : bool) :=
    match ps with
    | [] => Ok (inr (residuals, unknown))
    | p :: ps =>
        r ← ev p;
        if negb (is_pnil (ppred r)) then go ps (residuals ++ [ppred r]) unknown
        else if decide (pv r = dominant) then Ok (inl (decided dominant))
        else if decide (pv r = triUnknown) then go ps residuals true
        else go ps residuals unknown
    end.

Definition partialList (ev : Predicate -> result partial) (dominant : tri)
    (join : list Predicate -> Predicate) (ps : list Predicate) : result partial :=
  r ← partialLoop ev dominant ps [] false;
  match r with
  | inl d => Ok d
  | inr (residuals, unknown) =>
      match residuals, unknown with
      | [], true => Ok (decided triUnknown)
      | [], false => Ok (decided (triNot dominant))
      | _, true => Err ErrMixed
      | [q], false => Ok (residual q)
      | qs, false => Ok (residual (join qs))
      end
  end.

Fixpoint partialEval (known : gmap string value) (p : Predicate) : result partial :=
  match p with
  | PNil => Ok (decided triTrue)
  | PCond c =>
      match known !! CField c with
      | None => Ok (residual (PCond c))
      | Some x => v ← evalOp x c; Ok (decided v)
      end
  | PAnd ps => partialList (partialEval known) triFalse PAnd ps
  | POr ps => partialList (partialEval known) triTrue POr ps
  | PNot q =>
      r ← partialEval known q;
      if is_pnil (ppred r) then Ok (decided (triNot (pv r)))
      else Ok (residual (PNot (ppred r)))
  | PExists _ _ _ => Err ErrUnsupported
  end.

(** Check: the residual (nil unless Depends), the verdict, and the error that
    made it Fails, if any. *)
Definition Check (p : Predicate) (known : gmap string value) : Predicate * Verdict * option error :=
  match partialEval known p with
  | Err e => (PNil, Fails, Some e)
  | Ok r =>
      if negb (is_pnil (ppred r)) then (ppred r, Depends, None)
      else if decide (pv r = triTrue) then (PNil, Holds, None)
      else (PNil, Fails, None)
  end.

(** ** Soundness *)

(** [row], a row of [rel], holds the known values. *)
Definition extends (rel : relation) (row : list value) (known : gmap string value) : Prop :=
  forall f v, known !! f = Some v -> exists i, colIndex rel f = Ok i /\ row !! i = Some v.

(** What a partial result says of the predicate's value [w] on a full row. *)
Definition explains (rel : relation) (row : list value) (r : partial) (w : tri) : Prop :=
  if is_pnil (ppred r) then w = pv r else evalPredicate (ppred r) rel row = Ok w.

Section Lists.
Context (rel : relation) (row : list value).
Context (ev : Predicate -> result partial).

(** AND and OR are one fold: [dominant] ends it, UNKNOWN is remembered. *)
Definition evalList (dominant : tri) (acc : tri) (ps : list Predicate) : result tri :=
  if decide (dominant = triFalse) then evalAnd (fun q => evalPredicate q rel row) acc ps
  else evalOr (fun q => evalPredicate q rel row) acc ps.

Lemma evalList_cons d acc p ps :
  d <> triUnknown ->
  evalList d acc (p :: ps) =
    v ← evalPredicate p rel row;
    if decide (v = d) then Ok d
    else if decide (v = triUnknown) then evalList d triUnknown ps
    else evalList d acc ps.
Proof.
  unfold evalList. intros Hd. destruct d; [|done|]; simpl;
    rewrite ?evalAnd_cons, ?evalOr_cons; by destruct (evalPredicate p rel row) as [[]|].
Qed.

(** Each operand's partial result explains its value. *)
Definition explained (ps : list Predicate) : Prop :=
  Forall (fun p => forall r w, ev p = Ok r -> evalPredicate p rel row = Ok w ->
                               explains rel row r w) ps.

(** A dominant operand decides the list. *)
Lemma partialLoop_dominant d ps rs u x acc w :
  d <> triUnknown -> explained ps -> partialLoop ev d ps rs u = Ok (inl x) ->
  evalList d acc ps = Ok w -> x = decided d /\ w = d.
Proof.
  intros Hd Hex. revert rs u acc. induction Hex as [|p ps Hp _ IH]; intros rs u acc H Hw; [done|].
  simpl in H. inv_ok. rename a into r. rewrite evalList_cons in Hw by done.
  apply bind_ok in Hw as (v & Ev & Hw). specialize (Hp _ _ E Ev). unfold explains in Hp.
  destruct (is_pnil (ppred r)); simpl in H.
  - subst v. repeat case_decide; simplify_eq; eauto.
  - assert (x = decided d) as ->.
    { clear -H. revert H. generalize (rs ++ [ppred r]) as qs. revert u.
      induction ps as [|q ps IH]; intros u qs H; simpl in H; inv_ok.
      repeat case_match; simplify_eq; eauto. }
    split; [done|]. repeat case_decide; simplify_eq; [done|..]; eapply IH; eauto.
Qed.

(** Otherwise the residuals, with the UNKNOWNs met, evaluate as the list. *)
Lemma partialLoop_residual d ps rs u rs' u' :
  d <> triUnknown -> explained ps -> partialLoop ev d ps rs u = Ok (inr (rs', u')) ->
  exists qs b, rs' = rs ++ qs /\ u' = u || b /\ Forall (fun q => is_pnil q = false) qs /\
    (forall acc w, evalList d acc ps = Ok w ->
                   evalList d (if b then triUnknown else acc) qs = Ok w).
Proof.
  intros Hd Hex. revert rs u. induction Hex as [|p ps Hp _ IH]; intros rs u H; simpl in H.
  { simplify_eq. exists [], false. rewrite app_nil_r, orb_false_r. by split_and!. }
  apply bind_ok in H as (r & E & H). unfold explains in Hp.
  destruct (is_pnil (ppred r)) eqn:En; simpl in H.
  - destruct (decide (pv r = d)); [done|].
    destruct (decide (pv r = triUnknown)) as [Hu|Hu]; apply IH in H as (qs & b & -> & -> & Hqs & Hev).
    + exists qs, true. rewrite orb_true_r. split_and!; [done|done|done|]. intros acc w Hw.
      rewrite evalList_cons in Hw by done. apply bind_ok in Hw as (v & Ev & Hw).
      specialize (Hp _ _ E Ev). rewrite En in Hp. subst v.
      rewrite decide_False, decide_True in Hw by done. apply Hev in Hw. by destruct b.
    + exists qs, b. split_and!; [done|done|done|]. intros acc w Hw.
      rewrite evalList_cons in Hw by done. apply bind_ok in Hw as (v & Ev & Hw).
      specialize (Hp _ _ E Ev). rewrite En in Hp. subst v.
      rewrite !decide_False in Hw by done. by apply Hev.
  - apply IH in H as (qs & b & -> & -> & Hqs & Hev). exists (ppred r :: qs), b.
    split_and!; [by rewrite <- app_assoc|done|by constructor|]. intros acc w Hw.
    rewrite evalList_cons in Hw by done. apply bind_ok in Hw as (v & Ev & Hw).
    specialize (Hp _ _ E Ev). rewrite En in Hp. rewrite evalList_cons, Hp by done. cbn.
    repeat case_decide; simplify_eq; [done|apply Hev in Hw; by destruct b|by apply Hev].
Qed.

Lemma partialList_explains d join ps r w :
  d <> triUnknown -> explained ps ->
  (forall qs, qs <> [] -> evalPredicate (join qs) rel row = evalList d (triNot d) qs) ->
  (forall qs, is_pnil (join qs) = false) ->
  partialList ev d join ps = Ok r -> evalList d (triNot d) ps = Ok w -> explains rel row r w.
Proof.
  intros Hd Hex Hj Hn H Hw. unfold partialList in H. apply bind_ok in H as ([x|[rs u]] & E & H).
  { inv_ok. by destruct (partialLoop_dominant _ _ _ _ _ _ _ Hd Hex E Hw) as [-> ->]. }
  destruct (partialLoop_residual _ _ _ _ _ _ Hd Hex E) as (qs & b & -> & -> & Hqs & Hev).
  apply Hev in Hw. simpl in H. destruct qs as [|q [|q' qs]], b; inv_ok; simplify_eq.
  - unfold evalList in Hw. by case_decide; simplify_eq/=.
  - unfold evalList in Hw. by case_decide; simplify_eq/=.
  - rewrite evalList_cons in Hw by done. apply bind_ok in Hw as (v & Ev & Hw).
    unfold explains. simpl. assert (v = w) as ->.
    { unfold evalList in Hw. destruct d, v; simpl in Hw; repeat case_decide; simplify_eq/=; done. }
    rewrite Forall_singleton in Hqs. by rewrite Hqs.
  - unfold explains. simpl. rewrite Hn. by rewrite Hj.
Qed.
End Lists.

Lemma evalList_and rel row ps :
  evalPredicate (PAnd ps) rel row = evalList rel row triFalse triTrue ps.
Proof. done. Qed.

Lemma evalList_or rel row ps :
  evalPredicate (POr ps) rel row = evalList rel row triTrue triFalse ps.
Proof. done. Qed.

Lemma partialEval_explains rel row known p : forall r w,
  extends rel row known -> partialEval known p = Ok r -> evalPredicate p rel row = Ok w ->
  explains rel row r w.
Proof.
  induction p as [|c|ps IH|ps IH|p IH|rf on p IH] using Predicate_ind'; intros r w Hx H Hw; simpl in H.
  - simplify_eq/=. done.
  - destruct (known !! CField c) as [x|] eqn:Ek; inv_ok; [|done].
    destruct (Hx _ _ Ek) as (i & Hi & Hr). simpl in Hw.
    rewrite (evalCondition_at _ _ _ i x) in Hw; [|done|by apply index_ok].
    unfold explains. simpl. congruence.
  - eapply (partialList_explains _ _ _ triFalse PAnd); [done| |done|done|done|done].
    eapply Forall_impl; [exact IH|]. simpl. eauto.
  - eapply (partialList_explains _ _ _ triTrue POr); [done| |done|done|done|done].
    eapply Forall_impl; [exact IH|]. simpl. eauto.
  - apply bind_ok in H as (r' & E & H). simpl in Hw. apply bind_ok in Hw as (v & Ev & Hw).
    inv_ok. specialize (IH _ _ Hx E Ev). unfold explains in *.
    destruct (is_pnil (ppred r')) eqn:En; inv_ok; simpl; [by subst|].
    by rewrite IH.
  - done.
Qed.

(** ** The residual *)

(** A residual has no EXISTS and names no known column. *)
Definition open_on (known : gmap string value) (q : Predicate) : Prop :=
  HasExists q = false /\ forall c, c ∈ conditions q -> known !! CField c = None.

Lemma open_on_list known qs :
  Forall (open_on known) qs ->
  existsb HasExists qs = false /\ forall c, c ∈ flat_map conditions qs -> known !! CField c = None.
Proof.
  induction 1 as [|q qs [Hq1 Hq2] _ [IH1 IH2]]; simpl; [split; [done|by intros c ?%elem_of_nil]|].
  rewrite Hq1, IH1. split; [done|]. intros c [?|?]%elem_of_app; auto.
Qed.

Lemma partialLoop_open known ev d ps rs u out :
  Forall (fun p => forall r, ev p = Ok r -> open_on known (ppred r)) ps ->
  Forall (open_on known) rs -> partialLoop ev d ps rs u = Ok out ->
  match out with inl r => ppred r = PNil | inr (qs, _) => Forall (open_on known) qs end.
Proof.
  intros Hps. revert rs u. induction Hps as [|p ps Hp _ IH]; intros rs u Hrs H; simpl in H; inv_ok; [done|].
  destruct (is_pnil (ppred a)); simpl in H.
  - repeat case_decide; inv_ok; [done|by eapply IH|by eapply IH].
  - eapply IH; [|done]. apply Forall_app. split; [done|]. constructor; [by apply Hp|done].
Qed.

Lemma partialList_open known ev d join ps r :
  (forall qs, conditions (join qs) = flat_map conditions qs /\ HasExists (join qs) = existsb HasExists qs) ->
  Forall (fun p => forall r, ev p = Ok r -> open_on known (ppred r)) ps ->
  partialList ev d join ps = Ok r -> open_on known (ppred r).
Proof.
  intros Hj Hps H. unfold partialList in H. apply bind_ok in H as (out & E & H).
  eapply partialLoop_open in E; [|done|by apply Forall_nil_2].
  destruct out as [x|[qs u]]; [inv_ok; rewrite E; split; [done|by intros c ?%elem_of_nil]|].
  destruct qs as [|q [|q' qs]], u; inv_ok; simpl; try (split; [done|by intros c ?%elem_of_nil]).
  - by apply Forall_cons in E as [? _].
  - unfold open_on. destruct (Hj (q :: q' :: qs)) as [-> ->]. by apply open_on_list.
Qed.

Lemma partialEval_open known p r : partialEval known p = Ok r -> open_on known (ppred r).
Proof.
  revert r. induction p as [|c|ps IH|ps IH|p IH|rf on p IH] using Predicate_ind'; intros r H; simpl in H.
  - inv_ok. split; [done|by intros c ?%elem_of_nil].
  - destruct (known !! CField c) as [x|] eqn:Ek; inv_ok; split; simpl; try done; intros d Hd.
    + by apply elem_of_nil in Hd.
    + apply list_elem_of_singleton in Hd as ->. done.
  - by apply (partialList_open known (partialEval known) triFalse PAnd ps).
  - by apply (partialList_open known (partialEval known) triTrue POr ps).
  - inv_ok. destruct (is_pnil (ppred a)); inv_ok; [split; [done|by intros c ?%elem_of_nil]|].
    by apply (IH a).
  - done.
Qed.

(** ** Exactness on known rows *)

(** When every column p names is known, the partial evaluation is the
    evaluation, errors included. *)
Lemma partialLoop_known rel row ev d ps u :
  d <> triUnknown ->
  Forall (fun p => ev p = decided <$> evalPredicate p rel row) ps ->
  partialLoop ev d ps [] u =
    (fun v => if decide (v = d) then inl (decided d) else inr ([], bool_decide (v = triUnknown)))
    <$> evalList rel row d (if u then triUnknown else triNot d) ps.
Proof.
  intros Hd Hps. revert u. induction Hps as [|p ps Hp _ IH]; intros u.
  - unfold evalList. destruct d, u; done.
  - cbn [partialLoop]. rewrite Hp, evalList_cons by done.
    destruct (evalPredicate p rel row) as [v|]; [|done]. cbn.
    destruct (decide (v = d)); [cbn; by rewrite decide_True|].
    destruct (decide (v = triUnknown)); [apply (IH true)|apply IH].
Qed.

(** The hypotheses of the next lemma, operand by operand. *)
Lemma known_operands rel row known ps :
  Forall (fun p => HasExists p = false -> (forall c, c ∈ conditions p -> is_Some (known !! CField c)) ->
                   partialEval known p = decided <$> evalPredicate p rel row) ps ->
  existsb HasExists ps = false ->
  (forall c, c ∈ flat_map conditions ps -> is_Some (known !! CField c)) ->
  Forall (fun p => partialEval known p = decided <$> evalPredicate p rel row) ps.
Proof.
  induction 1 as [|q qs Hq _ IH]; intros He Hk; constructor; simpl in *;
    apply orb_false_iff in He as [??].
  - apply Hq; [done|]. intros c Hc. apply Hk, elem_of_app. auto.
  - apply IH; [done|]. intros c Hc. apply Hk, elem_of_app. auto.
Qed.

Lemma partialEval_known rel row known p :
  extends rel row known -> HasExists p = false ->
  (forall c, c ∈ conditions p -> is_Some (known !! CField c)) ->
  partialEval known p = decided <$> evalPredicate p rel row.
Proof.
  intros Hx. induction p as [|c|ps IH|ps IH|p IH|rf on p IH] using Predicate_ind'; intros He Hk; simpl in *.
  - done.
  - destruct (Hk c) as [x Ex]; [by apply list_elem_of_singleton|]. rewrite Ex.
    destruct (Hx _ _ Ex) as (i & Hi & Hr).
    rewrite (evalCondition_at _ _ _ i x); [|done|by apply index_ok]. by destruct (evalOp x c).
  - pose proof (known_operands rel row known ps IH He Hk) as Hps.
    unfold partialList. rewrite (partialLoop_known rel row) by done.
    change (evalAnd _ triTrue ps) with (evalList rel row triFalse triTrue ps).
    change (triNot triFalse) with triTrue. by destruct (evalList rel row triFalse triTrue ps) as [[]|].
  - pose proof (known_operands rel row known ps IH He Hk) as Hps.
    unfold partialList. rewrite (partialLoop_known rel row) by done.
    change (evalOr _ triFalse ps) with (evalList rel row triTrue triFalse ps).
    change (triNot triTrue) with triFalse. by destruct (evalList rel row triTrue triFalse ps) as [[]|].
  - rewrite IH by done. by destruct (evalPredicate p rel row).
  - done.
Qed.
