(* ===== verification/InterpTheorems.v ===== *)
(** What the IR's validation and its reference interpreter promise:
    validation against the shape it accepts, type safety, the predicates'
    laws, and each operator against its relational meaning. *)

From Stdlib Require Import Sorting.Sorted.
From S2P Require Import Prelude GoString Value Relalg Interp InterpFacts Check.

(** ** Lemmas on DISTINCT, GROUP BY and the to-one join *)

(** DISTINCT keeps, in order, one row of every key. *)
Lemma distinctRows_spec seen rows out :
  distinctRows seen rows = Ok out ->
  out `sublist_of` rows /\
  (exists keys, mapM rowKey out = Ok keys /\ NoDup keys /\ (forall k, k ∈ keys -> k ∉ seen)) /\
  (forall row k, row ∈ rows -> rowKey row = Ok k -> k ∉ seen -> exists row', row' ∈ out /\ rowKey row' = Ok k).
Proof.
  revert seen out. induction rows as [|row rows IH]; intros seen out H; simpl in H; inv_ok.
  { split_and!; [constructor|exists []; split_and!; [done|constructor|set_solver]|set_solver]. }
  rename a into key. case_decide as Hk; inv_ok.
  - destruct (IH _ _ H) as (Hs & Hkeys & Hrep). split_and!; [by constructor|done|].
    intros r k [->|Hr]%elem_of_cons Hrk Hns; [congruence|eauto].
  - rename a into rest. destruct (IH _ _ E0) as (Hs & (keys & Hkeys & Hnd & Hks) & Hrep).
    split_and!; [by constructor| |].
    + exists (key :: keys). simpl. rewrite E. cbn. rewrite Hkeys. cbn. split_and!; [done| |].
      * constructor; [|done]. intros Hin. specialize (Hks _ Hin). set_solver.
      * intros k [->|Hin]%elem_of_cons; [done|]. specialize (Hks _ Hin). set_solver.
    + intros r k [->|Hr]%elem_of_cons Hrk Hns.
      * exists row. split; [by left|done].
      * destruct (decide (k = key)) as [->|Hne]; [exists row; split; [by left|done]|].
        destruct (Hrep r k Hr Hrk) as (r' & Hr' & ?); [set_solver|]. exists r'. split; [by right|done].
Qed.

(** A row's grouping key. *)
Definition groupKey (groupIdx : list nat) (row : list value) : result string :=
  keyVals ← mapM (index row) groupIdx; rowKey keyVals.

Definition grouped (groupIdx : list nat) (groups : list (string * list (list value))) : Prop :=
  NoDup groups.*1 /\ Forall (fun g => g.2 <> [] /\ Forall (fun row => groupKey groupIdx row = Ok g.1) g.2) groups.

Lemma addToGroup_keys key row groups k :
  k ∈ (addToGroup key row groups).*1 <-> k = key \/ k ∈ groups.*1.
Proof.
  induction groups as [|[k' rows] groups IH]; simpl; [set_solver|].
  case_decide; simpl; subst; rewrite !elem_of_cons; [naive_solver|]. rewrite IH. naive_solver.
Qed.

Lemma addToGroup_grouped idx key row groups :
  groupKey idx row = Ok key -> grouped idx groups -> grouped idx (addToGroup key row groups).
Proof.
  intros Hk [Hnd Hg]. induction groups as [|[k rows] groups IH]; simpl.
  { split; [simpl; apply NoDup_singleton|]. constructor; [|by apply Forall_nil_2].
    simpl. split; [done|]. by constructor. }
  simpl in Hnd. apply NoDup_cons in Hnd as [Hni Hnd]. apply Forall_cons in Hg as [[Hne Hrows] Hg].
  simpl in Hne, Hrows. case_decide as Hkk; subst.
  - split; [simpl; by constructor|]. constructor; [|done]. simpl. split; [by destruct rows|].
    apply Forall_app. split; [done|]. by constructor.
  - destruct (IH Hnd Hg) as [Hnd' Hg']. split; [|by constructor]. simpl. constructor; [|done].
    rewrite addToGroup_keys. naive_solver.
Qed.

Lemma addToGroup_perm key row groups :
  concat (addToGroup key row groups).*2 ≡ₚ row :: concat groups.*2.
Proof.
  induction groups as [|[k rows] groups IH]; simpl; [done|]. case_decide; simpl.
  - rewrite <- app_assoc. simpl. by rewrite Permutation_middle.
  - rewrite IH. by rewrite Permutation_middle.
Qed.

Lemma groupRows_spec idx rows groups out :
  groupRows idx rows groups = Ok out -> grouped idx groups ->
  grouped idx out /\ concat out.*2 ≡ₚ concat groups.*2 ++ rows.
Proof.
  revert groups. induction rows as [|row rows IH]; intros groups H Hg; simpl in H; inv_ok.
  { by rewrite app_nil_r. }
  destruct (IH _ H) as [Hout Hp].
  { apply addToGroup_grouped; [|done]. unfold groupKey. rewrite E. done. }
  split; [done|]. rewrite Hp, addToGroup_perm. simpl. by rewrite <- Permutation_middle.
Qed.

(** A NUL-free key determines the cells up to [same_cell]. *)
Lemma groupKey_cells idx r1 r2 k c1 c2 :
  mapM (index r1) idx = Ok c1 -> mapM (index r2) idx = Ok c2 ->
  Forall (fun v => nul_free v = true) c1 -> Forall (fun v => nul_free v = true) c2 ->
  groupKey idx r1 = Ok k -> groupKey idx r2 = Ok k -> Forall2 same_cell c1 c2.
Proof.
  unfold groupKey. intros H1 H2 N1 N2. rewrite H1, H2. cbn. apply rowKey_inj; [done|done|].
  apply mapM_length in H1, H2. congruence.
Qed.

(** ** Theorems *)

(** ValidatePredicateWithMaxINCardinality accepts exactly the predicates
    the grammar allows: known operators on named fields, no value for IS
    NULL, a non-empty IN list within the bound, no nil or empty connective,
    EXISTS on a named relation with join columns and no EXISTS inside. *)
Theorem validate_iff_wf (p : Predicate) (maxIN : Z) :
  ValidatePredicateWithMaxINCardinality p maxIN = Ok tt <-> 0 < maxIN /\ wf_predicate maxIN p.
Proof.
  unfold ValidatePredicateWithMaxINCardinality. destruct (Z.leb_spec maxIN 0).
  - split; [done|]. lia.
  - rewrite validateWith_ok. naive_solver lia.
Qed.

(** C36. On tables whose rows have a cell per column, evaluating any plan
    never indexes out of range: Eval returns a table whose rows have a cell
    per column again, or one of the package's errors. *)
Theorem Eval_type_safe (db : DB) (e : Expr) :
  wf_db db ->
  match Eval db e with
  | Ok t => Forall (fun row => length row = length (TCols t)) (TRows t)
  | Err err => err <> Panic
  end.
Proof.
  intros Hdb. change (safe (fun t => Forall (fun row => length row = length (TCols t)) (TRows t)) (Eval db e)).
  eapply safe_bind; [by apply safe_eval|]. intros r Hr.
  eapply safe_bind; [by apply safe_visible|]. intros r' [Hr' _]. exact Hr'.
Qed.

Lemma Eval_type_safe_witness :
  match Eval {["t" := mkTable ["a"] [[VInt KInt 2]; [VInt KInt 1]]]}
             (ESort (EScan (mkRef "" "t") "") [mkTerm "a" "asc" false]) with
  | Ok t => Forall (fun row => length row = length (TCols t)) (TRows t)
  | Err err => err <> Panic
  end.
Proof. apply Eval_type_safe. apply map_Forall_singleton. by repeat constructor. Defined.

(** A selection keeps, in their order, exactly the rows its predicate is
    TRUE on: FALSE and UNKNOWN rows are dropped, and no column changes. *)
Theorem evalSelect_exact (db : DB) (r : relation) (p : Predicate) (out : relation) :
  evalSelect db r p = Ok out ->
  Cols out = Cols r /\ hidden out = hidden r /\ Rows out `sublist_of` Rows r /\
  (forall row, row ∈ Rows out <-> row ∈ Rows r /\ evalPredicate p (with_db r db) row = Ok triTrue).
Proof. apply evalSelect_spec. Qed.

Lemma evalSelect_exact_witness :
  exists out, evalSelect ∅ (mkRel ["a"] [[VInt KInt 1]; [VNil]; [VInt KInt 3]] ∅ 0)
                (PCond (mkCond "a" OpGt (VInt KInt 2))) = Ok out /\ [VNil] ∉ Rows out.
Proof.
  eexists. split; [reflexivity|].
  match goal with |- _ ∉ Rows ?o =>
    destruct (evalSelect_exact ∅ (mkRel ["a"] [[VInt KInt 1]; [VNil]; [VInt KInt 3]] ∅ 0)
                (PCond (mkCond "a" OpGt (VInt KInt 2))) o eq_refl) as (_ & _ & _ & H) end.
  rewrite H. intros [_ H']. discriminate H'.
Defined.

(** A sort returns a permutation of its input, every row before the rows
    that come after it in the terms' lexicographic order (NULLs last in both
    directions), or an error when two cells do not compare. *)
Theorem evalSort_sorted (r : relation) (orderBy : list OrderTerm) (out : relation) :
  evalSort r orderBy = Ok out ->
  exists terms, orderTerms r orderBy = Ok terms /\ Cols out = Cols r /\
    Rows r ≡ₚ Rows out /\ StronglySorted (row_le terms) (Rows out).
Proof. intros H. destruct (evalSort_spec _ _ _ H) as (terms & ? & ? & _ & ? & ?). eauto. Qed.

Lemma evalSort_sorted_witness :
  exists out terms, evalSort (mkRel ["a"] [[VInt KInt 1]; [VNil]; [VInt KInt 3]] ∅ 0) [mkTerm "a" "desc" true] = Ok out /\
    orderTerms (mkRel ["a"] [[VInt KInt 1]; [VNil]; [VInt KInt 3]] ∅ 0) [mkTerm "a" "desc" true] = Ok terms /\
    StronglySorted (row_le terms) (Rows out).
Proof.
  eexists. eexists. split; [vm_compute; reflexivity|]. split; [vm_compute; reflexivity|].
  match goal with |- StronglySorted _ (Rows ?o) =>
    destruct (evalSort_sorted (mkRel ["a"] [[VInt KInt 1]; [VNil]; [VInt KInt 3]] ∅ 0)
               [mkTerm "a" "desc" true] o eq_refl) as (terms & Ht & _ & _ & Hs) end.
  vm_compute in Ht. injection Ht as <-. exact Hs.
Defined.

(** Negation distributes as De Morgan's law says, in three-valued logic
    and with the same errors: NOT (p1 AND .. AND pn) evaluates as
    NOT p1 OR .. OR NOT pn. *)
Theorem evalPredicate_de_morgan (ps : list Predicate) (rel : relation) (row : list value) :
  evalPredicate (PNot (PAnd ps)) rel row = evalPredicate (POr (map PNot ps)) rel row.
Proof.
  change (evalPredicate (POr (map PNot ps)) rel row)
    with (evalOr (fun q => evalPredicate q rel row) triFalse (map PNot ps)).
  rewrite evalOr_map.
  change (fun q => evalPredicate (PNot q) rel row)
    with (fun q => v ← evalPredicate q rel row; Ok (triNot v)).
  change triFalse with (triNot triTrue). rewrite evalOr_triNot.
  simpl. by destruct (evalAnd _ triTrue ps).
Qed.

(** x IN (v1, .., vn) is x = v1 OR .. OR x = vn and x NOT IN its
    negation, NULLs and errors included: a NULL in the list makes NOT IN
    never TRUE. *)
Theorem evalIn_is_or (rel : relation) (row : list value) (f : string) (vs : list value) :
  vs <> [] ->
  evalPredicate (PCond (mkCond f OpIn (VList vs))) rel row =
    evalPredicate (POr ((fun v => PCond (mkCond f OpEq v)) <$> vs)) rel row /\
  evalPredicate (PCond (mkCond f OpNotIn (VList vs))) rel row =
    evalPredicate (PNot (POr ((fun v => PCond (mkCond f OpEq v)) <$> vs))) rel row.
Proof.
  intros Hne. pose proof (evalIn_as_or rel row f vs Hne) as H. split; [done|].
  cbn [evalPredicate] in *. rewrite <- H. unfold evalCondition. simpl CField.
  destruct (colIndex rel f) as [i|]; [|done]. cbn. by destruct (index row i).
Qed.

Lemma evalIn_is_or_witness :
  evalPredicate (PCond (mkCond "a" OpNotIn (VList [VInt KInt 1; VNil]))) (mkRel ["a"] [] ∅ 0) [VInt KInt 2]
  = Ok triUnknown.
Proof.
  rewrite (proj2 (evalIn_is_or (mkRel ["a"] [] ∅ 0) [VInt KInt 2] "a" [VInt KInt 1; VNil] ltac:(done))).
  reflexivity.
Defined.

(** LIKE matches exactly the pattern's language: the subject cut into one
    segment per pattern item, % any text, _ one character, an escaped or
    plain character itself. *)
Theorem evalLike_language (s p : string) :
  evalLike (VString s) (VString p) = Ok triTrue <-> like_language (likeRegexp p) (runes s).
Proof.
  rewrite <- likeMatch_spec. unfold evalLike. simpl.
  destruct (likeMatch (likeRegexp p) (runes s)); simpl; naive_solver.
Qed.

(** DISTINCT keeps, in order, one row of every row key: no two kept rows
    have one key, and every input row has a kept row of its key. *)
Theorem evalDistinct_representatives (r out : relation) :
  evalDistinct r = Ok out -> hidden r = 0%nat ->
  Cols out = Cols r /\ Rows out `sublist_of` Rows r /\
  (exists keys, mapM rowKey (Rows out) = Ok keys /\ NoDup keys) /\
  (forall row k, row ∈ Rows r -> rowKey row = Ok k -> exists row', row' ∈ Rows out /\ rowKey row' = Ok k).
Proof.
  unfold evalDistinct, visible. intros H Hh. rewrite Hh in H. simpl in H. inv_ok. simpl.
  destruct (distinctRows_spec _ _ _ E) as (? & (keys & ? & ? & _) & Hrep).
  split_and!; [done|done|eauto|]. intros row k Hr Hk. eapply Hrep; eauto. apply not_elem_of_empty.
Qed.

Lemma evalDistinct_representatives_witness :
  exists out, evalDistinct (mkRel ["a"] [[VInt KInt 1]; [VFloat64 (FFin 10 (-1))]; [VNil]] ∅ 0) = Ok out /\
    Rows out `sublist_of` [[VInt KInt 1]; [VFloat64 (FFin 10 (-1))]; [VNil]] /\ length (Rows out) = 2%nat.
Proof.
  eexists. split; [vm_compute; reflexivity|]. split; [|reflexivity].
  match goal with |- sublist (Rows ?o) _ =>
    destruct (evalDistinct_representatives (mkRel ["a"] [[VInt KInt 1]; [VFloat64 (FFin 10 (-1))]; [VNil]] ∅ 0) o
                eq_refl eq_refl) as (_ & H & _) end.
  exact H.
Defined.

(** GROUP BY partitions its rows: every row is in one group, a group's
    rows share its key and no two groups do; rows of one group agree on the
    grouping columns (equal values or both NULL) when no text there holds a
    NUL byte. *)
Theorem groupRows_partition (idx : list nat) (rows : list (list value)) (groups : list (string * list (list value))) :
  groupRows idx rows [] = Ok groups ->
  concat groups.*2 ≡ₚ rows /\ NoDup groups.*1 /\
  (forall k g, (k, g) ∈ groups -> g <> [] /\ Forall (fun row => groupKey idx row = Ok k) g) /\
  (forall k g r1 r2 c1 c2, (k, g) ∈ groups -> r1 ∈ g -> r2 ∈ g ->
     mapM (index r1) idx = Ok c1 -> mapM (index r2) idx = Ok c2 ->
     Forall (fun v => nul_free v = true) c1 -> Forall (fun v => nul_free v = true) c2 ->
     Forall2 same_cell c1 c2).
Proof.
  intros H. destruct (groupRows_spec _ _ _ _ H) as [[Hnd Hg] Hp].
  { split; [apply NoDup_nil_2|by apply Forall_nil_2]. }
  rewrite Forall_forall in Hg. split_and!; [done|done|intros k g Hin; apply (Hg _ Hin)|].
  intros k g r1 r2 c1 c2 Hin H1 H2. destruct (Hg _ Hin) as [_ Hrows]. simpl in Hrows.
  rewrite Forall_forall in Hrows. intros. eapply groupKey_cells; eauto.
Qed.

Lemma groupRows_partition_witness :
  exists groups, groupRows [0%nat] [[VString "x"; VInt KInt 1]; [VNil; VInt KInt 2]; [VString "x"; VInt KInt 3]] [] = Ok groups /\
    concat groups.*2 ≡ₚ [[VString "x"; VInt KInt 1]; [VNil; VInt KInt 2]; [VString "x"; VInt KInt 3]].
Proof.
  eexists. split; [vm_compute; reflexivity|].
  match goal with |- concat ?o.*2 ≡ₚ _ =>
    destruct (groupRows_partition [0%nat]
      [[VString "x"; VInt KInt 1]; [VNil; VInt KInt 2]; [VString "x"; VInt KInt 3]] o eq_refl) as [H _] end.
  exact H.
Defined.

(** A to-one join changes no left row and loses none: each output row is
    the left row followed by its one match, or by NULLs when none matches;
    two matches are an error, never a duplicated row. *)
Theorem evalJoin_to_one (db : DB) (input : relation) (ref : RelationRef) (alias : string)
    (on : list JoinPair) (p : Predicate) (out : relation) :
  evalJoin db input ref alias on p = Ok out ->
  exists right, evalScan db ref = Ok right /\
    Forall2 (fun row o => exists ms, matching input row right on (evalPredicate p right) = Ok ms /\
       ((ms = [] /\ o = row ++ replicate (length (Cols right)) VNil) \/ (exists m, ms = [m] /\ o = row ++ m)))
      (Rows input) (Rows out).
Proof.
  unfold evalJoin. intros H. inv_ok. rename a into right. exists right. split; [done|]. simpl.
  apply mapM_ok in E0. eapply Forall2_impl; [exact E0|]. simpl. intros row o Ho. inv_ok.
  destruct a as [|m [|]]; inv_ok; naive_solver.
Qed.

Lemma evalJoin_to_one_witness :
  match evalJoin {["u" := mkTable ["id"; "n"] [[VInt KInt 1; VString "x"]]]}
     (mkRel ["u_id"] [[VInt KInt 1]; [VInt KInt 9]] ∅ 0) (mkRef "" "u") "u" [mkPair "u_id" "id"] PNil with
  | Ok out => length (Rows out) = 2%nat
  | Err _ => False
  end.
Proof.
  destruct (evalJoin _ _ _ _ _ _) as [out|err] eqn:E; [|vm_compute in E; discriminate E].
  destruct (evalJoin_to_one _ _ _ _ _ _ _ E) as (right & _ & H).
  apply Forall2_length in H. symmetry. exact H.
Defined.

(** The partial evaluation of a scope on a row all of whose tested
    columns are known is its evaluation: same value, same error. *)
Theorem Check_complete_row (rel : relation) (row : list value) (known : gmap string value) (p : Predicate) :
  extends rel row known -> HasExists p = false ->
  (forall c, c ∈ conditions p -> is_Some (known !! CField c)) ->
  Check p known =
    match evalPredicate p rel row with
    | Ok triTrue => (PNil, Holds, None)
    | Ok _ => (PNil, Fails, None)
    | Err e => (PNil, Fails, Some e)
    end.
Proof.
  intros Hx He Hk. unfold Check. rewrite (partialEval_known rel row known p Hx He Hk).
  by destruct (evalPredicate p rel row) as [[]|].
Qed.

Lemma Check_complete_row_witness :
  Check (PCond (mkCond "t" OpEq (VString "acme"))) {["t" := VString "acme"]} = (PNil, Holds, None).
Proof.
  rewrite (Check_complete_row (mkRel ["t"] [] ∅ 0) [VString "acme"]); [reflexivity| |reflexivity|].
  - intros f v Hf. apply lookup_singleton_Some in Hf as [<- <-]. exists 0%nat. split; reflexivity.
  - intros c Hc. apply list_elem_of_singleton in Hc as ->. eexists. reflexivity.
Defined.
