(* ===== verification/Entity.v ===== *)
(** Entities and their registry: core/entity (entity.go, registry.go).

    An entity describes an exposed relation; the registry is built once and
    found by name or by any partially qualified reference.  A Go map whose
    iteration order the code can observe is an association list in that
    order. *)

From S2P Require Import Prelude Value Relalg.

(** ** Kinds and actions *)

Inductive Kind : Type := KindTable | KindView | KindProcedure.

#[global] Instance Kind_eq_dec : EqDecision Kind.
Proof. solve_decision. Defined.

Inductive Action : Type :=
  | ActionRead | ActionCreate | ActionUpdate | ActionDelete | ActionExecute | ActionAggregate.

#[global] Instance Action_eq_dec : EqDecision Action.
Proof. solve_decision. Defined.

Definition Action_String (a : Action) : string :=
  match a with
  | ActionRead => "read" | ActionCreate => "create" | ActionUpdate => "update"
  | ActionDelete => "delete" | ActionExecute => "execute" | ActionAggregate => "aggregate"
  end.

Definition Actions : list Action :=
  [ActionRead; ActionCreate; ActionUpdate; ActionDelete; ActionExecute; ActionAggregate].

Definition ActionNames : list string := Action_String <$> Actions.

Definition ParseAction (name : string) : option Action :=
  List.find (fun a => bool_decide (Action_String a = name)) Actions.

(** ** Columns, keys, foreign keys *)

Record Domain : Type := mkDomain {
  DType : string;
  DNullable : bool;
  DDefault : bool;
  DGenerated : bool;
  DAutoIncrement : bool;
}.

Definition Writable (d : Domain) : bool := negb (DGenerated d).
Definition Required (d : Domain) : bool := negb (DNullable d) && negb (DDefault d) && negb (DGenerated d).

Record Attribute : Type := mkAttr {
  AName : string;
  AAlias : string;
  ADescription : string;
  ADomain : Domain;
  AExcluded : bool;
  AMask : string;
}.

Record Key : Type := mkKey {
  KName : string;
  KColumns : list string;
  KPrimary : bool;
  KDeclared : bool;
  KDeferrable : bool;
  KReason : string;
}.

Record Index : Type := mkIndex {
  IName : string;
  IMethod : string;
  IParts : list string;
  IUnique : bool;
  IPrimary : bool;
  IWhere : string;
}.

Record ForeignKey : Type := mkFK {
  FKName : string;
  FKColumns : list string;
  FKRefSchema : string;
  FKRefRelation : string;
  FKRefColumns : list string;
  FKOnDelete : string;
  FKOnUpdate : string;
}.

Record Cascade : Type := mkCascade {
  CaSchema : string;
  CaTable : string;
  CaRelation : string;
  CaEntity : string;
  CaColumns : list string;
  CaForeignColumns : list string;
  CaOnDelete : string;
  CaOnUpdate : string;
}.

Definition ReferentialWrite (action : string) : bool :=
  bool_decide (action = "cascade") || bool_decide (action = "set_null")
  || bool_decide (action = "set_default").

Record FieldPermissions : Type := mkFP { FPRead : list string; FPWrite : list string }.

Record MCPFlags : Type := mkMCP { DMLTools : bool; CustomTool : bool; TrustedProcedure : bool }.

Record Relationship : Type := mkRelationship {
  ReName : string;
  ReTarget : string;
  ReCardinality : string;
  ReJoinOn : list (string * string);
}.

Definition Single (r : Relationship) : bool :=
  bool_decide (ReCardinality r = "one") || bool_decide (ReCardinality r = "one-to-one")
  || bool_decide (ReCardinality r = "belongs-to").

(** ** Entity *)

Record Entity : Type := mkEntity {
  EName : string;
  ELocal : string;
  ESource : string;
  EDataSource : string;
  ESchema : string;
  EDescription : string;
  EKind : Kind;
  EAttributes : list Attribute;
  EKeys : list Key;
  EForeignKeys : list ForeignKey;
  EIndexes : list Index;
  ERole : list (Action * list string);
  EFieldAccess : list (string * FieldPermissions);
  EMCP : MCPFlags;
  ERowPolicies : list (string * Predicate);
  ETenantPolicy : Predicate;
  ERelations : list Relationship;
  EDerived : bool;
  EUnavailable : string;
  EAbsent : list string;
  ERelation : string;
  EAffects : list string;
  ECascades : list Cascade;
  EAllowCascade : bool;
  EAllowKeyUpdate : bool;
  ERowColumns : list string;
  ESideEffects : bool;
  EParams : list string;
}.

Definition ActionsFor (kind : Kind) : list Action :=
  match kind with
  | KindProcedure => [ActionExecute]
  | _ => [ActionRead; ActionAggregate; ActionCreate; ActionUpdate; ActionDelete]
  end.

Definition DatasourceName (e : Entity) : string :=
  if decide (EDataSource e = "") then "default" else EDataSource e.

Definition ID (datasource schema name : string) : string :=
  let datasource := if decide (datasource = "") then "default" else datasource in
  if decide (schema = "") then datasource +:+ "." +:+ name
  else datasource +:+ "." +:+ schema +:+ "." +:+ name.

Definition ReferencesOf (datasource schema local : string) : list string :=
  let datasource := if decide (datasource = "") then "default" else datasource in
  if decide (schema = "") then [local; datasource +:+ "." +:+ local]
  else if decide (schema = datasource) then [local; schema +:+ "." +:+ local; ID datasource schema local]
  else [local; schema +:+ "." +:+ local; datasource +:+ "." +:+ local; ID datasource schema local].

Definition References (e : Entity) : list string :=
  if decide (ELocal e = "") then [EName e] else ReferencesOf (EDataSource e) (ESchema e) (ELocal e).

Definition RelationKey (e : Entity) : string :=
  if decide (ERelation e = "") then
    let source := if decide (ESource e = "") then EName e else ESource e in
    "datasource:" +:+ DatasourceName e +:+ NUL +:+ NUL +:+ ESchema e +:+ NUL +:+ source
  else ERelation e.

Definition Ref (e : Entity) : RelationRef := {| Schema := ESchema e; RefName := ESource e |}.

Definition PrimaryKey (e : Entity) : option (list string) :=
  KColumns <$> List.find KPrimary (EKeys e).

(** One pass of IdentityKeys: the keys of one kind that identify a row. *)
Definition identityPass (enforced inTransaction primary : bool) (keys : list Key) : list (list string) :=
  KColumns <$> List.filter (fun k =>
    negb (negb (Bool.eqb (KPrimary k) primary) || negb (bool_decide (KReason k = ""))
          || enforced && KDeclared k || inTransaction && KDeferrable k)) keys.

Definition IdentityKeys (e : Entity) (enforced inTransaction : bool) : list (list string) :=
  identityPass enforced inTransaction true (EKeys e)
  ++ identityPass enforced inTransaction false (EKeys e).

Definition CursorKey (e : Entity) : option (list string) := head (IdentityKeys e false false).

Definition AttributeByName (e : Entity) (name : string) : option Attribute :=
  if decide (name = "") then None
  else List.find (fun a => bool_decide (AName a = name) || bool_decide (AAlias a = name)) (EAttributes e).

Definition OrderedNames (e : Entity) (set : gset string) : list string :=
  List.filter (fun n => bool_decide (n ∈ set)) (AName <$> EAttributes e).

Record Resolved : Type := mkResolved { REntity : Entity; RAttributes : list Attribute }.

(** ** Registry *)

Record Registry : Type := mkRegistry {
  byName : gmap string Entity;
  byRef : gmap string (list string);
  entities : list Entity;
  visible_attrs : gmap string (list Attribute);
  procedures : list nat;
}.

Definition emptyRegistry : Registry := mkRegistry ∅ ∅ [] ∅ [].

Definition addRef (name : string) (m : gmap string (list string)) (ref : string) :
    gmap string (list string) :=
  <[ref := default [] (m !! ref) ++ [name]]> m.

Definition visibleOf (e : Entity) : list Attribute := List.filter (fun a => negb (AExcluded a)) (EAttributes e).

(** One round of NewRegistry's loop. *)
Definition register (r : Registry) (e : Entity) : result Registry :=
  if decide (EName e = "") then Err ErrEmptyName
  else match byName r !! EName e with
  | Some _ => Err ErrDuplicateEntity
  | None => Ok {|
      byName := <[EName e := e]> (byName r);
      byRef := foldl (addRef (EName e)) (byRef r) (References e);
      entities := entities r ++ [e];
      visible_attrs := <[EName e := visibleOf e]> (visible_attrs r);
      procedures := if decide (EKind e = KindProcedure)
                    then procedures r ++ [length (entities r)] else procedures r;
    |}
  end.

Fixpoint registerAll (r : Registry) (es : list Entity) : result Registry :=
  match es with
  | [] => Ok r
  | e :: es => r ← register r e; registerAll r es
  end.

Definition NewRegistry (es : list Entity) : result Registry := registerAll emptyRegistry es.

Definition Resolve (r : Registry) (ref : string) : option Resolved :=
  match byName r !! ref with
  | Some e => Some {| REntity := e; RAttributes := default [] (visible_attrs r !! EName e) |}
  | None =>
      match default [] (byRef r !! ref) with
      | [name] => e ← byName r !! name;
                  Some {| REntity := e; RAttributes := default [] (visible_attrs r !! EName e) |}
      | _ => None
      end
  end.

Definition Procedures (r : Registry) : list Entity :=
  omap (fun i => entities r !! i) (procedures r).

Definition Match (r : Registry) (ref : string) : list Entity :=
  match byName r !! ref with
  | Some e => [e]
  | None => omap (fun name => byName r !! name) (default [] (byRef r !! ref))
  end.

Definition uniqueAmong (r : Registry) (ref name : string) (visible : option (Entity -> bool)) : bool :=
  negb (bool_decide (is_Some (byName r !! ref)) && negb (bool_decide (ref = name))) &&
  forallb (fun other =>
    negb (negb (bool_decide (other = name)) &&
          match visible with
          | None => true
          | Some f => match byName r !! other with Some o => f o | None => false end
          end)) (default [] (byRef r !! ref)).

(** The loop over all references but the last. *)
Fixpoint firstUnique (r : Registry) (refs : list string) (name : string)
    (visible : option (Entity -> bool)) : string :=
  match refs with
  | [] => ""
  | [ref] => ref
  | ref :: refs => if uniqueAmong r ref name visible then ref else firstUnique r refs name visible
  end.

Definition ShortName (r : Registry) (e : Entity) (visible : option (Entity -> bool)) : string :=
  firstUnique r (References e) (EName e) visible.
