(* ===== verification/EntityFacts.v ===== *)
(** The registry's invariant and what its lookups promise. *)

From S2P Require Import Prelude Value Relalg Entity.

(** ** References are distinct *)

Lemma References_NoDup e : NoDup (References e).
Proof.
  unfold References, ReferencesOf, ID.
  assert (forall s t : string, String.length s <> String.length t -> s <> t) as Hlen by congruence.
  repeat case_decide; simplify_eq; rewrite ?NoDup_cons, ?elem_of_cons, ?elem_of_nil;
    split_and!; try apply NoDup_nil_2; try done; intros Hin; destruct_or?; try done;
    match goal with H : @eq string _ _ |- _ => revert H end;
    try (apply Hlen; rewrite !string_length_app; simpl; lia).
  all: intros Heq; apply string_app_inj_r in Heq; congruence.
Qed.

(** ** The invariant *)

Record registry_ok (r : Registry) : Prop := {
  ok_names : NoDup (EName <$> entities r);
  ok_byName : forall n e, byName r !! n = Some e <-> e ∈ entities r /\ EName e = n;
  ok_byRef : forall ref, default [] (byRef r !! ref) =
               EName <$> List.filter (fun e => bool_decide (ref ∈ References e)) (entities r);
  ok_visible : forall n, visible_attrs r !! n = visibleOf <$> byName r !! n;
  ok_procedures : Procedures r = List.filter (fun e => bool_decide (EKind e = KindProcedure)) (entities r);
  ok_procedure_bounds : Forall (fun i => i < length (entities r))%nat (procedures r);
}.

Lemma addRefs_lookup n refs m ref :
  NoDup refs ->
  default [] (foldl (addRef n) m refs !! ref) =
  default [] (m !! ref) ++ (if bool_decide (ref ∈ refs) then [n] else []).
Proof.
  intros Hnd. revert m. induction Hnd as [|x refs Hx _ IH]; intros m; simpl.
  { by rewrite app_nil_r. }
  rewrite IH. unfold addRef at 1. destruct (decide (x = ref)) as [->|Hne].
  - rewrite lookup_insert_eq. simpl. rewrite bool_decide_eq_false_2 by done.
    by rewrite bool_decide_eq_true_2, app_nil_r by (by left).
  - rewrite lookup_insert_ne by done. f_equal.
    by rewrite (bool_decide_ext (ref ∈ x :: refs) (ref ∈ refs)) by set_solver.
Qed.

Lemma registry_ok_empty : registry_ok emptyRegistry.
Proof.
  constructor; simpl; try done; [constructor|].
  intros n e. rewrite lookup_empty. set_solver.
Qed.

Lemma omap_ext_elem {A B} (f g : A -> option B) l :
  Forall (fun x => f x = g x) l -> omap f l = omap g l.
Proof.
  induction 1 as [|x l H _ IH]; [done|]. unfold omap in *. simpl. rewrite H.
  destruct (g x); [f_equal|]; exact IH.
Qed.

Lemma register_ok r e r' : registry_ok r -> register r e = Ok r' -> registry_ok r'.
Proof.
  intros [Hn Hb Hr Hv Hp Hpb] H. unfold register in H. case_decide; [done|].
  destruct (byName r !! EName e) eqn:Ee; [done|]. inv_ok.
  assert (EName e ∉ EName <$> entities r) as Hfresh.
  { intros (e' & Hname & He')%list_elem_of_fmap.
    assert (byName r !! EName e = Some e') by (apply Hb; auto). congruence. }
  constructor; simpl.
  - rewrite fmap_app. apply NoDup_app. split_and!; [done| |apply NoDup_singleton].
    intros x Hx ->%list_elem_of_singleton. done.
  - intros n e'. rewrite lookup_insert, elem_of_app, list_elem_of_singleton. case_decide; subst.
    + split; [intros [= <-]; auto|]. intros [[Hin| ->] Heq]; [|done].
      exfalso. apply Hfresh. rewrite <- Heq. by apply list_elem_of_fmap_2.
    + rewrite Hb. naive_solver.
  - intros ref. rewrite addRefs_lookup by apply References_NoDup.
    rewrite Hr, List.filter_app, fmap_app. f_equal. simpl. by case_bool_decide.
  - intros n. rewrite !lookup_insert, Hv. by case_decide.
  - unfold Procedures. simpl. rewrite List.filter_app. simpl.
    assert (omap (fun i => (entities r ++ [e]) !! i) (procedures r) = Procedures r) as Hold.
    { apply omap_ext_elem. eapply Forall_impl; [exact Hpb|]. intros i Hi. by apply lookup_app_l. }
    destruct (decide (EKind e = KindProcedure)) as [Hk|Hk].
    + rewrite omap_app, Hold, Hp. simpl. rewrite list_lookup_middle by done.
      by rewrite bool_decide_eq_true_2.
    + rewrite Hold, Hp. by rewrite bool_decide_eq_false_2, app_nil_r.
  - assert (Forall (fun i => i < length (entities r ++ [e]))%nat (procedures r)).
    { eapply Forall_impl; [exact Hpb|]. simpl. intros i Hi. rewrite length_app. lia. }
    case_decide; [|done]. apply Forall_app. split; [done|]. constructor; [|done].
    rewrite length_app. simpl. lia.
Qed.

Lemma registerAll_ok es r r' :
  registry_ok r -> registerAll r es = Ok r' -> registry_ok r' /\ entities r' = entities r ++ es.
Proof.
  revert r. induction es as [|e es IH]; intros r Hok H; simpl in H; inv_ok.
  { by rewrite app_nil_r. }
  pose proof (register_ok _ _ _ Hok E) as Hok'. destruct (IH _ Hok' H) as [Hr' ->].
  split; [done|]. unfold register in E. repeat case_match; inv_ok; simpl; by rewrite <- app_assoc.
Qed.

Lemma NewRegistry_ok es r : NewRegistry es = Ok r -> registry_ok r /\ entities r = es.
Proof. intros H. by apply registerAll_ok in H; [|apply registry_ok_empty]. Qed.

(** ** Lookups *)

(** What Match lists: the entity of that name, else those with that reference. *)
Lemma Match_spec r ref :
  registry_ok r ->
  Match r ref = match byName r !! ref with
                | Some e => [e]
                | None => List.filter (fun e => bool_decide (ref ∈ References e)) (entities r)
                end.
Proof.
  intros Hok. unfold Match. destruct (byName r !! ref) as [e|] eqn:E; [done|].
  rewrite (ok_byRef r Hok).
  assert (forall l : list Entity, (forall e, e ∈ l -> e ∈ entities r) ->
            omap (fun name => byName r !! name) (EName <$> l) = l) as Hl.
  { induction l as [|e l IH]; intros Hin; [done|]. simpl.
    rewrite (proj2 (ok_byName r Hok (EName e) e)) by (split; [apply Hin; by left|done]).
    f_equal. apply IH. intros x Hx. apply Hin. by right. }
  apply Hl. intros e He. apply list_elem_of_In, filter_In in He as [He _]. by apply list_elem_of_In.
Qed.

(** The unique entity a reference names, or none: what Resolve computes
    without building Match's list. *)
Lemma Resolve_Match r ref :
  registry_ok r ->
  Resolve r ref =
    match Match r ref with
    | [e] => Some {| REntity := e; RAttributes := visibleOf e |}
    | _ => None
    end.
Proof.
  intros Hok. rewrite (Match_spec r ref Hok). unfold Resolve.
  assert (forall e, e ∈ entities r -> default [] (visible_attrs r !! EName e) = visibleOf e) as Hvis.
  { intros e He. rewrite (ok_visible r Hok).
    by rewrite (proj2 (ok_byName r Hok (EName e) e)). }
  destruct (byName r !! ref) as [e|] eqn:E.
  { apply (ok_byName r Hok) in E as [He _]. by rewrite Hvis. }
  rewrite (ok_byRef r Hok).
  destruct (List.filter _ (entities r)) as [|e [|]] eqn:Ef; simpl; try done.
  assert (e ∈ entities r) as He.
  { apply list_elem_of_In, (filter_In (fun e => bool_decide (ref ∈ References e)) e (entities r)).
    rewrite Ef. by left. }
  rewrite (proj2 (ok_byName r Hok (EName e) e)) by done. simpl. by rewrite Hvis.
Qed.

(** Where configured entities are named by their ID (as assembly names them). *)
Definition canonical (e : Entity) : Prop :=
  ELocal e <> "" -> EName e = ID (EDataSource e) (ESchema e) (ELocal e).

Lemma References_last e : canonical e -> last (References e) = Some (EName e).
Proof.
  unfold canonical, References, ReferencesOf. case_decide as Hl; [done|]. intros Hc. specialize (Hc Hl).
  rewrite Hc. unfold ID. repeat case_decide; simplify_eq; done.
Qed.

Lemma firstUnique_elem r refs name visible :
  refs <> [] ->
  let s := firstUnique r refs name visible in
  s ∈ refs /\ (last refs = Some s \/ uniqueAmong r s name visible = true).
Proof.
  induction refs as [|x refs IH]; intros Hne; [done|]. destruct refs as [|y refs].
  { simpl. split; [by left|by left]. }
  change (firstUnique r (x :: y :: refs) name visible) with
    (if uniqueAmong r x name visible then x else firstUnique r (y :: refs) name visible).
  case_match eqn:E; [split; [by left|by right]|].
  destruct IH as [H1 H2]; [done|]. split; [by right|]. by rewrite last_cons_cons.
Qed.

(** An entity's name, once registered, names it. *)
Lemma Match_name r e : registry_ok r -> e ∈ entities r -> Match r (EName e) = [e].
Proof. intros Hok He. unfold Match. by rewrite (proj2 (ok_byName r Hok (EName e) e)). Qed.

Lemma filter_unique (P : Entity -> bool) (l : list Entity) e :
  NoDup (EName <$> l) -> e ∈ l -> P e = true ->
  (forall x, x ∈ l -> P x = true -> EName x = EName e) -> List.filter P l = [e].
Proof.
  intros Hnd He Hp Hu. induction l as [|x l IH]; [by apply elem_of_nil in He|].
  simpl in *. apply NoDup_cons in Hnd as [Hx Hnd].
  assert (forall y, y ∈ l -> EName y <> EName x) as Hne.
  { intros y Hy Heq. apply Hx. rewrite <- Heq. by apply list_elem_of_fmap_2. }
  apply elem_of_cons in He as [<-|He].
  - rewrite Hp. f_equal. clear IH. assert (forall y, y ∈ l -> P y = false) as Hf.
    { intros y Hy. apply not_true_iff_false. intros HP. apply (Hne y Hy). apply Hu; [by right|done]. }
    clear -Hf. induction l as [|y l IH]; [done|]. simpl. rewrite Hf by by left. apply IH.
    intros z Hz. apply Hf. by right.
  - assert (P x = false) as ->.
    { apply not_true_iff_false. intros HP. apply (Hne e He). symmetry. apply Hu; [by left|done]. }
    apply IH; auto. intros y Hy. apply Hu. by right.
Qed.

Lemma uniqueAmong_Match r e ref :
  registry_ok r -> e ∈ entities r -> ref ∈ References e ->
  uniqueAmong r ref (EName e) None = true -> Match r ref = [e].
Proof.
  intros Hok He Href Hu. unfold uniqueAmong in Hu. apply andb_true_iff in Hu as [Hn Hall].
  destruct (byName r !! ref) as [e'|] eqn:E.
  { rewrite (bool_decide_eq_true_2 (is_Some _)) in Hn by by eexists. simpl in Hn.
    case_bool_decide; [|done]. subst. by apply Match_name. }
  unfold Match. rewrite E. rewrite (ok_byRef r Hok) in *.
  assert (List.filter (fun e => bool_decide (ref ∈ References e)) (entities r) = [e]) as ->.
  { apply filter_unique; [apply (ok_names r Hok)|done|by apply bool_decide_eq_true_2|].
    intros x Hx Hxr. rewrite forallb_forall in Hall. specialize (Hall (EName x)).
    rewrite andb_true_r, negb_involutive in Hall. apply bool_decide_eq_true in Hall; [done|].
    apply in_map, filter_In. split; [by apply list_elem_of_In|done]. }
  simpl. by rewrite (proj2 (ok_byName r Hok (EName e) e)).
Qed.

Lemma ShortName_Match r e :
  registry_ok r -> e ∈ entities r -> canonical e -> Match r (ShortName r e None) = [e].
Proof.
  intros Hok He Hc. unfold ShortName.
  destruct (firstUnique_elem r (References e) (EName e) None) as [Hin [Hl|Hu]].
  - intros Hnil. pose proof (References_last e Hc) as H. by rewrite Hnil in H.
  - rewrite (References_last e Hc) in Hl. injection Hl as <-. by apply Match_name.
  - by apply uniqueAmong_Match.
Qed.

(** ** Theorems *)

Lemma registerAll_accepts es r :
  registry_ok r ->
  (exists r', registerAll r es = Ok r') <->
  Forall (fun e => EName e <> ""%string) es /\ NoDup (EName <$> entities r ++ es).
Proof.
  revert r. induction es as [|e es IH]; intros r Hok; simpl.
  { rewrite app_nil_r. split; [intros _; split; [by apply Forall_nil_2|apply (ok_names r Hok)]|eauto]. }
  rewrite Forall_cons. unfold register at 1. case_decide as Hne; [naive_solver|].
  destruct (byName r !! EName e) as [e'|] eqn:E.
  - split; [naive_solver|]. intros [_ Hnd]. exfalso. rewrite fmap_app in Hnd.
    apply NoDup_app in Hnd as (_ & Hd & _). apply (ok_byName r Hok) in E as [He' Hname].
    apply (Hd (EName e)); [rewrite <- Hname; by apply list_elem_of_fmap_2|]. simpl. by left.
  - assert (exists r1, register r e = Ok r1 /\ entities r1 = entities r ++ [e]) as (r1 & Hr1 & Hents).
    { unfold register. rewrite decide_False, E by done. eexists. split; reflexivity. }
    pose proof (register_ok _ _ _ Hok Hr1) as Hok1. specialize (IH _ Hok1).
    unfold register in Hr1. rewrite decide_False, E in Hr1 by done. injection Hr1 as Hr1.
    cbn. rewrite Hr1, IH, Hents, <- app_assoc. simpl. naive_solver.
Qed.

(** A registry is built exactly from entities with distinct, non-empty
    names, and then lists them in the order given. *)
Theorem NewRegistry_accepts (es : list Entity) :
  (exists r, NewRegistry es = Ok r /\ entities r = es) <->
  Forall (fun e => EName e <> ""%string) es /\ NoDup (EName <$> es).
Proof.
  rewrite <- (registerAll_accepts es emptyRegistry registry_ok_empty). split.
  - intros (r & H & _). eauto.
  - intros (r & H). exists r. split; [done|]. by apply NewRegistry_ok in H as [_ ?].
Qed.

(** Resolve answers a reference when it names one entity only: the one of
    that name, or else the only one with that reference; an ambiguous or an
    unknown reference resolves to none.  The entity comes with its
    non-excluded attributes. *)
Theorem Resolve_unique (es : list Entity) (r : Registry) (ref : string) (res : Resolved) :
  NewRegistry es = Ok r ->
  Resolve r ref = Some res <->
  RAttributes res = List.filter (fun a => negb (AExcluded a)) (EAttributes (REntity res)) /\
  (if decide (ref ∈ EName <$> es) then REntity res ∈ es /\ EName (REntity res) = ref
   else List.filter (fun e => bool_decide (ref ∈ References e)) es = [REntity res]).
Proof.
  intros H. apply NewRegistry_ok in H as [Hok <-]. rewrite (Resolve_Match r ref Hok).
  rewrite (Match_spec r ref Hok). destruct res as [e attrs]. simpl. fold (visibleOf e).
  case_decide as Hd.
  - apply list_elem_of_fmap in Hd as (e' & -> & He'). rewrite (proj2 (ok_byName r Hok _ e')) by done.
    split; [intros [= <- <-]; auto|]. intros [-> [He Hn]]. do 2 f_equal.
    + assert (byName r !! EName e' = Some e) as Hb by by apply (ok_byName r Hok).
      rewrite (proj2 (ok_byName r Hok _ e')) in Hb by done. congruence.
    + assert (byName r !! EName e' = Some e) as Hb by by apply (ok_byName r Hok).
      rewrite (proj2 (ok_byName r Hok _ e')) in Hb by done. by simplify_eq.
  - destruct (byName r !! ref) as [e'|] eqn:E.
    { apply (ok_byName r Hok) in E as [He' <-]. exfalso. apply Hd. by apply list_elem_of_fmap_2. }
    destruct (List.filter _ _) as [|x [|]]; naive_solver.
Qed.

(** The short name an entity is shown by resolves back to that entity. *)
Theorem ShortName_resolves (es : list Entity) (r : Registry) (e : Entity) :
  NewRegistry es = Ok r -> e ∈ es -> canonical e ->
  Resolve r (ShortName r e None) = Some {| REntity := e; RAttributes := visibleOf e |}.
Proof.
  intros H He Hc. apply NewRegistry_ok in H as [Hok <-].
  by rewrite (Resolve_Match r _ Hok), (ShortName_Match r e Hok He Hc).
Qed.

(** ** Witnesses *)

Definition plainEntity (ds schema local : string) : Entity :=
  mkEntity (ID ds schema local) local local ds schema "" KindTable
    [mkAttr "id" "" "" (mkDomain "integer" false false false false) false "";
     mkAttr "ssn" "" "" (mkDomain "text" false false false false) true ""]
    [] [] [] [] [] (mkMCP true false false) [] PNil [] false "" [] "" [] [] false false [] false [].

Definition plainRegistry : list Entity := [plainEntity "crm" "" "users"; plainEntity "erp" "" "users"].

Lemma Resolve_unique_witness :
  match NewRegistry plainRegistry with
  | Ok r => Resolve r "erp.users" = Some (mkResolved (plainEntity "erp" "" "users")
              [mkAttr "id" "" "" (mkDomain "integer" false false false false) false ""]) /\
            Resolve r "users" = None
  | Err _ => False
  end.
Proof.
  destruct (NewRegistry plainRegistry) as [r|] eqn:E; [|vm_compute in E; discriminate E]. split.
  - apply (Resolve_unique plainRegistry r "erp.users" _ E). split; [vm_compute; reflexivity|].
    case_decide as Hd; [split; [right; left|reflexivity]|]. exfalso. apply Hd. vm_compute. right. left.
  - vm_compute in E. injection E as <-. vm_compute. reflexivity.
Defined.

Lemma ShortName_resolves_witness :
  match NewRegistry plainRegistry with
  | Ok r => Resolve r "erp.users" =
      Some {| REntity := plainEntity "erp" "" "users"; RAttributes := visibleOf (plainEntity "erp" "" "users") |}
  | Err _ => False
  end.
Proof.
  destruct (NewRegistry plainRegistry) as [r|] eqn:E; [|vm_compute in E; discriminate E].
  assert (ShortName r (plainEntity "erp" "" "users") None = "erp.users"%string) as Hs.
  { vm_compute in E. injection E as <-. vm_compute. reflexivity. }
  rewrite <- Hs. apply (ShortName_resolves plainRegistry); [exact E|right; left|].
  intros _. reflexivity.
Defined.
