(* ===== verification/Numbers.v ===== *)
(** Numbers between JSON, the columns and the interpreter: core/tool/numbers.go,
    with the field-to-column naming of core/tool/alias.go.

    A Go map ranged over is an association list in the order of the range. *)

From Stdlib Require Import QArith.
From S2P Require Import Prelude GoString Value Relalg Entity.

#[global] Open Scope Z_scope.

(** ** The standard library's tables and number parsers *)

(** What the code uses of unicode.ToLower outside ASCII, of strconv.ParseFloat
    ([None]: out of range or malformed), of big.Rat.SetString, and of fmt.Sprint
    on a float64 and on a float32. *)
Class GoStd : Type := {
  unicode_lower : Z -> Z;
  parseFloat : string -> option float64;
  ratSetString : string -> option Q;
  sprintFloat64 : float64 -> string;
  sprintFloat32 : float64 -> string;
}.

(** strconv.ParseInt(s, 10, 64) *)
Definition digitZ (c : ascii) : option Z :=
  let d := byteZ c - 48 in if inb 0 9 d then Some d else None.

Fixpoint parseDigits (acc : Z) (s : string) : option Z :=
  match s with
  | EmptyString => Some acc
  | String c s => d ← digitZ c; parseDigits (10 * acc + d) s
  end.

Definition parseInt64 (s : string) : option Z :=
  let '(sign, rest) := match s with
                       | String "-"%char r => (-1, r)
                       | String "+"%char r => (1, r)
                       | _ => (1, s)
                       end in
  match rest with
  | EmptyString => None
  | _ => n ← parseDigits 0 rest;
         let n := sign * n in
         if inb (- 2 ^ 63) (2 ^ 63 - 1) n then Some n else None
  end.

(** ** Field names (alias.go) *)

Definition columnOf (e : Entity) (field : string) : string :=
  match AttributeByName e field with Some a => AName a | None => field end.

Definition columnsPredicate (e : Entity) (p : Predicate) : Predicate :=
  MapConditions p (fun c => {| CField := columnOf e (CField c); COp := COp c; CValue := CValue c |}).

Definition projectItems (e : Entity) (fields : list string) : list ProjectItem :=
  (fun f => {| ItemField := columnOf e f;
               ItemAlias := if decide (columnOf e f = f) then "" else f |}) <$> fields.

Definition columnsOf (e : Entity) (fields : list string) : list string := columnOf e <$> fields.

Fixpoint distinctLoop (seen : gset string) (columns : list string) : result unit :=
  match columns with
  | [] => Ok tt
  | c :: columns => if decide (c ∈ seen) then Err ErrInvalidInput else distinctLoop ({[c]} ∪ seen) columns
  end.

Definition distinctColumns (e : Entity) (fields : list string) : result unit :=
  distinctLoop ∅ (columnsOf e fields).

(** ** Numbers (numbers.go) *)

Inductive numberKind : Type := exactNumber | floatNumber | integerNumber.

(** The attribute named [column] exactly (slices.IndexFunc). *)
Definition attributeOf (e : Entity) (column : string) : option Attribute :=
  List.find (fun a => bool_decide (AName a = column)) (EAttributes e).

Section Numbers.
Context `{GoStd}.

Definition before (sep : ascii) (s : string) : string :=
  match cut sep s with Some (a, _) => a | None => s end.

Definition numberKindOf (domainType : string) : numberKind :=
  let base := before " " (before "(" (lower_trim unicode_lower domainType)) in
  if bool_decide (base ∈ ["real"; "float"; "float4"; "float8"; "double"]) then floatNumber
  else if bool_decide (base ∈ ["smallint"; "integer"; "int"; "bigint"; "tinyint"; "mediumint"; "int2"; "int4";
         "int8"; "serial"; "bigserial"; "smallserial"]) then integerNumber
  else exactNumber.

Definition isDecimalType (domainType : string) : bool :=
  let t := lower unicode_lower domainType in prefix_of "numeric" t || prefix_of "decimal" t.

Fixpoint coerceAs (kind : numberKind) (v : value) : result value :=
  match v with
  | VNumber x =>
      match kind with
      | floatNumber => match parseFloat x with Some f => Ok (VFloat64 f) | None => Err ErrInvalidInput end
      | integerNumber => Err ErrInvalidInput
      | exactNumber => Ok (VString x)
      end
  | VList l => l ← mapM (coerceAs kind) l; Ok (VList l)
  | _ => Ok v
  end.

Definition coerceNumber (e : Entity) (column : string) (v : value) : result value :=
  coerceAs (match attributeOf e column with Some a => numberKindOf (DType (ADomain a)) | None => exactNumber end) v.

Definition coerceValues (e : Entity) (values : list (string * value)) : result (list (string * value)) :=
  mapM (fun kv => c ← coerceNumber e (columnOf e kv.1) kv.2; Ok (kv.1, c)) values.

Fixpoint coercePredicate (e : Entity) (p : Predicate) : result Predicate :=
  match p with
  | PCond c => v ← coerceNumber e (CField c) (CValue c);
               Ok (PCond {| CField := CField c; COp := COp c; CValue := v |})
  | PAnd ps => ps ← mapM (coercePredicate e) ps; Ok (PAnd ps)
  | POr ps => ps ← mapM (coercePredicate e) ps; Ok (POr ps)
  | PNot q => q ← coercePredicate e q; Ok (PNot q)
  | PNil | PExists _ _ _ => Ok p
  end.

Fixpoint literalNumber (v : value) : value :=
  match v with
  | VNumber x => VString x
  | VList l => VList (map literalNumber l)
  | _ => v
  end.

Definition literalNumbers (args : list value) : list value := map literalNumber args.

Definition exactValue (domainType : string) (v : value) : value :=
  match v with
  | VString s =>
      if isDecimalType domainType
      then match ratSetString s with Some r => VRat (Some r) | None => v end
      else v
  | _ => v
  end.

(** A list's items are no lists: [list] is false below one. *)
Definition subjectScalar (v : value) : result value :=
  match v with
  | VNil | VString _ | VBool _ => Ok v
  | VNumber x => match parseInt64 x with Some i => Ok (VInt KInt64 i) | None => Ok (VString x) end
  | _ => Err ErrSubject
  end.

Definition subjectValue (v : value) (list : bool) : result value :=
  match v with
  | VList items => if list then items ← mapM subjectScalar items; Ok (VList items) else Err ErrSubject
  | _ => subjectScalar v
  end.

Definition NormalizeSubject (attrs : list (string * value)) : result (list (string * value)) :=
  mapM (fun kv => n ← subjectValue kv.2 true; Ok (kv.1, n)) attrs.

End Numbers.

(** A concrete standard library for examples: ASCII letters, no floats,
    integers as rationals. *)
Definition asciiStd : GoStd := {|
  unicode_lower := fun r => r;
  parseFloat := fun _ => None;
  ratSetString := fun s => inject_Z <$> parseInt64 s;
  sprintFloat64 := fun _ => "NaN";
  sprintFloat32 := fun _ => "NaN";
|}.
