(* ===== verification/WriteCheck.v ===== *)
(** WITH CHECK for writes: core/tool/write_check.go.

    A create inserts only a row inside the caller's row scope, and an update
    adds the predicate that keeps each row inside it. *)

From stdpp Require Import sorting.
From S2P Require Import Prelude GoString Value Relalg Interp InterpFacts Check Entity Numbers.

(** ** The operations *)

Record RowPolicyViolationError : Type := mkViolation { VFields : list string; Vcause : option error }.

(** slices.Sort and slices.Sorted on strings *)
Definition string_le (s t : string) : Prop := String.leb s t = true.
#[global] Instance string_le_dec : RelDecision string_le.
Proof. intros s t. unfold string_le. apply _. Defined.

Definition sort_strings (l : list string) : list string := merge_sort string_le l.

Fixpoint pinnedWalk (p : Predicate) (out : gmap string value) : gmap string value :=
  match p with
  | PAnd ps => fold_left (fun m q => pinnedWalk q m) ps out
  | PCond c =>
      if negb (bool_decide (COp c = OpEq)) || is_nil (CValue c) then out
      else match CValue c with
           | VList _ => out
           | v => <[CField c := v]> out
           end
  | _ => out
  end.

Definition pinned (scope : Predicate) : gmap string value := pinnedWalk scope ∅.

(** scopeFields' loop over the columns [scope] tests. *)
Fixpoint visibleNames (e : Entity) (columns : list string) (out : list string) : list string :=
  match columns with
  | [] => out
  | c :: columns =>
      match attributeOf e c with
      | Some a =>
          if AExcluded a then visibleNames e columns out
          else
            let name := if decide (AAlias a = "") then AName a else AAlias a in
            visibleNames e columns (if bool_decide (name ∈ out) then out else out ++ [name])
      | None => visibleNames e columns out
      end
  end.

Definition scopeFields (e : Entity) (scope : Predicate) : list string :=
  sort_strings (visibleNames e (Fields scope) []).

(** The caller's values by column, in the order of the range over the map. *)
Definition byColumn (e : Entity) (values : list (string * value)) : gmap string value :=
  fold_left (fun row fv => <[columnOf e fv.1 := fv.2]> row) values ∅.

Section WriteCheck.
Context `{GoStd}.

Definition exactAt (e : Entity) (column : string) (v : value) : value :=
  match attributeOf e column with Some a => exactValue (DType (ADomain a)) v | None => v end.

Definition exactValues (e : Entity) (row : gmap string value) : gmap string value :=
  map_imap (fun column v => Some (exactAt e column v)) row.

(** The row a create inserts: the caller's values, and the pinned values of
    the columns it left out. *)
Definition insertRowOf (e : Entity) (scope : Predicate) (values : list (string * value)) : gmap string value :=
  byColumn e values ∪ pinned scope.

Definition insertColumns (e : Entity) (scope : Predicate) (values : list (string * value)) :
    (list string * Tuple) + RowPolicyViolationError :=
  let row := insertRowOf e scope values in
  match Check scope (exactValues e row) with
  | (_, Holds, _) =>
      let columns := sort_strings (map_to_list row).*1 in
      inl (columns, (fun c => default VNil (row !! c)) <$> columns)
  | (_, _, err) => inr {| VFields := scopeFields e scope; Vcause := err |}
  end.

Definition updateCheck (e : Entity) (scope : Predicate) (set : list (string * value)) :
    Predicate + RowPolicyViolationError :=
  match Check scope (exactValues e (byColumn e set)) with
  | (_, Holds, _) => inl PNil
  | (residual, Depends, _) => inl residual
  | (_, Fails, err) => inr {| VFields := scopeFields e scope; Vcause := err |}
  end.

End WriteCheck.

Fixpoint keyUpdateLoop (e : Entity) (key fields : list string) : result unit :=
  match fields with
  | [] => Ok tt
  | f :: fields => if bool_decide (columnOf e f ∈ key) then Err ErrInvalidInput else keyUpdateLoop e key fields
  end.

Definition refuseKeyUpdate (e : Entity) (fields : list string) : result unit :=
  if EAllowKeyUpdate e then Ok tt
  else keyUpdateLoop e (default [] (CursorKey e)) fields.

(** ** Check, verdict by verdict *)

Lemma Check_holds p known q err :
  Check p known = (q, Holds, err) <-> partialEval known p = Ok (decided triTrue) /\ q = PNil /\ err = None.
Proof.
  unfold Check. destruct (partialEval known p) as [[v r]|e]; simpl; [|naive_solver].
  destruct r; simpl; try naive_solver. case_decide; naive_solver.
Qed.

Lemma Check_depends p known q err :
  Check p known = (q, Depends, err) -> exists v, partialEval known p = Ok (mkPartial v q) /\ is_pnil q = false.
Proof.
  unfold Check. destruct (partialEval known p) as [[v r]|e]; simpl; [|naive_solver].
  destruct r; simpl; try naive_solver. case_decide; naive_solver.
Qed.

Lemma Check_sound rel row known p q v err w :
  extends rel row known -> Check p known = (q, v, err) -> evalPredicate p rel row = Ok w ->
  match v with
  | Holds => w = triTrue
  | Fails => err = None -> w <> triTrue
  | Depends => evalPredicate q rel row = Ok w
  end.
Proof.
  intros Hx Hc Hw. unfold Check in Hc. destruct (partialEval known p) as [r|e] eqn:E; [|naive_solver].
  pose proof (partialEval_explains _ _ _ _ _ _ Hx E Hw) as He. unfold explains in He.
  destruct (is_pnil (ppred r)); simpl in Hc; [case_decide|]; naive_solver.
Qed.

(** ** Conjuncts *)

(** The operands of an AND at any depth. *)
Fixpoint conjuncts (p : Predicate) : list Predicate :=
  match p with PAnd ps => flat_map conjuncts ps | _ => [p] end.

Lemma partialLoop_all_true ev ps rs u :
  partialLoop ev triFalse ps rs u = Ok (inr ([], false)) ->
  rs = [] /\ u = false /\ Forall (fun p => ev p = Ok (decided triTrue)) ps.
Proof.
  revert rs u. induction ps as [|p ps IH]; intros rs u H; simpl in H.
  { simplify_eq. done. }
  apply bind_ok in H as ([v q] & E & H). simpl in H.
  destruct (is_pnil q) eqn:Eq; simpl in H.
  - destruct q; try done. repeat case_decide; [done|by destruct (IH _ _ H) as (_ & ? & _)|].
    destruct (IH _ _ H) as (-> & -> & Hps). split_and!; [done|done|].
    constructor; [|done]. rewrite E. destruct v; done.
  - destruct (IH _ _ H) as (Habs & _ & _). by apply app_eq_nil in Habs as [_ ?].
Qed.

(** An AND partially evaluated to TRUE has every conjunct so. *)
Lemma partialEval_conjuncts known p q :
  partialEval known p = Ok (decided triTrue) -> q ∈ conjuncts p ->
  partialEval known q = Ok (decided triTrue).
Proof.
  induction p as [|c|ps IH|ps IH|p IH|r on p IH] using Predicate_ind'; intros H Hq.
  all: try (apply list_elem_of_singleton in Hq as ->; exact H).
  simpl in H, Hq. unfold partialList in H. apply bind_ok in H as (out & E & H).
  assert (out = inl (decided triTrue) \/ out = inr ([], false)) as [-> | ->].
  { destruct out as [d|[[|q1 [|]] []]]; naive_solver. }
  - exfalso. clear -E. revert E. generalize (@nil Predicate) as rs. generalize false as u.
    induction ps as [|p ps IH]; intros u rs E; [done|]. simpl in E. apply bind_ok in E as (r & _ & E).
    repeat case_match; simplify_eq; eauto.
  - apply partialLoop_all_true in E as (_ & _ & Hps).
    clear H. induction IH as [|p ps Hp _ IHps]; simpl in Hq; [by apply elem_of_nil in Hq|].
    apply Forall_cons in Hps as [Hp1 Hps]. apply elem_of_app in Hq as [Hq|Hq]; auto.
Qed.

(** ** The row a create inserts *)

Lemma sort_strings_Permutation l : sort_strings l ≡ₚ l.
Proof. apply merge_sort_Permutation. Qed.

#[global] Instance string_le_total : Total string_le.
Proof. intros s t. unfold string_le. destruct (String.leb_total s t); auto. Qed.

Lemma sort_strings_Sorted l : Sorted string_le (sort_strings l).
Proof. apply Sorted_merge_sort, _. Qed.

Section Facts.
Context `{GoStd}.

Lemma exactValues_lookup e row c : exactValues e row !! c = exactAt e c <$> row !! c.
Proof. unfold exactValues. rewrite map_lookup_imap. by destruct (row !! c). Qed.

Lemma insertColumns_inl e scope values columns tuple :
  insertColumns e scope values = inl (columns, tuple) ->
  partialEval (exactValues e (insertRowOf e scope values)) scope = Ok (decided triTrue) /\
  columns = sort_strings (map_to_list (insertRowOf e scope values)).*1 /\
  tuple = (fun c => default VNil (insertRowOf e scope values !! c)) <$> columns.
Proof.
  unfold insertColumns. intros Hi.
  destruct (Check scope _) as [[q v] err] eqn:E; destruct v; try done. simplify_eq.
  apply Check_holds in E as [? _]. done.
Qed.

Lemma insertColumns_columns e scope values columns tuple :
  insertColumns e scope values = inl (columns, tuple) ->
  Sorted string_le columns /\ NoDup columns /\ length tuple = length columns /\
  forall c v, (c, v) ∈ zip columns tuple <-> insertRowOf e scope values !! c = Some v.
Proof.
  intros (_ & -> & ->)%insertColumns_inl. set (row := insertRowOf e scope values).
  split; [apply sort_strings_Sorted|].
  split; [rewrite sort_strings_Permutation; apply NoDup_fst_map_to_list|].
  split; [by rewrite length_fmap|]. intros c v.
  assert (forall l : list string,
    zip l ((fun c => default VNil (row !! c)) <$> l) = (fun c => (c, default VNil (row !! c))) <$> l) as ->.
  { induction l as [|x l IH]; [done|]. simpl. f_equal. exact IH. }
  rewrite sort_strings_Permutation, list_elem_of_fmap. split.
  - intros (c' & [= -> ->] & Hc'). apply list_elem_of_fmap in Hc' as ([c2 v2] & -> & Hc').
    apply elem_of_map_to_list in Hc'. simpl. by rewrite Hc'.
  - intros Hv. exists c. rewrite Hv. split; [done|]. apply list_elem_of_fmap. exists (c, v).
    split; [done|]. by apply elem_of_map_to_list.
Qed.

(** ** The row an update leaves *)

(** [new] is [old] with the assigned columns set. *)
Record updated (rel : relation) (old new : list value) (assigned : gmap string value) : Prop := {
  upd_set : extends rel new assigned;
  upd_kept : forall c i, colIndex rel c = Ok i -> assigned !! c = None -> old !! i = new !! i;
}.

Lemma residual_frame rel old new assigned q :
  updated rel old new assigned -> open_on assigned q ->
  evalPredicate q rel old = evalPredicate q rel new.
Proof.
  intros [_ Hk] [He Ho]. apply evalPredicate_frame_conditions; [done|].
  intros f i (c & -> & Hc)%list_elem_of_fmap Hi. eapply Hk; eauto.
Qed.

Lemma updateCheck_iff e scope set rel old new q w :
  updated rel old new (exactValues e (byColumn e set)) ->
  updateCheck e scope set = inl q -> evalPredicate scope rel new = Ok w ->
  evalPredicate q rel old = Ok w \/ (q = PNil /\ w = triTrue).
Proof.
  intros Hu Hq Hw. unfold updateCheck in Hq.
  destruct (Check scope _) as [[r v] err] eqn:E.
  pose proof (Check_sound _ _ _ _ _ _ _ _ (upd_set _ _ _ _ Hu) E Hw) as Hs.
  destruct v; simplify_eq; [by right|]. left.
  apply Check_depends in E as (v & E & _). apply partialEval_open in E.
  by rewrite (residual_frame rel old new _ q Hu E).
Qed.

End Facts.

Lemma keyUpdateLoop_ok e key fields :
  keyUpdateLoop e key fields = Ok tt <-> Forall (fun f => columnOf e f ∉ key) fields.
Proof.
  induction fields as [|f fields IH]; simpl; [split; [constructor|done]|].
  rewrite Forall_cons, <- IH. case_bool_decide; naive_solver.
Qed.

Lemma byColumn_lookup e values c :
  is_Some (byColumn e values !! c) <-> exists f, f ∈ values.*1 /\ columnOf e f = c.
Proof.
  unfold byColumn. assert (forall m : gmap string value,
    is_Some (fold_left (fun row fv => <[columnOf e fv.1:=fv.2]> row) values m !! c) <->
    is_Some (m !! c) \/ exists f, f ∈ values.*1 /\ columnOf e f = c) as Hm.
  { induction values as [|[f v] values IH]; intros m; simpl.
    - split; [by left|]. intros [?|(f & Hf & _)]; [done|]. by apply elem_of_nil in Hf.
    - rewrite IH. setoid_rewrite elem_of_cons. rewrite lookup_insert_is_Some'. naive_solver. }
  rewrite Hm, lookup_empty. split; [intros [[? [=]]|?]; done|by right].
Qed.

(** Fields naming distinct columns each give their column its value. *)
Lemma distinctLoop_ok seen l :
  distinctLoop seen l = Ok tt <-> NoDup l /\ forall c, c ∈ l -> c ∉ seen.
Proof.
  revert seen. induction l as [|c l IH]; intros seen; simpl.
  { split; [|done]. intros _. split; [constructor|set_solver]. }
  case_decide; [split; [done|]; set_solver|]. rewrite IH, NoDup_cons. set_solver.
Qed.

Lemma byColumn_distinct e values f v :
  distinctColumns e values.*1 = Ok tt -> (f, v) ∈ values -> byColumn e values !! columnOf e f = Some v.
Proof.
  intros [Hnd _]%distinctLoop_ok Hin. unfold columnsOf in Hnd. unfold byColumn.
  revert Hnd Hin. generalize (∅ : gmap string value) as m.
  assert (forall vs (m : gmap string value) c, c ∉ columnOf e <$> vs.*1 ->
    fold_left (fun row fv => <[columnOf e fv.1:=fv.2]> row) vs m !! c = m !! c) as Hkeep.
  { induction vs as [|[g w] vs IH]; intros m c Hc; simpl in *; [done|].
    apply not_elem_of_cons in Hc as [? ?]. rewrite IH by done. by rewrite lookup_insert_ne. }
  induction values as [|[g w] values IH]; intros m Hnd Hin; simpl in *; [by apply elem_of_nil in Hin|].
  apply NoDup_cons in Hnd as [Hni Hnd]. apply elem_of_cons in Hin as [[= -> ->]|Hin]; [|by apply IH].
  rewrite Hkeep by done. by rewrite lookup_insert_eq.
Qed.

(** ** Theorems *)

Section Theorems.
Context `{GoStd}.

(** [row] of [rel] stores the inserted values, as the check compares them. *)
Definition stores (e : Entity) (rel : relation) (row : list value) (columns : list string) (tuple : Tuple) : Prop :=
  forall c v, (c, v) ∈ zip columns tuple ->
    exists i, colIndex rel c = Ok i /\ row !! i = Some (exactAt e c v).

Lemma stores_extends e scope values columns tuple rel row :
  insertColumns e scope values = inl (columns, tuple) -> stores e rel row columns tuple ->
  extends rel row (exactValues e (insertRowOf e scope values)).
Proof.
  intros Hi Hs f v. rewrite exactValues_lookup. intros (v' & Hv & ->)%fmap_Some.
  apply Hs. by apply (insertColumns_columns _ _ _ _ _ Hi).
Qed.

(** A create that passes inserts a row inside the caller's row scope:
    whatever the database puts in the columns left out (defaults), the scope
    evaluates to TRUE on the stored row. *)
Theorem insert_row_in_scope (e : Entity) (scope : Predicate) (values : list (string * value))
    (columns : list string) (tuple : Tuple) (rel : relation) (row : list value) (w : tri) :
  insertColumns e scope values = inl (columns, tuple) ->
  stores e rel row columns tuple -> evalPredicate scope rel row = Ok w -> w = triTrue.
Proof.
  intros Hi Hs Hw. pose proof (stores_extends _ _ _ _ _ _ _ Hi Hs) as Hx.
  apply insertColumns_inl in Hi as [Hp _].
  apply (partialEval_explains _ _ _ _ _ _ Hx Hp Hw).
Qed.

(** A create that passes carries, for every equality (and any other
    condition) ANDed in the scope, a value the condition holds on: a pinned
    tenant column is always written, with the caller's tenant. *)
Theorem insert_meets_conjuncts (e : Entity) (scope : Predicate) (values : list (string * value))
    (columns : list string) (tuple : Tuple) (c : Condition) :
  insertColumns e scope values = inl (columns, tuple) -> PCond c ∈ conjuncts scope ->
  exists v, (CField c, v) ∈ zip columns tuple /\ evalOp (exactAt e (CField c) v) c = Ok triTrue.
Proof.
  intros Hi Hc. pose proof (insertColumns_columns _ _ _ _ _ Hi) as (_ & _ & _ & Hzip).
  apply insertColumns_inl in Hi as [Hp _]. pose proof (partialEval_conjuncts _ _ _ Hp Hc) as Hq.
  simpl in Hq. rewrite exactValues_lookup in Hq.
  destruct (insertRowOf e scope values !! CField c) as [v|] eqn:E; simpl in Hq; [|done].
  exists v. split; [by apply Hzip|]. inv_ok. done.
Qed.

(** A create inserts the caller's values as they are, each in its column,
    the columns sorted and each once, a value per column. *)
Theorem insert_keeps_values (e : Entity) (scope : Predicate) (values : list (string * value))
    (columns : list string) (tuple : Tuple) :
  insertColumns e scope values = inl (columns, tuple) ->
  distinctColumns e values.*1 = Ok tt ->
  Sorted string_le columns /\ NoDup columns /\ length tuple = length columns /\
  forall f v, (f, v) ∈ values -> (columnOf e f, v) ∈ zip columns tuple.
Proof.
  intros Hi Hd. destruct (insertColumns_columns _ _ _ _ _ Hi) as (? & ? & ? & Hzip).
  split_and!; [done..|]. intros f v Hf. apply Hzip. unfold insertRowOf.
  apply lookup_union_Some_l. by apply byColumn_distinct.
Qed.

(** When the scope tests only columns the row gives, a create passes
    exactly when the scope is TRUE on the row: nothing inside the caller's
    scope is refused. *)
Theorem insert_accepts_iff (e : Entity) (scope : Predicate) (values : list (string * value))
    (rel : relation) (row : list value) :
  extends rel row (exactValues e (insertRowOf e scope values)) -> HasExists scope = false ->
  (forall c, c ∈ conditions scope -> is_Some (insertRowOf e scope values !! CField c)) ->
  (exists ct, insertColumns e scope values = inl ct) <-> evalPredicate scope rel row = Ok triTrue.
Proof.
  intros Hx He Hk. unfold insertColumns, Check.
  rewrite (partialEval_known rel row _ scope Hx He).
  2:{ intros c Hc. rewrite exactValues_lookup, fmap_is_Some. by apply Hk. }
  destruct (evalPredicate scope rel row) as [[]|]; simpl; naive_solver.
Qed.

(** C21. An update confined to the rows its check holds on leaves exactly the
    rows that stay in scope: the check is TRUE on the old row if and only if
    the scope is TRUE on the row with the assigned columns set. *)
Theorem update_keeps_scope (e : Entity) (scope : Predicate) (set : list (string * value))
    (q : Predicate) (rel : relation) (old new : list value) (w : tri) :
  updateCheck e scope set = inl q ->
  updated rel old new (exactValues e (byColumn e set)) -> evalPredicate scope rel new = Ok w ->
  evalPredicate q rel old = Ok triTrue <-> w = triTrue.
Proof.
  intros Hq Hu Hw. destruct (updateCheck_iff _ _ _ _ _ _ _ _ Hu Hq Hw) as [->|[-> ->]]; naive_solver.
Qed.

(** An update refused without an error takes every row it could touch out
    of scope. *)
Theorem update_refusal_justified (e : Entity) (scope : Predicate) (set : list (string * value))
    (fields : list string) (rel : relation) (old new : list value) :
  updateCheck e scope set = inr (mkViolation fields None) ->
  updated rel old new (exactValues e (byColumn e set)) -> evalPredicate scope rel new <> Ok triTrue.
Proof.
  unfold updateCheck. intros Hq Hu Hw. destruct (Check scope _) as [[r v] err] eqn:E.
  pose proof (Check_sound _ _ _ _ _ _ _ _ (upd_set _ _ _ _ Hu) E Hw) as Hs.
  destruct v; simplify_eq. by apply Hs.
Qed.

(** Unless the entity allows it, an update changes no column of the key
    that identifies its rows, whether named by column or by alias. *)
Theorem key_update_refused (e : Entity) (set : list (string * value)) (rel : relation)
    (old new : list value) (key : list string) (c : string) (i : nat) :
  EAllowKeyUpdate e = false -> CursorKey e = Some key ->
  refuseKeyUpdate e set.*1 = Ok tt -> updated rel old new (exactValues e (byColumn e set)) ->
  c ∈ key -> colIndex rel c = Ok i -> old !! i = new !! i.
Proof.
  intros Ha Hk Hr [_ Hu] Hc Hi. apply (Hu c i Hi). rewrite exactValues_lookup.
  unfold refuseKeyUpdate in Hr. rewrite Ha, Hk in Hr. apply keyUpdateLoop_ok in Hr.
  destruct (byColumn e set !! c) as [v|] eqn:E; [|done]. exfalso.
  destruct (proj1 (byColumn_lookup e set c)) as (f & Hf & <-); [by eexists|].
  rewrite Forall_forall in Hr. by apply (Hr f).
Qed.

End Theorems.

(** ** Witnesses *)

Definition tenantDomain (t : string) : Domain := mkDomain t false false false false.
Definition demoEntity : Entity :=
  mkEntity "orders" "orders" "orders" "" "" "" KindTable
    [mkAttr "id" "" "" (tenantDomain "integer") false ""; mkAttr "tenant" "" "" (tenantDomain "text") true "";
     mkAttr "total" "amount" "" (tenantDomain "numeric(10,2)") false ""]
    [mkKey "pk" ["id"] true false false ""] [] [] [] [] (mkMCP true false false) [] PNil [] false "" [] "" [] []
    false false [] false [].

Definition demoScope : Predicate :=
  PAnd [PCond (mkCond "tenant" OpEq (VString "acme")); PCond (mkCond "total" OpLt (VInt KInt64 100))].
Definition demoRel : relation := mkRel ["id"; "tenant"; "total"] [] ∅ 0.

Definition demoValues : list (string * value) := [("id", VInt KInt64 1); ("amount", VString "42")].

(** One column of a concrete row, by computation. *)
Ltac column_at n := exists n; split; reflexivity.

Lemma demo_stores :
  @stores asciiStd demoEntity demoRel [VInt KInt64 1; VString "acme"; VRat (Some (QArith_base.inject_Z 42))]
    ["id"; "tenant"; "total"] [VInt KInt64 1; VString "acme"; VString "42"].
Proof.
  intros c v Hin. simpl in Hin. rewrite !elem_of_cons, elem_of_nil in Hin.
  destruct Hin as [[= -> ->]|[[= -> ->]|[[= -> ->]|[]]]]; [column_at 0%nat|column_at 1%nat|column_at 2%nat].
Qed.

Lemma insert_row_in_scope_witness :
  @insertColumns asciiStd demoEntity demoScope demoValues =
    inl (["id"; "tenant"; "total"], [VInt KInt64 1; VString "acme"; VString "42"]) /\ triTrue = triTrue.
Proof.
  split; [vm_compute; reflexivity|].
  apply (@insert_row_in_scope asciiStd demoEntity demoScope demoValues ["id"; "tenant"; "total"]
    [VInt KInt64 1; VString "acme"; VString "42"] demoRel
    [VInt KInt64 1; VString "acme"; VRat (Some (QArith_base.inject_Z 42))]);
    [vm_compute; reflexivity|apply demo_stores|vm_compute; reflexivity].
Defined.

Lemma insert_meets_conjuncts_witness :
  exists v, ("tenant"%string, v) ∈ zip ["id"; "tenant"; "total"] [VInt KInt64 1; VString "acme"; VString "42"] /\ evalOp (@exactAt asciiStd demoEntity "tenant" v) (mkCond "tenant" OpEq (VString "acme")) = Ok triTrue.
Proof.
  apply (@insert_meets_conjuncts asciiStd demoEntity demoScope demoValues ["id"; "tenant"; "total"]
    [VInt KInt64 1; VString "acme"; VString "42"] (mkCond "tenant" OpEq (VString "acme")));
    [vm_compute; reflexivity|left].
Defined.

Lemma insert_keeps_values_witness :
  ("total"%string, VString "42") ∈ zip ["id"; "tenant"; "total"] [VInt KInt64 1; VString "acme"; VString "42"].
Proof.
  destruct (@insert_keeps_values asciiStd demoEntity demoScope demoValues ["id"; "tenant"; "total"]
    [VInt KInt64 1; VString "acme"; VString "42"]) as (_ & _ & _ & Hv);
    [vm_compute; reflexivity|vm_compute; reflexivity|].
  apply (Hv "amount"%string). right. left.
Defined.

Lemma insert_accepts_iff_witness :
  exists ct, @insertColumns asciiStd demoEntity demoScope demoValues = inl ct.
Proof.
  apply (@insert_accepts_iff asciiStd demoEntity demoScope demoValues demoRel
    [VInt KInt64 1; VString "acme"; VRat (Some (QArith_base.inject_Z 42))]).
  - eapply (@stores_extends asciiStd); [vm_compute; reflexivity|apply demo_stores].
  - reflexivity.
  - intros c Hc. rewrite list_elem_of_In in Hc. destruct Hc as [<-|[<-|[]]]; eexists; vm_compute; reflexivity.
  - vm_compute. reflexivity.
Defined.

Lemma demo_updated (v v' : value) :
  @exactAt asciiStd demoEntity "total" v = v' ->
  updated demoRel [VInt KInt64 1; VString "acme"; VInt KInt64 5] [VInt KInt64 1; VString "acme"; v']
    (@exactValues asciiStd demoEntity (byColumn demoEntity [("amount"%string, v)])).
Proof.
  intros Hv. assert (byColumn demoEntity [("amount"%string, v)] = {["total"%string := v]}) as -> by reflexivity.
  split.
  - intros f w. rewrite (@exactValues_lookup asciiStd).
    intros (x & [<- <-]%lookup_singleton_Some & ->)%fmap_Some. rewrite Hv. column_at 2%nat.
  - intros c i Hi. rewrite (@exactValues_lookup asciiStd), fmap_None. intros Hn%lookup_singleton_None.
    unfold colIndex in Hi. simpl in Hi. repeat case_decide; simplify_eq/=; done.
Qed.

Lemma update_keeps_scope_witness :
  evalPredicate (PCond (mkCond "tenant" OpEq (VString "acme"))) demoRel
    [VInt KInt64 1; VString "acme"; VInt KInt64 5] = Ok triTrue <-> triTrue = triTrue.
Proof.
  apply (@update_keeps_scope asciiStd demoEntity demoScope [("amount"%string, VString "7")] _ demoRel
    [VInt KInt64 1; VString "acme"; VInt KInt64 5] [VInt KInt64 1; VString "acme"; VRat (Some (QArith_base.inject_Z 7))]);
    [vm_compute; reflexivity|apply demo_updated; reflexivity|vm_compute; reflexivity].
Defined.

Lemma update_refusal_justified_witness :
  evalPredicate demoScope demoRel [VInt KInt64 1; VString "acme"; VRat (Some (QArith_base.inject_Z 700))] <> Ok triTrue.
Proof.
  apply (@update_refusal_justified asciiStd demoEntity demoScope [("amount"%string, VString "700")] ["amount"%string]
    demoRel [VInt KInt64 1; VString "acme"; VInt KInt64 5]);
    [vm_compute; reflexivity|apply demo_updated; reflexivity].
Defined.

Lemma key_update_refused_witness :
  [VInt KInt64 1; VString "acme"; VInt KInt64 5] !! 0%nat =
  [VInt KInt64 1; VString "acme"; VRat (Some (QArith_base.inject_Z 7))] !! 0%nat.
Proof.
  apply (@key_update_refused asciiStd demoEntity [("amount"%string, VString "7")] demoRel _ _ ["id"%string] "id");
    [reflexivity|reflexivity|vm_compute; reflexivity|apply demo_updated; reflexivity|left|reflexivity].
Defined.
