(* ===== verification/Rbac.v ===== *)
(** Authorization: core/rbac/rbac.go.

    The grants a principal holds on an entity, the covering rule, the row
    filter it yields and the subject placeholders it resolves.  A denial's
    text is a [Reason]; the memo tables of the authorizer ([usable],
    [granted]) are explicit state. *)

From S2P Require Import Prelude GoString Value Relalg Entity Numbers.

(** ** Requests, decisions, grants *)

Record Request : Type := mkRequest {
  QRole : string;
  QEntity : string;
  QAction : Action;
  QFields : list string;
  QReadFields : list string;
  QWriteFields : list string;
  QSubject : gmap string value;
  QPredicate : Predicate;
}.

Inductive Reason : Type :=
  | NoReason
  | EntityNotFound
  | NotPermitted
  | NoReadableFields
  | FieldNotReadable (f : string)
  | FieldNotWritable (f : string)
  | AmbiguousFieldScope.

Record Decision : Type := mkDecision {
  Allowed : bool;
  DReason : Reason;
  DFields : list string;
  RowFilter : Predicate;
  Grants : list string;
  FieldScopes : list (list string);
}.

Definition denied (why : Reason) (scopes : list (list string)) : Decision :=
  mkDecision false why [] PNil [] scopes.

Definition Scopes (d : Decision) : list (list string) :=
  List.filter (fun scope => (0 <? length scope)%nat) (FieldScopes d).

Definition Reachable (d : Decision) : bool := Allowed d || (0 <? length (Scopes d))%nat.

Record Grant : Type := mkGrant {
  GID : string;
  GActions : list Action;
  GFields : option FieldPermissions;
  GRows : Predicate;
}.

Definition allows (g : Grant) (action : Action) : bool :=
  existsb (fun a => bool_decide (a = action)) (GActions g).

Record Principal : Type := mkPrincipal {
  PrRoles : list string;
  PrGrants : gmap string (list Grant);
  PrPermissions : list string;
}.

Record Policy : Type := mkPolicy {
  Roles : gmap string (gmap string (list Grant));
  RolePermissions : gmap string (list string);
  Principals : gmap string Principal;
}.

Definition emptyPolicy : Policy := mkPolicy ∅ ∅ ∅.

(** GrantAuthorizer, its memo tables apart. *)
Record GrantAuthorizer : Type := mkAuthorizer {
  registry : Registry;
  policy : Policy;
  entityGrants : gmap string (gmap string Grant);
  known : gset string;
}.

(** ** Fields a grant covers *)

Record aclSet : Type := mkACL { aread : gset string; awrite : gset string }.

Definition newACLSet (f : FieldPermissions) : aclSet :=
  mkACL (list_to_set (FPRead f)) (list_to_set (FPWrite f)).

Definition fieldAllowed (field : string) (allowed : gset string) (visible : list Attribute) : bool :=
  bool_decide (field ∈ allowed) ||
  existsb (fun a =>
    (bool_decide (AName a = field) || negb (bool_decide (AAlias a = "")) && bool_decide (AAlias a = field))
    && (bool_decide (AName a ∈ allowed) || negb (bool_decide (AAlias a = "")) && bool_decide (AAlias a ∈ allowed)))
    visible.

Fixpoint firstDenied (requested : list string) (allowed : gset string) (visible : list Attribute) : string :=
  match requested with
  | [] => ""
  | f :: requested => if fieldAllowed f allowed visible then firstDenied requested allowed visible else f
  end.

Definition grantCovers (g : Grant) (read write : list string) (visible : list Attribute) : bool :=
  match GFields g with
  | None => true
  | Some f =>
      let acl := newACLSet f in
      bool_decide (firstDenied read (aread acl) visible = "")
      && bool_decide (firstDenied write (awrite acl) visible = "")
  end.

Definition coveringGrants (grants : list Grant) (read write : list string) (visible : list Attribute) : list Grant :=
  List.filter (fun g => grantCovers g read write visible) grants.

(** projectFields: a scan of the attributes for a few fields, a set of their
    names and aliases for many. *)
Definition visibleField (visible : list Attribute) (f : string) : bool :=
  existsb (fun a => bool_decide (AName a = f) || bool_decide (AAlias a = f) && negb (bool_decide (f = ""))) visible.

Definition visibleNameSet (visible : list Attribute) : gset string :=
  fold_left (fun s a => let s := {[AName a]} ∪ s in
                        if decide (AAlias a = "") then s else {[AAlias a]} ∪ s) visible ∅.

Definition projectFields (visible : list Attribute) (requested : list string) : list string :=
  match requested with
  | [] => AName <$> visible
  | _ =>
      if (length requested * length visible <=? 256)%nat
      then List.filter (visibleField visible) requested
      else let allowed := visibleNameSet visible in
           List.filter (fun f => bool_decide (f ∈ allowed)) requested
  end.

Definition projectFieldsForACL (visible : list Attribute) (requested : list string) (allowed : gset string) :
    list string :=
  List.filter (fun f => fieldAllowed f allowed visible) (projectFields visible requested).

Definition grantProjection (visible : list Attribute) (requested : list string) (g : Grant) : list string :=
  match GFields g with
  | None => projectFields visible requested
  | Some f => projectFieldsForACL visible requested (aread (newACLSet f))
  end.

Definition unionProjection (visible : list Attribute) (requested : list string) (grants : list Grant) : list string :=
  let seen : gset string := list_to_set (flat_map (grantProjection visible requested) grants) in
  List.filter (fun f => bool_decide (f ∈ seen)) (projectFields visible requested).

Definition allRestricted (grants : list Grant) : bool :=
  forallb (fun g => match GFields g with None => false | Some _ => true end) grants.

(** ** Row filters *)

Definition orPredicates (preds : list Predicate) : Predicate :=
  match preds with [p] => p | _ => POr preds end.

Definition andPredicates (tenant filter : Predicate) : Predicate :=
  if is_pnil filter then tenant else PAnd [tenant; filter].

Definition effectiveRowFilter (covering : list Grant) (tenant : Predicate) : Predicate * list string :=
  let unrestricted := existsb (fun g => is_pnil (GRows g)) covering in
  let rows := List.filter (fun p => negb (is_pnil p)) (GRows <$> covering) in
  let filter := if unrestricted then PNil else orPredicates rows in
  let filter := if is_pnil tenant then filter else andPredicates tenant filter in
  (filter, GID <$> covering).

(** ** Subject placeholders *)

Definition SubjectPlaceholder (s : string) : option string :=
  if prefix_of "${subject." s && has_suffix s "}"
  then Some (str_take (String.length s - 10 - 1) (str_drop 10 s))
  else None.

(** subject[attr]: nil when missing *)
Definition attrOf (subject : gmap string value) (attr : string) : value := default VNil (subject !! attr).

Definition resolveItem (subject : gmap string value) (item : value) : list value :=
  match item with
  | VString s =>
      match SubjectPlaceholder s with
      | Some attr => match attrOf subject attr with VList l => l | v => [v] end
      | None => [item]
      end
  | _ => [item]
  end.

Definition resolveSubjectList (items : list value) (subject : gmap string value) : list value :=
  flat_map (resolveItem subject) items.

Definition resolveCondition (subject : gmap string value) (c : Condition) : Condition :=
  match CValue c with
  | VString v =>
      match SubjectPlaceholder v with
      | Some attr => {| CField := CField c; COp := COp c; CValue := attrOf subject attr |}
      | None => c
      end
  | VList l => {| CField := CField c; COp := COp c; CValue := VList (resolveSubjectList l subject) |}
  | _ => c
  end.

Definition resolveSubject (p : Predicate) (subject : gmap string value) : Predicate :=
  MapConditions p (resolveCondition subject).

(** ** Building the authorizer *)

Section Rbac.
Context `{GoStd}.

Definition NormalizeRole (role : string) : string := lower_trim unicode_lower role.

(** A map lookup by the exact role, else the first entry, in the order of the
    range, whose name normalizes to it. *)
Definition lookupRole {A} (entries : list (string * A)) (role : string) : option A :=
  match List.find (fun kv => bool_decide (kv.1 = role)) entries with
  | Some kv => Some kv.2
  | None => snd <$> List.find (fun kv => bool_decide (NormalizeRole kv.1 = role)) entries
  end.

Definition fieldAccessForRole (access : list (string * FieldPermissions)) (role : string) : option FieldPermissions :=
  lookupRole access role.

Definition rowPolicyForRole (policies : list (string * Predicate)) (role : string) : Predicate :=
  default PNil (lookupRole policies role).

Definition entityRoleGrant (e : Entity) (role : string) : option Grant :=
  let actions := (List.filter (fun ar => existsb (fun r => bool_decide (NormalizeRole r = role)) ar.2) (ERole e)).*1 in
  match actions with
  | [] => None
  | _ => Some {| GID := "entity:" +:+ EName e +:+ ":" +:+ role;
                 GActions := actions;
                 GFields := fieldAccessForRole (EFieldAccess e) role;
                 GRows := rowPolicyForRole (ERowPolicies e) role |}
  end.

(** The roles an entity names: one grant each ([byRole]), in the order met. *)
Definition addEntityRole (e : Entity) (byRole : gmap string Grant) (r : string) : gmap string Grant :=
  let role := NormalizeRole r in
  match byRole !! role with
  | Some _ => byRole
  | None => match entityRoleGrant e role with Some g => <[role := g]> byRole | None => byRole end
  end.

Definition entityRoleGrants (e : Entity) : gmap string Grant :=
  fold_left (addEntityRole e) (flat_map snd (ERole e)) ∅.

Definition addEntityGrants (m : gmap string (gmap string Grant)) (e : Entity) : gmap string (gmap string Grant) :=
  let byRole := entityRoleGrants e in
  if decide (byRole = ∅) then m else <[EName e := byRole]> m.

Definition NewGrantAuthorizer (reg : Registry) (p : Policy) : GrantAuthorizer := {|
  registry := reg;
  policy := p;
  entityGrants := fold_left addEntityGrants (entities reg) ∅;
  known := set_map NormalizeRole (dom (Principals p)) ∪ set_map NormalizeRole (dom (Roles p))
           ∪ ⋃ ((fun e => dom (entityRoleGrants e)) <$> entities reg);
|}.

Definition NewRoleAuthorizer (reg : Registry) : GrantAuthorizer := NewGrantAuthorizer reg emptyPolicy.

Definition HasPermission (p : Policy) (principal permission : string) : bool :=
  match Principals p !! NormalizeRole principal with
  | None => false
  | Some user =>
      bool_decide (permission ∈ PrPermissions user) ||
      existsb (fun role => bool_decide (permission ∈ default [] (RolePermissions p !! role))) (PrRoles user)
  end.

(** ** Authorization *)

Definition grantsOn (m : gmap string (list Grant)) (name : string) (action : Action) : list Grant :=
  List.filter (fun g => allows g action) (default [] (m !! name)).

Definition roleGrants (a : GrantAuthorizer) (e : Entity) (action : Action) (role : string) : list Grant :=
  grantsOn (default ∅ (Roles (policy a) !! role)) (EName e) action ++
  match default ∅ (entityGrants a !! EName e) !! role with
  | Some g => if allows g action then [g] else []
  | None => []
  end.

Definition findCandidates (a : GrantAuthorizer) (e : Entity) (principal : string) (action : Action) : list Grant :=
  match Principals (policy a) !! principal with
  | Some p => grantsOn (PrGrants p) (EName e) action ++ flat_map (roleGrants a e action) (PrRoles p)
  | None => flat_map (roleGrants a e action) [principal]
  end.

Definition ambiguousFieldScope (candidates : list Grant) (visible : list Attribute) : Decision :=
  denied AmbiguousFieldScope (grantProjection visible [] <$> candidates).

Definition deniedFieldScope (candidates : list Grant) (read write : list string) (visible : list Attribute) : Decision :=
  match List.find (fun f => (length (coveringGrants candidates [f] [] visible) =? 0)%nat) read with
  | Some f => denied (FieldNotReadable f) []
  | None =>
      match List.find (fun f => (length (coveringGrants candidates [] [f] visible) =? 0)%nat) write with
      | Some f => denied (FieldNotWritable f) []
      | None => ambiguousFieldScope candidates visible
      end
  end.

Definition returnsRows (action : Action) : bool :=
  match action with ActionCreate | ActionUpdate | ActionDelete => false | _ => true end.

Definition project (req : Request) (res : Resolved) (covering : list Grant) : (list string * list Grant) + Decision :=
  if negb (returnsRows (QAction req)) then inl ([], covering)
  else
    let projected := unionProjection (RAttributes res) (QFields req) covering in
    if negb (bool_decide (QAction req = ActionRead)) then inl (projected, covering)
    else if (length projected =? 0)%nat then inr (denied NoReadableFields [])
    else
      let serving := coveringGrants covering projected [] (RAttributes res) in
      if (length serving =? 0)%nat then inr (ambiguousFieldScope covering (RAttributes res))
      else inl (projected, serving).

(** The fields a request reads and writes. *)
Definition requestFields (req : Request) : list string * list string :=
  if (length (QReadFields req) =? 0)%nat && (length (QWriteFields req) =? 0)%nat then
    match QAction req with
    | ActionCreate | ActionUpdate => (QReadFields req, QFields req)
    | _ => (QFields req, QWriteFields req)
    end
  else (QReadFields req, QWriteFields req).

(** Authorize once the candidates are known. *)
Definition decideWith (req : Request) (res : Resolved) (candidates : list Grant) : Decision :=
  if (length candidates =? 0)%nat then denied NotPermitted []
  else
    let '(readFields, writeFields) := requestFields req in
    if bool_decide (QAction req = ActionRead) && (length (QFields req) =? 0)%nat && allRestricted candidates
       && (length (unionProjection (RAttributes res) [] candidates) =? 0)%nat
    then denied NoReadableFields []
    else
      let covering := coveringGrants candidates readFields writeFields (RAttributes res) in
      if (length covering =? 0)%nat then deniedFieldScope candidates readFields writeFields (RAttributes res)
      else match project req res covering with
      | inr d => d
      | inl (projected, covering) =>
          let '(filter, ids) := effectiveRowFilter covering (ETenantPolicy (REntity res)) in
          mkDecision true NoReason projected (resolveSubject filter (QSubject req)) ids []
      end.

(** ** The memo tables *)

#[local] Instance Action_countable : Countable Action.
Proof.
  refine (inj_countable' (fun a => match a with
    | ActionRead => 0 | ActionCreate => 1 | ActionUpdate => 2
    | ActionDelete => 3 | ActionExecute => 4 | ActionAggregate => 5 end)%nat
    (fun n => match n with
    | 0 => ActionRead | 1 => ActionCreate | 2 => ActionUpdate
    | 3 => ActionDelete | 4 => ActionExecute | _ => ActionAggregate end)%nat _).
  by intros [].
Defined.

Record memo : Type := mkMemo {
  usable : gmap (string * string) bool;
  granted : gmap (string * string * Action) (list Grant);
}.

Definition candidates (a : GrantAuthorizer) (m : memo) (e : Entity) (principal : string) (action : Action) :
    list Grant * memo :=
  if decide (principal = "") then ([], m)
  else if negb (bool_decide (principal ∈ known a)) then (findCandidates a e principal action, m)
  else
    let key := (principal, EName e, action) in
    match granted m !! key with
    | Some found => (found, m)
    | None =>
        let found := findCandidates a e principal action in
        (found, {| usable := usable m; granted := <[key := found]> (granted m) |})
    end.

Definition Authorize (a : GrantAuthorizer) (m : memo) (req : Request) : Decision * memo :=
  let role := NormalizeRole (QRole req) in
  match Resolve (registry a) (QEntity req) with
  | None => (denied EntityNotFound [], m)
  | Some res =>
      let '(found, m) := candidates a m (REntity res) role (QAction req) in
      (decideWith req res found, m)
  end.

Definition actionRequest (role name : string) (action : Action) : Request :=
  mkRequest role name action [] [] [] ∅ PNil.

(** Usable's loop over the actions, up to the first reachable one. *)
Fixpoint usableLoop (a : GrantAuthorizer) (m : memo) (role name : string) (actions : list Action) : bool * memo :=
  match actions with
  | [] => (false, m)
  | action :: actions =>
      let '(dec, m) := Authorize a m (actionRequest role name action) in
      if Reachable dec then (true, m) else usableLoop a m role name actions
  end.

Definition Usable (a : GrantAuthorizer) (m : memo) (role name : string) : bool * memo :=
  let key := (NormalizeRole role, name) in
  match usable m !! key with
  | Some ok => (ok, m)
  | None =>
      match Resolve (registry a) name with
      | None => (false, m)
      | Some e =>
          let '(ok, m) := usableLoop a m role name (ActionsFor (EKind (REntity e))) in
          (ok, if bool_decide (NormalizeRole role ∈ known a)
               then {| usable := <[key := ok]> (usable m); granted := granted m |} else m)
      end
  end.

(** The decision without the memo. *)
Definition authorize (a : GrantAuthorizer) (req : Request) : Decision :=
  match Resolve (registry a) (QEntity req) with
  | None => denied EntityNotFound []
  | Some res =>
      let role := NormalizeRole (QRole req) in
      decideWith req res (if decide (role = "") then [] else findCandidates a (REntity res) role (QAction req))
  end.

End Rbac.
