(* ===== verification/RbacTheorems.v ===== *)
(** What authorization promises: the covering rule, the row filter it yields,
    the denials, the retry scopes, the subject placeholders and the memo. *)

From S2P Require Import Prelude GoString Value Relalg Interp InterpFacts Entity EntityFacts Numbers Rbac.

(** ** Fields *)

Lemma firstDenied_ok requested allowed visible :
  ""%string ∉ requested ->
  firstDenied requested allowed visible = ""%string <->
  Forall (fun f => fieldAllowed f allowed visible = true) requested.
Proof.
  induction requested as [|f requested IH]; intros Hne; simpl; [split; [by constructor|done]|].
  apply not_elem_of_cons in Hne as [Hf Hne]. rewrite Forall_cons, <- IH by done.
  destruct (fieldAllowed f allowed visible); naive_solver.
Qed.

Lemma firstDenied_allowed requested allowed visible :
  Forall (fun f => fieldAllowed f allowed visible = true) requested ->
  firstDenied requested allowed visible = ""%string.
Proof. induction 1 as [|f l Hf _ IH]; simpl; [done|]. by rewrite Hf. Qed.

Lemma addName_spec (a : Attribute) (s : gset string) f :
  f ∈ (if decide (AAlias a = "") then {[AName a]} ∪ s else {[AAlias a]} ∪ ({[AName a]} ∪ s)) <->
  f ∈ s \/ bool_decide (AName a = f) || bool_decide (AAlias a = f) && negb (bool_decide (f = "")) = true.
Proof.
  rewrite orb_true_iff, andb_true_iff, negb_true_iff, !bool_decide_eq_true, bool_decide_eq_false.
  case_decide; rewrite !elem_of_union, !elem_of_singleton; intuition congruence.
Qed.

Lemma visibleNameSet_spec visible f :
  f ∈ visibleNameSet visible <-> visibleField visible f = true.
Proof.
  unfold visibleNameSet, visibleField. rewrite existsb_exists.
  assert (forall s : gset string,
    f ∈ fold_left (fun s a => let s := {[AName a]} ∪ s in
                              if decide (AAlias a = "") then s else {[AAlias a]} ∪ s) visible s <->
    f ∈ s \/ exists a, In a visible /\
      bool_decide (AName a = f) || bool_decide (AAlias a = f) && negb (bool_decide (f = "")) = true) as Hs.
  { induction visible as [|a visible IH]; intros s; simpl.
    - split; [by left|]. intros [?|(? & [] & _)]. done.
    - rewrite IH, addName_spec. split.
      + intros [[?|?]|(b & ? & ?)]; eauto 6.
      + intros [?|(b & [<-|?] & ?)]; eauto 6. }
  rewrite Hs. split; [intros [?|?]; [set_solver|done]|by right].
Qed.

(** Both ways projectFields finds the requested fields agree. *)
Lemma projectFields_requested visible requested :
  requested <> [] -> projectFields visible requested = List.filter (visibleField visible) requested.
Proof.
  intros Hne. unfold projectFields. destruct requested as [|r0 rs]; [done|]. set (l := r0 :: rs).
  case_match; [done|]. apply filter_ext. intros f. apply eq_true_iff_eq.
  by rewrite bool_decide_eq_true, visibleNameSet_spec.
Qed.

Lemma projectFields_subset visible requested f :
  f ∈ projectFields visible requested -> requested <> [] -> f ∈ requested.
Proof.
  intros Hf Hne. rewrite projectFields_requested in Hf by done.
  apply list_elem_of_In, filter_In in Hf as [Hf _]. by apply list_elem_of_In.
Qed.

(** Fields a grant's projection holds are covered by it. *)
Lemma grantProjection_allowed visible requested g acl f :
  GFields g = Some acl -> f ∈ grantProjection visible requested g ->
  fieldAllowed f (aread (newACLSet acl)) visible = true.
Proof.
  intros Hg. unfold grantProjection, projectFieldsForACL. rewrite Hg.
  by intros [_ ?]%list_elem_of_In%filter_In.
Qed.

Lemma grantProjection_subset visible requested g f :
  f ∈ grantProjection visible requested g -> f ∈ projectFields visible requested.
Proof.
  unfold grantProjection, projectFieldsForACL. destruct (GFields g); [|done].
  intros [? _]%list_elem_of_In%filter_In. by apply list_elem_of_In.
Qed.

(** ** The covering rule *)

(** [g] covers the fields read and written: it has no field list, or each of
    them is allowed by it. *)
Definition covers (g : Grant) (read write : list string) (visible : list Attribute) : Prop :=
  match GFields g with
  | None => True
  | Some f => Forall (fun x => fieldAllowed x (aread (newACLSet f)) visible = true) read /\
              Forall (fun x => fieldAllowed x (awrite (newACLSet f)) visible = true) write
  end.

Lemma grantCovers_covers g read write visible :
  ""%string ∉ read -> ""%string ∉ write ->
  grantCovers g read write visible = true <-> covers g read write visible.
Proof.
  intros Hr Hw. unfold grantCovers, covers. destruct (GFields g); [|done].
  by rewrite andb_true_iff, !bool_decide_eq_true, !firstDenied_ok.
Qed.

Lemma covers_grantCovers g read write visible :
  covers g read write visible -> grantCovers g read write visible = true.
Proof.
  unfold grantCovers, covers. destruct (GFields g); [|done]. intros [Hr Hw].
  by rewrite !firstDenied_allowed, !bool_decide_eq_true_2.
Qed.

Lemma coveringGrants_elem grants read write visible g :
  g ∈ coveringGrants grants read write visible <-> g ∈ grants /\ grantCovers g read write visible = true.
Proof. unfold coveringGrants. by rewrite !list_elem_of_In, filter_In. Qed.

(** ** Row filters *)

Lemma resolveSubject_and ps s : resolveSubject (PAnd ps) s = PAnd (map (fun q => resolveSubject q s) ps).
Proof. done. Qed.

Lemma resolveSubject_or ps s : resolveSubject (POr ps) s = POr (map (fun q => resolveSubject q s) ps).
Proof. done. Qed.

(** The rows an OR of the grants' predicates lets through: each by one of
    them alone. *)
Lemma orPredicates_true ps s rel row :
  ps <> [] -> evalPredicate (resolveSubject (orPredicates ps) s) rel row = Ok triTrue ->
  exists p, p ∈ ps /\ evalPredicate (resolveSubject p s) rel row = Ok triTrue.
Proof.
  intros Hne H. destruct ps as [|p [|q ps]]; [done|exists p; split; [by left|done]|].
  unfold orPredicates in H. rewrite resolveSubject_or in H.
  change (evalOr (fun q => evalPredicate q rel row) triFalse
            (map (fun q => resolveSubject q s) (p :: q :: ps)) = Ok triTrue) in H.
  rewrite evalOr_map in H. apply evalOr_true in H; [|done]. exact H.
Qed.

Lemma effectiveRowFilter_true covering tenant s rel row :
  covering <> [] ->
  evalPredicate (resolveSubject (effectiveRowFilter covering tenant).1 s) rel row = Ok triTrue ->
  evalPredicate (resolveSubject tenant s) rel row = Ok triTrue /\
  exists g, g ∈ covering /\ evalPredicate (resolveSubject (GRows g) s) rel row = Ok triTrue.
Proof.
  intros Hne. unfold effectiveRowFilter. simpl.
  set (filter := if existsb (fun g => is_pnil (GRows g)) covering then PNil
                 else orPredicates (List.filter (fun p => negb (is_pnil p)) (GRows <$> covering))).
  assert (evalPredicate (resolveSubject filter s) rel row = Ok triTrue ->
    exists g, g ∈ covering /\ evalPredicate (resolveSubject (GRows g) s) rel row = Ok triTrue) as Hf.
  { unfold filter. destruct (existsb _ covering) eqn:E.
    - intros _. apply existsb_exists in E as (g & Hg & Hn). exists g. split; [by apply list_elem_of_In|].
      destruct (GRows g); done.
    - assert (List.filter (fun p => negb (is_pnil p)) (GRows <$> covering) = GRows <$> covering) as ->.
      { clear -E. induction covering as [|g l IH]; [done|]. simpl in *. apply orb_false_iff in E as [-> E].
        simpl. f_equal. by apply IH. }
      intros H. apply orPredicates_true in H as (p & (g & -> & Hg)%list_elem_of_fmap & Hp); [eauto|].
      by destruct covering. }
  destruct (is_pnil tenant) eqn:Et.
  - destruct tenant; try done. intros H. auto.
  - unfold andPredicates. destruct (is_pnil filter) eqn:Ef.
    + intros H. split; [done|]. apply Hf. by destruct filter.
    + rewrite resolveSubject_and. simpl map. intros H%evalAnd_true.
      apply Forall_cons in H as [Ht H]. rewrite Forall_singleton in H. auto.
Qed.

(** Every row of one covering grant inside the tenant passes. *)
Lemma effectiveRowFilter_complete covering tenant s rel row g :
  Forall (fun g => is_ok (evalPredicate (resolveSubject (GRows g) s) rel row) = true) covering ->
  g ∈ covering -> evalPredicate (resolveSubject (GRows g) s) rel row = Ok triTrue ->
  evalPredicate (resolveSubject tenant s) rel row = Ok triTrue ->
  evalPredicate (resolveSubject (effectiveRowFilter covering tenant).1 s) rel row = Ok triTrue.
Proof.
  intros Hev Hg Hrow Ht. unfold effectiveRowFilter. simpl.
  set (filter := if existsb (fun g => is_pnil (GRows g)) covering then PNil
                 else orPredicates (List.filter (fun p => negb (is_pnil p)) (GRows <$> covering))).
  assert (evalPredicate (resolveSubject filter s) rel row = Ok triTrue) as Hf.
  { unfold filter. destruct (existsb _ covering) eqn:E; [done|].
    assert (List.filter (fun p => negb (is_pnil p)) (GRows <$> covering) = GRows <$> covering) as ->.
    { clear -E. induction covering as [|g l IH]; [done|]. simpl in *. apply orb_false_iff in E as [-> E].
      simpl. f_equal. by apply IH. }
    clear E filter. destruct covering as [|g1 [|g2 covering]]; [by apply elem_of_nil in Hg| |].
    { apply list_elem_of_singleton in Hg as ->. done. }
    set (gs := g1 :: g2 :: covering) in *.
    change (orPredicates (GRows <$> gs)) with (POr (GRows <$> gs)). rewrite resolveSubject_or.
    change (evalOr (fun q => evalPredicate q rel row) triFalse
              (map (fun q => resolveSubject q s) (GRows <$> gs)) = Ok triTrue).
    rewrite evalOr_map. apply evalOr_total.
    - apply Forall_fmap. eapply Forall_impl; [exact Hev|]. simpl. intros x Hx.
      destruct (evalPredicate (resolveSubject (GRows x) s) rel row); [by eexists|done].
    - apply Exists_exists. exists (GRows g). split; [by apply list_elem_of_fmap_2|done]. }
  destruct (is_pnil tenant); [done|]. unfold andPredicates. destruct (is_pnil filter); [done|].
  rewrite resolveSubject_and. simpl map. apply evalAnd_true. constructor; [done|]. constructor; [done|].
  by apply Forall_nil_2.
Qed.

(** ** Decisions *)

Lemma project_inl req res covering projected serving :
  project req res covering = inl (projected, serving) ->
  (forall g, g ∈ serving -> g ∈ covering) /\ (covering <> [] -> serving <> []) /\
  (QAction req = ActionRead ->
     projected <> [] /\ projected = unionProjection (RAttributes res) (QFields req) covering /\
     serving = coveringGrants covering projected [] (RAttributes res)) /\
  (returnsRows (QAction req) = false -> projected = []).
Proof.
  unfold project. intros H. destruct (returnsRows (QAction req)) eqn:Er; simpl in H; simplify_eq.
  2:{ split_and!; try done. intros Ha. by rewrite Ha in Er. }
  case_bool_decide as Ha; simpl in H; [|simplify_eq; done].
  destruct (length _ =? 0)%nat eqn:Ep in H; [done|].
  destruct (length (coveringGrants _ _ _ _) =? 0)%nat eqn:Es in H; [done|]. simplify_eq.
  split_and!; try done.
  - intros g Hg. by apply coveringGrants_elem in Hg as [? _].
  - intros _ Hs. by rewrite Hs in Es.
  - intros _. split_and!; try done. intros Hs. by rewrite Hs in Ep.
Qed.

(** An allowed decision: the grants behind it and what they cover. *)
Record justified (req : Request) (res : Resolved) (candidates : list Grant) (d : Decision) (cov : list Grant) : Prop := {
  j_nonempty : cov <> [];
  j_candidates : forall g, g ∈ cov -> g ∈ candidates;
  j_covers : forall g, g ∈ cov ->
    grantCovers g (requestFields req).1 (requestFields req).2 (RAttributes res) = true;
  j_projects : QAction req = ActionRead -> DFields d <> [] /\
    (forall f, f ∈ DFields d -> f ∈ projectFields (RAttributes res) (QFields req)) /\
    (forall g, g ∈ cov -> grantCovers g (DFields d) [] (RAttributes res) = true);
  j_filter : RowFilter d = resolveSubject (effectiveRowFilter cov (ETenantPolicy (REntity res))).1 (QSubject req);
  j_grants : Grants d = GID <$> cov;
  j_noproj : returnsRows (QAction req) = false -> DFields d = [];
}.

Lemma unionProjection_subset visible requested grants f :
  f ∈ unionProjection visible requested grants ->
  f ∈ projectFields visible requested /\ exists g, g ∈ grants /\ f ∈ grantProjection visible requested g.
Proof.
  unfold unionProjection. intros [Hf Hs]%list_elem_of_In%filter_In. split; [by apply list_elem_of_In|].
  apply bool_decide_eq_true in Hs. rewrite elem_of_list_to_set, list_elem_of_In, in_flat_map in Hs.
  destruct Hs as (g & Hg & Hfg). exists g. by rewrite !list_elem_of_In.
Qed.

Lemma decideWith_allowed req res candidates :
  Allowed (decideWith req res candidates) = true ->
  exists cov, justified req res candidates (decideWith req res candidates) cov.
Proof.
  unfold decideWith. destruct (length candidates =? 0)%nat; [done|].
  destruct (requestFields req) as [read write] eqn:Erf. case_match; [done|].
  destruct (length (coveringGrants candidates read write (RAttributes res)) =? 0)%nat eqn:Ec.
  { unfold deniedFieldScope. repeat case_match; done. }
  destruct (project _ _ _) as [[projected cov]|d] eqn:Ep.
  2:{ intros Ha. exfalso. unfold project in Ep. repeat case_match; simplify_eq; done. }
  intros _. apply project_inl in Ep as (Hsub & Hne & Hread & Hnop). exists cov. constructor; simpl.
  - apply Hne. intros Hc. by rewrite Hc in Ec.
  - intros g Hg. apply Hsub, coveringGrants_elem in Hg. tauto.
  - intros g Hg. rewrite Erf. apply Hsub, coveringGrants_elem in Hg. tauto.
  - intros Ha. destruct (Hread Ha) as (Hp & Hpu & Hs). split_and!; [done| |].
    + intros f Hf. rewrite Hpu in Hf. by apply unionProjection_subset in Hf as [? _].
    + intros g Hg. rewrite Hs in Hg. by apply coveringGrants_elem in Hg as [_ ?].
  - done.
  - done.
  - done.
Qed.

(** ** Retrying within a scope *)

Lemma filter_all {A} (f : A -> bool) (l : list A) : (forall x, x ∈ l -> f x = true) -> List.filter f l = l.
Proof.
  induction l as [|x l IH]; intros H; simpl; [done|]. rewrite H by by left. f_equal. apply IH.
  intros y Hy. apply H. by right.
Qed.

Lemma scope_visible visible g f :
  f ∈ grantProjection visible [] g -> visibleField visible f = true.
Proof.
  intros Hf%grantProjection_subset. simpl in Hf. apply list_elem_of_fmap in Hf as (a & -> & Ha).
  apply existsb_exists. exists a. split; [by apply list_elem_of_In|]. by rewrite bool_decide_eq_true_2.
Qed.

Lemma scope_projects visible g :
  let scope := grantProjection visible [] g in
  scope <> [] -> projectFields visible scope = scope /\ grantProjection visible scope g = scope.
Proof.
  intros scope Hne. assert (projectFields visible scope = scope) as Hp.
  { rewrite projectFields_requested by done. apply filter_all. intros f. apply scope_visible. }
  split; [done|]. unfold grantProjection at 1. destruct (GFields g) as [acl|] eqn:Eg; [|done].
  unfold projectFieldsForACL. rewrite Hp. apply filter_all. intros f Hf.
  by eapply grantProjection_allowed.
Qed.

Lemma scope_covered visible g : covers g (grantProjection visible [] g) [] visible.
Proof.
  unfold covers. destruct (GFields g) as [acl|] eqn:Eg; [|done]. split; [|by apply Forall_nil_2].
  apply Forall_forall. intros f Hf. by eapply grantProjection_allowed.
Qed.

(** A request for exactly one grant's scope. *)
Definition retry (req : Request) (scope : list string) : Request :=
  mkRequest (QRole req) (QEntity req) (QAction req) scope [] [] (QSubject req) (QPredicate req).

Lemma retry_allowed req res candidates g :
  QAction req = ActionRead -> g ∈ candidates ->
  grantProjection (RAttributes res) [] g <> [] ->
  Allowed (decideWith (retry req (grantProjection (RAttributes res) [] g)) res candidates) = true.
Proof.
  intros Ha Hg Hne. set (scope := grantProjection (RAttributes res) [] g) in *.
  pose proof (scope_projects (RAttributes res) g Hne) as [Hp Hgp]. fold scope in Hp, Hgp.
  pose proof (covers_grantCovers _ _ _ _ (scope_covered (RAttributes res) g)) as Hc. fold scope in Hc.
  unfold decideWith. destruct (length candidates =? 0)%nat eqn:Ec.
  { apply Nat.eqb_eq, length_zero_iff_nil in Ec. subst. by apply elem_of_nil in Hg. }
  unfold requestFields. simpl QReadFields. simpl QWriteFields. simpl QAction. simpl QFields. rewrite Ha. simpl.
  assert ((length scope =? 0)%nat = false) as Hs0 by (by destruct scope). rewrite Hs0. simpl.
  assert (g ∈ coveringGrants candidates scope [] (RAttributes res)) as Hgc by by apply coveringGrants_elem.
  set (covering := coveringGrants candidates scope [] (RAttributes res)) in *.
  assert ((length covering =? 0)%nat = false) as Hc0.
  { destruct covering; [by apply elem_of_nil in Hgc|done]. }
  rewrite Hc0. unfold project. simpl QAction. simpl QFields. rewrite Ha. simpl returnsRows. simpl negb.
  assert (unionProjection (RAttributes res) scope covering = scope) as Hu.
  { unfold unionProjection. rewrite Hp. apply filter_all. intros f Hf. apply bool_decide_eq_true_2.
    rewrite elem_of_list_to_set, list_elem_of_In, in_flat_map. exists g. rewrite <- !list_elem_of_In.
    split; [done|]. by rewrite Hgp. }
  rewrite Hu, Hs0. assert (g ∈ coveringGrants covering scope [] (RAttributes res)) as Hgs
    by by apply coveringGrants_elem.
  destruct (length (coveringGrants covering scope [] (RAttributes res)) =? 0)%nat eqn:Es; [|done].
  apply Nat.eqb_eq, length_zero_iff_nil in Es. rewrite Es in Hgs. by apply elem_of_nil in Hgs.
Qed.

(** The scopes a denial lists are the projections of candidate grants. *)
Lemma decideWith_scopes req res candidates scope :
  scope ∈ FieldScopes (decideWith req res candidates) ->
  exists g, g ∈ candidates /\ scope = grantProjection (RAttributes res) [] g.
Proof.
  assert (forall gs, (forall g, g ∈ gs -> g ∈ candidates) ->
    scope ∈ FieldScopes (ambiguousFieldScope gs (RAttributes res)) ->
    exists g, g ∈ candidates /\ scope = grantProjection (RAttributes res) [] g) as Ham.
  { intros gs Hsub (g & -> & Hg)%list_elem_of_fmap. eauto. }
  unfold decideWith, deniedFieldScope, project. intros Hs.
  repeat case_match; simplify_eq/=; try (by apply elem_of_nil in Hs).
  - by apply (Ham candidates).
  - eapply (Ham (coveringGrants candidates l l0 (RAttributes res))); [|done].
    intros g Hg. by apply coveringGrants_elem in Hg as [? _].
Qed.

(** ** Subject placeholders *)

(** A placeholder whose attribute is missing holds on no row, negated or not. *)
Lemma missing_attribute subject c attr x :
  (exists s, CValue c = VString s /\ SubjectPlaceholder s = Some attr) -> subject !! attr = None ->
  COp c <> OpIsNull -> COp c <> OpIsNotNull ->
  evalOp x (resolveCondition subject c) = Ok triUnknown \/
  exists e, evalOp x (resolveCondition subject c) = Err e.
Proof.
  intros (s & Hv & Hs) Hm Hn Hnn. unfold resolveCondition. rewrite Hv, Hs. unfold attrOf. rewrite Hm. simpl.
  unfold evalOp. simpl. destruct (COp c); try done; simpl; eauto;
    unfold evalComparison, evalLike; simpl; rewrite ?orb_true_r; auto.
Qed.

Lemma evalInLoop_nil x vs : VNil ∈ vs -> forall acc, evalInLoop x vs acc = Ok triFalse -> False.
Proof.
  assert (forall vs, evalInLoop x vs triUnknown <> Ok triFalse) as Hu.
  { induction vs0 as [|v vs0 IH]; simpl; [done|].
    destruct (evalComparison x OpEq v) as [[]|]; done. }
  induction vs as [|v vs IH]; intros Hin acc; [by apply elem_of_nil in Hin|]. simpl.
  apply elem_of_cons in Hin as [<-|Hin].
  - unfold evalComparison. simpl. rewrite orb_true_r. cbn. apply Hu.
  - destruct (evalComparison x OpEq v) as [[]|]; cbn; try done; eauto.
Qed.

Lemma resolveSubjectList_missing subject items s attr :
  VString s ∈ items -> SubjectPlaceholder s = Some attr -> subject !! attr = None ->
  VNil ∈ resolveSubjectList items subject.
Proof.
  intros Hin Hs Hm. unfold resolveSubjectList. rewrite list_elem_of_In, in_flat_map. exists (VString s).
  rewrite <- !list_elem_of_In. split; [done|]. unfold resolveItem, attrOf. rewrite Hs, Hm. by left.
Qed.

(** ** The memo *)

Section Memo.
Context `{GoStd}.

(** What Usable answers, without a memo. *)
Definition usableSpec (a : GrantAuthorizer) (role name : string) : bool :=
  match Resolve (registry a) name with
  | None => false
  | Some e => existsb (fun action => Reachable (authorize a (actionRequest role name action)))
                (ActionsFor (EKind (REntity e)))
  end.

Record memo_ok (a : GrantAuthorizer) (m : memo) : Prop := {
  memo_granted : forall p n action found e,
    granted m !! (p, n, action) = Some found -> byName (registry a) !! n = Some e ->
    found = findCandidates a e p action;
  memo_usable : forall role name ok,
    usable m !! (NormalizeRole role, name) = Some ok -> ok = usableSpec a role name;
}.

Definition emptyMemo : memo := mkMemo ∅ ∅.

Lemma memo_ok_empty a : memo_ok a emptyMemo.
Proof. constructor; simpl; intros *; by rewrite lookup_empty. Qed.

Lemma Resolve_entity r ref res :
  registry_ok r -> Resolve r ref = Some res -> byName r !! EName (REntity res) = Some (REntity res).
Proof.
  intros Hok Hr. rewrite (Resolve_Match r ref Hok), (Match_spec r ref Hok) in Hr.
  destruct (byName r !! ref) as [e|] eqn:E.
  - simplify_eq. simpl. by apply (ok_byName r Hok) in E as [? <-]; apply (ok_byName r Hok).
  - destruct (List.filter _ (entities r)) as [|e [|]] eqn:Ef; simplify_eq. simpl.
    apply (ok_byName r Hok). split; [|done]. apply list_elem_of_In.
    apply (filter_In (fun e => bool_decide (ref ∈ References e)) e (entities r)). rewrite Ef. by left.
Qed.

Lemma candidates_memo a m e principal action :
  byName (registry a) !! EName e = Some e -> memo_ok a m ->
  let '(found, m') := candidates a m e principal action in
  found = (if decide (principal = "") then [] else findCandidates a e principal action) /\ memo_ok a m'.
Proof.
  intros He Hm. unfold candidates. case_decide; [done|]. case_bool_decide; simpl; [|done].
  destruct (granted m !! (principal, EName e, action)) as [found|] eqn:E.
  { split; [by eapply memo_granted|done]. }
  split; [done|]. constructor; simpl; [|apply (memo_usable a m Hm)].
  intros p n act found e'. rewrite lookup_insert. case_decide as Heq.
  - injection Heq as <- <- <-. intros [= <-] He'. congruence.
  - apply (memo_granted a m Hm).
Qed.

Lemma Authorize_memo a m req :
  registry_ok (registry a) -> memo_ok a m ->
  let '(d, m') := Authorize a m req in d = authorize a req /\ memo_ok a m'.
Proof.
  intros Hok Hm. unfold Authorize, authorize. destruct (Resolve _ _) as [res|] eqn:E; [|done].
  pose proof (candidates_memo a m (REntity res) (NormalizeRole (QRole req)) (QAction req)
    (Resolve_entity _ _ _ Hok E) Hm) as Hc.
  destruct (candidates _ _ _ _ _) as [found m']. destruct Hc as [-> ?]. done.
Qed.

Lemma usableLoop_memo a role name actions m :
  registry_ok (registry a) -> memo_ok a m ->
  let '(ok, m') := usableLoop a m role name actions in
  ok = existsb (fun action => Reachable (authorize a (actionRequest role name action))) actions /\ memo_ok a m'.
Proof.
  intros Hok. revert m. induction actions as [|action actions IH]; intros m Hm; simpl; [done|].
  pose proof (Authorize_memo a m (actionRequest role name action) Hok Hm) as Ha.
  destruct (Authorize _ _ _) as [d m']. destruct Ha as [-> Hm'].
  destruct (Reachable _); [done|]. simpl. by apply IH.
Qed.

(** The role is looked at normalized only. *)
Lemma usableSpec_role a r1 r2 name :
  NormalizeRole r1 = NormalizeRole r2 -> usableSpec a r1 name = usableSpec a r2 name.
Proof.
  intros Hr. unfold usableSpec, authorize, actionRequest. simpl. rewrite Hr.
  destruct (Resolve (registry a) name); reflexivity.
Qed.

Lemma Usable_memo a m role name :
  registry_ok (registry a) -> memo_ok a m ->
  let '(ok, m') := Usable a m role name in ok = usableSpec a role name /\ memo_ok a m'.
Proof.
  intros Hok Hm. unfold Usable. destruct (usable m !! (NormalizeRole role, name)) as [ok|] eqn:E.
  { split; [by eapply memo_usable|done]. }
  destruct (Resolve (registry a) name) as [e|] eqn:Er.
  2:{ unfold usableSpec. by rewrite Er. }
  pose proof (usableLoop_memo a role name (ActionsFor (EKind (REntity e))) m Hok Hm) as Hl.
  destruct (usableLoop _ _ _ _ _) as [ok m']. destruct Hl as [Hl Hm'].
  assert (ok = usableSpec a role name) as Hspec by (unfold usableSpec; by rewrite Er).
  split; [done|]. case_bool_decide; [|done]. constructor; simpl; [apply (memo_granted a m' Hm')|].
  intros r n b. rewrite lookup_insert. case_decide as Heq; [|apply (memo_usable a m' Hm')].
  injection Heq as Hr <-. intros [= <-]. rewrite Hspec. by apply usableSpec_role.
Qed.

End Memo.


(** * Authorization's guarantees, end to end: what an allowed decision shows a
    caller, what is denied, how a denial can be retried, and that the memo
    tables change no answer. *)

(** ** Calls in sequence *)

Inductive authCall : Type :=
  | CallAuthorize (req : Request)
  | CallUsable (role name : string).

Section Theorems.
Context `{GoStd}.

Definition authAnswer (a : GrantAuthorizer) (c : authCall) : Decision + bool :=
  match c with
  | CallAuthorize req => inl (authorize a req)
  | CallUsable role name => inr (usableSpec a role name)
  end.

(** The calls one after the other, the memo threaded through them. *)
Fixpoint serve (a : GrantAuthorizer) (m : memo) (calls : list authCall) : list (Decision + bool) :=
  match calls with
  | [] => []
  | CallAuthorize req :: calls => let '(d, m) := Authorize a m req in inl d :: serve a m calls
  | CallUsable role name :: calls => let '(ok, m) := Usable a m role name in inr ok :: serve a m calls
  end.

Lemma serve_answers a m calls :
  registry_ok (registry a) -> memo_ok a m -> serve a m calls = authAnswer a <$> calls.
Proof.
  intros Hok. revert m. induction calls as [|[req|role name] calls IH]; intros m Hm; simpl; [done|..].
  - pose proof (Authorize_memo a m req Hok Hm) as Ha. destruct (Authorize a m req) as [d m'].
    destruct Ha as [-> Hm']. by rewrite IH.
  - pose proof (Usable_memo a m role name Hok Hm) as Hu. destruct (Usable a m role name) as [ok m'].
    destruct Hu as [-> Hm']. by rewrite IH.
Qed.

Lemma grantsOn_allows m name action g : g ∈ grantsOn m name action -> allows g action = true.
Proof. unfold grantsOn. by intros [_ ?]%list_elem_of_In%filter_In. Qed.

Lemma findCandidates_allows a e principal action g :
  g ∈ findCandidates a e principal action -> allows g action = true.
Proof.
  assert (forall roles, g ∈ flat_map (roleGrants a e action) roles -> allows g action = true) as Hr.
  { intros roles. rewrite list_elem_of_In, in_flat_map. intros (role & _ & Hg).
    apply list_elem_of_In, elem_of_app in Hg as [Hg|Hg]; [by eapply grantsOn_allows|].
    repeat case_match; try (by apply elem_of_nil in Hg). by apply list_elem_of_singleton in Hg as ->. }
  unfold findCandidates. destruct (Principals (policy a) !! principal); [|apply Hr].
  intros [Hg|Hg]%elem_of_app; [by eapply grantsOn_allows|by eapply Hr].
Qed.

(** C1. The covering rule.  The registry is as NewRegistry builds it, the
    memo as its calls leave it, and the empty name is neither among the
    fields the request reads or writes nor among those the decision returns
    (the code passes over an empty name when it compares a request with a
    grant, so an entity with a field named by the empty string would escape
    the rule: [empty_field_hides_denied_field]).  Then when a request is
    allowed there are grants of the caller, each allowing the action and
    covering alone every field the request reads and writes and (for a read)
    every field returned, such that a row the row filter lets through
    satisfies the entity's tenant policy and the row predicate of one of
    these grants: nothing a caller sees is put together from several grants,
    and no row escapes the tenant. *)
Theorem authorize_covering_rule (a : GrantAuthorizer) (m : memo) (req : Request) (d : Decision) :
  registry_ok (registry a) -> memo_ok a m -> (Authorize a m req).1 = d -> Allowed d = true ->
  ""%string ∉ (requestFields req).1 -> ""%string ∉ (requestFields req).2 -> ""%string ∉ DFields d ->
  exists res cov, Resolve (registry a) (QEntity req) = Some res /\ cov <> [] /\ Grants d = GID <$> cov /\
    (forall g, g ∈ cov ->
       g ∈ findCandidates a (REntity res) (NormalizeRole (QRole req)) (QAction req) /\
       allows g (QAction req) = true /\
       covers g (requestFields req).1 (requestFields req).2 (RAttributes res) /\
       (QAction req = ActionRead -> covers g (DFields d) [] (RAttributes res))) /\
    (forall rel row, evalPredicate (RowFilter d) rel row = Ok triTrue ->
       evalPredicate (resolveSubject (ETenantPolicy (REntity res)) (QSubject req)) rel row = Ok triTrue /\
       exists g, g ∈ cov /\ evalPredicate (resolveSubject (GRows g) (QSubject req)) rel row = Ok triTrue).
Proof.
  intros Hok Hm Hd Ha Hr Hw Hf. pose proof (Authorize_memo a m req Hok Hm) as Hs.
  destruct (Authorize a m req) as [d' m']. simpl in Hd. subst d'. destruct Hs as [-> _].
  unfold authorize in *. destruct (Resolve (registry a) (QEntity req)) as [res|]; [|done].
  case_decide; [done|]. apply decideWith_allowed in Ha as Hj. destruct Hj as [cov [Hne Hcand Hcov Hproj Hfil Hgr _]].
  exists res, cov. split_and!; [done|done|done| |].
  - intros g Hg. split_and!; [by apply Hcand|by eapply findCandidates_allows, Hcand| |].
    + apply grantCovers_covers; auto.
    + intros Hread. apply grantCovers_covers; [done|apply not_elem_of_nil|]. by apply (Hproj Hread).
  - intros rel row. rewrite Hfil. by apply effectiveRowFilter_true.
Qed.

(** The row filter hides no row of the caller's: inside the tenant, a row
    one of the grants behind the decision lets through passes the filter
    (when the grants' predicates evaluate on it). *)
Theorem authorize_filter_complete (a : GrantAuthorizer) (m : memo) (req : Request) (d : Decision) :
  registry_ok (registry a) -> memo_ok a m -> (Authorize a m req).1 = d -> Allowed d = true ->
  exists res cov, Resolve (registry a) (QEntity req) = Some res /\ Grants d = GID <$> cov /\
    forall rel row g, g ∈ cov ->
      Forall (fun g => is_ok (evalPredicate (resolveSubject (GRows g) (QSubject req)) rel row) = true) cov ->
      evalPredicate (resolveSubject (GRows g) (QSubject req)) rel row = Ok triTrue ->
      evalPredicate (resolveSubject (ETenantPolicy (REntity res)) (QSubject req)) rel row = Ok triTrue ->
      evalPredicate (RowFilter d) rel row = Ok triTrue.
Proof.
  intros Hok Hm Hd Ha. pose proof (Authorize_memo a m req Hok Hm) as Hs.
  destruct (Authorize a m req) as [d' m']. simpl in Hd. subst d'. destruct Hs as [-> _].
  unfold authorize in *. destruct (Resolve (registry a) (QEntity req)) as [res|]; [|done].
  case_decide; [done|]. apply decideWith_allowed in Ha as Hj. destruct Hj as [cov Hj].
  exists res, cov. split_and!; [done|apply (j_grants _ _ _ _ _ Hj)|].
  intros rel row g Hg Hev Hrow Ht. rewrite (j_filter _ _ _ _ _ Hj). by eapply effectiveRowFilter_complete.
Qed.

(** A caller without a grant gets nothing: a blank role, an entity that
    does not resolve, or a principal no grant of whom allows the action is
    denied, with no fields and no row filter. *)
Theorem authorize_denies (a : GrantAuthorizer) (m : memo) (req : Request) :
  registry_ok (registry a) -> memo_ok a m ->
  NormalizeRole (QRole req) = ""%string \/ Resolve (registry a) (QEntity req) = None \/
  (forall res, Resolve (registry a) (QEntity req) = Some res ->
     findCandidates a (REntity res) (NormalizeRole (QRole req)) (QAction req) = []) ->
  Allowed (Authorize a m req).1 = false /\ DFields (Authorize a m req).1 = [] /\
  RowFilter (Authorize a m req).1 = PNil /\ Reachable (Authorize a m req).1 = false.
Proof.
  intros Hok Hm Hno. pose proof (Authorize_memo a m req Hok Hm) as Hs.
  destruct (Authorize a m req) as [d m']. destruct Hs as [-> _]. simpl. unfold authorize.
  destruct (Resolve (registry a) (QEntity req)) as [res|]; [|done].
  destruct Hno as [Hr|[Hr|Hr]]; [by rewrite decide_True|done|].
  rewrite (Hr res eq_refl). by case_decide.
Qed.

(** A denial's retry hint is good: a read denied because its fields are
    split across grants, asked again for exactly one of the field sets it
    lists, is allowed. *)
Theorem retry_within_scope (a : GrantAuthorizer) (m : memo) (req : Request) (scope : list string) :
  registry_ok (registry a) -> memo_ok a m -> QAction req = ActionRead ->
  scope ∈ Scopes (Authorize a m req).1 ->
  Allowed (Authorize a m (retry req scope)).1 = true.
Proof.
  intros Hok Hm Ha. pose proof (Authorize_memo a m req Hok Hm) as Hs.
  pose proof (Authorize_memo a m (retry req scope) Hok Hm) as Hs'.
  destruct (Authorize a m req) as [d m1], (Authorize a m (retry req scope)) as [d' m2].
  destruct Hs as [-> _], Hs' as [-> _]. simpl. unfold authorize. simpl QEntity. simpl QRole. simpl QAction.
  intros [Hsc Hne]%list_elem_of_In%filter_In. apply list_elem_of_In in Hsc.
  destruct (Resolve (registry a) (QEntity req)) as [res|]; [|by apply elem_of_nil in Hsc].
  case_decide; [by apply elem_of_nil in Hsc|].
  apply decideWith_scopes in Hsc as (g & Hg & ->). apply retry_allowed; [done|done|].
  intros Hnil. by rewrite Hnil in Hne.
Qed.

(** C38. Memoizing changes no answer: any sequence of Authorize and Usable
    calls on an authorizer, whatever they leave in its tables, answers each
    call as it is answered alone. *)
Theorem memo_transparent (es : list Entity) (r : Registry) (p : Policy) (calls : list authCall) :
  NewRegistry es = Ok r ->
  serve (NewGrantAuthorizer r p) emptyMemo calls = authAnswer (NewGrantAuthorizer r p) <$> calls.
Proof.
  intros [Hok _]%NewRegistry_ok. apply serve_answers; [done|apply memo_ok_empty].
Qed.

End Theorems.

(** Missing subject attributes fail closed: a condition whose value is
    the placeholder of an attribute the caller lacks is TRUE of no value and
    neither is its negation, and a NOT IN list naming one is never TRUE. *)
Theorem missing_subject_fails_closed (subject : gmap string value) (c : Condition) (attr : string) (x : value) :
  subject !! attr = None ->
  ((exists s, CValue c = VString s /\ SubjectPlaceholder s = Some attr) ->
     COp c <> OpIsNull -> COp c <> OpIsNotNull ->
     evalOp x (resolveCondition subject c) <> Ok triTrue /\ evalOp x (resolveCondition subject c) <> Ok triFalse) /\
  ((exists l s, CValue c = VList l /\ VString s ∈ l /\ SubjectPlaceholder s = Some attr) ->
     COp c = OpNotIn -> evalOp x (resolveCondition subject c) <> Ok triTrue).
Proof.
  intros Hm. split.
  - intros Hc Hn Hnn. destruct (missing_attribute subject c attr x Hc Hm Hn Hnn) as [->|[e ->]]; done.
  - intros (l & s & Hv & Hin & Hs) Hop Heval. unfold resolveCondition in Heval. rewrite Hv in Heval.
    unfold evalOp in Heval. simpl in Heval. rewrite Hop in Heval. apply bind_ok in Heval as (v & Ev & Hv').
    destruct v; try done. eapply evalInLoop_nil; [|exact Ev]. by eapply resolveSubjectList_missing.
Qed.

(** ** Witnesses *)

Definition staffGrant : Grant :=
  mkGrant "role:staff:0" [ActionRead] (Some (mkFP ["id"] [])) (PCond (mkCond "owner" OpEq (VString "${subject.user}"))).
Definition auditGrant : Grant := mkGrant "role:staff:1" [ActionRead] (Some (mkFP ["total"] [])) PNil.

Definition staffPolicy : Policy :=
  mkPolicy {["staff"%string := {["default.orders"%string := [staffGrant; auditGrant]]}]} ∅ ∅.

Definition ordersEntity : Entity :=
  mkEntity "default.orders" "orders" "orders" "" "" "" KindTable
    [mkAttr "id" "" "" (mkDomain "integer" false false false false) false "";
     mkAttr "total" "amount" "" (mkDomain "numeric" false false false false) false ""]
    [] [] [] [] [] (mkMCP true false false) []
    (PCond (mkCond "tenant" OpEq (VString "${subject.tenant}"))) [] false "" [] "" [] [] false false [] false [].

Definition ordersRegistry : Registry := Eval vm_compute in
  match NewRegistry [ordersEntity] with Ok r => r | Err _ => emptyRegistry end.

Lemma ordersRegistry_ok : registry_ok ordersRegistry.
Proof. by destruct (NewRegistry_ok [ordersEntity] ordersRegistry) as [? _]. Qed.

Definition staffAuthorizer : GrantAuthorizer := @NewGrantAuthorizer asciiStd ordersRegistry staffPolicy.

Definition staffRead (fields : list string) : Request :=
  mkRequest " Staff " "orders" ActionRead fields [] [] {["user"%string := VString "ann"]} PNil.

Lemma authorize_covering_rule_witness :
  exists res cov, Resolve ordersRegistry "orders" = Some res /\ cov <> [] /\ ["role:staff:0"%string] = GID <$> cov.
Proof.
  destruct (@authorize_covering_rule asciiStd staffAuthorizer emptyMemo (staffRead ["id"%string]) _
    ordersRegistry_ok (@memo_ok_empty asciiStd _) eq_refl) as (res & cov & Hr & Hne & Hg & _).
  - vm_compute. reflexivity.
  - vm_compute. intros H. by inversion H; subst; match goal with H : _ ∈ [] |- _ => inversion H end.
  - vm_compute. intros H. inversion H.
  - vm_compute. intros H. by inversion H; subst; match goal with H : _ ∈ [] |- _ => inversion H end.
  - exists res, cov. split; [exact Hr|]. split; [exact Hne|]. exact Hg.
Defined.

Lemma authorize_filter_complete_witness :
  exists res cov, Resolve ordersRegistry "orders" = Some res /\ ["role:staff:0"%string] = GID <$> cov.
Proof.
  destruct (@authorize_filter_complete asciiStd staffAuthorizer emptyMemo (staffRead ["id"%string]) _
    ordersRegistry_ok (@memo_ok_empty asciiStd _) eq_refl) as (res & cov & Hr & Hg & _).
  - vm_compute. reflexivity.
  - exists res, cov. split; [exact Hr|exact Hg].
Defined.

Lemma authorize_denies_witness :
  Allowed (@Authorize asciiStd staffAuthorizer emptyMemo
             (mkRequest "  " "orders" ActionRead [] [] [] ∅ PNil)).1 = false.
Proof.
  apply (@authorize_denies asciiStd staffAuthorizer emptyMemo (mkRequest "  " "orders" ActionRead [] [] [] ∅ PNil)
    ordersRegistry_ok (@memo_ok_empty asciiStd _)). left. vm_compute. reflexivity.
Defined.

Lemma retry_within_scope_witness :
  Allowed (@Authorize asciiStd staffAuthorizer emptyMemo (staffRead [])).1 = false /\
  Allowed (@Authorize asciiStd staffAuthorizer emptyMemo (retry (staffRead []) ["total"%string])).1 = true.
Proof.
  split; [vm_compute; reflexivity|].
  apply (@retry_within_scope asciiStd staffAuthorizer emptyMemo (staffRead []) ["total"%string]
    ordersRegistry_ok (@memo_ok_empty asciiStd _) eq_refl).
  vm_compute. right. left.
Defined.

Lemma memo_transparent_witness :
  serve (H := asciiStd) staffAuthorizer (@emptyMemo) [CallUsable "staff" "orders"; CallUsable "STAFF" "orders"]
  = [inr true; inr true].
Proof.
  unfold staffAuthorizer. rewrite (@memo_transparent asciiStd [ordersEntity]); [|vm_compute; reflexivity].
  vm_compute. reflexivity.
Defined.

Lemma missing_subject_fails_closed_witness :
  evalOp (VString "acme") (resolveCondition {["user"%string := VString "ann"]}
    (mkCond "tenant" OpNe (VString "${subject.tenant}"))) <> Ok triTrue.
Proof.
  destruct (missing_subject_fails_closed {["user"%string := VString "ann"]}
    (mkCond "tenant" OpNe (VString "${subject.tenant}")) "tenant" (VString "acme")) as [H _]; [reflexivity|].
  apply H; [exists "${subject.tenant}"%string; split; reflexivity|discriminate|discriminate].
Defined.

(** firstDenied's empty result also stands for a denied field named by the
    empty string: a request that reads it along with a field the grant hides
    is taken as covered. *)
Example empty_field_hides_denied_field :
  grantCovers staffGrant [""%string; "total"%string] [] (RAttributes (mkResolved ordersEntity (EAttributes ordersEntity)))
    = true /\
  grantCovers staffGrant ["total"%string] [] (RAttributes (mkResolved ordersEntity (EAttributes ordersEntity))) = false.
Proof. vm_compute. split; reflexivity. Qed.
