(* ===== verification/Dialect.v ===== *)
(** SQL dialects: core/dialect (dialect.go, profile.go) and the dialects of
    x/providers/postgres, x/providers/mysql and x/providers/oceanbase.

    [Dialect] is the interface codegen renders through, [lawful_dialect] what
    it relies on: a quoted identifier is one token, which a lexer reads back
    as the name.  The three dialects are its instances. *)

From S2P Require Import Prelude GoString.

(** ** Capability profiles *)

Inductive Strength : Type := Unsupported | BestEffort | Enforced.
Inductive Evidence : Type := DBVerified | CoreVerified | Declared | External.

#[global] Instance Strength_eq_dec : EqDecision Strength.
Proof. solve_decision. Defined.

Record Claim : Type := mkClaim { ClStrength : Strength; ClEvidence : Evidence }.

Abbreviation Profile := (gmap string Claim).

Definition Returning : string := "write.returning".
Definition Explain : string := "cost.explain".
Definition ExplainAccurate : string := "cost.explain.accurate".
Definition ExplainAnalyze : string := "cost.explain.analyze".

Definition claim (p : Profile) (k : string) : Claim := default (mkClaim Unsupported Declared) (p !! k).

Definition Has (p : Profile) (k : string) : bool := negb (bool_decide (ClStrength (claim p k) = Unsupported)).

Definition enforced (p : Profile) (k : string) : bool := bool_decide (ClStrength (claim p k) = Enforced).

(** With: others' claims added or replacing p's. *)
Definition With (p others : Profile) : Profile := others ∪ p.

(** ** The interface *)

Record Dialect : Type := mkDialect {
  DName : string;
  QuoteIdent : string -> string;
  Placeholder : nat -> string;
  Capabilities : Profile;
  OrdersNullsLast : bool;   (** implements dialect.NullsLast *)
}.

(** ** Identifiers: the quote doubled inside, one around *)

(** strings.ReplaceAll(name, q, qq) *)
Fixpoint doubled (q : ascii) (name : string) : string :=
  match name with
  | EmptyString => EmptyString
  | String c s => if Ascii.eqb c q then String q (String q (doubled q s)) else String c (doubled q s)
  end.

Definition quoteIdent (q : ascii) (name : string) : string :=
  String q (doubled q name +:+ String q EmptyString).

(** The reading of a quoted identifier after its opening quote, as SQL lexes
    it: a doubled quote is a quote, a single one ends it. *)
Fixpoint lexBody (q : ascii) (s : string) : option (string * string) :=
  match s with
  | EmptyString => None
  | String c s =>
      if Ascii.eqb c q then
        match s with
        | String d s' =>
            if Ascii.eqb d q
            then match lexBody q s' with Some (name, rest) => Some (String q name, rest) | None => None end
            else Some (EmptyString, s)
        | EmptyString => Some (EmptyString, EmptyString)
        end
      else match lexBody q s with Some (name, rest) => Some (String c name, rest) | None => None end
  end.

Definition lexIdent (q : ascii) (s : string) : option (string * string) :=
  match s with
  | String c s => if Ascii.eqb c q then lexBody q s else None
  | EmptyString => None
  end.

Definition starts_with (q : ascii) (s : string) : bool :=
  match s with String c _ => Ascii.eqb c q | EmptyString => false end.

(** ** The dialects *)

Definition dquote : ascii := ascii_of_nat 34.
Definition backquote : ascii := ascii_of_nat 96.

Definition postgres : Dialect := {|
  DName := "postgres";
  QuoteIdent := quoteIdent dquote;
  Placeholder := fun i => "$" +:+ pretty (S i);
  Capabilities := {[Returning := mkClaim Enforced CoreVerified; Explain := mkClaim Enforced DBVerified;
                    ExplainAccurate := mkClaim Enforced DBVerified; ExplainAnalyze := mkClaim Enforced DBVerified]};
  OrdersNullsLast := true;
|}.

Definition mysql : Dialect := {|
  DName := "mysql";
  QuoteIdent := quoteIdent backquote;
  Placeholder := fun _ => "?";
  Capabilities := {[Returning := mkClaim Unsupported CoreVerified; Explain := mkClaim Enforced DBVerified;
                    ExplainAccurate := mkClaim BestEffort DBVerified; ExplainAnalyze := mkClaim Unsupported CoreVerified]};
  OrdersNullsLast := false;
|}.

Definition oceanbase : Dialect := {|
  DName := "oceanbase";
  QuoteIdent := QuoteIdent mysql;
  Placeholder := Placeholder mysql;
  Capabilities := Capabilities mysql;
  OrdersNullsLast := false;
|}.

(** ** What codegen relies on *)

Class lawful_dialect (d : Dialect) : Type := {
  quote_byte : ascii;
  quote_lexes : forall name rest, starts_with quote_byte rest = false ->
    lexIdent quote_byte (QuoteIdent d name +:+ rest) = Some (name, rest);
  quote_not_dot : quote_byte <> "."%char;
}.

Lemma lexBody_doubled q name rest :
  starts_with q rest = false ->
  lexBody q (doubled q name +:+ String q rest) = Some (name, rest).
Proof.
  intros Hr. induction name as [|c name IH].
  - simpl. rewrite Ascii.eqb_refl. destruct rest as [|d rest]; [done|]. simpl in Hr. by rewrite Hr.
  - simpl doubled. destruct (Ascii.eqb c q) eqn:E.
    + change (String q (String q (doubled q name)) +:+ String q rest)
        with (String q (String q (doubled q name +:+ String q rest))).
      cbn [lexBody]. rewrite !Ascii.eqb_refl, IH. by apply Ascii.eqb_eq in E as ->.
    + change (String c (doubled q name) +:+ String q rest) with (String c (doubled q name +:+ String q rest)).
      cbn [lexBody]. by rewrite E, IH.
Qed.

Lemma quoteIdent_lexes q name rest :
  starts_with q rest = false -> lexIdent q (quoteIdent q name +:+ rest) = Some (name, rest).
Proof.
  intros Hr. unfold quoteIdent.
  change (String q (doubled q name +:+ String q "") +:+ rest)
    with (String q ((doubled q name +:+ String q "") +:+ rest)).
  rewrite string_app_assoc. cbn [lexIdent]. rewrite Ascii.eqb_refl. by apply lexBody_doubled.
Qed.

#[export] Instance postgres_lawful : lawful_dialect postgres :=
  Build_lawful_dialect postgres dquote (quoteIdent_lexes dquote) ltac:(done).

#[export] Instance mysql_lawful : lawful_dialect mysql :=
  Build_lawful_dialect mysql backquote (quoteIdent_lexes backquote) ltac:(done).

#[export] Instance oceanbase_lawful : lawful_dialect oceanbase :=
  Build_lawful_dialect oceanbase backquote (quoteIdent_lexes backquote) ltac:(done).

(** A quoted identifier is one token in every supported dialect: before
    anything that does not start with the quote, a lexer reads back exactly
    the name, whatever bytes it holds, and nothing of it as SQL. *)
Theorem quote_ident_roundtrip (name rest : string) :
  (starts_with dquote rest = false ->
     lexIdent dquote (QuoteIdent postgres name +:+ rest) = Some (name, rest)) /\
  (starts_with backquote rest = false ->
     lexIdent backquote (QuoteIdent mysql name +:+ rest) = Some (name, rest) /\
     lexIdent backquote (QuoteIdent oceanbase name +:+ rest) = Some (name, rest)).
Proof. split; [|split]; by apply quoteIdent_lexes. Qed.

Lemma quote_ident_roundtrip_witness :
  lexIdent backquote (QuoteIdent mysql "a`; DROP TABLE t" +:+ " = ?") = Some ("a`; DROP TABLE t"%string, " = ?"%string).
Proof. apply (quote_ident_roundtrip "a`; DROP TABLE t" " = ?"). reflexivity. Defined.
