(* ===== verification/Codegen.v ===== *)
(** SQL generation: core/codegen (codegen.go, render.go, join.go).

    The builder is a state threaded through a state-and-error monad; an error
    discards the state, as Compile does.  Values reach the statement only
    through [bindArg]. *)

From S2P Require Import Prelude GoString Value Relalg Dialect.

(** ** The builder *)

Record builder : Type := mkBuilder {
  bsql : string;
  bargs : list value;
  ph : nat;
  readOnly : bool;
  returningCols : list string;
  maxINCardinality : Z;
  bcapBase : string;
  bcapLimit : Z;
  bcapOffset : Z;
  outputs : gmap string string;
  root : string;
  bjoins : gset string;
  scope : string;
  bexists : nat;
}.

Definition newBuilder (maxIN : Z) (returning : list string) : builder :=
  mkBuilder "" [] 0 false returning maxIN "" 0 0 ∅ "" ∅ "" 0.

Definition set_sql (s : string) (b : builder) : builder :=
  mkBuilder s (bargs b) (ph b) (readOnly b) (returningCols b) (maxINCardinality b) (bcapBase b) (bcapLimit b)
    (bcapOffset b) (outputs b) (root b) (bjoins b) (scope b) (bexists b).
Definition set_args (l : list value) (n : nat) (b : builder) : builder :=
  mkBuilder (bsql b) l n (readOnly b) (returningCols b) (maxINCardinality b) (bcapBase b) (bcapLimit b)
    (bcapOffset b) (outputs b) (root b) (bjoins b) (scope b) (bexists b).
Definition set_readOnly (r : bool) (b : builder) : builder :=
  mkBuilder (bsql b) (bargs b) (ph b) r (returningCols b) (maxINCardinality b) (bcapBase b) (bcapLimit b)
    (bcapOffset b) (outputs b) (root b) (bjoins b) (scope b) (bexists b).
Definition set_cap (base : string) (limit offset : Z) (b : builder) : builder :=
  mkBuilder (bsql b) (bargs b) (ph b) (readOnly b) (returningCols b) (maxINCardinality b) base limit
    offset (outputs b) (root b) (bjoins b) (scope b) (bexists b).
Definition set_outputs (o : gmap string string) (b : builder) : builder :=
  mkBuilder (bsql b) (bargs b) (ph b) (readOnly b) (returningCols b) (maxINCardinality b) (bcapBase b) (bcapLimit b)
    (bcapOffset b) o (root b) (bjoins b) (scope b) (bexists b).
Definition set_root (r : string) (b : builder) : builder :=
  mkBuilder (bsql b) (bargs b) (ph b) (readOnly b) (returningCols b) (maxINCardinality b) (bcapBase b) (bcapLimit b)
    (bcapOffset b) (outputs b) r (bjoins b) (scope b) (bexists b).
Definition set_joins (j : gset string) (b : builder) : builder :=
  mkBuilder (bsql b) (bargs b) (ph b) (readOnly b) (returningCols b) (maxINCardinality b) (bcapBase b) (bcapLimit b)
    (bcapOffset b) (outputs b) (root b) j (scope b) (bexists b).
Definition set_scope (s : string) (b : builder) : builder :=
  mkBuilder (bsql b) (bargs b) (ph b) (readOnly b) (returningCols b) (maxINCardinality b) (bcapBase b) (bcapLimit b)
    (bcapOffset b) (outputs b) (root b) (bjoins b) s (bexists b).
Definition set_exists (n : nat) (b : builder) : builder :=
  mkBuilder (bsql b) (bargs b) (ph b) (readOnly b) (returningCols b) (maxINCardinality b) (bcapBase b) (bcapLimit b)
    (bcapOffset b) (outputs b) (root b) (bjoins b) (scope b) n.

(** ** The monad *)

Definition M (A : Type) : Type := builder -> result (A * builder).

#[global] Instance M_ret : MRet M := fun A a b => Ok (a, b).
#[global] Instance M_bind : MBind M := fun A B k m b =>
  match m b with Ok (a, b) => k a b | Err e => Err e end.

Definition fail {A} (e : error) : M A := fun _ => Err e.
Definition gets {A} (f : builder -> A) : M A := fun b => Ok (f b, b).
Definition modify (f : builder -> builder) : M unit := fun b => Ok (tt, f b).
Definition liftR {A} (r : result A) : M A := fun b => match r with Ok a => Ok (a, b) | Err e => Err e end.

(** b.sql.WriteString *)
Definition write (s : string) : M unit := modify (fun b => set_sql (bsql b +:+ s) b).

(** [for i, x := range l { if i > 0 { write sep }; f x }] *)
Definition eachWith {A} (sep : string) (f : A -> M unit) : bool -> list A -> M unit :=
  fix go (first : bool) (l : list A) : M unit :=
    match l with
    | [] => mret tt
    | x :: l => _ ← (if first then mret tt else write sep); _ ← f x; go false l
    end.

Section Render.
Context (d : Dialect).

(** ** Names *)

Definition qident (name : string) : string := QuoteIdent d name.

Definition qtable (r : RelationRef) : string :=
  if decide (Schema r = "") then qident (RefName r) else qident (Schema r) +:+ "." +:+ qident (RefName r).

Definition col (b : builder) (name : string) : string :=
  if negb (bool_decide (scope b = "")) then qident (scope b) +:+ "." +:+ qident name
  else
    let own := if negb (bool_decide (root b = "")) then qident (root b) +:+ "." +:+ qident name else qident name in
    match cut "." name with
    | Some (alias, column) =>
        if bool_decide (alias ∈ bjoins b) then qident alias +:+ "." +:+ qident column else own
    | None => own
    end.

Definition column (b : builder) (name : string) : string :=
  match outputs b !! name with
  | Some expr => if bool_decide (scope b = "") then expr else col b name
  | None => col b name
  end.

(** The next placeholder, and the value it stands for. *)
Definition bindArg (v : value) : M unit :=
  i ← gets ph;
  _ ← write (Placeholder d i);
  modify (fun b => set_args (bargs b ++ [v]) (S (ph b)) b).

Definition opSQL (op : Op) : string :=
  match op with
  | OpEq => "=" | OpNe => "<>" | OpGt => ">" | OpGte => ">=" | OpLt => "<" | OpLte => "<=" | OpLike => "LIKE"
  | _ => ""
  end.

Definition toValues (v : value) : result (list value) :=
  match v with VList vals => Ok vals | _ => Err ErrINValue end.

Definition commas (parts : list string) : string := join ", " parts.

Definition renderFieldList (fields : list string) : string := commas (qident <$> fields).
Definition renderColumns (b : builder) (fields : list string) : string := commas (col b <$> fields).

Definition renderCols (b : builder) (items : list ProjectItem) : string :=
  commas ((fun it => col b (ItemField it) +:+
    (if decide (ItemAlias it = "") then "" else " AS " +:+ qident (ItemAlias it))) <$> items).

(** ** Predicates *)

Definition renderCondition (c : Condition) : M unit :=
  name ← gets (fun b => column b (CField c));
  _ ← write name;
  match COp c with
  | OpIsNull => write " IS NULL"
  | OpIsNotNull => write " IS NOT NULL"
  | OpIn | OpNotIn =>
      vals ← liftR (toValues (CValue c));
      maxIN ← gets maxINCardinality;
      if (length vals =? 0)%nat then fail ErrINValue
      else if maxIN <? Z.of_nat (length vals) then fail ErrINCardinality
      else
        _ ← (if bool_decide (COp c = OpNotIn) then write " NOT" else mret tt);
        _ ← write " IN (";
        _ ← eachWith ", " bindArg true vals;
        write ")"
  | op => _ ← write (" " +:+ opSQL op +:+ " "); bindArg (CValue c)
  end.

(** renderOn, [rp] rendering the predicate. *)
Definition renderOn (alias : string) (on : list JoinPair) (nil : bool) (rp : M unit) : M unit :=
  parts ← gets (fun b =>
    (fun p => qident alias +:+ "." +:+ qident (PRight p) +:+ " = " +:+ col b (PLeft p)) <$> on);
  _ ← write (join " AND " parts);
  if nil then mret tt
  else
    _ ← write " AND ";
    outer ← gets scope;
    _ ← modify (set_scope alias);
    _ ← rp;
    modify (set_scope outer).

Fixpoint renderPredicate (p : Predicate) : M unit :=
  match p with
  | PNil => mret tt
  | PCond c => renderCondition c
  | PAnd ps => _ ← write "("; _ ← eachWith " AND " renderPredicate true ps; write ")"
  | POr ps => _ ← write "("; _ ← eachWith " OR " renderPredicate true ps; write ")"
  | PNot q => _ ← write "NOT "; renderPredicate q
  | PExists r on q =>   (* renderExists *)
      s ← gets scope;
      if negb (bool_decide (s = "")) then fail ErrUnsupportedExpr
      else
        _ ← modify (fun b => set_exists (S (bexists b)) b);
        n ← gets bexists;
        let alias := "x" +:+ pretty n in
        _ ← write ("EXISTS (SELECT 1 FROM " +:+ qtable r +:+ " AS " +:+ qident alias +:+ " WHERE ");
        _ ← renderOn alias on (is_pnil q) (renderPredicate q);
        write ")"
  end.

Definition validate (p : Predicate) : M unit :=
  maxIN ← gets maxINCardinality;
  liftR (ValidatePredicateWithMaxINCardinality p maxIN).

(** ** Read chains *)

Record join_node : Type := mkJoin {
  JRight : RelationRef;
  JAlias : string;
  JOn : list JoinPair;
  JPredicate : Predicate;
}.

Record selectCtx : Type := mkCtx {
  from : string;
  scanAlias : string;
  joins : list join_node;
  wherePreds : list Predicate;
  cols : list ProjectItem;
  order : list OrderTerm;
  groupBy : list string;
  aggregates : list AggCall;
  having : Predicate;
  climit : Z;
  coffset : Z;
  hasLimit : bool;
  distinct : bool;
  rank : nat;
}.

Definition emptyCtx : selectCtx := mkCtx "" "" [] [] [] [] [] [] PNil (-1) 0 false false 0.

Definition rankOf (e : Expr) : nat * bool :=
  match e with
  | EJoin _ _ _ _ _ => (1%nat, true)
  | ESelect _ _ => (2%nat, true)
  | EAggregate _ _ _ => (3%nat, false)
  | EHaving _ _ => (4%nat, false)
  | ESort _ _ => (5%nat, false)
  | EProject _ _ => (6%nat, false)
  | EDistinct _ => (7%nat, false)
  | ELimit _ _ _ => (8%nat, false)
  | _ => (0%nat, false)
  end.

Definition checkLimit (count offset : Z) : result unit :=
  if (count <? 1) || (offset <? 0) then Err ErrLimit else Ok tt.

Definition is_scan (e : Expr) : bool := match e with EScan _ _ => true | _ => false end.
Definition is_aggregate (e : Expr) : bool := match e with EAggregate _ _ _ => true | _ => false end.

(** flatten's rank check, once the node is flattened into [ctx]. *)
Definition ranked (e : Expr) (ctx : selectCtx) : M selectCtx :=
  let '(r, repeats) := rankOf e in
  if negb (is_scan e) && ((r <? rank ctx)%nat || (rank ctx =? r)%nat && negb repeats)
  then fail ErrUnsupportedExpr
  else mret (mkCtx (from ctx) (scanAlias ctx) (joins ctx) (wherePreds ctx) (cols ctx) (order ctx) (groupBy ctx)
               (aggregates ctx) (having ctx) (climit ctx) (coffset ctx) (hasLimit ctx) (distinct ctx) r).

(** flatten, with flattenNode, flattenHaving and flattenJoin (each calls it
    on its node's input). *)
Fixpoint flatten (e : Expr) (c : selectCtx) : M selectCtx :=
  match e with
  | EScan r alias =>
      ranked e (mkCtx (qtable r) alias (joins c) (wherePreds c) (cols c) (order c) (groupBy c) (aggregates c)
                  (having c) (climit c) (coffset c) (hasLimit c) (distinct c) (rank c))
  | ESelect i p =>
      if is_pnil p then fail ErrUnsupportedExpr
      else
        c ← flatten i c;
        ranked e (mkCtx (from c) (scanAlias c) (joins c) (wherePreds c ++ [p]) (cols c) (order c) (groupBy c)
                    (aggregates c) (having c) (climit c) (coffset c) (hasLimit c) (distinct c) (rank c))
  | EProject i items =>
      c ← flatten i c;
      if negb (length (aggregates c) =? 0)%nat || negb (length (groupBy c) =? 0)%nat then fail ErrUnsupportedExpr
      else ranked e (mkCtx (from c) (scanAlias c) (joins c) (wherePreds c) items (order c) (groupBy c)
                       (aggregates c) (having c) (climit c) (coffset c) (hasLimit c) (distinct c) (rank c))
  | ESort i orderBy =>
      c ← flatten i c;
      ranked e (mkCtx (from c) (scanAlias c) (joins c) (wherePreds c) (cols c) orderBy (groupBy c)
                  (aggregates c) (having c) (climit c) (coffset c) (hasLimit c) (distinct c) (rank c))
  | ELimit i count offset =>
      _ ← liftR (checkLimit count offset);
      c ← flatten i c;
      ranked e (mkCtx (from c) (scanAlias c) (joins c) (wherePreds c) (cols c) (order c) (groupBy c)
                  (aggregates c) (having c) count offset true (distinct c) (rank c))
  | EDistinct i =>
      c ← flatten i c;
      ranked e (mkCtx (from c) (scanAlias c) (joins c) (wherePreds c) (cols c) (order c) (groupBy c)
                  (aggregates c) (having c) (climit c) (coffset c) (hasLimit c) true (rank c))
  | EAggregate i keys aggs =>
      c ← flatten i c;
      ranked e (mkCtx (from c) (scanAlias c) (joins c) (wherePreds c) (cols c) (order c) keys
                  aggs (having c) (climit c) (coffset c) (hasLimit c) (distinct c) (rank c))
  | EHaving i p =>
      if negb (is_aggregate i) || is_pnil p then fail ErrUnsupportedExpr
      else
        c ← flatten i c;
        ranked e (mkCtx (from c) (scanAlias c) (joins c) (wherePreds c) (cols c) (order c) (groupBy c)
                    (aggregates c) p (climit c) (coffset c) (hasLimit c) (distinct c) (rank c))
  | EJoin i rightRef alias on p =>
      if bool_decide (alias = "") || bool_decide (alias = "_") || (length on =? 0)%nat then fail ErrUnsupportedExpr
      else
        c ← flatten i c;
        joined ← gets bjoins;
        if bool_decide (alias ∈ joined) then fail ErrUnsupportedExpr
        else
          _ ← modify (fun b => set_joins ({[alias]} ∪ bjoins b) b);
          ranked e (mkCtx (from c) (scanAlias c) (joins c ++ [mkJoin rightRef alias on p]) (wherePreds c) (cols c)
                      (order c) (groupBy c) (aggregates c) (having c) (climit c) (coffset c) (hasLimit c)
                      (distinct c) (rank c))
  | _ => fail ErrUnsupportedExpr
  end.

Definition rootAlias : string := "_".

Definition qualify (ctx : selectCtx) : M unit :=
  let nested := (0 <? length (joins ctx))%nat || HasExists (having ctx) || existsb HasExists (wherePreds ctx) in
  if negb nested then mret tt
  else modify (set_root (if decide (scanAlias ctx = "") then rootAlias else scanAlias ctx)).

(** strings.ToUpper of a valid function *)
Definition upperFunc (f : AggFunc) : string :=
  match f with
  | AggCount => "COUNT" | AggSum => "SUM" | AggAvg => "AVG" | AggMin => "MIN" | AggMax => "MAX"
  | AggOther s => s
  end.

Definition renderAggregateCall (b : builder) (a : AggCall) : result string :=
  if negb (AggFunc_Valid (AggFn a)) then Err ErrInvalidAggFunc
  else
    field ← (if negb (bool_decide (AggField a = "")) then Ok (col b (AggField a))
             else if negb (bool_decide (AggFn a = AggCount)) then Err ErrInvalidAggFunc else Ok "*"%string);
    let field := if AggDistinct a then "DISTINCT " +:+ field else field in
    Ok (upperFunc (AggFn a) +:+ "(" +:+ field +:+ ")").

Definition renderAggregateCols (b : builder) (ctx : selectCtx) : result string :=
  calls ← mapM (renderAggregateCall b) (aggregates ctx);
  Ok (commas ((col b <$> groupBy ctx) ++ calls)).

Definition writeSelectClause (ctx : selectCtx) : M unit :=
  _ ← write "SELECT ";
  _ ← (if distinct ctx then write "DISTINCT " else mret tt);
  if negb (length (aggregates ctx) =? 0)%nat || negb (length (groupBy ctx) =? 0)%nat then
    r ← gets (fun b => renderAggregateCols b ctx);
    s ← liftR r;
    write s
  else if negb (length (cols ctx) =? 0)%nat then s ← gets (fun b => renderCols b (cols ctx)); write s
  else if negb (length (joins ctx) =? 0)%nat then r ← gets root; write (qident r +:+ ".*")
  else write "*".

Definition writeJoin (j : join_node) : M unit :=
  _ ← validate (JPredicate j);
  _ ← write (" LEFT JOIN " +:+ qtable (JRight j) +:+ " AS " +:+ qident (JAlias j) +:+ " ON ");
  renderOn (JAlias j) (JOn j) (is_pnil (JPredicate j)) (renderPredicate (JPredicate j)).

Fixpoint each {A} (f : A -> M unit) (l : list A) : M unit :=
  match l with [] => mret tt | x :: l => _ ← f x; each f l end.

Definition writeFromClause (ctx : selectCtx) : M unit :=
  _ ← write (" FROM " +:+ from ctx);
  r ← gets root;
  let alias := if decide (scanAlias ctx = "") then r else scanAlias ctx in
  _ ← (if decide (alias = "") then mret tt else write (" AS " +:+ qident alias));
  each writeJoin (joins ctx).

Definition writeWhereClause (ctx : selectCtx) : M unit :=
  match wherePreds ctx with
  | [] => mret tt
  | [p] => _ ← write " WHERE "; renderPredicate p
  | ps => _ ← write " WHERE "; renderPredicate (PAnd ps)
  end.

Definition writeGroupByClause (ctx : selectCtx) : M unit :=
  if (length (groupBy ctx) =? 0)%nat then mret tt
  else s ← gets (fun b => renderColumns b (groupBy ctx)); write (" GROUP BY " +:+ s).

Definition writeHavingClause (ctx : selectCtx) : M unit :=
  if is_pnil (having ctx) then mret tt else _ ← write " HAVING "; renderPredicate (having ctx).

Definition writeOrderTerm (t : OrderTerm) : M unit :=
  c ← gets (fun b => column b (TermField t));
  _ ← (if TermNullable t && negb (OrdersNullsLast d)
       then write ("CASE WHEN " +:+ c +:+ " IS NULL THEN 1 ELSE 0 END, ") else mret tt);
  _ ← write c;
  _ ← write (if is_desc (TermDir t) then " DESC" else " ASC");
  if TermNullable t && OrdersNullsLast d then write " NULLS LAST" else mret tt.

Definition writeOrderByClause (ctx : selectCtx) : M unit :=
  if (length (order ctx) =? 0)%nat then mret tt
  else _ ← write " ORDER BY "; eachWith ", " writeOrderTerm true (order ctx).

(** The outputs of the named calls, a later one of a name replacing it. *)
Fixpoint namedOutputs (b : builder) (aggs : list AggCall) (out : gmap string string) : result (gmap string string) :=
  match aggs with
  | [] => Ok out
  | a :: aggs =>
      if decide (AggName a = "") then namedOutputs b aggs out
      else expr ← renderAggregateCall b a; namedOutputs b aggs (<[AggName a := expr]> out)
  end.

Definition withOutputs (ctx : selectCtx) (fn : M unit) : M unit :=
  if (length (aggregates ctx) =? 0)%nat then fn
  else
    r ← gets (fun b => namedOutputs b (aggregates ctx) ∅);
    out ← liftR r;
    _ ← modify (set_outputs out);
    _ ← fn;
    modify (set_outputs ∅).

Definition limitClause (limit offset : Z) : string :=
  if limit <? 1 then ""
  else " LIMIT " +:+ pretty limit +:+ (if 0 <? offset then " OFFSET " +:+ pretty offset else "").

(** The clauses of a SELECT before its LIMIT. *)
Definition writeClauses (ctx : selectCtx) : M unit :=
  _ ← each validate (wherePreds ctx ++ [having ctx]);
  _ ← qualify ctx;
  _ ← writeSelectClause ctx;
  _ ← writeFromClause ctx;
  _ ← writeWhereClause ctx;
  _ ← writeGroupByClause ctx;
  withOutputs ctx (_ ← writeHavingClause ctx; writeOrderByClause ctx).

Definition renderSelect (e : Expr) : M unit :=
  ctx ← flatten e emptyCtx;
  _ ← writeClauses ctx;
  _ ← modify (fun b => set_cap (bsql b) (if hasLimit ctx then climit ctx else bcapLimit b)
                         (if hasLimit ctx then coffset ctx else bcapOffset b) b);
  clause ← gets (fun b => limitClause (bcapLimit b) (bcapOffset b));
  write clause.

(** ** Writes and calls *)

Definition renderTuple (tup : Tuple) : M unit :=
  _ ← write "("; _ ← eachWith ", " bindArg true tup; write ")".

Definition renderInsert (target : RelationRef) (columns : list string) (tuples : list Tuple) : M unit :=
  if (length columns =? 0)%nat || (length tuples =? 0)%nat then fail ErrInsertShape
  else if negb (forallb (fun tup => length tup =? length columns)%nat tuples) then fail ErrInsertShape
  else
    _ ← write ("INSERT INTO " +:+ qtable target +:+ " (" +:+ renderFieldList columns +:+ ")" +:+ " VALUES ");
    _ ← eachWith ", " renderTuple true tuples;
    ret ← gets returningCols;
    if (length ret =? 0)%nat then mret tt else write (" RETURNING " +:+ renderFieldList ret).

Definition renderWhere (p : Predicate) : M unit :=
  _ ← validate p; _ ← write " WHERE "; renderPredicate p.

Definition renderSet (s : SetItem) : M unit :=
  _ ← write (qident (SetField s) +:+ " = "); bindArg (SetValue s).

Definition renderUpdate (target : RelationRef) (p : Predicate) (set : list SetItem) : M unit :=
  if (length set =? 0)%nat || is_pnil p then fail ErrUnboundedWrite
  else
    _ ← write ("UPDATE " +:+ qtable target +:+ " SET ");
    _ ← eachWith ", " renderSet true set;
    renderWhere p.

Definition renderDelete (target : RelationRef) (p : Predicate) : M unit :=
  if is_pnil p then fail ErrUnboundedWrite
  else _ ← write ("DELETE FROM " +:+ qtable target); renderWhere p.

Definition renderCall (procedure : RelationRef) (args : list value) : M unit :=
  _ ← write ("CALL " +:+ qtable procedure +:+ "(");
  _ ← eachWith ", " bindArg true args;
  write ")".

Definition render (e : Expr) : M unit :=
  match e with
  | ENil => fail ErrUnsupportedExpr
  | EInsert target columns tuples => renderInsert target columns tuples
  | EUpdate target p set => renderUpdate target p set
  | EDelete target p => renderDelete target p
  | ECall procedure args => renderCall procedure args
  | _ => _ ← modify (set_readOnly true); renderSelect e
  end.

End Render.

(** ** Compile *)

Inductive SKind : Type := KindRead | KindAggregate | KindWrite | KindCall.

Fixpoint chainKind (e : Expr) (kind : SKind) : SKind :=
  let kind := if is_aggregate e then KindAggregate else kind in
  match e with
  | ESelect i _ | EProject i _ | EAggregate i _ _ | ESort i _ | ELimit i _ _
  | EDistinct i | EHaving i _ | EJoin i _ _ _ _ => chainKind i kind
  | EScan _ _ => kind
  | _ => KindWrite
  end.

Definition kindOf (e : Expr) : SKind :=
  match e with
  | EInsert _ _ _ | EUpdate _ _ _ | EDelete _ _ => KindWrite
  | ECall _ _ => KindCall
  | _ => chainKind e KindRead
  end.

(** The predicates along the chain, outermost first. *)
Fixpoint chainPredicates (e : Expr) : list Predicate :=
  match e with
  | ESelect i p => p :: chainPredicates i
  | EProject i _ | EAggregate i _ _ | ESort i _ | ELimit i _ _
  | EDistinct i | EHaving i _ | EJoin i _ _ _ _ => chainPredicates i
  | EUpdate _ p _ | EDelete _ p => [p]
  | _ => []
  end.

Definition PredicateOf (e : Expr) : Predicate :=
  match chainPredicates e with
  | [] => PNil
  | [p] => p
  | preds => PAnd (reverse preds)
  end.

Fixpoint flattenAnd (p : Predicate) : option (list Condition) :=
  match p with
  | PNil => Some []
  | PCond c => Some [c]
  | PAnd ps => conds ← mapM flattenAnd ps; Some (concat conds)
  | _ => None
  end.

(** The loop over the conditions; [seen] are the key columns matched. *)
Fixpoint keyPointLoop (pkSet : gset string) (conds : list Condition) (seen : gset string) : option (gset string) :=
  match conds with
  | [] => Some seen
  | c :: conds =>
      if negb (bool_decide (CField c ∈ pkSet)) then keyPointLoop pkSet conds seen
      else if negb (bool_decide (COp c = OpEq)) then None
      else keyPointLoop pkSet conds ({[CField c]} ∪ seen)
  end.

Definition isKeyPoint (p : Predicate) (pkCols : list string) : bool :=
  if (length pkCols =? 0)%nat then false
  else match flattenAnd p with
  | None => false
  | Some conds =>
      if (length conds <? length pkCols)%nat then false
      else match keyPointLoop (list_to_set pkCols) conds ∅ with
      | None => false
      | Some seen => (size seen =? length pkCols)%nat
      end
  end.

(** compileConfig, as the options leave it. *)
Record compileConfig : Type := mkConfig {
  pkCols : list string;
  identityKeys : list (list string);
  identitySet : bool;
  cfgMaxIN : Z;
}.

Definition defaultConfig : compileConfig := mkConfig [] [] false DefaultMaxINCardinality.

Record Compiled : Type := mkCompiled {
  CExpr : Expr;
  CKind : SKind;
  SQL : string;
  Args : list value;
  IsKeyPoint : bool;
  CPrimaryKey : list string;
  ReadOnly : bool;
  capBase : string;
  capLimit : Z;
  capOffset : Z;
}.

Definition Compile (d : Dialect) (e : Expr) (cfg : compileConfig) : result Compiled :=
  if cfgMaxIN cfg <=? 0 then Err ErrINCardinality
  else
    let returning := if enforced (Capabilities d) Returning && negb (length (pkCols cfg) =? 0)%nat
                     then pkCols cfg else [] in
    '(_, b) ← render d e (newBuilder (cfgMaxIN cfg) returning);
    let keys := if negb (identitySet cfg) && negb (length (pkCols cfg) =? 0)%nat
                then [pkCols cfg] else identityKeys cfg in
    Ok {| CExpr := e; CKind := kindOf e; SQL := bsql b; Args := bargs b;
          IsKeyPoint := existsb (isKeyPoint (PredicateOf e)) keys;
          CPrimaryKey := pkCols cfg; ReadOnly := readOnly b;
          capBase := bcapBase b; capLimit := bcapLimit b; capOffset := bcapOffset b |}.

Definition CapRows (c : Compiled) (n : Z) : Compiled * bool :=
  if bool_decide (capBase c = "") || (n <? 1)
     || negb (bool_decide (SQL c = capBase c +:+ limitClause (capLimit c) (capOffset c)))
  then (c, false)
  else if (1 <=? capLimit c) && (capLimit c <=? n) then (c, true)
  else (mkCompiled (CExpr c) (CKind c) (capBase c +:+ limitClause n (capOffset c)) (Args c) (IsKeyPoint c)
          (CPrimaryKey c) (ReadOnly c) (capBase c) n (capOffset c), true).

Definition demoPlan : Expr :=
  ELimit (ESort (ESelect (EScan (mkRef "" "orders") "")
    (PAnd [PCond (mkCond "tenant" OpEq (VString "acme")); PCond (mkCond "id" OpIn (VList [VInt KInt 1; VInt KInt 2]))]))
    [mkTerm "id" "desc" true]) 10 0.

Example demo_sql :
  (fun c => (SQL c, Args c)) <$> Compile mysql demoPlan defaultConfig =
  Ok ("SELECT * FROM `orders` WHERE (`tenant` = ? AND `id` IN (?, ?)) ORDER BY CASE WHEN `id` IS NULL THEN 1 ELSE 0 END, `id` DESC LIMIT 10"%string,
      [VString "acme"; VInt KInt 1; VInt KInt 2]).
Proof. vm_compute. reflexivity. Qed.
