(* ===== verification/CodegenFacts.v ===== *)
(** Lemmas on SQL generation: rendering commutes with changing the bound
    values, every placeholder is numbered by its argument, and a read chain is
    flattened into a SELECT without loss. *)

From S2P Require Import Prelude GoString Value Relalg Interp InterpFacts Dialect Codegen.

(** ** Values are parameters *)

(** A plan with every value a statement binds replaced by [f]. *)
Section Substitution.
Context (f : value -> value).

Definition substCond (c : Condition) : Condition :=
  {| CField := CField c; COp := COp c;
     CValue := match COp c with
               | OpIsNull | OpIsNotNull => CValue c
               | OpIn | OpNotIn => match CValue c with VList l => VList (map f l) | v => v end
               | _ => f (CValue c)
               end |}.

Fixpoint substPred (p : Predicate) : Predicate :=
  match p with
  | PNil => PNil
  | PCond c => PCond (substCond c)
  | PAnd ps => PAnd (map substPred ps)
  | POr ps => POr (map substPred ps)
  | PNot q => PNot (substPred q)
  | PExists r on q => PExists r on (substPred q)
  end.

Fixpoint substExpr (e : Expr) : Expr :=
  match e with
  | ENil => ENil
  | EScan r a => EScan r a
  | ESelect i p => ESelect (substExpr i) (substPred p)
  | EProject i items => EProject (substExpr i) items
  | EAggregate i keys aggs => EAggregate (substExpr i) keys aggs
  | ESort i o => ESort (substExpr i) o
  | ELimit i n o => ELimit (substExpr i) n o
  | EJoin i r a on p => EJoin (substExpr i) r a on (substPred p)
  | EHaving i p => EHaving (substExpr i) (substPred p)
  | EDistinct i => EDistinct (substExpr i)
  | EInsert t columns tuples => EInsert t columns (map (map f) tuples)
  | EUpdate t p set => EUpdate t (substPred p) (map (fun s => mkSet (SetField s) (f (SetValue s))) set)
  | EDelete t p => EDelete t (substPred p)
  | ECall t args => ECall t (map f args)
  end.

Definition substJoin (j : join_node) : join_node := mkJoin (JRight j) (JAlias j) (JOn j) (substPred (JPredicate j)).

Definition substCtx (c : selectCtx) : selectCtx :=
  mkCtx (from c) (scanAlias c) (map substJoin (joins c)) (map substPred (wherePreds c)) (cols c) (order c) (groupBy c)
    (aggregates c) (substPred (having c)) (climit c) (coffset c) (hasLimit c) (distinct c) (rank c).

Definition substB (b : builder) : builder := set_args (map f (bargs b)) (ph b) b.

Lemma is_pnil_subst p : is_pnil (substPred p) = is_pnil p.
Proof. by destruct p. Qed.

Lemma HasExists_subst p : HasExists (substPred p) = HasExists p.
Proof.
  induction p as [| |ps IH|ps IH| |] using Predicate_ind'; simpl; try done;
    induction IH as [|q ps Hq _ IH2]; simpl; [done|by rewrite Hq, IH2|done|by rewrite Hq, IH2].
Qed.

Lemma existsb_HasExists_subst ps : existsb HasExists (map substPred ps) = existsb HasExists ps.
Proof. induction ps; simpl; [done|]. by rewrite HasExists_subst, IHps. Qed.

Lemma validateEach_subst v v' ps :
  Forall (fun p => v' (substPred p) = v p) ps -> validateEach v' (map substPred ps) = validateEach v ps.
Proof.
  induction 1 as [|p ps Hp _ IH]; simpl; [done|]. by rewrite is_pnil_subst, Hp, IH.
Qed.

Lemma validateWith_subst maxIN p : validateWith maxIN (substPred p) = validateWith maxIN p.
Proof.
  induction p as [|c|ps IH|ps IH|p IH|r on p IH] using Predicate_ind'; simpl.
  - done.
  - unfold validateCondition, substCond. simpl. destruct (COp c); simpl; try done.
    all: destruct (CValue c); simpl; by rewrite ?length_map.
  - unfold validatePredicateList. rewrite length_map. by rewrite (validateEach_subst (validateWith maxIN) (validateWith maxIN)).
  - unfold validatePredicateList. rewrite length_map. by rewrite (validateEach_subst (validateWith maxIN) (validateWith maxIN)).
  - by rewrite is_pnil_subst, IH.
  - by rewrite HasExists_subst, IH.
Qed.

Lemma Validate_subst p maxIN :
  ValidatePredicateWithMaxINCardinality (substPred p) maxIN = ValidatePredicateWithMaxINCardinality p maxIN.
Proof. unfold ValidatePredicateWithMaxINCardinality. by rewrite validateWith_subst. Qed.

(** [m'] runs as [m] does, on the substituted arguments. *)
Definition sim {A B} (g : A -> B) (m : M A) (m' : M B) : Prop :=
  forall b, m' (substB b) = match m b with Ok (a, b') => Ok (g a, substB b') | Err e => Err e end.

Lemma sim_bind {A B A' B'} (g : A -> A') (h : B -> B') (m : M A) (m' : M A') (k : A -> M B) (k' : A' -> M B') :
  sim g m m' -> (forall a, sim h (k a) (k' (g a))) -> sim h (m ≫= k) (m' ≫= k').
Proof.
  intros Hm Hk b. unfold mbind, M_bind. rewrite Hm. destruct (m b) as [[a b']|]; [apply Hk|done].
Qed.

Lemma sim_ret {A B} (g : A -> B) a : sim g (mret a) (mret (g a)).
Proof. done. Qed.

Lemma sim_fail {A B} (g : A -> B) e : sim g (fail e) (fail e).
Proof. done. Qed.

Lemma sim_write s : sim id (write s) (write s).
Proof. done. Qed.

Lemma sim_gets {A} (h : builder -> A) : (forall b, h (substB b) = h b) -> sim id (gets h) (gets h).
Proof. intros Hh b. unfold gets. by rewrite Hh. Qed.

Lemma sim_modify h : (forall b, h (substB b) = substB (h b)) -> sim id (modify h) (modify h).
Proof. intros Hh b. unfold modify. by rewrite Hh. Qed.

Lemma sim_liftR {A} (r : result A) : sim id (liftR r) (liftR r).
Proof. intros b. unfold liftR. by destruct r. Qed.

Lemma sim_if {A B} (g : A -> B) (c : bool) m1 m2 m1' m2' :
  sim g m1 m1' -> sim g m2 m2' -> sim g (if c then m1 else m2) (if c then m1' else m2').
Proof. by destruct c. Qed.

Lemma sim_eachWith {A B} (g : A -> B) sep (h : A -> M unit) (h' : B -> M unit) first l :
  Forall (fun x => sim id (h x) (h' (g x))) l ->
  sim id (eachWith sep h first l) (eachWith sep h' first (map g l)).
Proof.
  intros Hl. revert first. induction Hl as [|x l Hx _ IH]; intros first; simpl; [apply sim_ret|].
  apply (sim_bind id); [destruct first; [apply sim_ret|apply sim_write]|intros []].
  apply (sim_bind id); [done|]. intros []. apply IH.
Qed.

Lemma sim_each {A B} (g : A -> B) (h : A -> M unit) (h' : B -> M unit) l :
  (forall x, sim id (h x) (h' (g x))) -> sim id (each h l) (each h' (map g l)).
Proof.
  intros Hx. induction l as [|x l IH]; simpl; [apply sim_ret|].
  apply (sim_bind id); [apply Hx|]. by intros [].
Qed.

Context (d : Dialect).

Lemma sim_bindArg v : sim id (bindArg d v) (bindArg d (f v)).
Proof.
  intros b. unfold bindArg, mbind, M_bind, gets, write, modify, substB, set_args, set_sql. simpl.
  by rewrite map_app.
Qed.

End Substitution.

#[export] Hint Resolve sim_ret sim_fail sim_write sim_liftR sim_bindArg sim_if sim_eachWith : sqlmcp.

(** One bind of a simulation: the first action first. *)
Ltac sim_step :=
  apply (sim_bind _ id); [first [apply sim_write | apply sim_ret | apply sim_liftR | apply sim_bindArg
                                | apply sim_gets; done | apply sim_modify; done | auto with sqlmcp]|].

Section SubstRender.
Context (f : value -> value) (d : Dialect).

Lemma sim_renderCondition c : sim f id (renderCondition d c) (renderCondition d (substCond f c)).
Proof.
  unfold renderCondition, substCond. cbn [CField COp CValue]. sim_step. intros name. sim_step. intros [].
  destruct (COp c); try (sim_step; intros []; apply sim_bindArg); try apply sim_write.
  all: destruct (CValue c); try (intros b; done).
  all: cbn [toValues]; apply (sim_bind f (map f)); [done|]; intros vals; sim_step; intros maxIN;
    rewrite length_map; apply sim_if; [apply sim_fail|]; apply sim_if; [apply sim_fail|];
    apply (sim_bind f id); [apply sim_if; [apply sim_write|apply (sim_ret f id)]|intros []];
    sim_step; intros []; apply (sim_bind f id); [|intros []; apply sim_write];
    apply sim_eachWith, Forall_true; intros; apply sim_bindArg.
Qed.

Lemma sim_renderOn alias on n rp rp' :
  sim f id rp rp' -> sim f id (renderOn d alias on n rp) (renderOn d alias on n rp').
Proof.
  intros Hrp. unfold renderOn. sim_step. intros parts. sim_step. intros [].
  apply sim_if; [apply (sim_ret f id)|]. sim_step. intros []. sim_step. intros outer. sim_step. intros [].
  apply (sim_bind f id); [done|]. intros []. by apply sim_modify.
Qed.

Lemma sim_renderPredicate p : sim f id (renderPredicate d p) (renderPredicate d (substPred f p)).
Proof.
  induction p as [|c|ps IH|ps IH|p IH|r on p IH] using Predicate_ind'; cbn [renderPredicate substPred].
  - apply (sim_ret f id).
  - apply sim_renderCondition.
  - sim_step. intros []. apply (sim_bind f id); [by apply sim_eachWith|intros []; apply sim_write].
  - sim_step. intros []. apply (sim_bind f id); [by apply sim_eachWith|intros []; apply sim_write].
  - sim_step. intros []. done.
  - sim_step. intros s. apply sim_if; [apply sim_fail|]. sim_step. intros []. sim_step. intros n. sim_step.
    intros []. rewrite is_pnil_subst. apply (sim_bind f id); [by apply sim_renderOn|intros []; apply sim_write].
Qed.

Lemma sim_validate p : sim f id (validate p) (validate (substPred f p)).
Proof. unfold validate. sim_step. intros maxIN. rewrite Validate_subst. apply sim_liftR. Qed.

Lemma substExpr_scan e : is_scan (substExpr f e) = is_scan e.
Proof. by destruct e. Qed.

Lemma substExpr_aggregate e : is_aggregate (substExpr f e) = is_aggregate e.
Proof. by destruct e. Qed.

Lemma rankOf_subst e : rankOf (substExpr f e) = rankOf e.
Proof. by destruct e. Qed.

Lemma sim_ranked e c c' :
  c' = substCtx f c -> sim f (substCtx f) (ranked e c) (ranked (substExpr f e) c').
Proof.
  intros ->. unfold ranked. rewrite rankOf_subst, substExpr_scan. destruct (rankOf e) as [r rep]. simpl rank.
  apply sim_if; [apply sim_fail|]. done.
Qed.

Lemma sim_flatten e : forall c, sim f (substCtx f) (flatten d e c) (flatten d (substExpr f e) (substCtx f c)).
Proof.
  induction e; intros c; cbn [flatten substExpr]; rewrite ?is_pnil_subst; try apply sim_fail.
  - apply (sim_ranked (EScan r alias)). done.
  - apply sim_if; [apply sim_fail|]. apply (sim_bind f (substCtx f)); [apply IHe|]. intros c'.
    apply (sim_ranked (ESelect e p)). unfold substCtx. simpl. by rewrite map_app.
  - apply (sim_bind f (substCtx f)); [apply IHe|]. intros c'. simpl aggregates. simpl groupBy.
    apply sim_if; [apply sim_fail|]. by apply (sim_ranked (EProject e items)).
  - apply (sim_bind f (substCtx f)); [apply IHe|]. intros c'. by apply (sim_ranked (EAggregate e groupBy aggs)).
  - apply (sim_bind f (substCtx f)); [apply IHe|]. intros c'. by apply (sim_ranked (ESort e orderBy)).
  - sim_step. intros []. apply (sim_bind f (substCtx f)); [apply IHe|]. intros c'.
    by apply (sim_ranked (ELimit e count offset)).
  - apply sim_if; [apply sim_fail|]. apply (sim_bind f (substCtx f)); [apply IHe|]. intros c'. sim_step.
    intros joined. apply sim_if; [apply sim_fail|]. sim_step. intros [].
    apply (sim_ranked (EJoin e right alias on rightPredicate)). unfold substCtx. simpl. by rewrite map_app.
  - rewrite substExpr_aggregate. apply sim_if; [apply sim_fail|].
    apply (sim_bind f (substCtx f)); [apply IHe|]. intros c'. by apply (sim_ranked (EHaving e p)).
  - apply (sim_bind f (substCtx f)); [apply IHe|]. intros c'. by apply (sim_ranked (EDistinct e)).
Qed.

Lemma sim_qualify c : sim f id (qualify c) (qualify (substCtx f c)).
Proof.
  unfold qualify. simpl. rewrite length_map, HasExists_subst, existsb_HasExists_subst.
  apply sim_if; [apply (sim_ret f id)|]. by apply sim_modify.
Qed.

Lemma sim_writeSelectClause c : sim f id (writeSelectClause d c) (writeSelectClause d (substCtx f c)).
Proof.
  unfold writeSelectClause. simpl. sim_step. intros [].
  apply (sim_bind f id); [apply sim_if; [apply sim_write|apply (sim_ret f id)]|intros []].
  apply sim_if; [|rewrite length_map; repeat apply sim_if]; repeat (sim_step; intros ?); apply sim_write.
Qed.

Lemma sim_writeFromClause c : sim f id (writeFromClause d c) (writeFromClause d (substCtx f c)).
Proof.
  unfold writeFromClause. simpl. sim_step. intros []. sim_step. intros r. change (id r) with r.
  apply (sim_bind f id); [case_decide; [apply (sim_ret f id)|apply sim_write]|intros []].
  apply sim_each. intros j. unfold writeJoin. simpl. apply (sim_bind f id); [apply sim_validate|intros []].
  sim_step. intros []. rewrite is_pnil_subst. apply sim_renderOn, sim_renderPredicate.
Qed.

Lemma sim_writeWhereClause c : sim f id (writeWhereClause d c) (writeWhereClause d (substCtx f c)).
Proof.
  unfold writeWhereClause. simpl. destruct (wherePreds c) as [|p [|q ps]]; simpl map; [apply (sim_ret f id)|..].
  - sim_step. intros []. apply sim_renderPredicate.
  - sim_step. intros []. apply (sim_renderPredicate (PAnd (p :: q :: ps))).
Qed.

Lemma namedOutputs_subst b aggs out : namedOutputs d (substB f b) aggs out = namedOutputs d b aggs out.
Proof.
  revert out. induction aggs as [|a aggs IH]; intros out; simpl; [done|]. case_decide; [done|].
  change (renderAggregateCall d (substB f b) a) with (renderAggregateCall d b a).
  destruct (renderAggregateCall d b a); [apply IH|done].
Qed.

Lemma sim_withOutputs c fn fn' :
  sim f id fn fn' -> sim f id (withOutputs d c fn) (withOutputs d (substCtx f c) fn').
Proof.
  intros Hfn. unfold withOutputs. simpl. apply sim_if; [done|].
  apply (sim_bind f id); [apply sim_gets; intros; apply namedOutputs_subst|]. intros r. sim_step. intros out.
  sim_step. intros []. apply (sim_bind f id); [done|]. intros []. by apply sim_modify.
Qed.

Lemma sim_writeHavingClause c : sim f id (writeHavingClause d c) (writeHavingClause d (substCtx f c)).
Proof.
  unfold writeHavingClause. simpl. rewrite is_pnil_subst. apply sim_if; [apply (sim_ret f id)|].
  sim_step. intros []. apply sim_renderPredicate.
Qed.

Lemma sim_writeOrderTerm t : sim f id (writeOrderTerm d t) (writeOrderTerm d t).
Proof.
  unfold writeOrderTerm. sim_step. intros c.
  apply (sim_bind f id); [apply sim_if; [apply sim_write|apply (sim_ret f id)]|intros []].
  sim_step. intros []. sim_step. intros []. apply sim_if; [apply sim_write|apply (sim_ret f id)].
Qed.

Lemma sim_writeOrderByClause c : sim f id (writeOrderByClause d c) (writeOrderByClause d (substCtx f c)).
Proof.
  unfold writeOrderByClause. simpl. apply sim_if; [apply (sim_ret f id)|]. sim_step. intros [].
  rewrite <- (map_id (order c)) at 2. apply sim_eachWith, Forall_true. intros t. apply sim_writeOrderTerm.
Qed.

Lemma sim_writeClauses c : sim f id (writeClauses d c) (writeClauses d (substCtx f c)).
Proof.
  unfold writeClauses. simpl wherePreds. simpl having.
  change [substPred f (having c)] with (map (substPred f) [having c]). rewrite <- map_app.
  apply (sim_bind f id); [apply sim_each; intros; apply sim_validate|intros []].
  apply (sim_bind f id); [apply sim_qualify|intros []].
  apply (sim_bind f id); [apply sim_writeSelectClause|intros []].
  apply (sim_bind f id); [apply sim_writeFromClause|intros []].
  apply (sim_bind f id); [apply sim_writeWhereClause|intros []].
  apply (sim_bind f id).
  { unfold writeGroupByClause. simpl. apply sim_if; [apply (sim_ret f id)|]. sim_step. intros s. apply sim_write. }
  intros []. apply sim_withOutputs. apply (sim_bind f id); [apply sim_writeHavingClause|intros []].
  apply sim_writeOrderByClause.
Qed.

Lemma sim_renderSelect e : sim f id (renderSelect d e) (renderSelect d (substExpr f e)).
Proof.
  unfold renderSelect. apply (sim_bind f (substCtx f)); [apply (sim_flatten e emptyCtx)|]. intros c.
  apply (sim_bind f id); [apply sim_writeClauses|intros []]. simpl. sim_step. intros []. sim_step.
  intros clause. apply sim_write.
Qed.

Lemma forallb_length_map {A} (h : A -> A) n (l : list (list A)) :
  forallb (fun t => length t =? n)%nat (map (map h) l) = forallb (fun t => length t =? n)%nat l.
Proof. induction l; simpl; [done|]. by rewrite length_map, IHl. Qed.

Lemma sim_renderWhere p : sim f id (renderWhere d p) (renderWhere d (substPred f p)).
Proof.
  unfold renderWhere. apply (sim_bind f id); [apply sim_validate|intros []]. sim_step. intros [].
  apply sim_renderPredicate.
Qed.

Lemma sim_render e : sim f id (render d e) (render d (substExpr f e)).
Proof.
  destruct e; cbn [render substExpr];
    try (sim_step; intros []; match goal with |- sim _ _ (renderSelect _ ?e) _ => apply (sim_renderSelect e) end).
  - apply sim_fail.
  - unfold renderInsert. rewrite length_map, forallb_length_map. repeat (apply sim_if; [apply sim_fail|]).
    sim_step. intros []. apply (sim_bind f id).
    { apply sim_eachWith, Forall_true. intros tup. unfold renderTuple. sim_step. intros [].
      apply (sim_bind f id); [|intros []; apply sim_write]. apply sim_eachWith, Forall_true. intros. apply sim_bindArg. }
    intros []. sim_step. intros ret. apply sim_if; [apply (sim_ret f id)|apply sim_write].
  - unfold renderUpdate. rewrite length_map, is_pnil_subst. apply sim_if; [apply sim_fail|]. sim_step. intros [].
    apply (sim_bind f id); [|intros []; apply sim_renderWhere]. apply sim_eachWith, Forall_true. intros s.
    unfold renderSet. simpl. sim_step. intros []. apply sim_bindArg.
  - unfold renderDelete. rewrite is_pnil_subst. apply sim_if; [apply sim_fail|]. sim_step. intros [].
    apply sim_renderWhere.
  - unfold renderCall. sim_step. intros []. apply (sim_bind f id); [|intros []; apply sim_write].
    apply sim_eachWith, Forall_true. intros. apply sim_bindArg.
Qed.

End SubstRender.


(** * The shape of what codegen renders: placeholders in the order of their
    arguments, a read chain recovered from the SELECT it flattens into, key
    points, and the row cap as a LIMIT. *)

(** ** Placeholders *)

(** [woven d n m s]: s is text with the placeholders n, .., m-1 in order. *)
Inductive woven (d : Dialect) : nat -> nat -> string -> Prop :=
  | woven_text n s : woven d n n s
  | woven_ph n : woven d n (S n) (Placeholder d n)
  | woven_app n m k s t : woven d n m s -> woven d m k t -> woven d n k (s +:+ t).

Section Emits.
Context (d : Dialect).

(** What an action adds to the statement: text with one placeholder for each
    argument it binds. *)
Definition emits {A} (m : M A) : Prop := forall b a b', m b = Ok (a, b') ->
  exists s new, bsql b' = bsql b +:+ s /\ bargs b' = bargs b ++ new /\
    ph b' = (ph b + length new)%nat /\ woven d (ph b) (ph b') s.

Lemma emits_quiet {A} (m : M A) :
  (forall b a b', m b = Ok (a, b') -> bsql b' = bsql b /\ bargs b' = bargs b /\ ph b' = ph b) -> emits m.
Proof.
  intros Hm b a b' H. destruct (Hm _ _ _ H) as (H1 & H2 & H3). exists ""%string, [].
  rewrite string_app_nil_r, app_nil_r, Nat.add_0_r, H3. split_and!; try done. constructor.
Qed.

Lemma emits_ret {A} (a : A) : emits (mret a).
Proof. apply emits_quiet. by intros b x b' [= <- <-]. Qed.

Lemma emits_fail {A} e : emits (@fail A e).
Proof. by intros b a b'. Qed.

Lemma emits_gets {A} (h : builder -> A) : emits (gets h).
Proof. apply emits_quiet. by intros b x b' [= <- <-]. Qed.

Lemma emits_liftR {A} (r : result A) : emits (liftR r).
Proof. apply emits_quiet. unfold liftR. destruct r; by intros b x b' [= <- <-]. Qed.

Lemma emits_modify h :
  (forall b, bsql (h b) = bsql b /\ bargs (h b) = bargs b /\ ph (h b) = ph b) -> emits (modify h).
Proof. intros Hh. apply emits_quiet. intros b x b' [= <- <-]. apply Hh. Qed.

Lemma emits_write s : emits (write s).
Proof.
  intros b a b' [= <- <-]. exists s, []. simpl. rewrite app_nil_r, Nat.add_0_r. split_and!; try done. constructor.
Qed.

Lemma emits_bindArg v : emits (bindArg d v).
Proof. intros b a b' [= <- <-]. exists (Placeholder d (ph b)), [v]. simpl. split_and!; try done; [lia|constructor]. Qed.

Lemma emits_bind {A B} (m : M A) (k : A -> M B) : emits m -> (forall a, emits (k a)) -> emits (m ≫= k).
Proof.
  intros Hm Hk b a b' H. unfold mbind, M_bind in H. destruct (m b) as [[x b1]|] eqn:E; [|done].
  destruct (Hm _ _ _ E) as (s1 & n1 & H1 & H2 & H3 & H4), (Hk x _ _ _ H) as (s2 & n2 & G1 & G2 & G3 & G4).
  exists (s1 +:+ s2), (n1 ++ n2). rewrite G1, H1, G2, H2, string_app_assoc, <- app_assoc, length_app.
  split_and!; try done; [lia|]. by eapply woven_app.
Qed.

Lemma emits_if {A} (c : bool) (m1 m2 : M A) : emits m1 -> emits m2 -> emits (if c then m1 else m2).
Proof. by destruct c. Qed.

Lemma emits_eachWith {A} sep (h : A -> M unit) first l :
  Forall (fun x => emits (h x)) l -> emits (eachWith sep h first l).
Proof.
  intros Hl. revert first. induction Hl as [|x l Hx _ IH]; intros first; simpl; [apply emits_ret|].
  apply emits_bind; [destruct first; [apply emits_ret|apply emits_write]|intros _].
  apply emits_bind; [done|]. intros _. apply IH.
Qed.

Lemma emits_each {A} (h : A -> M unit) l : (forall x, emits (h x)) -> emits (each h l).
Proof. intros Hx. induction l as [|x l IH]; simpl; [apply emits_ret|]. by apply emits_bind. Qed.

End Emits.

(** Decomposes an action down to its writes. *)
Ltac emit :=
  repeat first
    [ done
    | apply emits_write | apply emits_ret | apply emits_fail | apply emits_gets | apply emits_liftR
    | apply emits_bindArg | apply emits_modify; by intros
    | apply emits_if | apply emits_eachWith, Forall_true; intros ?
    | apply emits_each; intros ? | apply emits_bind; [|intros ?] | case_decide | case_match ].

Section EmitsRender.
Context (d : Dialect).

Lemma emits_renderOn alias on n rp : emits d rp -> emits d (renderOn d alias on n rp).
Proof. intros. unfold renderOn. emit. Qed.

Lemma emits_renderPredicate p : emits d (renderPredicate d p).
Proof.
  induction p as [|c|ps IH|ps IH|p IH|r on p IH] using Predicate_ind'; cbn [renderPredicate].
  - emit.
  - unfold renderCondition. emit.
  - apply emits_bind; [emit|intros _]. apply emits_bind; [by apply emits_eachWith|intros _; emit].
  - apply emits_bind; [emit|intros _]. apply emits_bind; [by apply emits_eachWith|intros _; emit].
  - emit.
  - apply emits_bind; [emit|intros s]. apply emits_if; [emit|]. apply emits_bind; [emit|intros _].
    apply emits_bind; [emit|intros n]. apply emits_bind; [emit|intros _].
    apply emits_bind; [by apply emits_renderOn|intros _; emit].
Qed.

Lemma emits_ranked e c : emits d (ranked e c).
Proof. unfold ranked. emit. Qed.

Lemma emits_flatten e c : emits d (flatten d e c).
Proof.
  revert c. induction e; intros c; cbn [flatten]; emit; try apply emits_ranked; done.
Qed.

Lemma emits_writeClauses c : emits d (writeClauses d c).
Proof.
  unfold writeClauses, validate, qualify, writeSelectClause, writeFromClause, writeJoin, writeWhereClause,
    writeGroupByClause, withOutputs, writeHavingClause, writeOrderByClause, writeOrderTerm.
  repeat first [ apply emits_renderPredicate | apply emits_renderOn, emits_renderPredicate | progress emit ].
Qed.

Lemma emits_renderSelect e : emits d (renderSelect d e).
Proof.
  unfold renderSelect. apply emits_bind; [apply emits_flatten|intros c].
  apply emits_bind; [apply emits_writeClauses|intros _]. emit.
Qed.

Lemma emits_renderWhere p : emits d (renderWhere d p).
Proof. unfold renderWhere, validate. emit; apply emits_renderPredicate. Qed.

Lemma emits_render e : emits d (render d e).
Proof.
  destruct e; cbn [render]; try (apply emits_bind; [emit|intros _; apply emits_renderSelect]).
  - emit.
  - unfold renderInsert, renderTuple. emit.
  - unfold renderUpdate, renderSet. emit; first [apply emits_renderPredicate | apply emits_renderWhere].
  - unfold renderDelete. emit; first [apply emits_renderPredicate | apply emits_renderWhere].
  - unfold renderCall. emit.
Qed.

End EmitsRender.

(** ** Flattening loses nothing *)

(** The read chain whose clauses a context holds, in the order a SELECT
    applies them. *)
Definition recompose (rel : RelationRef) (c : selectCtx) : Expr :=
  let e := EScan rel (scanAlias c) in
  let e := foldl (fun e j => EJoin e (JRight j) (JAlias j) (JOn j) (JPredicate j)) e (joins c) in
  let e := foldl ESelect e (wherePreds c) in
  let e := match groupBy c, aggregates c with [], [] => e | keys, aggs => EAggregate e keys aggs end in
  let e := if is_pnil (having c) then e else EHaving e (having c) in
  let e := match order c with [] => e | o => ESort e o end in
  let e := match cols c with [] => e | items => EProject e items end in
  let e := if distinct c then EDistinct e else e in
  if hasLimit c then ELimit e (climit c) (coffset c) else e.

(** No node is empty: such an aggregate, order or projection leaves no clause. *)
Fixpoint substantial (e : Expr) : Prop :=
  match e with
  | EAggregate i keys aggs => (keys <> [] \/ aggs <> []) /\ substantial i
  | ESort i o => o <> [] /\ substantial i
  | EProject i items => items <> [] /\ substantial i
  | ESelect i _ | ELimit i _ _ | EJoin i _ _ _ _ | EHaving i _ | EDistinct i => substantial i
  | _ => True
  end.

(** The clauses of nodes outside rank [r] are still unset. *)
Record unset_above (r : nat) (c : selectCtx) : Prop := {
  un_joins : (r < 1 -> joins c = [])%nat;
  un_where : (r < 2 -> wherePreds c = [])%nat;
  un_group : (r < 3 -> groupBy c = [] /\ aggregates c = [])%nat;
  un_having : (r < 4 -> having c = PNil)%nat;
  un_order : (r < 5 -> order c = [])%nat;
  un_cols : (r < 6 -> cols c = [])%nat;
  un_distinct : (r < 7 -> distinct c = false)%nat;
  un_limit : (r < 8 -> hasLimit c = false)%nat;
}.

Lemma M_bind_ok {A B} (m : M A) (k : A -> M B) b y b' :
  (m ≫= k) b = Ok (y, b') -> exists a b1, m b = Ok (a, b1) /\ k a b1 = Ok (y, b').
Proof. unfold mbind, M_bind. destruct (m b) as [[a b1]|]; [eauto|done]. Qed.

Lemma ranked_ok e c b c' b' :
  ranked e c b = Ok (c', b') ->
  b' = b /\ rank c' = (rankOf e).1 /\
  (is_scan e = false -> rank c <= (rankOf e).1 /\ ((rankOf e).2 = false -> rank c <> (rankOf e).1))%nat /\
  c' = mkCtx (from c) (scanAlias c) (joins c) (wherePreds c) (cols c) (order c) (groupBy c)
         (aggregates c) (having c) (climit c) (coffset c) (hasLimit c) (distinct c) (rankOf e).1.
Proof.
  unfold ranked. destruct (rankOf e) as [r rep]. simpl.
  destruct (negb (is_scan e) && _) eqn:E; intros [= <- <-]. split_and!; try done. intros Hs. rewrite Hs in E.
  simpl in E. apply orb_false_iff in E as [E1 E2]. apply Nat.ltb_ge in E1. split; [done|]. intros ->.
  rewrite andb_true_r in E2. by apply Nat.eqb_neq in E2.
Qed.

(** One bind of a successful run. *)
Ltac inv_M :=
  repeat match goal with
  | H : (_ ≫= _) _ = Ok (_, _) |- _ =>
      let a := fresh "a" in let b1 := fresh "b1" in let E := fresh "E" in
      apply M_bind_ok in H as (a & b1 & E & H)
  | H : fail _ _ = Ok _ |- _ => discriminate H
  | H : gets _ _ = Ok _ |- _ => injection H as <- <-
  | H : modify _ _ = Ok _ |- _ => injection H as <- <-
  | H : (if ?c then fail _ else _) _ = Ok _ |- _ => let E := fresh "Ec" in destruct c eqn:E; [discriminate H|]
  | H : liftR ?r _ = Ok _ |- _ => unfold liftR in H
  end.

Section Flatten.
Context (d : Dialect).

(** A chain and the context it flattened into. *)
Definition flattened (e : Expr) (c : selectCtx) : Prop :=
  exists rel, from c = qtable d rel /\ e = recompose rel c /\ unset_above (rank c) c /\ rank c = (rankOf e).1.

(** Outside every clause set so far, a new one is the outermost node. *)
Ltac outermost :=
  match goal with H : unset_above _ ?c |- _ => destruct H; destruct c; simpl in * end;
  repeat match goal with H : (?n < ?k)%nat -> _ |- _ => first
    [ specialize (H ltac:(lia)) | clear H ] end;
  destruct_and?; subst; try done.

(** One node above a flattened input: what is left is the node itself. *)
Ltac flatten_node IH Hsub E Hf :=
  destruct (IH _ _ _ Hsub E) as (rel & Hfr & He & Hun & Hrk);
  apply ranked_ok in Hf as (-> & Hr & Hle & ->); destruct (Hle eq_refl) as [Hle1 Hle2];
  try specialize (Hle2 eq_refl); simpl in *; exists rel;
  split_and!; [done|rewrite He; clear He IH E; unfold recompose; outermost|constructor; simpl; intros; outermost; lia|done].

Lemma flatten_flattened e : forall b c b',
  substantial e -> flatten d e emptyCtx b = Ok (c, b') -> flattened e c.
Proof.
  induction e; intros b c b' Hsub Hf; cbn [flatten] in Hf; try done; simpl in Hsub.
  - apply ranked_ok in Hf as (-> & Hr & _ & ->). exists r. split_and!; [done|done| |done]. by constructor.
  - inv_M. flatten_node IHe Hsub E Hf. by rewrite foldl_snoc.
  - inv_M. destruct Hsub as [Hne Hsub]. flatten_node IHe Hsub E Hf. by destruct items.
  - inv_M. destruct Hsub as [Hne Hsub]. flatten_node IHe Hsub E Hf. destruct groupBy, aggs; naive_solver.
  - inv_M. destruct Hsub as [Hne Hsub]. flatten_node IHe Hsub E Hf. by destruct orderBy.
  - inv_M. destruct (checkLimit count offset) eqn:El; [|done]. injection E as <- <-. flatten_node IHe Hsub E0 Hf.
  - inv_M. flatten_node IHe Hsub E Hf. by rewrite foldl_snoc.
  - inv_M. apply orb_false_iff in Ec as [_ Hp]. flatten_node IHe Hsub E Hf. by rewrite Hp.
  - inv_M. flatten_node IHe Hsub E Hf.
Qed.

End Flatten.
