(* ===== verification/CodegenTheorems.v ===== *)
(** What generated SQL promises: no value reaches its text, placeholders and
    arguments match, the plan is the one asked for and validated, a key point
    reads one row, and the row cap is a LIMIT. *)

From S2P Require Import Prelude GoString Value Relalg Interp InterpFacts Dialect Codegen CodegenFacts.

(** ** Key points *)

Lemma flattenAnd_subst f p : flattenAnd (substPred f p) = map (substCond f) <$> flattenAnd p.
Proof.
  induction p as [|c|ps IH|ps IH|p IH|r on p IH] using Predicate_ind'; try done. cbn [flattenAnd substPred].
  assert (mapM flattenAnd (map (substPred f) ps) = map (map (substCond f)) <$> mapM flattenAnd ps) as ->.
  { induction IH as [|q ps Hq _ IH]; [done|]. simpl. rewrite Hq. destruct (flattenAnd q); [|done]. simpl.
    rewrite IH. by destruct (mapM flattenAnd ps). }
  destruct (mapM flattenAnd ps); [|done]. simpl. by rewrite concat_map.
Qed.

Lemma keyPointLoop_subst f pkSet conds seen :
  keyPointLoop pkSet (map (substCond f) conds) seen = keyPointLoop pkSet conds seen.
Proof.
  revert seen. induction conds as [|c conds IH]; intros seen; simpl; [done|]. rewrite !IH. done.
Qed.

Lemma isKeyPoint_subst f p key : isKeyPoint (substPred f p) key = isKeyPoint p key.
Proof.
  unfold isKeyPoint. rewrite flattenAnd_subst. destruct (flattenAnd p) as [conds|]; [|done]. simpl.
  by rewrite length_map, keyPointLoop_subst.
Qed.

Lemma existsb_isKeyPoint_subst f p keys :
  existsb (isKeyPoint (substPred f p)) keys = existsb (isKeyPoint p) keys.
Proof. induction keys as [|k keys IH]; simpl; [done|]. by rewrite isKeyPoint_subst, IH. Qed.

Lemma PredicateOf_subst f e : PredicateOf (substExpr f e) = substPred f (PredicateOf e).
Proof.
  unfold PredicateOf. assert (chainPredicates (substExpr f e) = map (substPred f) (chainPredicates e)) as ->.
  { induction e; simpl; try done. by rewrite IHe. }
  destruct (chainPredicates e) as [|p [|q ps]]; [done|done|]. simpl. f_equal.
  symmetry. apply (fmap_reverse (substPred f) (p :: q :: ps)).
Qed.

Lemma kindOf_subst f e : kindOf (substExpr f e) = kindOf e.
Proof.
  assert (forall k, chainKind (substExpr f e) k = chainKind e k) as Hk.
  { induction e; intros k; simpl; done. }
  unfold kindOf. destruct e; try done; apply (Hk KindRead).
Qed.

(** The conditions of a pure conjunction hold one by one. *)
Lemma flattenAnd_true p conds rel row :
  flattenAnd p = Some conds -> evalPredicate p rel row = Ok triTrue ->
  Forall (fun c => evalCondition rel row c = Ok triTrue) conds.
Proof.
  revert conds. induction p as [|c|ps IH|ps IH|p IH|r on p IH] using Predicate_ind'; intros conds Hf He;
    simpl in Hf; simplify_eq; [by constructor|by constructor|].
  apply evalAnd_true in He. destruct (mapM flattenAnd ps) as [cs|] eqn:Em; [|done]. simplify_eq/=.
  apply mapM_Some in Em. apply Forall_concat.
  revert cs Em. induction IH as [|q ps Hq _ IHps]; intros cs Em; inversion Em; subst; [by constructor|].
  apply Forall_cons in He as [Hq1 He]. constructor; [by apply Hq|by apply IHps].
Qed.

Lemma keyPointLoop_eq pkSet conds seen out :
  keyPointLoop pkSet conds seen = Some out ->
  forall k, k ∈ out -> k ∈ seen \/ exists c, c ∈ conds /\ CField c = k /\ COp c = OpEq.
Proof.
  revert seen. induction conds as [|c conds IH]; intros seen H k Hk; simpl in H.
  { simplify_eq. auto. }
  case_bool_decide; simpl in H.
  - case_bool_decide as Ho; simpl in H; [|done]. destruct (IH _ H k Hk) as [Hs|(c' & ? & ? & ?)].
    + apply elem_of_union in Hs as [->%elem_of_singleton|?]; [|by left]. right. exists c. set_solver.
    + right. exists c'. set_solver.
  - destruct (IH _ H k Hk) as [?|(c' & ? & ? & ?)]; [by left|]. right. exists c'. set_solver.
Qed.

Lemma keyPointLoop_subset pkSet conds seen out :
  keyPointLoop pkSet conds seen = Some out -> seen ⊆ pkSet -> out ⊆ pkSet.
Proof.
  revert seen. induction conds as [|c conds IH]; intros seen H Hs; simpl in H; [by simplify_eq|].
  case_bool_decide; simpl in H; [|by eapply IH].
  case_bool_decide; simpl in H; [|done]. eapply IH; [done|]. set_solver.
Qed.

(** Every key column is compared by equality in a key point. *)
Lemma isKeyPoint_columns p key :
  isKeyPoint p key = true ->
  exists conds, flattenAnd p = Some conds /\
    forall k, k ∈ key -> exists c, c ∈ conds /\ CField c = k /\ COp c = OpEq.
Proof.
  unfold isKeyPoint. destruct (length key =? 0)%nat; [done|]. destruct (flattenAnd p) as [conds|]; [|done].
  destruct (length conds <? length key)%nat; [done|].
  destruct (keyPointLoop _ conds ∅) as [seen|] eqn:E; [|done]. intros Hsz%Nat.eqb_eq. exists conds.
  split; [done|]. intros k Hk.
  assert (seen ⊆ list_to_set key) as Hsub by (eapply keyPointLoop_subset; [done|set_solver]).
  pose proof (size_list_to_set_le key) as Hle.
  assert (seen = list_to_set key) as Hseen by (apply set_subseteq_size_eq; [done|lia]).
  assert (k ∈ seen) as Hks by (rewrite Hseen; by apply elem_of_list_to_set).
  destruct (keyPointLoop_eq _ _ _ _ E k Hks) as [Habs|?]; [set_solver|done].
Qed.

(** No two rows agree on the key columns. *)
Definition unique_on (rel : relation) (key : list string) : Prop :=
  forall i j r1 r2, Rows rel !! i = Some r1 -> Rows rel !! j = Some r2 ->
    (forall k, k ∈ key -> exists n x y, colIndex rel k = Ok n /\ r1 !! n = Some x /\ r2 !! n = Some y /\
       compareValues x y = Ok Eq) -> i = j.

Lemma sublist_two {A} (a b : A) l k :
  (a :: b :: l) `sublist_of` k -> exists i j, (i < j)%nat /\ k !! i = Some a /\ k !! j = Some b.
Proof.
  induction k as [|x k IH]; intros H; [by apply sublist_nil_r in H|].
  apply sublist_cons_r in H as [H|(l' & Heq & H)].
  - destruct (IH H) as (i & j & ? & ? & ?). exists (S i), (S j). split; [lia|done].
  - injection Heq as <- <-. apply sublist_cons_l in H as (k1 & k2 & -> & _).
    exists 0%nat, (S (length k1)). split; [lia|]. split; [done|]. simpl. by apply list_lookup_middle.
Qed.

Lemma evalCondition_eq rel row c :
  COp c = OpEq -> evalCondition rel row c = Ok triTrue ->
  exists n x, colIndex rel (CField c) = Ok n /\ row !! n = Some x /\ compareValues x (CValue c) = Ok Eq.
Proof.
  intros Ho H. unfold evalCondition in H. inv_ok. apply index_ok in E0. exists a, a0. split_and!; try done.
  unfold evalOp in H. rewrite Ho in H. unfold evalComparison in H. case_match; [done|]. inv_ok.
  by destruct a1.
Qed.

(** ** Chains *)

(** The predicates of a plan, wherever they stand. *)
Fixpoint predicates (e : Expr) : list Predicate :=
  match e with
  | ESelect i p | EHaving i p => predicates i ++ [p]
  | EJoin i _ _ _ p => predicates i ++ [p]
  | EProject i _ | EAggregate i _ _ | ESort i _ | ELimit i _ _ | EDistinct i => predicates i
  | EUpdate _ p _ | EDelete _ p => [p]
  | _ => []
  end.

Lemma predicates_joins e js :
  predicates (foldl (fun e j => EJoin e (JRight j) (JAlias j) (JOn j) (JPredicate j)) e js) =
  predicates e ++ (JPredicate <$> js).
Proof.
  revert e. induction js as [|j js IH]; intros e; simpl; [by rewrite app_nil_r|]. rewrite IH. simpl. by rewrite <- app_assoc.
Qed.

Lemma predicates_selects e ps : predicates (foldl ESelect e ps) = predicates e ++ ps.
Proof.
  revert e. induction ps as [|p ps IH]; intros e; simpl; [by rewrite app_nil_r|]. rewrite IH. simpl. by rewrite <- app_assoc.
Qed.

Lemma predicates_recompose rel c p :
  p ∈ predicates (recompose rel c) -> p ∈ JPredicate <$> joins c \/ p ∈ wherePreds c ++ [having c].
Proof.
  unfold recompose. set (e1 := foldl _ (EScan rel (scanAlias c)) (joins c)).
  assert (predicates (foldl ESelect e1 (wherePreds c)) = (JPredicate <$> joins c) ++ wherePreds c) as He2.
  { rewrite predicates_selects. subst e1. by rewrite predicates_joins. }
  set (e2 := foldl ESelect e1 (wherePreds c)) in *. clearbody e2. intros Hp.
  assert (p ∈ (JPredicate <$> joins c) ++ wherePreds c ++ [having c]) as H.
  { revert Hp. repeat case_match; simpl; rewrite ?He2; rewrite ?elem_of_app; tauto. }
  rewrite elem_of_app in H. done.
Qed.

(** Rendering a predicate or a clause leaves the bound on IN lists, the
    recorded LIMIT and the read-only mark as they are. *)
Definition same_settings (b b' : builder) : Prop :=
  maxINCardinality b' = maxINCardinality b /\ bcapLimit b' = bcapLimit b /\ bcapOffset b' = bcapOffset b /\
  readOnly b' = readOnly b.

Definition keeps_bound {A} (m : M A) : Prop := forall b a b', m b = Ok (a, b') -> same_settings b b'.

Lemma same_settings_trans b1 b2 b3 : same_settings b1 b2 -> same_settings b2 b3 -> same_settings b1 b3.
Proof. unfold same_settings. intuition congruence. Qed.

Lemma keeps_bind {A B} (m : M A) (k : A -> M B) :
  keeps_bound m -> (forall a, keeps_bound (k a)) -> keeps_bound (m ≫= k).
Proof. intros Hm Hk b a b' H. inv_M. apply Hk in H. apply Hm in E. by eapply same_settings_trans. Qed.

Lemma keeps_eachWith {A} sep (h : A -> M unit) first l :
  Forall (fun x => keeps_bound (h x)) l -> keeps_bound (eachWith sep h first l).
Proof.
  intros Hl. revert first. induction Hl as [|x l Hx _ IH]; intros first; simpl; [by intros b a b' [= <- <-]|].
  apply keeps_bind; [destruct first; by intros b a b' [= <- <-]|intros _].
  apply keeps_bind; [done|]. intros _. apply IH.
Qed.

Lemma keeps_each {A} (h : A -> M unit) l : (forall x, keeps_bound (h x)) -> keeps_bound (each h l).
Proof. intros Hx. induction l as [|x l IH]; simpl; [by intros b a b' [= <- <-]|]. by apply keeps_bind. Qed.

Lemma keeps_prim {A} (m : M A) :
  (forall b, match m b with Ok (_, b') => same_settings b b' | Err _ => True end) -> keeps_bound m.
Proof. intros H b a b' Hm. specialize (H b). by rewrite Hm in H. Qed.

Lemma keeps_liftR {A} (r : result A) : keeps_bound (liftR r).
Proof. unfold liftR. destruct r; by intros b x b' [= <- <-]. Qed.

Ltac keep :=
  repeat first
    [ done | apply keeps_liftR
    | apply keeps_eachWith, Forall_true; intros ? | apply keeps_each; intros ?
    | apply keeps_bind; [|intros ?]
    | apply keeps_prim; intros ?; cbn; by repeat case_match
    | case_match ].

Lemma each_ok {A} (h : A -> M unit) l b y b' :
  (forall x, keeps_bound (h x)) -> each h l b = Ok (y, b') ->
  Forall (fun x => exists b1 b2, maxINCardinality b1 = maxINCardinality b /\ h x b1 = Ok (tt, b2)) l.
Proof.
  intros Hk. revert b. induction l as [|x l IH]; intros b H; simpl in H; [constructor|].
  apply M_bind_ok in H as ([] & b1 & E & H). constructor; [by exists b, b1|].
  eapply Forall_impl; [by eapply IH|]. simpl. intros z (b2 & b3 & Hb & Hz). exists b2, b3. split; [|done].
  rewrite Hb. by eapply Hk in E as [? _].
Qed.

Section Validated.
Context (d : Dialect).

Lemma keeps_renderPredicate p : keeps_bound (renderPredicate d p).
Proof.
  induction p as [|c|ps IH|ps IH|p IH|r on p IH] using Predicate_ind'; cbn [renderPredicate].
  - keep.
  - unfold renderCondition, bindArg. keep.
  - apply keeps_bind; [keep|intros _]. apply keeps_bind; [by apply keeps_eachWith|intros _; keep].
  - apply keeps_bind; [keep|intros _]. apply keeps_bind; [by apply keeps_eachWith|intros _; keep].
  - keep.
  - unfold renderOn. keep.
Qed.

Lemma keeps_ranked e c : keeps_bound (ranked e c).
Proof. intros b c' b' H. by apply ranked_ok in H as [-> _]. Qed.

Lemma keeps_flatten e c : keeps_bound (flatten d e c).
Proof.
  revert c. induction e; intros c; cbn [flatten]; keep; try apply keeps_ranked; done.
Qed.

Lemma keeps_validate p : keeps_bound (validate p).
Proof. unfold validate. keep. Qed.

Lemma keeps_writeJoin j : keeps_bound (writeJoin d j).
Proof.
  unfold writeJoin, renderOn. apply keeps_bind; [apply keeps_validate|intros _]. keep; apply keeps_renderPredicate.
Qed.

Lemma keeps_qualify c : keeps_bound (qualify c).
Proof. unfold qualify. keep. Qed.

Lemma keeps_writeSelectClause c : keeps_bound (writeSelectClause d c).
Proof. unfold writeSelectClause. keep. Qed.

Lemma validate_ok p b y b' :
  validate p b = Ok (y, b') -> wf_predicate (maxINCardinality b) p.
Proof.
  unfold validate. intros H. apply M_bind_ok in H as (n & b1 & [= <- <-] & H). unfold liftR in H.
  destruct (ValidatePredicateWithMaxINCardinality p (maxINCardinality b)) as [[]|] eqn:E; [|done].
  unfold ValidatePredicateWithMaxINCardinality in E. case_match; [done|]. by apply validateWith_ok.
Qed.

Lemma keeps_writeClauses c : keeps_bound (writeClauses d c).
Proof.
  unfold writeClauses, writeFromClause, writeWhereClause, writeGroupByClause, withOutputs, writeHavingClause,
    writeOrderByClause, writeOrderTerm.
  repeat first [ apply keeps_renderPredicate | apply keeps_validate | apply keeps_writeJoin | apply keeps_qualify
               | apply keeps_writeSelectClause | progress keep ].
Qed.

(** A rendered SELECT has every predicate validated against the bound. *)
Lemma renderSelect_validated e b y b' p :
  substantial e -> renderSelect d e b = Ok (y, b') -> p ∈ predicates e -> wf_predicate (maxINCardinality b) p.
Proof.
  intros Hs H Hp. unfold renderSelect in H. apply M_bind_ok in H as (c & b1 & Hf & H).
  apply M_bind_ok in H as ([] & b2 & Hw & _). destruct (keeps_flatten _ _ _ _ _ Hf) as [Hb1 _].
  destruct (flatten_flattened d e b c b1 Hs Hf) as (rel & _ & -> & _ & _).
  unfold writeClauses in Hw. apply M_bind_ok in Hw as ([] & b3 & Hv & Hw).
  destruct (keeps_each _ _ keeps_validate _ _ _ Hv) as [Hb3 _].
  apply predicates_recompose in Hp as [Hp|Hp].
  - apply M_bind_ok in Hw as ([] & b4 & Hq & Hw). apply M_bind_ok in Hw as ([] & b5 & Hsc & Hw).
    apply M_bind_ok in Hw as ([] & b6 & Hfc & _). unfold writeFromClause in Hfc.
    apply M_bind_ok in Hfc as ([] & b7 & H7 & Hfc). apply M_bind_ok in Hfc as (r & b8 & H8 & Hfc).
    apply M_bind_ok in Hfc as ([] & b9 & H9 & Hj). apply each_ok in Hj; [|apply keeps_writeJoin].
    assert (maxINCardinality b9 = maxINCardinality b) as Hb9.
    { apply keeps_qualify in Hq as [Hq _]. apply keeps_writeSelectClause in Hsc as [Hsc _]. injection H7 as <-. injection H8 as <- <-.
      assert (maxINCardinality b9 = maxINCardinality b5) by (case_decide; by injection H9 as <-). congruence. }
    apply list_elem_of_fmap in Hp as (j & -> & Hj'). rewrite Forall_forall in Hj.
    destruct (Hj _ Hj') as (c1 & c2 & Hc1 & Hj1). unfold writeJoin in Hj1.
    apply M_bind_ok in Hj1 as ([] & ? & Hval & _). apply validate_ok in Hval. by rewrite Hc1, Hb9 in Hval.
  - apply each_ok in Hv; [|apply keeps_validate]. rewrite Forall_forall in Hv.
    destruct (Hv _ Hp) as (c1 & c2 & Hc1 & Hval). apply validate_ok in Hval. by rewrite Hc1, Hb1 in Hval.
Qed.

End Validated.

(** ** The row cap *)

(** The plan a cap of [n] rows makes of a read. *)
Definition capped (e : Expr) (n : Z) : Expr :=
  match e with ELimit i k o => ELimit i (Z.min k n) o | _ => ELimit e n 0 end.

Section Cap.
Context (d : Dialect).

Lemma flatten_rank e c0 b c b' : flatten d e c0 b = Ok (c, b') -> rank c = (rankOf e).1.
Proof.
  intros H. destruct e; cbn [flatten] in H; try done;
    repeat match goal with
    | H : ranked _ _ _ = Ok _ |- _ => apply ranked_ok in H as (_ & ? & _); done
    | H : (_ ≫= _) _ = Ok _ |- _ => apply M_bind_ok in H as (? & ? & _ & H)
    | H : (if ?x then _ else _) _ = Ok _ |- _ => destruct x; [done|]
    end.
Qed.

Lemma flatten_hasLimit e : forall b c b',
  flatten d e emptyCtx b = Ok (c, b') -> hasLimit c = true -> exists i k o, e = ELimit i k o.
Proof.
  induction e; intros b c b' H Hl; cbn [flatten] in H; try done; [| | | | |eauto|..].
  { by apply ranked_ok in H as (_ & _ & _ & ->). }
  all: exfalso; inv_M;
    match goal with H : ranked _ ?x _ = Ok _, E : flatten _ _ _ _ = Ok (?a, _) |- _ =>
      let E' := fresh in pose proof (flatten_rank _ _ _ _ _ E) as E';
      apply ranked_ok in H as (_ & _ & Hle & ->); simpl in Hl, Hle;
      destruct (IHe _ _ _ E Hl) as (? & ? & ? & ->); simpl in E'; specialize (Hle eq_refl); lia
    end.
Qed.

Lemma emits_grows {A} (m : M A) b a b' :
  emits d m -> m b = Ok (a, b') -> (String.length (bsql b) <= String.length (bsql b'))%nat.
Proof. intros Hm H. destruct (Hm _ _ _ H) as (s & _ & -> & _). rewrite string_length_app. lia. Qed.

Lemma writeClauses_nonempty c b y b' : writeClauses d c b = Ok (y, b') -> bsql b' <> ""%string.
Proof.
  unfold writeClauses. intros H. apply M_bind_ok in H as ([] & b1 & _ & H).
  apply M_bind_ok in H as ([] & b2 & _ & H). apply M_bind_ok in H as ([] & b3 & Hs & H).
  assert (0 < String.length (bsql b3))%nat as Hpos.
  { unfold writeSelectClause in Hs. apply M_bind_ok in Hs as ([] & b4 & [= <-] & Hs).
    apply (emits_grows _ _ _ _) in Hs; [|emit]. simpl in Hs. rewrite string_length_app in Hs. simpl in Hs. lia. }
  apply emits_grows in H.
  - intros Hnil. rewrite Hnil in H. simpl in H. lia.
  - unfold validate, writeFromClause, writeJoin, writeWhereClause,
      writeGroupByClause, withOutputs, writeHavingClause, writeOrderByClause, writeOrderTerm.
    repeat first [ apply emits_renderPredicate | apply emits_renderOn, emits_renderPredicate | progress emit ].
Qed.


(** A read chain rendered, clause by clause. *)
Lemma renderSelect_parts e b y b' :
  renderSelect d e b = Ok (y, b') -> bcapLimit b = 0 -> bcapOffset b = 0 ->
  exists c b1 b2, flatten d e emptyCtx b = Ok (c, b1) /\ writeClauses d c b1 = Ok (tt, b2) /\
    let limit := if hasLimit c then climit c else 0 in
    let offset := if hasLimit c then coffset c else 0 in
    b' = set_sql (bsql b2 +:+ limitClause limit offset) (set_cap (bsql b2) limit offset b2).
Proof.
  intros H Hl Ho. unfold renderSelect in H. apply M_bind_ok in H as (c & b1 & Hf & H).
  apply M_bind_ok in H as ([] & b2 & Hw & H). exists c, b1, b2. split_and!; [done|done|].
  destruct (keeps_flatten _ _ _ _ _ _ Hf) as (_ & Hl1 & Ho1 & _), (keeps_writeClauses _ _ _ _ _ Hw) as (_ & Hl2 & Ho2 & _).
  apply M_bind_ok in H as ([] & b3 & [= <-] & H). apply M_bind_ok in H as (s & b4 & [= <- <-] & H).
  injection H as _ <-. simpl. by rewrite Hl2, Hl1, Hl, Ho2, Ho1, Ho.
Qed.

Lemma renderSelect_make e b c b1 b2 :
  flatten d e emptyCtx b = Ok (c, b1) -> writeClauses d c b1 = Ok (tt, b2) -> hasLimit c = true ->
  renderSelect d e b =
    Ok (tt, set_sql (bsql b2 +:+ limitClause (climit c) (coffset c)) (set_cap (bsql b2) (climit c) (coffset c) b2)).
Proof.
  intros Hf Hw Hh. unfold renderSelect, mbind, M_bind. rewrite Hf, Hw. cbn. by rewrite Hh.
Qed.

(** The context of the capped plan: the same clauses under another LIMIT. *)
Lemma flatten_capped e n b c b1 :
  1 <= n -> flatten d e emptyCtx b = Ok (c, b1) ->
  exists c', flatten d (capped e n) emptyCtx b = Ok (c', b1) /\ hasLimit c' = true /\
    writeClauses d c' = writeClauses d c /\
    climit c' = (if hasLimit c then Z.min (climit c) n else n) /\ coffset c' = (if hasLimit c then coffset c else 0) /\
    (hasLimit c = true -> 1 <= climit c).
Proof.
  intros Hn Hf.
  assert ((exists i k o, e = ELimit i k o) \/ ~ (exists i k o, e = ELimit i k o)) as [(i & k & o & ->)|Hnl].
  { destruct e; try (right; by intros (? & ? & ? & [=])). left. eauto. }
  2:{ assert (hasLimit c = false) as Hh.
      { destruct (hasLimit c) eqn:E; [|done]. by destruct (Hnl (flatten_hasLimit _ _ _ _ Hf E)). }
      assert (capped e n = ELimit e n 0) as ->. { destruct e; try done. exfalso. apply Hnl. eauto. }
      cbn [flatten]. unfold mbind, M_bind, liftR, checkLimit.
      assert ((n <? 1) = false) as -> by lia. simpl. rewrite Hf. unfold ranked. simpl.
      pose proof (flatten_rank _ _ _ _ _ Hf) as Hr.
      assert (rank c < 8)%nat as Hlt.
      { rewrite Hr. destruct e; simpl; try lia. exfalso. apply Hnl. eauto. }
      assert ((8 <? rank c)%nat = false) as -> by (apply Nat.ltb_ge; lia).
      assert ((rank c =? 8)%nat = false) as -> by (apply Nat.eqb_neq; lia). simpl. rewrite Hh.
      eexists. split; [reflexivity|]. by split_and!. }
  cbn [flatten capped] in *. unfold mbind, M_bind, liftR in *. destruct (checkLimit k o) eqn:Ek; [|done].
  assert (checkLimit (Z.min k n) o = Ok tt /\ 1 <= k) as [-> Hk].
  { unfold checkLimit in *. destruct ((k <? 1) || (o <? 0)) eqn:E; [done|]. apply orb_false_iff in E as [E1 E2].
    rewrite E2, orb_false_r. apply Z.ltb_ge in E1. split; [|done]. by rewrite (proj2 (Z.ltb_ge _ _)) by lia. }
  destruct (flatten d i emptyCtx b) as [[ci bi]|]; [|done]. unfold ranked in *. simpl in *.
  destruct ((8 <? rank ci)%nat || (rank ci =? 8)%nat && true); [done|]. injection Hf as <- <-.
  eexists. split; [reflexivity|]. by split_and!.
Qed.

End Cap.

(** ** Theorems *)

Lemma Compile_subst (f : value -> value) (d : Dialect) (e : Expr) (cfg : compileConfig) :
  Compile d (substExpr f e) cfg =
    (fun c => mkCompiled (substExpr f e) (CKind c) (SQL c) (map f (Args c)) (IsKeyPoint c) (CPrimaryKey c)
                (ReadOnly c) (capBase c) (capLimit c) (capOffset c)) <$> Compile d e cfg.
Proof.
  unfold Compile. case_match; [done|].
  set (b0 := newBuilder _ _). change b0 with (substB f b0) at 1. rewrite (sim_render f d e b0).
  destruct (render d e b0) as [[u b]|]; [|done]. cbn. do 2 f_equal; [apply kindOf_subst|].
  rewrite PredicateOf_subst. apply existsb_isKeyPoint_subst.
Qed.

(** C8. No value reaches SQL text.  Replacing every value a plan carries by
    any others changes no byte of the statement, nor its kind, its point
    classification or its errors: the arguments are replaced, one by one. *)
Theorem compile_value_independent (f : value -> value) (d : Dialect) (e : Expr) (cfg : compileConfig) :
  Compile d (substExpr f e) cfg =
    (fun c => mkCompiled (substExpr f e) (CKind c) (SQL c) (map f (Args c)) (IsKeyPoint c) (CPrimaryKey c)
                (ReadOnly c) (capBase c) (capLimit c) (capOffset c)) <$> Compile d e cfg.
Proof. apply Compile_subst. Qed.

(** Placeholders and arguments match: the statement is text with exactly
    the placeholders 0, .., n-1 in this order, n the number of arguments. *)
Theorem compile_placeholders_match (d : Dialect) (e : Expr) (cfg : compileConfig) (c : Compiled) :
  Compile d e cfg = Ok c -> woven d 0 (length (Args c)) (SQL c).
Proof.
  unfold Compile. case_match; [done|]. intros H0. apply bind_ok in H0 as ([u b] & E & H0). injection H0 as <-.
  destruct (emits_render d e _ _ _ E) as (s & new & H1 & H2 & H3 & H4). simpl in *.
  rewrite H1, H2. by rewrite H3 in H4.
Qed.

Lemma compile_placeholders_match_witness :
  match Compile postgres demoPlan defaultConfig with Ok c => woven postgres 0 3 (SQL c) | Err _ => False end.
Proof.
  destruct (Compile postgres demoPlan defaultConfig) as [c|] eqn:E; [|vm_compute in E; discriminate E].
  assert (length (Args c) = 3%nat) as <- by (vm_compute in E; injection E as <-; reflexivity).
  exact (compile_placeholders_match _ _ _ _ E).
Defined.

Lemma qtable_inj (d : Dialect) (L : lawful_dialect d) r1 r2 : qtable d r1 = qtable d r2 -> r1 = r2.
Proof.
  intros H. assert (forall n, starts_with (quote_byte (d := d)) ("." +:+ n) = false) as Hdot.
  { intros n. change (Ascii.eqb "." (quote_byte (d := d)) = false). apply Ascii.eqb_neq. intros Heq. by apply quote_not_dot. }
  assert (forall n rest, starts_with (quote_byte (d := d)) rest = false ->
    lexIdent (quote_byte (d := d)) (QuoteIdent d n +:+ rest) = Some (n, rest)) as Hl by apply quote_lexes.
  assert (forall n, lexIdent (quote_byte (d := d)) (QuoteIdent d n) = Some (n, ""%string)) as Hl0.
  { intros n. rewrite <- (Hl n ""%string) by done. by rewrite string_app_nil_r. }
  unfold qtable, qident in H. destruct r1 as [s1 n1], r2 as [s2 n2]; simpl in H.
  apply (f_equal (lexIdent (quote_byte (d := d)))) in H.
  destruct (decide (s1 = "")) as [->|], (decide (s2 = "")) as [->|];
    rewrite ?Hl0, ?Hl in H by apply Hdot; try discriminate H; [by injection H as ->|].
  injection H as -> H. change (QuoteIdent d n1 = QuoteIdent d n2) in H.
  apply (f_equal (lexIdent (quote_byte (d := d)))) in H. rewrite !Hl0 in H. by injection H as ->.
Qed.

(** C35. One SELECT stands for one plan.  A chain of non-empty nodes that
    flattens is exactly its clauses put together in the order a SELECT applies
    them, and no two such chains flatten alike: none is rendered as another
    query. *)
Theorem flatten_faithful (d : Dialect) (L : lawful_dialect d) (e1 e2 : Expr) (b b1 b2 : builder) (c : selectCtx) :
  substantial e1 -> substantial e2 ->
  flatten d e1 emptyCtx b = Ok (c, b1) -> flatten d e2 emptyCtx b = Ok (c, b2) ->
  e1 = e2 /\ exists rel, from c = qtable d rel /\ e1 = recompose rel c.
Proof.
  intros S1 S2 F1 F2.
  destruct (flatten_flattened _ _ _ _ _ S1 F1) as (r1 & Hr1 & H1 & _),
           (flatten_flattened _ _ _ _ _ S2 F2) as (r2 & Hr2 & H2 & _).
  assert (r1 = r2) as <- by (apply (qtable_inj d L); congruence). split; [congruence|]. eauto.
Qed.

Lemma flatten_faithful_witness :
  exists rel c b', flatten postgres demoPlan emptyCtx (newBuilder 1000 []) = Ok (c, b') /\ demoPlan = recompose rel c.
Proof.
  destruct (flatten postgres demoPlan emptyCtx (newBuilder 1000 [])) as [[c b']|] eqn:E;
    [|vm_compute in E; discriminate E].
  assert (substantial demoPlan) as S by (simpl; split; [discriminate|exact I]).
  destruct (flatten_faithful postgres postgres_lawful demoPlan demoPlan _ _ _ c S S E E) as [_ (rel & _ & H)].
  exists rel, c, b'. split; [reflexivity|exact H].
Defined.

(** Nothing unchecked is rendered: every predicate of a compiled plan
    (WHERE, HAVING, join, UPDATE and DELETE) has whitelisted operators and
    bounded IN lists, and an UPDATE or DELETE has a predicate and something
    to set. *)
Theorem compile_validated (d : Dialect) (e : Expr) (cfg : compileConfig) (c : Compiled) :
  substantial e -> Compile d e cfg = Ok c ->
  Forall (wf_predicate (cfgMaxIN cfg)) (predicates e) /\
  match e with
  | EUpdate _ p set => p <> PNil /\ set <> []
  | EDelete _ p => p <> PNil
  | _ => True
  end.
Proof.
  intros Hs. unfold Compile. case_match; [done|]. intros H0. apply bind_ok in H0 as ([u b] & E & _).
  set (b0 := newBuilder _ _) in E. change (cfgMaxIN cfg) with (maxINCardinality b0). clearbody b0.
  destruct e; cbn [render] in E; try done;
    try (split; [|exact I]; apply Forall_forall; intros p' Hp';
         apply M_bind_ok in E as ([] & b1 & [= <-] & E);
         exact (renderSelect_validated d _ (set_readOnly true b0) _ _ p' Hs E Hp')).
  - unfold renderUpdate in E. destruct ((length set =? 0)%nat || is_pnil p) eqn:Ec; [done|].
    apply orb_false_iff in Ec as [E1 E2]. split; [|split; [by apply is_pnil_false|by destruct set]].
    apply M_bind_ok in E as ([] & b1 & [= <-] & E). apply M_bind_ok in E as ([] & b2 & Hset & E).
    apply keeps_eachWith in Hset as [Hb2 _];
      [|apply Forall_true; intros; unfold renderSet, bindArg; keep].
    constructor; [|by apply Forall_nil_2]. apply M_bind_ok in E as ([] & b3 & Hv & _).
    apply validate_ok in Hv. by rewrite Hb2 in Hv.
  - unfold renderDelete in E. destruct (is_pnil p) eqn:Ep; [done|]. split; [|by apply is_pnil_false].
    constructor; [|by apply Forall_nil_2]. apply M_bind_ok in E as ([] & b1 & [= <-] & E).
    apply M_bind_ok in E as ([] & b3 & Hv & _). by apply validate_ok in Hv.
Qed.

Lemma compile_validated_witness :
  Forall (wf_predicate 1000) (predicates demoPlan).
Proof.
  destruct (Compile mysql demoPlan defaultConfig) as [c|] eqn:E; [|vm_compute in E; discriminate E].
  assert (substantial demoPlan) as S by (simpl; split; [discriminate|exact I]).
  exact (proj1 (compile_validated mysql demoPlan defaultConfig c S E)).
Defined.

(** A key point reads at most one row: a selection the cost gate is told
    is a point on a key (every key column equal to a value, no OR) returns at
    most one row of a relation where the key is unique. *)
Theorem key_point_single_row (db : DB) (rel out : relation) (p : Predicate) (key : list string) :
  isKeyPoint p key = true -> unique_on rel key -> evalSelect db rel p = Ok out -> (length (Rows out) <= 1)%nat.
Proof.
  intros Hkp Hu Hs. apply isKeyPoint_columns in Hkp as (conds & Hfl & Hkey).
  apply evalSelect_spec in Hs as (_ & _ & Hsub & Hel).
  destruct (Rows out) as [|r1 [|r2 rest]] eqn:Er; simpl; [lia|lia|]. exfalso.
  destruct (sublist_two _ _ _ _ Hsub) as (i & j & Hij & Hi & Hj).
  assert (Forall (fun c => evalCondition (with_db rel db) r1 c = Ok triTrue) conds) as H1
    by (eapply flattenAnd_true; [done|]; apply Hel; by left).
  assert (Forall (fun c => evalCondition (with_db rel db) r2 c = Ok triTrue) conds) as H2
    by (eapply flattenAnd_true; [done|]; apply Hel; right; by left).
  rewrite Forall_forall in H1, H2. assert (i = j); [|lia]. apply (Hu i j r1 r2 Hi Hj). intros k Hk.
  destruct (Hkey k Hk) as (c & Hc & Hck & Hop).
  destruct (evalCondition_eq _ _ _ Hop (H1 c Hc)) as (n & x & Hn & Hx & Hxv),
           (evalCondition_eq _ _ _ Hop (H2 c Hc)) as (m & y & Hm & Hy & Hyv).
  assert (n = m) as <- by congruence. exists n, x, y. rewrite <- Hck. split_and!; try done.
  apply (compareValues_eq_trans _ _ _ Hxv). by apply compareValues_eq_sym.
Qed.

Lemma key_point_single_row_witness :
  (length (Rows (mkRel ["id"] [[VInt KInt 7]] ∅ 0)) <= 1)%nat.
Proof.
  apply (key_point_single_row ∅ (mkRel ["id"] [[VInt KInt 7]; [VInt KInt 8]] ∅ 0) _
           (PCond (mkCond "id" OpEq (VInt KInt 7))) ["id"%string]); [reflexivity| |reflexivity].
  intros i j r1 r2 Hi Hj Hk. destruct (Hk "id"%string) as (n & x & y & Hn & Hx & Hy & Hc); [left|].
  vm_compute in Hn. injection Hn as <-.
  destruct i as [|[|i]], j as [|[|j]]; try reflexivity; try discriminate Hi; try discriminate Hj;
    injection Hi as <-; injection Hj as <-; injection Hx as <-; injection Hy as <-; discriminate Hc.
Defined.

(** The plans a SELECT renders. *)
Definition is_read (e : Expr) : bool :=
  match e with ENil | EInsert _ _ _ | EUpdate _ _ _ | EDelete _ _ | ECall _ _ => false | _ => true end.

Lemma render_read d e b : is_read e = true -> render d e b = renderSelect d e (set_readOnly true b).
Proof. by destruct e. Qed.

Lemma is_read_capped e n : is_read e = true -> is_read (capped e n) = true.
Proof. by destruct e. Qed.

(** CapRows is a LIMIT: capping a compiled read at n rows gives the SQL
    and arguments of the same plan under LIMIT n, its own LIMIT kept when it
    is tighter, its OFFSET always. *)
Theorem cap_rows_is_limit (d : Dialect) (e : Expr) (cfg : compileConfig) (c : Compiled) (n : Z) :
  Compile d e cfg = Ok c -> is_read e = true -> 1 <= n ->
  exists c', Compile d (capped e n) cfg = Ok c' /\ (CapRows c n).2 = true /\
    SQL (CapRows c n).1 = SQL c' /\ Args (CapRows c n).1 = Args c'.
Proof.
  intros Hc Hro Hn. unfold Compile in *. case_match; [done|]. apply bind_ok in Hc as ([u b] & E & Hc).
  injection Hc as <-. rewrite render_read in E by done. rewrite render_read by by apply is_read_capped.
  set (b0 := set_readOnly true _) in *.
  apply renderSelect_parts in E as (ctx & b1 & b2 & Hf & Hw & ->); [|done|done].
  destruct (flatten_capped d e n b0 ctx b1 Hn Hf) as (ctx' & Hf' & Hl' & Hwc & Hlim & Hoff & Hpos).
  rewrite <- Hwc in Hw. rewrite (renderSelect_make d _ b0 ctx' b1 b2 Hf' Hw Hl'). cbn.
  eexists. split; [reflexivity|]. unfold CapRows. simpl.
  rewrite bool_decide_eq_false_2 by by eapply writeClauses_nonempty.
  rewrite (proj2 (Z.ltb_ge n 1)) by lia. rewrite bool_decide_eq_true_2 by done. simpl. rewrite Hlim, Hoff.
  destruct (hasLimit ctx).
  - rewrite (proj2 (Z.leb_le 1 (climit ctx))) by auto. simpl. destruct (Z.leb_spec (climit ctx) n); simpl.
    + by rewrite Z.min_l by lia.
    + by rewrite Z.min_r by lia.
  - done.
Qed.

Lemma cap_rows_is_limit_witness :
  match Compile mysql demoPlan defaultConfig with
  | Ok c => exists c', Compile mysql (capped demoPlan 5) defaultConfig = Ok c' /\ SQL (CapRows c 5).1 = SQL c'
  | Err _ => False
  end.
Proof.
  destruct (Compile mysql demoPlan defaultConfig) as [c|] eqn:E; [|vm_compute in E; discriminate E].
  destruct (cap_rows_is_limit mysql demoPlan defaultConfig c 5 E eq_refl ltac:(lia)) as (c' & Hc' & _ & Hs & _).
  exists c'. split; [exact Hc'|exact Hs].
Defined.

Lemma flatten_chainKind d e : forall c0 b c b' k,
  flatten d e c0 b = Ok (c, b') -> k = KindRead \/ k = KindAggregate ->
  chainKind e k = KindRead \/ chainKind e k = KindAggregate.
Proof.
  induction e; intros c0 b c b' k Hf Hk; cbn [flatten] in Hf; try done;
    inv_M; cbn [chainKind is_aggregate]; eauto.
Qed.

Lemma compile_read_kind d e cfg c :
  Compile d e cfg = Ok c -> is_read e = true ->
  ReadOnly c = true /\ (CKind c = KindRead \/ CKind c = KindAggregate).
Proof.
  unfold Compile. case_match; [done|]. intros Hc Er. apply bind_ok in Hc as ([u b] & E & Hc). injection Hc as <-.
  cbn [ReadOnly CKind]. set (b0 := newBuilder _ _) in E. rewrite render_read in E by done.
  apply renderSelect_parts in E as (ctx & b1 & b2 & Hf & Hw & ->); [|done|done]. split.
  - apply keeps_flatten in Hf as (_ & _ & _ & Hf). apply keeps_writeClauses in Hw as (_ & _ & _ & Hw).
    simpl in *. congruence.
  - assert (kindOf e = chainKind e KindRead) as -> by by destruct e.
    eapply flatten_chainKind; [exact Hf|by left].
Qed.

(** A statement is read-only exactly when it is a read or an aggregate:
    what the write guard skips is rendered as a SELECT, and nothing else. *)
Theorem compile_read_only_kind (d : Dialect) (e : Expr) (cfg : compileConfig) (c : Compiled) :
  Compile d e cfg = Ok c ->
  (ReadOnly c = true <-> CKind c = KindRead \/ CKind c = KindAggregate) /\
  (ReadOnly c = false <-> CKind c = KindWrite \/ CKind c = KindCall).
Proof.
  intros Hc. destruct (is_read e) eqn:Er.
  - destruct (compile_read_kind _ _ _ _ Hc Er) as [-> Hk].
    split; [tauto|]. split; [done|]. intros [Ha|Ha]; destruct Hk; congruence.
  - revert Hc. unfold Compile. case_match; [done|]. intros Hc. apply bind_ok in Hc as ([u b] & E & Hc). injection Hc as <-.
    cbn [ReadOnly CKind]. set (b0 := newBuilder _ _) in E.
    assert (keeps_bound (render d e)) as Hkeep.
    { destruct e; try done; cbn [render].
      - unfold renderInsert, renderTuple, bindArg. keep.
      - unfold renderUpdate, renderSet, renderWhere, bindArg.
        repeat first [apply keeps_validate | apply keeps_renderPredicate | progress keep].
      - unfold renderDelete, renderWhere.
        repeat first [apply keeps_validate | apply keeps_renderPredicate | progress keep].
      - unfold renderCall, bindArg. keep. }
    apply Hkeep in E as (_ & _ & _ & ->). simpl. destruct e; try done; simpl; naive_solver.
Qed.

Lemma compile_read_only_kind_witness :
  match Compile mysql (EDelete (mkRef "" "t") (PCond (mkCond "id" OpEq (VInt KInt 1)))) defaultConfig with
  | Ok c => ReadOnly c = false
  | Err _ => False
  end.
Proof.
  destruct (Compile mysql _ defaultConfig) as [c|] eqn:E; [|vm_compute in E; discriminate E].
  apply (proj2 (compile_read_only_kind _ _ _ _ E)). vm_compute in E. injection E as <-. left. reflexivity.
Defined.
