(* ===== verification/FieldUses.v ===== *)
(** The rules on the fields a call uses: core/tool/field_uses.go, and the
    paths across relationships of core/tool/related.go. *)

From S2P Require Import Prelude GoString Value Relalg Entity Numbers Rbac RbacTheorems WriteCheck.

(** ** The rules *)

Record fieldUses : Type := mkUses { uread : list string; ucompared : list string; uwritten : list string }.

Definition validateFields (res : Resolved) (fields : list string) : result unit :=
  match fields with
  | [] => Ok tt
  | _ =>
      let allowed := visibleNameSet (RAttributes res) in
      if forallb (fun f => bool_decide (f ∈ allowed)) fields then Ok tt else Err ErrInvalidInput
  end.

Definition named (a : Attribute) (f : string) : bool :=
  bool_decide (AName a = f) || negb (bool_decide (AAlias a = "")) && bool_decide (AAlias a = f).

Definition validateUnmaskedFields (res : Resolved) (fields : list string) : result unit :=
  if existsb (fun f => existsb (fun a => named a f && negb (bool_decide (AMask a = ""))) (RAttributes res)) fields
  then Err ErrInvalidInput else Ok tt.

Definition validateWritable (res : Resolved) (fields : list string) : result unit :=
  if existsb (fun f => match AttributeByName (REntity res) f with
                       | Some a => negb (Writable (ADomain a))
                       | None => false
                       end) fields
  then Err ErrInvalidInput else Ok tt.

Definition check_uses (u : fieldUses) (res : Resolved) : result unit :=
  _ ← validateFields res (uread u ++ ucompared u ++ uwritten u);
  _ ← validateUnmaskedFields res (ucompared u);
  match uwritten u with
  | [] => Ok tt
  | _ => _ ← distinctColumns (REntity res) (uwritten u); validateWritable res (uwritten u)
  end.

(** ** Paths *)

Definition relationshipByName (e : Entity) (name : string) : option Relationship :=
  List.find (fun r => bool_decide (ReName r = name)) (ERelations e).

Definition pathOf (e : Entity) (field : string) : option (Relationship * string) :=
  '(name, rest) ← cut "." field;
  r ← relationshipByName e name;
  Some (r, rest).

Definition splitPaths (e : Entity) (fields : list string) : list string * list string :=
  (List.filter (fun f => negb (bool_decide (is_Some (pathOf e f)))) fields,
   List.filter (fun f => bool_decide (is_Some (pathOf e f))) fields).

(** related, as far as it renames the paths. *)
Definition related_field (rename : gmap string string) (f : string) : string := default f (rename !! f).

Definition renamed (rename : gmap string string) (p : Predicate) : Predicate :=
  MapConditions p (fun c => {| CField := related_field rename (CField c); COp := COp c; CValue := CValue c |}).

(** ** What passes the rules *)

Lemma validateFields_ok res fields :
  validateFields res fields = Ok tt <-> Forall (fun f => visibleField (RAttributes res) f = true) fields.
Proof.
  unfold validateFields. destruct fields as [|f0 fs]; [split; [by constructor|done]|].
  set (l := f0 :: fs). destruct (forallb _ l) eqn:E.
  - split; [|done]. intros _. rewrite forallb_forall in E. apply Forall_forall. intros f Hf.
    apply visibleNameSet_spec. apply list_elem_of_In in Hf. by apply E, bool_decide_eq_true in Hf.
  - split; [done|]. intros Hall. rewrite <- not_true_iff_false in E. exfalso. apply E, forallb_forall.
    intros f Hf. rewrite Forall_forall in Hall. apply bool_decide_eq_true, visibleNameSet_spec, Hall.
    by apply list_elem_of_In.
Qed.

Lemma existsb_false {A} (f : A -> bool) l : existsb f l = false <-> Forall (fun x => f x = false) l.
Proof.
  induction l as [|x l IH]; simpl; [split; [by constructor|done]|].
  by rewrite orb_false_iff, Forall_cons, IH.
Qed.

Lemma validateUnmasked_ok res fields :
  validateUnmaskedFields res fields = Ok tt <->
  forall f a, f ∈ fields -> a ∈ RAttributes res -> named a f = true -> AMask a = ""%string.
Proof.
  unfold validateUnmaskedFields. destruct (existsb _ fields) eqn:E.
  - split; [done|]. intros Hall. apply existsb_exists in E as (f & Hf & Ha).
    apply existsb_exists in Ha as (a & Ha & Hn). apply andb_true_iff in Hn as [Hn Hm].
    rewrite (Hall f a) in Hm; [done|by apply list_elem_of_In|by apply list_elem_of_In|done].
  - split; [|done]. intros _ f a Hf Ha Hn. apply existsb_false in E. rewrite Forall_forall in E.
    specialize (E f Hf). simpl in E. apply existsb_false in E. rewrite Forall_forall in E.
    specialize (E a Ha). simpl in E. rewrite Hn in E. simpl in E. case_bool_decide; done.
Qed.

(** A call's fields are checked before anything is done with them: when
    the check passes, every field used is a visible one, no field compared
    (filtered, ordered, grouped, aggregated) is masked, and a field written
    is written once and is not computed by the database. *)
Theorem field_uses_checked (u : fieldUses) (res : Resolved) :
  check_uses u res = Ok tt ->
  (forall f, f ∈ uread u ++ ucompared u ++ uwritten u ->
     exists a, a ∈ RAttributes res /\ named a f = true) /\
  (forall f a, f ∈ ucompared u -> a ∈ RAttributes res -> named a f = true -> AMask a = ""%string) /\
  NoDup (columnsOf (REntity res) (uwritten u)) /\
  (forall f a, f ∈ uwritten u -> AttributeByName (REntity res) f = Some a -> DGenerated (ADomain a) = false).
Proof.
  unfold check_uses. intros H. apply bind_ok in H as ([] & Hv & H). apply bind_ok in H as ([] & Hu & H).
  apply validateFields_ok in Hv. pose proof (proj1 (validateUnmasked_ok _ _) Hu) as Hu'.
  split_and!; [|exact Hu'|..].
  - intros f Hf. rewrite Forall_forall in Hv. apply Hv in Hf. apply existsb_exists in Hf as (a & Ha & Hn).
    exists a. split; [by apply list_elem_of_In|]. unfold named. revert Hn.
    rewrite !orb_true_iff, !andb_true_iff, !negb_true_iff, !bool_decide_eq_true, !bool_decide_eq_false.
    intuition congruence.
  - destruct (uwritten u) as [|f fs]; [apply NoDup_nil_2|]. apply bind_ok in H as ([] & Hd & _).
    by apply distinctLoop_ok in Hd as [? _].
  - intros f a Hf Ha. destruct (uwritten u) as [|f0 fs]; [by apply elem_of_nil in Hf|].
    apply bind_ok in H as ([] & _ & Hw). unfold validateWritable in Hw.
    destruct (existsb _ (f0 :: fs)) eqn:E; [done|]. apply existsb_false in E. rewrite Forall_forall in E.
    specialize (E f Hf). simpl in E. rewrite Ha in E. unfold Writable in E. by rewrite negb_involutive in E.
Qed.

Lemma field_uses_checked_witness :
  AMask (mkAttr "total" "amount" "" (tenantDomain "numeric(10,2)") false "") = ""%string.
Proof.
  destruct (field_uses_checked (mkUses ["id"%string] ["amount"%string] [])
    (mkResolved demoEntity (visibleOf demoEntity)) eq_refl) as (_ & H & _).
  apply (H "amount"%string); [left|right; left|reflexivity].
Defined.
