(* ===== verification/Order.v ===== *)
(** Ordering and paging a read: core/tool/order.go, with keysetAfter
    (core/tool/tool.go) and cursorPredicate (core/tool/tools_read_impl.go). *)

From Stdlib Require Import Sorting.Sorted.
From S2P Require Import Prelude GoString Value Relalg Interp InterpFacts Entity Numbers Rbac RbacTheorems WriteCheck FieldUses.

(** ** The order of a read *)

Definition maxOrderTerms : nat := 8.

Record readOrder : Type := mkOrder {
  terms : list OrderTerm;
  pageable : bool;
  keyFields : list string;
}.

Definition order_fields (o : readOrder) : list string := TermField <$> terms o.

Record orderJSON : Type := mkOrderJSON { OField : string; ODir : string }.

(** condJSON: a nil slice or pointer is [None]. *)
Inductive condJSON : Type := mkCondJSON {
  JField : string;
  JOp : string;
  JValue : value;
  JAny : option (list condJSON);
  JAll : option (list condJSON);
  JNot : option condJSON;
  JExists : string;
  JFilter : option (list condJSON);
}.

Record readInput : Type := mkInput {
  RTarget : string;                        (** Entity *)
  RTransaction : string;
  RFields : list string;
  RExpand : list string;
  RFilter : list condJSON;
  ROrderBy : list orderJSON;
  RDistinct : bool;
  RLimit : Z;
  ROffset : Z;
  RCursor : gmap string value;
}.

Definition hasMaskedField (res : Resolved) (fields : list string) : bool :=
  negb (is_ok (validateUnmaskedFields res fields)).

Section Plan.
Context `{GoStd}.

(** orderTerm: the term, and whether it is a related field's. *)
Definition orderTerm (res : Resolved) (inp : readInput) (t : orderJSON) (rename : gmap string string) :
    result (OrderTerm * bool) :=
  let dir := lower unicode_lower (ODir t) in
  let dir := if decide (dir = "") then "asc"%string else dir in
  if negb (bool_decide (dir = "asc")) && negb (bool_decide (dir = "desc")) then Err ErrInvalidInput
  else match pathOf (REntity res) (OField t) with
  | Some _ =>
      if RDistinct inp then Err ErrInvalidInput
      else Ok (mkTerm (related_field rename (OField t)) dir true, true)
  | None =>
      _ ← check_uses (mkUses [] [OField t] []) res;
      match AttributeByName (REntity res) (OField t) with
      | Some a =>
          if RDistinct inp && negb (existsb (fun f => bool_decide (f = AName a) || bool_decide (f = AAlias a)) (RFields inp))
          then Err ErrInvalidInput
          else Ok (mkTerm (AName a) dir (DNullable (ADomain a)), false)
      | None =>   (* the zero Attribute *)
          if RDistinct inp && negb (existsb (fun f => bool_decide (f = "")) (RFields inp))
          then Err ErrInvalidInput
          else Ok (mkTerm "" dir false, false)
      end
  end.

(** planReadOrder's loop over the requested terms. *)
Fixpoint orderLoop (res : Resolved) (inp : readInput) (rename : gmap string string) (asked : list orderJSON)
    (acc : list OrderTerm) (across : bool) : result (list OrderTerm * bool) :=
  match asked with
  | [] => Ok (acc, across)
  | t :: asked =>
      '(term, related) ← orderTerm res inp t rename;
      if bool_decide (TermField term ∈ TermField <$> acc)
      then if (related : bool) then orderLoop res inp rename asked acc across else Err ErrInvalidInput
      else orderLoop res inp rename asked (acc ++ [term]) (across || related)
  end.

(** The key's columns not among the terms, added to them. *)
Fixpoint addKey (key : list string) (acc : list OrderTerm) (added : list string) : list OrderTerm * list string :=
  match key with
  | [] => (acc, added)
  | c :: key =>
      if bool_decide (c ∈ TermField <$> acc) then addKey key acc added
      else addKey key (acc ++ [mkTerm c "asc" false]) (added ++ [c])
  end.

Definition planReadOrder (res : Resolved) (inp : readInput) (rename : gmap string string) : result readOrder :=
  match ROrderBy inp with
  | [] => Ok (mkOrder [] false [])
  | asked =>
      if (maxOrderTerms <? length asked)%nat then Err ErrInvalidInput
      else
        '(acc, across) ← orderLoop res inp rename asked [] false;
        match CursorKey (REntity res) with
        | Some key =>
            if negb (RDistinct inp) && negb (hasMaskedField res key)
            then let '(acc, added) := addKey key acc [] in Ok (mkOrder acc (negb across) added)
            else Ok (mkOrder acc false [])
        | None => Ok (mkOrder acc false [])
        end
  end.

End Plan.

Definition withoutKey (o : readOrder) : readOrder :=
  mkOrder (List.filter (fun t => negb (bool_decide (TermField t ∈ keyFields o))) (terms o)) false [].

(** ** Cursors *)

Definition conjunction (preds : list Predicate) : Predicate :=
  match preds with [] => PNil | [p] => p | ps => PAnd ps end.

Definition afterValue (t : OrderTerm) (v : value) : Predicate :=
  if is_nil v then PNil
  else
    let past := PCond (mkCond (TermField t) (if bool_decide (TermDir t = "desc") then OpLt else OpGt) v) in
    if negb (TermNullable t) then past
    else POr [past; PCond (mkCond (TermField t) OpIsNull VNil)].

Definition equalsValue (field : string) (v : value) : Predicate :=
  if is_nil v then PCond (mkCond field OpIsNull VNil) else PCond (mkCond field OpEq v).

Definition cursorAt (cursor : gmap string value) (t : OrderTerm) : value := default VNil (cursor !! TermField t).

(** orderCursor's loop, [before] the terms before this one. *)
Fixpoint cursorLoop (cursor : gmap string value) (before rest : list OrderTerm) : result (list Predicate) :=
  match rest with
  | [] => Ok []
  | t :: rest =>
      match cursor !! TermField t with
      | None => Err ErrInvalidInput
      | Some v =>
          if is_nil v && negb (TermNullable t) then Err ErrInvalidInput
          else
            ors ← cursorLoop cursor (before ++ [t]) rest;
            if is_pnil (afterValue t v) then Ok ors
            else Ok (conjunction (((fun b => equalsValue (TermField b) (cursorAt cursor b)) <$> before)
                                    ++ [afterValue t v]) :: ors)
      end
  end.

Definition orderCursor (o : readOrder) (cursor : gmap string value) : result Predicate :=
  if negb (pageable o) then Err ErrInvalidInput
  else if negb (size cursor =? length (terms o))%nat then Err ErrInvalidInput
  else
    ors ← cursorLoop cursor [] (terms o);
    match ors with
    | [] => Err ErrInvalidInput
    | [p] => Ok p
    | ps => Ok (POr ps)
    end.

(** nextCursor: the rows are maps by field. *)
Fixpoint nextLoop (res : Resolved) (last : gmap string value) (ts : list OrderTerm) (out : gmap string value) :
    option (gmap string value) :=
  match ts with
  | [] => Some out
  | t :: ts =>
      let v := match last !! TermField t with
               | Some v => Some v
               | None => match AttributeByName (REntity res) (TermField t) with
                         | Some a => if bool_decide (AAlias a = "") then None else last !! AAlias a
                         | None => None
                         end
               end in
      match v with
      | None => None
      | Some v => nextLoop res last ts (<[TermField t := v]> out)
      end
  end.

Definition nextCursor (o : readOrder) (res : Resolved) (inp : readInput) (rows : list (gmap string value)) :
    option (gmap string value) :=
  if negb (pageable o) || (RLimit inp <=? 0) || (Z.of_nat (length rows) <? RLimit inp) then None
  else match last rows with
       | Some row => nextLoop res row (terms o) ∅
       | None => None
       end.

Definition trimOrderFields (o : readOrder) (res : Resolved) (inp : readInput) (rows : list (gmap string value)) :
    list (gmap string value) :=
  match RFields inp with
  | [] => rows
  | fields =>
      let kept f := match AttributeByName (REntity res) f with
                    | Some a => bool_decide (AName a ∈ fields)
                                || negb (bool_decide (AAlias a = "")) && bool_decide (AAlias a ∈ fields)
                    | None => bool_decide (""%string ∈ fields)
                    end in
      (fun row => foldl (fun row f => if kept f then row else delete f row) row (order_fields o)) <$> rows
  end.

(** keysetAfter: the longest prefix of the key the cursor gives. *)
Fixpoint cursorPrefix (cursor : gmap string value) (pks : list string) : list (string * value) :=
  match pks with
  | [] => []
  | pk :: pks => match cursor !! pk with Some v => (pk, v) :: cursorPrefix cursor pks | None => [] end
  end.

Fixpoint keysetLoop (before rest : list (string * value)) : list Predicate :=
  match rest with
  | [] => []
  | (c, v) :: rest =>
      conjunction (((fun b => PCond (mkCond b.1 OpEq b.2)) <$> before) ++ [PCond (mkCond c OpGt v)])
      :: keysetLoop (before ++ [(c, v)]) rest
  end.

Definition keysetAfter (pks : list string) (cursor : gmap string value) : Predicate * list string :=
  match cursorPrefix cursor pks with
  | [] => (PNil, [])
  | cols =>
      match keysetLoop [] cols with
      | [p] => (p, cols.*1)
      | ps => (POr ps, cols.*1)
      end
  end.

Definition cursorPredicate `{GoStd} (e : Entity) (cursor : gmap string value) : result (Predicate * list string) :=
  if (size cursor =? 0)%nat then Ok (PNil, [])
  else match CursorKey e with
  | None => Err ErrInvalidInput
  | Some key =>
      let '(keyset, cols) := keysetAfter key cursor in
      if negb (length cols =? size cursor)%nat then Err ErrInvalidInput
      else keyset ← coercePredicate e keyset; Ok (keyset, cols)
  end.
