(* ===== verification/OrderFacts.v ===== *)
(** Paging: a cursor predicate selects exactly the rows after the cursor's row
    in the read's order, and the order planned for a read is total. *)

From Stdlib Require Import Sorting.Sorted.
From S2P Require Import Prelude GoString Value Relalg Interp InterpFacts Entity Numbers Rbac RbacTheorems WriteCheck FieldUses Order.

(** ** One term *)

Section Cursor.
Context (rel : relation) (cur row : list value) (cursor : gmap string value).

(** The cells of one term in the row the cursor was taken from and in
    another: comparable, not NULL where the column is not nullable. *)
Record term_ok (it : nat * OrderTerm) (x y : value) (c : comparison) : Prop := {
  tk_col : colIndex rel (TermField it.2) = Ok it.1;
  tk_cur : cur !! it.1 = Some x;
  tk_row : row !! it.1 = Some y;
  tk_cursor : cursor !! TermField it.2 = Some x;
  tk_cmp : termCmp (TermDir it.2) x y = Some c;
  tk_null : TermNullable it.2 = false -> is_nil x = false /\ is_nil y = false;
  tk_dir : TermDir it.2 = "asc"%string \/ TermDir it.2 = "desc"%string;
}.

Definition comparable (it : nat * OrderTerm) : Prop := exists x y c, term_ok it x y c.

Lemma eval_cell it x y c op v :
  term_ok it x y c -> evalPredicate (PCond (mkCond (TermField it.2) op v)) rel row = evalOp y (mkCond (TermField it.2) op v).
Proof. intros H. simpl. apply (evalCondition_at _ _ _ it.1); [apply H|]. apply index_ok, H. Qed.

Lemma past_spec it x y c :
  term_ok it x y c -> is_nil x = false -> is_nil y = false ->
  evalComparison y (if bool_decide (TermDir it.2 = "desc") then OpLt else OpGt) x = Ok (boolTri (is_Lt c)).
Proof.
  intros H Hx Hy. pose proof (tk_cmp _ _ _ _ H) as Hc. unfold termCmp, compareForSort in Hc. rewrite Hx, Hy in Hc.
  simpl in Hc. destruct (compareValues x y) as [c0|] eqn:E; [|done]. injection Hc as <-.
  unfold evalComparison. rewrite Hx, Hy. simpl. rewrite (compareValues_antisym x y), E. cbn.
  destruct (tk_dir _ _ _ _ H) as [-> | ->]; destruct c0; done.
Qed.

Lemma past_op it x y c :
  term_ok it x y c -> is_nil x = false -> is_nil y = false ->
  evalOp y (mkCond (TermField it.2) (if bool_decide (TermDir it.2 = "desc") then OpLt else OpGt) x)
  = Ok (boolTri (is_Lt c)).
Proof.
  intros H Hx Hy. pose proof (past_spec _ _ _ _ H Hx Hy) as Hp. revert Hp.
  unfold evalOp. cbn [COp CValue]. by case_bool_decide.
Qed.

Lemma after_spec it x y c :
  term_ok it x y c -> is_nil x = false ->
  exists v, evalPredicate (afterValue it.2 x) rel row = Ok v /\ (v = triTrue <-> c = Lt).
Proof.
  intros H Hx. unfold afterValue. rewrite Hx. destruct (TermNullable it.2) eqn:En; cbn [negb].
  - change (evalPredicate (POr ?l) rel row) with (evalOr (fun q => evalPredicate q rel row) triFalse l).
    cbn [evalOr]. rewrite !(eval_cell _ _ _ _ _ _ H). destruct (is_nil y) eqn:Ey.
    + assert (c = Lt) as ->.
      { pose proof (tk_cmp _ _ _ _ H) as Hc. unfold termCmp in Hc. rewrite Hx, Ey in Hc. simpl in Hc. congruence. }
      unfold evalOp. cbn [COp]. rewrite Ey. case_bool_decide; unfold evalComparison; cbn [CValue]; rewrite Ey; cbn; by exists triTrue.
    + rewrite (past_op _ _ _ _ H Hx Ey). unfold evalOp. cbn [COp]. rewrite Ey.
      destruct c; simpl; eexists; split; done.
  - destruct (tk_null _ _ _ _ H En) as [_ Ey]. rewrite (eval_cell _ _ _ _ _ _ H).
    exists (boolTri (is_Lt c)). split; [by apply past_op|]. by destruct c.
Qed.

Lemma equals_spec it x y c :
  term_ok it x y c ->
  exists v, evalPredicate (equalsValue (TermField it.2) x) rel row = Ok v /\ (v = triTrue <-> c = Eq).
Proof.
  intros H. pose proof (tk_cmp _ _ _ _ H) as Hc. unfold equalsValue, termCmp, compareForSort in *.
  destruct (is_nil x) eqn:Ex; rewrite (eval_cell _ _ _ _ _ _ H); unfold evalOp; cbn [COp CValue].
  - exists (boolTri (is_nil y)). split; [done|]. destruct (is_nil y); simpl in *; simplify_eq; [|done].
    by destruct (is_desc (TermDir it.2)).
  - unfold evalComparison. rewrite Ex. destruct (is_nil y) eqn:Ey; simpl in *.
    { simplify_eq. by exists triUnknown. }
    destruct (compareValues x y) as [c0|] eqn:E; [|done]. simplify_eq.
    rewrite (compareValues_antisym x y), E. cbn. destruct c0, (is_desc (TermDir it.2)); simpl; eexists; split; done.
Qed.

Lemma nil_not_lt it x y c : term_ok it x y c -> is_nil x = true -> c <> Lt.
Proof.
  intros H Hx. pose proof (tk_cmp _ _ _ _ H) as Hc. unfold termCmp, compareForSort in Hc. rewrite Hx in Hc.
  destruct (is_nil y); simpl in Hc; simplify_eq; [|done]. by destruct (is_desc (TermDir it.2)).
Qed.

(** ** All terms *)

Definition total_at (p : Predicate) : Prop := is_ok (evalPredicate p rel row) = true.
Definition holds_at (p : Predicate) : Prop := evalPredicate p rel row = Ok triTrue.

Lemma evalAnd_total ps acc :
  Forall total_at ps -> is_ok (evalAnd (fun q => evalPredicate q rel row) acc ps) = true.
Proof.
  intros H. revert acc. induction H as [|p ps Hp _ IH]; intros acc; [done|]. rewrite evalAnd_cons.
  unfold total_at in Hp. destruct (evalPredicate p rel row) as [[]|]; cbn; auto.
Qed.

Lemma conjunction_spec ps :
  ps <> [] -> Forall total_at ps ->
  total_at (conjunction ps) /\ (holds_at (conjunction ps) <-> Forall holds_at ps).
Proof.
  intros Hne Ht. destruct ps as [|p [|q ps]]; [done| |].
  - simpl. rewrite Forall_singleton in Ht. by rewrite Forall_singleton.
  - split; [by apply (evalAnd_total (p :: q :: ps))|]. apply evalAnd_true.
Qed.

(** The terms before are all equal. *)
Definition all_equal (its : list (nat * OrderTerm)) : Prop := lexCmp its cur row = Some Eq.

Lemma lex_cons it its x y c :
  term_ok it x y c ->
  lexCmp (it :: its) cur row = match c with Eq => lexCmp its cur row | _ => Some c end.
Proof.
  intros [_ H1 H2 _ H3 _ _]. destruct it as [i t]. simpl in *. rewrite H1, H2, H3. by destruct c.
Qed.

Lemma comparable_lex its : Forall comparable its -> exists c, lexCmp its cur row = Some c.
Proof.
  induction 1 as [|it its (x & y & c & H) _ [c' IH]]; [simpl; eauto|].
  rewrite (lex_cons _ _ _ _ _ H). destruct c; eauto.
Qed.

Lemma lexCmp_app its1 its2 :
  lexCmp (its1 ++ its2) cur row =
  match lexCmp its1 cur row with Some Eq => lexCmp its2 cur row | r => r end.
Proof.
  induction its1 as [|[i t] its1 IH]; simpl; [done|].
  destruct (cur !! i), (row !! i); try done. destruct (termCmp _ _ _) as [[]|]; done.
Qed.

Lemma equals_before its :
  Forall comparable its ->
  let eqs := (fun b => equalsValue (TermField b) (cursorAt cursor b)) <$> its.*2 in
  Forall total_at eqs /\ (Forall holds_at eqs <-> all_equal its).
Proof.
  unfold all_equal. induction 1 as [|it its (x & y & c & H) _ [IH1 IH2]].
  { split; [by apply Forall_nil_2|]. split; [done|]. intros _. by apply Forall_nil_2. }
  destruct (equals_spec _ _ _ _ H) as (v & Ev & Hv). rewrite !fmap_cons, !Forall_cons.
  assert (cursorAt cursor it.2 = x) as -> by (unfold cursorAt; by rewrite (tk_cursor _ _ _ _ H)).
  unfold total_at at 1, holds_at at 1. rewrite Ev, (lex_cons _ _ _ _ _ H).
  split; [done|]. destruct c; [rewrite <- IH2; naive_solver|naive_solver|naive_solver].
Qed.

(** The disjuncts of a cursor: one is TRUE when the row comes after, and all
    evaluate. *)
Lemma cursorLoop_spec before rest ors :
  Forall comparable before -> Forall comparable rest ->
  cursorLoop cursor before.*2 rest.*2 = Ok ors ->
  Forall total_at ors /\ (Exists holds_at ors <-> all_equal before /\ lexCmp rest cur row = Some Lt).
Proof.
  intros Hb Hr. revert before ors Hb. induction Hr as [|it rest (x & y & c & H) _ IH]; intros before ors Hb Hl.
  { simpl in Hl. simplify_eq. split; [by apply Forall_nil_2|]. split; [by intros ?%Exists_nil|naive_solver]. }
  cbn [fmap list_fmap cursorLoop] in Hl. change ((it :: rest).*2) with (it.2 :: rest.*2) in Hl.
  cbn [cursorLoop] in Hl. rewrite (tk_cursor _ _ _ _ H) in Hl. case_match; [done|].
  apply bind_ok in Hl as (ors' & Eo & Hl).
  assert (before.*2 ++ [it.2] = (before ++ [it]).*2) as Hsnoc by by rewrite fmap_app.
  rewrite Hsnoc in Eo. apply IH in Eo as [Ht He].
  2:{ apply Forall_app. split; [done|]. constructor; [|by apply Forall_nil_2]. by exists x, y, c. }
  assert (all_equal (before ++ [it]) <-> all_equal before /\ c = Eq) as Heq.
  { unfold all_equal. rewrite lexCmp_app, (lex_cons _ _ _ _ _ H).
    destruct (comparable_lex before Hb) as [[] ->]; destruct c; naive_solver. }
  rewrite (lex_cons _ _ _ _ _ H).
  rewrite Heq in He. destruct (is_nil x) eqn:Ex.
  - assert (afterValue it.2 x = PNil) as Ha by (unfold afterValue; by rewrite Ex). rewrite Ha in Hl. simpl in Hl.
    simplify_eq. split; [done|]. rewrite He. pose proof (nil_not_lt _ _ _ _ H Ex). destruct c; naive_solver.
  - assert (is_pnil (afterValue it.2 x) = false) as Ha.
    { unfold afterValue. rewrite Ex. by destruct (TermNullable it.2). }
    rewrite Ha in Hl. injection Hl as <-.
    destruct (equals_before before Hb) as [Hte Hhe]. destruct (after_spec _ _ _ _ H Ex) as (v & Ev & Hv).
    set (eqs := (fun b => equalsValue (TermField b) (cursorAt cursor b)) <$> before.*2) in *.
    destruct (conjunction_spec (eqs ++ [afterValue it.2 x])) as [Hct Hch].
    { by destruct eqs. }
    { apply Forall_app. split; [done|]. constructor; [|by apply Forall_nil_2]. unfold total_at. by rewrite Ev. }
    split; [by constructor|]. rewrite Exists_cons, Hch, He, Forall_app, Hhe, Forall_singleton.
    unfold holds_at. rewrite Ev. destruct c; naive_solver.
Qed.

(** The predicate a cursor's disjuncts make. *)
Lemma cursor_or ors p :
  Forall total_at ors -> match ors with [] => False | [q] => p = q | ps => p = POr ps end ->
  holds_at p <-> Exists holds_at ors.
Proof.
  intros Ht Hp. destruct ors as [|q [|q' ors]]; [done|subst|subst].
  - rewrite Exists_cons, Exists_nil. tauto.
  - split.
    + intros He. apply evalOr_true in He as (r & Hr & He); [|done]. apply Exists_exists. by exists r.
    + intros He. apply (evalOr_total (fun q => evalPredicate q rel row) triFalse); [|done]. eapply Forall_impl; [exact Ht|].
      unfold total_at. simpl. intros r Hr. destruct (evalPredicate r rel row); [by eexists|done].
Qed.

End Cursor.

(** ** Lemmas for the theorems *)

Lemma orderTerms_snd rel ts its : orderTerms rel ts = Ok its -> its.*2 = ts.
Proof.
  unfold orderTerms. intros H. inv_ok. apply mapM_length in E. by rewrite snd_zip by lia.
Qed.

Lemma orderCursor_or o cursor p :
  orderCursor o cursor = Ok p ->
  exists ors, cursorLoop cursor [] (terms o) = Ok ors /\
    match ors with [] => False | [q] => p = q | ps => p = POr ps end.
Proof.
  unfold orderCursor. do 2 (case_match; [done|]). intros Hp. apply bind_ok in Hp as (ors & E & Hp).
  exists ors. split; [done|]. destruct ors as [|q [|]]; by simplify_eq.
Qed.

Lemma orderCursor_spec rel cur row cursor o its p :
  orderTerms rel (terms o) = Ok its -> Forall (comparable rel cur row cursor) its ->
  orderCursor o cursor = Ok p -> evalPredicate p rel row = Ok triTrue <-> lexCmp its cur row = Some Lt.
Proof.
  intros Hits Hc Hp. apply orderCursor_or in Hp as (ors & Hl & Hp). rewrite <- (orderTerms_snd _ _ _ Hits) in Hl.
  destruct (cursorLoop_spec rel cur row cursor [] its ors (Forall_nil_2 _) Hc Hl) as [Ht He].
  pose proof (cursor_or rel row ors p Ht Hp) as Ho. unfold holds_at at 1 in Ho. rewrite Ho, He.
  unfold all_equal. simpl. naive_solver.
Qed.

Lemma filterM_filter {A} (f : A -> result bool) l k :
  filterM f l = Ok k -> k = List.filter (fun a => match f a with Ok b => b | Err _ => false end) l.
Proof.
  revert k. induction l as [|x l IH]; intros k H; simpl in H; inv_ok; [done|]. simpl. rewrite E.
  rewrite <- (IH _ E0). by destruct a.
Qed.

Lemma filter_none {A} (f : A -> bool) (l : list A) : (forall x, x ∈ l -> f x = false) -> List.filter f l = [].
Proof.
  induction l as [|x l IH]; intros H; simpl; [done|]. rewrite H by by left. apply IH. intros y Hy. apply H. by right.
Qed.

Lemma StronglySorted_middle {A} (R : A -> A -> Prop) l x k :
  StronglySorted R (l ++ x :: k) -> (forall y, y ∈ l -> R y x) /\ (forall y, y ∈ k -> R x y).
Proof.
  induction l as [|z l IH]; simpl; intros H; apply StronglySorted_inv in H as [H1 H2].
  - split; [by intros y ?%elem_of_nil|]. by rewrite Forall_forall in H2.
  - destruct (IH H1) as [Ha Hb]. split; [|done]. intros y [->|Hy]%elem_of_cons; [|by apply Ha].
    rewrite Forall_forall in H2. apply H2. apply elem_of_app. right. by left.
Qed.

(** A row compared with itself. *)
Lemma lexCmp_refl its cur c : lexCmp its cur cur = Some c -> c = Eq.
Proof.
  intros H. pose proof (lexCmp_antisym its cur cur) as Ha. rewrite H in Ha. simpl in Ha. by destruct c.
Qed.

(** ** Theorems *)

(** The cursor predicate is the order: on rows whose cells compare (NULLs
    last, whatever the direction), it is TRUE exactly on the rows strictly
    after the row the cursor was taken from in the read's lexicographic
    order. *)
Theorem cursor_selects_after (rel : relation) (cur row : list value) (cursor : gmap string value)
    (o : readOrder) (its : list (nat * OrderTerm)) (p : Predicate) :
  orderCursor o cursor = Ok p -> orderTerms rel (terms o) = Ok its ->
  Forall (comparable rel cur row cursor) its ->
  evalPredicate p rel row = Ok triTrue <-> lexCmp its cur row = Some Lt.
Proof. intros Hp Hits Hc. by eapply orderCursor_spec. Qed.

(** C22. Pages neither skip nor repeat rows: of the rows in the read's order,
    the read resumed after a row returns exactly the rows that follow it, in
    order. *)
Theorem pages_partition (db : DB) (rel out : relation) (pre post : list (list value)) (cur : list value)
    (cursor : gmap string value) (o : readOrder) (its : list (nat * OrderTerm)) (p : Predicate) :
  orderCursor o cursor = Ok p -> orderTerms rel (terms o) = Ok its ->
  Rows rel = pre ++ cur :: post ->
  StronglySorted (fun a b => lexCmp its a b = Some Lt) (Rows rel) ->
  (forall row, row ∈ Rows rel -> Forall (comparable (with_db rel db) cur row cursor) its) ->
  evalSelect db rel p = Ok out -> Rows out = post.
Proof.
  intros Hp Hits Hrows Hs Hc Hsel. unfold evalSelect in Hsel. inv_ok. simpl.
  match goal with H : filterM _ _ = Ok _ |- _ => apply filterM_filter in H; rewrite H; clear H end.
  assert (forall row, row ∈ Rows rel ->
    evalPredicate p (with_db rel db) row = Ok triTrue <-> lexCmp its cur row = Some Lt) as Hiff.
  { intros row Hr. apply (orderCursor_spec (with_db rel db) cur row cursor o its p); [done|by apply Hc|done]. }
  simpl. rewrite Hrows in *. apply StronglySorted_middle in Hs as [Hpre Hpost].
  assert (forall row, row ∈ pre ++ cur :: post -> lexCmp its cur row <> Some Lt ->
    match (v ← evalPredicate p (with_db rel db) row; Ok (bool_decide (v = triTrue))) with
    | Ok b => b | Err _ => false end = false) as Hno.
  { intros row Hr Hlt. rewrite <- (Hiff row Hr) in Hlt.
    destruct (evalPredicate p (with_db rel db) row) as [v|]; [|done]. cbn. apply bool_decide_eq_false_2. congruence. }
  rewrite List.filter_app. rewrite filter_none.
  2:{ intros row Hr. apply Hno; [apply elem_of_app; by left|]. rewrite (lexCmp_antisym its row cur), (Hpre _ Hr). done. }
  simpl. rewrite Hno; [|apply elem_of_app; right; by left|].
  2:{ intros Hlt. apply lexCmp_refl in Hlt. done. }
  apply filter_all. intros row Hr. assert (row ∈ pre ++ cur :: post) as Hr' by (apply elem_of_app; right; by right).
  by rewrite (proj2 (Hiff row Hr') (Hpost row Hr)).
Qed.

(** The key's ascending terms. *)
Definition keyTerms (key : list string) : list OrderTerm := (fun c => mkTerm c "asc" false) <$> key.

Lemma cursorPrefix_full cursor key :
  Forall (fun c => is_Some (cursor !! c)) key ->
  cursorPrefix cursor key = (fun c => (c, default VNil (cursor !! c))) <$> key.
Proof. induction 1 as [|c key [v Hv] _ IH]; simpl; [done|]. rewrite Hv. simpl. by rewrite IH. Qed.

Lemma keysetLoop_cursorLoop cursor before rest :
  Forall (fun c => exists v, cursor !! c = Some v /\ is_nil v = false) (before ++ rest) ->
  cursorLoop cursor (keyTerms before) (keyTerms rest) =
  Ok (keysetLoop ((fun c => (c, default VNil (cursor !! c))) <$> before)
                 ((fun c => (c, default VNil (cursor !! c))) <$> rest)).
Proof.
  revert before. induction rest as [|c rest IH]; intros before Hall; [done|].
  assert (exists v, cursor !! c = Some v /\ is_nil v = false) as (v & Hv & Hn).
  { rewrite Forall_forall in Hall. apply Hall. apply elem_of_app. right. by left. }
  cbn [keyTerms fmap list_fmap cursorLoop TermField]. rewrite Hv, Hn. cbn [andb].
  assert (keyTerms before ++ [mkTerm c "asc" false] = keyTerms (before ++ [c])) as ->
    by (unfold keyTerms; by rewrite fmap_app).
  change (list_fmap _ _ (fun c => mkTerm c "asc" false) rest) with (keyTerms rest).
  rewrite IH by by rewrite <- app_assoc. cbn [mbind result_bind].
  assert (is_pnil (afterValue (mkTerm c "asc" false) v) = false) as ->.
  { unfold afterValue. by rewrite Hn. }
  f_equal. cbn [keysetLoop]. rewrite fmap_app. cbn. rewrite Hv. cbn. f_equal.
  assert ((fun b => equalsValue (TermField b) (cursorAt cursor b)) <$> keyTerms before =
    (fun b => PCond (mkCond b.1 OpEq b.2)) <$> ((fun c => (c, default VNil (cursor !! c))) <$> before)) as ->.
  { unfold keyTerms. rewrite <- !list_fmap_compose. apply list_fmap_ext. intros i b Hb. simpl.
    rewrite Forall_forall in Hall. destruct (Hall b) as (w & Hw & Hwn).
    { apply elem_of_app. left. by apply list_elem_of_lookup_2 in Hb. }
    unfold equalsValue, cursorAt. simpl. rewrite Hw. simpl. by rewrite Hwn. }
  unfold afterValue. by rewrite Hn.
Qed.

(** The two ways a read resumes agree: on a full, non-NULL key cursor,
    keysetAfter is the cursor of the order by that key, ascending, and names
    the whole key. *)
Theorem keyset_is_order_cursor (key : list string) (cursor : gmap string value) (added : list string) :
  key <> [] -> size cursor = length key ->
  Forall (fun c => exists v, cursor !! c = Some v /\ is_nil v = false) key ->
  orderCursor (mkOrder (keyTerms key) true added) cursor = Ok (keysetAfter key cursor).1 /\
  (keysetAfter key cursor).2 = key.
Proof.
  intros Hne Hsz Hall. unfold orderCursor, keysetAfter. simpl.
  assert (length (keyTerms key) = length key) as Hlen by (unfold keyTerms; by rewrite length_fmap).
  rewrite Hlen, Hsz, Nat.eqb_refl. simpl.
  rewrite cursorPrefix_full by (eapply Forall_impl; [exact Hall|]; intros c (v & Hv & _); by exists v).
  change (cursorLoop cursor [] (keyTerms key)) with (cursorLoop cursor (keyTerms []) (keyTerms key)).
  rewrite (keysetLoop_cursorLoop cursor [] key Hall). cbn [mbind result_bind fmap list_fmap].
  set (cols := (fun c => (c, default VNil (cursor !! c))) <$> key).
  assert (cols.*1 = key) as Hcols.
  { unfold cols. rewrite <- list_fmap_compose. by rewrite (list_fmap_ext _ id), list_fmap_id. }
  assert (cols <> []) as Hcne by (unfold cols; by destruct key). clearbody cols.
  destruct cols as [|[c v] rest]; [done|]. cbn [keysetLoop].
  destruct (keysetLoop _ rest) as [|q qs]; simpl; simpl in Hcols; split; done.
Qed.

(** The fields of a planned order. *)
Lemma orderLoop_nodup `{GoStd} res inp rename asked acc across out :
  orderLoop res inp rename asked acc across = Ok out ->
  NoDup (TermField <$> acc) -> Forall (fun t => TermDir t = "asc"%string \/ TermDir t = "desc"%string) acc ->
  NoDup (TermField <$> out.1) /\ Forall (fun t => TermDir t = "asc"%string \/ TermDir t = "desc"%string) out.1 /\
  (length out.1 <= length acc + length asked)%nat.
Proof.
  revert acc across. induction asked as [|t asked IH]; intros acc across Hl Hnd Hd; simpl in Hl.
  { simplify_eq. simpl. split_and!; [done|done|lia]. }
  apply bind_ok in Hl as ([term rel] & Et & Hl). case_bool_decide as Hin.
  - destruct rel; [|done]. destruct (IH _ _ Hl Hnd Hd) as (? & ? & ?). split_and!; [done|done|]. simpl. lia.
  - apply IH in Hl as (? & ? & Hlen).
    + split_and!; [done|done|]. rewrite length_app in Hlen. simpl in *. lia.
    + rewrite fmap_app. apply NoDup_app. split_and!; [done| |apply NoDup_singleton].
      intros x Hx ->%list_elem_of_singleton. done.
    + apply Forall_app. split; [done|]. constructor; [|by apply Forall_nil_2].
      unfold orderTerm in Et. destruct (negb _ && negb _) eqn:Ed in Et; [done|].
      apply andb_false_iff in Ed. rewrite !negb_false_iff, !bool_decide_eq_true in Ed.
      destruct (pathOf _ _); [case_match; [done|]; by simplify_eq|].
      apply bind_ok in Et as (u & _ & Et). destruct (AttributeByName _ _); case_match; by simplify_eq.
Qed.

Lemma addKey_spec key acc added :
  NoDup (TermField <$> acc) ->
  NoDup (TermField <$> (addKey key acc added).1) /\
  (forall c, c ∈ key -> c ∈ TermField <$> (addKey key acc added).1) /\
  (forall c, c ∈ TermField <$> acc -> c ∈ TermField <$> (addKey key acc added).1) /\
  (forall t, t ∈ (addKey key acc added).1 -> t ∈ acc \/ TermDir t = "asc"%string).
Proof.
  revert acc added. induction key as [|c key IH]; intros acc added Hnd; simpl.
  { split_and!; try done; [by intros c ?%elem_of_nil|by left]. }
  case_bool_decide as Hin.
  - destruct (IH acc added Hnd) as (? & Hk & Hacc & ?). split_and!; try done.
    intros x [->|Hx]%elem_of_cons; auto.
  - destruct (IH (acc ++ [mkTerm c "asc" false]) (added ++ [c])) as (? & Hk & Hacc & Hd).
    { rewrite fmap_app. apply NoDup_app. split_and!; [done| |apply NoDup_singleton].
      intros x Hx ->%list_elem_of_singleton. done. }
    rewrite fmap_app in Hacc. split_and!; try done.
    + intros x [->|Hx]%elem_of_cons; [|auto]. apply Hacc, elem_of_app. right. by left.
    + intros x Hx. apply Hacc, elem_of_app. by left.
    + intros t Ht. destruct (Hd t Ht) as [[?|Ht']%elem_of_app|?]; [by left| |by right].
      apply list_elem_of_singleton in Ht' as ->. by right.
Qed.

(** A planned order names each field once, by asc or desc only, and at
    most the asked number of fields besides the key; when it pages, it ends in
    a total order: every column of the entity's cursor key is among its terms
    and none of them is masked. *)
Theorem planned_order_pages_by_key `{GoStd} (res : Resolved) (inp : readInput) (rename : gmap string string) (o : readOrder) :
  planReadOrder res inp rename = Ok o ->
  NoDup (order_fields o) /\
  Forall (fun t => TermDir t = "asc"%string \/ TermDir t = "desc"%string) (terms o) /\
  (pageable o = true -> RDistinct inp = false /\ exists key, CursorKey (REntity res) = Some key /\
     (forall c, c ∈ key -> c ∈ order_fields o) /\ validateUnmaskedFields res key = Ok tt).
Proof.
  unfold planReadOrder, order_fields. destruct (ROrderBy inp) as [|t0 asked0]; intros Hp.
  { simplify_eq. simpl. split_and!; [apply NoDup_nil_2|by apply Forall_nil_2|done]. }
  case_match; [done|]. apply bind_ok in Hp as ([acc across] & Hl & Hp).
  apply orderLoop_nodup in Hl as (Hnd & Hd & _); [|apply NoDup_nil_2|by apply Forall_nil_2]. simpl in Hnd, Hd.
  destruct (CursorKey (REntity res)) as [key|]; [|by simplify_eq].
  destruct (negb (RDistinct inp) && negb (hasMaskedField res key)) eqn:Ek; [|by simplify_eq].
  apply andb_true_iff in Ek as [Ed Em]. pose proof (addKey_spec key acc [] Hnd) as (Hnd' & Hkey & _ & Hdir).
  destruct (addKey key acc []) as [acc' added]. simplify_eq. simpl in *. split_and!; [done| |].
  - apply Forall_forall. intros t Ht. rewrite Forall_forall in Hd. destruct (Hdir t Ht); auto.
  - intros _. split; [by destruct (RDistinct inp)|]. exists key. split_and!; [done|done|].
    unfold hasMaskedField in Em. rewrite negb_involutive in Em.
    by destruct (validateUnmaskedFields res key) as [[]|].
Qed.

(** ** Witnesses *)

Definition pageOrder : readOrder := mkOrder [mkTerm "n" "desc" true; mkTerm "id" "asc" false] true ["id"%string].
Definition pageCursor : gmap string value := {["n"%string := VInt KInt 5; "id"%string := VInt KInt 2]}.
Definition pageRow (n : value) (id : Z) : list value := [VInt KInt id; n].
Definition pageRel : relation :=
  mkRel ["id"; "n"] [pageRow (VInt KInt 9) 1; pageRow (VInt KInt 5) 2; pageRow (VInt KInt 5) 3; pageRow VNil 4] ∅ 0.
Definition pageTerms : list (nat * OrderTerm) := [(1%nat, mkTerm "n" "desc" true); (0%nat, mkTerm "id" "asc" false)].

Lemma page_comparable n id c1 c2 :
  termCmp "desc" (VInt KInt 5) n = Some c1 -> termCmp "asc" (VInt KInt 2) (VInt KInt id) = Some c2 ->
  Forall (comparable (with_db pageRel ∅) (pageRow (VInt KInt 5) 2) (pageRow n id) pageCursor) pageTerms.
Proof.
  intros H1 H2. constructor; [|constructor; [|by apply Forall_nil_2]].
  - exists (VInt KInt 5), n, c1. constructor; try done. by right.
  - exists (VInt KInt 2), (VInt KInt id), c2. constructor; try done. by left.
Qed.

Lemma cursor_selects_after_witness :
  match orderCursor pageOrder pageCursor with
  | Ok p => evalPredicate p pageRel (pageRow VNil 4) = Ok triTrue <->
            lexCmp pageTerms (pageRow (VInt KInt 5) 2) (pageRow VNil 4) = Some Lt
  | Err _ => False
  end.
Proof.
  destruct (orderCursor pageOrder pageCursor) as [p|] eqn:E; [|vm_compute in E; discriminate E].
  apply (cursor_selects_after pageRel (pageRow (VInt KInt 5) 2) (pageRow VNil 4) pageCursor pageOrder pageTerms p E);
    [reflexivity|].
  eapply (page_comparable VNil 4); vm_compute; reflexivity.
Defined.

Lemma pages_partition_witness :
  match orderCursor pageOrder pageCursor with
  | Ok p => match evalSelect ∅ pageRel p with
            | Ok out => Rows out = [pageRow (VInt KInt 5) 3; pageRow VNil 4]
            | Err _ => False
            end
  | Err _ => False
  end.
Proof.
  destruct (orderCursor pageOrder pageCursor) as [p|] eqn:E; [|vm_compute in E; discriminate E].
  destruct (evalSelect ∅ pageRel p) as [out|] eqn:Es.
  2:{ vm_compute in E. injection E as <-. vm_compute in Es. discriminate Es. }
  apply (pages_partition ∅ pageRel out [pageRow (VInt KInt 9) 1] [pageRow (VInt KInt 5) 3; pageRow VNil 4]
    (pageRow (VInt KInt 5) 2) pageCursor pageOrder pageTerms p E); [reflexivity|reflexivity| | |exact Es].
  - repeat constructor.
  - intros row Hr. rewrite list_elem_of_In in Hr. destruct Hr as [<-|[<-|[<-|[<-|[]]]]];
      eapply page_comparable; vm_compute; reflexivity.
Defined.

Lemma keyset_is_order_cursor_witness :
  orderCursor (mkOrder (keyTerms ["n"; "id"]) true []) pageCursor = Ok (keysetAfter ["n"; "id"] pageCursor).1.
Proof.
  apply (keyset_is_order_cursor ["n"%string; "id"%string] pageCursor []); [discriminate|reflexivity|].
  repeat constructor; eexists; split; reflexivity.
Defined.

Lemma planned_order_pages_by_key_witness :
  match @planReadOrder asciiStd (mkResolved demoEntity (visibleOf demoEntity))
          (mkInput "orders" "" [] [] [] [mkOrderJSON "amount" "DESC"] false 10 0 ∅) ∅ with
  | Ok o => NoDup (order_fields o) /\ order_fields o = ["total"%string; "id"%string]
  | Err _ => False
  end.
Proof.
  destruct (planReadOrder _ _ _) as [o|] eqn:E; [|vm_compute in E; discriminate E].
  destruct (@planned_order_pages_by_key asciiStd _ _ _ _ E) as [H _]. split; [exact H|].
  vm_compute in E. injection E as <-. reflexivity.
Defined.
