(* ===== verification/Mask.v ===== *)
(** Masking of returned values: core/mask/mask.go. *)

From Stdlib Require Import QArith.
From S2P Require Import Prelude GoString Value Numbers.

#[global] Open Scope Z_scope.

(** ** The rules *)

Definition redacted : string := "***".
Definition digitsMask : string := "****".

(** strings.IndexByte(s, '@') *)
Fixpoint indexAt (s : string) : option nat :=
  match s with
  | EmptyString => None
  | String c s => if Ascii.eqb c "@" then Some 0%nat else S <$> indexAt s
  end.

Section Mask.
Context `{GoStd}.

(** A nil *big.Rat is a fmt.Stringer whose String panics. *)
Definition coerceString (v : value) : result (option string) :=
  match v with
  | VString s | VBytes s | VStringer s | VNumber s => Ok (Some s)
  | VRat (Some q) => let r := Qred q in Ok (Some (pretty (Qnum r) +:+ "/" +:+ pretty (Zpos (Qden r)))%string)
  | VRat None => Err Panic
  | VInt _ n => Ok (Some (pretty n))
  | VFloat64 f => Ok (Some (sprintFloat64 f))
  | VFloat32 f => Ok (Some (sprintFloat32 f))
  | VNil | VBool _ | VList _ | VMap _ | VOther _ => Ok None
  end.

(** maskEmail on the text, when there is one. *)
Definition maskEmailText (s : string) : string :=
  if decide (s = "") then s
  else match indexAt s with
  | Some (S n as at_) => str_take (firstWidth s) s +:+ redacted +:+ str_drop at_ s
  | _ => redacted
  end.

Definition maskEmail (v : value) : result value :=
  s ← coerceString v;
  Ok (VString (match s with Some s => maskEmailText s | None => redacted end)).

Definition maskDigitsRunes (r : list Z) : string :=
  let n := length r in
  if (n <? 8)%nat then redacted
  else if (n <? 11)%nat then of_runes (take 2 r) +:+ digitsMask +:+ of_runes (drop (n - 2) r)
  else of_runes (take 3 r) +:+ digitsMask +:+ of_runes (drop (n - 4) r).

Definition maskDigits (v : value) : result value :=
  s ← coerceString v;
  Ok (VString (match s with Some s => maskDigitsRunes (runes s) | None => redacted end)).

(** The built-in rules, by name. *)
Definition builtins (rule : string) : option (value -> result value) :=
  if decide (rule = "email") then Some maskEmail
  else if decide (rule = "phone") then Some maskDigits
  else if decide (rule = "idcard") then Some maskDigits
  else if decide (rule = "secret") then Some (fun _ => Ok (VString redacted))
  else None.

Definition BuiltinRules : list string := ["email"; "idcard"; "phone"; "secret"].

(** RuleMasker.Mask, [rules] its map. *)
Definition Mask (rules : string -> option (value -> result value)) (rule : string) (v : value) : result value :=
  if bool_decide (rule = "") || is_nil v then Ok v
  else match rules rule with Some fn => fn v | None => Ok v end.

Definition HasRule (rules : string -> option (value -> result value)) (name : string) : bool :=
  bool_decide (is_Some (rules name)).

(** ** What a mask shows *)

(** The characters of a number its mask shows: how many at the front and at
    the back. *)
Definition shown (n : nat) : nat * nat :=
  if (n <? 8)%nat then (0, 0)%nat else if (n <? 11)%nat then (2, 2)%nat else (3, 4)%nat.

Lemma maskDigitsRunes_shown r1 r2 :
  shown (length r1) = shown (length r2) ->
  take (shown (length r1)).1 r1 = take (shown (length r1)).1 r2 ->
  drop (length r1 - (shown (length r1)).2) r1 = drop (length r2 - (shown (length r1)).2) r2 ->
  maskDigitsRunes r1 = maskDigitsRunes r2.
Proof.
  unfold maskDigitsRunes, shown.
  destruct (length r1 <? 8)%nat, (length r2 <? 8)%nat; simpl; try (repeat case_match; done).
  destruct (length r1 <? 11)%nat, (length r2 <? 11)%nat; simpl; try done; intros _ -> ->; done.
Qed.

(** A masked phone or id number does not tell what it hides: two numbers
    with the same shown characters (none under 8 characters, the first and
    last two of 8 to 10, the first three and last four of 11 or more) mask to
    the same text, whatever the rest and its length; when any is shown, at
    least four characters stay hidden (so at most half of 8 to 10 show). *)
Theorem mask_digits_hides_rest (s1 s2 : string) (rule : string) :
  rule = "phone"%string \/ rule = "idcard"%string ->
  let n1 := length (runes s1) in let n2 := length (runes s2) in
  shown n1 = shown n2 ->
  take (shown n1).1 (runes s1) = take (shown n1).1 (runes s2) ->
  drop (n1 - (shown n1).2) (runes s1) = drop (n2 - (shown n1).2) (runes s2) ->
  Mask builtins rule (VString s1) = Mask builtins rule (VString s2) /\
  ((shown n1).1 + (shown n1).2 + 4 <= n1 \/ ((shown n1).1 = 0 /\ (shown n1).2 = 0))%nat.
Proof.
  intros Hrule n1 n2 Hs Ht Hd. split.
  - assert (maskDigits (VString s1) = maskDigits (VString s2)) as Hm.
    { unfold maskDigits. simpl. do 2 f_equal. by apply maskDigitsRunes_shown. }
    destruct Hrule as [-> | ->]; exact Hm.
  - unfold shown. destruct (Nat.ltb_spec n1 8); [by right|left]. destruct (Nat.ltb_spec n1 11); simpl; lia.
Qed.

(** A masked address shows its first character and what follows the at
    sign, and nothing else: addresses that agree there mask alike; one with
    no local part or no at sign is redacted whole. *)
Theorem mask_email_hides_local (s1 s2 : string) :
  (forall s n, indexAt s = Some (S n) ->
     Mask builtins "email" (VString s) =
       Ok (VString (str_take (firstWidth s) s +:+ redacted +:+ str_drop (S n) s))) /\
  (s1 <> ""%string -> indexAt s1 = None \/ indexAt s1 = Some 0%nat ->
     Mask builtins "email" (VString s1) = Ok (VString redacted)) /\
  (forall n1 n2, indexAt s1 = Some (S n1) -> indexAt s2 = Some (S n2) ->
     str_take (firstWidth s1) s1 = str_take (firstWidth s2) s2 -> str_drop (S n1) s1 = str_drop (S n2) s2 ->
     Mask builtins "email" (VString s1) = Mask builtins "email" (VString s2)).
Proof.
  assert (forall s n, indexAt s = Some (S n) ->
     Mask builtins "email" (VString s) =
       Ok (VString (str_take (firstWidth s) s +:+ redacted +:+ str_drop (S n) s))) as Hat.
  { intros s n Hi. assert (s <> ""%string) as Hne by by intros ->.
    unfold Mask, builtins. simpl. unfold maskEmail. simpl. unfold maskEmailText. by rewrite decide_False, Hi. }
  split_and!; [done| |].
  - intros Hne Hi. unfold Mask, builtins. simpl. unfold maskEmail. simpl. unfold maskEmailText.
    rewrite decide_False by done. by destruct Hi as [-> | ->].
  - intros n1 n2 H1 H2 Hf Hd. by rewrite (Hat _ _ H1), (Hat _ _ H2), Hf, Hd.
Qed.

(** Every rule assembly accepts masks: no value but NULL passes as it is
    unless it is its own mask. *)
Lemma builtin_masks rule v : rule ∈ BuiltinRules -> v <> VNil ->
  Mask builtins rule v = Err Panic \/ exists s, Mask builtins rule v = Ok (VString s).
Proof.
  intros Hr Hv. unfold Mask. assert (is_nil v = false) as -> by by destruct v.
  rewrite list_elem_of_In in Hr.
  destruct Hr as [<-|[<-|[<-|[<-|[]]]]]; simpl; [| | |by right; eexists];
    unfold maskEmail, maskDigits, coerceString;
    destruct v as [| | | | |[|]| | | | | | |]; try done; try (left; reflexivity); right; eexists; reflexivity.
Qed.

End Mask.

Lemma mask_digits_hides_rest_witness :
  @Mask (@builtins asciiStd) "phone" (VString "13800138000") = @Mask (@builtins asciiStd) "phone" (VString "138999999998000").
Proof.
  apply (@mask_digits_hides_rest asciiStd "13800138000" "138999999998000" "phone");
    [left; reflexivity|vm_compute; reflexivity|vm_compute; reflexivity|vm_compute; reflexivity].
Defined.

Lemma mask_email_hides_local_witness :
  @Mask (@builtins asciiStd) "email" (VString "ann@x.org") = @Mask (@builtins asciiStd) "email" (VString "albert@x.org").
Proof.
  apply (@mask_email_hides_local asciiStd "ann@x.org" "albert@x.org") with (n1 := 2%nat) (n2 := 5%nat);
    vm_compute; reflexivity.
Defined.
