(* ===== verification/Filter.v ===== *)
(** Filters: core/tool/filter.go, with the JSON values of core/tool/tool.go
    (normalizeJSONValue). *)

From S2P Require Import Prelude GoString Value Relalg Numbers Order.

Fixpoint has_any_byte (cs : list ascii) (s : string) : bool :=
  match s with EmptyString => false | String c s => existsb (Ascii.eqb c) cs || has_any_byte cs s end.

Fixpoint normalizeJSONValue (v : value) : result value :=
  match v with
  | VNumber x =>
      match parseInt64 x with
      | Some i => Ok (VInt KInt64 i)
      | None => if has_any_byte ["."; "e"; "E"]%char x then Ok v else Err ErrInvalidInput
      end
  | VList l => l ← mapM normalizeJSONValue l; Ok (VList l)
  | VMap m => m ← mapM (fun kv => x ← normalizeJSONValue kv.2; Ok (kv.1, x)) m; Ok (VMap m)
  | _ => Ok v
  end.

(** ** Conversion *)

Definition maxFilterDepth : nat := 4.

Definition is_list (v : value) : option (list value) := match v with VList l => Some l | _ => None end.

Definition conditionValue (op : Op) (raw : value) : result value :=
  v ← normalizeJSONValue raw;
  if is_nil v && negb (bool_decide (op = OpIsNull)) && negb (bool_decide (op = OpIsNotNull)) then Err ErrInvalidInput
  else if (bool_decide (op = OpIn) || bool_decide (op = OpNotIn)) &&
          match is_list v with Some l => (length l =? 0)%nat | None => true end
  then Err ErrInvalidInput
  else Ok v.

(** filterPredicates' loop: the count [n] threaded through. *)
Definition filterPredicates (one : condJSON -> nat -> result (Predicate * nat)) :
    list condJSON -> nat -> result (list Predicate * nat) :=
  fix go (conds : list condJSON) (n : nat) : result (list Predicate * nat) :=
    match conds with
    | [] => Ok ([], n)
    | c :: conds => '(p, n) ← one c n; '(ps, n) ← go conds n; Ok (p :: ps, n)
    end.

Definition is_some {A} (o : option A) : bool := match o with Some _ => true | None => false end.

(** How many of the forms an entry has. *)
Definition forms (c : condJSON) : nat :=
  length (List.filter id
    [negb (bool_decide (JField c = "")) || negb (bool_decide (JOp c = "")) || negb (is_nil (JValue c));
     is_some (JAny c); is_some (JAll c); is_some (JNot c); negb (bool_decide (JExists c = ""))]).

Fixpoint filterPredicate (c : condJSON) (depth n : nat) {struct c} : result (Predicate * nat) :=
  let ex := negb (bool_decide (JExists c = "")) in
  if negb (forms c =? 1)%nat || is_some (JFilter c) && negb ex then Err ErrInvalidInput
  else if (is_some (JAny c) || is_some (JAll c) || is_some (JNot c) || ex) && (maxFilterDepth <=? depth)%nat
  then Err ErrInvalidInput
  else if ex then
    '(preds, n) ← match JFilter c with
                  | Some l => filterPredicates (fun q => filterPredicate q (S depth)) l n
                  | None => Ok ([], n)
                  end;
    Ok (PExists (mkRef "" (JExists c)) [] (conjunction preds), n)
  else match JNot c with
  | Some q => '(p, n) ← filterPredicate q (S depth) n; Ok (PNot p, n)
  | None =>
      match JAny c, JAll c with
      | Some group, _ =>   (* filterGroup *)
          if (length group =? 0)%nat then Err ErrInvalidInput
          else
            '(preds, n) ← filterPredicates (fun q => filterPredicate q (S depth)) group n;
            Ok (match preds with [p] => p | ps => POr ps end, n)
      | None, Some group =>
          if (length group =? 0)%nat then Err ErrInvalidInput
          else
            '(preds, n) ← filterPredicates (fun q => filterPredicate q (S depth)) group n;
            Ok (match preds with [p] => p | ps => PAnd ps end, n)
      | None, None =>
          let op := Op_of_string (JOp c) in
          if negb (Op_Valid op) then Err ErrInvalidInput
          else v ← conditionValue op (JValue c); Ok (PCond (mkCond (JField c) op v), S n)
      end
  end.

Definition filterToPredicate (conds : list condJSON) (maxConds : Z) : result Predicate :=
  '(preds, n) ← filterPredicates (fun c => filterPredicate c 0) conds 0;
  if (0 <? maxConds) && (maxConds <? Z.of_nat n) then Err ErrInvalidInput
  else Ok (match preds with [] => PNil | [p] => p | ps => PAnd ps end).

Fixpoint filterWalk (c : condJSON) : list string :=
  if negb (bool_decide (JExists c = "")) then []
  else match JNot c with
  | Some q => filterWalk q
  | None =>
      match JAny c, JAll c with
      | None, None => [JField c]
      | a, b => match a with Some l => flat_map filterWalk l | None => [] end
                ++ match b with Some l => flat_map filterWalk l | None => [] end
      end
  end.

Definition filterFields (conds : list condJSON) : list string := flat_map filterWalk conds.

(** ** Induction *)

Section condJSON_ind.
Context (P : condJSON -> Prop).
Hypothesis step : forall c,
  (forall l, JAny c = Some l -> Forall P l) -> (forall l, JAll c = Some l -> Forall P l) ->
  (forall q, JNot c = Some q -> P q) -> (forall l, JFilter c = Some l -> Forall P l) -> P c.

Fixpoint condJSON_ind' (c : condJSON) : P c :=
  let all := fix all (l : list condJSON) : Forall P l :=
    match l with [] => Forall_nil_2 P | q :: l => Forall_cons_2 P q l (condJSON_ind' q) (all l) end in
  let opt (o : option (list condJSON)) : forall l, o = Some l -> Forall P l :=
    match o with
    | Some l0 => fun l e => match e in _ = o' return match o' with Some l => Forall P l | None => True end with
                            | eq_refl => all l0 end
    | None => fun l e => ltac:(discriminate e)
    end in
  let '(mkCondJSON f o v any all_ nt ex fl) as c := c return P c in
  step (mkCondJSON f o v any all_ nt ex fl) (opt any) (opt all_)
    (match nt as o return forall q, o = Some q -> P q with
     | Some q0 => fun q e => match e in _ = o' return match o' with Some q => P q | None => True end with
                             | eq_refl => condJSON_ind' q0 end
     | None => fun q e => ltac:(discriminate e)
     end) (opt fl).
End condJSON_ind.

(** ** What a filter becomes *)

(** Every condition, inside EXISTS too. *)
Fixpoint allConditions (p : Predicate) : list Condition :=
  match p with
  | PNil => []
  | PCond c => [c]
  | PAnd ps | POr ps => flat_map allConditions ps
  | PNot q => allConditions q
  | PExists _ _ q => allConditions q
  end.

Definition maxDepth (ds : list nat) : nat := foldr Nat.max 0%nat ds.

Fixpoint pdepth (p : Predicate) : nat :=
  match p with
  | PNil | PCond _ => 0%nat
  | PAnd ps | POr ps => S (maxDepth (map pdepth ps))
  | PNot q => S (pdepth q)
  | PExists _ _ q => S (pdepth q)
  end.

(** A condition as conditionValue leaves it. *)
Definition checked_condition (c : Condition) : Prop :=
  Op_Valid (COp c) = true /\
  (CValue c = VNil -> COp c = OpIsNull \/ COp c = OpIsNotNull) /\
  (COp c = OpIn \/ COp c = OpNotIn -> exists l, CValue c = VList l /\ l <> []).

Record converted (p : Predicate) (fields : list string) (added depth : nat) : Prop := {
  cv_fields : CField <$> conditions p = fields;
  cv_count : length (allConditions p) = added;
  cv_checked : Forall checked_condition (allConditions p);
  cv_depth : (pdepth p + 2 * depth <= 2 * maxFilterDepth)%nat;
  cv_not_nil : p <> PNil;
}.

Lemma maxDepth_le ds k : Forall (fun d => d <= k)%nat ds -> (maxDepth ds <= k)%nat.
Proof. induction 1; simpl; lia. Qed.

(** The list of converted entries. *)
Lemma filterPredicates_converted (one : condJSON -> nat -> result (Predicate * nat)) conds depth n preds n' :
  Forall (fun c => forall n p n', one c n = Ok (p, n') ->
    exists added, n' = (n + added)%nat /\ converted p (filterWalk c) added depth) conds ->
  filterPredicates one conds n = Ok (preds, n') ->
  CField <$> flat_map conditions preds = flat_map filterWalk conds /\
  n' = (n + length (flat_map allConditions preds))%nat /\
  Forall checked_condition (flat_map allConditions preds) /\
  Forall (fun d => d + 2 * depth <= 2 * maxFilterDepth)%nat (map pdepth preds) /\
  Forall (fun p => p <> PNil) preds /\ length preds = length conds.
Proof.
  intros Hall. revert n preds. induction Hall as [|c conds Hc _ IH]; intros n preds Hf; simpl in Hf.
  { simplify_eq. simpl. split_and!; try done; by apply Forall_nil_2 || lia. }
  apply bind_ok in Hf as ([p n1] & E & Hf). apply bind_ok in Hf as ([ps n2] & E2 & Hf). simplify_eq.
  destruct (Hc _ _ _ E) as (added & -> & [H1 H2 H3 H4 H5]).
  destruct (IH _ _ E2) as (G1 & -> & G3 & G4 & G5 & G6). simpl.
  rewrite fmap_app, length_app, H1, G1, H2, G6. split_and!; try done; [lia|by apply Forall_app|by constructor|by constructor].
Qed.

Lemma conditionValue_checked op raw v f :
  Op_Valid op = true -> conditionValue op raw = Ok v -> checked_condition (mkCond f op v).
Proof.
  intros Ho Hv. unfold conditionValue in Hv. apply bind_ok in Hv as (x & _ & Hv).
  destruct (is_nil x && _ && _) eqn:E1 in Hv; [done|]. destruct (_ && _) eqn:E2 in Hv; [done|]. simplify_eq.
  unfold checked_condition. simpl. split_and!; [done| |].
  - intros ->. simpl in E1. apply andb_false_iff in E1. rewrite !negb_false_iff, !bool_decide_eq_true in E1. done.
  - intros Hop. apply andb_false_iff in E2 as [E2|E2].
    + apply orb_false_iff in E2. rewrite !bool_decide_eq_false in E2. tauto.
    + destruct v; try done. simpl in E2. exists l. split; [done|]. by destruct l.
Qed.

Ltac dlia := unfold maxFilterDepth in *; lia.

(** A group of converted entries: AND, OR, or the only one. *)
Lemma group_converted (mk : list Predicate -> Predicate) preds fields depth :
  (forall ps, conditions (mk ps) = flat_map conditions ps /\ allConditions (mk ps) = flat_map allConditions ps /\
              pdepth (mk ps) = S (maxDepth (map pdepth ps)) /\ mk ps <> PNil) ->
  preds <> [] -> CField <$> flat_map conditions preds = fields ->
  Forall checked_condition (flat_map allConditions preds) ->
  Forall (fun d => d + 2 * S depth <= 2 * maxFilterDepth)%nat (map pdepth preds) ->
  Forall (fun p => p <> PNil) preds ->
  converted (match preds with [p] => p | ps => mk ps end) fields (length (flat_map allConditions preds)) depth.
Proof.
  intros Hmk Hne Hf Hc Hd Hn. destruct preds as [|p [|q ps]]; [done| |].
  - simpl in *. rewrite app_nil_r in *. apply Forall_cons in Hd as [Hd _]. apply Forall_cons in Hn as [Hn _].
    constructor; try done. dlia.
  - destruct (Hmk (p :: q :: ps)) as (H1 & H2 & H3 & H4). constructor; rewrite ?H1, ?H2, ?H3; try done.
    assert (maxDepth (map pdepth (p :: q :: ps)) <= 2 * maxFilterDepth - 2 * S depth)%nat.
    { apply maxDepth_le. eapply Forall_impl; [exact Hd|]. simpl. intros d Hd'. dlia. }
    assert (2 * S depth <= 2 * maxFilterDepth)%nat by (apply Forall_cons in Hd as [Hd _]; dlia). dlia.
Qed.

(** EXISTS over converted entries: the condition's own entity has no field in it. *)
Lemma exists_converted r on preds depth :
  (S depth <= maxFilterDepth)%nat -> Forall checked_condition (flat_map allConditions preds) ->
  Forall (fun d => d + 2 * S depth <= 2 * maxFilterDepth)%nat (map pdepth preds) ->
  converted (PExists r on (conjunction preds)) [] (length (flat_map allConditions preds)) depth.
Proof.
  intros Hle Hc Hd. assert (maxDepth (map pdepth preds) <= 2 * maxFilterDepth - 2 * S depth)%nat as Hm.
  { apply maxDepth_le. eapply Forall_impl; [exact Hd|]. simpl. intros d Hd'. dlia. }
  destruct preds as [|q [|q' ps]]; constructor; simpl in *; rewrite ?app_nil_r in *; try done; dlia.
Qed.

Lemma forms_any_all c a b : forms c = 1%nat -> JAny c = Some a -> JAll c = Some b -> False.
Proof.
  unfold forms. intros Hf Ha Hb. rewrite Ha, Hb in Hf. simpl in Hf. revert Hf. by repeat case_match.
Qed.

Lemma filterPredicates_deeper depth l n preds n' :
  (S depth <= maxFilterDepth)%nat ->
  Forall (fun c => forall depth n p n', (depth <= maxFilterDepth)%nat -> filterPredicate c depth n = Ok (p, n') ->
    exists added, n' = (n + added)%nat /\ converted p (filterWalk c) added depth) l ->
  filterPredicates (fun q => filterPredicate q (S depth)) l n = Ok (preds, n') ->
  CField <$> flat_map conditions preds = flat_map filterWalk l /\
  n' = (n + length (flat_map allConditions preds))%nat /\
  Forall checked_condition (flat_map allConditions preds) /\
  Forall (fun d => d + 2 * S depth <= 2 * maxFilterDepth)%nat (map pdepth preds) /\
  Forall (fun p => p <> PNil) preds /\ length preds = length l.
Proof.
  intros Hle Hall. apply filterPredicates_converted. eapply Forall_impl; [exact Hall|]. simpl. eauto.
Qed.

Lemma filterPredicate_converted c : forall depth n p n',
  (depth <= maxFilterDepth)%nat -> filterPredicate c depth n = Ok (p, n') ->
  exists added, n' = (n + added)%nat /\ converted p (filterWalk c) added depth.
Proof.
  induction c as [c IHany IHall IHnot IHfilter] using condJSON_ind'. intros depth n p n' Hle Hf.
  pose proof (forms_any_all c) as Hforms.
  destruct c as [fld op v any all_ nt ex fl]. simpl in IHany, IHall, IHnot, IHfilter.
  cbn [filterPredicate JExists JFilter JAny JAll JNot JField JOp JValue] in *.
  destruct (negb (forms _ =? 1)%nat || _) eqn:Ef in Hf; [done|].
  apply orb_false_iff in Ef as [Ef _]. apply negb_false_iff, Nat.eqb_eq in Ef.
  destruct (_ && (maxFilterDepth <=? depth)%nat) eqn:Ed in Hf; [done|].
  assert (is_some any || is_some all_ || is_some nt || negb (bool_decide (ex = "")) = true -> S depth <= maxFilterDepth)%nat
    as Hdepth.
  { intros Hg. rewrite Hg, andb_true_l in Ed. apply Nat.leb_gt in Ed. done. }
  clear Ed. cbn [filterWalk JExists JAny JAll JNot JField].
  destruct (negb (bool_decide (ex = ""))).
  { specialize (Hdepth ltac:(by rewrite !orb_true_r)). apply bind_ok in Hf as ([preds m] & E & Hf). injection Hf as <- <-.
    destruct fl as [l|].
    - eapply filterPredicates_deeper in E as (_ & -> & G3 & G4 & _); [|done|by apply IHfilter].
      eexists. split; [reflexivity|]. by apply exists_converted.
    - injection E as <- <-. exists 0%nat. split; [lia|]. by apply (exists_converted _ _ []); [|apply Forall_nil_2..]. }
  destruct nt as [q|].
  { specialize (Hdepth ltac:(by rewrite orb_true_r)). apply bind_ok in Hf as ([p1 m] & E & Hf). injection Hf as <- <-.
    destruct (IHnot q eq_refl _ _ _ _ Hdepth E) as (added & -> & [H1 H2 H3 H4 H5]). exists added. split; [done|].
    constructor; try done. simpl pdepth. lia. }
  destruct any as [l|]; [destruct all_ as [k|]; [by destruct (Hforms l k)|]|destruct all_ as [k|]].
  1,2: specialize (Hdepth eq_refl); destruct (length _ =? 0)%nat eqn:El; [done|];
    apply bind_ok in Hf as ([preds m] & E & Hf); injection Hf as <- <-;
    eapply filterPredicates_deeper in E as (G1 & -> & G3 & G4 & G5 & G6); [|done|eauto];
    eexists; (split; [reflexivity|]); rewrite ?app_nil_r.
  - apply (group_converted POr); try done. intros ->. by destruct l.
  - apply (group_converted PAnd); try done. intros ->. by destruct k.
  - destruct (Op_Valid (Op_of_string op)) eqn:Eo; simpl in Hf; [|done].
    apply bind_ok in Hf as (w & Ew & Hf). injection Hf as <- <-. exists 1%nat. split; [lia|].
    constructor; simpl; try done; [|dlia].
    constructor; [by eapply conditionValue_checked|by apply Forall_nil_2].
Qed.

(** The facts of a whole filter. *)
Lemma filterToPredicate_converted conds maxConds p :
  filterToPredicate conds maxConds = Ok p ->
  CField <$> conditions p = filterFields conds /\
  (0 < maxConds -> Z.of_nat (length (allConditions p)) <= maxConds) /\
  Forall checked_condition (allConditions p) /\ (pdepth p <= 2 * maxFilterDepth + 1)%nat.
Proof.
  unfold filterToPredicate, filterFields. intros Hf. apply bind_ok in Hf as ([preds n] & E & Hf).
  apply (filterPredicates_converted _ _ 0) in E as (G1 & -> & G3 & G4 & G5 & G6).
  2:{ apply Forall_forall. intros c _ k q k'. apply filterPredicate_converted. lia. }
  destruct (_ && _) eqn:Em; [done|]. injection Hf as <-.
  assert (maxDepth (map pdepth preds) <= 2 * maxFilterDepth)%nat as Hm.
  { apply maxDepth_le. eapply Forall_impl; [exact G4|]. simpl. intros d Hd. lia. }
  assert (0 < maxConds -> Z.of_nat (length (flat_map allConditions preds)) <= maxConds) as Hn.
  { intros Hpos. rewrite Nat.add_0_l in Em. apply andb_false_iff in Em as [Em%Z.ltb_ge|Em%Z.ltb_ge]; lia. }
  destruct preds as [|q [|q' ps]]; simpl in *; rewrite ?app_nil_r in *; split_and!; try done; dlia.
Qed.

(** ** Properties *)

(** The fields a request is checked for are the fields its filter reads: the conditions of the predicate
    a filter becomes compare exactly the fields filterFields lists, in the same order and with no other, for
    every nesting of any, all, not and exists groups. *)
Theorem filter_fields_exact conds maxConds p :
  filterToPredicate conds maxConds = Ok p -> CField <$> conditions p = filterFields conds.
Proof. intros H. apply (filterToPredicate_converted _ _ _ H). Qed.

(** A converted filter is bounded and well shaped: no more conditions than the limit (when it is
    positive) counting those inside exists, a predicate nested no deeper than two levels per group level plus
    the top conjunction, every operator known, no comparison with null other than is_null and is_not_null,
    and every in and not_in with a list that is not empty. *)
Theorem filter_bounded conds maxConds p :
  0 < maxConds -> filterToPredicate conds maxConds = Ok p ->
  Z.of_nat (length (allConditions p)) <= maxConds /\ (pdepth p <= 2 * maxFilterDepth + 1)%nat /\
  Forall (fun c => Op_Valid (COp c) = true /\
                   (CValue c = VNil -> COp c = OpIsNull \/ COp c = OpIsNotNull) /\
                   (COp c = OpIn \/ COp c = OpNotIn -> exists l, CValue c = VList l /\ l <> [])) (allConditions p).
Proof. intros Hm H. apply filterToPredicate_converted in H as (_ & H2 & H3 & H4). auto. Qed.

(** A filter with every kind of group. *)
Definition condOn (f op : string) (v : value) : condJSON := mkCondJSON f op v None None None "" None.

Definition demoFilter : list condJSON :=
  [condOn "status" "eq" (VString "open");
   mkCondJSON "" "" VNil (Some [condOn "total" "gt" (VNumber "10"); condOn "total" "is_null" VNil]) None None "" None;
   mkCondJSON "" "" VNil None None (Some (condOn "id" "in" (VList [VNumber "1"; VNumber "2"]))) "" None;
   mkCondJSON "" "" VNil None None None "lines" (Some [condOn "sku" "eq" (VString "x")])].

Lemma filter_fields_exact_witness :
  exists p, filterToPredicate demoFilter 10 = Ok p /\ CField <$> conditions p = ["status"; "total"; "total"; "id"].
Proof.
  destruct (filterToPredicate demoFilter 10) as [p|e] eqn:E; [|vm_compute in E; discriminate E].
  exists p. split; [done|]. rewrite (filter_fields_exact demoFilter 10 p E). reflexivity.
Defined.

Lemma filter_bounded_witness :
  exists p, filterToPredicate demoFilter 5 = Ok p /\ Z.of_nat (length (allConditions p)) <= 5.
Proof.
  destruct (filterToPredicate demoFilter 5) as [p|e] eqn:E; [|vm_compute in E; discriminate E].
  exists p. split; [done|]. apply (filter_bounded demoFilter 5 p); [lia|done].
Defined.
