(* ===== verification/Budget.v ===== *)
(** Execution budgets: core/budget/budget.go.

    MemoryManager's methods run under its mutex, so each is one step: a
    definition from the manager to the manager.  [now] is time.Now() read in
    the method, in nanoseconds.  A [*state] is the value [sessions] holds for
    its scope (no pointer to one outlives the method that looked it up), and a
    [*list.Element] is the scope it holds: a scope is listed at most once
    ([wf_nodup]).  The order Go ranges over a map in is arbitrary, so it is a
    parameter: some permutation of the entries. *)

From S2P Require Import Prelude.

(** ** Data *)

Record Scope : Type := mkScope { SRole : string; STenant : string; SSession : string }.

#[global] Instance Scope_eq_dec : EqDecision Scope.
Proof. solve_decision. Defined.
#[global] Program Instance Scope_countable : Countable Scope :=
  inj_countable' (fun s => (SRole s, STenant s, SSession s)) (fun t => mkScope t.1.1 t.1.2 t.2) _.
Next Obligation. by intros []. Qed.

Record Limits : Type := mkLimits {
  MaxConcurrent : Z;
  MaxExecution : Z;
  MaxEstimatedScannedRows : Z;
  MaxReturnedRows : Z;
  MaxReturnedBytes : Z;
  MaxSessionCost : Z;
}.

Definition noLimits : Limits := mkLimits 0 0 0 0 0 0.

Record Usage : Type := mkUsage {
  UEstimatedScannedRows : Z;
  UReturnedRows : Z;
  UReturnedBytes : Z;
  UDuration : Z;
  UCost : Z;
}.

Record Reservation : Type := mkReservation { RCost : Z; REstimatedScannedRows : Z }.

(** state; [st_listed] is "idle and own are not nil". *)
Record state : Type := mkState {
  st_inflight : Z;
  st_cost : Z;
  st_reserved : Z;
  st_touched : Z;
  st_closed : bool;
  st_listed : bool;
}.

Definition principal : Type := (string * string)%type.
Definition principalOf (s : Scope) : principal := (SRole s, STenant s).

Record holder : Type := mkHolder { h_states : Z; h_idle : list Scope }.

Record MemoryManager : Type := mkManager {
  m_roles : gmap string Limits;
  m_tenants : gmap string Limits;
  m_sessions : gmap Scope state;
  m_inflight : gmap string Z;
  m_ttl : Z;
  m_maxStates : Z;
  m_idle : list Scope;
  m_holders : gmap principal holder;
}.

(** lease: [ls_done] is its sync.Once; the context is not modelled. *)
Record lease : Type := mkLease {
  ls_scope : Scope;
  ls_limits : Limits;
  ls_reserved : Z;
  ls_done : bool;
  ls_err : option error;
}.

(** Updates of the manager's fields. *)
Definition with_sessions (f : gmap Scope state -> gmap Scope state) (m : MemoryManager) : MemoryManager :=
  mkManager (m_roles m) (m_tenants m) (f (m_sessions m)) (m_inflight m) (m_ttl m) (m_maxStates m) (m_idle m)
            (m_holders m).

Definition with_inflight (f : gmap string Z -> gmap string Z) (m : MemoryManager) : MemoryManager :=
  mkManager (m_roles m) (m_tenants m) (m_sessions m) (f (m_inflight m)) (m_ttl m) (m_maxStates m) (m_idle m)
            (m_holders m).

Definition with_idle (f : list Scope -> list Scope) (m : MemoryManager) : MemoryManager :=
  mkManager (m_roles m) (m_tenants m) (m_sessions m) (m_inflight m) (m_ttl m) (m_maxStates m) (f (m_idle m))
            (m_holders m).

Definition with_holders (f : gmap principal holder -> gmap principal holder) (m : MemoryManager) : MemoryManager :=
  mkManager (m_roles m) (m_tenants m) (m_sessions m) (m_inflight m) (m_ttl m) (m_maxStates m) (m_idle m)
            (f (m_holders m)).

Definition set_listed (b : bool) (st : state) : state :=
  mkState (st_inflight st) (st_cost st) (st_reserved st) (st_touched st) (st_closed st) b.

(** ** Limits *)

Definition Stricter (a b : Z) : Z := if b <=? 0 then a else if a <=? 0 then b else Z.min a b.

Definition limits (m : MemoryManager) (scope : Scope) : Limits :=
  let l := default noLimits (m_roles m !! SRole scope) in
  match m_tenants m !! STenant scope with
  | None => l
  | Some t =>
      if bool_decide (STenant scope = "") then l
      else mkLimits (MaxConcurrent l) (Stricter (MaxExecution l) (MaxExecution t))
             (Stricter (MaxEstimatedScannedRows l) (MaxEstimatedScannedRows t))
             (Stricter (MaxReturnedRows l) (MaxReturnedRows t))
             (Stricter (MaxReturnedBytes l) (MaxReturnedBytes t))
             (Stricter (MaxSessionCost l) (MaxSessionCost t))
  end.

Definition tenantConcurrency (m : MemoryManager) (tenant : string) : Z :=
  if bool_decide (tenant = "") then 0 else MaxConcurrent (default noLimits (m_tenants m !! tenant)).

Definition normalizeReservation (r : Reservation) : Reservation :=
  mkReservation (Z.max (RCost r) 0) (Z.max (REstimatedScannedRows r) 0).

Definition checkReservationLimits (l : Limits) (st : state) (r : Reservation) : result unit :=
  if (0 <? MaxConcurrent l) && (MaxConcurrent l <=? st_inflight st) then Err ErrExceeded
  else if (0 <? MaxEstimatedScannedRows l) && (MaxEstimatedScannedRows l <? REstimatedScannedRows r)
  then Err ErrExceeded
  else if (0 <? MaxSessionCost l) &&
          ((MaxSessionCost l <=? st_cost st) || (w64 (MaxSessionCost l - st_cost st) <=? st_reserved st) ||
           (w64 (w64 (MaxSessionCost l - st_cost st) - st_reserved st) <? RCost r))
  then Err ErrExceeded
  else Ok tt.

(** ** The state table *)

Definition NewWithBounds (roles tenants : gmap string Limits) (ttl maxStates : Z) : MemoryManager :=
  mkManager roles tenants ∅ ∅ (if ttl <=? 0 then 30 * 60 * 10 ^ 9 else ttl)
            (if maxStates <=? 0 then 4096 else maxStates) [] ∅.

Definition New (roles tenants : gmap string Limits) : MemoryManager :=
  NewWithBounds roles tenants (30 * 60 * 10 ^ 9) 4096.

Definition UpdateLimits (roles tenants : gmap string Limits) (m : MemoryManager) : MemoryManager :=
  mkManager roles tenants (m_sessions m) (m_inflight m) (m_ttl m) (m_maxStates m) (m_idle m) (m_holders m).

(** list.Remove. *)
Definition unlist (s : Scope) (l : list Scope) : list Scope := filter (fun x => x <> s) l.

Definition on_idle (f : list Scope -> list Scope) (h : holder) : holder := mkHolder (h_states h) (f (h_idle h)).

(** A nil holder is dereferenced by idleLocked, busyLocked and dropLocked. *)
Definition idleLocked (scope : Scope) (m : MemoryManager) : result MemoryManager :=
  match m_holders m !! principalOf scope with
  | None => Err Panic
  | Some h =>
      Ok (with_sessions (alter (set_listed true) scope)
           (with_holders <[principalOf scope := on_idle (fun l => l ++ [scope]) h]>
             (with_idle (fun l => l ++ [scope]) m)))
  end.

Definition busyLocked (scope : Scope) (st : state) (m : MemoryManager) : result MemoryManager :=
  if st_listed st then
    match m_holders m !! principalOf scope with
    | None => Err Panic
    | Some h =>
        Ok (with_sessions (alter (set_listed false) scope)
             (with_holders <[principalOf scope := on_idle (unlist scope) h]>
               (with_idle (unlist scope) m)))
    end
  else Ok m.

Definition dropLocked (scope : Scope) (m : MemoryManager) : result MemoryManager :=
  match m_sessions m !! scope with
  | None => Ok m
  | Some st =>
      m ← busyLocked scope st m;
      let m := with_sessions (delete scope) m in
      match m_holders m !! principalOf scope with
      | None => Err Panic
      | Some h =>
          Ok (with_holders (fun hs =>
                if h_states h <=? 1 then delete (principalOf scope) hs
                else <[principalOf scope := mkHolder (h_states h - 1) (h_idle h)]> hs) m)
      end
  end.

(** pruneLocked: [fuel] bounds the loop, which drops a listed scope each time. *)
Fixpoint pruneLoop (fuel : nat) (now : Z) (m : MemoryManager) : result MemoryManager :=
  match fuel with
  | O => Ok m
  | S fuel =>
      match m_idle m with
      | [] => Ok m
      | scope :: _ =>
          match m_sessions m !! scope with
          | None => Err Panic
          | Some st =>
              if now - st_touched st <? m_ttl m then Ok m
              else m ← dropLocked scope m; pruneLoop fuel now m
          end
      end
  end.

Definition pruneLocked (now : Z) (m : MemoryManager) : result MemoryManager :=
  pruneLoop (length (m_idle m)) now m.

Definition lruLocked (m : MemoryManager) (h : holder) : result Z :=
  match h_idle h with
  | [] => Err Panic
  | scope :: _ => match m_sessions m !! scope with Some st => Ok (st_touched st) | None => Err Panic end
  end.

Section manager.
(** The orders Go ranges over m.holders and m.sessions in. *)
Context (rangeHolders : gmap principal holder -> list (principal * holder)).
Context (rangeSessions : gmap Scope state -> list (Scope * state)).

(** victimLocked's choice among the holders: the most states, then the least recently used. *)
Definition moreStates (m : MemoryManager) (h : holder) (most : option holder) : result bool :=
  match most with
  | None => Ok true
  | Some g =>
      if h_states g <? h_states h then Ok true
      else if h_states h =? h_states g then
        a ← lruLocked m h; b ← lruLocked m g; Ok (a <? b)
      else Ok false
  end.

Fixpoint mostLoop (m : MemoryManager) (hs : list (principal * holder)) (most : option holder) :
    result (option holder) :=
  match hs with
  | [] => Ok most
  | (_, h) :: hs =>
      if (length (h_idle h) =? 0)%nat then mostLoop m hs most
      else b ← moreStates m h most; mostLoop m hs (if b : bool then Some h else most)
  end.

Definition victimLocked (p : principal) (m : MemoryManager) : result (option Scope) :=
  match m_holders m !! p with
  | Some (mkHolder _ (scope :: _)) => Ok (Some scope)
  | own =>
      most ← mostLoop m (rangeHolders (m_holders m)) None;
      match most with
      | None => Ok None
      | Some g =>
          if match own with Some h => h_states g <=? h_states h | None => false end then Ok None
          else match h_idle g with scope :: _ => Ok (Some scope) | [] => Err Panic end
      end
  end.

Definition acquireStateLocked (scope : Scope) (now : Z) (m : MemoryManager) : result MemoryManager :=
  match m_sessions m !! scope with
  | Some _ => Ok m
  | None =>
      let p := principalOf scope in
      m ← (if m_maxStates m <=? Z.of_nat (size (m_sessions m)) then
             victim ← victimLocked p m;
             match victim with None => Err ErrExceeded | Some victim => dropLocked victim m end
           else Ok m);
      let h := default (mkHolder 0 []) (m_holders m !! p) in
      let m := with_holders <[p := mkHolder (h_states h + 1) (h_idle h)]> m in
      idleLocked scope (with_sessions <[scope := mkState 0 0 0 now false false]> m)
  end.

(** AcquireWithReservation: what it leaves the manager as when it refuses is
    the second part of the answer. *)
Definition AcquireWithReservation (scope : Scope) (r : Reservation) (now : Z) (m : MemoryManager) :
    result (MemoryManager * option lease) :=
  m ← pruneLocked now m;
  let l := limits m scope in
  let r := normalizeReservation r in
  match acquireStateLocked scope now m with
  | Err ErrExceeded => Ok (m, None)
  | Err e => Err e
  | Ok m =>
      match m_sessions m !! scope with
      | None => Err Panic
      | Some st =>
          let max := tenantConcurrency m (STenant scope) in
          if negb (is_ok (checkReservationLimits l st r)) then Ok (m, None)
          else if (0 <? max) && (max <=? default 0 (m_inflight m !! STenant scope)) then Ok (m, None)
          else
            let m := if bool_decide (STenant scope = "") then m
                     else with_inflight (fun f => <[STenant scope := default 0 (f !! STenant scope) + 1]> f) m in
            m ← busyLocked scope st m;
            let m := with_sessions (alter (fun st =>
                       mkState (st_inflight st + 1) (st_cost st) (w64 (st_reserved st + RCost r)) now
                               (st_closed st) (st_listed st)) scope) m in
            Ok (m, Some (mkLease scope l (RCost r) false None))
      end
  end.

Definition closeOne (session : string) (m : result MemoryManager) (entry : Scope * state) : result MemoryManager :=
  m ← m;
  let scope := entry.1 in
  match m_sessions m !! scope with
  | None => Ok m
  | Some st =>
      if bool_decide (SSession scope = session) then
        let reset closed (st : state) :=
          mkState (st_inflight st) 0 (st_reserved st) (st_touched st) closed (st_listed st) in
        if st_inflight st =? 0 then dropLocked scope (with_sessions (alter (reset (st_closed st)) scope) m)
        else Ok (with_sessions (alter (reset true) scope) m)
      else Ok m
  end.

Definition CloseSession (session : string) (m : MemoryManager) : result MemoryManager :=
  if bool_decide (session = "") then Ok m
  else foldl (closeOne session) (Ok m) (rangeSessions (m_sessions m)).

(** What a completed call used beyond its limits. *)
Definition overLimits (l : Limits) (u : Usage) (sessionCost : Z) : bool :=
  (0 <? MaxEstimatedScannedRows l) && (MaxEstimatedScannedRows l <? UEstimatedScannedRows u) ||
  (0 <? MaxReturnedRows l) && (MaxReturnedRows l <? UReturnedRows u) ||
  (0 <? MaxReturnedBytes l) && (MaxReturnedBytes l <? UReturnedBytes u) ||
  (0 <? MaxSessionCost l) && (MaxSessionCost l <? sessionCost).

(** m.inflight[tenant]--, the entry deleted at zero. *)
Definition leaveTenant (tenant : string) (f : gmap string Z) : gmap string Z :=
  if bool_decide (tenant = "") then f
  else let n := default 0 (f !! tenant) - 1 in if n <=? 0 then delete tenant f else <[tenant := n]> f.

Definition Complete (u : Usage) (now : Z) (l : lease) (m : MemoryManager) : result (MemoryManager * lease) :=
  if ls_done l then Ok (m, l)
  else match m_sessions m !! ls_scope l with
  | None => Err Panic
  | Some st =>
      let m := with_inflight (leaveTenant (STenant (ls_scope l))) m in
      let st := mkState (st_inflight st - 1) (if 0 <? UCost u then w64 (st_cost st + UCost u) else st_cost st)
                        (w64 (st_reserved st - ls_reserved l)) now (st_closed st) (st_listed st) in
      let m := with_sessions <[ls_scope l := st]> m in
      m ← (if 0 <? st_inflight st then Ok m
           else if st_closed st then dropLocked (ls_scope l) m
           else idleLocked (ls_scope l) m);
      Ok (m, mkLease (ls_scope l) (ls_limits l) (ls_reserved l) true
               (if overLimits (ls_limits l) u (st_cost st) then Some ErrExceeded else None))
  end.
End manager.
