(* ===== verification/BudgetTheorems.v ===== *)
(** Budgets: the state table of core/budget (what idleLocked, busyLocked,
    dropLocked, pruneLocked and victimLocked keep), then the manager and its
    leases as a transition system, whose counters are exact. *)

From S2P Require Import Prelude Budget.

(** ** A principal's share, from the sessions themselves *)

Definition share (p : principal) (D : gset Scope) : nat := size (filter (fun s => principalOf s = p) D).

Lemma share_empty p : share p ∅ = 0%nat.
Proof. unfold share. rewrite (filter_empty_L (C:=gset Scope)) by apply _. apply size_empty. Qed.

Lemma share_add p s D : s ∉ D ->
  share p ({[s]} ∪ D) = (share p D + (if decide (principalOf s = p) then 1 else 0))%nat.
Proof.
  intros Hs. unfold share. rewrite (filter_union_L (C:=gset Scope)), (filter_singleton_L (C:=gset Scope)) by apply _.
  destruct (decide (principalOf s = p)) as [E|E].
  - rewrite size_union, size_singleton; [lia|]. apply disjoint_singleton_l. rewrite elem_of_filter. tauto.
  - rewrite (union_empty_l_L (C:=gset Scope)) by apply _. lia.
Qed.

Lemma share_remove p s D : s ∈ D ->
  share p D = (share p (D ∖ {[s]}) + (if decide (principalOf s = p) then 1 else 0))%nat.
Proof.
  intros Hs. rewrite (union_difference_L {[s]} D) at 1 by set_solver. apply share_add. set_solver.
Qed.

Lemma share_pos s D : s ∈ D -> (0 < share (principalOf s) D)%nat.
Proof. intros Hs. rewrite (share_remove _ s) by done. rewrite decide_True by done. lia. Qed.

(** The holder a principal has: none without states. *)
Definition holderOf (D : gset Scope) (idle : list Scope) (p : principal) : option holder :=
  if decide (share p D = 0%nat) then None
  else Some (mkHolder (Z.of_nat (share p D)) (filter (fun s => principalOf s = p) idle)).

(** ** The table's invariant *)

Definition listedIn (f : gmap Scope state) (s : Scope) : bool := from_option st_listed false (f !! s).

Lemma listedIn_insert f s st x :
  listedIn (<[s := st]> f) x = if decide (x = s) then st_listed st else listedIn f x.
Proof.
  unfold listedIn. destruct (decide (x = s)) as [->|Hx]; [by rewrite lookup_insert_eq|by rewrite lookup_insert_ne].
Qed.

Record table_ok (m : MemoryManager) : Prop := {
  t_idle : forall s, s ∈ m_idle m <-> listedIn (m_sessions m) s = true;
  t_nodup : NoDup (m_idle m);
  t_holders : forall p, m_holders m !! p = holderOf (dom (m_sessions m)) (m_idle m) p;
}.

(** What the table operations leave alone. *)
Record same_config (m m' : MemoryManager) : Prop := {
  sc_roles : m_roles m' = m_roles m;
  sc_tenants : m_tenants m' = m_tenants m;
  sc_inflight : m_inflight m' = m_inflight m;
  sc_ttl : m_ttl m' = m_ttl m;
  sc_max : m_maxStates m' = m_maxStates m;
}.

#[global] Instance same_config_preorder : PreOrder same_config.
Proof. split; [by split|]. intros m1 m2 m3 [] []. split; by etrans. Qed.

Lemma holder_of_session m s st : table_ok m -> m_sessions m !! s = Some st ->
  m_holders m !! principalOf s =
  Some (mkHolder (Z.of_nat (share (principalOf s) (dom (m_sessions m)))) (filter (fun x => principalOf x = principalOf s) (m_idle m))).
Proof.
  intros H Hs. rewrite (t_holders _ H). unfold holderOf. rewrite decide_False; [done|].
  assert (s ∈ dom (m_sessions m)) as Hd by by eapply elem_of_dom_2. pose proof (share_pos _ _ Hd). lia.
Qed.

Lemma own_idle_push (p : principal) (idle : list Scope) (s : Scope) :
  filter (fun x => principalOf x = p) (idle ++ [s]) =
  filter (fun x => principalOf x = p) idle ++ (if decide (principalOf s = p) then [s] else []).
Proof. rewrite filter_app. f_equal. Qed.

Lemma filter_unlist (P : Scope -> Prop) `{!forall x, Decision (P x)} s l :
  filter P (unlist s l) = unlist s (filter P l).
Proof. unfold unlist. rewrite !list_filter_filter. apply list_filter_iff. tauto. Qed.

Lemma unlist_other s l : s ∉ l -> unlist s l = l.
Proof.
  intros H. unfold unlist. induction l as [|x l IH]; [done|].
  apply not_elem_of_cons in H as [H1 H2]. rewrite filter_cons_True by done. by rewrite IH.
Qed.

(** ** The table operations *)

Lemma idleLocked_ok m s st : table_ok m -> m_sessions m !! s = Some st -> st_listed st = false ->
  exists m', idleLocked s m = Ok m' /\ table_ok m' /\ same_config m m' /\
    m_sessions m' = <[s := set_listed true st]> (m_sessions m) /\ m_idle m' = m_idle m ++ [s].
Proof.
  intros H Hs Hl. unfold idleLocked. rewrite (holder_of_session _ _ _ H Hs).
  eexists. split; [reflexivity|]. unfold with_sessions, with_holders, with_idle. simpl. rewrite !(alter_alt_Some _ _ _ st) by done.
  assert (s ∉ m_idle m) as Hn by (rewrite (t_idle _ H); unfold listedIn; rewrite Hs; simpl; congruence).
  split; [|by split_and!]. split; simpl.
  - intros x. rewrite elem_of_app, list_elem_of_singleton, (t_idle _ H), listedIn_insert.
    destruct (decide (x = s)); simpl; tauto.
  - apply NoDup_app. split_and!; [apply H| |apply NoDup_singleton].
    intros x Hx. by rewrite list_elem_of_singleton; intros ->.
  - intros p. unfold holderOf. rewrite dom_insert_lookup_L by (by rewrite Hs). rewrite own_idle_push.
    destruct (decide (principalOf s = p)) as [<-|Hp].
    + rewrite lookup_insert_eq. unfold on_idle. simpl. rewrite decide_False; [done|].
      pose proof (share_pos s (dom (m_sessions m)) ltac:(by eapply elem_of_dom_2)). lia.
    + rewrite lookup_insert_ne by done. rewrite app_nil_r. apply (t_holders _ H).
Qed.

Lemma busyLocked_ok m s st : table_ok m -> m_sessions m !! s = Some st ->
  exists m', busyLocked s st m = Ok m' /\ table_ok m' /\ same_config m m' /\
    m_sessions m' = <[s := set_listed false st]> (m_sessions m) /\ m_idle m' = unlist s (m_idle m).
Proof.
  intros H Hs. unfold busyLocked. destruct (st_listed st) eqn:Hl.
  2:{ exists m. split_and!; try done; rewrite ?insert_id; try done; [by destruct st; simpl in *; subst|].
      rewrite unlist_other; [done|]. rewrite (t_idle _ H). unfold listedIn. rewrite Hs. simpl. congruence. }
  rewrite (holder_of_session _ _ _ H Hs).
  eexists. split; [reflexivity|]. unfold with_sessions, with_holders, with_idle. simpl. rewrite !(alter_alt_Some _ _ _ st) by done.
  split; [|by split_and!]. split; simpl.
  - intros x. unfold unlist. rewrite list_elem_of_filter, (t_idle _ H), listedIn_insert.
    destruct (decide (x = s)); simpl; [intuition congruence|tauto].
  - apply NoDup_filter, H.
  - intros p. unfold holderOf. rewrite dom_insert_lookup_L by (by rewrite Hs). rewrite filter_unlist.
    destruct (decide (principalOf s = p)) as [<-|Hp].
    + rewrite lookup_insert_eq. unfold on_idle. simpl. rewrite decide_False; [done|].
      pose proof (share_pos s (dom (m_sessions m)) ltac:(by eapply elem_of_dom_2)). lia.
    + rewrite lookup_insert_ne by done. rewrite unlist_other; [apply (t_holders _ H)|].
      rewrite list_elem_of_filter. tauto.
Qed.

Lemma listedIn_delete f s x : listedIn (delete s f) x = if decide (x = s) then false else listedIn f x.
Proof.
  unfold listedIn. destruct (decide (x = s)) as [->|Hx]; [by rewrite lookup_delete_eq|by rewrite lookup_delete_ne].
Qed.

Lemma unlist_unlist s l : unlist s (unlist s l) = unlist s l.
Proof. apply unlist_other. unfold unlist. rewrite list_elem_of_filter. tauto. Qed.

Lemma dropLocked_ok m s st : table_ok m -> m_sessions m !! s = Some st ->
  exists m', dropLocked s m = Ok m' /\ table_ok m' /\ same_config m m' /\
    m_sessions m' = delete s (m_sessions m) /\ m_idle m' = unlist s (m_idle m).
Proof.
  intros H Hs. unfold dropLocked. rewrite Hs.
  destruct (busyLocked_ok m s st H Hs) as (m1 & -> & H1 & C1 & S1 & I1). cbn -[m_holders].
  assert (m_sessions m1 !! s = Some (set_listed false st)) as Hs1 by (rewrite S1; apply lookup_insert_eq).
  unfold with_sessions at 1. simpl. rewrite (holder_of_session _ _ _ H1 Hs1). simpl.
  eexists. split; [reflexivity|]. rewrite <- (delete_insert_eq _ s (set_listed false st)), <- S1, <- I1.
  assert (s ∈ dom (m_sessions m1)) as Hd by by eapply elem_of_dom_2.
  split; [|split_and!; [by destruct C1|done|done]].
  split; simpl.
  - intros x. rewrite (t_idle _ H1), listedIn_delete. destruct (decide (x = s)) as [->|]; [|done].
    unfold listedIn. by rewrite Hs1.
  - apply H1.
  - intros p. unfold holderOf. rewrite dom_delete_L. pose proof (share_remove p s _ Hd) as Hp.
    destruct (decide (principalOf s = p)) as [<-|Hne].
    + destruct (Z.of_nat _ <=? 1) eqn:E.
      * rewrite lookup_delete_eq. rewrite decide_True; [done|]. apply Z.leb_le in E. lia.
      * rewrite lookup_insert_eq. apply Z.leb_gt in E. rewrite decide_False by lia. do 2 f_equal. lia.
    + rewrite Nat.add_0_r in Hp. rewrite <- Hp. pose proof (t_holders _ H1 p) as Hq. unfold holderOf in Hq. rewrite <- Hq.
      destruct (_ <=? 1); [by rewrite lookup_delete_ne|by rewrite lookup_insert_ne].
Qed.

(** ** The order of the idle states, and pruneLocked *)

Definition touchedOf (f : gmap Scope state) (s : Scope) : Z := from_option st_touched 0 (f !! s).

Definition by_touch (m : MemoryManager) : Prop :=
  Sorted.StronglySorted (fun a b => touchedOf (m_sessions m) a <= touchedOf (m_sessions m) b) (m_idle m).

Definition expired (ttl now : Z) (st : state) : Prop := st_listed st = true /\ ttl <= now - st_touched st.


#[global] Instance expired_dec ttl now st : Decision (expired ttl now st).
Proof. unfold expired. apply _. Defined.

Lemma by_touch_drop m m' s : by_touch m ->
  m_sessions m' = delete s (m_sessions m) -> m_idle m' = unlist s (m_idle m) -> by_touch m'.
Proof.
  unfold by_touch. intros H HS HI. rewrite HI. apply (Sorted_filter _ (fun x => x <> s)) in H.
  eapply Sorted_ext; [|exact H]. simpl. intros a b [Ha _]%list_elem_of_filter [Hb _]%list_elem_of_filter.
  rewrite HS. unfold touchedOf. by rewrite !lookup_delete_ne.
Qed.

Lemma idle_session m s : table_ok m -> s ∈ m_idle m -> exists st, m_sessions m !! s = Some st /\ st_listed st = true.
Proof.
  intros H. rewrite (t_idle _ H). unfold listedIn. destruct (m_sessions m !! s) as [st|]; [|done]. eauto.
Qed.

(** The states that pruning at [now] keeps. *)
Definition unexpired (ttl now : Z) (f : gmap Scope state) : gmap Scope state :=
  filter (fun kv => ~ expired ttl now kv.2) f.

Lemma unexpired_all m now : table_ok m ->
  (forall s, s ∈ m_idle m -> now - touchedOf (m_sessions m) s < m_ttl m) ->
  unexpired (m_ttl m) now (m_sessions m) = m_sessions m.
Proof.
  intros H Hall. apply map_filter_id. intros s st Hs [Hl He].
  assert (s ∈ m_idle m) as Hi by (rewrite (t_idle _ H); unfold listedIn; by rewrite Hs).
  apply Hall in Hi. unfold touchedOf in Hi. rewrite Hs in Hi. simpl in *. lia.
Qed.

Lemma unexpired_drop f ttl now s st : f !! s = Some st -> expired ttl now st ->
  unexpired ttl now (delete s f) = unexpired ttl now f.
Proof.
  intros Hs He. unfold unexpired. rewrite map_filter_delete. apply delete_id.
  apply map_lookup_filter_None. right. intros x Hx. simplify_eq. simpl. tauto.
Qed.

Lemma pruneLoop_ok fuel : forall now m, table_ok m -> by_touch m -> (length (m_idle m) <= fuel)%nat ->
  exists m', pruneLoop fuel now m = Ok m' /\ table_ok m' /\ by_touch m' /\ same_config m m' /\
    m_sessions m' = unexpired (m_ttl m) now (m_sessions m).
Proof.
  induction fuel as [|fuel IH]; intros now m H Hb Hf.
  - exists m. split_and!; try done. rewrite unexpired_all; [done..|].
    destruct (m_idle m); [|simpl in Hf; lia]. intros s Hs. by apply elem_of_nil in Hs.
  - simpl. destruct (m_idle m) as [|s l] eqn:E.
    { exists m. split_and!; try done. rewrite unexpired_all; [done..|]. rewrite E. intros s Hs. by apply elem_of_nil in Hs. }
    destruct (idle_session m s H) as (st & Hs & Hl); [rewrite E; by constructor|]. rewrite Hs.
    destruct (now - st_touched st <? m_ttl m) eqn:Et.
    + exists m. split_and!; try done. rewrite unexpired_all; [done..|]. unfold by_touch in Hb. rewrite E in *.
      apply Sorted.StronglySorted_inv in Hb as [_ Hb]. apply Z.ltb_lt in Et.
      intros x [->|Hx]%elem_of_cons; [unfold touchedOf; by rewrite Hs|].
      eapply Forall_forall in Hb; [|exact Hx]. unfold touchedOf at 1 in Hb. rewrite Hs in Hb. simpl in Hb. lia.
    + apply Z.ltb_ge in Et. destruct (dropLocked_ok m s st H Hs) as (m1 & -> & H1 & C1 & S1 & I1). simpl.
      destruct (IH now m1 H1) as (m' & -> & H' & B' & C' & S').
      { by eapply by_touch_drop. }
      { rewrite I1, E. unfold unlist. rewrite filter_cons_False by (intros Hc; by apply Hc).
        pose proof (length_filter (fun x => x <> s) l). simpl in Hf. lia. }
      exists m'. split_and!; try done; [by etrans|]. rewrite S', S1, (sc_ttl _ _ C1).
      by eapply unexpired_drop.
Qed.

Lemma pruneLocked_ok now m : table_ok m -> by_touch m ->
  exists m', pruneLocked now m = Ok m' /\ table_ok m' /\ by_touch m' /\ same_config m m' /\
    m_sessions m' = unexpired (m_ttl m) now (m_sessions m).
Proof. intros H Hb. by apply pruneLoop_ok. Qed.

(** ** victimLocked *)

Section victim.
Context (rangeHolders : gmap principal holder -> list (principal * holder)).
Context (range_perm : forall hs, rangeHolders hs ≡ₚ map_to_list hs).

(** A holder as the table has it. *)
Definition held_by (m : MemoryManager) (p : principal) (h : holder) : Prop := m_holders m !! p = Some h.

Lemma lruLocked_ok m p h : table_ok m -> held_by m p h -> h_idle h <> [] -> exists t, lruLocked m h = Ok t.
Proof.
  unfold held_by. intros H Hh Hne. rewrite (t_holders _ H) in Hh. unfold holderOf in Hh.
  destruct (decide _); [done|]. injection Hh as <-. simpl in *. unfold lruLocked. simpl.
  destruct (filter _ _) as [|s l] eqn:E; [done|].
  assert (s ∈ s :: l) as Hs by constructor. rewrite <- E in Hs. apply list_elem_of_filter in Hs as [_ Hs].
  destruct (idle_session _ _ H Hs) as (st & -> & _). eauto.
Qed.

Lemma moreStates_ok m p h most : table_ok m -> held_by m p h -> h_idle h <> [] ->
  (forall g, most = Some g -> h_idle g <> [] /\ exists p, held_by m p g) ->
  exists b, moreStates m h most = Ok b /\
    (forall g, most = Some g -> if b : bool then h_states g <= h_states h else h_states h <= h_states g) /\
    (most = None -> b = true).
Proof.
  intros H Hh Hne Hm. unfold moreStates. destruct most as [g|]; [|by exists true; split_and!].
  destruct (Hm g eq_refl) as [Hg [q Hq]].
  destruct (h_states g <? h_states h) eqn:E1; [exists true; split_and!; try done; intros ? [= <-]; lia|].
  destruct (h_states h =? h_states g) eqn:E2; [|exists false; split_and!; try done; intros ? [= <-]; lia].
  destruct (lruLocked_ok m p h H Hh Hne) as [t ->]. destruct (lruLocked_ok m q g H Hq Hg) as [t' ->]. simpl.
  eexists. split_and!; [reflexivity| |done]. intros ? [= <-]. destruct (t <? t'); lia.
Qed.

(** The loop's answer: a holder with idle states, none with idle states holding more. *)
Lemma mostLoop_ok m hs : table_ok m -> (forall p h, (p, h) ∈ hs -> held_by m p h) -> forall most,
  (forall g, most = Some g -> h_idle g <> [] /\ exists p, held_by m p g) ->
  exists most', mostLoop m hs most = Ok most' /\
    (forall g, most' = Some g -> h_idle g <> [] /\ exists p, held_by m p g) /\
    (forall h, most = Some h \/ (exists p, (p, h) ∈ hs /\ h_idle h <> []) ->
       exists g, most' = Some g /\ h_states h <= h_states g).
Proof.
  intros H. induction hs as [|[p h] hs IH]; intros Hin most Hm.
  { exists most. split_and!; try done. intros h [->|(p & Hp & _)]; [by eexists|]. by apply elem_of_nil in Hp. }
  simpl. assert (forall p h, (p, h) ∈ hs -> held_by m p h) as Hin' by (intros; apply Hin; by constructor).
  assert (held_by m p h) as Hh by (apply Hin; by constructor).
  destruct (length (h_idle h) =? 0)%nat eqn:El.
  { destruct (IH Hin' most Hm) as (most' & -> & G1 & G2). exists most'. split_and!; try done.
    intros h' [Hh'|(q & [Hq|Hq]%elem_of_cons & Hne)]; [by apply G2; left| |by apply G2; right; eauto].
    simplify_eq. by destruct (h_idle h). }
  assert (h_idle h <> []) as Hne by (intros E; by rewrite E in El).
  destruct (moreStates_ok m p h most H Hh Hne Hm) as (b & -> & Hb & Hb').
  simpl. destruct (IH Hin' (if b then Some h else most)) as (most' & -> & G1 & G2).
  { destruct b; [|done]. intros g [= <-]. eauto. }
  exists most'. split_and!; try done.
  intros h' [Hh'|(q & [Hq|Hq]%elem_of_cons & Hne')]; [| |by apply G2; right; eauto].
  - specialize (Hb _ Hh'). destruct b; [|by apply G2; left].
    destruct (G2 h) as (g & -> & Hg); [by left|]. exists g. split; [done|lia].
  - simplify_eq. destruct b; [by apply G2; left|]. destruct most as [g|]; [|by discriminate (Hb' eq_refl)].
    specialize (Hb g eq_refl). destruct (G2 g) as (g' & -> & Hg'); [by left|]. exists g'. split; [done|lia].
Qed.

Lemma held_by_share m p h : table_ok m -> held_by m p h ->
  h_states h = Z.of_nat (share p (dom (m_sessions m))) /\ h_idle h = filter (fun s => principalOf s = p) (m_idle m).
Proof.
  unfold held_by. intros H Hh. rewrite (t_holders _ H) in Hh. unfold holderOf in Hh. by destruct (decide _); simplify_eq.
Qed.

Lemma held_by_front m p h s l : table_ok m -> held_by m p h -> h_idle h = s :: l -> s ∈ m_idle m /\ principalOf s = p.
Proof.
  intros H Hh E. destruct (held_by_share _ _ _ H Hh) as [_ Hi]. rewrite E in Hi.
  assert (s ∈ s :: l) as Hs by constructor. rewrite Hi in Hs. by apply list_elem_of_filter in Hs as [??].
Qed.

(** Whose states a full table may drop for a new state of [p]. *)
Definition evictable (m : MemoryManager) (p : principal) (v : Scope) : Prop :=
  v ∈ m_idle m /\
  (principalOf v = p \/ (share p (dom (m_sessions m)) < share (principalOf v) (dom (m_sessions m)))%nat).

(** The choice from the holder with the most states, [n] being [p]'s own. *)
Lemma victim_of_most m p most n : table_ok m ->
  (forall g, most = Some g -> h_idle g <> [] /\ exists p, held_by m p g) ->
  (forall v, v ∈ m_idle m -> exists g, most = Some g /\
     Z.of_nat (share (principalOf v) (dom (m_sessions m))) <= h_states g) ->
  n = Z.of_nat (share p (dom (m_sessions m))) -> (forall v, v ∈ m_idle m -> principalOf v <> p) ->
  exists o,
    match most with
    | None => Ok None
    | Some g => if h_states g <=? n then Ok None
                else match h_idle g with scope :: _ => Ok (Some scope) | [] => Err Panic end
    end = Ok o /\
    (forall v, o = Some v -> evictable m p v) /\ (o = None -> forall v, ~ evictable m p v).
Proof.
  intros H G1 Hmax -> Hown. destruct most as [g|].
  2:{ exists None. split_and!; try done. intros _ v [Hv _]. by destruct (Hmax v Hv) as (? & ? & _). }
  destruct (G1 g eq_refl) as [Hne [q Hq]]. destruct (held_by_share _ _ _ H Hq) as [Hs _].
  destruct (h_states g <=? _) eqn:E.
  - exists None. split_and!; try done. apply Z.leb_le in E. intros _ v [Hv [Hp|Hlt]]; [by destruct (Hown v Hv)|].
    destruct (Hmax v Hv) as (? & [= <-] & Hle). lia.
  - apply Z.leb_gt in E. destruct (h_idle g) as [|s l] eqn:Ei; [done|]. exists (Some s). split_and!; try done.
    intros v [= <-]. destruct (held_by_front _ _ _ _ _ H Hq Ei) as [? <-]. split; [done|right; lia].
Qed.

Lemma victimLocked_ok m p : table_ok m ->
  exists o, victimLocked rangeHolders p m = Ok o /\
    (forall v, o = Some v -> evictable m p v) /\ (o = None -> forall v, ~ evictable m p v).
Proof using range_perm.
  intros H. unfold victimLocked. destruct (mostLoop_ok m (rangeHolders (m_holders m)) H) with (most := @None holder)
    as (most & Em & G1 & G2).
  { intros q h Hq. rewrite range_perm in Hq. by apply elem_of_map_to_list in Hq. }
  { done. }
  assert (forall v, v ∈ m_idle m -> exists g, most = Some g /\
            Z.of_nat (share (principalOf v) (dom (m_sessions m))) <= h_states g) as Hmax.
  { intros v Hv. destruct (idle_session _ _ H Hv) as (st & Hs & _).
    pose proof (holder_of_session _ _ _ H Hs) as Hh. edestruct G2 as (g & -> & Hg).
    { right. exists (principalOf v). rewrite range_perm, elem_of_map_to_list. split; [exact Hh|]. simpl.
      intros E. assert (v ∈ filter (fun x => principalOf x = principalOf v) (m_idle m)) as Hv' by by apply list_elem_of_filter.
      rewrite E in Hv'. by apply elem_of_nil in Hv'. }
    eauto. }
  destruct (m_holders m !! p) as [[n [|s l]]|] eqn:Ep.
  2:{ exists (Some s). split_and!; try done. intros v [= <-].
      destruct (held_by_front _ _ _ _ _ H Ep eq_refl) as [? ?]. split; [done|by left]. }
  all: rewrite Em; cbn [mbind result_bind].
  - destruct (held_by_share _ _ _ H Ep) as [Hn Hi]. simpl in Hn, Hi. apply (victim_of_most _ _ _ n); try done.
    intros v Hv E. assert (v ∈ filter (fun s => principalOf s = p) (m_idle m)) as Hv' by by apply list_elem_of_filter.
    rewrite <- Hi in Hv'. by apply elem_of_nil in Hv'.
  - assert (share p (dom (m_sessions m)) = 0%nat) as Hn.
    { pose proof (t_holders _ H p) as Hp. rewrite Ep in Hp. unfold holderOf in Hp. by destruct (decide _). }
    destruct (victim_of_most m p most 0 H) as (o & Ho & Hv & Hnone); try done.
    + by rewrite Hn.
    + intros v Hv <-. destruct (idle_session _ _ H Hv) as (st & Hs & _).
      pose proof (holder_of_session _ _ _ H Hs). congruence.
    + exists o. split_and!; try done. destruct most as [g|]; [|done]. destruct (G1 g eq_refl) as [_ [q Hq]].
      rewrite <- Ho. destruct (h_states g <=? 0) eqn:E; [|done]. apply Z.leb_le in E.
      destruct (held_by_share _ _ _ H Hq) as [Hg _].
      pose proof (t_holders _ H q) as Hp. unfold held_by in Hq. rewrite Hq in Hp. unfold holderOf in Hp.
      destruct (decide _); [done|lia].
Qed.

(** A scope listed last, with the latest use. *)
Lemma by_touch_push m m' s now : table_ok m -> by_touch m -> s ∉ m_idle m ->
  (forall x sx, m_sessions m !! x = Some sx -> x <> s -> st_touched sx <= now) ->
  m_idle m' = m_idle m ++ [s] -> (forall x, x <> s -> m_sessions m' !! x = m_sessions m !! x) ->
  touchedOf (m_sessions m') s = now -> by_touch m'.
Proof.
  intros H Hb Hn Ht HI HS Hs. unfold by_touch. rewrite HI. apply StronglySorted_snoc.
  - eapply Sorted_ext; [|exact Hb]. simpl. intros a c Ha Hc. unfold touchedOf.
    rewrite !HS; [done|by intros ->..].
  - apply Forall_forall. intros x Hx. rewrite Hs. destruct (idle_session _ _ H Hx) as (st & Hst & _).
    assert (x <> s) by (by intros ->). unfold touchedOf. rewrite HS, Hst by done. simpl. by eapply Ht.
Qed.

(** The table with a new state of [scope]. *)
Lemma newState_ok m scope now : table_ok m -> by_touch m -> m_sessions m !! scope = None ->
  (forall s st, m_sessions m !! s = Some st -> st_touched st <= now) ->
  let h := default (mkHolder 0 []) (m_holders m !! principalOf scope) in
  exists m', idleLocked scope (with_sessions <[scope := mkState 0 0 0 now false false]>
               (with_holders <[principalOf scope := mkHolder (h_states h + 1) (h_idle h)]> m)) = Ok m' /\
    table_ok m' /\ by_touch m' /\ same_config m m' /\
    m_sessions m' = <[scope := mkState 0 0 0 now false true]> (m_sessions m).
Proof.
  intros H Hb Hn Ht h. set (m1 := with_sessions _ _).
  assert (scope ∉ m_idle m) as Hni by (rewrite (t_idle _ H); unfold listedIn; by rewrite Hn).
  assert (table_ok m1) as H1.
  { split; simpl.
    - intros s. rewrite (t_idle _ H), listedIn_insert. destruct (decide (s = scope)) as [->|]; [|done].
      unfold listedIn. by rewrite Hn.
    - apply H.
    - intros p. unfold holderOf. rewrite dom_insert_L, share_add by by apply not_elem_of_dom.
      destruct (decide (principalOf scope = p)) as [<-|Hp].
      + rewrite lookup_insert_eq. rewrite decide_False by lia. unfold h. rewrite (t_holders _ H). unfold holderOf.
        destruct (decide _) as [Hz|Hz]; simpl; [|do 2 f_equal; lia]. rewrite Hz. do 2 f_equal.
        symmetry. apply list_filter_empty. intros s Hs.
        destruct (idle_session _ _ H Hs) as (st & Hst & _). intros E.
        pose proof (share_pos s (dom (m_sessions m)) ltac:(by eapply elem_of_dom_2)) as Hpos. rewrite E in Hpos. lia.
      + rewrite lookup_insert_ne by done. rewrite Nat.add_0_r. apply (t_holders _ H). }
  destruct (idleLocked_ok m1 scope (mkState 0 0 0 now false false) H1) as (m' & E & H' & C' & S' & I'); [simpl; apply lookup_insert_eq|done|].
  assert (m_sessions m' = <[scope := mkState 0 0 0 now false true]> (m_sessions m)) as HS.
  { rewrite S'. simpl. by rewrite insert_insert_eq. }
  exists m'. split_and!; try done; [|destruct C'; by split].
  apply (by_touch_push m m' scope now); try done.
  - intros x sx Hx _. by eapply Ht.
  - intros x Hx. by rewrite HS, lookup_insert_ne.
  - rewrite HS. unfold touchedOf. by rewrite lookup_insert_eq.
Qed.
End victim.


(** * core/budget as a transition system: the manager with every lease it gave
    out, its invariant, and what an admitted call is held to. *)

(** ** What the unfinished leases hold *)

Fixpoint heldOver (g : lease -> Z) (ls : list lease) : Z :=
  match ls with [] => 0 | l :: ls => (if ls_done l then 0 else g l) + heldOver g ls end.

Definition running (s : Scope) : list lease -> Z := heldOver (fun l => if decide (ls_scope l = s) then 1 else 0).
Definition heldCost (s : Scope) : list lease -> Z :=
  heldOver (fun l => if decide (ls_scope l = s) then ls_reserved l else 0).
Definition tenantRunning (t : string) : list lease -> Z :=
  heldOver (fun l => if decide (STenant (ls_scope l) = t) then 1 else 0).

Lemma heldOver_snoc g ls l : heldOver g (ls ++ [l]) = heldOver g ls + (if ls_done l then 0 else g l).
Proof. induction ls as [|x ls IH]; simpl; [lia|]. rewrite IH. lia. Qed.

Lemma heldOver_done g ls i l l' : ls !! i = Some l -> ls_done l = false -> ls_done l' = true ->
  heldOver g (<[i := l']> ls) = heldOver g ls - g l.
Proof.
  revert i. induction ls as [|x ls IH]; intros [|i] Hi Hl Hl'; simplify_eq/=; [rewrite Hl, Hl'; lia|].
  rewrite (IH i) by done. lia.
Qed.

Lemma heldOver_nonneg g ls : (forall l, l ∈ ls -> 0 <= g l) -> 0 <= heldOver g ls.
Proof.
  induction ls as [|x ls IH]; simpl; intros H; [lia|]. specialize (IH ltac:(intros; apply H; by constructor)).
  specialize (H x ltac:(constructor)). destruct (ls_done x); lia.
Qed.

Lemma running_nonneg s ls : 0 <= running s ls.
Proof. apply heldOver_nonneg. intros l _. destruct (decide _); lia. Qed.

Lemma tenantRunning_nonneg t ls : 0 <= tenantRunning t ls.
Proof. apply heldOver_nonneg. intros l _. destruct (decide _); lia. Qed.

(** A lease that runs is counted. *)
Lemma heldOver_ge g ls i l : (forall l, 0 <= g l) -> ls !! i = Some l -> ls_done l = false -> g l <= heldOver g ls.
Proof.
  intros Hg. revert i. induction ls as [|x ls IH]; intros [|i] Hi Hl; simplify_eq/=.
  - rewrite Hl. pose proof (heldOver_nonneg g ls (fun l _ => Hg l)). lia.
  - specialize (IH i Hi Hl). specialize (Hg x). destruct (ls_done x); lia.
Qed.

Lemma heldCost_none s ls : running s ls = 0 -> heldCost s ls = 0.
Proof.
  unfold running, heldCost. induction ls as [|x ls IH]; simpl; [done|]. intros H.
  pose proof (running_nonneg s ls) as Hr. unfold running in Hr. destruct (ls_done x); [by apply IH|].
  destruct (decide _); [lia|]. by apply IH.
Qed.

(** ** The invariant *)

(** The counters are those of the unfinished leases. *)
Record accounts (f : gmap Scope state) (inflight : gmap string Z) (ls : list lease) : Prop := {
  a_state : forall s st, f !! s = Some st ->
    st_inflight st = running s ls /\ st_reserved st = w64 (heldCost s ls) /\ (st_listed st = true <-> running s ls = 0);
  a_none : forall s, f !! s = None -> running s ls = 0;
  a_tenant : forall t, inflight !! t =
    if decide (t = "" \/ tenantRunning t ls = 0) then None else Some (tenantRunning t ls);
}.

Record wf (m : MemoryManager) (ls : list lease) (now : Z) : Prop := {
  wf_table : table_ok m;
  wf_touch : by_touch m;
  wf_accounts : accounts (m_sessions m) (m_inflight m) ls;
  wf_clock : forall s st, m_sessions m !! s = Some st -> st_touched st <= now;
  wf_size : (Z.of_nat (size (m_sessions m)) <= m_maxStates m)%Z;
  wf_max : 0 < m_maxStates m;
  wf_reserved : forall l, l ∈ ls -> 0 <= ls_reserved l;
}.

Lemma accounts_sub f f' inflight ls : accounts f inflight ls ->
  (forall s, f' !! s = f !! s \/ f' !! s = None /\ listedIn f s = true) -> accounts f' inflight ls.
Proof.
  intros [H1 H2 H3] Hsub. split; [| |done].
  - intros s st Hs. destruct (Hsub s) as [E|[E _]]; rewrite E in Hs; [|done]. by apply H1.
  - intros s Hs. destruct (Hsub s) as [E|[_ Hl]]; [rewrite E in Hs; by apply H2|].
    unfold listedIn in Hl. destruct (f !! s) as [st|] eqn:Hst; [|done]. by apply (H1 s st).
Qed.

Lemma wf_prune m ls now0 now : wf m ls now0 -> now0 <= now ->
  exists m', pruneLocked now m = Ok m' /\ wf m' ls now /\ same_config m m' /\
    m_sessions m' = unexpired (m_ttl m) now (m_sessions m).
Proof.
  intros [Ht Hb Ha Hc Hs Hm Hr] Hnow. destruct (pruneLocked_ok now m Ht Hb) as (m' & E & Ht' & Hb' & C & HS).
  exists m'. split_and!; try done. split; try done.
  - rewrite (sc_inflight _ _ C), HS. eapply accounts_sub; [exact Ha|]. intros s. unfold unexpired, listedIn.
    destruct (m_sessions m !! s) as [st|] eqn:Hst.
    2:{ left. apply map_lookup_filter_None. by left. }
    destruct (decide (expired (m_ttl m) now st)) as [He|He].
    + right. split; [|by destruct He]. apply map_lookup_filter_None. right. intros x Hx. simplify_eq. simpl. tauto.
    + left. by apply map_lookup_filter_Some.
  - intros s st. rewrite HS. intros [Hst _]%map_lookup_filter_Some. apply Hc in Hst. lia.
  - rewrite (sc_max _ _ C), HS. etrans; [|exact Hs]. apply inj_le. apply map_subseteq_size, map_filter_subseteq.
  - by rewrite (sc_max _ _ C).
Qed.

Lemma wf_drop m ls now s : wf m ls now -> s ∈ m_idle m ->
  exists m', dropLocked s m = Ok m' /\ wf m' ls now /\ same_config m m' /\ m_sessions m' = delete s (m_sessions m) /\
    (S (size (m_sessions m')) = size (m_sessions m)).
Proof.
  intros [Ht Hb Ha Hc Hs Hm Hr] Hi. destruct (idle_session _ _ Ht Hi) as (st & Hst & Hl).
  destruct (dropLocked_ok m s st Ht Hst) as (m' & E & Ht' & C & HS & HI).
  assert (S (size (m_sessions m')) = size (m_sessions m)) as Hsz.
  { rewrite HS, map_size_delete_Some by (by rewrite Hst). destruct (size (m_sessions m)) eqn:E0; [|done].
    apply map_size_empty_inv in E0. by rewrite E0, lookup_empty in Hst. }
  exists m'. split_and!; try done. split; try done.
  - by eapply by_touch_drop.
  - rewrite (sc_inflight _ _ C), HS. eapply accounts_sub; [exact Ha|]. intros x.
    destruct (decide (x = s)) as [->|Hx]; [right|left; by rewrite lookup_delete_ne].
    rewrite lookup_delete_eq. split; [done|]. unfold listedIn. by rewrite Hst.
  - intros x sx. rewrite HS. intros [_ Hx]%lookup_delete_Some. by eapply Hc.
  - rewrite (sc_max _ _ C). lia.
  - by rewrite (sc_max _ _ C).
Qed.

(** ** A call begins, and ends *)

Lemma table_ok_insert m s st st' : table_ok m -> m_sessions m !! s = Some st -> st_listed st' = st_listed st ->
  table_ok (with_sessions <[s := st']> m).
Proof.
  intros H Hs Hl. split; simpl.
  - intros x. rewrite (t_idle _ H), listedIn_insert. destruct (decide (x = s)) as [->|]; [|done].
    unfold listedIn. rewrite Hs. simpl. by rewrite Hl.
  - apply H.
  - intros p. rewrite dom_insert_lookup_L by (by rewrite Hs). apply H.
Qed.

Lemma table_ok_inflight m f : table_ok m -> table_ok (with_inflight f m).
Proof. by intros [???]; split. Qed.

Lemma by_touch_but m m' s : by_touch m -> m_idle m' = unlist s (m_idle m) ->
  (forall x, x <> s -> m_sessions m' !! x = m_sessions m !! x) -> by_touch m'.
Proof.
  unfold by_touch. intros H HI HS. rewrite HI. apply (Sorted_filter _ (fun x => x <> s)) in H.
  eapply Sorted_ext; [|exact H]. simpl. intros a b [Ha _]%list_elem_of_filter [Hb _]%list_elem_of_filter.
  unfold touchedOf. by rewrite !HS.
Qed.

(** What admitting a call does, past its guards. *)
Definition admit_call (scope : Scope) (st : state) (cost now : Z) (m : MemoryManager) : result MemoryManager :=
  let m := if bool_decide (STenant scope = "") then m
           else with_inflight (fun f => <[STenant scope := default 0 (f !! STenant scope) + 1]> f) m in
  m ← busyLocked scope st m;
  Ok (with_sessions (alter (fun st => mkState (st_inflight st + 1) (st_cost st) (w64 (st_reserved st + cost)) now
                                              (st_closed st) (st_listed st)) scope) m).

Definition enterTenant (t : string) (f : gmap string Z) : gmap string Z :=
  if bool_decide (t = "") then f else <[t := default 0 (f !! t) + 1]> f.

Lemma admit_call_ok scope st cost now m : table_ok m -> by_touch m -> m_sessions m !! scope = Some st ->
  exists m', admit_call scope st cost now m = Ok m' /\ table_ok m' /\ by_touch m' /\
    m_roles m' = m_roles m /\ m_tenants m' = m_tenants m /\ m_ttl m' = m_ttl m /\ m_maxStates m' = m_maxStates m /\
    m_inflight m' = enterTenant (STenant scope) (m_inflight m) /\
    m_sessions m' = <[scope := mkState (st_inflight st + 1) (st_cost st) (w64 (st_reserved st + cost)) now
                                       (st_closed st) false]> (m_sessions m).
Proof.
  intros Ht Hb Hs. unfold admit_call. set (m1 := if bool_decide _ then _ else _).
  assert (table_ok m1 /\ m_sessions m1 = m_sessions m /\ m_idle m1 = m_idle m /\ m_roles m1 = m_roles m /\
          m_tenants m1 = m_tenants m /\ m_ttl m1 = m_ttl m /\ m_maxStates m1 = m_maxStates m /\
          m_inflight m1 = enterTenant (STenant scope) (m_inflight m)) as (H1 & E1 & I1 & R1 & T1 & L1 & M1 & F1).
  { unfold m1, enterTenant. destruct (bool_decide _); [done|]. split; [by apply table_ok_inflight|done]. }
  clearbody m1. destruct (busyLocked_ok m1 scope st H1) as (m2 & -> & H2 & [C1 C2 C3 C4 C5] & S2 & I2); [by rewrite E1|].
  simpl. eexists. split; [reflexivity|].
  assert (m_sessions m2 !! scope = Some (set_listed false st)) as Hs2 by (rewrite S2; apply lookup_insert_eq).
  unfold with_sessions. rewrite (alter_alt_Some _ _ _ _ Hs2). simpl.
  split_and!; simpl; try congruence.
  - by apply (table_ok_insert m2 scope _ _ H2 Hs2).
  - apply (by_touch_but m _ scope); simpl; [done|congruence|]. intros x Hx. by rewrite S2, E1, !lookup_insert_ne.
  - rewrite S2, E1. by rewrite insert_insert_eq.
Qed.

Lemma tenant_entered t inflight ls l : (forall t, inflight !! t =
    if decide (t = "" \/ tenantRunning t ls = 0) then None else Some (tenantRunning t ls)) ->
  ls_done l = false -> STenant (ls_scope l) = t ->
  forall u, enterTenant t inflight !! u =
    if decide (u = "" \/ tenantRunning u (ls ++ [l]) = 0) then None else Some (tenantRunning u (ls ++ [l])).
Proof.
  intros H Hd <- u. assert (tenantRunning u (ls ++ [l]) = tenantRunning u ls + (if decide (STenant (ls_scope l) = u) then 1 else 0)) as ->.
  { unfold tenantRunning. by rewrite heldOver_snoc, Hd. }
  pose proof (tenantRunning_nonneg u ls). unfold enterTenant. case_bool_decide as Ht.
  - destruct (decide (STenant (ls_scope l) = u)) as [<-|Hu]; [|rewrite Z.add_0_r; apply H].
    rewrite H. rewrite !decide_True by tauto. done.
  - destruct (decide (STenant (ls_scope l) = u)) as [<-|Hu]; [|rewrite Z.add_0_r, lookup_insert_ne by done; apply H].
    rewrite lookup_insert_eq, H, (decide_False (P := _ = "" \/ _ + 1 = 0)) by (intros [?|?]; [done|lia]).
    f_equal. destruct (decide _) as [[?|E]|_]; simpl; [done|lia|done].
Qed.

Lemma accounts_admit f inflight ls scope st l now :
  accounts f inflight ls -> f !! scope = Some st -> ls_done l = false -> ls_scope l = scope ->
  accounts (<[scope := mkState (st_inflight st + 1) (st_cost st) (w64 (st_reserved st + ls_reserved l)) now
                               (st_closed st) false]> f) (enterTenant (STenant scope) inflight) (ls ++ [l]).
Proof.
  intros [H1 H2 H3] Hs Hd <-. split.
  - intros s x Hx. unfold running, heldCost. rewrite !heldOver_snoc, Hd. fold (running s ls) (heldCost s ls).
    pose proof (running_nonneg s ls). apply lookup_insert_Some in Hx as [[<- <-]|[Hne Hx]].
    + destruct (H1 _ _ Hs) as (E1 & E2 & _). rewrite !decide_True by done. simpl.
      rewrite E1, E2, w64_w64_add. split_and!; [done..|]. split; [done|lia].
    + rewrite !decide_False by done. rewrite !Z.add_0_r. by apply H1.
  - intros s [Hn Hne]%lookup_insert_None. unfold running. rewrite heldOver_snoc, Hd, decide_False by congruence.
    rewrite Z.add_0_r. by apply H2.
  - intros t. by apply tenant_entered.
Qed.

Lemma wf_admit m ls now scope st l : wf m ls now -> m_sessions m !! scope = Some st ->
  ls_done l = false -> ls_scope l = scope -> 0 <= ls_reserved l ->
  exists m', admit_call scope st (ls_reserved l) now m = Ok m' /\ wf m' (ls ++ [l]) now /\
    m_sessions m' = <[scope := mkState (st_inflight st + 1) (st_cost st) (w64 (st_reserved st + ls_reserved l)) now
                                       (st_closed st) false]> (m_sessions m).
Proof.
  intros [Ht Hb Ha Hc Hsz Hm Hr] Hs Hd Hl Hpos.
  destruct (admit_call_ok scope st (ls_reserved l) now m Ht Hb Hs) as (m' & E & Ht' & Hb' & E1 & E2 & E3 & E4 & E5 & E6).
  exists m'. split_and!; try done. split; try done.
  - rewrite E5, E6. by apply accounts_admit.
  - intros s x. rewrite E6. intros [[<- <-]|[_ Hx]]%lookup_insert_Some; [done|by eapply Hc].
  - rewrite E4, E6, map_size_insert_Some by (by rewrite Hs). done.
  - by rewrite E4.
  - intros x [Hx| ->%list_elem_of_singleton]%elem_of_app; [by apply Hr|done].
Qed.

(** What the guards of AcquireWithReservation settle. *)
Lemma checkReservationLimits_ok l st r : checkReservationLimits l st r = Ok tt ->
  (0 < MaxConcurrent l -> st_inflight st < MaxConcurrent l) /\
  (0 < MaxSessionCost l < 2 ^ 63 -> 0 <= st_cost st -> 0 <= st_reserved st -> 0 <= RCost r ->
   st_cost st + st_reserved st + RCost r <= MaxSessionCost l).
Proof.
  unfold checkReservationLimits. intros H. destruct (_ && _) eqn:E1 in H; [done|]. destruct (_ && _) eqn:E2 in H; [done|].
  destruct (_ && _) eqn:E3 in H; [done|]. clear H E2. split.
  - intros Hp. apply andb_false_iff in E1 as [E1%Z.ltb_ge|E1%Z.leb_gt]; lia.
  - intros Hp Hc Hr Hq. apply andb_false_iff in E3 as [E3%Z.ltb_ge|E3]; [lia|].
    apply orb_false_iff in E3 as [[E3%Z.leb_gt E4%Z.leb_gt]%orb_false_iff E5%Z.ltb_ge].
    rewrite (w64_id (_ - _)) in E4 by lia. rewrite (w64_id (MaxSessionCost l - st_cost st)) in E5 by lia.
    rewrite w64_id in E5 by lia. lia.
Qed.

(** A lease completed: its place among the leases. *)
Definition completed_at (i : nat) (l l' : lease) (ls : list lease) : Prop :=
  ls !! i = Some l /\ ls_done l = false /\ ls_done l' = true /\ ls_scope l' = ls_scope l.

Lemma running_positive i l l' ls : completed_at i l l' ls -> 0 < running (ls_scope l) ls.
Proof.
  intros (Hi & Hd & _). unfold running.
  pose proof (heldOver_ge (fun x => if decide (ls_scope x = ls_scope l) then 1 else 0) ls i l) as H. simpl in H.
  rewrite decide_True in H by done. specialize (H ltac:(intros x; destruct (decide _); lia) Hi Hd). lia.
Qed.

Lemma tenant_left i l l' ls inflight : completed_at i l l' ls ->
  (forall t, inflight !! t = if decide (t = "" \/ tenantRunning t ls = 0) then None else Some (tenantRunning t ls)) ->
  forall u, leaveTenant (STenant (ls_scope l)) inflight !! u =
    if decide (u = "" \/ tenantRunning u (<[i := l']> ls) = 0) then None else Some (tenantRunning u (<[i := l']> ls)).
Proof.
  intros (Hi & Hd & Hd' & Hl) H u. set (t := STenant (ls_scope l)).
  assert (tenantRunning u (<[i := l']> ls) = tenantRunning u ls - (if decide (t = u) then 1 else 0)) as E.
  { unfold tenantRunning. by rewrite (heldOver_done _ ls i l l'). }
  pose proof (tenantRunning_nonneg u (<[i := l']> ls)) as Hpos. rewrite E in *. unfold leaveTenant. case_bool_decide as Ht.
  - destruct (decide (t = u)) as [<-|Hu]; [|rewrite Z.sub_0_r; apply H]. rewrite H, !decide_True by tauto. done.
  - destruct (decide (t = u)) as [<-|Hu].
    + rewrite H, (decide_False (P := t = "" \/ tenantRunning t ls = 0)) by (intros [?|?]; [done|lia]). simpl.
      destruct (_ <=? 0) eqn:En.
      * rewrite lookup_delete_eq, decide_True; [done|]. right. lia.
      * rewrite lookup_insert_eq, decide_False; [done|]. intros [?|?]; [done|lia].
    + rewrite Z.sub_0_r. rewrite <- H. destruct (_ <=? 0); [by rewrite lookup_delete_ne|by rewrite lookup_insert_ne].
Qed.

(** The counters after a lease completed, for any table that agrees elsewhere. *)
Lemma accounts_complete i l l' ls f f' inflight :
  accounts f inflight ls -> completed_at i l l' ls ->
  (forall x, x <> ls_scope l -> f' !! x = f !! x) ->
  match f' !! ls_scope l with
  | None => running (ls_scope l) ls = 1
  | Some st => st_inflight st = running (ls_scope l) ls - 1 /\
               st_reserved st = w64 (heldCost (ls_scope l) ls - ls_reserved l) /\
               (st_listed st = true <-> running (ls_scope l) ls = 1)
  end ->
  accounts f' (leaveTenant (STenant (ls_scope l)) inflight) (<[i := l']> ls).
Proof.
  intros [H1 H2 H3] Hc Hf Hs. pose proof Hc as (Hi & Hd & Hd' & Hl).
  assert (forall s, running s (<[i := l']> ls) = running s ls - (if decide (ls_scope l = s) then 1 else 0)) as R.
  { intros s. unfold running. by rewrite (heldOver_done _ ls i l l'). }
  assert (forall s, heldCost s (<[i := l']> ls) = heldCost s ls - (if decide (ls_scope l = s) then ls_reserved l else 0)) as R'.
  { intros s. unfold heldCost. by rewrite (heldOver_done _ ls i l l'). }
  split; [| |by apply tenant_left].
  - intros s st Hst. rewrite R, R'. destruct (decide (ls_scope l = s)) as [<-|Hne].
    + rewrite Hst in Hs. destruct Hs as (-> & -> & ->). split_and!; [done..|]. lia.
    + rewrite !Z.sub_0_r. rewrite Hf in Hst by done. by apply H1.
  - intros s Hst. rewrite R. destruct (decide (ls_scope l = s)) as [<-|Hne]; [rewrite Hst in Hs; lia|].
    rewrite Z.sub_0_r. rewrite Hf in Hst by done. by apply H2.
Qed.

Lemma w64_w64_sub a b : w64 (w64 a - b) = w64 (a - b).
Proof. rewrite <- !Z.add_opp_r. apply w64_w64_add. Qed.

(** What is left of the invariant's parts once the table after completion is known. *)
Lemma wf_completed m m' ls now i l l' : wf m ls now -> completed_at i l l' ls -> ls_reserved l' = ls_reserved l ->
  table_ok m' -> by_touch m' -> m_maxStates m' = m_maxStates m ->
  m_inflight m' = leaveTenant (STenant (ls_scope l)) (m_inflight m) ->
  (forall x, x <> ls_scope l -> m_sessions m' !! x = m_sessions m !! x) ->
  (size (m_sessions m') <= size (m_sessions m))%nat ->
  match m_sessions m' !! ls_scope l with
  | None => running (ls_scope l) ls = 1
  | Some st => st_inflight st = running (ls_scope l) ls - 1 /\
               st_reserved st = w64 (heldCost (ls_scope l) ls - ls_reserved l) /\
               (st_listed st = true <-> running (ls_scope l) ls = 1) /\ st_touched st <= now
  end -> wf m' (<[i := l']> ls) now.
Proof.
  intros [Ht Hb Ha Hc Hs Hm Hr] Hcomp Hres Ht' Hb' EM EI HS Hsz Hst. split; try done.
  - rewrite EI. eapply accounts_complete; [exact Ha|exact Hcomp|exact HS|].
    destruct (m_sessions m' !! ls_scope l); [tauto|done].
  - intros s st Hx. destruct (decide (s = ls_scope l)) as [->|Hne]; [rewrite Hx in Hst; tauto|].
    rewrite HS in Hx by done. by eapply Hc.
  - rewrite EM. lia.
  - by rewrite EM.
  - intros x [j Hj]%list_elem_of_lookup. apply list_lookup_insert_Some in Hj as [(<- & <- & _)|[_ Hj]].
    + rewrite Hres. apply Hr. destruct Hcomp as (Hi & _). by eapply list_elem_of_lookup_2.
    + apply Hr. by eapply list_elem_of_lookup_2.
Qed.

Lemma wf_later m ls now0 now : wf m ls now0 -> now0 <= now -> wf m ls now.
Proof. intros [Ht Hb Ha Hc Hs Hm Hr] Hn. split; try done. intros s st Hx. apply Hc in Hx. lia. Qed.

(** The switch at the end of Complete. *)
Definition settle (s : Scope) (st : state) (m : MemoryManager) : result MemoryManager :=
  if 0 <? st_inflight st then Ok m else if st_closed st then dropLocked s m else idleLocked s m.

Lemma settle_ok m s st : table_ok m -> by_touch m -> m_sessions m !! s = Some st -> st_listed st = false ->
  (forall x sx, m_sessions m !! x = Some sx -> st_touched sx <= st_touched st) ->
  exists m', settle s st m = Ok m' /\ table_ok m' /\ by_touch m' /\ same_config m m' /\
    (forall x, x <> s -> m_sessions m' !! x = m_sessions m !! x) /\ (size (m_sessions m') <= size (m_sessions m))%nat /\
    match m_sessions m' !! s with
    | None => st_inflight st <= 0
    | Some st' => st_inflight st' = st_inflight st /\ st_reserved st' = st_reserved st /\
                  st_touched st' = st_touched st /\ (st_listed st' = true <-> st_inflight st <= 0)
    end.
Proof.
  intros Ht Hb Hs Hl Hc. unfold settle. destruct (0 <? st_inflight st) eqn:E.
  { exists m. split_and!; try done. rewrite Hs, Hl. split_and!; try done. split; [done|lia]. }
  destruct (st_closed st).
  - destruct (dropLocked_ok m s st Ht Hs) as (m' & -> & Ht' & C & HS & HI). exists m'. split_and!; try done.
    + by eapply by_touch_drop.
    + intros x Hx. by rewrite HS, lookup_delete_ne.
    + rewrite HS. apply map_subseteq_size, delete_subseteq.
    + rewrite HS, lookup_delete_eq. lia.
  - destruct (idleLocked_ok m s st Ht Hs Hl) as (m' & -> & Ht' & C & HS & HI).
    assert (forall x, x <> s -> m_sessions m' !! x = m_sessions m !! x) as Hx by (intros; by rewrite HS, lookup_insert_ne).
    exists m'. split_and!; try done.
    + apply (by_touch_push m m' s (st_touched st)); try done; [| |by rewrite HS; unfold touchedOf; rewrite lookup_insert_eq].
      * rewrite (t_idle _ Ht). unfold listedIn. rewrite Hs. simpl. congruence.
      * intros x sx Hsx _. by eapply Hc.
    + rewrite HS, map_size_insert_Some; [done|by rewrite Hs].
    + rewrite HS, lookup_insert_eq. simpl. split_and!; try done. split; [lia|done].
Qed.

Lemma Complete_wf u now0 now i l m ls : wf m ls now0 -> now0 <= now -> ls !! i = Some l ->
  exists m' l', Complete u now l m = Ok (m', l') /\ wf m' (<[i := l']> ls) now.
Proof.
  intros H0 Hnow Hi. pose proof (wf_later _ _ _ _ H0 Hnow) as H. unfold Complete. destruct (ls_done l) eqn:Hd.
  { exists m, l. by rewrite list_insert_id. }
  pose proof (wf_accounts _ _ _ H) as Ha.
  pose proof (running_positive i l (mkLease (ls_scope l) noLimits 0 true None) ls ltac:(done)) as Hpos.
  destruct (m_sessions m !! ls_scope l) as [st|] eqn:Hst; [|apply (a_none _ _ _ Ha) in Hst; lia].
  destruct (a_state _ _ _ Ha _ _ Hst) as (E1 & E2 & E3).
  assert (st_listed st = false) as Hl by (apply not_true_is_false; rewrite E3; lia).
  assert (ls_scope l ∉ m_idle m) as Hni.
  { rewrite (t_idle _ (wf_table _ _ _ H)). unfold listedIn. rewrite Hst. simpl. congruence. }
  cbv zeta. set (st1 := mkState _ _ _ _ _ _). set (m1 := with_sessions <[ls_scope l := st1]> _).
  destruct (settle_ok m1 (ls_scope l) st1) as (m' & E & Ht' & Hb' & C & HS & Hsz & Hm').
  { apply (table_ok_insert _ _ st); [apply table_ok_inflight, H|done|done]. }
  { apply (by_touch_but m _ (ls_scope l)); [apply H|by rewrite unlist_other|]. intros x Hx. simpl. by rewrite lookup_insert_ne. }
  { apply lookup_insert_eq. } { done. }
  { intros x sx Hx. unfold m1 in Hx. simpl in Hx. apply lookup_insert_Some in Hx as [[<- <-]|[_ Hx]]; [done|]. by apply (wf_clock _ _ _ H) in Hx. }
  unfold settle in E. rewrite E. simpl. eexists m', _. split; [reflexivity|].
  assert (size (m_sessions m1) = size (m_sessions m)) as Hsz1 by (simpl; rewrite map_size_insert_Some; [done|by rewrite Hst]).
  eapply (wf_completed m m' ls now i l); try done; [by rewrite (sc_max _ _ C)|by rewrite (sc_inflight _ _ C)| |lia|].
  - intros x Hx. rewrite HS by done. simpl. by rewrite lookup_insert_ne.
  - destruct (m_sessions m' !! ls_scope l) as [st'|]; simpl in Hm'; rewrite E1 in Hm'; [|lia].
    destruct Hm' as (-> & -> & -> & ->). rewrite E2, w64_w64_sub. split_and!; [done..| |lia]. lia.
Qed.

(** A state replaced by one with the same counters. *)
Lemma wf_replace m ls now s st st' : wf m ls now -> m_sessions m !! s = Some st ->
  st_inflight st' = st_inflight st -> st_reserved st' = st_reserved st -> st_touched st' = st_touched st ->
  st_listed st' = st_listed st -> wf (with_sessions <[s := st']> m) ls now.
Proof.
  intros [Ht Hb [H1 H2 H3] Hc Hs Hm Hr] Hst E1 E2 E3 E4. split; try done.
  - by eapply table_ok_insert.
  - unfold by_touch. simpl. eapply Sorted_ext; [|exact Hb]. simpl. intros a b _ _.
    assert (forall x, touchedOf (<[s := st']> (m_sessions m)) x = touchedOf (m_sessions m) x) as Ex.
    { intros x. unfold touchedOf. destruct (decide (x = s)) as [->|Hx]; [|by rewrite lookup_insert_ne].
      by rewrite lookup_insert_eq, Hst. }
    by rewrite !Ex.
  - split; simpl; [| |done].
    + intros x sx [[<- <-]|[_ Hx]]%lookup_insert_Some; [rewrite E1, E2, E4; by apply H1|by apply H1].
    + intros x [Hx _]%lookup_insert_None. by apply H2.
  - intros x sx Hx. simpl in Hx. apply lookup_insert_Some in Hx as [[<- <-]|[_ Hx]]; [rewrite E3|]; by eapply Hc.
  - simpl. rewrite map_size_insert_Some; [done|by rewrite Hst].
Qed.

(** What closing a session leaves of a state of it. *)
Definition closing (st : state) : Prop := st_closed st = true /\ st_cost st = 0 /\ 0 < st_inflight st.

Lemma closeOne_ok session m ls now s x : wf m ls now ->
  exists m', closeOne session (Ok m) (s, x) = Ok m' /\ wf m' ls now /\
    (forall y, y <> s \/ SSession s <> session -> m_sessions m' !! y = m_sessions m !! y) /\
    (SSession s = session -> forall st, m_sessions m' !! s = Some st -> closing st).
Proof.
  intros H. unfold closeOne. cbn [mbind result_bind fst]. destruct (m_sessions m !! s) as [st|] eqn:Hst.
  2:{ exists m. split_and!; try done. intros _ st Hx. congruence. }
  case_bool_decide as Hs; [|exists m; by split_and!].
  destruct (a_state _ _ _ (wf_accounts _ _ _ H) _ _ Hst) as (E1 & E2 & E3). pose proof (running_nonneg s ls).
  unfold with_sessions. rewrite !(alter_alt_Some _ _ _ st) by done.
  destruct (st_inflight st =? 0) eqn:Ei.
  - match goal with |- context [dropLocked s ?m0] => destruct (wf_drop m0 ls now s) as (m' & -> & H' & C & HS & _) end;
      [by apply (wf_replace m ls now s st)| |].
    { simpl. rewrite (t_idle _ (wf_table _ _ _ H)). unfold listedIn. rewrite Hst. simpl. apply E3. lia. }
    exists m'. split_and!; try done; rewrite HS; simpl.
    + intros y [Hy|Hy]; [|done]. by rewrite lookup_delete_ne, lookup_insert_ne.
    + intros _ st'. by rewrite lookup_delete_eq.
  - eexists. split_and!; [reflexivity|by apply (wf_replace m ls now s st)|..]; simpl.
    + intros y [Hy|Hy]; [|done]. by rewrite lookup_insert_ne.
    + intros _ st'. rewrite lookup_insert_eq. intros [= <-]. split_and!; [done..|]. simpl. lia.
Qed.

Lemma closeAll_ok session entries ls now : forall m, wf m ls now ->
  exists m', foldl (closeOne session) (Ok m) entries = Ok m' /\ wf m' ls now /\
    (forall s, SSession s <> session -> m_sessions m' !! s = m_sessions m !! s) /\
    (forall s st, SSession s = session -> m_sessions m' !! s = Some st ->
       (forall x, (s, x) ∉ entries) /\ m_sessions m !! s = Some st \/ closing st).
Proof.
  induction entries as [|[s x] entries IH]; intros m H.
  { exists m. split_and!; try done. intros s st _ Hs. left. split; [|done]. intros x Hx. by apply elem_of_nil in Hx. }
  destruct (closeOne_ok session m ls now s x H) as (m1 & E & H1 & HS & Hcl). cbn [foldl]. rewrite E.
  destruct (IH m1 H1) as (m' & -> & H' & HS' & Hcl'). exists m'. split_and!; try done.
  - intros y Hy. rewrite HS' by done. apply HS. destruct (decide (y = s)) as [->|]; [by right|by left].
  - intros y st Hy Hst. destruct (Hcl' y st Hy Hst) as [[Hn Hm1]|Hc]; [|by right].
    destruct (decide (y = s)) as [->|Hne]; [right; by apply Hcl|]. left.
    rewrite <- HS by (by left). split; [|done]. intros z [Hz|Hz]%elem_of_cons; [simplify_eq|by apply (Hn z)].
Qed.

Section budget.
Context (rangeHolders : gmap principal holder -> list (principal * holder)).
Context (rangeSessions : gmap Scope state -> list (Scope * state)).
Context (holders_perm : forall hs, rangeHolders hs ≡ₚ map_to_list hs).
Context (sessions_perm : forall f, rangeSessions f ≡ₚ map_to_list f).

(** What finding a state for [scope] may do to the table. *)
Definition room_made (m m' : MemoryManager) (scope : Scope) : Prop :=
  forall v, is_Some (m_sessions m !! v) -> m_sessions m' !! v = None ->
    m_sessions m !! scope = None /\ m_maxStates m <= Z.of_nat (size (m_sessions m)) /\
    evictable m (principalOf scope) v.

Lemma wf_newState m ls now scope : wf m ls now -> m_sessions m !! scope = None ->
  Z.of_nat (size (m_sessions m)) < m_maxStates m ->
  let h := default (mkHolder 0 []) (m_holders m !! principalOf scope) in
  exists m', idleLocked scope (with_sessions <[scope := mkState 0 0 0 now false false]>
               (with_holders <[principalOf scope := mkHolder (h_states h + 1) (h_idle h)]> m)) = Ok m' /\
    wf m' ls now /\ same_config m m' /\ m_sessions m' = <[scope := mkState 0 0 0 now false true]> (m_sessions m).
Proof.
  intros [Ht Hb Ha Hc Hs Hm Hr] Hn Hlt h.
  destruct (newState_ok m scope now Ht Hb Hn Hc) as (m' & E & Ht' & Hb' & C & HS).
  exists m'. split_and!; try done. split; try done.
  - rewrite (sc_inflight _ _ C), HS. destruct Ha as [H1 H2 H3]. split; [| |done].
    + intros s st [[<- <-]|[Hne Hst]]%lookup_insert_Some; [|by apply H1].
      simpl. rewrite (H2 _ Hn). by rewrite (heldCost_none _ _ (H2 _ Hn)).
    + intros s [Hst _]%lookup_insert_None. by apply H2.
  - intros s st. rewrite HS. intros [[<- <-]|[_ Hst]]%lookup_insert_Some; [done|by eapply Hc].
  - rewrite HS, (sc_max _ _ C), map_size_insert_None by done. lia.
  - by rewrite (sc_max _ _ C).
Qed.

Lemma wf_acquireState m ls now scope : wf m ls now ->
  match acquireStateLocked rangeHolders scope now m with
  | Ok m' => wf m' ls now /\ same_config m m' /\ is_Some (m_sessions m' !! scope) /\ room_made m m' scope /\
             (forall s, s <> scope -> m_sessions m' !! s = m_sessions m !! s \/ m_sessions m' !! s = None) /\
             (m_sessions m' !! scope = m_sessions m !! scope \/
              m_sessions m !! scope = None /\ m_sessions m' !! scope = Some (mkState 0 0 0 now false true))
  | Err e => e = ErrExceeded /\ m_sessions m !! scope = None /\
             m_maxStates m <= Z.of_nat (size (m_sessions m)) /\ forall v, ~ evictable m (principalOf scope) v
  end.
Proof using holders_perm.
  intros H. unfold acquireStateLocked. destruct (m_sessions m !! scope) as [st|] eqn:Hst.
  { rewrite Hst. split_and!; [done..|by eexists| |by left|by left]. intros v Hv Hv'. by rewrite Hv' in Hv; destruct Hv. }
  destruct (m_maxStates m <=? _) eqn:Efull.
  - apply Z.leb_le in Efull. destruct (victimLocked_ok _ holders_perm m (principalOf scope) (wf_table _ _ _ H)) as (o & -> & Hv & Hnone).
    simpl. destruct o as [v|]; simpl; [|by split_and!; auto].
    destruct (Hv v eq_refl) as [Hi He]. destruct (wf_drop m ls now v H Hi) as (m1 & -> & H1 & C1 & S1 & Hsz). simpl.
    destruct (wf_newState m1 ls now scope H1) as (m' & -> & H' & C' & S').
    { rewrite S1. by rewrite lookup_delete_None; right. }
    { rewrite (sc_max _ _ C1). pose proof (wf_size _ _ _ H). lia. }
    split_and!; [done|by etrans|rewrite S', lookup_insert_eq; by eexists| | |right; by rewrite S', lookup_insert_eq].
    + intros x [sx Hx]. rewrite S', S1. intros [[<-|Hn]%lookup_delete_None Hs]%lookup_insert_None; [|congruence].
      by split_and!.
    + intros s Hs. rewrite S', S1, lookup_insert_ne by done. destruct (decide (s = v)) as [->|Hne]; [right; apply lookup_delete_eq|].
      left. by rewrite lookup_delete_ne.
  - apply Z.leb_gt in Efull. simpl. destruct (wf_newState m ls now scope H Hst Efull) as (m' & -> & H' & C' & S').
    split_and!; [done..|rewrite S', lookup_insert_eq; by eexists| | |right; by rewrite S', lookup_insert_eq].
    + intros x [sx Hx]. rewrite S'. intros [Hn _]%lookup_insert_None. congruence.
    + intros s Hs. left. by rewrite S', lookup_insert_ne.
Qed.

(** An admitted call, and the limits its scope has. *)
Definition within_limits (m m' : MemoryManager) (ls : list lease) (l : lease) : Prop :=
  let lim := limits m (ls_scope l) in
  ls_limits l = lim /\ 0 <= ls_reserved l /\ ls_done l = false /\
  (0 < MaxConcurrent lim -> running (ls_scope l) ls <= MaxConcurrent lim) /\
  (0 < tenantConcurrency m (STenant (ls_scope l)) ->
   tenantRunning (STenant (ls_scope l)) ls <= tenantConcurrency m (STenant (ls_scope l))) /\
  (0 < MaxSessionCost lim < 2 ^ 63 -> heldCost (ls_scope l) ls < 2 ^ 63 ->
   forall st, m_sessions m' !! ls_scope l = Some st -> 0 <= st_cost st ->
   st_cost st + heldCost (ls_scope l) ls <= MaxSessionCost lim).

Lemma Acquire_unfold scope r now m :
  AcquireWithReservation rangeHolders scope r now m =
  (m ← pruneLocked now m;
   let l := limits m scope in
   let r := normalizeReservation r in
   match acquireStateLocked rangeHolders scope now m with
   | Err ErrExceeded => Ok (m, None)
   | Err e => Err e
   | Ok m =>
       match m_sessions m !! scope with
       | None => Err Panic
       | Some st =>
           let max := tenantConcurrency m (STenant scope) in
           if negb (is_ok (checkReservationLimits l st r)) then Ok (m, None)
           else if (0 <? max) && (max <=? default 0 (m_inflight m !! STenant scope)) then Ok (m, None)
           else m ← admit_call scope st (RCost r) now m; Ok (m, Some (mkLease scope l (RCost r) false None))
       end
   end).
Proof.
  unfold AcquireWithReservation, admit_call. destruct (pruneLocked now m) as [m1|]; [|done]. simpl.
  destruct (acquireStateLocked rangeHolders scope now m1) as [m2|]; [|done].
  destruct (m_sessions m2 !! scope) as [st|]; [|done].
  destruct (negb _); [done|]. destruct (_ && _); [done|]. by destruct (busyLocked _ _ _).
Qed.

Lemma heldCost_nonneg s ls : (forall l, l ∈ ls -> 0 <= ls_reserved l) -> 0 <= heldCost s ls.
Proof. intros H. apply heldOver_nonneg. intros l Hl. apply H in Hl. destruct (decide _); lia. Qed.

Lemma tenant_count m ls now t : wf m ls now -> t <> "" -> default 0 (m_inflight m !! t) = tenantRunning t ls.
Proof.
  intros H Ht. rewrite (a_tenant _ _ _ (wf_accounts _ _ _ H)). destruct (decide _) as [[?|E]|_]; simpl; [done|lia|done].
Qed.

(** The guards passed, the lease is within its limits. *)
Lemma admitted_within m m' ls now scope st r st' :
  wf m ls now -> m_sessions m !! scope = Some st ->
  checkReservationLimits (limits m scope) st (normalizeReservation r) = Ok tt ->
  (0 <? tenantConcurrency m (STenant scope)) &&
    (tenantConcurrency m (STenant scope) <=? default 0 (m_inflight m !! STenant scope)) = false ->
  m_sessions m' !! scope = Some st' -> st_cost st' = st_cost st ->
  let l := mkLease scope (limits m scope) (RCost (normalizeReservation r)) false None in
  within_limits m m' (ls ++ [l]) l.
Proof.
  intros H Hs Hck Htc Hs' Hcost l. destruct (a_state _ _ _ (wf_accounts _ _ _ H) _ _ Hs) as (E1 & E2 & _).
  apply checkReservationLimits_ok in Hck as [C1 C2]. assert (0 <= RCost (normalizeReservation r)) as Hr by (simpl; lia).
  assert (running scope (ls ++ [l]) = running scope ls + 1 /\
          tenantRunning (STenant scope) (ls ++ [l]) = tenantRunning (STenant scope) ls + 1 /\
          heldCost scope (ls ++ [l]) = heldCost scope ls + RCost (normalizeReservation r)) as (R1 & R2 & R3).
  { unfold running, tenantRunning, heldCost. rewrite !heldOver_snoc. simpl. by rewrite !decide_True. }
  unfold within_limits. cbn -[normalizeReservation]. rewrite R1, R2, R3. split_and!; try done.
  - intros Hp. apply C1 in Hp. lia.
  - intros Hp. apply andb_false_iff in Htc as [Htc%Z.ltb_ge|Htc%Z.leb_gt]; [lia|].
    rewrite (tenant_count _ _ _ _ H) in Htc; [lia|]. intros E. unfold tenantConcurrency in Hp.
    by rewrite bool_decide_true in Hp.
  - intros Hp Hb x Hx Hpos. assert (x = st') as -> by congruence.
    pose proof (heldCost_nonneg scope ls (wf_reserved _ _ _ H)) as Hh.
    rewrite E2, w64_id in C2 by lia. rewrite Hcost in *. specialize (C2 Hp Hpos Hh Hr). lia.
Qed.

(** Why a call may drop the state of [v], in the table [kept] that pruning left. *)
Definition drop_reason (m : MemoryManager) (now : Z) (scope v : Scope) (st : state) : Prop :=
  let kept := unexpired (m_ttl m) now (m_sessions m) in
  expired (m_ttl m) now st \/
  (kept !! scope = None /\ m_maxStates m <= Z.of_nat (size kept) /\
   (principalOf v = principalOf scope \/ (share (principalOf scope) (dom kept) < share (principalOf v) (dom kept))%nat)).

Lemma acquireState_drops m m1 m2 ls now scope : wf m1 ls now -> same_config m m1 ->
  m_sessions m1 = unexpired (m_ttl m) now (m_sessions m) -> room_made m1 m2 scope ->
  forall v st, m_sessions m !! v = Some st -> m_sessions m2 !! v = None -> drop_reason m now scope v st.
Proof.
  intros H C HS Hroom v st Hv Hn. destruct (decide (expired (m_ttl m) now st)) as [He|He]; [by left|right].
  rewrite <- HS. destruct (Hroom v) as (E1 & E2 & _ & E3); [|done|].
  - rewrite HS. exists st. by apply map_lookup_filter_Some.
  - by rewrite (sc_max _ _ C) in E2.
Qed.

Lemma limits_config m m' scope : same_config m m' -> limits m' scope = limits m scope.
Proof. intros C. unfold limits. by rewrite (sc_roles _ _ C), (sc_tenants _ _ C). Qed.

Lemma tenantConcurrency_config m m' t : same_config m m' -> tenantConcurrency m' t = tenantConcurrency m t.
Proof. intros C. unfold tenantConcurrency. by rewrite (sc_tenants _ _ C). Qed.

Lemma Acquire_wf m ls now0 now scope r : wf m ls now0 -> now0 <= now ->
  exists m' o, AcquireWithReservation rangeHolders scope r now m = Ok (m', o) /\
    wf m' (ls ++ option_list o) now /\
    (forall l, o = Some l -> ls_scope l = scope /\ within_limits m m' (ls ++ [l]) l) /\
    (forall v st, m_sessions m !! v = Some st -> m_sessions m' !! v = None -> drop_reason m now scope v st).
Proof using holders_perm.
  intros H Hnow. rewrite Acquire_unfold.
  destruct (wf_prune m ls now0 now H Hnow) as (m1 & -> & H1 & C1 & S1). cbn [mbind result_bind].
  pose proof (wf_acquireState m1 ls now scope H1) as Ha.
  destruct (acquireStateLocked rangeHolders scope now m1) as [m2|e].
  2:{ destruct Ha as (-> & _). exists m1, None. rewrite app_nil_r. split_and!; try done.
      apply (acquireState_drops m m1 m1 ls now scope); try done. intros v [x Hx] Hv. congruence. }
  destruct Ha as (H2 & C2 & [st Hst] & Hroom & _ & _). rewrite Hst. cbv zeta.
  assert (forall v st, m_sessions m !! v = Some st -> m_sessions m2 !! v = None -> drop_reason m now scope v st) as Hdrop.
  { by apply (acquireState_drops m m1 m2 ls now scope). }
  assert (same_config m m2) as C by by etrans. rewrite (limits_config _ _ _ C1), (tenantConcurrency_config _ _ _ C).
  destruct (checkReservationLimits _ _ _) as [[]|] eqn:Eck; simpl negb.
  2:{ exists m2, None. rewrite app_nil_r. by split_and!. }
  cbn iota. destruct (_ && _) eqn:Etc.
  { exists m2, None. rewrite app_nil_r. by split_and!. }
  set (l := mkLease scope _ _ false None).
  destruct (wf_admit m2 ls now scope st l H2 Hst) as (m' & E & H' & S'); [done|done|simpl; lia|].
  change (ls_reserved l) with (RCost (normalizeReservation r)) in E. rewrite E. cbn [mbind result_bind]. exists m', (Some l). split_and!; try done.
  - intros l' [= <-]. split; [done|]. unfold within_limits. simpl ls_scope.
    rewrite <- (tenantConcurrency_config _ _ _ C) in Etc. rewrite <- (limits_config _ _ _ C) in Eck.
    pose proof (admitted_within m2 m' ls now scope st r) as Hw. unfold within_limits in Hw. simpl ls_scope in Hw.
    rewrite (limits_config _ _ _ C), (tenantConcurrency_config _ _ _ C) in *.
    eapply (Hw _ H2 Hst Eck Etc); [rewrite S'; apply lookup_insert_eq|done].
  - intros v x Hv. rewrite S'. intros [Hn _]%lookup_insert_None. by apply Hdrop.
Qed.

(** ** The system: the manager and every lease it gave out, at a time *)

Record world : Type := mkWorld { w_m : MemoryManager; w_leases : list lease; w_now : Z }.

(** One method call, [dt] after the one before it. *)
Inductive call : Type :=
  | CAcquire (scope : Scope) (r : Reservation) (dt : N)
  | CComplete (i : nat) (u : Usage) (dt : N)
  | CClose (session : string)
  | CUpdate (roles tenants : gmap string Limits).

Definition run1 (c : call) (w : world) : result world :=
  match c with
  | CAcquire scope r dt =>
      let now := w_now w + Z.of_N dt in
      '(m, o) ← AcquireWithReservation rangeHolders scope r now (w_m w);
      Ok (mkWorld m (w_leases w ++ option_list o) now)
  | CComplete i u dt =>
      let now := w_now w + Z.of_N dt in
      match w_leases w !! i with
      | None => Ok w
      | Some l => '(m, l) ← Complete u now l (w_m w); Ok (mkWorld m (<[i := l]> (w_leases w)) now)
      end
  | CClose session => m ← CloseSession rangeSessions session (w_m w); Ok (mkWorld m (w_leases w) (w_now w))
  | CUpdate roles tenants => Ok (mkWorld (UpdateLimits roles tenants (w_m w)) (w_leases w) (w_now w))
  end.

Inductive reachable : world -> Prop :=
  | reach_new roles tenants ttl maxStates now :
      reachable (mkWorld (NewWithBounds roles tenants ttl maxStates) [] now)
  | reach_call c w w' : reachable w -> run1 c w = Ok w' -> reachable w'.

Lemma wf_new roles tenants ttl maxStates now : wf (NewWithBounds roles tenants ttl maxStates) [] now.
Proof.
  assert (0 < m_maxStates (NewWithBounds roles tenants ttl maxStates)) as Hmax.
  { simpl. destruct (maxStates <=? 0) eqn:E; lia. }
  split; try done.
  - split; simpl; [|constructor|].
    + intros s. split; [by intros ?%elem_of_nil|]. unfold listedIn. by rewrite lookup_empty.
    + intros p. rewrite lookup_empty, dom_empty_L. unfold holderOf. by rewrite decide_True by apply share_empty.
  - constructor.
  - split; simpl; [by intros s st ?%lookup_empty_Some|done|]. intros t. rewrite lookup_empty. by rewrite decide_True by (by right).
  - simpl in *. rewrite map_size_empty. lia.
  - intros l Hl. by apply elem_of_nil in Hl.
Qed.

Lemma wf_update roles tenants m ls now : wf m ls now -> wf (UpdateLimits roles tenants m) ls now.
Proof. intros [[] Hb [] Hc Hs Hm Hr]. split; try done; by split. Qed.

(** Every call returns, and keeps the invariant. *)
Lemma run1_wf c w : wf (w_m w) (w_leases w) (w_now w) ->
  exists w', run1 c w = Ok w' /\ wf (w_m w') (w_leases w') (w_now w').
Proof using holders_perm.
  intros H. destruct c as [scope r dt|i u dt|session|roles tenants]; simpl.
  - edestruct (Acquire_wf (w_m w) _ _ (w_now w + Z.of_N dt) scope r H) as (m' & o & -> & H' & _); [lia|]. eexists. by split.
  - destruct (w_leases w !! i) as [l|] eqn:Hi; [|eauto].
    edestruct (Complete_wf u _ (w_now w + Z.of_N dt) i l _ _ H) as (m' & l' & -> & H'); [lia|done|]. eexists. by split.
  - unfold CloseSession. case_bool_decide; [eexists; by split|].
    destruct (closeAll_ok session (rangeSessions (m_sessions (w_m w))) _ _ _ H) as (m' & -> & H' & _). eexists. by split.
  - eexists. split; [done|]. by apply wf_update.
Qed.

Lemma reachable_wf w : reachable w -> wf (w_m w) (w_leases w) (w_now w).
Proof using holders_perm.
  induction 1 as [|c w w' _ IH Hr]; [apply wf_new|].
  destruct (run1_wf c w IH) as (w2 & E & H2). rewrite Hr in E. by simplify_eq.
Qed.

(** Closing a session leaves no idle state of it, and its running ones without cost, to be dropped with their
    last call; other sessions' states stay. *)
Lemma CloseSession_ok session w : reachable w -> session <> "" ->
  exists m', CloseSession rangeSessions session (w_m w) = Ok m' /\
    (forall s, SSession s <> session -> m_sessions m' !! s = m_sessions (w_m w) !! s) /\
    (forall s st, SSession s = session -> m_sessions m' !! s = Some st -> closing st).
Proof using holders_perm sessions_perm.
  intros H%reachable_wf Hne. unfold CloseSession. rewrite bool_decide_false by done.
  destruct (closeAll_ok session (rangeSessions (m_sessions (w_m w))) _ _ _ H) as (m' & E & _ & HS & Hc).
  exists m'. split_and!; try done. intros s st Hs Hst. destruct (Hc s st Hs Hst) as [[Hn Hm]|?]; [|done].
  destruct (Hn st). rewrite sessions_perm. by apply elem_of_map_to_list.
Qed.

(** ** Properties *)

(** C34. The budget's counters are exact, and none of its methods panics: in every reachable state of a manager
    (any sequence of AcquireWithReservation, Complete - also twice on one lease -, CloseSession and
    UpdateLimits), each scope's inflight is the number of its unfinished leases and its reserved cost the sum
    of what they hold (as int64), each tenant's inflight the number of its unfinished leases, the table holds
    at most maxStates states, and every further call returns. *)
Theorem budget_counters_exact w : reachable w ->
  (forall s st, m_sessions (w_m w) !! s = Some st ->
     st_inflight st = running s (w_leases w) /\ st_reserved st = w64 (heldCost s (w_leases w))) /\
  (forall s, m_sessions (w_m w) !! s = None -> running s (w_leases w) = 0) /\
  (forall t, t <> "" -> default 0 (m_inflight (w_m w) !! t) = tenantRunning t (w_leases w)) /\
  Z.of_nat (size (m_sessions (w_m w))) <= m_maxStates (w_m w) /\
  (forall c, exists w', run1 c w = Ok w').
Proof using holders_perm.
  intros H%reachable_wf. pose proof (wf_accounts _ _ _ H) as Ha. split_and!.
  - intros s st Hs. by destruct (a_state _ _ _ Ha s st Hs) as (? & ? & _).
  - apply Ha.
  - intros t Ht. by eapply tenant_count.
  - apply H.
  - intros c. destruct (run1_wf c w H) as (w' & E & _). eauto.
Qed.

(** An admitted call is within its limits: from every reachable state, a call AcquireWithReservation
    admits leaves its scope with no more running calls than the role's maxConcurrent, its tenant with no more
    than the tenant's, and the session's cost plus everything reserved, this call's included, within
    maxSessionCost (where the reserved sum is an int64); its lease carries the role's limits tightened by the
    tenant's. *)
Theorem budget_admission_within_limits w scope r dt m' l : reachable w ->
  AcquireWithReservation rangeHolders scope r (w_now w + Z.of_N dt) (w_m w) = Ok (m', Some l) ->
  let ls := w_leases w ++ [l] in let lim := limits (w_m w) scope in
  ls_scope l = scope /\ ls_limits l = lim /\ 0 <= ls_reserved l /\
  (0 < MaxConcurrent lim -> running scope ls <= MaxConcurrent lim) /\
  (0 < tenantConcurrency (w_m w) (STenant scope) ->
   tenantRunning (STenant scope) ls <= tenantConcurrency (w_m w) (STenant scope)) /\
  (0 < MaxSessionCost lim < 2 ^ 63 -> heldCost scope ls < 2 ^ 63 ->
   forall st, m_sessions m' !! scope = Some st -> 0 <= st_cost st ->
   st_cost st + heldCost scope ls <= MaxSessionCost lim).
Proof using holders_perm.
  intros H%reachable_wf E. edestruct (Acquire_wf (w_m w) _ _ (w_now w + Z.of_N dt) scope r H) as (m2 & o & E2 & _ & Hl & _); [lia|].
  rewrite E in E2. injection E2 as <- <-. destruct (Hl l eq_refl) as [<- (? & ? & _ & ? & ? & ?)]. by split_and!.
Qed.

(** A call drops another's accounting only when it may: from every reachable state, a scope whose state
    AcquireWithReservation drops had no running call, and either was idle for the ttl, or the table was full,
    the caller had no state in it, and the dropped state was the caller's own principal's or of a principal
    holding strictly more states than the caller's: a principal that opens sessions without end only loses
    its own states once its share is the largest. *)
Theorem budget_eviction_fair w scope r dt m' o v st : reachable w ->
  AcquireWithReservation rangeHolders scope r (w_now w + Z.of_N dt) (w_m w) = Ok (m', o) ->
  m_sessions (w_m w) !! v = Some st -> m_sessions m' !! v = None ->
  let kept := unexpired (m_ttl (w_m w)) (w_now w + Z.of_N dt) (m_sessions (w_m w)) in
  running v (w_leases w) = 0 /\
  (m_ttl (w_m w) <= w_now w + Z.of_N dt - st_touched st \/
   kept !! scope = None /\ m_maxStates (w_m w) <= Z.of_nat (size kept) /\
   (principalOf v = principalOf scope \/
    (share (principalOf scope) (dom kept) < share (principalOf v) (dom kept))%nat)).
Proof using holders_perm.
  intros H%reachable_wf E Hv Hn kept.
  edestruct (Acquire_wf (w_m w) _ _ (w_now w + Z.of_N dt) scope r H) as (m2 & o2 & E2 & H2 & _ & Hd); [lia|].
  rewrite E in E2. injection E2 as <- <-. split.
  - apply (a_none _ _ _ (wf_accounts _ _ _ H2)) in Hn.
    destruct o as [l|]; simpl in Hn; [|by rewrite app_nil_r in Hn]. unfold running in *. rewrite heldOver_snoc in Hn.
    pose proof (running_nonneg v (w_leases w)) as Hp. unfold running in Hp. destruct (ls_done l); [lia|].
    destruct (decide (ls_scope l = v)); lia.
  - destruct (Hd v st Hv Hn) as [[_ He]|?]; [by left|by right].
Qed.
End budget.

(** ** Instances *)

Definition demoScope (session : string) : Scope := mkScope "analyst" "acme" session.

Definition demoManager : MemoryManager :=
  NewWithBounds {["analyst" := mkLimits 2 0 0 0 0 100]} {["acme" := mkLimits 3 0 0 0 0 50]} 1000 1.

(** One call of session 1 admitted, reserving 30. *)
Definition demoWorld1 : result world :=
  run1 map_to_list map_to_list (CAcquire (demoScope "1") (mkReservation 30 0) 1) (mkWorld demoManager [] 0).

(** It completed, at cost 10. *)
Definition demoWorld2 : result world :=
  w ← demoWorld1; run1 map_to_list map_to_list (CComplete 0 (mkUsage 0 0 0 0 10) 1) w.

Lemma demo_reachable1 w : demoWorld1 = Ok w -> reachable map_to_list map_to_list w.
Proof. intros H. unfold demoWorld1, demoManager in H. eapply reach_call; [apply reach_new|exact H]. Qed.

Lemma demo_reachable2 w : demoWorld2 = Ok w -> reachable map_to_list map_to_list w.
Proof. intros H. apply bind_ok in H as (w1 & H1 & H). eapply reach_call; [by apply demo_reachable1|exact H]. Qed.

(** What the witnesses observe. *)
Lemma demo_observed1 :
  match demoWorld1 with
  | Ok w => match m_sessions (w_m w) !! demoScope "1" with
            | Some st => running (demoScope "1") (w_leases w) =? 1
            | None => false
            end
  | Err _ => false
  end = true.
Proof. vm_compute. reflexivity. Qed.

Lemma demo_observed2 :
  match demoWorld1 with
  | Ok w => match AcquireWithReservation map_to_list (demoScope "1") (mkReservation 20 0) (w_now w + Z.of_N 5) (w_m w) with
            | Ok (m', Some l) => MaxConcurrent (limits (w_m w) (demoScope "1")) =? 2
            | _ => false
            end
  | Err _ => false
  end = true.
Proof. vm_compute. reflexivity. Qed.

Lemma demo_observed3 :
  match demoWorld2 with
  | Ok w => match AcquireWithReservation map_to_list (demoScope "2") (mkReservation 0 0) (w_now w + Z.of_N 5) (w_m w) with
            | Ok (m', _) => match m_sessions (w_m w) !! demoScope "1", m_sessions m' !! demoScope "1" with
                            | Some _, None => true
                            | _, _ => false
                            end
            | _ => false
            end
  | Err _ => false
  end = true.
Proof. vm_compute. reflexivity. Qed.

Lemma budget_counters_exact_witness :
  exists w st, demoWorld1 = Ok w /\ m_sessions (w_m w) !! demoScope "1" = Some st /\
    st_inflight st = running (demoScope "1") (w_leases w) /\ running (demoScope "1") (w_leases w) = 1.
Proof.
  pose proof demo_observed1 as Ho. destruct demoWorld1 as [w|e] eqn:E; [|discriminate Ho].
  destruct (m_sessions (w_m w) !! demoScope "1") as [st|] eqn:Hst; [|discriminate Ho].
  destruct (budget_counters_exact map_to_list map_to_list (fun _ => reflexivity _) w (demo_reachable1 w E)) as (H & _).
  exists w, st. destruct (H _ _ Hst) as [H1 _]. split_and!; [done|done|done|by apply Z.eqb_eq].
Defined.

Lemma budget_admission_within_limits_witness :
  exists w m' l, demoWorld1 = Ok w /\
    AcquireWithReservation map_to_list (demoScope "1") (mkReservation 20 0) (w_now w + Z.of_N 5) (w_m w) = Ok (m', Some l) /\
    running (demoScope "1") (w_leases w ++ [l]) <= 2.
Proof.
  pose proof demo_observed2 as Ho. destruct demoWorld1 as [w|e] eqn:E; [|discriminate Ho].
  destruct (AcquireWithReservation map_to_list _ _ _ (w_m w)) as [[m' [l|]]|e] eqn:Ea; [|discriminate Ho..].
  exists w, m', l. split_and!; [done|exact Ea|].
  pose proof (budget_admission_within_limits map_to_list map_to_list (fun _ => reflexivity _) w _ _ 5%N m' l (demo_reachable1 w E) Ea)
    as (_ & _ & _ & H & _).
  apply Z.eqb_eq in Ho. rewrite Ho in H. apply H. lia.
Defined.

Lemma budget_eviction_fair_witness :
  exists w m' o, demoWorld2 = Ok w /\
    AcquireWithReservation map_to_list (demoScope "2") (mkReservation 0 0) (w_now w + Z.of_N 5) (w_m w) = Ok (m', o) /\
    is_Some (m_sessions (w_m w) !! demoScope "1") /\ m_sessions m' !! demoScope "1" = None /\
    running (demoScope "1") (w_leases w) = 0.
Proof.
  pose proof demo_observed3 as Ho. destruct demoWorld2 as [w|e] eqn:E; [|discriminate Ho].
  destruct (AcquireWithReservation map_to_list _ _ _ (w_m w)) as [[m' o]|e] eqn:Ea; [|discriminate Ho].
  destruct (m_sessions (w_m w) !! demoScope "1") as [st|] eqn:Hst; [|discriminate Ho].
  destruct (m_sessions m' !! demoScope "1") as [st'|] eqn:Hn; [discriminate Ho|].
  exists w, m', o. split_and!; [done|exact Ea|by eexists|exact Hn|].
  apply (budget_eviction_fair map_to_list map_to_list (fun _ => reflexivity _) w _ _ 5%N m' o _ st (demo_reachable2 w E) Ea Hst Hn).
Defined.
