(* ===== verification/RateLimit.v ===== *)
(** Rate limits: core/ratelimit/ratelimit.go.

    Adaptive and Breaker have no lock: their methods read and write atomic
    variables, and calls interleave between any two of those accesses.  A
    method is therefore a small machine ([apc], [bpc]) whose step is one
    atomic access, and a system is the shared variables with the threads that
    run methods on them.  Breaker's methods are also given whole ([Allow],
    [Release], [Record]); [run_alone] relates the two. *)

From S2P Require Import Prelude.

(** ** Adaptive *)

Record Adaptive : Type := mkAdaptive {
  concurrency : Z;
  limit : Z;
  decreased : Z;       (** unix nano of the last decrease *)
  a_min : Z;
  a_max : Z;
  rttThreshold : Z;
}.

Definition NewAdaptive (initial min max rtt : Z) : Adaptive := mkAdaptive 0 initial 0 min max rtt.

Definition set_concurrency (c : Z) (a : Adaptive) : Adaptive :=
  mkAdaptive c (limit a) (decreased a) (a_min a) (a_max a) (rttThreshold a).
Definition set_limit (l : Z) (a : Adaptive) : Adaptive :=
  mkAdaptive (concurrency a) l (decreased a) (a_min a) (a_max a) (rttThreshold a).
Definition set_decreased (t : Z) (a : Adaptive) : Adaptive :=
  mkAdaptive (concurrency a) (limit a) t (a_min a) (a_max a) (rttThreshold a).

(** Where a thread is in a method. *)
Inductive apc : Type :=
  | AIdle
  | AAdd                            (** Acquire: concurrency.Add(1) is next *)
  | ACheck (c : Z)                  (** Add returned [c]: limit.Load is next *)
  | AUndo                           (** refused: concurrency.Add(-1) is next *)
  | ARelease                        (** Release: concurrency.Add(-1) is next *)
  | AFail (sent now : Z)            (** OnResult: decreased.Load is next *)
  | AFailCas (sent now last : Z)    (** the CompareAndSwap of decreased is next *)
  | AUpdate (halve : bool)          (** update: limit.Load is next *)
  | AUpdateCas (halve : bool) (l : Z).

(** A thread: whether it holds a slot, and where it is. *)
Record athread : Type := mkAthread { holds : bool; pc : apc }.

(** The method an idle thread begins. *)
Inductive acall : Type :=
  | CallAcquire
  | CallRelease
  | CallOnResult (err : bool) (d now : Z).

Definition slow (a : Adaptive) (err : bool) (d : Z) : bool :=
  err || (0 <? rttThreshold a) && (rttThreshold a <? d).

(** Acquire is called by a thread without a slot, Release by one with it. *)
Definition abegin (a : Adaptive) (c : acall) (h : bool) : option apc :=
  match c, h with
  | CallAcquire, false => Some AAdd
  | CallRelease, true => Some ARelease
  | CallOnResult err d now, _ => Some (if slow a err d then AFail (now - d) now else AUpdate false)
  | _, _ => None
  end.

(** update's argument. *)
Definition nextLimit (a : Adaptive) (halve : bool) (l : Z) : Z :=
  if halve then Z.max (Z.quot l 2) (a_min a) else Z.min (w64 (l + 1)) (a_max a).

(** One atomic access. *)
Definition astep (a : Adaptive) (t : athread) : Adaptive * athread :=
  match pc t with
  | AIdle => (a, t)
  | AAdd => let c := concurrency a + 1 in (set_concurrency c a, mkAthread (holds t) (ACheck c))
  | ACheck c => if limit a <? c then (a, mkAthread (holds t) AUndo) else (a, mkAthread true AIdle)
  | AUndo => (set_concurrency (concurrency a - 1) a, mkAthread (holds t) AIdle)
  | ARelease => (set_concurrency (concurrency a - 1) a, mkAthread false AIdle)
  | AFail sent now =>
      if sent <? decreased a then (a, mkAthread (holds t) AIdle)
      else (a, mkAthread (holds t) (AFailCas sent now (decreased a)))
  | AFailCas sent now last =>
      if decreased a =? last then (set_decreased now a, mkAthread (holds t) (AUpdate true))
      else (a, mkAthread (holds t) (AFail sent now))
  | AUpdate halve => (a, mkAthread (holds t) (AUpdateCas halve (limit a)))
  | AUpdateCas halve l =>
      if limit a =? l then (set_limit (nextLimit a halve l) a, mkAthread (holds t) AIdle)
      else (a, mkAthread (holds t) (AUpdate halve))
  end.

(** The decrease a step makes, by (sent, now): a CompareAndSwap of decreased that succeeds. *)
Definition decrease_of (a : Adaptive) (t : athread) : list (Z * Z) :=
  match pc t with
  | AFailCas sent now last => if decreased a =? last then [(sent, now)] else []
  | _ => []
  end.

(** The system: the variables, the threads, and the decreases so far, the last first. *)
Record asystem : Type := mkAsystem { as_a : Adaptive; as_threads : list athread; as_decreases : list (Z * Z) }.

Inductive asched : Type :=
  | ABegin (i : nat) (c : acall)
  | AStep (i : nat).

Definition arun1 (e : asched) (s : asystem) : asystem :=
  match e with
  | ABegin i c =>
      match as_threads s !! i with
      | Some (mkAthread h AIdle) =>
          match abegin (as_a s) c h with
          | Some p => mkAsystem (as_a s) (<[i := mkAthread h p]> (as_threads s)) (as_decreases s)
          | None => s
          end
      | _ => s
      end
  | AStep i =>
      match as_threads s !! i with
      | Some t => let '(a, t') := astep (as_a s) t in
                  mkAsystem a (<[i := t']> (as_threads s)) (decrease_of (as_a s) t ++ as_decreases s)
      | None => s
      end
  end.

Definition arun (es : list asched) (s : asystem) : asystem := foldl (flip arun1) s es.

Definition astart (a : Adaptive) (n : nat) : asystem := mkAsystem a (replicate n (mkAthread false AIdle)) [].

(** ** Breaker

    The counters probes and epoch are unbounded here: they wrap around at 2^64
    in the code. *)

Record Breaker : Type := mkBreaker {
  failures : Z;
  threshold : Z;
  cooldown : Z;
  openUntil : Z;       (** unix nano; 0 when closed *)
  probe : N;           (** the probe through while half-open, 0 for none *)
  probes : N;
  epoch : N;
}.

Definition NewBreaker (threshold cooldown : Z) : Breaker := mkBreaker 0 threshold cooldown 0 0 0 0.

Definition set_failures (f : Z) (b : Breaker) : Breaker :=
  mkBreaker f (threshold b) (cooldown b) (openUntil b) (probe b) (probes b) (epoch b).
Definition set_openUntil (u : Z) (b : Breaker) : Breaker :=
  mkBreaker (failures b) (threshold b) (cooldown b) u (probe b) (probes b) (epoch b).
Definition set_probe (p : N) (b : Breaker) : Breaker :=
  mkBreaker (failures b) (threshold b) (cooldown b) (openUntil b) p (probes b) (epoch b).
Definition set_probes (n : N) (b : Breaker) : Breaker :=
  mkBreaker (failures b) (threshold b) (cooldown b) (openUntil b) (probe b) n (epoch b).
Definition set_epoch (e : N) (b : Breaker) : Breaker :=
  mkBreaker (failures b) (threshold b) (cooldown b) (openUntil b) (probe b) (probes b) e.

Definition probeTicket : N := N.shiftl 1 63.

(** ticket&probeTicket != 0 *)
Definition is_probe (ticket : N) : bool := negb (N.land ticket probeTicket =? 0)%N.

(** CompareAndSwap of probe. *)
Definition cas_probe (old new : N) (b : Breaker) : option Breaker :=
  if (probe b =? old)%N then Some (set_probe new b) else None.

Definition Allow (now : Z) (b : Breaker) : Breaker * result N :=
  if openUntil b =? 0 then (b, Ok (epoch b))
  else if now <? openUntil b then (b, Err ErrCircuitOpen)
  else
    let n := (probes b + 1)%N in
    let ticket := N.lor n probeTicket in
    let b := set_probes n b in
    match cas_probe 0 ticket b with
    | None => (b, Err ErrCircuitOpen)
    | Some b => (b, Ok ticket)
    end.

Definition Release (ticket : N) (b : Breaker) : Breaker :=
  if is_probe ticket then default b (cas_probe ticket 0 b) else b.

Definition Record_ (ticket : N) (success : bool) (now : Z) (b : Breaker) : Breaker :=
  if negb (openUntil b =? 0) then
    if negb (is_probe ticket) then b
    else match cas_probe ticket 0 b with
    | None => b
    | Some b =>
        if success then set_openUntil 0 (set_epoch (epoch b + 1) (set_failures 0 b))
        else set_openUntil (now + cooldown b) b
    end
  else if negb (ticket =? epoch b)%N then b
  else if success then set_failures 0 b
  else
    let b := set_failures (failures b + 1) b in
    if threshold b <=? failures b then set_epoch (epoch b + 1) (set_probe 0 (set_openUntil (now + cooldown b) b))
    else b.

Definition IsOpen (now : Z) (b : Breaker) : bool := negb (openUntil b =? 0) && (now <? openUntil b).

(** Where a thread is in a method of Breaker: the access that is next. *)
Inductive bpc : Type :=
  | BDone (r : result N)                        (** the method returned; Record and Release answer 0 *)
  | BAllow                                      (** Allow: openUntil.Load *)
  | BAllowEpoch                                 (** epoch.Load *)
  | BAllowAdd                                   (** probes.Add(1) *)
  | BAllowCas (ticket : N)
  | BRelease (ticket : N)
  | BRecord (ticket : N) (success : bool)       (** Record: openUntil.Load *)
  | BRecordProbe (ticket : N) (success : bool)  (** the CompareAndSwap of probe *)
  | BClose1 | BClose2 | BClose3                 (** failures, epoch, openUntil *)
  | BReopen
  | BRecordEpoch (ticket : N) (success : bool)  (** epoch.Load *)
  | BReset
  | BFail                                       (** failures.Add(1) *)
  | BOpen1 | BOpen2 | BOpen3.                   (** openUntil, probe, epoch *)

Definition bstep (now : Z) (b : Breaker) (p : bpc) : Breaker * bpc :=
  match p with
  | BDone r => (b, p)
  | BAllow =>
      (b, if openUntil b =? 0 then BAllowEpoch
          else if now <? openUntil b then BDone (Err ErrCircuitOpen) else BAllowAdd)
  | BAllowEpoch => (b, BDone (Ok (epoch b)))
  | BAllowAdd => let n := (probes b + 1)%N in (set_probes n b, BAllowCas (N.lor n probeTicket))
  | BAllowCas ticket =>
      match cas_probe 0 ticket b with Some b => (b, BDone (Ok ticket)) | None => (b, BDone (Err ErrCircuitOpen)) end
  | BRelease ticket => (if is_probe ticket then default b (cas_probe ticket 0 b) else b, BDone (Ok 0%N))
  | BRecord ticket success =>
      (b, if openUntil b =? 0 then BRecordEpoch ticket success
          else if is_probe ticket then BRecordProbe ticket success else BDone (Ok 0%N))
  | BRecordProbe ticket success =>
      match cas_probe ticket 0 b with
      | Some b => (b, if success then BClose1 else BReopen)
      | None => (b, BDone (Ok 0%N))
      end
  | BClose1 => (set_failures 0 b, BClose2)
  | BClose2 => (set_epoch (epoch b + 1) b, BClose3)
  | BClose3 => (set_openUntil 0 b, BDone (Ok 0%N))
  | BReopen => (set_openUntil (now + cooldown b) b, BDone (Ok 0%N))
  | BRecordEpoch ticket success =>
      (b, if (ticket =? epoch b)%N then if success then BReset else BFail else BDone (Ok 0%N))
  | BReset => (set_failures 0 b, BDone (Ok 0%N))
  | BFail =>
      let f := failures b + 1 in (set_failures f b, if threshold b <=? f then BOpen1 else BDone (Ok 0%N))
  | BOpen1 => (set_openUntil (now + cooldown b) b, BOpen2)
  | BOpen2 => (set_probe 0 b, BOpen3)
  | BOpen3 => (set_epoch (epoch b + 1) b, BDone (Ok 0%N))
  end.

(** A method with no other call in between: no method takes more than six accesses. *)
Definition run_alone (now : Z) (b : Breaker) (p : bpc) : Breaker * bpc :=
  Nat.iter 6 (fun bp => bstep now bp.1 bp.2) (b, p).


(** * What every interleaving of core/ratelimit's methods keeps. *)

(** ** Adaptive *)

Definition b2z (b : bool) : Z := if b then 1 else 0.

(** The slots a thread has counted in concurrency. *)
Definition occupies (t : athread) : Z :=
  b2z (holds t) + match pc t with ACheck _ | AUndo => 1 | _ => 0 end.

(** A thread that holds a slot, or may still get the one it counted. *)
Definition viable (max : Z) (t : athread) : Z :=
  b2z (holds t) + match pc t with ACheck c => b2z (c <=? max) | _ => 0 end.

(** The first decrease answers for a request of any time; each later one for a
    request sent no earlier than the decrease before it. *)
Fixpoint spaced (ds : list (Z * Z)) : Prop :=
  match ds with
  | [] => True
  | (sent, _) :: ds => match ds with [] => True | (_, before) :: _ => before <= sent end /\ spaced ds
  end.

(** What a thread knows. *)
Definition thread_ok (t : athread) : Prop :=
  match pc t with
  | AAdd | ACheck _ | AUndo => holds t = false
  | ARelease => holds t = true
  | AFailCas sent _ last => last <= sent
  | _ => True
  end.

Record adaptive_ok (s : asystem) : Prop := {
  ao_threads : Forall thread_ok (as_threads s);
  ao_count : concurrency (as_a s) = sumOver occupies (as_threads s);
  ao_viable : sumOver (viable (a_max (as_a s))) (as_threads s) <= a_max (as_a s);
  ao_limit : a_min (as_a s) <= limit (as_a s) <= a_max (as_a s);
  ao_min : 0 <= a_min (as_a s);
  ao_max : a_max (as_a s) + 1 < 2 ^ 63;
  ao_spaced : spaced (as_decreases s);
  ao_last : match as_decreases s with [] => True | (_, now) :: _ => decreased (as_a s) = now end;
}.

Lemma viable_occupies max t : viable max t <= occupies t.
Proof. unfold viable, occupies, b2z. destruct t as [h []]; simpl; try lia. destruct (_ <=? _); lia. Qed.

Lemma nextLimit_ok a halve l : 0 <= a_min a -> a_min a <= l <= a_max a -> a_max a + 1 < 2 ^ 63 ->
  a_min a <= nextLimit a halve l <= a_max a.
Proof.
  intros Hm Hl Hx. unfold nextLimit. destruct halve; [|rewrite w64_id by lia; lia].
  assert (Z.quot l 2 <= l) by (apply Z.quot_le_upper_bound; lia). lia.
Qed.

Lemma arun1_bounds e s : a_min (as_a (arun1 e s)) = a_min (as_a s) /\ a_max (as_a (arun1 e s)) = a_max (as_a s).
Proof.
  destruct e as [i c|i]; simpl; destruct (as_threads s !! i) as [[h p]|]; try done; simpl.
  - by destruct p; try done; destruct (abegin _ _ _).
  - destruct p; simpl; unfold astep; simpl; by repeat case_match; simplify_eq/=.
Qed.

Lemma arun_bounds es s : a_min (as_a (arun es s)) = a_min (as_a s) /\ a_max (as_a (arun es s)) = a_max (as_a s).
Proof.
  revert s. induction es as [|e es IH]; intros s; simpl; [done|]. unfold flip in *.
  destruct (IH (arun1 e s)) as [-> ->]. apply arun1_bounds.
Qed.

(** A step of thread [t] to [t']: what it must show. *)
Lemma adaptive_ok_move s i t a' t' ds :
  adaptive_ok s -> as_threads s !! i = Some t -> thread_ok t' ->
  a_min a' = a_min (as_a s) -> a_max a' = a_max (as_a s) -> a_min a' <= limit a' <= a_max a' ->
  concurrency a' = concurrency (as_a s) - occupies t + occupies t' ->
  (viable (a_max a') t' <= viable (a_max a') t \/ concurrency a' <= a_max a') ->
  spaced ds -> match ds with [] => True | (_, now) :: _ => decreased a' = now end ->
  adaptive_ok (mkAsystem a' (<[i := t']> (as_threads s)) ds).
Proof.
  intros [H1 H2 H3 H4 H5 H6 H7 H8] Ht Hok Emin Emax Hl Hc Hv Hs Hd. split; simpl; try done; try lia.
  - by apply Forall_insert.
  - rewrite (sumOver_insert _ _ _ t) by done. lia.
  - destruct Hv as [Hv|Hv].
    + rewrite (sumOver_insert _ _ _ t) by done. rewrite Emax in *. lia.
    + etrans; [|exact Hv]. rewrite Hc, H2, <- (sumOver_insert _ _ _ t) by done.
      apply sumOver_le. intros x _. apply viable_occupies.
Qed.

Lemma astep_ok s i : adaptive_ok s -> adaptive_ok (arun1 (AStep i) s).
Proof.
  intros H. unfold arun1. destruct (as_threads s !! i) as [t|] eqn:Ht; [|done].
  pose proof (Forall_lookup_1 _ _ _ _ (ao_threads _ H) Ht) as Hok. pose proof H as [_ _ _ H4 H5 H6 H7 H8].
  destruct (astep (as_a s) t) as [a' t'] eqn:E. apply (adaptive_ok_move s i t); try done; revert E;
    unfold astep, decrease_of, thread_ok, occupies, viable, b2z in *; destruct t as [h p]; simpl in *;
    destruct p as [| |c| | |sent now|sent now last|halve|halve l]; simpl in *; intros E;
    repeat case_match; simplify_eq/=; try done; try lia.
  1,2: apply nextLimit_ok; lia.
  split; [lia|done].
Qed.

Lemma abegin_ok s i c : adaptive_ok s -> adaptive_ok (arun1 (ABegin i c) s).
Proof.
  intros H. unfold arun1. destruct (as_threads s !! i) as [[h []]|] eqn:Ht; try done.
  destruct (abegin (as_a s) c h) as [p|] eqn:E; [|done]. pose proof H as [_ _ _ H4 H5 H6 H7 H8].
  apply (adaptive_ok_move s i (mkAthread h AIdle)); try done; unfold thread_ok, occupies, viable; simpl;
    destruct c, h; simplify_eq/=; try destruct (slow _ _ _); simpl; try done; lia.
Qed.

Lemma arun_ok es s : adaptive_ok s -> adaptive_ok (arun es s).
Proof.
  revert s. induction es as [|e es IH]; intros s H; simpl; [done|]. apply IH. unfold flip.
  destruct e; [by apply abegin_ok|by apply astep_ok].
Qed.

Lemma sumOver_replicate {A} (g : A -> Z) n x : g x = 0 -> sumOver g (replicate n x) = 0.
Proof. intros H. induction n; simpl; lia. Qed.

Lemma astart_ok initial min max rtt n : 0 <= min <= initial -> initial <= max -> max + 1 < 2 ^ 63 ->
  adaptive_ok (astart (NewAdaptive initial min max rtt) n).
Proof.
  intros H1 H2 H3. split; simpl; try done; try lia; rewrite ?sumOver_replicate by done; try lia.
  by apply Forall_replicate.
Qed.

(** ** Properties of Adaptive *)

Definition holders (s : asystem) : Z := sumOver (fun t => b2z (holds t)) (as_threads s).

(** The adaptive limiter never admits more calls at once than its maximum: whatever the interleaving of
    the atomic accesses of Acquire, Release and OnResult in any number of threads, the limit stays in
    [min, max], at most max threads hold a slot, and concurrency counts exactly the slots held and those
    being tried for, so that it returns to the number held. *)
Theorem adaptive_bounded initial min max rtt n es :
  0 <= min <= initial -> initial <= max -> max + 1 < 2 ^ 63 ->
  let s := arun es (astart (NewAdaptive initial min max rtt) n) in
  min <= limit (as_a s) <= max /\ holders s <= max /\ concurrency (as_a s) = sumOver occupies (as_threads s) /\
  (Forall (fun t => pc t = AIdle) (as_threads s) -> concurrency (as_a s) = holders s).
Proof.
  intros H1 H2 H3 s. pose proof (arun_ok es _ (astart_ok initial min max rtt n H1 H2 H3)) as H. fold s in H.
  assert (a_min (as_a s) = min /\ a_max (as_a s) = max) as [Emin Emax] by apply arun_bounds.
  pose proof (ao_limit _ H). pose proof (ao_count _ H) as Hc. rewrite Emin, Emax in *. split_and!; [lia..| |done|].
  - pose proof (ao_viable _ H) as Hv. rewrite Emax in Hv. etrans; [|exact Hv]. apply sumOver_le. intros t _.
    unfold viable. destruct (pc t); simpl; try lia. unfold b2z. destruct (c <=? max); lia.
  - intros Hi. rewrite Hc. apply sumOver_ext. intros t Ht. eapply Forall_forall in Hi; [|exact Ht].
    unfold occupies. rewrite Hi. lia.
Qed.

(** One overload halves the limit once: whatever the interleaving, each decrease of the limit answers for
    a request sent no earlier than the decrease before it, so failures of requests sent before a decrease
    never cause another. *)
Theorem adaptive_halves_once initial min max rtt n es :
  0 <= min <= initial -> initial <= max -> max + 1 < 2 ^ 63 ->
  forall ds1 sent2 now2 sent1 now1 ds2,
  as_decreases (arun es (astart (NewAdaptive initial min max rtt) n)) = ds1 ++ (sent2, now2) :: (sent1, now1) :: ds2 ->
  now1 <= sent2.
Proof.
  intros H1 H2 H3 ds1 sent2 now2 sent1 now1 ds2 E.
  pose proof (ao_spaced _ (arun_ok es _ (astart_ok initial min max rtt n H1 H2 H3))) as H. rewrite E in H. clear E.
  induction ds1 as [|[] ds1 IH]; simpl in H; [by destruct H|]. apply IH, H.
Qed.

(** Two threads acquire; the first fails slowly at time 100, the second, sent before, right after it. *)
Definition demoSchedule : list asched :=
  let solo i c k := ABegin i c :: replicate k (AStep i) in
  (solo 0 CallAcquire 2 ++ solo 1 CallAcquire 2 ++ solo 2 CallAcquire 3 ++
   solo 0 (CallOnResult true 50%Z 100%Z) 4 ++ solo 1 (CallOnResult true 60%Z 101%Z) 4 ++
   solo 0 (CallOnResult true 10%Z 200%Z) 4)%nat.

Lemma adaptive_bounded_witness :
  let s := arun demoSchedule (astart (NewAdaptive 2 1 8 0) 3) in
  1 <= limit (as_a s) <= 8 /\ holders s <= 8 /\ holders s = 2 /\ limit (as_a s) = 1.
Proof.
  pose proof (adaptive_bounded 2 1 8 0 3 demoSchedule ltac:(lia) ltac:(lia) ltac:(lia)) as (H1 & H2 & _).
  split_and!; [apply H1|apply H1|apply H2|reflexivity|reflexivity].
Defined.

Lemma adaptive_halves_once_witness :
  as_decreases (arun demoSchedule (astart (NewAdaptive 2 1 8 0) 3)) = [(190, 200); (50, 100)] /\ 100 <= 190.
Proof.
  split; [reflexivity|].
  apply (adaptive_halves_once 2 1 8 0 3 demoSchedule ltac:(lia) ltac:(lia) ltac:(lia) [] 190 200 50 100 []). reflexivity.
Defined.

(** ** Breaker: its methods, and their accesses one at a time *)

(** A method's accesses with no other call in between do what the method says. *)
Lemma run_alone_methods now b ticket success :
  run_alone now b BAllow = (let '(b', r) := Allow now b in (b', BDone r)) /\
  run_alone now b (BRelease ticket) = (Release ticket b, BDone (Ok 0%N)) /\
  run_alone now b (BRecord ticket success) = (Record_ ticket success now b, BDone (Ok 0%N)).
Proof.
  unfold run_alone, Allow, Release, Record_, cas_probe. split_and!; simpl.
  - destruct (openUntil b =? 0) eqn:E1; simpl; [done|]. destruct (now <? openUntil b); simpl; [done|].
    unfold cas_probe. simpl. by destruct (probe b =? 0)%N.
  - by destruct (is_probe ticket).
  - destruct (openUntil b =? 0) eqn:E1; simpl.
    + destruct (ticket =? epoch b)%N; simpl; [|done]. destruct success; simpl; [done|].
      by destruct (threshold b <=? failures b + 1).
    + destruct (is_probe ticket); simpl; [|done]. unfold cas_probe. destruct (probe b =? ticket)%N; simpl; [|done].
      by destruct success.
Qed.

(** The breaker with the tickets of the requests it let through that have not
    ended.  A request ends once, with Record or Release. *)
Record bworld : Type := mkBworld { bw_b : Breaker; bw_out : list N }.

Inductive bcall : Type :=
  | BcAllow (now : Z)
  | BcRecord (i : nat) (success : bool) (now : Z)
  | BcRelease (i : nat).

Definition brun1 (c : bcall) (w : bworld) : bworld :=
  match c with
  | BcAllow now =>
      match Allow now (bw_b w) with
      | (b, Ok t) => mkBworld b (t :: bw_out w)
      | (b, Err _) => mkBworld b (bw_out w)
      end
  | BcRecord i success now =>
      match bw_out w !! i with
      | Some t => mkBworld (Record_ t success now (bw_b w)) (delete i (bw_out w))
      | None => w
      end
  | BcRelease i =>
      match bw_out w !! i with
      | Some t => mkBworld (Release t (bw_b w)) (delete i (bw_out w))
      | None => w
      end
  end.

Definition call_time (c : bcall) : option Z :=
  match c with BcAllow now | BcRecord _ _ now => Some now | BcRelease _ => None end.

Definition outstanding_probes (w : bworld) : list N := List.filter is_probe (bw_out w).

Record breaker_ok (w : bworld) : Prop := {
  bo_probes : outstanding_probes w = if (probe (bw_b w) =? 0)%N then [] else [probe (bw_b w)];
  bo_closed : openUntil (bw_b w) = 0 -> probe (bw_b w) = 0%N;
  bo_cooldown : 0 <= cooldown (bw_b w);
}.

Lemma probeTicket_bit k : N.testbit probeTicket k = (k =? 63)%N.
Proof. unfold probeTicket. rewrite N.shiftl_1_l, N.pow2_bits_eqb. apply N.eqb_sym. Qed.

Lemma is_probe_bit t : is_probe t = N.testbit t 63.
Proof.
  unfold is_probe. destruct (N.testbit t 63) eqn:E.
  - apply negb_true_iff, N.eqb_neq. intros H. assert (N.testbit (N.land t probeTicket) 63 = false) as Hb by (rewrite H; apply N.bits_0).
    rewrite N.land_spec, E, probeTicket_bit in Hb. done.
  - apply negb_false_iff, N.eqb_eq. apply N.bits_inj. intros k. rewrite N.land_spec, probeTicket_bit, N.bits_0.
    destruct (k =? 63)%N eqn:Ek; [apply N.eqb_eq in Ek as ->; by rewrite E|apply andb_false_r].
Qed.

Lemma is_probe_epoch e : (e < 2 ^ 63)%N -> is_probe e = false.
Proof.
  intros H. rewrite is_probe_bit. apply N.bits_above_log2. destruct (decide (e = 0%N)) as [->|Hn]; [done|].
  apply N.log2_lt_pow2; lia.
Qed.

Lemma is_probe_ticket n : is_probe (N.lor n probeTicket) = true /\ (N.lor n probeTicket =? 0)%N = false.
Proof.
  assert (N.testbit (N.lor n probeTicket) 63 = true) as H.
  { rewrite N.lor_spec, probeTicket_bit. apply orb_true_r. }
  split; [by rewrite is_probe_bit|]. apply N.eqb_neq. intros E. rewrite E in H. done.
Qed.

(** Ending a request takes its ticket out. *)
Lemma outstanding_delete out i t : out !! i = Some t ->
  exists l k, List.filter is_probe out = l ++ (if is_probe t then [t] else []) ++ k /\
              List.filter is_probe (delete i out) = l ++ k.
Proof.
  intros Hi. exists (List.filter is_probe (take i out)), (List.filter is_probe (drop (S i) out)).
  rewrite delete_take_drop, <- (take_drop_middle out i t Hi) at 1. rewrite !List.filter_app. split; [|done].
  simpl. by destruct (is_probe t).
Qed.

Lemma single_middle {A} (l k : list A) (x p : A) : l ++ [x] ++ k = [p] -> l = [] /\ k = [] /\ x = p.
Proof. destruct l as [|y [|]]; simpl; intros H; by simplify_eq. Qed.

(** Ending a request [t]: the probes still out, and the probe's place. *)
Lemma end_ok w i t : breaker_ok w -> bw_out w !! i = Some t ->
  if is_probe t then probe (bw_b w) = t /\ List.filter is_probe (delete i (bw_out w)) = [] /\ openUntil (bw_b w) <> 0
  else List.filter is_probe (delete i (bw_out w)) = outstanding_probes w.
Proof.
  intros [H1 H2 _] Hi. destruct (outstanding_delete _ _ _ Hi) as (l & k & E1 & E2). unfold outstanding_probes in *.
  rewrite E2. destruct (is_probe t); [|by rewrite E1].
  destruct (probe (bw_b w) =? 0)%N eqn:Ep; [rewrite E1 in H1; by destruct l|].
  rewrite H1 in E1. symmetry in E1. apply single_middle in E1 as (-> & -> & ->). split_and!; try done.
  intros Hc. apply H2 in Hc. by rewrite Hc in Ep.
Qed.

Lemma Record_ok w i t success now : breaker_ok w -> bw_out w !! i = Some t -> 0 < now ->
  breaker_ok (mkBworld (Record_ t success now (bw_b w)) (delete i (bw_out w))).
Proof.
  intros H Hi Hnow. pose proof (end_ok w i t H Hi) as He. destruct H as [H1 H2 H3]. destruct (is_probe t) eqn:Et.
  - destruct He as (Hp & Hf & Ho). unfold Record_, cas_probe. rewrite (proj2 (Z.eqb_neq _ _) Ho), Et, Hp, N.eqb_refl. simpl.
    split; unfold outstanding_probes; simpl; rewrite ?Hf; destruct success; simpl; try done.
  - split; unfold outstanding_probes; simpl; rewrite ?He; clear He; unfold Record_; rewrite Et;
      destruct (openUntil (bw_b w) =? 0) eqn:E0; simpl; try done;
      destruct (t =? epoch (bw_b w))%N; simpl; try done; destruct success; simpl; try done;
      destruct (threshold (bw_b w) <=? failures (bw_b w) + 1); simpl; try done.
    rewrite H1, H2; [done|lia].
Qed.

Lemma Release_ok w i t : breaker_ok w -> bw_out w !! i = Some t ->
  breaker_ok (mkBworld (Release t (bw_b w)) (delete i (bw_out w))).
Proof.
  intros H Hi. pose proof (end_ok w i t H Hi) as He. destruct H as [H1 H2 H3]. unfold Release. destruct (is_probe t) eqn:Et.
  - destruct He as (Hp & Hf & Ho). unfold cas_probe. rewrite Hp, N.eqb_refl. by split.
  - split; try done. unfold outstanding_probes. simpl. by rewrite He.
Qed.

Lemma Allow_ok w now : breaker_ok w -> (epoch (bw_b w) < 2 ^ 63)%N -> breaker_ok (brun1 (BcAllow now) w).
Proof.
  intros [H1 H2 H3] He. unfold brun1, Allow. destruct (openUntil (bw_b w) =? 0) eqn:E0.
  { split; try done. unfold outstanding_probes in *. simpl. by rewrite is_probe_epoch. }
  apply Z.eqb_neq in E0. destruct (now <? openUntil (bw_b w)); [by split|]. unfold cas_probe. simpl.
  destruct (probe (bw_b w) =? 0)%N eqn:Ep; simpl; [|split; simpl; try done; by rewrite Ep].
  destruct (is_probe_ticket (probes (bw_b w) + 1)) as [T1 T2].
  split; unfold outstanding_probes in *; simpl; try done. rewrite T1, T2, H1. done.
Qed.

Lemma Record_epoch t success now b : (epoch b <= epoch (Record_ t success now b))%N.
Proof. unfold Record_, cas_probe. repeat (case_match; simplify_eq/=); lia. Qed.

Lemma brun1_epoch c w : (epoch (bw_b w) <= epoch (bw_b (brun1 c w)))%N.
Proof.
  destruct c as [now|i success now|i]; simpl; [unfold Allow, cas_probe; repeat (case_match; simplify_eq/=); lia| |];
    destruct (bw_out w !! i) as [t|]; simpl; try lia; [apply Record_epoch|].
  unfold Release, cas_probe. destruct (is_probe t), (probe (bw_b w) =? t)%N; simpl; lia.
Qed.

Definition brun (cs : list bcall) (w : bworld) : bworld := foldl (flip brun1) w cs.

Lemma brun_epoch cs w : (epoch (bw_b w) <= epoch (bw_b (brun cs w)))%N.
Proof.
  revert w. induction cs as [|c cs IH]; intros w; simpl; [lia|]. etrans; [apply (brun1_epoch c w)|apply IH].
Qed.

Lemma brun_ok cs : forall w, breaker_ok w -> Forall (fun c => forall now, call_time c = Some now -> 0 < now) cs ->
  (epoch (bw_b (brun cs w)) < 2 ^ 63)%N -> breaker_ok (brun cs w).
Proof.
  induction cs as [|c cs IH]; intros w H Ht He; simpl in *; [done|]. apply Forall_cons in Ht as [Hc Ht].
  apply IH; [|done|done]. unfold flip in *. pose proof (brun_epoch cs (brun1 c w)). pose proof (brun1_epoch c w).
  destruct c as [now|i success now|i]; [apply Allow_ok; [done|unfold brun in *; lia]| |]; simpl;
    (destruct (bw_out w !! i) as [t|] eqn:Hi; [|done]); [apply Record_ok; auto|by apply Release_ok].
Qed.

(** A half-open breaker has one probe through at a time: after any sequence of Allow, Record and Release
    calls, each run without another in between, in which a request let through ends once, at most one probe
    has not ended, its ticket is the one the breaker keeps, and none is out while the breaker is closed
    (times positive, the cooldown not negative, fewer than 2^63 openings and closings). *)
Theorem breaker_single_probe thr cool cs :
  let w := brun cs (mkBworld (NewBreaker thr cool) []) in
  0 <= cool -> Forall (fun c => forall now, call_time c = Some now -> 0 < now) cs -> (epoch (bw_b w) < 2 ^ 63)%N ->
  outstanding_probes w = (if (probe (bw_b w) =? 0)%N then [] else [probe (bw_b w)]) /\
  (openUntil (bw_b w) = 0 -> outstanding_probes w = []).
Proof.
  intros w Hc Ht He. assert (breaker_ok w) as [H1 H2 _] by (apply brun_ok; try done; by split). split; [done|].
  intros Ho. by rewrite H1, H2.
Qed.

(** Two failures open it; at 20 a first probe is through, a second refused, and the first succeeds. *)
Lemma breaker_single_probe_witness :
  let cs := [BcAllow 1; BcAllow 1; BcRecord 0 false 2; BcRecord 0 false 3; BcAllow 4; BcAllow 20; BcAllow 21] in
  let w := brun cs (mkBworld (NewBreaker 2 10) []) in
  outstanding_probes w = [probe (bw_b w)] /\ IsOpen 5 (bw_b w) = true.
Proof.
  split; [|reflexivity]. refine (proj1 (breaker_single_probe 2 10 _ _ _ _)); [lia| |vm_compute; reflexivity].
  repeat (apply Forall_cons_2; [simpl; intros now [= <-]; lia|]). apply Forall_nil_2.
Defined.

(** With accesses interleaved it may let two probes through.  Two requests fail
    in the same epoch; the second passes Record's epoch check, then stalls
    while the first opens the breaker, the cooldown passes and a probe is let
    through at 20.  Resumed, the second reopens the breaker until 30 and frees
    the place of the probe that is still out; at 31 another probe is let
    through. *)
Example breaker_race_two_probes :
  let b0 := NewBreaker 1 10 in
  let '(b1, p1) := bstep 1 b0 (BRecord 0 false) in       (* the second request: openUntil.Load *)
  let '(b2, p2) := bstep 1 b1 p1 in                      (* epoch.Load: still the request's own *)
  let '(b3, _) := run_alone 2 b2 (BRecord 0 false) in    (* the first request opens the breaker *)
  let '(b4, r4) := run_alone 20 b3 BAllow in             (* a probe, out from here on *)
  let '(b5, p5) := run_alone 20 b4 p2 in                 (* the second request resumes *)
  let '(b6, r6) := run_alone 31 b5 BAllow in             (* another probe *)
  r4 = BDone (Ok (N.lor 1 probeTicket)) /\ r6 = BDone (Ok (N.lor 2 probeTicket)).
Proof. vm_compute. split; reflexivity. Qed.
