(* ===== verification/Transaction.v ===== *)
(** Explicit transactions: core/tool/transaction.go, transaction_end.go and
    transaction_ended.go, with the error classes of tool.go and pipeline.go
    they use.

    TransactionManager's state changes under its mutex m.mu and a handle's
    under its own h.mu, so a method is a sequence of critical sections, and
    between two of them other calls run.  Each critical section is one
    definition; what a goroutine has left to do after it is a value of
    [task] or an entry of one of the lists of [world], and [step] runs one
    critical section.  A mutex held across a statement ([h_locked]) makes the
    sections that need it wait: the step changes nothing.

    A handle is a pointer.  Its token has 256 random bits and is never drawn
    twice, so the token names the handle: [m_handles] is the set of tokens
    registered, [w_heap] what each handle holds, and the comparison
    m.handles[token] != handle is membership.  store.TxBeginner values are
    compared by identity only: a number.  Times are nanoseconds. *)

From S2P Require Import Prelude Value.

(** ** Database errors, by the sentinels errors.Is finds in them *)

Inductive sentinel : Type :=
  | ErrDatabase | ErrDatasourceForbidden | ErrStatementTimeout | errValueType
  | StorePermissionDenied | StoreStatementTimeout | StoreInterrupted
  | StoreInvalidValue | StoreNotConnected | StoreConnectionLost
  | StoreMissingRelation | StoreMissingColumn | StoreStalePlan
  | StoreConstraint (kind constraint : string) (columns : list string)  (** *store.ConstraintError *)
  | StatementFailed                                                     (** *statementFailed *)
  | IoUnexpectedEOF | CtxDeadlineExceeded | CtxCanceled | NetError.

#[global] Instance sentinel_eq_dec : EqDecision sentinel.
Proof. solve_decision. Defined.

(** An error wraps a chain of sentinels; [NetError] is errors.As to net.Error. *)
Definition goErr : Type := list sentinel.

Definition errorsIs (e : goErr) (s : sentinel) : bool := bool_decide (s ∈ e).

(** WrapDBError: the class is put in front of the cause. *)
Definition WrapDBError (err : option goErr) : option goErr :=
  match err with
  | None => None
  | Some e =>
      if errorsIs e ErrDatabase || errorsIs e ErrDatasourceForbidden || errorsIs e ErrStatementTimeout
      then Some e
      else if errorsIs e StorePermissionDenied then Some (ErrDatasourceForbidden :: e)
      else if errorsIs e StoreStatementTimeout || errorsIs e StoreInterrupted then Some (ErrStatementTimeout :: e)
      else if errorsIs e StoreInvalidValue then Some (errValueType :: e)
      else Some (ErrDatabase :: e)
  end.

Definition uncertain (e : goErr) : bool :=
  if errorsIs e StoreNotConnected || errorsIs e StoreStatementTimeout then false
  else errorsIs e StoreConnectionLost || errorsIs e StoreInterrupted || errorsIs e IoUnexpectedEOF
       || errorsIs e CtxDeadlineExceeded || errorsIs e CtxCanceled || errorsIs e NetError.

(** ** Data *)

Inductive Outcome : Type := OutcomeCommitted | OutcomeRolledBack | OutcomeExpired | OutcomeUnknown.

#[global] Instance Outcome_eq_dec : EqDecision Outcome.
Proof. solve_decision. Defined.

(** The errors of the manager's methods. *)
Inductive txError : Type :=
  | ErrTransactionNotFound
  | ErrTransactionScope
  | ErrTransactionCapacity
  | ErrTransactionStale
  | TransactionEndedError (o : Outcome)
  | ErrOutcomeUnknown (cause : goErr)
  | DBError (e : goErr)
  | CtxError (e : goErr)
  | TokenError.

Record CacheTarget : Type := mkTarget { Physical : string; Relation : string }.

#[global] Instance CacheTarget_eq_dec : EqDecision CacheTarget.
Proof. solve_decision. Defined.
#[global] Program Instance CacheTarget_countable : Countable CacheTarget :=
  inj_countable' (fun t => (Physical t, Relation t)) (fun t => mkTarget t.1 t.2) _.
Next Obligation. by intros []. Qed.

(** The text scopeKey gives a subject: encoding/json's, or fmt's "%#v". *)
Class SubjectText : Type := subjectText : gmap string value -> string.

Record Caller : Type := mkCaller { C_Session : string; C_Role : string; C_Subject : gmap string value }.

Definition scopeKey `{SubjectText} (role : string) (subject : gmap string value) : string :=
  role +:+ String Ascii.zero (subjectText subject).

Definition scope `{SubjectText} (c : Caller) : string := scopeKey (C_Role c) (C_Subject c).

(** A call of the database on the transaction, with its result. *)
Inductive txCall : Type := TxCommit (err : option goErr) | TxRollback.

(** What of a handle never changes after Begin made it. *)
Record identity : Type := mkIdentity {
  id_connection : nat;
  id_session : string;
  id_scope : string;
  id_datasource : string;
  id_expires : option Z; (* None: the zero time *)
}.

(** transactionHandle.  [h_calls] are the calls its tx received to end it,
    [h_cancelled] says its lifetime context was released. *)
Record transactionHandle : Type := mkHandle {
  h_id : identity;
  h_dirty : gset CacheTarget;
  h_closed : bool;
  h_idle : Z;
  h_used : Z;
  h_running : Z;
  h_locked : bool;
  h_calls : list txCall;
  h_cancelled : bool;
}.

Record tombstone : Type := mkTombstone {
  t_token : string;
  t_session : string;
  t_scope : string;
  t_outcome : Outcome;
  t_at : Z;
}.

Record TransactionManager : Type := mkTxManager {
  m_handles : gset string;
  m_open : gmap string Z;
  m_byConnection : gmap nat Z;
  m_perConnection : Z;
  m_ttl : Z;
  m_idle : Z;
  m_maxOpen : Z;
  m_closed : bool;
  m_ending : gset string;
  m_tombstones : gmap string tombstone;
  m_buried : list string;
}.

Definition NewTransactionManager (ttl maxOpen : Z) : TransactionManager :=
  mkTxManager ∅ ∅ ∅ 0 ttl 0 maxOpen false ∅ ∅ [].

Definition SetConnectionLimit (n : Z) (m : TransactionManager) : TransactionManager :=
  mkTxManager (m_handles m) (m_open m) (m_byConnection m) n (m_ttl m) (m_idle m) (m_maxOpen m)
    (m_closed m) (m_ending m) (m_tombstones m) (m_buried m).

Definition SetIdleTimeout (d : Z) (m : TransactionManager) : TransactionManager :=
  mkTxManager (m_handles m) (m_open m) (m_byConnection m) (m_perConnection m) (m_ttl m) d (m_maxOpen m)
    (m_closed m) (m_ending m) (m_tombstones m) (m_buried m).

Definition UpdateTxLimits (ttl maxOpen : Z) (m : TransactionManager) : TransactionManager :=
  mkTxManager (m_handles m) (m_open m) (m_byConnection m) (m_perConnection m) ttl (m_idle m) maxOpen
    (m_closed m) (m_ending m) (m_tombstones m) (m_buried m).

Definition with_closed (m : TransactionManager) : TransactionManager :=
  mkTxManager (m_handles m) (m_open m) (m_byConnection m) (m_perConnection m) (m_ttl m) (m_idle m)
    (m_maxOpen m) true (m_ending m) (m_tombstones m) (m_buried m).

(** m.handles, m.open, m.byConnection. *)
Definition with_handles (hs : gset string) (o : gmap string Z) (b : gmap nat Z) (m : TransactionManager)
  : TransactionManager :=
  mkTxManager hs o b (m_perConnection m) (m_ttl m) (m_idle m) (m_maxOpen m) (m_closed m) (m_ending m)
    (m_tombstones m) (m_buried m).

(** m.ending, m.tombstones, m.buried. *)
Definition with_ending (e : gset string) (t : gmap string tombstone) (b : list string)
    (m : TransactionManager) : TransactionManager :=
  mkTxManager (m_handles m) (m_open m) (m_byConnection m) (m_perConnection m) (m_ttl m) (m_idle m)
    (m_maxOpen m) (m_closed m) e t b.

(** ** Counters of a map[K]int *)

Definition count {K} `{Countable K} (c : gmap K Z) (k : K) : Z := default 0 (c !! k).
Definition incr {K} `{Countable K} (k : K) (c : gmap K Z) : gmap K Z := <[k := count c k + 1]> c.
(** if c[k]--; c[k] <= 0 { delete(c, k) } *)
Definition decr {K} `{Countable K} (k : K) (c : gmap K Z) : gmap K Z :=
  if count c k - 1 <=? 0 then delete k c else <[k := count c k - 1]> c.

(** ** Opening *)

Definition capacityLocked (scope : string) (connection : nat) (m : TransactionManager) : option txError :=
  if (0 <? m_maxOpen m) && (m_maxOpen m <=? count (m_open m) scope) then Some ErrTransactionCapacity
  else if (0 <? m_perConnection m) && (m_perConnection m <=? count (m_byConnection m) connection)
  then Some ErrTransactionCapacity
  else None.

Definition checkBeginCapacity (scope : string) (connection : nat) (m : TransactionManager) : option txError :=
  if m_closed m then Some ErrTransactionNotFound else capacityLocked scope connection m.

(** What the database and the request context answer as Begin opens the
    transaction: BeginTx's error, ctx.Err() after it, rand.Read's failure. *)
Record opening : Type := mkOpening {
  op_begin : option goErr;
  op_ctx : option goErr;
  op_rand : bool;
}.

(** beginTransaction and newTransactionToken: the error, and the calls a
    transaction opened in vain received. *)
Definition beginTransaction (o : opening) : option txError * list txCall :=
  match op_begin o with
  | Some e => (Some (match op_ctx o with Some r => CtxError r | None => DBError (default [] (WrapDBError (Some e))) end), [])
  | None =>
      match op_ctx o with
      | Some r => (Some (CtxError r), [TxRollback])
      | None => if op_rand o then (Some TokenError, [TxRollback]) else (None, [])
      end
  end.

(** The handle Begin makes. *)
Definition newHandle `{SubjectText} (now ttl : Z) (connection : nat) (c : Caller) (datasource : string)
  : transactionHandle :=
  mkHandle (mkIdentity connection (C_Session c) (scope c) datasource (if 0 <? ttl then Some (now + ttl) else None))
    ∅ false 0 0 0 false [] false.

Definition touch (now : Z) (h : transactionHandle) : transactionHandle :=
  mkHandle (h_id h) (h_dirty h) (h_closed h) (h_idle h) now (h_running h) (h_locked h) (h_calls h) (h_cancelled h).

Definition with_idle (d : Z) (h : transactionHandle) : transactionHandle :=
  mkHandle (h_id h) (h_dirty h) (h_closed h) d (h_used h) (h_running h) (h_locked h) (h_calls h) (h_cancelled h).

Definition addHandle (now : Z) (token : string) (h : transactionHandle) (m : TransactionManager)
  : txError + (TransactionManager * transactionHandle) :=
  if m_closed m then inl ErrTransactionNotFound
  else match capacityLocked (id_scope (h_id h)) (id_connection (h_id h)) m with
       | Some e => inl e
       | None =>
           inr (with_handles ({[token]} ∪ m_handles m) (incr (id_scope (h_id h)) (m_open m))
                  (incr (id_connection (h_id h)) (m_byConnection m)) m,
                with_idle (m_idle m) (touch now h))
       end.

(** ** Ending *)

Definition removeLocked (token : string) (h : transactionHandle) (m : TransactionManager) : TransactionManager :=
  with_handles (m_handles m ∖ {[token]}) (decr (id_scope (h_id h)) (m_open m))
    (decr (id_connection (h_id h)) (m_byConnection m)) m.

Definition endingLocked (token : string) (h : transactionHandle) (m : TransactionManager) : TransactionManager :=
  let m := removeLocked token h m in
  with_ending ({[token]} ∪ m_ending m) (m_tombstones m) (m_buried m) m.

(** closes the handle after the calls [cs] on its tx, and releases its context *)
Definition closeHandle (cs : list txCall) (h : transactionHandle) : transactionHandle :=
  mkHandle (h_id h) (h_dirty h) true (h_idle h) (h_used h) (h_running h) (h_locked h) (h_calls h ++ cs) true.

Definition abort (h : transactionHandle) : transactionHandle :=
  closeHandle (if h_closed h then [] else [TxRollback]) h.

(** ctx.Err() and the database's answers as a transaction is finished. *)
Record answers : Type := mkAnswers {
  a_ctx : option goErr;
  a_commit : option goErr;
  a_rollback : option goErr;
}.

Definition handle_finish (a : answers) (commit : bool) (h : transactionHandle)
  : transactionHandle * (Outcome * (list CacheTarget * option txError)) :=
  if h_closed h then (closeHandle [] h, (OutcomeRolledBack, ([], Some ErrTransactionNotFound)))
  else match a_ctx a with
  | Some e => (closeHandle [TxRollback] h, (OutcomeRolledBack, ([], Some (CtxError e))))
  | None =>
      if commit then
        let targets := elements (h_dirty h) in
        match a_commit a with
        | Some e =>
            (closeHandle [TxCommit (Some e); TxRollback] h,
             if uncertain e then (OutcomeUnknown, (targets, Some (ErrOutcomeUnknown e)))
             else (OutcomeRolledBack, ([], DBError <$> WrapDBError (Some e))))
        | None => (closeHandle [TxCommit None] h, (OutcomeCommitted, (targets, None)))
        end
      else (closeHandle [TxRollback] h, (OutcomeRolledBack, ([], DBError <$> WrapDBError (a_rollback a))))
  end.

(** *** Tombstones *)

Definition tombstoneRetention : Z := 10 * 60 * 1000000000.
Definition maxTombstones : Z := 4096.

(** The loop of buryLocked: it drops one token of [m_buried] per round, so
    its rounds are structural on the list.  A token with no tombstone reads
    the zero value, whose token is empty and whose time is long past. *)
Fixpoint buryLoop (now : Z) (ts : gmap string tombstone) (buried : list string)
  : gmap string tombstone * list string :=
  match buried with
  | [] => (ts, [])
  | first :: rest =>
      match ts !! first with
      | Some oldest =>
          if (Z.of_nat (length buried) <=? maxTombstones) && (now - t_at oldest <? tombstoneRetention)
          then (ts, buried)
          else buryLoop now (if String.eqb (t_token oldest) first then delete (t_token oldest) ts else ts) rest
      | None => buryLoop now (if String.eqb "" first then delete "" ts else ts) rest
      end
  end.

Definition buryLocked (now : Z) (token : string) (h : transactionHandle) (o : Outcome) (m : TransactionManager)
  : TransactionManager :=
  let ts := <[token := mkTombstone token (id_session (h_id h)) (id_scope (h_id h)) o now]> (m_tombstones m) in
  let '(ts, buried) := buryLoop now ts (m_buried m ++ [token]) in
  with_ending (m_ending m) ts buried m.

(** The function endingLocked returns: the handle has ended as [o]. *)
Definition ended (now : Z) (token : string) (h : transactionHandle) (o : Outcome) (m : TransactionManager)
  : TransactionManager :=
  buryLocked now token h o (with_ending (m_ending m ∖ {[token]}) (m_tombstones m) (m_buried m) m).

Definition endedError `{SubjectText} (now : Z) (token : string) (c : Caller) (m : TransactionManager) : txError :=
  match m_tombstones m !! token with
  | None => ErrTransactionNotFound
  | Some t =>
      if (tombstoneRetention <=? now - t_at t) || negb (String.eqb (t_session t) (C_Session c))
         || negb (String.eqb (t_scope t) (scope c))
      then ErrTransactionNotFound
      else TransactionEndedError (t_outcome t)
  end.

(** ** Statements *)

Definition statementStarted (now : Z) (h : transactionHandle) : transactionHandle :=
  mkHandle (h_id h) (h_dirty h) (h_closed h) (h_idle h) now (h_running h + 1) (h_locked h) (h_calls h) (h_cancelled h).

Definition statementEnded (now : Z) (h : transactionHandle) : transactionHandle :=
  mkHandle (h_id h) (h_dirty h) (h_closed h) (h_idle h) now (h_running h - 1) (h_locked h) (h_calls h) (h_cancelled h).

Definition with_locked (b : bool) (h : transactionHandle) : transactionHandle :=
  mkHandle (h_id h) (h_dirty h) (h_closed h) (h_idle h) (h_used h) (h_running h) b (h_calls h) (h_cancelled h).

(** QueryContext and ExecContext up to the database's call: the handle's
    mutex is held from here until [endStatement] (ExecContext's return, the
    error of QueryContext, or transactionRows.Close). *)
Definition startStatement (now : Z) (h : transactionHandle) : txError + transactionHandle :=
  if h_closed h then inl ErrTransactionNotFound
  else inr (with_locked true (statementStarted now h)).

Definition endStatement (now : Z) (h : transactionHandle) : transactionHandle :=
  with_locked false (statementEnded now h).

Definition markDirty (targets : list CacheTarget) (h : transactionHandle) : txError + transactionHandle :=
  if h_closed h then inl ErrTransactionNotFound
  else inr (mkHandle (h_id h) (list_to_set targets ∪ h_dirty h) (h_closed h) (h_idle h) (h_used h) (h_running h)
              (h_locked h) (h_calls h) (h_cancelled h)).

(** checkIdle: the time left before the handle is idle. *)
Definition idleLeft (now : Z) (h : transactionHandle) : Z :=
  if h_running h =? 0 then h_idle h - (now - h_used h) else h_idle h.
