(* ===== verification/TransactionSystem.v ===== *)
(** The transaction manager at work: its critical sections interleaved.

    [world] is the manager, the handles, the clock and what every goroutine
    in one of its methods has left to do; [step] runs one critical section,
    chosen by [txOp] with the answers of the database, and gives the reply
    the call returns there, if it returns.  A lookup is several of them, as
    m.mu is released in between: reading the maps, waiting for an end under
    way, checking the handle it read, expiring it, reading the tombstone. *)

From S2P Require Import Prelude Value Transaction.

(** ** What goroutines have left to do *)

(** What a method returns: Begin's token, an error, the error a lookup of a
    token gave its caller, the result of Commit or Rollback. *)
Inductive reply : Type :=
  | RNone
  | RToken (token : string)
  | RError (e : txError)
  | RRefused (token : string) (c : Caller) (e : txError)
  | RFinished (commit : bool) (targets : list CacheTarget) (err : option txError).

(** After a critical section, on a handle: register it (Begin), roll back a
    handle that was refused (registerHandle), the rollback endLocked returns,
    handle.finish of the manager's finish, and the record of the outcome; the
    last three with what the method returns then. *)
Inductive task : Type :=
  | TAdd
  | TDiscard (e : txError)
  | TAbort (o : Outcome) (r : reply)
  | TFinish (commit : bool)
  | TBury (o : Outcome) (r : reply).

(** Where a lookup is, between its critical sections: about to read the maps,
    waiting for a token that is ending, about to read its tombstone, about to
    check the handle it read, about to expire it. *)
Inductive lookupPoint : Type := LRead | LWait | LTomb | LCheck | LExpire.

(** A call of finish is at its lookup, or about to drop the handle it found. *)
Inductive finishPoint : Type := FLookup (p : lookupPoint) | FDrop.

(** What a token is looked up for: DB, MarkDirty or Validate; or finish. *)
Inductive callUse : Type := ULookup | UFinish (commit : bool).

Record tokenCall : Type := mkCall {
  f_token : string;
  f_caller : Caller;
  f_datasource : string;
  f_connections : option (list nat);
  f_use : callUse;
  f_point : finishPoint;
}.

Definition with_point (p : finishPoint) (f : tokenCall) : tokenCall :=
  mkCall (f_token f) (f_caller f) (f_datasource f) (f_connections f) (f_use f) p.

(** The calls under way are numbered in the order they came. *)
Record world : Type := mkWorld {
  w_m : TransactionManager;
  w_heap : gmap string transactionHandle;
  w_now : Z;
  w_tasks : list (string * task);
  w_opening : list (Caller * nat * string); (* Begin after its capacity check *)
  w_calls : gmap nat tokenCall;
  w_next : nat;
  w_failed : list string; (* statements that failed, before their end() *)
  w_found : gset string; (* handles some DB or MarkDirty call looked up *)
}.

Definition set_m (f : TransactionManager -> TransactionManager) (w : world) : world :=
  mkWorld (f (w_m w)) (w_heap w) (w_now w) (w_tasks w) (w_opening w) (w_calls w) (w_next w) (w_failed w) (w_found w).
Definition set_heap (f : gmap string transactionHandle -> gmap string transactionHandle) (w : world) : world :=
  mkWorld (w_m w) (f (w_heap w)) (w_now w) (w_tasks w) (w_opening w) (w_calls w) (w_next w) (w_failed w) (w_found w).
Definition set_tasks (f : list (string * task) -> list (string * task)) (w : world) : world :=
  mkWorld (w_m w) (w_heap w) (w_now w) (f (w_tasks w)) (w_opening w) (w_calls w) (w_next w) (w_failed w) (w_found w).
Definition set_opening (f : list (Caller * nat * string) -> list (Caller * nat * string)) (w : world) : world :=
  mkWorld (w_m w) (w_heap w) (w_now w) (w_tasks w) (f (w_opening w)) (w_calls w) (w_next w) (w_failed w) (w_found w).
Definition set_calls (f : gmap nat tokenCall -> gmap nat tokenCall) (w : world) : world :=
  mkWorld (w_m w) (w_heap w) (w_now w) (w_tasks w) (w_opening w) (f (w_calls w)) (w_next w) (w_failed w) (w_found w).
Definition set_failed (f : list string -> list string) (w : world) : world :=
  mkWorld (w_m w) (w_heap w) (w_now w) (w_tasks w) (w_opening w) (w_calls w) (w_next w) (f (w_failed w)) (w_found w).
Definition set_found (f : gset string -> gset string) (w : world) : world :=
  mkWorld (w_m w) (w_heap w) (w_now w) (w_tasks w) (w_opening w) (w_calls w) (w_next w) (w_failed w) (f (w_found w)).
Definition set_now (t : Z) (w : world) : world :=
  mkWorld (w_m w) (w_heap w) t (w_tasks w) (w_opening w) (w_calls w) (w_next w) (w_failed w) (w_found w).

(** A call comes in. *)
Definition add_call (f : tokenCall) (w : world) : world :=
  mkWorld (w_m w) (w_heap w) (w_now w) (w_tasks w) (w_opening w) (<[w_next w := f]> (w_calls w)) (S (w_next w)) (w_failed w) (w_found w).

(** A manager with no transaction. *)
Definition initial (ttl maxOpen now : Z) : world :=
  mkWorld (NewTransactionManager ttl maxOpen) ∅ now [] [] ∅ 0 [] ∅.

(** ** Ending a handle *)

(** endLocked: the handle is dropped, its rollback is left to do, after which
    the method returns [r]. *)
Definition endLocked (token : string) (o : Outcome) (r : reply) (w : world) : world :=
  match w_heap w !! token with
  | Some h => set_tasks (fun ts => ts ++ [(token, TAbort o r)]) (set_m (endingLocked token h) w)
  | None => w
  end.

Definition end_ (token : string) (o : Outcome) (r : reply) (w : world) : world :=
  if decide (token ∈ m_handles (w_m w)) then endLocked token o r w else w.

Definition expire (token : string) (r : reply) (w : world) : world := end_ token OutcomeExpired r w.

(** checkIdle; when time is left the check is set again, which [OIdle] allows
    at any time. *)
Definition checkIdle (token : string) (w : world) : world :=
  match w_heap w !! token with
  | Some h =>
      if decide (token ∈ m_handles (w_m w)) then
        if 0 <? idleLeft (w_now w) h then w else endLocked token OutcomeExpired RNone w
      else w
  | None => w
  end.

Definition sessionTokens (session : string) (w : world) : list string :=
  filter (fun tok => (fun h => id_session (h_id h)) <$> w_heap w !! tok = Some session)
    (elements (m_handles (w_m w))).

Definition RollbackSession (session : string) (w : world) : world :=
  if String.eqb session "" then w
  else foldl (fun w tok => endLocked tok OutcomeRolledBack RNone w) w (sessionTokens session w).

Definition Close (w : world) : world :=
  if m_closed (w_m w) then w
  else foldl (fun w tok => endLocked tok OutcomeRolledBack RNone w) (set_m with_closed w) (elements (m_handles (w_m w))).

(** ** Looking a handle up *)

(** After a critical section of a lookup: it goes on, has found the handle, is
    refused, or returns once the rollback it began is done. *)
Inductive looked : Type := LMore (p : lookupPoint) | LFound | LRefused (e : txError) | LExpired.

Section system.
Context {text : SubjectText}.

(** One critical section of lookup, at [p]; [gone] is its context's end. *)
Definition lookup (p : lookupPoint) (token : string) (c : Caller) (datasource : string) (connections : option (list nat))
    (gone : option goErr) (w : world) : world * looked :=
  match p with
  | LRead =>
      (w, LMore (if decide (token ∈ m_handles (w_m w)) then LCheck
                 else if decide (token ∈ m_ending (w_m w)) then LWait else LTomb))
  | LWait =>
      match gone with
      | Some e => (w, LRefused (CtxError e))
      | None => (w, LMore (if decide (token ∈ m_ending (w_m w)) then LWait else LTomb))
      end
  | LTomb => (w, LRefused (endedError (w_now w) token c (w_m w)))
  | LCheck =>
      match w_heap w !! token with
      | None => (w, LRefused ErrTransactionNotFound) (* a handle read stays in the heap *)
      | Some h =>
          if negb (String.eqb (id_session (h_id h)) (C_Session c)) || negb (String.eqb (id_scope (h_id h)) (scope c))
             || (negb (String.eqb datasource "") && negb (String.eqb (id_datasource (h_id h)) datasource))
          then (w, LRefused ErrTransactionScope)
          else if match connections with Some l => negb (bool_decide (id_connection (h_id h) ∈ l)) | None => false end
          then (w, LRefused ErrTransactionStale)
          else if match id_expires (h_id h) with Some e => e <? w_now w | None => false end
          then (w, LMore LExpire)
          else (w, LFound)
      end
  | LExpire =>
      let e := TransactionEndedError OutcomeExpired in
      if decide (token ∈ m_handles (w_m w)) then (expire token (RRefused token c e) w, LExpired)
      else (w, LRefused e)
  end.

(** One critical section of a task. *)
Definition runTask (i : nat) (a : answers) (w : world) : world * reply :=
  match w_tasks w !! i with
  | None => (w, RNone)
  | Some (token, t) =>
      match w_heap w !! token with
      | None => (w, RNone)
      | Some h =>
          match t with
          | TAdd =>
              match addHandle (w_now w) token h (w_m w) with
              | inl e => (set_tasks <[i := (token, TDiscard e)]> w, RNone)
              | inr (m, h) =>
                  (set_tasks (delete i) (set_heap <[token := h]> (set_m (fun _ => m) w)), RToken token)
              end
          | TDiscard e =>
              if h_locked h then (w, RNone)
              else (set_tasks (delete i) (set_heap <[token := abort h]> w), RError e)
          | TAbort o r =>
              if h_locked h then (w, RNone)
              else (set_tasks <[i := (token, TBury o r)]> (set_heap <[token := abort h]> w), RNone)
          | TFinish commit =>
              if h_locked h then (w, RNone)
              else let '(h, (o, (targets, err))) := handle_finish a commit h in
                   (set_tasks <[i := (token, TBury o (RFinished commit targets err))]> (set_heap <[token := h]> w), RNone)
          | TBury o r => (set_tasks (delete i) (set_m (ended (w_now w) token h o) w), r)
          end
      end
  end.

(** One critical section of call [id]. *)
Definition runCall (id : nat) (gone : option goErr) (w : world) : world * reply :=
  match w_calls w !! id with
  | None => (w, RNone)
  | Some f =>
      let leave (r : reply) (w : world) := (set_calls (delete id) w, r) in
      let goto p (w : world) := (set_calls <[id := with_point p f]> w, RNone) in
      match f_point f with
      | FLookup p =>
          match lookup p (f_token f) (f_caller f) (f_datasource f) (f_connections f) gone w with
          | (w, LMore p) => goto (FLookup p) w
          | (w, LRefused e) => leave (RRefused (f_token f) (f_caller f) e) w
          | (w, LExpired) => leave RNone w
          | (w, LFound) =>
              match f_use f with
              | ULookup => leave RNone (set_found (fun s => {[f_token f]} ∪ s) w)
              | UFinish _ => goto FDrop w
              end
          end
      | FDrop =>
          match f_use f, w_heap w !! f_token f with
          | UFinish commit, Some h =>
              if decide (f_token f ∈ m_handles (w_m w)) then
                leave RNone (set_tasks (fun ts => ts ++ [(f_token f, TFinish commit)])
                               (set_m (endingLocked (f_token f) h) w))
              else goto (FLookup LRead) w
          | UFinish _, None => goto (FLookup LRead) w
          | ULookup, _ => leave RNone w (* only finish comes here *)
          end
      end
  end.

(** ** The steps *)

Inductive txOp : Type :=
  | OTick (d : N)
  | OSetConnectionLimit (n : Z)
  | OSetIdleTimeout (d : Z)
  | OUpdateLimits (ttl maxOpen : Z)
  | OBegin (c : Caller) (connection : nat) (datasource : string)
  | OOpen (i : nat) (o : opening) (token : string)
  | OTask (i : nat) (a : answers)
  | OLookup (token : string) (c : Caller) (datasource : string) (connections : option (list nat))
  | OFinish (token : string) (c : Caller) (commit : bool) (gone : option goErr)
  | OCall (id : nat) (gone : option goErr)
  | OStart (token : string)
  | OEnd (token : string) (failed : bool)
  | OFail (i : nat)
  | OMark (token : string) (targets : list CacheTarget)
  | OExpire (token : string)
  | OIdle (token : string)
  | ORollbackSession (session : string)
  | OClose.

Definition update_handle (token : string) (f : transactionHandle -> txError + transactionHandle) (w : world)
  : world * reply :=
  match w_heap w !! token with
  | Some h =>
      match f h with
      | inl e => (w, RError e)
      | inr h => (set_heap <[token := h]> w, RNone)
      end
  | None => (w, RNone)
  end.

Definition is_locked (token : string) (w : world) : bool :=
  match w_heap w !! token with Some h => h_locked h | None => false end.

Definition step (o : txOp) (w : world) : world * reply :=
  match o with
  | OTick d => (set_now (w_now w + Z.of_N d) w, RNone)
  | OSetConnectionLimit n => (set_m (SetConnectionLimit n) w, RNone)
  | OSetIdleTimeout d => (set_m (SetIdleTimeout d) w, RNone)
  | OUpdateLimits ttl maxOpen => (set_m (UpdateTxLimits ttl maxOpen) w, RNone)
  | OBegin c connection datasource =>
      match checkBeginCapacity (scope c) connection (w_m w) with
      | Some e => (w, RError e)
      | None => (set_opening (fun l => l ++ [(c, connection, datasource)]) w, RNone)
      end
  | OOpen i o token =>
      match w_opening w !! i with
      | None => (w, RNone)
      | Some (c, connection, datasource) =>
          match (beginTransaction o).1 with
          | Some e => (set_opening (delete i) w, RError e)
          | None =>
              match w_heap w !! token with
              | Some _ => (w, RNone) (* a token is not drawn twice *)
              | None =>
                  (set_opening (delete i)
                     (set_tasks (fun ts => ts ++ [(token, TAdd)])
                        (set_heap <[token := newHandle (w_now w) (m_ttl (w_m w)) connection c datasource]> w)),
                   RNone)
              end
          end
      end
  | OTask i a => runTask i a w
  | OLookup token c datasource connections =>
      (add_call (mkCall token c datasource connections ULookup (FLookup LRead)) w, RNone)
  | OFinish token c commit gone =>
      match gone with
      | Some e => (w, RError (CtxError e))
      | None => (add_call (mkCall token c "" None (UFinish commit) (FLookup LRead)) w, RNone)
      end
  | OCall id gone => runCall id gone w
  | OStart token =>
      if bool_decide (token ∈ w_found w) && negb (is_locked token w)
      then update_handle token (startStatement (w_now w)) w
      else (w, RNone)
  | OEnd token failed =>
      if is_locked token w
      then (set_failed (fun l => if failed then l ++ [token] else l)
              (update_handle token (fun h => inr (endStatement (w_now w) h)) w).1, RNone)
      else (w, RNone)
  | OFail i =>
      match w_failed w !! i with
      | Some token => (set_failed (delete i) (end_ token OutcomeRolledBack RNone w), RNone)
      | None => (w, RNone)
      end
  | OMark token targets =>
      if bool_decide (token ∈ w_found w) && negb (is_locked token w)
      then update_handle token (markDirty targets) w
      else (w, RNone)
  | OExpire token =>
      match w_heap w !! token with
      | Some h =>
          if match id_expires (h_id h) with Some e => e <=? w_now w | None => false end
          then (expire token RNone w, RNone) else (w, RNone)
      | None => (w, RNone)
      end
  | OIdle token => (* the check is set for a handle with an idle timeout *)
      match w_heap w !! token with
      | Some h => if 0 <? h_idle h then (checkIdle token w, RNone) else (w, RNone)
      | None => (w, RNone)
      end
  | ORollbackSession session => (RollbackSession session w, RNone)
  | OClose => (Close w, RNone)
  end.

Fixpoint run (os : list txOp) (w : world) : world :=
  match os with [] => w | o :: os => run os (step o w).1 end.

End system.

(** ** A run, for the examples: one caller, a manager of one transaction *)

Definition nullText : SubjectText := fun _ => "null".
Definition agent : Caller := mkCaller "session" "writer" ∅.
Definition granted : answers := mkAnswers None None None.
Definition broken : answers := mkAnswers None (Some [StoreConnectionLost]) None.
Definition start : world := initial 0 1 0.

(** Begin, up to its registration. *)
Definition begun : list txOp := [OBegin agent 7%nat "main"; OOpen 0 (mkOpening None None false) "tok"].
(** A registered transaction with a write. *)
Definition wrote : list txOp := begun ++ [OTask 0 granted; OLookup "tok" agent "main" None; OCall 0 None; OCall 0 None;
  OStart "tok"; OEnd "tok" false; OMark "tok" [mkTarget "db" "orders"]].
(** Commit, up to the record of its outcome. *)
Definition committing (a : answers) : list txOp :=
  wrote ++ [OFinish "tok" agent true None; OCall 1 None; OCall 1 None; OCall 1 None; OTask 0 a].
(** A commit that lost the race to drop the handle. *)
Definition raced : list txOp := wrote ++ [OFinish "tok" agent true None; OFinish "tok" agent false None;
  OCall 1 None; OCall 1 None; OCall 2 None; OCall 2 None; OCall 2 None].
(** A transaction of five units of time, past them; a Commit that checked it
    before, and a lookup that checks it after. *)
Definition late : list txOp := [OBegin agent 7%nat "main"; OOpen 0 (mkOpening None None false) "tok"; OTask 0 granted;
  OFinish "tok" agent true None; OCall 0 None; OCall 0 None; OLookup "tok" agent "main" None; OCall 1 None; OTick 6; OCall 1 None].
Definition brief : world := initial 5 1 0.

#[local] Existing Instance nullText.

Lemma committed_replied :
  (step (OTask 0 granted) (run (committing granted) start)).2 = RFinished true [mkTarget "db" "orders"] None.
Proof. vm_compute. reflexivity. Qed.

(** A commit whose connection broke as it ran is not said to have failed. *)
Example broken_commit_unknown :
  (step (OTask 0 broken) (run (committing broken) start)).2 =
  RFinished true [mkTarget "db" "orders"] (Some (ErrOutcomeUnknown [StoreConnectionLost])).
Proof. vm_compute. reflexivity. Qed.

(** The lookup finds the handle expired while the Commit drops it and commits:
    its caller is told that a transaction that committed expired. *)
Example expired_though_committed :
  let w := run (late ++ [OCall 0 None; OTask 0 granted]) brief in
  (step (OCall 1 None) w).2 = RRefused "tok" agent (TransactionEndedError OutcomeExpired) /\ h_calls <$> w_heap w !! "tok" = Some [TxCommit None] /\ (step (OTask 0 granted) w).2 = RFinished true [] None.
Proof. vm_compute. auto. Qed.
