(* ===== verification/TransactionTheorems.v ===== *)
(** The transaction manager: its invariant, kept by every critical section of
    [TransactionSystem.step], what is recorded and replied of an end, the
    bounds on open transactions, and that shutdown and the finishing loop end. *)

From S2P Require Import Prelude Value Transaction TransactionSystem.

(** ** What a handle says of its transaction *)

(** Open: its tx was neither committed nor rolled back. *)
Definition live (h : transactionHandle) : Prop :=
  h_closed h = false /\ h_calls h = [] /\ h_cancelled h = false.

(** The calls the tx received are those of the outcome. *)
Definition ends (o : Outcome) (cs : list txCall) : Prop :=
  match o with
  | OutcomeCommitted => cs = [TxCommit None]
  | OutcomeUnknown => exists e, uncertain e = true /\ cs = [TxCommit (Some e); TxRollback]
  | OutcomeExpired => cs = [TxRollback]
  | OutcomeRolledBack =>
      cs = [TxRollback] \/ exists e, uncertain e = false /\ cs = [TxCommit (Some e); TxRollback]
  end.

(** Over: ended as [o], its context released, no statement running. *)
Definition over (o : Outcome) (h : transactionHandle) : Prop :=
  h_closed h = true /\ h_cancelled h = true /\ ends o (h_calls h) /\ h_locked h = false.

Section theorems.
Context {text : SubjectText}.

(** What a rollback's caller is told: nothing, or that the transaction expired,
    when a lookup of its own caller found it so. *)
Definition told (tok : string) (r : reply) (o : Outcome) (h : transactionHandle) : Prop :=
  match r with
  | RNone => o = OutcomeRolledBack \/ o = OutcomeExpired
  | RRefused tok' c e => tok' = tok /\ o = OutcomeExpired /\ e = TransactionEndedError o /\
      id_session (h_id h) = C_Session c /\ id_scope (h_id h) = scope c
  | _ => False
  end.

(** A reply that fits the outcome. *)
Definition reply_fits (tok : string) (r : reply) (o : Outcome) (h : transactionHandle) : Prop :=
  match r with
  | RFinished commit targets err =>
      match o with
      | OutcomeCommitted => commit = true /\ err = None /\ targets = elements (h_dirty h)
      | OutcomeUnknown => commit = true /\ targets = elements (h_dirty h) /\ exists e, err = Some (ErrOutcomeUnknown e)
      | _ => targets = [] /\ (commit = true -> err <> None) /\ forall e, err <> Some (ErrOutcomeUnknown e)
      end
  | _ => told tok r o h
  end.

Definition task_ok (tok : string) (t : task) (h : transactionHandle) : Prop :=
  match t with
  | TBury o r => over o h /\ reply_fits tok r o h
  | TAbort o r => live h /\ told tok r o h
  | _ => live h
  end.

Lemma told_ends tok r o h : told tok r o h -> o = OutcomeRolledBack \/ o = OutcomeExpired.
Proof. destruct r; simpl; try tauto. Qed.

Lemma told_fits tok r o h h' : told tok r o h -> h_id h' = h_id h -> reply_fits tok r o h'.
Proof. intros Ht Hid. destruct r; simpl in *; rewrite ?Hid; tauto. Qed.

Definition ending_task (t : task) : bool :=
  match t with TAbort _ _ | TFinish _ | TBury _ _ => true | _ => false end.

(** The mutex of a handle is held by its one running statement. *)
Definition lock_ok (h : transactionHandle) : Prop :=
  h_running h = (if h_locked h then 1 else 0) /\ (h_locked h = true -> h_closed h = false).

Lemma over_ends o h : over o h -> ends o (h_calls h).
Proof. by intros (_&_&?&_). Qed.

Lemma abort_over o h : live h -> h_locked h = false -> o = OutcomeRolledBack \/ o = OutcomeExpired -> over o (abort h).
Proof.
  intros (Hc & Hs & _) Hl Ho. unfold over, abort, closeHandle. rewrite Hc, Hs. simpl.
  destruct Ho as [-> | ->]; simpl; auto.
Qed.

Lemma finish_over tok a commit h h' o targets err :
  live h -> h_locked h = false -> handle_finish a commit h = (h', (o, (targets, err))) ->
  h_id h' = h_id h /\ h_running h' = h_running h /\ over o h' /\ reply_fits tok (RFinished commit targets err) o h'.
Proof.
  intros (Hc & Hs & _) Hl. unfold handle_finish, over, closeHandle. rewrite Hc, Hs.
  repeat case_match; intros [=]; subst; cbn -[WrapDBError]; rewrite ?Hl; split_and!; eauto; try done.
  all: intros; destruct (WrapDBError (a_rollback a)); repeat case_match; done.
Qed.

(** ** Tombstones *)

Lemma buryLoop_suffix now ts l : exists k, (buryLoop now ts l).2 = drop k l.
Proof.
  revert ts. induction l as [|x l IH]; intros ts; simpl; [by exists 0%nat|].
  destruct (ts !! x); [case_match; [by exists 0%nat|]|];
    match goal with |- context [buryLoop now ?ts' l] => destruct (IH ts') as [k ->]; by exists (S k) end.
Qed.

Lemma buryLoop_length now ts l : (Z.of_nat (length (buryLoop now ts l).2) <= maxTombstones).
Proof.
  revert ts. induction l as [|x l IH]; intros ts; [done|]. cbn -[length maxTombstones].
  destruct (ts !! x); [|apply IH]. destruct (_ <=? _) eqn:E; [|apply IH].
  destruct (_ <? _); [|apply IH]. apply Z.leb_le in E. done.
Qed.

(** The loop keeps the tombstones of the tokens it keeps, and no other. *)
Lemma buryLoop_lookup now l : forall ts, NoDup l ->
  (forall tok, tok ∈ l -> exists t, ts !! tok = Some t /\ t_token t = tok) ->
  forall tok, (buryLoop now ts l).1 !! tok = if decide (tok ∈ l /\ tok ∉ (buryLoop now ts l).2) then None else ts !! tok.
Proof.
  induction l as [|x l IH]; intros ts Hl Ht tok.
  - done.
  - apply NoDup_cons in Hl as [Hx Hl]. destruct (Ht x) as (t & Hxt & Htx); [left|].
    cbn -[length]. rewrite Hxt. destruct (_ && _) eqn:E.
    { cbn [fst snd]. rewrite decide_False by tauto. done. }
    rewrite Htx, String.eqb_refl.
    assert (forall tok, tok ∈ l -> exists t, delete x ts !! tok = Some t /\ t_token t = tok) as Ht'.
    { intros tok' Hin. rewrite lookup_delete_ne by (intros ->; done). apply Ht. by right. }
    rewrite (IH _ Hl Ht'). destruct (buryLoop_suffix now (delete x ts) l) as [k Hk]. rewrite Hk.
    destruct (decide (tok = x)) as [->|Hne].
    + rewrite decide_False by tauto. rewrite lookup_delete_eq, decide_True; [done|].
      split; [left|]. intros Hd. apply Hx. by eapply subseteq_drop.
    + rewrite lookup_delete_ne by done. apply decide_ext. rewrite elem_of_cons. tauto.
Qed.

(** ** Counters *)

(** The tokens of [hs] whose handles have the key [k]. *)
Definition keyed {K} `{Countable K} (kf : identity -> K) (heap : gmap string transactionHandle) (k : K) (hs : gset string)
  : gset string :=
  filter (fun tok => (fun h => kf (h_id h)) <$> heap !! tok = Some k) hs.

(** A counter counts the handles by key, and holds no zero. *)
Definition counted {K} `{Countable K} (kf : identity -> K) (c : gmap K Z) (heap : gmap string transactionHandle)
    (hs : gset string) : Prop :=
  forall k, count c k = Z.of_nat (size (keyed kf heap k hs)) /\ (is_Some (c !! k) -> 0 < count c k).

Section counters.
Context {K : Type} `{Countable K} (kf : identity -> K).
Implicit Types (c : gmap K Z) (heap : gmap string transactionHandle) (hs : gset string).

Lemma counted_heap c heap heap' hs :
  (forall tok, tok ∈ hs -> h_id <$> heap' !! tok = h_id <$> heap !! tok) -> counted kf c heap hs -> counted kf c heap' hs.
Proof.
  intros Hid Hc k. replace (keyed kf heap' k hs) with (keyed kf heap k hs); [apply Hc|].
  apply set_eq. intros tok. unfold keyed. rewrite !elem_of_filter.
  cut (tok ∈ hs -> (fun h => kf (h_id h)) <$> heap' !! tok = (fun h => kf (h_id h)) <$> heap !! tok);
    [intros E; split; intros [? ?]; (split; [|done]); [rewrite E|rewrite <- E]; done|].
  intros Hin. specialize (Hid tok Hin). destruct (heap !! tok), (heap' !! tok); simplify_eq/=; congruence.
Qed.

Lemma keyed_add heap k hs tok h : heap !! tok = Some h ->
  keyed kf heap k ({[tok]} ∪ hs) = if decide (kf (h_id h) = k) then {[tok]} ∪ keyed kf heap k hs else keyed kf heap k hs.
Proof.
  intros Hh. apply set_eq. intros x. unfold keyed. rewrite elem_of_filter, elem_of_union, elem_of_singleton.
  case_decide as E; rewrite ?elem_of_union, ?elem_of_singleton, elem_of_filter.
  - split; [tauto|]. intros [->|?]; [|tauto]. rewrite Hh. simpl. rewrite E. auto.
  - split; [|tauto]. intros [Hx [->|?]]; [|tauto]. rewrite Hh in Hx. simplify_eq/=.
Qed.

Lemma counted_incr c heap hs tok h : heap !! tok = Some h -> tok ∉ hs -> counted kf c heap hs ->
  counted kf (incr (kf (h_id h)) c) heap ({[tok]} ∪ hs).
Proof.
  intros Hh Hn Hc k. rewrite (keyed_add _ _ _ _ h) by done. destruct (Hc k) as [Hk Hp]. unfold incr, count in *.
  case_decide as E; [subst k; rewrite lookup_insert_eq|by rewrite lookup_insert_ne].
  simpl. rewrite Hk, size_union, size_singleton by (unfold keyed; set_solver). split; lia.
Qed.

Lemma counted_decr c heap hs tok h : heap !! tok = Some h -> tok ∈ hs -> counted kf c heap hs ->
  counted kf (decr (kf (h_id h)) c) heap (hs ∖ {[tok]}).
Proof.
  intros Hh Hin Hc k. destruct (Hc k) as [Hk Hp].
  assert (hs = {[tok]} ∪ hs ∖ {[tok]}) as E by (apply union_difference_L; set_solver).
  rewrite E, (keyed_add _ _ _ _ h) in Hk by done. unfold decr, count in *.
  case_decide as Ek; [subst k|by destruct (_ <=? _); rewrite ?lookup_delete_ne, ?lookup_insert_ne].
  rewrite size_union, size_singleton in Hk by (unfold keyed; set_solver).
  destruct (_ <=? _) eqn:El; rewrite ?lookup_delete_eq, ?lookup_insert_eq; simpl.
  - apply Z.leb_le in El. split; [lia|]. by intros [? ?].
  - apply Z.leb_gt in El. lia.
Qed.

End counters.

(** ** The invariant

    Every handle is registered, or has one task, or is over; [ending] has the
    tokens whose end is under way; a tombstone says how its transaction
    ended. *)
Definition identified (t : tombstone) (o : transactionHandle) : Prop :=
  t_session t = id_session (h_id o) /\ t_scope t = id_scope (h_id o) /\ over (t_outcome t) o.

Record inv (m : TransactionManager) (heap : gmap string transactionHandle) (now : Z) (ts : list (string * task)) : Prop := {
  inv_nodup : NoDup ts.*1;
  inv_registered : forall tok, tok ∈ m_handles m -> tok ∉ ts.*1 /\ exists h, heap !! tok = Some h /\ live h;
  inv_task : forall tok t, (tok, t) ∈ ts -> exists h, heap !! tok = Some h /\ task_ok tok t h;
  inv_over : forall tok h, heap !! tok = Some h -> tok ∉ m_handles m -> tok ∉ ts.*1 -> exists o, over o h;
  inv_ending : forall tok, tok ∈ m_ending m <-> exists t, (tok, t) ∈ ts /\ ending_task t = true;
  inv_tomb : forall tok t, m_tombstones m !! tok = Some t ->
    t_token t = tok /\ tok ∉ m_handles m /\ tok ∉ ts.*1 /\ t_at t <= now /\ exists h, heap !! tok = Some h /\ identified t h;
  inv_buried : NoDup (m_buried m) /\ (forall tok, tok ∈ m_buried m <-> is_Some (m_tombstones m !! tok));
  inv_few : Z.of_nat (length (m_buried m)) <= maxTombstones;
  inv_open : counted id_scope (m_open m) heap (m_handles m);
  inv_conn : counted id_connection (m_byConnection m) heap (m_handles m);
  inv_lock : forall tok h, heap !! tok = Some h -> lock_ok h;
}.

Definition good (w : world) : Prop := inv (w_m w) (w_heap w) (w_now w) (w_tasks w).

Lemma inv_perm m heap now ts ts' : ts ≡ₚ ts' -> inv m heap now ts -> inv m heap now ts'.
Proof.
  intros Hp [].
  assert (forall tok, tok ∈ ts'.*1 <-> tok ∈ ts.*1) as H1 by (intros; by rewrite Hp).
  assert (forall x, x ∈ ts' <-> x ∈ ts) as H2 by (intros; by rewrite Hp).
  split; try setoid_rewrite H1; try setoid_rewrite H2; try done. by rewrite <- Hp.
Qed.

(** The manager's limits, and the clock, are free. *)
Lemma inv_limits m m' heap now now' ts : now <= now' ->
  m_handles m' = m_handles m -> m_open m' = m_open m -> m_byConnection m' = m_byConnection m ->
  m_ending m' = m_ending m -> m_tombstones m' = m_tombstones m -> m_buried m' = m_buried m ->
  inv m heap now ts -> inv m' heap now' ts.
Proof.
  intros Hn E1 E2 E3 E4 E5 E6 []. split; rewrite ?E1, ?E2, ?E3, ?E4, ?E5, ?E6; try done.
  intros tok t Ht. destruct (inv_tomb0 _ _ Ht) as (?&?&?&?&?). split_and!; try done. lia.
Qed.

Lemma inv_initial ttl maxOpen now : good (initial ttl maxOpen now).
Proof.
  split; simpl; try (intros; set_solver).
  - constructor.
  - split; [constructor|]. intros tok. rewrite lookup_empty. split; [by intros ?%elem_of_nil|by intros [? ?]].
  - unfold maxTombstones. lia.
  - intros k. unfold count. rewrite lookup_empty. split; [done|by intros [? ?]].
  - intros k. unfold count. rewrite lookup_empty. split; [done|by intros [? ?]].
Qed.


Lemma counted_upd {K} `{Countable K} (kf : identity -> K) c heap hs tok h h' :
  heap !! tok = Some h -> h_id h' = h_id h -> counted kf c heap hs -> counted kf c (<[tok := h']> heap) hs.
Proof.
  intros Hh Hid. apply counted_heap. intros x _. destruct (decide (x = tok)) as [->|];
    [rewrite lookup_insert_eq, Hh; simpl; congruence|by rewrite lookup_insert_ne].
Qed.

Lemma counted_fresh {K} `{Countable K} (kf : identity -> K) c heap hs tok h :
  tok ∉ hs -> counted kf c heap hs -> counted kf c (<[tok := h]> heap) hs.
Proof.
  intros Hn. apply counted_heap. intros x Hx. rewrite lookup_insert_ne; [done|]. by intros ->.
Qed.

(** ** The critical sections keep the invariant *)

Section transitions.
Context (m : TransactionManager) (heap : gmap string transactionHandle) (now : Z) (ts : list (string * task)).
Implicit Types (tok : string) (h : transactionHandle).

(** A registered handle is neither over nor has it a tombstone. *)
Lemma live_not_over o h : live h -> ~ over o h.
Proof. intros (?&_&_) (?&_). congruence. Qed.

(** A statement, or a write marked, on a handle not closed. *)
Lemma inv_handle tok h h' : inv m heap now ts -> heap !! tok = Some h -> h_closed h = false ->
  h_id h' = h_id h -> h_closed h' = false -> h_calls h' = h_calls h -> h_cancelled h' = h_cancelled h -> lock_ok h' ->
  inv m (<[tok := h']> heap) now ts.
Proof.
  intros [] Hh Hc Hid Hc' Hcs Hca Hlk.
  assert (live h -> live h') as Hlive by (unfold live; intuition congruence).
  assert (forall o, ~ over o h) as Hno by (intros o [? _]; congruence).
  split; try done.
  - intros x Hx. destruct (inv_registered0 x Hx) as (? & y & Hy & Hl). split; [done|].
    destruct (decide (x = tok)) as [->|]; [|by rewrite lookup_insert_ne; eauto].
    rewrite lookup_insert_eq. simplify_eq. eauto.
  - intros x t Hx. destruct (inv_task0 x t Hx) as (y & Hy & Ht).
    destruct (decide (x = tok)) as [->|]; [|by rewrite lookup_insert_ne; eauto].
    rewrite lookup_insert_eq. simplify_eq. exists h'. split; [done|]. destruct t; simpl in *; try by auto.
    + destruct Ht as [? Ht]. split; [by auto|]. destruct r; simpl in *; by rewrite ?Hid.
    + destruct Ht as [Ho _]. by destruct (Hno _ Ho).
  - intros x y Hy Hn1 Hn2. destruct (decide (x = tok)) as [->|]; [|rewrite lookup_insert_ne in Hy; eauto].
    destruct (inv_over0 tok h) as [o Ho]; naive_solver.
  - intros x t Ht. destruct (inv_tomb0 x t Ht) as (?&?&?&?& y & Hy & Hi). split_and!; try done.
    destruct (decide (x = tok)) as [->|]; [|by rewrite lookup_insert_ne; eauto].
    simplify_eq. destruct Hi as (_ & _ & Hi). by destruct (Hno _ Hi).
  - by eapply counted_upd.
  - by eapply counted_upd.
  - intros x y Hy. destruct (decide (x = tok)) as [->|]; [rewrite lookup_insert_eq in Hy; congruence|].
    rewrite lookup_insert_ne in Hy; eauto.
Qed.

(** Begin makes a handle. *)
Lemma inv_new tok h : inv m heap now ts -> heap !! tok = None -> live h -> lock_ok h ->
  inv m (<[tok := h]> heap) now ((tok, TAdd) :: ts).
Proof.
  intros [] Hh Hl Hlk.
  assert (tok ∉ m_handles m) as Hn1 by (intros Hx; destruct (inv_registered0 _ Hx) as (_ & y & ? & _); congruence).
  assert (tok ∉ ts.*1) as Hn2.
  { intros ([x t] & -> & Hx)%list_elem_of_fmap. destruct (inv_task0 x t Hx) as (y & Hy & _). simpl in Hh. congruence. }
  split; try done.
  - simpl. by constructor.
  - intros x Hx. destruct (inv_registered0 x Hx) as (? & y & Hy & Hl'). assert (x <> tok) by congruence. split.
    + simpl. rewrite not_elem_of_cons. done.
    + rewrite lookup_insert_ne by done. eauto.
  - intros x t [[= -> ->]|Hx]%elem_of_cons; [rewrite lookup_insert_eq; eauto|].
    destruct (inv_task0 x t Hx) as (y & Hy & Ht). rewrite lookup_insert_ne by congruence. eauto.
  - intros x y Hy Hx1 Hx2. simpl in Hx2. apply not_elem_of_cons in Hx2 as [? ?]. rewrite lookup_insert_ne in Hy; eauto.
  - intros x. rewrite inv_ending0. split; intros (t & Hx & Ht); exists t; [split; [by right|done]|].
    apply elem_of_cons in Hx as [[= -> ->]|Hx]; done.
  - intros x t Ht. destruct (inv_tomb0 x t Ht) as (?&?&?&?& y & Hy & Hi). assert (x <> tok) by congruence.
    split_and!; try done; [simpl; by rewrite not_elem_of_cons|]. rewrite lookup_insert_ne by done. eauto.
  - by apply counted_fresh.
  - by apply counted_fresh.
  - intros x y Hy. destruct (decide (x = tok)) as [->|]; [rewrite lookup_insert_eq in Hy; congruence|].
    rewrite lookup_insert_ne in Hy; eauto.
Qed.

(** The token of a task is not registered, nor in another task. *)
Lemma inv_head tok t : inv m heap now ((tok, t) :: ts) ->
  tok ∉ m_handles m /\ tok ∉ ts.*1 /\ m_tombstones m !! tok = None /\ exists h, heap !! tok = Some h /\ task_ok tok t h.
Proof.
  intros []. split_and!.
  - intros Hx. destruct (inv_registered0 _ Hx) as [Hn _]. apply Hn. simpl. left.
  - simpl in inv_nodup0. by apply NoDup_cons in inv_nodup0 as [? _].
  - destruct (_ !! tok) as [t'|] eqn:E; [|done]. destruct (inv_tomb0 _ _ E) as (_&_&Hn&_). simpl in Hn. set_solver.
  - apply inv_task0. left.
Qed.

(** A task goes on with its handle: only that handle changes. *)
Lemma inv_swap tok t t' h h' : inv m heap now ((tok, t) :: ts) -> heap !! tok = Some h -> h_id h' = h_id h ->
  ending_task t' = ending_task t -> task_ok tok t' h' -> lock_ok h' -> inv m (<[tok := h']> heap) now ((tok, t') :: ts).
Proof.
  intros Hi Hh Hid He Hok Hlk. destruct (inv_head _ _ Hi) as (Hn1 & Hn2 & Hn3 & _). destruct Hi. split; try done.
  - intros x Hx. destruct (inv_registered0 x Hx) as (? & y & Hy & Hl). split; [done|].
    rewrite lookup_insert_ne by (intros ->; done). eauto.
  - intros x t0 [[= -> ->]|Hx]%elem_of_cons; [rewrite lookup_insert_eq; eauto|].
    destruct (inv_task0 x t0) as (y & Hy & Ht); [by right|]. rewrite lookup_insert_ne; [eauto|].
    intros ->. apply Hn2, list_elem_of_fmap. by eexists (_, _).
  - intros x y Hy Hx1 Hx2. simpl in Hx2. apply not_elem_of_cons in Hx2 as [? ?]. rewrite lookup_insert_ne in Hy by done.
    eapply inv_over0; [done..|]. simpl. by rewrite not_elem_of_cons.
  - intros x. rewrite inv_ending0. split; intros (t0 & Hx & Ht).
    + apply elem_of_cons in Hx as [[= -> ->]|Hx]; [exists t'|exists t0]; (split; [set_solver|congruence]).
    + apply elem_of_cons in Hx as [[= -> ->]|Hx]; [exists t|exists t0]; (split; [set_solver|congruence]).
  - intros x t0 Ht. destruct (inv_tomb0 x t0 Ht) as (?&?&?&?& y & Hy & Hi).
    split_and!; try done. rewrite lookup_insert_ne by congruence. eauto.
  - by eapply counted_upd.
  - by eapply counted_upd.
  - intros x y Hy. destruct (decide (x = tok)) as [->|]; [rewrite lookup_insert_eq in Hy; congruence|].
    rewrite lookup_insert_ne in Hy; eauto.
Qed.

(** A task that is not recorded as ending leaves, its handle over. *)
Lemma inv_gone tok t o h h' : inv m heap now ((tok, t) :: ts) -> heap !! tok = Some h -> h_id h' = h_id h ->
  ending_task t = false -> over o h' -> lock_ok h' -> inv m (<[tok := h']> heap) now ts.
Proof.
  intros Hi Hh Hid He Hok Hlk. destruct (inv_head _ _ Hi) as (Hn1 & Hn2 & Hn3 & _). destruct Hi. split; try done.
  - simpl in inv_nodup0. by apply NoDup_cons in inv_nodup0 as [_ ?].
  - intros x Hx. destruct (inv_registered0 x Hx) as (? & y & Hy & Hl). split; [simpl in *; set_solver|].
    rewrite lookup_insert_ne by (intros ->; done). eauto.
  - intros x t0 Hx. destruct (inv_task0 x t0) as (y & Hy & Ht); [by right|]. rewrite lookup_insert_ne; [eauto|].
    intros ->. apply Hn2, list_elem_of_fmap. by eexists (_, _).
  - intros x y Hy Hx1 Hx2. destruct (decide (x = tok)) as [->|].
    + rewrite lookup_insert_eq in Hy. naive_solver.
    + rewrite lookup_insert_ne in Hy by done. eapply inv_over0; [done..|]. simpl. by rewrite not_elem_of_cons.
  - intros x. rewrite inv_ending0. split; intros (t0 & Hx & Ht); exists t0; (split; [|done]); [|by right].
    apply elem_of_cons in Hx as [[= -> ->]|Hx]; [congruence|done].
  - intros x t0 Ht. destruct (inv_tomb0 x t0 Ht) as (?&?&?&?& y & Hy & Hi).
    split_and!; try done; [simpl in *; set_solver|]. rewrite lookup_insert_ne by congruence. eauto.
  - by eapply counted_upd.
  - by eapply counted_upd.
  - intros x y Hy. destruct (decide (x = tok)) as [->|]; [rewrite lookup_insert_eq in Hy; congruence|].
    rewrite lookup_insert_ne in Hy; eauto.
Qed.

(** Begin registers its handle. *)
Lemma inv_add tok h m' h' : inv m heap now ((tok, TAdd) :: ts) -> heap !! tok = Some h ->
  addHandle now tok h m = inr (m', h') -> inv m' (<[tok := h']> heap) now ts.
Proof.
  intros Hi Hh. destruct (inv_head _ _ Hi) as (Hn1 & Hn2 & Hn3 & (h0 & Hh0 & Hl)).
  rewrite Hh in Hh0. injection Hh0 as <-. unfold addHandle. destruct (m_closed m); [done|].
  destruct (capacityLocked _ _ _); [done|]. intros [= <- <-]. destruct Hi.
  assert (forall {K} `{Countable K} (kf : identity -> K) c, counted kf c heap (m_handles m) ->
    counted kf (incr (kf (h_id h)) c) (<[tok := with_idle (m_idle m) (touch now h)]> heap) ({[tok]} ∪ m_handles m)) as Hc.
  { intros K ?? kf c Hc. eapply counted_upd; [done|done|]. by apply counted_incr. }
  split; simpl; try done; auto.
  - simpl in inv_nodup0. by apply NoDup_cons in inv_nodup0 as [_ ?].
  - intros x [Hx|Hx]%elem_of_union.
    + apply elem_of_singleton in Hx as ->. split; [done|]. rewrite lookup_insert_eq. eauto.
    + destruct (inv_registered0 x Hx) as (? & y & Hy & Hly). split; [simpl in *; set_solver|].
      rewrite lookup_insert_ne by (intros ->; done). eauto.
  - intros x t0 Hx. destruct (inv_task0 x t0) as (y & Hy & Ht); [by right|]. rewrite lookup_insert_ne; [eauto|].
    intros ->. apply Hn2, list_elem_of_fmap. by eexists (_, _).
  - intros x y Hy Hx1 Hx2. assert (x <> tok) by set_solver. rewrite lookup_insert_ne in Hy by done.
    eapply inv_over0; [done|set_solver|]. simpl. by rewrite not_elem_of_cons.
  - intros x. rewrite inv_ending0. split; intros (t0 & Hx & Ht); exists t0; (split; [|done]); [|by right].
    apply elem_of_cons in Hx as [[= -> ->]|Hx]; done.
  - intros x t0 Ht. destruct (inv_tomb0 x t0 Ht) as (?&?&?&?& y & Hy & Hi). assert (x <> tok) by congruence.
    split_and!; try done; [set_solver|simpl in *; set_solver|]. rewrite lookup_insert_ne by done. eauto.
  - intros x y Hy. destruct (decide (x = tok)) as [->|]; [|rewrite lookup_insert_ne in Hy; eauto].
    rewrite lookup_insert_eq in Hy. injection Hy as <-. apply (inv_lock0 _ _ Hh).
Qed.

(** A registered handle is dropped, its end left to a task. *)
Lemma inv_drop tok h t : inv m heap now ts -> heap !! tok = Some h -> tok ∈ m_handles m ->
  ending_task t = true -> (live h -> task_ok tok t h) -> inv (endingLocked tok h m) heap now ((tok, t) :: ts).
Proof.
  intros [] Hh Hin He Hok. destruct (inv_registered0 _ Hin) as (Hn & h0 & Hh0 & Hl). simplify_eq.
  split; simpl; try done.
  - by constructor.
  - intros x [Hx Hxt]%elem_of_difference. destruct (inv_registered0 x Hx) as (? & ?). split; [|done].
    rewrite not_elem_of_cons. set_solver.
  - intros x t0 [[= -> ->]|Hx]%elem_of_cons; eauto.
  - intros x y Hy Hx1 [Hx2 Hx3]%not_elem_of_cons. apply (inv_over0 x y); [done|set_solver|done].
  - intros x. rewrite elem_of_union, elem_of_singleton, inv_ending0. split.
    + intros [->|(t0 & ? & ?)]; [exists t|exists t0]; (split; [set_solver|done]).
    + intros (t0 & [[= -> ->]|?]%elem_of_cons & ?); eauto.
  - intros x t0 Ht. destruct (inv_tomb0 x t0 Ht) as (?&?&?&?&?). split_and!; try done; [set_solver|].
    rewrite not_elem_of_cons. split; [|done]. by intros ->.
  - by apply counted_decr.
  - by apply counted_decr.
Qed.

(** The outcome is recorded. *)
Lemma inv_bury tok h o r : inv m heap now ((tok, TBury o r) :: ts) -> heap !! tok = Some h ->
  inv (ended now tok h o m) heap now ts.
Proof.
  intros Hi Hh. destruct (inv_head _ _ Hi) as (Hn1 & Hn2 & Hn3 & (h0 & Hh0 & [Hov _])). simplify_eq. destruct Hi.
  set (t1 := mkTombstone tok (id_session (h_id h)) (id_scope (h_id h)) o now).
  destruct inv_buried0 as [Hnd Hdom].
  assert (tok ∉ m_buried m) as Hnb by (rewrite Hdom, Hn3; by intros [? ?]).
  assert (NoDup (m_buried m ++ [tok])) as Hnd'.
  { apply NoDup_app. split_and!; [done|set_solver|apply NoDup_singleton]. }
  assert (forall x t, <[tok := t1]> (m_tombstones m) !! x = Some t -> t_token t = x /\ x ∉ m_handles m /\
    x ∉ ts.*1 /\ t_at t <= now /\ exists h, heap !! x = Some h /\ identified t h) as Ht.
  { intros x t Hx. destruct (decide (x = tok)) as [->|].
    - rewrite lookup_insert_eq in Hx. injection Hx as <-. simpl. split_and!; try done; try lia. exists h. done.
    - rewrite lookup_insert_ne in Hx by done. destruct (inv_tomb0 x t Hx) as (?&?&Hx2&?&?).
      simpl in Hx2. apply not_elem_of_cons in Hx2 as [_ ?]. done. }
  assert (forall x, x ∈ m_buried m ++ [tok] <-> is_Some (<[tok := t1]> (m_tombstones m) !! x)) as Hdom'.
  { intros x. rewrite elem_of_app, list_elem_of_singleton, Hdom, lookup_insert_is_Some. destruct (decide (x = tok)); intuition congruence. }
  pose proof (buryLoop_lookup now _ (<[tok := t1]> (m_tombstones m)) Hnd') as Hb.
  specialize (Hb ltac:(intros x Hx; apply Hdom' in Hx as [t Hx]; destruct (Ht _ _ Hx) as [? _]; eauto)).
  pose proof (buryLoop_length now (<[tok := t1]> (m_tombstones m)) (m_buried m ++ [tok])) as Hlen.
  destruct (buryLoop_suffix now (<[tok := t1]> (m_tombstones m)) (m_buried m ++ [tok])) as [k Hk].
  unfold ended, buryLocked. simpl. fold t1. destruct (buryLoop _ _ _) as [ts' l']. simpl in *. split; simpl; try done.
  - by apply NoDup_cons in inv_nodup0 as [_ ?].
  - intros x Hx. destruct (inv_registered0 x Hx) as (? & ?). split; [set_solver|done].
  - intros x t0 Hx. apply inv_task0. by right.
  - intros x y Hy Hx1 Hx2. destruct (decide (x = tok)) as [->|]; [naive_solver|].
    eapply inv_over0; [done..|]. by rewrite not_elem_of_cons.
  - intros x. rewrite elem_of_difference, elem_of_singleton, inv_ending0. split.
    + intros [(t0 & [[= -> ->]|?]%elem_of_cons & ?) ?]; [done|eauto].
    + intros (t0 & Hx & ?). split; [exists t0; split; [by right|done]|]. intros ->.
      apply Hn2, list_elem_of_fmap. by eexists (_, _).
  - intros x t Hx. rewrite Hb in Hx. case_decide; [done|]. eauto.
  - subst l'. split; [eapply sublist_NoDup; [done|apply sublist_drop]|]. intros x. rewrite Hb. split.
    + intros Hx. rewrite decide_False by tauto. apply Hdom'. by eapply subseteq_drop.
    + intros [t Hx]. case_decide as Hd; [done|]. assert (x ∈ m_buried m ++ [tok]) by (apply Hdom'; eauto).
      destruct (decide (x ∈ drop k (m_buried m ++ [tok]))); tauto.
Qed.

End transitions.


(** * Transactions over time: what a token's transaction has left it does not
    go back to, finish's loop ends, and a closed manager drains. *)

(** ** How states evolve *)

(** Handles stay in the heap as what they were; of those already there, only one
    whose Begin has not registered it can become registered; a manager stays
    closed; time goes on. *)
Record evolves (w w' : world) : Prop := {
  ev_id : forall tok h, w_heap w !! tok = Some h -> exists h', w_heap w' !! tok = Some h' /\ h_id h' = h_id h;
  ev_add : forall tok, is_Some (w_heap w !! tok) -> (tok, TAdd) ∈ w_tasks w' -> (tok, TAdd) ∈ w_tasks w;
  ev_reg : forall tok, is_Some (w_heap w !! tok) -> tok ∈ m_handles (w_m w') ->
    tok ∈ m_handles (w_m w) \/ (tok, TAdd) ∈ w_tasks w;
  ev_closed : m_closed (w_m w) = true -> m_closed (w_m w') = true /\ m_handles (w_m w') ⊆ m_handles (w_m w);
  ev_now : w_now w <= w_now w';
}.

Lemma ev_heap w w' : evolves w w' -> forall tok, is_Some (w_heap w !! tok) -> is_Some (w_heap w' !! tok).
Proof. intros Hev tok [h Hh]. destruct (ev_id _ _ Hev _ _ Hh) as (h' & ? & _). eauto. Qed.

Lemma evolves_refl w : evolves w w.
Proof. split; eauto. lia. Qed.

Lemma evolves_trans w1 w2 w3 : evolves w1 w2 -> evolves w2 w3 -> evolves w1 w3.
Proof.
  intros H12 H23. pose proof (ev_heap _ _ H12). destruct H12, H23. split; auto.
  - intros tok h Hh. destruct (ev_id0 _ _ Hh) as (h' & Hh' & E). destruct (ev_id1 _ _ Hh') as (h2 & ? & ?). exists h2. split; [done|congruence].
  - intros tok Hs Hin. destruct (ev_reg1 tok); auto.
  - intros Hc. destruct (ev_closed0 Hc) as [Hc' ?]. destruct (ev_closed1 Hc') as [? ?]. split; [done|]. set_solver.
  - lia.
Qed.

(** Steps that leave handles, heap tokens and unregistered tasks alone. *)
Lemma evolves_same w w' : (forall tok h, w_heap w !! tok = Some h -> exists h', w_heap w' !! tok = Some h' /\ h_id h' = h_id h) ->
  (forall tok, is_Some (w_heap w !! tok) -> (tok, TAdd) ∈ w_tasks w' -> (tok, TAdd) ∈ w_tasks w) ->
  m_handles (w_m w') ⊆ m_handles (w_m w) -> (m_closed (w_m w) = true -> m_closed (w_m w') = true) -> w_now w <= w_now w' -> evolves w w'.
Proof. intros H1 H2 H3 H4 H5. split; auto. Qed.

Lemma evolves_quiet w w' : w_heap w' = w_heap w -> w_tasks w' = w_tasks w -> m_handles (w_m w') = m_handles (w_m w) ->
  (m_closed (w_m w) = true -> m_closed (w_m w') = true) -> w_now w <= w_now w' -> evolves w w'.
Proof. intros E1 E2 E3 E4 E5. apply evolves_same; rewrite ?E1, ?E2, ?E3; eauto. Qed.

Lemma evolves_insert w tok h h' : w_heap w !! tok = Some h -> h_id h' = h_id h ->
  forall x y, w_heap w !! x = Some y -> exists y', <[tok := h']> (w_heap w) !! x = Some y' /\ h_id y' = h_id y.
Proof.
  intros Hh Hid x y Hy. destruct (decide (tok = x)) as [<-|]; [rewrite lookup_insert_eq|rewrite lookup_insert_ne by done; eauto].
  exists h'. split; [done|congruence].
Qed.

Lemma tasks_put {A} (ts : list A) i y x : x ∈ <[i := y]> ts -> x = y \/ x ∈ ts.
Proof.
  intros [j Hj]%list_elem_of_lookup. apply list_lookup_insert_Some in Hj as [(_ & -> & _)|[_ Hj]]; [by left|].
  right. by eapply list_elem_of_lookup_2.
Qed.

Lemma tasks_del {A} (ts : list A) i x : x ∈ delete i ts -> x ∈ ts.
Proof. intros Hx. eapply elem_of_submseteq; [done|]. apply sublist_submseteq, sublist_delete. Qed.

Lemma addHandle_inr now tok h m m' h' : addHandle now tok h m = inr (m', h') ->
  m_closed m = false /\ capacityLocked (id_scope (h_id h)) (id_connection (h_id h)) m = None /\
  m' = with_handles ({[tok]} ∪ m_handles m) (incr (id_scope (h_id h)) (m_open m))
         (incr (id_connection (h_id h)) (m_byConnection m)) m /\
  h' = with_idle (m_idle m) (touch now h).
Proof. unfold addHandle. destruct (m_closed m); [done|]. destruct (capacityLocked _ _ m); [done|]. by intros [= <- <-]. Qed.

Lemma endLocked_evolves tok o r w : evolves w (endLocked tok o r w).
Proof.
  unfold endLocked. destruct (w_heap w !! tok) as [h|] eqn:Hh; [|apply evolves_refl].
  apply evolves_same; simpl; eauto; [|set_solver|lia].
  intros x _ [?|Hx]%elem_of_app; [done|]. apply list_elem_of_singleton in Hx. congruence.
Qed.

Lemma end_evolves tok o r w : evolves w (end_ tok o r w).
Proof. unfold end_. case_decide; [apply endLocked_evolves|apply evolves_refl]. Qed.

Lemma endAll_evolves l w : evolves w (foldl (fun w tok => endLocked tok OutcomeRolledBack RNone w) w l).
Proof.
  revert w. induction l as [|tok l IH]; intros w; simpl; [apply evolves_refl|].
  eapply evolves_trans; [apply endLocked_evolves|apply IH].
Qed.

Lemma lookup_evolves p tok c ds conns gone w : evolves w (lookup p tok c ds conns gone w).1.
Proof. unfold lookup. repeat case_match; try apply evolves_refl; apply end_evolves. Qed.

Lemma handle_finish_id a commit h : h_id (handle_finish a commit h).1 = h_id h.
Proof. unfold handle_finish. by repeat case_match. Qed.

Lemma runTask_evolves i a w : evolves w (runTask i a w).1.
Proof.
  unfold runTask. destruct (w_tasks w !! i) as [[tok t]|] eqn:Hi; [|apply evolves_refl].
  destruct (w_heap w !! tok) as [h|] eqn:Hh; [|apply evolves_refl].
  destruct t as [| e | o r | commit | o r].
  - destruct (addHandle _ _ _ _) as [e|[m h']] eqn:Ha.
    + apply evolves_same; simpl; eauto; [|lia]. intros x _ [?|?]%tasks_put; [congruence|done].
    + apply addHandle_inr in Ha as (Hcl & _ & -> & ->). split; simpl; [by eapply evolves_insert|by intros x _ ?%tasks_del| |congruence|lia].
      intros x _ [Hx|?]%elem_of_union; [|by left]. apply elem_of_singleton in Hx as ->. right. by eapply list_elem_of_lookup_2.
  - destruct (h_locked h); [apply evolves_refl|]. apply evolves_same; simpl; auto; [by eapply evolves_insert|by intros x _ ?%tasks_del|lia].
  - destruct (h_locked h); [apply evolves_refl|]. apply evolves_same; simpl; auto; [by eapply evolves_insert| |lia].
    intros x _ [?|?]%tasks_put; [congruence|done].
  - destruct (h_locked h); [apply evolves_refl|]. pose proof (handle_finish_id a commit h) as Hid.
    destruct (handle_finish _ _ _) as [h' [o [targets err]]].
    apply evolves_same; simpl; auto; [by eapply evolves_insert| |lia]. intros x _ [?|?]%tasks_put; [congruence|done].
  - apply evolves_same; simpl; eauto; [by intros x _ ?%tasks_del| | |lia]; unfold ended, buryLocked; by destruct (buryLoop _ _ _).
Qed.

Lemma evolves_calls w w' (f : gmap nat tokenCall -> gmap nat tokenCall) : evolves w w' -> evolves w (set_calls f w').
Proof. intros []. by split. Qed.

Lemma runCall_evolves id gone w : evolves w (runCall id gone w).1.
Proof.
  unfold runCall. destruct (w_calls w !! id) as [f|]; [|apply evolves_refl]. destruct (f_point f) as [p|].
  - pose proof (lookup_evolves p (f_token f) (f_caller f) (f_datasource f) (f_connections f) gone w) as Hl.
    destruct (lookup _ _ _ _ _ _ _) as [w' []]; simpl in *; try by apply evolves_calls.
    destruct (f_use f); [|by apply evolves_calls]. apply evolves_calls. destruct Hl. by split.
  - destruct (f_use f); [apply evolves_calls, evolves_refl|].
    destruct (w_heap w !! f_token f) as [h|] eqn:Hh; [|apply evolves_calls, evolves_refl].
    case_decide; [|apply evolves_calls, evolves_refl].
    apply evolves_calls, evolves_same; simpl; eauto; [|set_solver|lia].
    intros x _ [?|Hx]%elem_of_app; [done|]. apply list_elem_of_singleton in Hx. congruence.
Qed.

Lemma update_evolves tok f w : (forall h h', f h = inr h' -> h_id h' = h_id h) -> evolves w (update_handle tok f w).1.
Proof.
  intros Hf. unfold update_handle. destruct (w_heap w !! tok) as [h|] eqn:Hh; [|apply evolves_refl].
  destruct (f h) eqn:Ef; [apply evolves_refl|]. apply evolves_same; simpl; auto; [|lia]. eapply evolves_insert; eauto.
Qed.

Lemma step_evolves o w : evolves w (step o w).1.
Proof.
  destruct o; simpl; try (by apply evolves_quiet; simpl; auto; lia).
  - destruct (checkBeginCapacity _ _ _); apply evolves_quiet; simpl; auto; lia.
  - destruct (w_opening w !! i) as [[[c n] ds]|]; [|apply evolves_refl]. destruct (beginTransaction _) as [[e|] l]; [apply evolves_quiet; simpl; auto; lia|].
    simpl. destruct (w_heap w !! token) eqn:Hh; [apply evolves_refl|]. apply evolves_same; simpl; auto; [| |lia].
    + intros x y Hx. rewrite lookup_insert_ne by congruence. eauto.
    + intros x Hx [?|Hin]%elem_of_app; [done|]. apply list_elem_of_singleton in Hin. destruct Hx. congruence.
  - apply runTask_evolves.
  - destruct gone; apply evolves_quiet; simpl; auto; lia.
  - apply runCall_evolves.
  - destruct (_ && _); [apply update_evolves|apply evolves_refl]. unfold startStatement. intros h h'. case_match; by intros [= <-].
  - destruct (is_locked _ _); [|apply evolves_refl].
    pose proof (update_evolves token (fun h => inr (endStatement (w_now w) h)) w ltac:(by intros h h' [= <-])) as []. by split.
  - destruct (w_failed w !! i); [|apply evolves_refl]. pose proof (end_evolves s OutcomeRolledBack RNone w) as []. by split.
  - destruct (_ && _); [apply update_evolves|apply evolves_refl]. unfold markDirty. intros h h'. case_match; by intros [= <-].
  - repeat case_match; try apply evolves_refl; apply end_evolves.
  - destruct (w_heap w !! token) as [h|] eqn:Hh; [|apply evolves_refl]. destruct (0 <? h_idle h); [|apply evolves_refl].
    unfold checkIdle. simpl. rewrite Hh. repeat case_match; try apply evolves_refl; apply endLocked_evolves.
  - unfold RollbackSession. destruct (String.eqb _ _); [apply evolves_refl|apply endAll_evolves].
  - unfold Close. destruct (m_closed (w_m w)) eqn:Hc; [apply evolves_refl|].
    eapply evolves_trans; [|apply endAll_evolves]. apply evolves_quiet; simpl; auto; lia.
Qed.

Lemma run_evolves os w : evolves w (run os w).
Proof.
  revert w. induction os as [|o os IH]; intros w; simpl; [apply evolves_refl|].
  eapply evolves_trans; [apply step_evolves|apply IH].
Qed.

(** ** The calls under way *)

(** Begin returned the token. *)
Definition issued (tok : string) (w : world) : Prop := is_Some (w_heap w !! tok) /\ (tok, TAdd) ∉ w_tasks w.

Lemma issued_stays tok w w' : evolves w w' -> issued tok w -> issued tok w'.
Proof. intros Hev (Hs & Ha). split; [by eapply ev_heap|]. intros ?. by eapply Ha, ev_add. Qed.

Lemma registered_issued tok w : good w -> tok ∈ m_handles (w_m w) -> issued tok w.
Proof.
  intros Hw Hin. destruct (inv_registered _ _ _ _ Hw tok Hin) as (Hn & h & Hh & _). split; [eauto|].
  intros Ht. apply Hn, list_elem_of_fmap. by eexists (_, _).
Qed.

(** The handle of the token is of caller [c]'s session and scope. *)
Definition belongs (tok : string) (c : Caller) (w : world) : Prop :=
  exists h, w_heap w !! tok = Some h /\ id_session (h_id h) = C_Session c /\ id_scope (h_id h) = scope c.

(** The time it was to end has passed. *)
Definition pastExpiry (tok : string) (w : world) : Prop :=
  exists h e, w_heap w !! tok = Some h /\ id_expires (h_id h) = Some e /\ e < w_now w.

(** What a call knows of the handle it read. *)
Definition callOk (f : tokenCall) (w : world) : Prop :=
  match f_point f with
  | FLookup LCheck => issued (f_token f) w
  | FLookup LExpire => issued (f_token f) w /\ belongs (f_token f) (f_caller f) w /\ pastExpiry (f_token f) w
  | FDrop => issued (f_token f) w /\ belongs (f_token f) (f_caller f) w
  | _ => True
  end.

Definition callsOk (w : world) : Prop :=
  forall id f, w_calls w !! id = Some f -> (id < w_next w)%nat /\ callOk f w.

Lemma belongs_stays tok c w w' : evolves w w' -> belongs tok c w -> belongs tok c w'.
Proof. intros Hev (h & Hh & ?). destruct (ev_id _ _ Hev _ _ Hh) as (h' & Hh' & E). exists h'. by rewrite E. Qed.

Lemma pastExpiry_stays tok w w' : evolves w w' -> pastExpiry tok w -> pastExpiry tok w'.
Proof.
  intros Hev (h & e & Hh & He & Hlt). destruct (ev_id _ _ Hev _ _ Hh) as (h' & Hh' & E). pose proof (ev_now _ _ Hev).
  exists h', e. rewrite E. split_and!; [done|done|lia].
Qed.

Lemma callOk_stays f w w' : evolves w w' -> callOk f w -> callOk f w'.
Proof.
  intros Hev. unfold callOk. pose proof (issued_stays (f_token f) _ _ Hev). pose proof (belongs_stays (f_token f) (f_caller f) _ _ Hev).
  pose proof (pastExpiry_stays (f_token f) _ _ Hev). destruct (f_point f) as [[]|]; tauto.
Qed.

(** What one section of a lookup leaves: nothing is changed but by expiring the
    handle, and where it goes on it knows what it read. *)
Lemma lookup_next p f gone w : good w -> callOk f w -> f_point f = FLookup p ->
  let '(w', l) := lookup p (f_token f) (f_caller f) (f_datasource f) (f_connections f) gone w in
  match l with
  | LMore p' => w' = w /\ callOk (with_point (FLookup p') f) w
  | LFound => w' = w /\ p = LCheck /\ callOk (with_point FDrop f) w
  | LRefused _ => w' = w
  | LExpired => p = LExpire /\ f_token f ∈ m_handles (w_m w) /\
      w' = endLocked (f_token f) OutcomeExpired (RRefused (f_token f) (f_caller f) (TransactionEndedError OutcomeExpired)) w
  end.
Proof.
  intros Hw Hok Hp. unfold callOk in Hok. rewrite Hp in Hok. destruct p; simpl.
  - split; [done|]. unfold callOk. simpl. repeat case_decide; simpl; try done. by apply registered_issued.
  - destruct gone; [done|]. split; [done|]. unfold callOk. simpl. by case_decide.
  - done.
  - destruct (w_heap w !! f_token f) as [h|] eqn:Hh; [|done]. destruct (_ || _) eqn:E1; [done|]. 
    match goal with |- context [if ?b then (w, LRefused ErrTransactionStale) else _] => destruct b; [done|] end.
    apply orb_false_iff in E1 as [[E1 E2]%orb_false_iff _]. apply negb_false_iff, String.eqb_eq in E1, E2.
    assert (belongs (f_token f) (f_caller f) w) as Hb by (exists h; auto).
    destruct (id_expires (h_id h)) as [e|] eqn:Ee; [destruct (Z.ltb_spec e (w_now w))|]; (split; [done|]); try (split; [done|]); unfold callOk; simpl; try done.
    split_and!; try done. exists h, e. auto.
  - case_decide; [|done]. split_and!; try done. unfold expire, end_. by rewrite decide_True.
Qed.

(** * What the transaction manager promises, in every state its critical
    sections reach. *)

(** ** Every step keeps the invariant *)

Lemma good_push m heap now ts x : inv m heap now (x :: ts) -> inv m heap now (ts ++ [x]).
Proof. apply inv_perm, Permutation_cons_append. Qed.

Lemma good_pick m heap now ts i x : ts !! i = Some x -> inv m heap now ts -> inv m heap now (x :: delete i ts).
Proof. intros Hi. by apply inv_perm, delete_Permutation. Qed.

Lemma good_put m heap now (ts : list (string * task)) i x y : ts !! i = Some x ->
  inv m heap now (y :: delete i ts) -> inv m heap now (<[i := y]> ts).
Proof.
  intros Hi. apply inv_perm. rewrite insert_take_drop by by eapply lookup_lt_Some.
  rewrite delete_take_drop. by rewrite Permutation_middle.
Qed.

Lemma good_endLocked tok o r w : good w -> tok ∈ m_handles (w_m w) -> (forall h, w_heap w !! tok = Some h -> told tok r o h) ->
  good (endLocked tok o r w).
Proof.
  intros Hw Hin Ho. unfold endLocked. destruct (w_heap w !! tok) as [h|] eqn:Hh; [|done].
  unfold good. simpl. apply good_push, inv_drop; simpl; auto.
Qed.

Lemma good_end tok o w : good w -> o = OutcomeRolledBack \/ o = OutcomeExpired -> good (end_ tok o RNone w).
Proof. intros. unfold end_. case_decide; [by apply good_endLocked|done]. Qed.

Lemma endLocked_handles tok o r w : good w -> tok ∈ m_handles (w_m w) ->
  m_handles (w_m (endLocked tok o r w)) = m_handles (w_m w) ∖ {[tok]} /\ w_heap (endLocked tok o r w) = w_heap w.
Proof.
  intros Hw Hin. destruct (inv_registered _ _ _ _ Hw tok Hin) as (_ & h & Hh & _). unfold endLocked. by rewrite Hh.
Qed.

(** RollbackSession and Close end the handles of a list. *)
Lemma good_endAll l : forall w, good w -> NoDup l -> (forall tok, tok ∈ l -> tok ∈ m_handles (w_m w)) ->
  good (foldl (fun w tok => endLocked tok OutcomeRolledBack RNone w) w l).
Proof.
  induction l as [|tok l IH]; intros w Hw Hl Hin; simpl; [done|]. apply NoDup_cons in Hl as [Hn Hl].
  pose proof (Hin tok ltac:(left)) as Ht. destruct (endLocked_handles tok OutcomeRolledBack RNone w Hw Ht) as [E _].
  apply IH; [apply good_endLocked; simpl; auto|done|]. intros x Hx. rewrite E. apply elem_of_difference.
  split; [apply Hin; by right|]. rewrite elem_of_singleton. by intros ->.
Qed.

Lemma good_RollbackSession session w : good w -> good (RollbackSession session w).
Proof.
  intros Hw. unfold RollbackSession. destruct (String.eqb _ _); [done|]. apply good_endAll; [done|..].
  - apply NoDup_filter, NoDup_elements.
  - intros tok [_ Ht]%list_elem_of_filter. by apply elem_of_elements.
Qed.

Lemma good_Close w : good w -> good (Close w).
Proof.
  intros Hw. unfold Close. destruct (m_closed _); [done|]. apply good_endAll; [|apply NoDup_elements|].
  - by eapply (inv_limits (w_m w)).
  - intros tok. by rewrite elem_of_elements.
Qed.

Lemma good_runTask i a w : good w -> good (runTask i a w).1.
Proof.
  intros Hw. unfold runTask. destruct (w_tasks w !! i) as [[tok t]|] eqn:Hi; [|done].
  destruct (w_heap w !! tok) as [h|] eqn:Hh; [|done]. pose proof (inv_lock _ _ _ _ Hw _ _ Hh) as [Hr Hc].
  pose proof (good_pick _ _ _ _ _ _ Hi Hw) as Hp. destruct (inv_head _ _ _ _ _ _ Hp) as (_&_&_& h0 & Hh0 & Hok).
  rewrite Hh in Hh0. injection Hh0 as <-. destruct t as [| e | o r | commit | o r]; simpl in Hok.
  - destruct (addHandle _ _ _ _) as [e|[m h']] eqn:Ha; unfold good; simpl.
    + eapply good_put; [done|]. rewrite <- (insert_id (w_heap w) tok h) by done. by eapply inv_swap.
    + by eapply inv_add.
  - destruct (h_locked h) eqn:Hl; [done|]. unfold good; simpl. eapply (inv_gone _ _ _ _ _ _ OutcomeRolledBack); try done.
    + by apply abort_over; auto.
    + split; simpl; by rewrite Hl.
  - destruct (h_locked h) eqn:Hl; [done|]. destruct Hok as [Hok Ho]. unfold good; simpl. eapply good_put; [done|].
    eapply inv_swap; try done; simpl; [split; [apply abort_over; [done..|by eapply told_ends]|by eapply told_fits]|]. split; simpl; by rewrite Hl.
  - destruct (h_locked h) eqn:Hl; [done|]. destruct (handle_finish a commit h) as [h' [o [targets err]]] eqn:Hf.
    destruct (finish_over tok _ _ _ _ _ _ _ Hok Hl Hf) as (Hid & Hr' & Hov & Hrep). unfold good; simpl.
    eapply good_put; [done|]. eapply inv_swap; try done. pose proof Hov as (_&_&_&Hl'). split; rewrite Hl'; [congruence|done].
  - unfold good; simpl. by eapply inv_bury.
Qed.

Lemma good_runCall id gone w : good w -> callsOk w -> good (runCall id gone w).1.
Proof.
  intros Hw Hc. unfold runCall. destruct (w_calls w !! id) as [f|] eqn:Hf; [|done]. destruct (Hc _ _ Hf) as [_ Hok].
  destruct (f_point f) as [p|] eqn:Hp.
  - pose proof (lookup_next p f gone w Hw Hok Hp) as Hl. destruct (lookup _ _ _ _ _ _ _) as [w' []]; simpl.
    + by destruct Hl as [-> _].
    + destruct Hl as (-> & _). by destruct (f_use f).
    + by subst w'.
    + destruct Hl as (-> & Hin & ->). unfold callOk in Hok. rewrite Hp in Hok. destruct Hok as (_ & (h & Hh & ? & ?) & _).
      change (good (endLocked (f_token f) OutcomeExpired (RRefused (f_token f) (f_caller f) (TransactionEndedError OutcomeExpired)) w)).
      apply good_endLocked; [done..|]. intros h' Hh'. rewrite Hh in Hh'. by injection Hh' as <-.
  - destruct (f_use f); [done|]. destruct (w_heap w !! f_token f) as [h|] eqn:Hh; [|done]. case_decide; [|done].
    unfold good; simpl. apply good_push, inv_drop; simpl; auto.
Qed.

(** A section of a handle whose mutex is free, or is released. *)
Lemma good_update tok (f : transactionHandle -> txError + transactionHandle) w : good w ->
  (forall h h', w_heap w !! tok = Some h -> lock_ok h -> f h = inr h' -> h_closed h = false /\ h_id h' = h_id h /\
     h_closed h' = false /\ h_calls h' = h_calls h /\ h_cancelled h' = h_cancelled h /\ lock_ok h') ->
  good (update_handle tok f w).1.
Proof.
  intros Hw Hf. unfold update_handle. destruct (w_heap w !! tok) as [h|] eqn:Hh; [|done].
  destruct (f h) as [e|h'] eqn:E; [done|].
  destruct (Hf h h' eq_refl (inv_lock _ _ _ _ Hw _ _ Hh) E) as (?&?&?&?&?&?). unfold good; simpl. by eapply inv_handle.
Qed.

Lemma good_start tok w : good w -> is_locked tok w = false -> good (update_handle tok (startStatement (w_now w)) w).1.
Proof.
  intros Hw Hl. apply good_update; [done|]. intros h h' Hh [Hr _]. unfold is_locked in Hl. rewrite Hh in Hl.
  unfold startStatement. destruct (h_closed h) eqn:Hc; intros [=]; subst. unfold lock_ok. simpl. rewrite Hl in Hr.
  split_and!; try done. lia.
Qed.

Lemma good_stop tok w : good w -> is_locked tok w = true ->
  good (update_handle tok (fun h => inr (endStatement (w_now w) h)) w).1.
Proof.
  intros Hw Hl. apply good_update; [done|]. intros h h' Hh [Hr Hc] [=]; subst. unfold is_locked in Hl. rewrite Hh in Hl.
  rewrite Hl in Hr. unfold lock_ok. simpl. split_and!; auto; try done. lia.
Qed.

Lemma good_mark tok targets w : good w -> good (update_handle tok (markDirty targets) w).1.
Proof.
  intros Hw. apply good_update; [done|]. intros h h' Hh [Hr Hc]. unfold markDirty.
  destruct (h_closed h) eqn:Hcl; intros [=]; subst. by unfold lock_ok.
Qed.

Lemma step_good o w : good w -> callsOk w -> good (step o w).1.
Proof.
  intros Hw Hcalls. destruct o; simpl; try (by eapply (inv_limits (w_m w) _ _ (w_now w)); simpl; try lia).
  - by destruct (checkBeginCapacity _ _ _).
  - destruct (w_opening w !! i) as [[[c n] ds]|]; [|done]. destruct (beginTransaction _) as [[e|] l]; [done|]. simpl.
    destruct (w_heap w !! token) eqn:Hh; [done|]. unfold good; simpl. apply good_push. by apply inv_new.
  - by apply good_runTask.
  - by destruct gone.
  - by apply good_runCall.
  - destruct (bool_decide _); [|done]. destruct (is_locked token w) eqn:E; [done|]. by apply good_start.
  - destruct (is_locked token w) eqn:E; [|done]. by apply good_stop.
  - destruct (w_failed w !! i); [|done]. apply (good_end _ _ w); auto.
  - destruct (bool_decide _); [|done]. destruct (is_locked token w) eqn:E; [done|]. by apply good_mark.
  - destruct (w_heap w !! token) as [h|]; [|done]. case_match; [|done]. apply good_end; auto.
  - destruct (w_heap w !! token) as [h|] eqn:Hh; [|done]. destruct (0 <? h_idle h); [|done]. unfold checkIdle. simpl.
    rewrite Hh. case_decide; [|done]. destruct (0 <? _); [done|]. apply good_endLocked; simpl; auto.
  - by apply good_RollbackSession.
  - by apply good_Close.
Qed.

Lemma endAll_calls l w : let w' := foldl (fun w tok => endLocked tok OutcomeRolledBack RNone w) w l in
  w_calls w' = w_calls w /\ w_next w' = w_next w.
Proof.
  revert w. induction l as [|x l IH]; intros w; simpl; [done|]. destruct (IH (endLocked x OutcomeRolledBack RNone w)) as [-> ->].
  unfold endLocked. by destruct (w_heap w !! x).
Qed.

Lemma end_calls tok o r w : w_calls (end_ tok o r w) = w_calls w /\ w_next (end_ tok o r w) = w_next w.
Proof. unfold end_, endLocked. by repeat case_match. Qed.

(** A section of a call changes that call only. *)
Lemma runCall_calls id gone w : good w -> callsOk w -> w_next (runCall id gone w).1 = w_next w /\
  (forall j, j <> id -> w_calls (runCall id gone w).1 !! j = w_calls w !! j) /\
  (forall f', w_calls (runCall id gone w).1 !! id = Some f' -> is_Some (w_calls w !! id) /\ callOk f' w).
Proof.
  intros Hw Hc. unfold runCall. destruct (w_calls w !! id) as [f|] eqn:Hf; [|split_and!; simpl; try done; by rewrite Hf].
  destruct (Hc _ _ Hf) as [_ Hok]. destruct (f_point f) as [p|] eqn:Hp.
  - pose proof (lookup_next p f gone w Hw Hok Hp) as Hl. destruct (lookup _ _ _ _ _ _ _) as [w' []]; simpl in *.
    + destruct Hl as [-> Hl]. split_and!; [done|intros j Hj; by rewrite lookup_insert_ne|]. intros f'. rewrite lookup_insert_eq. intros [= <-]. eauto.
    + destruct Hl as (-> & _ & Hl). destruct (f_use f); simpl.
      * split_and!; [done|intros j Hj; by rewrite lookup_delete_ne|]. by rewrite lookup_delete_eq.
      * split_and!; [done|intros j Hj; by rewrite lookup_insert_ne|]. intros f'. rewrite lookup_insert_eq. intros [= <-]. eauto.
    + subst w'. split_and!; [done|intros j Hj; by rewrite lookup_delete_ne|]. by rewrite lookup_delete_eq.
    + destruct Hl as (-> & _ & ->). unfold endLocked. destruct (w_heap w !! f_token f); simpl;
        (split_and!; [done|intros j Hj; by rewrite lookup_delete_ne|by rewrite lookup_delete_eq]).
  - assert (callOk (with_point (FLookup LRead) f) w) as Hr by done.
    destruct (f_use f); [|destruct (w_heap w !! f_token f); [case_decide|]]; simpl; (split_and!; [done|intros j Hj; rewrite ?lookup_insert_ne, ?lookup_delete_ne; done|]);
      intros f'; rewrite ?lookup_insert_eq, ?lookup_delete_eq; try done; intros [= <-]; eauto.
Qed.

(** Every other step leaves the calls as they are, or starts one. *)
Lemma step_calls o w : (forall id gone, o <> OCall id gone) ->
  (w_calls (step o w).1 = w_calls w /\ w_next (step o w).1 = w_next w) \/
  exists f, f_point f = FLookup LRead /\ w_calls (step o w).1 = <[w_next w := f]> (w_calls w) /\ w_next (step o w).1 = S (w_next w).
Proof.
  intros Ho. destruct o; simpl; try (left; by split); try (right; eexists; split; [|by split]; done).
  - left. by destruct (checkBeginCapacity _ _ _).
  - left. by repeat case_match.
  - left. unfold runTask. by repeat case_match.
  - destruct gone; [by left|right; eexists; split; [|by split]; done].
  - by destruct (Ho id gone).
  - left. unfold update_handle. by repeat case_match.
  - left. unfold update_handle. by repeat case_match.
  - left. destruct (w_failed w !! i); [apply end_calls|done].
  - left. unfold update_handle. by repeat case_match.
  - left. repeat case_match; try done; apply end_calls.
  - left. unfold checkIdle, endLocked. by repeat case_match.
  - left. unfold RollbackSession. case_match; [done|apply endAll_calls].
  - left. unfold Close. case_match; [done|]. destruct (endAll_calls (elements (m_handles (w_m w))) (set_m with_closed w)) as [-> ->]. done.
Qed.

Lemma classify o : (exists id gone, o = OCall id gone) \/ forall id gone, o <> OCall id gone.
Proof. destruct o; try (right; done). left. eauto. Qed.

Lemma step_callsOk o w : good w -> callsOk w -> callsOk (step o w).1.
Proof.
  intros Hw Hc id f Hf. pose proof (step_evolves o w) as Hev.
  destruct (classify o) as [(j & gone & ->)|Ho].
  - destruct (runCall_calls j gone w Hw Hc) as (Hn & Hother & Hown). simpl in *. rewrite Hn.
    destruct (decide (id = j)) as [->|Hne].
    + destruct (Hown _ Hf) as [[g Hg] Hok]. split; [by apply (Hc _ _ Hg)|by eapply callOk_stays].
    + rewrite Hother in Hf by done. destruct (Hc _ _ Hf). split; [done|by eapply callOk_stays].
  - destruct (step_calls o w Ho) as [[Ec En]|(g & Hg & Ec & En)]; rewrite Ec in Hf; rewrite En.
    + destruct (Hc _ _ Hf). split; [done|by eapply callOk_stays].
    + apply lookup_insert_Some in Hf as [[<- <-]|[Hne Hf]]; [split; [lia|unfold callOk; by rewrite Hg]|].
      destruct (Hc _ _ Hf). split; [lia|by eapply callOk_stays].
Qed.

Lemma run_good os w : good w -> callsOk w -> good (run os w) /\ callsOk (run os w).
Proof. revert w. induction os as [|o os IH]; intros w Hw Hc; simpl; [done|]. apply IH; [by apply step_good|by apply step_callsOk]. Qed.

(** A state the manager reaches from its creation. *)
Definition reachable (w : world) : Prop := exists ttl maxOpen now os, w = run os (initial ttl maxOpen now).

Lemma reachable_sound w : reachable w -> good w /\ callsOk w.
Proof. intros (ttl & maxOpen & now & os & ->). apply run_good; [apply inv_initial|]. intros id f. simpl. by rewrite lookup_empty. Qed.

Lemma reachable_good w : reachable w -> good w.
Proof. intros Hw. by apply reachable_sound. Qed.

(** ** Outcomes *)

(** A tombstone says how the transaction of its caller ended. *)
Lemma endedError_truthful w tok c o : good w -> endedError (w_now w) tok c (w_m w) = TransactionEndedError o ->
  exists h, w_heap w !! tok = Some h /\ id_session (h_id h) = C_Session c /\ id_scope (h_id h) = scope c /\
    h_closed h = true /\ ends o (h_calls h).
Proof.
  intros Hw. unfold endedError. destruct (m_tombstones _ !! tok) as [t|] eqn:Ht; [|done].
  destruct (_ <=? _); [done|]. destruct (String.eqb (t_session t) _) eqn:E1; [|done].
  destruct (String.eqb (t_scope t) _) eqn:E2; [|done]. simpl. intros [= <-].
  apply String.eqb_eq in E1, E2. destruct (inv_tomb _ _ _ _ Hw _ _ Ht) as (_&_&_&_& h & Hh & Hs & Hsc & Ho).
  exists h. destruct Ho as (?&?&?&?). split_and!; congruence.
Qed.

(** Where a lookup is refused: by a section of the call, or when the rollback
    it began is recorded. *)
Lemma refused_from op w w' tok c e : step op w = (w', RRefused tok c e) ->
  (exists id gone f p, op = OCall id gone /\ w_calls w !! id = Some f /\ f_point f = FLookup p /\ tok = f_token f /\ c = f_caller f /\
     (lookup p (f_token f) (f_caller f) (f_datasource f) (f_connections f) gone w).2 = LRefused e) \/
  (exists i a o tok' h, op = OTask i a /\ w_tasks w !! i = Some (tok', TBury o (RRefused tok c e)) /\ w_heap w !! tok' = Some h /\ w_heap w' = w_heap w).
Proof.
  destruct op; simpl; unfold update_handle; try (by repeat case_match; simplify_eq/=).
  - unfold runTask. destruct (w_tasks w !! i) as [[tok' t]|] eqn:Hi; [|done]. destruct (w_heap w !! tok') as [h|] eqn:Hh; [|done].
    destruct t; try (by repeat case_match; simplify_eq/=). intros [= <- ->]. right. exists i, a, o, tok', h. split_and!; try done.
  - unfold runCall. destruct (w_calls w !! id) as [f|] eqn:Hf; [|done]. destruct (f_point f) as [p|] eqn:Hp.
    + destruct (lookup _ _ _ _ _ _ _) as [w1 []] eqn:Hl; simpl; try (by repeat case_match; simplify_eq/=).
      intros [= _ <- <- <-]. left. exists id, gone, f, p. split_and!; try done. by rewrite Hl.
    + by repeat case_match; simplify_eq/=.
Qed.

(** C19. What a caller is told of a transaction's end is what happened.
    Whatever calls, timers and failures are interleaved, each critical section
    of each at its own time: when a lookup of a token (by Commit, Rollback, DB,
    MarkDirty or Validate) answers that the transaction ended as [o], the
    transaction is of that caller's session and scope, and the database was
    asked exactly what [o] says: committed is one successful Commit, expired
    one Rollback, unknown a Commit that failed in doubt, rolledBack no Commit
    that may have taken effect.  The one exception is a lookup that read the
    handle while it was registered, found its time to have passed, and lost
    the race to expire it to another call that ends it: it says expired,
    whatever the other call does ([expired_though_committed]). *)
Theorem tx_outcome_truthful w op w' tok c o : reachable w ->
  step op w = (w', RRefused tok c (TransactionEndedError o)) ->
  exists h, w_heap w' !! tok = Some h /\ id_session (h_id h) = C_Session c /\ id_scope (h_id h) = scope c /\
    ((h_closed h = true /\ ends o (h_calls h)) \/
     (o = OutcomeExpired /\ tok ∉ m_handles (w_m w) /\ pastExpiry tok w /\
      exists id gone f, op = OCall id gone /\ w_calls w !! id = Some f /\ f_point f = FLookup LExpire)).
Proof.
  intros [Hw Hc]%reachable_sound Hs. destruct (refused_from _ _ _ _ _ _ Hs) as
    [(id & gone & f & p & -> & Hf & Hp & -> & -> & Hl)|(i & a & o' & tok' & h & -> & Hi & Hh & ->)].
  - destruct (Hc _ _ Hf) as [_ Hok]. simpl in Hs. unfold runCall in Hs. rewrite Hf, Hp in Hs.
    pose proof (lookup_next p f gone w Hw Hok Hp) as Hn. destruct (lookup _ _ _ _ _ _ _) as [w1 l] eqn:El. simpl in Hl. subst l.
    subst w1. injection Hs as <-. simpl. unfold callOk in Hok. rewrite Hp in Hok. destruct p; simpl in El.
    + by repeat case_decide.
    + destruct gone; by simplify_eq/=.
    + injection El as El. destruct (endedError_truthful _ _ _ _ Hw El) as (h & ? & ? & ? & ? & ?). exists h. split_and!; auto.
    + by repeat case_match.
    + case_decide as Hin; [done|]. injection El as <-. destruct Hok as (_ & (h & Hh & ? & ?) & Hpast). exists h. split_and!; try done.
      right. split_and!; try done. by exists id, gone, f.
  - pose proof (good_pick _ _ _ _ _ _ Hi Hw) as Hp. destruct (inv_head _ _ _ _ _ _ Hp) as (_&_&_& h0 & Hh0 & Ho & Hr).
    rewrite Hh in Hh0. injection Hh0 as <-. simpl in Hr. destruct Hr as (-> & _ & [= <-] & ? & ?). destruct Ho as (? & _ & ? & _).
    exists h. split_and!; auto.
Qed.

Lemma runTask_finished i a w w' commit targets err : good w ->
  runTask i a w = (w', RFinished commit targets err) ->
  exists tok o h, w_tasks w !! i = Some (tok, TBury o (RFinished commit targets err)) /\ w_heap w' !! tok = Some h /\
    w' = set_tasks (delete i) (set_m (ended (w_now w) tok h o) w) /\
    over o h /\ reply_fits tok (RFinished commit targets err) o h.
Proof.
  intros Hw. unfold runTask. destruct (w_tasks w !! i) as [[tok t]|] eqn:Hi; [|done].
  destruct (w_heap w !! tok) as [h|] eqn:Hh; [|done].
  pose proof (good_pick _ _ _ _ _ _ Hi Hw) as Hp. destruct (inv_head _ _ _ _ _ _ Hp) as (_&_&_& h0 & Hh0 & Hok).
  destruct t; repeat case_match; intros [=]; subst. exists tok, o, h. rewrite Hh in Hh0. injection Hh0 as <-.
  destruct Hok. split_and!; done.
Qed.

Lemma buryLoop_last now tok l : forall ts t, NoDup (l ++ [tok]) -> ts !! tok = Some t -> t_at t = now ->
  (forall x, x ∈ l -> exists t', ts !! x = Some t' /\ t_token t' = x) ->
  tok ∈ (buryLoop now ts (l ++ [tok])).2.
Proof.
  induction l as [|x l IH]; intros ts t Hnd Ht Hat Hl; simpl.
  - rewrite Ht, Hat, Z.sub_diag. simpl. left.
  - simpl in Hnd. apply NoDup_cons in Hnd as [Hx Hnd]. destruct (Hl x ltac:(left)) as (t' & Hx' & Htok).
    rewrite Hx'. destruct (_ && _); [right; apply elem_of_app; right; left|]. rewrite Htok, String.eqb_refl.
    eapply IH; [done| |done|].
    + rewrite lookup_delete_ne; [done|]. intros ->. apply Hx, elem_of_app. right; left.
    + intros y Hy. rewrite lookup_delete_ne; [apply Hl; by right|]. intros ->. apply Hx, elem_of_app. by left.
Qed.

(** Right after its end a transaction has its tombstone. *)
Lemma ended_tombstone w tok h o r ts : inv (w_m w) (w_heap w) (w_now w) ((tok, TBury o r) :: ts) ->
  w_heap w !! tok = Some h ->
  m_tombstones (ended (w_now w) tok h o (w_m w)) !! tok =
    Some (mkTombstone tok (id_session (h_id h)) (id_scope (h_id h)) o (w_now w)).
Proof.
  intros Hi Hh. destruct (inv_head _ _ _ _ _ _ Hi) as (_&_&Hn&_).
  destruct (inv_buried _ _ _ _ Hi) as [Hnd Hdom].
  assert (tok ∉ m_buried (w_m w)) as Hnb by (rewrite Hdom, Hn; by intros [? ?]).
  assert (NoDup (m_buried (w_m w) ++ [tok])) as Hnd' by (apply NoDup_app; split_and!; [done|set_solver|apply NoDup_singleton]).
  unfold ended, buryLocked. simpl. set (t1 := mkTombstone _ _ _ _ _).
  assert (forall x, x ∈ m_buried (w_m w) -> exists t, <[tok := t1]> (m_tombstones (w_m w)) !! x = Some t /\ t_token t = x) as Hl.
  { intros x Hx. pose proof Hx as [t Ht]%Hdom. exists t. rewrite lookup_insert_ne by (intros ->; done).
    by destruct (inv_tomb _ _ _ _ Hi _ _ Ht) as [? _]. }
  pose proof (buryLoop_last (w_now w) tok _ _ t1 Hnd' ltac:(apply lookup_insert_eq) eq_refl Hl) as Hlast.
  pose proof (buryLoop_lookup (w_now w) _ (<[tok := t1]> (m_tombstones (w_m w))) Hnd') as Hb.
  destruct (buryLoop _ _ _) as [ts' l']. simpl in *. rewrite Hb; [rewrite decide_False by tauto; apply lookup_insert_eq|].
  intros x [Hx|Hx]%elem_of_app; [by apply Hl|]. apply list_elem_of_singleton in Hx as ->.
  exists t1. by rewrite lookup_insert_eq.
Qed.

Section replies.
Context (tok : string) (commit : bool) (targets : list CacheTarget) (err : option txError) (o : Outcome) (h : transactionHandle).
Context (Hr : reply_fits tok (RFinished commit targets err) o h) (He : ends o (h_calls h)).

Lemma reply_committed : commit = true /\ err = None <-> h_calls h = [TxCommit None].
Proof using Hr He.
  destruct o; simpl in Hr, He; [destruct Hr as (-> & -> & _); by rewrite He| | |].
  - destruct Hr as (_ & H1 & _). split; [intros [E ?]; by destruct (H1 E)|]. destruct He as [-> |(e & _ & ->)]; done.
  - destruct Hr as (_ & H1 & _). split; [intros [E ?]; by destruct (H1 E)|]. by rewrite He.
  - destruct Hr as (_ & _ & e & ->), He as (e' & _ & ->). split; [by intros [_ ?]|done].
Qed.

Lemma reply_unknown : o = OutcomeUnknown <-> exists e, err = Some (ErrOutcomeUnknown e).
Proof using Hr.
  clear He. destruct o; simpl in Hr; (split; [try done|]).
  - intros [e E]. destruct Hr as (_ & E' & _). congruence.
  - intros [e E]. destruct Hr as (_ & _ & H). by destruct (H e).
  - intros [e E]. destruct Hr as (_ & _ & H). by destruct (H e).
  - by destruct Hr as (_ & _ & ?).
  - done.
Qed.

Lemma reply_targets :
  targets = if decide (o = OutcomeCommitted \/ o = OutcomeUnknown) then elements (h_dirty h) else [].
Proof using Hr.
  clear He. destruct (decide _) as [Ho|Ho]; destruct o; simpl in Hr; try tauto; naive_solver.
Qed.

End replies.

(** What Commit and Rollback return is what happened: when finish returns,
    the transaction is over; Commit returns no error exactly when the database
    committed; the cache targets are all those written when the commit
    succeeded or may have (then with the unknown-outcome error) and none
    otherwise; and whoever began it is told the same outcome when asking for
    the token again. *)
Theorem finish_reply_truthful w w' i a commit targets err : reachable w ->
  step (OTask i a) w = (w', RFinished commit targets err) ->
  exists tok o h, w_heap w' !! tok = Some h /\ h_closed h = true /\ ends o (h_calls h) /\
    (commit = true /\ err = None <-> h_calls h = [TxCommit None]) /\
    (o = OutcomeUnknown <-> exists e, err = Some (ErrOutcomeUnknown e)) /\
    targets = (if decide (o = OutcomeCommitted \/ o = OutcomeUnknown) then elements (h_dirty h) else []) /\
    forall c, C_Session c = id_session (h_id h) -> scope c = id_scope (h_id h) ->
      endedError (w_now w') tok c (w_m w') = TransactionEndedError o.
Proof.
  intros Hw%reachable_good Hs. destruct (runTask_finished _ _ _ _ _ _ _ Hw Hs) as (tok & o & h & Hi & Hh & -> & Ho & Hr).
  exists tok, o, h. destruct Ho as (Hc & _ & He & _). split; [done|]. split; [done|]. split; [done|].
  split_and!.
  - by eapply reply_committed.
  - by eapply reply_unknown.
  - by eapply reply_targets.
  - intros c Hc1 Hc2. unfold endedError. cbn -[ended].
    rewrite (ended_tombstone w tok h o _ _ (good_pick _ _ _ _ _ _ Hi Hw) Hh). cbn -[tombstoneRetention].
    rewrite Hc1, Hc2, !String.eqb_refl, Z.sub_diag. done.
Qed.

(** ** No transaction is lost or ended twice *)

(** Each transaction is ended once and none is leaked: in every state the
    manager reaches, a handle's tx received no Commit or Rollback yet, and the
    handle is registered or some goroutine is about to register or end it; or
    it is over, with the calls of one outcome, its context released and no
    statement running on it.  A token that is neither registered nor ending
    (a lookup says not found, or how it ended) is over, or Begin has not
    returned it. *)
Theorem tx_ended_once w tok h : reachable w -> w_heap w !! tok = Some h ->
  ((h_closed h = false /\ h_calls h = [] /\
      (tok ∈ m_handles (w_m w) /\ tok ∉ (w_tasks w).*1 \/ tok ∉ m_handles (w_m w) /\ exists! t, (tok, t) ∈ w_tasks w)) \/
   (exists o, h_closed h = true /\ ends o (h_calls h) /\ h_locked h = false /\ h_cancelled h = true /\
      tok ∉ m_handles (w_m w))) /\
  (tok ∉ m_handles (w_m w) -> tok ∉ m_ending (w_m w) ->
     h_closed h = true \/ exists t, (tok, t) ∈ w_tasks w /\ ending_task t = false).
Proof.
  intros Hw%reachable_good Hh. destruct (decide (tok ∈ m_handles (w_m w))) as [Hin|Hout].
  { destruct (inv_registered _ _ _ _ Hw _ Hin) as (Hn & h0 & Hh0 & Hc & Hcs & _). rewrite Hh in Hh0.
    injection Hh0 as <-. split; [|done]. left. auto. }
  destruct (decide (tok ∈ (w_tasks w).*1)) as [Hin|Hno].
  - apply list_elem_of_fmap in Hin as ([tok' t] & E & Hin). simpl in E. subst tok'.
    destruct (inv_task _ _ _ _ Hw _ _ Hin) as (h0 & Hh0 & Hok). rewrite Hh in Hh0. injection Hh0 as <-.
    assert (exists! t, (tok, t) ∈ w_tasks w) as Hu.
    { exists t. split; [done|]. intros t' Hin'. apply list_elem_of_lookup in Hin as [i Hi], Hin' as [j Hj].
      assert (i = j) as ->; [|congruence].
      eapply (NoDup_lookup (w_tasks w).*1 i j tok); [by eapply inv_nodup|by rewrite list_lookup_fmap, Hi|by rewrite list_lookup_fmap, Hj]. }
    split.
    + destruct t as [| | | |o r]; simpl in Hok; try (left; unfold live in Hok; tauto).
      right. exists o. destruct Hok as [(?&?&?&?) _]. done.
    + intros _ He. right. exists t. split; [done|]. destruct (ending_task t) eqn:Et; [|done].
      destruct He. apply (inv_ending _ _ _ _ Hw). eauto.
  - destruct (inv_over _ _ _ _ Hw _ _ Hh Hout Hno) as (o & Hc & Hca & He & Hl). split; [|by left].
    right. exists o. done.
Qed.

(** ** Capacity *)

(** The transactions open for a scope, and on a connection. *)
Definition openFor (s : string) (w : world) : Z := Z.of_nat (size (keyed id_scope (w_heap w) s (m_handles (w_m w)))).
Definition openOn (n : nat) (w : world) : Z := Z.of_nat (size (keyed id_connection (w_heap w) n (m_handles (w_m w)))).

Lemma runCall_reply id gone w tok : (runCall id gone w).2 <> RToken tok.
Proof.
  unfold runCall. destruct (w_calls w !! id) as [f|]; [|done]. destruct (f_point f); [|by repeat case_match].
  destruct (lookup _ _ _ _ _ _ _) as [w' []]; try done. by destruct (f_use f).
Qed.

(** A token is returned by the section that registers its handle. *)
Lemma token_reply o w w' tok : good w -> step o w = (w', RToken tok) ->
  exists i h m h', w_heap w !! tok = Some h /\ addHandle (w_now w) tok h (w_m w) = inr (m, h') /\
    w' = set_tasks (delete i) (set_heap <[tok := h']> (set_m (fun _ => m) w)).
Proof.
  intros Hw Hs. destruct o; simpl in Hs; unfold update_handle in Hs; try (repeat case_match; by simplify_eq).
  - unfold runTask in Hs. destruct (w_tasks w !! i) as [[x t]|] eqn:Hi; [|done].
    destruct (w_heap w !! x) as [h|] eqn:Hh; [|done].
    pose proof (good_pick _ _ _ _ _ _ Hi Hw) as Hp. destruct (inv_head _ _ _ _ _ _ Hp) as (_&_&_& h0 & _ & Hok).
    destruct t; try (repeat case_match; by simplify_eq).
    + destruct (addHandle _ _ _ _) as [|[m h']] eqn:Ha; [done|]. injection Hs as <- <-. eauto 10.
    + injection Hs as _ ->. by destruct Hok as [_ []].
  - by destruct (runCall_reply id gone w tok); rewrite Hs.
Qed.

Lemma capacity_left scope connection m : capacityLocked scope connection m = None ->
  (0 < m_maxOpen m -> count (m_open m) scope < m_maxOpen m) /\
  (0 < m_perConnection m -> count (m_byConnection m) connection < m_perConnection m).
Proof.
  unfold capacityLocked. destruct (_ && _) eqn:E1; [done|]. destruct (_ && (m_perConnection m <=? _)) eqn:E2; [done|].
  intros _. apply andb_false_iff in E1, E2. rewrite Z.ltb_ge, Z.leb_gt in E1, E2. lia.
Qed.

Lemma count_incr {K} `{Countable K} (k : K) c : count (incr k c) k = count c k + 1.
Proof. unfold incr. unfold count at 1. by rewrite lookup_insert_eq. Qed.

(** Begin keeps the bounds: the counters of the manager are the numbers of
    open transactions in every state it reaches, and when Begin returns a
    token, its transaction is open and no more are open for its scope than
    maxOpen allows, nor on its connection than perConnection does (0: no
    bound), though the capacity was first checked before the database opened
    it and other calls ran in between. *)
Theorem tx_capacity w o w' tok : reachable w -> step o w = (w', RToken tok) ->
  exists h, w_heap w' !! tok = Some h /\ tok ∈ m_handles (w_m w') /\ h_closed h = false /\
    (forall s, count (m_open (w_m w')) s = openFor s w') /\
    (forall n, count (m_byConnection (w_m w')) n = openOn n w') /\
    (0 < m_maxOpen (w_m w') -> openFor (id_scope (h_id h)) w' <= m_maxOpen (w_m w')) /\
    (0 < m_perConnection (w_m w') -> openOn (id_connection (h_id h)) w' <= m_perConnection (w_m w')).
Proof.
  intros [Hw Hcalls]%reachable_sound Hs. pose proof (step_good o w Hw Hcalls) as Hg. rewrite Hs in Hg. simpl in Hg.
  assert (forall s, count (m_open (w_m w')) s = openFor s w') as Ho by (intros s; apply (inv_open _ _ _ _ Hg)).
  assert (forall n, count (m_byConnection (w_m w')) n = openOn n w') as Hn by (intros n; apply (inv_conn _ _ _ _ Hg)).
  destruct (token_reply _ _ _ _ Hw Hs) as (i & h & m & h' & Hh & Ha & ->). exists h'.
  apply addHandle_inr in Ha as (_ & [Hc1 Hc2]%capacity_left & -> & ->). cbn [w_m w_heap set_tasks set_heap set_m] in *.
  rewrite lookup_insert_eq. assert (tok ∈ {[tok]} ∪ m_handles (w_m w)) as Hin by set_solver.
  destruct (inv_registered _ _ _ _ Hg tok Hin) as (_ & h0 & Hh0 & Hl & _). simpl in Hh0.
  rewrite lookup_insert_eq in Hh0. injection Hh0 as <-. split_and!; try done.
  - rewrite <- Ho. simpl. rewrite count_incr. lia.
  - rewrite <- Hn. simpl. rewrite count_incr. lia.
Qed.

(** ** A call of finish ends *)

(** Begin returned the token, and its handle is no longer registered. *)
Definition dropped (tok : string) (w : world) : Prop := issued tok w /\ tok ∉ m_handles (w_m w).

Definition adding (tok : string) (w : world) : bool :=
  existsb (fun x => String.eqb x.1 tok && match x.2 with TAdd => true | _ => false end) (w_tasks w).

Lemma adding_spec tok w : adding tok w = true <-> (tok, TAdd) ∈ w_tasks w.
Proof.
  unfold adding. rewrite existsb_exists, list_elem_of_In. split.
  - intros ([x t] & Hin & Hx). simpl in Hx. apply andb_true_iff in Hx as [->%String.eqb_eq ?]. by destruct t.
  - intros Hin. exists (tok, TAdd). simpl. by rewrite String.eqb_refl.
Qed.

#[global] Instance dropped_dec tok w : Decision (dropped tok w).
Proof.
  refine (cast_if (decide (is_Some (w_heap w !! tok) /\ adding tok w = false /\ tok ∉ m_handles (w_m w))));
    abstract (unfold dropped, issued; rewrite <- adding_spec; destruct (adding tok w); naive_solver).
Defined.

Lemma dropped_stays tok w w' : evolves w w' -> dropped tok w -> dropped tok w'.
Proof.
  intros Hev ([Hs Ha] & Hr). split; [by eapply issued_stays|]. intros Hin. by destruct (ev_reg _ _ Hev tok Hs Hin).
Qed.

(** The critical sections a call has left, at most, its waits apart: a handle
    that was dropped is not found again, so the second round of the loop is the
    last. *)
Definition sectionsLeftOf (f : tokenCall) (w : world) : nat :=
  match f_point f with
  | FLookup LRead => if decide (dropped (f_token f) w) then 3 else 6
  | FLookup LCheck => 5
  | FDrop => 4
  | FLookup LWait => 2
  | FLookup LTomb | FLookup LExpire => 1
  end%nat.

(** The call is at its wait for an end under way, and its context lasts. *)
Definition waits (id : nat) (gone : option goErr) (w : world) : bool :=
  match w_calls w !! id with
  | Some f => match f_point f, gone with
              | FLookup LWait, None => bool_decide (f_token f ∈ m_ending (w_m w))
              | _, _ => false
              end
  | None => false
  end.

(** The sections of call [id] that [os] run, waits apart. *)
Fixpoint moves (id : nat) (os : list txOp) (w : world) : nat :=
  match os with
  | [] => 0
  | o :: os =>
      (match o with
       | OCall j gone => if decide (j = id) then if waits id gone w then 0 else if decide (is_Some (w_calls w !! id)) then 1 else 0 else 0
       | _ => 0
       end + moves id os (step o w).1)%nat
  end.

Lemma sectionsLeft_mono f w w' : evolves w w' -> (sectionsLeftOf f w' <= sectionsLeftOf f w)%nat.
Proof.
  intros Hev. unfold sectionsLeftOf. destruct (f_point f) as [[]|]; try lia.
  destruct (decide (dropped (f_token f) w)) as [Hd|]; [rewrite decide_True by (by eapply dropped_stays); lia|]. case_decide; lia.
Qed.

Lemma runCall_progress id gone w f : good w -> callsOk w -> w_calls w !! id = Some f ->
  if waits id gone w then runCall id gone w = (w, RNone)
  else match w_calls (runCall id gone w).1 !! id with
       | Some f' => (sectionsLeftOf f' (runCall id gone w).1 < sectionsLeftOf f w)%nat
       | None => True
       end.
Proof.
  intros Hw Hc Hf. destruct (Hc _ _ Hf) as [_ Hok]. unfold waits. rewrite Hf.
  assert (forall w' p, (sectionsLeftOf (with_point p f) (set_calls <[id := with_point p f]> w') <= sectionsLeftOf (with_point p f) w')%nat) as Hset
    by (intros w' p; apply sectionsLeft_mono, evolves_calls, evolves_refl).
  unfold runCall. rewrite Hf. unfold callOk in Hok. destruct (f_point f) as [p|] eqn:Hp.
  - destruct p; simpl.
    + rewrite lookup_insert_eq. eapply Nat.le_lt_trans; [apply Hset|]. unfold sectionsLeftOf. rewrite Hp. simpl.
      destruct (decide (f_token f ∈ m_handles (w_m w))) as [Hin|]; [rewrite decide_False by (by intros [_ ?]); lia|].
      repeat case_decide; lia.
    + destruct gone; [simpl; by rewrite lookup_delete_eq|]. case_bool_decide as He.
      * rewrite decide_True by done. unfold set_calls. rewrite insert_id; [by destruct w|]. rewrite Hf. f_equal. destruct f; simpl in *. by subst.
      * rewrite decide_False by done. simpl. rewrite lookup_insert_eq. eapply Nat.le_lt_trans; [apply Hset|]. unfold sectionsLeftOf. rewrite Hp. simpl. lia.
    + by rewrite lookup_delete_eq.
    + repeat case_match; simplify_eq/=; rewrite ?lookup_delete_eq, ?lookup_insert_eq in *; simplify_eq; try done; unfold sectionsLeftOf; rewrite Hp; simpl; lia.
    + repeat case_match; simplify_eq/=; unfold expire, end_, endLocked in *; repeat case_match; simplify_eq/=; rewrite ?lookup_delete_eq in *; done.
  - destruct Hok as [Hi _]. pose proof Hi as [[h Hh] _]. rewrite Hh. destruct (f_use f) eqn:Hu; [|case_decide as Hin]; simpl.
    + by rewrite lookup_delete_eq.
    + by rewrite lookup_delete_eq.
    + rewrite lookup_insert_eq. eapply Nat.le_lt_trans; [apply Hset|]. unfold sectionsLeftOf. rewrite Hp. simpl. rewrite decide_True; [lia|done].
Qed.

(** A call that returned does not come back. *)
Lemma moves_gone id os : forall w, good w -> callsOk w -> w_calls w !! id = None -> (id < w_next w)%nat ->
  moves id os w = 0%nat /\ w_calls (run os w) !! id = None.
Proof.
  induction os as [|o os IH]; intros w Hw Hc Hn Hlt; [done|]. cbn [moves run].
  assert (w_calls (step o w).1 !! id = None /\ (id < w_next (step o w).1)%nat) as [Hn' Hlt'].
  { destruct (classify o) as [(j & gone & ->)|Ho].
    - destruct (runCall_calls j gone w Hw Hc) as (En & Hother & Hown). simpl in *. rewrite En. split; [|done].
      destruct (decide (id = j)) as [<-|Hne]; [|by rewrite Hother]. destruct (w_calls (runCall id gone w).1 !! id) as [f'|] eqn:E; [|done].
      destruct (Hown _ eq_refl) as [[? ?] _]. congruence.
    - destruct (step_calls o w Ho) as [[-> ->]|(g & _ & -> & ->)]; [done|]. rewrite lookup_insert_ne by lia. split; [done|lia]. }
  destruct (IH (step o w).1) as [-> ->]; [by apply step_good|by apply step_callsOk|done|done|]. split; [|done].
  destruct o; try done. case_decide as Hid; [subst id0|done]. unfold waits. rewrite Hn. rewrite decide_False by (by intros [? ?]). done.
Qed.

Lemma moves_bound id os : forall w f, good w -> callsOk w -> w_calls w !! id = Some f ->
  (moves id os w + match w_calls (run os w) !! id with Some f' => sectionsLeftOf f' (run os w) | None => 0 end <= sectionsLeftOf f w)%nat.
Proof.
  induction os as [|o os IH]; intros w f Hw Hc Hf; [cbn [moves run]; rewrite Hf; lia|]. cbn [moves run].
  pose proof (step_good o w Hw Hc) as Hw'. pose proof (step_callsOk o w Hw Hc) as Hc'.
  assert (w_calls (step o w).1 !! id = Some f -> (moves id os (step o w).1 +
    match w_calls (run os (step o w).1) !! id with Some f' => sectionsLeftOf f' (run os (step o w).1) | None => 0 end <= sectionsLeftOf f w)%nat) as Hsame.
  { intros Hf'. etransitivity; [by apply IH|]. apply sectionsLeft_mono, step_evolves. }
  destruct (classify o) as [(j & gone & ->)|Ho].
  - destruct (runCall_calls j gone w Hw Hc) as (En & Hother & _). case_decide as Hid.
    + subst j. pose proof (runCall_progress id gone w f Hw Hc Hf) as Hp. destruct (waits id gone w) eqn:Ewait.
      * apply Hsame. simpl. by rewrite Hp.
      * rewrite decide_True by eauto. simpl in *. destruct (w_calls (runCall id gone w).1 !! id) as [f'|] eqn:Ef'.
        -- specialize (IH _ _ Hw' Hc' Ef'). lia.
        -- destruct (moves_gone id os _ Hw' Hc' Ef') as [-> ->]; [rewrite En; by destruct (Hc _ _ Hf)|].
           unfold sectionsLeftOf. destruct (f_point f) as [[]|]; repeat case_decide; lia.
    + apply Hsame. simpl. by rewrite Hother.
  - assert (w_calls (step o w).1 !! id = Some f) as Hf'.
    { destruct (step_calls o w Ho) as [[-> _]|(g & _ & -> & _)]; [done|]. destruct (Hc _ _ Hf). by rewrite lookup_insert_ne by lia. }
    destruct o; try (by apply Hsame). by destruct (Ho id0 gone).
Qed.


End theorems.

(** ** The theorems at work *)

#[local] Existing Instance nullText.

Lemma run_reachable os : reachable (run os start).
Proof. by exists 0, 1, 0, os. Qed.

Lemma step_pair o w r : (step o w).2 = r -> step o w = ((step o w).1, r).
Proof. intros <-. apply surjective_pairing. Qed.

(** A lookup after the commit is recorded. *)
Definition lateLookup : list txOp := committing granted ++ [OTask 0 granted; OLookup "tok" agent "main" None; OCall 2 None].

Lemma lateLookup_told : (step (OCall 2 None) (run lateLookup start)).2 = RRefused "tok" agent (TransactionEndedError OutcomeCommitted).
Proof. vm_compute. reflexivity. Qed.

Lemma tx_outcome_truthful_witness : exists h,
  w_heap (step (OCall 2 None) (run lateLookup start)).1 !! "tok" = Some h /\ ends OutcomeCommitted (h_calls h).
Proof.
  destruct (tx_outcome_truthful (run lateLookup start) (OCall 2 None) _ "tok" agent OutcomeCommitted (run_reachable _) (step_pair _ _ _ lateLookup_told))
    as (h & Hh & _ & _ & [[_ He]|[Ho _]]); [exists h; split; assumption|discriminate Ho].
Defined.

Lemma finish_reply_truthful_witness : exists tok h,
  w_heap (step (OTask 0 granted) (run (committing granted) start)).1 !! tok = Some h /\ h_calls h = [TxCommit None].
Proof.
  destruct (finish_reply_truthful (run (committing granted) start) _ 0 granted true [mkTarget "db" "orders"] None
    (run_reachable _) (step_pair _ _ _ committed_replied)) as (tok & o & h & Hh & _ & _ & Hc & _).
  exists tok, h. split; [assumption|]. apply Hc. split; reflexivity.
Defined.

Lemma begun_observed : match w_heap (run begun start) !! "tok" with Some _ => true | None => false end = true.
Proof. vm_compute. reflexivity. Qed.

Lemma tx_ended_once_witness : exists h, w_heap (run begun start) !! "tok" = Some h /\
  ("tok" ∉ m_handles (w_m (run begun start)) -> "tok" ∉ m_ending (w_m (run begun start)) ->
     h_closed h = true \/ exists t, ("tok", t) ∈ w_tasks (run begun start) /\ ending_task t = false).
Proof.
  destruct (w_heap (run begun start) !! "tok") as [h|] eqn:Hh.
  - exists h. split; [reflexivity|]. exact (proj2 (tx_ended_once (run begun start) "tok" h (run_reachable _) Hh)).
  - pose proof begun_observed as Ho. rewrite Hh in Ho. discriminate Ho.
Defined.

Lemma begun_replied : (step (OTask 0 granted) (run begun start)).2 = RToken "tok".
Proof. vm_compute. reflexivity. Qed.

Lemma begun_bound : m_maxOpen (w_m (step (OTask 0 granted) (run begun start)).1) = 1.
Proof. vm_compute. reflexivity. Qed.

Lemma tx_capacity_witness : exists h,
  w_heap (step (OTask 0 granted) (run begun start)).1 !! "tok" = Some h /\
  openFor (id_scope (h_id h)) (step (OTask 0 granted) (run begun start)).1 <= 1.
Proof.
  destruct (tx_capacity (run begun start) (OTask 0 granted) _ "tok" (run_reachable _)
    (step_pair _ _ _ begun_replied)) as (h & Hh & _ & _ & _ & _ & Hmax & _).
  exists h. split; [assumption|]. rewrite begun_bound in Hmax. apply Hmax. reflexivity.
Defined.


(** ** A closed manager drains *)

Section liveness.
Context {text : SubjectText}.

Definition closed_empty (w : world) : Prop := m_closed (w_m w) = true -> m_handles (w_m w) = ∅.

Lemma endAll_handles l : forall w, good w -> NoDup l -> (forall tok, tok ∈ l -> tok ∈ m_handles (w_m w)) ->
  m_handles (w_m (foldl (fun w tok => endLocked tok OutcomeRolledBack RNone w) w l)) = m_handles (w_m w) ∖ list_to_set l.
Proof.
  induction l as [|tok l IH]; intros w Hw Hl Hin; simpl; [set_solver|]. apply NoDup_cons in Hl as [Hn Hl].
  pose proof (Hin tok ltac:(left)) as Ht. destruct (endLocked_handles tok OutcomeRolledBack RNone w Hw Ht) as [E _].
  rewrite IH; [rewrite E; set_solver|apply good_endLocked; simpl; auto|done|]. intros x Hx. rewrite E. set_solver.
Qed.

Lemma step_closed o w : m_closed (w_m (step o w).1) = true -> m_closed (w_m w) = true \/ o = OClose.
Proof.
  destruct o; simpl; unfold update_handle, checkIdle, end_, endLocked, expire; auto;
    try (repeat case_match; simpl; by auto).
  - unfold runTask. repeat case_match; simpl; auto; unfold ended, buryLocked; try (destruct (buryLoop _ _ _)); simpl; auto.
    match goal with H : addHandle _ _ _ _ = inr _ |- _ => apply addHandle_inr in H as (_ & _ & -> & _) end. auto.
  - unfold runCall, lookup, expire, end_, endLocked. repeat case_match; simplify_eq/=; auto.
  - unfold end_, endLocked. repeat case_match; simpl; auto.
  - unfold RollbackSession. case_match; [auto|]. generalize (sessionTokens session w). intros l.
    intros Hc. left. revert Hc. assert (forall w, m_closed (w_m (foldl (fun w tok => endLocked tok OutcomeRolledBack RNone w) w l)) = m_closed (w_m w)) as ->; [|done].
    induction l as [|x l IH]; intros w'; simpl; [done|]. rewrite IH. unfold endLocked. by destruct (w_heap w' !! x).
Qed.

Lemma step_closed_empty o w : good w -> closed_empty w -> closed_empty (step o w).1.
Proof.
  intros Hw He Hc. destruct (step_closed _ _ Hc) as [Hc'| ->].
  - pose proof (ev_closed _ _ (step_evolves o w) Hc') as [_ Hs]. rewrite (He Hc') in Hs. set_solver.
  - simpl. unfold Close. destruct (m_closed (w_m w)) eqn:E; [by apply He|]. rewrite endAll_handles; simpl.
    + rewrite list_to_set_elements_L. set_solver.
    + by eapply (inv_limits (w_m w)).
    + apply NoDup_elements.
    + intros tok. by rewrite elem_of_elements.
Qed.

Lemma reachable_closed_empty w : reachable w -> closed_empty w.
Proof.
  intros (ttl & maxOpen & now & os & ->).
  assert (forall w, good w -> callsOk w -> closed_empty w -> closed_empty (run os w)) as Hrun.
  { induction os as [|o os IH]; intros w Hw Hk Hf; simpl; [done|]. apply IH; [by apply step_good|by apply step_callsOk|by apply step_closed_empty]. }
  apply Hrun; [apply inv_initial|intros id f; simpl; by rewrite lookup_empty|done].
Qed.

(** The critical sections a task has left, at most. *)
Definition sections (t : task) : nat :=
  match t with TAdd | TAbort _ _ | TFinish _ => 2%nat | TDiscard _ | TBury _ _ => 1%nat end.
Definition sectionsLeft (ts : list (string * task)) : nat := sum_list (sections <$> ts.*2).

Definition idle_locks (w : world) : Prop := forall tok h, w_heap w !! tok = Some h -> h_locked h = false.

Lemma idle_insert w tok h : idle_locks w -> h_locked h = false -> forall x y, <[tok := h]> (w_heap w) !! x = Some y -> h_locked y = false.
Proof.
  intros Hi Hl x y Hy. destruct (decide (x = tok)) as [->|]; [rewrite lookup_insert_eq in Hy; congruence|].
  rewrite lookup_insert_ne in Hy by done. by eapply Hi.
Qed.

Lemma drain_step a w : good w -> m_closed (w_m w) = true -> idle_locks w ->
  idle_locks (runTask 0 a w).1 /\ sectionsLeft (w_tasks (runTask 0 a w).1) = pred (sectionsLeft (w_tasks w)).
Proof.
  intros Hw Hc Hi. unfold runTask. destruct (w_tasks w) as [|[tok t] ts] eqn:Ht; simpl; [by rewrite Ht|].
  destruct (inv_task _ _ _ _ Hw tok t) as (h & Hh & Hok); [rewrite Ht; left|]. rewrite Hh, (Hi _ _ Hh).
  pose proof (Hi _ _ Hh) as Hl. destruct t; simpl.
  - unfold addHandle. rewrite Hc. simpl. by rewrite Ht.
  - rewrite Ht. split; [by refine (idle_insert w _ _ Hi _)|done].
  - rewrite Ht. split; [by refine (idle_insert w _ _ Hi _)|done].
  - destruct (handle_finish a commit h) as [h' [o [targets err]]] eqn:Hf. simpl. rewrite Ht. split; [|done].
    refine (idle_insert w _ _ Hi _). destruct (finish_over tok _ _ _ _ _ _ _ Hok Hl Hf) as (_&_&(_&_&_&?)&_). done.
  - by rewrite Ht.
Qed.

Lemma drain a : forall n w, good w -> m_closed (w_m w) = true -> closed_empty w -> idle_locks w ->
  sectionsLeft (w_tasks w) = n -> let w' := run (replicate n (OTask 0 a)) w in
  good w' /\ m_handles (w_m w') = ∅ /\ sectionsLeft (w_tasks w') = 0%nat.
Proof.
  induction n as [|n IH]; intros w Hw Hc He Hi Hn; simpl; [split_and!; auto|].
  destruct (drain_step a w Hw Hc Hi) as [Hi' Hn']. apply IH; [by apply good_runTask| | |done|lia].
  - by apply (ev_closed _ _ (runTask_evolves 0 a w)).
  - by apply (step_closed_empty (OTask 0 a)).
Qed.

(** Closing leaves nothing open: once the manager is closed and no
    statement is running, the calls under way, run to their end in any
    answers of the database, take at most two critical sections each, after
    which none is left and every transaction ever begun is over, committed or
    rolled back. *)
Theorem close_drains w a : reachable w -> m_closed (w_m w) = true -> idle_locks w ->
  let w' := run (replicate (sectionsLeft (w_tasks w)) (OTask 0 a)) w in
  w_tasks w' = [] /\ m_ending (w_m w') = ∅ /\
  forall tok h, w_heap w' !! tok = Some h -> exists o, h_closed h = true /\ ends o (h_calls h).
Proof.
  intros Hw Hc Hi. destruct (drain a _ w (reachable_good _ Hw) Hc (reachable_closed_empty _ Hw) Hi eq_refl) as (Hg & Hh & Hn).
  assert (w_tasks (run (replicate (sectionsLeft (w_tasks w)) (OTask 0 a)) w) = []) as Ht.
  { destruct (w_tasks (run _ w)) as [|[x t] ts]; [done|]. unfold sectionsLeft in Hn. simpl in Hn. destruct t; simpl in Hn; lia. }
  split_and!; [done| |].
  - apply set_eq. intros x. rewrite (inv_ending _ _ _ _ Hg), Ht. split; [|set_solver]. by intros (t & ?%elem_of_nil & _).
  - intros tok h Hx. destruct (inv_over _ _ _ _ Hg _ _ Hx) as (o & ? & _ & ? & _); [rewrite Hh; set_solver|rewrite Ht; simpl; set_solver|eauto].
Qed.

End liveness.

#[local] Existing Instance nullText.

(** The commit that lost the race: it goes round again, waits for the rollback,
    and returns when that is recorded. *)
Definition finishes : list txOp := [OCall 1 None; OCall 1 None; OCall 1 None; OTask 0 granted; OTask 0 granted; OCall 1 None; OCall 1 None].

Lemma raced_observed : match w_calls (run raced start) !! 1%nat with Some f => match f_point f with FDrop => true | _ => false end | None => false end = true /\
  moves 1 finishes (run raced start) = 4%nat.
Proof. split; vm_compute; reflexivity. Qed.


Lemma closed_observed : m_closed (w_m (run (wrote ++ [OClose]) start)) = true /\
  forallb (fun kv => negb (h_locked kv.2)) (map_to_list (w_heap (run (wrote ++ [OClose]) start))) = true.
Proof. split; vm_compute; reflexivity. Qed.

Lemma close_drains_witness : w_tasks (run (replicate (sectionsLeft (w_tasks (run (wrote ++ [OClose]) start))) (OTask 0 granted))
  (run (wrote ++ [OClose]) start)) = [].
Proof.
  destruct closed_observed as [Hc Hl].
  refine (proj1 (close_drains (run (wrote ++ [OClose]) start) granted (run_reachable _) Hc _)).
  intros tok h Hh%elem_of_map_to_list. rewrite forallb_forall in Hl. apply list_elem_of_In in Hh.
  specialize (Hl _ Hh). simpl in Hl. destruct (h_locked h); [discriminate Hl|reflexivity].
Defined.

