(* ===== verification/Merge.v ===== *)
(** Three-way merge of configuration values: core/workspace/merge.go.

    A value is decoded JSON or Missing.  A Go map is a [gmap] (no order, no
    duplicate), a float64 the text encoding/json writes for it.  encoding/json
    writes the keys of a map sorted, and decoded text is valid UTF-8, so two
    values have the same JSON text exactly when their trees are equal:
    [canonicalAt] is the tree.  The memo of comparer and the pointer test of
    Identical only save encoding a value twice, as no value is written to
    while an operation runs, and are left out. *)

From stdpp Require Import sorting.
From S2P Require Import Prelude.

(** ** Values *)

Inductive json : Type :=
  | JNull
  | JBool (b : bool)
  | JNum (text : string)
  | JStr (s : string)
  | JList (l : list json)
  | JObj (m : gmap string json)
  | JMissing.

#[global] Instance json_eq_dec : EqDecision json.
Proof.
  refine (fix go (a b : json) : Decision (a = b) :=
    let _ : EqDecision json := go in
    match a, b with
    | JNull, JNull | JMissing, JMissing => left eq_refl
    | JBool x, JBool y => cast_if (decide (x = y))
    | JNum x, JNum y => cast_if (decide (x = y))
    | JStr x, JStr y => cast_if (decide (x = y))
    | JList x, JList y => cast_if (decide (x = y))
    | JObj x, JObj y => cast_if (decide (x = y))
    | _, _ => right _
    end); clear r go; abstract congruence.
Defined.

Definition IsMissing (v : json) : bool := match v with JMissing => true | _ => false end.

(** The depth of a value: the fuel of the recursions on it. *)
Fixpoint depth (v : json) : nat :=
  match v with
  | JList l => S (foldr (fun x d => Nat.max (depth x) d) 0%nat l)
  | JObj m => S (map_fold (fun _ x d => Nat.max (depth x) d) 0%nat m)
  | _ => 0%nat
  end.

Record Schema : Type := mkSchema { Lists : gmap string string; Unset : gset string }.

(** Step: FieldStep k, ElementStep k. *)
Inductive Step : Type := FieldStep (k : string) | ElementStep (k : string).

#[global] Instance Step_eq_dec : EqDecision Step.
Proof. solve_decision. Defined.

Definition IsElement (s : Step) : bool := match s with ElementStep _ => true | FieldStep _ => false end.

Definition Path : Type := list Step.

(** The pattern of property [k] under pattern [p]. *)
Definition field (p k : string) : string := if String.eqb p "" then k else p +:+ "." +:+ k.

Definition patternStep (first : bool) (s : Step) : string :=
  match s with
  | ElementStep _ => "[]"
  | FieldStep k => if first then k else "." +:+ k
  end.

Definition Pattern (p : Path) : string :=
  foldl (fun b s => b +:+ patternStep (String.eqb b "") s) "" p.

Definition Path_String (p : Path) : string :=
  foldl (fun b si => b +:+ match si.2 with
                     | ElementStep k => "[" +:+ k +:+ "]"
                     | FieldStep k => if (0 <? si.1)%nat then "." +:+ k else k
                     end) "" (imap (fun i s => (i, s)) p).

(** p is q or under it. *)
Definition Path_within (p q : Path) : bool :=
  (length q <=? length p)%nat && bool_decide (take (length q) p = q).

Record ValueConflict : Type := mkConflict { V_Path : Path; V_Mine : json; V_Theirs : json }.

Definition object (v : json) : option (gmap string json) := match v with JObj m => Some m | _ => None end.

Definition get (m : gmap string json) (k : string) : json := default JMissing (m !! k).

(** value[k] = v, unless v is Missing. *)
Definition put (k : string) (v : json) (m : gmap string json) : gmap string json :=
  if IsMissing v then m else <[k := v]> m.

(** ** Comparing *)

Definition isZero (v : json) : bool :=
  match v with JStr s => String.eqb s "" | JBool b => negb b | JNull => true | _ => false end.

Section schema.
Context (s : Schema).

Fixpoint normalize (v : json) (p : string) : json :=
  if bool_decide (p ∈ Unset s) && isZero v then JMissing
  else match v with
       | JList l => JList (map (fun el => normalize el (p +:+ "[]")) l)
       | JObj m => JObj (map_fold (fun k el out => put k (normalize el (field p k)) out) ∅ m)
       | _ => v
       end.

(** The tree of the JSON text of a value: the empty struct that is Missing
    is written as an empty object. *)
Fixpoint marshal (v : json) : json :=
  match v with
  | JMissing => JObj ∅
  | JList l => JList (map marshal l)
  | JObj m => JObj (marshal <$> m)
  | _ => v
  end.

Definition canonicalAt (p : string) (v : json) : json :=
  let n := normalize v p in
  marshal (if IsMissing n then JNull else n).

Definition Canonical (v : json) : json := canonicalAt "" v.

Definition Same (a b : json) : bool := bool_decide (Canonical a = Canonical b).

(** strings.TrimSuffix(p, "[]") *)
Definition trimElements (p : string) : string :=
  if String.eqb (String.substring (String.length p - 2) 2 p) "[]"
  then String.substring 0 (String.length p - 2) p else p.

Definition canonicalElement (p : string) (v : json) : json :=
  match v with JList _ => canonicalAt (trimElements p) v | _ => canonicalAt p v end.

Definition sameElements (path : Path) (a b : json) : bool :=
  bool_decide (canonicalElement (Pattern path) a = canonicalElement (Pattern path) b).

Definition sameAt (path : Path) (a b : json) : bool :=
  if match last path with Some st => IsElement st | None => false end then sameElements path a b
  else bool_decide (canonicalAt (Pattern path) a = canonicalAt (Pattern path) b).

(** ** Keyed lists *)

Definition elementKey (el : json) (p : string) : option string :=
  match Lists s !! (p +:+ "[]"), object el with
  | Some prop, Some m => match m !! prop with Some (JStr key) => Some key | _ => None end
  | _, _ => None
  end.

Record keyedList : Type := mkKeyed { kl_order : list string; kl_byKey : gmap string json }.

(** The loop over the elements: the keys in order of first appearance, the
    elements by key; [None] when one has no key. *)
Fixpoint groupLoop (p : string) (l : list json) (order : list string) (groups : gmap string (list json))
  : option (list string * gmap string (list json)) :=
  match l with
  | [] => Some (order, groups)
  | el :: l =>
      match elementKey el p with
      | None => None
      | Some key =>
          groupLoop p l (match groups !! key with None => order ++ [key] | Some _ => order end)
            (<[key := default [] (groups !! key) ++ [el]]> groups)
      end
  end.

(** A group is one value when it has one element. *)
Definition ungroup (els : list json) : json := match els with [el] => el | _ => JList els end.

Definition keyed (v : json) (p : string) : option keyedList :=
  match v with
  | JList l => match groupLoop p l [] ∅ with
               | Some (order, groups) => Some (mkKeyed order (ungroup <$> groups))
               | None => None
               end
  | _ => None
  end.

Definition kget (k : keyedList) (key : string) : json := get (kl_byKey k) key.

(** ** Merge *)

Definition isGroup (v : json) : bool := match v with JList _ => true | _ => false end.

(** whole merges a value as a whole: either side's change, or a conflict. *)
Definition whole (base local next : json) (path : Path) : json * list ValueConflict :=
  if sameElements path local base then (next, [])
  else if sameElements path next base || sameElements path next local then (local, [])
  else (local, [mkConflict path local next]).

(** slices.SortFunc leaves the order of equal texts open; here they stay in the
    order they came in.  What is proved of the conflicts is which they are. *)
Definition sortConflicts (cs : list ValueConflict) : list ValueConflict :=
  merge_sort (fun a b => Is_true (String.leb (Path_String (V_Path a)) (Path_String (V_Path b)))) cs.

(** The keys of the three objects, in some order: Go's is arbitrary, and the
    result a map and a list sorted after. *)
Definition allKeys (ms : list (gmap string json)) : list string :=
  elements (⋃ (dom (D := gset string) <$> ms)).

Section step.
Context (rec : json -> json -> json -> Path -> json * list ValueConflict).

Definition mergeObjects (base local next : gmap string json) (path : Path) : json * list ValueConflict :=
  let '(value, conflicts) :=
    foldl (fun acc k =>
             let '(v, cs) := rec (get base k) (get local k) (get next k) (path ++ [FieldStep k]) in
             (put k v acc.1, acc.2 ++ cs))
      (∅, []) (allKeys [local; next; base]) in
  (JObj value, sortConflicts conflicts).

(** Local order, then what only next added. *)
Definition mergeOrder (local next : keyedList) : list string :=
  kl_order local ++ filter (fun k => kl_byKey local !! k = None) (kl_order next).

(** The elements a merged element puts in the list. *)
Definition spread (v : json) : list json :=
  match v with JList group => group | JMissing => [] | _ => [v] end.

Definition mergeElement (base local next : keyedList) (path : Path) (key : string) : json * list ValueConflict :=
  let at_ := path ++ [ElementStep key] in
  let be := kget base key in let le := kget local key in let ne := kget next key in
  if isGroup be || isGroup le || isGroup ne then whole be le ne at_ else rec be le ne at_.

Definition mergeLists (base local next : keyedList) (path : Path) : json * list ValueConflict :=
  let '(value, conflicts) :=
    foldl (fun acc key =>
             let '(v, cs) := mergeElement base local next path key in
             (acc.1 ++ spread v, acc.2 ++ cs))
      ([], []) (mergeOrder local next) in
  (JList value, conflicts).

(** The body of merge, its recursive calls being [rec]'s. *)
Definition mergeStep (base local next : json) (path : Path) : json * list ValueConflict :=
  if sameAt path local base then (next, [])
  else if sameAt path next base || sameAt path next local then (local, [])
  else
    let conflict := (local, [mkConflict path local next]) in
    let lists :=
      let base := if IsMissing base then JList [] else base in
      let p := Pattern path in
      match keyed base p, keyed local p, keyed next p with
      | Some b, Some l, Some n => mergeLists b l n path
      | _, _, _ => conflict
      end in
    match object local, object next with
    | Some lo, Some no =>
        match (if IsMissing base then Some ∅ else object base) with
        | Some bo => mergeObjects bo lo no path
        | None => lists
        end
    | _, _ => lists
    end.

End step.

Fixpoint mergeFuel (n : nat) : json -> json -> json -> Path -> json * list ValueConflict :=
  match n with
  | O => fun base local next path => (local, [])
  | S n => mergeStep (mergeFuel n)
  end.

(** merge descends into local, so its depth bounds the calls nested. *)
Definition Merge (base local next : json) (path : Path) : json * list ValueConflict :=
  mergeFuel (S (depth local)) base local next path.

(** ** Reading and writing at a path *)

(** The loop of GetAt; [done] is the path already walked. *)
Fixpoint getFrom (v : json) (done : Path) (path : Path) : json :=
  match path with
  | [] => v
  | FieldStep k :: rest =>
      match object v with
      | Some m => getFrom (get m k) (done ++ [FieldStep k]) rest
      | None => JMissing
      end
  | ElementStep key :: rest =>
      match keyed v (Pattern done) with
      | Some k => getFrom (kget k key) (done ++ [ElementStep key]) rest
      | None => JMissing
      end
  end.

Definition GetAt (root : json) (path : Path) : json := getFrom root [] path.

(** The loop of setElement: the elements with the key, the others, and where
    among those the first of them was. *)
Fixpoint splitLoop (p key : string) (l : list json) (mine others : list json) (at_ : option nat)
  : list json * list json * option nat :=
  match l with
  | [] => (mine, others, at_)
  | el :: l =>
      if bool_decide (elementKey el p = Some key)
      then splitLoop p key l (mine ++ [el]) others (match at_ with None => Some (length others) | _ => at_ end)
      else splitLoop p key l mine (others ++ [el]) at_
  end.

Fixpoint setFrom (root : json) (p : string) (path : Path) (value : json) : json :=
  match path with
  | [] => value
  | FieldStep k :: rest =>
      let obj := default ∅ (object root) in
      let v := setFrom (get obj k) (field p k) rest value in
      JObj (if IsMissing v then delete k obj else <[k := v]> obj)
  | ElementStep key :: rest =>
      let list := match root with JList l => l | _ => [] end in
      let '(mine, others, at_) := splitLoop p key list [] [] None in
      let current := match mine with [] => JMissing | _ => ungroup mine end in
      let v := setFrom current (p +:+ "[]") rest value in
      let i := default (length others) at_ in
      JList (take i others ++ spread v ++ drop i others)
  end.

Definition SetAt (root : json) (path : Path) (value : json) : json := setFrom root "" path value.

(** The loop of addressable, [n] rounds from index [i]. *)
Fixpoint addressableLoop (path : Path) (items : list json) (n i : nat) : Path :=
  match n with
  | O => path
  | S n =>
      if match path !! i with Some st => IsElement st | None => false end
         && existsb (fun item => isGroup (GetAt item (take (S i) path))) items
      then take (S i) path
      else addressableLoop path items n (S i)
  end.

Definition addressable (path : Path) (items : list json) : Path :=
  addressableLoop path items (length path - 1) 0.

(** ** Diff *)

Record Change : Type := mkChange { Ch_Path : Path; Ch_Value : json }.

Definition sortedKeys (ms : list (gmap string json)) : list string :=
  merge_sort (fun a b => Is_true (String.leb a b)) (allKeys ms).

Fixpoint diffFuel (n : nat) (a b : json) (path : Path) : list Change :=
  match n with
  | O => []
  | S n =>
      if sameAt path a b then []
      else
        let change := [mkChange path b] in
        let lists :=
          match keyed a (Pattern path), keyed b (Pattern path) with
          | Some ka, Some kb =>
              concat (map (fun k =>
                let at_ := path ++ [ElementStep k] in
                let ae := kget ka k in let be := kget kb k in
                if isGroup ae || isGroup be
                then if sameElements at_ ae be then [] else [mkChange at_ be]
                else diffFuel n ae be at_)
                (kl_order ka ++ filter (fun k => k ∉ kl_order ka) (kl_order kb)))
          | _, _ => change
          end in
        match object a, object b with
        | Some ao, Some bo =>
            concat (map (fun k => diffFuel n (get ao k) (get bo k) (path ++ [FieldStep k])) (sortedKeys [ao; bo]))
        | _, _ => lists
        end
  end.

Definition Diff (a b : json) : list Change := diffFuel (S (depth a)) a b [].

End schema.
