(* ===== verification/MergeTheorems.v ===== *)
(** Merging: the values of core/workspace (canonical trees, patterns, keyed
    lists), that a merge overwrites and loses nothing silently, and the round
    trip of SetAt and GetAt. *)

From stdpp Require Import sorting.
From S2P Require Import Prelude Merge.

(** ** Depth *)

Lemma depth_elem l v : v ∈ l -> (depth v < depth (JList l))%nat.
Proof.
  intros Hv. simpl. induction Hv as [v l|v w l _ IH]; simpl; [lia|]. simpl in IH. lia.
Qed.

Lemma fold_depth (m : gmap string json) : forall k v, m !! k = Some v ->
  (depth v <= map_fold (fun _ x d => Nat.max (depth x) d) 0 m)%nat.
Proof.
  apply (fin_maps.map_fold_weak_ind (fun (r : nat) (m : gmap string json) => forall k v, m !! k = Some v -> (depth v <= r)%nat)).
  - intros k v. by rewrite lookup_empty.
  - intros i x m' r Hi IH k v. destruct (decide (i = k)) as [->|].
    + rewrite lookup_insert_eq. intros [= ->]. lia.
    + rewrite lookup_insert_ne by done. intros Hv. specialize (IH _ _ Hv). lia.
Qed.

Lemma depth_get m k : (depth (get m k) < depth (JObj m))%nat.
Proof.
  unfold get. destruct (m !! k) as [v|] eqn:E; simpl; [|lia]. apply fold_depth in E. lia.
Qed.

(** ** Patterns *)

Lemma Pattern_snoc path st : Pattern (path ++ [st]) = Pattern path +:+ patternStep (String.eqb (Pattern path) "") st.
Proof. unfold Pattern. by rewrite foldl_app. Qed.

Lemma Pattern_field path k : Pattern (path ++ [FieldStep k]) = field (Pattern path) k.
Proof.
  rewrite Pattern_snoc. unfold field, patternStep. destruct (String.eqb _ _) eqn:E; [|done].
  apply String.eqb_eq in E. by rewrite E.
Qed.

Lemma Pattern_element path k : Pattern (path ++ [ElementStep k]) = Pattern path +:+ "[]".
Proof. by rewrite Pattern_snoc. Qed.

Lemma substring_app_l s t : String.substring 0 (String.length s) (s +:+ t) = s.
Proof. induction s as [|c s IH]; simpl; [by destruct t|]. unfold String.append in *. simpl. by rewrite IH. Qed.

Lemma substring_app_r s t : String.substring (String.length s) (String.length t) (s +:+ t) = t.
Proof.
  induction s as [|c s IH]; simpl.
  - change (String.append "" t) with t. induction t as [|d t IH]; simpl; [done|]. by rewrite IH.
  - done.
Qed.

Lemma trimElements_app p : trimElements (p +:+ "[]") = p.
Proof.
  unfold trimElements. rewrite string_length_app. change (String.length "[]") with 2%nat.
  replace (String.length p + 2 - 2)%nat with (String.length p) by lia.
  change 2%nat with (String.length "[]") at 1. by rewrite substring_app_r, String.eqb_refl, substring_app_l.
Qed.

Lemma last_snoc_element path k : last (path ++ [ElementStep k]) = Some (ElementStep k).
Proof. apply last_snoc. Qed.

(** ** Canonical trees *)

Section canonical.
Context (s : Schema).

Lemma normalize_missing p : normalize s JMissing p = JMissing.
Proof. simpl. by rewrite andb_false_r. Qed.

Lemma normalize_list p l : normalize s (JList l) p = JList (map (fun el => normalize s el (p +:+ "[]")) l).
Proof. simpl. by rewrite andb_false_r. Qed.

Lemma normalize_obj p m : exists m', normalize s (JObj m) p = JObj m' /\
  forall k, m' !! k = match m !! k with
                      | Some el => let n := normalize s el (field p k) in if IsMissing n then None else Some n
                      | None => None
                      end.
Proof.
  simpl. rewrite andb_false_r. eexists. split; [done|].
  apply (fin_maps.map_fold_weak_ind (fun (r : gmap string json) (m : gmap string json) => forall k, r !! k = match m !! k with
    | Some el => let n := normalize s el (field p k) in if IsMissing n then None else Some n | None => None end)).
  - intros k. by rewrite !lookup_empty.
  - intros i x m' r Hi IH k. unfold put. destruct (decide (i = k)) as [->|Hne].
    + rewrite lookup_insert_eq. simpl. specialize (IH k). rewrite Hi in IH.
      destruct (IsMissing _); [done|]. by rewrite lookup_insert_eq.
    + rewrite (lookup_insert_ne m') by done. destruct (IsMissing _); [apply IH|]. rewrite lookup_insert_ne by done. apply IH.
Qed.

(** The tree of an element of a list at pattern [p]. *)
Definition elementTree (p : string) (el : json) : json := marshal (normalize s el (p +:+ "[]")).

Lemma canonical_list p l : canonicalAt s p (JList l) = JList (elementTree p <$> l).
Proof. unfold canonicalAt. rewrite normalize_list. simpl. f_equal. by rewrite map_map. Qed.

Lemma canonical_missing p : canonicalAt s p JMissing = JNull.
Proof. unfold canonicalAt. by rewrite normalize_missing. Qed.

Lemma marshal_str p v t : marshal (normalize s v p) = JStr t -> v = JStr t.
Proof. destruct v; simpl; destruct (_ && _); simpl; congruence. Qed.

(** The tree of an object has the trees of its values. *)
Lemma canonical_obj p m : exists c, canonicalAt s p (JObj m) = JObj c /\
  (forall k, canonicalAt s (field p k) (get m k) = default JNull (c !! k)) /\
  (forall k t, m !! k = Some (JStr t) -> field p k ∉ Unset s -> c !! k = Some (JStr t)) /\
  (forall k t, c !! k = Some (JStr t) -> m !! k = Some (JStr t)).
Proof.
  destruct (normalize_obj p m) as (m' & E & Hm'). exists (marshal <$> m'). unfold canonicalAt at 1. rewrite E.
  split; [done|]. split_and!; intros k.
  - rewrite lookup_fmap, Hm'. unfold get. destruct (m !! k) as [el|]; simpl; [|apply canonical_missing].
    unfold canonicalAt. by destruct (IsMissing _).
  - intros t Hk Hu. rewrite lookup_fmap, Hm', Hk. simpl. by rewrite bool_decide_false.
  - intros t. rewrite lookup_fmap, Hm'. destruct (m !! k) as [el|]; [|done]. simpl.
    destruct (IsMissing _) eqn:Ei; [done|]. intros [= Ht]. f_equal. by eapply marshal_str.
Qed.

Lemma canonical_not_obj p v : object v = None -> forall c, canonicalAt s p v <> JObj c.
Proof. intros Hv c. unfold canonicalAt. destruct v; simpl in *; destruct (_ && _); done. Qed.

Lemma canonical_not_list p v : isGroup v = false -> forall c, canonicalAt s p v <> JList c.
Proof. intros Hv c. unfold canonicalAt. destruct v; simpl in *; destruct (_ && _); done. Qed.

(** An object's tree as an element. *)
Lemma elementTree_obj p m : elementTree p (JObj m) = canonicalAt s (p +:+ "[]") (JObj m).
Proof. unfold elementTree, canonicalAt. destruct (normalize_obj (p +:+ "[]") m) as (m' & E & _). by rewrite E. Qed.

Lemma elementTree_not_obj p v : object v = None -> forall c, elementTree p v = JObj c -> c = ∅.
Proof. intros Hv c. unfold elementTree. destruct v; simpl in *; destruct (_ && _); simpl; by intros [=]. Qed.

End canonical.

(** ** Keyed lists *)

Section keyed.
Context (s : Schema).
Implicit Types (p key : string) (l : list json).

(** The elements of a list with a key. *)
Definition withKey p key l : list json := filter (fun el => elementKey s el p = Some key) l.

(** The value of the elements with a key: none, one, or a group. *)
Definition grouped (els : list json) : json := match els with [] => JMissing | _ => ungroup els end.

Lemma elementKey_obj el p key : elementKey s el p = Some key ->
  exists prop m, Lists s !! (p +:+ "[]") = Some prop /\ el = JObj m /\ m !! prop = Some (JStr key).
Proof.
  unfold elementKey. destruct (Lists s !! _) as [prop|]; [|done]. destruct el; simpl; try done.
  destruct (m !! prop) as [[]|] eqn:E; try done. intros [= ->]. eauto.
Qed.

Lemma withKey_nil p key : withKey p key [] = [].
Proof. done. Qed.

Lemma withKey_cons p key el l :
  withKey p key (el :: l) = if decide (elementKey s el p = Some key) then el :: withKey p key l else withKey p key l.
Proof. unfold withKey. rewrite filter_cons. by destruct (decide _). Qed.

Lemma withKey_app p key l l' : withKey p key (l ++ l') = withKey p key l ++ withKey p key l'.
Proof. apply filter_app. Qed.

Lemma groupLoop_spec p l : forall order groups, Forall (fun el => is_Some (elementKey s el p)) l ->
  (forall key, key ∈ order <-> is_Some (groups !! key)) -> NoDup order ->
  exists order' groups', groupLoop s p l order groups = Some (order', groups') /\ NoDup order' /\
    (forall key, key ∈ order' <-> is_Some (groups' !! key)) /\
    (forall key, groups' !! key = match withKey p key l with [] => groups !! key | els => Some (default [] (groups !! key) ++ els) end).
Proof.
  induction l as [|el l IH]; intros order groups Hl Ho Hnd; simpl; [eauto 10|].
  apply Forall_cons in Hl as [[key Hk] Hl]. rewrite Hk.
  set (order1 := match groups !! key with None => order ++ [key] | Some _ => order end).
  set (groups1 := <[key := default [] (groups !! key) ++ [el]]> groups).
  destruct (IH order1 groups1 Hl) as (order' & groups' & E & Hnd' & Ho' & Hg).
  - intros k. unfold order1, groups1. rewrite lookup_insert_is_Some. destruct (groups !! key) eqn:Eg.
    + rewrite Ho. destruct (decide (key = k)) as [->|]; [rewrite Eg|]; naive_solver.
    + rewrite elem_of_app, list_elem_of_singleton, Ho. destruct (decide (key = k)) as [->|]; naive_solver.
  - unfold order1. destruct (groups !! key) eqn:Eg; [done|]. apply NoDup_app. split_and!; [done| |apply NoDup_singleton].
    intros k Hin ->%list_elem_of_singleton. apply Ho in Hin as [? ?]. congruence.
  - exists order', groups'. split_and!; [done..|]. intros k. rewrite Hg, withKey_cons. unfold groups1.
    destruct (decide (key = k)) as [<-|Hne].
    + rewrite decide_True by done. rewrite lookup_insert_eq. simpl. destruct (withKey p key l); [done|]. by rewrite <- app_assoc.
    + rewrite decide_False by congruence. by rewrite lookup_insert_ne.
Qed.

Lemma groupLoop_none p l : forall order groups, ~ Forall (fun el => is_Some (elementKey s el p)) l ->
  groupLoop s p l order groups = None.
Proof.
  induction l as [|el l IH]; intros order groups Hl; simpl; [by destruct Hl|].
  destruct (elementKey s el p) as [key|] eqn:Ek; [|done]. apply IH. intros Hf. apply Hl. constructor; [by rewrite Ek|done].
Qed.

Definition allKeyed p l : Prop := Forall (fun el => is_Some (elementKey s el p)) l.

#[global] Instance allKeyed_dec p l : Decision (allKeyed p l).
Proof. unfold allKeyed. apply _. Defined.

(** keyed, as a specification: each key has the elements with it. *)
Lemma keyed_spec p l : allKeyed p l -> exists k, keyed s (JList l) p = Some k /\ NoDup (kl_order k) /\
  (forall key, key ∈ kl_order k <-> is_Some (kl_byKey k !! key)) /\
  (forall key, key ∈ kl_order k <-> withKey p key l <> []) /\
  (forall key, kget k key = grouped (withKey p key l)).
Proof.
  intros Hl. destruct (groupLoop_spec p l [] ∅ Hl) as (order & groups & E & Hnd & Ho & Hg).
  { intros key. rewrite lookup_empty. split; [by intros ?%elem_of_nil|by intros [? ?]]. } { constructor. }
  simpl. rewrite E. eexists. split; [done|]. simpl. split_and!; [done| | |].
  - intros key. by rewrite Ho, lookup_fmap, fmap_is_Some.
  - intros key. rewrite Ho, Hg, lookup_empty. destruct (withKey p key l); split; try done.
  - intros key. unfold kget, get. simpl. rewrite lookup_fmap, Hg, lookup_empty. by destruct (withKey p key l).
Qed.

Lemma keyed_inv p v k : keyed s v p = Some k -> exists l, v = JList l /\ allKeyed p l.
Proof.
  destruct v; try done. intros Hk. exists l. split; [done|]. destruct (decide (allKeyed p l)) as [?|Hn]; [done|].
  simpl in Hk. by rewrite groupLoop_none in Hk.
Qed.

Lemma keyed_none p l : ~ allKeyed p l -> keyed s (JList l) p = None.
Proof. intros Hn. simpl. by rewrite groupLoop_none. Qed.

(** One step of GetAt. *)
Definition step1 (done : Path) (v : json) (st : Step) : json :=
  match st with
  | FieldStep k => match object v with Some m => get m k | None => JMissing end
  | ElementStep key => match keyed s v (Pattern done) with Some k => kget k key | None => JMissing end
  end.

Lemma getFrom_missing done path : getFrom s JMissing done path = JMissing.
Proof. destruct path as [|[] path]; done. Qed.

Lemma getFrom_cons v done st path : getFrom s v done (st :: path) = getFrom s (step1 done v st) (done ++ [st]) path.
Proof.
  destruct st as [k|key]; simpl; [destruct (object v)|destruct (keyed _ _ _)]; by rewrite ?getFrom_missing.
Qed.

Lemma step1_element done key v : step1 done v (ElementStep key) =
  match v with JList l => if decide (allKeyed (Pattern done) l) then grouped (withKey (Pattern done) key l) else JMissing | _ => JMissing end.
Proof.
  destruct v; try done. unfold step1. case_decide as Hk.
  - destruct (keyed_spec _ _ Hk) as (k & -> & _ & _ & _ & Hg). by rewrite Hg.
  - by rewrite keyed_none.
Qed.

Lemma depth_grouped p key l v : grouped (withKey p key l) = v -> isGroup v = false -> (depth v < depth (JList l))%nat.
Proof.
  intros <-. unfold grouped. destruct (withKey p key l) as [|x [|y r]] eqn:E; simpl; try done; [lia|].
  intros _. assert (x ∈ l) as Hx.
  { assert (x ∈ withKey p key l) as Hin by (rewrite E; left). unfold withKey in Hin. by apply list_elem_of_filter in Hin as [_ ?]. }
  by apply depth_elem in Hx.
Qed.

End keyed.

(** ** Sameness goes down paths *)

(** The rules a schema keeps (configapp's mergeSchema builds them from struct
    types): a list's key property is not one whose zero means unset, and no
    list of keyed elements is itself an element. *)
Record wf_schema (s : Schema) : Prop := {
  wf_key : forall p prop, Lists s !! (p +:+ "[]") = Some prop -> field (p +:+ "[]") prop ∉ Unset s;
  wf_flat : forall p, Lists s !! ((p +:+ "[]") +:+ "[]") = None;
}.

Section same.
Context (s : Schema) (Hs : wf_schema s).

(** The tree sameAt compares. *)
Definition canonOf (path : Path) (v : json) : json :=
  if match last path with Some st => IsElement st | None => false end
  then canonicalElement s (Pattern path) v else canonicalAt s (Pattern path) v.

Lemma sameAt_canonOf path a b : sameAt s path a b = true <-> canonOf path a = canonOf path b.
Proof. unfold sameAt, canonOf, sameElements. destruct (last path) as [[]|]; simpl; apply bool_decide_eq_true. Qed.

Lemma canonOf_not_list path v : isGroup v = false -> canonOf path v = canonicalAt s (Pattern path) v.
Proof. intros Hv. unfold canonOf. destruct (match last path with Some st => _ | None => _ end); [|done]. by destruct v. Qed.

Lemma canonOf_field path k v : canonOf (path ++ [FieldStep k]) v = canonicalAt s (field (Pattern path) k) v.
Proof. unfold canonOf. rewrite last_snoc. simpl. by rewrite Pattern_field. Qed.

Lemma canonOf_element path k v : canonOf (path ++ [ElementStep k]) v =
  match v with JList _ => canonicalAt s (Pattern path) v | _ => canonicalAt s (Pattern path +:+ "[]") v end.
Proof.
  unfold canonOf. rewrite last_snoc. simpl. rewrite Pattern_element. unfold canonicalElement. by rewrite trimElements_app.
Qed.

Lemma canonOf_obj_iff path a b ma : canonOf path a = canonOf path b -> object a = Some ma -> exists mb, object b = Some mb.
Proof.
  intros E Ha. destruct a; try done. injection Ha as ->. rewrite (canonOf_not_list _ (JObj ma)) in E by done.
  destruct (canonical_obj s (Pattern path) ma) as (c & Ec & _). rewrite Ec in E.
  destruct (object b) as [mb|] eqn:Hb; [eauto|]. exfalso. destruct (isGroup b) eqn:Hg.
  - destruct b; try done. unfold canonOf, canonicalElement in E. destruct (match last path with Some st => _ | None => _ end);
      rewrite canonical_list in E; done.
  - rewrite canonOf_not_list in E by done. by apply (canonical_not_obj s (Pattern path) b Hb c).
Qed.

Lemma canonOf_list_iff path a b la : canonOf path a = canonOf path b -> a = JList la -> exists lb, b = JList lb.
Proof.
  intros E ->. destruct (isGroup b) eqn:Hg; [destruct b; try done; eauto|]. exfalso.
  rewrite (canonOf_not_list _ b Hg) in E. unfold canonOf, canonicalElement in E.
  destruct (match last path with Some st => _ | None => _ end); rewrite canonical_list in E; symmetry in E;
    by apply canonical_not_list in E.
Qed.

(** An element's key is read off its tree. *)
Lemma elementKey_tree p a b : elementTree s p a = elementTree s p b -> elementKey s a p = elementKey s b p.
Proof using Hs.
  assert (forall a b key, elementTree s p a = elementTree s p b -> elementKey s a p = Some key -> elementKey s b p = Some key) as H.
  { clear a b. intros a b key E Ha. apply elementKey_obj in Ha as (prop & m & Hp & -> & Hm).
    rewrite elementTree_obj in E. destruct (canonical_obj s (p +:+ "[]") m) as (c & Ec & _ & Hc & _). rewrite Ec in E.
    assert (c !! prop = Some (JStr key)) as Hk by (apply Hc; [done|by apply (wf_key s Hs)]).
    destruct (object b) as [mb|] eqn:Hb.
    - destruct b; try done. injection Hb as ->. rewrite elementTree_obj in E.
      destruct (canonical_obj s (p +:+ "[]") mb) as (c' & Ec' & _ & _ & Hc'). rewrite Ec' in E. injection E as <-.
      unfold elementKey. rewrite Hp. simpl. by rewrite (Hc' _ _ Hk).
    - symmetry in E. apply elementTree_not_obj in E; [|done]. subst c. by rewrite lookup_empty in Hk. }
  intros E. destruct (elementKey s a p) as [key|] eqn:Ea; [symmetry; by eapply H|].
  destruct (elementKey s b p) as [key|] eqn:Eb; [|done]. exfalso.
  rewrite (H b a key) in Ea; done.
Qed.

Lemma withKey_tree p key la : forall lb, elementTree s p <$> la = elementTree s p <$> lb ->
  elementTree s p <$> withKey s p key la = elementTree s p <$> withKey s p key lb.
Proof using Hs.
  induction la as [|a la IH]; intros [|b lb] E; try done. injection E as E1 E2. rewrite !withKey_cons.
  rewrite (elementKey_tree p a b E1). destruct (decide _); [|by apply IH]. rewrite !fmap_cons, E1. f_equal. by apply IH.
Qed.

Lemma allKeyed_tree p la : forall lb, elementTree s p <$> la = elementTree s p <$> lb -> allKeyed s p la -> allKeyed s p lb.
Proof using Hs.
  unfold allKeyed. induction la as [|a la IH]; intros [|b lb] E H; try done. injection E as E1 E2.
  apply Forall_cons in H as [H1 H2]. constructor; [by rewrite <- (elementKey_tree p a b E1)|by apply IH].
Qed.

Lemma withKey_obj p key l x : x ∈ withKey s p key l -> exists m, x = JObj m.
Proof. intros [Hx _]%list_elem_of_filter. apply elementKey_obj in Hx as (_ & m & _ & -> & _). eauto. Qed.

Lemma canonOf_grouped path key la lb : elementTree s (Pattern path) <$> la = elementTree s (Pattern path) <$> lb ->
  canonOf (path ++ [ElementStep key]) (grouped (withKey s (Pattern path) key la)) =
  canonOf (path ++ [ElementStep key]) (grouped (withKey s (Pattern path) key lb)).
Proof using Hs.
  intros E. apply (withKey_tree _ key) in E.
  pose proof (withKey_obj (Pattern path) key la) as Ha. pose proof (withKey_obj (Pattern path) key lb) as Hb.
  rewrite !canonOf_element. destruct (withKey s _ key la) as [|a [|a' ra]], (withKey s _ key lb) as [|b [|b' rb]]; try done.
  - destruct (Ha a) as [ma ->]; [left|]. destruct (Hb b) as [mb ->]; [left|]. simpl. simpl in E. injection E as E.
    by rewrite !elementTree_obj in E.
  - cbn [grouped ungroup]. by rewrite !canonical_list, E.
Qed.

(** Values that are the same are the same at every step under them. *)
Lemma same_step path a b st : canonOf path a = canonOf path b ->
  canonOf (path ++ [st]) (step1 s path a st) = canonOf (path ++ [st]) (step1 s path b st).
Proof using Hs.
  intros E. destruct st as [k|key].
  - rewrite !canonOf_field. simpl. destruct (object a) as [ma|] eqn:Ha.
    + destruct (canonOf_obj_iff _ _ _ _ E Ha) as [mb Hb]. rewrite Hb. destruct a, b; try done.
      injection Ha as ->; injection Hb as ->. rewrite !canonOf_not_list in E by done.
      destruct (canonical_obj s (Pattern path) ma) as (ca & Ea & Hca & _), (canonical_obj s (Pattern path) mb) as (cb & Eb & Hcb & _).
      rewrite Hca, Hcb. congruence.
    + destruct (object b) as [mb|] eqn:Hb; [|done]. destruct (canonOf_obj_iff _ _ _ _ (eq_sym E) Hb). congruence.
  - rewrite !step1_element. destruct (isGroup a) eqn:Ga.
    + destruct a as [| | | |la| |]; try done. destruct (canonOf_list_iff _ _ _ _ E eq_refl) as [lb ->].
      destruct (last path) as [[k|k]|] eqn:El.
      1,3: unfold canonOf in E; rewrite El in E; simpl in E; rewrite !canonical_list in E; injection E as E;
        destruct (decide (allKeyed s _ la)) as [Ka|Ka], (decide (allKeyed s _ lb)) as [Kb|Kb]; [by apply canonOf_grouped| | |done];
        exfalso; [by apply Kb, (allKeyed_tree _ la)|by apply Ka, (allKeyed_tree _ lb)].
      apply last_Some in El as [path0 ->]. rewrite Pattern_element.
      assert (forall l, (if decide (allKeyed s (Pattern path0 +:+ "[]") l) then grouped (withKey s (Pattern path0 +:+ "[]") key l) else JMissing) = JMissing) as Hm.
      { intros l. case_decide as Hk; [|reflexivity]. destruct l as [|x l]; [reflexivity|]. apply Forall_cons in Hk as [[y Hy] _].
        unfold elementKey in Hy. by rewrite (wf_flat s Hs) in Hy. }
      by rewrite !Hm.
    + destruct (isGroup b) eqn:Gb; [|by destruct a, b].
      destruct b as [| | | |lb| |]; try done. destruct (canonOf_list_iff _ _ _ _ (eq_sym E) eq_refl) as [la ->]. done.
Qed.

Lemma same_getFrom q : forall path a b, canonOf path a = canonOf path b ->
  canonOf (path ++ q) (getFrom s a path q) = canonOf (path ++ q) (getFrom s b path q).
Proof using Hs.
  induction q as [|st q IH]; intros path a b E; [by rewrite app_nil_r|]. rewrite !getFrom_cons.
  replace (path ++ st :: q) with ((path ++ [st]) ++ q) by by rewrite <- app_assoc. by apply IH, same_step.
Qed.

End same.


(** * What the three-way merge of core/workspace promises. *)

(** ** The loops of mergeObjects and mergeLists *)

Section loops.
Context (s : Schema).
Implicit Types (rec : json -> json -> json -> Path -> json * list ValueConflict).

Lemma allKeys_elem ms k : k ∈ allKeys ms <-> exists m, m ∈ ms /\ is_Some (m !! k).
Proof.
  unfold allKeys. rewrite elem_of_elements, elem_of_union_list. split.
  - intros (X & (m & -> & Hm)%list_elem_of_fmap & Hk). exists m. by rewrite <- elem_of_dom.
  - intros (m & Hm & Hk). exists (dom m). split; [|by apply elem_of_dom]. apply list_elem_of_fmap. eauto.
Qed.

Lemma get_absent ms m k : k ∉ allKeys ms -> m ∈ ms -> get m k = JMissing.
Proof.
  intros Hk Hm. unfold get. destruct (m !! k) eqn:E; [|done]. destruct Hk. apply allKeys_elem. eauto.
Qed.

Lemma mergeObjects_fold rec base local next path ks : NoDup ks -> forall acc,
  (forall k, k ∈ ks -> acc.1 !! k = None) ->
  let r := foldl (fun acc k =>
             let '(v, cs) := rec (get base k) (get local k) (get next k) (path ++ [FieldStep k]) in
             (put k v acc.1, acc.2 ++ cs)) acc ks in
  (forall k, get r.1 k = if decide (k ∈ ks) then (rec (get base k) (get local k) (get next k) (path ++ [FieldStep k])).1 else get acc.1 k) /\
  (forall c, c ∈ r.2 <-> c ∈ acc.2 \/ exists k, k ∈ ks /\ c ∈ (rec (get base k) (get local k) (get next k) (path ++ [FieldStep k])).2).
Proof.
  induction ks as [|x ks IH]; intros Hnd acc Hacc; simpl.
  - split; [done|]. intros c. split; [auto|].
    intros [?|(k & ?%elem_of_nil & _)]; done.
  - apply NoDup_cons in Hnd as [Hx Hnd]. destruct (rec (get base x) _ _ _) as [v cs] eqn:Er.
    destruct (IH Hnd (put x v acc.1, acc.2 ++ cs)) as [H1 H2].
    { intros k Hk. simpl. unfold put. assert (x <> k) by (intros ->; done).
      destruct (IsMissing v); [apply Hacc; by right|]. rewrite lookup_insert_ne by done. apply Hacc. by right. }
    split.
    + intros k. rewrite H1. destruct (decide (k = x)) as [->|Hne].
      * rewrite decide_False, decide_True by (done || left). rewrite Er. simpl. unfold get, put.
        destruct v; simpl; rewrite ?lookup_insert_eq; try done. by rewrite (Hacc x) by left.
      * assert (k ∈ ks <-> k ∈ x :: ks) as Hiff by (rewrite elem_of_cons; intuition congruence).
        rewrite (decide_ext _ _ _ _ Hiff). destruct (decide (k ∈ x :: ks)); [done|]. simpl. unfold get, put.
        destruct (IsMissing v); [done|]. by rewrite lookup_insert_ne.
    + intros c. rewrite H2. simpl. rewrite elem_of_app. setoid_rewrite elem_of_cons. split.
      * intros [[?|?]|(k & ? & ?)]; [by left|right; exists x; rewrite Er; auto|right; eauto].
      * intros [?|(k & [->|?] & Hc)]; [auto|rewrite Er in Hc; auto|right; eauto].
Qed.

Lemma sortConflicts_elem cs c : c ∈ sortConflicts cs <-> c ∈ cs.
Proof. unfold sortConflicts. by rewrite (merge_sort_Permutation _ cs). Qed.

Lemma mergeObjects_spec rec base local next path : exists m cs,
  mergeObjects rec base local next path = (JObj m, cs) /\
  (forall k, get m k = if decide (k ∈ allKeys [local; next; base])
     then (rec (get base k) (get local k) (get next k) (path ++ [FieldStep k])).1 else JMissing) /\
  (forall c, c ∈ cs <-> exists k, k ∈ allKeys [local; next; base] /\
     c ∈ (rec (get base k) (get local k) (get next k) (path ++ [FieldStep k])).2).
Proof.
  unfold mergeObjects. destruct (mergeObjects_fold rec base local next path (allKeys [local; next; base])
    (NoDup_elements _) (∅, []) ltac:(intros; apply lookup_empty)) as [H1 H2].
  destruct (foldl _ _ _) as [m cs]. simpl in *. exists m, (sortConflicts cs). split; [done|]. split.
  - intros k. rewrite H1. unfold get at 4. by rewrite lookup_empty.
  - intros c. rewrite sortConflicts_elem, H2, elem_of_nil. naive_solver.
Qed.

Lemma mergeLists_fold rec base local next path ks : forall acc,
  let r := foldl (fun acc key => let '(v, cs) := mergeElement s rec base local next path key in
             (acc.1 ++ spread v, acc.2 ++ cs)) acc ks in
  r.1 = acc.1 ++ concat (map (fun key => spread (mergeElement s rec base local next path key).1) ks) /\
  (forall c, c ∈ r.2 <-> c ∈ acc.2 \/ exists key, key ∈ ks /\ c ∈ (mergeElement s rec base local next path key).2).
Proof.
  induction ks as [|x ks IH]; intros acc; simpl.
  - split; [by rewrite app_nil_r|]. intros c. split; [auto|]. intros [?|(k & ?%elem_of_nil & _)]; done.
  - destruct (mergeElement s rec base local next path x) as [v cs] eqn:Er.
    destruct (IH (acc.1 ++ spread v, acc.2 ++ cs)) as [H1 H2]. split.
    + rewrite H1. simpl. by rewrite <- app_assoc.
    + intros c. rewrite H2. simpl. rewrite elem_of_app. setoid_rewrite elem_of_cons. split.
      * intros [[?|?]|(k & ? & ?)]; [by left|right; exists x; rewrite Er; auto|right; eauto].
      * intros [?|(k & [->|?] & Hc)]; [auto|rewrite Er in Hc; auto|right; eauto].
Qed.

Lemma mergeLists_spec rec base local next path : exists cs,
  mergeLists s rec base local next path =
    (JList (concat (map (fun key => spread (mergeElement s rec base local next path key).1) (mergeOrder local next))), cs) /\
  (forall c, c ∈ cs <-> exists key, key ∈ mergeOrder local next /\ c ∈ (mergeElement s rec base local next path key).2).
Proof.
  unfold mergeLists. destruct (mergeLists_fold rec base local next path (mergeOrder local next) ([], [])) as [H1 H2].
  destruct (foldl _ _ _) as [m cs]. simpl in *. exists cs. subst m. split; [done|].
  intros c. rewrite H2, elem_of_nil. naive_solver.
Qed.

(** ** The recursion ends *)

Lemma mergeElement_ext r1 r2 base local next path key :
  (isGroup (kget local key) = false -> forall b n p, r1 b (kget local key) n p = r2 b (kget local key) n p) ->
  mergeElement s r1 base local next path key = mergeElement s r2 base local next path key.
Proof.
  intros H. unfold mergeElement. destruct (isGroup (kget base key)), (isGroup (kget local key)), (isGroup (kget next key)); simpl; auto using eq_refl; by apply H.
Qed.

Lemma foldl_ext_in {A B} (f g : A -> B -> A) l a :
  (forall a b, b ∈ l -> f a b = g a b) -> foldl f a l = foldl g a l.
Proof.
  revert a. induction l as [|b l IH]; intros a H; simpl; [done|]. rewrite H by left.
  apply IH. intros a' b' Hb. apply H. by right.
Qed.

(** The body of merge calls itself on smaller local values only. *)
Lemma mergeStep_ext r1 r2 base local next path :
  (forall b l n p, (depth l < depth local)%nat -> r1 b l n p = r2 b l n p) ->
  mergeStep s r1 base local next path = mergeStep s r2 base local next path.
Proof.
  intros H. unfold mergeStep. destruct (sameAt _ _ _ _); [done|]. destruct (_ || _); [done|].
  assert (forall kb kl kn, keyed s local (Pattern path) = Some kl -> mergeLists s r1 kb kl kn path = mergeLists s r2 kb kl kn path) as HL.
  { intros kb kl kn Hk. unfold mergeLists.
    match goal with |- (let '(_, _) := ?a in _) = (let '(_, _) := ?b in _) => assert (a = b) as ->; [|done] end.
    apply foldl_ext_in. intros acc key _.
    rewrite (mergeElement_ext r1 r2); [done|]. intros Hg b n p. apply H.
    destruct (keyed_inv _ _ _ _ Hk) as (l & -> & Hl). destruct (keyed_spec s _ _ Hl) as (k & Ek & _ & _ & _ & Hget).
    rewrite Ek in Hk. injection Hk as <-. rewrite Hget in *. by eapply depth_grouped. }
  assert (forall b, match keyed s b (Pattern path), keyed s local (Pattern path), keyed s next (Pattern path) with
    | Some b, Some l, Some n => mergeLists s r1 b l n path | _, _, _ => (local, [mkConflict path local next]) end =
    match keyed s b (Pattern path), keyed s local (Pattern path), keyed s next (Pattern path) with
    | Some b, Some l, Some n => mergeLists s r2 b l n path | _, _, _ => (local, [mkConflict path local next]) end) as HL'.
  { intros b. destruct (keyed s b _); [|done]. destruct (keyed s local _) eqn:El; [|done]. destruct (keyed s next _); [|done]. by apply HL. }
  destruct (object local) as [lo|] eqn:Ho; [|apply HL']. destruct (object next) as [no|]; [|apply HL'].
  destruct local; try done. injection Ho as ->.
  destruct (if IsMissing base then _ else _) as [bo|]; [|apply HL']. unfold mergeObjects.
  match goal with |- (let '(_, _) := ?a in _) = (let '(_, _) := ?b in _) => assert (a = b) as ->; [|done] end.
  apply foldl_ext_in. intros acc k _. rewrite H; [done|apply depth_get].
Qed.

Lemma mergeFuel_enough n : forall n' base local next path, (depth local < n)%nat -> (depth local < n')%nat ->
  mergeFuel s n base local next path = mergeFuel s n' base local next path.
Proof.
  induction n as [|n IH]; intros [|n'] base local next path H H'; try lia. simpl. apply mergeStep_ext.
  intros b l x p Hl. apply IH; lia.
Qed.

Lemma merge_unfold base local next path : Merge s base local next path = mergeStep s (Merge s) base local next path.
Proof. unfold Merge at 1. simpl. apply mergeStep_ext. intros b l n p Hl. apply mergeFuel_enough; lia. Qed.

(** Merge's recursion is well founded and its fuel is enough: any fuel
    past the depth of the local value gives the same result, which satisfies
    the recursive equation of the source at every value and path; so no
    result is one of fuel running out. *)
Theorem merge_terminates base local next path :
  (forall n, (depth local < n)%nat -> mergeFuel s n base local next path = Merge s base local next path) /\
  Merge s base local next path = mergeStep s (Merge s) base local next path.
Proof. split; [|apply merge_unfold]. intros n Hn. apply mergeFuel_enough; lia. Qed.

(** ** Keys of merged elements *)

Lemma merge_same base x path : Merge s base x x path = (x, []).
Proof.
  rewrite merge_unfold. unfold mergeStep. destruct (sameAt s path x base); [done|].
  replace (sameAt s path x x) with true; [by rewrite orb_true_r|]. symmetry. by apply sameAt_canonOf.
Qed.

(** A value of key [key]: nothing, an element with the key, or a group. *)
Definition keyOk (p key : string) (v : json) : Prop :=
  grouped (spread v) = v /\ Forall (fun el => elementKey s el p = Some key) (spread v).

Lemma spread_grouped p key l : spread (grouped (withKey s p key l)) = withKey s p key l.
Proof.
  pose proof (withKey_obj s p key l) as Ho. destruct (withKey s p key l) as [|x [|y r]]; [done| |done].
  destruct (Ho x) as [m ->]; [left|]. done.
Qed.

Lemma keyOk_grouped p key l : keyOk p key (grouped (withKey s p key l)).
Proof.
  split; rewrite spread_grouped; [done|]. apply Forall_forall. intros x [? _]%list_elem_of_filter. done.
Qed.

Lemma keyOk_kget p v k key : keyed s v p = Some k -> keyOk p key (kget k key).
Proof.
  intros Hk. destruct (keyed_inv _ _ _ _ Hk) as (l & -> & Hl). destruct (keyed_spec s _ _ Hl) as (k' & Ek & _ & _ & _ & Hget).
  rewrite Ek in Hk. injection Hk as <-. rewrite Hget. apply keyOk_grouped.
Qed.

Lemma keyOk_obj p key m : keyOk p key (JObj m) <-> elementKey s (JObj m) p = Some key.
Proof. split; [intros [_ H]; by inversion H|]. intros H. split; [done|]. by constructor. Qed.

Lemma merge_keyOk base local next path key :
  keyOk (Pattern path) key local -> keyOk (Pattern path) key next -> isGroup local = false ->
  keyOk (Pattern path) key (Merge s base local next (path ++ [ElementStep key])).1.
Proof.
  intros Hl Hn Hg. rewrite merge_unfold. unfold mergeStep. destruct (sameAt _ _ _ _); [done|]. destruct (_ || _); [done|].
  assert (forall b, keyOk (Pattern path) key (match keyed s b (Pattern (path ++ [ElementStep key])), keyed s local (Pattern (path ++ [ElementStep key])), keyed s next (Pattern (path ++ [ElementStep key])) with
    | Some b, Some l, Some n => mergeLists s (Merge s) b l n (path ++ [ElementStep key])
    | _, _, _ => (local, [mkConflict (path ++ [ElementStep key]) local next]) end).1) as HL.
  { intros b. replace (keyed s local (Pattern (path ++ [ElementStep key]))) with (@None keyedList) by by destruct local.
    by destruct (keyed s b _). }
  destruct (object local) as [lo|] eqn:Ho; [|apply HL]. destruct (object next) as [no|] eqn:Hon; [|apply HL].
  destruct local, next; try done. injection Ho as ->; injection Hon as ->.
  destruct (if IsMissing base then _ else _) as [bo|]; [|apply HL].
  destruct (mergeObjects_spec (Merge s) bo lo no (path ++ [ElementStep key])) as (m & cs & -> & Hm & _). simpl.
  apply keyOk_obj in Hl, Hn. apply keyOk_obj. apply elementKey_obj in Hl as (prop & lo' & Hp & [= <-] & Hlp).
  apply elementKey_obj in Hn as (prop' & no' & Hp' & [= <-] & Hnp). rewrite Hp in Hp'. injection Hp' as <-.
  specialize (Hm prop). rewrite decide_True in Hm by (apply allKeys_elem; exists lo; split; [left|by rewrite Hlp]).
  unfold get in Hm at 3 4. rewrite Hlp, Hnp in Hm. simpl in Hm. rewrite merge_same in Hm. simpl in Hm.
  unfold elementKey. rewrite Hp. simpl. unfold get in Hm. destruct (m !! prop); simpl in Hm; [by subst|done].
Qed.

Lemma whole_keyOk p base local next path key : keyOk p key local -> keyOk p key next -> keyOk p key (whole s base local next path).1.
Proof. intros. unfold whole. by repeat case_match. Qed.

Lemma mergeElement_keyOk base local next path key vb vl vn :
  keyed s vb (Pattern path) = Some base -> keyed s vl (Pattern path) = Some local -> keyed s vn (Pattern path) = Some next ->
  keyOk (Pattern path) key (mergeElement s (Merge s) base local next path key).1.
Proof.
  intros Hb Hl Hn. pose proof (keyOk_kget _ _ _ key Hl). pose proof (keyOk_kget _ _ _ key Hn).
  unfold mergeElement. destruct (isGroup (kget base key)) eqn:E1; [by apply whole_keyOk|].
  destruct (isGroup (kget local key)) eqn:E2; [by apply whole_keyOk|].
  destruct (isGroup (kget next key)) eqn:E3; [by apply whole_keyOk|]. by apply merge_keyOk.
Qed.

Lemma withKey_concat p key f ks : NoDup ks -> (forall k, k ∈ ks -> Forall (fun el => elementKey s el p = Some k) (f k)) ->
  withKey s p key (concat (map f ks)) = if decide (key ∈ ks) then f key else [].
Proof.
  assert (forall k, Forall (fun el => elementKey s el p = Some k) (f k) -> withKey s p key (f k) = if decide (k = key) then f k else []) as Hone.
  { intros k. induction 1 as [|x l Hx _ IH]; [by destruct (decide _)|]. rewrite withKey_cons, IH.
    destruct (decide (k = key)) as [->|]; [by rewrite decide_True|]. rewrite decide_False by congruence. done. }
  induction ks as [|k ks IH]; intros Hnd Hf; [done|]. apply NoDup_cons in Hnd as [Hk Hnd]. cbn [map concat].
  rewrite withKey_app, Hone by (apply Hf; left). rewrite IH; [|done|intros; apply Hf; by right].
  destruct (decide (k = key)) as [->|Hne].
  - rewrite decide_False by done. rewrite decide_True by left. by rewrite app_nil_r.
  - simpl. apply decide_ext. rewrite elem_of_cons. intuition congruence.
Qed.

End loops.

(** ** What a merge keeps *)

Section kept.
Context (s : Schema) (Hs : wf_schema s).
Implicit Types (path q : Path).

Lemma NoDup_mergeOrder vl vn p local next : keyed s vl p = Some local -> keyed s vn p = Some next ->
  NoDup (mergeOrder local next) /\
  forall key, key ∉ mergeOrder local next -> kget local key = JMissing /\ kget next key = JMissing.
Proof.
  intros Hl Hn. destruct (keyed_inv _ _ _ _ Hl) as (ll & -> & Kl), (keyed_inv _ _ _ _ Hn) as (ln & -> & Kn).
  destruct (keyed_spec s _ _ Kl) as (k & Ek & Nl & Ol & Wl & Gl). rewrite Ek in Hl. injection Hl as ->.
  destruct (keyed_spec s _ _ Kn) as (k & Ek' & Nn & On & Wn & Gn). rewrite Ek' in Hn. injection Hn as ->.
  unfold mergeOrder. split.
  - apply NoDup_app. split_and!; [done| |by apply NoDup_filter].
    intros key Hk [Hno _]%list_elem_of_filter. apply Ol in Hk as [? ?]. congruence.
  - intros key Hk. rewrite elem_of_app, list_elem_of_filter in Hk.
    assert (kl_byKey local !! key = None) as E1.
    { destruct (kl_byKey local !! key) eqn:E; [|done]. destruct Hk. left. apply Ol. eauto. }
    assert (kl_byKey next !! key = None) as E2.
    { destruct (kl_byKey next !! key) eqn:E; [|done]. destruct Hk. right. split; [done|]. apply On. eauto. }
    unfold kget, get. by rewrite E1, E2.
Qed.

(** The merged list has a key for each of its elements. *)
Lemma mergeLists_keyed vb vl vn base local next path :
  keyed s vb (Pattern path) = Some base -> keyed s vl (Pattern path) = Some local -> keyed s vn (Pattern path) = Some next ->
  exists l, (mergeLists s (Merge s) base local next path).1 = JList l /\ allKeyed s (Pattern path) l.
Proof.
  intros Hb Hl Hn. destruct (mergeLists_spec s (Merge s) base local next path) as (cs & -> & _). eexists. split; [done|].
  unfold allKeyed. apply Forall_concat, Forall_map, Forall_forall. intros k _.
  eapply Forall_impl; [by eapply mergeElement_keyOk|]. simpl. intros x ->. eauto.
Qed.

(** The merged list has, by key, the merged elements. *)
Lemma mergeLists_step1 vb vl vn base local next path key :
  keyed s vb (Pattern path) = Some base -> keyed s vl (Pattern path) = Some local -> keyed s vn (Pattern path) = Some next ->
  step1 s path (mergeLists s (Merge s) base local next path).1 (ElementStep key) =
    if decide (key ∈ mergeOrder local next) then (mergeElement s (Merge s) base local next path key).1 else JMissing.
Proof.
  intros Hb Hl Hn. destruct (mergeLists_keyed _ _ _ _ _ _ path Hb Hl Hn) as (l & El & Hkeyed).
  destruct (mergeLists_spec s (Merge s) base local next path) as (cs & Es & _). rewrite Es in *. injection El as <-. rewrite step1_element. simpl.
  destruct (NoDup_mergeOrder _ _ _ _ _ Hl Hn) as [Hnd _].
  assert (forall k, keyOk s (Pattern path) k (mergeElement s (Merge s) base local next path k).1) as Hok
    by (intros k; by eapply mergeElement_keyOk).
  rewrite decide_True by done. rewrite withKey_concat; [|done|intros k _; apply Hok]. destruct (decide _); [|done]. apply Hok.
Qed.

(** Values merged part by part, with the value merged of them: three objects,
    or three lists whose elements all have a key (so that GetAt goes into
    each), base of the kind too, or Missing. *)
Definition partwise (path : Path) (base local next v : json) : Prop :=
  ((base = JMissing \/ is_Some (object base)) /\ is_Some (object local) /\ is_Some (object next) /\ is_Some (object v)) \/
  ((base = JMissing \/ is_Some (keyed s base (Pattern path))) /\ is_Some (keyed s local (Pattern path)) /\
   is_Some (keyed s next (Pattern path)) /\ is_Some (keyed s v (Pattern path))).

(** At [q] under [path], changes of one side only are taken, and both sides'
    only when they agree, or part by part. *)
Definition keptAt path (base local next v : json) q : Prop :=
  let same a b := canonOf s (path ++ q) (getFrom s a path q) = canonOf s (path ++ q) (getFrom s b path q) in
  (same local base -> same v next) /\
  (same next base -> same v local) /\
  (same local next -> same v local) /\
  (~ same local base -> ~ same next base -> ~ same local next ->
     partwise (path ++ q) (getFrom s base path q) (getFrom s local path q) (getFrom s next path q) (getFrom s v path q)).

Lemma kept_next path (base local next : json) q : canonOf s path local = canonOf s path base -> keptAt path base local next next q.
Proof using Hs. intros E. apply (same_getFrom s Hs q) in E. unfold keptAt. repeat split; (done || congruence). Qed.

Lemma kept_local path (base local next : json) q : canonOf s path next = canonOf s path base \/ canonOf s path next = canonOf s path local ->
  keptAt path base local next local q.
Proof using Hs.
  intros [E|E]; apply (same_getFrom s Hs q) in E; unfold keptAt; repeat split; (done || congruence).
Qed.

Lemma kept_equal path base x q : keptAt path base x x x q.
Proof. unfold keptAt. by repeat split. Qed.

Lemma kept_here path base local next v : canonOf s path local <> canonOf s path base -> canonOf s path next <> canonOf s path base ->
  canonOf s path next <> canonOf s path local -> partwise path base local next v -> keptAt path base local next v [].
Proof. intros D1 D2 D3 H. unfold keptAt. simpl. rewrite app_nil_r. repeat split; try done; congruence. Qed.

Lemma kept_cons path base local next v st q :
  keptAt (path ++ [st]) (step1 s path base st) (step1 s path local st) (step1 s path next st) (step1 s path v st) q ->
  keptAt path base local next v (st :: q).
Proof. unfold keptAt. rewrite !getFrom_cons, <- app_assoc. done. Qed.

(** A conflict at or above [q]. *)
Definition conflictAbove (cs : list ValueConflict) path q : Prop :=
  exists c q1 q2, c ∈ cs /\ V_Path c = path ++ q1 /\ q = q1 ++ q2.

Lemma conflictAbove_cons cs cs' path st q : (forall c, c ∈ cs -> c ∈ cs') -> conflictAbove cs (path ++ [st]) q -> conflictAbove cs' path (st :: q).
Proof. intros Hc (c & q1 & q2 & ? & E & ->). exists c, (st :: q1), q2. rewrite E, <- app_assoc. auto. Qed.

Lemma conflictAbove_here path q mine theirs : conflictAbove [mkConflict path mine theirs] path q.
Proof. exists (mkConflict path mine theirs), [], q. rewrite app_nil_r. split; [left|done]. Qed.

Lemma whole_kept base local next path key q :
  let r := whole s base local next (path ++ [ElementStep key]) in
  conflictAbove r.2 (path ++ [ElementStep key]) q \/ keptAt (path ++ [ElementStep key]) base local next r.1 q.
Proof using Hs.
  assert (forall a b, sameElements s (path ++ [ElementStep key]) a b = true <-> canonOf s (path ++ [ElementStep key]) a = canonOf s (path ++ [ElementStep key]) b) as E.
  { intros a b. rewrite <- sameAt_canonOf. unfold sameAt. by rewrite last_snoc. }
  unfold whole. destruct (sameElements s _ local base) eqn:E1; [right; by apply kept_next, E|].
  destruct (sameElements s _ next base) eqn:E2; [right; apply kept_local; left; by apply E|].
  destruct (sameElements s _ next local) eqn:E3; [right; apply kept_local; right; by apply E|].
  left. apply conflictAbove_here.
Qed.

(** The three ways merge ends without recursion, the first two with no conflict. *)
Lemma merge_cases base local next path (P : json * list ValueConflict -> Prop) :
  (canonOf s path local = canonOf s path base -> P (next, [])) ->
  (canonOf s path next = canonOf s path base \/ canonOf s path next = canonOf s path local -> P (local, [])) ->
  (canonOf s path local <> canonOf s path base -> canonOf s path next <> canonOf s path base -> canonOf s path next <> canonOf s path local ->
     P (local, [mkConflict path local next]) /\
     (forall bo lo no, (base = JObj bo \/ base = JMissing /\ bo = ∅) -> local = JObj lo -> next = JObj no ->
        P (mergeObjects (Merge s) bo lo no path)) /\
     (forall b l n, keyed s (if IsMissing base then JList [] else base) (Pattern path) = Some b -> keyed s local (Pattern path) = Some l ->
        keyed s next (Pattern path) = Some n -> P (mergeLists s (Merge s) b l n path))) ->
  P (Merge s base local next path).
Proof.
  intros H1 H2 H3. rewrite merge_unfold. unfold mergeStep.
  destruct (sameAt s path local base) eqn:E1; [by apply H1, sameAt_canonOf|].
  destruct (sameAt s path next base) eqn:E2; [apply H2; left; by apply sameAt_canonOf|].
  destruct (sameAt s path next local) eqn:E3; [apply H2; right; by apply sameAt_canonOf|]. simpl.
  destruct H3 as (Hc & Ho & Hl); [by intros E%sameAt_canonOf; congruence..|].
  assert (P (match keyed s (if IsMissing base then JList [] else base) (Pattern path), keyed s local (Pattern path), keyed s next (Pattern path) with
    | Some b, Some l, Some n => mergeLists s (Merge s) b l n path | _, _, _ => (local, [mkConflict path local next]) end)) as HL.
  { destruct (keyed s (if IsMissing base then _ else _) _) as [b|]; [|done]. destruct (keyed s local _) as [l|]; [|done].
    destruct (keyed s next _) as [n|]; [|done]. by apply Hl. }
  destruct (object local) as [lo|] eqn:Eo; [|done]. destruct (object next) as [no|] eqn:En; [|done].
  destruct local, next; try done. injection Eo as ->; injection En as ->.
  destruct base; simpl in *; try done; apply Ho; auto.
Qed.

Lemma step1_base base path key b : keyed s (if IsMissing base then JList [] else base) (Pattern path) = Some b ->
  step1 s path base (ElementStep key) = kget b key.
Proof.
  destruct base; try done; cbn [IsMissing]; intros Hb; [unfold step1; by rewrite Hb|]. simpl in *. by injection Hb as <-.
Qed.

Lemma merge_kept n : forall base local next path q, (depth local < n)%nat ->
  conflictAbove (Merge s base local next path).2 path q \/ keptAt path base local next (Merge s base local next path).1 q.
Proof using Hs.
  induction n as [|n IH]; intros base local next path q Hn; [lia|].
  apply merge_cases; [intros E; right; by apply kept_next|intros E; right; by apply kept_local|].
  intros D1 D2 D3. split_and!; [left; apply conflictAbove_here| |].
  - intros bo lo no Hbo -> ->. destruct (mergeObjects_spec (Merge s) bo lo no path) as (m & cs & -> & Hm & Hcs).
    destruct q as [|[k|key] q]; [right; apply kept_here; try done; left; destruct Hbo as [->|[-> ->]]; by eauto 10| |].
    + assert (step1 s path base (FieldStep k) = get bo k) as Hb by (destruct Hbo as [->|[-> ->]]; done).
      specialize (Hm k). cbn [fst snd]. destruct (decide _) as [Hin|Hout].
      * destruct (IH (get bo k) (get lo k) (get no k) (path ++ [FieldStep k]) q) as [Hc|Hk];
          [pose proof (depth_get lo k); lia| |].
        -- left. eapply conflictAbove_cons; [|done]. intros c Hc'. apply Hcs. eauto.
        -- right. apply kept_cons. rewrite Hb. simpl. by rewrite Hm.
      * right. apply kept_cons. simpl. rewrite Hm, (get_absent [lo; no; bo] lo), (get_absent [lo; no; bo] no) by (done || set_solver).
        apply kept_equal.
    + right. apply kept_cons. apply kept_equal.
  - intros b l x Hb Hl Hx. destruct q as [|[k|key] q].
    + right. apply kept_here; try done. right. destruct (mergeLists_keyed _ _ _ _ _ _ path Hb Hl Hx) as (lv & -> & Hlv).
      destruct (keyed_spec s _ _ Hlv) as (kv & -> & _). rewrite Hl, Hx. split_and!; [|by eauto..].
      destruct base; try (right; by eauto); by left.
    + right. apply kept_cons. destruct (keyed_inv _ _ _ _ Hl) as (ll & -> & _), (keyed_inv _ _ _ _ Hx) as (lx & -> & _).
      destruct (mergeLists_spec s (Merge s) b l x path) as (cs & -> & _). apply kept_equal.
    + assert (step1 s path local (ElementStep key) = kget l key) as El by (unfold step1; by rewrite Hl).
      assert (step1 s path next (ElementStep key) = kget x key) as Ex by (unfold step1; by rewrite Hx).
      pose proof (mergeLists_step1 _ _ _ _ _ _ path key Hb Hl Hx) as Ev.
      destruct (decide _) as [Hin|Hout].
      * assert (conflictAbove (mergeElement s (Merge s) b l x path key).2 (path ++ [ElementStep key]) q \/
          keptAt (path ++ [ElementStep key]) (kget b key) (kget l key) (kget x key) (mergeElement s (Merge s) b l x path key).1 q) as [Hc|Hk].
        { unfold mergeElement. destruct (_ || _) eqn:Eg; [apply whole_kept|]. apply IH.
          destruct (keyed_inv _ _ _ _ Hl) as (ll & -> & Hll). destruct (keyed_spec s _ _ Hll) as (k' & Ek & _ & _ & _ & Hget).
          rewrite Ek in Hl. injection Hl as <-. apply orb_false_iff in Eg as [[_ Eg]%orb_false_iff _].
          rewrite Hget in *. pose proof (depth_grouped s _ _ ll _ eq_refl Eg). lia. }
        -- left. eapply conflictAbove_cons; [|done]. intros c Hc'.
           destruct (mergeLists_spec s (Merge s) b l x path) as (cs & -> & Hcs). apply Hcs. eauto.
        -- right. apply kept_cons. by rewrite (step1_base _ _ _ _ Hb), El, Ex, Ev.
      * right. apply kept_cons. rewrite El, Ex, Ev. destruct (NoDup_mergeOrder _ _ _ _ _ Hl Hx) as [_ Hno].
        destruct (Hno key Hout) as [-> ->]. apply kept_equal.
Qed.

(** A conflict is of values both sides changed, differently, and the merged
    value keeps local's. *)
Definition genuine path (base local next v : json) (c : ValueConflict) : Prop :=
  exists q, V_Path c = path ++ q /\ V_Mine c = getFrom s local path q /\ V_Theirs c = getFrom s next path q /\
    getFrom s v path q = V_Mine c /\
    canonOf s (V_Path c) (V_Mine c) <> canonOf s (V_Path c) (getFrom s base path q) /\
    canonOf s (V_Path c) (V_Theirs c) <> canonOf s (V_Path c) (getFrom s base path q) /\
    canonOf s (V_Path c) (V_Theirs c) <> canonOf s (V_Path c) (V_Mine c).

Lemma genuine_here path base local next : canonOf s path local <> canonOf s path base ->
  canonOf s path next <> canonOf s path base -> canonOf s path next <> canonOf s path local ->
  genuine path base local next local (mkConflict path local next).
Proof. intros. exists []. simpl. rewrite app_nil_r. by split_and!. Qed.

Lemma genuine_cons path base local next v st c :
  genuine (path ++ [st]) (step1 s path base st) (step1 s path local st) (step1 s path next st) (step1 s path v st) c ->
  genuine path base local next v c.
Proof. intros (q & E & H). exists (st :: q). rewrite !getFrom_cons. rewrite <- app_assoc in E. by split. Qed.

Lemma whole_genuine base local next path key c : c ∈ (whole s base local next (path ++ [ElementStep key])).2 ->
  genuine (path ++ [ElementStep key]) base local next (whole s base local next (path ++ [ElementStep key])).1 c.
Proof.
  assert (forall a b, sameElements s (path ++ [ElementStep key]) a b = false -> canonOf s (path ++ [ElementStep key]) a <> canonOf s (path ++ [ElementStep key]) b) as E.
  { intros a b Hab E%sameAt_canonOf. unfold sameAt in E. rewrite last_snoc in E. simpl in E. congruence. }
  unfold whole. destruct (sameElements s _ local base) eqn:E1; [by intros ?%elem_of_nil|].
  destruct (sameElements s _ next base) eqn:E2; [by intros ?%elem_of_nil|].
  destruct (sameElements s _ next local) eqn:E3; [by intros ?%elem_of_nil|].
  intros ->%list_elem_of_singleton. apply genuine_here; auto.
Qed.

Lemma merge_genuine n : forall base local next path c, (depth local < n)%nat ->
  c ∈ (Merge s base local next path).2 -> genuine path base local next (Merge s base local next path).1 c.
Proof.
  induction n as [|n IH]; intros base local next path c Hn; [lia|].
  apply (merge_cases _ _ _ _ (fun r => c ∈ r.2 -> genuine path base local next r.1 c)); [by intros _ ?%elem_of_nil..|].
  intros D1 D2 D3. split_and!; [intros ->%list_elem_of_singleton; by apply genuine_here| |].
  - intros bo lo no Hbo -> ->. destruct (mergeObjects_spec (Merge s) bo lo no path) as (m & cs & -> & Hm & Hcs). simpl.
    intros (k & Hin & Hc)%Hcs. apply (genuine_cons _ _ _ _ _ (FieldStep k)).
    assert (step1 s path base (FieldStep k) = get bo k) as -> by (destruct Hbo as [->|[-> ->]]; done).
    simpl. rewrite Hm, decide_True by done. apply IH; [pose proof (depth_get lo k); lia|done].
  - intros b l x Hb Hl Hx. destruct (mergeLists_spec s (Merge s) b l x path) as (cs & Ev & Hcs). rewrite Ev. simpl.
    intros (key & Hin & Hc)%Hcs. apply (genuine_cons _ _ _ _ _ (ElementStep key)).
    pose proof (mergeLists_step1 _ _ _ _ _ _ path key Hb Hl Hx) as E. rewrite Ev in E. cbn [fst] in E. rewrite E, decide_True by done.
    rewrite (step1_base _ _ _ _ Hb).
    replace (step1 s path local (ElementStep key)) with (kget l key) by (unfold step1; by rewrite Hl).
    replace (step1 s path next (ElementStep key)) with (kget x key) by (unfold step1; by rewrite Hx).
    revert Hc. unfold mergeElement. destruct (_ || _) eqn:Eg; [apply whole_genuine|]. apply IH.
    destruct (keyed_inv _ _ _ _ Hl) as (ll & -> & Hll). destruct (keyed_spec s _ _ Hll) as (k' & Ek & _ & _ & _ & Hget).
    rewrite Ek in Hl. injection Hl as <-. apply orb_false_iff in Eg as [[_ Eg]%orb_false_iff _].
    rewrite Hget in *. pose proof (depth_grouped s _ _ ll _ eq_refl Eg). lia.
Qed.

(** A group of elements that share a key is not merged part by part: its
    elements are not keyed in it. *)
Lemma group_not_keyed root pre key l :
  getFrom s root [] (pre ++ [ElementStep key]) = JList l -> keyed s (JList l) (Pattern (pre ++ [ElementStep key])) = None.
Proof using Hs.
  assert (forall q done v, getFrom s v done (q ++ [ElementStep key]) = step1 s (done ++ q) (getFrom s v done q) (ElementStep key)) as Hlast.
  { induction q as [|st q IH]; intros done v; simpl app.
    - rewrite getFrom_cons, app_nil_r. done.
    - rewrite !getFrom_cons, IH, <- app_assoc. done. }
  rewrite Hlast, step1_element, app_nil_l. intros E. apply keyed_none. intros Hk.
  assert (forall el, elementKey s el (Pattern (pre ++ [ElementStep key])) = None) as Hno
    by (intros el; unfold elementKey; by rewrite Pattern_element, (wf_flat _ Hs)).
  destruct l as [|el l]; [|apply Forall_cons in Hk as [[k Hel] _]; by rewrite Hno in Hel].
  destruct (getFrom s root [] pre); try done. case_match; [|done].
  pose proof (withKey_obj s (Pattern pre) key l) as Ho.
  destruct (withKey s (Pattern pre) key l) as [|x [|y r]]; try done. simpl in E. destruct (Ho x ltac:(left)) as [m ->]. done.
Qed.

End kept.

(** C32. Nothing is overwritten silently: for every path into the values
    (properties and keyed list elements, groups included), unless a conflict
    is reported there or above it, the merged value has there: next's value
    when local left it as in base, local's when next left it so or both made
    it the same.  Where both changed it differently, the merged value was put
    together part by part: all sides there are objects, or lists whose elements
    all have a key (base may have nothing), the merged value too, so that the
    same holds of each property or element of it; anything else, such as a
    group of elements that share a key, is a conflict.  "Same" is what the
    merge compares: canonical JSON with unset values dropped.  The schema is
    one whose key properties are not among those whose zero value means unset,
    and with no list of keyed elements directly in a list ([wf_schema]). *)
Theorem merge_overwrites_nothing s base local next q : wf_schema s ->
  conflictAbove (Merge s base local next []).2 [] q \/
  let same a b := sameAt s q (GetAt s a q) (GetAt s b q) = true in
  let v := (Merge s base local next []).1 in
  (same local base -> same v next) /\
  (same next base -> same v local) /\
  (same local next -> same v local) /\
  (~ same local base -> ~ same next base -> ~ same local next ->
     partwise s q (GetAt s base q) (GetAt s local q) (GetAt s next q) (GetAt s v q) /\
     (forall pre key, q = pre ++ [ElementStep key] -> isGroup (GetAt s local q) = false)).
Proof.
  intros Hs. destruct (merge_kept s Hs _ base local next [] q (Nat.lt_succ_diag_r _)) as [Hc|Hk]; [by left|right].
  unfold GetAt. cbn zeta. rewrite !sameAt_canonOf. destruct Hk as (H1 & H2 & H3 & H4). split_and!; [done..|].
  intros D1 D2 D3. specialize (H4 D1 D2 D3). split; [exact H4|]. intros pre key ->.
  destruct (getFrom s local [] (pre ++ [ElementStep key])) as [| | | |l| |] eqn:E; try done.
  apply (group_not_keyed s Hs) in E. destruct H4 as [(_ & [? H] & _)|(_ & H & _)]; [done|]. rewrite app_nil_l, E in H. by destruct H.
Qed.

(** Conflicts are genuine and keep local's value: each conflict a merge
    reports is at a path where local and next both differ from base and from
    each other; it holds both their values, and the merged value has local's
    there. *)
Theorem merge_conflicts_genuine s base local next c :
  c ∈ (Merge s base local next []).2 ->
  V_Mine c = GetAt s local (V_Path c) /\ V_Theirs c = GetAt s next (V_Path c) /\
  GetAt s (Merge s base local next []).1 (V_Path c) = V_Mine c /\
  sameAt s (V_Path c) (V_Mine c) (GetAt s base (V_Path c)) = false /\
  sameAt s (V_Path c) (V_Theirs c) (GetAt s base (V_Path c)) = false /\
  sameAt s (V_Path c) (V_Theirs c) (V_Mine c) = false.
Proof.
  intros Hc. destruct (merge_genuine s _ _ _ _ _ _ (Nat.lt_succ_diag_r _) Hc) as (q & E & H1 & H2 & H3 & D1 & D2 & D3).
  simpl in E. rewrite E in *. unfold GetAt. split_and!; try done; apply not_true_iff_false; by rewrite sameAt_canonOf.
Qed.

(** ** An entity, edited on two sides *)

Definition demoSchema : Schema := mkSchema {["fields[]" := "name"]} {["description"]}.

Lemma demoSchema_wf : wf_schema demoSchema.
Proof.
  split; simpl.
  - intros p prop Hp. apply lookup_singleton_Some in Hp as [E <-]. rewrite <- E. vm_compute. set_solver.
  - intros p. apply lookup_singleton_ne. intros E. apply (string_app_inj_r "fields" (p +:+ "[]") "[]") in E.
    do 7 (destruct p as [|? p]; [by inversion E|]). apply (f_equal String.length) in E. rewrite string_length_app in E. simpl in E. lia.
Qed.

Definition demoField (name mask : string) : json := JObj {["name" := JStr name; "mask" := JStr mask]}.
Definition demoItem (desc : json) (fields : list json) : json :=
  JObj {["description" := desc; "fields" := JList fields]}.

Definition demoBase : json := demoItem (JStr "") [demoField "id" ""; demoField "email" ""].
(** Local masks the email; next renames the description, drops the id and
    masks the email otherwise. *)
Definition demoLocal : json := demoItem (JStr "") [demoField "id" ""; demoField "email" "full"].
Definition demoNext : json := demoItem (JStr "people") [demoField "email" "last4"].

Definition demoMask : Path := [FieldStep "fields"; ElementStep "email"; FieldStep "mask"].

(** The other changes are merged, the mask is a conflict that keeps local's. *)
Example demo_merge : Merge demoSchema demoBase demoLocal demoNext [] =
  (demoItem (JStr "people") [demoField "email" "full"], [mkConflict demoMask (JStr "full") (JStr "last4")]).
Proof. vm_compute. reflexivity. Qed.

Lemma merge_overwrites_nothing_witness :
  let q := [FieldStep "description"] in
  conflictAbove (Merge demoSchema demoBase demoLocal demoNext []).2 [] q \/
  (sameAt demoSchema q (GetAt demoSchema demoLocal q) (GetAt demoSchema demoBase q) = true ->
   sameAt demoSchema q (GetAt demoSchema (Merge demoSchema demoBase demoLocal demoNext []).1 q) (GetAt demoSchema demoNext q) = true).
Proof.
  cbn zeta. destruct (merge_overwrites_nothing demoSchema demoBase demoLocal demoNext [FieldStep "description"] demoSchema_wf)
    as [H|[H _]]; [left|right]; exact H.
Defined.

Lemma merge_conflicts_genuine_witness :
  GetAt demoSchema (Merge demoSchema demoBase demoLocal demoNext []).1 demoMask = JStr "full".
Proof.
  exact (proj1 (proj2 (proj2 (merge_conflicts_genuine demoSchema demoBase demoLocal demoNext (mkConflict demoMask (JStr "full") (JStr "last4"))
    ltac:(rewrite demo_merge; left))))).
Defined.

(** A property that base holds as null, local removed and next changed takes
    next's value with no conflict: null and Missing compare as the same. *)
Example null_removed_locally :
  Merge demoSchema (JObj {["owner" := JNull]}) (JObj ∅) (JObj {["owner" := JStr "ann"]}) [] =
  (JObj {["owner" := JStr "ann"]}, []).
Proof. vm_compute. reflexivity. Qed.


(** * Writing at a path: SetAt of core/workspace/merge.go read back with GetAt. *)

Section setat.
Context (s : Schema).
Implicit Types (p key : string) (l : list json).

Definition othersOf p key l : list json := filter (fun el => elementKey s el p <> Some key) l.

Lemma splitLoop_spec p key l : forall mine others a, exists a',
  splitLoop s p key l mine others a = (mine ++ withKey s p key l, others ++ othersOf p key l, a').
Proof.
  induction l as [|el l IH]; intros mine others a; simpl; [exists a; by rewrite withKey_nil, !app_nil_r|].
  rewrite withKey_cons. unfold othersOf. rewrite filter_cons. destruct (decide (elementKey s el p = Some key)) as [E|E].
  - rewrite bool_decide_true, decide_False by tauto. destruct (IH (mine ++ [el]) others (match a with None => Some (length others) | _ => a end)) as [a' ->].
    exists a'. by rewrite <- app_assoc.
  - rewrite bool_decide_false, decide_True by done. destruct (IH mine (others ++ [el]) a) as [a' ->]. exists a'. by rewrite <- app_assoc.
Qed.

Definition listOf (root : json) : list json := match root with JList l => l | _ => [] end.

Lemma setFrom_element root p key rest value : exists i,
  setFrom s root p (ElementStep key :: rest) value =
  JList (take i (othersOf p key (listOf root)) ++
         spread (setFrom s (grouped (withKey s p key (listOf root))) (p +:+ "[]") rest value) ++
         drop i (othersOf p key (listOf root))).
Proof.
  cbn [setFrom]. fold (listOf root). destruct (splitLoop_spec p key (listOf root) [] [] None) as [a ->].
  exists (default (length (othersOf p key (listOf root))) a). simpl. by destruct (withKey s p key (listOf root)).
Qed.

Lemma withKey_others p key key' l :
  withKey s p key' (othersOf p key l) = if decide (key' = key) then [] else withKey s p key' l.
Proof.
  unfold othersOf. induction l as [|el l IH]; [by destruct (decide _)|]. rewrite filter_cons.
  destruct (decide (elementKey s el p <> Some key)) as [E|E].
  - rewrite !withKey_cons, IH. destruct (decide (key' = key)) as [->|]; [by rewrite decide_False|done].
  - rewrite IH, withKey_cons. destruct (decide (key' = key)); [done|]. rewrite decide_False; [done|].
    intros E'. apply E. congruence.
Qed.

Lemma withKey_all p key key' l : Forall (fun el => elementKey s el p = Some key) l ->
  withKey s p key' l = if decide (key' = key) then l else [].
Proof.
  induction 1 as [|x l Hx _ IH]; [by destruct (decide _)|]. rewrite withKey_cons, IH.
  destruct (decide (key' = key)) as [->|]; [by rewrite decide_True|]. by rewrite decide_False by congruence.
Qed.

(** The list with the elements of one key replaced, by key. *)
Lemma withKey_replaced p key key' l i els : Forall (fun el => elementKey s el p = Some key) els ->
  withKey s p key' (take i (othersOf p key l) ++ els ++ drop i (othersOf p key l)) =
  if decide (key' = key) then els else withKey s p key' l.
Proof.
  intros He. rewrite !withKey_app, (withKey_all _ _ _ _ He).
  pose proof (withKey_others p key key' l) as Ho. rewrite <- (take_drop i (othersOf p key l)), withKey_app in Ho.
  destruct (decide (key' = key)) as [->|]; [|by rewrite <- Ho].
  apply app_eq_nil in Ho as [-> ->]. by rewrite app_nil_r.
Qed.

Lemma replaced_keyed p key l i els : allKeyed s p l -> Forall (fun el => elementKey s el p = Some key) els ->
  allKeyed s p (take i (othersOf p key l) ++ els ++ drop i (othersOf p key l)).
Proof.
  intros Hl He. assert (allKeyed s p (othersOf p key l)) as Ho.
  { apply Forall_forall. intros x [_ Hx]%list_elem_of_filter. unfold allKeyed in Hl. by eapply Forall_forall in Hl. }
  rewrite <- (take_drop i (othersOf p key l)) in Ho. apply Forall_app in Ho as [H1 H2].
  apply Forall_app. split; [done|]. apply Forall_app. split; [|done].
  eapply Forall_impl; [exact He|]. simpl. intros x ->. eauto.
Qed.

(** What each step of a write needs: the lists on the way are keyed, and what is
    put under a key has it. *)
Fixpoint settable (root : json) (p : string) (path : Path) (value : json) : Prop :=
  match path with
  | [] => True
  | FieldStep k :: rest => settable (get (default ∅ (object root)) k) (field p k) rest value
  | ElementStep key :: rest =>
      let current := grouped (withKey s p key (listOf root)) in
      allKeyed s p (listOf root) /\ settable current (p +:+ "[]") rest value /\
      keyOk s p key (setFrom s current (p +:+ "[]") rest value)
  end.

Lemma step1_get path root k : step1 s path root (FieldStep k) = get (default ∅ (object root)) k.
Proof. simpl. destruct (object root); [done|]. unfold get. simpl. by rewrite lookup_empty. Qed.

Lemma step1_listOf path root key : allKeyed s (Pattern path) (listOf root) ->
  step1 s path root (ElementStep key) = grouped (withKey s (Pattern path) key (listOf root)).
Proof. rewrite step1_element. destruct root; try done. simpl. intros H. by rewrite decide_True. Qed.

(** One step of a write, read back: the step written has what was written
    under it, another step of the kind what it had. *)
Lemma setFrom_step path root st rest value st' : settable root (Pattern path) (st :: rest) value -> IsElement st = IsElement st' ->
  step1 s path (setFrom s root (Pattern path) (st :: rest) value) st' =
  if decide (st' = st) then setFrom s (step1 s path root st) (Pattern (path ++ [st])) rest value else step1 s path root st'.
Proof.
  destruct st as [k|key], st' as [k'|key']; try done; intros Hset _.
  - rewrite Pattern_field, !step1_get. cbn [setFrom object default].
    set (v := setFrom s _ _ rest value). unfold get. simpl.
    destruct (decide (FieldStep k' = FieldStep k)) as [[= ->]|Hne].
    + destruct v; simpl; rewrite ?lookup_insert_eq, ?lookup_delete_eq; done.
    + assert (k <> k') by congruence. destruct (IsMissing v); by rewrite ?lookup_insert_ne, ?lookup_delete_ne.
  - destruct Hset as (Hk & _ & [Hg He]). destruct (setFrom_element root (Pattern path) key rest value) as [i ->].
    set (v := setFrom s _ _ rest value) in *.
    rewrite (step1_listOf path (JList _)) by (by apply replaced_keyed). cbn [listOf]. rewrite withKey_replaced by done.
    rewrite Pattern_element, !step1_listOf by done. fold v.
    destruct (decide (key' = key)) as [->|]; [by rewrite decide_True|]. by rewrite decide_False by congruence.
Qed.

Lemma settable_cons path root st rest value : settable root (Pattern path) (st :: rest) value ->
  settable (step1 s path root st) (Pattern (path ++ [st])) rest value.
Proof.
  destruct st as [k|key]; cbn [settable].
  - rewrite step1_get, Pattern_field. done.
  - intros (Hk & H & _). by rewrite step1_listOf, Pattern_element.
Qed.

Lemma set_get q : forall path root value, settable root (Pattern path) q value ->
  getFrom s (setFrom s root (Pattern path) q value) path q = value.
Proof.
  induction q as [|st q IH]; intros path root value Hset; [done|]. rewrite getFrom_cons, setFrom_step, decide_True by done.
  apply IH. by apply settable_cons.
Qed.

Lemma set_frame pre : forall path root value st st' rest q, settable root (Pattern path) (pre ++ st :: rest) value ->
  st <> st' -> IsElement st = IsElement st' ->
  getFrom s (setFrom s root (Pattern path) (pre ++ st :: rest) value) path (pre ++ st' :: q) =
  getFrom s root path (pre ++ st' :: q).
Proof.
  induction pre as [|x pre IH]; intros path root value st st' rest q Hset Hne Hk; simpl app in *.
  - rewrite !getFrom_cons, setFrom_step, decide_False by done. done.
  - rewrite !getFrom_cons, setFrom_step, decide_True by done. apply IH; [by apply settable_cons|done|done].
Qed.

(** A path that can be written in [root]: each element on the way is in a list
    whose elements all have a key.  When the path goes on into the element, the
    list has just one with the key, and the path does not go into the property
    that holds the key; when it ends there, the value written is Missing, an
    element with the key, or several with it. *)
Fixpoint writable (root : json) (p : string) (path : Path) (value : json) : Prop :=
  match path with
  | [] => True
  | FieldStep k :: rest => writable (get (default ∅ (object root)) k) (field p k) rest value
  | ElementStep key :: rest =>
      allKeyed s p (listOf root) /\
      match rest with
      | [] => value = JMissing \/ elementKey s value p = Some key \/
              exists a b l, value = JList (a :: b :: l) /\ Forall (fun el => elementKey s el p = Some key) (a :: b :: l)
      | FieldStep k :: _ => exists el, withKey s p key (listOf root) = [el] /\ Lists s !! (p +:+ "[]") <> Some k /\
                              writable el (p +:+ "[]") rest value
      | ElementStep _ :: _ => False
      end
  end.

(** A write under a property other than the key's leaves the element its key. *)
Lemma setFrom_keeps_key el p key k rest value q : elementKey s el p = Some key -> Lists s !! (p +:+ "[]") <> Some k ->
  keyOk s p key (setFrom s el q (FieldStep k :: rest) value).
Proof.
  intros Hel Hk. apply elementKey_obj in Hel as (prop & m & Hp & -> & Hm). cbn [setFrom object default]. apply keyOk_obj.
  assert (k <> prop) as Hne by (intros ->; by rewrite Hp in Hk). unfold elementKey. rewrite Hp. cbn [object].
  destruct (IsMissing _); [rewrite lookup_delete_ne by done|rewrite lookup_insert_ne by done]; cbn [id]; by rewrite Hm.
Qed.

Lemma writable_settable path : forall root p value, writable root p path value -> settable root p path value.
Proof.
  induction path as [|st rest IH]; intros root p value; [done|]. destruct st as [k|key]; [apply IH|].
  intros [Hl H]. cbn [settable]. split; [done|]. destruct rest as [|[k|k] rest]; [|destruct H as (el & Hel & Hk & Hw)|done].
  - split; [done|]. cbn [setFrom]. destruct H as [->|[H|(a & b & l & -> & H)]]; [by split|apply elementKey_obj in H as H'; destruct H' as (? & ? & _ & -> & _); by apply keyOk_obj|by split].
  - rewrite Hel. cbn [grouped ungroup]. split; [by apply IH|]. apply setFrom_keeps_key; [|done].
    assert (el ∈ withKey s p key (listOf root)) as [He _]%list_elem_of_filter by (rewrite Hel; left). done.
Qed.

End setat.

(** C39. SetAt writes one place, when the path can be written ([writable]): the
    lists on its way have a key for each element; where it goes on into an
    element the list has exactly one with that key, and the path does not go
    into the property that holds the key; where it ends at an element, the
    value is Missing, an element with the key or a group of them.  Then the
    value written is read back there, Missing included (the value is removed),
    and at every path that parts from it (another property of an object on the
    way, another element of a list on the way) the value is the one it was.
    Missing objects on the way are made, and a whole element that is missing is
    appended; a path into a missing element is not writable:
    [missing_element_loses_key]. *)
Theorem SetAt_GetAt s root path value : writable s root "" path value ->
  GetAt s (SetAt s root path value) path = value /\
  forall pre st st' rest q, path = pre ++ st :: rest -> st <> st' -> IsElement st = IsElement st' ->
    GetAt s (SetAt s root path value) (pre ++ st' :: q) = GetAt s root (pre ++ st' :: q).
Proof.
  intros Hset%writable_settable. split; [by apply (set_get s path [])|]. intros pre st st' rest q -> Hne Hk. by apply (set_frame s pre []).
Qed.

Lemma SetAt_GetAt_witness : writable demoSchema demoLocal "" demoMask (JStr "last4") /\
  GetAt demoSchema (SetAt demoSchema demoLocal demoMask (JStr "last4")) demoMask = JStr "last4".
Proof.
  assert (writable demoSchema demoLocal "" demoMask (JStr "last4")) as H.
  { split; [repeat constructor; eexists; vm_compute; reflexivity|]. exists (demoField "email" "full").
    split; [vm_compute; reflexivity|]. split; [vm_compute; discriminate|exact I]. }
  split; [exact H|]. exact (proj1 (SetAt_GetAt demoSchema demoLocal demoMask (JStr "last4") H)).
Defined.

(** A path into an element the list does not have: the element appended has no
    key, so the value written is not read back, and no element of the list is
    found by its key any more. *)
Example missing_element_loses_key :
  let path := [FieldStep "fields"; ElementStep "phone"; FieldStep "mask"] in
  let written := SetAt demoSchema demoLocal path (JStr "last4") in
  GetAt demoSchema written path = JMissing /\ GetAt demoSchema demoLocal demoMask = JStr "full" /\ GetAt demoSchema written demoMask = JMissing.
Proof. vm_compute. auto. Qed.
