(* ===== verification/Workspace.v ===== *)
(** Workspaces: core/workspace/workspace.go, conflicts.go and memory.go.

    Snapshots of items, replaying changes onto another side, the conflicts
    that stand until resolved, and the store's optimistic versions. *)

From S2P Require Import Prelude Merge MergeTheorems.

(** ** Snapshots *)

Record Ref : Type := mkRef { R_Kind : string; R_Key : string }.

#[global] Instance Ref_eq_dec : EqDecision Ref.
Proof. solve_decision. Defined.
#[global] Program Instance Ref_countable : Countable Ref :=
  inj_countable' (fun r => (R_Kind r, R_Key r)) (fun t => mkRef t.1 t.2) _.
Next Obligation. by intros []. Qed.

Record Item : Type := mkItem { I_Ref : Ref; I_Value : json }.

Definition Snapshot : Type := list Item.

(** Snapshot.index: the first item of the ref. *)
Definition index_of (sn : Snapshot) (ref : Ref) : option nat := fst <$> list_find (fun it => I_Ref it = ref) sn.

Definition Get (sn : Snapshot) (ref : Ref) : json :=
  match index_of sn ref with
  | Some i => match sn !! i with Some it => I_Value it | None => JMissing end
  | None => JMissing
  end.

(** The position of each item by ref, from position [i] on. *)
Fixpoint indexFrom (i : nat) (sn : Snapshot) (out : gmap Ref nat) : gmap Ref nat :=
  match sn with [] => out | it :: sn => indexFrom (S i) sn (<[I_Ref it := i]> out) end.

Definition Index (sn : Snapshot) : gmap Ref nat := indexFrom 0 sn ∅.

(** The value of a ref by an index of the snapshot, or Missing. *)
Definition at_ (sn : Snapshot) (index : gmap Ref nat) (ref : Ref) : json :=
  match index !! ref with
  | Some i => match sn !! i with Some it => I_Value it | None => JMissing end
  | None => JMissing
  end.

(** v != nil && !IsMissing(v) *)
Definition present (v : json) : bool := match v with JNull | JMissing => false | _ => true end.

Fixpoint applyOld (values : gmap Ref json) (sn : Snapshot) : Snapshot :=
  match sn with
  | [] => []
  | it :: sn =>
      match values !! I_Ref it with
      | Some v => (if present v then [mkItem (I_Ref it) v] else []) ++ applyOld values sn
      | None => it :: applyOld values sn
      end
  end.

(** The loop over the order: the refs not there yet are appended. *)
Fixpoint applyNew (values : gmap Ref json) (order : list Ref) (out : Snapshot) (there : gmap Ref nat) : Snapshot :=
  match order with
  | [] => out
  | ref :: order =>
      match there !! ref with
      | Some _ => applyNew values order out there
      | None =>
          let v := default JNull (values !! ref) in
          if present v then applyNew values order (out ++ [mkItem ref v]) (<[ref := length out]> there)
          else applyNew values order out there
      end
  end.

Definition Apply (sn : Snapshot) (values : gmap Ref json) (order : list Ref) : Snapshot :=
  applyNew values order (applyOld values sn) (Index sn).

Definition With (sn : Snapshot) (ref : Ref) (value : json) : Snapshot := Apply sn {[ref := value]} [ref].

(** ** Conflicts *)

Record Source : Type := mkSource { S_Kind : string; S_ID : string; S_By : string }.

#[global] Instance Source_eq_dec : EqDecision Source.
Proof. solve_decision. Defined.

Record Conflict : Type := mkConf {
  K_ID : string;
  K_Ref : Ref;
  K_Path : Path;
  K_Source : Source;
  K_Pinned : bool;
  K_Theirs : json;
  K_TheirsGone : bool;
}.

Record Open : Type := mkOpen { O_Conflict : Conflict; O_Mine : json; O_TheirsValue : json }.

Definition with_path (p : Path) (c : Conflict) : Conflict :=
  mkConf (K_ID c) (K_Ref c) p (K_Source c) (K_Pinned c) (K_Theirs c) (K_TheirsGone c).
Definition with_source (src : Source) (c : Conflict) : Conflict :=
  mkConf (K_ID c) (K_Ref c) (K_Path c) src (K_Pinned c) (K_Theirs c) (K_TheirsGone c).

Section workspace.
Context (s : Schema).

(** Changes: the refs whose value differs between a and b. *)
Definition Changes (a b : Snapshot) : list Ref :=
  (I_Ref <$> filter (fun it => Same s (at_ a (Index a) (I_Ref it)) (I_Value it) = false) b) ++
  (I_Ref <$> filter (fun it => Index b !! I_Ref it = None) a).

(** view, with the items of now and base looked up by nowAt and baseAt. *)
Definition view (nowAt baseAt : Ref -> json) (c : Conflict) : option Open :=
  let item := nowAt (K_Ref c) in
  let theirsItem := if K_Pinned c then JMissing else baseAt (K_Ref c) in
  let path := if K_Pinned c then K_Path c else addressable s (K_Path c) [item; theirsItem] in
  if existsb (fun i => IsMissing (GetAt s item (take i path))) (seq 0 (length path)) then None
  else
    let mine := GetAt s item path in
    let theirs :=
      if K_Pinned c then (if K_TheirsGone c then JMissing else K_Theirs c) else GetAt s theirsItem path in
    if sameAt s path mine theirs then None
    else Some (mkOpen (with_path path c) mine theirs).

Definition View (now base : Snapshot) (c : Conflict) : option Open := view (Get now) (Get base) c.

(** lookups: by an index of each snapshot past one conflict. *)
Definition lookups (now base : Snapshot) (n : nat) : (Ref -> json) * (Ref -> json) :=
  if (n <=? 1)%nat then (Get now, Get base)
  else (at_ now (Index now), at_ base (Index base)).

Definition OpenConflicts (now base : Snapshot) (cs : list Conflict) : list Open :=
  let '(nowAt, baseAt) := lookups now base (length cs) in
  omap (view nowAt baseAt) cs.

(** within: c is on outer's value or one under it. *)
Definition within (c outer : Conflict) : bool :=
  bool_decide (K_Ref c = K_Ref outer) && Path_within (K_Path c) (K_Path outer).

(** Replay; [newID] gives the random IDs, by the number of conflicts found. *)
Section replay.
Context (newID : nat -> string).

Definition foundConflict (ref : Ref) (src : Source) (pinned : bool) (vc : ValueConflict) (n : nat) : Conflict :=
  if pinned
  then mkConf (newID n) ref (V_Path vc) src true
         (if IsMissing (V_Theirs vc) then JNull else V_Theirs vc) (IsMissing (V_Theirs vc))
  else mkConf (newID n) ref (V_Path vc) src false JNull false.

Fixpoint foundConflicts (ref : Ref) (src : Source) (pinned : bool) (vcs : list ValueConflict) (found : list Conflict)
  : list Conflict :=
  match vcs with
  | [] => found
  | vc :: vcs => foundConflicts ref src pinned vcs (found ++ [foundConflict ref src pinned vc (length found)])
  end.

Definition replayStep (old local next : Snapshot) (src : Source) (pinned : bool)
    (acc : gmap Ref json * list Conflict) (ref : Ref) : gmap Ref json * list Conflict :=
  let '(v, conflicts) :=
    Merge s (at_ old (Index old) ref) (at_ local (Index local) ref) (at_ next (Index next) ref) [] in
  (<[ref := v]> acc.1, foundConflicts ref src pinned conflicts acc.2).

Definition Replay (old local next : Snapshot) (src : Source) (pinned : bool) : Snapshot * list Conflict :=
  let changed := Changes old local in
  let '(values, found) := foldl (replayStep old local next src pinned) (∅, []) changed in
  (Apply next values changed, found).

End replay.

Definition Carry (pending found : list Conflict) (now base : Snapshot) (source : option Source) : list Conflict :=
  let '(nowAt, baseAt) := lookups now base (length pending) in
  let carried :=
    omap (fun p =>
            let replaced := existsb (within p) found in
            let p := match source with Some src => if K_Pinned p then p else with_source src p | None => p end in
            match view nowAt baseAt p with
            | Some o => if replaced then None else Some (O_Conflict o)
            | None => None
            end) pending in
  carried ++ filter (fun f => existsb (within f) carried = false) found.

(** Errors of Resolve. *)
Inductive resolveError : Type := ErrNotOpen | ErrUnplaceable.

(** The loop over the conflicts with the ID: the last one's view. *)
Definition chosenOf (now base : Snapshot) (cs : list Conflict) (id : string) : option Open :=
  foldl (fun acc c => if String.eqb (K_ID c) id then View now base c else acc) None cs.

Definition decided (id : string) (chosen c : Conflict) : bool :=
  String.eqb (K_ID c) id ||
  (within c chosen && (length (K_Path chosen) <? length (K_Path c))%nat && bool_decide (K_Source c = K_Source chosen)).

Definition Resolve (now base : Snapshot) (cs : list Conflict) (id : string) (theirs : bool)
  : Snapshot * list Conflict * option resolveError :=
  match chosenOf now base cs id with
  | None => (now, cs, Some ErrNotOpen)
  | Some chosen =>
      let c := O_Conflict chosen in
      if theirs && K_Pinned c && (length (addressable s (K_Path c) [Get now (K_Ref c)]) <? length (K_Path c))%nat
      then (now, cs, Some ErrUnplaceable)
      else
        let now := if theirs then With now (K_Ref c) (SetAt s (Get now (K_Ref c)) (K_Path c) (O_TheirsValue chosen))
                   else now in
        let '(nowAt, baseAt) := lookups now base (length cs) in
        (now, filter (fun x => decided id c x = false /\ is_Some (view nowAt baseAt x)) cs, None)
  end.

End workspace.

(** ** The store

    copyWorkspace sends a workspace through JSON, which keeps it: its values
    are decoded JSON. *)

Record Note : Type := mkNote { N_Source : string; N_By : string; N_Text : string }.

Record Workspace : Type := mkWorkspace {
  W_Username : string;
  W_Base : Z;
  W_Items : Snapshot;
  W_Conflicts : list Conflict;
  W_Notes : list Note;
  W_Taken : list Z;
  W_Checkpoint : Z;
  W_CheckpointAt : Z;
  W_Version : Z;
  W_UpdatedAt : Z;
  W_UpdatedBy : string;
}.

Record LogEntry : Type := mkLogEntry {
  L_Version : Z; L_At : Z; L_By : string; L_Op : string; L_Items : list Ref; L_Note : string }.

Record MemoryStore : Type := mkStore { st_ws : gmap string Workspace; st_logs : gmap string (list LogEntry) }.

Definition NewMemoryStore : MemoryStore := mkStore ∅ ∅.

(** m.ws[username].Version, 0 for none *)
Definition storedVersion (m : MemoryStore) (username : string) : Z :=
  match st_ws m !! username with Some w => W_Version w | None => 0 end.

Definition logOf (m : MemoryStore) (username : string) : list LogEntry := default [] (st_logs m !! username).

Definition microsecond (t : Z) : Z := t - t mod 1000.

Definition PutWorkspace (now : Z) (w : Workspace) (expected : Z) (entry : LogEntry) (m : MemoryStore)
  : MemoryStore * option Workspace :=
  if negb (storedVersion m (W_Username w) =? expected) then (m, None) (* ErrChanged *)
  else
    let w := mkWorkspace (W_Username w) (W_Base w) (W_Items w) (W_Conflicts w) (W_Notes w) (W_Taken w) (W_Checkpoint w)
               (W_CheckpointAt w) (w64 (expected + 1)) (microsecond now) (W_UpdatedBy w) in
    let entry := mkLogEntry (W_Version w) (W_UpdatedAt w) (L_By entry) (L_Op entry) (L_Items entry) (L_Note entry) in
    (mkStore (<[W_Username w := w]> (st_ws m)) (<[W_Username w := logOf m (W_Username w) ++ [entry]]> (st_logs m)), Some w).

Definition WorkspaceOf (m : MemoryStore) (username : string) : option Workspace := st_ws m !! username.

Definition WorkspaceLog (m : MemoryStore) (username : string) (limit : Z) : list LogEntry :=
  let out := reverse (logOf m username) in
  if (0 <? limit) && (limit <? Z.of_nat (length out)) then take (Z.to_nat limit) out else out.


(** * What workspaces promise: replaying changes loses none, conflicts stand
    until they are decided, and a write based on an old version is refused. *)

(** ** Snapshots *)

Definition refs (sn : Snapshot) : list Ref := I_Ref <$> sn.

(** A configuration has one item for each ref. *)
Definition wf_snapshot (sn : Snapshot) : Prop := NoDup (refs sn).

Lemma Get_nil ref : Get [] ref = JMissing.
Proof. done. Qed.

Lemma Get_cons it sn ref : Get (it :: sn) ref = if decide (I_Ref it = ref) then I_Value it else Get sn ref.
Proof.
  unfold Get, index_of. simpl. destruct (decide (I_Ref it = ref)) as [<-|]; [done|].
  destruct (list_find _ sn) as [[i x]|]; done.
Qed.

Lemma Get_app a b ref : Get (a ++ b) ref = if decide (ref ∈ refs a) then Get a ref else Get b ref.
Proof.
  induction a as [|it a IH]; [done|]. simpl. rewrite !Get_cons. destruct (decide (I_Ref it = ref)) as [<-|Hne].
  - rewrite decide_True by left. done.
  - rewrite IH. apply decide_ext. simpl. rewrite elem_of_cons. intuition congruence.
Qed.

Lemma Get_absent sn ref : ref ∉ refs sn -> Get sn ref = JMissing.
Proof.
  induction sn as [|it sn IH]; [done|]. simpl. intros [Hne Hn]%not_elem_of_cons. rewrite Get_cons, decide_False by congruence. auto.
Qed.

Lemma Get_elem sn it : wf_snapshot sn -> it ∈ sn -> Get sn (I_Ref it) = I_Value it.
Proof.
  unfold wf_snapshot, refs. induction sn as [|x sn IH]; [by intros _ ?%elem_of_nil|]. simpl. intros [Hx Hnd]%NoDup_cons Hin.
  rewrite Get_cons. apply elem_of_cons in Hin as [->|Hin]; [by rewrite decide_True|].
  rewrite decide_False; [auto|]. intros E. apply Hx. rewrite E. by apply list_elem_of_fmap_2.
Qed.

Lemma indexFrom_lookup sn : forall i out ref, NoDup (refs sn) ->
  match indexFrom i sn out !! ref with
  | Some j => (ref ∈ refs sn -> exists k, j = (i + k)%nat /\ (exists it, sn !! k = Some it /\ I_Ref it = ref)) /\ (ref ∉ refs sn -> out !! ref = Some j)
  | None => ref ∉ refs sn /\ out !! ref = None
  end.
Proof.
  induction sn as [|it sn IH]; intros i out ref Hnd; simpl.
  - destruct (out !! ref); split; auto; [by intros ?%elem_of_nil|apply not_elem_of_nil].
  - simpl in Hnd. apply NoDup_cons in Hnd as [Hx Hnd]. specialize (IH (S i) (<[I_Ref it := i]> out) ref Hnd).
    destruct (indexFrom _ _ _ !! ref) as [j|].
    + destruct IH as [H1 H2]. split.
      * intros [->|Hin]%elem_of_cons.
        -- specialize (H2 Hx). rewrite lookup_insert_eq in H2. injection H2 as <-. exists 0%nat. split; [lia|]. by exists it.
        -- destruct (H1 Hin) as (k & -> & H). exists (S k). split; [lia|done].
      * intros [Hne Hn]%not_elem_of_cons. rewrite <- H2 by done. by rewrite lookup_insert_ne.
    + destruct IH as [H1 H2]. destruct (decide (I_Ref it = ref)) as [<-|]; [by rewrite lookup_insert_eq in H2|].
      rewrite lookup_insert_ne in H2 by done. split; [|done]. by apply not_elem_of_cons.
Qed.

Lemma Index_none sn ref : wf_snapshot sn -> Index sn !! ref = None <-> ref ∉ refs sn.
Proof.
  intros Hnd. pose proof (indexFrom_lookup sn 0 ∅ ref Hnd) as H. unfold Index. destruct (indexFrom _ _ _ !! ref).
  - split; [done|]. intros Hn. apply H in Hn. by rewrite lookup_empty in Hn.
  - tauto.
Qed.

Lemma at_Get sn ref : wf_snapshot sn -> at_ sn (Index sn) ref = Get sn ref.
Proof.
  intros Hnd. pose proof (indexFrom_lookup sn 0 ∅ ref Hnd) as H. unfold at_, Index.
  destruct (indexFrom _ _ _ !! ref) as [j|]; [|destruct H as [H _]; by rewrite Get_absent].
  destruct (decide (ref ∈ refs sn)) as [Hin|Hn]; [|apply H in Hn; by rewrite lookup_empty in Hn].
  destruct H as [H _]. destruct (H Hin) as (k & -> & it & Hk & <-). simpl. rewrite Hk. symmetry. apply Get_elem; [done|].
  by eapply list_elem_of_lookup_2.
Qed.

(** nil and Missing items are not kept. *)
Definition clean (v : json) : json := if present v then v else JMissing.

Lemma applyOld_spec values sn : wf_snapshot sn -> wf_snapshot (applyOld values sn) /\
  (forall ref, ref ∈ refs (applyOld values sn) -> ref ∈ refs sn) /\
  forall ref, Get (applyOld values sn) ref =
    if decide (ref ∈ refs sn) then match values !! ref with Some v => clean v | None => Get sn ref end else JMissing.
Proof.
  unfold wf_snapshot. induction sn as [|it sn IH]; simpl; [intros _; split_and!; [constructor|done|done]|].
  intros [Hx Hnd]%NoDup_cons. destruct (IH Hnd) as (H1 & H2 & H3). split_and!.
  - destruct (values !! I_Ref it) as [v|]; [destruct (present v)|]; simpl; try done; (constructor; [|done]); intros Hin; by apply Hx, H2.
  - intros ref. destruct (values !! I_Ref it) as [v|]; [destruct (present v)|]; simpl; rewrite ?elem_of_cons; naive_solver.
  - intros ref. assert (I_Ref it ∉ refs (applyOld values sn)) as Hno by (intros Hin; by apply Hx, H2).
    destruct (decide (I_Ref it = ref)) as [<-|Hne].
    + rewrite decide_True by left. destruct (values !! I_Ref it) as [v|] eqn:Ev.
      * unfold clean. destruct (present v); simpl; [by rewrite Get_cons, decide_True|by apply Get_absent].
      * by rewrite !Get_cons, !decide_True.
    + assert (ref ∈ I_Ref it :: refs sn <-> ref ∈ refs sn) as Hiff by (rewrite elem_of_cons; intuition congruence).
      rewrite (decide_ext _ _ _ _ Hiff), (Get_cons it), (decide_False (P := I_Ref it = ref)), <- H3 by done.
      destruct (values !! I_Ref it) as [v|]; [destruct (present v)|]; simpl; rewrite ?Get_cons, ?(decide_False (P := I_Ref _ = ref)) by done; done.
Qed.

Lemma applyNew_spec values order : forall out there, wf_snapshot out ->
  (forall ref, ref ∈ refs out -> is_Some (there !! ref)) ->
  let r := applyNew values order out there in
  wf_snapshot r /\ forall ref, Get r ref =
    if decide (ref ∈ order /\ there !! ref = None) then clean (default JNull (values !! ref)) else Get out ref.
Proof.
  induction order as [|x order IH]; intros out there Hw Hin; cbn [applyNew].
  { split; [done|]. intros ref. rewrite decide_False; [done|]. intros [?%elem_of_nil _]. done. }
  destruct (there !! x) as [i|] eqn:Et.
  { destruct (IH out there Hw Hin) as [H1 H2]. split; [done|]. intros ref. rewrite H2. apply decide_ext.
    rewrite elem_of_cons. intuition congruence. }
  destruct (present (default JNull (values !! x))) eqn:Ep.
  - assert (x ∉ refs out) as Hx by (intros Hx; apply Hin in Hx as [? ?]; congruence).
    destruct (IH (out ++ [mkItem x (default JNull (values !! x))]) (<[x := length out]> there)) as [H1 H2].
    + unfold wf_snapshot, refs. rewrite fmap_app. apply NoDup_app. split_and!; [done| |apply NoDup_singleton].
      intros r Hr ->%list_elem_of_singleton. done.
    + intros r. unfold refs. rewrite fmap_app, elem_of_app, lookup_insert_is_Some'. cbn [fmap list_fmap].
      intros [?|Hr]; [right; by apply Hin|left]. by apply list_elem_of_singleton in Hr.
    + split; [done|]. intros ref. rewrite H2, Get_app, Get_cons. simpl.
      destruct (decide (x = ref)) as [<-|Hne].
      * rewrite (decide_False (P := x ∈ order /\ _)) by (rewrite lookup_insert_eq; naive_solver).
        rewrite decide_False by done. rewrite decide_True by (split; [left|done]). unfold clean. by rewrite Ep.
      * rewrite lookup_insert_ne by done. rewrite Get_nil.
        destruct (decide (ref ∈ order /\ there !! ref = None)) as [[? ?]|Hno].
        -- by rewrite (decide_True (P := ref ∈ x :: order /\ _)) by (split; [by right|done]).
        -- rewrite (decide_False (P := ref ∈ x :: order /\ _)) by (rewrite elem_of_cons; naive_solver). destruct (decide _); [done|]. by rewrite Get_absent.
  - destruct (IH out there Hw Hin) as [H1 H2]. split; [done|]. intros ref. rewrite H2.
    destruct (decide (ref = x)) as [->|Hne].
    + rewrite (decide_True (P := x ∈ x :: order /\ _)) by (split; [left|done]). unfold clean. rewrite Ep. destruct (decide _); [done|].
      apply Get_absent. intros Hx. apply Hin in Hx as [? ?]. congruence.
    + apply decide_ext. rewrite elem_of_cons. intuition congruence.
Qed.

Lemma Apply_spec sn values order : wf_snapshot sn -> (forall ref, is_Some (values !! ref) -> ref ∈ order) ->
  wf_snapshot (Apply sn values order) /\
  forall ref, Get (Apply sn values order) ref = match values !! ref with Some v => clean v | None => Get sn ref end.
Proof.
  intros Hw Hv. destruct (applyOld_spec values sn Hw) as (H1 & H2 & H3). unfold Apply.
  destruct (applyNew_spec values order (applyOld values sn) (Index sn) H1) as [H4 H5].
  { intros ref Hr%H2. destruct (Index sn !! ref) eqn:E; [done|]. apply Index_none in E; done. }
  split; [done|]. intros ref. rewrite H5, H3.
  pose proof (Index_none sn ref Hw) as Hix. destruct (decide (ref ∈ refs sn)) as [Hin|Hn].
  - rewrite decide_False by tauto. done.
  - destruct (values !! ref) as [v|] eqn:Ev.
    + rewrite decide_True; [done|]. split; [apply Hv; by rewrite Ev|by apply Hix].
    + rewrite (Get_absent sn) by done. destruct (decide _); done.
Qed.

(** ** Replay *)

Section replay.
Context (s : Schema) (Hs : wf_schema s) (newID : nat -> string).

Lemma foundConflicts_elem ref src pinned vcs : forall found c,
  (c ∈ found -> c ∈ foundConflicts newID ref src pinned vcs found) /\
  (forall vc, vc ∈ vcs -> exists n, foundConflict newID ref src pinned vc n ∈ foundConflicts newID ref src pinned vcs found).
Proof.
  induction vcs as [|vc vcs IH]; intros found c; simpl; [split; [done|by intros vc ?%elem_of_nil]|].
  set (x := foundConflict newID ref src pinned vc (length found)). split.
  - intros Hc. apply IH. apply elem_of_app. by left.
  - intros vc' [->|Hin]%elem_of_cons; [exists (length found); fold x; apply IH, elem_of_app; right; left|].
    by apply (proj2 (IH (found ++ [x]) x)).
Qed.

Definition mergedItem (old local next : Snapshot) (ref : Ref) : json * list ValueConflict :=
  Merge s (Get old ref) (Get local ref) (Get next ref) [].

Section fold.
Context (old local next : Snapshot) (src : Source) (pinned : bool).
Context (Ho : wf_snapshot old) (Hl : wf_snapshot local) (Hn : wf_snapshot next).

Lemma replay_fold changed : forall acc,
  let r := foldl (replayStep s newID old local next src pinned) acc changed in
  (forall ref, r.1 !! ref = if decide (ref ∈ changed) then Some (mergedItem old local next ref).1 else acc.1 !! ref) /\
  (forall c, c ∈ acc.2 -> c ∈ r.2) /\
  (forall ref vc, ref ∈ changed -> vc ∈ (mergedItem old local next ref).2 ->
     exists n, foundConflict newID ref src pinned vc n ∈ r.2).
Proof using Hl Hn Ho.
  induction changed as [|x changed IH]; intros acc; cbn [foldl].
  { split_and!; [|done|by intros ref vc ?%elem_of_nil]. intros ref. destruct (decide _) as [?%elem_of_nil|]; done. }
  assert (replayStep s newID old local next src pinned acc x =
    (<[x := (mergedItem old local next x).1]> acc.1, foundConflicts newID x src pinned (mergedItem old local next x).2 acc.2)) as ->.
  { unfold replayStep, mergedItem. rewrite !at_Get by done. by destruct (Merge _ _ _ _ _). }
  destruct (IH (<[x := (mergedItem old local next x).1]> acc.1, foundConflicts newID x src pinned (mergedItem old local next x).2 acc.2)) as (H1 & H2 & H3).
  simpl in *. split_and!.
  - intros ref. rewrite H1. destruct (decide (ref = x)) as [->|Hne].
    + rewrite (decide_True (P := x ∈ x :: changed)) by left. destruct (decide _); [done|]. by rewrite lookup_insert_eq.
    + rewrite lookup_insert_ne by done. apply decide_ext. rewrite elem_of_cons. intuition congruence.
  - intros c Hc. apply H2. by apply foundConflicts_elem.
  - intros ref vc [->|Hin]%elem_of_cons Hvc; [|by apply H3].
    destruct (proj2 (foundConflicts_elem x src pinned (mergedItem old local next x).2 acc.2
      (foundConflict newID x src pinned vc 0)) vc Hvc) as [n Hc]. exists n. by apply H2.
Qed.

(** Replay as a specification, ref by ref. *)
Lemma Replay_spec : let r := Replay s newID old local next src pinned in
  wf_snapshot r.1 /\
  (forall ref, Get r.1 ref = if decide (ref ∈ Changes s old local) then clean (mergedItem old local next ref).1 else Get next ref) /\
  (forall ref vc, ref ∈ Changes s old local -> vc ∈ (mergedItem old local next ref).2 -> exists n, foundConflict newID ref src pinned vc n ∈ r.2).
Proof using Hl Hn Ho.
  unfold Replay. destruct (replay_fold (Changes s old local) (∅, [])) as (H1 & _ & H3).
  destruct (foldl _ _ _) as [values found]. simpl in *.
  destruct (Apply_spec next values (Changes s old local) Hn) as [H4 H5].
  { intros ref [v Hv]. rewrite H1 in Hv. case_decide; [done|]. by rewrite lookup_empty in Hv. }
  split_and!; [done| |done]. intros ref. rewrite H5, H1. case_decide; [done|]. by rewrite lookup_empty.
Qed.

(** An item that is not a change is the same on both sides. *)
Lemma unchanged_same ref : ref ∉ Changes s old local -> canonOf s [] (Get local ref) = canonOf s [] (Get old ref).
Proof using Hl Ho.
  unfold Changes. rewrite not_elem_of_app. intros [H1 H2]. destruct (decide (ref ∈ refs local)) as [Hin|Hno].
  - unfold refs in Hin. apply list_elem_of_fmap in Hin as (it & -> & Hin). rewrite (Get_elem local) by done.
    destruct (Same s (at_ old (Index old) (I_Ref it)) (I_Value it)) eqn:E.
    + unfold Same in E. apply bool_decide_eq_true in E. rewrite at_Get in E by done. symmetry. exact E.
    + destruct H1. apply list_elem_of_fmap_2, list_elem_of_filter. done.
  - rewrite (Get_absent local) by done. destruct (decide (ref ∈ refs old)) as [Hin|?]; [|by rewrite Get_absent].
    destruct H2. unfold refs in Hin. apply list_elem_of_fmap in Hin as (it & -> & Hin).
    apply list_elem_of_fmap_2, list_elem_of_filter. split; [by apply Index_none|done].
Qed.

End fold.

Lemma clean_same q v : canonOf s q (GetAt s (clean v) q) = canonOf s q (GetAt s v q).
Proof.
  destruct v; try done. unfold clean. simpl. destruct q as [|st q].
  - unfold GetAt, canonOf, canonicalAt. simpl. rewrite andb_false_r, andb_true_r. by destruct (bool_decide _).
  - unfold GetAt. rewrite getFrom_missing. destruct st; done.
Qed.

End replay.

(** Replaying changes loses none: re-applying old -> local onto next (an
    update to a newer published revision, a draft taken in, a concurrent
    write), for every item and every path into it, unless a conflict is
    returned for the item there or above it, the result has next's value where
    local made no change and local's where next made none. *)
Theorem replay_loses_nothing s newID old local next src pinned ref q :
  wf_schema s -> wf_snapshot old -> wf_snapshot local -> wf_snapshot next ->
  let '(now, found) := Replay s newID old local next src pinned in
  let same a b := sameAt s q (GetAt s (Get a ref) q) (GetAt s (Get b ref) q) = true in
  wf_snapshot now /\
  ((exists c q2, c ∈ found /\ K_Ref c = ref /\ q = K_Path c ++ q2) \/
   ((same local old -> same now next) /\ (same next old -> same now local))).
Proof.
  intros Hs Ho Hl Hn. destruct (Replay_spec s newID old local next src pinned Ho Hl Hn) as (Hw & Hg & Hf).
  destruct (Replay s newID old local next src pinned) as [now found]. simpl in *. split; [done|].
  rewrite !sameAt_canonOf, Hg. case_decide as Hc.
  - rewrite clean_same.
    destruct (merge_kept s Hs _ (Get old ref) (Get local ref) (Get next ref) [] q (Nat.lt_succ_diag_r _)) as [(c & q1 & q2 & Hin & E & ->)|Hk].
    + left. destruct (Hf ref c Hc Hin) as [n Hin']. eexists _, q2. split; [exact Hin'|].
      unfold foundConflict. simpl in E. destruct pinned; simpl; by rewrite E.
    + right. unfold GetAt. destruct Hk as (H1 & H2 & _). by split.
  - right. pose proof (unchanged_same s old local Ho Hl ref Hc) as E.
    apply (same_getFrom s Hs q) in E. unfold GetAt. simpl in E. split; [done|congruence].
Qed.

(** ** Conflicts *)

Section conflicts.
Context (s : Schema).

Lemma view_ext f g f' g' c : (forall ref, f ref = f' ref) -> (forall ref, g ref = g' ref) -> view s f g c = view s f' g' c.
Proof. intros Hf Hg. unfold view. by rewrite Hf, Hg. Qed.

Lemma lookups_view now base n c : wf_snapshot now -> wf_snapshot base ->
  view s (lookups now base n).1 (lookups now base n).2 c = View s now base c.
Proof.
  intros Hn Hb. unfold lookups, View. destruct (n <=? 1)%nat; [done|]. apply view_ext; intros ref; by apply at_Get.
Qed.

Lemma view_open f g c o : view s f g c = Some o -> K_ID (O_Conflict o) = K_ID c /\ K_Ref (O_Conflict o) = K_Ref c.
Proof. unfold view. repeat case_match; intros [=]; subst; done. Qed.

(** A pending conflict as Carry looks at it: after an update it stands
    against the newest base. *)
Definition carriedSource (source : option Source) (p : Conflict) : Conflict :=
  match source with Some src => if K_Pinned p then p else with_source src p | None => p end.

Definition carry1 (found : list Conflict) (now base : Snapshot) (source : option Source) (p : Conflict) : option Conflict :=
  match View s now base (carriedSource source p) with
  | Some o => if existsb (within p) found then None else Some (O_Conflict o)
  | None => None
  end.

Lemma Carry_eq pending found now base source : wf_snapshot now -> wf_snapshot base ->
  let carried := omap (carry1 found now base source) pending in
  Carry s pending found now base source = carried ++ filter (fun f => existsb (within f) carried = false) found.
Proof.
  intros Hn Hb. unfold Carry. destruct (lookups now base (length pending)) as [f g] eqn:E.
  assert (forall c, view s f g c = View s now base c) as Hv.
  { intros c. rewrite <- (lookups_view now base (length pending) c Hn Hb), E. done. }
  match goal with |- context [omap ?F pending] => assert (forall l : list Conflict, omap (M := list) F l = omap (carry1 found now base source) l) as HF end.
  { intros l. apply list_omap_ext, Forall_Forall2_diag, Forall_forall. intros x _. by rewrite Hv. }
  by rewrite HF.
Qed.

Lemma existsb_elem {A} (f : A -> bool) l : existsb f l = true <-> exists x, x ∈ l /\ f x = true.
Proof. rewrite existsb_exists. by setoid_rewrite list_elem_of_In. Qed.

End conflicts.

(** No conflict is dropped when changes are carried over: each conflict
    just found is kept, or is on or under a kept one; each pending one is
    kept, or a new one on or above its value replaces it, or nothing is left
    to choose there; and every conflict kept is one of these. *)
Theorem carry_drops_nothing s pending found now base source : wf_snapshot now -> wf_snapshot base ->
  let out := Carry s pending found now base source in
  (forall f, f ∈ found -> f ∈ out \/ exists c, c ∈ out /\ within f c = true) /\
  (forall p, p ∈ pending -> (exists c, c ∈ out /\ K_ID c = K_ID p) \/ (exists f, f ∈ found /\ within p f = true) \/
     View s now base (carriedSource source p) = None) /\
  (forall c, c ∈ out -> c ∈ found \/ exists p, p ∈ pending /\ K_ID c = K_ID p /\ K_Ref c = K_Ref p).
Proof.
  intros Hn Hb. cbn zeta. rewrite Carry_eq by done. cbn zeta. set (carried := omap _ pending). split_and!.
  - intros f Hf. destruct (existsb (within f) carried) eqn:E.
    + right. apply existsb_elem in E as (c & Hc & Hw). exists c. split; [|done]. apply elem_of_app. by left.
    + left. apply elem_of_app. right. by apply list_elem_of_filter.
  - intros p Hp. destruct (View s now base (carriedSource source p)) as [o|] eqn:Ev; [|auto].
    destruct (existsb (within p) found) eqn:E; [right; left; by apply existsb_elem|]. left. exists (O_Conflict o).
    apply view_open in Ev as Hid. destruct Hid as [Hid _]. split.
    + apply elem_of_app. left. apply list_elem_of_omap. exists p. split; [done|]. unfold carry1. by rewrite Ev, E.
    + rewrite Hid. unfold carriedSource. by destruct source, (K_Pinned p).
  - intros c [Hc|Hc]%elem_of_app; [right|left; by apply list_elem_of_filter in Hc as [_ ?]].
    apply list_elem_of_omap in Hc as (p & Hp & Hc). exists p. split; [done|]. unfold carry1 in Hc.
    destruct (View s now base (carriedSource source p)) as [o|] eqn:Ev; [|done]. apply view_open in Ev as [E1 E2].
    destruct (existsb _ _); simplify_eq/=. rewrite E1, E2. unfold carriedSource. by destruct source, (K_Pinned p).
Qed.

Lemma chosenOf_some s now base cs id o : chosenOf s now base cs id = Some o ->
  exists c, c ∈ cs /\ K_ID c = id /\ View s now base c = Some o.
Proof.
  unfold chosenOf. assert (forall acc, foldl (fun acc c => if String.eqb (K_ID c) id then View s now base c else acc) acc cs = Some o ->
    acc = Some o \/ exists c, c ∈ cs /\ K_ID c = id /\ View s now base c = Some o) as H.
  { induction cs as [|c cs IH]; intros acc Hf; simpl in Hf; [by left|]. destruct (IH _ Hf) as [Hacc|(x & ? & ?)].
    - destruct (String.eqb (K_ID c) id) eqn:E; [|by left]. apply String.eqb_eq in E. right. exists c. split; [left|done].
    - right. exists x. split; [by right|done]. }
  intros Hf. by destruct (H None Hf).
Qed.

(** Resolving decides one conflict and only it: an error changes nothing;
    otherwise keeping mine leaves the workspace as it is, taking theirs writes
    the chosen item only, and the conflicts left are those of before, in
    order, less those decided (the one chosen, and those of its source under
    its value) and those with nothing left to choose; at least one is gone, so
    resolving comes to an end. *)
Theorem resolve_decides s now base cs id theirs now' left err : wf_snapshot now -> wf_snapshot base ->
  Resolve s now base cs id theirs = (now', left, err) ->
  match err with
  | Some _ => now' = now /\ left = cs
  | None => exists chosen, chosenOf s now base cs id = Some chosen /\ wf_snapshot now' /\
      (theirs = false -> now' = now) /\
      (forall ref, ref <> K_Ref (O_Conflict chosen) -> Get now' ref = Get now ref) /\
      (theirs = true -> Get now' (K_Ref (O_Conflict chosen)) =
         clean (SetAt s (Get now (K_Ref (O_Conflict chosen))) (K_Path (O_Conflict chosen)) (O_TheirsValue chosen))) /\
      left = filter (fun c => decided id (O_Conflict chosen) c = false /\ is_Some (View s now' base c)) cs /\
      (length left < length cs)%nat
  end.
Proof.
  intros Hn Hb. unfold Resolve. destruct (chosenOf s now base cs id) as [chosen|] eqn:Ec; [|by intros [= <- <- <-]].
  set (c := O_Conflict chosen). destruct (theirs && K_Pinned c && _); [by intros [= <- <- <-]|].
  set (item := SetAt s (Get now (K_Ref c)) (K_Path c) (O_TheirsValue chosen)).
  destruct (Apply_spec now {[K_Ref c := item]} [K_Ref c] Hn) as [Hw Hg].
  { intros ref [v Hv]. apply lookup_singleton_Some in Hv as [<- _]. left. }
  fold (With now (K_Ref c) item) in Hw, Hg.
  set (nw := if theirs then With now (K_Ref c) item else now). assert (wf_snapshot nw) as Hnw by (by destruct theirs).
  destruct (lookups nw base (length cs)) as [f g] eqn:El. intros [= <- <- <-]. exists chosen. split_and!; try done.
  - unfold nw. by intros ->.
  - intros ref Hne. unfold nw. destruct theirs; [|done]. by rewrite Hg, lookup_singleton_ne by (intros E; by apply Hne).
  - intros Ht. unfold nw. rewrite Ht, Hg, lookup_singleton_eq. done.
  - apply list_filter_iff. intros x. by rewrite <- (lookups_view s nw base (length cs) x Hnw Hb), El.
  - apply chosenOf_some in Ec as (x & Hx & Hid & _). apply (length_filter_lt _ _ x Hx).
    intros [Hd _]. unfold decided in Hd. rewrite Hid, String.eqb_refl in Hd. done.
Qed.

(** ** The store *)

(** The writes of a store, in order. *)
Definition storeWrite := (Z * Workspace * Z * LogEntry)%type.
Fixpoint puts (ps : list storeWrite) (m : MemoryStore) : MemoryStore :=
  match ps with [] => m | (now, w, expected, entry) :: ps => puts ps (PutWorkspace now w expected entry m).1 end.

Definition store_ok (m : MemoryStore) : Prop := forall u,
  Z.of_nat (length (logOf m u)) < 2 ^ 63 -> 
  storedVersion m u = Z.of_nat (length (logOf m u)) /\
  (forall i e, logOf m u !! i = Some e -> L_Version e = Z.of_nat i + 1).

Lemma put_ok now w expected entry m : store_ok m -> store_ok (PutWorkspace now w expected entry m).1.
Proof.
  intros Hm u. unfold PutWorkspace. destruct (storedVersion m (W_Username w) =? expected) eqn:E; simpl; [|apply Hm].
  apply Z.eqb_eq in E. unfold storedVersion, logOf. simpl. destruct (decide (u = W_Username w)) as [->|Hne].
  - rewrite !lookup_insert_eq. simpl. fold (logOf m (W_Username w)). rewrite length_app. simpl. intros Hlen.
    destruct (Hm (W_Username w)) as [Hv Hl]; [lia|]. rewrite w64_id by lia. split; [lia|]. intros i e Hi.
    apply lookup_app_Some in Hi as [Hi|[Hi1 Hi2]]; [by apply Hl|].
    apply list_lookup_singleton_Some in Hi2 as [Hi2 <-]. simpl. lia.
  - rewrite !lookup_insert_ne by done. apply Hm.
Qed.

Lemma puts_ok ps m : store_ok m -> store_ok (puts ps m).
Proof.
  revert m. induction ps as [|[[[now w] expected] entry] ps IH]; intros m Hm; simpl; [done|]. by apply IH, put_ok.
Qed.

(** Versions order the writes of a workspace: in a store, after any writes
    (fewer than 2^63 to one user), the version kept is the number of writes
    accepted and the log numbers them 1, 2, 3...; a write is accepted exactly
    when it expects that version, takes the next one, and is what is then
    read; a refused one changes nothing.  So of two writers who read the same
    version only one is accepted. *)
Theorem put_compare_and_set ps now w expected entry : let m := puts ps NewMemoryStore in
  let u := W_Username w in
  Z.of_nat (length (logOf m u)) < 2 ^ 63 - 1 ->
  let '(m', r) := PutWorkspace now w expected entry m in
  storedVersion m u = Z.of_nat (length (logOf m u)) /\
  (forall i e, logOf m u !! i = Some e -> L_Version e = Z.of_nat i + 1) /\
  (forall v, v <> u -> WorkspaceOf m' v = WorkspaceOf m v) /\
  match r with
  | None => expected <> storedVersion m u /\ m' = m
  | Some w' => expected = storedVersion m u /\ W_Version w' = expected + 1 /\ W_Items w' = W_Items w /\
      W_Conflicts w' = W_Conflicts w /\ WorkspaceOf m' u = Some w' /\ length (logOf m' u) = S (length (logOf m u))
  end.
Proof.
  intros m u Hlen. assert (store_ok m) as Hm by (apply puts_ok; intros v _; split; [done|by intros i e ?]).
  destruct (Hm u ltac:(lia)) as [Hv Hl]. unfold PutWorkspace. fold u. destruct (storedVersion m u =? expected) eqn:E; simpl.
  - apply Z.eqb_eq in E. split_and!; try done; [intros v Hne; unfold WorkspaceOf; simpl; by rewrite lookup_insert_ne|rewrite w64_id; lia| |].
    + unfold WorkspaceOf. simpl. apply lookup_insert_eq.
    + unfold logOf at 1. simpl. rewrite lookup_insert_eq. simpl. rewrite length_app. simpl. lia.
  - apply Z.eqb_neq in E. split_and!; by try congruence.
Qed.

(** ** The theorems at work *)

Definition orders : Ref := mkRef "entity" "orders".
Definition snap (v : json) : Snapshot := [mkItem orders v].
Definition published : Source := mkSource "published" "7" "".
Definition demoID (n : nat) : string := pretty (Z.of_nat n).

Lemma snap_wf v : wf_snapshot (snap v).
Proof. apply NoDup_singleton. Qed.

Lemma replay_loses_nothing_witness :
  let '(now, found) := Replay demoSchema demoID (snap demoBase) (snap demoLocal) (snap demoNext) published false in
  wf_snapshot now.
Proof.
  pose proof (replay_loses_nothing demoSchema demoID (snap demoBase) (snap demoLocal) (snap demoNext) published false orders
    [FieldStep "description"] demoSchema_wf (snap_wf _) (snap_wf _) (snap_wf _)) as H.
  destruct (Replay _ _ _ _ _ _ _) as [now found]. exact (proj1 H).
Defined.

Definition demoFound : list Conflict := (Replay demoSchema demoID (snap demoBase) (snap demoLocal) (snap demoNext) published false).2.

Lemma demoFound_some : exists f, f ∈ demoFound.
Proof. eexists. vm_compute. left. Qed.

Lemma carry_drops_nothing_witness : exists f, f ∈ demoFound /\
  (f ∈ Carry demoSchema [] demoFound (snap demoLocal) (snap demoNext) None \/
   exists c, c ∈ Carry demoSchema [] demoFound (snap demoLocal) (snap demoNext) None /\ within f c = true).
Proof.
  destruct demoFound_some as [f Hf]. exists f. split; [exact Hf|].
  exact (proj1 (carry_drops_nothing demoSchema [] demoFound (snap demoLocal) (snap demoNext) None (snap_wf _) (snap_wf _)) f Hf).
Defined.

Lemma demo_resolved : exists now', Resolve demoSchema (snap demoLocal) (snap demoNext) demoFound "0" true = (now', [], None).
Proof. eexists. vm_compute. reflexivity. Qed.

Lemma resolve_decides_witness : exists now', Resolve demoSchema (snap demoLocal) (snap demoNext) demoFound "0" true = (now', [], None) /\
  (length (@nil Conflict) < length demoFound)%nat.
Proof.
  destruct demo_resolved as [now' E]. exists now'. split; [exact E|].
  destruct (resolve_decides demoSchema (snap demoLocal) (snap demoNext) demoFound "0" true now' [] None (snap_wf _) (snap_wf _) E)
    as (chosen & _ & _ & _ & _ & _ & _ & Hlen). exact Hlen.
Defined.

Definition annWorkspace : Workspace := mkWorkspace "ann" 7 (snap demoLocal) [] [] [] 0 0 0 0 "ann".
Definition annEntry : LogEntry := mkLogEntry 0 0 "ann" "edit" [orders] "".

(** The second of two writers who both read version 0 is refused. *)
Lemma put_compare_and_set_witness :
  (PutWorkspace 5000 annWorkspace 0 annEntry (puts [(4000, annWorkspace, 0, annEntry)] NewMemoryStore)).2 = None /\
  storedVersion (puts [(4000, annWorkspace, 0, annEntry)] NewMemoryStore) "ann" = 1.
Proof.
  pose proof (put_compare_and_set [(4000, annWorkspace, 0, annEntry)] 5000 annWorkspace 0 annEntry ltac:(vm_compute; reflexivity)) as H.
  destruct (PutWorkspace 5000 _ _ _ _) as [m' r]. destruct H as (Hv & _ & _ & Hr). split.
  - destruct r as [w'|]; [|reflexivity]. destruct Hr as (Hr & _). rewrite Hv in Hr. discriminate Hr.
  - exact (eq_trans Hv eq_refl).
Defined.
