(* ===== verification/ExpiryHeap.v ===== *)
(** The expiry heap of core/cache: container/heap on the type expiries.

    up, down, Push and Remove of container/heap over a slice of entries whose
    Swap keeps each entry's position in [at_].  Indices are those of the
    slice; Remove panics past its end. *)

From S2P Require Import Prelude.

Section heap.
Context {A K : Type} `{Countable K} (key : A -> K) (exp : A -> Z).

(** The slice, and the field at of the entries, by key. *)
Definition expiries : Type := (list A * gmap K nat)%type.

Definition expAt (h : list A) (i : nat) : Z := match h !! i with Some e => exp e | None => 0 end.

Definition Less (h : expiries) (i j : nat) : bool := expAt h.1 i <? expAt h.1 j.

Definition Swap (h : expiries) (i j : nat) : expiries :=
  match h.1 !! i, h.1 !! j with
  | Some a, Some b => (<[i := b]> (<[j := a]> h.1), <[key b := i]> (<[key a := j]> h.2))
  | _, _ => h
  end.

(** (j - 1) / 2 of Go's int, which is 0 at 0. *)
Definition parent (j : nat) : nat := (pred j / 2)%nat.

(** Each round halves the index: [fuel] the index is enough. *)
Fixpoint up (fuel : nat) (h : expiries) (j : nat) : expiries :=
  match fuel with
  | O => h
  | S fuel =>
      let i := parent j in
      if (i =? j)%nat || negb (Less h j i) then h else up fuel (Swap h i j) i
  end.

Fixpoint down (fuel : nat) (h : expiries) (i n : nat) : expiries * nat :=
  match fuel with
  | O => (h, i)
  | S fuel =>
      let j1 := (2 * i + 1)%nat in
      if (n <=? j1)%nat then (h, i)
      else
        let j := if (j1 + 1 <? n)%nat && Less h (j1 + 1) j1 then (j1 + 1)%nat else j1 in
        if negb (Less h j i) then (h, i) else down fuel (Swap h i j) j n
  end.

(** heap.Push *)
Definition heapPush (h : expiries) (e : A) : expiries :=
  let h := (h.1 ++ [e], <[key e := length h.1]> h.2) in
  up (length h.1) h (length h.1 - 1).

(** Pop of the slice: its last entry goes. *)
Definition popLast (h : expiries) : expiries := (take (length h.1 - 1) h.1, h.2).

(** heap.Remove *)
Definition heapRemove (h : expiries) (i : nat) : result expiries :=
  if (length h.1 <=? i)%nat then Err Panic
  else
    let n := (length h.1 - 1)%nat in
    if (i =? n)%nat then Ok (popLast h)
    else
      let '(h', i') := down (length h.1) (Swap h i n) i n in
      let h' := if (i <? i')%nat then h' else up (length h.1) h' i in
      Ok (popLast h').

(** ** The heap order *)

Implicit Types (h : expiries) (l : list A).

(** The entry at [i] does not expire before its parent. *)
Definition ordered (l : list A) (i : nat) : Prop := expAt l (parent i) <= expAt l i.
Definition heapOk (l : list A) (n : nat) : Prop := forall i, (0 < i < n)%nat -> ordered l i.

Lemma parent_lt i : (0 < i)%nat -> (parent i < i)%nat.
Proof. intros. unfold parent. pose proof (Nat.div_mod_eq (pred i) 2). lia. Qed.

Lemma parent_child i c : (0 < c)%nat -> parent c = i <-> c = (2 * i + 1)%nat \/ c = (2 * i + 2)%nat.
Proof.
  intros Hc. unfold parent. pose proof (Nat.div_mod_eq (pred c) 2). pose proof (Nat.mod_upper_bound (pred c) 2 ltac:(lia)). lia.
Qed.

Lemma Swap_length h i j : length (Swap h i j).1 = length h.1.
Proof. unfold Swap. repeat case_match; simpl; by rewrite ?length_insert. Qed.

Lemma expAt_swap h i j k : (i < length h.1)%nat -> (j < length h.1)%nat ->
  expAt (Swap h i j).1 k = if decide (k = i) then expAt h.1 j else if decide (k = j) then expAt h.1 i else expAt h.1 k.
Proof.
  intros Hi Hj. destruct (lookup_lt_is_Some_2 _ _ Hi) as [a Ha], (lookup_lt_is_Some_2 _ _ Hj) as [b Hb].
  unfold Swap, expAt. rewrite Ha, Hb. simpl. destruct (decide (k = i)) as [->|].
  - by rewrite list_lookup_insert_eq by by rewrite length_insert.
  - rewrite list_lookup_insert_ne by done. destruct (decide (k = j)) as [->|]; [by rewrite list_lookup_insert_eq|].
    by rewrite list_lookup_insert_ne.
Qed.

Lemma Swap_perm h i j : (Swap h i j).1 ≡ₚ h.1.
Proof.
  unfold Swap. destruct (h.1 !! i) as [a|] eqn:Ha, (h.1 !! j) as [b|] eqn:Hb; try done. simpl.
  by apply (Permutation_insert_swap h.1 j i b a).
Qed.

Lemma up_length fuel : forall h j, length (up fuel h j).1 = length h.1.
Proof. induction fuel as [|fuel IH]; intros h j; simpl; [done|]. destruct (_ || _); [done|]. by rewrite IH, Swap_length. Qed.

Lemma up_perm fuel : forall h j, (up fuel h j).1 ≡ₚ h.1.
Proof. induction fuel as [|fuel IH]; intros h j; simpl; [done|]. destruct (_ || _); [done|]. by rewrite IH, Swap_perm. Qed.

Lemma down_length fuel n : forall h i, length (down fuel h i n).1.1 = length h.1.
Proof.
  induction fuel as [|fuel IH]; intros h i; simpl; [done|]. destruct (_ <=? _)%nat; [done|].
  destruct (negb _); [done|]. by rewrite IH, Swap_length.
Qed.

Lemma down_perm fuel n : forall h i, (down fuel h i n).1.1 ≡ₚ h.1.
Proof.
  induction fuel as [|fuel IH]; intros h i; simpl; [done|]. destruct (_ <=? _)%nat; [done|].
  destruct (negb _); [done|]. by rewrite IH, Swap_perm.
Qed.

(** Every entry but the one at [j] is ordered, and those under [j] after
    [j]'s parent. *)
Definition raised (l : list A) (n j : nat) : Prop :=
  (forall c, (0 < c < n)%nat -> c <> j -> ordered l c) /\
  (forall c, (0 < c < n)%nat -> parent c = j -> (0 < j)%nat -> expAt l (parent j) <= expAt l c).

Lemma up_ok fuel n : forall h j, (j < n)%nat -> (n <= length h.1)%nat -> (j <= fuel)%nat -> raised h.1 n j ->
  heapOk (up fuel h j).1 n.
Proof.
  induction fuel as [|fuel IH]; intros h j Hj Hn Hf [H1 H2]; simpl.
  { intros c Hc. apply H1; lia. }
  destruct (Nat.eqb_spec (parent j) j) as [E|E]; simpl.
  { intros c Hc. apply H1; [lia|]. intros ->. pose proof (parent_lt j). lia. }
  assert (0 < j)%nat as Hj0 by (destruct j; [done|lia]). pose proof (parent_lt j Hj0) as Hp.
  destruct (Less h j (parent j)) eqn:El; simpl.
  - apply Z.ltb_lt in El. apply IH; [lia|by rewrite Swap_length|lia|]. split.
    + intros c Hc Hne. unfold ordered. rewrite !expAt_swap by lia. destruct (decide (c = j)) as [->|Hcj].
      * rewrite !(decide_False (P := j = parent j)), !decide_True by lia. lia.
      * rewrite !(decide_False (P := c = _)) by done. destruct (decide (parent c = parent j)) as [Ep|Ep].
        -- specialize (H1 c Hc Hcj). unfold ordered in H1. rewrite Ep in H1. lia.
        -- destruct (decide (parent c = j)) as [Ec|Ec]; [apply H2; [lia|done|done]|]. by apply H1.
    + intros c Hc Ec Hp0. rewrite !expAt_swap by lia. pose proof (parent_lt (parent j) Hp0).
      rewrite !(decide_False (P := parent (parent j) = _)) by lia. assert (ordered h.1 (parent j)) as Ho by (apply H1; lia).
      unfold ordered in Ho. pose proof (parent_lt c). rewrite (decide_False (P := c = parent j)) by lia.
      destruct (decide (c = j)) as [->|Hcj]; [done|]. specialize (H1 c Hc Hcj). unfold ordered in H1. rewrite Ec in H1. lia.
  - apply Z.ltb_ge in El. intros c Hc. destruct (decide (c = j)) as [->|]; [done|]. by apply H1.
Qed.

(** Every entry not at [i] or under it is ordered, and those under [i] after
    [i]'s parent. *)
Definition lowered (l : list A) (n i : nat) : Prop :=
  (forall c, (0 < c < n)%nat -> c <> i -> parent c <> i -> ordered l c) /\
  (forall c, (0 < c < n)%nat -> parent c = i -> (0 < i)%nat -> expAt l (parent i) <= expAt l c).

Lemma down_ok fuel n : forall h i, (n <= length h.1)%nat -> (i < n)%nat -> (n - i <= fuel)%nat -> lowered h.1 n i ->
  let r := down fuel h i n in
  ((0 < i)%nat -> ordered h.1 i -> heapOk r.1.1 n) /\
  (i = 0%nat -> heapOk r.1.1 n) /\
  ((i < r.2)%nat -> heapOk r.1.1 n) /\
  (~ (i < r.2)%nat -> r.1 = h /\ raised h.1 n i).
Proof.
  induction fuel as [|fuel IH]; intros h i Hn Hi Hf [H1 H2]; [lia|]. cbn [down].
  assert (forall c, (0 < c < n)%nat -> parent c = i -> c = (2 * i + 1)%nat \/ c = (2 * i + 2)%nat) as Hch.
  { intros c Hc. apply parent_child. lia. }
  assert ((forall c, (0 < c < n)%nat -> parent c = i -> ordered h.1 c) ->
    ((0 < i)%nat -> ordered h.1 i -> heapOk h.1 n) /\ (i = 0%nat -> heapOk h.1 n) /\ ((i < i)%nat -> heapOk h.1 n) /\
    (~ (i < i)%nat -> h = h /\ raised h.1 n i)) as Hstop.
  { intros Hc. assert (forall c, (0 < c < n)%nat -> c <> i -> ordered h.1 c) as Hall.
    { intros c Hcn Hne. destruct (decide (parent c = i)); [by apply Hc|by apply H1]. }
    split_and!; [|intros ->|lia|intros _; split; [done|by split]].
    - intros Hi0 Ho c Hcn. destruct (decide (c = i)) as [->|]; [done|by apply Hall].
    - intros c Hcn. apply Hall; lia. }
  destruct (Nat.leb_spec n (2 * i + 1)%nat) as [Hle|Hgt]; [apply Hstop; intros c Hc Hp; destruct (Hch c Hc Hp); lia|].
  set (j := if (2 * i + 1 + 1 <? n)%nat && Less h (2 * i + 1 + 1) (2 * i + 1) then (2 * i + 1 + 1)%nat else (2 * i + 1)%nat).
  assert ((j < n)%nat /\ parent j = i /\ (i < j)%nat /\ forall c, (0 < c < n)%nat -> parent c = i -> expAt h.1 j <= expAt h.1 c) as (Hj & Hpj & Hij & Hmin).
  { assert (parent (2 * i + 1) = i /\ parent (2 * i + 1 + 1) = i) as [P1 P2] by (split; apply parent_child; lia).
    unfold j. destruct (Nat.ltb_spec (2 * i + 1 + 1) n) as [Hlt|Hlt]; simpl andb.
    - destruct (Less h _ _) eqn:El; [apply Z.ltb_lt in El|apply Z.ltb_ge in El]; split_and!; try lia; try done;
        intros c Hc Hp; destruct (Hch c Hc Hp) as [->| ->]; replace (2 * i + 2)%nat with (2 * i + 1 + 1)%nat by lia; lia.
    - split_and!; try lia; try done. intros c Hc Hp. destruct (Hch c Hc Hp) as [->| ->]; lia. }
  destruct (Less h j i) eqn:El; simpl negb; cbn match.
  2:{ apply Z.ltb_ge in El. apply Hstop. intros c Hc Hp. unfold ordered. rewrite Hp. specialize (Hmin c Hc Hp). lia. }
  apply Z.ltb_lt in El.
  assert (heapOk (down fuel (Swap h i j) j n).1.1 n) as Hok.
  { destruct (IH (Swap h i j) j) as (Hd & _); [by rewrite Swap_length|done|lia| |apply Hd; [lia|]].
    - split.
      + intros c Hc Hne Hpc. unfold ordered. rewrite !expAt_swap by lia.
        rewrite (decide_False (P := parent c = j)), (decide_False (P := c = j)) by done.
        destruct (decide (c = i)) as [->|Hci].
        * pose proof (parent_lt i ltac:(lia)). rewrite decide_False by lia. apply H2; [lia|done|lia].
        * destruct (decide (parent c = i)) as [Ep|Ep]; [by apply Hmin|by apply H1].
      + intros c Hc Hpc _. rewrite Hpj, !expAt_swap by lia. pose proof (parent_lt c ltac:(lia)).
        rewrite (decide_True (P := i = i)) by done. rewrite (decide_False (P := c = i)), (decide_False (P := c = j)) by lia.
        specialize (H1 c Hc ltac:(lia) ltac:(lia)). unfold ordered in H1. by rewrite Hpc in H1.
    - unfold ordered. rewrite Hpj, !expAt_swap by lia. rewrite (decide_True (P := i = i)) by done.
      rewrite (decide_False (P := j = i)), (decide_True (P := j = j)) by lia. lia. }
  assert (forall fuel h i, (i <= (down fuel h i n).2)%nat) as Hge.
  { clear. induction fuel as [|fuel IH]; intros h i; simpl; [done|]. destruct (_ <=? _)%nat; [done|].
    destruct (negb _); [done|]. etrans; [|apply IH]. destruct (_ && _); lia. }
  specialize (Hge fuel (Swap h i j) j). split_and!; try done. lia.
Qed.

(** ** Positions *)

Definition posOk (h : expiries) : Prop :=
  NoDup (key <$> h.1) /\ forall i e, h.1 !! i = Some e -> h.2 !! key e = Some i.

Lemma key_inj h i j a b : NoDup (key <$> h.1) -> h.1 !! i = Some a -> h.1 !! j = Some b -> key a = key b -> i = j.
Proof.
  intros Hnd Ha Hb E. eapply (NoDup_lookup (key <$> h.1) i j (key a)); [done|by rewrite list_lookup_fmap, Ha|].
  by rewrite list_lookup_fmap, Hb, E.
Qed.

Lemma Swap_pos h i j : posOk h -> posOk (Swap h i j).
Proof.
  intros [Hnd Hp]. split; [by rewrite Swap_perm|].
  unfold Swap. destruct (h.1 !! i) as [a|] eqn:Ha; [|done]. destruct (h.1 !! j) as [b|] eqn:Hb; [|done]. simpl.
  intros k e Hk. apply list_lookup_insert_Some in Hk as [(-> & -> & _)|[Hki Hk]]; [by rewrite lookup_insert_eq|].
  apply list_lookup_insert_Some in Hk as [(-> & -> & _)|[Hkj Hk]].
  - rewrite lookup_insert_ne; [by rewrite lookup_insert_eq|]. intros E. by apply Hki, (key_inj h i k e b).
  - rewrite !lookup_insert_ne; [by apply Hp| |]; intros E; [by apply Hki, (key_inj h i k a e)|by apply Hkj, (key_inj h j k b e)].
Qed.

Lemma up_pos fuel : forall h j, posOk h -> posOk (up fuel h j).
Proof. induction fuel as [|fuel IH]; intros h j Hp; simpl; [done|]. destruct (_ || _); [done|]. by apply IH, Swap_pos. Qed.

Lemma down_pos fuel n : forall h i, posOk h -> posOk (down fuel h i n).1.
Proof.
  induction fuel as [|fuel IH]; intros h i Hp; simpl; [done|]. destruct (_ <=? _)%nat; [done|].
  destruct (negb _); [done|]. by apply IH, Swap_pos.
Qed.

Lemma popLast_pos h : posOk h -> posOk (popLast h).
Proof.
  intros [Hnd Hp]. split; simpl.
  - rewrite <- (take_drop (length h.1 - 1) h.1), fmap_app in Hnd. by apply NoDup_app in Hnd as [? _].
  - intros i e Hi. apply lookup_take_Some in Hi as [Hi _]. by apply Hp.
Qed.

Lemma Swap_lookup h i j k : k <> i -> k <> j -> (Swap h i j).1 !! k = h.1 !! k.
Proof. intros. unfold Swap. repeat case_match; simpl; by rewrite ?list_lookup_insert_ne. Qed.

Lemma up_lookup fuel (k : nat) : forall h (j : nat), (j < k)%nat -> (up fuel h j).1 !! k = h.1 !! k.
Proof.
  induction fuel as [|fuel IH]; intros h j Hk; simpl; [done|]. destruct (_ || _) eqn:E; [done|].
  apply orb_false_iff in E as [E _]. apply Nat.eqb_neq in E. pose proof (parent_lt j). destruct j; [done|].
  rewrite IH by lia. apply Swap_lookup; lia.
Qed.

Lemma down_lookup fuel n (k : nat) : (n <= k)%nat -> forall h i, (i < n)%nat -> (down fuel h i n).1.1 !! k = h.1 !! k.
Proof.
  intros Hk. induction fuel as [|fuel IH]; intros h i Hi; simpl; [done|]. destruct (Nat.leb_spec n (i + (i + 0) + 1)); [done|].
  destruct (negb _); [done|]. match goal with |- context [Swap h i ?x] => set (j := x) end. assert (j < n)%nat.
  { unfold j. destruct (Nat.ltb_spec (i + (i + 0) + 1 + 1) n); simpl; [destruct (Less _ _ _)|]; lia. }
  rewrite IH by done. apply Swap_lookup; lia.
Qed.

(** ** Push and Remove *)

Lemma heapOk_prefix (l l' : list A) (n : nat) : (forall k : nat, (k < n)%nat -> l !! k = l' !! k) -> heapOk l n -> heapOk l' n.
Proof.
  intros E Hh i Hi. specialize (Hh i Hi). unfold ordered, expAt in *. pose proof (parent_lt i). by rewrite <- !E by lia.
Qed.

Lemma heapPush_ok h e : posOk h -> heapOk h.1 (length h.1) -> key e ∉ key <$> h.1 ->
  let h' := heapPush h e in
  posOk h' /\ heapOk h'.1 (length h'.1) /\ h'.1 ≡ₚ e :: h.1.
Proof.
  intros [Hnd Hp] Hh Hk. unfold heapPush. cbn [fst snd]. set (h1 := (h.1 ++ [e], <[key e := length h.1]> h.2)).
  assert (posOk h1) as Hp1.
  { split; simpl.
    - rewrite fmap_app. apply NoDup_app. split_and!; [done| |apply NoDup_singleton]. intros x Hx ->%list_elem_of_singleton. done.
    - intros i x [Hi|[Hi Hx]]%lookup_app_Some.
      + rewrite lookup_insert_ne; [by apply Hp|]. intros E. apply Hk. rewrite E. by eapply list_elem_of_fmap_2, list_elem_of_lookup_2.
      + apply list_lookup_singleton_Some in Hx as [? <-]. rewrite lookup_insert_eq. f_equal. lia. }
  split_and!.
  - by apply up_pos.
  - rewrite up_length. apply up_ok; simpl; rewrite ?length_app; simpl; try lia. split.
    + intros c Hc Hne. refine (heapOk_prefix h.1 _ (length h.1) _ Hh c _); [|lia].
      intros k Hkl. by rewrite lookup_app_l.
    + intros c Hc Hpc. pose proof (parent_lt c). lia.
  - rewrite up_perm. simpl. by rewrite Permutation_app_comm.
Qed.

Lemma popLast_perm h e : h.1 !! (length h.1 - 1)%nat = Some e -> h.1 ≡ₚ e :: (popLast h).1.
Proof.
  intros He. simpl. rewrite <- (take_drop_middle _ _ _ He) at 1. rewrite drop_ge by (apply lookup_lt_Some in He; lia).
  by rewrite Permutation_app_comm.
Qed.

Lemma heapRemove_ok h i e : posOk h -> heapOk h.1 (length h.1) -> h.1 !! i = Some e -> exists h',
  heapRemove h i = Ok h' /\ posOk h' /\ heapOk h'.1 (length h'.1) /\ h.1 ≡ₚ e :: h'.1.
Proof.
  intros Hp Hh He. pose proof (lookup_lt_Some _ _ _ He) as Hi. unfold heapRemove.
  destruct (Nat.leb_spec (length h.1) i) as [|_]; [lia|]. set (n := (length h.1 - 1)%nat).
  assert (forall g, length g.1 = length h.1 -> g.1 ≡ₚ h.1 -> g.1 !! n = Some e -> posOk g -> heapOk g.1 n ->
    posOk (popLast g) /\ heapOk (popLast g).1 (length (popLast g).1) /\ h.1 ≡ₚ e :: (popLast g).1) as Hend.
  { intros g Hl Hperm Hg Hpg Hhg. split_and!; [by apply popLast_pos| |].
    - simpl. rewrite length_take, Hl. replace ((length h.1 - 1) `min` length h.1)%nat with n by lia.
      eapply heapOk_prefix; [|done]. intros k Hkn. by rewrite lookup_take_lt by (fold n; lia).
    - rewrite <- (popLast_perm g); [done|]. by rewrite Hl. }
  destruct (Nat.eqb_spec i n) as [->|Hne].
  { eexists. split; [done|]. apply Hend; try done. intros k Hk. apply Hh. lia. }
  assert (n < length h.1)%nat as Hn by lia. assert (length (Swap h i n).1 = length h.1) as Hsl by apply Swap_length.
  assert ((Swap h i n).1 !! n = Some e) as Hsn.
  { unfold Swap. rewrite He. destruct (lookup_lt_is_Some_2 _ _ Hn) as [b ->]. simpl.
    rewrite list_lookup_insert_ne by lia. by rewrite list_lookup_insert_eq. }
  assert (lowered (Swap h i n).1 n i) as Hlow.
  { split.
    - intros c Hc Hci Hpc. unfold ordered. pose proof (parent_lt c). rewrite !expAt_swap by lia.
      rewrite !(decide_False (P := _ = n)), !(decide_False (P := _ = i)) by lia. apply Hh. lia.
    - intros c Hc Hpc Hi0. pose proof (parent_lt c). pose proof (parent_lt i). rewrite !expAt_swap by lia.
      rewrite !(decide_False (P := _ = n)), !(decide_False (P := _ = i)) by lia.
      pose proof (Hh i ltac:(lia)) as Hx1. pose proof (Hh c ltac:(lia)) as Hx2. unfold ordered in *. rewrite Hpc in Hx2. lia. }
  pose proof (down_ok (length h.1) n (Swap h i n) i ltac:(lia) ltac:(lia) ltac:(lia) Hlow) as (_ & _ & Hmoved & Hstay).
  pose proof (down_length (length h.1) n (Swap h i n) i) as Hdl. pose proof (down_perm (length h.1) n (Swap h i n) i) as Hdp.
  pose proof (down_pos (length h.1) n (Swap h i n) i (Swap_pos _ _ _ Hp)) as Hdo.
  pose proof (down_lookup (length h.1) n n ltac:(lia) (Swap h i n) i ltac:(lia)) as Hdk. rewrite Swap_perm in Hdp.
  destruct (down _ _ _ _) as [h1 i1]. simpl in *. destruct (Nat.ltb_spec i i1) as [Hlt|Hge].
  - eexists. split; [done|]. apply Hend; try done; [by rewrite Hdl|by rewrite Hdk|by apply Hmoved].
  - destruct (Hstay ltac:(lia)) as [-> Hr]. eexists. split; [done|]. apply Hend.
    + by rewrite up_length.
    + by rewrite up_perm.
    + by rewrite up_lookup by lia.
    + by apply up_pos.
    + apply up_ok; try lia. done.
Qed.

(** The first entry is the one closest to expiry. *)
Lemma heap_first h e x : heapOk h.1 (length h.1) -> h.1 !! 0%nat = Some e -> x ∈ h.1 -> exp e <= exp x.
Proof.
  intros Hh He [i Hi]%list_elem_of_lookup. assert (forall n i, (i <= n)%nat -> (i < length h.1)%nat -> expAt h.1 0 <= expAt h.1 i) as Hall.
  { induction n as [|n IH]; intros k Hk Hkl; [replace k with 0%nat by lia; lia|]. destruct (decide (k = 0%nat)) as [->|]; [lia|].
    pose proof (parent_lt k ltac:(lia)). specialize (IH (parent k) ltac:(lia) ltac:(lia)). pose proof (Hh k ltac:(lia)) as Ho.
    unfold ordered in Ho. lia. }
  specialize (Hall i i ltac:(lia) ltac:(by eapply lookup_lt_Some)). unfold expAt in Hall. by rewrite He, Hi in Hall.
Qed.

End heap.
