(* ===== verification/Cache.v ===== *)
(** The read cache: core/cache/cache.go.

    TTLCache's methods run under its mutex: each is one definition.  An entry
    in the map and in the heap is one pointer, its position the second part of
    the heap ([ExpiryHeap.expiries]).  A nil entry dereferenced, or a heap
    index out of range, is [Err Panic].  Sizes and stamps count bytes held in
    memory and writes made: they are unbounded integers.  [e_stamp] is the
    stamp the entry was stored with, which the code checks and forgets: no
    definition reads it. *)

From S2P Require Import Prelude ExpiryHeap.

Record Key : Type := mkKey {
  Database : string;
  Relation : string;
  Datasource : string;
  Generation : Z;
  SQL : string;
  Args : string;
  Scope : string;
}.

#[global] Instance Key_eq_dec : EqDecision Key.
Proof. solve_decision. Defined.
#[global] Program Instance Key_countable : Countable Key :=
  inj_countable' (fun k => (Database k, Relation k, Datasource k, Generation k, SQL k, Args k, Scope k))
    (fun t => let '(a, b, c, d, e, f, g) := t in mkKey a b c d e f g) _.
Next Obligation. by intros []. Qed.

Definition defaultMaxSize : Z := 1024.

Section cache.
Context {V : Type}.

Record entry : Type := mkEntry { e_key : Key; e_v : V; e_exp : Z; e_size : Z; e_stamp : Z }.

Record TTLCache : Type := mkCache {
  c_ttl : Z;
  c_maxSize : Z;
  c_maxBytes : Z;
  c_bytes : Z;
  c_m : gmap Key entry;
  c_byDatabase : gmap string (gmap string (gset Key));
  c_expiry : list entry * gmap Key nat;
  c_stamps : gmap string Z;
}.

(** The heap operations of the cache's entries. *)
Definition pushExpiry : list entry * gmap Key nat -> entry -> list entry * gmap Key nat := heapPush e_key e_exp.
Definition removeExpiry : list entry * gmap Key nat -> nat -> result (list entry * gmap Key nat) := heapRemove e_key e_exp.

(** Index of an entry's key: its database's relation gains or loses it. *)
Definition indexKey (k : Key) (d : gmap string (gmap string (gset Key))) : gmap string (gmap string (gset Key)) :=
  let relations := default ∅ (d !! Database k) in
  <[Database k := <[Relation k := {[k]} ∪ default ∅ (relations !! Relation k)]> relations]> d.

Definition unindexKey (k : Key) (d : gmap string (gmap string (gset Key))) : gmap string (gmap string (gset Key)) :=
  match d !! Database k with
  | None => d
  | Some relations =>
      let relations :=
        match relations !! Relation k with
        | None => relations
        | Some keys =>
            let keys := keys ∖ {[k]} in
            if bool_decide (keys = ∅) then delete (Relation k) relations else <[Relation k := keys]> relations
        end in
      if bool_decide (relations = ∅) then delete (Database k) d else <[Database k := relations]> d
  end.

Definition removeLocked (e : entry) (c : TTLCache) : result TTLCache :=
  expiry ← removeExpiry (c_expiry c) (default 0%nat ((c_expiry c).2 !! e_key e));
  Ok (mkCache (c_ttl c) (c_maxSize c) (c_maxBytes c) (c_bytes c - e_size e) (delete (e_key e) (c_m c))
        (unindexKey (e_key e) (c_byDatabase c)) expiry (c_stamps c)).

(** Drops the first entry of the heap while [over]; the heap's length is
    enough rounds, as each drops one entry. *)
Fixpoint dropWhile (over : TTLCache -> entry -> bool) (fuel : nat) (c : TTLCache) : result TTLCache :=
  match fuel, (c_expiry c).1 with
  | S fuel, first :: _ =>
      if over c first then c ← removeLocked first c; dropWhile over fuel c else Ok c
  | _, _ => Ok c
  end.

Definition overCaps (more size : Z) (c : TTLCache) : bool :=
  (c_maxSize c <? Z.of_nat (base.size (c_m c)) + more) || ((0 <? c_maxBytes c) && (c_maxBytes c <? c_bytes c + size)).

Definition evictLocked (more size : Z) (c : TTLCache) : result TTLCache :=
  dropWhile (fun c _ => overCaps more size c) (length (c_expiry c).1) c.

Definition UpdateLimits (ttl maxSize maxBytes : Z) (c : TTLCache) : result TTLCache :=
  evictLocked 0 0
    (mkCache ttl (if maxSize <=? 0 then defaultMaxSize else maxSize) (Z.max maxBytes 0) (c_bytes c) (c_m c)
       (c_byDatabase c) (c_expiry c) (c_stamps c)).

Definition NewTTLCache (ttl maxSize : Z) : result TTLCache :=
  UpdateLimits ttl maxSize 0 (mkCache 0 0 0 0 ∅ ∅ ([], ∅) ∅).

(** The value and its size, when present and unexpired; an expired entry is
    dropped. *)
Definition GetSized (now : Z) (k : Key) (c : TTLCache) : result (TTLCache * option (V * Z)) :=
  match c_m c !! k with
  | None => Ok (c, None)
  | Some e => if e_exp e <? now then c ← removeLocked e c; Ok (c, None) else Ok (c, Some (e_v e, e_size e))
  end.

Definition Stamp (database : string) (c : TTLCache) : Z := default 0 (c_stamps c !! database).

Definition SetSized (now : Z) (k : Key) (v : V) (stamp size : Z) (c : TTLCache) : result TTLCache :=
  if negb (Stamp (Database k) c =? stamp) || ((0 <? c_maxBytes c) && (c_maxBytes c <? size)) then Ok c
  else
    c ← dropWhile (fun _ first => e_exp first <? now) (length (c_expiry c).1) c;
    c ← match c_m c !! k with Some e => removeLocked e c | None => Ok c end;
    c ← evictLocked 1 size c;
    let e := mkEntry k v (now + c_ttl c) size stamp in
    Ok (mkCache (c_ttl c) (c_maxSize c) (c_maxBytes c) (c_bytes c + size) (<[k := e]> (c_m c))
          (indexKey k (c_byDatabase c)) (pushExpiry (c_expiry c) e) (c_stamps c)).

Fixpoint removeKeysLocked (keys : list Key) (c : TTLCache) : result TTLCache :=
  match keys with
  | [] => Ok c
  | k :: keys =>
      match c_m c !! k with
      | None => Err Panic (* c.m[k] is nil *)
      | Some e => c ← removeLocked e c; removeKeysLocked keys c
      end
  end.

(** The keys of a relation of a database. *)
Definition keysOf (database relation : string) (c : TTLCache) : gset Key :=
  default ∅ (default ∅ (c_byDatabase c !! database) !! relation).

Definition Invalidate (database relation : string) (c : TTLCache) : result TTLCache :=
  let c := mkCache (c_ttl c) (c_maxSize c) (c_maxBytes c) (c_bytes c) (c_m c) (c_byDatabase c) (c_expiry c)
             (<[database := Stamp database c + 1]> (c_stamps c)) in
  if String.eqb relation "" then
    removeKeysLocked (concat (map (fun rk => elements rk.2) (map_to_list (default ∅ (c_byDatabase c !! database))))) c
  else
    c ← removeKeysLocked (elements (keysOf database relation c)) c;
    removeKeysLocked (elements (keysOf database "" c)) c.

Definition DropGeneration (generation : Z) (c : TTLCache) : result TTLCache :=
  removeKeysLocked (fst <$> filter (fun ke => Generation ke.1 = generation) (map_to_list (c_m c))) c.

End cache.

Arguments entry : clear implicits.
Arguments TTLCache : clear implicits.
