(* ===== verification/CacheTheorems.v ===== *)
(** The read cache: its invariant, kept by every method, none of which panics,
    and that no result older than a write of what it read is served. *)

From S2P Require Import Prelude ExpiryHeap Cache.

Section facts.
Context {V : Type}.
Implicit Types (c : TTLCache V) (e : entry V) (k : Key).

Definition byKey (l : list (entry V)) : gmap Key (entry V) := list_to_map ((fun e => (e_key e, e)) <$> l).

(** The map, the heap, the bytes and the index hold the same entries. *)
Record cacheOk (c : TTLCache V) : Prop := {
  ok_pos : posOk e_key (c_expiry c);
  ok_heap : heapOk e_exp (c_expiry c).1 (length (c_expiry c).1);
  ok_map : c_m c = byKey (c_expiry c).1;
  ok_bytes : c_bytes c = sumOver e_size (c_expiry c).1;
  ok_sizes : Forall (fun e => 0 <= e_size e) (c_expiry c).1;
  ok_index : forall db rel k, k ∈ keysOf db rel c <-> is_Some (c_m c !! k) /\ Database k = db /\ Relation k = rel;
  ok_size : 0 < c_maxSize c;
}.

Lemma pairs_keys (l : list (entry V)) : ((fun e => (e_key e, e)) <$> l).*1 = e_key <$> l.
Proof. rewrite <- list_fmap_compose. done. Qed.

Lemma byKey_lookup l k e : NoDup (e_key <$> l) -> byKey l !! k = Some e <-> e ∈ l /\ e_key e = k.
Proof.
  intros Hnd. unfold byKey. rewrite <- elem_of_list_to_map by by rewrite pairs_keys. rewrite list_elem_of_fmap. naive_solver.
Qed.

Lemma byKey_size l : NoDup (e_key <$> l) -> base.size (byKey l) = length l.
Proof. intros Hnd. unfold byKey. rewrite map_size_list_to_map by by rewrite pairs_keys. by rewrite length_fmap. Qed.

Lemma byKey_perm l l' : NoDup (e_key <$> l) -> l ≡ₚ l' -> byKey l = byKey l'.
Proof. intros Hnd Hp. unfold byKey. apply list_to_map_proper; [by rewrite pairs_keys|by rewrite Hp]. Qed.

Lemma ok_elem c k e : cacheOk c -> c_m c !! k = Some e <-> e ∈ (c_expiry c).1 /\ e_key e = k.
Proof. intros [[Hnd _] _ Hm _ _ _ _]. rewrite Hm. by apply byKey_lookup. Qed.

Lemma ok_count c : cacheOk c -> base.size (c_m c) = length (c_expiry c).1.
Proof. intros [[Hnd _] _ Hm _ _ _ _]. rewrite Hm. by apply byKey_size. Qed.

(** ** The index *)

Definition keysIn (d : gmap string (gmap string (gset Key))) (db rel : string) : gset Key :=
  default ∅ (default ∅ (d !! db) !! rel).

Lemma keysIn_index k d db rel :
  keysIn (indexKey k d) db rel = if decide (db = Database k /\ rel = Relation k) then {[k]} ∪ keysIn d db rel else keysIn d db rel.
Proof.
  unfold keysIn, indexKey. destruct (decide (db = Database k)) as [->|Hdb].
  - rewrite lookup_insert_eq. simpl. destruct (decide (rel = Relation k)) as [->|Hr].
    + by rewrite lookup_insert_eq, decide_True.
    + by rewrite lookup_insert_ne, decide_False by naive_solver.
  - by rewrite lookup_insert_ne, decide_False by naive_solver.
Qed.

Lemma keysIn_unindex k d db rel :
  keysIn (unindexKey k d) db rel = if decide (db = Database k /\ rel = Relation k) then keysIn d db rel ∖ {[k]} else keysIn d db rel.
Proof.
  unfold unindexKey. destruct (d !! Database k) as [rs|] eqn:Ed.
  2:{ destruct (decide _) as [[-> ->]|]; [|done]. unfold keysIn. rewrite Ed. simpl. rewrite lookup_empty. set_solver. }
  set (rs' := match rs !! Relation k with None => rs | Some keys => if bool_decide (keys ∖ {[k]} = ∅) then delete (Relation k) rs
    else <[Relation k := keys ∖ {[k]}]> rs end).
  assert (forall r, default ∅ (rs' !! r) = if decide (r = Relation k) then default ∅ (rs !! r) ∖ {[k]} else default ∅ (rs !! r)) as Hrs.
  { intros r. unfold rs'. destruct (rs !! Relation k) as [keys|] eqn:Er.
    - destruct (decide (r = Relation k)) as [->|Hne].
      + rewrite Er. simpl. case_bool_decide as E; [rewrite lookup_delete_eq, E|rewrite lookup_insert_eq]; done.
      + case_bool_decide; by rewrite ?lookup_delete_ne, ?lookup_insert_ne.
    - destruct (decide (r = Relation k)) as [->|Hne]; [|done]. rewrite Er. simpl. set_solver. }
  assert (keysIn (if bool_decide (rs' = ∅) then delete (Database k) d else <[Database k := rs']> d) db rel =
    if decide (db = Database k) then default ∅ (rs' !! rel) else keysIn d db rel) as ->.
  { unfold keysIn. destruct (decide (db = Database k)) as [->|Hne].
    - case_bool_decide as E; [rewrite lookup_delete_eq, E|rewrite lookup_insert_eq]; done.
    - case_bool_decide; by rewrite ?lookup_delete_ne, ?lookup_insert_ne. }
  destruct (decide (db = Database k)) as [->|Hne]; [|by rewrite decide_False by naive_solver].
  rewrite Hrs. unfold keysIn. rewrite Ed. simpl. apply decide_ext. naive_solver.
Qed.

(** ** Removing an entry *)

(** What a removal keeps. *)
Record shrinks (c c' : TTLCache V) : Prop := {
  sh_ttl : c_ttl c' = c_ttl c;
  sh_maxSize : c_maxSize c' = c_maxSize c;
  sh_maxBytes : c_maxBytes c' = c_maxBytes c;
  sh_stamps : c_stamps c' = c_stamps c;
  sh_m : c_m c' ⊆ c_m c;
}.

Lemma shrinks_refl c : shrinks c c.
Proof. by split. Qed.

Lemma shrinks_trans c1 c2 c3 : shrinks c1 c2 -> shrinks c2 c3 -> shrinks c1 c3.
Proof. intros [] []. split; try congruence. by etrans. Qed.

Lemma removeLocked_ok c e : cacheOk c -> c_m c !! e_key e = Some e -> exists c', removeLocked e c = Ok c' /\ cacheOk c' /\
  shrinks c c' /\ c_m c' = delete (e_key e) (c_m c) /\ (c_expiry c).1 ≡ₚ e :: (c_expiry c').1.
Proof.
  intros Hok He. pose proof (proj1 (ok_elem _ _ _ Hok) He) as [Hin _]. destruct Hok as [Hpos Hheap Hm Hb Hsz Hix Hmax].
  apply list_elem_of_lookup in Hin as [i Hi]. pose proof Hpos as [Hnd Hp]. unfold removeLocked, removeExpiry.
  rewrite (Hp _ _ Hi). simpl. destruct (heapRemove_ok e_key e_exp _ _ _ Hpos Hheap Hi) as (h' & -> & Hpos' & Hheap' & Hperm). simpl.
  assert (delete (e_key e) (c_m c) = byKey h'.1) as Hm'.
  { rewrite Hm, (byKey_perm _ _ Hnd Hperm). unfold byKey. simpl. rewrite delete_insert_id; [done|].
    apply not_elem_of_list_to_map_1. rewrite pairs_keys. rewrite Hperm in Hnd. simpl in Hnd. by apply NoDup_cons in Hnd as [? _]. }
  eexists. split; [done|]. split_and!; try done; [|split; try done; apply delete_subseteq].
  split; try done.
  - simpl. rewrite Hb, (sumOver_perm _ _ _ Hperm). simpl. lia.
  - rewrite Hperm in Hsz. by apply Forall_cons in Hsz as [_ ?].
  - intros db rel k. unfold keysOf. simpl. fold (keysIn (unindexKey (e_key e) (c_byDatabase c)) db rel). rewrite keysIn_unindex.
    specialize (Hix db rel k). unfold keysOf in Hix. fold (keysIn (c_byDatabase c) db rel) in Hix.
    rewrite lookup_delete_is_Some. destruct (decide (db = Database (e_key e) /\ rel = Relation (e_key e))) as [[-> ->]|Hne].
    + rewrite elem_of_difference, elem_of_singleton, Hix. intuition congruence.
    + rewrite Hix. split; [|tauto]. intros (? & <- & <-). split; [|done]. split; [|done]. intros E. rewrite E in Hne. tauto.
Qed.

(** The keys of the relations of a database, each key in its own relation. *)
Lemma NoDup_concat_index (rs : gmap string (gset Key)) :
  (forall r ks, rs !! r = Some ks -> forall k, k ∈ ks -> Relation k = r) ->
  NoDup (concat (map (fun rk => elements rk.2) (map_to_list rs))).
Proof.
  intros H. assert (forall r ks, (r, ks) ∈ map_to_list rs -> forall k, k ∈ ks -> Relation k = r) as Hl
    by (intros r ks Hr; apply elem_of_map_to_list in Hr; by apply H).
  pose proof (NoDup_fst_map_to_list rs) as Hnd. clear H. induction (map_to_list rs) as [|[r ks] l IH]; simpl; [constructor|].
  simpl in Hnd. apply NoDup_cons in Hnd as [Hr Hnd]. apply NoDup_app. split_and!; [apply NoDup_elements| |apply IH; [|done]].
  - intros k Hk%elem_of_elements Hin. apply list_elem_of_In, in_concat in Hin as (l' & Hin & Hk').
    apply in_map_iff in Hin as ([r' ks'] & <- & Hin). apply list_elem_of_In in Hin, Hk'. simpl in Hk'. apply elem_of_elements in Hk'.
    assert (Relation k = r) by (eapply Hl; [left|done]). assert (Relation k = r') by (eapply Hl; [right; done|done]).
    apply Hr. subst r. subst r'. by apply (list_elem_of_fmap_2 fst) in Hin.
  - intros r' ks' Hin. apply Hl. by right.
Qed.

(** ** The loops *)

Lemma dropWhile_ok over fuel : forall c, cacheOk c -> (length (c_expiry c).1 <= fuel)%nat ->
  exists c', dropWhile over fuel c = Ok c' /\ cacheOk c' /\ shrinks c c' /\
    ((c_expiry c').1 = [] \/ exists first l, (c_expiry c').1 = first :: l /\ over c' first = false) /\
    (forall e, e ∈ (c_expiry c).1 -> e ∉ (c_expiry c').1 -> forall e', e' ∈ (c_expiry c').1 -> e_exp e <= e_exp e').
Proof.
  induction fuel as [|fuel IH]; intros c Hok Hlen; simpl.
  { destruct (c_expiry c).1 eqn:E; simpl in Hlen; [|lia]. exists c. split_and!; try done; [by left|].
    intros e ?%elem_of_nil. done. }
  destruct (c_expiry c).1 as [|first l] eqn:El.
  { exists c. split_and!; try done; [by left|]. intros e ?%elem_of_nil. done. }
  destruct (over c first) eqn:Eo.
  - assert (c_m c !! e_key first = Some first) as Hf by (apply ok_elem; [done|]; rewrite El; split; [left|done]).
    destruct (removeLocked_ok c first Hok Hf) as (c1 & -> & Hok1 & Hs1 & _ & Hperm). simpl. rewrite El in Hperm.
    apply Permutation_cons_inv in Hperm. pose proof (Permutation_length Hperm) as Hpl.
    destruct (IH c1 Hok1 ltac:(simpl in Hlen; lia)) as (c2 & -> & Hok2 & Hs2 & Hend & Hmin).
    exists c2. split_and!; try done; [by eapply shrinks_trans|]. intros e [->|He]%elem_of_cons Hne e' He'.
    + apply (heap_first e_exp (c_expiry c)); [apply Hok|by rewrite El|]. rewrite El. right. rewrite Hperm.
      assert (c_m c2 !! e_key e' = Some e') as H2 by (by apply ok_elem).
      assert (c_m c1 !! e_key e' = Some e') as H1 by (eapply lookup_weaken; [done|apply Hs2]).
      apply ok_elem in H1 as [? _]; done.
    + apply (Hmin e); [by rewrite <- Hperm|done|done].
  - exists c. split_and!; try done; [right; eauto|]. intros e He Hne. rewrite El in Hne. done.
Qed.

Lemma removeKeys_ok keys : forall c, cacheOk c -> NoDup keys -> (forall k, k ∈ keys -> is_Some (c_m c !! k)) ->
  exists c', removeKeysLocked keys c = Ok c' /\ cacheOk c' /\ shrinks c c' /\
    forall k, c_m c' !! k = if decide (k ∈ keys) then None else c_m c !! k.
Proof.
  induction keys as [|k keys IH]; intros c Hok Hnd Hin; simpl.
  { exists c. split_and!; try done. }
  apply NoDup_cons in Hnd as [Hk Hnd]. destruct (Hin k ltac:(left)) as [e He]. rewrite He.
  pose proof (proj1 (ok_elem _ _ _ Hok) He) as [_ Ek]. subst k.
  destruct (removeLocked_ok c e Hok He) as (c1 & -> & Hok1 & Hs1 & Hm1 & _). simpl.
  destruct (IH c1 Hok1 Hnd) as (c2 & -> & Hok2 & Hs2 & Hm2).
  { intros k' Hk'. rewrite Hm1, lookup_delete_ne by (intros <-; done). apply Hin. by right. }
  exists c2. split_and!; try done; [by eapply shrinks_trans|]. intros k'. rewrite Hm2, Hm1.
  destruct (decide (k' = e_key e)) as [->|Hne].
  - rewrite (decide_True (P := e_key e ∈ e_key e :: keys)) by left. destruct (decide _); [done|]. apply lookup_delete_eq.
  - rewrite lookup_delete_ne by done. apply decide_ext. rewrite elem_of_cons. intuition congruence.
Qed.

End facts.


(** * What the read cache promises: no panic, its bounds, and that it never
    serves what a write may have changed. *)

Section theorems.
Context {V : Type}.
Implicit Types (c : TTLCache V) (e : entry V) (k : Key).

(** ** The methods keep the invariant *)

Definition withinCaps c : Prop :=
  Z.of_nat (base.size (c_m c)) <= c_maxSize c /\ (0 < c_maxBytes c -> c_bytes c <= c_maxBytes c).

Lemma shrinks_within c c' : cacheOk c -> cacheOk c' -> shrinks c c' -> withinCaps c -> withinCaps c'.
Proof.
  intros Hc Hc' [E1 E2 E3 E4 Hsub] [H1 H2]. split; rewrite ?E2, ?E3.
  - pose proof (map_subseteq_size _ _ Hsub). lia.
  - intros H. specialize (H2 H). assert (c_bytes c' <= c_bytes c); [|lia].
    rewrite (ok_bytes _ Hc), (ok_bytes _ Hc').
    assert (forall l l' : list (entry V), NoDup l' -> (forall e, e ∈ l' -> e ∈ l) -> Forall (fun e => 0 <= e_size e) l -> sumOver e_size l' <= sumOver e_size l) as Hle.
    { clear. intros l l' Hnd. revert l. induction Hnd as [|x l' Hx Hnd IH]; intros l Hin Hp; simpl.
      - induction Hp as [|y l Hy _ IHp]; [done|]; simpl in *; specialize (IHp ltac:(by intros ? ?%elem_of_nil)); lia.
      - destruct (list_elem_of_split _ _ (Hin x ltac:(left))) as (l1 & l2 & ->).
        assert (sumOver e_size (l1 ++ x :: l2) = e_size x + sumOver e_size (l1 ++ l2)) as ->.
        { rewrite (sumOver_perm _ (l1 ++ x :: l2) (x :: l1 ++ l2)); [done|]. by rewrite Permutation_middle. }
        assert (sumOver e_size l' <= sumOver e_size (l1 ++ l2)); [|lia]. apply IH.
        + intros e He. pose proof (Hin e ltac:(by right)) as Hel. rewrite elem_of_app, elem_of_cons in Hel. rewrite elem_of_app.
          destruct Hel as [?|[->|?]]; [by left|done|by right].
        + rewrite Forall_app, Forall_cons in Hp. rewrite Forall_app. tauto. }
    apply Hle; [|intros e He|apply Hc].
    + destruct (ok_pos _ Hc') as [Hnd _]. by eapply NoDup_fmap_1.
    + assert (c_m c' !! e_key e = Some e) as Hm by (by apply ok_elem).
      pose proof (lookup_weaken _ _ _ _ Hm Hsub) as Hm'. apply ok_elem in Hm' as [? _]; done.
Qed.

Lemma empty_bytes c : cacheOk c -> (c_expiry c).1 = [] -> c_bytes c = 0 /\ base.size (c_m c) = 0%nat.
Proof. intros Hc E. rewrite (ok_bytes _ Hc), (ok_count _ Hc), E. done. Qed.

(** After an eviction [more] entries of [size] bytes fit. *)
Lemma evict_ok more size c : cacheOk c -> 0 <= more <= 1 -> (0 < c_maxBytes c -> size <= c_maxBytes c) ->
  exists c', evictLocked more size c = Ok c' /\ cacheOk c' /\ shrinks c c' /\ overCaps more size c' = false /\
    (forall e, e ∈ (c_expiry c).1 -> e ∉ (c_expiry c').1 -> forall e', e' ∈ (c_expiry c').1 -> e_exp e <= e_exp e').
Proof.
  intros Hc Hmore Hsize. unfold evictLocked.
  destruct (dropWhile_ok (fun c _ => overCaps more size c) _ c Hc (le_n _)) as (c' & -> & Hc' & Hs & Hend & Hmin).
  exists c'. split_and!; try done. destruct Hend as [E|(first & l & _ & E)]; [|done].
  destruct (empty_bytes c' Hc' E) as [Hb Hn]. unfold overCaps. rewrite Hb, Hn. pose proof (ok_size _ Hc') as Hpos.
  rewrite (sh_maxBytes _ _ Hs) in *. apply orb_false_iff. split; [apply Z.ltb_ge; lia|].
  destruct (Z.ltb_spec 0 (c_maxBytes c)); simpl; [|done]. apply Z.ltb_ge. specialize (Hsize ltac:(done)). lia.
Qed.

Lemma overCaps_false more size c : overCaps more size c = false ->
  Z.of_nat (base.size (c_m c)) + more <= c_maxSize c /\ (0 < c_maxBytes c -> c_bytes c + size <= c_maxBytes c).
Proof.
  unfold overCaps. intros [H1%Z.ltb_ge H2]%orb_false_iff. split; [done|]. intros H. apply andb_false_iff in H2 as [H2|H2].
  - apply Z.ltb_ge in H2. lia.
  - by apply Z.ltb_ge in H2.
Qed.

Lemma SetSized_ok now k v stamp size c : cacheOk c -> withinCaps c -> 0 <= size ->
  exists c', SetSized now k v stamp size c = Ok c' /\ cacheOk c' /\ withinCaps c' /\ c_stamps c' = c_stamps c /\
    (forall k' e, c_m c' !! k' = Some e -> c_m c !! k' = Some e \/ e_stamp e = Stamp (Database k) c /\ k' = k).
Proof.
  intros Hc Hw Hsz. unfold SetSized. destruct (negb _ || _) eqn:E; [exists c; split_and!; try done; auto|].
  apply orb_false_iff in E as [Est Eb]. apply negb_false_iff, Z.eqb_eq in Est.
  assert (0 < c_maxBytes c -> size <= c_maxBytes c) as Hfit.
  { intros H. apply andb_false_iff in Eb as [Eb|Eb]; [apply Z.ltb_ge in Eb; lia|by apply Z.ltb_ge in Eb]. }
  destruct (dropWhile_ok (fun _ first => e_exp first <? now) _ c Hc (le_n _)) as (c1 & -> & Hc1 & Hs1 & _). cbn [mbind result_bind].
  assert (exists c2, match c_m c1 !! k with Some e => removeLocked e c1 | None => Ok c1 end = Ok c2 /\ cacheOk c2 /\
    shrinks c1 c2 /\ c_m c2 !! k = None) as (c2 & -> & Hc2 & Hs2 & Hk2).
  { destruct (c_m c1 !! k) as [e|] eqn:Ek; [|exists c1; by split_and!]. pose proof (proj1 (ok_elem _ _ _ Hc1) Ek) as [_ <-].
    destruct (removeLocked_ok c1 e Hc1 Ek) as (c2 & -> & Hc2 & Hs2 & Hm2 & _). exists c2. rewrite Hm2, lookup_delete_eq. done. }
  cbn [mbind result_bind]. pose proof (shrinks_trans _ _ _ Hs1 Hs2) as Hs12.
  destruct (evict_ok 1 size c2 Hc2 ltac:(lia)) as (c3 & -> & Hc3 & Hs3 & Hfree & _); [by rewrite (sh_maxBytes _ _ Hs12)|]. cbn [mbind result_bind].
  pose proof (shrinks_trans _ _ _ Hs12 Hs3) as Hs. apply overCaps_false in Hfree as [Hf1 Hf2].
  assert (c_m c3 !! k = None) as Hk3.
  { destruct (c_m c3 !! k) eqn:Ek; [|done]. pose proof (lookup_weaken _ _ _ _ Ek (sh_m _ _ Hs3)). congruence. }
  set (e := mkEntry k v (now + c_ttl c3) size stamp).
  assert (e_key e ∉ e_key <$> (c_expiry c3).1) as Hfresh.
  { intros (e' & Ee & Hin)%list_elem_of_fmap. assert (c_m c3 !! k = Some e') by (by apply ok_elem). congruence. }
  destruct (heapPush_ok e_key e_exp (c_expiry c3) e (ok_pos _ Hc3) (ok_heap _ Hc3) Hfresh) as (Hp & Hh & Hperm).
  eexists. split; [done|]. unfold pushExpiry. set (h' := heapPush e_key e_exp (c_expiry c3) e) in *. clearbody h'. pose proof Hp as [Hnd _]. split_and!.
  - split; simpl; try done.
    + rewrite (byKey_perm _ _ Hnd Hperm). unfold byKey. simpl. by rewrite (ok_map _ Hc3).
    + rewrite (sumOver_perm _ _ _ Hperm), (ok_bytes _ Hc3). simpl. lia.
    + rewrite Hperm. constructor; [done|apply Hc3].
    + intros db rel k'. unfold keysOf. simpl. fold (keysIn (indexKey k (c_byDatabase c3)) db rel). rewrite keysIn_index.
      pose proof (ok_index _ Hc3 db rel k') as Hix. unfold keysOf in Hix. fold (keysIn (c_byDatabase c3) db rel) in Hix.
      rewrite lookup_insert_is_Some'. destruct (decide _) as [[-> ->]|Hne].
      * rewrite elem_of_union, elem_of_singleton, Hix. destruct (decide (k' = k)) as [->|]; intuition congruence.
      * rewrite Hix. split; [tauto|]. intros ([<-|?] & <- & <-); tauto.
    + apply Hc3.
  - unfold withinCaps. simpl. rewrite map_size_insert_None by done. split; [lia|done].
  - simpl. apply Hs.
  - simpl. intros k' x Hx. destruct (decide (k' = k)) as [->|Hne].
    + rewrite lookup_insert_eq in Hx. injection Hx as <-. right. done.
    + rewrite lookup_insert_ne in Hx by done. left. eapply lookup_weaken; [done|apply Hs].
Qed.

Definition covers (inv : string * string) (k : Key) : Prop :=
  inv.1 = Database k /\ (inv.2 = "" \/ Relation k = "" \/ inv.2 = Relation k).

Lemma Invalidate_ok db rel c : cacheOk c -> withinCaps c -> exists c', Invalidate db rel c = Ok c' /\ cacheOk c' /\ withinCaps c' /\
  c_stamps c' = <[db := Stamp db c + 1]> (c_stamps c) /\
  c_m c' ⊆ c_m c /\ forall k, covers (db, rel) k -> c_m c' !! k = None.
Proof.
  intros Hc Hw. unfold Invalidate. set (c0 := mkCache _ _ _ _ _ _ _ _).
  assert (cacheOk c0) as Hc0 by (destruct Hc; split; done). assert (withinCaps c0) as Hw0 by done.
  assert (forall k, (exists r, k ∈ keysOf db r c0) <-> is_Some (c_m c !! k) /\ Database k = db) as Hix.
  { intros k. split.
    - intros [r Hr]. apply (ok_index _ Hc0) in Hr. tauto.
    - intros [? ?]. exists (Relation k). by apply (ok_index _ Hc0). }
  destruct (String.eqb_spec rel "") as [->|Hrel].
  - set (keys := concat _). assert (forall k, k ∈ keys <-> is_Some (c_m c !! k) /\ Database k = db) as Hkeys.
    { intros k. rewrite <- Hix. unfold keys. rewrite list_elem_of_In, in_concat. setoid_rewrite in_map_iff. split.
      - intros (l & ([r ks] & <- & Hrk) & Hin). apply list_elem_of_In in Hin. simpl in Hin. apply elem_of_elements in Hin.
        apply list_elem_of_In, elem_of_map_to_list in Hrk. exists r. unfold keysOf. by rewrite Hrk.
      - intros [r Hr]. unfold keysOf in Hr. destruct (default ∅ (c_byDatabase c0 !! db) !! r) as [ks|] eqn:E; [|set_solver].
        exists (elements ks). split; [|by apply list_elem_of_In, elem_of_elements]. exists (r, ks). split; [done|].
        by apply list_elem_of_In, elem_of_map_to_list. }
    assert (NoDup keys) as Hnd.
    { unfold keys. apply NoDup_concat_index. intros r ks Hr k Hk. pose proof (proj1 (ok_index _ Hc0 db r k)) as H.
      unfold keysOf in H. rewrite Hr in H. by apply H in Hk as (_ & _ & ?). }
    destruct (removeKeys_ok keys c0 Hc0 Hnd) as (c' & -> & Hc' & Hs & Hm); [intros k Hk; by apply Hkeys in Hk as [? _]|].
    exists c'. split; [done|]. split; [done|]. split; [by apply (shrinks_within c0)|]. split; [apply Hs|]. split; [apply Hs|]. intros k [Hdb _]. rewrite Hm.
    case_decide as Hin; [done|]. destruct (c_m c0 !! k) eqn:E; [|done]. destruct Hin. apply Hkeys. split; [eexists; exact E|done].
  - destruct (removeKeys_ok (elements (keysOf db rel c0)) c0 Hc0 (NoDup_elements _)) as (c1 & -> & Hc1 & Hs1 & Hm1).
    { intros k Hk%elem_of_elements. by apply (ok_index _ Hc0) in Hk as [? _]. }
    cbn. destruct (removeKeys_ok (elements (keysOf db "" c1)) c1 Hc1 (NoDup_elements _)) as (c2 & -> & Hc2 & Hs2 & Hm2).
    { intros k Hk%elem_of_elements. by apply (ok_index _ Hc1) in Hk as [? _]. }
    pose proof (shrinks_trans _ _ _ Hs1 Hs2) as Hs. exists c2. split; [done|]. split; [done|]. split; [by apply (shrinks_within c0)|]. split; [apply Hs|]. split; [apply Hs|].
    intros k [Hdb Hcov]. simpl in Hdb, Hcov. rewrite Hm2. case_decide as H2; [done|]. rewrite Hm1. case_decide as H1; [done|].
    rewrite elem_of_elements in H1, H2. destruct (c_m c0 !! k) eqn:E; [|done]. exfalso. destruct Hcov as [?|[Hr|Hr]]; [done| |].
    + apply H2, (ok_index _ Hc1). split; [|done]. rewrite Hm1, decide_False by by rewrite elem_of_elements. by rewrite E.
    + apply H1, (ok_index _ Hc0). by rewrite E.
Qed.

(** ** The cache at work *)

Inductive cacheOp : Type :=
  | OGet (now : Z) (k : Key)
  | OSet (now : Z) (k : Key) (v : V) (stamp : Z) (size : N)
  | OInvalidate (db rel : string)
  | OLimits (ttl maxSize maxBytes : Z)
  | ODrop (generation : Z).

(** A step, with the history of invalidations. *)
Definition cacheStep (o : cacheOp) (w : TTLCache V * list (string * string)) : result (TTLCache V * list (string * string)) :=
  let '(c, hist) := w in
  match o with
  | OGet now k => r ← GetSized now k c; Ok (r.1, hist)
  | OSet now k v stamp size => c ← SetSized now k v stamp (Z.of_N size) c; Ok (c, hist)
  | OInvalidate db rel => c ← Invalidate db rel c; Ok (c, hist ++ [(db, rel)])
  | OLimits ttl maxSize maxBytes => c ← UpdateLimits ttl maxSize maxBytes c; Ok (c, hist)
  | ODrop generation => c ← DropGeneration generation c; Ok (c, hist)
  end.

Fixpoint cacheRun (os : list cacheOp) (w : TTLCache V * list (string * string)) : result (TTLCache V * list (string * string)) :=
  match os with [] => Ok w | o :: os => w ← cacheStep o w; cacheRun os w end.

Definition cacheStart (ttl maxSize : Z) : result (TTLCache V * list (string * string)) :=
  c ← NewTTLCache ttl maxSize; Ok (c, []).

(** The invalidations of a database, in order: a stamp counts them. *)
Definition invalidations (db : string) (hist : list (string * string)) : list (string * string) :=
  filter (fun inv => inv.1 = db) hist.

(** No invalidation since the stamp of an entry covers it. *)
Definition freshOk (c : TTLCache V) (hist : list (string * string)) : Prop :=
  (forall db, Stamp db c = Z.of_nat (length (invalidations db hist))) /\
  (forall k e, c_m c !! k = Some e -> forall i inv, invalidations (Database k) hist !! i = Some inv ->
     e_stamp e <= Z.of_nat i -> ~ covers inv k).

Definition worldOk (w : TTLCache V * list (string * string)) : Prop := cacheOk w.1 /\ withinCaps w.1 /\ freshOk w.1 w.2.

Lemma fresh_shrinks c c' hist : c_stamps c' = c_stamps c -> c_m c' ⊆ c_m c -> freshOk c hist -> freshOk c' hist.
Proof.
  intros Es Hsub [H1 H2]. split; [intros db; unfold Stamp; rewrite Es; apply H1|].
  intros k e He. apply H2. by eapply lookup_weaken.
Qed.

Lemma fresh_set c c' hist k : freshOk c hist -> c_stamps c' = c_stamps c ->
  (forall k' e, c_m c' !! k' = Some e -> c_m c !! k' = Some e \/ e_stamp e = Stamp (Database k) c /\ k' = k) -> freshOk c' hist.
Proof.
  intros [H1 H2] Es Hm. split; [intros db; unfold Stamp; rewrite Es; apply H1|].
  intros k' e He i inv Hi Hle. destruct (Hm _ _ He) as [He'|[Est ->]]; [by eapply H2|].
  rewrite Est, H1 in Hle. apply lookup_lt_Some in Hi. lia.
Qed.

Lemma fresh_invalidate c c' hist db rel : freshOk c hist -> c_stamps c' = <[db := Stamp db c + 1]> (c_stamps c) ->
  c_m c' ⊆ c_m c -> (forall k, covers (db, rel) k -> c_m c' !! k = None) -> freshOk c' (hist ++ [(db, rel)]).
Proof.
  intros [H1 H2] Es Hsub Hcov. unfold freshOk, invalidations in *. setoid_rewrite filter_app. split.
  - intros d. unfold Stamp. rewrite Es, length_app. destruct (decide (d = db)) as [->|Hne].
    + rewrite lookup_insert_eq, filter_cons_True by done. simpl. rewrite H1. lia.
    + rewrite lookup_insert_ne, filter_cons_False by done. simpl. specialize (H1 d). unfold Stamp in H1. lia.
  - intros k e He i inv Hi Hle. pose proof (lookup_weaken _ _ _ _ He Hsub) as He'.
    apply lookup_app_Some in Hi as [Hi|[_ Hi]]; [by eapply H2|].
    destruct (decide (db = Database k)) as [->|Hne]; [|by rewrite filter_cons_False in Hi].
    rewrite filter_cons_True in Hi by done. apply list_lookup_singleton_Some in Hi as [_ <-].
    intros Hc. apply Hcov in Hc. congruence.
Qed.

Lemma UpdateLimits_ok ttl maxSize maxBytes c : cacheOk c -> exists c', UpdateLimits ttl maxSize maxBytes c = Ok c' /\ cacheOk c' /\
  withinCaps c' /\ c_stamps c' = c_stamps c /\ c_m c' ⊆ c_m c.
Proof.
  intros Hc. unfold UpdateLimits. set (c0 := mkCache _ _ _ _ _ _ _ _). assert (cacheOk c0) as Hc0.
  { destruct Hc. split; try done. simpl. destruct (Z.leb_spec maxSize 0); [done|lia]. }
  destruct (evict_ok 0 0 c0 Hc0 ltac:(lia)) as (c' & -> & Hc' & Hs & Hcap & _); [lia|]. exists c'.
  apply overCaps_false in Hcap as [H1 H2]. rewrite Z.add_0_r in H1. split; [done|]. split; [done|].
  split; [split; [done|]; intros H; specialize (H2 H); lia|]. split; apply Hs.
Qed.

Lemma cacheStep_ok o w : worldOk w -> exists w', cacheStep o w = Ok w' /\ worldOk w'.
Proof.
  destruct w as [c hist]. intros (Hc & Hw & Hf). simpl in *. destruct o; simpl.
  - unfold GetSized. destruct (c_m c !! k) as [e|] eqn:Ek; [|simpl; eexists; split; [done|done]].
    destruct (e_exp e <? now); [|simpl; eexists; split; done]. pose proof (proj1 (ok_elem _ _ _ Hc) Ek) as [_ <-].
    destruct (removeLocked_ok c e Hc Ek) as (c' & -> & Hc' & Hs & _). simpl. eexists. split; [done|].
    split; [done|]. split; [by apply (shrinks_within c)|]. apply (fresh_shrinks c); [apply Hs|apply Hs|done].
  - destruct (SetSized_ok now k v stamp (Z.of_N size) c Hc Hw ltac:(lia)) as (c' & -> & Hc' & Hw' & Es & Hm). simpl.
    eexists. split; [done|]. split; [done|]. split; [done|]. by apply (fresh_set c _ _ k).
  - destruct (Invalidate_ok db rel c Hc Hw) as (c' & -> & Hc' & Hw' & Es & Hsub & Hcov). simpl.
    eexists. split; [done|]. split; [done|]. split; [done|]. by apply (fresh_invalidate c).
  - destruct (UpdateLimits_ok ttl maxSize maxBytes c Hc) as (c' & -> & Hc' & Hw' & Es & Hsub). simpl.
    eexists. split; [done|]. split; [done|]. split; [done|]. by apply (fresh_shrinks c).
  - unfold DropGeneration. destruct (removeKeys_ok (fst <$> filter (fun ke => Generation ke.1 = generation) (map_to_list (c_m c))) c Hc)
      as (c' & -> & Hc' & Hs & _).
    + eapply sublist_NoDup; [apply (NoDup_fst_map_to_list (c_m c))|]. apply fmap_sublist, sublist_filter.
    + intros k ([k' e] & -> & [_ Hin]%list_elem_of_filter)%list_elem_of_fmap. apply elem_of_map_to_list in Hin. by exists e.
    + simpl. eexists. split; [done|]. split; [done|]. split; [by apply (shrinks_within c)|].
      apply (fresh_shrinks c); [apply Hs|apply Hs|done].
Qed.

Lemma cacheRun_ok os : forall w, worldOk w -> exists w', cacheRun os w = Ok w' /\ worldOk w'.
Proof.
  induction os as [|o os IH]; intros w Hw; simpl; [eauto|]. destruct (cacheStep_ok o w Hw) as (w1 & -> & Hw1). simpl. by apply IH.
Qed.

Lemma cacheStart_ok ttl maxSize : exists w, cacheStart ttl maxSize = Ok w /\ worldOk w.
Proof.
  unfold cacheStart, NewTTLCache. set (c0 := mkCache 0 0 0 0 ∅ ∅ ([], ∅) ∅).
  assert (cacheOk (mkCache 0 1 0 0 ∅ ∅ ([], ∅) ∅ : TTLCache V)) as Hc0.
  { split; simpl; try done.
    - split; [constructor|done].
    - intros db rel k. unfold keysOf. simpl. rewrite !lookup_empty. simpl. rewrite lookup_empty. simpl.
      split; [set_solver|]. by intros [[? ?] _]. }
  destruct (UpdateLimits_ok ttl maxSize 0 _ Hc0) as (c' & E & Hc' & Hw' & Es & Hsub).
  change (UpdateLimits ttl maxSize 0 c0) with (UpdateLimits ttl maxSize 0 (mkCache 0 1 0 0 ∅ ∅ ([], ∅) ∅ : TTLCache V)).
  rewrite E. simpl. eexists. split; [done|]. split; [done|]. split; [done|]. apply (fresh_shrinks (mkCache 0 1 0 0 ∅ ∅ ([], ∅) ∅)); [done|done|].
  split; [done|]. intros k e. simpl. by rewrite lookup_empty.
Qed.

Lemma run_ok ttl maxSize os : exists w, (w ← cacheStart ttl maxSize; cacheRun os w) = Ok w /\ worldOk w.
Proof. destruct (cacheStart_ok ttl maxSize) as (w & -> & Hw). by apply cacheRun_ok. Qed.

(** C17. The cache never serves what a write may have changed: after any calls,
    when a lookup returns a value, it was stored with a stamp such that no
    invalidation of its database since that stamp (of its relation, of the
    whole database, or any when it is derived data) covers it.  As a reader
    takes the stamp before it queries, the value was read after every write
    to it that was announced. *)
Theorem cache_never_stale ttl maxSize os c hist now k c' v size :
  (w ← cacheStart ttl maxSize; cacheRun os w) = Ok (c, hist) ->
  GetSized now k c = Ok (c', Some (v, size)) ->
  exists e, c_m c !! k = Some e /\ e_v e = v /\ now <= e_exp e /\
    forall i inv, invalidations (Database k) hist !! i = Some inv -> e_stamp e <= Z.of_nat i -> ~ covers inv k.
Proof.
  intros Hr. destruct (run_ok ttl maxSize os) as (w & E & _ & _ & Hf). rewrite Hr in E. injection E as <-.
  unfold GetSized. destruct (c_m c !! k) as [e|] eqn:Ek; [|done]. destruct (Z.ltb_spec (e_exp e) now).
  - destruct (removeLocked e c); simpl; done.
  - intros [= <- <- <-]. exists e. split_and!; try done. by apply (proj2 Hf).
Qed.

(** The cache keeps its bounds and its books: after any calls it has not
    panicked (no nil entry, no heap index out of range), it holds at most
    maxSize entries and, when bytes are bounded, at most maxBytes bytes, the
    byte count is the sum of its entries' sizes, the heap and the map hold the
    same entries in heap order, and the index lists exactly the keys it
    holds. *)
Theorem cache_bounded ttl maxSize os : exists c hist,
  (w ← cacheStart ttl maxSize; cacheRun os w) = Ok (c, hist) /\
  Z.of_nat (base.size (c_m c)) <= c_maxSize c /\
  (0 < c_maxBytes c -> c_bytes c <= c_maxBytes c) /\
  c_bytes c = sumOver e_size (c_expiry c).1 /\
  (forall k e, c_m c !! k = Some e <-> e ∈ (c_expiry c).1 /\ e_key e = k) /\
  heapOk e_exp (c_expiry c).1 (length (c_expiry c).1) /\
  (forall db rel k, k ∈ keysOf db rel c <-> is_Some (c_m c !! k) /\ Database k = db /\ Relation k = rel).
Proof.
  destruct (run_ok ttl maxSize os) as ([c hist] & E & Hc & [H1 H2] & _). simpl in *. exists c, hist.
  split; [done|]. split; [done|]. split; [done|]. split; [apply Hc|]. split; [intros k e; by apply ok_elem|]. split; apply Hc.
Qed.

(** Eviction drops the entries closest to expiry: storing a value past the
    caps, or shrinking them, leaves no entry that expires before one it
    evicted. *)
Theorem cache_evicts_soonest ttl maxSize os more size : 0 <= more <= 1 -> exists c hist,
  (w ← cacheStart ttl maxSize; cacheRun os w) = Ok (c, hist) /\
  ((0 < c_maxBytes c -> size <= c_maxBytes c) ->
   exists c', evictLocked more size c = Ok c' /\ overCaps more size c' = false /\
    forall k e, c_m c !! k = Some e -> c_m c' !! k = None ->
      forall k' e', c_m c' !! k' = Some e' -> e_exp e <= e_exp e').
Proof.
  intros Hm. destruct (run_ok ttl maxSize os) as ([c hist] & E & Hc & _ & _). simpl in *. exists c, hist. split; [done|].
  intros Hs. destruct (evict_ok more size c Hc Hm Hs) as (c' & E' & Hc' & _ & Hcap & Hmin). exists c'. split; [done|]. split; [done|].
  intros k e He Hn k' e' He'. apply (ok_elem _ _ _ Hc) in He as [He <-]. apply (ok_elem _ _ _ Hc') in He' as [He' _].
  apply (Hmin e He); [|done]. intros Hin. assert (c_m c' !! e_key e = Some e) by (by apply (ok_elem _ _ _ Hc')). congruence.
Qed.

End theorems.

(** ** The theorems at work *)

Definition ordersKey : Key := mkKey "shop" "orders" "main" 1 "select" "[]" "reader".
Definition itemsWritten : list (@cacheOp string) :=
  [OSet 10 ordersKey "rows" 0 4; OInvalidate "shop" "items"].

(** A write to another relation leaves the entry, one to its own drops it. *)
Example cached_until_written :
  (w ← cacheStart 100 8; w ← cacheRun itemsWritten w; GetSized 20 ordersKey w.1) ≫= (fun r => Ok r.2) = Ok (Some ("rows", 4)) /\
  (w ← cacheStart 100 8; w ← cacheRun (itemsWritten ++ [OInvalidate "shop" "orders"]) w; GetSized 20 ordersKey w.1)
    ≫= (fun r => Ok r.2) = Ok None.
Proof. split; vm_compute; reflexivity. Qed.

Lemma itemsWritten_hit : match (w ← cacheStart 100 8; cacheRun itemsWritten w) with
  | Ok w => match GetSized 20 ordersKey w.1 with Ok (_, Some (v, n)) => bool_decide (v = "rows") && (n =? 4) | _ => false end
  | Err _ => false end = true.
Proof. vm_compute. reflexivity. Qed.

Lemma cache_never_stale_witness : exists (c : TTLCache string) hist e,
  (w ← cacheStart 100 8; cacheRun itemsWritten w) = Ok (c, hist) /\ c_m c !! ordersKey = Some e /\ 20 <= e_exp e.
Proof.
  pose proof itemsWritten_hit as H.
  destruct (w ← cacheStart 100 8; cacheRun itemsWritten w) as [[c hist]|] eqn:Hr; [|discriminate H]. cbn [fst] in H.
  destruct (GetSized 20 ordersKey c) as [[c' [[v n]|]]|] eqn:Hg; try discriminate H.
  destruct (cache_never_stale 100 8 itemsWritten c hist 20 ordersKey c' v n Hr Hg) as (e & He & _ & Hexp & _).
  exists c, hist, e. split; [reflexivity|]. split; assumption.
Defined.

Lemma cache_evicts_soonest_witness : exists c hist,
  (w ← cacheStart 100 8; cacheRun itemsWritten w) = Ok (c, hist) /\
  ((0 < c_maxBytes c -> 4 <= c_maxBytes c) -> exists c', evictLocked 1 4 c = Ok c' /\ overCaps 1 4 c' = false).
Proof.
  destruct (cache_evicts_soonest 100 8 itemsWritten 1 4 ltac:(lia)) as (c & hist & Hr & H). exists c, hist. split; [exact Hr|].
  intros Hs. destruct (H Hs) as (c' & H1 & H2 & _). exists c'. split; assumption.
Defined.

