(* ===== verification/Cost.v ===== *)
(** The cost gate: core/cost/cost.go, layers.go, fingerprint.go and analyze.go.

    A statement is codegen.Compiled with its zero values: [st_kind] and
    [st_expr] are [None] for SQL the caller did not compile.  The interface
    Layer is a record of its phase and its Check; EXPLAIN and the feedback
    statistics are arguments of the layer that asks them.  TotalCost and Raw of
    a plan are only reported, and are left out. *)

From Stdlib Require Import SpecFloat.
From S2P Require Import Prelude GoString Value Relalg Numbers Dialect Codegen.

#[global] Open Scope Z_scope.

(** ** Statements *)

Record Statement : Type := mkStatement {
  st_expr : option Expr;
  st_kind : option SKind;
  st_sql : string;
  st_args : list value;
  st_isKeyPoint : bool;
  st_primaryKey : list string;
  st_readOnly : bool;
  st_capBase : string;
  st_capLimit : Z;
  st_capOffset : Z;
}.

Definition ofCompiled (c : Compiled) : Statement :=
  mkStatement (Some (CExpr c)) (Some (CKind c)) (SQL c) (Args c) (IsKeyPoint c) (CPrimaryKey c) (ReadOnly c)
    (capBase c) (capLimit c) (capOffset c).

Definition with_sql (sql : string) (limit : Z) (c : Statement) : Statement :=
  mkStatement (st_expr c) (st_kind c) sql (st_args c) (st_isKeyPoint c) (st_primaryKey c) (st_readOnly c)
    (st_capBase c) limit (st_capOffset c).

(** codegen.CapRows *)
Definition capRows (c : Statement) (n : Z) : Statement * bool :=
  if bool_decide (st_capBase c = "") || (n <? 1)
     || negb (bool_decide (st_sql c = st_capBase c +:+ limitClause (st_capLimit c) (st_capOffset c)))
  then (c, false)
  else if (1 <=? st_capLimit c) && (st_capLimit c <=? n) then (c, true)
  else (with_sql (st_capBase c +:+ limitClause n (st_capOffset c)) n c, true).

(** ** Plans and scores *)

Inductive ScanType : Type := ScanUnknown | ScanSeq | ScanIndex | ScanPoint | ScanFull | ScanOther (n : N).

#[global] Instance ScanType_eq_dec : EqDecision ScanType.
Proof. solve_decision. Defined.

(** risk: the place of a type in scanRisk, an unknown scan's when not there. *)
Definition risk (t : ScanType) : Z :=
  match t with ScanPoint => 0 | ScanIndex => 1 | ScanSeq => 2 | ScanUnknown => 3 | ScanFull => 4 | ScanOther _ => 3 end.

Definition Worse (a b : ScanType) : bool := risk b <? risk a.

Record Plan : Type := mkPlan {
  EstimatedRows : Z;
  EstimatedBytes : Z;
  ActualRows : Z;
  ExecutionTime : Z;
  P_ScanType : ScanType;
  PartitionPruned : bool;
  HasSort : bool;
  HasTempTable : bool;
  StatsFresh : bool;
  TableRows : Z;
  TableSized : bool;
}.

Definition zeroPlan (t : ScanType) (fresh : bool) : Plan := mkPlan 0 0 0 0 t false false false fresh 0 false.

Definition with_scan (t : ScanType) (p : Plan) : Plan :=
  mkPlan (EstimatedRows p) (EstimatedBytes p) (ActualRows p) (ExecutionTime p) t (PartitionPruned p) (HasSort p)
    (HasTempTable p) (StatsFresh p) (TableRows p) (TableSized p).
Definition with_rows (n : Z) (p : Plan) : Plan :=
  mkPlan n (EstimatedBytes p) (ActualRows p) (ExecutionTime p) (P_ScanType p) (PartitionPruned p) (HasSort p)
    (HasTempTable p) (StatsFresh p) (TableRows p) (TableSized p).

Record Score : Type := mkScore { Value : Z; Factors : list string }.

Definition rowPenalty (rows : Z) : Z :=
  if 10000000 <? rows then 45
  else if 1000000 <? rows then 35
  else if 100000 <? rows then 25
  else if 10000 <? rows then 15
  else 0.

Definition ScorePlan (p : Plan) : Score :=
  let '(v, factors) :=
    match P_ScanType p with
    | ScanPoint => (100, [])
    | ScanIndex => (85, [])
    | ScanSeq => (60, [])
    | ScanFull => (20, ["full table scan"])
    | _ => (50, ["unknown scan type"])
    end in
  let '(v, factors) := if HasSort p then (v - 5, factors ++ ["sort required"]) else (v, factors) in
  let '(v, factors) := if HasTempTable p then (v - 10, factors ++ ["temporary table"]) else (v, factors) in
  let '(v, factors) := if StatsFresh p then (v, factors) else (v - 15, factors ++ ["stale statistics"]) in
  let penalty := rowPenalty (EstimatedRows p) in
  let '(v, factors) := if 0 <? penalty then (v - penalty, factors ++ ["high row estimate"]) else (v, factors) in
  let v := if v <? 0 then 0 else v in
  let v := if 100 <? v then 100 else v in
  mkScore v factors.

Definition ScannedRowsKnown (p : Plan) : Z * bool :=
  if TableSized p then (Z.max (EstimatedRows p) (TableRows p), true)
  else (EstimatedRows p, negb (bool_decide (P_ScanType p = ScanFull))).

Definition ScannedRows (p : Plan) : Z := (ScannedRowsKnown p).1.

Definition OverScanLimit (p : Plan) (limit : Z) : bool :=
  let '(rows, known) := ScannedRowsKnown p in
  (0 <? limit) && (negb known || (limit <? rows)).

(** ** Thresholds *)

Record Threshold : Type := mkThreshold {
  Th_Datasource : string;
  DialectName : string;
  SoftScore : Z;
  HardScore : Z;
  MaxRows : Z;
  MaxBytes : Z;
  MaxScannedRows : Z;
  RejectFullScan : bool;
  FullScanMaxRows : Z;
  WhitelistPKPoint : bool;
  RequirePKForWrite : bool;
  RequireAggregatePredicate : bool;
  ExplainFailClosed : bool;
  RequireKnownScan : bool;
  RequireFreshStats : bool;
  LegacyExactSQL : bool;
  AllowTemplates : list string;
  RejectTemplates : list string;
}.

Definition zeroThreshold : Threshold :=
  mkThreshold "" "" 0 0 0 0 0 false 0 false false false false false false false [] [].

Record Tightening : Type := mkTightening { T_SoftScore : Z; T_HardScore : Z; T_RejectFullScan : bool; T_MaxScannedRows : Z }.

(** The tightening of a context that carries none. *)
Definition noTightening : Tightening := mkTightening 0 0 false 0.

Definition Tighten (th : Threshold) (t : Tightening) : Threshold :=
  mkThreshold (Th_Datasource th) (DialectName th)
    (Z.max (SoftScore th) (T_SoftScore t)) (Z.max (HardScore th) (T_HardScore t)) (MaxRows th) (MaxBytes th)
    (if (0 <? T_MaxScannedRows t) && ((MaxScannedRows th <=? 0) || (T_MaxScannedRows t <? MaxScannedRows th))
     then T_MaxScannedRows t else MaxScannedRows th)
    (RejectFullScan th || T_RejectFullScan t) (FullScanMaxRows th) (WhitelistPKPoint th) (RequirePKForWrite th)
    (RequireAggregatePredicate th) (ExplainFailClosed th) (RequireKnownScan th) (RequireFreshStats th)
    (LegacyExactSQL th) (AllowTemplates th) (RejectTemplates th).

(** ** Decisions *)

Record Decision : Type := mkDecision {
  Allow : bool;
  Soft : bool;
  Bypass : bool;
  D_Plan : option Plan;
  D_Score : option Score;
  D_Hints : list string;
  Rewritten : option Statement;
  D_Threshold : Threshold;
}.

Definition allowed : Decision := mkDecision true false false None None [] None zeroThreshold.
Definition denied (hints : list string) : Decision := mkDecision false false false None None hints None zeroThreshold.

(** The errors an EXPLAIN returns, as the gate tells them apart. *)
Inductive explainError : Type :=
  | ErrCircuitOpen | ErrRateLimited | ErrMissingRelation | ErrMissingColumn | ErrExplain.

Definition unavailable (err : option explainError) : bool :=
  match err with Some ErrCircuitOpen | Some ErrRateLimited => true | _ => false end.
Definition schemaChanged (err : option explainError) : bool :=
  match err with Some ErrMissingRelation | Some ErrMissingColumn => true | _ => false end.

Inductive Phase : Type := PhaseSafety | PhaseEstimate | PhaseEnforcement.

#[global] Instance Phase_eq_dec : EqDecision Phase.
Proof. solve_decision. Defined.

(** A Layer: its phase and its Check, which may fail as EXPLAIN did. *)
Record Layer : Type := mkLayer {
  layerName : string;
  layerPhase : Phase;
  layerCheck : Statement -> explainError + Decision;
}.

(** ** The chain *)

(** What Check keeps from one layer to the next. *)
Record chainState : Type := mkChain {
  ch_c : Statement;
  ch_rewritten : bool;
  ch_bypass : bool;
  ch_result : Decision;
  ch_soft : option Decision;
}.

Definition addHints (old new : list string) : list string :=
  foldl (fun acc h => if bool_decide (h ∈ acc) then acc else acc ++ [h]) old new.

Definition applyLayerDecision (s : chainState) (d : Decision) : chainState :=
  let r := ch_result s in
  mkChain
    (default (ch_c s) (Rewritten d))
    (match Rewritten d with Some _ => true | None => ch_rewritten s end)
    (ch_bypass s || Bypass d)
    (mkDecision (Allow r) (Soft r) (Bypass r || Bypass d)
       (match D_Plan d with Some p => Some p | None => D_Plan r end)
       (match D_Score d with Some p => Some p | None => D_Score r end)
       (addHints (D_Hints r) (D_Hints d)) (Rewritten r) (D_Threshold r))
    (if negb (Allow d) && Soft d then Some d else ch_soft s).

Definition with_rewritten (d : Decision) (c : option Statement) : Decision :=
  mkDecision (Allow d) (Soft d) (Bypass d) (D_Plan d) (D_Score d) (D_Hints d) c (D_Threshold d).

Definition hardDenyDecision (d : Decision) (s : chainState) : Decision :=
  with_rewritten d (if ch_rewritten s then Some (ch_c s) else None).

Definition attachRewritten (d : Decision) (s : chainState) : Decision :=
  if ch_rewritten s then with_rewritten d (Some (ch_c s)) else d.

Definition softResult (s : chainState) : Decision :=
  let r := ch_result s in
  match ch_soft s with
  | Some d => mkDecision false true (Bypass r) (D_Plan r) (D_Score r) (D_Hints r) (Rewritten r) (D_Threshold d)
  | None => r
  end.

Fixpoint checkLayers (layers : list Layer) (s : chainState) : explainError + Decision :=
  match layers with
  | [] => inr (attachRewritten (softResult s) s)
  | l :: layers =>
      if ch_bypass s && bool_decide (layerPhase l = PhaseEstimate) then checkLayers layers s
      else match layerCheck l (ch_c s) with
           | inl e => inl e
           | inr d =>
               let s := applyLayerDecision s d in
               if negb (Allow d) && negb (Soft d) then inr (hardDenyDecision d s)
               else checkLayers layers s
           end
  end.

(** ChainGate.Check *)
Definition gateCheck (layers : list Layer) (c : Statement) : explainError + Decision :=
  checkLayers layers (mkChain c false false allowed None).

(** ** Fingerprints *)

(** crypto/sha256 in hexadecimal, reflect's name of a type (package path and
    name, for the types argType does not list; time.Time's is the one argType
    writes out), and strconv.Quote. *)
Class CostStd : Type := {
  sha256Hex : string -> string;
  reflectType : value -> string;
  strconvQuote : string -> string;
}.

(** A literal in double quotes. *)
Definition quoted (s : string) : string := String "034"%char (s +:+ String "034"%char "").

(** The runes of a string with the bytes each was read from. *)
Fixpoint decodeBytes (bs : list Z) : list (Z * list Z) :=
  match bs with
  | [] => []
  | b0 :: r0 =>
      let bad := (RuneError, [b0]) in
      if b0 <? 0x80 then (b0, [b0]) :: decodeBytes r0
      else match r0 with
           | [] => [bad]
           | b1 :: r1 =>
               if valid2 b0 b1 then (rune2 b0 b1, [b0; b1]) :: decodeBytes r1
               else match r1 with
                    | [] => bad :: decodeBytes r0
                    | b2 :: r2 =>
                        if valid3 b0 b1 b2 then (rune3 b0 b1 b2, [b0; b1; b2]) :: decodeBytes r2
                        else match r2 with
                             | [] => bad :: decodeBytes r0
                             | b3 :: r3 =>
                                 if valid4 b0 b1 b2 b3 then (rune4 b0 b1 b2 b3, [b0; b1; b2; b3]) :: decodeBytes r3
                                 else bad :: decodeBytes r0
                             end
                    end
           end
  end.

Fixpoint dropSpaceRunes (rs : list (Z * list Z)) : list (Z * list Z) :=
  match rs with (r, b) :: rs' => if is_space r then dropSpaceRunes rs' else rs | [] => [] end.

(** strings.TrimSpace *)
Definition trimSpace (s : string) : string :=
  of_bytes (concat (map snd (reverse (dropSpaceRunes (reverse (dropSpaceRunes (decodeBytes (bytes s)))))))).

(** strings.Fields, the bytes of each field *)
Fixpoint fieldsFrom (rs : list (Z * list Z)) (cur : list Z) : list (list Z) :=
  match rs with
  | [] => match cur with [] => [] | _ => [cur] end
  | (r, b) :: rs =>
      if is_space r then match cur with [] => fieldsFrom rs [] | _ => cur :: fieldsFrom rs [] end
      else fieldsFrom rs (cur ++ b)
  end.

Definition joinFields (fs : list (list Z)) : string :=
  match fs with
  | [] => ""
  | f :: fs => of_bytes f +:+ foldr (fun g acc => " " +:+ of_bytes g +:+ acc) "" fs
  end.

Definition fingerprintPrefix : string := "fp:v4:".

Section gate.
Context `{GoStd} `{CostStd}.

Definition argType (arg : value) : string :=
  match arg with
  | VNil => "<nil>"
  | VString _ => "/string"
  | VInt KInt64 _ => "/int64"
  | VInt KInt _ => "/int"
  | VFloat64 _ => "/float64"
  | VBool _ => "/bool"
  | VBytes _ => "/[]uint8"
  | _ => reflectType arg
  end.

Definition newline : string := String "010"%char "".

Definition Fingerprint (datasource dialectName : string) (c : Statement) : string :=
  fingerprintPrefix +:+ sha256Hex
    (lower_trim unicode_lower datasource +:+ newline +:+ lower_trim unicode_lower dialectName +:+ newline
     +:+ joinFields (fieldsFrom (decodeBytes (bytes (st_sql c))) [])
     +:+ foldr (fun arg acc => newline +:+ argType arg +:+ acc) "" (st_args c)).

(** matchesTemplates, with the fingerprint as matchesBaseline computes it. *)
Definition matchesBaseline (values : list string) (datasource dialectName : string) (c : Statement) (legacy : bool) : bool :=
  existsb (fun value => String.eqb value (Fingerprint datasource dialectName c)
                        || String.eqb value (trimSpace datasource +:+ ":" +:+ st_sql c)
                        || legacy && String.eqb value (st_sql c)) values.

(** ** Layers *)

Definition staticRule (th : Threshold) : Layer :=
  mkLayer "static-rule" PhaseSafety (fun c =>
    if matchesBaseline (RejectTemplates th) (Th_Datasource th) (DialectName th) c (LegacyExactSQL th)
    then inr (denied ["query matches a rejected template"])
    else if WhitelistPKPoint th && st_isKeyPoint c
    then let p := zeroPlan ScanPoint true in
         inr (mkDecision true false true (Some p) (Some (ScorePlan p)) [] None zeroThreshold)
    else if matchesBaseline (AllowTemplates th) (Th_Datasource th) (DialectName th) c (LegacyExactSQL th)
    then inr (mkDecision true false true None None [] None zeroThreshold)
    else inr allowed).

Definition writeGuard : Layer :=
  mkLayer "write-guard" PhaseEnforcement (fun c =>
    if match st_kind c with None | Some KindWrite => false | _ => true end then inr allowed
    else if match st_kind c with None => st_readOnly c | _ => false end then inr allowed
    else if match st_expr c with None | Some (EUpdate _ _ _) | Some (EDelete _ _) => false | _ => true end
    then inr allowed
    else if st_isKeyPoint c then inr allowed
    else inr (denied ["scope the write with an equality filter on a primary or unique key (e.g. id = ...)"])).

Definition callGuard (th : Threshold) : Layer :=
  mkLayer "call-guard" PhaseEnforcement (fun c =>
    if match st_kind c with Some KindCall => false | _ => true end then inr allowed
    else if matchesBaseline (AllowTemplates th) (Th_Datasource th) (DialectName th) c (LegacyExactSQL th) then inr allowed
    else inr (denied ["add the reviewed CALL fingerprint to allowTemplates"])).

(** math.MaxInt *)
Definition maxInt : Z := 2 ^ 63 - 1.

(** The hint of a refused aggregate. *)
Definition aggregatePredicateHint (c : Statement) : string :=
  match st_primaryKey c with
  | k :: _ =>
      "aggregate queries require a filter; the narrowest always-true predicate is {" +:+ quoted "field" +:+ ":"
      +:+ strconvQuote k +:+ "," +:+ quoted "op" +:+ ":" +:+ quoted "is_not_null" +:+ "} on the primary key"
  | [] =>
      "aggregate queries require a filter; add one, e.g. {" +:+ quoted "field" +:+ ":"
      +:+ quoted "<any allowed field>" +:+ "," +:+ quoted "op" +:+ ":" +:+ quoted "is_not_null" +:+ "}"
  end.

Definition aggregateGuard (requirePredicate : bool) : Layer :=
  mkLayer "aggregate-guard" PhaseEnforcement (fun c =>
    if negb requirePredicate || match st_kind c with Some KindAggregate => false | _ => true end then inr allowed
    else let p := match st_expr c with Some e => PredicateOf e | None => PNil end in
         if negb (is_pnil p) && is_ok (ValidatePredicateWithMaxINCardinality p maxInt) then inr allowed
         else inr (denied [aggregatePredicateHint c])).

(** The suggestions for a refused plan. *)
Definition Hints (p : Plan) (th : Threshold) : list string :=
  let '(scanned, known) := ScannedRowsKnown p in
  (if OverScanLimit p (MaxScannedRows th)
   then [if known
         then "estimated to read " +:+ pretty scanned +:+ " rows, over the limit of " +:+ pretty (MaxScannedRows th)
              +:+ ": narrow the filter (a shorter time range, a more selective condition)"
              +:+ " or split the work into smaller ranges"
         else "reads a whole table whose row count is unknown, so it may exceed the limit of "
              +:+ pretty (MaxScannedRows th) +:+ " rows: filter on an indexed column, or ask an administrator"
              +:+ " to run ANALYZE on the table"]
   else [])
  ++ (if bool_decide (P_ScanType p = ScanFull) then ["add a filter on an indexed column or add LIMIT"] else [])
  ++ (if (0 <? MaxRows th) && (MaxRows th <? EstimatedRows p) then ["add LIMIT or narrow the filter"] else [])
  ++ (if (0 <? MaxBytes th) && (MaxBytes th <? EstimatedBytes p) then ["reduce selected columns"] else [])
  ++ (if HasSort p then ["ensure an index covers the ORDER BY"] else [])
  ++ (if StatsFresh p then [] else ["statistics may be stale; consider ANALYZE"])
  ++ ["rewrite the query and retry"].

Definition smallTable (p : Plan) (th : Threshold) : Plan :=
  if bool_decide (P_ScanType p = ScanFull) && (0 <? FullScanMaxRows th) && TableSized p
     && (TableRows p <=? FullScanMaxRows th)
  then with_scan ScanIndex p else p.

(** The decision on a plan; a refusal carries the plan, its score, the hints
    and the threshold. *)
Definition evaluatePlan (failClosed : bool) (plan : Plan) (err : option explainError) (th : Threshold) : Decision :=
  let score := ScorePlan plan in
  let deny (soft : bool) := mkDecision false soft false (Some plan) (Some score) (Hints plan th) None th in
  if failClosed && (bool_decide (is_Some err) || bool_decide (P_ScanType plan = ScanUnknown)) then deny false
  else if bool_decide (P_ScanType plan = ScanFull) && RejectFullScan th then deny false
  else if OverScanLimit plan (MaxScannedRows th) then deny false
  else if bool_decide (P_ScanType plan = ScanUnknown) && RequireKnownScan th then deny false
  else if negb (StatsFresh plan) && RequireFreshStats th then deny false
  else if (0 <? HardScore th) && (Value score <? HardScore th) then deny false
  else if (0 <? SoftScore th) && (Value score <? SoftScore th) then deny true
  else mkDecision true false false (Some plan) (Some score) [] None zeroThreshold.

(** EXPLAIN's answer, and the average rows the feedback store has for a
    fingerprint. *)
Record Estimator : Type := mkEstimator {
  explain : string -> list value -> Plan * option explainError;
  averageRows : string -> option Z;
}.

Definition explainPlan (es : Estimator) (th : Threshold) (c : Statement) : Plan * option explainError :=
  let '(plan, err) := explain es (st_sql c) (st_args c) in
  let plan := match err with Some _ => zeroPlan ScanUnknown false | None => plan end in
  match averageRows es (Fingerprint (Th_Datasource th) (DialectName th) c) with
  | Some avg => (if EstimatedRows plan <? avg then with_rows avg plan else plan, err)
  | None => (plan, err)
  end.

Definition estimateCheck (es : Estimator) (th : Threshold) (t : Tightening) (c : Statement) : explainError + Decision :=
  if match st_kind c with None | Some KindRead | Some KindAggregate => false | _ => true end then inr allowed
  else
    let tightened := Tighten th t in
    let '(plan, err) := explainPlan es th c in
    match err with
    | Some e => if unavailable err || schemaChanged err then inl e
                else inr (evaluatePlan (ExplainFailClosed th) (smallTable plan tightened) err tightened)
    | None => inr (evaluatePlan (ExplainFailClosed th) (smallTable plan tightened) err tightened)
    end.

Definition estimate (es : Estimator) (th : Threshold) (t : Tightening) : Layer :=
  mkLayer "estimate" PhaseEstimate (estimateCheck es th t).

(** Estimate.Evaluate: a plan the caller obtained itself. *)
Definition Evaluate (th : Threshold) (plan : Plan) (err : option explainError) : Decision :=
  let plan := match err with Some _ => zeroPlan ScanUnknown false | None => plan end in
  evaluatePlan (ExplainFailClosed th) (smallTable plan th) err th.

Definition enforceCap (hardRows : Z) : Layer :=
  mkLayer "enforce-cap" PhaseEnforcement (fun c =>
    if (hardRows <=? 0) || match st_kind c with Some KindCall => true | _ => false end then inr allowed
    else if negb (match st_kind c with Some KindRead | Some KindAggregate => true | None => st_readOnly c | _ => false end)
    then inr allowed
    else
      let '(capped, ok) := capRows c hardRows in
      if ok then
        if String.eqb (st_sql capped) (st_sql c) then inr allowed
        else inr (mkDecision true false false None None [] (Some capped) zeroThreshold)
      else inr (mkDecision true false false None None []
                  (Some (with_sql ("SELECT * FROM (" +:+ st_sql c +:+ ") AS sub LIMIT " +:+ pretty hardRows)
                           (st_capLimit c) c)) zeroThreshold)).

(** NewGateFromCapabilities; no explainer is [None]. *)
Definition NewGateFromCapabilities (caps : Profile) (ex : option Estimator) (th : Threshold) (t : Tightening) : list Layer :=
  [staticRule th]
  ++ (if RequirePKForWrite th then [writeGuard] else [])
  ++ [callGuard th]
  ++ (if RequireAggregatePredicate th then [aggregateGuard true] else [])
  ++ (match ex with
      | Some es => if Has caps Explain && (enforced caps ExplainAccurate || ExplainFailClosed th)
                   then [estimate es th t] else []
      | None => []
      end)
  ++ (if 0 <? MaxRows th then [enforceCap (MaxRows th)] else []).

(** ** Sampling (analyze.go) *)

(** float64 as IEEE 754 binary64. *)
Definition f64 (n : Z) : spec_float := binary_normalize 53 1024 n 0 false.

Record AnalyzeConfig : Type := mkAnalyze { A_Enabled : bool; A_SampleRate : spec_float; A_ReadOnly : bool }.

(** Whether AnalyzePolicy.Sample runs EXPLAIN ANALYZE; [random] is what the
    policy's source draws. *)
Definition samples (cfg : AnalyzeConfig) (sampler : bool) (random : spec_float) (c : Statement) : bool :=
  if negb (A_Enabled cfg) || negb (A_ReadOnly cfg) || negb (st_readOnly c) || negb sampler
     || SFleb (A_SampleRate cfg) (f64 0)
  then false
  else negb (SFltb (A_SampleRate cfg) (f64 1) && SFleb (A_SampleRate cfg) random).

(** ** Templates *)

Inductive templateError : Type := ErrBareFingerprint | ErrOldFingerprint | ErrLegacySQL.

(** The fingerprint a template names: the template, or what follows its first
    colon when that is one. *)
Definition namedFingerprint (value : string) : string :=
  let fp := trimSpace value in
  match cut ":"%char fp with
  | Some (_, scoped) =>
      if negb (prefix_of "fp:" fp) && prefix_of "fp:" (trimSpace scoped) then trimSpace scoped else fp
  | None => fp
  end.

Fixpoint validateFingerprintVersion (values : list string) : option templateError :=
  match values with
  | [] => None
  | value :: values =>
      let fp := namedFingerprint value in
      if negb (prefix_of "fp:" fp) then validateFingerprintVersion values
      else if negb (String.eqb fp value) then Some ErrBareFingerprint
      else if negb (prefix_of fingerprintPrefix fp) then Some ErrOldFingerprint
      else validateFingerprintVersion values
  end.

Definition hasDatasourceScope (value : string) (datasources : list string) : bool :=
  existsb (fun datasource =>
    let p := trimSpace datasource +:+ ":" in
    prefix_of p value && (String.length p <? String.length value)%nat) datasources.

(** The errors, less their texts: which list and entry they quote. *)
Definition ValidateTemplateScopes (datasources allowTemplates rejectTemplates : list string) : option templateError :=
  match validateFingerprintVersion allowTemplates with
  | Some e => Some e
  | None =>
      match validateFingerprintVersion rejectTemplates with
      | Some e => Some e
      | None =>
          if (length datasources <=? 1)%nat then None
          else if forallb (fun value => prefix_of fingerprintPrefix value || hasDatasourceScope value datasources)
                    (allowTemplates ++ rejectTemplates)
               then None else Some ErrLegacySQL
      end
  end.

End gate.
