(* ===== verification/CostTheorems.v ===== *)
(** The cost gate's guarantees: what an admitted statement has passed, that a
    caller's tightening never admits more, and, with codegen, that an admitted
    write touches one row, an admitted read returns no more than the cap, and
    that templates judge a statement whatever its values. *)

From Stdlib Require Import SpecFloat.
From S2P Require Import Prelude GoString Value Relalg Interp InterpFacts Numbers Dialect Codegen CodegenFacts CodegenTheorems Cost.

(** ** The chain *)

(** Not refused for good: admitted, or refused softly. *)
Definition passed (d : Decision) : bool := Allow d || Soft d.

Definition rewrites_nothing (l : Layer) : Prop := forall c d, layerCheck l c = inr d -> Rewritten d = None.

(** What a decision of the chain tells of a layer that saw [c]. *)
Definition layer_ok (c : Statement) (d : Decision) (l : Layer) : Prop :=
  exists d1, layerCheck l c = inr d1 /\ passed d1 = true /\ (Allow d = true -> Allow d1 = true).

Lemma checkLayers_soft layers : forall s d,
  checkLayers layers s = inr d -> passed d = true -> is_Some (ch_soft s) -> Allow d = false.
Proof.
  induction layers as [|l layers IH]; intros s d Hc Hp Hs; cbn [checkLayers] in Hc.
  - destruct Hs as [x Hx]. injection Hc as <-. unfold attachRewritten, softResult. rewrite Hx. by destruct (ch_rewritten s).
  - case_match; [by eapply IH|]. destruct (layerCheck l (ch_c s)) as [e|d1] eqn:E; [done|].
    destruct (negb (Allow d1) && negb (Soft d1)) eqn:Ed.
    + injection Hc as <-. apply andb_true_iff in Ed as [?%negb_true_iff ?%negb_true_iff].
      unfold passed in Hp. simpl in Hp. rewrite H0, H1 in Hp. done.
    + eapply IH; [exact Hc|done|]. simpl. destruct (negb (Allow d1) && Soft d1); [done|exact Hs].
Qed.

(** A layer that ran before the chain admitted. *)
Lemma checkLayers_cons l layers s d :
  checkLayers (l :: layers) s = inr d -> passed d = true ->
  ch_bypass s && bool_decide (layerPhase l = PhaseEstimate) = false ->
  layer_ok (ch_c s) d l /\
  exists d1, layerCheck l (ch_c s) = inr d1 /\ checkLayers layers (applyLayerDecision s d1) = inr d.
Proof.
  intros Hc Hp Hb. cbn [checkLayers] in Hc. rewrite Hb in Hc.
  destruct (layerCheck l (ch_c s)) as [e|d1] eqn:E; [done|].
  destruct (negb (Allow d1) && negb (Soft d1)) eqn:Ed.
  { injection Hc as <-. apply andb_true_iff in Ed as [?%negb_true_iff ?%negb_true_iff].
    unfold passed in Hp. simpl in Hp. rewrite H, H0 in Hp. done. }
  split; [|by exists d1]. exists d1. split; [done|]. unfold passed. split.
  - destruct (Allow d1), (Soft d1); done.
  - intros Ha. destruct (Allow d1) eqn:Ea; [done|]. destruct (Soft d1) eqn:Es; [|done].
    exfalso. rewrite (checkLayers_soft _ _ _ Hc Hp) in Ha; [done|]. simpl. rewrite Ea, Es. eauto.
Qed.

(** Layers that rewrite nothing saw the statement the chain was given; an
    estimate is skipped only after a layer's bypass. *)
Lemma checkLayers_app pre : forall post s d,
  Forall rewrites_nothing pre -> checkLayers (pre ++ post) s = inr d -> passed d = true ->
  (exists s', ch_c s' = ch_c s /\ ch_rewritten s' = ch_rewritten s /\
     Rewritten (ch_result s') = Rewritten (ch_result s) /\ checkLayers post s' = inr d) /\
  (forall l, l ∈ pre -> layer_ok (ch_c s) d l \/ layerPhase l = PhaseEstimate /\
     (ch_bypass s = true \/ exists l0 d0, l0 ∈ pre /\ layerCheck l0 (ch_c s) = inr d0 /\ Bypass d0 = true)).
Proof.
  induction pre as [|l pre IH]; intros post s d Hr Hc Hp.
  { split; [by exists s|]. intros l Hl. by apply elem_of_nil in Hl. }
  apply Forall_cons in Hr as [Hl Hr]. rewrite <- app_comm_cons in Hc.
  destruct (ch_bypass s && bool_decide (layerPhase l = PhaseEstimate)) eqn:Eb.
  - cbn [checkLayers] in Hc. rewrite Eb in Hc. destruct (IH post s d Hr Hc Hp) as [Hex Hall]. split; [done|].
    apply andb_true_iff in Eb as [Hb ?%bool_decide_eq_true]. intros l' [->|Hl']%elem_of_cons; [by right; eauto|].
    destruct (Hall l' Hl') as [?|[? _]]; [by left|right; eauto].
  - destruct (checkLayers_cons l (pre ++ post) s d Hc Hp Eb) as [Hok (d1 & E & Hc1)]. pose proof (Hl _ _ E) as Hrw.
    destruct (IH post _ d Hr Hc1 Hp) as [(s' & H1 & H2 & H3 & H4) Hall]. simpl in *. rewrite Hrw in *. simpl in *.
    split; [by exists s'|]. intros l' [->|Hl']%elem_of_cons; [by left|].
    destruct (Hall l' Hl') as [?|(He & Hby)]; [by left|right]. split; [done|].
    destruct Hby as [[Hb|Hb]%orb_true_iff|(l0 & d0 & ? & ? & ?)]; [by left| |].
    + right. exists l, d1. split; [left|done].
    + right. exists l0, d0. split; [by right|done].
Qed.

Section gate.
Context `{GoStd} `{CostStd}.

(** ** The layers *)

Ltac inv_layer := intros c d Hd; simpl in Hd; repeat case_match; simplify_eq/=; done.

Lemma staticRule_rewrites th : rewrites_nothing (staticRule th).
Proof. inv_layer. Qed.
Lemma writeGuard_rewrites : rewrites_nothing writeGuard.
Proof. inv_layer. Qed.
Lemma callGuard_rewrites th : rewrites_nothing (callGuard th).
Proof. inv_layer. Qed.
Lemma aggregateGuard_rewrites b : rewrites_nothing (aggregateGuard b).
Proof. inv_layer. Qed.
Lemma evaluatePlan_rewrites f p err th : Rewritten (evaluatePlan f p err th) = None.
Proof. unfold evaluatePlan. repeat case_match; done. Qed.
Lemma evaluatePlan_bypass f p err th : Bypass (evaluatePlan f p err th) = false.
Proof. unfold evaluatePlan. repeat case_match; done. Qed.
Lemma estimate_rewrites es th t : rewrites_nothing (estimate es th t).
Proof.
  intros c d Hd. cbn [estimate layerCheck] in Hd. unfold estimateCheck in Hd.
  repeat case_match; simplify_eq/=; auto using evaluatePlan_rewrites.
Qed.

(** The layers before the cap. *)
Definition guards (caps : Profile) (ex : option Estimator) (th : Threshold) (t : Tightening) : list Layer :=
  [staticRule th] ++ (if RequirePKForWrite th then [writeGuard] else []) ++ [callGuard th]
  ++ (if RequireAggregatePredicate th then [aggregateGuard true] else [])
  ++ (match ex with
      | Some es => if Has caps Explain && (enforced caps ExplainAccurate || ExplainFailClosed th)
                   then [estimate es th t] else []
      | None => []
      end).

Definition cap (th : Threshold) : list Layer := if 0 <? MaxRows th then [enforceCap (MaxRows th)] else [].

Lemma gate_split caps ex th t : NewGateFromCapabilities caps ex th t = guards caps ex th t ++ cap th.
Proof. unfold NewGateFromCapabilities, guards, cap. by rewrite <- !app_assoc. Qed.

Lemma guards_rewrite caps ex th t : Forall rewrites_nothing (guards caps ex th t).
Proof.
  unfold guards. repeat apply Forall_app_2; repeat case_match; repeat constructor;
    auto using staticRule_rewrites, writeGuard_rewrites, callGuard_rewrites, aggregateGuard_rewrites, estimate_rewrites.
Qed.

(** The layers that bypass estimates. *)
Lemma guards_bypass caps ex th t c l d :
  l ∈ guards caps ex th t -> layerCheck l c = inr d -> Bypass d = true ->
  WhitelistPKPoint th && st_isKeyPoint c = true \/
  matchesBaseline (AllowTemplates th) (Th_Datasource th) (DialectName th) c (LegacyExactSQL th) = true.
Proof.
  intros Hl Hd Hb. unfold guards in Hl. rewrite !elem_of_app in Hl.
  destruct Hl as [Hl|[Hl|[Hl|[Hl|Hl]]]]; repeat case_match;
    try (by apply elem_of_nil in Hl); apply list_elem_of_singleton in Hl as ->; simpl in Hd;
    try (repeat case_match; simplify_eq/=; auto; fail).
  unfold estimateCheck in Hd. repeat case_match; simplify_eq/=; try done; by rewrite evaluatePlan_bypass in Hb.
Qed.

(** ** What an admitted statement has passed *)

(** The statements the write guard judges. *)
Definition guardedWrite (c : Statement) : bool :=
  match st_kind c with Some KindWrite => true | None => negb (st_readOnly c) | _ => false end
  && match st_expr c with None | Some (EUpdate _ _ _) | Some (EDelete _ _) => true | _ => false end.

Lemma guards_ok caps ex th t c d l :
  gateCheck (NewGateFromCapabilities caps ex th t) c = inr d -> passed d = true ->
  l ∈ guards caps ex th t -> layer_ok c d l \/ layerPhase l = PhaseEstimate /\
    (WhitelistPKPoint th && st_isKeyPoint c = true \/
     matchesBaseline (AllowTemplates th) (Th_Datasource th) (DialectName th) c (LegacyExactSQL th) = true).
Proof.
  unfold gateCheck. rewrite gate_split. intros Hc Hp Hl.
  destruct (checkLayers_app _ _ _ _ (guards_rewrite caps ex th t) Hc Hp) as [_ Hall].
  destruct (Hall l Hl) as [?|[He [Hb|(l0 & d0 & Hl0 & Hd0 & Hb)]]]; [by left|done|right].
  split; [done|]. by eapply guards_bypass.
Qed.

Lemma writeGuard_ok c d : layer_ok c d writeGuard -> guardedWrite c = true -> st_isKeyPoint c = true.
Proof.
  intros (d1 & Hd & Hp & _) Hw. unfold guardedWrite in Hw. cbn [writeGuard layerCheck] in Hd.
  destruct (st_isKeyPoint c); [done|]. exfalso.
  destruct (st_kind c) as [[]|], (st_readOnly c), (st_expr c) as [[]|]; simplify_eq/=.
Qed.

Lemma static_passes caps ex th t c d :
  gateCheck (NewGateFromCapabilities caps ex th t) c = inr d -> passed d = true ->
  matchesBaseline (RejectTemplates th) (Th_Datasource th) (DialectName th) c (LegacyExactSQL th) = false.
Proof.
  intros Hc Hp. destruct (guards_ok _ _ _ _ _ _ (staticRule th) Hc Hp) as [(d1 & Hd & Hp1 & _)|[Hph _]]; [|simpl in Hd|done].
  - unfold guards. set_solver.
  - case_match; [|done]. simplify_eq/=.
Qed.

Lemma write_passes caps ex th t c d :
  gateCheck (NewGateFromCapabilities caps ex th t) c = inr d -> passed d = true ->
  RequirePKForWrite th = true -> guardedWrite c = true -> st_isKeyPoint c = true.
Proof.
  intros Hc Hp Hr. destruct (guards_ok _ _ _ _ _ _ writeGuard Hc Hp) as [Hok|[Hph _]]; [| |done].
  - unfold guards. rewrite Hr. set_solver.
  - by apply (writeGuard_ok c d).
Qed.

Lemma call_passes caps ex th t c d :
  gateCheck (NewGateFromCapabilities caps ex th t) c = inr d -> passed d = true -> st_kind c = Some KindCall ->
  matchesBaseline (AllowTemplates th) (Th_Datasource th) (DialectName th) c (LegacyExactSQL th) = true.
Proof.
  intros Hc Hp Hk. destruct (guards_ok _ _ _ _ _ _ (callGuard th) Hc Hp) as [(d1 & Hd & Hp1 & _)|[Hph _]]; [|simpl in Hd|done].
  - unfold guards. set_solver.
  - rewrite Hk in Hd. case_match; [done|]. simplify_eq/=.
Qed.

Lemma aggregate_passes caps ex th t c d :
  gateCheck (NewGateFromCapabilities caps ex th t) c = inr d -> passed d = true ->
  RequireAggregatePredicate th = true -> st_kind c = Some KindAggregate ->
  exists e, st_expr c = Some e /\ is_pnil (PredicateOf e) = false /\
    ValidatePredicateWithMaxINCardinality (PredicateOf e) maxInt = Ok tt.
Proof.
  intros Hc Hp Hr Hk. destruct (guards_ok _ _ _ _ _ _ (aggregateGuard true) Hc Hp) as [(d1 & Hd & Hp1 & _)|[Hph _]];
    [|simpl in Hd|done].
  - unfold guards. rewrite Hr. set_solver.
  - rewrite Hk in Hd. destruct (st_expr c) as [e|]; simpl in Hd; [|simplify_eq/=; done].
    exists e. split; [done|]. destruct (is_pnil (PredicateOf e)); simpl in Hd; [simplify_eq/=; done|].
    destruct (ValidatePredicateWithMaxINCardinality (PredicateOf e) maxInt) as [[]|]; [done|simplify_eq/=; done].
Qed.

(** C30. No bypass skips a guard.  A statement the gate admits, or refuses
    softly, matches no rejected template; where the configuration requires a
    key for writes (requirePKForWrite), an UPDATE or DELETE is a point on a
    key; a CALL is of a reviewed template; where the configuration requires a
    predicate on aggregates (requireAggregatePredicate), an aggregate has a
    valid one.  Where the gate estimates (it has an estimator, the dialect
    has EXPLAIN, and either its estimates are accurate or the configuration
    fails closed without them), the estimate let the statement through too,
    and not softly if the gate's answer is not soft, unless the statement is
    a whitelisted key point or matches an allowed template. *)
Theorem gate_enforces_guards (caps : Profile) (ex : option Estimator) (th : Threshold) (t : Tightening)
    (c : Statement) (d : Decision) :
  gateCheck (NewGateFromCapabilities caps ex th t) c = inr d -> passed d = true ->
  let matches templates := matchesBaseline templates (Th_Datasource th) (DialectName th) c (LegacyExactSQL th) in
  matches (RejectTemplates th) = false /\
  (RequirePKForWrite th = true -> guardedWrite c = true -> st_isKeyPoint c = true) /\
  (st_kind c = Some KindCall -> matches (AllowTemplates th) = true) /\
  (RequireAggregatePredicate th = true -> st_kind c = Some KindAggregate ->
     exists e, st_expr c = Some e /\ is_pnil (PredicateOf e) = false /\
       ValidatePredicateWithMaxINCardinality (PredicateOf e) maxInt = Ok tt) /\
  (forall es, ex = Some es -> Has caps Explain && (enforced caps ExplainAccurate || ExplainFailClosed th) = true ->
     WhitelistPKPoint th && st_isKeyPoint c = false -> matches (AllowTemplates th) = false ->
     exists d1, estimateCheck es th t c = inr d1 /\ passed d1 = true /\ (Allow d = true -> Allow d1 = true)).
Proof.
  intros Hc Hp matches. split; [by eapply static_passes|]. split; [by eapply write_passes|].
  split; [by eapply call_passes|]. split; [by eapply aggregate_passes|].
  intros es -> He Hk Ha. destruct (guards_ok _ _ _ _ _ _ (estimate es th t) Hc Hp) as [Hok|[_ Hby]]; [|exact Hok|].
  - unfold guards. rewrite He. set_solver.
  - unfold matches in Ha. destruct Hby; congruence.
Qed.

(** ** Tightening *)

(** What the second gate lets through the first lets through, as the same
    statement. *)
Definition admits_no_more (r r' : explainError + Decision) : Prop :=
  forall d', r' = inr d' -> passed d' = true ->
    exists d, r = inr d /\ passed d = true /\ Rewritten d = Rewritten d' /\ (Allow d' = true -> Allow d = true).

Definition stricter (l l' : Layer) : Prop :=
  layerPhase l = layerPhase l' /\
  forall c d', layerCheck l' c = inr d' -> passed d' = true ->
    exists d, layerCheck l c = inr d /\ passed d = true /\ Rewritten d = Rewritten d' /\ Bypass d = Bypass d' /\
      (Allow d' = true -> Allow d = true).

Lemma stricter_refl l : stricter l l.
Proof. split; [done|]. intros c d Hd Hp. by exists d. Qed.

Definition same_course (s s' : chainState) : Prop :=
  ch_c s = ch_c s' /\ ch_rewritten s = ch_rewritten s' /\ ch_bypass s = ch_bypass s' /\
  Allow (ch_result s) = true /\ Allow (ch_result s') = true /\
  Rewritten (ch_result s) = None /\ Rewritten (ch_result s') = None /\
  (is_Some (ch_soft s) -> is_Some (ch_soft s')).

Lemma same_course_end s s' : same_course s s' -> admits_no_more (checkLayers [] s) (checkLayers [] s').
Proof.
  intros (Hc & Hw & Hb & Ha & Ha' & Hr & Hr' & Hs) d' Hd' Hp. injection Hd' as <-. eexists. split; [reflexivity|].
  unfold attachRewritten, softResult, passed in *. rewrite Hc, Hw.
  destruct (ch_soft s) as [x|].
  - destruct (Hs ltac:(done)) as [y Hy]. rewrite Hy in *. destruct (ch_rewritten s'); simpl; rewrite ?Hr, ?Hr'; done.
  - destruct (ch_soft s'), (ch_rewritten s'); simpl; rewrite ?Ha, ?Ha', ?Hr, ?Hr'; done.
Qed.

Lemma same_course_step s s' d d' :
  same_course s s' -> Rewritten d = Rewritten d' -> Bypass d = Bypass d' -> passed d = true -> passed d' = true ->
  (Allow d' = true -> Allow d = true) -> same_course (applyLayerDecision s d) (applyLayerDecision s' d').
Proof.
  intros (Hc & Hw & Hb & Ha & Ha' & Hr & Hr' & Hs) Hrw Hby Hp Hp' Hal. unfold applyLayerDecision, same_course. simpl.
  rewrite Hc, Hw, Hb, Hrw, Hby. do 7 (split; [done|]). unfold passed in *.
  destruct (Allow d) eqn:E, (Allow d') eqn:E'; simpl; [exact Hs| | |]; destruct (Soft d), (Soft d'); simpl in *; try done; eauto using Hal; discriminate (Hal eq_refl).
Qed.

Lemma checkLayers_stricter ls : forall ls' s s',
  Forall2 stricter ls ls' -> same_course s s' -> admits_no_more (checkLayers ls s) (checkLayers ls' s').
Proof.
  induction ls as [|l ls IH]; intros ls' s s' Hls Hs; inversion Hls as [|? l' ? ls1 [Hph Hl] Hls1]; subst;
    [by apply same_course_end|].
  pose proof Hs as (Hc & Hw & Hb & _). intros d' Hd' Hp.
  destruct (ch_bypass s' && bool_decide (layerPhase l' = PhaseEstimate)) eqn:Eb.
  - cbn [checkLayers] in *. rewrite Hb, Hph, Eb in *. by eapply IH.
  - destruct (checkLayers_cons _ _ _ _ Hd' Hp Eb) as [_ (d1' & E' & Hd1)].
    assert (passed d1' = true) as Hp1.
    { destruct (checkLayers_cons _ _ _ _ Hd' Hp Eb) as [(d2 & E2 & Hp2 & _) _]. congruence. }
    destruct (Hl _ _ E' Hp1) as (d1 & E & Hpd & Hrw & Hby & Hal). cbn [checkLayers].
    rewrite Hb, Hph, Eb, Hc, E. replace (negb (Allow d1) && negb (Soft d1)) with false.
    + eapply IH; [done| |exact Hd1|done]. by apply same_course_step.
    + unfold passed in Hpd. by destruct (Allow d1), (Soft d1).
Qed.

Lemma OverScanLimit_tighten p th t :
  OverScanLimit p (MaxScannedRows (Tighten th noTightening)) = true ->
  OverScanLimit p (MaxScannedRows (Tighten th t)) = true.
Proof.
  unfold OverScanLimit. destruct (ScannedRowsKnown p) as [rows known]. simpl. intros [H1 H2]%andb_true_iff.
  apply Z.ltb_lt in H1. apply andb_true_iff.
  destruct ((0 <? T_MaxScannedRows t) && _) eqn:E; rewrite ?andb_true_iff, ?orb_true_iff, ?Z.ltb_lt, ?Z.leb_le in *;
    destruct known; simpl in *; intuition lia.
Qed.

Lemma score_tighten v a b : (0 <? Z.max a 0) && (v <? Z.max a 0) = true -> (0 <? Z.max a b) && (v <? Z.max a b) = true.
Proof. rewrite !andb_true_iff, !Z.ltb_lt. lia. Qed.

(** The tests that refuse a plan for good. *)
Definition refuses (f : bool) (p : Plan) (err : option explainError) (th : Threshold) : bool :=
  f && (bool_decide (is_Some err) || bool_decide (P_ScanType p = ScanUnknown))
  || bool_decide (P_ScanType p = ScanFull) && RejectFullScan th
  || OverScanLimit p (MaxScannedRows th)
  || bool_decide (P_ScanType p = ScanUnknown) && RequireKnownScan th
  || negb (StatsFresh p) && RequireFreshStats th
  || (0 <? HardScore th) && (Value (ScorePlan p) <? HardScore th).

Lemma evaluatePlan_verdict f p err th :
  let d := evaluatePlan f p err th in
  Bypass d = false /\ passed d = negb (refuses f p err th) /\
  Allow d = negb (refuses f p err th) && negb ((0 <? SoftScore th) && (Value (ScorePlan p) <? SoftScore th)).
Proof.
  simpl. unfold evaluatePlan, refuses, passed.
  do 6 (match goal with |- context [if ?b then _ else _] => destruct b; [by rewrite ?orb_true_r|] end).
  by destruct (_ && (Value (ScorePlan p) <? SoftScore th)).
Qed.

Lemma refuses_tighten f p err th t :
  refuses f p err (Tighten th noTightening) = true -> refuses f p err (Tighten th t) = true.
Proof.
  unfold refuses. rewrite !orb_true_iff.
  pose proof (OverScanLimit_tighten p th t). pose proof (score_tighten (Value (ScorePlan p)) (HardScore th) (T_HardScore t)).
  cbn [Tighten noTightening RejectFullScan RequireKnownScan RequireFreshStats HardScore T_RejectFullScan T_HardScore] in *.
  rewrite orb_false_r. intros [[[[[?|Hf]|?]|?]|?]|?]; auto 8.
  apply andb_true_iff in Hf as [-> ->]. simpl. auto 8.
Qed.

Lemma evaluatePlan_tighten f p err th t :
  let d := evaluatePlan f p err (Tighten th noTightening) in
  let d' := evaluatePlan f p err (Tighten th t) in
  Bypass d = Bypass d' /\ (passed d' = true -> passed d = true) /\ (Allow d' = true -> Allow d = true).
Proof.
  intros d d'. subst d d'. destruct (evaluatePlan_verdict f p err (Tighten th noTightening)) as (-> & -> & ->).
  destruct (evaluatePlan_verdict f p err (Tighten th t)) as (-> & -> & ->). split; [done|].
  pose proof (refuses_tighten f p err th t). split.
  - destruct (refuses f p err (Tighten th noTightening)); [rewrite H1|]; done.
  - pose proof (score_tighten (Value (ScorePlan p)) (SoftScore th) (T_SoftScore t)) as Hs. cbn [Tighten noTightening SoftScore T_SoftScore] in *.
    destruct (refuses f p err (Tighten th noTightening)); [by rewrite H1|]. simpl.
    destruct ((0 <? Z.max (SoftScore th) 0) && _); [rewrite Hs by done; by rewrite andb_false_r|done].
Qed.

Lemma smallTable_tighten p th t : smallTable p (Tighten th t) = smallTable p (Tighten th noTightening).
Proof. done. Qed.

Lemma estimate_stricter es th t : stricter (estimate es th noTightening) (estimate es th t).
Proof.
  split; [done|]. intros c d' Hd' Hp. cbn [estimate layerCheck] in *. unfold estimateCheck in *.
  destruct (match st_kind c with None | Some KindRead | Some KindAggregate => false | _ => true end);
    [by exists d'|]. destruct (explainPlan es th c) as [plan err]. rewrite smallTable_tighten in Hd'.
  set (p := smallTable plan (Tighten th noTightening)) in *.
  destruct (evaluatePlan_tighten (ExplainFailClosed th) p err th t) as (Hb & Hpp & Ha).
  assert (d' = evaluatePlan (ExplainFailClosed th) p err (Tighten th t)) as -> by (repeat case_match; simplify_eq; done).
  exists (evaluatePlan (ExplainFailClosed th) p err (Tighten th noTightening)).
  rewrite !evaluatePlan_rewrites. split; [repeat case_match; simplify_eq; done|]. auto.
Qed.

(** Tightening never loosens.  Whatever the limits a role or a user adds,
    the gate admits with them only what it admits without, and as the same
    statement; it refuses softly only what it does not refuse for good
    without. *)
Theorem tighten_never_loosens (caps : Profile) (ex : option Estimator) (th : Threshold) (t : Tightening) (c : Statement)
    (d' : Decision) :
  gateCheck (NewGateFromCapabilities caps ex th t) c = inr d' -> passed d' = true ->
  exists d, gateCheck (NewGateFromCapabilities caps ex th noTightening) c = inr d /\ passed d = true /\
    Rewritten d = Rewritten d' /\ (Allow d' = true -> Allow d = true).
Proof.
  intros Hd' Hp. refine (checkLayers_stricter _ _ _ _ _ _ _ Hd' Hp).
  - unfold NewGateFromCapabilities. repeat apply Forall2_app; repeat case_match;
      repeat constructor; auto using stricter_refl, estimate_stricter; try apply stricter_refl; apply estimate_stricter.
  - by unfold same_course.
Qed.

(** ** With codegen *)

(** The keys Compile takes for identity keys. *)
Definition keysOfConfig (cfg : compileConfig) : list (list string) :=
  if negb (identitySet cfg) && negb (length (pkCols cfg) =? 0)%nat then [pkCols cfg] else identityKeys cfg.

Lemma Compile_fields d e cfg c :
  Compile d e cfg = Ok c ->
  CExpr c = e /\ CKind c = kindOf e /\ IsKeyPoint c = existsb (isKeyPoint (PredicateOf e)) (keysOfConfig cfg).
Proof.
  unfold Compile. case_match; [done|]. intros Hc. apply bind_ok in Hc as ([u b] & E & Hc). by injection Hc as <-.
Qed.

(** An admitted write touches one row.  Where the gate requires a key for
    writes, the predicate of a compiled UPDATE or DELETE that it does not
    refuse selects at most one row of the table, when the identity keys
    codegen was given are unique in it; whatever EXPLAIN says, and whatever
    template the statement matches. *)
Theorem admitted_write_one_row (caps : Profile) (ex : option Estimator) (th : Threshold) (t : Tightening)
    (dia : Dialect) (e : Expr) (cfg : compileConfig) (c : Compiled) (d : Decision)
    (db : DB) (rel out : relation) :
  Compile dia e cfg = Ok c ->
  match e with EUpdate _ _ _ | EDelete _ _ => True | _ => False end ->
  RequirePKForWrite th = true ->
  gateCheck (NewGateFromCapabilities caps ex th t) (ofCompiled c) = inr d -> passed d = true ->
  (forall key, key ∈ keysOfConfig cfg -> unique_on rel key) ->
  evalSelect db rel (PredicateOf e) = Ok out -> (length (Rows out) <= 1)%nat.
Proof.
  intros Hc He Hr Hg Hp Hu Hs. destruct (Compile_fields _ _ _ _ Hc) as (Hce & Hk & Hkp).
  assert (IsKeyPoint c = true) as Hpt.
  { apply (write_passes _ _ _ _ _ _ Hg Hp Hr). unfold guardedWrite, ofCompiled. simpl. rewrite Hce, Hk. by destruct e. }
  rewrite Hkp in Hpt. apply existsb_exists in Hpt as (key & Hin & Hkey). apply list_elem_of_In in Hin.
  by eapply key_point_single_row; [|apply Hu|].
Qed.

Lemma capRows_ofCompiled c n : capRows (ofCompiled c) n = (ofCompiled (CapRows c n).1, (CapRows c n).2).
Proof. unfold capRows, CapRows. simpl. repeat case_match; done. Qed.

(** The statement the caller runs: the rewritten one, when the gate rewrote. *)
Definition toRun (c : Statement) (d : Decision) : Statement := default c (Rewritten d).

Lemma gate_cap caps ex th t c d :
  gateCheck (NewGateFromCapabilities caps ex th t) c = inr d -> passed d = true -> 0 < MaxRows th ->
  exists d1, layerCheck (enforceCap (MaxRows th)) c = inr d1 /\ toRun c d = default c (Rewritten d1).
Proof.
  unfold gateCheck. rewrite gate_split. intros Hc Hp Hm.
  destruct (checkLayers_app _ _ _ _ (guards_rewrite caps ex th t) Hc Hp) as [(s & Hs & Hw & Hres & Hd) _].
  unfold cap in Hd. rewrite (proj2 (Z.ltb_lt _ _) Hm) in Hd. simpl in Hs, Hw.
  destruct (checkLayers_cons _ _ _ _ Hd Hp ltac:(by rewrite andb_false_r)) as [_ (d1 & E & Hd1)]. rewrite Hs in E.
  exists d1. split; [done|]. cbn [checkLayers] in Hd1. injection Hd1 as <-.
  unfold toRun, attachRewritten, softResult. simpl in *. rewrite Hs, Hw, Hres.
  destruct (Rewritten d1) as [c1|], (Allow d1), (Soft d1), (ch_soft s); done.
Qed.

(** An admitted read is capped.  Where the gate has a row cap, the SQL it
    hands on for a compiled read is the SQL of the same plan under LIMIT
    MaxRows: its own LIMIT kept when tighter, its OFFSET and its order always;
    the arguments are those bound. *)
Theorem admitted_read_capped (caps : Profile) (ex : option Estimator) (th : Threshold) (t : Tightening)
    (dia : Dialect) (e : Expr) (cfg : compileConfig) (c : Compiled) (d : Decision) :
  Compile dia e cfg = Ok c -> is_read e = true -> 0 < MaxRows th ->
  gateCheck (NewGateFromCapabilities caps ex th t) (ofCompiled c) = inr d -> passed d = true ->
  exists c', Compile dia (capped e (MaxRows th)) cfg = Ok c' /\
    st_sql (toRun (ofCompiled c) d) = SQL c' /\ st_args (toRun (ofCompiled c) d) = Args c'.
Proof.
  intros Hc He Hm Hg Hp. destruct (gate_cap _ _ _ _ _ _ Hg Hp Hm) as (d1 & Hd1 & ->).
  destruct (cap_rows_is_limit _ _ _ _ (MaxRows th) Hc He ltac:(lia)) as (c' & Hc' & Hok & Hsql & Hargs).
  exists c'. split; [done|]. cbn [enforceCap layerCheck] in Hd1.
  destruct (compile_read_kind _ _ _ _ Hc He) as [_ Hk].
  rewrite (proj2 (Z.leb_gt _ _) Hm), capRows_ofCompiled, Hok in Hd1. simpl in Hd1.
  assert (Args (CapRows c (MaxRows th)).1 = Args c) as Ha by (unfold CapRows; repeat case_match; done).
  rewrite <- Hsql, <- Hargs, Ha.
  destruct Hk as [Hk|Hk]; rewrite Hk in Hd1; simpl in Hd1;
    destruct (String.eqb_spec (SQL (CapRows c (MaxRows th)).1) (SQL c)); injection Hd1 as <-; simpl; auto.
Qed.

(** Templates judge a statement whatever its values.  Replacing the values
    a plan binds by others of the same types changes neither the fingerprint
    of its statement nor the verdict of the static rules, the write guard and
    the call guard: a reviewed template covers every binding of it. *)
Theorem templates_ignore_values (f : value -> value) (dia : Dialect) (e : Expr) (cfg : compileConfig) (c c' : Compiled)
    (th : Threshold) :
  (forall v, argType (f v) = argType v) ->
  Compile dia e cfg = Ok c -> Compile dia (substExpr f e) cfg = Ok c' ->
  Fingerprint (Th_Datasource th) (DialectName th) (ofCompiled c') =
    Fingerprint (Th_Datasource th) (DialectName th) (ofCompiled c) /\
  (forall l, l ∈ [staticRule th; writeGuard; callGuard th] ->
     layerCheck l (ofCompiled c') = layerCheck l (ofCompiled c)).
Proof.
  intros Hf Hc Hc'. rewrite Compile_subst, Hc in Hc'. injection Hc' as <-.
  set (c' := mkCompiled _ _ _ _ _ _ _ _ _ _).
  assert (forall ds dn, Fingerprint ds dn (ofCompiled c') = Fingerprint ds dn (ofCompiled c)) as Hfp.
  { intros ds dn. unfold Fingerprint. do 2 f_equal. cbn [ofCompiled st_sql st_args c' SQL Args].
    do 5 f_equal. induction (Args c) as [|a args IH]; [done|]. simpl. by rewrite Hf, IH. }
  assert (forall vs ds dn l, matchesBaseline vs ds dn (ofCompiled c') l = matchesBaseline vs ds dn (ofCompiled c) l) as Hm.
  { intros vs ds dn l. unfold matchesBaseline. induction vs as [|v vs IH]; [done|]. cbn [existsb]. by rewrite IH, Hfp. }
  split; [apply Hfp|]. intros l Hl. destruct (Compile_fields _ _ _ _ Hc) as (Hce & _).
  rewrite !elem_of_cons in Hl. destruct Hl as [->|[->|[->|Hl]]]; [| | |by apply elem_of_nil in Hl].
  - cbn [staticRule layerCheck]. by rewrite !Hm.
  - simpl. rewrite Hce. by destruct e.
  - cbn [callGuard layerCheck]. by rewrite !Hm.
Qed.

End gate.

(** ** On concrete statements *)

Definition demoCostStd : CostStd := {| sha256Hex := fun s => s; reflectType := fun _ => "/other"; strconvQuote := quoted |}.

Definition strict : Threshold :=
  mkThreshold "main" "mysql" 50 30 5 0 100000 true 1000 true true true true true true false [] [].

(** An EXPLAIN that shows an index scan of ten rows. *)
Definition indexScan : Estimator :=
  mkEstimator (fun _ _ => (mkPlan 10 0 0 0 ScanIndex false false false true 0 false, None)) (fun _ => None).

Definition idKey : compileConfig := mkConfig ["id"%string] [] false DefaultMaxINCardinality.

Definition deleteOne : Expr := EDelete (mkRef "" "orders") (PCond (mkCond "id" OpEq (VInt KInt 7))).

Definition checked (e : Expr) : option Decision :=
  match Compile mysql e idKey with
  | Ok c => match @gateCheck (@NewGateFromCapabilities asciiStd demoCostStd (Capabilities mysql) (Some indexScan) strict noTightening)
                    (ofCompiled c) with
            | inr d => Some d
            | inl _ => None
            end
  | Err _ => None
  end.

Example demo_verdicts :
  passed <$> checked deleteOne = Some true /\
  passed <$> checked (EDelete (mkRef "" "orders") (PCond (mkCond "state" OpEq (VString "old")))) = Some false /\
  passed <$> checked demoPlan = Some true.
Proof. vm_compute. auto. Qed.

(** A full scan of a small table is taken for an index scan, not for a
    sequential scan as the comment on FullScanMaxRows says. *)
Example small_table_scores_as_index :
  let p := mkPlan 10 0 0 0 ScanFull false false false true 500 true in
  Value (ScorePlan (smallTable p strict)) = 85 /\ Value (ScorePlan (with_scan ScanSeq p)) = 60.
Proof. vm_compute. auto. Qed.

Lemma gate_enforces_guards_witness :
  match Compile mysql deleteOne idKey with Ok c => IsKeyPoint c = true | Err _ => False end.
Proof.
  destruct (Compile mysql deleteOne idKey) as [c|] eqn:Hc; [|vm_compute in Hc; discriminate Hc].
  destruct (@gateCheck (@NewGateFromCapabilities asciiStd demoCostStd (Capabilities mysql) (Some indexScan) strict noTightening)
              (ofCompiled c)) as [err|d] eqn:Hg; vm_compute in Hc; injection Hc as <-; [vm_compute in Hg; discriminate Hg|].
  refine (proj1 (proj2 (@gate_enforces_guards asciiStd demoCostStd _ _ _ _ _ d Hg _)) eq_refl eq_refl).
  vm_compute in Hg. injection Hg as <-. reflexivity.
Defined.

Lemma tighten_never_loosens_witness :
  exists d, checked demoPlan = Some d /\ passed d = true.
Proof.
  unfold checked. destruct (Compile mysql demoPlan idKey) as [c|] eqn:Hc; [|vm_compute in Hc; discriminate Hc].
  destruct (@gateCheck (@NewGateFromCapabilities asciiStd demoCostStd (Capabilities mysql) (Some indexScan) strict
              (mkTightening 80 0 true 50)) (ofCompiled c)) as [err|d'] eqn:Hg;
    [vm_compute in Hc; injection Hc as <-; vm_compute in Hg; discriminate Hg|].
  destruct (@tighten_never_loosens asciiStd demoCostStd _ _ _ _ _ d' Hg) as (d & Hd & Hp & _).
  - vm_compute in Hc. injection Hc as <-. vm_compute in Hg. injection Hg as <-. reflexivity.
  - rewrite Hd. exists d. split; [reflexivity|exact Hp].
Defined.

Definition ordersTable : relation := mkRel ["id"] [[VInt KInt 7]; [VInt KInt 8]] ∅ 0.

Lemma ordersTable_unique : unique_on ordersTable ["id"%string].
Proof.
  intros i j r1 r2 Hi Hj Hk. destruct (Hk "id"%string) as (n & x & y & Hn & Hx & Hy & Hc); [left|].
  vm_compute in Hn. injection Hn as <-.
  destruct i as [|[|i]], j as [|[|j]]; try reflexivity; try discriminate Hi; try discriminate Hj;
    injection Hi as <-; injection Hj as <-; injection Hx as <-; injection Hy as <-; discriminate Hc.
Qed.

Lemma admitted_write_one_row_witness : (length (Rows (mkRel ["id"] [[VInt KInt 7]] ∅ 0)) <= 1)%nat.
Proof.
  destruct (Compile mysql deleteOne idKey) as [c|] eqn:Hc; [|vm_compute in Hc; discriminate Hc].
  destruct (@gateCheck (@NewGateFromCapabilities asciiStd demoCostStd (Capabilities mysql) (Some indexScan) strict noTightening)
              (ofCompiled c)) as [err|d] eqn:Hg;
    [vm_compute in Hc; injection Hc as <-; vm_compute in Hg; discriminate Hg|].
  apply (@admitted_write_one_row asciiStd demoCostStd _ _ strict _ _ _ _ _ _ ∅ ordersTable _ Hc I eq_refl Hg).
  - vm_compute in Hc. injection Hc as <-. vm_compute in Hg. injection Hg as <-. reflexivity.
  - intros key Hkey. apply list_elem_of_singleton in Hkey as ->. exact ordersTable_unique.
  - reflexivity.
Defined.

Lemma admitted_read_capped_witness :
  exists c', Compile mysql (capped demoPlan 5) idKey = Ok c' /\
    match checked demoPlan with Some d => st_sql (default (ofCompiled c') (Rewritten d)) = SQL c' | None => False end.
Proof.
  unfold checked. destruct (Compile mysql demoPlan idKey) as [c|] eqn:Hc; [|vm_compute in Hc; discriminate Hc].
  destruct (@gateCheck (@NewGateFromCapabilities asciiStd demoCostStd (Capabilities mysql) (Some indexScan) strict noTightening)
              (ofCompiled c)) as [err|d] eqn:Hg;
    [vm_compute in Hc; injection Hc as <-; vm_compute in Hg; discriminate Hg|].
  destruct (@admitted_read_capped asciiStd demoCostStd _ _ strict _ _ _ _ _ d Hc eq_refl eq_refl Hg) as (c' & Hc' & Hs & _).
  - vm_compute in Hc. injection Hc as <-. vm_compute in Hg. injection Hg as <-. reflexivity.
  - exists c'. split; [exact Hc'|]. unfold toRun in Hs.
    vm_compute in Hc. injection Hc as <-. vm_compute in Hg. injection Hg as <-. exact Hs.
Defined.

(** Every string becomes the same string; other values are kept. *)
Definition hideStrings (v : value) : value := match v with VString _ => VString "x" | _ => v end.

Lemma templates_ignore_values_witness :
  match Compile mysql demoPlan idKey, Compile mysql (substExpr hideStrings demoPlan) idKey with
  | Ok c, Ok c' => @Fingerprint asciiStd demoCostStd "main" "mysql" (ofCompiled c') =
                   @Fingerprint asciiStd demoCostStd "main" "mysql" (ofCompiled c)
  | _, _ => False
  end.
Proof.
  destruct (Compile mysql demoPlan idKey) as [c|] eqn:Hc; [|vm_compute in Hc; discriminate Hc].
  destruct (Compile mysql (substExpr hideStrings demoPlan) idKey) as [c'|] eqn:Hc'; [|vm_compute in Hc'; discriminate Hc'].
  refine (proj1 (@templates_ignore_values asciiStd demoCostStd hideStrings _ _ _ _ _ strict _ Hc Hc')).
  intros []; reflexivity.
Defined.
