(* ===== verification/Feedback.v ===== *)
(** The feedback statistics of the cost gate: core/cost/feedback.go.

    A window keeps the latest samples of a fingerprint in a ring; the store
    keeps the windows of a bounded number of fingerprints, evicting the one
    inserted first.  Sums are int64 and wrap; the anomaly test is float64.
    Against it, a history that forgets nothing of a fingerprint it holds. *)

From Stdlib Require Import SpecFloat.
From S2P Require Import Prelude Cost.

Definition defaultMaxFingerprintKeys : Z := 4096.

Record Feedback : Type := mkFeedback {
  Template : string;
  FEstimatedRows : Z;
  FActualRows : Z;
  Duration : Z;
}.

Record Statistics : Type := mkStatistics {
  Samples : Z;
  AverageRows : Z;
  AverageTime : Z;
  LatestRows : Z;
  LatestTime : Z;
  SEstimatedRows : Z;
}.

(** ** The window *)

Record window : Type := mkWindow { samples : list Feedback; next : nat }.

Definition add (w : window) (f : Feedback) (size : Z) : window :=
  if Z.of_nat (length (samples w)) <? size then mkWindow (samples w ++ [f]) (next w)
  else mkWindow (<[next w := f]> (samples w)) (S (next w) mod length (samples w)).

(** latest, of a window that has samples *)
Definition latest (w : window) : option Feedback :=
  samples w !! ((next w + length (samples w) - 1) mod length (samples w))%nat.

(** ** The store *)

Record MemoryStore : Type := mkStore {
  windowSize : Z;
  anomalyFactor : spec_float;
  anomalyMinSamples : Z;
  maxKeys : Z;
  windows : option (gmap string window);    (** [None] is the nil map of the zero value *)
  keys : list string;
}.

Definition NewAdaptiveMemoryStoreWithBounds (size maxKeys : Z) (factor : spec_float) (minSamples : Z) : MemoryStore :=
  mkStore (if size <=? 0 then 32 else size)
    (if SFleb factor (f64 1) then f64 3 else factor)
    (if minSamples <=? 0 then 5 else minSamples)
    (if maxKeys <=? 0 then defaultMaxFingerprintKeys else maxKeys) (Some ∅) [].

Definition NewMemoryStore : MemoryStore := NewAdaptiveMemoryStoreWithBounds 32 defaultMaxFingerprintKeys (f64 3) 5.

(** The sum of a column, in int64. *)
Definition total (g : Feedback -> Z) (fs : list Feedback) : Z := foldl (fun acc f => w64 (acc + g f)) 0 fs.

Definition average (g : Feedback -> Z) (fs : list Feedback) : Z := Z.quot (total g fs) (Z.of_nat (length fs)).

(** float64(rows) > float64(average)*factor *)
Definition exceeds (rows avg : Z) (factor : spec_float) : bool := SFltb (SFmul 53 1024 (f64 avg) factor) (f64 rows).

Definition anomalousIn (s : MemoryStore) (w : window) (f : Feedback) : bool :=
  let n := Z.of_nat (length (samples w)) in
  if (anomalyMinSamples s <=? n) && (0 <? n) then
    let avg := average FActualRows (samples w) in
    (0 <? avg) && exceeds (FActualRows f) avg (anomalyFactor s)
  else false.

(** The zero value takes the default bounds on its first record. *)
Definition initialised (s : MemoryStore) : MemoryStore :=
  match windows s with
  | Some _ => s
  | None => mkStore 32 (f64 3) 5 defaultMaxFingerprintKeys (Some ∅) (keys s)
  end.

(** The window of a template, and the store holding it: the oldest
    fingerprint goes when a new one comes to a full store. *)
Definition windowFor (s : MemoryStore) (tpl : string) : window * MemoryStore :=
  let m := default ∅ (windows s) in
  match m !! tpl with
  | Some w => (w, s)
  | None =>
      let '(m, ks) := if maxKeys s <=? Z.of_nat (size m)
                      then match keys s with k :: ks => (delete k m, ks) | [] => (m, []) end
                      else (m, keys s) in
      let w := mkWindow [] 0 in
      (w, mkStore (windowSize s) (anomalyFactor s) (anomalyMinSamples s) (maxKeys s) (Some (<[tpl := w]> m)) (ks ++ [tpl]))
  end.

(** Record, and whether it invalidates the template's cached plan. *)
Definition Record_ (s : MemoryStore) (f : Feedback) : MemoryStore * bool :=
  let '(w, s) := windowFor (initialised s) (Template f) in
  (mkStore (windowSize s) (anomalyFactor s) (anomalyMinSamples s) (maxKeys s)
     (Some (<[Template f := add w f (windowSize s)]> (default ∅ (windows s)))) (keys s),
   anomalousIn s w f).

(** The summary of samples, the one added last given. *)
Definition summary (fs : list Feedback) (last : Feedback) : Statistics :=
  mkStatistics (Z.of_nat (length fs)) (average FActualRows fs) (average Duration fs)
    (FActualRows last) (Duration last) (FEstimatedRows last).

Definition Stats (s : MemoryStore) (tpl : string) : option Statistics :=
  match default ∅ (windows s) !! tpl with
  | Some w => match latest w with Some l => Some (summary (samples w) l) | None => None end
  | None => None
  end.

Definition Anomalous (s : MemoryStore) (tpl : string) (factor : spec_float) (minSamples : Z) : bool :=
  match Stats s tpl with
  | Some st =>
      if (Samples st <? minSamples) || (AverageRows st <=? 0) then false
      else exceeds (LatestRows st) (AverageRows st) (if SFleb factor (f64 1) then f64 3 else factor)
  | None => false
  end.

(** ** The history it summarises *)

(** The fingerprints held, in the order they came, each with all the samples
    recorded since. *)
Definition history : Type := list (string * list Feedback).

Fixpoint record_in (h : history) (f : Feedback) : option history :=
  match h with
  | [] => None
  | (k, fs) :: h =>
      if String.eqb k (Template f) then Some ((k, fs ++ [f]) :: h) else (fun h => (k, fs) :: h) <$> record_in h f
  end.

Definition record (maxKeys : Z) (h : history) (f : Feedback) : history :=
  match record_in h f with
  | Some h => h
  | None => (if maxKeys <=? Z.of_nat (length h) then drop 1 h else h) ++ [(Template f, [f])]
  end.

Definition samplesOf (h : history) (tpl : string) : option (list Feedback) :=
  snd <$> find (fun p => String.eqb p.1 tpl) h.

(** The last [n] of a list. *)
Definition lastn {A} (n : nat) (l : list A) : list A := drop (length l - n) l.

Definition statsOf (size : Z) (h : history) (tpl : string) : option Statistics :=
  match samplesOf h tpl with
  | Some fs => summary (lastn (Z.to_nat size) fs) <$> last fs
  | None => None
  end.

(** ** The ring *)

(** The samples of a window, the oldest first. *)
Definition contents (w : window) : list Feedback := drop (next w) (samples w) ++ take (next w) (samples w).

Definition wf_window (size : Z) (w : window) : Prop :=
  Z.of_nat (length (samples w)) <= size /\
  (Z.of_nat (length (samples w)) < size -> next w = 0%nat) /\ (next w < length (samples w) \/ next w = 0)%nat.

Lemma contents_perm w : contents w ≡ₚ samples w.
Proof. unfold contents. rewrite Permutation_app_comm. by rewrite take_drop. Qed.

Lemma length_contents w : length (contents w) = length (samples w).
Proof. by rewrite contents_perm. Qed.

Lemma add_contents size w f :
  0 < size -> wf_window size w ->
  contents (add w f size) = lastn (Z.to_nat size) (contents w ++ [f]) /\ wf_window size (add w f size).
Proof.
  intros Hs (Hle & Hz & Hn). unfold add, lastn. rewrite length_app, length_contents. simpl.
  destruct (Z.ltb_spec (Z.of_nat (length (samples w))) size) as [Hlt|Hge].
  - rewrite (Hz Hlt). replace (_ - _)%nat with 0%nat by lia. unfold contents. simpl. rewrite (Hz Hlt), !drop_0, !take_0, !app_nil_r.
    split; [done|]. unfold wf_window. simpl. rewrite length_app. simpl. lia.
  - replace (_ - _)%nat with 1%nat by lia. destruct (samples w) as [|x l] eqn:E; [simpl in *; lia|].
    rewrite <- E in *. assert (next w < length (samples w))%nat as Hnl by (rewrite E in *; simpl in *; lia).
    split.
    + unfold contents. simpl.
      destruct (lookup_lt_is_Some_2 _ _ Hnl) as [y Hy].
      rewrite (drop_S _ y (next w)) by done. simpl. rewrite drop_0.
      destruct (decide (S (next w) = length (samples w))) as [Heq|Hne].
      * rewrite Heq, Nat.Div0.mod_same, drop_0, take_0, app_nil_r, drop_ge by lia. simpl.
        rewrite insert_take_drop, Heq, drop_ge by lia. done.
      * rewrite Nat.mod_small by lia. rewrite drop_insert_lt by lia. rewrite (take_S_r _ _ f) by (apply list_lookup_insert_eq; lia).
        rewrite take_insert_ge by lia. by rewrite app_assoc.
    + unfold wf_window. simpl. rewrite length_insert. split; [lia|]. split; [lia|]. left. apply Nat.mod_upper_bound. lia.
Qed.

Lemma latest_contents size w : wf_window size w -> latest w = last (contents w).
Proof.
  intros (_ & _ & Hn). unfold latest, contents. destruct (samples w) as [|x l] eqn:E; [by destruct (next w)|]. rewrite <- E in *.
  assert (0 < length (samples w))%nat by (rewrite E; simpl; lia). destruct (next w) as [|n] eqn:En.
  - rewrite drop_0, take_0, app_nil_r, last_lookup. rewrite Nat.mod_small by lia. f_equal; lia.
  - rewrite last_app, last_lookup, length_take. rewrite lookup_take_lt by lia.
    destruct (lookup_lt_is_Some_2 (samples w) (Nat.pred (S n `min` length (samples w))) ltac:(lia)) as [y Hy].
    rewrite Hy. rewrite <- Hy. f_equal.
    replace (S n + length (samples w) - 1)%nat with (n + 1 * length (samples w))%nat by lia.
    rewrite Nat.Div0.mod_add, Nat.mod_small by lia. lia.
Qed.

Lemma lastn_snoc {A} (n : nat) (l : list A) x : (0 < n)%nat -> lastn n (lastn n l ++ [x]) = lastn n (l ++ [x]).
Proof.
  intros Hn. unfold lastn. rewrite !length_app, length_drop. simpl.
  destruct (decide (length l < n)%nat).
  - replace (length l - n)%nat with 0%nat by lia. rewrite drop_0. f_equal. lia.
  - replace (length l + 1 - n)%nat with (S (length l - n)) by lia.
    replace (length l - (length l - n) + 1 - n)%nat with 1%nat by lia.
    rewrite (drop_app_le l) by lia. rewrite drop_app_le by (rewrite length_drop; lia). rewrite drop_drop. do 2 f_equal. lia.
Qed.

Lemma last_lastn {A} (n : nat) (l : list A) : (0 < n)%nat -> last (lastn n l) = last l.
Proof.
  intros Hn. unfold lastn. rewrite !last_lookup, lookup_drop, length_drop.
  destruct l as [|x l]; [done|]. f_equal. simpl length. lia.
Qed.

Lemma total_sum g fs : total g fs = w64 (sumOver g fs).
Proof.
  unfold total. assert (forall a, foldl (fun acc f => w64 (acc + g f)) (w64 a) fs = w64 (a + sumOver g fs)) as Hg.
  { induction fs as [|f fs IH]; intros a; simpl; [by rewrite Z.add_0_r|].
    rewrite w64_w64_add, IH. f_equal. lia. }
  apply (Hg 0).
Qed.

Lemma summary_perm fs fs' l : fs ≡ₚ fs' -> summary fs l = summary fs' l.
Proof.
  intros Hp. unfold summary, average. rewrite !total_sum. rewrite (sumOver_perm FActualRows fs fs') by done.
  rewrite (sumOver_perm Duration fs fs') by done. by rewrite Hp.
Qed.

(** ** The store against the history *)

Definition holds (s : MemoryStore) (size cap : Z) (h : history) : Prop :=
  windowSize s = size /\ maxKeys s = cap /\ keys s = map fst h /\ NoDup (map fst h) /\ Z.of_nat (length h) <= cap /\
  exists m, windows s = Some m /\ dom m = list_to_set (map fst h) /\
    (forall k fs, (k, fs) ∈ h -> exists w, m !! k = Some w /\ wf_window size w /\ contents w = lastn (Z.to_nat size) fs).

Lemma find_key (h : history) k fs :
  NoDup (map fst h) -> (k, fs) ∈ h -> find (fun p => String.eqb p.1 k) h = Some (k, fs).
Proof.
  induction h as [|[k' fs'] h IH]; intros Hn Hin; [by apply elem_of_nil in Hin|]. simpl in *.
  apply NoDup_cons in Hn as [Hk' Hn]. apply elem_of_cons in Hin as [[= -> ->]|Hin]; [by rewrite String.eqb_refl|].
  destruct (String.eqb_spec k' k) as [->|]; [|auto]. exfalso. apply Hk'. apply list_elem_of_fmap. by exists (k, fs).
Qed.

Lemma find_no_key (h : history) k : k ∉ map fst h -> find (fun p => String.eqb p.1 k) h = None.
Proof.
  induction h as [|[k' fs'] h IH]; intros Hk; [done|]. simpl in *. destruct (String.eqb_spec k' k) as [->|].
  - exfalso. apply Hk. left.
  - apply IH. intros ?. apply Hk. by right.
Qed.

Lemma record_in_none h f : record_in h f = None <-> Template f ∉ map fst h.
Proof.
  induction h as [|[k fs] h IH]; simpl; [split; [intros _; apply not_elem_of_nil|done]|].
  destruct (String.eqb_spec k (Template f)) as [->|Hne]; [split; [done|]; intros Hn; exfalso; apply Hn; left|].
  rewrite fmap_None, IH, not_elem_of_cons. naive_solver.
Qed.

Lemma record_in_some h f h' :
  NoDup (map fst h) -> record_in h f = Some h' -> map fst h' = map fst h /\ exists fs, (Template f, fs) ∈ h /\
    forall k gs, (k, gs) ∈ h' -> k = Template f /\ gs = fs ++ [f] \/ k ≠ Template f /\ (k, gs) ∈ h.
Proof.
  revert h'. induction h as [|[k fs] h IH]; intros h' Hn Hr; [done|]. simpl in *. apply NoDup_cons in Hn as [Hk Hn].
  destruct (String.eqb_spec k (Template f)) as [->|Hne].
  - injection Hr as <-. split; [done|]. exists fs. split; [left|].
    intros k gs [[= -> ->]|Hin]%elem_of_cons; [by left|right]. split; [|by right].
    intros ->. apply Hk. apply list_elem_of_fmap. by exists (Template f, gs).
  - apply fmap_Some in Hr as (h1 & Hr & ->). destruct (IH h1 Hn Hr) as (Hm & gs & Hg & Hall). split; [by simpl; f_equal|].
    exists gs. split; [by right|]. intros k' gs' [[= -> ->]|Hin]%elem_of_cons; [right; split; [done|left]|].
    destruct (Hall k' gs' Hin) as [?|[? ?]]; [by left|right]. split; [done|by right].
Qed.

Lemma holds_Stats s size cap h tpl : 0 < size -> holds s size cap h -> Stats s tpl = statsOf size h tpl.
Proof.
  intros Hs (_ & _ & _ & Hn & _ & m & Hm & Hd & Hw). unfold Stats, statsOf, samplesOf. rewrite Hm. simpl.
  destruct (decide (tpl ∈ map fst h)) as [Hin|Hin].
  - apply list_elem_of_fmap in Hin as ([k fs] & -> & Hin). simpl. destruct (Hw _ _ Hin) as (w & Hmw & Hwf & Hc).
    rewrite Hmw, (find_key h k fs) by done. simpl. rewrite (latest_contents size) by done.
    rewrite Hc, last_lastn by lia. destruct (last fs); [|done]. simpl. f_equal. rewrite <- Hc. apply summary_perm.
    by rewrite contents_perm.
  - rewrite find_no_key by done. rewrite (not_elem_of_dom_1 m tpl); [done|]. rewrite Hd, elem_of_list_to_set. done.
Qed.

Lemma holds_size s size cap h : holds s size cap h -> forall m, windows s = Some m -> base.size m = length h.
Proof.
  intros (_ & _ & _ & Hn & _ & m' & Hm & Hd & _) m Hm'. assert (m' = m) as -> by congruence.
  rewrite <- size_dom, Hd, size_list_to_set, length_map; done.
Qed.

Lemma holds_known s size cap h f h' :
  0 < size -> holds s size cap h -> record_in h f = Some h' -> holds (Record_ s f).1 size cap h'.
Proof.
  intros Hs (H1 & H2 & H3 & Hn & Hc & m & Hm & Hd & Hw) Hr.
  destruct (record_in_some h f h' Hn Hr) as (Hk & fs & Hf & Hall). destruct (Hw _ _ Hf) as (w & Hmw & Hwf & Hcw).
  unfold Record_, initialised, windowFor. rewrite Hm. simpl. rewrite Hm. simpl. rewrite Hmw. simpl. rewrite Hm, H1. simpl.
  destruct (add_contents size w f Hs Hwf) as [Ha Hwf'].
  split; [done|]. split; [done|]. split; [by rewrite Hk|]. split; [by rewrite Hk|].
  split; [by rewrite <- (length_map fst), Hk, length_map|]. eexists. split; [reflexivity|]. split.
  { rewrite dom_insert_lookup_L by done. by rewrite Hk. }
  intros k gs Hg. destruct (Hall k gs Hg) as [[-> ->]|[Hne Hin]].
  - eexists. rewrite lookup_insert_eq. split; [done|]. split; [done|]. rewrite Ha, Hcw. apply lastn_snoc. lia.
  - destruct (Hw _ _ Hin) as (v & ? & ? & ?). exists v. by rewrite lookup_insert_ne by done.
Qed.

Lemma add_first size f : 0 < size -> wf_window size (add (mkWindow [] 0) f size) /\
  contents (add (mkWindow [] 0) f size) = lastn (Z.to_nat size) [f].
Proof.
  intros Hs. destruct (add_contents size (mkWindow [] 0) f Hs) as [H1 H2]; [|done]. unfold wf_window. simpl. lia.
Qed.

(** A new fingerprint over the ones a store keeps. *)
Lemma holds_fresh s size cap h m f :
  0 < size -> NoDup (map fst h) -> Z.of_nat (length h) < cap -> Template f ∉ map fst h ->
  windowSize s = size -> maxKeys s = cap -> keys s = map fst h ++ [Template f] ->
  windows s = Some (<[Template f := add (mkWindow [] 0) f size]> m) -> dom m = list_to_set (map fst h) ->
  (forall k fs, (k, fs) ∈ h -> exists w, m !! k = Some w /\ wf_window size w /\ contents w = lastn (Z.to_nat size) fs) ->
  holds s size cap (h ++ [(Template f, [f])]).
Proof.
  intros Hs Hn Hlt Hf H1 H2 H3 H4 Hd Hw. split; [done|]. split; [done|]. rewrite map_app. split; [done|].
  split; [apply NoDup_app; split; [done|]; split; [set_solver|]; apply NoDup_singleton|].
  split; [rewrite length_app; simpl; lia|]. eexists. split; [exact H4|]. split; [rewrite dom_insert_L, Hd, list_to_set_app_L; simpl; set_solver|].
  intros k fs [Hin|Hin]%elem_of_app.
  - destruct (Hw _ _ Hin) as (w & ? & ?). exists w. rewrite lookup_insert_ne; [done|].
    intros <-. apply Hf. apply list_elem_of_fmap. by exists (Template f, fs).
  - apply list_elem_of_singleton in Hin as [= -> ->]. eexists. rewrite lookup_insert_eq. split; [done|]. by apply add_first.
Qed.

Lemma holds_record s size cap h f :
  0 < size -> 0 < cap -> holds s size cap h -> holds (Record_ s f).1 size cap (record cap h f).
Proof.
  intros Hs Hcap Hh. unfold record. destruct (record_in h f) as [h'|] eqn:E; [by eapply holds_known|].
  apply record_in_none in E. pose proof (holds_size _ _ _ _ Hh) as Hsz.
  destruct Hh as (H1 & H2 & H3 & Hn & Hc & m & Hm & Hd & Hw).
  assert (m !! Template f = None) as Hmf by (apply not_elem_of_dom; rewrite Hd, elem_of_list_to_set; done).
  unfold Record_, initialised, windowFor. rewrite Hm. simpl. rewrite Hm. simpl. rewrite Hmf, H2, (Hsz m Hm).
  destruct (Z.leb_spec cap (Z.of_nat (length h))) as [Hfull|Hroom].
  - destruct h as [|[k fs] h]; [simpl in *; lia|]. rewrite H3. simpl in *. rewrite drop_0.
    apply NoDup_cons in Hn as [Hk Hn]. apply not_elem_of_cons in E as [Hne E].
    eapply (holds_fresh _ _ _ h (delete k m)); simpl; try done; [lia|by rewrite H1, insert_insert_eq|rewrite dom_delete_L, Hd; set_solver|].
    intros k' fs' Hin. destruct (Hw k' fs' ltac:(by right)) as (w & ? & ?). exists w. rewrite lookup_delete_ne; [done|].
    intros <-. apply Hk. apply list_elem_of_fmap. by exists (k, fs').
  - simpl. eapply (holds_fresh _ _ _ h m); simpl; try done; [by rewrite H3|by rewrite H1, insert_insert_eq].
Qed.

Definition recordAll (s : MemoryStore) (fs : list Feedback) : MemoryStore := foldl (fun s f => (Record_ s f).1) s fs.

(** The feedback store summarises the recent past.  Whatever is recorded,
    the statistics of a fingerprint are those of its last windowSize samples
    since it was last inserted, the latest one included; fingerprints leave
    in the order they came once maxKeys are held, and no more are held, nor
    more samples each. *)
Theorem feedback_refines_history (size cap minSamples : Z) (factor : spec_float) (fs : list Feedback) :
  let s0 := NewAdaptiveMemoryStoreWithBounds size cap factor minSamples in
  let s := recordAll s0 fs in
  let h := foldl (record (maxKeys s0)) [] fs in
  (forall tpl, Stats s tpl = statsOf (windowSize s0) h tpl) /\
  keys s = map fst h /\ Z.of_nat (length h) <= maxKeys s0 /\
  (forall m, windows s = Some m -> dom m = list_to_set (keys s)) /\
  (forall tpl st, Stats s tpl = Some st -> Samples st <= windowSize s0).
Proof.
  intros s0 s h. assert (0 < windowSize s0 /\ 0 < maxKeys s0) as [Hs Hc].
  { unfold s0, NewAdaptiveMemoryStoreWithBounds, defaultMaxFingerprintKeys. simpl.
    split; case_match; rewrite ?Z.leb_gt in *; lia. }
  assert (holds s (windowSize s0) (maxKeys s0) h) as Hh.
  { assert (holds s0 (windowSize s0) (maxKeys s0) []) as H0.
    { do 2 (split; [done|]). split; [done|]. split; [apply NoDup_nil_2|]. split; [cbn [length]; clearbody s0; lia|].
      exists ∅. split; [done|]. split; [by rewrite dom_empty_L|]. intros k gs Hin. by apply elem_of_nil in Hin. }
    unfold s, h, recordAll. revert H0. generalize (@nil (string * list Feedback)). generalize s0 at 1 4.
    induction fs as [|f fs IH]; intros s1 h1 H1; [done|]. simpl. apply IH. by apply holds_record. }
  split; [intros tpl; by eapply holds_Stats|]. pose proof Hh as (_ & _ & Hk & _ & Hle & m & Hm & Hd & Hw).
  split; [done|]. split; [done|]. split; [intros m' Hm'; rewrite Hk, <- Hd; congruence|].
  intros tpl st. rewrite (holds_Stats _ _ _ _ _ Hs Hh). unfold statsOf.
  destruct (samplesOf h tpl) as [gs|]; [|done]. intros (l & _ & ->)%fmap_Some. cbn [summary Samples].
  unfold lastn. rewrite length_drop. clearbody s0. lia.
Qed.

Example feedback_forgets_oldest :
  let f n := mkFeedback "q" 0 n 1 in
  let s := recordAll (NewAdaptiveMemoryStoreWithBounds 3 2 (f64 3) 2) [f 1; f 2; f 3; f 4] in
  Stats s "q" = Some (mkStatistics 3 3 1 4 1 0) /\ (Record_ s (f 100)).2 = true /\ (Record_ s (f 9)).2 = false.
Proof. vm_compute. auto. Qed.
