(* ===== verification/Invalidation.v ===== *)
(** What a write invalidates: core/tool/invalidation.go, and the tracker of a
    session's writes of core/tool/routing.go.

    The registry is [None] when nil.  The walk over cascades has fuel, the
    cascades of every entity it can meet; [None] is out of fuel, which
    InvalidationTheorems shows not to happen.  A key without a NUL makes
    physicalDatabase panic. *)

From stdpp Require Import sorting.
From S2P Require Import Prelude GoString Value Relalg Entity Cache Transaction.

(** ** Targets *)

Definition cacheRelation (e : Entity) : string := if EDerived e then "" else RelationKey e.

(** parts[0] + NUL + parts[1] of strings.SplitN(key, NUL, 3) *)
Definition physicalDatabase (e : Entity) : result string :=
  match cut Ascii.zero (RelationKey e) with
  | None => Err Panic
  | Some (server, rest) =>
      Ok (server +:+ NUL +:+ match cut Ascii.zero rest with Some (catalog, _) => catalog | None => rest end)
  end.

Record WriteTargets : Type := mkTargets {
  wt_byEntity : gmap string (list CacheTarget);
  wt_datasources : gmap string (list string);
  wt_physical : gmap string string;
}.

(** The zero Entity of a datasource. *)
Definition bareEntity (datasource : string) : Entity :=
  mkEntity "" "" "" datasource "" "" KindTable [] [] [] [] [] [] (mkMCP false false false) [] PNil [] false "" [] "" [] [] false
    false [] false [].

(** WriteTargets.database, of the map it reads. *)
Definition databaseOf (physical : gmap string string) (datasource : string) : result string :=
  match physical !! datasource with
  | Some database => Ok database
  | None => physicalDatabase (bareEntity datasource)
  end.

(** compactTargets *)
Definition compactTargets (targets : list CacheTarget) : list CacheTarget :=
  let whole := filter (fun t => Relation t = "") targets in
  let shown t := if bool_decide (Physical t ∈ map Physical whole) then mkTarget (Physical t) "" else t in
  foldl (fun out t => if bool_decide (shown t ∈ out) then out else out ++ [shown t]) [] targets.

Section compute.
Context (reg : Registry) (physical : gmap string string).

(** whole: the database of an entity, or of a procedure's datasource. *)
Definition wholeDatabase (e : Entity) : result (list CacheTarget) :=
  db ← (if bool_decide (EKind e = KindProcedure) then databaseOf physical (DatasourceName e) else physicalDatabase e);
  Ok [mkTarget db ""].

(** The entities references name, unless one names none. *)
Definition resolveAll (refs : list string) : option (list Entity) :=
  mapM (fun ref => REntity <$> Resolve reg ref) refs.

(** The loop over the entities left to visit. *)
Fixpoint computeLoop (fuel : nat) (writes : list Entity) (seen : gset string) (targets : list CacheTarget)
  : option (result (list CacheTarget)) :=
  match fuel with
  | O => None
  | S fuel =>
      match writes with
      | [] => Some (Ok (compactTargets targets))
      | e :: writes =>
          if bool_decide (EName e ∈ seen) then computeLoop fuel writes seen targets
          else if ESideEffects e then Some (wholeDatabase e)
          else match physicalDatabase e with
               | Err err => Some (Err err)
               | Ok db =>
                   match resolveAll (map CaEntity (ECascades e)) with
                   | None => Some (wholeDatabase e)
                   | Some children =>
                       computeLoop fuel (writes ++ children) ({[EName e]} ∪ seen)
                         (targets ++ [mkTarget db (cacheRelation e)])
                   end
               end
      end
  end.

(** The entities the walk can meet. *)
Definition universe (writes : list Entity) : list Entity := writes ++ map snd (map_to_list (byName reg)).

Definition computeFuel (writes : list Entity) : nat :=
  S (length writes + sum_list (map (fun e => length (ECascades e)) (universe writes))).

(** What is written first: the entity, or what a procedure affects; [None]
    when it is not known. *)
Definition firstWrites (e : Entity) : option (list Entity) :=
  if bool_decide (EKind e = KindProcedure) then
    match EAffects e with [] => None | refs => resolveAll refs end
  else Some [e].

Definition compute (e : Entity) : result (list CacheTarget) :=
  match firstWrites e with
  | None => wholeDatabase e
  | Some writes => default (Ok []) (computeLoop (computeFuel writes) writes ∅ [])
  end.

End compute.

(** ** The targets of a configuration *)

(** The datasources reaching each database. *)
Definition reach (database datasource : string) (m : gmap string (gset string)) : gmap string (gset string) :=
  <[database := {[datasource]} ∪ default ∅ (m !! database)]> m.

Definition physicalStep (acc : gmap string string * gmap string (gset string)) (e : Entity)
  : result (gmap string string * gmap string (gset string)) :=
  if bool_decide (EKind e = KindProcedure) then Ok acc
  else
    db ← physicalDatabase e;
    Ok (<[DatasourceName e := db]> acc.1, reach db (DatasourceName e) acc.2).

(** The datasources that serve only procedures. *)
Definition procedureStep (acc : gmap string string * gmap string (gset string)) (e : Entity)
  : result (gmap string string * gmap string (gset string)) :=
  match acc.1 !! DatasourceName e with
  | Some _ => Ok acc
  | None =>
      db ← databaseOf acc.1 (DatasourceName e);
      Ok (<[DatasourceName e := db]> acc.1, reach db (DatasourceName e) acc.2)
  end.

Fixpoint foldM {A B} (f : B -> A -> result B) (acc : B) (l : list A) : result B :=
  match l with [] => Ok acc | x :: l => acc ← f acc x; foldM f acc l end.

Definition sortStrings (s : gset string) : list string := merge_sort (fun a b => Is_true (String.leb a b)) (elements s).

Definition BuildWriteTargets (reg : option Registry) : result WriteTargets :=
  match reg with
  | None => Ok (mkTargets ∅ ∅ ∅)
  | Some reg =>
      acc ← foldM physicalStep (∅, ∅) (entities reg);
      '(physical, reaching) ← foldM procedureStep acc (entities reg);
      byEntity ← foldM (fun m e => ts ← compute reg physical e; Ok (<[EName e := ts]> m)) ∅ (entities reg);
      Ok (mkTargets byEntity (sortStrings <$> reaching) physical)
  end.

(** ** The tracker of writes *)

Record WriteTracker : Type := mkTracker {
  tr_until : gmap string (gmap string Z);
  tr_lastPrune : Z;
}.

(** time.Duration counts nanoseconds. *)
Definition maxTrackedWindow : Z := 3600 * 1000000000.
Definition pruneInterval : Z := 60 * 1000000000.

Definition NewWriteTracker (zeroTime : Z) : WriteTracker := mkTracker ∅ zeroTime.

Definition expireWindows (now : Z) (byDatasource : gmap string Z) : gmap string Z :=
  filter (fun du => now < du.2) byDatasource.

Definition RecordWrite (now : Z) (session datasource : string) (window : Z) (w : WriteTracker) : WriteTracker :=
  if window <=? 0 then w
  else
    let byDatasource := expireWindows now (default ∅ (tr_until w !! session)) in
    let byDatasource := <[datasource := now + Z.min window maxTrackedWindow]> byDatasource in
    let until := <[session := byDatasource]> (tr_until w) in
    if pruneInterval <=? now - tr_lastPrune w
    then mkTracker (filter (fun sd => sd.2 <> ∅) (expireWindows now <$> until)) now
    else mkTracker until (tr_lastPrune w).

Definition Recent (now : Z) (session datasource : string) (w : WriteTracker) : bool :=
  match default ∅ (tr_until w !! session) !! datasource with Some until => now <? until | None => false end.

Definition Wrote (now : Z) (session : string) (w : WriteTracker) : bool :=
  existsb (fun du => now <? du.2) (map_to_list (default ∅ (tr_until w !! session))).

Definition Forget (session : string) (w : WriteTracker) : WriteTracker :=
  mkTracker (delete session (tr_until w)) (tr_lastPrune w).

(** ** Following a write *)

Section follow.
Context {V : Type}.

Fixpoint invalidate (targets : list CacheTarget) (c : TTLCache V) : result (TTLCache V) :=
  match targets with
  | [] => Ok c
  | t :: targets => c ← Cache.Invalidate (Physical t) (Relation t) c; invalidate targets c
  end.

(** The reads of the session through the datasources reaching the databases
    written follow the write; [window] is a datasource's ReadAfterWrite. *)
Fixpoint recordWrites (now : Z) (session : string) (window : string -> Z) (w : WriteTargets) (recorded : gset string)
    (targets : list CacheTarget) (tr : WriteTracker) : WriteTracker :=
  match targets with
  | [] => tr
  | t :: targets =>
      if bool_decide (Physical t ∈ recorded) then recordWrites now session window w recorded targets tr
      else recordWrites now session window w ({[Physical t]} ∪ recorded) targets
             (foldl (fun tr d => RecordWrite now session d (window d) tr) tr (default [] (wt_datasources w !! Physical t)))
  end.

Definition applyWrite (now : Z) (session : string) (window : string -> Z) (w : WriteTargets) (targets : list CacheTarget)
    (tr : WriteTracker) (c : TTLCache V) : result (WriteTracker * TTLCache V) :=
  c ← invalidate targets c;
  Ok (recordWrites now session window w ∅ targets tr, c).

(** The targets of a write through [e]: those of the configuration, or worked
    out for an entity it does not have. *)
Definition targetsOf (reg : Registry) (w : WriteTargets) (e : Entity) : result (list CacheTarget) :=
  match wt_byEntity w !! EName e with
  | Some targets => Ok targets
  | None => compute reg (wt_physical w) e
  end.

(** afterWrite outside a transaction; inside one the targets are marked on
    the handle ([Transaction.markDirty]). *)
Definition afterWrite (now : Z) (session : string) (window : string -> Z) (reg : Registry) (w : WriteTargets) (e : Entity)
    (tr : WriteTracker) (c : TTLCache V) : result (WriteTracker * TTLCache V) :=
  targets ← targetsOf reg w e;
  applyWrite now session window w targets tr c.

End follow.
