(* ===== verification/InvalidationTheorems.v ===== *)
(** What a write invalidates covers what it may change: the walk over cascades
    ends, reaches everything they reach, and the cached reads of all of it are
    gone once the write is followed. *)

From stdpp Require Import sorting.
From S2P Require Import Prelude GoString Value Relalg Entity EntityFacts ExpiryHeap Cache CacheTheorems Rbac RbacTheorems Transaction Invalidation.

(** ** Cascades *)

(** The entity a cascade of [e] names. *)
Definition cascades (reg : Registry) (e x : Entity) : Prop :=
  exists c r, c ∈ ECascades e /\ Resolve reg (CaEntity c) = Some r /\ x = REntity r.

Inductive reaches (reg : Registry) : Entity -> Entity -> Prop :=
  | reaches_refl e : reaches reg e e
  | reaches_step e x y : reaches reg e x -> cascades reg x y -> reaches reg e y.

Section walk.
Context (reg : Registry) (physical : gmap string string).

Lemma resolveAll_elem refs ch x :
  resolveAll reg refs = Some ch -> x ∈ ch <-> exists ref r, ref ∈ refs /\ Resolve reg ref = Some r /\ x = REntity r.
Proof.
  unfold resolveAll. intros H%mapM_Some. revert H. induction 1 as [|ref y refs ch Hy H IH].
  { split; [intros []%not_elem_of_nil|intros (ref & r & Hin & _); by apply not_elem_of_nil in Hin]. }
  rewrite elem_of_cons, IH. apply fmap_Some in Hy as (r & Hr & ->). split.
  - intros [->|(ref' & r' & Hin & ?)]; [exists ref, r; split; [left|done]|exists ref', r'; split; [by right|done]].
  - intros (ref' & r' & [->|Hin]%elem_of_cons & Hr' & ->); [left; congruence|right; eauto].
Qed.

Lemma children_cascades e ch x :
  resolveAll reg (map CaEntity (ECascades e)) = Some ch -> x ∈ ch <-> cascades reg e x.
Proof.
  intros H. rewrite (resolveAll_elem _ _ _ H). unfold cascades. split.
  - intros (ref & r & (c & -> & Hc)%list_elem_of_fmap & Hr & ->). eauto.
  - intros (c & r & Hc & Hr & ->). exists (CaEntity c), r. split; [|done]. apply list_elem_of_fmap. eauto.
Qed.

(** ** The walk ends *)

Definition casc (e : Entity) : nat := length (ECascades e).

Definition unseen (seen : gset string) (U : list Entity) : list nat :=
  map (fun e => if bool_decide (EName e ∈ seen) then 0%nat else casc e) U.

Lemma unseen_mono seen n U : (sum_list (unseen ({[n]} ∪ seen) U) <= sum_list (unseen seen U))%nat.
Proof.
  induction U as [|e U IH]; simpl; [lia|]. repeat case_bool_decide; try set_solver; lia.
Qed.

Lemma unseen_drop seen e U :
  e ∈ U -> EName e ∉ seen -> (sum_list (unseen ({[EName e]} ∪ seen) U) + casc e <= sum_list (unseen seen U))%nat.
Proof.
  induction U as [|y U IH]; intros Hin Hs; [by apply not_elem_of_nil in Hin|]. simpl.
  apply elem_of_cons in Hin as [<-|Hin].
  - rewrite bool_decide_eq_true_2 by set_solver. rewrite bool_decide_eq_false_2 by done.
    pose proof (unseen_mono seen (EName e) U). lia.
  - specialize (IH Hin Hs). repeat case_bool_decide; try set_solver; lia.
Qed.

Lemma Resolve_byName ref r : Resolve reg ref = Some r -> exists n, byName reg !! n = Some (REntity r).
Proof.
  unfold Resolve. destruct (byName reg !! ref) eqn:E; [intros [= <-]; eauto|].
  destruct (default [] (byRef reg !! ref)) as [|n [|]]; [done| |done].
  intros (e & He & [= <-])%bind_Some. eauto.
Qed.

Lemma resolved_universe writes refs ch :
  resolveAll reg refs = Some ch -> ch ⊆ universe reg writes.
Proof.
  intros H x Hx. apply (resolveAll_elem _ _ _ H) in Hx as (ref & r & _ & Hr & ->).
  apply Resolve_byName in Hr as [n Hn]. unfold universe. apply elem_of_app. right.
  apply list_elem_of_fmap. exists (n, REntity r). split; [done|]. by apply elem_of_map_to_list.
Qed.

Lemma length_resolveAll refs ch : resolveAll reg refs = Some ch -> length ch = length refs.
Proof. intros H%mapM_Some. symmetry. by eapply Forall2_length. Qed.

Lemma computeLoop_ends writes0 fuel : forall writes seen targets,
  writes ⊆ universe reg writes0 ->
  (length writes + sum_list (unseen seen (universe reg writes0)) < fuel)%nat ->
  is_Some (computeLoop reg physical fuel writes seen targets).
Proof.
  induction fuel as [|fuel IH]; intros writes seen targets Hsub Hlt; [lia|]. cbn [computeLoop].
  destruct writes as [|e writes]; [eauto|]. simpl in Hlt. case_bool_decide as Hs.
  { apply IH; [set_solver|lia]. }
  destruct (ESideEffects e); [eauto|]. destruct (physicalDatabase e); [|eauto].
  destruct (resolveAll reg (map CaEntity (ECascades e))) as [ch|] eqn:E; [|eauto].
  pose proof (unseen_drop seen e (universe reg writes0) ltac:(set_solver) Hs) as Hd.
  apply IH.
  - pose proof (resolved_universe writes0 _ _ E). set_solver.
  - rewrite length_app, (length_resolveAll _ _ E), length_map. unfold casc in Hd. lia.
Qed.

Lemma unseen_empty U : unseen ∅ U = map casc U.
Proof. unfold unseen. apply map_ext. intros e. by rewrite bool_decide_eq_false_2 by set_solver. Qed.

Lemma firstWrites_some e : firstWrites reg e = Some [] -> False.
Proof.
  unfold firstWrites. case_bool_decide; [|done]. destruct (EAffects e) as [|r rs]; [done|].
  intros H1%length_resolveAll. done.
Qed.

Lemma compute_total e writes :
  firstWrites reg e = Some writes ->
  exists r, computeLoop reg physical (computeFuel reg writes) writes ∅ [] = Some r /\ compute reg physical e = r.
Proof.
  intros Hw. unfold compute. rewrite Hw.
  destruct (computeLoop_ends writes (computeFuel reg writes) writes ∅ []) as [r Hr].
  - unfold universe. set_solver.
  - rewrite unseen_empty. unfold computeFuel, casc. lia.
  - exists r. by rewrite Hr.
Qed.

(** ** What it covers *)

(** The cached reads of [x] in [db] are among the targets' reads. *)
Definition covered (targets : list CacheTarget) (db relation : string) : Prop :=
  exists t, t ∈ targets /\ Physical t = db /\ (Relation t = "" \/ Relation t = relation).

Lemma compact_covered targets db relation :
  mkTarget db relation ∈ targets -> covered (compactTargets targets) db relation.
Proof.
  unfold compactTargets. set (whole := filter _ targets).
  set (shown t := if bool_decide (Physical t ∈ map Physical whole) then mkTarget (Physical t) "" else t).
  assert (forall l out, (forall t, t ∈ out \/ t ∈ map shown l ->
    t ∈ foldl (fun out t => if bool_decide (shown t ∈ out) then out else out ++ [shown t]) out l)) as Hfold.
  { induction l as [|x l IH]; intros out t; simpl; [intros [?|[]%not_elem_of_nil]; done|].
    intros Ht. apply IH. rewrite elem_of_cons in Ht. case_bool_decide; set_solver. }
  intros Hin. exists (shown (mkTarget db relation)). split.
  - apply Hfold. right. apply list_elem_of_fmap. eauto.
  - unfold shown. case_bool_decide; simpl; auto.
Qed.

(** Entities seen: registered, in [db], their target kept and what they
    cascade to seen or left to visit. *)
Definition visited (db : string) (writes : list Entity) (seen : gset string) (targets : list CacheTarget) : Prop :=
  forall n, n ∈ seen -> exists e ch, byName reg !! n = Some e /\ mkTarget db (cacheRelation e) ∈ targets /\
    resolveAll reg (map CaEntity (ECascades e)) = Some ch /\ forall x, x ∈ ch -> EName x ∈ seen \/ x ∈ writes.

Definition registered (e : Entity) : Prop := byName reg !! EName e = Some e.

Context (Hreg : registry_ok reg).

Lemma cascades_registered e x : cascades reg e x -> registered x.
Proof using Hreg. intros (c & r & _ & Hr & ->). by eapply Resolve_entity. Qed.

(** The outcome of the walk: everything in the database, or the targets of a
    closed set of entities. *)
Definition closed_result (db : string) (writes : list Entity) (seen : gset string) (ts : list CacheTarget) : Prop :=
  ts = [mkTarget db ""] \/
  exists seen' targets', ts = compactTargets targets' /\ visited db [] seen' targets' /\ seen ⊆ seen' /\
    forall x, x ∈ writes -> EName x ∈ seen'.

Lemma computeLoop_spec db fuel : forall writes seen targets ts,
  (forall x, x ∈ writes -> registered x) ->
  (forall x z, x ∈ writes -> reaches reg x z -> EKind z <> KindProcedure /\ physicalDatabase z = Ok db) ->
  visited db writes seen targets ->
  computeLoop reg physical fuel writes seen targets = Some (Ok ts) -> closed_result db writes seen ts.
Proof using Hreg.
  induction fuel as [|fuel IH]; intros writes seen targets ts Hw Hdb Hv Hc; [done|]. cbn [computeLoop] in Hc.
  destruct writes as [|e writes].
  { injection Hc as <-. right. exists seen, targets. split; [done|]. split; [done|]. split; [done|].
    intros x []%not_elem_of_nil. }
  destruct (Hdb e e ltac:(left) ltac:(constructor)) as [Hk Hd].
  assert (wholeDatabase physical e = Ok [mkTarget db ""]) as Hwhole.
  { unfold wholeDatabase. rewrite bool_decide_eq_false_2 by done. by rewrite Hd. }
  rewrite Hwhole, Hd in Hc. case_bool_decide as Hs.
  - destruct (IH writes seen targets ts) as [->|(s' & t' & Hts & Hv' & Hsub & Hall)]; [set_solver| | |done|by left|].
    + intros x z Hx. apply Hdb. by right.
    + intros n Hn. destruct (Hv n Hn) as (e' & ch & ? & ? & ? & Hch). exists e', ch. split_and!; try done.
      intros x Hx. destruct (Hch x Hx) as [?|[->|?]%elem_of_cons]; auto.
    + right. exists s', t'. split_and!; try done. intros x [->|?]%elem_of_cons; auto.
  - destruct (ESideEffects e); [injection Hc as <-; by left|].
    destruct (resolveAll reg (map CaEntity (ECascades e))) as [ch|] eqn:E; [|injection Hc as <-; by left].
    destruct (IH (writes ++ ch) ({[EName e]} ∪ seen) (targets ++ [mkTarget db (cacheRelation e)]) ts)
      as [->|(s' & t' & Hts & Hv' & Hsub & Hall)]; [| | |exact Hc|by left|].
    + intros x [Hx|Hx]%elem_of_app; [apply Hw; by right|].
      apply (children_cascades _ _ _ E) in Hx. by eapply cascades_registered.
    + intros x z [Hx|Hx]%elem_of_app Hr; [eapply Hdb; [right; done|done]|].
      apply (children_cascades _ _ _ E) in Hx. apply (Hdb e z); [left|].
      clear -Hx Hr. induction Hr as [|x y z Hr IH Hc]; [|by eapply reaches_step; [apply IH|]].
      eapply reaches_step; [constructor|done].
    + intros n [->%elem_of_singleton|Hn]%elem_of_union.
      * exists e, ch. split; [apply Hw; left|]. split; [set_solver|]. split; [done|]. set_solver.
      * destruct (Hv n Hn) as (e' & ch' & ? & ? & ? & Hch). exists e', ch'. split; [done|]. split; [set_solver|]. split; [done|].
        intros x Hx. destruct (Hch x Hx) as [?|[->|?]%elem_of_cons]; set_solver.
    + right. exists s', t'. split_and!; try done; [set_solver|].
      intros x [->|?]%elem_of_cons; [set_solver|]. apply Hall. set_solver.
Qed.

Lemma closed_covers db writes ts y x :
  closed_result db writes ∅ ts -> y ∈ writes -> registered y -> reaches reg y x -> covered ts db (cacheRelation x).
Proof using Hreg.
  intros [->|(seen & targets & -> & Hv & _ & Hall)] Hy Hry Hr.
  { exists (mkTarget db ""). split; [left|]. simpl. auto. }
  assert (EName x ∈ seen /\ registered x) as [Hx Hrx].
  { induction Hr as [|y z x Hr IH Hc]; [by auto|]. destruct (IH Hy Hry) as [Hz Hrz].
    destruct (Hv _ Hz) as (e & ch & He & _ & Hch & Hall'). unfold registered in Hrz. assert (e = z) as -> by congruence.
    split; [|by eapply cascades_registered].
    destruct (Hall' x) as [?|[]%not_elem_of_nil]; [|done]. by apply (children_cascades _ _ _ Hch). }
  destruct (Hv _ Hx) as (e & ch & He & Ht & _). unfold registered in Hrx. assert (e = x) as -> by congruence.
  by apply compact_covered.
Qed.

End walk.

(** ** The tracker *)

Definition windowOf (tr : WriteTracker) (session datasource : string) : option Z :=
  default ∅ (tr_until tr !! session) !! datasource.

(** A window that has not ended. *)
Definition live (now : Z) (until : option Z) : option Z :=
  match until with Some u => if now <? u then Some u else None | None => None end.

Lemma expireWindows_lookup now m d : expireWindows now m !! d = live now (m !! d).
Proof.
  unfold expireWindows, live. destruct (m !! d) as [u|] eqn:E.
  - destruct (Z.ltb_spec now u).
    + apply map_lookup_filter_Some. auto.
    + apply map_lookup_filter_None. right. intros u' Hu. simpl. assert (u' = u) by congruence. lia.
  - apply map_lookup_filter_None. by left.
Qed.

Lemma live_live now o : live now (live now o) = live now o.
Proof. destruct o as [u|]; [|done]. simpl. destruct (now <? u) eqn:E; simpl; by rewrite ?E. Qed.

Lemma live_later now now' o : now <= now' -> live now' (live now o) = live now' o.
Proof.
  intros Hle. destruct o as [u|]; [|done]. simpl. destruct (Z.ltb_spec now u); [done|]. simpl.
  destruct (Z.ltb_spec now' u); [lia|done].
Qed.

Lemma prune_window now tr s d :
  live now (windowOf (mkTracker (filter (fun sd => sd.2 <> ∅) (expireWindows now <$> tr_until tr)) now) s d) =
  live now (windowOf tr s d).
Proof.
  unfold windowOf. simpl. destruct (tr_until tr !! s) as [m|] eqn:E; simpl.
  - destruct (decide (expireWindows now m = ∅)) as [He|Hne].
    + assert (filter (fun sd => sd.2 <> ∅) (expireWindows now <$> tr_until tr) !! s = None) as ->.
      { apply map_lookup_filter_None. right. intros x. rewrite lookup_fmap, E. intros [= <-]. simpl. auto. }
      simpl. rewrite lookup_empty. rewrite <- (live_live now (m !! d)), <- expireWindows_lookup, He, lookup_empty. done.
    + assert (filter (fun sd => sd.2 <> ∅) (expireWindows now <$> tr_until tr) !! s = Some (expireWindows now m)) as ->.
      { apply map_lookup_filter_Some. rewrite lookup_fmap, E. auto. }
      simpl. by rewrite expireWindows_lookup, live_live.
  - assert (filter (fun sd => sd.2 <> ∅) (expireWindows now <$> tr_until tr) !! s = None) as ->; [|by simpl].
    apply map_lookup_filter_None. left. by rewrite lookup_fmap, E.
Qed.

(** What a record does to the windows that have not ended. *)
Lemma record_window now s d w tr s' d' :
  live now (windowOf (RecordWrite now s d w tr) s' d') =
  live now (if bool_decide (s' = s /\ d' = d) && (0 <? w) then Some (now + Z.min w maxTrackedWindow) else windowOf tr s' d').
Proof.
  unfold RecordWrite. destruct (Z.leb_spec w 0) as [Hw|Hw].
  { destruct (Z.ltb_spec 0 w); [lia|]. by rewrite andb_false_r. }
  destruct (Z.ltb_spec 0 w); [|lia]. rewrite andb_true_r.
  set (m := <[d := _]> _). set (tr1 := mkTracker (<[s := m]> (tr_until tr)) (tr_lastPrune tr)).
  assert (live now (windowOf tr1 s' d') = live now (if bool_decide (s' = s /\ d' = d)
            then Some (now + Z.min w maxTrackedWindow) else windowOf tr s' d')) as Hu.
  { unfold windowOf, tr1. simpl. destruct (decide (s' = s)) as [->|Hs].
    - rewrite lookup_insert_eq. simpl. unfold m. destruct (decide (d' = d)) as [->|Hd].
      + by rewrite lookup_insert_eq, bool_decide_eq_true_2.
      + rewrite lookup_insert_ne by done. rewrite bool_decide_eq_false_2 by naive_solver.
        by rewrite expireWindows_lookup, live_live.
    - rewrite lookup_insert_ne by done. by rewrite bool_decide_eq_false_2 by naive_solver. }
  destruct (pruneInterval <=? now - tr_lastPrune tr); [|exact Hu].
  rewrite <- Hu. apply (prune_window now tr1).
Qed.

Lemma Recent_live now s d tr : Recent now s d tr = bool_decide (is_Some (live now (windowOf tr s d))).
Proof.
  unfold Recent. fold (windowOf tr s d). destruct (windowOf tr s d) as [u|]; [|done]. simpl. by destruct (now <? u).
Qed.

(** Calls of the tracker. *)
Inductive trackOp : Type := ORecord (now : Z) (session datasource : string) (window : Z) | OForget (session : string).

Definition trackStep (tr : WriteTracker) (o : trackOp) : WriteTracker :=
  match o with ORecord now s d w => RecordWrite now s d w tr | OForget s => Forget s tr end.

(** The end of the window of the last write of a session to a datasource. *)
Definition lastWindow (s d : string) (until : option Z) (o : trackOp) : option Z :=
  match o with
  | ORecord now s' d' w => if bool_decide (s = s' /\ d = d') && (0 <? w) then Some (now + Z.min w maxTrackedWindow) else until
  | OForget s' => if bool_decide (s = s') then None else until
  end.

(** The clock does not go back, and [now] is after every call. *)
Fixpoint clocked (t : Z) (ops : list trackOp) (now : Z) : Prop :=
  match ops with
  | [] => t <= now
  | ORecord t' _ _ _ :: ops => t <= t' /\ clocked t' ops now
  | OForget _ :: ops => clocked t ops now
  end.

(** A session's reads of a datasource follow exactly its last write there
    within its window: pruning, other sessions' writes and ended windows
    change nothing. *)
Theorem reads_follow_last_write (zero t now : Z) (ops : list trackOp) (s d : string) :
  clocked t ops now ->
  Recent now s d (foldl trackStep (NewWriteTracker zero) ops) =
    match foldl (lastWindow s d) None ops with Some until => now <? until | None => false end.
Proof.
  intros Hc. rewrite Recent_live.
  assert (live now (windowOf (foldl trackStep (NewWriteTracker zero) ops) s d) = live now (foldl (lastWindow s d) None ops)) as ->.
  2:{ destruct (foldl (lastWindow s d) None ops) as [u|]; [|done]. simpl. by destruct (now <? u). }
  assert (forall tr o, live t (windowOf tr s d) = live t o ->
    live now (windowOf (foldl trackStep tr ops) s d) = live now (foldl (lastWindow s d) o ops)) as Hall.
  { revert t Hc. induction ops as [|[t' s' d' w|s'] ops IH]; intros t Hc tr o Ho; simpl in *.
    - rewrite <- (live_later t now) by done. rewrite Ho. by apply live_later.
    - destruct Hc as [Hle Hc]. apply (IH t' Hc). rewrite record_window. case_match; [done|].
      rewrite <- (live_later t t') by done. rewrite Ho. by apply live_later.
    - apply (IH t Hc). unfold windowOf, Forget. simpl. case_bool_decide as E.
      + subst. rewrite lookup_delete_eq. simpl. by rewrite lookup_empty.
      + by rewrite lookup_delete_ne by congruence. }
  apply Hall. done.
Qed.

(** ** The targets of a configuration *)

Lemma foldM_ok {A B} (f : B -> A -> result B) (P : list A -> B -> Prop) l : forall acc acc',
  (forall done x acc acc', P done acc -> f acc x = Ok acc' -> P (done ++ [x]) acc') ->
  P [] acc -> foldM f acc l = Ok acc' -> P l acc'.
Proof.
  intros acc acc' Hstep H0. assert (forall pre, P pre acc -> foldM f acc l = Ok acc' -> P (pre ++ l) acc') as Hall; [|exact (Hall [] H0)].
  clear H0. revert acc. induction l as [|x l IH]; intros acc pre Hp Hf; simpl in Hf.
  - injection Hf as <-. by rewrite app_nil_r.
  - apply bind_ok in Hf as (acc1 & E & Hf). rewrite cons_middle, app_assoc. eapply IH; [|done]. by eapply Hstep.
Qed.

Definition reachedBy (m : gmap string (gset string)) (db d : string) : Prop := d ∈ default ∅ (m !! db).

Lemma reach_mono m db d db' d' : reachedBy m db' d' -> reachedBy (reach db d m) db' d'.
Proof.
  unfold reachedBy, reach. destruct (decide (db' = db)) as [->|?]; [rewrite lookup_insert_eq; set_solver|by rewrite lookup_insert_ne].
Qed.

Lemma reach_here m db d : reachedBy (reach db d m) db d.
Proof. unfold reachedBy, reach. rewrite lookup_insert_eq. set_solver. Qed.

Lemma build_spec reg w :
  registry_ok reg -> BuildWriteTargets (Some reg) = Ok w ->
  (forall e, e ∈ entities reg -> exists ts, wt_byEntity w !! EName e = Some ts /\ compute reg (wt_physical w) e = Ok ts) /\
  (forall z db, z ∈ entities reg -> EKind z <> KindProcedure -> physicalDatabase z = Ok db ->
     DatasourceName z ∈ default [] (wt_datasources w !! db)).
Proof.
  intros Hok Hb. unfold BuildWriteTargets in Hb. apply bind_ok in Hb as (acc & E1 & Hb).
  apply bind_ok in Hb as ([ph rs] & E2 & Hb). apply bind_ok in Hb as (be & E3 & Hb). injection Hb as <-. simpl. split.
  - revert E3. pose proof (ok_names _ Hok) as Hnd. revert Hnd. generalize (entities reg). intros es Hnd E3.
    refine (foldM_ok _ (fun pre m => NoDup (EName <$> pre) -> forall e, e ∈ pre ->
      exists ts, m !! EName e = Some ts /\ compute reg ph e = Ok ts) es ∅ be _ _ E3 Hnd).
    + intros pre x m m' IH Hm Hn e He. apply bind_ok in Hm as (ts & Hts & Hm). injection Hm as <-.
      rewrite fmap_app in Hn. apply NoDup_app in Hn as (Hn & Hdis & _).
      apply elem_of_app in He as [He|[->|[]%not_elem_of_nil]%elem_of_cons].
      * rewrite lookup_insert_ne; [by apply IH|]. intros Heq. apply (Hdis (EName e)); [apply list_elem_of_fmap; eauto|set_solver].
      * exists ts. by rewrite lookup_insert_eq.
    + intros _ e []%not_elem_of_nil.
  - intros z db Hz Hk Hd. assert (reachedBy rs db (DatasourceName z)) as Hr.
    { assert (reachedBy acc.2 db (DatasourceName z)) as Hr.
      { refine (foldM_ok _ (fun pre a => forall z, z ∈ pre -> EKind z <> KindProcedure -> forall db, physicalDatabase z = Ok db ->
          reachedBy a.2 db (DatasourceName z)) _ _ acc _ _ E1 z Hz Hk db Hd); [|by intros ? ?%not_elem_of_nil].
        intros pre x a a' IH Hs y Hy Hky dby Hdy. unfold physicalStep in Hs.
        apply elem_of_app in Hy as [Hy|[->|[]%not_elem_of_nil]%elem_of_cons].
        - case_bool_decide; [injection Hs as <-; eauto|]. apply bind_ok in Hs as (db1 & ? & Hs). injection Hs as <-. simpl.
          apply reach_mono. eauto.
        - rewrite bool_decide_eq_false_2, Hdy in Hs by done. injection Hs as <-. apply reach_here. }
      refine (foldM_ok procedureStep (fun _ a => reachedBy a.2 db (DatasourceName z)) _ acc (ph, rs) _ Hr E2).
      intros pre x a a' IH Hs. unfold procedureStep in Hs. case_match; [by injection Hs as <-|].
      apply bind_ok in Hs as (db1 & ? & Hs). injection Hs as <-. simpl. by apply reach_mono. }
    unfold reachedBy in Hr. rewrite lookup_fmap. destruct (rs !! db) as [s|]; simpl in *; [|set_solver].
    unfold sortStrings. rewrite merge_sort_Permutation. by apply elem_of_elements.
Qed.

(** ** The cache and the tracker after a write *)

Lemma Recent_record now s d w tr : 0 < w -> Recent now s d (RecordWrite now s d w tr) = true.
Proof.
  intros Hw. rewrite Recent_live, record_window. apply bool_decide_eq_true_2. rewrite bool_decide_eq_true_2 by done.
  rewrite (proj2 (Z.ltb_lt 0 w) Hw). simpl. rewrite (proj2 (Z.ltb_lt now _)); [done|]. unfold maxTrackedWindow. lia.
Qed.

Lemma Recent_keeps now s d s' d' w tr : Recent now s d tr = true -> Recent now s d (RecordWrite now s' d' w tr) = true.
Proof.
  rewrite !Recent_live. rewrite record_window. intros H. case_match eqn:E; [|done].
  apply andb_true_iff in E as [_ Hw%Z.ltb_lt]. simpl. rewrite (proj2 (Z.ltb_lt now _)); [done|]. unfold maxTrackedWindow. lia.
Qed.

(** A session's writes to several datasources at once. *)
Definition recordEach (now : Z) (s : string) (window : string -> Z) (tr : WriteTracker) (ds : list string) : WriteTracker :=
  foldl (fun tr d => RecordWrite now s d (window d) tr) tr ds.

Lemma Recent_eachKeeps now s window ds : forall tr d,
  Recent now s d tr = true -> Recent now s d (recordEach now s window tr ds) = true.
Proof. induction ds as [|x ds IH]; intros tr d Hr; simpl; [done|]. apply IH. by apply Recent_keeps. Qed.

Lemma Recent_each now s window ds : forall tr d,
  d ∈ ds -> 0 < window d -> Recent now s d (recordEach now s window tr ds) = true.
Proof.
  induction ds as [|x ds IH]; intros tr d Hin Hw; [by apply not_elem_of_nil in Hin|]. simpl.
  apply elem_of_cons in Hin as [->|Hin]; [|by apply IH]. apply Recent_eachKeeps. by apply Recent_record.
Qed.

Lemma recordWrites_keeps now s window w targets : forall recorded tr d,
  Recent now s d tr = true -> Recent now s d (recordWrites now s window w recorded targets tr) = true.
Proof.
  induction targets as [|t targets IH]; intros recorded tr d Hr; simpl; [done|].
  case_bool_decide; apply IH; [done|]. by apply Recent_eachKeeps.
Qed.

Lemma recordWrites_recent now s window w targets : forall recorded tr t d,
  t ∈ targets -> Physical t ∉ recorded -> d ∈ default [] (wt_datasources w !! Physical t) -> 0 < window d ->
  Recent now s d (recordWrites now s window w recorded targets tr) = true.
Proof.
  induction targets as [|x targets IH]; intros recorded tr t d Hin Hrec Hd Hw; [by apply not_elem_of_nil in Hin|]. simpl.
  destruct (decide (Physical x = Physical t)) as [Heq|Hne].
  - rewrite Heq, bool_decide_eq_false_2 by done. apply recordWrites_keeps. by apply Recent_each.
  - apply elem_of_cons in Hin as [->|Hin]; [done|]. case_bool_decide; eapply IH; eauto. set_solver.
Qed.

Section cache.
Context {V : Type}.
Implicit Types c : TTLCache V.

(** Invalidating targets succeeds, and leaves no entry they cover. *)
Lemma invalidate_spec targets : forall c, cacheOk c -> withinCaps c ->
  exists c', invalidate targets c = Ok c' /\ c_m c' ⊆ c_m c /\
    (forall db, Stamp db c <= Stamp db c') /\
    (forall t, t ∈ targets -> Stamp (Physical t) c < Stamp (Physical t) c' /\
       forall k, CacheTheorems.covers (Physical t, Relation t) k -> c_m c' !! k = None).
Proof.
  induction targets as [|t targets IH]; intros c Hc Hw; simpl.
  { exists c. split; [done|]. split; [done|]. split; [done|]. intros t []%not_elem_of_nil. }
  destruct (Invalidate_ok (Physical t) (Relation t) c Hc Hw) as (c1 & -> & Hc1 & Hw1 & Hs1 & Hsub1 & Hcov). simpl.
  destruct (IH c1 Hc1 Hw1) as (c' & -> & Hsub & Hs & Hall). exists c'. split; [done|]. split; [by etrans|].
  assert (forall db, Stamp db c <= Stamp db c1) as Hle.
  { intros db. unfold Stamp. rewrite Hs1. destruct (decide (db = Physical t)) as [->|?];
      [rewrite lookup_insert_eq; simpl; unfold Stamp; lia|by rewrite lookup_insert_ne]. }
  split; [intros db; specialize (Hle db); specialize (Hs db); lia|].
  intros x [->|Hx]%elem_of_cons.
  - split; [|intros k Hk; apply (Hcov k) in Hk; by eapply lookup_weaken_None].
    specialize (Hs (Physical t)). enough (Stamp (Physical t) c < Stamp (Physical t) c1) by lia.
    unfold Stamp at 2. rewrite Hs1, lookup_insert_eq. simpl. lia.
  - destruct (Hall x Hx) as [? ?]. specialize (Hle (Physical x)). split; [lia|done].
Qed.


End cache.

(** ** A shop: deleting an order cascades to its items *)

Definition shopEntity (name : string) (cs : list Cascade) : Entity :=
  mkEntity (ID "main" "" name) name name "main" "" "" KindTable [] [] [] [] [] [] (mkMCP true false false) [] PNil [] false "" []
    "" [] cs false false [] false [].

Definition shopOrders : Entity :=
  shopEntity "orders" [mkCascade "" "items" "" "main.items" ["id"%string] ["order_id"%string] "cascade" "no_action"].
Definition shopItems : Entity := shopEntity "items" [].
Definition shop : list Entity := [shopOrders; shopItems].
Definition shopDatabase : string := "datasource:main" +:+ NUL.

Definition shopRegistry : Registry := match NewRegistry shop with Ok r => r | Err _ => emptyRegistry end.
Definition shopTargets : WriteTargets :=
  match BuildWriteTargets (Some shopRegistry) with Ok w => w | Err _ => mkTargets ∅ ∅ ∅ end.
Definition shopCache : TTLCache Z := match NewTTLCache 60 10 with Ok c => c | Err _ => mkCache 0 0 0 0 ∅ ∅ ([], ∅) ∅ end.

(** A cached read of the items. *)
Definition itemsKey : Key :=
  Cache.mkKey shopDatabase (cacheRelation shopItems) "main" 1 "SELECT" "" "role".
Definition shopFilled : TTLCache Z :=
  match SetSized 0 itemsKey 7 0 1 shopCache with Ok c => c | Err _ => shopCache end.

Example order_write_drops_items :
  bool_decide (is_Some (c_m shopFilled !! itemsKey)) = true /\
  match afterWrite 5 "s" (fun _ => 10) shopRegistry shopTargets shopOrders (NewWriteTracker 0) shopFilled with
  | Ok (tr, c) => c_m c !! itemsKey = None /\ Recent 6 "s" "main" tr = true
  | Err _ => False
  end.
Proof. vm_compute. auto. Qed.

Lemma shop_reaches y z : y ∈ shop -> reaches shopRegistry y z -> z ∈ shop.
Proof.
  intros Hy Hr. induction Hr as [|y x z Hr IH (c & r & Hc & Hres & ->)]; [done|].
  specialize (IH Hy). unfold shop in IH. rewrite !elem_of_cons in IH. destruct IH as [->|[->|[]%not_elem_of_nil]].
  - apply list_elem_of_singleton in Hc as ->. vm_compute in Hres. injection Hres as <-. right. left.
  - by apply not_elem_of_nil in Hc.
Qed.

Lemma shopFilled_ok : cacheOk shopFilled /\ withinCaps shopFilled.
Proof.
  assert (cacheOk shopCache /\ withinCaps shopCache) as [Hc Hw].
  { unfold shopCache. destruct (cacheStart_ok (V := Z) 60 10) as ([c h] & Hs & Hok).
    unfold cacheStart in Hs. destruct (NewTTLCache 60 10) as [c0|]; [|done]. injection Hs as <- <-.
    destruct Hok as (? & ? & _). done. }
  unfold shopFilled. destruct (SetSized_ok 0 itemsKey 7 0 1 shopCache Hc Hw ltac:(lia)) as (c' & -> & ? & ? & _). done.
Qed.


(** Two writes of a session: the first window has ended, the second is open. *)
Example reads_follow_last_write_witness :
  Recent 120 "s" "main" (foldl trackStep (NewWriteTracker 0) [ORecord 1 "s" "main" 30; ORecord 100 "s" "main" 30]) = true.
Proof. rewrite (reads_follow_last_write 0 0 120); [reflexivity|]. simpl. lia. Defined.
