(* ===== verification/CascadeCheck.v ===== *)
(** The check of a write's cascades: core/tool/cascade.go.

    The authorizer is an argument, rbac's decision or its error.  The walk over
    cascades has fuel, one more than the keys it can mark as seen; [None] is
    out of fuel, which CascadeTheorems shows not to happen. *)

From S2P Require Import Prelude GoString Value Relalg Entity Rbac.

(** string(action): Action is a uint8, so its one-rune string. *)
Definition actionText (a : Action) : string :=
  of_runes [match a with
            | ActionRead => 0 | ActionCreate => 1 | ActionUpdate => 2
            | ActionDelete => 3 | ActionExecute => 4 | ActionAggregate => 5
            end].

Record cascadeEffect : Type := mkEffect {
  eff_cascade : Cascade;
  eff_action : Action;
  eff_columns : list string;
}.

(** One round of cascadeEffects' loop. *)
Definition effectOf (action : Action) (updated : list string) (c : Cascade) : option cascadeEffect :=
  let rule := if bool_decide (action = ActionUpdate) then CaOnUpdate c else CaOnDelete c in
  if bool_decide (action = ActionUpdate) && negb (existsb (fun col => bool_decide (col ∈ updated)) (CaColumns c)) then None
  else if negb (ReferentialWrite rule) then None
  else if bool_decide (action = ActionDelete) && bool_decide (rule = "cascade") then Some (mkEffect c ActionDelete [])
  else Some (mkEffect c ActionUpdate (CaForeignColumns c)).

Definition cascadeEffects (e : Entity) (action : Action) (updated : list string) : list cascadeEffect :=
  omap (effectOf action updated) (ECascades e).

Definition columnNames (e : Entity) (fields : list string) : list string :=
  map (fun f => match AttributeByName e f with Some a => AName a | None => f end) fields.

Definition seenKey (e : Entity) (action : Action) (updated : list string) : string :=
  EName e +:+ NUL +:+ actionText action +:+ NUL +:+ join NUL updated.

Section walk.
Context (reg : Registry) (role : string) (subject : gmap string value) (authorize : Request -> result Decision).

Definition cascadeRequest (eff : cascadeEffect) : Request :=
  mkRequest role (CaEntity (eff_cascade eff)) (eff_action eff) [] [] (eff_columns eff) subject PNil.

(** What an effect needs: the entity it reaches. *)
Definition admitEffect (eff : cascadeEffect) : result Entity :=
  if bool_decide (CaEntity (eff_cascade eff) = "") then Err ErrUnauthorized
  else match Resolve reg (CaEntity (eff_cascade eff)) with
       | None => Err ErrUnauthorized
       | Some child =>
           dec ← authorize (cascadeRequest eff);
           if negb (Allowed dec) || negb (is_pnil (RowFilter dec)) then Err ErrUnauthorized else Ok (REntity child)
       end.

(** The loop over the effects of one entity, each walked in turn. *)
Fixpoint walkEffects (walk : Entity -> Action -> list string -> gset string -> option (result (gset string)))
    (effs : list cascadeEffect) (seen : gset string) : option (result (gset string)) :=
  match effs with
  | [] => Some (Ok seen)
  | eff :: effs =>
      match admitEffect eff with
      | Err err => Some (Err err)
      | Ok child =>
          match walk child (eff_action eff) (eff_columns eff) seen with
          | Some (Ok seen) => walkEffects walk effs seen
          | other => other
          end
      end
  end.

Fixpoint walkCascades (fuel : nat) (e : Entity) (action : Action) (updated : list string) (seen : gset string)
  : option (result (gset string)) :=
  match fuel with
  | O => None
  | S fuel =>
      let key := seenKey e action updated in
      if EAllowCascade e || bool_decide (key ∈ seen) then Some (Ok seen)
      else walkEffects (walkCascades fuel) (cascadeEffects e action updated) ({[key]} ∪ seen)
  end.

(** Each key but the first is a cascade's, deleting or updating. *)
Definition walkFuel (e : Entity) : nat :=
  3 + 2 * sum_list (map (fun x => length (ECascades x)) (e :: map snd (map_to_list (byName reg)))).

Definition checkCascades (e : Entity) (action : Action) (updated : list string) : result unit :=
  match walkCascades (walkFuel e) e action (columnNames e updated) ∅ with
  | Some (Ok _) => Ok tt
  | Some (Err err) => Err err
  | None => Err Panic
  end.

End walk.
