(* ===== verification/CascadeTheorems.v ===== *)
(** A write whose cascades were checked is covered all the way: the walk ends,
    and every effect any chain of cascades has was admitted. *)

From S2P Require Import Prelude GoString Value Relalg Interp InterpFacts Entity EntityFacts Cache Invalidation InvalidationTheorems Rbac RbacTheorems CascadeCheck.

Section cascade.
Context (reg : Registry) (role : string) (subject : gmap string value) (authorize : Request -> result Decision).

(** A write of an entity: what is done to its rows, and the columns updated. *)
Definition write : Type := Entity * Action * list string.

Definition keyOf (n : write) : string := seenKey n.1.1 n.1.2 n.2.

Definition effectsOf (n : write) : list cascadeEffect := cascadeEffects n.1.1 n.1.2 n.2.

(** The write an effect makes, of the entity its cascade names. *)
Definition triggers (n m : write) : Prop :=
  EAllowCascade n.1.1 = false /\
  exists eff r, eff ∈ effectsOf n /\ Resolve reg (CaEntity (eff_cascade eff)) = Some r /\
    m = (REntity r, eff_action eff, eff_columns eff).

Inductive triggered (n : write) : write -> Prop :=
  | triggered_refl : triggered n n
  | triggered_step m m' : triggered n m -> triggers m m' -> triggered n m'.

(** Every effect of a write is admitted. *)
Definition admitted (n : write) : Prop :=
  forall eff, eff ∈ effectsOf n -> exists child, admitEffect reg role subject authorize eff = Ok child.

Lemma admitEffect_ok eff child :
  admitEffect reg role subject authorize eff = Ok child ->
  CaEntity (eff_cascade eff) <> "" /\
  (exists r, Resolve reg (CaEntity (eff_cascade eff)) = Some r /\ child = REntity r) /\
  exists dec, authorize (cascadeRequest role subject eff) = Ok dec /\ Allowed dec = true /\ RowFilter dec = PNil.
Proof.
  unfold admitEffect. case_bool_decide; [done|]. destruct (Resolve reg _) as [r|]; [|done]. intros Hd.
  apply bind_ok in Hd as (dec & Hdec & Hd). destruct (Allowed dec) eqn:Ea; simpl in Hd; [|done].
  destruct (is_pnil (RowFilter dec)) eqn:Ef; simpl in Hd; [|done]. injection Hd as <-.
  split; [done|]. split; [eauto|]. exists dec. split; [done|]. split; [done|]. by destruct (RowFilter dec).
Qed.

(** ** The walk checks a closed set *)

(** The write of a key has its effects admitted, and their writes marked,
    unless their entity allows cascades. *)
Definition expanded (all : write -> Prop) (seen : gset string) (k : string) : Prop :=
  forall n, all n -> keyOf n = k -> admitted n /\
    forall m, triggers n m -> EAllowCascade m.1.1 = true \/ keyOf m ∈ seen.

Lemma expanded_mono all seen seen' k : seen ⊆ seen' -> expanded all seen k -> expanded all seen' k.
Proof. intros Hs He n Hn Hk. destruct (He n Hn Hk) as [? Ht]. split; [done|]. intros m Hm. destruct (Ht m Hm); auto. Qed.

(** The writes considered have keys of their own. *)
Definition distinct_keys (all : write -> Prop) : Prop := forall n m, all n -> all m -> keyOf n = keyOf m -> n = m.

Definition walked (all : write -> Prop) (n : write) (seen seen' : gset string) : Prop :=
  seen ⊆ seen' /\ (EAllowCascade n.1.1 = true \/ keyOf n ∈ seen') /\ forall k, k ∈ seen' -> k ∈ seen \/ expanded all seen' k.

Lemma walkEffects_spec all walk effs : forall seen seen',
  (forall e a u s s', walk e a u s = Some (Ok s') -> all (e, a, u) -> walked all (e, a, u) s s') ->
  (forall eff r, eff ∈ effs -> Resolve reg (CaEntity (eff_cascade eff)) = Some r -> all (REntity r, eff_action eff, eff_columns eff)) ->
  walkEffects reg role subject authorize walk effs seen = Some (Ok seen') ->
  seen ⊆ seen' /\ (forall k, k ∈ seen' -> k ∈ seen \/ expanded all seen' k) /\
  forall eff, eff ∈ effs -> exists r, admitEffect reg role subject authorize eff = Ok (REntity r) /\
    Resolve reg (CaEntity (eff_cascade eff)) = Some r /\
    (EAllowCascade (REntity r) = true \/ keyOf (REntity r, eff_action eff, eff_columns eff) ∈ seen').
Proof.
  induction effs as [|eff effs IH]; intros seen seen' Hwalk Hall Hw; cbn [walkEffects] in Hw.
  { injection Hw as <-. split; [done|]. split; [by left|]. intros eff []%not_elem_of_nil. }
  destruct (admitEffect reg role subject authorize eff) as [child|] eqn:Ea; [|done].
  destruct (walk child (eff_action eff) (eff_columns eff) seen) as [[s1|]|] eqn:Ew; [|done..].
  destruct (admitEffect_ok _ _ Ea) as (_ & (r & Hr & ->) & _).
  destruct (Hwalk _ _ _ _ _ Ew (Hall eff r ltac:(left) Hr)) as (Hsub1 & Hin1 & Hex1).
  destruct (IH s1 seen' Hwalk ltac:(intros; apply Hall; [by right|done]) Hw) as (Hsub & Hex & Heffs).
  split; [by etrans|]. split.
  - intros k Hk. destruct (Hex k Hk) as [Hk1|?]; [|by right]. destruct (Hex1 k Hk1) as [?|He]; [by left|right].
    by eapply expanded_mono.
  - intros x [->|Hx]%elem_of_cons; [|by apply Heffs]. exists r. split; [done|]. split; [done|].
    destruct Hin1 as [?|?]; [by left|right]. by apply Hsub.
Qed.

Lemma walkCascades_spec all fuel : distinct_keys all -> (forall n m, all n -> triggers n m -> all m) ->
  forall e a u seen seen', all (e, a, u) ->
  walkCascades reg role subject authorize fuel e a u seen = Some (Ok seen') -> walked all (e, a, u) seen seen'.
Proof.
  intros Hinj Hcl. induction fuel as [|fuel IH]; intros e a u seen seen' Hn Hw; [done|]. cbn [walkCascades] in Hw.
  destruct (EAllowCascade e) eqn:Eal; simpl in Hw.
  { injection Hw as <-. split; [done|]. split; [by left|]. by left. }
  case_bool_decide as Hs.
  { injection Hw as <-. split; [done|]. split; [by right|]. by left. }
  destruct (walkEffects_spec all (walkCascades reg role subject authorize fuel) (cascadeEffects e a u)
              ({[seenKey e a u]} ∪ seen) seen') as (Hsub & Hex & Heffs); [by eauto| |done|].
  { intros eff r Heff Hr. apply (Hcl (e, a, u)); [done|]. split; [done|]. exists eff, r. done. }
  split; [set_solver|]. split; [right; set_solver|]. intros k Hk.
  destruct (Hex k Hk) as [[->%elem_of_singleton|?]%elem_of_union|?]; [right|by left|by right].
  intros n Hn' Hkn. assert (n = (e, a, u)) as -> by by apply Hinj. split.
  - intros eff Heff. destruct (Heffs eff Heff) as (r & ? & _). eauto.
  - intros m (_ & eff & r & Heff & Hr & ->). destruct (Heffs eff Heff) as (r' & _ & Hr' & Hor).
    by assert (r' = r) as -> by congruence.
Qed.

(** ** The walk ends *)

Lemma walkEffects_mono walk effs : (forall e a u s s', walk e a u s = Some (Ok s') -> s ⊆ s') ->
  forall seen seen', walkEffects reg role subject authorize walk effs seen = Some (Ok seen') -> seen ⊆ seen'.
Proof.
  intros Hw. induction effs as [|eff effs IH]; intros seen seen' H; cbn [walkEffects] in H; [by injection H as <-|].
  destruct (admitEffect _ _ _ _ eff) as [child|]; [|done].
  destruct (walk child _ _ seen) as [[s1|]|] eqn:E; [|done..]. etrans; [by eapply Hw|by eapply IH].
Qed.

Lemma walkCascades_mono fuel : forall e a u seen seen',
  walkCascades reg role subject authorize fuel e a u seen = Some (Ok seen') -> seen ⊆ seen'.
Proof.
  induction fuel as [|fuel IH]; intros e a u seen seen' H; [done|]. cbn [walkCascades] in H. case_match; [by injection H as <-|].
  apply walkEffects_mono in H; [set_solver|done].
Qed.

Lemma walkEffects_ends (all : write -> Prop) (K : gset string) n walk effs :
  (forall e a u s, all (e, a, u) -> (size (K ∖ s) < n)%nat -> is_Some (walk e a u s)) ->
  (forall e a u s s', walk e a u s = Some (Ok s') -> s ⊆ s') ->
  (forall eff r, eff ∈ effs -> Resolve reg (CaEntity (eff_cascade eff)) = Some r -> all (REntity r, eff_action eff, eff_columns eff)) ->
  forall seen, (size (K ∖ seen) < n)%nat -> is_Some (walkEffects reg role subject authorize walk effs seen).
Proof.
  intros Hends Hmono. induction effs as [|eff effs IH]; intros Hall seen Hlt; cbn [walkEffects]; [eauto|].
  destruct (admitEffect _ _ _ _ eff) as [child|] eqn:Ea; [|eauto].
  destruct (admitEffect_ok _ _ Ea) as (_ & (r & Hr & ->) & _).
  destruct (Hends _ _ _ seen (Hall eff r ltac:(left) Hr) Hlt) as [[s1|] Hw]; rewrite Hw; [|eauto].
  apply IH; [intros; apply Hall; [by right|done]|]. apply Hmono in Hw.
  assert (size (K ∖ s1) <= size (K ∖ seen))%nat; [|lia]. apply subseteq_size. set_solver.
Qed.

Lemma walkCascades_ends (all : write -> Prop) (K : gset string) fuel :
  (forall n m, all n -> triggers n m -> all m) -> (forall n, all n -> keyOf n ∈ K) ->
  forall e a u seen, all (e, a, u) -> (size (K ∖ seen) < fuel)%nat ->
  is_Some (walkCascades reg role subject authorize fuel e a u seen).
Proof.
  intros Hcl HK. induction fuel as [|fuel IH]; intros e a u seen Hn Hlt; [lia|]. cbn [walkCascades].
  destruct (EAllowCascade e) eqn:Eal; simpl; [eauto|]. case_bool_decide as Hs; [eauto|].
  apply (walkEffects_ends all K fuel); [done|apply walkCascades_mono| |].
  - intros eff r Heff Hr. apply (Hcl (e, a, u)); [done|]. split; [done|]. eauto.
  - assert (size (K ∖ ({[seenKey e a u]} ∪ seen)) < size (K ∖ seen))%nat; [|lia]. apply subset_size.
    specialize (HK _ Hn). unfold keyOf in HK. simpl in HK. set_solver.
Qed.

(** The writes the cascades of an entity can make. *)
Definition cascadeWrites (x : Entity) : list write :=
  flat_map (fun c => match Resolve reg (CaEntity c) with
                     | Some r => [(REntity r, ActionDelete, []); (REntity r, ActionUpdate, CaForeignColumns c)]
                     | None => []
                     end) (ECascades x).

Definition knownEntities (e : Entity) : list Entity := e :: map snd (map_to_list (byName reg)).

Definition allKeys (n : write) : gset string :=
  list_to_set (keyOf <$> n :: flat_map cascadeWrites (knownEntities n.1.1)).

Lemma triggers_cascadeWrites n m : triggers n m -> m ∈ cascadeWrites n.1.1.
Proof.
  intros (_ & eff & r & Heff & Hr & ->). unfold effectsOf, cascadeEffects in Heff.
  apply list_elem_of_omap in Heff as (c & Hc & He). unfold cascadeWrites. apply list_elem_of_In, in_flat_map.
  exists c. split; [by apply list_elem_of_In|]. unfold effectOf in He.
  repeat (case_match; try done); injection He as <-; simpl in Hr; rewrite Hr in *; simplify_eq; simpl; auto.
Qed.

Lemma triggered_known n m : triggered n m -> m.1.1 ∈ knownEntities n.1.1.
Proof.
  intros Ht. induction Ht as [|m m' Ht IH (_ & eff & r & _ & Hr & ->)]; [left|]. right. simpl.
  unfold Resolve in Hr. destruct (byName reg !! _) as [x|] eqn:E.
  - injection Hr as <-. apply list_elem_of_fmap. exists (CaEntity (eff_cascade eff), x). by rewrite elem_of_map_to_list.
  - destruct (default [] _) as [|nm [|]]; [done| |done]. apply bind_Some in Hr as (x & Hx & [= <-]).
    apply list_elem_of_fmap. exists (nm, x). by rewrite elem_of_map_to_list.
Qed.

Lemma triggered_key n m : triggered n m -> keyOf m ∈ allKeys n.
Proof.
  intros Ht. unfold allKeys. apply elem_of_list_to_set, list_elem_of_fmap. exists m. split; [done|].
  destruct Ht as [|m m' Ht Htr]; [left|right]. apply list_elem_of_In, in_flat_map. exists m.1.1.
  split; [by apply list_elem_of_In, triggered_known|]. by apply list_elem_of_In, triggers_cascadeWrites.
Qed.

Lemma length_cascadeWrites l :
  (length (flat_map cascadeWrites l) <= 2 * sum_list (map (fun x => length (ECascades x)) l))%nat.
Proof.
  induction l as [|x l IH]; [done|]. cbn [flat_map map]. rewrite length_app. cbn [sum_list].
  enough (length (cascadeWrites x) <= 2 * length (ECascades x))%nat by (simpl; lia).
  unfold cascadeWrites. induction (ECascades x) as [|c cs IHc]; [done|]. simpl. rewrite length_app. unfold write in *. case_match; simpl; lia.
Qed.

Lemma size_allKeys e a u : (size (allKeys (e, a, u)) < walkFuel reg e)%nat.
Proof.
  pose proof (length_cascadeWrites (knownEntities e)) as Hw. unfold allKeys, walkFuel. cbn [fst].
  eapply Nat.le_lt_trans; [apply size_list_to_set_le|]. rewrite length_fmap. unfold knownEntities in *.
  cbn [length]. set (x := length (flat_map _ _)) in *. set (y := sum_list _) in *. lia.
Qed.

Lemma walk_total e a u :
  is_Some (walkCascades reg role subject authorize (walkFuel reg e) e a u ∅).
Proof.
  apply (walkCascades_ends (triggered (e, a, u)) (allKeys (e, a, u))).
  - intros n m. apply triggered_step.
  - apply triggered_key.
  - constructor.
  - rewrite difference_empty_L. apply size_allKeys.
Qed.

End cascade.

(** ** Keys *)

(** A column name: not empty, and without NUL. *)
Definition plain (s : string) : Prop := s <> "" /\ has_byte Ascii.zero s = false.

Lemma join_plain_inj ps : Forall plain ps -> forall qs, Forall plain qs -> join NUL ps = join NUL qs -> ps = qs.
Proof.
  assert (forall q qs, plain q -> join NUL (q :: qs) <> "") as Hne.
  { intros q [|q' qs] [Hq _]; [done|]. destruct q; [done|]. done. }
  induction 1 as [|p ps Hp Hps IH]; intros [|q qs] Hqs Heq; [done| | |].
  - apply Forall_cons in Hqs as [Hq _]. by destruct (Hne q qs Hq).
  - by destruct (Hne p ps Hp).
  - apply Forall_cons in Hqs as [Hq Hqs]. destruct Hp as [_ Hp], Hq as [_ Hq].
    assert (forall a b c, a = b +:+ NUL +:+ c -> has_byte Ascii.zero a = true) as Hnul.
    { intros a b c ->. rewrite !has_byte_app. simpl. by rewrite orb_true_r. }
    destruct ps as [|p' ps], qs as [|q' qs]; cbn [join] in Heq.
    + by f_equal.
    + apply Hnul in Heq. congruence.
    + symmetry in Heq. apply Hnul in Heq. congruence.
    + apply split_byte_inj in Heq as [-> Heq]; [|done..]. f_equal. by apply IH.
Qed.

Definition writes_rows (a : Action) : Prop := a = ActionUpdate \/ a = ActionDelete.

Lemma seenKey_inj e a u e' a' u' :
  has_byte Ascii.zero (EName e) = false -> has_byte Ascii.zero (EName e') = false ->
  writes_rows a -> writes_rows a' -> Forall plain u -> Forall plain u' ->
  seenKey e a u = seenKey e' a' u' -> EName e = EName e' /\ a = a' /\ u = u'.
Proof.
  intros He He' Ha Ha' Hu Hu' Hk. unfold seenKey in Hk. apply split_byte_inj in Hk as [Hn Hk]; [|done..].
  assert (actionText a = actionText a' /\ join NUL u = join NUL u') as [Hat Hj]
    by (apply split_byte_inj in Hk; [done|by destruct Ha as [->| ->]|by destruct Ha' as [->| ->]]).
  split; [done|]. split; [by destruct Ha as [->| ->], Ha' as [->| ->]|]. by apply (join_plain_inj u).
Qed.

(** Names as a database has them: no NUL, and no empty column. *)
Definition plain_names (reg : Registry) : Prop :=
  forall x, x ∈ entities reg -> has_byte Ascii.zero (EName x) = false /\
    forall c, c ∈ ECascades x -> Forall plain (CaForeignColumns c).

Lemma triggered_plain reg n m :
  registry_ok reg -> plain_names reg -> n.1.1 ∈ entities reg -> writes_rows n.1.2 -> Forall plain n.2 ->
  triggered reg n m -> m.1.1 ∈ entities reg /\ writes_rows m.1.2 /\ Forall plain m.2.
Proof.
  intros Hok Hpl Hn Ha Hu. induction 1 as [|m m' Ht IH Htr]; [done|].
  destruct IH as (Hm & _ & _). destruct Htr as (_ & eff & r & Heff & Hr & ->). simpl. split.
  - apply (Resolve_entity _ _ _ Hok) in Hr. by apply (ok_byName _ Hok) in Hr as [? _].
  - apply list_elem_of_omap in Heff as (c & Hc & He). destruct (Hpl _ Hm) as [_ Hcols]. unfold effectOf in He.
    repeat (case_match; try done); injection He as <-; simpl; split; try constructor; try done; by apply (Hcols c).
Qed.

Lemma triggered_distinct reg n :
  registry_ok reg -> plain_names reg -> n.1.1 ∈ entities reg -> writes_rows n.1.2 -> Forall plain n.2 ->
  distinct_keys (triggered reg n).
Proof.
  intros Hok Hpl Hn Ha Hu m m' Hm Hm' Hk.
  destruct (triggered_plain reg n m Hok Hpl Hn Ha Hu Hm) as (Hme & Hma & Hmu).
  destruct (triggered_plain reg n m' Hok Hpl Hn Ha Hu Hm') as (Hme' & Hma' & Hmu').
  destruct m as [[e a] u], m' as [[e' a'] u']. simpl in *.
  destruct (seenKey_inj e a u e' a' u') as (Hen & -> & ->); try done; [by apply Hpl|by apply Hpl|].
  assert (byName reg !! EName e = Some e) as He by by apply (ok_byName _ Hok).
  assert (byName reg !! EName e' = Some e') as He' by by apply (ok_byName _ Hok). congruence.
Qed.

(** A chain of cascades stops at an entity that allows them: no effect of it
    is a write of the walk. *)
Lemma triggered_seen reg role subject authorize n seen m :
  distinct_keys (triggered reg n) -> walked reg role subject authorize (triggered reg n) n ∅ seen ->
  triggered reg n m -> EAllowCascade m.1.1 = true \/ keyOf m ∈ seen.
Proof.
  intros Hinj (_ & H0 & Hex). induction 1 as [|m m' Ht IH Htr]; [done|].
  destruct IH as [Hal|Hk]; [destruct Htr as [? _]; congruence|].
  destruct (Hex _ Hk) as [[]%not_elem_of_empty|He]. destruct (He m Ht eq_refl) as [_ Hall]. by apply Hall.
Qed.

(** Every effect of a chain of cascades is admitted. *)
Definition cascades_covered (reg : Registry) (role : string) (subject : gmap string value)
    (authorize : Request -> result Decision) (n : write) : Prop :=
  forall x a u eff, triggered reg n (x, a, u) -> EAllowCascade x = false -> eff ∈ cascadeEffects x a u ->
    (exists child, Resolve reg (CaEntity (eff_cascade eff)) = Some child) /\
    exists dec, authorize (cascadeRequest role subject eff) = Ok dec /\ Allowed dec = true /\ RowFilter dec = PNil.

Lemma checkCascades_covered reg role subject authorize e action updated :
  registry_ok reg -> plain_names reg -> e ∈ entities reg -> writes_rows action -> Forall plain (columnNames e updated) ->
  checkCascades reg role subject authorize e action updated = Ok tt ->
  cascades_covered reg role subject authorize (e, action, columnNames e updated).
Proof.
  intros Hok Hpl He Ha Hu. set (n := (e, action, columnNames e updated)). intros Hcheck x a u eff Ht Hal Heff.
  pose proof (triggered_distinct reg n Hok Hpl He Ha Hu) as Hinj. unfold checkCascades in Hcheck.
  destruct (walkCascades reg role subject authorize (walkFuel reg e) e action (columnNames e updated) ∅) as [[seen|]|] eqn:Hw; [|done..].
  pose proof (walkCascades_spec reg role subject authorize (triggered reg n) _ Hinj (triggered_step reg n) _ _ _ _ _
                (triggered_refl reg n) Hw) as Hwalked.
  destruct (triggered_seen _ _ _ _ _ _ _ Hinj Hwalked Ht) as [Hal'|Hk]; [simpl in Hal'; congruence|].
  destruct Hwalked as (_ & _ & Hex). destruct (Hex _ Hk) as [[]%not_elem_of_empty|Hexp].
  destruct (Hexp _ Ht eq_refl) as [Hadm _]. destruct (Hadm eff Heff) as [child Hchild].
  destruct (admitEffect_ok _ _ _ _ _ _ Hchild) as (_ & (r & Hr & _) & Hdec). split; [by exists r|done].
Qed.


(** ** The shop: deleting an order needs a delete on its items *)

Definition permits (allowed : list (string * Action)) (req : Request) : result Decision :=
  Ok (mkDecision (bool_decide ((QEntity req, QAction req) ∈ allowed)) NoReason [] PNil [] []).

Example order_delete_needs_items :
  checkCascades shopRegistry "clerk" ∅ (permits []) shopOrders ActionDelete [] = Err ErrUnauthorized /\
  checkCascades shopRegistry "clerk" ∅ (permits [("main.items"%string, ActionDelete)]) shopOrders ActionDelete [] = Ok tt.
Proof. vm_compute. auto. Qed.

Lemma shop_plain : plain_names shopRegistry.
Proof.
  intros x Hx. assert (entities shopRegistry = shop) as Heq by (vm_compute; reflexivity).
  rewrite Heq in Hx. unfold shop in Hx. rewrite !elem_of_cons in Hx. destruct Hx as [->|[->|[]%not_elem_of_nil]].
  - split; [reflexivity|]. intros c Hc. apply list_elem_of_singleton in Hc as ->. by repeat constructor.
  - split; [reflexivity|]. intros c []%not_elem_of_nil.
Qed.

