(* ===== verification/Pipeline.v ===== *)
(** The pipeline of a call: the planning steps of core/tool/tools_helpers.go,
    routing.go, pipeline.go and tool.go that the tools share.

    A call runs in a [Context]: what the request and the configuration give
    it.  The authorizer is rbac's, without its memo tables (they change no
    decision); the gate of a datasource takes the caller's tightening; the
    answer of the transaction manager for a datasource and the session's
    recent writes are arguments, modelled in Transaction and Invalidation.
    Connections are numbers.  Hooks, metering and timeouts are left out. *)

From stdpp Require Import sorting.
From S2P Require Import Prelude GoString Value Relalg Entity Numbers WriteCheck Dialect Codegen Cost Transaction Rbac CascadeCheck FieldUses Order Filter.

(** ** Outcomes *)

(** Why a call is refused. *)
Inductive toolError : Type :=
  | EEntityNotFound | EDMLToolsDisabled | EEntityUnavailable | EUnsafeWrite | EInvalidInput
  | EDenied (d : Rbac.Decision)
  | ERowPolicy (v : RowPolicyViolationError)
  | ECostExceeded (d : Cost.Decision)
  | EBudgetExceeded
  | EExplain (e : explainError)
  | ETransaction (e : txError)
  | ENotAuthorized
  | EAmbiguousEntity (ref : string) (candidates : list string)
  | ESchemaChanged (cause : goErr)
  | EDatabase (e : goErr)
  | EOutcomeUnknown (cause : goErr)
  | EConstraint (kind : string) (fields : list string)
  | ERolledBack (e : toolError)            (** the statement ended its transaction *)
  | EEncoding
  | EResultCut
  | EUnestimable (cause : option goErr)    (** without one, the datasource has no EXPLAIN *)
  | EAuditUnavailable
  | ERawDB (kind : sentinel) (cause : goErr) (** the escape hatch's *)
  | EOther (e : error).

Inductive outcome (A : Type) : Type := Done (a : A) | Refused (e : toolError).
Arguments Done {_} _.
Arguments Refused {_} _.

#[global] Instance outcome_bind : MBind outcome := fun A B k m => match m with Done a => k a | Refused e => Refused e end.

Definition lift {A} (r : result A) : outcome A := match r with Ok a => Done a | Err e => Refused (EOther e) end.

Lemma outcome_bind_done {A B} (m : outcome A) (k : A -> outcome B) b :
  (m ≫= k) = Done b -> exists a, m = Done a /\ k a = Done b.
Proof. destruct m; [eauto|done]. Qed.

Lemma lift_done {A} (r : result A) a : lift r = Done a -> r = Ok a.
Proof. destruct r; naive_solver. Qed.

(** ** The context of a call *)

Record DataSource : Type := mkSource {
  ds_db : nat;
  ds_write : option nat;
  ds_execute : option nat;
  ds_readAfterWrite : Z;
  ds_dialect : Dialect;
  ds_gate : option (Tightening -> list Layer);
}.

(** Limits: the configured per-call limits; zero is none. *)
Record Limits : Type := mkLimits {
  lim_maxRows : Z;
  lim_maxProcedureRows : Z;
  lim_maxReturnedBytes : Z;
  lim_maxINListSize : Z;
  lim_maxFilterConditions : Z;
  lim_maxGroupByFields : Z;
  lim_maxAggregates : Z;
  lim_maxExpand : Z;
  lim_cacheMaxEntryRows : Z;
  lim_cacheMaxEntryBytes : Z;
}.

Record Context : Type := mkContext {
  x_registry : Registry;
  x_authorizer : GrantAuthorizer;
  x_role : string;
  x_subject : gmap string value;
  x_sources : gmap string DataSource;
  x_dialect : Dialect;
  x_gate : option (Tightening -> list Layer);
  x_db : option nat;                       (** [None] is a transaction's connection *)
  x_tightening : Tightening;
  x_transaction : string;
  x_transactions : string -> option txError; (** the manager's DB for a datasource *)
  x_recent : string -> bool;               (** the session wrote to a datasource lately *)
  x_limits : Limits;
  x_maxScannedRows : Z;                    (** the caller's budget *)
  x_maxReturnedRows : Z;
  x_maxReturnedBytes : Z;
  x_masker : option (string -> option (value -> result value)); (** the rules of its masker *)
  x_generation : Z;
  x_datasource : string;
  x_followsWrite : bool;
}.

(** tc on another route. *)
Definition rerouted (tc : Context) (name : string) (dialect : Dialect) (gate : option (Tightening -> list Layer)) (db : option nat)
    (follows : bool) : Context :=
  mkContext (x_registry tc) (x_authorizer tc) (x_role tc) (x_subject tc) (x_sources tc) dialect gate db
    (x_tightening tc) (x_transaction tc) (x_transactions tc) (x_recent tc) (x_limits tc) (x_maxScannedRows tc)
    (x_maxReturnedRows tc) (x_maxReturnedBytes tc) (x_masker tc) (x_generation tc) name follows.

Definition followsWrite (tc : Context) (source : DataSource) (datasource : string) : bool :=
  (0 <? ds_readAfterWrite source) && x_recent tc datasource.

Definition connectionFor (tc : Context) (source : DataSource) (datasource : string) (action : Action) : nat :=
  match action with
  | ActionCreate | ActionUpdate | ActionDelete => default (ds_db source) (ds_write source)
  | ActionExecute => default (ds_db source) (ds_execute source)
  | _ => if followsWrite tc source datasource then default (ds_db source) (ds_write source) else ds_db source
  end.

Definition routeEntity (tc : Context) (e : Entity) (action : Action) : outcome Context :=
  let name := DatasourceName e in
  if bool_decide (x_sources tc = ∅) then Done (rerouted tc name (x_dialect tc) (x_gate tc) (x_db tc) (x_followsWrite tc))
  else match x_sources tc !! name with
       | None => Refused EEntityNotFound
       | Some source =>
           let to db := rerouted tc name (ds_dialect source) (ds_gate source) db (followsWrite tc source name) in
           if bool_decide (x_transaction tc = "") then Done (to (Some (connectionFor tc source name action)))
           else match x_transactions tc name with
                | Some err => Refused (ETransaction err)
                | None => Done (to None)
                end
       end.

Definition resolveDMLEntity (tc : Context) (name : string) : outcome Resolved :=
  match Entity.Resolve (x_registry tc) name with
  | None => Refused EEntityNotFound
  | Some res => if DMLTools (EMCP (REntity res)) then Done res else Refused EDMLToolsDisabled
  end.

(** ** The steps *)

Record entityPlan : Type := mkPlan { p_res : Resolved; p_tc : Context }.

(** statement, of an entity; the escape hatch's raw one is apart. *)
Record statement : Type := mkStatement_ {
  s_tc : Context;
  s_res : Resolved;
  s_grant : Rbac.Decision;
  s_sql : Statement;
  s_plan : option Plan;
  s_fields : option (gset string);         (** the only fields a row keeps, when set *)
  s_keep : option (list string);           (** columns kept before masking *)
  s_columns : list string;                 (** its result columns by position, when set *)
  s_rowCap : Z;
  s_write : bool;
}.

Definition newStatement (tc : Context) (res : Resolved) (g : Rbac.Decision) (sql : Statement) (plan : option Plan) : statement :=
  mkStatement_ tc res g sql plan None None [] 0 false.

(** newStatement, of a write *)
Definition writeStatement (tc : Context) (res : Resolved) (g : Rbac.Decision) (sql : Statement) (plan : option Plan) : statement :=
  mkStatement_ tc res g sql plan None None [] 0 true.

Definition andPreds (a b : Predicate) : Predicate :=
  match a, b with PNil, _ => b | _, PNil => a | _, _ => PAnd [a; b] end.

Section tools.
Context `{GoStd} `{CostStd}.

Definition planEntity (tc : Context) (name : string) (action : Action) (filter : list condJSON)
  : outcome (entityPlan * Predicate) :=
  res ← resolveDMLEntity tc name;
  tc ← routeEntity tc (REntity res) action;
  pred ← lift (filterToPredicate filter (lim_maxFilterConditions (x_limits tc)));
  if match action with ActionRead | ActionAggregate => false | _ => HasExists pred end then Refused EInvalidInput
  else
    pred ← lift (coercePredicate (REntity res) (columnsPredicate (REntity res) pred));
    Done (mkPlan res tc, pred).

Definition authorizeRequest (tc : Context) (req : Request) : outcome Rbac.Decision :=
  let dec := authorize (x_authorizer tc) req in
  if negb (Allowed dec) then Refused (EDenied dec)
  else if bool_decide (QAction req = ActionRead) && bool_decide (DFields dec = []) then Refused (EDenied (Rbac.denied NoReadableFields []))
  else match Entity.Resolve (x_registry tc) (QEntity req) with
       | Some res => if bool_decide (EUnavailable (REntity res) = "") then Done dec else Refused EEntityUnavailable
       | None => Done dec
       end.

Definition effectiveMaxIN (tc : Context) : Z :=
  if 0 <? lim_maxINListSize (x_limits tc) then lim_maxINListSize (x_limits tc) else DefaultMaxINCardinality.

(** The options compile is given: without identity keys, or with them. *)
Definition compileOptions (tc : Context) (e : Entity) (keys : option (list (list string))) : compileConfig :=
  mkConfig (default [] (PrimaryKey e)) (default [] keys) (bool_decide (is_Some keys)) (effectiveMaxIN tc).

Definition identityKeysOf (tc : Context) (e : Entity) (enforced : bool) : list (list string) :=
  IdentityKeys e enforced (negb (bool_decide (x_transaction tc = ""))).

Definition with_args (args : list value) (c : Compiled) : Compiled :=
  mkCompiled (CExpr c) (CKind c) (SQL c) args (IsKeyPoint c) (CPrimaryKey c) (ReadOnly c) (capBase c) (capLimit c) (capOffset c).

Definition compile (tc : Context) (e : Entity) (expr : Expr) (keys : option (list (list string))) : outcome Compiled :=
  c ← lift (Compile (x_dialect tc) expr (compileOptions tc e keys));
  Done (with_args (literalNumbers (Args c)) c).

(** checkScannedBudget *)
Definition overScannedBudget (tc : Context) (plan : option Plan) : bool :=
  match plan with Some p => OverScanLimit p (x_maxScannedRows tc) | None => false end.

Definition admitDecision (tc : Context) (d : Cost.Decision) : outcome unit :=
  if negb (Allow d) then Refused (ECostExceeded d)
  else if overScannedBudget tc (D_Plan d) then Refused EBudgetExceeded else Done tt.

Definition gateSQL (tc : Context) (c : Compiled) : outcome (Statement * option Plan) :=
  match x_gate tc with
  | None => Done (ofCompiled c, None)
  | Some gate =>
      match gateCheck (gate (x_tightening tc)) (ofCompiled c) with
      | inl err => Refused (EExplain err)
      | inr d =>
          _ ← admitDecision tc d;
          Done (default (ofCompiled c) (Rewritten d), D_Plan d)
      end
  end.

End tools.
