(* ===== verification/PipelineFacts.v ===== *)
(** Facts on the steps of a call: what a step that passed says. *)

From S2P Require Import Prelude GoString Value Relalg Interp InterpFacts Entity Numbers WriteCheck Dialect Codegen CodegenFacts CodegenTheorems Cost CostTheorems Transaction Rbac FieldUses Order Filter Pipeline.

(** ** Steps that passed *)

Ltac inv_done :=
  repeat match goal with
  | H : (_ ≫= _) = Done _ |- _ =>
      let a := fresh "a" in let E := fresh "E" in
      apply outcome_bind_done in H as (a & E & H)
  | H : lift _ = Done _ |- _ => apply lift_done in H
  | H : Done _ = Done _ |- _ => injection H as <-
  | H : (let '(_, _) := ?x in _) = Done _ |- _ => destruct x as [??]
  | H : Refused _ = Done _ |- _ => discriminate H
  | x : unit |- _ => destruct x
  end.

Lemma andPreds_true a b rel row :
  evalPredicate (andPreds a b) rel row = Ok triTrue ->
  evalPredicate a rel row = Ok triTrue /\ evalPredicate b rel row = Ok triTrue.
Proof.
  assert (forall p q, evalPredicate (PAnd [p; q]) rel row = Ok triTrue ->
    evalPredicate p rel row = Ok triTrue /\ evalPredicate q rel row = Ok triTrue) as Hand.
  { intros p q Hpq. cbn [evalPredicate] in Hpq. apply evalAnd_true in Hpq.
    apply Forall_cons in Hpq as [Hp Hpq]. apply Forall_cons in Hpq as [Hq _]. done. }
  unfold andPreds. destruct a, b; auto.
Qed.

Lemma routeEntity_keeps tc e action tc' :
  routeEntity tc e action = Done tc' ->
  x_registry tc' = x_registry tc /\ x_authorizer tc' = x_authorizer tc /\ x_role tc' = x_role tc /\
  x_subject tc' = x_subject tc /\ x_transaction tc' = x_transaction tc.
Proof.
  unfold routeEntity. case_bool_decide; [by intros [= <-]|]. destruct (x_sources tc !! _) as [source|]; [|done].
  case_bool_decide; [by intros [= <-]|]. destruct (x_transactions tc _); [done|]. by intros [= <-].
Qed.

Lemma resolveDML_done tc name res :
  resolveDMLEntity tc name = Done res ->
  Entity.Resolve (x_registry tc) name = Some res /\ DMLTools (EMCP (REntity res)) = true.
Proof.
  unfold resolveDMLEntity. destruct (Entity.Resolve _ _) as [r|]; [|done]. destruct (DMLTools _) eqn:E; [|done]. by intros [= <-].
Qed.

Section pipeline.
Context `{GoStd} `{CostStd}.

Lemma planEntity_done tc name action filter p pred :
  planEntity tc name action filter = Done (p, pred) ->
  Entity.Resolve (x_registry tc) name = Some (p_res p) /\ DMLTools (EMCP (REntity (p_res p))) = true /\
  routeEntity tc (REntity (p_res p)) action = Done (p_tc p).
Proof.
  unfold planEntity. intros Hp. inv_done. apply resolveDML_done in E as [Hr Hd].
  destruct (match action with ActionRead | ActionAggregate => false | _ => HasExists a1 end); [done|]. inv_done. done.
Qed.

(** The predicate planned is the request's filter, on the entity's columns and
    in their types. *)
Lemma planEntity_filter tc name action filter p pred :
  planEntity tc name action filter = Done (p, pred) ->
  exists asked, filterToPredicate filter (lim_maxFilterConditions (x_limits tc)) = Ok asked /\
    coercePredicate (REntity (p_res p)) (columnsPredicate (REntity (p_res p)) asked) = Ok pred.
Proof.
  unfold planEntity. intros Hp. inv_done. assert (x_limits a0 = x_limits tc) as <-.
  { unfold routeEntity in E0. case_bool_decide; [by injection E0 as <-|]. destruct (x_sources tc !! _) as [source|]; [|done].
    case_bool_decide; [by injection E0 as <-|]. destruct (x_transactions tc _); [done|]. by injection E0 as <-. }
  destruct (match action with ActionRead | ActionAggregate => false | _ => HasExists a1 end); [done|]. apply outcome_bind_done in Hp as (q & Hq%lift_done & Hp). injection Hp as <- <-. by exists a1.
Qed.

Lemma authorizeRequest_done tc req g :
  authorizeRequest tc req = Done g ->
  g = authorize (x_authorizer tc) req /\ Allowed g = true /\
  forall res, Entity.Resolve (x_registry tc) (QEntity req) = Some res -> EUnavailable (REntity res) = "".
Proof.
  unfold authorizeRequest. destruct (Allowed (authorize _ req)) eqn:Ea; cbn [negb]; [|done].
  destruct (_ && _); [done|]. destruct (Entity.Resolve _ _) as [res|].
  - case_bool_decide; [|done]. intros [= <-]. split; [done|]. split; [done|]. by intros r [= <-].
  - intros [= <-]. split; [done|]. split; [done|]. by intros r ?.
Qed.

Lemma admitDecision_done tc d u : admitDecision tc d = Done u -> Allow d = true.
Proof. unfold admitDecision. by destruct (Allow d). Qed.

Lemma compile_done tc e expr keys c :
  compile tc e expr keys = Done c ->
  CExpr c = expr /\ CKind c = kindOf expr /\
  IsKeyPoint c = existsb (isKeyPoint (PredicateOf expr)) (keysOfConfig (compileOptions tc e keys)).
Proof. unfold compile. intros Hc. inv_done. by destruct (Compile_fields _ _ _ _ E) as (? & ? & ?). Qed.

(** Without datasources to route to, a call runs where it was. *)
Lemma planEntity_unrouted tc name action filter p pred :
  x_sources tc = ∅ -> planEntity tc name action filter = Done (p, pred) -> x_gate (p_tc p) = x_gate tc.
Proof.
  intros Hs Hp. apply planEntity_done in Hp as (_ & _ & Hr). unfold routeEntity in Hr. rewrite Hs in Hr. by injection Hr as <-.
Qed.

End pipeline.
