(* ===== verification/WriteTools.v ===== *)
(** The write tools: core/tool/tools_write_impl.go. *)

From stdpp Require Import sorting.
From S2P Require Import Prelude GoString Value Relalg Entity Numbers WriteCheck Dialect Codegen Cost Transaction Rbac CascadeCheck FieldUses Order Filter Pipeline.

(** ** Inputs; a JSON object's members in the order Go ranges over them *)

Record createInput : Type := mkCreate { ci_entity : string; ci_transaction : string; ci_values : list (string * value) }.
Record updateInput : Type := mkUpdate {
  ui_entity : string;
  ui_transaction : string;
  ui_filter : list condJSON;
  ui_set : list (string * value);
}.
Record deleteInput : Type := mkDelete { di_entity : string; di_transaction : string; di_filter : list condJSON }.

Definition sortedKeys (m : list (string * value)) : list string := sort_strings m.*1.

(** m[k] *)
Definition member (m : list (string * value)) (k : string) : value :=
  default VNil (snd <$> List.find (fun kv => String.eqb kv.1 k) m).

Section tools.
Context `{GoStd} `{CostStd}.

(** ** The handlers *)

(** entityPlan.statement *)
Definition planStatement (p : entityPlan) (g : Rbac.Decision) (c : Compiled) : outcome statement :=
  '(sql, plan) ← gateSQL (p_tc p) c;
  Done (writeStatement (p_tc p) (p_res p) g sql plan).

(** The statement, and the row it inserts, by column. *)
Definition insertedRow (columns : list string) (tup : list value) : gmap string value :=
  fold_left (fun r cv => <[cv.1 := cv.2]> r) (zip columns tup) ∅.

Definition prepareInsert (tc : Context) (i : createInput) : outcome (statement * gmap string value) :=
  '(p, _) ← planEntity tc (ci_entity i) ActionCreate [];
  let '(res, tc) := (p_res p, p_tc p) in
  let keys := sortedKeys (ci_values i) in
  _ ← lift (check_uses (mkUses [] [] keys) res);
  g ← authorizeRequest tc (mkRequest (x_role tc) (ci_entity i) ActionCreate [] [] keys (x_subject tc) PNil);
  values ← lift (coerceValues (REntity res) (ci_values i));
  '(columns, tup) ← match insertColumns (REntity res) (RowFilter g) values with
                    | inl r => Done r
                    | inr v => Refused (ERowPolicy v)
                    end;
  c ← compile tc (REntity res) (EInsert (Entity.Ref (REntity res)) columns [tup]) None;
  Done (writeStatement tc res g (ofCompiled c) None, insertedRow columns tup).

Definition checkAssignments (e : Entity) (set : list (string * value)) : outcome (list (string * value)) :=
  _ ← lift (refuseKeyUpdate e (sortedKeys set));
  lift (coerceValues e set).

Definition cascadesAllowed (tc : Context) (e : Entity) (action : Action) (updated : list string) : result unit :=
  checkCascades (x_registry tc) (x_role tc) (x_subject tc) (fun req => Ok (authorize (x_authorizer tc) req)) e action updated.

Definition prepareUpdate (tc : Context) (i : updateInput) : outcome statement :=
  if bool_decide (ui_set i = []) then Refused EInvalidInput
  else
    '(p, pred) ← planEntity tc (ui_entity i) ActionUpdate (ui_filter i);
    let '(e, tc) := (REntity (p_res p), p_tc p) in
    let keys := sortedKeys (ui_set i) in
    _ ← lift (check_uses (mkUses [] (filterFields (ui_filter i)) keys) (p_res p));
    g ← authorizeRequest tc (mkRequest (x_role tc) (ui_entity i) ActionUpdate [] (filterFields (ui_filter i)) keys
                               (x_subject tc) pred);
    set ← checkAssignments e (ui_set i);
    let full := andPreds pred (RowFilter g) in
    if is_pnil full then Refused EUnsafeWrite
    else
      check ← match updateCheck e (RowFilter g) set with inl q => Done q | inr v => Refused (ERowPolicy v) end;
      let full := andPreds full check in
      _ ← lift (cascadesAllowed tc e ActionUpdate keys);
      let items := map (fun k => mkSet (columnOf e k) (member set k)) (sortedKeys set) in
      c ← compile tc e (EUpdate (Entity.Ref e) full items) (Some (identityKeysOf tc e true));
      planStatement p g c.

Definition prepareDelete (tc : Context) (i : deleteInput) : outcome statement :=
  '(p, pred) ← planEntity tc (di_entity i) ActionDelete (di_filter i);
  let '(e, tc) := (REntity (p_res p), p_tc p) in
  _ ← lift (check_uses (mkUses [] (filterFields (di_filter i)) []) (p_res p));
  g ← authorizeRequest tc (mkRequest (x_role tc) (di_entity i) ActionDelete [] (filterFields (di_filter i)) []
                             (x_subject tc) pred);
  let full := andPreds pred (RowFilter g) in
  if is_pnil full then Refused EUnsafeWrite
  else
    _ ← lift (cascadesAllowed tc e ActionDelete []);
    c ← compile tc e (EDelete (Entity.Ref e) full) (Some (identityKeysOf tc e true));
    planStatement p g c.

End tools.
