(* ===== verification/WriteToolsTheorems.v ===== *)
(** The write tools end to end: a statement they make is authorized, stays in
    the caller's row scope, touches one row where the gate requires a key, and
    its cascades are covered. *)

From stdpp Require Import sorting.
From S2P Require Import Prelude GoString Value Relalg Interp InterpFacts Entity EntityFacts Numbers WriteCheck Dialect Codegen CodegenFacts CodegenTheorems Cost CostTheorems Transaction Rbac RbacTheorems CascadeCheck CascadeTheorems FieldUses Order Filter Pipeline PipelineFacts WriteTools.

Section tools.
Context `{GoStd} `{CostStd}.

(** The gate changes no write. *)
Lemma gate_keeps_writes caps ex th t c d :
  gateCheck (NewGateFromCapabilities caps ex th t) c = inr d -> passed d = true -> st_kind c = Some KindWrite ->
  default c (Rewritten d) = c.
Proof.
  intros Hg Hp Hk. destruct (Z.ltb_spec 0 (MaxRows th)) as [Hm|Hm].
  - destruct (gate_cap _ _ _ _ _ _ Hg Hp Hm) as (d1 & Hd1 & Hrun). unfold toRun in Hrun. rewrite Hrun.
    cbn [enforceCap layerCheck] in Hd1. rewrite Hk in Hd1. rewrite orb_false_r in Hd1. simpl in Hd1.
    case_match; by injection Hd1 as <-.
  - unfold gateCheck in Hg. rewrite gate_split in Hg. unfold cap in Hg. rewrite (proj2 (Z.ltb_ge _ _) Hm) in Hg.
    destruct (checkLayers_app _ [] _ _ (guards_rewrite caps ex th t) Hg Hp) as [(s & Hs & Hw & Hr & Hd) _].
    cbn [checkLayers] in Hd. injection Hd as <-. simpl in Hs, Hw, Hr. unfold attachRewritten, softResult. rewrite Hw.
    by destruct (ch_soft s); simpl; rewrite Hr.
Qed.

(** A gated write is run as compiled, and is a point on a key. *)
Lemma planStatement_done p g c st caps ex th e0 :
  planStatement p g c = Done st -> x_gate (p_tc p) = Some (NewGateFromCapabilities caps ex th) ->
  CExpr c = e0 -> CKind c = KindWrite ->
  match e0 with EUpdate _ _ _ | EDelete _ _ => True | _ => False end ->
  s_sql st = ofCompiled c /\ s_res st = p_res p /\ s_tc st = p_tc p /\ s_grant st = g /\
  (RequirePKForWrite th = true -> IsKeyPoint c = true).
Proof.
  unfold planStatement, gateSQL. intros Hs Hgate He Hk He0. rewrite Hgate in Hs. inv_done. simpl.
  destruct (gateCheck _ (ofCompiled c)) as [err|d] eqn:Eg; [done|]. inv_done. apply admitDecision_done in E0.
  assert (passed d = true) as Hp by (unfold passed; by rewrite E0).
  split; [apply (gate_keeps_writes _ _ _ _ _ _ Eg Hp); simpl; by rewrite Hk|]. do 3 (split; [done|]).
  intros Hpk. apply (write_passes _ _ _ _ _ _ Eg Hp Hpk). unfold guardedWrite, ofCompiled. simpl. rewrite He, Hk. by destruct e0.
Qed.

(** ** What a write is held to *)

(** [own] is the filter of the request, on the entity's columns and in their
    types; a write's has no exists groups. *)
Definition filtersBy (tc : Context) (e : Entity) (filter : list condJSON) (own : Predicate) : Prop :=
  exists asked, filterToPredicate filter (lim_maxFilterConditions (x_limits tc)) = Ok asked /\
    coercePredicate e (columnsPredicate e asked) = Ok own.

(** A write of the rows [p] selects on the entity [name], with [own] the
    caller's filter: the caller is authorized for it, with the fields it
    compares (none masked) and assigns, on that entity, served and exposed;
    every row it touches is one the caller's filter selects inside the
    caller's row scope, and it is one row where [keyed] (the gate requires a
    key) and the entity's keys are unique; what it cascades to is covered. *)
Record governed (tc : Context) (st : statement) (name : string) (action : Action) (compared assigned : list string) (own : Predicate)
    (keyed : bool) (p : Predicate) : Prop := {
  gv_named : Entity.Resolve (x_registry tc) name = Some (s_res st);
  gv_allowed : s_grant st = authorize (x_authorizer tc)
      (mkRequest (x_role tc) name action [] compared assigned (x_subject tc) own) /\ Allowed (s_grant st) = true;
  gv_unmasked : forall f a, f ∈ compared -> a ∈ RAttributes (s_res st) -> named a f = true -> AMask a = "";
  gv_served : EUnavailable (REntity (s_res st)) = "" /\ DMLTools (EMCP (REntity (s_res st))) = true;
  gv_scoped : forall db rel out row, evalSelect db rel p = Ok out -> row ∈ Rows out ->
    evalPredicate own (with_db rel db) row = Ok triTrue /\
    evalPredicate (RowFilter (s_grant st)) (with_db rel db) row = Ok triTrue;
  gv_one_row : keyed = true -> forall db rel out,
    (forall key, key ∈ IdentityKeys (REntity (s_res st)) true (negb (bool_decide (x_transaction tc = ""))) -> unique_on rel key) ->
    evalSelect db rel p = Ok out -> (length (Rows out) <= 1)%nat;
  gv_cascades : cascades_covered (x_registry tc) (x_role tc) (x_subject tc) (fun req => Ok (authorize (x_authorizer tc) req))
    (REntity (s_res st), action, columnNames (REntity (s_res st)) assigned);
}.

(** The rows a point on one of the keys selects. *)
Lemma key_point_rows p keys db rel out :
  existsb (isKeyPoint p) keys = true -> (forall key, key ∈ keys -> unique_on rel key) ->
  evalSelect db rel p = Ok out -> (length (Rows out) <= 1)%nat.
Proof.
  intros Hk Hu Hs. apply existsb_exists in Hk as (key & Hin & Hkey). apply list_elem_of_In in Hin.
  by eapply key_point_single_row; [|apply Hu|].
Qed.

(** The registry a context serves. *)
Definition serves (tc : Context) (es : list Entity) : Prop :=
  NewRegistry es = Ok (x_registry tc) /\ plain_names (x_registry tc).

Lemma serves_resolved tc es name res :
  serves tc es -> Entity.Resolve (x_registry tc) name = Some res -> REntity res ∈ entities (x_registry tc).
Proof.
  intros [Hr _] Hres. destruct (NewRegistry_ok _ _ Hr) as [Hok _]. apply (Resolve_entity _ _ _ Hok) in Hres.
  by apply (ok_byName _ Hok) in Hres as [? _].
Qed.

Lemma planStatement_shape p g c st : planStatement p g c = Done st -> s_tc st = p_tc p /\ s_res st = p_res p /\ s_grant st = g.
Proof. unfold planStatement. intros Hs. inv_done. done. Qed.

(** A write through the steps both tools take. *)
Lemma steps_governed tc es caps ex th name action filter p own g compared assigned expr full c st :
  serves tc es -> planEntity tc name action filter = Done (p, own) -> writes_rows action ->
  check_uses (mkUses [] compared assigned) (p_res p) = Ok tt ->
  authorizeRequest (p_tc p) (mkRequest (x_role (p_tc p)) name action [] compared assigned (x_subject (p_tc p)) own) = Done g ->
  Forall plain (columnNames (REntity (p_res p)) assigned) ->
  cascadesAllowed (p_tc p) (REntity (p_res p)) action assigned = Ok tt ->
  compile (p_tc p) (REntity (p_res p)) expr (Some (identityKeysOf (p_tc p) (REntity (p_res p)) true)) = Done c ->
  match expr with EUpdate _ q _ | EDelete _ q => q = full | _ => False end ->
  (forall rel row, evalPredicate full rel row = Ok triTrue ->
     evalPredicate own rel row = Ok triTrue /\ evalPredicate (RowFilter g) rel row = Ok triTrue) ->
  planStatement p g c = Done st -> x_gate (s_tc st) = Some (NewGateFromCapabilities caps ex th) ->
  s_res st = p_res p /\ s_grant st = g /\ st_expr (s_sql st) = Some expr /\ filtersBy tc (REntity (p_res p)) filter own /\
  governed tc st name action compared assigned own (RequirePKForWrite th) full.
Proof.
  intros Hserve Hplan Hact Huses Hauth Hcols Hcasc Hcomp Hexpr Hscope Hst Hgate.
  destruct (planEntity_done _ _ _ _ _ _ Hplan) as (Hres & Hdml & Hroute).
  destruct (routeEntity_keeps _ _ _ _ Hroute) as (Hreg & Haz & Hr & Hs & Htx).
  destruct (authorizeRequest_done _ _ _ Hauth) as (Hg & Hal & Hav).
  destruct (compile_done _ _ _ _ _ Hcomp) as (Hce & Hck & Hkp).
  destruct (planStatement_shape _ _ _ _ Hst) as (Htc & _ & _). rewrite Htc in Hgate.
  destruct (planStatement_done _ _ _ _ _ _ _ expr Hst Hgate Hce) as (Hsql & Hsres & _ & Hsg & Hpoint).
  { rewrite Hck. by destruct expr. } { by destruct expr. }
  apply field_uses_checked in Huses as (_ & Hm & _).
  split; [done|]. split; [done|]. split; [by rewrite Hsql; simpl; f_equal|].
  split; [exact (planEntity_filter _ _ _ _ _ _ Hplan)|]. constructor; rewrite ?Hsres, ?Hsg; [done| |done| | | |].
  - split; [|done]. by rewrite Hg, Haz, Hr, Hs.
  - split; [|done]. apply Hav. by rewrite Hreg.
  - intros db rel out row Hsel Hrow. apply Hscope. by apply (evalSelect_spec _ _ _ _ Hsel) in Hrow as [_ ?].
  - intros Hpk%Hpoint db rel out Hu Hsel. rewrite Hkp in Hpk. eapply key_point_rows; [exact Hpk| |].
    + unfold keysOfConfig, compileOptions. simpl. unfold identityKeysOf. by rewrite Htx.
    + assert (PredicateOf expr = full) as ->; [|done]. destruct expr; try done; subst; unfold PredicateOf; simpl; by destruct full.
  - destruct Hserve as [Hnew Hpl]. destruct (NewRegistry_ok _ _ Hnew) as [Hok _].
    apply checkCascades_covered; try done.
    + by eapply serves_resolved.
    + unfold cascadesAllowed in Hcasc. by rewrite Hreg, Hr, Hs, Haz in Hcasc.
Qed.

Lemma unrouted_delete tc i st : x_sources tc = ∅ -> prepareDelete tc i = Done st -> x_gate (s_tc st) = x_gate tc.
Proof.
  intros Hs Hd. unfold prepareDelete in Hd. inv_done. destruct (is_pnil _); [done|]. inv_done.
  apply planStatement_shape in Hd as [-> _]. by eapply planEntity_unrouted.
Qed.

Lemma unrouted_update tc i st : x_sources tc = ∅ -> prepareUpdate tc i = Done st -> x_gate (s_tc st) = x_gate tc.
Proof.
  intros Hs Hd. unfold prepareUpdate in Hd. case_bool_decide; [done|]. inv_done. destruct (is_pnil _); [done|]. inv_done.
  apply planStatement_shape in Hd as [-> _]. by eapply planEntity_unrouted.
Qed.

(** C4. A delete is governed end to end.  The registry is as NewRegistry builds
    it, its names hold no NUL byte, and the gate is one built from the
    configuration.  Whatever the request, a statement the delete tool makes
    is the DELETE, on the entity the request names, of the rows that satisfy
    both the request's filter (as the entity's columns take it) and the
    caller's row filter; the caller is authorized to delete there and to
    compare the fields of the filter, none of them masked, and the entity is
    served; it is one row at most, where the entity's enforced keys are unique
    and the gate requires a key for writes; and every write it cascades to is
    covered. *)
Theorem delete_governed (tc : Context) (i : deleteInput) (st : statement) (es : list Entity) (caps : Profile)
    (ex : option Estimator) (th : Threshold) :
  serves tc es -> prepareDelete tc i = Done st ->
  x_gate (s_tc st) = Some (NewGateFromCapabilities caps ex th) ->
  let e := REntity (s_res st) in
  exists own, filtersBy tc e (di_filter i) own /\
    let p := andPreds own (RowFilter (s_grant st)) in
    st_expr (s_sql st) = Some (EDelete (Entity.Ref e) p) /\
    governed tc st (di_entity i) ActionDelete (filterFields (di_filter i)) [] own (RequirePKForWrite th) p.
Proof.
  intros Hserve Hd Hgate. cbv zeta. unfold prepareDelete in Hd. inv_done.
  rename E into Hplan, E0 into Huses, E1 into Hauth, e into pl, p into own, a0 into g. destruct (is_pnil _); [done|]. inv_done.
  edestruct steps_governed with (full := andPreds own (RowFilter g)) as (Hres & Hg & Hexpr & Hf & Hgov);
    [exact Hserve|exact Hplan|by right|exact Huses|exact Hauth|constructor|exact E|exact E0|done| |exact Hd|exact Hgate|].
  { intros rel row Hrow. by apply andPreds_true in Hrow. }
  rewrite Hres, Hg. by exists own.
Qed.

Lemma coerceValues_keys e l l' : coerceValues e l = Ok l' -> l'.*1 = l.*1.
Proof.
  unfold coerceValues. intros Hm. apply mapM_ok in Hm. induction Hm as [|[k v] [k' v'] l l' Hkv Hm IH]; [done|]. simpl in *.
  apply bind_ok in Hkv as (c & _ & Hkv). injection Hkv as <- <-. f_equal. exact IH.
Qed.

Lemma refuseKeyUpdate_keys e fields fields' :
  fields ≡ₚ fields' -> refuseKeyUpdate e fields = Ok tt -> refuseKeyUpdate e fields' = Ok tt.
Proof.
  intros Hp. unfold refuseKeyUpdate. case_match; [done|]. rewrite !keyUpdateLoop_ok, !Forall_forall.
  intros Hall f Hf. apply Hall. by rewrite Hp.
Qed.

(** C3. An update is governed end to end.  The registry is as NewRegistry
    builds it, its names and the columns assigned hold no NUL byte, and the
    gate is one built from the configuration.  A statement the update tool
    makes is the UPDATE, on the entity the request names, with the values
    asked for as their columns take them, of the rows that satisfy the
    request's filter (as the entity's columns take it), the caller's row
    filter and the check that they stay in it; it is held to what a delete is
    (the fields assigned authorized too), and every row it changes is in the
    caller's row scope after it as before; unless the entity allows it, no
    column of the key that identifies its rows changes. *)
Theorem update_governed (tc : Context) (i : updateInput) (st : statement) (es : list Entity) (caps : Profile)
    (ex : option Estimator) (th : Threshold) :
  serves tc es -> prepareUpdate tc i = Done st ->
  x_gate (s_tc st) = Some (NewGateFromCapabilities caps ex th) ->
  Forall plain (columnNames (REntity (s_res st)) (sortedKeys (ui_set i))) ->
  let e := REntity (s_res st) in
  exists own set check, filtersBy tc e (ui_filter i) own /\ coerceValues e (ui_set i) = Ok set /\
    updateCheck e (RowFilter (s_grant st)) set = inl check /\
    let p := andPreds (andPreds own (RowFilter (s_grant st))) check in
    st_expr (s_sql st) = Some (EUpdate (Entity.Ref e) p (map (fun k => mkSet (columnOf e k) (member set k)) (sortedKeys set))) /\
    governed tc st (ui_entity i) ActionUpdate (filterFields (ui_filter i)) (sortedKeys (ui_set i)) own (RequirePKForWrite th) p /\
    forall db rel out old new, evalSelect db rel p = Ok out -> old ∈ Rows out ->
      updated (with_db rel db) old new (exactValues e (byColumn e set)) ->
      (forall w, evalPredicate (RowFilter (s_grant st)) (with_db rel db) new = Ok w -> w = triTrue) /\
      (forall key c n, EAllowKeyUpdate e = false -> CursorKey e = Some key -> c ∈ key -> colIndex (with_db rel db) c = Ok n ->
         old !! n = new !! n).
Proof.
  intros Hserve Hu Hgate Hcols. cbv zeta. unfold prepareUpdate in Hu. case_bool_decide; [done|]. inv_done.
  unfold checkAssignments in *. inv_done. destruct (is_pnil _); [done|]. inv_done.
  rename E into Hplan, E0 into Huses, E1 into Hauth, E2 into Hset, E3 into Hkeys, E4 into Hcheck, e into pl, p into own, a0 into g,
    a1 into set, a into check.
  destruct (updateCheck _ _ set) as [q|] eqn:Hq; [injection Hcheck as <-|done].
  destruct (planStatement_shape _ _ _ _ Hu) as (_ & Hsres & _). rewrite Hsres in Hcols.
  edestruct steps_governed with (full := andPreds (andPreds own (RowFilter g)) q) as (Hres & Hg & Hexpr & Hf & Hgov);
    [exact Hserve|exact Hplan|by left|exact Huses|exact Hauth|exact Hcols|exact E5|exact E6|done| |exact Hu|exact Hgate|].
  { intros rel row Hrow. apply andPreds_true in Hrow as [Hrow _]. by apply andPreds_true in Hrow. }
  rewrite Hres, Hg. exists own, set, q. do 5 (split; [done|]). intros db rel out old new Hsel Hold Hupd. split.
  - intros w Hw. destruct (updateCheck_iff _ _ _ _ _ _ _ _ Hupd Hq Hw) as [Hqo|[_ ->]]; [|done].
    apply (evalSelect_spec _ _ _ _ Hsel) in Hold as [_ Hp]. apply andPreds_true in Hp as [_ Hp]. congruence.
  - intros key c n Hak Hck Hc Hn. eapply key_update_refused; [exact Hak|exact Hck| |exact Hupd|exact Hc|exact Hn].
    rewrite (coerceValues_keys _ _ _ Hset). eapply refuseKeyUpdate_keys; [|exact Hkeys]. apply sort_strings_Permutation.
Qed.

Lemma distinctColumns_perm e fields fields' :
  fields ≡ₚ fields' -> distinctColumns e fields = Ok tt -> distinctColumns e fields' = Ok tt.
Proof.
  intros Hp [Hnd Hni]%distinctLoop_ok. apply distinctLoop_ok. unfold columnsOf in *.
  split; [by rewrite <- Hp|]. intros c Hc. apply Hni. by rewrite Hp.
Qed.

Lemma check_uses_written res values :
  check_uses (mkUses [] [] (sortedKeys values)) res = Ok tt -> distinctColumns (REntity res) values.*1 = Ok tt.
Proof.
  unfold check_uses. cbn [uread ucompared uwritten]. intros Hu.
  apply bind_ok in Hu as (_ & _ & Hu). apply bind_ok in Hu as (_ & _ & Hu).
  apply (distinctColumns_perm _ (sortedKeys values)); [apply sort_strings_Permutation|].
  destruct (sortedKeys values); [done|]. by apply bind_ok in Hu as ([] & Hd & _).
Qed.

(** C5. A create is governed end to end.  A statement the create tool makes is
    the INSERT of one row into the entity named, with every value asked for in
    its column, as the column takes it; the caller is authorized to create with
    the fields named, the entity is served, and the row stored is in the
    caller's row scope whatever the database puts in the columns left out. *)
Theorem create_governed (tc : Context) (i : createInput) (st : statement) (inserted : gmap string value) :
  prepareInsert tc i = Done (st, inserted) ->
  let e := REntity (s_res st) in
  exists columns tup values, st_expr (s_sql st) = Some (EInsert (Entity.Ref e) columns [tup]) /\ inserted = insertedRow columns tup /\
    coerceValues e (ci_values i) = Ok values /\
    (forall f v, (f, v) ∈ values -> (columnOf e f, v) ∈ zip columns tup) /\
    s_grant st = authorize (x_authorizer tc)
      (mkRequest (x_role tc) (ci_entity i) ActionCreate [] [] (sortedKeys (ci_values i)) (x_subject tc) PNil) /\
    Allowed (s_grant st) = true /\
    Entity.Resolve (x_registry tc) (ci_entity i) = Some (s_res st) /\ EUnavailable e = "" /\ DMLTools (EMCP e) = true /\
    forall rel row w, stores e rel row columns tup -> evalPredicate (RowFilter (s_grant st)) rel row = Ok w -> w = triTrue.
Proof.
  intros Hi. unfold prepareInsert in Hi. inv_done. cbn [s_res s_grant s_sql].
  rename E into Hplan, E0 into Huses, E1 into Hauth, E2 into Hset, E4 into Hcomp.
  destruct (insertColumns _ _ a1) as [[columns tup]|] eqn:Hins; [injection E3 as <- <-|done].
  destruct (planEntity_done _ _ _ _ _ _ Hplan) as (Hres & Hdml & Hroute).
  destruct (routeEntity_keeps _ _ _ _ Hroute) as (Hreg & Haz & Hr & Hs & _).
  destruct (authorizeRequest_done _ _ _ Hauth) as (Hg & Hal & Hav).
  destruct (compile_done _ _ _ _ _ Hcomp) as (Hce & _).
  exists columns, tup, a1. rewrite <- Haz, <- Hr, <- Hs. split; [by simpl; f_equal|]. split; [done|]. split; [done|].
  split; [|split_and!; try done; [by apply Hav; rewrite Hreg|by intros rel row w; apply insert_row_in_scope with (values := a1)]].
  eapply insert_keeps_values; [exact Hins|]. rewrite (coerceValues_keys _ _ _ Hset). by apply check_uses_written.
Qed.

End tools.

(** ** A clerk on the orders of a tenant *)

Definition clerkOrders : Entity :=
  mkEntity "default.orders" "orders" "orders" "" "" "" KindTable
    [mkAttr "id" "" "" (tenantDomain "integer") false ""; mkAttr "tenant" "" "" (tenantDomain "text") false "";
     mkAttr "total" "amount" "" (tenantDomain "numeric(10,2)") false ""]
    [mkKey "pk" ["id"] true false true ""] [] [] [] [] (mkMCP true false false) []
    (PCond (mkCond "tenant" OpEq (VString "${subject.tenant}"))) [] false "" [] "" [] [] false false [] false [].

Definition clerkRegistry : Registry := Eval vm_compute in
  match NewRegistry [clerkOrders] with Ok r => r | Err _ => emptyRegistry end.

Definition clerkGrant : Grant := mkGrant "role:clerk:0" [ActionCreate; ActionUpdate; ActionDelete] None PNil.

Definition clerk : Context :=
  mkContext clerkRegistry
    (@NewGrantAuthorizer asciiStd clerkRegistry (mkPolicy {["clerk"%string := {["default.orders"%string := [clerkGrant]]}]} ∅ ∅))
    "clerk" {["tenant"%string := VString "acme"]} ∅ mysql
    (Some (@NewGateFromCapabilities asciiStd demoCostStd (Capabilities mysql) (Some indexScan) strict))
    (Some 0%nat) noTightening "" (fun _ => None) (fun _ => false) (mkLimits 0 0 0 0 0 0 0 0 0 0) 0 0 0 None 0 "" false.

Definition whereEq (field : string) (v : value) : condJSON := mkCondJSON field "eq" v None None None "" None.
Definition deleteBy (field : string) (v : value) : deleteInput := mkDelete "orders" "" [whereEq field v].
Definition createTen : createInput := mkCreate "orders" "" [("id"%string, VInt KInt64 7); ("amount"%string, VString "10")].
Definition setAmount : updateInput := mkUpdate "orders" "" [whereEq "id" (VInt KInt64 7)] [("amount"%string, VString "12")].

Definition sqlOf (o : outcome statement) : option (string * list value) :=
  match o with Done st => Some (st_sql (s_sql st), st_args (s_sql st)) | Refused _ => None end.

Definition demoDelete (i : deleteInput) : outcome statement := @prepareDelete asciiStd clerk i.
Definition demoUpdate (i : updateInput) : outcome statement := @prepareUpdate asciiStd clerk i.
Definition demoCreate (i : createInput) : outcome statement := p ← @prepareInsert asciiStd clerk i; Done p.1.

(** A delete that names no key is refused; the others carry the tenant. *)
Example clerk_statements :
  sqlOf (demoDelete (deleteBy "id" (VInt KInt64 7))) =
    Some ("DELETE FROM `orders` WHERE (`id` = ? AND `tenant` = ?)", [VInt KInt64 7; VString "acme"]) /\
  sqlOf (demoDelete (deleteBy "amount" (VString "10"))) = None /\
  sqlOf (demoUpdate setAmount) =
    Some ("UPDATE `orders` SET `total` = ? WHERE ((`id` = ? AND `tenant` = ?) AND `tenant` = ?)",
          [VString "12"; VInt KInt64 7; VString "acme"; VString "acme"]) /\
  sqlOf (demoCreate createTen) =
    Some ("INSERT INTO `orders` (`id`, `tenant`, `total`) VALUES (?, ?, ?)", [VInt KInt64 7; VString "acme"; VString "10"]).
Proof. vm_compute. auto. Qed.

Lemma clerk_serves : serves clerk [clerkOrders].
Proof.
  split; [vm_compute; reflexivity|]. intros x Hx. assert (entities (x_registry clerk) = [clerkOrders]) as Heq by reflexivity.
  rewrite Heq in Hx. apply list_elem_of_singleton in Hx as ->. split; [reflexivity|]. by intros c []%not_elem_of_nil.
Qed.

(** What the evaluation of a clerk's call shows of its statement. *)
Definition clerkStatement (o : outcome statement) : Prop :=
  match o with
  | Done st => REntity (s_res st) = clerkOrders /\
      RowFilter (s_grant st) = PCond (mkCond "tenant" OpEq (VString "acme"))
  | Refused _ => False
  end.

Lemma clerk_calls :
  clerkStatement (demoDelete (deleteBy "id" (VInt KInt64 7))) /\ clerkStatement (demoUpdate setAmount) /\
  clerkStatement (demoCreate createTen).
Proof. vm_compute. repeat split. Qed.

Lemma delete_governed_witness :
  match demoDelete (deleteBy "id" (VInt KInt64 7)) with
  | Done st => exists p, st_expr (s_sql st) = Some (EDelete (Entity.Ref clerkOrders) p) /\
      p = PAnd [PCond (mkCond "id" OpEq (VInt KInt64 7)); PCond (mkCond "tenant" OpEq (VString "acme"))] /\
      @governed asciiStd clerk st "orders" ActionDelete ["id"%string] [] (PCond (mkCond "id" OpEq (VInt KInt64 7))) true p
  | Refused _ => False
  end.
Proof.
  pose proof (proj1 clerk_calls) as Hc.
  destruct (demoDelete (deleteBy "id" (VInt KInt64 7))) as [st|] eqn:Hd; [|destruct Hc]. destruct Hc as [Hres Hrow].
  destruct (@delete_governed asciiStd demoCostStd clerk _ st [clerkOrders] (Capabilities mysql) (Some indexScan) strict clerk_serves Hd)
    as (own & Hf & Hp & Hgov); [by rewrite (unrouted_delete clerk _ _ eq_refl Hd)|].
  rewrite Hres in Hf, Hp. rewrite Hrow in Hp, Hgov. destruct Hf as (asked & Ha & Ho). vm_compute in Ha. injection Ha as <-.
  vm_compute in Ho. injection Ho as <-. eexists. split; [exact Hp|]. split; [reflexivity|exact Hgov].
Defined.

Lemma update_governed_witness :
  match demoUpdate setAmount with
  | Done st => exists p items, st_expr (s_sql st) = Some (EUpdate (Entity.Ref clerkOrders) p items) /\
      items = [mkSet "total" (VString "12")] /\
      @governed asciiStd clerk st "orders" ActionUpdate ["id"%string] ["amount"%string] (PCond (mkCond "id" OpEq (VInt KInt64 7))) true p
  | Refused _ => False
  end.
Proof.
  pose proof (proj1 (proj2 clerk_calls)) as Hc.
  destruct (demoUpdate setAmount) as [st|] eqn:Hd; [|destruct Hc]. destruct Hc as [Hres _].
  destruct (@update_governed asciiStd demoCostStd clerk _ st [clerkOrders] (Capabilities mysql) (Some indexScan) strict clerk_serves Hd)
    as (own & set & check & Hf & Hset & _ & Hp & Hgov & _).
  - by rewrite (unrouted_update clerk _ _ eq_refl Hd).
  - rewrite Hres. by repeat constructor.
  - rewrite Hres in Hf, Hset, Hp. destruct Hf as (asked & Ha & Ho). vm_compute in Ha. injection Ha as <-.
    vm_compute in Ho. injection Ho as <-. vm_compute in Hset. injection Hset as <-.
    eexists _, _. split; [exact Hp|]. split; [reflexivity|exact Hgov].
Defined.

Lemma create_governed_witness :
  match demoCreate createTen with
  | Done st => exists columns tup, st_expr (s_sql st) = Some (EInsert (Entity.Ref clerkOrders) columns [tup]) /\
      ("total"%string, VString "10") ∈ zip columns tup /\ Allowed (s_grant st) = true
  | Refused _ => False
  end.
Proof.
  pose proof (proj2 (proj2 clerk_calls)) as Hc.
  destruct (demoCreate createTen) as [st|] eqn:Hd; [|destruct Hc]. destruct Hc as (Hres & _).
  apply outcome_bind_done in Hd as ([st' inserted] & Hd & Hst). injection Hst as ->.
  destruct (@create_governed asciiStd clerk createTen st inserted Hd) as (columns & tup & values & Hexpr & _ & Hval & Hin & _ & Hal & _).
  rewrite Hres in *. exists columns, tup. split; [exact Hexpr|]. split; [|exact Hal].
  vm_compute in Hval. injection Hval as <-. apply (Hin "amount"%string). right. left.
Defined.
