(* ===== verification/Related.v ===== *)
(** What a request names across relationships: core/tool/related.go.

    A path (relationship.field) joins the target, an exists group becomes a
    semi-join; both are authorized on the target and carry its row filter. *)

From S2P Require Import Prelude GoString Value Relalg Entity Numbers WriteCheck Dialect Codegen Cost Transaction Rbac FieldUses Order Filter Pipeline.

(** ** Relationships *)

(** joinColumns *)
Record joinColumns : Type := mkJoin {
  jlocal : list string;
  jtarget : list string;
  jlocalDecimal : list bool;
  jtargetDecimal : list bool;
}.

(** relation.JoinOn[local] *)
Definition joinOn (r : Relationship) (local : string) : string :=
  default "" (snd <$> List.find (fun kv => String.eqb kv.1 local) (ReJoinOn r)).

Definition joinLocals (r : Relationship) : list string := sort_strings (ReJoinOn r).*1.

Definition relationJoin (r : Relationship) : joinColumns :=
  mkJoin (joinLocals r) (joinOn r <$> joinLocals r) [] [].

Definition joinPairs (j : joinColumns) : list JoinPair := zip_with mkPair (jlocal j) (jtarget j).

(** The zero Relationship. *)
Definition noRelationship : Relationship := mkRelationship "" "" "" [].

Definition relationOf (e : Entity) (name : string) : Relationship := default noRelationship (relationshipByName e name).

(** A join a request needs; relalg.Join without its input. *)
Record relatedJoin : Type := mkRelated {
  rj_right : RelationRef;
  rj_alias : string;
  rj_on : list JoinPair;
  rj_predicate : Predicate;
}.

Record related : Type := mkRelateds {
  rel_joins : list relatedJoin;
  rel_locals : list string;
  rel_rename : gmap string string;
}.

Definition wrap (r : related) (expr : Expr) : Expr :=
  fold_left (fun expr j => EJoin expr (rj_right j) (rj_alias j) (rj_on j) (rj_predicate j)) (rel_joins r) expr.

(** ** Planning *)

Section planning.
Context `{GoStd}.

Definition relatedTarget (tc : Context) (e : Entity) (r : Relationship) (fields : list string)
  : outcome (Resolved * Rbac.Decision) :=
  target ← resolveDMLEntity tc (ReTarget r);
  if negb (bool_decide (EDataSource (REntity target) = EDataSource e)) then Refused EInvalidInput
  else
    let used := fields ++ jtarget (relationJoin r) in
    _ ← lift (check_uses (mkUses [] used []) target);
    g ← authorizeRequest tc (mkRequest (x_role tc) (EName (REntity target)) ActionRead used used [] (x_subject tc) PNil);
    Done (target, g).

(** pathOf without its flag: the relationship's name and the target's field. *)
Definition pathParts (e : Entity) (field : string) : string * string :=
  match cut "." field with
  | None => (""%string, ""%string)
  | Some (name, rest) => (ReName (relationOf e name), rest)
  end.

(** byRelation[name] *)
Definition fieldsOf (e : Entity) (paths : list string) (name : string) : list string :=
  snd <$> List.filter (fun nf => bool_decide (nf.1 = name)) (pathParts e <$> paths).

Definition joinsOnKey (target : Entity) (j : joinColumns) : bool :=
  existsb (fun k => (length k =? length (jtarget j))%nat && forallb (fun c => bool_decide (c ∈ jtarget j)) k)
    (IdentityKeys target false false).

Definition renamePath (target : Entity) (name : string) (rename : gmap string string) (f : string) : gmap string string :=
  <[name +:+ "." +:+ f := name +:+ "." +:+ match AttributeByName target f with Some a => AName a | None => "" end]> rename.

(** One round of planJoins' loop. *)
Definition joinRelation (tc : Context) (res : Resolved) (paths : list string) (out : related) (name : string) : outcome related :=
  let r := relationOf (REntity res) name in
  if negb (Single r) then Refused EInvalidInput
  else
    '(target, g) ← relatedTarget tc (REntity res) r (fieldsOf (REntity res) paths name);
    let j := relationJoin r in
    if negb (joinsOnKey (REntity target) j) then Refused EInvalidInput
    else Done (mkRelateds
      (rel_joins out ++ [mkRelated (Entity.Ref (REntity target)) name (joinPairs j) (RowFilter g)])
      (rel_locals out ++ jlocal j)
      (fold_left (renamePath (REntity target) name) (fieldsOf (REntity res) paths name) (rel_rename out))).

Fixpoint joinRelations (tc : Context) (res : Resolved) (paths : list string) (out : related) (names : list string)
  : outcome related :=
  match names with
  | [] => Done out
  | name :: names => out ← joinRelation tc res paths out name; joinRelations tc res paths out names
  end.

Definition planJoins (tc : Context) (res : Resolved) (paths : list string) : outcome related :=
  joinRelations tc res paths (mkRelateds [] [] ∅)
    (sort_strings (dedup [] (fst <$> (pathParts (REntity res) <$> paths)))).

(** ** Exists groups *)

(** The case of an exists group; [locals] are the columns read so far. *)
Definition resolveGroup (tc : Context) (res : Resolved) (rf : RelationRef) (on : list JoinPair) (p : Predicate) (locals : list string)
  : outcome (Predicate * list string) :=
  match relationshipByName (REntity res) (RefName rf) with
  | None => Refused EInvalidInput
  | Some r =>
      if negb (bool_decide (on = [])) then Refused EInvalidInput
      else if HasExists p then Refused EInvalidInput
      else
        '(target, g) ← relatedTarget tc (REntity res) r (Fields p);
        inner ← lift (coercePredicate (REntity target) (columnsPredicate (REntity target) p));
        let j := relationJoin r in
        Done (PExists (Entity.Ref (REntity target)) (joinPairs j) (andPreds inner (RowFilter g)), locals ++ jlocal j)
  end.

Definition walkAll (walk : Predicate -> list string -> outcome (Predicate * list string)) :
    list Predicate -> list string -> outcome (list Predicate * list string) :=
  fix go (ps : list Predicate) (locals : list string) : outcome (list Predicate * list string) :=
    match ps with
    | [] => Done ([], locals)
    | p :: ps => '(q, locals) ← walk p locals; '(qs, locals) ← go ps locals; Done (q :: qs, locals)
    end.

Fixpoint walkExists (tc : Context) (res : Resolved) (p : Predicate) (locals : list string) : outcome (Predicate * list string) :=
  match p with
  | PExists rf on q => resolveGroup tc res rf on q locals
  | PAnd ps => '(qs, locals) ← walkAll (walkExists tc res) ps locals; Done (PAnd qs, locals)
  | POr ps => '(qs, locals) ← walkAll (walkExists tc res) ps locals; Done (POr qs, locals)
  | PNot q => '(q, locals) ← walkExists tc res q locals; Done (PNot q, locals)
  | PNil | PCond _ => Done (p, locals)
  end.

Definition resolveExists (tc : Context) (res : Resolved) (p : Predicate) : outcome (Predicate * list string) :=
  walkExists tc res p [].

(** relate (tools_read_impl.go) *)
Definition relate (tc : Context) (res : Resolved) (pred : Predicate) (paths : list string)
  : outcome (related * Predicate * list string) :=
  rel ← planJoins tc res paths;
  '(pred, locals) ← resolveExists tc res (renamed (rel_rename rel) pred);
  Done (rel, pred, rel_locals rel ++ locals).

End planning.
