(* ===== verification/ReadTool.v ===== *)
(** Planning a read: core/tool/tools_read_impl.go up to the statement, with
    the checks of ReadTool.Run (tools_read.go).

    The hints added to a refused plan and the fingerprint kept for feedback
    are left out.  The texts of a cache key's arguments and subject are
    encoding/json's, parameters of the classes [ArgsText] and [SubjectText]. *)

From S2P Require Import Prelude GoString Value Relalg Entity Numbers WriteCheck Dialect Codegen Cost Transaction Cache Invalidation Rbac FieldUses Order Filter Pipeline Related.

(** The text argsKey gives arguments: encoding/json's, or fmt's "%#v". *)
Class ArgsText : Type := argsText : list value -> string.

Record readPlan : Type := mkReadPlan {
  rp_res : Resolved;
  rp_tc : Context;
  rp_projection : list string;
  rp_full : Predicate;
  rp_keyset : list string;
  rp_order : readOrder;
  rp_rel : related;
  rp_grant : Rbac.Decision;
}.

Definition with_limit (i : readInput) (limit : Z) : readInput :=
  mkInput (RTarget i) (RTransaction i) (RFields i) (RExpand i) (RFilter i) (ROrderBy i) (RDistinct i) limit (ROffset i) (RCursor i).

(** capLimit: the limit it leaves, and whether it set it. *)
Definition capLimit (tc : Context) (limit : Z) : Z * bool :=
  let maxRows := lim_maxRows (x_limits tc) in
  if (maxRows <=? 0) || (limit <? 0) || ((0 <? limit) && (limit <=? maxRows)) then (limit, false) else (maxRows, true).

Definition expandJoinColumns (parent : Entity) (names : list string) : list string :=
  dedup [] (flat_map (fun name => joinLocals (relationOf parent name)) names).

Definition cursorFields (i : readInput) : list string := sort_strings (map_to_list (RCursor i)).*1.

Definition orderFieldNames (terms : list orderJSON) : list string := OField <$> terms.

(** The loop over the columns expansion joins on, as they enter the projection. *)
Definition addLocals (fields projection locals : list string) : list string :=
  fold_left (fun p local => if negb (bool_decide (fields = [])) && negb (bool_decide (local ∈ p)) then p ++ [local] else p)
    locals projection.

Definition readFieldNames (res : Resolved) (i : readInput) : outcome (list string * list string) :=
  if negb (forallb (fun name => bool_decide (is_Some (relationshipByName (REntity res) name))) (RExpand i))
  then Refused EInvalidInput
  else
    let locals := expandJoinColumns (REntity res) (RExpand i) in
    Done (filterFields (RFilter i) ++ RFields i ++ locals ++ cursorFields i, addLocals (RFields i) (RFields i) locals).

(** checkExpansions, one relationship. *)
Definition checkExpansion (tc : Context) (parent : Entity) (name : string) : outcome unit :=
  let r := relationOf parent name in
  if bool_decide (ReJoinOn r = []) then Refused EInvalidInput
  else
    target ← resolveDMLEntity tc (ReTarget r);
    _ ← lift (check_uses (mkUses [] (jtarget (relationJoin r)) []) target);
    if negb (bool_decide (EDataSource (REntity target) = EDataSource parent)) then Refused EInvalidInput else Done tt.

Fixpoint checkExpansions (tc : Context) (parent : Entity) (names : list string) : outcome unit :=
  match names with
  | [] => Done tt
  | name :: names => _ ← checkExpansion tc parent name; checkExpansions tc parent names
  end.

(** The fields a read compares. *)
Definition comparedFields (res : Resolved) (i : readInput) (locals : list string) : list string :=
  (splitPaths (REntity res) (filterFields (RFilter i) ++ cursorFields i)).1 ++ locals ++ expandJoinColumns (REntity res) (RExpand i).

Definition checkReadUses (tc : Context) (res : Resolved) (i : readInput) (readFields locals : list string) : outcome unit :=
  _ ← lift (check_uses (mkUses readFields (comparedFields res i locals) []) res);
  checkExpansions tc (REntity res) (RExpand i).

Definition with_reads (req : Request) (fields reads : list string) : Request :=
  mkRequest (QRole req) (QEntity req) (QAction req) fields reads (QWriteFields req) (QSubject req) (QPredicate req).

Section read.
Context `{GoStd} `{CostStd}.

Definition readsKey (tc : Context) (req : Request) (o : readOrder) : bool :=
  match keyFields o with
  | [] => true
  | _ => Allowed (authorize (x_authorizer tc) (with_reads req (QFields req) (QReadFields req ++ keyFields o)))
  end.

(** The ordered fields the projection lacks, added to it. *)
Definition addOrdered (e : Entity) (fields ordered : list string) : list string :=
  fold_left (fun fs f => if existsb (fun x => bool_decide (columnOf e x = f)) fs then fs else fs ++ [f]) ordered fields.

Definition orderRead (tc : Context) (res : Resolved) (i : readInput) (req : Request) (rel : related) : outcome (readOrder * Request) :=
  if RDistinct i && (bool_decide (RFields i = []) || negb (bool_decide (RExpand i = [])) || negb (bool_decide (RCursor i = ∅)))
  then Refused EInvalidInput
  else
    order ← lift (planReadOrder res i (rel_rename rel));
    let own := (splitPaths (REntity res) (order_fields order)).1 in
    let reads := QReadFields req ++ List.filter (fun f => negb (bool_decide (f ∈ keyFields order))) own in
    let req := with_reads req (QFields req) reads in
    let order := if readsKey tc req order then order else withoutKey order in
    let fields := if pageable order && negb (bool_decide (RFields i = []))
                  then addOrdered (REntity res) (QFields req) (order_fields order) else QFields req in
    Done (order, with_reads req fields (reads ++ keyFields order)).

Definition readCursor (e : Entity) (o : readOrder) (i : readInput) : outcome (Predicate * list string) :=
  match ROrderBy i with
  | [] => lift (cursorPredicate e (RCursor i))
  | _ =>
      if bool_decide (RCursor i = ∅) then Done (PNil, [])
      else
        p ← lift (orderCursor o (RCursor i));
        p ← lift (coercePredicate e p);
        Done (p, [])
  end.

Definition authorizeRead (tc : Context) (res : Resolved) (i : readInput) (req : Request) : outcome Rbac.Decision :=
  g ← authorizeRequest tc req;
  _ ← (if RDistinct i then lift (check_uses (mkUses [] (DFields g) []) res) else Done tt);
  Done g.

Definition prepareReadPlan (tc : Context) (i : readInput) : outcome readPlan :=
  '(ep, pred) ← planEntity tc (RTarget i) ActionRead (RFilter i);
  let '(res, tc) := (p_res ep, p_tc ep) in
  '(readFields, projection) ← readFieldNames res i;
  if negb (bool_decide ((splitPaths (REntity res) (RFields i)).2 = [])) then Refused EInvalidInput
  else
    let '(readFields, paths) := splitPaths (REntity res) readFields in
    let orderPaths := (splitPaths (REntity res) (orderFieldNames (ROrderBy i))).2 in
    '(rel, pred, locals) ← relate tc res pred (paths ++ orderPaths);
    let readFields := readFields ++ locals in
    _ ← checkReadUses tc res i readFields locals;
    let req := mkRequest (x_role tc) (RTarget i) ActionRead projection readFields [] (x_subject tc) pred in
    '(order, req) ← orderRead tc res i req rel;
    g ← authorizeRead tc res i req;
    '(keyset, keysetCols) ← readCursor (REntity res) order i;
    Done (mkReadPlan res tc (QFields req) (andPreds (andPreds pred (RowFilter g)) keyset) keysetCols order rel g).

(** ** The expression and the statement *)

Definition orderOf (plan : readPlan) : list OrderTerm :=
  match terms (rp_order plan) with
  | [] => (fun c => mkTerm c "asc" false) <$> rp_keyset plan
  | ts => ts
  end.

Definition buildReadExpression (i : readInput) (plan : readPlan) : Expr :=
  let e := REntity (rp_res plan) in
  let expr := wrap (rp_rel plan) (EScan (Entity.Ref e) "") in
  let expr := if is_pnil (rp_full plan) then expr else ESelect expr (rp_full plan) in
  let expr := match orderOf plan with [] => expr | ts => ESort expr ts end in
  let expr := EProject expr (projectItems e (DFields (rp_grant plan))) in
  let expr := if RDistinct i then EDistinct expr else expr in
  if 0 <? RLimit i then ELimit expr (RLimit i) (ROffset i) else expr.

Context `{SubjectText} `{ArgsText}.

(** The key of a read in the cache; without one, only its database matters. *)
Definition readKey (tc : Context) (e : Entity) (i : readInput) (sql : Statement) : result Cache.Key :=
  db ← physicalDatabase e;
  Ok (Cache.mkKey db (cacheRelation e) (DatasourceName e) (x_generation tc)
        (st_sql sql +:+ NUL +:+ "expand=" +:+ join "," (RExpand i)) (argsText (st_args sql))
        (scopeKey (x_role tc) (x_subject tc))).

Definition compileReadQuery (plan : readPlan) (i : readInput) : outcome (statement * Cache.Key) :=
  let '(tc, res) := (rp_tc plan, rp_res plan) in
  c ← compile tc (REntity res) (buildReadExpression i plan) (Some (identityKeysOf tc (REntity res) false));
  '(sql, estimate) ← gateSQL tc c;
  key ← lift (readKey tc (REntity res) i sql);
  Done (newStatement tc res (rp_grant plan) sql estimate, key).

(** A read up to its statement: what runRead does before it queries. *)
Definition planRead (tc : Context) (i : readInput) : outcome (readInput * readPlan * statement * Cache.Key * bool) :=
  let '(limit, capped) := capLimit tc (RLimit i) in
  let i := with_limit i limit in
  plan ← prepareReadPlan tc i;
  '(st, key) ← compileReadQuery plan i;
  Done (i, plan, st, key, capped).

(** The checks of ReadTool.Run on the decoded input. *)
Definition validRead (tc : Context) (i : readInput) : bool :=
  negb ((RLimit i <? 0) || (ROffset i <? 0)) && negb ((0 <? ROffset i) && (RLimit i =? 0))
  && negb ((0 <? lim_maxExpand (x_limits tc)) && (lim_maxExpand (x_limits tc) <? Z.of_nat (length (RExpand i)))).

End read.
