(* ===== verification/ReadTheorems.v ===== *)
(** Reads: what a read's expression evaluates to (the rows of its entity,
    widened by the rows joined to them, selected, and cut to the fields
    projected), and that what is planned is governed. *)

From S2P Require Import Prelude GoString Value Relalg Interp InterpFacts InterpTheorems Entity EntityFacts Numbers WriteCheck Dialect Codegen Cost CostTheorems Transaction Cache Invalidation Rbac RbacTheorems FieldUses Order Filter Pipeline PipelineFacts Related ReadTool.

Lemma Forall2_elem_r {A B} (R : A -> B -> Prop) l k y : Forall2 R l k -> y ∈ k -> exists x, x ∈ l /\ R x y.
Proof.
  intros Hall. induction Hall as [|x y' l k Hxy _ IH]; [by intros ?%elem_of_nil|].
  intros [->|Hy]%elem_of_cons; [exists x; split; [left|done]|]. destruct (IH Hy) as (x' & ? & ?). exists x'. split; [by right|done].
Qed.

(** ** Wider relations *)

(** [rel'] has the columns of [rel] first, and [row'] the cells of [row]. *)
Record widens (rel : relation) (row : list value) (rel' : relation) (row' : list value) : Prop := {
  wd_cols : exists more, Cols rel' = Cols rel ++ more;
  wd_row : exists more, row' = row ++ more;
}.

Lemma find_index_app name cols more i : find_index name cols = Some i -> find_index name (cols ++ more) = Some i.
Proof.
  revert i. induction cols as [|c cols IH]; intros i; simpl; [done|]. case_decide; [done|].
  intros (j & Hj & ->)%fmap_Some. by rewrite (IH _ Hj).
Qed.

Lemma colIndex_ok r name i : colIndex r name = Ok i <-> find_index name (Cols r) = Some i.
Proof. unfold colIndex. destruct (find_index name (Cols r)); naive_solver. Qed.

Section widen.
Context (rel rel' : relation) (row row' : list value).
Hypothesis Hw : widens rel row rel' row'.

Lemma widen_colIndex name i : colIndex rel name = Ok i -> colIndex rel' name = Ok i.
Proof using Hw. destruct Hw as [[more Hc] _]. rewrite !colIndex_ok, Hc. apply find_index_app. Qed.

Lemma widen_index i v : index row i = Ok v -> index row' i = Ok v.
Proof using Hw.
  destruct Hw as [_ [more ->]]. unfold index. destruct (row !! i) as [x|] eqn:E; [|done].
  intros [= ->]. by rewrite (lookup_app_l_Some _ _ _ _ E).
Qed.

Lemma widen_lookup name i : length row = length (Cols rel) -> colIndex rel name = Ok i -> row' !! i = row !! i.
Proof using Hw.
  intros Hl. destruct Hw as [_ [more ->]]. rewrite colIndex_ok. intros Hi%find_index_lt. apply lookup_app_l. lia.
Qed.

Lemma widen_onMatches right cand on ok b :
  onMatches rel row right cand on ok = Ok b -> onMatches rel' row' right cand on ok = Ok b.
Proof using Hw.
  revert ok b. induction on as [|p on IH]; intros ok b H; simpl in *; [done|]. inv_ok.
  rewrite (widen_colIndex _ _ E). simpl. rewrite E0. simpl. rewrite (widen_index _ _ E1). simpl. rewrite E2. simpl. rewrite E3. simpl.
  by apply IH.
Qed.

Lemma filterM_impl {A} (f g : A -> result bool) l k :
  (forall x b, f x = Ok b -> g x = Ok b) -> filterM f l = Ok k -> filterM g l = Ok k.
Proof.
  intros Hfg. revert k. induction l as [|x l IH]; intros k H; simpl in *; [done|]. inv_ok.
  rewrite (Hfg _ _ E). simpl. rewrite (IH _ E0). simpl. done.
Qed.

Lemma widen_matching right on evp k : matching rel row right on evp = Ok k -> matching rel' row' right on evp = Ok k.
Proof using Hw.
  unfold matching. apply filterM_impl. intros cand b Hb. inv_ok. by rewrite (widen_onMatches _ _ _ _ _ E).
Qed.

Lemma evalAnd_impl (f g : Predicate -> result tri) ps acc v :
  Forall (fun p => forall w, f p = Ok w -> g p = Ok w) ps -> evalAnd f acc ps = Ok v -> evalAnd g acc ps = Ok v.
Proof.
  intros Hall. revert acc. induction Hall as [|p ps Hp _ IH]; intros acc; [done|]. rewrite !evalAnd_cons.
  intros Hv. apply bind_ok in Hv as (w & Hw' & Hv). rewrite (Hp _ Hw'). simpl. destruct w; auto.
Qed.

Lemma evalOr_impl (f g : Predicate -> result tri) ps acc v :
  Forall (fun p => forall w, f p = Ok w -> g p = Ok w) ps -> evalOr f acc ps = Ok v -> evalOr g acc ps = Ok v.
Proof.
  intros Hall. revert acc. induction Hall as [|p ps Hp _ IH]; intros acc; [done|]. rewrite !evalOr_cons.
  intros Hv. apply bind_ok in Hv as (w & Hw' & Hv). rewrite (Hp _ Hw'). simpl. destruct w; auto.
Qed.

(** A predicate says of a wider row what it says of the row. *)
Lemma widen_predicate p v :
  rdb rel' = rdb rel -> evalPredicate p rel row = Ok v -> evalPredicate p rel' row' = Ok v.
Proof using Hw.
  intros Hdb. revert v. induction p as [|c|ps IH|ps IH|p IH|rf on p IH] using Predicate_ind'; intros v Hv; cbn [evalPredicate] in *.
  - done.
  - unfold evalCondition in *. inv_ok. rewrite (widen_colIndex _ _ E). simpl. by rewrite (widen_index _ _ E0).
  - eapply evalAnd_impl; [exact IH|exact Hv].
  - eapply evalOr_impl; [exact IH|exact Hv].
  - inv_ok. by rewrite (IH _ E).
  - inv_ok. rewrite Hdb, E. simpl. rewrite (widen_matching _ _ _ _ E0). done.
Qed.

End widen.

(** ** The relation a read selects from *)

(** The table an entity is read from, with the database its EXISTS reads. *)
Definition tableRel (db : DB) (t : Table) : relation := mkRel (TCols t) (TRows t) db 0.

(** Every row of [out] widens a row of the table. *)
Definition widensTable (db : DB) (t : Table) (out : relation) : Prop :=
  forall row', row' ∈ Rows out -> exists row, row ∈ TRows t /\ length row = length (TCols t) /\ widens (tableRel db t) row out row'.

Abbreviation joined joins e :=
  (fold_left (fun e j => EJoin e (rj_right j) (rj_alias j) (rj_on j) (rj_predicate j)) joins e).

Lemma joins_err db joins e err : eval db e = Err err -> eval db (joined joins e) = Err err.
Proof. revert e. induction joins as [|j joins IH]; intros e He; simpl; [done|]. apply IH. simpl. by rewrite He. Qed.

Lemma joins_widen db t joins expr out :
  widensTable db t expr -> forall e, eval db e = Ok expr -> eval db (joined joins e) = Ok out -> widensTable db t out.
Proof.
  revert expr. induction joins as [|j joins IH]; intros expr Hx e He Hout; simpl in Hout.
  { rewrite He in Hout. by injection Hout as <-. }
  destruct (eval db (EJoin e (rj_right j) (rj_alias j) (rj_on j) (rj_predicate j))) as [next|err] eqn:En;
    [|by rewrite (joins_err _ _ _ _ En) in Hout].
  eapply IH; [|exact En|exact Hout]. clear IH Hout.
  simpl in En. rewrite He in En. simpl in En. unfold evalJoin in En. inv_ok. intros row' Hrow'. simpl in *.
  apply mapM_ok in E0. destruct (Forall2_elem_r _ _ _ _ E0 Hrow') as (mid & Hmid & Ho). inv_ok.
  destruct (Hx _ Hmid) as (row & Hrow & Hl & [[mc Hc] [mr ->]]). exists row. split; [done|]. split; [done|].
  split; simpl; [simpl in Hc; rewrite Hc, <- app_assoc; eauto|].
  destruct a1 as [|m [|]]; simplify_eq; rewrite <- app_assoc; eauto.
Qed.

Lemma wrap_widens db rel ref out :
  wf_db db -> eval db (wrap rel (EScan ref "")) = Ok out ->
  exists t, db !! RefName ref = Some t /\ widensTable db t out.
Proof.
  intros Hdb Hout. destruct (db !! RefName ref) as [t|] eqn:Et.
  - exists t. split; [done|]. apply (joins_widen db t (rel_joins rel) (mkRel (TCols t) (TRows t) ∅ 0) out) with (e := EScan ref "");
      [|simpl; unfold evalScan; by rewrite Et|exact Hout].
    intros row Hrow. exists row. split; [done|]. specialize (Hdb _ _ Et). rewrite Forall_forall in Hdb. split; [by apply Hdb|].
    split; simpl; exists []; by rewrite app_nil_r.
  - unfold wrap in Hout. rewrite (joins_err _ _ _ ErrUnknownRelation) in Hout; [done|]. simpl. unfold evalScan. by rewrite Et.
Qed.

(** ** The expression of a read *)

Lemma projectItems_names e fields : project_name <$> projectItems e fields = fields.
Proof.
  unfold projectItems, project_name. induction fields as [|f fields IH]; [done|]. simpl. f_equal; [|exact IH].
  destruct (decide (columnOf e f = f)) as [->|Hne]; simpl; [done|]. case_decide as Hf; [|done].
  subst f. exfalso. apply Hne. reflexivity.
Qed.

(** A projected row has, for each item, the cell of its column. *)
Lemma evalProject_items input items out :
  evalProject input items = Ok out ->
  Cols out = project_name <$> items /\ hidden out = 0%nat /\ forall row', row' ∈ Rows out ->
  exists row, row ∈ Rows input /\ length row' = length items /\
    forall n item, items !! n = Some item -> exists i v, colIndex input (ItemField item) = Ok i /\ index row i = Ok v /\ row' !! n = Some v.
Proof.
  unfold evalProject. intros Hp. inv_ok. simpl in *. split; [done|]. split; [done|]. intros row' Hrow'.
  apply mapM_ok in E. apply mapM_ok in E0. destruct (Forall2_elem_r _ _ _ _ E0 Hrow') as (row & Hrow & Hcells).
  apply mapM_ok in Hcells. exists row. split; [done|].
  split; [by rewrite <- (Forall2_length _ _ _ Hcells), <- (Forall2_length _ _ _ E)|].
  intros n item Hn. destruct (Forall2_lookup_l _ _ _ _ _ E Hn) as (i & Hi & Hci).
  destruct (Forall2_lookup_l _ _ _ _ _ Hcells Hi) as (v & Hv & Hiv). by exists i, v.
Qed.

Lemma evalProject_cells input e fields out :
  evalProject input (projectItems e fields) = Ok out ->
  Cols out = fields /\ hidden out = 0%nat /\ forall row', row' ∈ Rows out ->
  exists row, row ∈ Rows input /\ length row' = length fields /\
    forall n f, fields !! n = Some f -> exists i v, colIndex input (columnOf e f) = Ok i /\ index row i = Ok v /\ row' !! n = Some v.
Proof.
  intros Hp. destruct (evalProject_items _ _ _ Hp) as (Hc & Hh & Hrows). rewrite projectItems_names in Hc. split; [done|]. split; [done|].
  intros row' Hrow'. destruct (Hrows _ Hrow') as (row & Hin & Hl & Hcells). exists row. unfold projectItems in Hl, Hcells.
  rewrite length_fmap in Hl. split; [done|]. split; [done|]. intros n f Hn.
  specialize (Hcells n). rewrite list_lookup_fmap, Hn in Hcells. exact (Hcells _ eq_refl).
Qed.

(** The rows of DISTINCT and LIMIT are rows of their input. *)
Lemma evalDistinct_sub r out : hidden r = 0%nat -> evalDistinct r = Ok out -> Cols out = Cols r /\ Rows out ⊆ Rows r.
Proof.
  unfold evalDistinct, visible. intros ->. simpl. intros Hd. inv_ok. simpl. split; [done|]. intros x Hx.
  apply distinctRows_spec in E as (Hs & _). by eapply elem_of_sublist.
Qed.

Lemma evalLimit_sub r n o out :
  evalLimit r n o = Ok out -> Cols out = Cols r /\ Rows out ⊆ Rows r /\ Z.of_nat (length (Rows out)) <= n.
Proof.
  unfold evalLimit. destruct ((n <? 1) || (o <? 0)) eqn:Eb; [done|]. intros [= <-]. simpl.
  apply orb_false_iff in Eb as [?%Z.ltb_ge ?%Z.ltb_ge]. split; [done|]. split.
  - intros x Hx. eapply elem_of_sublist; [exact Hx|]. by etrans; [apply sublist_take|apply sublist_drop].
  - rewrite length_take, length_drop. set (len := Z.of_nat (length (Rows r))).
    destruct (Z.ltb_spec len o) as [Ho|Ho]; [|destruct (Z.ltb_spec n (len - o))]; try lia.
Qed.

(** A row a read returns: a stored row of the entity's table on which the
    plan's predicate, and all it implies, holds where it can be told of it,
    cut to the fields granted. *)
Definition returned (db : DB) (plan : readPlan) (row : list value) : Prop :=
  exists t base, db !! RefName (Entity.Ref (REntity (rp_res plan))) = Some t /\ base ∈ TRows t /\
    (forall p, (forall rel r, evalPredicate (rp_full plan) rel r = Ok triTrue -> evalPredicate p rel r = Ok triTrue) ->
       forall v, evalPredicate p (tableRel db t) base = Ok v -> v = triTrue) /\
    length row = length (DFields (rp_grant plan)) /\
    forall n f k, DFields (rp_grant plan) !! n = Some f -> colIndex (tableRel db t) (columnOf (REntity (rp_res plan)) f) = Ok k ->
      row !! n = base !! k.

(** Selection and sorting keep the rows a table widens to. *)
Lemma select_widens db t input p out :
  widensTable db t input -> evalSelect db input p = Ok out ->
  widensTable db t out /\ forall row, row ∈ Rows out -> evalPredicate p (with_db input db) row = Ok triTrue.
Proof.
  intros Hw Hs. destruct (evalSelect_spec _ _ _ _ Hs) as (Hc & _ & _ & Hrows). split.
  - intros row Hrow. apply Hrows in Hrow as [Hrow _]. destruct (Hw _ Hrow) as (base & Hb & Hl & [Hcols Hr]).
    exists base. split; [done|]. split; [done|]. split; [by rewrite Hc|done].
  - intros row Hrow. by apply Hrows in Hrow as [_ ?].
Qed.

(** Where a wider row satisfies a predicate, the table's row does, if it can be told. *)
Lemma widened_true db t out input row base p v :
  widens (tableRel db t) base out row -> Cols input = Cols out ->
  evalPredicate p (with_db input db) row = Ok triTrue -> evalPredicate p (tableRel db t) base = Ok v -> v = triTrue.
Proof.
  intros [Hc Hr] Hcols Htrue Hv.
  assert (widens (tableRel db t) base (with_db input db) row) as Hw by (split; simpl; [by rewrite Hcols|done]).
  pose proof (widen_predicate _ _ _ _ Hw p v eq_refl Hv). congruence.
Qed.

Section expression.
Context (db : DB) (plan : readPlan) (i : readInput).
Hypothesis Hdb : wf_db db.

Definition selected : Expr :=
  let expr := wrap (rp_rel plan) (EScan (Entity.Ref (REntity (rp_res plan))) "") in
  if is_pnil (rp_full plan) then expr else ESelect expr (rp_full plan).

(** The rows the read selects, each with the row of the table it widens. *)
Lemma selected_rows rel :
  eval db selected = Ok rel ->
  exists t, db !! RefName (Entity.Ref (REntity (rp_res plan))) = Some t /\ widensTable db t rel /\
    forall row, row ∈ Rows rel -> evalPredicate (rp_full plan) (with_db rel db) row = Ok triTrue.
Proof using Hdb.
  unfold selected. destruct (is_pnil (rp_full plan)) eqn:Ep; intros Hr.
  - destruct (wrap_widens _ _ _ _ Hdb Hr) as (t & Ht & Hw). exists t. split; [done|]. split; [done|]. intros row _.
    by destruct (rp_full plan).
  - simpl in Hr. apply bind_ok in Hr as (input & Hin & Hsel). destruct (wrap_widens _ _ _ _ Hdb Hin) as (t & Ht & Hw).
    destruct (select_widens _ _ _ _ _ Hw Hsel) as [Hw' Htrue]. exists t. split; [done|]. split; [done|].
    intros row Hrow. destruct (evalSelect_spec _ _ _ _ Hsel) as (Hc & _). specialize (Htrue _ Hrow).
    apply (widen_predicate (with_db input db) (with_db rel db) row row); [|done|exact Htrue].
    split; simpl; exists []; by rewrite ?Hc, app_nil_r.
Qed.

(** The rows after the sort, which keeps them. *)
Lemma sorted_rows rel :
  eval db (match orderOf plan with [] => selected | ts => ESort selected ts end) = Ok rel ->
  exists t, db !! RefName (Entity.Ref (REntity (rp_res plan))) = Some t /\ widensTable db t rel /\
    forall row, row ∈ Rows rel -> evalPredicate (rp_full plan) (with_db rel db) row = Ok triTrue.
Proof using Hdb.
  destruct (orderOf plan) as [|t0 ts]; [apply selected_rows|]. intros Hr. cbn [eval] in Hr. apply bind_ok in Hr as (sel & Hsel & Hr).
  destruct (selected_rows _ Hsel) as (t & Ht & Hw & Htrue). destruct (evalSort_spec _ _ _ Hr) as (_ & _ & Hc & _ & Hp & _).
  exists t. split; [done|]. split.
  - intros row Hrow. rewrite <- Hp in Hrow. destruct (Hw _ Hrow) as (base & Hb & Hl & [Hcols Hm]). exists base.
    split; [done|]. split; [done|]. split; [by rewrite Hc|done].
  - intros row Hrow. rewrite <- Hp in Hrow. specialize (Htrue _ Hrow).
    apply (widen_predicate (with_db sel db) (with_db rel db) row row); [|done|exact Htrue].
    split; simpl; exists []; by rewrite ?Hc, app_nil_r.
Qed.

Definition projected : Expr :=
  EProject (match orderOf plan with [] => selected | ts => ESort selected ts end)
    (projectItems (REntity (rp_res plan)) (DFields (rp_grant plan))).

Lemma projected_rows out :
  eval db projected = Ok out ->
  Cols out = DFields (rp_grant plan) /\ hidden out = 0%nat /\ forall row, row ∈ Rows out -> returned db plan row.
Proof using Hdb.
  unfold projected. cbn [eval]. intros Hr. apply bind_ok in Hr as (rel & Hrel & Hr).
  destruct (sorted_rows _ Hrel) as (t & Ht & Hw & Htrue). destruct (evalProject_cells _ _ _ _ Hr) as (Hc & Hh & Hcells).
  split; [done|]. split; [done|]. intros row Hrow. destruct (Hcells _ Hrow) as (wide & Hwide & Hlen & Hat).
  destruct (Hw _ Hwide) as (base & Hb & Hl & Hwd). exists t, base. split; [done|]. split; [done|]. split; [|split; [done|]].
  - intros p Hp v Hv. by eapply (widened_true _ _ _ rel); [exact Hwd|done|apply Hp, Htrue|exact Hv].
  - intros n f k Hn Hk. destruct (Hat _ _ Hn) as (k' & v & Hk' & Hv & ->). rewrite (widen_colIndex _ _ _ _ Hwd _ _ Hk) in Hk'.
    injection Hk' as <-. rewrite <- (widen_lookup _ _ _ _ Hwd _ _ Hl Hk). unfold index in Hv. by destruct (wide !! k); simplify_eq.
Qed.

Lemma read_rows out :
  eval db (buildReadExpression i plan) = Ok out ->
  Cols out = DFields (rp_grant plan) /\ (0 < RLimit i -> Z.of_nat (length (Rows out)) <= RLimit i) /\
  forall row, row ∈ Rows out -> returned db plan row.
Proof using Hdb.
  change (buildReadExpression i plan) with
    (let expr := if RDistinct i then EDistinct projected else projected in if 0 <? RLimit i then ELimit expr (RLimit i) (ROffset i) else expr).
  cbv zeta. set (expr := if RDistinct i then EDistinct projected else projected).
  assert (forall r, eval db expr = Ok r -> Cols r = DFields (rp_grant plan) /\ forall row, row ∈ Rows r -> returned db plan row) as Hexpr.
  { unfold expr. destruct (RDistinct i); intros r Hr.
    - cbn [eval] in Hr. apply bind_ok in Hr as (pr & Hpr & Hr). destruct (projected_rows _ Hpr) as (Hc & Hh & Hrows).
      destruct (evalDistinct_sub _ _ Hh Hr) as [Hc' Hsub]. split; [congruence|]. intros row Hrow. by apply Hrows, Hsub.
    - by destruct (projected_rows _ Hr) as (Hc & _ & Hrows). }
  destruct (Z.ltb_spec 0 (RLimit i)) as [Hl|Hl]; intros Hr.
  - cbn [eval] in Hr. apply bind_ok in Hr as (r & Hr' & Hr). destruct (Hexpr _ Hr') as [Hc Hrows].
    destruct (evalLimit_sub _ _ _ _ Hr) as (Hc' & Hsub & Hlen). split; [congruence|]. split; [done|]. intros row Hrow. by apply Hrows, Hsub.
  - destruct (Hexpr _ Hr) as [Hc Hrows]. split; [done|]. split; [lia|done].
Qed.

End expression.


(** * Reads end to end: the rows a planned read returns are rows of its entity in
    the caller's scope, cut to the fields granted, and whatever else it reads
    is authorized and scoped on its own entity. *)

(** ** Other entities a read touches *)

Section governed.
Context `{GoStd}.

(** The caller in whose name [tc'] is, and its policy, are those of [tc]. *)
Definition sameCaller (tc tc' : Context) : Prop :=
  x_registry tc' = x_registry tc /\ x_authorizer tc' = x_authorizer tc /\ x_role tc' = x_role tc /\ x_subject tc' = x_subject tc.

(** Across [r], the call reads [fields] of [target] under the decision [g]:
    the entity r leads to, served and on the same datasource, where the
    caller may read these fields and the columns joined on, each a visible
    one, none masked. *)
Record reaches (tc : Context) (e : Entity) (r : Relationship) (fields : list string) (target : Resolved) (g : Rbac.Decision) : Prop := {
  re_resolved : Entity.Resolve (x_registry tc) (ReTarget r) = Some target;
  re_served : DMLTools (EMCP (REntity target)) = true;
  re_source : EDataSource (REntity target) = EDataSource e;
  re_decision : g = authorize (x_authorizer tc)
    (mkRequest (x_role tc) (EName (REntity target)) ActionRead (fields ++ jtarget (relationJoin r))
       (fields ++ jtarget (relationJoin r)) [] (x_subject tc) PNil);
  re_allowed : Allowed g = true;
  re_visible : forall f, f ∈ fields ++ jtarget (relationJoin r) -> exists a, a ∈ RAttributes target /\ named a f = true;
  re_unmasked : forall f a, f ∈ fields ++ jtarget (relationJoin r) -> a ∈ RAttributes target -> named a f = true -> AMask a = "";
}.

Lemma relatedTarget_reaches tc tc' e r fields target g :
  sameCaller tc tc' -> relatedTarget tc' e r fields = Done (target, g) -> reaches tc e r fields target g.
Proof.
  intros (Hreg & Haz & Hrole & Hsub). unfold relatedTarget. intros Hr. apply outcome_bind_done in Hr as (t & [Hres Hdml]%resolveDML_done & Hr).
  case_bool_decide; [|done]. cbn [negb] in Hr. apply outcome_bind_done in Hr as ([] & Hu%lift_done & Hr).
  apply outcome_bind_done in Hr as (g' & Hauth & Hr). injection Hr as -> ->.
  destruct (authorizeRequest_done _ _ _ Hauth) as (Hg & Hal & _). apply field_uses_checked in Hu as (Hv & Hm & _). simpl in Hv, Hm.
  rewrite app_nil_r in Hv. constructor; [congruence|done|done|congruence|done|exact Hv|exact Hm].
Qed.

(** How a predicate of the request is sent: its exists groups become
    semi-joins with the entity their relationship leads to, the fields of the
    group checked and authorized there and the caller's row filter added; the
    rest is kept. *)
Inductive sentAs (tc : Context) (e : Entity) : Predicate -> Predicate -> Prop :=
  | sent_nil : sentAs tc e PNil PNil
  | sent_cond c : sentAs tc e (PCond c) (PCond c)
  | sent_and ps qs : Forall2 (sentAs tc e) ps qs -> sentAs tc e (PAnd ps) (PAnd qs)
  | sent_or ps qs : Forall2 (sentAs tc e) ps qs -> sentAs tc e (POr ps) (POr qs)
  | sent_not p q : sentAs tc e p q -> sentAs tc e (PNot p) (PNot q)
  | sent_exists rf p r target g inner :
      relationshipByName e (RefName rf) = Some r -> reaches tc e r (Fields p) target g ->
      coercePredicate (REntity target) (columnsPredicate (REntity target) p) = Ok inner ->
      sentAs tc e (PExists rf [] p) (PExists (Entity.Ref (REntity target)) (joinPairs (relationJoin r)) (andPreds inner (RowFilter g))).

Lemma resolveGroup_sent tc tc' res rf on p locals q l :
  sameCaller tc tc' -> resolveGroup tc' res rf on p locals = Done (q, l) -> sentAs tc (REntity res) (PExists rf on p) q.
Proof.
  intros Hc. unfold resolveGroup. destruct (relationshipByName _ _) as [r|] eqn:Er; [|done]. case_bool_decide; [|done]. simpl.
  destruct (HasExists p); [done|]. intros Hg. apply outcome_bind_done in Hg as ([target g] & Ht & Hg). inv_done. simplify_eq.
  econstructor; [exact Er|by eapply relatedTarget_reaches|done].
Qed.

Lemma walkAll_sent tc tc' res ps : Forall (fun p => forall locals q l,
    walkExists tc' res p locals = Done (q, l) -> sentAs tc (REntity res) p q) ps ->
  forall locals qs l, walkAll (walkExists tc' res) ps locals = Done (qs, l) -> Forall2 (sentAs tc (REntity res)) ps qs.
Proof.
  induction 1 as [|p ps Hp _ IH]; intros locals qs l Hw; simpl in Hw; [by injection Hw as <- <-|].
  apply outcome_bind_done in Hw as ([q l1] & Hq & Hw). apply outcome_bind_done in Hw as ([qs' l2] & Hqs & Hw).
  injection Hw as <- <-. constructor; [by eapply Hp|by eapply IH].
Qed.

Lemma walkExists_sent tc tc' res p : sameCaller tc tc' -> forall locals q l,
  walkExists tc' res p locals = Done (q, l) -> sentAs tc (REntity res) p q.
Proof.
  intros Hc. induction p as [|c|ps IH|ps IH|p IH|rf on p IH] using Predicate_ind'; intros locals q l Hw; cbn [walkExists] in Hw.
  - injection Hw as <- <-. constructor.
  - injection Hw as <- <-. constructor.
  - apply outcome_bind_done in Hw as ([qs l1] & Hqs & Hw). injection Hw as <- <-. constructor. by eapply walkAll_sent.
  - apply outcome_bind_done in Hw as ([qs l1] & Hqs & Hw). injection Hw as <- <-. constructor. by eapply walkAll_sent.
  - apply outcome_bind_done in Hw as ([q' l1] & Hq & Hw). injection Hw as <- <-. constructor. exact (IH _ _ _ Hq).
  - by eapply resolveGroup_sent.
Qed.

(** ** Joins *)

(** The join of a relationship a request reaches across. *)
Definition joinTo (r : Relationship) (target : Resolved) (g : Rbac.Decision) : relatedJoin :=
  mkRelated (Entity.Ref (REntity target)) (ReName r) (joinPairs (relationJoin r)) (RowFilter g).

Definition authorizedJoin (tc : Context) (e : Entity) (j : relatedJoin) : Prop :=
  exists r fields target g, reaches tc e r fields target g /\ j = joinTo r target g.

(** The name of a field's column. *)
Definition columnAt (target : Resolved) (f : string) : string :=
  match AttributeByName (REntity target) f with Some a => AName a | None => "" end.

(** [p], when it is a field across a relationship, is read through a join in
    [rel] with the entity the relationship leads to, where it is one of the
    fields checked and authorized, and is named after its column there. *)
Definition reachedAcross (tc : Context) (e : Entity) (rel : related) (p : string) : Prop :=
  forall r f, pathOf e p = Some (r, f) ->
    exists fields target g, f ∈ fields /\ reaches tc e r fields target g /\ joinTo r target g ∈ rel_joins rel /\
      related_field (rel_rename rel) p = ReName r +:+ "." +:+ columnAt target f.

Lemma relationshipByName_name e name r : relationshipByName e name = Some r -> ReName r = name.
Proof. unfold relationshipByName. intros [_ Hr]%List.find_some. by apply bool_decide_eq_true in Hr. Qed.

Lemma cut_join c s a b : cut c s = Some (a, b) -> s = a +:+ String c b.
Proof.
  revert a. induction s as [|d s IH]; intros a Hc; simpl in Hc; [done|]. destruct (Ascii.eqb_spec d c) as [->|].
  - by injection Hc as <- <-.
  - destruct (cut c s) as [[a' b']|]; [|done]. injection Hc as <- <-. rewrite (IH a' eq_refl). done.
Qed.

Lemma pathOf_parts e p r f : pathOf e p = Some (r, f) ->
  pathParts e p = (ReName r, f) /\ relationOf e (ReName r) = r /\ p = ReName r +:+ "." +:+ f.
Proof.
  unfold pathOf, pathParts, relationOf. intros Hp. destruct (cut "." p) as [[name rest]|] eqn:Ec; [|done]. simpl in Hp.
  destruct (relationshipByName e name) as [r'|] eqn:Er; [|done]. injection Hp as <- <-.
  pose proof (relationshipByName_name _ _ _ Er) as <-. rewrite Er. simpl. split; [done|]. split; [done|]. by apply cut_join in Ec.
Qed.

(** The name a path is given, whatever the other paths. *)
Definition renameOf (tc : Context) (e : Entity) (p : string) : option string :=
  '(r, f) ← pathOf e p;
  target ← Entity.Resolve (x_registry tc) (ReTarget r);
  Some (ReName r +:+ "." +:+ columnAt target f).

(** The names given so far are the paths' own. *)
Definition namesPaths (tc : Context) (e : Entity) (rename : gmap string string) : Prop :=
  forall p v, rename !! p = Some v -> renameOf tc e p = Some v.

Lemma renamePath_names tc e target r fields : forall rename,
  Entity.Resolve (x_registry tc) (ReTarget r) = Some target ->
  (forall f, f ∈ fields -> pathOf e (ReName r +:+ "." +:+ f) = Some (r, f)) ->
  namesPaths tc e rename ->
  let rename' := fold_left (renamePath (REntity target) (ReName r)) fields rename in
  namesPaths tc e rename' /\ (forall p, is_Some (rename !! p) -> is_Some (rename' !! p)) /\
  (forall f, f ∈ fields -> is_Some (rename' !! (ReName r +:+ "." +:+ f))).
Proof.
  intros rename Hres. revert rename. induction fields as [|f fields IH]; intros rename Hf Hn; simpl.
  { split; [done|]. split; [done|]. by intros f ?%elem_of_nil. }
  destruct (IH (renamePath (REntity target) (ReName r) rename f)) as (Hn' & Hkeep & Hnew).
  - intros f' Hf'. apply Hf. by right.
  - intros p v. unfold renamePath. intros [[<- <-]|[_ Hp]]%lookup_insert_Some; [|by apply Hn].
    unfold renameOf. rewrite Hf by left. simpl. rewrite Hres. done.
  - split; [done|]. split.
    + intros p Hp. apply Hkeep. unfold renamePath. apply lookup_insert_is_Some. destruct (decide (ReName r +:+ "." +:+ f = p)); auto.
    + intros f' [->|Hf']%elem_of_cons; [|by apply Hnew]. apply Hkeep. unfold renamePath. rewrite lookup_insert_eq. done.
Qed.

Lemma fieldsOf_elem e paths r f :
  Forall (fun p => is_Some (pathOf e p)) paths -> f ∈ fieldsOf e paths (ReName r) ->
  relationOf e (ReName r) = r -> pathOf e (ReName r +:+ "." +:+ f) = Some (r, f).
Proof.
  intros Hp Hf Hr. unfold fieldsOf in Hf. apply list_elem_of_fmap in Hf as ([n f'] & -> & Hin). simpl.
  apply list_elem_of_In, List.filter_In in Hin as [Hin Hn]. apply bool_decide_eq_true in Hn. simpl in Hn. subst n.
  apply list_elem_of_In, list_elem_of_fmap in Hin as (p & Hpp & Hin). rewrite Forall_forall in Hp.
  destruct (Hp p Hin) as [[r' f0] Hpath]. destruct (pathOf_parts _ _ _ _ Hpath) as (Hparts & Hrel & ->).
  rewrite Hparts in Hpp. injection Hpp as Hname ->. rewrite Hname in *. congruence.
Qed.

Lemma joinRelations_reaches tc tc' res paths names : sameCaller tc tc' ->
  Forall (fun p => is_Some (pathOf (REntity res) p)) paths ->
  Forall (fun n => ReName (relationOf (REntity res) n) = n) names ->
  forall out rel, joinRelations tc' res paths out names = Done rel ->
  Forall (authorizedJoin tc (REntity res)) (rel_joins out) -> namesPaths tc (REntity res) (rel_rename out) ->
  Forall (authorizedJoin tc (REntity res)) (rel_joins rel) /\ namesPaths tc (REntity res) (rel_rename rel) /\
  rel_joins out ⊆ rel_joins rel /\ (forall p, is_Some (rel_rename out !! p) -> is_Some (rel_rename rel !! p)) /\
  forall n, n ∈ names -> let r := relationOf (REntity res) n in
    (exists target g, reaches tc (REntity res) r (fieldsOf (REntity res) paths n) target g /\ joinTo r target g ∈ rel_joins rel) /\
    forall f, f ∈ fieldsOf (REntity res) paths n -> is_Some (rel_rename rel !! (n +:+ "." +:+ f)).
Proof.
  intros Hc Hpaths. induction names as [|name names IH]; intros Hnames out rel Hj Hout Hren; simpl in Hj.
  { injection Hj as <-. split_and!; try done. by intros n ?%elem_of_nil. }
  apply Forall_cons in Hnames as [Hname Hnames].
  apply outcome_bind_done in Hj as (out' & E & Hj). unfold joinRelation in E. destruct (negb (Single _)); [done|].
  apply outcome_bind_done in E as ([target g] & Ht & E). destruct (negb (joinsOnKey _ _)); [done|]. injection E as <-.
  apply (relatedTarget_reaches tc) in Ht; [|done]. set (r := relationOf (REntity res) name) in *.
  assert (forall f, f ∈ fieldsOf (REntity res) paths name -> pathOf (REntity res) (ReName r +:+ "." +:+ f) = Some (r, f)) as Hf.
  { intros f Hf. apply (fieldsOf_elem _ paths); [done|by rewrite Hname|]. by rewrite Hname. }
  destruct (renamePath_names tc (REntity res) target r _ _ (re_resolved _ _ _ _ _ _ Ht) Hf Hren) as (Hren' & Hkeep & Hnew).
  rewrite Hname in Hren', Hkeep, Hnew. edestruct IH as (HJ & HR & Hsub & Hk & Hall); [done|exact Hj| |exact Hren'|].
  { simpl. apply Forall_app. split; [done|]. constructor; [|constructor].
    exists r, (fieldsOf (REntity res) paths name), target, g. split; [done|]. unfold joinTo. by rewrite Hname. }
  simpl in Hsub, Hk. split_and!; [done|done|set_solver|naive_solver|].
  intros n [->|Hn]%elem_of_cons; [|by apply Hall]. split; [|naive_solver]. exists target, g. split; [exact Ht|].
  apply Hsub, elem_of_app. right. unfold joinTo. fold r. rewrite Hname. by left.
Qed.

Lemma planJoins_reaches tc tc' res paths rel : sameCaller tc tc' ->
  Forall (fun p => is_Some (pathOf (REntity res) p)) paths -> planJoins tc' res paths = Done rel ->
  Forall (authorizedJoin tc (REntity res)) (rel_joins rel) /\ forall p, p ∈ paths -> reachedAcross tc (REntity res) rel p.
Proof.
  intros Hc Hpaths Hj. unfold planJoins in Hj.
  assert (forall n, n ∈ sort_strings (dedup [] (fst <$> (pathParts (REntity res) <$> paths))) <->
            exists p r f, p ∈ paths /\ pathOf (REntity res) p = Some (r, f) /\ n = ReName r) as Hn.
  { intros n. rewrite sort_strings_Permutation, dedup_elem, !list_elem_of_fmap. rewrite Forall_forall in Hpaths. split.
    - intros [([n' f'] & -> & (p & Hpp & Hp)%list_elem_of_fmap) _]. destruct (Hpaths p Hp) as [[r f] Hpath]. exists p, r, f.
      destruct (pathOf_parts _ _ _ _ Hpath) as (Hparts & _). rewrite Hparts in Hpp. by injection Hpp as -> ->.
    - intros (p & r & f & Hp & Hpath & ->). split; [|apply not_elem_of_nil]. exists (ReName r, f). split; [done|].
      apply list_elem_of_fmap. exists p. by destruct (pathOf_parts _ _ _ _ Hpath) as [-> _]. }
  edestruct (joinRelations_reaches tc tc' res paths) as (HJ & HR & _ & _ & Hall); [exact Hc|exact Hpaths| |exact Hj|..].
  - apply Forall_forall. intros n (p & r & f & _ & Hpath & ->)%Hn. by destruct (pathOf_parts _ _ _ _ Hpath) as (_ & -> & _).
  - constructor.
  - intros p v. simpl. by rewrite lookup_empty.
  - split; [done|]. intros p Hp r f Hpath. destruct (pathOf_parts _ _ _ _ Hpath) as (Hparts & Hrel & Heq).
    destruct (Hall (ReName r)) as ((target & g & Hreach & Hin) & Hsome); [apply Hn; by exists p, r, f|]. rewrite Hrel in Hreach, Hin.
    assert (f ∈ fieldsOf (REntity res) paths (ReName r)) as Hf.
    { unfold fieldsOf. apply list_elem_of_fmap. exists (ReName r, f). split; [done|]. apply list_elem_of_In, List.filter_In.
      split; [|by apply bool_decide_eq_true]. apply list_elem_of_In, list_elem_of_fmap. by exists p. }
    exists (fieldsOf (REntity res) paths (ReName r)), target, g. split_and!; [done|done|done|].
    destruct (Hsome f Hf) as [v Hv]. rewrite <- Heq in Hv. unfold related_field. rewrite Hv. simpl.
    apply HR in Hv. unfold renameOf in Hv. rewrite Hpath in Hv. simpl in Hv. rewrite (re_resolved _ _ _ _ _ _ Hreach) in Hv. by injection Hv as <-.
Qed.

Lemma splitPaths_paths e fields : Forall (fun p => is_Some (pathOf e p)) (splitPaths e fields).2.
Proof. apply Forall_forall. intros p Hp%list_elem_of_In. apply List.filter_In in Hp as [_ Hp]. by apply bool_decide_eq_true in Hp. Qed.

Lemma splitPaths_own e fields f : f ∈ fields -> pathOf e f = None -> f ∈ (splitPaths e fields).1.
Proof.
  intros Hf Hp. simpl. apply list_elem_of_In, List.filter_In. split; [by apply list_elem_of_In|]. by rewrite Hp.
Qed.

Lemma splitPaths_path e fields p r f : p ∈ fields -> pathOf e p = Some (r, f) -> p ∈ (splitPaths e fields).2.
Proof.
  intros Hf Hp. simpl. apply list_elem_of_In, List.filter_In. split; [by apply list_elem_of_In|]. by rewrite Hp.
Qed.

(** What relate plans: each path is reached across its relationship, each
    exists group is sent as one, and the rest of the predicate is kept. *)
Lemma relate_reaches tc tc' res pred paths rel pred' locals : sameCaller tc tc' ->
  Forall (fun p => is_Some (pathOf (REntity res) p)) paths -> relate tc' res pred paths = Done (rel, pred', locals) ->
  Forall (authorizedJoin tc (REntity res)) (rel_joins rel) /\ (forall p, p ∈ paths -> reachedAcross tc (REntity res) rel p) /\
  sentAs tc (REntity res) (renamed (rel_rename rel) pred) pred'.
Proof.
  intros Hc Hp. unfold relate. intros Hr. apply outcome_bind_done in Hr as (r & E & Hr).
  apply outcome_bind_done in Hr as ([q l] & Hq & Hr). injection Hr as <- <- <-.
  destruct (planJoins_reaches _ _ _ _ _ Hc Hp E) as [HJ Hacross]. split_and!; [done|done|]. by eapply walkExists_sent.
Qed.

(** ** A planned read *)

Lemma authorizeRequest_fields tc req g :
  authorizeRequest tc req = Done g -> QAction req = ActionRead -> DFields g <> [].
Proof.
  unfold authorizeRequest. intros Ha Hq Hf. destruct (negb (Allowed _)); [done|]. rewrite Hq in Ha.
  destruct (bool_decide (DFields (authorize (x_authorizer tc) req) = [])) eqn:E; [by rewrite bool_decide_eq_true_2 in Ha|].
  apply bool_decide_eq_false in E. rewrite andb_false_r in Ha.
  destruct (Entity.Resolve _ _) as [res|]; [destruct (bool_decide _)|]; simplify_eq; done.
Qed.

(** The fields a read names: to filter by, to return, to resume after and to
    order by. *)
Definition namedFields (i : readInput) : list string :=
  filterFields (RFilter i) ++ RFields i ++ cursorFields i ++ orderFieldNames (ROrderBy i).

(** Those it compares. *)
Definition namedCompared (i : readInput) : list string :=
  filterFields (RFilter i) ++ cursorFields i ++ orderFieldNames (ROrderBy i).

(** What the plan of a read says of its request. *)
Record plannedRead (tc : Context) (i : readInput) (plan : readPlan) : Prop := {
  pr_resolved : Entity.Resolve (x_registry tc) (RTarget i) = Some (rp_res plan);
  pr_served : DMLTools (EMCP (REntity (rp_res plan))) = true /\ EUnavailable (REntity (rp_res plan)) = "";
  pr_allowed : exists fields reads pred,
    rp_grant plan = authorize (x_authorizer tc)
      (mkRequest (x_role tc) (RTarget i) ActionRead fields reads [] (x_subject tc) pred) /\
    Allowed (rp_grant plan) = true /\ DFields (rp_grant plan) <> [] /\ RFields i ⊆ fields /\
    (forall f, f ∈ filterFields (RFilter i) ++ RFields i ++ cursorFields i -> pathOf (REntity (rp_res plan)) f = None -> f ∈ reads) /\
    (forall f a, f ∈ orderFieldNames (ROrderBy i) -> pathOf (REntity (rp_res plan)) f = None ->
       AttributeByName (REntity (rp_res plan)) f = Some a -> pathOf (REntity (rp_res plan)) (AName a) = None -> AName a ∈ reads);
  pr_unmasked : forall f a, f ∈ namedCompared i -> pathOf (REntity (rp_res plan)) f = None -> a ∈ RAttributes (rp_res plan) ->
    named a f = true -> AMask a = "";
  pr_full : exists asked own pred keyset,
    filterToPredicate (RFilter i) (lim_maxFilterConditions (x_limits tc)) = Ok asked /\
    coercePredicate (REntity (rp_res plan)) (columnsPredicate (REntity (rp_res plan)) asked) = Ok own /\
    sentAs tc (REntity (rp_res plan)) (renamed (rel_rename (rp_rel plan)) own) pred /\
    rp_full plan = andPreds (andPreds pred (RowFilter (rp_grant plan))) keyset;
  pr_joins : Forall (authorizedJoin tc (REntity (rp_res plan))) (rel_joins (rp_rel plan));
  pr_across : forall p, p ∈ namedFields i -> reachedAcross tc (REntity (rp_res plan)) (rp_rel plan) p;
}.

Lemma orderTerm_own res i t rename term related :
  orderTerm res i t rename = Ok (term, related) -> pathOf (REntity res) (OField t) = None ->
  related = false /\ (forall a, a ∈ RAttributes res -> named a (OField t) = true -> AMask a = "") /\
  forall a, AttributeByName (REntity res) (OField t) = Some a -> TermField term = AName a.
Proof.
  unfold orderTerm. intros Ht Hp. destruct (negb _ && _) in Ht; [done|]. rewrite Hp in Ht. apply bind_ok in Ht as ([] & Hu & Ht).
  apply field_uses_checked in Hu as (_ & Hm & _). destruct (AttributeByName _ _) as [b|];
    (destruct (RDistinct i && _) in Ht; [done|]; injection Ht as <- <-; split; [done|]; split; [|naive_solver]);
    intros a Ha Hn; apply (Hm (OField t)); [by left|done|done|by left|done|done].
Qed.

Lemma orderLoop_own res i rename asked : forall acc across out,
  orderLoop res i rename asked acc across = Ok out ->
  acc ⊆ out.1 /\ forall t, t ∈ asked -> pathOf (REntity res) (OField t) = None ->
    (forall a, a ∈ RAttributes res -> named a (OField t) = true -> AMask a = "") /\
    forall a, AttributeByName (REntity res) (OField t) = Some a -> AName a ∈ TermField <$> out.1.
Proof.
  induction asked as [|t asked IH]; intros acc across out Hl; simpl in Hl.
  { injection Hl as <-. split; [done|]. by intros t ?%elem_of_nil. }
  apply bind_ok in Hl as ([term rel] & Et & Hl). case_bool_decide as Hin.
  - destruct rel; [|done]. destruct (IH _ _ _ Hl) as [Hsub Hown]. split; [done|].
    intros t' [->|Ht']%elem_of_cons Hp; [|by apply Hown]. by destruct (orderTerm_own _ _ _ _ _ _ Et Hp) as [? _].
  - destruct (IH _ _ _ Hl) as [Hsub Hown]. split; [set_solver|].
    intros t' [->|Ht']%elem_of_cons Hp; [|by apply Hown]. destruct (orderTerm_own _ _ _ _ _ _ Et Hp) as (_ & Hm & Hf).
    split; [done|]. intros a <-%Hf. apply list_elem_of_fmap_2, Hsub, elem_of_app. right. by left.
Qed.

Lemma addKey_added key : forall acc added c,
  c ∈ TermField <$> acc -> c ∉ added -> c ∉ (addKey key acc added).2.
Proof.
  induction key as [|k key IH]; intros acc added c Hc Ha; simpl; [done|]. case_bool_decide as Hin; [by apply IH|].
  apply IH; [rewrite fmap_app; set_solver|]. rewrite elem_of_app, list_elem_of_singleton. intros [?| ->]; done.
Qed.

Lemma addKey_keeps key : forall acc added c, c ∈ TermField <$> acc -> c ∈ TermField <$> (addKey key acc added).1.
Proof.
  induction key as [|k key IH]; intros acc added c Hc; simpl; [done|]. case_bool_decide; apply IH; [done|]. rewrite fmap_app. set_solver.
Qed.

(** The entity's own fields a read orders by are unmasked, and read besides the
    key's. *)
Lemma planReadOrder_own res i rename o f :
  planReadOrder res i rename = Ok o -> f ∈ orderFieldNames (ROrderBy i) -> pathOf (REntity res) f = None ->
  (forall a, a ∈ RAttributes res -> named a f = true -> AMask a = "") /\
  forall a, AttributeByName (REntity res) f = Some a -> AName a ∈ order_fields o /\ AName a ∉ keyFields o.
Proof.
  unfold planReadOrder, order_fields. intros Ho (t & -> & Ht)%list_elem_of_fmap Hp.
  destruct (ROrderBy i) as [|t0 asked] eqn:Ei; [by apply elem_of_nil in Ht|]. destruct (_ <? _)%nat; [done|].
  apply bind_ok in Ho as ([acc across] & Hl & Ho). destruct (orderLoop_own _ _ _ _ _ _ _ Hl) as [_ Hown].
  destruct (Hown t Ht Hp) as [Hm Hf]. split; [done|]. intros a Ha%Hf. simpl in Ha.
  destruct (CursorKey _) as [key|]; [|injection Ho as <-; split; [done|apply not_elem_of_nil]].
  destruct (negb _ && _); [|injection Ho as <-; split; [done|apply not_elem_of_nil]].
  pose proof (addKey_added key acc [] (AName a) Ha ltac:(apply not_elem_of_nil)) as Hk.
  pose proof (addKey_keeps key acc [] (AName a) Ha) as Hin. destruct (addKey key acc []) as [acc' added]. injection Ho as <-. done.
Qed.

Lemma addOrdered_keeps e ordered : forall fields, fields ⊆ addOrdered e fields ordered.
Proof.
  unfold addOrdered. induction ordered as [|f ordered IH]; intros fields; simpl; [done|].
  destruct (existsb _ fields); [apply IH|]. etrans; [|apply IH]. set_solver.
Qed.

Lemma readFieldNames_done res i reads projection :
  readFieldNames res i = Done (reads, projection) ->
  reads = filterFields (RFilter i) ++ RFields i ++ expandJoinColumns (REntity res) (RExpand i) ++ cursorFields i /\ RFields i ⊆ projection.
Proof.
  unfold readFieldNames. destruct (negb _); [done|]. intros [= <- <-]. split; [done|]. unfold addLocals.
  generalize (expandJoinColumns (REntity res) (RExpand i)). assert (forall l p, RFields i ⊆ p -> RFields i ⊆
    fold_left (fun p local => if negb (bool_decide (RFields i = [])) && negb (bool_decide (local ∈ p)) then p ++ [local] else p) l p) as Hl.
  { induction l as [|x l IH]; intros p Hp; simpl; [done|]. apply IH. destruct (_ && _); set_solver. }
  intros l. by apply Hl.
Qed.

Lemma orderRead_request tc res i req rel order req' :
  orderRead tc res i req rel = Done (order, req') ->
  exists fields reads, req' = mkRequest (QRole req) (QEntity req) (QAction req) fields reads (QWriteFields req) (QSubject req) (QPredicate req) /\
    QFields req ⊆ fields /\ QReadFields req ⊆ reads /\
    forall f, f ∈ orderFieldNames (ROrderBy i) -> pathOf (REntity res) f = None ->
      (forall a, a ∈ RAttributes res -> named a f = true -> AMask a = "") /\
      forall a, AttributeByName (REntity res) f = Some a -> pathOf (REntity res) (AName a) = None -> AName a ∈ reads.
Proof.
  unfold orderRead. destruct (RDistinct i && _); [done|]. intros Ho. apply outcome_bind_done in Ho as (o & Hpo%lift_done & Ho).
  injection Ho as _ <-. unfold with_reads. simpl. eexists _, _. split; [reflexivity|]. split_and!.
  - destruct (pageable _ && _); [|done]. apply addOrdered_keeps.
  - set_solver.
  - intros f Hf Hp. destruct (planReadOrder_own _ _ _ _ _ Hpo Hf Hp) as [Hm Hr]. split; [done|]. intros a Ha Hpa.
    destruct (Hr a Ha) as [Hin Hk]. rewrite !elem_of_app. left. right. apply list_elem_of_In, List.filter_In.
    split; [|by rewrite bool_decide_eq_false_2]. apply list_elem_of_In. by apply splitPaths_own.
Qed.

Lemma prepareReadPlan_done tc i plan : prepareReadPlan tc i = Done plan -> plannedRead tc i plan.
Proof.
  unfold prepareReadPlan. intros Hp. apply outcome_bind_done in Hp as ([ep own] & Hplan & Hp).
  apply outcome_bind_done in Hp as ([reads projection] & Hnames & Hp). destruct (negb _); [done|].
  pose proof (splitPaths_own (REntity (p_res ep)) reads) as Hown. pose proof (splitPaths_path (REntity (p_res ep)) reads) as Hacross.
  pose proof (splitPaths_paths (REntity (p_res ep)) reads) as Hpaths.
  destruct (splitPaths _ reads) as [ownReads paths]. simpl in Hown, Hacross, Hpaths.
  apply outcome_bind_done in Hp as ([[rel pred] locals] & Hrel & Hp).
  apply outcome_bind_done in Hp as ([] & Huses & Hp). apply outcome_bind_done in Hp as ([order req] & Horder & Hp).
  apply outcome_bind_done in Hp as (g & Hauth & Hp). apply outcome_bind_done in Hp as ([keyset cols] & _ & Hp). injection Hp as <-.
  destruct (planEntity_done _ _ _ _ _ _ Hplan) as (Hres & Hdml & Hroute). destruct (planEntity_filter _ _ _ _ _ _ Hplan) as (asked & Hask & Hco).
  destruct (routeEntity_keeps _ _ _ _ Hroute) as (Hreg & Haz & Hrole & Hsubj & _).
  destruct (readFieldNames_done _ _ _ _ Hnames) as [Hreads Hproj].
  destruct (orderRead_request _ _ _ _ _ _ _ Horder) as (fields & reads' & -> & Hfields & Hreads' & Hord). simpl in *.
  unfold authorizeRead in Hauth. apply outcome_bind_done in Hauth as (g' & Hauth & Hd). apply outcome_bind_done in Hd as ([] & _ & Hd).
  injection Hd as ->. destruct (authorizeRequest_done _ _ _ Hauth) as (Hg & Hal & Hav).
  destruct (relate_reaches tc _ _ _ _ _ _ _ ltac:(by split_and!) (Forall_app_2 _ _ _ Hpaths (splitPaths_paths _ _)) Hrel) as (Hjoins & Hpa & Hsent).
  unfold checkReadUses in Huses. apply outcome_bind_done in Huses as ([] & Hu%lift_done & _). apply field_uses_checked in Hu as (_ & Hm & _).
  constructor; simpl; try done.
  - split; [done|]. apply Hav. by rewrite Hreg.
  - eexists fields, reads', _. rewrite Hg, Haz, Hrole, Hsubj. split; [reflexivity|]. rewrite <- Haz, <- Hrole, <- Hsubj, <- Hg.
    split; [done|]. split; [by eapply authorizeRequest_fields|]. split; [set_solver|]. split.
    + intros f Hf Hpf. apply Hreads', elem_of_app. left. apply Hown; [|done]. rewrite Hreads. set_solver.
    + intros f a Hf Hpf. by apply (Hord f).
  - intros f a. unfold namedCompared. rewrite app_assoc, elem_of_app. intros [Hf|Hf] Hpf Ha Hn; [|by apply (Hord f Hf Hpf)].
    apply (Hm f); [|done|done]. simpl. unfold comparedFields. apply elem_of_app. left. by apply splitPaths_own.
  - by exists asked, own, pred, keyset.
  - intros p Hp r f Hpath. unfold namedFields in Hp. rewrite !app_assoc, elem_of_app in Hp. apply (Hpa p); [|done]. rewrite elem_of_app.
    destruct Hp as [Hp|Hp]; [left|right; by eapply splitPaths_path]. eapply Hacross; [|exact Hpath]. rewrite Hreads. set_solver.
Qed.

Lemma capLimit_bound tc limit :
  0 <= limit -> 0 < lim_maxRows (x_limits tc) -> 0 < (capLimit tc limit).1 <= lim_maxRows (x_limits tc).
Proof.
  intros Hl Hm. unfold capLimit. rewrite (proj2 (Z.leb_gt _ _) Hm), (proj2 (Z.ltb_ge _ _) Hl). simpl.
  destruct (Z.ltb_spec 0 limit); simpl; [|lia]. destruct (Z.leb_spec limit (lim_maxRows (x_limits tc))); simpl; lia.
Qed.

(** An exists group that holds is witnessed by a target row in scope. *)
Lemma exists_in_scope rf on inner scope rel row :
  evalPredicate (PExists rf on (andPreds inner scope)) rel row = Ok triTrue ->
  exists t cand, rdb rel !! RefName rf = Some t /\ cand ∈ TRows t /\ evalPredicate scope (tableRel (rdb rel) t) cand = Ok triTrue.
Proof.
  cbn [evalPredicate]. intros Hx. inv_ok. unfold evalScan in E. destruct (rdb rel !! RefName rf) as [t|] eqn:Et; [|done].
  injection E as <-. unfold matching in E0. destruct a0 as [|cand ms]; [done|]. exists t, cand. split; [done|].
  apply (filterM_elem _ _ _ cand) in E0. simpl in E0. destruct (proj1 E0) as [Hin Hev]; [left|]. split; [done|].
  inv_ok. destruct a; [|done]. inv_ok.
  apply bool_decide_eq_true in Hev. subst. by apply andPreds_true in E1 as [_ ?].
Qed.

Context `{CostStd} `{SubjectText} `{ArgsText}.

Lemma planRead_done tc i i' plan st key capped :
  planRead tc i = Done (i', plan, st, key, capped) ->
  i' = with_limit i (capLimit tc (RLimit i)).1 /\ plannedRead tc i plan /\ rp_grant plan = s_grant st /\
  exists c, compile (rp_tc plan) (REntity (rp_res plan)) (buildReadExpression i' plan)
              (Some (identityKeysOf (rp_tc plan) (REntity (rp_res plan)) false)) = Done c /\
            gateSQL (rp_tc plan) c = Done (s_sql st, s_plan st).
Proof.
  unfold planRead.  destruct (capLimit tc (RLimit i)) as [limit cap]. intros Hp. apply outcome_bind_done in Hp as (pl & Hpl & Hp).
  apply outcome_bind_done in Hp as ([st' key'] & Hst & Hp). injection Hp as <- <- <- <- <-.
  split; [done|]. split; [by destruct (prepareReadPlan_done _ _ _ Hpl)|].
  unfold compileReadQuery in Hst. apply outcome_bind_done in Hst as (c & Hc & Hst). apply outcome_bind_done in Hst as ([sql est] & Hg & Hst).
  apply outcome_bind_done in Hst as (k & _ & Hst). injection Hst as <- <-. simpl. split; [done|]. by exists c.
Qed.

Lemma validRead_limit tc i : validRead tc i = true -> 0 <= RLimit i.
Proof. unfold validRead. destruct (Z.ltb_spec (RLimit i) 0); done. Qed.


End governed.

(** ** A reader of the orders of a tenant, with their customers *)

Definition tenantPolicy : Predicate := PCond (mkCond "tenant" OpEq (VString "${subject.tenant}")).

Definition readerEntity (name : string) (columns : list string) (rels : list Relationship) : Entity :=
  mkEntity ("default." +:+ name) name name "" "" "" KindTable
    ((fun c => mkAttr c "" "" (tenantDomain "text") false "") <$> columns)
    [Entity.mkKey "pk" ["id"] true false true ""] [] [] [] [] (mkMCP true false false) [] tenantPolicy rels false "" [] "" [] [] false false
    [] false [].

Definition readerOrders : Entity :=
  readerEntity "orders" ["id"; "tenant"; "customer_id"]
    [mkRelationship "customer" "default.customers" "one" [("customer_id"%string, "id"%string)]].
Definition readerCustomers : Entity := readerEntity "customers" ["id"; "tenant"; "name"] [].

Definition readerRegistry : Registry := Eval vm_compute in
  match NewRegistry [readerOrders; readerCustomers] with Ok r => r | Err _ => emptyRegistry end.

Definition readerGrant : Grant := mkGrant "role:reader:0" [ActionRead] None PNil.

Definition reader : Context :=
  mkContext readerRegistry
    (@NewGrantAuthorizer asciiStd readerRegistry
       (mkPolicy {["reader"%string := {["default.orders"%string := [readerGrant]; "default.customers"%string := [readerGrant]]}]} ∅ ∅))
    "reader" {["tenant"%string := VString "acme"]} ∅ mysql None (Some 0%nat) noTightening "" (fun _ => None) (fun _ => false)
    (mkLimits 2 0 0 0 0 0 0 0 0 0) 0 0 0 None 0 "" false.

(** Orders of a customer by name, the customer looked up. *)
Definition annOrders : readInput :=
  mkInput "orders" "" ["id"%string] [] [mkCondJSON "customer.name" "eq" (VString "ann") None None None "" None]
    [mkOrderJSON "id" "desc"] false 0 0 ∅.

Definition demoRead : outcome (readInput * readPlan * statement * Cache.Key * bool) :=
  @planRead asciiStd (fun _ => ""%string) (fun _ => ""%string) reader annOrders.

Example read_sql :
  match demoRead with
  | Done (_, plan, st, _, capped) =>
      st_sql (s_sql st) = "SELECT `_`.`id` FROM `orders` AS `_` LEFT JOIN `customers` AS `customer` ON `customer`.`id` = `_`.`customer_id` AND `customer`.`tenant` = ? WHERE (`customer`.`name` = ? AND `_`.`tenant` = ?) ORDER BY `_`.`id` DESC LIMIT 2" /\
      st_args (s_sql st) = [VString "acme"; VString "ann"; VString "acme"] /\
      capped = true /\ DFields (rp_grant plan) = ["id"%string]
  | Refused _ => False
  end.
Proof. vm_compute. auto. Qed.

(** Two orders of acme's ann, and one of another tenant's. *)
Definition shopDB : DB :=
  {["orders" := mkTable ["id"; "tenant"; "customer_id"]
      [[VString "1"; VString "acme"; VString "7"]; [VString "2"; VString "umbrella"; VString "7"]; [VString "3"; VString "acme"; VString "7"]];
    "customers" := mkTable ["id"; "tenant"; "name"] [[VString "7"; VString "acme"; VString "ann"]]]}.

Lemma shopDB_wf : wf_db shopDB.
Proof. apply (bool_decide_unpack _). vm_compute. exact I. Qed.

Lemma demoRead_evaluated :
  match demoRead with
  | Done (i, plan, st, _, _) =>
      match eval shopDB (buildReadExpression i plan) with
      | Ok out => Rows out = [[VString "3"]; [VString "1"]] /\ DFields (s_grant st) = ["id"%string]
      | Err _ => False
      end
  | Refused _ => False
  end.
Proof. vm_compute. auto. Qed.

