(* ===== verification/Results.v ===== *)
(** The results of calls: core/tool/results.go.

    A call's meter counts the rows it returns against its limits and holds
    their bytes in the memory of the process.  Meters are shared with
    executions other calls wait on, so a method is one step while it holds the
    meter's lock (and the memory's within it), and what it does after it is a
    step of its own: [closing] are the closes a step decided on, [taken] the
    bytes a close took from its meter and has not released yet.

    The size of a row (encoding/json's) is an argument of [addSized]; byte
    counts are unbounded integers. *)

From S2P Require Import Prelude.

(** ** The memory *)

Record ResultMemory : Type := mkMemory { mem_used : Z; mem_capacity : Z }.

Definition NewResultMemory (capacity : Z) : ResultMemory := mkMemory 0 capacity.

Definition SetCapacity (capacity : Z) (r : ResultMemory) : ResultMemory := mkMemory (mem_used r) capacity.

Definition InUse (r : ResultMemory) : Z := mem_used r.

Definition reserve (n : Z) (r : ResultMemory) : ResultMemory * bool :=
  if (0 <? mem_capacity r) && (mem_capacity r <? mem_used r + n) then (r, false)
  else (mkMemory (mem_used r + n) (mem_capacity r), true).

Definition release (n : Z) (r : ResultMemory) : ResultMemory :=
  if n =? 0 then r else mkMemory (mem_used r - n) (mem_capacity r).

(** ** Meters *)

Record resultMeter : Type := mkMeter {
  mt_rows : Z;
  mt_bytes : Z;
  mt_held : Z;
  mt_maxRows : Z;
  mt_maxBytes : Z;
  mt_write : bool;
  mt_closed : bool;
  mt_running : Z;
  mt_ended : bool;
}.

Definition minLimit (a b : Z) : Z := if (a <=? 0) || ((0 <? b) && (b <? a)) then b else a.

(** meterCall's meter. *)
Definition meterCall (budgetRows maxBytes budgetBytes : Z) (readOnly : bool) : resultMeter :=
  mkMeter 0 0 0 budgetRows (if readOnly then minLimit maxBytes budgetBytes else 0) (negb readOnly) false 0 false.

Definition with_count (rows bytes held : Z) (m : resultMeter) : resultMeter :=
  mkMeter rows bytes held (mt_maxRows m) (mt_maxBytes m) (mt_write m) (mt_closed m) (mt_running m) (mt_ended m).

Definition with_life (held : Z) (closed : bool) (running : Z) (ended : bool) (m : resultMeter) : resultMeter :=
  mkMeter (mt_rows m) (mt_bytes m) held (mt_maxRows m) (mt_maxBytes m) (mt_write m) closed running ended.

(** What counting says: counted, cut short (errResultCut), or past a limit. *)
Inductive counting : Type := Counted | ResultCut | Exceeded.

#[global] Instance counting_eq_dec : EqDecision counting.
Proof. solve_decision. Defined.

Definition addSized (rows n : Z) (m : resultMeter) (r : ResultMemory) : resultMeter * ResultMemory * counting :=
  let rows' := mt_rows m + rows in
  if (0 <? mt_maxRows m) && (mt_maxRows m <? rows') then
    if mt_write m then (m, r, ResultCut) else (with_count rows' (mt_bytes m) (mt_held m) m, r, Exceeded)
  else
    let bytes' := mt_bytes m + n in
    if (0 <? mt_maxBytes m) && (mt_maxBytes m <? bytes') then (with_count rows' bytes' (mt_held m) m, r, Exceeded)
    else if mt_closed m then (with_count rows' bytes' (mt_held m) m, r, Counted)
    else
      let '(r, ok) := reserve n r in
      if ok then (with_count rows' bytes' (mt_held m + n) m, r, Counted)
      else if mt_write m then (m, r, ResultCut) else (with_count rows' bytes' (mt_held m) m, r, Exceeded).

Definition counted (m : resultMeter) : Z * Z := (mt_rows m, mt_bytes m).

(** grow: [n] is the size of the rows encoded. *)
Definition grow (before n : Z) (m : resultMeter) (r : ResultMemory) : resultMeter * ResultMemory * counting :=
  if mt_bytes m - before <? n then addSized 0 (n - (mt_bytes m - before)) m r else (m, r, Counted).

(** run, and the first part of its end: whether the meter is to be closed. *)
Definition runMeter (m : resultMeter) : resultMeter := with_life (mt_held m) false (mt_running m + 1) (mt_ended m) m.

Definition stopMeter (m : resultMeter) : resultMeter * bool :=
  let running := mt_running m - 1 in
  (with_life (mt_held m) (mt_closed m) running (mt_ended m) m, (running =? 0) && mt_ended m).

(** The first part of end. *)
Definition endMeter (m : resultMeter) : resultMeter * bool :=
  (with_life (mt_held m) (mt_closed m) (mt_running m) true m, mt_running m =? 0).

(** close up to the release. *)
Definition closeMeter (m : resultMeter) : resultMeter * Z :=
  (with_life 0 true (mt_running m) (mt_ended m) m, mt_held m).

(** ** The process *)

Record process : Type := mkProcess {
  pc_memory : ResultMemory;
  pc_meters : gmap nat resultMeter;
  pc_closing : list nat;
  pc_taken : list Z;
}.

Definition onMeter (id : nat) (m : resultMeter) (p : process) : process :=
  mkProcess (pc_memory p) (<[id := m]> (pc_meters p)) (pc_closing p) (pc_taken p).

Definition decide_close (id : nat) (m : resultMeter * bool) (p : process) : process :=
  mkProcess (pc_memory p) (<[id := m.1]> (pc_meters p)) (if m.2 then id :: pc_closing p else pc_closing p) (pc_taken p).

(** A step of the process; on a meter it has not it does nothing. *)
Inductive event : Type :=
  | VCall (id : nat) (budgetRows maxBytes budgetBytes : Z) (readOnly : bool) (** a call starts *)
  | VAdd (id : nat) (rows n : Z)
  | VGrow (id : nat) (before n : Z)
  | VRun (id : nat) | VStop (id : nat) | VEnd (id : nat)
  | VClose (id : nat)                                  (** a close decided on *)
  | VRelease (n : Z)                                   (** of what a close took *)
  | VCapacity (capacity : Z).

Definition meterStep (id : nat) (f : resultMeter -> process -> process) (p : process) : process :=
  match pc_meters p !! id with Some m => f m p | None => p end.

Definition countStep (id : nat) (f : resultMeter -> ResultMemory -> resultMeter * ResultMemory * counting) : process -> process :=
  meterStep id (fun m p => let '(m, r, _) := f m (pc_memory p) in
                           mkProcess r (<[id := m]> (pc_meters p)) (pc_closing p) (pc_taken p)).

Fixpoint remove_one {A} `{EqDecision A} (x : A) (l : list A) : list A :=
  match l with [] => [] | y :: l => if decide (x = y) then l else y :: remove_one x l end.

Definition pstep (e : event) (p : process) : process :=
  match e with
  | VCall id budgetRows maxBytes budgetBytes readOnly =>
      match pc_meters p !! id with
      | None => onMeter id (meterCall budgetRows maxBytes budgetBytes readOnly) p
      | Some _ => p
      end
  | VAdd id rows n => countStep id (addSized rows n) p
  | VGrow id before n => countStep id (grow before n) p
  | VRun id => meterStep id (fun m => onMeter id (runMeter m)) p
  | VStop id => meterStep id (fun m p => if 0 <? mt_running m then decide_close id (stopMeter m) p else p) p
  | VEnd id => meterStep id (fun m => decide_close id (endMeter m)) p
  | VClose id =>
      if bool_decide (id ∈ pc_closing p) then
        meterStep id (fun m p => let '(m, held) := closeMeter m in
          mkProcess (pc_memory p) (<[id := m]> (pc_meters p)) (remove_one id (pc_closing p)) (held :: pc_taken p)) p
      else p
  | VRelease n =>
      if bool_decide (n ∈ pc_taken p) then
        mkProcess (release n (pc_memory p)) (pc_meters p) (pc_closing p) (remove_one n (pc_taken p))
      else p
  | VCapacity c => mkProcess (SetCapacity c (pc_memory p)) (pc_meters p) (pc_closing p) (pc_taken p)
  end.

(** Sizes are not negative. *)
Definition sane (e : event) : Prop :=
  match e with VAdd _ rows n => 0 <= rows /\ 0 <= n | _ => True end.

Definition started (capacity : Z) : process := mkProcess (NewResultMemory capacity) ∅ [] [].

Definition prun (es : list event) (p : process) : process := fold_left (fun p e => pstep e p) es p.
