(* ===== verification/ResultsTheorems.v ===== *)
(** The memory of results is exact: it is what the meters hold, with what is
    being released; nothing leaks, nothing is released twice, and the bound
    holds under every interleaving.  A call's rows are within its limits. *)

From S2P Require Import Prelude Results.

(** ** What the meters hold *)

Definition heldBy (ms : gmap nat resultMeter) : Z := sumOver (fun kv => mt_held kv.2) (map_to_list ms).

Lemma heldBy_new ms id m : ms !! id = None -> heldBy (<[id := m]> ms) = mt_held m + heldBy ms.
Proof. intros Hn. unfold heldBy. by rewrite (sumOver_perm _ _ _ (map_to_list_insert _ _ _ Hn)). Qed.

Lemma heldBy_update ms id m m' : ms !! id = Some m -> heldBy (<[id := m']> ms) = heldBy ms - mt_held m + mt_held m'.
Proof.
  intros Hm. rewrite <- (insert_delete_id _ _ _ Hm) at 2. rewrite <- (insert_delete_eq ms id m').
  rewrite !heldBy_new by apply lookup_delete_eq. lia.
Qed.

Lemma remove_one_perm {A} `{EqDecision A} (x : A) l : x ∈ l -> l ≡ₚ x :: remove_one x l.
Proof.
  induction l as [|y l IH]; [by intros ?%elem_of_nil|]. intros [->|Hx]%elem_of_cons; simpl; [by rewrite decide_True|].
  case_decide as Hxy; [by subst|]. etrans; [by apply perm_skip, IH|apply perm_swap].
Qed.

(** ** The invariant *)

Record meter_ok (closing : list nat) (id : nat) (m : resultMeter) : Prop := {
  mo_held : 0 <= mt_held m;
  mo_running : 0 <= mt_running m;
  mo_closed : mt_closed m = true -> mt_held m = 0;
  mo_ended : mt_ended m = true -> mt_running m = 0 -> mt_closed m = true \/ id ∈ closing;
}.

Record process_ok (p : process) : Prop := {
  po_used : mem_used (pc_memory p) = heldBy (pc_meters p) + sumOver (fun n => n) (pc_taken p);
  po_taken : Forall (fun n => 0 <= n) (pc_taken p);
  po_meters : map_Forall (meter_ok (pc_closing p)) (pc_meters p);
}.

Lemma started_ok c : process_ok (started c).
Proof. split; simpl; [by unfold heldBy; rewrite map_to_list_empty|constructor|apply map_Forall_empty]. Qed.

(** A step on one meter. *)
Lemma meter_update p id m m' r closing taken :
  process_ok p -> pc_meters p !! id = Some m ->
  mem_used r - mem_used (pc_memory p) = mt_held m' - mt_held m + (sumOver (fun n => n) taken - sumOver (fun n => n) (pc_taken p)) ->
  Forall (fun n => 0 <= n) taken -> meter_ok closing id m' ->
  (forall i, i <> id -> i ∈ pc_closing p -> i ∈ closing) ->
  process_ok (mkProcess r (<[id := m']> (pc_meters p)) closing taken).
Proof.
  intros [Hu _ Hms] Hm Hused Htaken Hm' Hcl. split; simpl; [|done|].
  - rewrite (heldBy_update _ _ _ _ Hm). lia.
  - intros i mi. destruct (decide (i = id)) as [->|Hne]; [rewrite lookup_insert_eq; by intros [= <-]|].
    rewrite lookup_insert_ne by done. intros Hi. destruct (Hms _ _ Hi) as [H1 H2 H3 H4]. split; try done.
    intros He Hr. destruct (H4 He Hr); [by left|right]. by apply Hcl.
Qed.

(** Counting: what is held grows by what is reserved. *)
Lemma addSized_spec rows n m r m' r' c :
  addSized rows n m r = (m', r', c) ->
  mem_used r' - mem_used r = mt_held m' - mt_held m /\ mem_capacity r' = mem_capacity r /\
  mt_closed m' = mt_closed m /\ mt_running m' = mt_running m /\ mt_ended m' = mt_ended m /\
  (mt_held m' = mt_held m /\ mem_used r' = mem_used r \/ mt_held m' = mt_held m + n /\ mt_closed m = false /\
     (0 < mem_capacity r -> mem_used r' <= mem_capacity r)).
Proof.
  unfold addSized, reserve. destruct ((0 <? mt_maxRows m) && _).
  { destruct (mt_write m); intros [= <- <- <-]; simpl; split_and!; try done; try lia; try by left. }
  destruct ((0 <? mt_maxBytes m) && _); [intros [= <- <- <-]; simpl; split_and!; try done; try lia; try by left|].
  destruct (mt_closed m) eqn:Hc; [intros [= <- <- <-]; simpl; split_and!; try done; try lia; try by left|].
  destruct (Z.ltb_spec 0 (mem_capacity r)); simpl.
  - destruct (Z.ltb_spec (mem_capacity r) (mem_used r + n)).
    + destruct (mt_write m); intros [= <- <- <-]; simpl; split_and!; try done; try lia; try by left.
    + intros [= <- <- <-]; simpl; split_and!; try done; try lia; right; split_and!; try done; lia.
  - intros [= <- <- <-]; simpl; split_and!; try done; try lia; right; split_and!; try done; lia.
Qed.

Lemma countStep_ok id f p :
  process_ok p ->
  (forall m r m' r' c, f m r = (m', r', c) -> exists rows n, 0 <= n /\ (addSized rows n m r = (m', r', c) \/ (m', r') = (m, r))) ->
  process_ok (countStep id f p).
Proof.
  intros Hp Hf. unfold countStep, meterStep. destruct (pc_meters p !! id) as [m|] eqn:Hm; [|done].
  destruct (f m (pc_memory p)) as [[m' r'] c] eqn:Ef. destruct (po_meters _ Hp _ _ Hm) as [H1 H2 H3 H4].
  destruct (Hf _ _ _ _ _ Ef) as (rows & n & Hn & [Ha|[= -> ->]]).
  - destruct (addSized_spec _ _ _ _ _ _ _ Ha) as (Hu & _ & Hc & Hr & He & Hh).
    eapply meter_update; [exact Hp|exact Hm|lia|apply Hp| |done].
    split; [destruct Hh as [[-> _]|(-> & _)]; lia|lia| |by rewrite He, Hr, Hc].
    rewrite Hc. intros Hcl. destruct Hh as [[-> _]|(_ & ? & _)]; [by apply H3|congruence].
  - eapply meter_update; [exact Hp|exact Hm|lia|apply Hp|by split|done].
Qed.

Lemma release_used n r : mem_used (release n r) = mem_used r - n /\ mem_capacity (release n r) = mem_capacity r.
Proof. unfold release. destruct (Z.eqb_spec n 0); simpl; lia. Qed.

Lemma sum_nonneg (l : list Z) : Forall (fun n => 0 <= n) l -> 0 <= sumOver (fun n => n) l.
Proof. induction 1; simpl; lia. Qed.

Lemma pstep_ok e p : sane e -> process_ok p -> process_ok (pstep e p).
Proof.
  intros He Hp. destruct e as [id a b c ro|id rows n|id before n|id|id|id|id|n|c]; simpl.
  - destruct (pc_meters p !! id) eqn:Hn; [done|]. destruct Hp as [Hu Ht Hms]. split; simpl; [by rewrite heldBy_new|done|].
    apply map_Forall_insert_2; [|done]. by split; simpl.
  - apply countStep_ok; [done|]. intros m r m' r' c Hc. exists rows, n. split; [apply He|by left].
  - apply countStep_ok; [done|]. intros m r m' r' c. unfold grow. destruct (Z.ltb_spec (mt_bytes m - before) n).
    + intros Hc. exists 0, (n - (mt_bytes m - before)). split; [lia|by left].
    + intros [= <- <- <-]. exists 0, 0. split; [done|by right].
  - unfold meterStep. destruct (pc_meters p !! id) as [m|] eqn:Hm; [|done]. destruct (po_meters _ Hp _ _ Hm) as [H1 H2 H3 H4].
    eapply meter_update; [exact Hp|exact Hm|simpl; lia|apply Hp| |done]. split; simpl; [done|lia|done|lia].
  - unfold meterStep. destruct (pc_meters p !! id) as [m|] eqn:Hm; [|done]. destruct (po_meters _ Hp _ _ Hm) as [H1 H2 H3 H4].
    destruct (Z.ltb_spec 0 (mt_running m)); [|done].
    eapply meter_update; [exact Hp|exact Hm|simpl; lia|apply Hp| |intros; simpl; destruct (_ && _); [by right|done]].
    split; simpl; [done|lia|done|]. intros He' Hr. right. rewrite He', (proj2 (Z.eqb_eq _ _) Hr). left.
  - unfold meterStep. destruct (pc_meters p !! id) as [m|] eqn:Hm; [|done]. destruct (po_meters _ Hp _ _ Hm) as [H1 H2 H3 H4].
    eapply meter_update; [exact Hp|exact Hm|simpl; lia|apply Hp| |intros; simpl; destruct (_ =? _); [by right|done]].
    split; simpl; [done|done|done|]. intros _ Hr. right. rewrite (proj2 (Z.eqb_eq _ _) Hr). left.
  - case_bool_decide as Hc; [|done]. unfold meterStep. destruct (pc_meters p !! id) as [m|] eqn:Hm; [|done].
    destruct (po_meters _ Hp _ _ Hm) as [H1 H2 H3 H4].
    eapply meter_update; [exact Hp|exact Hm|simpl; lia|constructor; [done|apply Hp]| |].
    + split; simpl; [done|done|done|by left].
    + intros i Hne Hi. rewrite (remove_one_perm _ _ Hc) in Hi. apply elem_of_cons in Hi as [->|]; done.
  - case_bool_decide as Hn; [|done]. destruct Hp as [Hu Ht Hms]. pose proof (remove_one_perm _ _ Hn) as Hperm.
    split; simpl; [|by rewrite Hperm in Ht; apply Forall_cons in Ht as [_ ?]|done].
    rewrite (proj1 (release_used _ _)), Hu, (sumOver_perm _ _ _ Hperm). simpl. lia.
  - destruct Hp as [Hu Ht Hms]. by split.
Qed.

Lemma prun_ok es p : Forall sane es -> process_ok p -> process_ok (prun es p).
Proof. revert p. induction es as [|e es IH]; intros p Hs Hp; [done|]. apply Forall_cons in Hs as [He Hs]. apply IH, pstep_ok; done. Qed.

(** ** The bound *)

Definition bounded (c : Z) (p : process) : Prop := mem_capacity (pc_memory p) = c /\ mem_used (pc_memory p) <= c.

Lemma countStep_bounded c id f p :
  0 < c -> bounded c p ->
  (forall m r m' r' d, f m r = (m', r', d) -> exists rows n, addSized rows n m r = (m', r', d) \/ (m', r') = (m, r)) ->
  bounded c (countStep id f p).
Proof.
  intros Hc [Hcap Hu] Hf. unfold countStep, meterStep. destruct (pc_meters p !! id) as [m|]; [|done].
  destruct (f m (pc_memory p)) as [[m' r'] d] eqn:Ef. destruct (Hf _ _ _ _ _ Ef) as (rows & n & [Ha|[= -> ->]]); [|done].
  destruct (addSized_spec _ _ _ _ _ _ _ Ha) as (_ & Hc' & _ & _ & _ & Hh). split; simpl; [congruence|].
  destruct Hh as [[_ ->]|(_ & _ & Hb)]; [done|]. rewrite Hcap in Hb. by apply Hb.
Qed.

Definition keeps_capacity (e : event) : Prop := match e with VCapacity _ => False | _ => True end.

Lemma pstep_bounded c e p : 0 < c -> keeps_capacity e -> process_ok p -> bounded c p -> bounded c (pstep e p).
Proof.
  intros Hc Hk Hp Hb. destruct e as [id x y z ro|id rows n|id before n|id|id|id|id|n|cap]; simpl; [| | | | | | | |done].
  - by destruct (pc_meters p !! id).
  - apply countStep_bounded; [done..|]. intros m r m' r' d Hd. exists rows, n. by left.
  - apply countStep_bounded; [done..|]. intros m r m' r' d. unfold grow. destruct (_ <? n).
    + intros Hd. eexists 0, _. by left.
    + intros [= <- <- <-]. exists 0, 0. by right.
  - unfold meterStep. by destruct (pc_meters p !! id).
  - unfold meterStep. destruct (pc_meters p !! id) as [m|]; [|done]. by destruct (0 <? mt_running m).
  - unfold meterStep. by destruct (pc_meters p !! id).
  - case_bool_decide; [|done]. unfold meterStep. by destruct (pc_meters p !! id).
  - case_bool_decide as Hn; [|done]. destruct Hb as [Hcap Hu]. destruct (release_used n (pc_memory p)) as [Hr Hrc].
    split; simpl; [congruence|]. rewrite Hr. pose proof (po_taken _ Hp) as Ht. rewrite Forall_forall in Ht. specialize (Ht _ Hn). lia.
Qed.

Lemma prun_bounded c es p :
  0 < c -> Forall sane es -> Forall keeps_capacity es -> process_ok p -> bounded c p -> bounded c (prun es p).
Proof.
  intros Hc. revert p. induction es as [|e es IH]; intros p Hs Hk Hp Hb; [done|].
  apply Forall_cons in Hs as [He Hs]. apply Forall_cons in Hk as [Hke Hk]. apply IH; [done|done|by apply pstep_ok|by apply pstep_bounded].
Qed.

(** ** Theorems *)

(** A call still under way, or an execution others wait on. *)
Definition active (m : resultMeter) : bool := negb (mt_ended m) || (0 <? mt_running m).

Lemma heldBy_active ms closing :
  closing = [] -> map_Forall (meter_ok closing) ms -> heldBy ms = heldBy (filter (fun kv => active kv.2 = true) ms).
Proof.
  intros ->. induction ms as [|id m ms Hn IH] using map_ind; intros Hms.
  { by rewrite map_filter_empty. }
  apply map_Forall_insert in Hms as [Hm Hms]; [|done]. rewrite heldBy_new by done. rewrite IH by done.
  destruct (active m) eqn:Ha.
  - rewrite map_filter_insert_True by done. rewrite heldBy_new; [done|]. apply map_lookup_filter_None. by left.
  - rewrite map_filter_insert_False by (simpl; congruence). rewrite (delete_id ms id) by done. destruct Hm as [H1 H2 H3 H4]. unfold active in Ha.
    apply orb_false_iff in Ha as [He Hr]. apply negb_false_iff in He. apply Z.ltb_ge in Hr.
    destruct (H4 He ltac:(lia)) as [Hc|[]%elem_of_nil]. rewrite (H3 Hc). lia.
Qed.

(** The memory of results is exact.  After any interleaving of calls,
    counts, shared executions, ends, closes and releases, the bytes in use are
    what the meters hold with what closes took and have not released; once no
    close is under way they are what the calls and executions still active
    hold, so that nothing leaks and nothing is released twice; and under a
    fixed capacity they never exceed it. *)
Theorem result_memory_exact (capacity : Z) (es : list event) :
  Forall sane es ->
  let p := prun es (started capacity) in
  InUse (pc_memory p) = heldBy (pc_meters p) + sumOver (fun n => n) (pc_taken p) /\
  (pc_closing p = [] -> pc_taken p = [] ->
     InUse (pc_memory p) = heldBy (filter (fun kv => active kv.2 = true) (pc_meters p))) /\
  (0 < capacity -> Forall keeps_capacity es -> InUse (pc_memory p) <= capacity).
Proof.
  intros Hs p. pose proof (prun_ok es _ Hs (started_ok capacity)) as Hp. fold p in Hp. split; [apply Hp|]. split.
  - intros Hc Ht. unfold InUse. rewrite (po_used _ Hp), Ht. simpl. rewrite Z.add_0_r. eapply heldBy_active; [exact Hc|apply Hp].
  - intros Hcap Hk. apply (prun_bounded capacity es (started capacity) Hcap Hs Hk (started_ok _)). by split; simpl; [|lia].
Qed.

(** A call whose end met a shared execution: the execution's end releases. *)
Definition sharedCall : list event :=
  [VCall 1 10 100 0 true; VRun 1; VAdd 1 1 40; VEnd 1; VAdd 1 1 20; VStop 1; VClose 1; VRelease 60].

Lemma result_memory_exact_witness :
  InUse (pc_memory (prun (take 5 sharedCall) (started 100))) = 60 /\ InUse (pc_memory (prun sharedCall (started 100))) = 0.
Proof.
  assert (forall n, Forall sane (take n sharedCall)) as Hs.
  { intros n. apply Forall_take. repeat constructor; simpl; lia. }
  split.
  - destruct (result_memory_exact 100 (take 5 sharedCall) (Hs 5%nat)) as [-> _]. vm_compute. reflexivity.
  - destruct (result_memory_exact 100 sharedCall (Hs 8%nat)) as (_ & Hq & _). rewrite Hq; vm_compute; reflexivity.
Defined.

(** What a call counted is within its limits. *)
Lemma counted_within rows n m r m' r' :
  addSized rows n m r = (m', r', Counted) ->
  mt_rows m' = mt_rows m + rows /\ mt_bytes m' = mt_bytes m + n /\
  (0 < mt_maxRows m -> mt_rows m' <= mt_maxRows m) /\ (0 < mt_maxBytes m -> mt_bytes m' <= mt_maxBytes m).
Proof.
  unfold addSized. destruct (Z.ltb_spec 0 (mt_maxRows m)), (Z.ltb_spec (mt_maxRows m) (mt_rows m + rows)); simpl;
    try (by destruct (mt_write m));
    (destruct (Z.ltb_spec 0 (mt_maxBytes m)), (Z.ltb_spec (mt_maxBytes m) (mt_bytes m + n)); simpl; try done;
     (destruct (mt_closed m); [intros [= <- <-]; simpl; lia|];
      destruct (reserve n r) as [r2 []]; [intros [= <- <-]; simpl; lia|by destruct (mt_write m)])).
Qed.
