(* ===== verification/JoinKey.v ===== *)
(** Join keys: how core/tool/tools_read_impl.go tells which rows an expansion
    matches, whatever types a driver returns (joinKeyOf and below). *)

From Stdlib Require Import QArith Qreduction.
From S2P Require Import Prelude GoString Value Numbers.

#[global] Open Scope Z_scope.

(** What the code uses of strconv.FormatFloat with 'g' and -1 (for 64 and 32
    bits), of strconv.Quote, and of fmt for "%T:%q" of a value and its Sprint. *)
Class JoinStd : Type := {
  formatFloat64 : float64 -> string;
  formatFloat32 : float64 -> string;
  quote : string -> string;
  typedText : value -> string -> string;
  sprint : value -> string;
}.

(** ** Decimals of at most 18 digits *)

(** gcd; [None] is out of fuel. *)
Fixpoint gcdLoop (fuel : nat) (a b : Z) : option Z :=
  match fuel with
  | O => None
  | S fuel => if b =? 0 then Some (if a =? 0 then 1 else a) else gcdLoop fuel b (Z.rem a b)
  end.

(** Two rounds halve b, an int64. *)
Definition gcdFuel : nat := 128.

Definition gcd (a b : Z) : Z := default 1 (gcdLoop gcdFuel a b).

(** The loop over the digits; int64 wraps. *)
Fixpoint digitsLoop (num : Z) (s : string) : option Z :=
  match s with
  | EmptyString => Some num
  | String c s => d ← digitZ c; digitsLoop (w64 (w64 (num * 10) + d)) s
  end.

Fixpoint tens (s : string) (den : Z) : Z :=
  match s with EmptyString => den | String _ s => tens s (w64 (den * 10)) end.

Definition signOf (text : string) : string * bool :=
  match text with
  | String "-"%char s => (s, true)
  | String "+"%char s => (s, false)
  | _ => (text, false)
  end.

(** strings.Cut(s, ".") *)
Definition cutPoint (s : string) : string * string := default (s, ""%string) (cut "." s).

Definition decimalKey (text : string) : option string :=
  let '(s, negative) := signOf text in
  let '(whole, frac) := cutPoint s in
  let digits := whole +:+ frac in
  if bool_decide (digits = ""%string) || (18 <? String.length digits)%nat then None
  else
    num ← digitsLoop 0 digits;
    let den := tens frac 1 in
    let g := gcd num den in
    let '(num, den) := (Z.quot num g, Z.quot den g) in
    let num := if (negative : bool) && negb (num =? 0) then - num else num in
    Some (if den =? 1 then "n:" +:+ pretty num else "n:" +:+ pretty num +:+ "/" +:+ pretty den).

(** ** Keys *)

Section keys.
Context `{GoStd} `{JoinStd}.

Definition numberKey (text : string) (v : value) : string :=
  match decimalKey text with
  | Some key => key
  | None => match ratSetString text with
            | Some r => "n:" +:+ ratString r
            | None => typedText v text
            end
  end.

Definition textKey (s : string) (decimal : bool) : string :=
  if decimal then numberKey s (VString s) else "s:" +:+ quote s.

(** The part of one value; [None] for NULL. *)
Definition keyPart (v : value) (decimal : bool) : option string :=
  match v with
  | VNil => None
  | VInt _ n => Some ("n:" +:+ pretty n)
  | VFloat32 f => Some (numberKey (formatFloat32 f) v)
  | VFloat64 f => Some (numberKey (formatFloat64 f) v)
  | VBytes s | VString s => Some (textKey s decimal)
  | _ => Some (typedText v (sprint v))
  end.

(** i < len(decimal) && decimal[i] *)
Definition decimalAt (decimal : list bool) (i : nat) : bool := default false (decimal !! i).

Definition joinKeyOf (values : list value) (decimal : list bool) : option string :=
  join "," <$> mapM (fun iv => keyPart iv.2 (decimalAt decimal iv.1)) (imap pair values).

Definition joinKey (values : list value) : option string := joinKeyOf values [].

Definition rowJoinKey (row : gmap string value) (columns : list string) (decimal : list bool) : option string :=
  joinKeyOf ((fun c => default VNil (row !! c)) <$> columns) decimal.

End keys.
