(* ===== verification/JoinKeyTheorems.v ===== *)
(** Join keys tell numbers and texts apart exactly: the arithmetic on decimals
    never overflows and agrees with the reference on rationals, and two tuples
    have one key if and only if they are equal value by value. *)

From Stdlib Require Import QArith Qreduction.
From S2P Require Import Prelude GoString Value Numbers JoinKey.

#[global] Open Scope Z_scope.

(** ** The greatest common divisor *)

Lemma rem_half a b : 0 < b <= a -> 2 * Z.rem a b < a.
Proof.
  intros [Hb Ha]. rewrite Z.rem_mod_nonneg by lia. pose proof (Z.mod_pos_bound a b Hb). pose proof (Z.div_mod a b ltac:(lia)).
  assert (1 <= a / b) by (apply Z.div_le_lower_bound; lia). nia.
Qed.

Lemma gcdLoop_S n a b :
  gcdLoop (S n) a b = if b =? 0 then Some (if a =? 0 then 1 else a) else gcdLoop n b (Z.rem a b).
Proof. done. Qed.

Lemma gcdLoop_0 n a : 0 < a -> gcdLoop (S n) a 0 = Some (Z.gcd a 0).
Proof. intros Ha. rewrite gcdLoop_S, Z.gcd_0_r, Z.abs_eq by lia. simpl. by rewrite (proj2 (Z.eqb_neq a 0)) by lia. Qed.

(** 2 n rounds are enough below 2^n. *)
Lemma gcdLoop_gcd n : forall a b, 0 <= a -> 0 <= b < 2 ^ Z.of_nat n ->
  (0 < a \/ 0 < b) -> gcdLoop (S (2 * n)) a b = Some (Z.gcd a b).
Proof.
  induction n as [|n IH]; intros a b Ha Hb Hpos.
  { assert (b = 0) as -> by (simpl in Hb; lia). apply gcdLoop_0. lia. }
  replace (S (2 * S n)) with (S (S (S (2 * n)))) by lia.
  destruct (Z.eqb_spec b 0) as [->|Hb0]; [apply gcdLoop_0; lia|].
  pose proof (Z.rem_bound_pos a b Ha ltac:(lia)) as Hr.
  assert (Z.gcd b (Z.rem a b) = Z.gcd a b) as Hg.
  { rewrite Z.rem_mod_nonneg by lia. rewrite Z.gcd_comm, Z.gcd_mod by lia. apply Z.gcd_comm. }
  rewrite gcdLoop_S, (proj2 (Z.eqb_neq b 0)), <- Hg by done. destruct (Z.eqb_spec (Z.rem a b) 0) as [->|Hr0]; [apply gcdLoop_0; lia|].
  rewrite gcdLoop_S, (proj2 (Z.eqb_neq _ 0)) by done.
  assert (Z.gcd (Z.rem a b) (Z.rem b (Z.rem a b)) = Z.gcd b (Z.rem a b)) as <-.
  { rewrite (Z.rem_mod_nonneg b) by lia. rewrite Z.gcd_comm, Z.gcd_mod by lia. apply Z.gcd_comm. }
  apply IH; [lia| |lia]. pose proof (Z.rem_bound_pos b (Z.rem a b) ltac:(lia) ltac:(lia)).
  pose proof (rem_half b (Z.rem a b) ltac:(lia)). rewrite Nat2Z.inj_succ, Z.pow_succ_r in Hb by lia. lia.
Qed.

Lemma gcd_spec a b : 0 <= a -> 0 < b < 2 ^ 63 -> gcd a b = Z.gcd a b.
Proof.
  intros Ha Hb. unfold gcd. change gcdFuel with (S (2 * 63 + 1)).
  assert (forall n x y g, gcdLoop n x y = Some g -> gcdLoop (S n) x y = Some g) as Hmore.
  { induction n as [|n IH]; intros x y g; [done|]. rewrite (gcdLoop_S (S n)), gcdLoop_S. destruct (y =? 0); [done|]. apply IH. }
  rewrite (Hmore _ _ _ (Z.gcd a b)); [done|]. apply (gcdLoop_gcd 63); lia.
Qed.

(** ** Decimals *)

Lemma digitZ_bound c d : digitZ c = Some d -> 0 <= d <= 9.
Proof. unfold digitZ, inb. intros Hd. case_match eqn:E; simplify_eq. apply andb_true_iff in E as [?%Z.leb_le ?%Z.leb_le]. lia. Qed.

Lemma parseDigits_bound s : forall acc n, 0 <= acc -> parseDigits acc s = Some n ->
  0 <= n < (acc + 1) * 10 ^ Z.of_nat (String.length s).
Proof.
  induction s as [|c s IH]; intros acc n Ha Hn; cbn [parseDigits String.length] in *.
  { injection Hn as <-. change (10 ^ Z.of_nat 0) with 1. lia. }
  destruct (digitZ c) as [d|] eqn:Ed; [|done]. cbn [mbind option_bind] in Hn. apply digitZ_bound in Ed. destruct (IH (10 * acc + d) n ltac:(lia) Hn) as [H0 H1].
  split; [done|]. rewrite Nat2Z.inj_succ, Z.pow_succ_r by lia. assert (0 < 10 ^ Z.of_nat (String.length s)) by (apply Z.pow_pos_nonneg; lia). nia.
Qed.

(** int64 does not wrap within 18 digits. *)
Lemma digitsLoop_exact s : forall acc,
  0 <= acc -> (acc + 1) * 10 ^ Z.of_nat (String.length s) <= 10 ^ 18 -> digitsLoop acc s = parseDigits acc s.
Proof.
  induction s as [|c s IH]; intros acc Ha Hb; cbn [digitsLoop parseDigits String.length] in *; [done|].
  destruct (digitZ c) as [d|] eqn:Ed; [|done]. simpl. apply digitZ_bound in Ed.
  rewrite Nat2Z.inj_succ, Z.pow_succ_r in Hb by lia. assert (0 < 10 ^ Z.of_nat (String.length s)) by (apply Z.pow_pos_nonneg; lia).
  assert (10 * acc + d + 1 <= 10 ^ 18) by nia. rewrite (w64_id (acc * 10)), w64_id by lia.
  replace (acc * 10 + d) with (10 * acc + d) by lia. apply IH; [lia|]. nia.
Qed.

Lemma tens_exact s : forall den, 0 < den -> den * 10 ^ Z.of_nat (String.length s) <= 10 ^ 18 ->
  tens s den = den * 10 ^ Z.of_nat (String.length s).
Proof.
  induction s as [|c s IH]; intros den Hd Hb; cbn [tens String.length] in *; [change (10 ^ Z.of_nat 0) with 1; lia|].
  rewrite Nat2Z.inj_succ, Z.pow_succ_r in * by lia. assert (0 < 10 ^ Z.of_nat (String.length s)) by (apply Z.pow_pos_nonneg; lia).
  rewrite w64_id by nia. rewrite IH; nia.
Qed.

(** The number a plain decimal spells: an optional sign, digits, an optional
    point and digits. *)
Definition plainDecimal (text : string) : option Q :=
  let '(s, negative) := signOf text in
  let '(whole, frac) := cutPoint s in
  if bool_decide (whole +:+ frac = "")%string then None
  else
    n ← parseDigits 0 (whole +:+ frac);
    Some (Qmake (if (negative : bool) then - n else n) (Z.to_pos (10 ^ Z.of_nat (String.length frac)))).

(** Lowest terms, by the greatest common divisor. *)
Lemma Qred_gcd n d : 0 < d ->
  Qnum (Qred (Qmake n (Z.to_pos d))) = n / Z.gcd n d /\ Zpos (Qden (Qred (Qmake n (Z.to_pos d)))) = d / Z.gcd n d.
Proof.
  intros Hd. unfold Qred. simpl. rewrite Z2Pos.id by done. pose proof (Z.ggcd_gcd n d) as Hg. pose proof (Z.ggcd_correct_divisors n d) as Hc.
  destruct (Z.ggcd n d) as [g [aa bb]]. simpl in *. subst g. destruct Hc as [Hn Hdd].
  assert (0 < Z.gcd n d) as Hpos.
  { pose proof (Z.gcd_nonneg n d). assert (Z.gcd n d <> 0) by (intros H0%Z.gcd_eq_0; lia). lia. }
  assert (n / Z.gcd n d = aa) as -> by (rewrite Hn at 1; rewrite Z.mul_comm; apply Z.div_mul; lia).
  assert (d / Z.gcd n d = bb) as -> by (rewrite Hdd at 1; rewrite Z.mul_comm; apply Z.div_mul; lia).
  split; [done|]. apply Z2Pos.id. nia.
Qed.

Lemma gcd_opp n d : Z.gcd (- n) d = Z.gcd n d.
Proof. apply Z.gcd_opp_l. Qed.

(** The key is the reference's. *)
Lemma decimalKey_ref t key : decimalKey t = Some key -> exists q, plainDecimal t = Some q /\ key = ("n:" +:+ ratString q)%string.
Proof.
  unfold decimalKey, plainDecimal. destruct (signOf t) as [s negative]. destruct (cutPoint s) as [whole frac].
  set (digits := (whole +:+ frac)%string). destruct (bool_decide (digits = "")%string); [done|]. simpl.
  destruct (Nat.ltb_spec 18 (String.length digits)) as [|Hlen]; [done|].
  assert (String.length digits = (String.length whole + String.length frac)%nat) as Hl by apply string_length_app.
  assert (10 ^ Z.of_nat (String.length digits) <= 10 ^ 18) as H18 by (apply Z.pow_le_mono_r; lia).
  assert (10 ^ Z.of_nat (String.length frac) <= 10 ^ 18) as Hf18 by (apply Z.pow_le_mono_r; lia).
  assert (0 < 10 ^ Z.of_nat (String.length frac)) as Hpos by (apply Z.pow_pos_nonneg; lia).
  rewrite (digitsLoop_exact digits 0) by lia. destruct (parseDigits 0 digits) as [n|] eqn:En; [|done]. cbn [mbind option_bind].
  destruct (parseDigits_bound _ _ _ (Z.le_refl 0) En) as [Hn0 _]. rewrite (tens_exact frac 1) by lia. rewrite Z.mul_1_l.
  set (d := 10 ^ Z.of_nat (String.length frac)) in *. rewrite gcd_spec by lia.
  assert (0 < Z.gcd n d) as Hg.
  { pose proof (Z.gcd_nonneg n d). assert (Z.gcd n d <> 0) by (intros H0%Z.gcd_eq_0; lia). lia. }
  rewrite !Z.quot_div_nonneg by lia. intros [= <-]. eexists. split; [reflexivity|].
  set (m := if negative then - n else n). destruct (Qred_gcd m d Hpos) as [Hnum Hden].
  assert (Z.gcd m d = Z.gcd n d) as Hgm by (unfold m; destruct negative; [apply gcd_opp|done]). rewrite Hgm in *.
  assert ((if negative && negb (n / Z.gcd n d =? 0) then - (n / Z.gcd n d) else n / Z.gcd n d) = m / Z.gcd n d) as ->.
  { unfold m. destruct negative; simpl; [|done]. destruct (Z.gcd_divide_l n d) as [z Hz]. 
    assert (n / Z.gcd n d = z) as -> by (rewrite Hz at 1; apply Z.div_mul; lia).
    assert (- n / Z.gcd n d = - z) as -> by (rewrite Hz at 1; rewrite <- Z.mul_opp_l; apply Z.div_mul; lia).
    destruct (Z.eqb_spec z 0); simpl; lia. }
  unfold ratString. rewrite <- Hnum, <- Hden. destruct (Z.eqb_spec (Zpos (Qden (Qred (Qmake m (Z.to_pos d))))) 1) as [H1|H1].
  - rewrite decide_True by congruence. done.
  - rewrite decide_False by congruence. done.
Qed.

(** The key of a decimal is exact.  On a text of at most 18 digits the
    int64 arithmetic never wraps, the division loop ends within its bound, and
    the key is the one the reference on arbitrary rationals gives: the number
    the text spells, in lowest terms.  So two such texts have one key if and
    only if they spell one number (12.50 and 12.5). *)
Theorem decimal_key_exact (text text' k k' : string) :
  decimalKey text = Some k -> decimalKey text' = Some k' ->
  exists q q', plainDecimal text = Some q /\ plainDecimal text' = Some q' /\
    k = ("n:" +:+ ratString q)%string /\ (k = k' <-> Qeq q q').
Proof.
  intros Hk Hk'. destruct (decimalKey_ref _ _ Hk) as (q & Hq & ->), (decimalKey_ref _ _ Hk') as (q' & Hq' & ->). exists q, q'.
  split_and!; [done..|]. split.
  - intros Heq. apply ratString_inj. simpl in Heq. by injection Heq.
  - intros Heq. unfold ratString. by rewrite (Qred_complete _ _ Heq).
Qed.

Lemma decimal_key_exact_witness :
  exists q q', plainDecimal "12.50" = Some q /\ plainDecimal "12.5" = Some q' /\ Qeq q q'.
Proof.
  assert (exists k, decimalKey "12.50" = Some k /\ decimalKey "12.5" = Some k) as (k & Hk & Hk').
  { eexists. split; vm_compute; reflexivity. }
  destruct (decimal_key_exact _ _ _ _ Hk Hk') as (q & q' & Hq & Hq' & _ & Heq).
  exists q, q'. split; [exact Hq|]. split; [exact Hq'|]. apply Heq. reflexivity.
Defined.

(** ** Tuples *)

Section tuples.
Context `{GoStd} `{JoinStd}.

(** The number a text is taken for. *)
Definition numberOf (text : string) : option Q :=
  match decimalKey text with Some _ => plainDecimal text | None => ratSetString text end.

(** What a value means in a join, [decimal] telling its column's type: a
    number or a text. *)
Definition joinValue (v : value) (decimal : bool) : option (Q + string) :=
  match v with
  | VInt _ n => Some (inl (inject_Z n))
  | VFloat32 f => inl <$> numberOf (formatFloat32 f)
  | VFloat64 f => inl <$> numberOf (formatFloat64 f)
  | VBytes s | VString s => if decimal then inl <$> numberOf s else Some (inr s)
  | _ => None
  end.

Definition sameValue (x y : Q + string) : Prop :=
  match x, y with inl p, inl q => Qeq p q | inr s, inr t => s = t | _, _ => False end.

Definition part (x : Q + string) : string :=
  match x with inl q => "n:" +:+ ratString q | inr s => "s:" +:+ quote s end.

Lemma numberKey_spec text v q : numberOf text = Some q -> numberKey text v = ("n:" +:+ ratString q)%string.
Proof.
  unfold numberOf, numberKey. destruct (decimalKey text) as [k|] eqn:Ek; [|by intros ->].
  intros Hq. destruct (decimalKey_ref _ _ Ek) as (q' & Hq' & ->). by simplify_eq.
Qed.

Lemma ratString_int n : ratString (inject_Z n) = pretty n.
Proof.
  unfold ratString, inject_Z. destruct (Qred_gcd n 1 ltac:(lia)) as [Hn Hd]. simpl Z.to_pos in *. rewrite Z.gcd_1_r, !Z.div_1_r in *.
  rewrite decide_True by congruence. by rewrite Hn.
Qed.

Lemma keyPart_spec v d x : joinValue v d = Some x -> keyPart v d = Some (part x).
Proof.
  destruct v; simpl; try done.
  - intros [= <-]. simpl. by rewrite ratString_int.
  - intros (q & Hq & ->)%fmap_Some. simpl. by rewrite (numberKey_spec _ _ _ Hq).
  - intros (q & Hq & ->)%fmap_Some. simpl. by rewrite (numberKey_spec _ _ _ Hq).
  - unfold textKey. destruct d; [|by intros [= <-]]. intros (q & Hq & ->)%fmap_Some. simpl. by rewrite (numberKey_spec _ _ _ Hq).
  - unfold textKey. destruct d; [|by intros [= <-]]. intros (q & Hq & ->)%fmap_Some. simpl. by rewrite (numberKey_spec _ _ _ Hq).
Qed.

(** The values of a tuple. *)
Definition tupleValues (values : list value) (decimal : list bool) : option (list (Q + string)) :=
  mapM (fun iv => joinValue iv.2 (decimalAt decimal iv.1)) (imap pair values).

Lemma joinKeyOf_spec values decimal xs :
  tupleValues values decimal = Some xs -> joinKeyOf values decimal = Some (join "," (part <$> xs)).
Proof.
  unfold tupleValues, joinKeyOf. intros Hx. apply mapM_Some in Hx.
  assert (mapM (fun iv => keyPart iv.2 (decimalAt decimal iv.1)) (imap pair values) = Some (part <$> xs)) as ->; [|done].
  apply mapM_Some. apply Forall2_fmap_r. eapply Forall2_impl; [exact Hx|]. intros iv x Hv. by apply keyPart_spec.
Qed.

(** strconv.Quote writes a literal that ends where its closing quote is. *)
Hypothesis quote_delimits : forall s s' t t', (quote s +:+ t = quote s' +:+ t')%string -> s = s' /\ t = t'.

Lemma part_split x y r r' :
  (part x +:+ "," +:+ r = part y +:+ "," +:+ r')%string -> sameValue x y /\ r = r'.
Proof using quote_delimits.
  destruct x as [p|s], y as [q|t]; simpl; intros Heq; try discriminate Heq; injection Heq as Heq.
  - apply (split_byte_inj ",") in Heq as [Hpq ->]; [|by apply ratString_bytes..]. split; [by apply ratString_inj|done].
  - apply quote_delimits in Heq as [-> Heq]. by injection Heq.
Qed.

Lemma part_inj x y : part x = part y <-> sameValue x y.
Proof using quote_delimits.
  split.
  - intros Heq. apply (part_split x y "" ""). by rewrite Heq.
  - destruct x as [p|s], y as [q|t]; simpl; try done; [|by intros ->]. intros Heq. unfold ratString. by rewrite (Qred_complete _ _ Heq).
Qed.

Lemma join_parts_inj xs : forall ys, length xs = length ys ->
  join "," (part <$> xs) = join "," (part <$> ys) -> Forall2 sameValue xs ys.
Proof using quote_delimits.
  induction xs as [|x xs IH]; intros [|y ys] Hl Heq; try done. injection Hl as Hl. destruct xs as [|x' xs], ys as [|y' ys]; try done.
  - constructor; [by apply part_inj|constructor].
  - change (part x +:+ "," +:+ join "," (part <$> x' :: xs) = part y +:+ "," +:+ join "," (part <$> y' :: ys))%string in Heq.
    apply part_split in Heq as [Hxy Heq]. constructor; [done|]. by apply IH.
Qed.

(** Join keys match exactly the tuples that are equal.  Two tuples of
    numbers and texts, however the driver typed them (integers of any width,
    floats, decimals or text as bytes), have one join key if and only if they
    are equal value by value, numbers as numbers and texts as texts; a tuple
    with a NULL has none. *)
Theorem join_keys_match (values values' : list value) (decimal decimal' : list bool) (xs xs' : list (Q + string)) :
  tupleValues values decimal = Some xs -> tupleValues values' decimal' = Some xs' -> length values = length values' ->
  (joinKeyOf values decimal = joinKeyOf values' decimal' <-> Forall2 sameValue xs xs') /\
  (forall vs ds, VNil ∈ vs -> joinKeyOf vs ds = None).
Proof using quote_delimits.
  intros Hx Hx' Hl. assert (length xs = length xs') as Hlen.
  { pose proof (length_mapM _ _ _ Hx) as H1. pose proof (length_mapM _ _ _ Hx') as H2. rewrite !length_imap in *. congruence. }
  split.
  - rewrite (joinKeyOf_spec _ _ _ Hx), (joinKeyOf_spec _ _ _ Hx'). split.
    + intros [= Heq]. by apply join_parts_inj.
    + intros Hall. do 2 f_equal. clear Hlen Hx Hx' Hl. induction Hall as [|x y xs ys Hxy _ IH]; [done|]. simpl. f_equal; [by apply part_inj|done].
  - intros vs ds (i & Hi)%list_elem_of_lookup. unfold joinKeyOf.
    destruct (mapM _ (imap pair vs)) as [ps|] eqn:Em; [|done]. exfalso. apply mapM_Some in Em.
    assert (imap pair vs !! i = Some (i, VNil)) as Hv by (rewrite list_lookup_imap, Hi; done).
    destruct (Forall2_lookup_l _ _ _ _ _ Em Hv) as (x & _ & Hn). done.
Qed.

End tuples.

(** ** On concrete tuples *)

(** Quoting that escapes the quote and the backslash, as strconv.Quote does. *)
Definition special (c : ascii) : bool := Ascii.eqb c "034" || Ascii.eqb c "\".

Fixpoint escaped (s : string) : string :=
  match s with
  | EmptyString => EmptyString
  | String c s => if special c then String "\" (String c (escaped s)) else String c (escaped s)
  end.

Definition demoQuote (s : string) : string := String "034" (escaped s +:+ String "034" "").

Lemma escaped_delimits s : forall s' t t',
  (escaped s +:+ String "034" t = escaped s' +:+ String "034" t')%string -> s = s' /\ t = t'.
Proof.
  induction s as [|c s IH]; intros [|c' s'] t t' Heq; cbn [escaped] in Heq.
  - by injection Heq.
  - destruct (special c') eqn:E; [discriminate Heq|]. injection Heq as <- _. discriminate E.
  - destruct (special c) eqn:E; [discriminate Heq|]. injection Heq as -> _. discriminate E.
  - destruct (special c) eqn:E, (special c') eqn:E'; injection Heq.
    + intros Heq' ->. by apply IH in Heq' as [-> ->].
    + intros _ <-. discriminate E'.
    + intros _ ->. discriminate E.
    + intros Heq' ->. by apply IH in Heq' as [-> ->].
Qed.

Definition demoJoinStd : JoinStd :=
  {| formatFloat64 := fun _ => ""%string; formatFloat32 := fun _ => ""%string; quote := demoQuote;
     typedText := fun _ s => s; sprint := fun _ => ""%string |}.

(** An int8 and a decimal's text match; a text does not match a number. *)
Lemma join_keys_match_witness :
  @joinKeyOf asciiStd demoJoinStd [VInt KInt64 12; VString "a"] [] = @joinKeyOf asciiStd demoJoinStd [VBytes "12.00"; VBytes "a"] [true] /\
  @joinKeyOf asciiStd demoJoinStd [VInt KInt64 12; VNil] [] = None.
Proof.
  assert (forall s s' t t', (demoQuote s +:+ t = demoQuote s' +:+ t')%string -> s = s' /\ t = t') as Hq.
  { intros s s' t t' Heq. unfold demoQuote in Heq. simpl in Heq. injection Heq as Heq. rewrite !string_app_assoc in Heq.
    by apply escaped_delimits in Heq. }
  destruct (@join_keys_match asciiStd demoJoinStd Hq [VInt KInt64 12; VString "a"] [VBytes "12.00"; VBytes "a"] [] [true]
              [inl (inject_Z 12); inr "a"%string] [inl (Qmake 1200 100); inr "a"%string] eq_refl eq_refl eq_refl) as [Hiff Hnil].
  split; [|apply Hnil; right; left]. apply Hiff. constructor; [reflexivity|]. constructor; [reflexivity|constructor].
Defined.
