(* ===== verification/RunStatement.v ===== *)
(** Running a statement: query, exec and what surrounds them in
    core/tool/pipeline.go, with schema_drift.go, store.IterNamed, writeError
    (denial.go) and the masking of rows (tool.go).

    A call runs in a monad of its state (its meter, the memory of results, the
    cache, the session's write windows, what its transaction marked, the drift
    signal, the statements it sent to the database) and refusals.  What the
    database and the transaction manager answer are functions of an
    [environment], the database's of the statement and the number of those
    sent before; while the database answers, time passes and other calls use
    the cache.  The sizes of rows are encoding/json's, class [RowSize].  A row
    nested in a row is a [VMap], rows a [VList]. *)

From S2P Require Import Prelude GoString Value Relalg Entity Numbers Cost Transaction Cache Invalidation Rbac Mask Pipeline Results.

Abbreviation row := (gmap string value).

(** The size of a row, of rows, or of the values of a row, encoded; [None]
    cannot be encoded. *)
Class RowSize : Type := {
  rowSize : row -> option Z;
  rowsSize : list row -> option Z;
  valuesSize : list value -> option Z;
}.

(** ** What a call talks to *)

(** Rows the database returned, up to an error. *)
Record answer : Type := mkAnswer {
  an_columns : goErr + list string;
  an_rows : list (list value);
  an_err : option goErr;
}.

(** A statement sent to the database: the connection, the text and its arguments. *)
Record asked : Type := mkAsked { aq_db : option nat; aq_sql : string; aq_args : list value }.

Definition askedOf (st : statement) : asked := mkAsked (x_db (s_tc st)) (st_sql (s_sql st)) (st_args (s_sql st)).

(** A record of the escape hatch in the audit log. *)
Record auditEvent : Type := mkEvent {
  ae_phase : string;
  ae_role : string;
  ae_grants : list string;
  ae_allowed : bool;
  ae_datasource : string;
  ae_connection : string;
  ae_sql : string;
  ae_rowsAffected : Z;
  ae_cost : option Plan;
}.

Record environment : Type := mkEnv {
  ev_now : nat -> Z;                       (** the time once as many statements were sent *)
  ev_session : string;
  ev_window : string -> Z;                 (** a datasource's ReadAfterWrite *)
  ev_targets : WriteTargets;
  ev_markDirty : option txError;           (** the manager's MarkDirty *)
  ev_query : nat -> asked -> goErr + answer;
  ev_exec : nat -> asked -> goErr + (Z * Z); (** LastInsertID and RowsAffected *)
  ev_meanwhile : nat -> TTLCache (list row) -> TTLCache (list row); (** other calls *)
  ev_record : nat -> bool;                 (** whether the audit log takes its n-th record *)
}.

Record callState : Type := mkCallState {
  cs_meter : option resultMeter;
  cs_memory : ResultMemory;
  cs_tracker : WriteTracker;
  cs_cache : option (TTLCache (list row));
  cs_dirty : list CacheTarget;             (** marked on the transaction *)
  cs_drift : bool;
  cs_asked : list asked;                   (** the statements sent *)
  cs_audit : list (nat * auditEvent);      (** the records written, each with the number of statements sent before it *)
}.

Definition cs_calls (s : callState) : nat := length (cs_asked s).

(** ** The monad *)

Definition call (A : Type) : Type := callState -> outcome A * callState.

#[global] Instance call_ret : MRet call := fun A a s => (Done a, s).
#[global] Instance call_bind : MBind call := fun A B k m s =>
  match m s with (Done a, s) => k a s | (Refused e, s) => (Refused e, s) end.

Definition refuse {A} (e : toolError) : call A := fun s => (Refused e, s).
Definition lifted {A} (o : outcome A) : call A := fun s => (o, s).
Definition stateful {A} (f : callState -> outcome A * callState) : call A := f.
Definition gets {A} (f : callState -> A) : call A := fun s => (Done (f s), s).

Definition with_metered (m : option resultMeter) (r : ResultMemory) (s : callState) : callState :=
  mkCallState m r (cs_tracker s) (cs_cache s) (cs_dirty s) (cs_drift s) (cs_asked s) (cs_audit s).
Definition with_followed (t : WriteTracker) (c : option (TTLCache (list row))) (dirty : list CacheTarget) (s : callState) : callState :=
  mkCallState (cs_meter s) (cs_memory s) t c dirty (cs_drift s) (cs_asked s) (cs_audit s).

(** A statement sent to the database, and its answer. *)
Definition ask {A} (ev : environment) (f : nat -> asked -> A) (q : asked) : call A := fun s =>
  (Done (f (cs_calls s) q),
   mkCallState (cs_meter s) (cs_memory s) (cs_tracker s) (ev_meanwhile ev (cs_calls s) <$> cs_cache s) (cs_dirty s) (cs_drift s)
     (cs_asked s ++ [q]) (cs_audit s)).

(** ** Counting *)

Definition counts (f : resultMeter -> ResultMemory -> resultMeter * ResultMemory * counting) : call counting := fun s =>
  match cs_meter s with
  | None => (Done Counted, s)
  | Some m => let '(m, r, c) := f m (cs_memory s) in (Done c, with_metered (Some m) r s)
  end.

(** add: the meter's word, or an encoding error. *)
Definition addRow `{RowSize} (r : row) : call counting :=
  m ← gets cs_meter;
  match m with
  | None => mret Counted
  | Some _ => match rowSize r with None => refuse EEncoding | Some n => counts (addSized 1 n) end
  end.

(** ** Shaping *)

Definition finite (v : value) : value :=
  match v with
  | VFloat64 FNaN | VFloat32 FNaN => VString "NaN"
  | VFloat64 (FInf false) | VFloat32 (FInf false) => VString "Infinity"
  | VFloat64 (FInf true) | VFloat32 (FInf true) => VString "-Infinity"
  | _ => v
  end.

(** maskRules (tool.go) *)
Definition addRule (rules : gmap string string) (a : Attribute) : gmap string string :=
  if bool_decide (AMask a = "") then rules
  else let rules := <[AName a := AMask a]> rules in
       if bool_decide (AAlias a = "") then rules else <[AAlias a := AMask a]> rules.

Definition maskRules (attrs : list Attribute) : gmap string string := fold_left addRule attrs ∅.

(** maskRow: [rules] by field, [masker] by rule. *)
Definition maskField (masker : string -> option (value -> result value)) (rules : gmap string string) (fv : string * value)
  : result (string * value) :=
  match rules !! fv.1 with
  | None => Ok fv
  | Some rule => v ← Mask masker rule fv.2; Ok (fv.1, v)
  end.

Definition maskRow (masker : string -> option (value -> result value)) (rules : gmap string string) (r : row) : result row :=
  l ← mapM (maskField masker rules) (map_to_list r); Ok (list_to_map l).

(** present, with the rules of st.maskRules. *)
Definition onlyFields (st : statement) (r : row) : row :=
  match s_fields st with None => r | Some fields => filter (fun fv => fv.1 ∈ fields) r end.

Definition present (st : statement) (r : row) : result row :=
  match x_masker (s_tc st) with
  | None => Ok (onlyFields st r)
  | Some masker => maskRow masker (maskRules (EAttributes (REntity (s_res st)))) (onlyFields st r)
  end.

(** store.IterNamed: the rows by name, and the error that ends them. *)
Definition iterNamed (names : list string) (a : answer) : list row * option goErr :=
  match an_columns a with
  | inl err => ([], Some err)
  | inr cols =>
      if negb (bool_decide (names = [])) && negb (length names =? length cols)%nat then ([], Some [])
      else
        let cols := if bool_decide (names = []) then cols else names in
        (map (fun vals => fold_left (fun r cv => <[cv.1 := cv.2]> r) (zip cols vals) ∅) (an_rows a), an_err a)
  end.

(** ** Errors *)

Definition endedTransaction (err : goErr) : bool := errorsIs err StatementFailed.

(** writeError (denial.go) *)
Definition constraintOf (err : goErr) : option (string * string * list string) :=
  head (omap (fun s => match s with StoreConstraint kind constraint columns => Some (kind, constraint, columns) | _ => None end) err).

Definition keyColumns (e : Entity) (constraint : string) : list string :=
  fold_left (fun cols k => if bool_decide (KName k = constraint) then KColumns k else cols) (EKeys e) [].

Definition dbError (err : goErr) : toolError := EDatabase (default [] (WrapDBError (Some err))).

Definition writeError (res : Resolved) (err : goErr) : toolError :=
  match constraintOf err with
  | None => dbError err
  | Some (kind, constraint, columns) =>
      let columns := if bool_decide (columns = []) && negb (bool_decide (constraint = "")) then keyColumns (REntity res) constraint
                     else columns in
      EConstraint kind (List.filter (fun c => existsb (fun a => bool_decide (AName a = c)) (RAttributes res)) columns)
  end.

(** SchemaDrift.Report, once the error is a schema change. *)
Definition reportDrift : call unit := fun s =>
  (Done tt, mkCallState (cs_meter s) (cs_memory s) (cs_tracker s) (cs_cache s) (cs_dirty s) true (cs_asked s) (cs_audit s)).

Definition classify (st : statement) (err : goErr) : call toolError :=
  if errorsIs err StoreMissingRelation || errorsIs err StoreMissingColumn then
    _ ← reportDrift; mret (ESchemaChanged err)
  else if negb (s_write st) then mret (dbError err)
  else if bool_decide (x_transaction (s_tc st) = "") && uncertain err || errorsIs err StoreInterrupted then mret (EOutcomeUnknown err)
  else mret (writeError (s_res st) err).

Definition fail_ {A} (st : statement) (err : goErr) : call A :=
  out ← classify st err;
  refuse (if endedTransaction err then ERolledBack out else out).

(** retryStalePlan (schema_drift.go) *)
Definition retryStalePlan {A} (ev : environment) (st : statement) (f : nat -> asked -> goErr + A) : call (goErr + A) :=
  out ← ask ev f (askedOf st);
  match out with
  | inl err => if bool_decide (x_transaction (s_tc st) = "") && errorsIs err StoreStalePlan then ask ev f (askedOf st) else mret out
  | inr _ => mret out
  end.

(** ** Following writes *)

Definition transactional (st : statement) : bool := s_write st && negb (bool_decide (x_transaction (s_tc st) = "")).

Section run.
Context (ev : environment).

(** invalidate: without a cache there is nothing to do. *)
Definition invalidateIn (targets : list CacheTarget) (c : option (TTLCache (list row))) : result (option (TTLCache (list row))) :=
  match c with None => Ok None | Some c => c ← invalidate targets c; Ok (Some c) end.

Definition afterWriteCall (tc : Context) (e : Entity) : call unit :=
  targets ← lifted (lift (targetsOf (x_registry tc) (ev_targets ev) e));
  if bool_decide (x_transaction tc = "") then stateful (fun s =>
    let tr := recordWrites (ev_now ev (cs_calls s)) (ev_session ev) (ev_window ev) (ev_targets ev) ∅ targets (cs_tracker s) in
    match invalidateIn targets (cs_cache s) with
    | Ok c => (Done tt, with_followed tr c (cs_dirty s) s)
    | Err err => (Refused (EOther err), with_followed tr (cs_cache s) (cs_dirty s) s)
    end)
  else match ev_markDirty ev with
       | Some err => refuse (ETransaction err)
       | None => stateful (fun s => (Done tt, with_followed (cs_tracker s) (cs_cache s) (cs_dirty s ++ targets) s))
       end.

(** admitted *)
Definition admitStatement (st : statement) : call unit :=
  if negb (Allowed (s_grant st)) || bool_decide (st_sql (s_sql st) = "") then refuse ENotAuthorized
  else if transactional st then afterWriteCall (s_tc st) (REntity (s_res st)) else mret tt.

(** settle, deferred until [body] ended. *)
Definition settled {A} (st : statement) (body : call A) : call A := fun s =>
  let '(r, s) := body s in
  if negb (s_write st) || transactional st then (r, s)
  else
    let '(f, s) := afterWriteCall (s_tc st) (REntity (s_res st)) s in
    match r, f with
    | Refused e, _ => (Refused e, s)
    | Done _, Refused e => (Refused e, s)
    | Done a, Done _ => (Done a, s)
    end.

(** ** Queries *)

Record queried : Type := mkQueried { q_rows : list row; q_kept : list row; q_truncated : bool }.

Definition keepOf (st : statement) (r : row) : list row :=
  match s_keep st with
  | None => []
  | Some cols => [fold_left (fun k c => <[c := default VNil (r !! c)]> k) cols ∅]
  end.

Context `{RowSize}.

(** The loop over the rows; [rows] and [kept] are those read so far. *)
Fixpoint readRows (st : statement) (input : list row) (err : option goErr) (rows kept : list row) : call queried :=
  match input with
  | [] => match err with
          | Some err => fail_ st err
          | None => mret (mkQueried rows kept false)
          end
  | r :: input =>
      let r := finite <$> r in
      let kept' := kept ++ keepOf st r in
      shown ← lifted (lift (present st r));
      c ← (if (s_rowCap st <=? 0) || (Z.of_nat (length rows) <? s_rowCap st) then addRow shown
           else if negb (s_write st) then refuse EBudgetExceeded else mret ResultCut);
      match c with
      | ResultCut => mret (mkQueried rows kept true)
      | Exceeded => refuse EBudgetExceeded
      | Counted => readRows st input err (rows ++ [shown]) kept'
      end
  end.

Definition query (st : statement) : call queried :=
  _ ← admitStatement st;
  settled st (
    out ← retryStalePlan ev st (ev_query ev);
    match out with
    | inl err => fail_ st err
    | inr a => let '(rows, err) := iterNamed (s_columns st) a in readRows st rows err [] []
    end).

Definition exec (st : statement) : call (Z * Z) :=
  _ ← admitStatement st;
  settled st (
    out ← retryStalePlan ev st (ev_exec ev);
    match out with inl err => fail_ st err | inr r => mret r end).

End run.
