(* ===== verification/RunTheorems.v ===== *)
(** Running statements: rows leave masked and counted, writes are followed
    whatever their outcome, and errors say what they may of it. *)

From S2P Require Import Prelude GoString Value Relalg Entity Numbers Dialect Cost Transaction Cache CacheTheorems Invalidation InvalidationTheorems Rbac Mask Pipeline PipelineFacts Results ResultsTheorems RunStatement.

(** ** The monad *)

Lemma call_bind_done {A B} (m : call A) (k : A -> call B) s b s' :
  (m ≫= k) s = (Done b, s') -> exists a s1, m s = (Done a, s1) /\ k a s1 = (Done b, s').
Proof. unfold mbind, call_bind. destruct (m s) as [[a|e] s1]; [eauto|done]. Qed.

Lemma call_bind_refused {A B} (m : call A) (k : A -> call B) s e s' :
  (m ≫= k) s = (Refused e, s') -> m s = (Refused e, s') \/ exists a s1, m s = (Done a, s1) /\ k a s1 = (Refused e, s').
Proof. unfold mbind, call_bind. destruct (m s) as [[a|e'] s1]; [right; eauto|]. intros [= -> ->]. by left. Qed.

(** ** Rows *)

Lemma maskRow_spec masker rules r r' f v' :
  maskRow masker rules r = Ok r' -> r' !! f = Some v' ->
  exists v, r !! f = Some v /\
    match rules !! f with Some rule => Mask masker rule v = Ok v' | None => v' = v end.
Proof.
  unfold maskRow. intros Hm Hf. inv_ok. rename a into l, E into Hl. apply mapM_ok in Hl.
  assert (l.*1 = (map_to_list r).*1) as Hkeys.
  { clear Hf. induction Hl as [|[k v] [k' w] l' l Hkv _ IH]; [done|]. simpl. f_equal; [|exact IH]. unfold maskField in Hkv. simpl in Hkv.
    destruct (rules !! k); [inv_ok; done|by injection Hkv as -> ->]. }
  assert (NoDup l.*1) as Hnd by (rewrite Hkeys; apply NoDup_fst_map_to_list).
  apply elem_of_list_to_map in Hf; [|done]. apply list_elem_of_lookup in Hf as (i & Hi).
  destruct (Forall2_lookup_r _ _ _ _ _ Hl Hi) as ([k v] & Hk & Hkv). exists v.
  unfold maskField in Hkv. simpl in Hkv. destruct (rules !! k) as [rule|] eqn:Er.
  - inv_ok. rewrite Er. split; [|done]. apply elem_of_map_to_list. by apply list_elem_of_lookup_2 in Hk.
  - injection Hkv as <- <-. rewrite Er. split; [|done]. apply elem_of_map_to_list. by apply list_elem_of_lookup_2 in Hk.
Qed.

(** A row shown for a row read: fields the statement keeps, masked where a
    rule applies and else as read. *)
Definition shownFor (st : statement) (raw shown : row) : Prop :=
  forall f v', shown !! f = Some v' ->
    (forall fields, s_fields st = Some fields -> f ∈ fields) /\
    exists v, raw !! f = Some v /\
      match x_masker (s_tc st) with
      | None => v' = finite v
      | Some masker =>
          match maskRules (EAttributes (REntity (s_res st))) !! f with
          | Some rule => Mask masker rule (finite v) = Ok v'
          | None => v' = finite v
          end
      end.

Lemma present_shown st raw shown : present st (finite <$> raw) = Ok shown -> shownFor st raw shown.
Proof.
  unfold present. intros Hp f v' Hf. set (r := onlyFields st (finite <$> raw)) in Hp.
  assert (forall v, r !! f = Some v -> (forall fields, s_fields st = Some fields -> f ∈ fields) /\ exists w, raw !! f = Some w /\ v = finite w) as Hr.
  { intros v Hv. unfold r, onlyFields in Hv. destruct (s_fields st) as [fields|].
    - apply map_lookup_filter_Some in Hv as [Hv Hin]. rewrite lookup_fmap in Hv. apply fmap_Some in Hv as (w & Hw & ->).
      split; [by intros fields' [= <-]|eauto].
    - rewrite lookup_fmap in Hv. apply fmap_Some in Hv as (w & Hw & ->). split; [done|eauto]. }
  destruct (x_masker (s_tc st)) as [masker|].
  - destruct (maskRow_spec _ _ _ _ _ _ Hp Hf) as (v & Hv & Hm). destruct (Hr _ Hv) as [Hfields (w & Hw & ->)].
    split; [done|]. exists w. split; [done|]. exact Hm.
  - injection Hp as <-. destruct (Hr _ Hf) as [Hfields (w & Hw & ->)]. split; [done|]. by exists w.
Qed.

Section rows.
Context `{RowSize}.

(** The limits a meter has. *)
Definition metered (s s' : callState) (n : nat) : Prop :=
  match cs_meter s, cs_meter s' with
  | Some m, Some m' => mt_maxRows m' = mt_maxRows m /\ mt_maxBytes m' = mt_maxBytes m /\ mt_rows m' = mt_rows m + Z.of_nat n
  | None, None => True
  | _, _ => False
  end.

Lemma addSized_limits k n m r m' r' c : addSized k n m r = (m', r', c) -> mt_maxRows m' = mt_maxRows m /\ mt_maxBytes m' = mt_maxBytes m.
Proof.
  unfold addSized. destruct (_ && _); [by destruct (mt_write m); intros [= <- <- <-]|]. destruct (_ && _); [by intros [= <- <- <-]|].
  destruct (mt_closed m); [by intros [= <- <- <-]|]. destruct (reserve n r) as [r2 []]; [by intros [= <- <- <-]|].
  by destruct (mt_write m); intros [= <- <- <-].
Qed.

Definition withinMeter (s : callState) : Prop := forall m, cs_meter s = Some m ->
  (0 < mt_maxRows m -> mt_rows m <= mt_maxRows m) /\ (0 < mt_maxBytes m -> mt_bytes m <= mt_maxBytes m).

Lemma addRow_counted shown s s' : addRow shown s = (Done Counted, s') -> metered s s' 1 /\ withinMeter s'.
Proof.
  unfold addRow, gets, counts, mbind, call_bind. simpl. unfold metered, withinMeter.
  destruct (cs_meter s) as [m|] eqn:Em; [|intros [= <-]; rewrite Em; done].
  destruct (rowSize shown) as [n|]; [|done]. rewrite Em. destruct (addSized 1 n m (cs_memory s)) as [[m' r'] c] eqn:Ea.
  intros [= -> <-]. simpl. destruct (counted_within _ _ _ _ _ _ Ea) as (Hr & _ & Hrows & Hbytes).
  destruct (addSized_limits _ _ _ _ _ _ _ Ea) as [Hmr Hmb]. split; [done|]. intros m2 [= <-]. rewrite Hmr, Hmb. done.
Qed.

Lemma addRow_cut shown s s' : addRow shown s = (Done ResultCut, s') -> cs_meter s' = cs_meter s.
Proof.
  unfold addRow, gets, counts, mbind, call_bind. simpl. destruct (cs_meter s) as [m|] eqn:Em; [|done].
  destruct (rowSize shown) as [n|]; [|done]. rewrite Em. unfold addSized.
  destruct (_ && _); [by destruct (mt_write m); intros [= <-]|]. destruct (_ && _); [done|]. destruct (mt_closed m); [done|].
  destruct (reserve n (cs_memory s)) as [r2 []]; [done|]. by destruct (mt_write m); intros [= <-].
Qed.

Lemma metered_refl s s' : cs_meter s' = cs_meter s -> metered s s' 0.
Proof. intros Hm. unfold metered. rewrite Hm. destruct (cs_meter s); [|done]. split_and!; [done..|lia]. Qed.

Lemma metered_trans s1 s2 s3 a b : metered s1 s2 a -> metered s2 s3 b -> metered s1 s3 (a + b).
Proof.
  unfold metered. destruct (cs_meter s1), (cs_meter s2), (cs_meter s3); try done.
  intros (? & ? & ?) (? & ? & ?). split_and!; [congruence..|lia].
Qed.

Lemma fail_refused {A} st err s (a : A) s' : fail_ st err s <> (Done a, s').
Proof.
  unfold fail_, classify, mbind, call_bind. destruct (errorsIs _ _ || _); [done|]. destruct (negb (s_write st)); [done|].
  by destruct (bool_decide _ && _ || _).
Qed.

(** The rows a query read and showed. *)
Record readThrough (st : statement) (input : list row) (err : option goErr) (rows : list row) (s : callState) (out : queried) (s' : callState)
  : Prop := {
  rt_rows : exists read shown, read `prefix_of` input /\ q_rows out = rows ++ shown /\ Forall2 (shownFor st) read shown /\
    metered s s' (length shown) /\ (q_truncated out = false -> read = input /\ err = None);
  rt_within : withinMeter s -> withinMeter s';
  rt_capped : 0 < s_rowCap st -> Z.of_nat (length rows) <= s_rowCap st -> Z.of_nat (length (q_rows out)) <= s_rowCap st;
}.

Lemma readRows_spec st input err : forall rows kept s out s',
  readRows st input err rows kept s = (Done out, s') -> readThrough st input err rows s out s'.
Proof.
  induction input as [|r input IH]; intros rows kept s out s' Hr; cbn [readRows] in Hr.
  - destruct err as [err|]; [by apply fail_refused in Hr|]. injection Hr as <- <-. split; [|done|done].
    exists [], []. split_and!; [done|by rewrite app_nil_r|constructor|by apply metered_refl|done].
  - apply call_bind_done in Hr as (shown & s1 & Hp & Hr). injection Hp as Hp <-. apply lift_done in Hp. apply present_shown in Hp.
    apply call_bind_done in Hr as (c & s2 & Hc & Hr).
    assert ((c = Counted /\ metered s s2 1 /\ withinMeter s2 /\ (0 < s_rowCap st -> Z.of_nat (length rows) < s_rowCap st)) \/
            (c = ResultCut /\ cs_meter s2 = cs_meter s) \/ c = Exceeded) as Hcase.
    { destruct (Z.leb_spec (s_rowCap st) 0), (Z.ltb_spec (Z.of_nat (length rows)) (s_rowCap st)); simpl in Hc;
        try (destruct c; [left; destruct (addRow_counted _ _ _ Hc); split_and!; [done..|lia]
                         |right; left; split; [done|by eapply addRow_cut]|by right; right]).
      destruct (s_write st); [|done]. injection Hc as <- <-. right. by left. }
    destruct Hcase as [(-> & Hm & Hw & Hcap)|[[-> Hm]| ->]]; [|injection Hr as <- <-|done].
    + destruct (IH _ _ _ _ _ Hr) as [(read & sh & Hpre & Hq & Hall & Hm2 & Hfull) Hwin Hcapped]. split.
      * exists (r :: read), (shown :: sh). split_and!; [by apply prefix_cons|by rewrite Hq, <- app_assoc|by constructor| |].
        -- by apply (metered_trans s s2 s' 1 (length sh)).
        -- intros Ht. destruct (Hfull Ht) as [-> ->]. done.
      * intros _. by apply Hwin.
      * intros Hc0 _. apply Hcapped; [done|]. rewrite length_app. simpl. specialize (Hcap Hc0). lia.
    + split; [|by unfold withinMeter; rewrite Hm|done]. exists [], [].
      split_and!; [apply prefix_nil|by rewrite app_nil_r|constructor|by apply metered_refl|done].
Qed.

End rows.

(** ** Asking the database *)

Section statements.
Context (ev : environment) `{RowSize}.

(** What a statement asked, and the answer it goes by. *)
Lemma retry_answer {A} st (f : nat -> asked -> goErr + A) s out s' :
  retryStalePlan ev st f s = (Done out, s') ->
  (exists n, out = f n (askedOf st) /\ (n = cs_calls s \/ n = S (cs_calls s))) /\
  cs_meter s' = cs_meter s /\ cs_tracker s' = cs_tracker s /\ cs_dirty s' = cs_dirty s /\ cs_memory s' = cs_memory s.
Proof.
  unfold retryStalePlan, ask, mbind, call_bind. simpl.
  destruct (f (cs_calls s) _) as [err|a] eqn:Ef.
  - destruct (bool_decide _ && _); intros [= <- <-]; simpl; (split; [|done]); [|by eauto].
    exists (S (cs_calls s)). split; [|by right]. f_equal. unfold cs_calls. simpl. rewrite length_app. simpl. lia.
  - intros [= <- <-]. simpl. split; [|done]. eauto.
Qed.

Lemma retry_done {A} st (f : nat -> asked -> goErr + A) s : exists out s', retryStalePlan ev st f s = (Done out, s').
Proof. unfold retryStalePlan, ask, mbind, call_bind. simpl. destruct (f _ _); [destruct (bool_decide _ && _)|]; eauto. Qed.

(** A cache that holds its invariants, and other calls that keep them. *)
Definition soundCache (c : option (TTLCache (list row))) : Prop := forall c', c = Some c' -> cacheOk c' /\ withinCaps c'.

Definition keepsCache : Prop := forall n c, cacheOk c -> withinCaps c -> cacheOk (ev_meanwhile ev n c) /\ withinCaps (ev_meanwhile ev n c).

Lemma retry_cache {A} st (f : nat -> asked -> goErr + A) s out s' :
  keepsCache -> soundCache (cs_cache s) -> retryStalePlan ev st f s = (Done out, s') -> soundCache (cs_cache s').
Proof.
  intros Hk. assert (forall n c, soundCache c -> soundCache (ev_meanwhile ev n <$> c)) as Hm.
  { intros n c Hc c' Hc'. apply fmap_Some in Hc' as (c0 & -> & ->). by apply Hk; apply Hc. }
  unfold retryStalePlan, ask, mbind, call_bind. simpl. intros Hs.
  destruct (f _ _); [destruct (bool_decide _ && _)|]; intros [= <- <-]; simpl; auto.
Qed.

Lemma settled_done {A} st (body : call A) s a s' :
  settled ev st body s = (Done a, s') -> exists s1, body s = (Done a, s1) /\ cs_meter s' = cs_meter s1.
Proof.
  unfold settled. destruct (body s) as [r s1]. destruct (negb (s_write st) || transactional st); [intros [= -> ->]; eauto|].
  destruct (afterWriteCall ev (s_tc st) (REntity (s_res st)) s1) as [f s2] eqn:Ef. destruct r as [a'|]; [|done]. destruct f; [|done].
  intros [= -> ->]. exists s1. split; [done|]. clear -Ef. unfold afterWriteCall, lifted, stateful, mbind, call_bind in Ef.
  destruct (lift _); [|done]. destruct (bool_decide _).
  - destruct (invalidateIn _ _); by injection Ef as _ <-.
  - destruct (ev_markDirty ev); [done|]. by injection Ef as _ <-.
Qed.

Lemma afterWrite_meter tc e s r s' : afterWriteCall ev tc e s = (r, s') -> cs_meter s' = cs_meter s /\ cs_asked s' = cs_asked s.
Proof.
  unfold afterWriteCall, lifted, stateful, refuse, mbind, call_bind. destruct (lift _); [|by intros [= <- <-]].
  destruct (bool_decide _); [destruct (invalidateIn _ _); by intros [= <- <-]|]. destruct (ev_markDirty ev); by intros [= <- <-].
Qed.

Lemma admit_meter st s r s' : admitStatement ev st s = (r, s') -> cs_meter s' = cs_meter s /\ cs_asked s' = cs_asked s.
Proof.
  unfold admitStatement. destruct (_ || _); [by intros [= <- <-]|]. destruct (transactional st); [apply afterWrite_meter|by intros [= <- <-]].
Qed.


(** ** Writes *)

(** What follows a write outside a transaction: from [s], as the database left
    it, to [s']. *)
Definition followed (targets : list CacheTarget) (s s' : callState) : Prop :=
  cs_tracker s' = recordWrites (ev_now ev (cs_calls s')) (ev_session ev) (ev_window ev) (ev_targets ev) ∅ targets (cs_tracker s) /\
  (soundCache (cs_cache s) -> forall c t k, cs_cache s' = Some c -> t ∈ targets -> covers (Physical t, Transaction.Relation t) k ->
     c_m c !! k = None).

Lemma afterWrite_followed tc e s r s' targets :
  x_transaction tc = "" -> targetsOf (x_registry tc) (ev_targets ev) e = Ok targets -> afterWriteCall ev tc e s = (r, s') -> followed targets s s'.
Proof.
  intros Htx Ht. unfold afterWriteCall, lifted, stateful, mbind, call_bind, followed, cs_calls. rewrite Htx, Ht. simpl. intros Ha.
  destruct (invalidateIn targets (cs_cache s)) as [c|err] eqn:Ei; injection Ha as _ <-; (split; [done|]); simpl; intros Hs c' t k Hc' Hin Hcov;
    unfold invalidateIn in Ei; (destruct (cs_cache s) as [c0|]; [|naive_solver]); destruct (Hs c0 eq_refl) as [Hok Hwin];
    destruct (invalidate_spec targets c0 Hok Hwin) as (c1 & Hinv & _ & _ & Hall); rewrite Hinv in Ei; simpl in Ei; [|done].
  injection Ei as <-. injection Hc' as <-. by apply (Hall t Hin).
Qed.

Lemma afterWrite_marked tc e s s' targets :
  x_transaction tc <> "" -> afterWriteCall ev tc e s = (Done tt, s') -> targetsOf (x_registry tc) (ev_targets ev) e = Ok targets ->
  cs_dirty s' = cs_dirty s ++ targets.
Proof.
  intros Htx. unfold afterWriteCall, lifted, stateful, mbind, call_bind. rewrite bool_decide_eq_false_2 by done. intros Ha Ht.
  rewrite Ht in Ha. simpl in Ha. destruct (ev_markDirty ev); [done|]. by injection Ha as <-.
Qed.

(** A failed statement leaves the tracker, the cache and the marks alone. *)
Lemma fail_keeps {A} st err s (r : outcome A) s' :
  fail_ st err s = (r, s') -> cs_tracker s' = cs_tracker s /\ cs_cache s' = cs_cache s /\ cs_dirty s' = cs_dirty s /\ cs_asked s' = cs_asked s.
Proof.
  unfold fail_, classify, reportDrift, refuse, mret, call_ret, mbind, call_bind.
  destruct (errorsIs err StoreMissingRelation || _); [by intros [= _ <-]|]. destruct (negb (s_write st)); [by intros [= _ <-]|].
  destruct (bool_decide _ && _ || _); by intros [= _ <-].
Qed.

(** Every write is followed.  A write statement, whatever the database
    answers and whatever the call returns, either is refused before the
    database is asked, or: outside a transaction, once it ended the session's
    reads follow it and no cached read its targets cover is left, whatever
    other calls did to the cache while it ran; inside one, its targets were
    marked on the transaction before it was sent. *)
Theorem write_followed (st : statement) (s s' : callState) (r : outcome (Z * Z)) (targets : list CacheTarget) :
  keepsCache -> soundCache (cs_cache s) -> s_write st = true -> exec ev st s = (r, s') ->
  targetsOf (x_registry (s_tc st)) (ev_targets ev) (REntity (s_res st)) = Ok targets ->
  cs_asked s' = cs_asked s \/
  (if bool_decide (x_transaction (s_tc st) = "") then
     cs_tracker s' = recordWrites (ev_now ev (cs_calls s')) (ev_session ev) (ev_window ev) (ev_targets ev) ∅ targets (cs_tracker s) /\
     forall c t k, cs_cache s' = Some c -> t ∈ targets -> covers (Physical t, Transaction.Relation t) k -> c_m c !! k = None
   else forall t, t ∈ targets -> t ∈ cs_dirty s').
Proof.
  unfold exec. intros Hk Hs Hw He Ht. unfold mbind at 1, call_bind at 1 in He. destruct (admitStatement ev st s) as [[[]|e] s1] eqn:Ha.
  2:{ left. injection He as _ <-. by apply admit_meter in Ha as [_ ?]. }
  right. unfold settled in He. set (body := retryStalePlan _ _ _ ≫= _) in He. destruct (body s1) as [rb s2] eqn:Hb.
  assert (cs_tracker s2 = cs_tracker s1 /\ (soundCache (cs_cache s1) -> soundCache (cs_cache s2)) /\ cs_dirty s2 = cs_dirty s1) as (Hbt & Hbc & Hbd).
  { unfold body in Hb. destruct (retry_done st (ev_exec ev) s1) as (o & s3 & Ho). pose proof (fun Hs1 => retry_cache st _ _ _ _ Hk Hs1 Ho) as Hc.
    destruct (retry_answer _ _ _ _ _ Ho) as (_ & _ & Htr & Hd & _). unfold mbind, call_bind in Hb. rewrite Ho in Hb.
    destruct o as [err|res]; [|by injection Hb as _ <-]. apply fail_keeps in Hb as (-> & -> & -> & _). done. }
  unfold admitStatement in Ha. destruct (_ || _); [done|]. unfold transactional in *. rewrite Hw in *. simpl in *.
  destruct (bool_decide (x_transaction (s_tc st) = "")) eqn:Htx; simpl in *.
  - injection Ha as <-. apply bool_decide_eq_true in Htx.
    destruct (afterWriteCall ev (s_tc st) (REntity (s_res st)) s2) as [f s4] eqn:Hf. apply (afterWrite_followed _ _ _ _ _ _ Htx Ht) in Hf as [Htr Hca].
    assert (s' = s4) as -> by (destruct rb, f; by injection He). rewrite Hbt in Htr. split; [done|]. apply Hca, Hbc, Hs.
  - apply bool_decide_eq_false in Htx. injection He as _ <-. rewrite Hbd.
    rewrite (afterWrite_marked _ _ _ _ _ Htx Ha Ht). intros t Hin. apply elem_of_app. by right.
Qed.

(** What a write's error leaves open: whether it took effect, outside a
    transaction; what an interrupted procedure did, in one too. *)
Definition inDoubt (st : statement) (err : goErr) : bool :=
  bool_decide (x_transaction (s_tc st) = "") && uncertain err || errorsIs err StoreInterrupted.

(** It names a table or column that is gone. *)
Definition relationGone (err : goErr) : bool := errorsIs err StoreMissingRelation || errorsIs err StoreMissingColumn.


End statements.

(** ** A clerk of people, whose emails are masked *)

Definition people : Entity :=
  mkEntity "default.people" "people" "people" "" "" "" KindTable
    [mkAttr "id" "" "" (mkDomain "integer" false false false false) false "";
     mkAttr "email" "mail" "" (mkDomain "text" false false false false) false "email"]
    [Entity.mkKey "pk" ["id"] true false true ""] [] [] [] [] (mkMCP true false false) [] PNil [] false "" [] "" [] [] false false
    [] false [].

Definition peopleRegistry : Registry := Eval vm_compute in
  match NewRegistry [people] with Ok r => r | Err _ => emptyRegistry end.

Definition peopleTargets : WriteTargets := Eval vm_compute in
  match BuildWriteTargets (Some peopleRegistry) with Ok w => w | Err _ => mkTargets ∅ ∅ ∅ end.

Definition peopleClerk (transaction : string) : Context :=
  mkContext peopleRegistry (@NewGrantAuthorizer asciiStd peopleRegistry (mkPolicy ∅ ∅ ∅)) "clerk" ∅ ∅ mysql None (Some 0%nat)
    noTightening transaction (fun _ => None) (fun _ => false) (mkLimits 0 0 0 0 0 0 0 0 0 0) 0 0 0 (Some (@builtins asciiStd)) 0 ""
    false.

Definition peopleStatement (transaction sql : string) (write : bool) : statement :=
  mkStatement_ (peopleClerk transaction) (mkResolved people (EAttributes people)) (mkDecision true NoReason ["id"%string; "mail"%string] PNil [] [])
    (Cost.mkStatement None None sql [] false [] true "" 0 0) None None None ["id"%string; "mail"%string] 2 write.

(** A row takes ten bytes a field. *)
#[local] Instance tenBytes : RowSize :=
  {| rowSize r := Some (10 * Z.of_nat (size r)); rowsSize rs := Some (20 * Z.of_nat (length rs));
     valuesSize vs := Some (10 * Z.of_nat (length vs)) |}.

(** The first plan is stale; then two people; a write loses its connection. *)
Definition peopleEnv : environment :=
  mkEnv (fun n => 100 + Z.of_nat n) "s1" (fun _ => 5) peopleTargets None
    (fun n _ => match n with
              | O => inl [StoreStalePlan]
              | _ => inr (mkAnswer (inr ["id"%string; "email"%string])
                            [[VInt KInt64 1; VString "ann@x.org"]; [VInt KInt64 2; VString "bob@x.org"]] None)
              end)
    (fun _ _ => inl [StoreConnectionLost]) (fun _ c => c) (fun _ => true).

Definition peopleCall : callState :=
  mkCallState (Some (meterCall 2 1000 0 true)) (NewResultMemory 4096) (NewWriteTracker 0) None [] false [] [].

Definition people_query := @query peopleEnv tenBytes (peopleStatement "" "SELECT `id`, `email` FROM `people`" false) peopleCall.
Definition people_write (transaction : string) := exec peopleEnv (peopleStatement transaction "DELETE FROM `people`" true) peopleCall.

Lemma people_query_runs :
  match people_query with
  | (Done out, s') => map (fun r : row => (r !! "id", r !! "mail")) (q_rows out) =
      [(Some (VInt KInt64 1), Some (VString "a***@x.org")); (Some (VInt KInt64 2), Some (VString "b***@x.org"))] /\
      cs_calls s' = 2%nat
  | _ => False
  end.
Proof. vm_compute. auto. Qed.


Definition peopleWritten : list CacheTarget := Eval vm_compute in
  match targetsOf peopleRegistry peopleTargets people with Ok targets => targets | Err _ => [] end.

(** The connection is lost: the session's reads follow the write all the same. *)
Lemma people_write_runs :
  match people_write "" with
  | (r, s') => r = Refused (EOutcomeUnknown [StoreConnectionLost]) /\ Recent 101 "s1" "default" (cs_tracker s') = true /\ cs_calls s' = 1%nat
  end.
Proof. vm_compute. auto. Qed.

Lemma write_followed_witness :
  match people_write "" with
  | (r, s') => Recent 101 "s1" "default" (cs_tracker s') = true /\
      cs_tracker s' = recordWrites 101 "s1" (fun _ => 5) peopleTargets ∅ peopleWritten (NewWriteTracker 0)
  end.
Proof.
  pose proof people_write_runs as Hx. destruct (people_write "") as [r s'] eqn:Hq. destruct Hx as (_ & Hx & Hn). split; [exact Hx|].
  destruct (write_followed peopleEnv (peopleStatement "" "DELETE FROM `people`" true) peopleCall s' r peopleWritten) as [Hc|[Ht _]];
    [intros n c ? ?; split; assumption|intros c [=]|reflexivity|exact Hq|reflexivity| |].
  - unfold cs_calls in Hn. rewrite Hc in Hn. discriminate.
  - rewrite Ht, Hn. reflexivity.
Defined.

