(* ===== verification/RunRead.v ===== *)
(** Running a read: runRead and below of core/tool/tools_read_impl.go, with
    meterCall (results.go) and beginCall (tools_helpers.go) around it.

    The rows of a call are maps; expansion writes a nested row or rows into
    them ([VMap], [VList]), the columns of which no later step touches.  The
    feedback recorded after a read does not change what it returns and is left
    out.  The cache is a TTLCache or none. *)

From S2P Require Import Prelude GoString Value Relalg Entity Numbers WriteCheck Dialect Codegen Cost Transaction Cache Invalidation Rbac FieldUses Order Filter Mask Pipeline Related ReadTool Results JoinKey RunStatement.

(** ** The call around it *)

Definition in_transaction (tc : Context) (transaction : string) : Context :=
  mkContext (x_registry tc) (x_authorizer tc) (x_role tc) (x_subject tc) (x_sources tc) (x_dialect tc) (x_gate tc) (x_db tc)
    (x_tightening tc) transaction (x_transactions tc) (x_recent tc) (x_limits tc) (x_maxScannedRows tc)
    (x_maxReturnedRows tc) (x_maxReturnedBytes tc) (x_masker tc) (x_generation tc) (x_datasource tc) (x_followsWrite tc).

(** resultMeter.end, close included. *)
Definition endMetering (s : callState) : callState :=
  match cs_meter s with
  | None => s
  | Some m =>
      let '(m, closes) := endMeter m in
      if (closes : bool) then let '(m, held) := closeMeter m in with_metered None (release held (cs_memory s)) s
      else with_metered None (cs_memory s) s
  end.

(** meterCall: a meter of its own unless the call has one, ended with it. *)
Definition metering {A} (tc : Context) (readOnly : bool) (body : call A) : call A := fun s =>
  match cs_meter s with
  | Some _ => body s
  | None =>
      let m := meterCall (x_maxReturnedRows tc) (lim_maxReturnedBytes (x_limits tc)) (x_maxReturnedBytes tc) readOnly in
      let '(r, s) := body (with_metered (Some m) (cs_memory s) s) in (r, endMetering s)
  end.

Definition beginCall {A} (tc : Context) (readOnly : bool) (transaction : string) (body : Context -> call A) : call A :=
  metering tc readOnly (body (in_transaction tc transaction)).

(** m.counted(), of no meter zero. *)
Definition countedNow : call (Z * Z) := gets (fun s => match cs_meter s with Some m => counted m | None => (0, 0) end).

(** What a meter refuses with. *)
Definition orExceeded (c : call counting) : call unit :=
  c ← c; match c with Counted => mret tt | ResultCut => refuse EResultCut | Exceeded => refuse EBudgetExceeded end.

(** ** Expansion *)

Section join.
Context `{GoStd} `{JoinStd}.

Definition decimalColumns (e : Entity) (columns : list string) : list bool :=
  (fun c => match AttributeByName e c with Some a => isDecimalType (DType (ADomain a)) | None => false end) <$> columns.

Fixpoint uniqueFrom (columns : list string) (decimal : list bool) (seen : gset string) (rows : list row) : list (list value) :=
  match rows with
  | [] => []
  | r :: rows =>
      match rowJoinKey r columns decimal with
      | None => uniqueFrom columns decimal seen rows
      | Some key =>
          if bool_decide (key ∈ seen) then uniqueFrom columns decimal seen rows
          else ((fun c => default VNil (r !! c)) <$> columns) :: uniqueFrom columns decimal ({[key]} ∪ seen) rows
      end
  end.

Definition uniqueJoinTuples (rows : list row) (columns : list string) (decimal : list bool) : list (list value) :=
  uniqueFrom columns decimal ∅ rows.

End join.

Definition joinPredicate (columns : list string) (tuples : list (list value)) : Predicate :=
  match columns with
  | [c] => PCond (mkCond c OpIn (VList (hd VNil <$> tuples)))
  | _ =>
      match (fun t => PAnd (zip_with (fun c v => PCond (mkCond c OpEq v)) columns t)) <$> tuples with
      | [p] => p
      | ors => POr ors
      end
  end.

(** The tuples in batches of [size], of at least one; each takes one, so their
    number is enough rounds. *)
Fixpoint batches (fuel size : nat) (tuples : list (list value)) : list (list (list value)) :=
  match fuel, tuples with
  | S fuel, _ :: _ => take size tuples :: batches fuel size (drop size tuples)
  | _, _ => []
  end.

Section read.
Context (ev : environment) `{GoStd} `{CostStd} `{JoinStd} `{RowSize}.

(** The options of a batch: identity keys, and its own bound of IN lists. *)
Definition batchOptions (tc targetTC : Context) (e : Entity) (tuples : list (list value)) : compileConfig :=
  mkConfig (default [] (PrimaryKey e)) (identityKeysOf tc e false) true (Z.max (Z.of_nat (length tuples)) (effectiveMaxIN targetTC)).

Definition batchExpression (targetTC : Context) (target : Resolved) (g : Rbac.Decision) (predicate : Predicate) : Expr :=
  let expr := ESelect (EScan (Entity.Ref (REntity target)) "") (andPreds predicate (RowFilter g)) in
  let expr := EProject expr (ProjectFields (DFields g)) in
  let maxRows := lim_maxRows (x_limits targetTC) in
  if 0 <? maxRows then ELimit expr (maxRows + 1) 0 else expr.

Definition compileExpandBatch (tc targetTC : Context) (target : Resolved) (r : Relationship) (j : joinColumns)
    (tuples : list (list value)) : outcome (statement * bool) :=
  let predicate := joinPredicate (jtarget j) tuples in
  g ← authorizeRequest targetTC (mkRequest (x_role tc) (ReTarget r) ActionRead [] (jtarget j) [] (x_subject tc) predicate);
  c ← lift (Compile (x_dialect targetTC) (batchExpression targetTC target g predicate) (batchOptions tc targetTC (REntity target) tuples));
  let c := with_args (literalNumbers (Codegen.Args c)) c in
  '(sql, estimate) ← gateSQL targetTC c;
  Done (mkStatement_ targetTC target g sql estimate None (Some (jtarget j)) [] (lim_maxRows (x_limits targetTC)) false,
        negb (bool_decide (st_sql sql = Codegen.SQL c))).

(** The children of a batch by their join keys. *)
Definition groupChild (j : joinColumns) (grouped : gmap string (list row)) (ck : row * row) : gmap string (list row) :=
  match rowJoinKey ck.2 (jtarget j) (jtargetDecimal j) with
  | Some key => <[key := default [] (grouped !! key) ++ [ck.1]]> grouped
  | None => grouped
  end.

Fixpoint queryBatches (tc targetTC : Context) (target : Resolved) (r : Relationship) (j : joinColumns)
    (bs : list (list (list value))) (grouped : gmap string (list row)) : call (gmap string (list row)) :=
  match bs with
  | [] => mret grouped
  | b :: bs =>
      '(st, cut) ← lifted (compileExpandBatch tc targetTC target r j b);
      children ← query ev st;
      if cut && (0 <? s_rowCap st) && (s_rowCap st <=? Z.of_nat (length (q_rows children))) then refuse EBudgetExceeded
      else queryBatches tc targetTC target r j bs (foldl (groupChild j) grouped (zip (q_rows children) (q_kept children)))
  end.

Definition queryExpandedChildren (tc targetTC : Context) (target : Resolved) (r : Relationship) (j : joinColumns)
    (tuples : list (list value)) : call (gmap string (list row)) :=
  match jtarget j with
  | [] => refuse (EOther Panic) (* a division by zero *)
  | cols =>
      let size := Z.max 1 (Z.quot (effectiveMaxIN targetTC) (Z.of_nat (length cols))) in
      queryBatches tc targetTC target r j (batches (length tuples) (Z.to_nat size) tuples) ∅
  end.

(** A row within a row. *)
Definition nested (r : row) : value := VMap (map_to_list r).

Definition attachOne (name : string) (j : joinColumns) (r : Relationship) (grouped : gmap string (list row)) (shown kept : row) : row :=
  let children := match rowJoinKey kept (jlocal j) (jlocalDecimal j) with
                  | Some key => default [] (grouped !! key)
                  | None => []
                  end in
  let v := if Single r then match children with c :: _ => nested c | [] => VNil end else VList (nested <$> children) in
  <[name := v]> shown.

Definition attachExpandedChildren (rows kept : list row) (name : string) (j : joinColumns) (r : Relationship)
    (grouped : gmap string (list row)) : list row :=
  zip_with (attachOne name j r grouped) rows kept.

Definition expandOneRelationship (tc : Context) (parent : Entity) (rows kept : list row) (name : string) : call (list row) :=
  let r := relationOf parent name in
  target ← lifted (resolveDMLEntity tc (ReTarget r));
  let j0 := relationJoin r in
  let j := mkJoin (jlocal j0) (jtarget j0) (decimalColumns parent (jlocal j0)) (decimalColumns (REntity target) (jtarget j0)) in
  targetTC ← lifted (routeEntity tc (REntity target) ActionRead);
  grouped ← match uniqueJoinTuples kept (jlocal j) (jlocalDecimal j) with
            | [] => mret ∅
            | tuples => queryExpandedChildren tc targetTC target r j tuples
            end;
  mret (attachExpandedChildren rows kept name j r grouped).

Fixpoint expandRows (tc : Context) (parent : Entity) (rows kept : list row) (names : list string) : call (list row) :=
  match names with
  | [] => mret rows
  | name :: names => rows ← expandOneRelationship tc parent rows kept name; expandRows tc parent rows kept names
  end.

(** ** The cache *)

Definition cachesRead (cached : bool) (tc : Context) (i : readInput) : bool :=
  cached && bool_decide (RTransaction i = "") && bool_decide (RExpand i = []) && negb (x_followsWrite tc).

(** countCached: by the size stored, or row by row. *)
Fixpoint countRows (rows : list row) : call unit :=
  match rows with
  | [] => mret tt
  | r :: rows => _ ← orExceeded (addRow r); countRows rows
  end.

Definition countCached (rows : list row) (size : Z) : call unit :=
  if 0 <? size then orExceeded (counts (addSized (Z.of_nat (length rows)) size)) else countRows rows.

Record Result : Type := mkResult {
  r_content : list row;
  r_returnedRows : Z;
  r_estimatedRows : Z;
  r_nextCursor : option (gmap string value);
  r_truncated : bool;
}.

(** The lookup in the cache, which drops an expired entry. *)
Definition lookupCache (key : Cache.Key) : call (option (list row * Z)) := fun s =>
  match cs_cache s with
  | None => (Done None, s)
  | Some c =>
      match GetSized (ev_now ev (cs_calls s)) key c with
      | Err err => (Refused (EOther err), s)
      | Ok (c, hit) => (Done hit, with_followed (cs_tracker s) (Some c) (cs_dirty s) s)
      end
  end.

Definition cached (s : callState) : bool := bool_decide (is_Some (cs_cache s)).

Definition readCacheHit (tc : Context) (i : readInput) (key : Cache.Key) : call (option Result) :=
  on ← gets cached;
  if negb (cachesRead on tc i) then mret None
  else
    hit ← lookupCache key;
    match hit with
    | None => mret None
    | Some (rows, size) =>
        _ ← countCached rows size;
        n ← countedNow;
        mret (Some (mkResult rows n.1 0 None false))
    end.

Definition storeReadCache (tc : Context) (i : readInput) (key : Cache.Key) (stamp : Z) (rows : list row) : call unit := fun s =>
  let size := match cs_meter s with Some m => mt_bytes m | None => 0 end in
  let lim := x_limits tc in
  let rowsAllowed := (lim_cacheMaxEntryRows lim <=? 0) || (Z.of_nat (length rows) <=? lim_cacheMaxEntryRows lim) in
  let bytesAllowed := (lim_cacheMaxEntryBytes lim <=? 0) || (size <=? lim_cacheMaxEntryBytes lim) in
  match cs_cache s with
  | Some c =>
      if negb (cachesRead true tc i) || negb rowsAllowed || negb bytesAllowed then (Done tt, s)
      else match SetSized (ev_now ev (cs_calls s)) key rows stamp size c with
           | Ok c => (Done tt, with_followed (cs_tracker s) (Some c) (cs_dirty s) s)
           | Err err => (Refused (EOther err), s)
           end
  | None => (Done tt, s)
  end.

(** ** The read *)

Definition trimExpandedJoinFields (parent : Entity) (i : readInput) (rows : list row) : list row :=
  match RFields i with
  | [] => rows
  | fields =>
      let drop := List.filter (fun c => negb (bool_decide (c ∈ fields))) (expandJoinColumns parent (RExpand i)) in
      (fun r => foldl (fun r c => delete c r) r drop) <$> rows
  end.

Definition finishReadRows (plan : readPlan) (i : readInput) (rows : list row) (before : Z) : call (list row) :=
  let rows := trimExpandedJoinFields (REntity (rp_res plan)) i rows in
  let rows := trimOrderFields (rp_order plan) (rp_res plan) i rows in
  m ← gets cs_meter;
  match RExpand i, m with
  | [], _ | _, None => mret rows
  | _, Some _ =>
      match rowsSize rows with
      | None => refuse EEncoding
      | Some n => _ ← orExceeded (counts (grow before n)); mret rows
      end
  end.

Definition estimatedRows (st : statement) : Z := match s_plan st with None => 0 | Some p => ScannedRows p end.

Definition with_keep (columns : list string) (st : statement) : statement :=
  mkStatement_ (s_tc st) (s_res st) (s_grant st) (s_sql st) (s_plan st) (s_fields st)
    (match columns with [] => None | _ => Some columns end) (s_columns st) (s_rowCap st) (s_write st).

Definition stampOf (database : string) (s : callState) : Z := match cs_cache s with Some c => Stamp database c | None => 0 end.

Context `{SubjectText} `{ArgsText}.

(** From the query on. *)
Definition readFresh (i : readInput) (plan : readPlan) (st : statement) (key : Cache.Key) (capped cacheable : bool) (stamp : Z)
  : call Result :=
  let '(tc, e) := (rp_tc plan, REntity (rp_res plan)) in
  let st := with_keep (expandJoinColumns e (RExpand i)) st in
  before ← countedNow;
  got ← query ev st;
  rows ← expandRows tc e (q_rows got) (q_kept got) (RExpand i);
  let next := nextCursor (rp_order plan) (rp_res plan) i rows in
  rows ← finishReadRows plan i rows before.2;
  let truncated := bool_decide (next = None) && capped && (RLimit i <=? Z.of_nat (length rows)) in
  _ ← (if bool_decide (next = None) && negb truncated && cacheable then storeReadCache tc i key stamp rows else mret tt);
  n ← countedNow;
  mret (mkResult rows n.1 (estimatedRows st) next truncated).

(** runRead once its call began. *)
Definition readBody (i : readInput) (tc : Context) : call Result :=
  '(i, plan, st, key, capped) ← lifted (planRead tc i);
  stamp ← gets (stampOf (Cache.Database key));
  let cacheable := bool_decide (rel_joins (rp_rel plan) = []) && negb (HasExists (rp_full plan)) in
  hit ← (if cacheable then readCacheHit (rp_tc plan) i key else mret None);
  match hit with
  | Some r => mret r
  | None => readFresh i plan st key capped cacheable stamp
  end.

Definition runRead (tc : Context) (i : readInput) : call Result := beginCall tc true (RTransaction i) (readBody i).

(** ReadTool.Run on the decoded input. *)
Definition readTool (tc : Context) (i : readInput) : call Result :=
  if negb (validRead tc i) then refuse EInvalidInput else runRead tc i.

End read.
