(* ===== verification/RunReadTheorems.v ===== *)
(** Running a read: a rule per construct of the call monad for what holds
    across every step, what the parts of runRead do, that only governed
    statements are asked, and that the cache serves the caller's own reads. *)

From S2P Require Import Prelude GoString Value Relalg Interp InterpFacts InterpTheorems Entity Numbers WriteCheck Dialect Codegen Cost CostTheorems Transaction Cache CacheTheorems Invalidation Rbac RbacTheorems FieldUses Order Filter Mask Pipeline PipelineFacts Related ReadTool ReadTheorems Results ResultsTheorems JoinKey JoinKeyTheorems RunStatement RunTheorems RunRead.

Set Default Proof Using "Type*".

(** ** Rules *)

Section rules.
Context (P : callState -> callState -> Prop) `{!PreOrder P}.

(** Whatever it returns, a computation keeps [P]. *)
Definition runs {A} (m : call A) : Prop := forall s r s', m s = (r, s') -> P s s'.

Lemma runs_ret {A} (a : A) : runs (mret a).
Proof. by intros s r s' [= _ <-]. Qed.
Lemma runs_refuse {A} e : runs (@refuse A e).
Proof. by intros s r s' [= _ <-]. Qed.
Lemma runs_lifted {A} (o : outcome A) : runs (lifted o).
Proof. by intros s r s' [= _ <-]. Qed.
Lemma runs_gets {A} (f : callState -> A) : runs (gets f).
Proof. by intros s r s' [= _ <-]. Qed.

Lemma runs_bind {A B} (m : call A) (k : A -> call B) : runs m -> (forall a, runs (k a)) -> runs (m ≫= k).
Proof.
  intros Hm Hk s r s'. unfold mbind, call_bind. destruct (m s) as [[a|e] s1] eqn:E.
  - intros Hr. etrans; [by eapply Hm|by eapply Hk].
  - intros [= _ <-]. by eapply Hm.
Qed.

(** The same where what was lifted matters. *)
Lemma runs_lifted_bind {A B} (o : outcome A) (k : A -> call B) : (forall a, o = Done a -> runs (k a)) -> runs (lifted o ≫= k).
Proof. intros Hk s r s'. unfold mbind, call_bind, lifted. destruct o as [a|e]; [by apply Hk|by intros [= _ <-]]. Qed.

Lemma runs_fail {A} st err : runs reportDrift -> runs (@fail_ A st err).
Proof.
  intros Hd. unfold fail_. apply runs_bind; [|intros; apply runs_refuse]. unfold classify. destruct (errorsIs _ _ || _).
  - apply runs_bind; [done|intros; apply runs_ret].
  - destruct (negb _); [apply runs_ret|]. destruct (_ || _); apply runs_ret.
Qed.

(** ** The steps of a read *)

Context (ev : environment) (ok : statement -> Prop).

Record steps : Prop := {
  steps_ask : forall A f st, ok st -> runs (@ask A ev f (askedOf st));
  steps_count : forall k n, runs (counts (addSized k n));
  steps_drift : runs reportDrift;
}.

Context (Hsteps : steps) `{RowSize}.

Lemma runs_addRow r : runs (addRow r).
Proof.
  apply runs_bind; [apply runs_gets|]. intros [m|]; [|apply runs_ret].
  destruct (rowSize r); [apply (steps_count Hsteps)|apply runs_refuse].
Qed.

Lemma runs_readRows st input err : forall rows kept, runs (readRows st input err rows kept).
Proof.
  induction input as [|x input IH]; intros rows kept; cbn [readRows].
  - destruct err; [apply runs_fail, Hsteps|apply runs_ret].
  - apply runs_bind; [apply runs_lifted|]. intros shown. apply runs_bind.
    + destruct (_ || _); [apply runs_addRow|]. destruct (negb _); [apply runs_refuse|apply runs_ret].
    + intros []; [apply IH|apply runs_ret|apply runs_refuse].
Qed.

Lemma runs_retry {A} st (f : nat -> asked -> goErr + A) : ok st -> runs (retryStalePlan ev st f).
Proof.
  intros Hst. apply runs_bind; [by apply (steps_ask Hsteps)|]. intros [e|a]; [|apply runs_ret].
  destruct (_ && _); [by apply (steps_ask Hsteps)|apply runs_ret].
Qed.

Lemma runs_query st : s_write st = false -> ok st -> runs (query ev st).
Proof.
  intros Hw Hst. unfold query, admitStatement, transactional. rewrite Hw. simpl. apply runs_bind.
  { destruct (_ || _); [apply runs_refuse|apply runs_ret]. }
  intros _ s r s'. unfold settled. rewrite Hw. simpl. set (body := retryStalePlan _ _ _ ≫= _).
  assert (runs body) as Hb.
  { apply runs_bind; [by apply runs_retry|]. intros [err|a]; [apply runs_fail, Hsteps|].
    destruct (iterNamed (s_columns st) a). apply runs_readRows. }
  destruct (body s) as [r1 s1] eqn:E. intros [= <- <-]. by eapply Hb.
Qed.

Lemma runs_orExceeded c : runs c -> runs (orExceeded c).
Proof. intros Hc. apply runs_bind; [done|]. intros []; [apply runs_ret|apply runs_refuse..]. Qed.

Lemma runs_grow before n : runs (counts (grow before n)).
Proof.
  intros s r s'. unfold counts, grow. destruct (cs_meter s) as [m|] eqn:Em; [|by intros [= _ <-]].
  destruct (_ <? _) eqn:E.
  - pose proof (steps_count Hsteps 0 (n - (mt_bytes m - before)) s) as Hc. unfold counts in Hc. rewrite Em in Hc. apply Hc.
  - intros [= _ <-]. assert (with_metered (Some m) (cs_memory s) s = s) as -> by (destruct s; simpl in *; by subst). done.
Qed.

Context `{GoStd} `{CostStd} `{JoinStd}.

Lemma batch_reads tc ttc target rel j b st cut :
  compileExpandBatch tc ttc target rel j b = Done (st, cut) -> s_write st = false.
Proof. unfold compileExpandBatch. intros Hc. by inv_done. Qed.

Lemma runs_batches tc ttc target rel j bs :
  (forall b st cut, b ∈ bs -> compileExpandBatch tc ttc target rel j b = Done (st, cut) -> ok st) ->
  forall grouped, runs (queryBatches ev tc ttc target rel j bs grouped).
Proof.
  intros Hok. induction bs as [|b bs IH]; intros grouped; cbn [queryBatches]; [apply runs_ret|].
  apply runs_lifted_bind. intros [st cut] Hc. apply runs_bind.
  - apply runs_query; [by eapply batch_reads|]. eapply Hok; [|done]. left.
  - intros got. destruct (_ && _); [apply runs_refuse|]. apply IH. intros b' st' cut' Hb. apply Hok. by right.
Qed.

(** The statements an expansion of [name] can make. *)
Definition batchOf (tc : Context) (parent : Entity) (name : string) (st : statement) : Prop :=
  let r := relationOf parent name in
  exists target ttc j b cut, resolveDMLEntity tc (ReTarget r) = Done target /\ routeEntity tc (REntity target) ActionRead = Done ttc /\
    jtarget j = jtarget (relationJoin r) /\ compileExpandBatch tc ttc target r j b = Done (st, cut).

Lemma runs_expandOne tc parent rows kept name :
  (forall st, batchOf tc parent name st -> ok st) -> runs (expandOneRelationship ev tc parent rows kept name).
Proof.
  intros Hok. unfold expandOneRelationship. apply runs_lifted_bind. intros target Ht. apply runs_lifted_bind. intros ttc Hr.
  apply runs_bind; [|intros; apply runs_ret]. set (j := mkJoin _ _ _ _). destruct (uniqueJoinTuples _ _ _) as [|t ts]; [apply runs_ret|].
  unfold queryExpandedChildren. destruct (jtarget j) eqn:Ej; [apply runs_refuse|]. apply runs_batches.
  intros b st cut _ Hc. apply Hok. by exists target, ttc, j, b, cut.
Qed.

Lemma runs_expand tc parent kept names : (forall name st, name ∈ names -> batchOf tc parent name st -> ok st) ->
  forall rows, runs (expandRows ev tc parent rows kept names).
Proof.
  induction names as [|name names IH]; intros Hok rows; cbn [expandRows]; [apply runs_ret|]. apply runs_bind.
  - apply runs_expandOne. intros st. apply Hok. left.
  - intros rows'. apply IH. intros name' st Hin. apply Hok. by right.
Qed.

Lemma runs_finish plan i rows before : runs (finishReadRows plan i rows before).
Proof.
  unfold finishReadRows. apply runs_bind; [apply runs_gets|]. intros m. destruct (RExpand i), m; try apply runs_ret.
  destruct (rowsSize _); [|apply runs_refuse]. apply runs_bind; [apply runs_orExceeded, runs_grow|intros; apply runs_ret].
Qed.

Lemma runs_countRows rows : runs (countRows rows).
Proof.
  induction rows as [|r rows IH]; cbn [countRows]; [apply runs_ret|]. apply runs_bind; [apply runs_orExceeded, runs_addRow|by intros].
Qed.

Lemma runs_countCached rows size : runs (countCached rows size).
Proof. unfold countCached. destruct (_ <? _); [apply runs_orExceeded, (steps_count Hsteps)|apply runs_countRows]. Qed.

(** ** The whole read, where changing the cache keeps [P] too *)

Hypothesis Hcache : forall s c, P s (with_followed (cs_tracker s) (Some c) (cs_dirty s) s).

Lemma runs_lookup key : runs (lookupCache ev key).
Proof.
  intros s r s'. unfold lookupCache. destruct (cs_cache s); [|by intros [= _ <-]].
  destruct (GetSized _ _ _) as [[c' hit]|]; intros [= _ <-]; [apply Hcache|done].
Qed.

Lemma runs_store tc i key stamp rows : runs (storeReadCache ev tc i key stamp rows).
Proof.
  intros s r s'. unfold storeReadCache. destruct (cs_cache s); [|by intros [= _ <-]]. destruct (_ || _); [by intros [= _ <-]|].
  destruct (SetSized _ _ _ _ _ _); intros [= _ <-]; [apply Hcache|done].
Qed.

Lemma runs_hit tc i key : runs (readCacheHit ev tc i key).
Proof.
  unfold readCacheHit. apply runs_bind; [apply runs_gets|]. intros on. destruct (negb _); [apply runs_ret|].
  apply runs_bind; [apply runs_lookup|]. intros [[rows size]|]; [|apply runs_ret].
  apply runs_bind; [apply runs_countCached|]. intros _. apply runs_bind; [apply runs_gets|intros; apply runs_ret].
Qed.

Lemma runs_fresh i plan st key capped cacheable stamp :
  s_write st = false -> ok (with_keep (expandJoinColumns (REntity (rp_res plan)) (RExpand i)) st) ->
  (forall name st, name ∈ RExpand i -> batchOf (rp_tc plan) (REntity (rp_res plan)) name st -> ok st) ->
  runs (readFresh ev i plan st key capped cacheable stamp).
Proof.
  intros Hw Hst Hb. unfold readFresh. apply runs_bind; [apply runs_gets|]. intros before. apply runs_bind; [by apply runs_query|].
  intros got. apply runs_bind; [by apply runs_expand|]. intros rows. apply runs_bind; [apply runs_finish|]. intros rows'.
  apply runs_bind; [destruct (_ && _); [apply runs_store|apply runs_ret]|]. intros _.
  apply runs_bind; [apply runs_gets|intros; apply runs_ret].
Qed.

Context `{SubjectText} `{ArgsText}.

Lemma planRead_statement tc i i' plan st key capped :
  planRead tc i = Done (i', plan, st, key, capped) -> s_write st = false /\ s_rowCap st = 0 /\ s_tc st = rp_tc plan.
Proof.
  unfold planRead, compileReadQuery. destruct (capLimit tc (RLimit i)). intros Hp. apply outcome_bind_done in Hp as (pl & _ & Hp).
  apply outcome_bind_done in Hp as ([st' key'] & Hst & Hp). injection Hp as <- <- <- <- <-.
  apply outcome_bind_done in Hst as (c & _ & Hst). apply outcome_bind_done in Hst as ([sql est] & _ & Hst).
  apply outcome_bind_done in Hst as (k & _ & Hst). by injection Hst as <- <-.
Qed.

Lemma runs_readBody i tc :
  (forall i' plan st key capped, planRead tc i = Done (i', plan, st, key, capped) ->
     ok (with_keep (expandJoinColumns (REntity (rp_res plan)) (RExpand i')) st)) ->
  (forall i' plan st key capped name st', planRead tc i = Done (i', plan, st, key, capped) -> name ∈ RExpand i' ->
     batchOf (rp_tc plan) (REntity (rp_res plan)) name st' -> ok st') ->
  runs (readBody ev i tc).
Proof.
  intros Hst Hb. unfold readBody. apply runs_lifted_bind. intros [[[[i' plan] st] key] capped] Hp.
  apply runs_bind; [apply runs_gets|]. intros stamp. apply runs_bind.
  - destruct (_ && _); [apply runs_hit|apply runs_ret].
  - intros [res|]; [apply runs_ret|]. apply runs_fresh; [by apply planRead_statement in Hp as (? & _)|by eapply Hst|].
    intros name st' Hin. by eapply Hb.
Qed.

End rules.


(** * Reads, run: every statement a read sends is governed, expansion attaches
    the children that match, the cache is used without serving or storing what
    a write made stale, and the memory of results is given back. *)

Set Default Proof Using "Type*".

(** ** What a read sends *)

Section asks.
Context `{GoStd} `{CostStd}.

(** A batch of children: authorized on their entity, selected by the caller's
    row filter there, compiled and gated. *)
Record governedBatch (tc : Context) (name : string) (st : statement) : Prop := {
  gb_target : exists reads pred, Entity.Resolve (x_registry tc) name = Some (s_res st) /\
    DMLTools (EMCP (REntity (s_res st))) = true /\ EUnavailable (REntity (s_res st)) = "" /\
    s_grant st = authorize (x_authorizer tc) (mkRequest (x_role tc) name ActionRead [] reads [] (x_subject tc) pred) /\
    Allowed (s_grant st) = true;
  gb_expr : exists expr opts c, Compile (x_dialect (s_tc st)) expr opts = Ok c /\
    gateSQL (s_tc st) (with_args (literalNumbers (Codegen.Args c)) c) = Done (s_sql st, s_plan st) /\
    forall db out row, wf_db db -> eval db expr = Ok out -> row ∈ Rows out ->
      exists t base, db !! RefName (Entity.Ref (REntity (s_res st))) = Some t /\ base ∈ TRows t /\
        evalPredicate (RowFilter (s_grant st)) (tableRel db t) base = Ok triTrue /\
        length row = length (DFields (s_grant st)) /\
        forall n f k, DFields (s_grant st) !! n = Some f -> colIndex (tableRel db t) f = Ok k -> row !! n = base !! k;
}.

Lemma batchExpression_rows ttc target g predicate db out row :
  eval db (batchExpression ttc target g predicate) = Ok out -> row ∈ Rows out ->
  exists t base, db !! RefName (Entity.Ref (REntity target)) = Some t /\ base ∈ TRows t /\
    evalPredicate (RowFilter g) (tableRel db t) base = Ok triTrue /\
    length row = length (DFields g) /\
    forall n f k, DFields g !! n = Some f -> colIndex (tableRel db t) f = Ok k -> row !! n = base !! k.
Proof.
  unfold batchExpression. set (expr := EProject _ _). intros Ho Hin.
  assert (exists out', eval db expr = Ok out' /\ row ∈ Rows out') as (out' & Ho' & Hin').
  { destruct (0 <? _); [|by exists out]. simpl in Ho. apply bind_ok in Ho as (o & Ho & Hl). exists o. split; [done|].
    apply evalLimit_sub in Hl as (_ & Hs & _). by apply Hs. }
  unfold expr in Ho'. simpl in Ho'. apply bind_ok in Ho' as (sel & Hsel & Hp). apply bind_ok in Hsel as (sc & Hsc & Hsel).
  unfold evalScan in Hsc. destruct (db !! RefName (Entity.Ref (REntity target))) as [t|] eqn:Et; [|done]. injection Hsc as <-.
  destruct (evalProject_items _ _ _ Hp) as (_ & _ & Hrows). destruct (Hrows _ Hin') as (base & Hb & Hl & Hcells).
  destruct (evalSelect_spec _ _ _ _ Hsel) as (Hc & _ & _ & Hspec). apply Hspec in Hb as [Hb Htrue]. simpl in Hb.
  exists t, base. split; [done|]. split; [done|]. apply andPreds_true in Htrue as [_ Htrue]. split; [exact Htrue|].
  unfold ProjectFields in Hl, Hcells. rewrite length_fmap in Hl. split; [done|]. intros n f k Hn Hk. specialize (Hcells n).
  rewrite list_lookup_fmap, Hn in Hcells. destruct (Hcells _ eq_refl) as (i & v & Hi & Hv & ->). simpl in Hi.
  assert (i = k) as -> by (apply colIndex_ok in Hi, Hk; rewrite Hc in Hi; simpl in Hi, Hk; congruence).
  unfold index in Hv. by destruct (base !! k); [injection Hv as ->|].
Qed.

Lemma batchOf_governed tc0 tc parent name st :
  x_registry tc = x_registry tc0 /\ x_authorizer tc = x_authorizer tc0 /\ x_role tc = x_role tc0 /\ x_subject tc = x_subject tc0 ->
  batchOf tc parent name st -> governedBatch tc0 (ReTarget (relationOf parent name)) st.
Proof.
  intros (Hreg0 & Haz0 & Hr0 & Hs0) (target & ttc & j & b & cut & [Hres Hdml]%resolveDML_done & Hroute & _ & Hc). unfold compileExpandBatch in Hc.
  apply outcome_bind_done in Hc as (g & Hauth & Hc). apply outcome_bind_done in Hc as (c & Hcomp%lift_done & Hc).
  apply outcome_bind_done in Hc as ([sql est] & Hgate & Hc). injection Hc as <- <-.
  destruct (routeEntity_keeps _ _ _ _ Hroute) as (Hreg & Haz & _ & _ & _).
  destruct (authorizeRequest_done _ _ _ Hauth) as (Hg & Hal & Hav). split; simpl.
  - rewrite <- Hreg0, <- Haz0, <- Hr0, <- Hs0. eexists _, _. split; [done|]. split; [done|]. split; [by apply Hav; rewrite Hreg|].
    split; [by rewrite Hg, Haz|done].
  - eexists _, _, c. split; [done|]. split; [done|]. intros db out row _. apply batchExpression_rows.
Qed.

Context (ev : environment) `{JoinStd} `{RowSize} `{SubjectText} `{ArgsText}.

Lemma planRead_routed tc i i' plan st key capped :
  planRead tc i = Done (i', plan, st, key, capped) ->
  routeEntity tc (REntity (rp_res plan)) ActionRead = Done (rp_tc plan) /\ i' = with_limit i (ReadTool.capLimit tc (RLimit i)).1 /\
  readKey (rp_tc plan) (REntity (rp_res plan)) i' (s_sql st) = Ok key.
Proof.
  unfold planRead. destruct (ReadTool.capLimit tc (RLimit i)). intros Hp. apply outcome_bind_done in Hp as (pl & Hpl & Hp).
  apply outcome_bind_done in Hp as ([st' key'] & Hq & Hp). injection Hp as <- <- <- <- <-. unfold prepareReadPlan in Hpl.
  apply outcome_bind_done in Hpl as ([ep pred] & Hplan & Hpl). destruct (planEntity_done _ _ _ _ _ _ Hplan) as (_ & _ & Hroute).
  apply outcome_bind_done in Hpl as ([rf pr] & _ & Hpl). destruct (negb _); [done|]. destruct (splitPaths _ rf) as [own paths].
  apply outcome_bind_done in Hpl as ([[rel pred'] locals] & _ & Hpl). apply outcome_bind_done in Hpl as ([] & _ & Hpl).
  apply outcome_bind_done in Hpl as ([order req] & _ & Hpl). apply outcome_bind_done in Hpl as (g & _ & Hpl).
  apply outcome_bind_done in Hpl as ([keyset cols] & _ & Hpl). injection Hpl as <-. split; [done|]. split; [done|].
  unfold compileReadQuery in Hq. apply outcome_bind_done in Hq as (c & _ & Hq). apply outcome_bind_done in Hq as ([sql est] & _ & Hq).
  apply outcome_bind_done in Hq as (k & Hk%lift_done & Hq). by injection Hq as <- <-.
Qed.

Lemma planRead_keeps tc i i' plan st key capped :
  planRead tc i = Done (i', plan, st, key, capped) ->
  x_registry (rp_tc plan) = x_registry tc /\ x_authorizer (rp_tc plan) = x_authorizer tc /\ x_role (rp_tc plan) = x_role tc /\
  x_subject (rp_tc plan) = x_subject tc.
Proof. intros [Hr _]%planRead_routed. by destruct (routeEntity_keeps _ _ _ _ Hr) as (? & ? & ? & ? & _). Qed.

(** A statement a read may send. *)
Definition readAsks (tc : Context) (i : readInput) (q : asked) : Prop :=
  (exists i' plan st key capped, planRead tc i = Done (i', plan, st, key, capped) /\ q = askedOf st) \/
  (exists plan name st, plannedRead tc i plan /\ name ∈ RExpand i /\
     governedBatch tc (ReTarget (relationOf (REntity (rp_res plan)) name)) st /\ q = askedOf st).

Definition asksOnly (G : asked -> Prop) (s s' : callState) : Prop := exists sent, cs_asked s' = cs_asked s ++ sent /\ Forall G sent.

#[local] Instance asksOnly_preorder G : PreOrder (asksOnly G).
Proof.
  split.
  - intros s. exists []. by rewrite app_nil_r.
  - intros s1 s2 s3 (l1 & Hl1 & F1) (l2 & Hl2 & F2). exists (l1 ++ l2). rewrite Hl2, Hl1, app_assoc. split; [done|]. by apply Forall_app.
Qed.

Lemma asksOnly_same G s s' : cs_asked s' = cs_asked s -> asksOnly G s s'.
Proof. intros Hs. exists []. by rewrite app_nil_r. Qed.

Lemma asksOnly_steps G : steps (asksOnly G) ev (fun st => G (askedOf st)).
Proof.
  split.
  - intros A f st Hst s r s' [= _ <-]. exists [askedOf st]. simpl. split; [done|]. by constructor.
  - intros k n s r s'. unfold counts. destruct (cs_meter s); [|by intros [= _ <-]].
    destruct (addSized _ _ _ _) as [[m r'] c]. intros [= _ <-]. by apply asksOnly_same.
  - intros s r s' [= _ <-]. by apply asksOnly_same.
Qed.

Lemma metering_asks {A} G tc ro (body : call A) : runs (asksOnly G) body -> runs (asksOnly G) (metering tc ro body).
Proof.
  intros Hb s r s'. unfold metering. destruct (cs_meter s) eqn:Em; [apply Hb|].
  destruct (body _) as [r1 s1] eqn:E. intros [= _ <-]. apply Hb in E.
  etrans; [|etrans; [exact E|]]; apply asksOnly_same; [done|].
  unfold endMetering. destruct (cs_meter s1); [|done]. destruct (endMeter _) as [m []]; [by destruct (closeMeter m)|done].
Qed.

(** C12. Every statement a read sends is governed.  Whatever a read returns, and
    whatever the database answers on the way, each statement it sent is the one
    planned from the request (see read_governed), or a batch of children of a
    relationship expanded: authorized for the caller on an entity that is
    served, compiled and gated, every row of it a row of that entity's table
    on which the caller's row filter there holds, cut to the fields granted
    there. *)
Theorem read_asks_governed (tc : Context) (i : readInput) (s s' : callState) (r : outcome Result) :
  readTool ev tc i s = (r, s') ->
  exists sent, cs_asked s' = cs_asked s ++ sent /\ Forall (readAsks (in_transaction tc (RTransaction i)) i) sent.
Proof.
  set (tc' := in_transaction tc (RTransaction i)). change (readTool ev tc i s = (r, s') -> asksOnly (readAsks tc' i) s s'). revert s r s'.
  change (runs (asksOnly (readAsks tc' i)) (readTool ev tc i)). unfold readTool.
  destruct (negb _); [apply runs_refuse; apply _|]. unfold runRead, beginCall. apply metering_asks. fold tc'.
  eapply runs_readBody; [apply _|apply asksOnly_steps|intros; by apply asksOnly_same| |].
  - intros i' plan st key capped Hp. left. eexists _, _, _, _, _. split; [exact Hp|]. done.
  - intros i' plan st key capped name st' Hp Hin Hb. right. destruct (planRead_done _ _ _ _ _ _ _ Hp) as (-> & Hplan & _).
    exists plan, name, st'. split; [done|]. split; [done|]. split; [|done]. eapply batchOf_governed; [|done]. by eapply planRead_keeps.
Qed.

End asks.

(** ** The memory of results *)

Section memory.
Context (ev : environment) `{GoStd} `{CostStd} `{JoinStd} `{RowSize} `{SubjectText} `{ArgsText}.

(** What a call's meter holds is what it adds to the memory. *)
Definition holds (s s' : callState) : Prop :=
  mem_capacity (cs_memory s') = mem_capacity (cs_memory s) /\
  match cs_meter s, cs_meter s' with
  | Some m, Some m' => mem_used (cs_memory s') - mt_held m' = mem_used (cs_memory s) - mt_held m /\ mt_running m' = mt_running m
  | None, None => mem_used (cs_memory s') = mem_used (cs_memory s)
  | _, _ => False
  end.

#[local] Instance holds_preorder : PreOrder holds.
Proof.
  split; unfold holds.
  - intros s. by destruct (cs_meter s).
  - intros s1 s2 s3 [? ?] [? ?]. destruct (cs_meter s1), (cs_meter s2), (cs_meter s3); try done; (split; [congruence|]); [|congruence].
    split; [lia|]. intuition congruence.
Qed.

Lemma holds_same s s' : cs_meter s' = cs_meter s -> cs_memory s' = cs_memory s -> holds s s'.
Proof. unfold holds. intros -> ->. by destruct (cs_meter s). Qed.

Lemma holds_steps : steps holds ev (fun _ => True).
Proof.
  split.
  - intros A f st _ s r s' [= _ <-]. by apply holds_same.
  - intros k n s r s'. unfold counts, holds. destruct (cs_meter s) as [m|] eqn:Em; [|intros [= _ <-]; by rewrite Em].
    unfold addSized, reserve. destruct (_ && _); [destruct (mt_write m); intros [= _ <-]; simpl; split_and!; lia|].
    destruct (_ && _); [intros [= _ <-]; simpl; split_and!; lia|]. destruct (mt_closed m); [intros [= _ <-]; simpl; split_and!; lia|].
    destruct (_ && _); simpl; [destruct (mt_write m)|]; intros [= _ <-]; simpl; split_and!; lia.
  - intros s r s' [= _ <-]. by apply holds_same.
Qed.

(** A read gives back the memory it took.  Whatever a read that has a meter
    of its own returns, and wherever it stopped, the result memory in use
    after it is what it was before, and its capacity too. *)
Theorem read_releases_memory (tc : Context) (i : readInput) (s s' : callState) (r : outcome Result) :
  cs_meter s = None -> readTool ev tc i s = (r, s') -> cs_memory s' = cs_memory s /\ cs_meter s' = None.
Proof.
  intros Hm. unfold readTool. destruct (negb _); [by intros [= _ <-]|]. unfold runRead, beginCall, metering. rewrite Hm.
  set (m := meterCall _ _ _ _). set (s0 := with_metered _ _ _). destruct (readBody ev i _ s0) as [r1 s1] eqn:E.
  assert (holds s0 s1) as Hh.
  { revert E. apply (runs_readBody holds ev (fun _ => True) holds_steps); try done. intros; by apply holds_same. }
  intros [= _ <-]. unfold holds in Hh. simpl in Hh. unfold endMetering. destruct (cs_meter s1) as [m1|]; [|by destruct Hh].
  destruct Hh as (Hcap & Hused & Hrun). unfold endMeter. rewrite Hrun. simpl. split; [|done]. unfold release.
  destruct (cs_memory s1) as [u1 c1], (cs_memory s) as [u c]. simpl in *.
  destruct (Z.eqb_spec (mt_held m1) 0); simpl; f_equal; lia.
Qed.

End memory.

(** ** The cache *)

Lemma call_bind_inv {A B} (m : call A) (k : A -> call B) s r s' :
  (m ≫= k) s = (r, s') ->
  (exists e, m s = (Refused e, s') /\ r = Refused e) \/ exists a s1, m s = (Done a, s1) /\ k a s1 = (r, s').
Proof. unfold mbind, call_bind. destruct (m s) as [[a|e] s1]; [right; eauto|]. intros [= <- <-]. left. eauto. Qed.

Section caching.
Context (ev : environment) `{GoStd} `{CostStd} `{JoinStd} `{RowSize} `{SubjectText} `{ArgsText}.

(** What other calls did to the cache from the n-th statement on, for k. *)
Definition meanwhile (n k : nat) (c : TTLCache (list row)) : TTLCache (list row) :=
  foldl (fun c n => ev_meanwhile ev n c) c (seq n k).

Lemma meanwhile_app n a b c : meanwhile n (a + b) c = meanwhile (n + a) b (meanwhile n a c).
Proof. unfold meanwhile. by rewrite seq_app, foldl_app. Qed.

(** The cache of [s'] is that of [s] as other calls changed it. *)
Definition follows (s s' : callState) : Prop :=
  (cs_calls s <= cs_calls s')%nat /\ cs_cache s' = meanwhile (cs_calls s) (cs_calls s' - cs_calls s) <$> cs_cache s.

#[local] Instance follows_preorder : PreOrder follows.
Proof.
  split; unfold follows.
  - intros s. split; [done|]. rewrite Nat.sub_diag. by destruct (cs_cache s).
  - intros s1 s2 s3 [Hle1 Hc1] [Hle2 Hc2]. split; [lia|]. rewrite Hc2, Hc1. destruct (cs_cache s1) as [c|]; [|done]. simpl. f_equal.
    replace (cs_calls s3 - cs_calls s1)%nat with ((cs_calls s2 - cs_calls s1) + (cs_calls s3 - cs_calls s2))%nat by lia.
    rewrite meanwhile_app. f_equal. lia.
Qed.

Lemma follows_same s s' : cs_asked s' = cs_asked s -> cs_cache s' = cs_cache s -> follows s s'.
Proof. unfold follows, cs_calls. intros -> ->. split; [done|]. rewrite Nat.sub_diag. by destruct (cs_cache s). Qed.

Lemma follows_steps : steps follows ev (fun _ => True).
Proof.
  split.
  - intros A f st _ s r s' [= _ <-]. unfold follows, cs_calls. simpl. rewrite length_app. simpl. split; [lia|].
    by replace (length (cs_asked s) + 1 - length (cs_asked s))%nat with 1%nat by lia.
  - intros k n s r s'. unfold counts. destruct (cs_meter s); [|by intros [= _ <-]]. destruct (addSized _ _ _ _) as [[m r'] c].
    intros [= _ <-]. by apply follows_same.
  - intros s r s' [= _ <-]. by apply follows_same.
Qed.

(** Reads of [e] follow a write of the session: its datasource takes reads
    after a write from where the write went, and the session wrote to it
    lately. *)
Definition followsSession (tc : Context) (e : Entity) : bool :=
  match x_sources tc !! DatasourceName e with
  | Some source => (0 <? ds_readAfterWrite source) && x_recent tc (DatasourceName e)
  | None => x_followsWrite tc
  end.

(** The reads the cache may serve and keep: outside transactions, without
    expansion, across no relationship, and following no write of the session. *)
Definition mayUseCache (tc : Context) (i : readInput) (plan : readPlan) : Prop :=
  RTransaction i = "" /\ RExpand i = [] /\ followsSession tc (REntity (rp_res plan)) = false /\
  rel_joins (rp_rel plan) = [] /\ HasExists (rp_full plan) = false.

Lemma mayUseCache_spec tc i i' plan st key capped :
  planRead tc i = Done (i', plan, st, key, capped) ->
  bool_decide (rel_joins (rp_rel plan) = []) && negb (HasExists (rp_full plan)) = true -> cachesRead true (rp_tc plan) i' = true ->
  mayUseCache tc i plan.
Proof.
  intros (Hr & -> & _)%planRead_routed [Hj He]%andb_true_iff Hc. unfold cachesRead in Hc. rewrite !andb_true_iff, !bool_decide_eq_true, negb_true_iff in Hc.
  destruct Hc as [[[_ Ht] Hx] Hf]. apply bool_decide_eq_true in Hj. apply negb_true_iff in He. split_and!; try done.
  unfold followsSession. unfold routeEntity in Hr. case_bool_decide as Hs; [rewrite Hs, lookup_empty; injection Hr as Hr; by rewrite <- Hr in Hf|].
  destruct (x_sources tc !! DatasourceName (REntity (rp_res plan))) as [source|]; [|done].
  case_bool_decide; [injection Hr as Hr; by rewrite <- Hr in Hf|]. destruct (x_transactions tc _); [done|]. injection Hr as Hr. by rewrite <- Hr in Hf.
Qed.

(** The key of a read: its database, relation and datasource, the generation
    of the configuration, the statement sent with its arguments, and the role
    and subject it was planned for. *)
Definition keyedBy (tc : Context) (i : readInput) (plan : readPlan) (st : statement) (key : Cache.Key) : Prop :=
  let e := REntity (rp_res plan) in
  physicalDatabase e = Ok (Cache.Database key) /\ Cache.Relation key = cacheRelation e /\ Cache.Datasource key = DatasourceName e /\
  Cache.Generation key = x_generation tc /\
  Cache.SQL key = st_sql (s_sql st) +:+ NUL +:+ "expand=" +:+ join "," (RExpand i) /\ Cache.Args key = argsText (st_args (s_sql st)) /\
  Cache.Scope key = x_role tc +:+ NUL +:+ subjectText (x_subject tc).

Lemma planRead_keyed tc i i' plan st key capped :
  planRead tc i = Done (i', plan, st, key, capped) -> keyedBy tc i plan st key.
Proof.
  intros Hp. destruct (planRead_keeps _ _ _ _ _ _ _ Hp) as (_ & _ & Hrole & Hsub). destruct (planRead_routed _ _ _ _ _ _ _ Hp) as (Hr & -> & Hk).
  assert (x_generation (rp_tc plan) = x_generation tc) as Hg.
  { unfold routeEntity in Hr. case_bool_decide; [by injection Hr as <-|]. destruct (x_sources tc !! _); [|done].
    case_bool_decide; [by injection Hr as <-|]. destruct (x_transactions tc _); [done|]. by injection Hr as <-. }
  unfold readKey in Hk. apply bind_ok in Hk as (db & Hdb & Hk). injection Hk as <-. unfold keyedBy. simpl. rewrite Hg, Hrole, Hsub. done.
Qed.

(** What a fresh read left in the cache, from the [n]-th statement
    before the query to the [n']-th after it. *)
Inductive stored (tc : Context) (i : readInput) (key : Cache.Key) (cacheable : bool) (stamp : Z) (r : outcome Result) (n n' : nat)
    (c c' : TTLCache (list row)) : Prop :=
  | stored_nothing : c' = meanwhile n (n' - n) c -> stored tc i key cacheable stamp r n n' c c'
  | stored_rows res size :
      r = Done res -> cacheable = true -> cachesRead true tc i = true -> r_nextCursor res = None -> r_truncated res = false ->
      let now := meanwhile n (n' - n) c in
      Stamp (Cache.Database key) now = stamp -> SetSized (ev_now ev n') key (r_content res) stamp size now = Ok c' ->
      stored tc i key cacheable stamp r n n' c c'.

Lemma store_cache tc i key stamp rows s s' r c :
  storeReadCache ev tc i key stamp rows s = (r, s') -> cs_cache s = Some c ->
  cs_asked s' = cs_asked s /\
  (cs_cache s' = Some c \/ r = Done tt /\ cachesRead true tc i = true /\
     exists size c', SetSized (ev_now ev (cs_calls s)) key rows stamp size c = Ok c' /\ cs_cache s' = Some c').
Proof.
  unfold storeReadCache. intros Hs Hc. rewrite Hc in Hs. destruct (cachesRead true tc i); simpl in Hs; [|injection Hs as _ <-; auto].
  destruct (_ || _); [injection Hs as _ <-; auto|]. destruct (SetSized _ _ _ _ _ _) as [c'|err] eqn:E; injection Hs as <- <-; [|auto].
  split; [done|]. right. split; [done|]. split; [done|]. by eexists _, c'.
Qed.

Lemma SetSized_fresh now k v stamp size (c c' : TTLCache (list row)) :
  SetSized now k v stamp size c = Ok c' -> c' = c \/ Stamp (Cache.Database k) c = stamp.
Proof.
  unfold SetSized. destruct (Z.eqb_spec (Stamp (Cache.Database k) c) stamp); simpl; [by right|]. intros [= <-]. by left.
Qed.

Lemma fresh_cache i plan st key capped cacheable stamp s r s' c :
  s_write st = false -> readFresh ev i plan st key capped cacheable stamp s = (r, s') -> cs_cache s = Some c ->
  exists c', cs_cache s' = Some c' /\ stored (rp_tc plan) i key cacheable stamp r (cs_calls s) (cs_calls s') c c'.
Proof.
  intros Hw Hf Hc. set (out := stored (rp_tc plan) i key cacheable stamp). assert (forall s1, follows s s1 ->
    exists c1, cs_cache s1 = Some c1 /\ c1 = meanwhile (cs_calls s) (cs_calls s1 - cs_calls s) c) as Hfol.
  { intros s1 [_ Hs1]. rewrite Hc in Hs1. simpl in Hs1. eauto. }
  assert (forall s1 r, follows s s1 -> exists c', cs_cache s1 = Some c' /\ out r (cs_calls s) (cs_calls s1) c c') as Hnone.
  { intros s1 r1 Hs1. destruct (Hfol _ Hs1) as (c1 & ? & ?). exists c1. split; [done|]. by apply stored_nothing. }
  unfold readFresh in Hf. pose proof follows_steps as Hst.
  apply call_bind_inv in Hf as [(e & [=] & _)|(before & s0 & [= <- <-] & Hf)].
  apply call_bind_inv in Hf as [(e & Hq & ->)|(got & s1 & Hq & Hf)];
    pose proof (runs_query follows ev _ Hst (with_keep (expandJoinColumns (REntity (rp_res plan)) (RExpand i)) st) Hw I _ _ _ Hq) as Hf1; [by apply Hnone|].
  apply call_bind_inv in Hf as [(e & Hx & ->)|(rows & s2 & Hx & Hf)];
    pose proof (transitivity Hf1 (runs_expand follows ev _ Hst (rp_tc plan) _ _ (RExpand i) (fun _ _ _ _ => I) _ _ _ _ Hx)) as Hf2; [by apply Hnone|].
  apply call_bind_inv in Hf as [(e & Hx2 & ->)|(rows' & s3 & Hx2 & Hf)];
    pose proof (transitivity Hf2 (runs_finish follows ev _ Hst _ _ _ _ _ _ _ Hx2)) as Hf3; [by apply Hnone|]. destruct (Hfol _ Hf3) as (c1 & Hc1 & Heq).
  assert (forall s4 c4, storeReadCache ev (rp_tc plan) i key stamp rows' s3 = (c4, s4) -> cs_calls s4 = cs_calls s3) as Hcalls.
  { intros s4 c4 Hs4. destruct (store_cache _ _ _ _ _ _ _ _ _ Hs4 Hc1) as (Ha & _). unfold cs_calls. by rewrite Ha. }
  apply call_bind_inv in Hf as [(e & Hx3 & ->)|([] & s4 & Hx3 & Hf)].
  { destruct (_ && _); [|done]. destruct (store_cache _ _ _ _ _ _ _ _ _ Hx3 Hc1) as (Ha & [Hc4|(? & _)]); [|done].
    exists c1. split; [done|]. apply stored_nothing. by rewrite (Hcalls _ _ Hx3). }
  apply call_bind_inv in Hf as [(e & [=] & _)|(n & s5 & [= <- <-] & Hf)]. injection Hf as <- <-.
  destruct (_ && _) eqn:Eb; [|injection Hx3 as <-; exists c1; split; [done|]; by apply stored_nothing]. pose proof (Hcalls _ _ Hx3) as Hn3.
  destruct (store_cache _ _ _ _ _ _ _ _ _ Hx3 Hc1) as (_ & [Hc4|(_ & Hcr & size & c' & Hset & Hc4)]).
  { exists c1. split; [done|]. apply stored_nothing. by rewrite Hn3. }
  exists c'. split; [done|]. destruct (SetSized_fresh _ _ _ _ _ _ _ Hset) as [->|Hstamp]; [apply stored_nothing; by rewrite Hn3|].
  rewrite !andb_true_iff, bool_decide_eq_true, negb_true_iff in Eb. destruct Eb as [[Hn Ht] Hca].
  eapply (stored_rows _ _ _ _ _ _ _ _ _ _ _ size); try done; rewrite Hn3, <- Heq; done.
Qed.

Lemma GetSized_cases now k (c c' : TTLCache (list row)) o :
  GetSized now k c = Ok (c', o) ->
  match o with
  | Some (v, size) => c' = c /\ exists e, c_m c !! k = Some e /\ now <= e_exp e /\ e_v e = v
  | None => True
  end.
Proof.
  unfold GetSized. destruct (c_m c !! k) as [e|]; [|by intros [= <- <-]]. destruct (Z.ltb_spec (e_exp e) now).
  - destruct (removeLocked e c); [by intros [= <- <-]|done].
  - intros [= <- <-]. split; [done|]. eauto.
Qed.

(** What a fresh read, planned as [plan], left in the cache. *)
Inductive keeps (tc : Context) (i : readInput) (plan : readPlan) (key : Cache.Key) (stamp : Z) (r : outcome Result) (n n' : nat)
    (c c' : TTLCache (list row)) : Prop :=
  | kept_nothing : c' = meanwhile n (n' - n) c -> keeps tc i plan key stamp r n n' c c'
  | kept_rows res size :
      r = Done res -> mayUseCache tc i plan -> r_nextCursor res = None -> r_truncated res = false ->
      Stamp (Cache.Database key) (meanwhile n (n' - n) c) = stamp ->
      SetSized (ev_now ev n') key (r_content res) stamp size (meanwhile n (n' - n) c) = Ok c' ->
      keeps tc i plan key stamp r n n' c c'.

(** How a read used the cache [c], from the [n]-th statement to the [n']-th. *)
Definition usedCache (tc : Context) (i : readInput) (r : outcome Result) (n n' : nat) (c c' : TTLCache (list row)) : Prop :=
  (exists e, r = Refused e) /\ c' = c /\ n' = n \/
  exists i' plan st key capped, planRead tc i = Done (i', plan, st, key, capped) /\ keyedBy tc i plan st key /\
    ((mayUseCache tc i plan /\ n' = n /\ c' = c /\
       exists e, c_m c !! key = Some e /\ ev_now ev n <= e_exp e /\ forall res, r = Done res -> r_content res = e_v e) \/
     exists c0, (c0 = c \/ mayUseCache tc i plan /\ GetSized (ev_now ev n) key c = Ok (c0, None)) /\
       keeps tc i plan key (Stamp (Cache.Database key) c) r n n' c0 c').

(** Counting leaves the cache and asks nothing. *)
Definition countsOnly (s s' : callState) : Prop := cs_asked s' = cs_asked s /\ cs_cache s' = cs_cache s.

#[local] Instance countsOnly_preorder : PreOrder countsOnly.
Proof. split; unfold countsOnly; [done|]. intros ??? [-> ->] [-> ->]. done. Qed.

Lemma countsOnly_steps : steps countsOnly ev (fun _ => False).
Proof.
  split; [done| |by intros s r s' [= _ <-]]. intros k n s r s'. unfold counts. destruct (cs_meter s); [|by intros [= _ <-]].
  destruct (addSized _ _ _ _) as [[m r'] c]. by intros [= _ <-].
Qed.

Lemma hit_cache tc i key s r s' c :
  readCacheHit ev tc i key s = (r, s') -> cs_cache s = Some c ->
  cs_asked s' = cs_asked s /\
  match r with
  | Refused _ | Done (Some _) => cs_cache s' = Some c /\ ((exists e, r = Refused e) \/ cachesRead true tc i = true /\
      exists e, c_m c !! key = Some e /\ ev_now ev (cs_calls s) <= e_exp e /\ forall res, r = Done (Some res) -> r_content res = e_v e)
  | Done None => cs_cache s' = Some c \/ cachesRead true tc i = true /\
      exists c0, GetSized (ev_now ev (cs_calls s)) key c = Ok (c0, None) /\ cs_cache s' = Some c0
  end.
Proof.
  intros Hh Hc. unfold readCacheHit in Hh. apply call_bind_inv in Hh as [(e & [=] & _)|(on & s0 & [= <- <-] & Hh)].
  assert (cached s = true) as Hon by (unfold cached; by rewrite Hc). rewrite Hon in Hh.
  destruct (cachesRead true tc i) eqn:Ecr; simpl in Hh; [|injection Hh as <- <-; auto].
  unfold mbind at 1, call_bind at 1, lookupCache in Hh. rewrite Hc in Hh.
  destruct (GetSized _ key c) as [[c0 o]|err] eqn:Eg; [|injection Hh as <- <-; split; [done|]; split; [done|]; left; eauto].
  pose proof (GetSized_cases _ _ _ _ _ Eg) as Hg. destruct o as [[rows size]|]; [|injection Hh as <- <-; simpl; eauto 8].
  destruct Hg as (-> & e & He & Hexp & Hv). pose proof (runs_countCached countsOnly ev _ countsOnly_steps rows size) as Hcc.
  apply call_bind_inv in Hh as [(e' & Hr & ->)|([] & s1 & Hr & Hh)]; destruct (Hcc _ _ _ Hr) as [Ha Hca]; simpl in Ha, Hca.
  - split; [done|]. split; [done|]. left. eauto.
  - apply call_bind_inv in Hh as [(e' & [=] & _)|(n & s2 & [= <- <-] & Hh)]. injection Hh as <- <-. split; [done|]. split; [done|].
    right. split; [done|]. exists e. split; [done|]. split; [done|]. by intros res [= <-].
Qed.

Lemma readBody_cache tc i s r s' c :
  readBody ev i tc s = (r, s') -> cs_cache s = Some c ->
  exists c', cs_cache s' = Some c' /\ usedCache tc i r (cs_calls s) (cs_calls s') c c'.
Proof.
  intros Hb Hc. unfold readBody in Hb. unfold mbind at 1, call_bind at 1, lifted in Hb.
  destruct (planRead tc i) as [[[[[i' plan] st] key] capped]|e] eqn:Hp; [|injection Hb as <- <-; exists c; split; [done|]; left; eauto].
  apply call_bind_inv in Hb as [(e & [=] & _)|(stamp & s0 & [= <- <-] & Hb)]. unfold stampOf in Hb. rewrite Hc in Hb.
  set (cacheable := bool_decide _ && _) in Hb. assert (s_write st = false) as Hw by (by apply planRead_statement in Hp as (? & _)).
  assert (forall s1 c0, cs_asked s1 = cs_asked s -> cs_cache s1 = Some c0 ->
            (c0 = c \/ cacheable && cachesRead true (rp_tc plan) i' = true /\ GetSized (ev_now ev (cs_calls s)) key c = Ok (c0, None)) ->
            readFresh ev i' plan st key capped cacheable (Stamp (Cache.Database key) c) s1 = (r, s') ->
            exists c', cs_cache s' = Some c' /\ usedCache tc i r (cs_calls s) (cs_calls s') c c') as Hfresh.
  { intros s1 c0 Ha Hc1 H0' Hf. destruct (fresh_cache _ _ _ _ _ _ _ _ _ _ _ Hw Hf Hc1) as (c' & Hc' & Hst). exists c'. split; [done|].
    right. exists i', plan, st, key, capped. split; [done|]. split; [by eapply planRead_keyed|]. right. exists c0. split.
    - destruct H0' as [?|[[Hca Hcr]%andb_true_iff ?]]; [by left|right]. split; [by eapply mayUseCache_spec|done].
    - unfold cs_calls at 1 in Hst. rewrite Ha in Hst. destruct Hst as [?|res size -> Hca Hcr Hn Ht now Hs Hset]; [by apply kept_nothing|].
      eapply (kept_rows _ _ _ _ _ _ _ _ _ _ res size); try done. by eapply mayUseCache_spec. }
  destruct cacheable eqn:Eca; [|by eapply (Hfresh s c); auto].
  apply call_bind_inv in Hb as [(e & Hh & ->)|([res|] & s1 & Hh & Hb)]; destruct (hit_cache _ _ _ _ _ _ _ Hh Hc) as (Ha & Hhit).
  - exists c. split; [apply Hhit|]. left. unfold cs_calls. rewrite Ha. eauto.
  - injection Hb as <- <-. destruct Hhit as (Hc1 & [[e [=]]|(Hcr & e & He & Hexp & Hv)]). exists c. split; [done|]. right.
    exists i', plan, st, key, capped. split; [done|]. split; [by eapply planRead_keyed|]. left. unfold cs_calls. rewrite Ha.
    split; [by eapply mayUseCache_spec|]. split; [done|]. split; [done|]. exists e. split_and!; try done. intros res' [= <-]. by apply Hv.
  - destruct Hhit as [Hc1|(Hcr & c0 & Hg & Hc1)]; [by eapply (Hfresh s1 c); auto|]. eapply (Hfresh s1 c0); eauto.
Qed.

(** C14. The cache is used without going stale.  A read of a call with a cache
    either is refused before it asks and leaves it as it is; or was served by
    it, without asking the database, with the unexpired entry under its key;
    or asked, and then the cache is what other calls made of it meanwhile
    (an expired entry under the key dropped) with, at most, the whole answer
    stored under that key, and that only when no invalidation of the database
    came since before it asked.  The key is made of the database, relation
    and datasource read, the generation of the configuration, the statement
    with its arguments, and the role and subject of the caller, so that no
    caller is served what another's scope let through; and only a read
    outside transactions, without expansion, across no relationship and
    following no recent write of the session is looked up or stored. *)
Theorem read_cache_sound (tc : Context) (i : readInput) (s s' : callState) (r : outcome Result) (c : TTLCache (list row)) :
  readTool ev tc i s = (r, s') -> cs_cache s = Some c -> exists c', cs_cache s' = Some c' /\
  usedCache (in_transaction tc (RTransaction i)) i r (cs_calls s) (cs_calls s') c c'.
Proof.
  intros Hr Hc. unfold readTool in Hr. destruct (negb _); [injection Hr as <- <-; exists c; split; [done|]; left; eauto|].
  unfold runRead, beginCall, metering in Hr. destruct (cs_meter s) as [m|]; [by eapply readBody_cache|].
  destruct (readBody _ _ _ _) as [r1 s1] eqn:Hb. injection Hr as <- <-. eapply readBody_cache in Hb as (c' & Hc' & Hu); [|done].
  exists c'. assert (cs_cache (endMetering s1) = cs_cache s1 /\ cs_asked (endMetering s1) = cs_asked s1) as [-> Ha].
  { unfold endMetering. destruct (cs_meter s1); [|done]. destruct (endMeter _) as [m []]; [by destruct (closeMeter m)|done]. }
  split; [done|]. unfold cs_calls in *. by rewrite Ha.
Qed.

End caching.

(** ** A reader of orders and their customers *)

#[local] Existing Instances asciiStd demoCostStd demoJoinStd tenBytes.
#[local] Instance noSubject : SubjectText := fun _ => ""%string.
#[local] Instance noArgs : ArgsText := fun _ => ""%string.

(** Two orders of customers 7 and 8, of whom the reader sees 7. *)
Definition shopEnv : environment :=
  mkEnv (fun n => 100 + Z.of_nat n) "s1" (fun _ => 0) (mkTargets ∅ ∅ ∅) None
    (fun n _ => inr (match n with
       | O => mkAnswer (inr ["id"%string; "customer_id"%string]) [[VString "1"; VString "7"]; [VString "3"; VString "8"]] None
       | _ => mkAnswer (inr ["id"%string; "tenant"%string; "name"%string]) [[VString "7"; VString "acme"; VString "ann"]] None
       end))
    (fun _ _ => inl []) (fun _ c => c) (fun _ => true).

Definition shopCache : TTLCache (list row) := Eval vm_compute in
  match NewTTLCache 60 10 with Ok c => c | Err _ => Cache.mkCache 0 0 0 0 ∅ ∅ ([], ∅) ∅ end.

Definition shopCall : callState := mkCallState None (NewResultMemory 4096) (NewWriteTracker 0) (Some shopCache) [] false [] [].

Definition ordersRead (expand : list string) : readInput :=
  mkInput "orders" "" ["id"%string] expand [] [mkOrderJSON "id" "asc"] false 0 0 ∅.

Definition demoReading : outcome Result * callState := readTool shopEnv reader (ordersRead ["customer"%string]) shopCall.

(** The rows, the cursor of the next page and the statements sent. *)
Lemma demoReading_runs :
  match demoReading with
  | (Done res, s') =>
      map (fun r : row => (r !! "id", r !! "customer", r !! "customer_id")) (r_content res) =
        [(Some (VString "1"), Some (nested
            {["id"%string := VString "7"; "tenant"%string := VString "acme"; "name"%string := VString "ann"]}), None);
         (Some (VString "3"), Some VNil, None)] /\
      r_nextCursor res = Some {["id"%string := VString "3"]} /\
      map (fun q => (aq_sql q, aq_args q)) (cs_asked s') =
        [("SELECT `id`, `customer_id` FROM `orders` WHERE `tenant` = ? ORDER BY `id` ASC LIMIT 2"%string, [VString "acme"]);
         ("SELECT `id`, `tenant`, `name` FROM `customers` WHERE (`id` IN (?, ?) AND `tenant` = ?) LIMIT 3"%string,
          [VString "7"; VString "8"; VString "acme"])]
  | _ => False
  end.
Proof. vm_compute. auto. Qed.

Lemma read_asks_governed_witness :
  match demoReading with
  | (_, s') => length (cs_asked s') = 2%nat /\ Forall (readAsks (in_transaction reader "") (ordersRead ["customer"%string])) (cs_asked s')
  end.
Proof.
  pose proof demoReading_runs as Hx. destruct demoReading as [[res|] s'] eqn:Hd; [|destruct Hx]. destruct Hx as (_ & _ & Ha).
  split; [rewrite <- (length_map (fun q => (aq_sql q, aq_args q))), Ha; reflexivity|].
  destruct (read_asks_governed shopEnv reader (ordersRead ["customer"%string]) shopCall s' (Done res) Hd) as (sent & -> & Hs). exact Hs.
Defined.

Lemma read_releases_memory_witness :
  match demoReading with (_, s') => cs_memory s' = NewResultMemory 4096 /\ cs_meter s' = None end.
Proof.
  destruct demoReading as [r s'] eqn:Hd. exact (read_releases_memory shopEnv reader (ordersRead ["customer"%string]) shopCall s' r eq_refl Hd).
Defined.

(** One order; while it is read, a write to orders is followed. *)
Definition oneOrder (written : bool) : environment :=
  mkEnv (fun n => 100 + Z.of_nat n) "s1" (fun _ => 0) (mkTargets ∅ ∅ ∅) None
    (fun _ _ => inr (mkAnswer (inr ["id"%string]) [[VString "1"]] None)) (fun _ _ => inl [])
    (fun _ c => if written then match Invalidate ("datasource:default" +:+ NUL) "" c with Ok c => c | Err _ => c end else c) (fun _ => true).

Definition oneRead (written : bool) : outcome Result * callState := readTool (oneOrder written) reader (ordersRead []) shopCall.

(** Read undisturbed, it is stored; with the write, it is not. *)
Lemma oneRead_runs :
  match oneRead false, oneRead true with
  | (Done _, s1), (Done _, s2) =>
      size <$> (c_m <$> cs_cache s1) = Some 1%nat /\ size <$> (c_m <$> cs_cache s2) = Some 0%nat
  | _, _ => False
  end.
Proof. vm_compute. auto. Qed.

Lemma read_cache_sound_witness :
  match oneRead false with
  | (Done res, s1) =>
      exists c1, cs_cache s1 = Some c1 /\ size (c_m c1) = 1%nat /\
        usedCache (oneOrder false) (in_transaction reader "") (ordersRead []) (Done res) 0 (cs_calls s1) shopCache c1
  | _ => False
  end.
Proof.
  pose proof oneRead_runs as Hx. destruct (oneRead false) as [[res|] s1] eqn:H1; [|exact Hx]. destruct (oneRead true) as [[res2|] s2]; [|destruct Hx].
  destruct Hx as [Hx _]. destruct (read_cache_sound (oneOrder false) reader (ordersRead []) shopCall s1 (Done res) shopCache H1 eq_refl) as (c1 & Hc & Hu).
  exists c1. split; [exact Hc|]. split; [|exact Hu]. rewrite Hc in Hx. injection Hx as Hx. exact Hx.
Defined.
