(* ===== verification/ExpandTheorems.v ===== *)
(** Expansion: the children a read attaches to a row are exactly the rows of
    their entity that were answered and match it, in order, and none is lost
    to a limit unnoticed. *)

From S2P Require Import Prelude GoString Value Relalg Interp InterpFacts Entity Numbers WriteCheck Dialect Codegen Cost CostTheorems Transaction Cache Invalidation Rbac FieldUses Order Filter Mask Pipeline PipelineFacts Related ReadTool Results JoinKey JoinKeyTheorems RunStatement RunTheorems RunRead RunReadTheorems ReadTheorems.

Set Default Proof Using "Type*".

(** ** Batches *)

Lemma batches_spec size : (1 <= size)%nat -> forall fuel tuples, (length tuples <= fuel)%nat ->
  concat (batches fuel size tuples) = tuples /\ Forall (fun b => (1 <= length b <= size)%nat) (batches fuel size tuples).
Proof.
  intros Hs fuel. induction fuel as [|fuel IH]; intros [|t tuples] Hl; simpl in *; try done; [lia|].
  destruct (IH (drop size (t :: tuples))) as [Hc Hb]; [rewrite length_drop; simpl; lia|]. simpl.
  rewrite Hc, take_drop. split; [done|]. constructor; [|done]. rewrite length_take. simpl. lia.
Qed.

Section unique.
Context `{GoStd} `{JoinStd}.

(** The tuple of a row. *)
Definition tupleOf (columns : list string) (r : row) : list value := (fun c => default VNil (r !! c)) <$> columns.

Lemma uniqueFrom_spec columns decimal rows : forall seen,
  (forall r key, r ∈ rows -> rowJoinKey r columns decimal = Some key ->
     key ∈ seen \/ exists t, t ∈ uniqueFrom columns decimal seen rows /\ joinKeyOf t decimal = Some key) /\
  (forall t, t ∈ uniqueFrom columns decimal seen rows ->
     exists r key, r ∈ rows /\ t = tupleOf columns r /\ joinKeyOf t decimal = Some key /\ key ∉ seen) /\
  NoDup ((fun t => joinKeyOf t decimal) <$> uniqueFrom columns decimal seen rows).
Proof.
  induction rows as [|x rows IH]; intros seen; simpl; [split_and!; [by intros ?? ?%not_elem_of_nil|by intros ? ?%not_elem_of_nil|constructor]|].
  assert (rowJoinKey x columns decimal = joinKeyOf (tupleOf columns x) decimal) as Hx by done.
  destruct (rowJoinKey x columns decimal) as [key|] eqn:Ek; [case_bool_decide as Hin|].
  - destruct (IH seen) as (Hall & Hfrom & Hnd). split_and!; [|intros t Ht; destruct (Hfrom _ Ht) as (r & k & ? & ?); exists r, k; by split; [right|]|done].
    intros r k [->|Hr]%elem_of_cons Hk; [left; congruence|eauto].
  - destruct (IH ({[key]} ∪ seen)) as (Hall & Hfrom & Hnd). split_and!.
    + intros r k [->|Hr]%elem_of_cons Hk.
      * right. exists (tupleOf columns x). split; [left|congruence].
      * destruct (Hall _ _ Hr Hk) as [Hs|(t & Ht & Htk)]; [|right; exists t; split; [by right|done]].
        apply elem_of_union in Hs as [->%elem_of_singleton|Hs]; [|by left]. right. exists (tupleOf columns x). split; [left|congruence].
    + intros t [->|Ht]%elem_of_cons; [exists x, key; split_and!; [left|done..]|].
      destruct (Hfrom _ Ht) as (r & k & ? & ? & ? & ?). exists r, k. split_and!; [by right|done|done|set_solver].
    + constructor; [|done]. intros (t & Heq & Ht)%list_elem_of_fmap. destruct (Hfrom _ Ht) as (r & k & _ & _ & Htk & Hn).
      apply Hn, elem_of_union. left. apply elem_of_singleton. unfold tupleOf in Hx. simpl in Heq. congruence.
  - destruct (IH seen) as (Hall & Hfrom & Hnd). split_and!; [|intros t Ht; destruct (Hfrom _ Ht) as (r & k & ? & ?); exists r, k; by split; [right|]|done].
    intros r k [->|Hr]%elem_of_cons Hk; [congruence|eauto].
Qed.

(** ** Children by key *)

(** The children of [key] among the rows answered, in order. *)
Definition childrenOf (j : joinColumns) (key : string) (answered : list (row * row)) : list row :=
  (filter (fun ck => rowJoinKey ck.2 (jtarget j) (jtargetDecimal j) = Some key) answered).*1.

Lemma group_spec j key answered : forall grouped,
  default [] (foldl (groupChild j) grouped answered !! key) = default [] (grouped !! key) ++ childrenOf j key answered.
Proof.
  induction answered as [|ck answered IH]; intros grouped; simpl; [by rewrite app_nil_r|]. rewrite IH. unfold childrenOf. rewrite filter_cons.
  unfold groupChild. destruct (rowJoinKey ck.2 _ _) as [k|].
  - destruct (decide (k = key)) as [->|Hne].
    + rewrite lookup_insert_eq, decide_True by done. simpl. by rewrite <- app_assoc.
    + by rewrite lookup_insert_ne, decide_False by congruence.
  - by rewrite decide_False.
Qed.

End unique.

(** ** Answers read whole *)

Section whole.
Context (ev : environment) `{RowSize}.

(** The meter of a read. *)
Definition readMeter (s : callState) : Prop := forall m, cs_meter s = Some m -> mt_write m = false.

Lemma addRow_reads shown s c s' : readMeter s -> addRow shown s = (Done c, s') -> c <> ResultCut /\ readMeter s'.
Proof.
  intros Hr. unfold addRow, gets, counts, mbind, call_bind. simpl. destruct (cs_meter s) as [m|] eqn:Em; [|by intros [= <- <-]].
  pose proof (Hr m Em) as Hw. destruct (rowSize shown) as [n|]; [|done]. rewrite Em. unfold addSized. rewrite Hw.
  destruct (_ && _); [intros [= <- <-]; split; [done|]; by intros m' [= <-]|].
  destruct (_ && _); [intros [= <- <-]; split; [done|]; by intros m' [= <-]|].
  destruct (mt_closed m); [intros [= <- <-]; split; [done|]; by intros m' [= <-]|].
  destruct (reserve n (cs_memory s)) as [r []]; intros [= <- <-]; (split; [done|]); by intros m' [= <-].
Qed.

(** A statement's answer, read to its end. *)
Definition answeredWith (st : statement) (input : list row) (got : queried) : Prop :=
  Forall2 (shownFor st) input (q_rows got) /\ q_kept got = flat_map (fun r => keepOf st (finite <$> r)) input /\ q_truncated got = false /\
  (0 < s_rowCap st -> Z.of_nat (length input) <= s_rowCap st).

Lemma readRows_whole st input err : s_write st = false -> forall rows kept s out s',
  readMeter s -> readRows st input err rows kept s = (Done out, s') ->
  readMeter s' /\ err = None /\ q_truncated out = false /\ q_kept out = kept ++ flat_map (fun r => keepOf st (finite <$> r)) input /\
  exists shown, q_rows out = rows ++ shown /\ Forall2 (shownFor st) input shown.
Proof.
  intros Hw. induction input as [|x input IH]; intros rows kept s out s' Hm Hr; cbn [readRows] in Hr.
  - destruct err as [err|]; [by apply fail_refused in Hr|]. injection Hr as <- <-. simpl. rewrite app_nil_r. split_and!; try done.
    exists []. by rewrite app_nil_r.
  - apply call_bind_done in Hr as (shown & s1 & Hp & Hr). injection Hp as Hp <-. apply lift_done in Hp. apply present_shown in Hp.
    apply call_bind_done in Hr as (c & s2 & Hc & Hr).
    assert (c <> ResultCut /\ readMeter s2) as [Hnc Hm2].
    { destruct (_ || _); [by eapply addRow_reads|]. by rewrite Hw in Hc. }
    destruct c; [|done|done]. destruct (IH _ _ _ _ _ Hm2 Hr) as (Hm' & He & Ht & Hk & sh & Hq & Hall).
    split_and!; try done; [by rewrite Hk; simpl; rewrite app_assoc|]. exists (shown :: sh). split; [by rewrite Hq, <- app_assoc|by constructor].
Qed.

Lemma query_whole st s got s' : s_write st = false -> readMeter s -> query ev st s = (Done got, s') ->
  readMeter s' /\ exists n a input, ev_query ev n (askedOf st) = inr a /\ iterNamed (s_columns st) a = (input, None) /\ answeredWith st input got.
Proof.
  intros Hw Hm Hq. unfold query in Hq. apply call_bind_done in Hq as ([] & s1 & Hadm & Hq). pose proof (admit_meter _ _ _ _ _ Hadm) as [Hm1 _].
  apply settled_done in Hq as (s2 & Hq & Hm'). apply call_bind_done in Hq as (res & s3 & Hres & Hq).
  destruct (retry_answer _ _ _ _ _ _ Hres) as ((n & -> & _) & Hm3 & _). destruct (ev_query ev n (askedOf st)) as [e|a] eqn:Ea; [by apply fail_refused in Hq|].
  destruct (iterNamed (s_columns st) a) as [input err] eqn:Ei.
  destruct (readRows_whole _ _ _ Hw _ _ _ _ _ ltac:(unfold readMeter; rewrite Hm3, Hm1; exact Hm) Hq) as (Hm2 & -> & Ht & Hk & shown & Hr & Hall).
  simpl in Hr. subst shown. split; [unfold readMeter; by rewrite Hm'|]. exists n, a, input. split_and!; try done.
  split_and!; try done. intros Hc. rewrite (Forall2_length _ _ _ Hall). destruct (readRows_spec _ _ _ _ _ _ _ _ Hq) as [_ _ Hcap]. apply Hcap; [done|]. simpl. lia.
Qed.

End whole.

(** ** Expansion *)

Section expansion.
Context (ev : environment) `{GoStd} `{CostStd} `{JoinStd} `{RowSize}.

Lemma evalOr_exists ev' acc ps v p : evalOr ev' acc ps = Ok v -> p ∈ ps -> ev' p = Ok triTrue -> v = triTrue.
Proof.
  revert acc. induction ps as [|q ps IH]; intros acc Ho Hp Ht; [by apply elem_of_nil in Hp|]. rewrite evalOr_cons in Ho.
  apply elem_of_cons in Hp as [->|Hp]; [rewrite Ht in Ho; by injection Ho as <-|]. destruct (ev' q) as [[]|]; simpl in Ho; [by eapply IH|by eapply IH| |done].
  by injection Ho as <-.
Qed.

Lemma filterM_evaluates {A} (f : A -> result bool) l k x : filterM f l = Ok k -> x ∈ l -> exists b, f x = Ok b.
Proof.
  revert k. induction l as [|y l IH]; intros k Hf Hx; [by apply elem_of_nil in Hx|]. simpl in Hf. inv_ok.
  apply elem_of_cons in Hx as [->|Hx]; [by eexists|by eapply IH].
Qed.

Lemma evalSelect_evaluates db rel p out row :
  evalSelect db rel p = Ok out -> row ∈ Rows rel -> exists v, evalPredicate p (with_db rel db) row = Ok v.
Proof.
  unfold evalSelect. intros Hs Hrow. inv_ok. destruct (filterM_evaluates _ _ _ _ E0 Hrow) as [b Hb].
  destruct (evalPredicate p _ row) as [v|]; [by exists v|done].
Qed.

Lemma andPreds_left a b rel row v : evalPredicate (andPreds a b) rel row = Ok v -> exists w, evalPredicate a rel row = Ok w.
Proof.
  assert (forall p q, evalPredicate (PAnd [p; q]) rel row = Ok v -> exists w, evalPredicate p rel row = Ok w) as Hand.
  { intros p q Hpq. cbn [evalPredicate] in Hpq. rewrite evalAnd_cons in Hpq. apply bind_ok in Hpq as (w & Hw & _). by exists w. }
  unfold andPreds. destruct a, b; eauto.
Qed.

Lemma andPreds_both a b rel row :
  evalPredicate a rel row = Ok triTrue -> evalPredicate b rel row = Ok triTrue -> evalPredicate (andPreds a b) rel row = Ok triTrue.
Proof.
  intros Ha Hb. assert (evalPredicate (PAnd [a; b]) rel row = Ok triTrue) as Hand.
  { cbn [evalPredicate]. apply evalAnd_true. by repeat constructor. }
  unfold andPreds. destruct a, b; done.
Qed.

(** The join columns of a row equal a tuple. *)
Definition tupleEquals (columns : list string) (t : list value) : Predicate :=
  PAnd (zip_with (fun c v => PCond (mkCond c OpEq v)) columns t).

(** An OR of one operand is the operand. *)
Lemma one_or columns tuples rel row v : tuples <> [] ->
  evalPredicate (match tupleEquals columns <$> tuples with [p] => p | ors => POr ors end) rel row = Ok v ->
  evalPredicate (POr (tupleEquals columns <$> tuples)) rel row = Ok v.
Proof.
  destruct tuples as [|t [|t' ts]]; [done| |done]. intros _ Hv. cbn [fmap list_fmap] in *. cbn [evalPredicate]. rewrite evalOr_cons.
  simpl in Hv. simpl. rewrite Hv. by destruct v.
Qed.

Lemma single_or c tuples rel row v : tuples <> [] -> Forall (fun t => length t = 1%nat) tuples ->
  evalPredicate (PCond (mkCond c OpIn (VList (hd VNil <$> tuples)))) rel row = Ok v ->
  evalPredicate (POr (tupleEquals [c] <$> tuples)) rel row = Ok v.
Proof.
  intros Hne Hl. rewrite evalIn_as_or by (by destruct tuples). intros <-. cbn [evalPredicate]. rewrite <- list_fmap_compose.
  clear Hne. generalize triFalse. induction Hl as [|t ts Ht _ IH]; intros acc; [done|]. rewrite !fmap_cons, !evalOr_cons.
  destruct t as [|x [|y t]]; try done. unfold tupleEquals at 1. simpl. destruct (evalCondition rel row _) as [[]|]; simpl; auto.
Qed.

(** The predicate of a batch holds where it is told, exactly where one of its
    tuples matches. *)
Lemma joinPredicate_true columns tuples rel row v :
  tuples <> [] -> Forall (fun t => length t = length columns) tuples ->
  evalPredicate (joinPredicate columns tuples) rel row = Ok v ->
  v = triTrue <-> exists t, t ∈ tuples /\ evalPredicate (tupleEquals columns t) rel row = Ok triTrue.
Proof.
  intros Hne Hl Hv.
  assert (evalPredicate (POr (tupleEquals columns <$> tuples)) rel row = Ok v) as Hor.
  { unfold joinPredicate in Hv. destruct columns as [|c [|c' cs]]; [by apply one_or|exact (single_or _ _ _ _ _ Hne Hl Hv)|by apply one_or]. }
  cbn [evalPredicate] in Hor. split.
  - intros ->. apply evalOr_true in Hor as (p & (t & -> & Ht)%list_elem_of_fmap & Hp); [|done]. by exists t.
  - intros (t & Ht & Hp). eapply evalOr_exists; [exact Hor| |exact Hp]. by apply list_elem_of_fmap_2.
Qed.

(** The statement of a batch asks for all the children there are: on every
    database, when what its expression returns is within the row limit, it is
    the rows of the target in the caller's row scope whose join columns equal
    one of the tuples, all of them, cut to the fields granted. *)
Definition asksForAll (ttc : Context) (target : Resolved) (columns : list string) (b : list (list value)) (st : statement) : Prop :=
  s_rowCap st = lim_maxRows (x_limits ttc) /\
  exists expr opts c, Compile (x_dialect ttc) expr opts = Ok c /\
    gateSQL ttc (with_args (literalNumbers (Codegen.Args c)) c) = Done (s_sql st, s_plan st) /\
    forall db t out, db !! RefName (Entity.Ref (REntity target)) = Some t -> eval db expr = Ok out ->
      (0 < lim_maxRows (x_limits ttc) -> Z.of_nat (length (Rows out)) <= lim_maxRows (x_limits ttc)) ->
      exists found, found `sublist_of` TRows t /\
        (forall base, base ∈ found <-> base ∈ TRows t /\ evalPredicate (RowFilter (s_grant st)) (tableRel db t) base = Ok triTrue /\
           exists tuple, tuple ∈ b /\ evalPredicate (tupleEquals columns tuple) (tableRel db t) base = Ok triTrue) /\
        Forall2 (fun base row => length row = length (DFields (s_grant st)) /\
           forall n f k, DFields (s_grant st) !! n = Some f -> colIndex (tableRel db t) f = Ok k -> row !! n = base !! k) found (Rows out).

Lemma limit_whole r n out :
  evalLimit r (n + 1) 0 = Ok out -> Z.of_nat (length (Rows out)) <= n -> Rows out = Rows r.
Proof.
  unfold evalLimit. destruct (_ || _) eqn:Eb; [done|]. intros [= <-]. apply orb_false_iff in Eb as [?%Z.ltb_ge _].
  destruct (Z.ltb_spec (Z.of_nat (length (Rows r))) 0) as [|_]; [lia|]. simpl. rewrite drop_0, length_take. intros Hl. apply take_ge.
  destruct (Z.ltb_spec (n + 1) (Z.of_nat (length (Rows r)) - 0)); lia.
Qed.

(** A projected row has the cells of its columns, row by row. *)
Lemma project_rows db t sel g out :
  Cols sel = TCols t -> evalProject sel (ProjectFields (DFields g)) = Ok out ->
  Forall2 (fun base row => length row = length (DFields g) /\
    forall n f k, DFields g !! n = Some f -> colIndex (tableRel db t) f = Ok k -> row !! n = base !! k) (Rows sel) (Rows out).
Proof.
  intros Hc Hp. unfold evalProject in Hp. inv_ok. simpl. apply mapM_ok in E, E0. unfold ProjectFields in E.
  eapply Forall2_impl; [exact E0|]. intros base row Hcells%mapM_ok. pose proof (Forall2_length _ _ _ E) as Hl. rewrite length_fmap in Hl.
  split; [by rewrite <- (Forall2_length _ _ _ Hcells)|]. intros n f k Hn Hk.
  destruct (Forall2_lookup_l _ _ _ n (mkItem f "") E) as (i & Hi & Hci); [by rewrite list_lookup_fmap, Hn|].
  destruct (Forall2_lookup_l _ _ _ _ _ Hcells Hi) as (v & Hv & Hiv). simpl in Hci.
  assert (i = k) as -> by (apply colIndex_ok in Hci, Hk; rewrite Hc in Hci; simpl in Hk; congruence).
  rewrite Hv. unfold index in Hiv. by destruct (base !! k); [injection Hiv as ->|].
Qed.

(** What a batch selects. *)
Lemma batch_selects db t columns b g sel :
  b <> [] -> Forall (fun tuple => length tuple = length columns) b ->
  evalSelect db (mkRel (TCols t) (TRows t) ∅ 0) (andPreds (joinPredicate columns b) (RowFilter g)) = Ok sel ->
  Rows sel `sublist_of` TRows t /\
  forall base, base ∈ Rows sel <-> base ∈ TRows t /\ evalPredicate (RowFilter g) (tableRel db t) base = Ok triTrue /\
    exists tuple, tuple ∈ b /\ evalPredicate (tupleEquals columns tuple) (tableRel db t) base = Ok triTrue.
Proof.
  intros Hne Hlen Hs. destruct (evalSelect_spec _ _ _ _ Hs) as (_ & _ & Hsub & Hspec). split; [exact Hsub|]. intros base. rewrite Hspec.
  split.
  - intros [Hb [Hj Hf]%andPreds_true]. split; [done|]. split; [done|]. by apply (joinPredicate_true _ _ _ _ _ Hne Hlen Hj).
  - intros (Hb & Hf & Hex). split; [exact Hb|]. destruct (evalSelect_evaluates _ _ _ _ _ Hs Hb) as [v Hv].
    change (with_db _ db) with (tableRel db t) in *. destruct (andPreds_left _ _ _ _ _ Hv) as [w Hw].
    apply (joinPredicate_true _ _ _ _ _ Hne Hlen Hw) in Hex as ->. by apply andPreds_both.
Qed.

Lemma batch_asks tc ttc target r j b st cut :
  b <> [] -> Forall (fun t => length t = length (jtarget j)) b ->
  compileExpandBatch tc ttc target r j b = Done (st, cut) -> asksForAll ttc target (jtarget j) b st.
Proof.
  intros Hne Hlen Hc. unfold compileExpandBatch in Hc. apply outcome_bind_done in Hc as (g & _ & Hc).
  apply outcome_bind_done in Hc as (c & Hcomp%lift_done & Hc). apply outcome_bind_done in Hc as ([sql est] & Hgate & Hc). injection Hc as <- <-.
  split; [done|]. eexists _, _, c. split; [exact Hcomp|]. split; [exact Hgate|]. simpl. intros db t out Ht Ho Hmax.
  unfold batchExpression in Ho. set (expr := EProject _ _) in Ho.
  assert (exists o, eval db expr = Ok o /\ Rows out = Rows o) as (o & He & ->).
  { destruct (Z.ltb_spec 0 (lim_maxRows (x_limits ttc))); [|by exists out]. cbn [eval] in Ho. apply bind_ok in Ho as (o & He & Hl).
    exists o. split; [done|]. eapply limit_whole; [exact Hl|auto]. }
  unfold expr in He. cbn [eval] in He. apply bind_ok in He as (sel & Hsel & Hp). apply bind_ok in Hsel as (sc & Hsc & Hsel).
  unfold evalScan in Hsc. change (db !! ESource (REntity target) = Some t) in Ht. unfold Entity.Ref in Hsc. simpl in Hsc. rewrite Ht in Hsc. injection Hsc as <-. destruct (batch_selects _ _ _ _ _ _ Hne Hlen Hsel) as [Hsub Hspec].
  exists (Rows sel). split; [done|]. split; [done|]. eapply project_rows; [|exact Hp].
  by destruct (evalSelect_spec _ _ _ _ Hsel) as (-> & _).
Qed.

(** A batch of tuples and its answer: its statement asks for all of their
    children, and all rows of the answer were read, within the row limit,
    short of it where the gate cut the statement. *)
Definition batchAnswered (tc ttc : Context) (target : Resolved) (r : Relationship) (j : joinColumns) (b : list (list value)) (got : queried) : Prop :=
  exists st cut n a input, compileExpandBatch tc ttc target r j b = Done (st, cut) /\ asksForAll ttc target (jtarget j) b st /\
    ev_query ev n (askedOf st) = inr a /\ iterNamed (s_columns st) a = (input, None) /\ answeredWith st input got /\
    (cut = true -> 0 < s_rowCap st -> Z.of_nat (length input) < s_rowCap st).

(** The children answered, each with its columns kept. *)
Definition answeredRows (answers : list queried) : list (row * row) := flat_map (fun got => zip (q_rows got) (q_kept got)) answers.

Lemma queryBatches_spec tc ttc target r j bs : Forall (fun b => b <> [] /\ Forall (fun t => length t = length (jtarget j)) b) bs ->
  forall grouped s g s', readMeter s -> queryBatches ev tc ttc target r j bs grouped s = (Done g, s') ->
  exists answers, Forall2 (batchAnswered tc ttc target r j) bs answers /\ g = foldl (groupChild j) grouped (answeredRows answers).
Proof.
  induction bs as [|b bs IH]; intros Hbs grouped s g s' Hm Hq; cbn [queryBatches] in Hq.
  { injection Hq as <- <-. exists []. split; [constructor|done]. }
  apply Forall_cons in Hbs as [[Hne Hlen] Hbs].
  apply call_bind_done in Hq as ([st cut] & s1 & Hc & Hq). injection Hc as Hc <-. apply call_bind_done in Hq as (got & s2 & Hg & Hq).
  destruct (query_whole ev st s got s2 (batch_reads _ _ _ _ _ _ _ _ Hc) Hm Hg) as (Hm2 & n & a & input & Ha & Hi & Hw).
  destruct (_ && _) eqn:Ecut; [done|]. destruct (IH Hbs _ _ _ _ Hm2 Hq) as (answers & Hall & ->). exists (got :: answers). split.
  - constructor; [|done]. exists st, cut, n, a, input. split_and!; try done; [by eapply batch_asks|]. intros -> Hpos. apply andb_false_iff in Ecut as [Ecut|Ecut].
    + simpl in Ecut. apply Z.ltb_ge in Ecut. lia.
    + apply Z.leb_gt in Ecut. destruct Hw as (Hall2 & _). by rewrite (Forall2_length _ _ _ Hall2).
  - unfold answeredRows. simpl. by rewrite foldl_app.
Qed.

(** What a row gets for its children. *)
Definition attached (r : Relationship) (children : list row) : value :=
  if Single r then match children with c :: _ => nested c | [] => VNil end else VList (nested <$> children).

Lemma batch_bound (cols maxIN n : nat) size :
  (0 < cols)%nat -> size = Z.max 1 (Z.quot (Z.of_nat maxIN) (Z.of_nat cols)) -> (n <= Z.to_nat size)%nat ->
  (n * cols <= Nat.max cols maxIN)%nat.
Proof.
  intros Hc -> Hn. rewrite Z.quot_div_nonneg, <- Nat2Z.inj_div in Hn by lia.
  assert (n <= Nat.max 1 (maxIN / cols))%nat as Hn' by lia. pose proof (Nat.Div0.mul_div_le maxIN cols). nia.
Qed.

Lemma uniqueFrom_length columns decimal rows : forall seen,
  Forall (fun t => length t = length columns) (uniqueFrom columns decimal seen rows).
Proof.
  induction rows as [|x rows IH]; intros seen; cbn [uniqueFrom]; [constructor|]. destruct (rowJoinKey x columns decimal); [|apply IH].
  case_bool_decide; [apply IH|]. constructor; [by rewrite length_fmap|apply IH].
Qed.

Lemma concat_batches bs tuples n :
  concat bs = tuples -> Forall (fun t => length t = n) tuples -> Forall (fun b : list (list value) => b <> []) bs ->
  Forall (fun b => b <> [] /\ Forall (fun t : list value => length t = n) b) bs.
Proof.
  intros <- Ht Hne. apply Forall_and. split; [done|]. induction bs as [|b bs IH]; [constructor|]. simpl in Ht.
  apply Forall_app in Ht as [Hb Ht]. apply Forall_cons in Hne as [_ Hne]. constructor; [done|by apply IH].
Qed.


End expansion.

(** ** Orders and their customers *)

#[local] Existing Instances asciiStd demoCostStd demoJoinStd tenBytes.

(** The customers of orders 1 (customer 7), 2 (of none) and 3 (customer 7 too). *)
Definition orderRows : list row := [{["id"%string := VString "1"]}; {["id"%string := VString "2"]}; {["id"%string := VString "3"]}].
Definition orderKept : list row :=
  [{["customer_id"%string := VString "7"]}; {["customer_id"%string := VNil]}; {["customer_id"%string := VString "7"]}].

Definition oneCustomer : environment :=
  mkEnv (fun n => 100 + Z.of_nat n) "s1" (fun _ => 0) (mkTargets ∅ ∅ ∅) None
    (fun _ _ => inr (mkAnswer (inr ["id"%string; "name"%string]) [[VString "7"; VString "ann"]] None)) (fun _ _ => inl []) (fun _ c => c) (fun _ => true).

Definition demoExpansion : outcome (list row) * callState :=
  expandOneRelationship oneCustomer reader readerOrders orderRows orderKept "customer" shopCall.

Lemma demoExpansion_runs :
  match demoExpansion with
  | (Done rows', s') =>
      (fun r : row => r !! "customer") <$> rows' =
        [Some (nested {["id"%string := VString "7"; "name"%string := VString "ann"]}); Some VNil;
         Some (nested {["id"%string := VString "7"; "name"%string := VString "ann"]})] /\
      map aq_args (cs_asked s') = [[VString "7"; VString "acme"]]
  | _ => False
  end.
Proof. vm_compute. auto. Qed.

