(* ===== verification/RunWrite.v ===== *)
(** Running the write tools: runInsert, runFilteredWrite and below of
    core/tool/tools_write_impl.go, with the Run methods of tools_write.go on
    decoded input. *)

From S2P Require Import Prelude GoString Value Relalg Entity Numbers WriteCheck Dialect Codegen Cost Transaction Cache Invalidation Rbac FieldUses Order Filter Mask Pipeline WriteTools Results RunStatement RunRead.

(** An int64 of a result. *)
Definition int64 (n : Z) : value := VInt KInt64 n.

(** A result with one row. *)
Definition oneRow (r : row) (truncated : bool) : Result := mkResult [r] 0 0 None truncated.

Definition keyValue (e : Entity) (values : row) (lastInsertID : Z) (r : row) (column : string) : row :=
  if match AttributeByName e column with Some a => DAutoIncrement (ADomain a) | None => false end && negb (lastInsertID =? 0)
  then <[column := int64 lastInsertID]> r
  else match values !! column with Some v => <[column := v]> r | None => r end.

Definition insertedKey (e : Entity) (values : row) (lastInsertID : Z) : row :=
  match IdentityKeys e true false with
  | [] => ∅
  | key :: _ => fold_left (keyValue e values lastInsertID) key ∅
  end.

Section write.
Context (ev : environment) `{GoStd} `{CostStd} `{RowSize}.

Definition insertWithReturning (st : statement) : call Result :=
  got ← query ev st;
  if q_truncated got then mret (oneRow {["rowsAffected"%string := int64 1; "truncated"%string := VBool true]} true)
  else match q_rows got with
       | [] => mret (oneRow {["rowsAffected"%string := int64 0]} false)
       | r :: _ => mret (oneRow (<["rowsAffected"%string := int64 1]> r) false)
       end.

Definition insertWithExec (st : statement) (inserted : row) : call Result :=
  r ← exec ev st;
  shown ← lifted (lift (present st (insertedKey (REntity (s_res st)) inserted r.1)));
  mret (oneRow (<["rowsAffected"%string := int64 r.2]> (<["lastInsertId"%string := int64 r.1]> shown)) false).

Definition insertBody (i : createInput) (tc : Context) : call Result :=
  '(st, inserted) ← lifted (prepareInsert tc i);
  if enforced (Capabilities (x_dialect (s_tc st))) Returning
     && match PrimaryKey (REntity (s_res st)) with Some (_ :: _) => true | _ => false end
  then insertWithReturning st else insertWithExec st inserted.

Definition runInsert (tc : Context) (i : createInput) : call Result := beginCall tc false (ci_transaction i) (insertBody i).

Definition filteredBody (prepare : Context -> outcome statement) (tc : Context) : call Result :=
  st ← lifted (prepare tc);
  r ← exec ev st;
  mret (oneRow {["rowsAffected"%string := int64 r.2]} false).

Definition runFilteredWrite (tc : Context) (transaction : string) (prepare : Context -> outcome statement) : call Result :=
  beginCall tc false transaction (filteredBody prepare).

(** The Run methods. *)
Definition createTool (tc : Context) (i : createInput) : call Result :=
  if bool_decide (ci_values i = []) then refuse EInvalidInput else runInsert tc i.

Definition updateTool (tc : Context) (i : updateInput) : call Result :=
  runFilteredWrite tc (ui_transaction i) (fun tc => prepareUpdate tc i).

Definition deleteTool (tc : Context) (i : deleteInput) : call Result :=
  runFilteredWrite tc (di_transaction i) (fun tc => prepareDelete tc i).

End write.
