(* ===== verification/RunWriteTheorems.v ===== *)
(** Writes, run: a write reaches the database at most once, unless the database
    said of the first try that it did not run; what the call reports is what
    the database answered. *)

From S2P Require Import Prelude GoString Value Relalg Entity EntityFacts Numbers WriteCheck Dialect Codegen Cost CostTheorems Transaction Cache Invalidation Rbac FieldUses Order Filter Mask Pipeline PipelineFacts WriteTools WriteToolsTheorems Results RunStatement RunTheorems RunRead RunReadTheorems RunWrite.

Set Default Proof Using "Type*".

Section sent.
Context (ev : environment).

(** [q] went to the database once, or twice when its first answer, outside a
    transaction, was that its plan was stale. *)
Definition sentOnce {A} (f : nat -> asked -> goErr + A) (st : statement) (s s' : callState) : Prop :=
  let q := askedOf st in
  cs_asked s' = cs_asked s ++ [q] \/
  (cs_asked s' = cs_asked s ++ [q; q] /\ x_transaction (s_tc st) = "" /\
   exists err, f (cs_calls s) q = inl err /\ errorsIs err StoreStalePlan = true).

Lemma retry_sent {A} st (f : nat -> asked -> goErr + A) s out s' :
  retryStalePlan ev st f s = (Done out, s') -> sentOnce f st s s' /\ exists n, out = f n (askedOf st).
Proof.
  unfold retryStalePlan, ask, sentOnce, mbind, call_bind. simpl. destruct (f (cs_calls s) (askedOf st)) as [err|a] eqn:Ef.
  - destruct (bool_decide _ && _) eqn:Eb; intros [= <- <-]; simpl; [|split; [by left|]; eauto].
    rewrite andb_true_iff, bool_decide_eq_true in Eb. destruct Eb as [Htx Hst]. split; [|eauto]. right. rewrite <- app_assoc. eauto.
  - intros [= <- <-]. simpl. split; [by left|]. eauto.
Qed.

Lemma sentOnce_from {A} (f : nat -> asked -> goErr + A) st s1 s s' :
  cs_asked s = cs_asked s1 -> sentOnce f st s s' -> sentOnce f st s1 s'.
Proof. unfold sentOnce, cs_calls. by intros ->. Qed.

Lemma sentOnce_to {A} (f : nat -> asked -> goErr + A) st s s1 s' :
  cs_asked s' = cs_asked s1 -> sentOnce f st s s1 -> sentOnce f st s s'.
Proof. unfold sentOnce. by intros ->. Qed.

Lemma settled_asked {A} st (body : call A) s r s' :
  settled ev st body s = (r, s') -> exists r1 s1, body s = (r1, s1) /\ cs_asked s' = cs_asked s1 /\ forall a, r = Done a -> r1 = Done a.
Proof.
  unfold settled. destruct (body s) as [r1 s1]. intros Hs. exists r1, s1. split; [done|].
  destruct (_ || _); [injection Hs as <- <-; auto|]. destruct (afterWriteCall _ _ _ s1) as [f s2] eqn:Ef. apply afterWrite_meter in Ef as [_ Ha].
  destruct r1, f; injection Hs as <- <-; (split; [done|]); naive_solver.
Qed.

(** A call either is refused with nothing sent and nothing changed, or sent its statement. *)
Definition unsent {A} (r : outcome A) (s s' : callState) : Prop :=
  (exists e, r = Refused e) /\ cs_asked s' = cs_asked s /\ cs_tracker s' = cs_tracker s /\ cs_cache s' = cs_cache s /\ cs_dirty s' = cs_dirty s.

Lemma admit_refused st s e s' : admitStatement ev st s = (Refused e, s') -> unsent (@Refused unit e) s s'.
Proof.
  unfold admitStatement, unsent. destruct (_ || _); [intros [= <- <-]; eauto 6|]. destruct (transactional st) eqn:Et; [|done].
  unfold afterWriteCall, lifted, stateful, mbind, call_bind. destruct (lift _) as [ts|]; [|intros [= <- <-]; eauto 6].
  unfold transactional in Et. apply andb_true_iff in Et as [_ Et]. apply negb_true_iff in Et. rewrite Et.
  destruct (ev_markDirty ev); [intros [= <- <-]; eauto 6|done].
Qed.

Lemma exec_sent st s r s' : exec ev st s = (r, s') ->
  unsent r s s' \/ sentOnce (ev_exec ev) st s s' /\ forall a, r = Done a -> exists n, ev_exec ev n (askedOf st) = inr a.
Proof.
  unfold exec. intros He. apply call_bind_inv in He as [(e & Ha & ->)|([] & s1 & Ha & He)].
  { left. destruct (admit_refused _ _ _ _ Ha) as (_ & Hrest). split; [eauto|done]. }
  right. apply admit_meter in Ha as [_ Ha]. apply settled_asked in He as (r1 & s2 & Hb & Hs & Hr).
  destruct (retry_done ev st (ev_exec ev) s1) as (out & s3 & Ho). destruct (retry_sent _ _ _ _ _ Ho) as (Hsent & n & Hn).
  unfold mbind, call_bind in Hb. rewrite Ho in Hb.
  assert (cs_asked s2 = cs_asked s3 /\ forall a, r1 = Done a -> out = inr a) as [H23 Hout].
  { destruct out as [err|a]; [|injection Hb as <- <-; split; [done|]; by intros a' [= <-]]. split; [by apply fail_keeps in Hb as (_ & _ & _ & ?)|].
    intros a ->. by apply fail_refused in Hb. }
  split; [|intros a Hra; exists n; rewrite <- Hn; by apply Hout, Hr]. eapply sentOnce_from; [exact Ha|]. eapply sentOnce_to; [|exact Hsent]. congruence.
Qed.

Context `{RowSize}.

(** The rows of an answer, by name. *)
Definition answerRows (st : statement) (a : answer) : list row := (iterNamed (s_columns st) a).1.

Lemma readRows_some st input err : forall rows kept s out s',
  readRows st input err rows kept s = (Done out, s') -> q_truncated out = true -> input <> [].
Proof. destruct input; [|done]. intros rows kept s out s'. simpl. destruct err; [by intros ?%fail_refused|]. by intros [= <- <-]. Qed.

Lemma query_sent st s r s' : query ev st s = (r, s') ->
  unsent r s s' \/ sentOnce (ev_query ev) st s s' /\
  forall out, r = Done out -> exists n a, ev_query ev n (askedOf st) = inr a /\
    (q_truncated out = true -> answerRows st a <> []) /\ (q_truncated out = false -> (q_rows out = [] <-> answerRows st a = [])).
Proof.
  unfold query. intros Hq. apply call_bind_inv in Hq as [(e & Ha & ->)|([] & s1 & Ha & Hq)].
  { left. destruct (admit_refused _ _ _ _ Ha) as (_ & Hrest). split; [eauto|done]. }
  right. apply admit_meter in Ha as [_ Ha]. apply settled_asked in Hq as (r1 & s2 & Hb & Hs & Hr).
  destruct (retry_done ev st (ev_query ev) s1) as (out & s3 & Ho). destruct (retry_sent _ _ _ _ _ Ho) as (Hsent & n & Hn).
  unfold mbind, call_bind in Hb. rewrite Ho in Hb.
  assert (cs_asked s2 = cs_asked s3) as H23.
  { destruct out as [err|a]; [by apply fail_keeps in Hb as (_ & _ & _ & ?)|]. destruct (iterNamed _ a) as [rows err].
    pose proof countsOnly_preorder. by apply (runs_readRows countsOnly ev _ (countsOnly_steps ev)) in Hb as [? _]. }
  split; [eapply sentOnce_from; [exact Ha|]; eapply sentOnce_to; [|exact Hsent]; congruence|].
  intros o Hro. specialize (Hr _ Hro). subst r1. destruct out as [err|a]; [by apply fail_refused in Hb|]. exists n, a. split; [done|].
  unfold answerRows. destruct (iterNamed _ a) as [rows err]. simpl. split; [by eapply readRows_some|]. intros Ht.
  destruct (readRows_spec _ _ _ _ _ _ _ _ Hb) as [(read & shown & _ & Hrows & Hall & _ & Hfull) _ _]. simpl in Hrows. destruct (Hfull Ht) as [-> _].
  rewrite Hrows. split; intros Heq; rewrite Heq in Hall; by inversion Hall.
Qed.

End sent.

(** ** The tools *)

Inductive writeCall : Type := WCreate (i : createInput) | WUpdate (i : updateInput) | WDelete (i : deleteInput).

Definition transactionOf (w : writeCall) : string :=
  match w with WCreate i => ci_transaction i | WUpdate i => ui_transaction i | WDelete i => di_transaction i end.

(** The states a meter of the call's own leaves alike. *)
Definition alike (s s' : callState) : Prop :=
  cs_asked s' = cs_asked s /\ cs_tracker s' = cs_tracker s /\ cs_cache s' = cs_cache s /\ cs_dirty s' = cs_dirty s.

Lemma metering_inv {A} tc ro (body : call A) s r s' :
  metering tc ro body s = (r, s') -> exists s0 s1, body s0 = (r, s1) /\ alike s s0 /\ alike s1 s'.
Proof.
  unfold metering. destruct (cs_meter s); [intros Hb; exists s, s'; by split_and!|]. destruct (body _) as [r1 s1] eqn:Hb.
  intros [= <- <-]. eexists _, s1. split; [exact Hb|]. split; [done|]. unfold endMetering. destruct (cs_meter s1); [|done].
  destruct (endMeter _) as [m []]; [by destruct (closeMeter m)|done].
Qed.

Section tools.
Context (ev : environment) `{GoStd} `{CostStd} `{RowSize}.

Definition prepared (tc : Context) (w : writeCall) : outcome statement :=
  match w with
  | WCreate i => p ← prepareInsert tc i; Done p.1
  | WUpdate i => prepareUpdate tc i
  | WDelete i => prepareDelete tc i
  end.

Definition writeTool (tc : Context) (w : writeCall) : call Result :=
  match w with WCreate i => createTool ev tc i | WUpdate i => updateTool ev tc i | WDelete i => deleteTool ev tc i end.

(** What a write reports: the rows the database said it affected, or, of an
    insert that returns its row, whether one came. *)
Definition reports (st : statement) (res : Result) : Prop :=
  exists shown, r_content res = [shown] /\
    ((exists n id rows, ev_exec ev n (askedOf st) = inr (id, rows) /\ shown !! "rowsAffected" = Some (int64 rows)) \/
     (exists n a, ev_query ev n (askedOf st) = inr a /\
        shown !! "rowsAffected" = Some (int64 (if bool_decide (answerRows st a = []) then 0 else 1)))).

(** A write's statement was sent, and the call reports what came of it. *)
Definition sentAndReported (st : statement) (r : outcome Result) (s s' : callState) : Prop :=
  (sentOnce (ev_exec ev) st s s' \/ sentOnce (ev_query ev) st s s') /\ forall res, r = Done res -> reports st res.

Lemma filtered_sent prepare tc s r s' : filteredBody ev prepare tc s = (r, s') ->
  unsent r s s' \/ exists st, prepare tc = Done st /\ sentAndReported st r s s'.
Proof.
  unfold filteredBody. intros Hf. unfold mbind at 1, call_bind at 1, lifted in Hf.
  destruct (prepare tc) as [st|e]; [|injection Hf as <- <-; left; split; [eauto|done]].
  apply call_bind_inv in Hf as [(e & He & ->)|([id rows] & s1 & He & Hf)].
  - apply exec_sent in He as [(_ & Hu)|[Hs _]]; [left; split; [eauto|done]|]. right. exists st. split; [done|]. split; [by left|done].
  - injection Hf as <- <-. apply exec_sent in He as [([e He] & _)|[Hs Hn]]; [done|]. right. exists st. split; [done|]. split; [by left|].
    intros res [= <-]. destruct (Hn _ eq_refl) as [n Hn']. eexists. split; [reflexivity|]. left. exists n, id, rows. split; [done|].
    by rewrite lookup_singleton_eq.
Qed.

Lemma insert_sent i tc s r s' : insertBody ev i tc s = (r, s') ->
  unsent r s s' \/ exists p, prepareInsert tc i = Done p /\ sentAndReported p.1 r s s'.
Proof.
  unfold insertBody. intros Hf. unfold mbind at 1, call_bind at 1, lifted in Hf.
  destruct (prepareInsert tc i) as [[st inserted]|e]; [|injection Hf as <- <-; left; split; [eauto|done]]. destruct (_ && _).
  - unfold insertWithReturning in Hf. apply call_bind_inv in Hf as [(e & Hq & ->)|(got & s1 & Hq & Hf)].
    + apply query_sent in Hq as [(_ & Hu)|[Hs _]]; [left; split; [eauto|done]|]. right. eexists. split; [done|]. split; [by right|done].
    + apply query_sent in Hq as [([e He] & _)|[Hs Hn]]; [done|]. destruct (Hn _ eq_refl) as (n & a & Ha & Ht & Hr).
      right. eexists. split; [done|]. simpl. destruct (q_truncated got); [|destruct (q_rows got) as [|x xs] eqn:Eq]; injection Hf as <- <-; (split; [by right|]);
        intros res [= <-]; eexists; (split; [reflexivity|]); right; exists n, a; (split; [done|]).
      * rewrite bool_decide_eq_false_2 by auto. by rewrite lookup_insert_eq.
      * rewrite bool_decide_eq_true_2 by (by apply Hr). by rewrite lookup_singleton_eq.
      * rewrite bool_decide_eq_false_2 by (intros Hx; by apply Hr in Hx). by rewrite lookup_insert_eq.
  - unfold insertWithExec in Hf. apply call_bind_inv in Hf as [(e & He & ->)|([id rows] & s1 & He & Hf)].
    + apply exec_sent in He as [(_ & Hu)|[Hs _]]; [left; split; [eauto|done]|]. right. eexists. split; [done|]. split; [by left|done].
    + apply exec_sent in He as [([e He] & _)|[Hs Hn]]; [done|]. right. eexists. split; [done|]. simpl.
      unfold mbind, call_bind, lifted in Hf. destruct (lift _); injection Hf as <- <-; (split; [by left|]); intros res [= <-].
      destruct (Hn _ eq_refl) as [n Hn']. eexists. split; [reflexivity|]. left. exists n, id, rows. split; [done|]. by rewrite lookup_insert_eq.
Qed.

(** C9. A write reaches the database once.  Whatever a create, an update or a
    delete returns, either it was refused and nothing was sent or changed, or
    the statement planned from its request was sent once (a second time only
    when the database answered the first, outside a transaction, that its plan
    was stale and so did not run it), and a call that succeeds reports what
    the database answered: the rows affected, or, of an insert that returns
    its row, whether one came. *)
Theorem write_sent_once (tc : Context) (w : writeCall) (s s' : callState) (r : outcome Result) :
  writeTool tc w s = (r, s') ->
  unsent r s s' \/
  exists st, prepared (in_transaction tc (transactionOf w)) w = Done st /\
    (sentOnce (ev_exec ev) st s s' \/ sentOnce (ev_query ev) st s s') /\ forall res, r = Done res -> reports st res.
Proof.
  intros Hw. assert (forall s0 s1 (P : Prop), alike s s0 -> alike s1 s' ->
    unsent r s0 s1 \/ P -> unsent r s s' \/ P) as Halike.
  { intros s0 s1 P (Ha & Hb & Hc & Hd) (Ha' & Hb' & Hc' & Hd') [(He & Hu1 & Hu2 & Hu3 & Hu4)|HP]; [left|by right].
    split; [done|]. split_and!; congruence. }
  assert (forall {A} (f : nat -> asked -> goErr + A) st s0 s1, alike s s0 -> alike s1 s' -> sentOnce f st s0 s1 -> sentOnce f st s s') as Hsent.
  { intros A f st s0 s1 [Ha _] [Ha' _] Hs. eapply sentOnce_from; [exact Ha|]. by eapply sentOnce_to. }
  assert (forall st s0 s1, alike s s0 -> alike s1 s' -> sentAndReported st r s0 s1 -> sentAndReported st r s s') as Hrep.
  { intros st s0 s1 Ha Ha' [[Hs|Hs] Hr]; split; eauto. }
  destruct w as [i|i|i]; simpl in Hw.
  - unfold createTool in Hw. destruct (bool_decide _); [injection Hw as <- <-; left; split; [eauto|done]|].
    apply metering_inv in Hw as (s0 & s1 & Hb & Ha & Ha'). apply insert_sent in Hb. eapply Halike; [done..|]. destruct Hb as [Hb|(p & Hp & Hb)]; [by left|].
    right. exists p.1. simpl. rewrite Hp. split; [done|]. by eapply Hrep.
  - apply metering_inv in Hw as (s0 & s1 & Hb & Ha & Ha'). apply filtered_sent in Hb. eapply Halike; [done..|]. destruct Hb as [Hb|(st & Hp & Hb)]; [by left|].
    right. exists st. split; [done|]. by eapply Hrep.
  - apply metering_inv in Hw as (s0 & s1 & Hb & Ha & Ha'). apply filtered_sent in Hb. eapply Halike; [done..|]. destruct Hb as [Hb|(st & Hp & Hb)]; [by left|].
    right. exists st. split; [done|]. by eapply Hrep.
Qed.

End tools.

(** ** A clerk deletes an order *)

#[local] Existing Instances asciiStd demoCostStd tenBytes.

(** The first plan is stale; the second deletes a row. *)
Definition clerkEnv : environment :=
  mkEnv (fun n => 100 + Z.of_nat n) "s1" (fun _ => 5) (mkTargets ∅ ∅ ∅) None (fun _ _ => inl [])
    (fun n _ => match n with O => inl [StoreStalePlan] | _ => inr (0, 1) end) (fun _ c => c) (fun _ => true).

Definition demoWriting : outcome Result * callState :=
  writeTool clerkEnv clerk (WDelete (deleteBy "id" (VInt KInt64 7))) shopCall.

Lemma demoWriting_runs :
  match demoWriting with
  | (Done res, s') => r_content res = [{["rowsAffected"%string := int64 1]}] /\
      map aq_sql (cs_asked s') = ["DELETE FROM `orders` WHERE (`id` = ? AND `tenant` = ?)"%string; "DELETE FROM `orders` WHERE (`id` = ? AND `tenant` = ?)"%string]
  | _ => False
  end.
Proof. vm_compute. split; reflexivity. Qed.

Lemma write_sent_once_witness :
  match demoWriting with
  | (Done res, s') => exists st, prepared (in_transaction clerk "") (WDelete (deleteBy "id" (VInt KInt64 7))) = Done st /\
      reports clerkEnv st res /\ length (cs_asked s') = 2%nat
  | _ => False
  end.
Proof.
  pose proof demoWriting_runs as Hx. destruct demoWriting as [[res|] s'] eqn:Hd; [|exact Hx]. destruct Hx as [_ Ha]. unfold demoWriting in Hd.
  destruct (write_sent_once clerkEnv clerk (WDelete (deleteBy "id" (VInt KInt64 7))) shopCall s' (Done res) Hd) as [([e He] & _)|(st & Hp & _ & Hr)];
    [discriminate He|].
  exists st. split; [exact Hp|]. split; [exact (Hr res eq_refl)|]. rewrite <- (length_map aq_sql), Ha. reflexivity.
Defined.
