(* ===== verification/ExecuteSQL.v ===== *)
(** The SQL escape hatch: core/tool/tools_execute_sql.go, with authorizeSQL,
    estimateSQL and the raw statements of core/tool/pipeline.go and the
    durable audit of core/tool/tool_audit.go.

    Texts are runes with the bytes they were read from; unicode's letters,
    digits and upper case past ASCII are parameters, class [Unicode]. *)

From S2P Require Import Prelude GoString Value Relalg Entity Numbers WriteCheck Dialect Codegen Cost CostTheorems Transaction Cache CacheTheorems Invalidation InvalidationTheorems Rbac FieldUses Order Filter Mask Pipeline PipelineFacts Results RunStatement RunTheorems RunRead RunReadTheorems RunWrite RunWriteTheorems.

(** What the code uses of unicode past ASCII. *)
Class Unicode : Type := { letterPast : Z -> bool; digitPast : Z -> bool; upperPast : Z -> Z }.

(** ** Recognizing metadata statements *)

Abbreviation text := (list (Z * list Z)).

Definition textOf (s : string) : text := decodeBytes (bytes s).
Definition startsWith (rs : list Z) (t : text) : bool := bool_decide (take (length rs) t.*1 = rs).

(** What follows the first line break; [None] without one. *)
Fixpoint afterLine (t : text) : option text :=
  match t with [] => None | (r, _) :: t => if r =? 10 then Some t else afterLine t end.

(** What follows the first */; [None] without one. *)
Fixpoint afterComment (t : text) : option text :=
  match t with
  | [] => None
  | (r, _) :: t => if (r =? 42) && startsWith [47] t then Some (tail t) else afterComment t
  end.

(** skipSpaceAndComments; each round drops a comment, so the length is
    enough rounds. *)
Fixpoint skipLoop (fuel : nat) (t : text) : text :=
  match fuel with
  | O => t
  | S fuel =>
      let t := dropSpaceRunes t in
      if startsWith [45; 45] t || startsWith [35] t then match afterLine t with None => [] | Some t => skipLoop fuel t end
      else if startsWith [47; 42] t then match afterComment t with None => [] | Some t => skipLoop fuel t end
      else t
  end.

Definition skipSpaceAndComments (t : text) : text := skipLoop (S (length t)) t.

Section metadata.
Context `{Unicode}.

Definition isLetter (r : Z) : bool := if r <? 0x80 then inb 65 90 r || inb 97 122 r else letterPast r.
Definition isDigit (r : Z) : bool := if r <? 0x80 then inb 48 57 r else digitPast r.
Definition toUpper (r : Z) : Z := if r <? 0x80 then (if inb 97 122 r then r - 32 else r) else upperPast r.

(** The runes [t] starts with that [p] holds of, and the rest. *)
Fixpoint spanRunes (p : Z -> bool) (t : text) : list Z * text :=
  match t with
  | (r, b) :: t' => if p r then let '(w, rest) := spanRunes p t' in (r :: w, rest) else ([], t)
  | [] => ([], [])
  end.

Definition keywordOf (word : list Z) : string := of_runes (map toUpper word).

Definition explainWords : list string :=
  ["ANALYZE"; "FORMAT"; "EXTENDED"; "PARTITIONS"; "FOR"; "SELECT"; "TABLE"; "WITH"; "INSERT"; "UPDATE"; "DELETE"; "REPLACE";
   "VALUES"].

Definition describesTable (t : text) : bool :=
  match t with
  | [] => false
  | (r, _) :: _ =>
      if (r =? 96) || (r =? 34) then true
      else
        let word := (spanRunes (fun r => isLetter r || isDigit r || (r =? 95)) t).1 in
        negb (bool_decide (word = [])) && negb (bool_decide (keywordOf word ∈ explainWords))
  end.

(** strings.TrimRight(strings.TrimSpace(t), "; \t\r\n") *)
Fixpoint dropEnds (t : text) : text :=
  match t with
  | (r, b) :: t' => if (r =? 59) || (r =? 32) || (r =? 9) || (r =? 13) || (r =? 10) then dropEnds t' else t
  | [] => []
  end.

Definition statementBody (t : text) : text := reverse (dropEnds (dropSpaceRunes (reverse (dropSpaceRunes t)))).

(** A byte of the text taken as a rune, as rest[len(word)] is. *)
Definition firstByte (t : text) : Z := match t with (_, b :: _) :: _ => b | _ => 0 end.

Definition isMetadataStatement (sql : string) : bool :=
  let rest := skipSpaceAndComments (textOf sql) in
  let '(word, more) := spanRunes isLetter rest in
  let keyword := keywordOf word in
  if negb (bool_decide (keyword ∈ ["SHOW"; "DESCRIBE"; "DESC"])) then false
  else if bool_decide (more = []) || negb (is_space (firstByte more)) then false
  else if existsb (fun rb => rb.1 =? 59) (statementBody rest) then false
  else bool_decide (keyword = "SHOW") || describesTable (skipSpaceAndComments more).

End metadata.

(** ** The call *)

Record EscapeRoute : Type := mkRoute {
  er_connection : string;
  er_db : nat;
  er_dialect : Dialect;
  er_explainer : option (string -> list value -> goErr + Plan);
  er_threshold : Threshold;
}.

(** What the services say of the hatch. *)
Record escapes : Type := mkEscapes {
  es_routes : gmap string EscapeRoute;
  es_estimateRequired : bool;
  es_metadata : bool;
  es_durable : bool;                       (** the auditor writes durably *)
}.

Record executeSQLInput : Type := mkSQLInput { xi_datasource : string; xi_sql : string; xi_args : list value; xi_mode : string }.

Definition normalize (i : executeSQLInput) : option executeSQLInput :=
  let '(datasource, sql) := (trimSpace (xi_datasource i), trimSpace (xi_sql i)) in
  let mode := if bool_decide (xi_mode i = "") then "query"%string else xi_mode i in
  if bool_decide (datasource = "") || bool_decide (sql = "") || negb (bool_decide (mode ∈ ["query"; "exec"])) then None
  else Some (mkSQLInput datasource sql (literalNumbers (xi_args i)) mode).

Record escapeTrace : Type := mkTrace {
  tr_datasource : string;
  tr_connection : string;
  tr_sql : string;
  tr_rowsAffected : Z;
  tr_plan : option Plan;
}.

(** A raw statement. *)
Record rawStatement : Type := mkRaw {
  rs_tc : Context;
  rs_grant : Rbac.Decision;
  rs_sql : string;
  rs_args : list value;
  rs_plan : option Plan;
  rs_write : bool;
  rs_rowCap : Z;
}.

Definition newRawStatement (tc : Context) (g : Rbac.Decision) (sql : string) (args : list value) (plan : option Plan) (exec : bool)
  : rawStatement :=
  mkRaw tc g sql args plan exec (minLimit (lim_maxRows (x_limits tc)) (x_maxReturnedRows tc)).

Definition askedRaw (st : rawStatement) : asked := mkAsked (x_db (rs_tc st)) (rs_sql st) (rs_args st).

(** The outcome of a computation, whatever it is. *)
Definition caught {A} (m : call A) : call (outcome A) := fun s => let '(r, s) := m s in (Done r, s).

Definition SQLExecutePermission (datasource : string) : string := "sql:execute@" +:+ datasource.

Section hatch.
Context (ev : environment) (es : escapes) `{GoStd} `{Unicode} `{RowSize}.

Definition authorizeSQL (tc : Context) (datasource : string) : outcome (Rbac.Decision * EscapeRoute) :=
  let permission := SQLExecutePermission datasource in
  match es_routes es !! datasource with
  | None => Refused ENotAuthorized
  | Some route =>
      if negb (HasPermission (policy (x_authorizer tc)) (x_role tc) permission) then Refused ENotAuthorized
      else Done (mkDecision true NoReason [] PNil ["permission:" +:+ permission] [], route)
  end.

Definition estimateSQL (tc : Context) (route : EscapeRoute) (sql : string) (args : list value) (query : bool) : outcome (option Plan) :=
  if negb (es_estimateRequired es) || (query && es_metadata es && isMetadataStatement sql) then Done None
  else match er_explainer route with
       | None => Refused (EUnestimable None)
       | Some explain =>
           match explain sql args with
           | inl err => Refused (EUnestimable (Some err))
           | inr plan =>
               let th := Tighten (er_threshold route) (x_tightening tc) in
               let dec := evaluatePlan true (smallTable plan th) None th in
               _ ← admitDecision tc dec;
               Done (D_Plan dec)
           end
       end.

(** ** The audit *)

Definition fill (tc : Context) (g : list string) (t : escapeTrace) (phase : string) (allowed : bool) : auditEvent :=
  mkEvent phase (x_role tc) g allowed (tr_datasource t) (tr_connection t) (tr_sql t) (tr_rowsAffected t) (tr_plan t).

Definition recordDurably (e : auditEvent) : call unit := fun s =>
  if es_durable es && ev_record ev (length (cs_audit s)) then
    (Done tt, mkCallState (cs_meter s) (cs_memory s) (cs_tracker s) (cs_cache s) (cs_dirty s) (cs_drift s) (cs_asked s)
                (cs_audit s ++ [(cs_calls s, e)]))
  else (Refused EAuditUnavailable, s).

Definition auditSQLBegin (tc : Context) (g : Rbac.Decision) (t : escapeTrace) : call unit :=
  recordDurably (fill tc (Grants g) t "begin" true).

(** ** Running it *)

Definition failRaw {A} (err : goErr) : call A :=
  let out :=
    if uncertain err then EOutcomeUnknown err
    else ERawDB (if errorsIs err StorePermissionDenied then ErrDatasourceForbidden
                 else if errorsIs err StoreStatementTimeout then ErrStatementTimeout else ErrDatabase) err in
  refuse (if endedTransaction err then ERolledBack out else out).

(** settle, of a raw statement. *)
Definition followRaw (tc : Context) : call unit := fun s =>
  let now := ev_now ev (cs_calls s) in
  let tr := RecordWrite now (ev_session ev) (x_datasource tc) (ev_window ev (x_datasource tc)) (cs_tracker s) in
  match databaseOf (wt_physical (ev_targets ev)) (x_datasource tc) with
  | Err err => (Refused (EOther err), with_followed tr (cs_cache s) (cs_dirty s) s)
  | Ok db =>
      let targets := [mkTarget db ""] in
      let tr := recordWrites now (ev_session ev) (ev_window ev) (ev_targets ev) ∅ targets tr in
      match invalidateIn targets (cs_cache s) with
      | Ok c => (Done tt, with_followed tr c (cs_dirty s) s)
      | Err err => (Refused (EOther err), with_followed tr (cs_cache s) (cs_dirty s) s)
      end
  end.

Definition settledRaw {A} (st : rawStatement) (body : call A) : call A := fun s =>
  let '(r, s) := body s in
  let '(f, s) := followRaw (rs_tc st) s in
  match r, f with
  | Refused e, _ => (Refused e, s)
  | Done _, Refused e => (Refused e, s)
  | Done a, Done _ => (Done a, s)
  end.

Definition admitRaw (st : rawStatement) : call unit :=
  if negb (Allowed (rs_grant st)) || bool_decide (rs_sql st = "") then refuse ENotAuthorized else mret tt.

(** retryStalePlan, of a raw statement: it runs in no transaction. *)
Definition retryRaw {A} (st : rawStatement) (f : nat -> asked -> goErr + A) : call (goErr + A) :=
  out ← ask ev f (askedRaw st);
  match out with
  | inl err => if bool_decide (x_transaction (rs_tc st) = "") && errorsIs err StoreStalePlan then ask ev f (askedRaw st) else mret out
  | inr _ => mret out
  end.

Definition execRaw (st : rawStatement) : call (Z * Z) :=
  _ ← admitRaw st;
  settledRaw st (out ← retryRaw st (ev_exec ev); match out with inl err => failRaw err | inr r => mret r end).

Record rawRows : Type := mkRawRows { rr_columns : list string; rr_rows : list (list value); rr_truncated : bool }.

(** addValues *)
Definition addValues (values : list value) : call counting :=
  m ← gets cs_meter;
  match m with
  | None => mret Counted
  | Some _ => match valuesSize values with None => refuse EEncoding | Some n => counts (addSized 1 n) end
  end.

Fixpoint readRaw (st : rawStatement) (columns : list string) (input : list (list value)) (err : option goErr) (rows : list (list value))
  : call rawRows :=
  match input with
  | [] => match err with Some err => failRaw err | None => mret (mkRawRows columns rows false) end
  | values :: input =>
      if (0 <? rs_rowCap st) && (rs_rowCap st <=? Z.of_nat (length rows)) then mret (mkRawRows columns rows true)
      else
        let values := finite <$> values in
        c ← addValues values;
        match c with
        | ResultCut => mret (mkRawRows columns rows true)
        | Exceeded => refuse EBudgetExceeded
        | Counted => readRaw st columns input err (rows ++ [values])
        end
  end.

Definition queryRaw (st : rawStatement) : call rawRows :=
  _ ← admitRaw st;
  settledRaw st (
    out ← retryRaw st (ev_query ev);
    match out with
    | inl err => failRaw err
    | inr a => match an_columns a with
               | inl err => failRaw err
               | inr columns => readRaw st columns (an_rows a) (an_err a) []
               end
    end).

(** ExecuteSQLTool.Run once the call began, with its trace. *)
Definition sqlBody (i : executeSQLInput) (tc : Context) : call (outcome Result * escapeTrace) :=
  let t := mkTrace (xi_datasource i) "" (xi_sql i) 0 None in
  match authorizeSQL tc (xi_datasource i) with
  | Refused e => mret (Refused e, t)
  | Done (g, route) =>
      let t := mkTrace (xi_datasource i) (er_connection route) (xi_sql i) 0 None in
      let tc := rerouted tc (xi_datasource i) (er_dialect route) (x_gate tc) (Some (er_db route)) (x_followsWrite tc) in
      let query := bool_decide (xi_mode i = "query") in
      match estimateSQL tc route (xi_sql i) (xi_args i) query with
      | Refused e => mret (Refused e, t)
      | Done plan =>
          let t := mkTrace (xi_datasource i) (er_connection route) (xi_sql i) 0 plan in
          let st := newRawStatement tc g (xi_sql i) (xi_args i) plan (negb query) in
          begun ← caught (auditSQLBegin tc g t);
          match begun with
          | Refused e => mret (Refused e, t)
          | Done _ =>
              if query then
                got ← caught (queryRaw st);
                mret (match got with
                      | Refused e => Refused e
                      | Done got => Done (mkResult
                          [{["columns"%string := VList (VString <$> rr_columns got); "rows"%string := VList (VList <$> rr_rows got);
                             "rowCount"%string := VInt KInt (Z.of_nat (length (rr_rows got)));
                             "truncated"%string := VBool (rr_truncated got)]}]
                          (Z.of_nat (length (rr_rows got))) 0 None (rr_truncated got))
                      end, t)
              else
                r ← caught (execRaw st);
                mret (match r with
                      | Refused e => (Refused e, t)
                      | Done r => (Done (oneRow {["rowsAffected"%string := int64 r.2]} false),
                                   mkTrace (tr_datasource t) (tr_connection t) (tr_sql t) r.2 (tr_plan t))
                      end)
          end
      end
  end.

(** tc.results = nil for a query. *)
Definition unmetered {A} (m : call A) : call A := fun s =>
  let '(r, s') := m (with_metered None (cs_memory s) s) in (r, with_metered (cs_meter s) (cs_memory s') s').

Definition runSQL (tc : Context) (i : executeSQLInput) : call (outcome Result * escapeTrace) :=
  match normalize i with
  | None => mret (Refused EInvalidInput, mkTrace "" "" "" 0 None)
  | Some i =>
      let query := bool_decide (xi_mode i = "query") in
      let body := beginCall tc query "" (sqlBody i) in
      if query then unmetered body else body
  end.

(** RunTool's end of a durably audited call: its record is written before its
    result is returned, which is withheld when the record fails. *)
Definition executeSQL (tc : Context) (i : executeSQLInput) : call Result :=
  '(r, t) ← runSQL tc i;
  recorded ← caught (recordDurably (fill tc [] t "end" (match r with Done _ => true | Refused _ => false end)));
  match r, recorded with
  | Refused e, _ => refuse e
  | Done _, Refused e => refuse e
  | Done res, Done _ => mret res
  end.

End hatch.


(** * The escape hatch is closed: what it takes for a statement to be sent, what
    is written before and after, and what follows it. *)

Set Default Proof Using "Type*".

(** ** Metadata statements *)

#[local] Instance asciiOnly : Unicode := {| letterPast _ := false; digitPast _ := false; upperPast r := r |}.

Definition nl : string := String (ascii_of_nat 10) "".

(** The statements the code's own table lists. *)
Example metadata_statements :
  map isMetadataStatement
    ["SHOW TABLES"; "  show index from orders;"; "-- list" +:+ nl +:+ "SHOW CREATE TABLE `a`"; "/* c */ # d" +:+ nl +:+ " DESCRIBE orders";
     "desc `order_1002`.`checkout`"; "DESCRIBE orders id"] = repeat true 6 /\
  map isMetadataStatement
    ["SHOW TABLES; DROP TABLE orders"; "SHOW TABLES LIKE 'a;b'"; "SHOWTABLES"; "SHOW"; "DESCRIBE ANALYZE SELECT * FROM big";
     "DESC SELECT * FROM big"; "desc format=json select 1"; "DESCRIBE FOR CONNECTION 7"; "SELECT 1"; "/* SHOW TABLES */ DELETE FROM t";
     "-- SHOW TABLES"; ""] = repeat false 12.
Proof. vm_compute. auto. Qed.

(** What follows a comment by SQL's rule: it closes with the first */ after
    the two characters that open it. *)
Definition afterOpened (sql : string) : option string := (fun t : text => of_bytes (concat t.*2)) <$> afterComment (drop 2 (textOf sql)).

(** The code looks for */ from the opening on, so that it takes /*/ for a
    whole comment: it calls a DELETE a metadata statement.  So does it call one
    inside a nested comment (PostgreSQL) or behind an executable one (MySQL). *)
Example metadata_false_yes :
  isMetadataStatement "/*/ SHOW TABLES /*/ DELETE FROM orders" = true /\
  afterOpened "/*/ SHOW TABLES /*/ DELETE FROM orders" = Some " DELETE FROM orders"%string /\
  isMetadataStatement "/* /* */ SHOW x */ DELETE FROM orders" = true /\
  isMetadataStatement "DESCRIBE /*!ANALYZE SELECT*/ sleep(100)" = true.
Proof. vm_compute. auto. Qed.

(** ** Raw statements *)

Section raw.
Context (ev : environment) (es : escapes) `{GoStd} `{Unicode} `{RowSize}.

(** What a call does between its statements and records. *)
Definition quiet (s s' : callState) : Prop :=
  cs_asked s' = cs_asked s /\ cs_audit s' = cs_audit s /\ cs_cache s' = cs_cache s /\ cs_tracker s' = cs_tracker s.

#[local] Instance quiet_preorder : PreOrder quiet.
Proof. split; unfold quiet; [done|]. intros ??? (? & ? & ? & ?) (? & ? & ? & ?). split_and!; congruence. Qed.

Lemma quiet_steps : steps quiet ev (fun _ => False).
Proof.
  split; [done| |by intros s r s' [= _ <-]]. intros k n s r s'. unfold counts. destruct (cs_meter s); [|by intros [= _ <-]].
  destruct (addSized _ _ _ _) as [[m r'] c]. by intros [= _ <-].
Qed.

Lemma quiet_failRaw {A} err : runs quiet (@failRaw A err).
Proof. unfold failRaw. apply runs_refuse, _. Qed.

Lemma quiet_readRaw st columns err : forall input rows, runs quiet (readRaw st columns input err rows).
Proof using ev H1.
  induction input as [|v input IH]; intros rows; cbn [readRaw].
  - destruct err; [apply quiet_failRaw|apply runs_ret, _].
  - destruct (_ && _); [apply runs_ret, _|]. apply runs_bind; [apply _| |].
    + unfold addValues. apply runs_bind; [apply _|apply runs_gets, _|]. intros [m|]; [|apply runs_ret, _].
      destruct (valuesSize _); [apply (steps_count _ _ _ quiet_steps)|apply runs_refuse, _].
    + intros []; [apply IH|apply runs_ret, _|apply runs_refuse, _].
Qed.

(** [q] was sent once, or twice when its first plan was stale. *)
Definition sentRaw (q : asked) (s s' : callState) : Prop := cs_asked s' = cs_asked s ++ [q] \/ cs_asked s' = cs_asked s ++ [q; q].

(** The reads of the session follow, and no cached read of the database is left. *)
Definition databaseFollowed (datasource : string) (s s' : callState) : Prop :=
  forall db, databaseOf (wt_physical (ev_targets ev)) datasource = Ok db ->
    (0 < ev_window ev datasource -> Recent (ev_now ev (cs_calls s')) (ev_session ev) datasource (cs_tracker s') = true) /\
    (keepsCache ev -> soundCache (cs_cache s) -> forall c k, cs_cache s' = Some c -> Cache.Database k = db -> c_m c !! k = None).

Lemma followRaw_spec tc s r s' : followRaw ev tc s = (r, s') ->
  cs_asked s' = cs_asked s /\ cs_audit s' = cs_audit s /\
  forall db, databaseOf (wt_physical (ev_targets ev)) (x_datasource tc) = Ok db ->
    (0 < ev_window ev (x_datasource tc) -> Recent (ev_now ev (cs_calls s')) (ev_session ev) (x_datasource tc) (cs_tracker s') = true) /\
    (soundCache (cs_cache s) -> forall c k, cs_cache s' = Some c -> Cache.Database k = db -> c_m c !! k = None).
Proof.
  unfold followRaw. destruct (databaseOf _ _) as [db|]; [|intros [= <- <-]; done].
  assert (0 < ev_window ev (x_datasource tc) -> Recent (ev_now ev (cs_calls s)) (ev_session ev) (x_datasource tc)
    (recordWrites (ev_now ev (cs_calls s)) (ev_session ev) (ev_window ev) (ev_targets ev) ∅ [mkTarget db ""]
       (RecordWrite (ev_now ev (cs_calls s)) (ev_session ev) (x_datasource tc) (ev_window ev (x_datasource tc)) (cs_tracker s))) = true) as Hrec
    by (intros Hw; apply recordWrites_keeps, Recent_record, Hw).
  destruct (invalidateIn _ _) as [c|] eqn:Ei; intros [= <- <-]; (split; [done|]); (split; [done|]); intros db' [= <-]; (split; [|intros Hs c' k Hc' Hdb]).
  - exact Hrec.
  - simpl in Hc'. subst c. unfold invalidateIn in Ei. destruct (cs_cache s) as [c0|]; [|done]. destruct (Hs c0 eq_refl) as [Hok Hwin].
    destruct (invalidate_spec [mkTarget db ""] c0 Hok Hwin) as (c1 & Hinv & _ & _ & Hall). rewrite Hinv in Ei. simpl in Ei. injection Ei as ->.
    destruct (Hall (mkTarget db "")) as [_ Hk]; [left|]. apply Hk. split; [done|]. by left.
  - exact Hrec.
  - simpl in Hc'. unfold invalidateIn in Ei. rewrite Hc' in Ei. destruct (Hs c' Hc') as [Hok Hwin].
    destruct (invalidate_spec [mkTarget db ""] c' Hok Hwin) as (c1 & Hinv & _). by rewrite Hinv in Ei.
Qed.

Lemma retryRaw_spec {A} st (f : nat -> asked -> goErr + A) s out s' : retryRaw ev st f s = (Done out, s') ->
  sentRaw (askedRaw st) s s' /\ cs_audit s' = cs_audit s /\ (keepsCache ev -> soundCache (cs_cache s) -> soundCache (cs_cache s')).
Proof.
  intros Hr. assert (forall n c, keepsCache ev -> soundCache c -> soundCache (ev_meanwhile ev n <$> c)) as Hm.
  { intros n c Hk Hc c' Hc'. apply fmap_Some in Hc' as (c0 & -> & ->). by apply Hk; apply Hc. }
  unfold retryRaw, ask, mbind, call_bind in Hr. simpl in Hr. destruct (f _ _); [destruct (bool_decide _ && _)|]; injection Hr as _ <-; unfold sentRaw; simpl;
    (split; [rewrite <- ?app_assoc; simpl; auto|split; [done|auto]]).
Qed.

Lemma retryRaw_done {A} st (f : nat -> asked -> goErr + A) s : exists out s', retryRaw ev st f s = (Done out, s').
Proof. unfold retryRaw, ask, mbind, call_bind. simpl. destruct (f _ _); [destruct (bool_decide _ && _)|]; eauto. Qed.

Lemma settledRaw_spec {A B} st (f : nat -> asked -> goErr + A) (k : goErr + A -> call B) s r s' :
  (forall a, runs quiet (k a)) -> settledRaw ev st (retryRaw ev st f ≫= k) s = (r, s') ->
  sentRaw (askedRaw st) s s' /\ cs_audit s' = cs_audit s /\ databaseFollowed (x_datasource (rs_tc st)) s s'.
Proof.
  intros Hk. unfold settledRaw. destruct (retryRaw_done st f s) as (out & s1 & Ho). unfold mbind at 1, call_bind at 1. rewrite Ho.
  destruct (k out s1) as [r2 s2] eqn:Ek. destruct (Hk _ _ _ _ Ek) as (Ha2 & Hl2 & Hc2 & _). destruct (retryRaw_spec _ _ _ _ _ Ho) as (Hsent & Hl1 & Hsound).
  destruct (followRaw ev (rs_tc st) s2) as [r3 s3] eqn:Ef. destruct (followRaw_spec _ _ _ _ Ef) as (Ha3 & Hl3 & Hdb). intros Hr.
  assert (s' = s3) as -> by (destruct r2, r3; by injection Hr). split; [unfold sentRaw in *; by rewrite Ha3, Ha2|]. split; [congruence|].
  intros db Hd. destruct (Hdb db Hd) as [Hrec Hdrop]. split; [done|]. intros Hkc Hs. apply Hdrop. rewrite Hc2. auto.
Qed.

(** A raw statement that was admitted. *)
Definition ranRaw (st : rawStatement) (s s' : callState) : Prop :=
  sentRaw (askedRaw st) s s' /\ cs_audit s' = cs_audit s /\ databaseFollowed (x_datasource (rs_tc st)) s s'.

Lemma admitted_inv {A} st (m : call A) s r s' :
  (_ ← admitRaw st; m) s = (r, s') -> s' = s /\ (exists e, r = Refused e) \/ m s = (r, s').
Proof. unfold admitRaw, mbind, call_bind. destruct (_ || _); [intros [= <- <-]; left; eauto|auto]. Qed.

Lemma execRaw_ran st s r s' : execRaw ev st s = (r, s') -> s' = s /\ (exists e, r = Refused e) \/ ranRaw st s s'.
Proof.
  intros He. apply admitted_inv in He as [?|He]; [by left|]. right. eapply settledRaw_spec; [|exact He].
  intros [err|a]; [apply quiet_failRaw|apply runs_ret, _].
Qed.

Lemma queryRaw_ran st s r s' : queryRaw ev st s = (r, s') -> s' = s /\ (exists e, r = Refused e) \/ ranRaw st s s'.
Proof.
  intros He. apply admitted_inv in He as [?|He]; [by left|]. right. eapply settledRaw_spec; [|exact He].
  intros [err|a]; [apply quiet_failRaw|]. destruct (an_columns a); [apply quiet_failRaw|apply quiet_readRaw].
Qed.

(** ** The call *)

(** What the cost gate says of a statement: not asked, or its plan within the
    thresholds and the caller's budget. *)
Definition estimateAdmits (tc : Context) (route : EscapeRoute) (i : executeSQLInput) : Prop :=
  es_estimateRequired es = false \/
  (xi_mode i = "query" /\ es_metadata es = true /\ isMetadataStatement (xi_sql i) = true) \/
  exists explain plan d, er_explainer route = Some explain /\ explain (xi_sql i) (xi_args i) = inr plan /\
    d = (let th := Tighten (er_threshold route) (x_tightening tc) in evaluatePlan true (smallTable plan th) None th) /\
    Allow d = true /\ overScannedBudget tc (D_Plan d) = false.

(** The record of a call in a phase. *)
Definition recordOf (tc : Context) (i : executeSQLInput) (phase : string) (e : auditEvent) : Prop :=
  ae_phase e = phase /\ ae_role e = x_role tc /\ ae_datasource e = xi_datasource i /\ ae_sql e = xi_sql i.

(** A statement sent, and what it takes: the datasource admits it, the caller
    holds the permission, the gate admits it, and a record of it was written
    before it. *)
Record sentHatch (tc : Context) (i : executeSQLInput) (route : EscapeRoute) (s s' : callState) : Prop := {
  sh_admitted : es_routes es !! xi_datasource i = Some route;
  sh_permitted : HasPermission (policy (x_authorizer tc)) (x_role tc) (SQLExecutePermission (xi_datasource i)) = true;
  sh_estimated : estimateAdmits tc route i;
  sh_sent : sentRaw (mkAsked (Some (er_db route)) (xi_sql i) (xi_args i)) s s';
  sh_recorded : exists e, cs_audit s' = cs_audit s ++ [(cs_calls s, e)] /\ recordOf tc i "begin" e;
  sh_followed : databaseFollowed (xi_datasource i) s s';
}.

Lemma recordDurably_inv e s r s' : recordDurably ev es e s = (r, s') ->
  (r = Done tt /\ cs_asked s' = cs_asked s /\ cs_cache s' = cs_cache s /\ cs_tracker s' = cs_tracker s /\ cs_meter s' = cs_meter s /\
     cs_audit s' = cs_audit s ++ [(cs_calls s, e)]) \/ (s' = s /\ exists x, r = Refused x).
Proof. unfold recordDurably. destruct (_ && _); intros [= <- <-]; [left|right]; eauto 8. Qed.

Lemma estimateSQL_done tc route i plan :
  xi_mode i = "query" \/ xi_mode i = "exec" ->
  estimateSQL es tc route (xi_sql i) (xi_args i) (bool_decide (xi_mode i = "query")) = Done plan -> estimateAdmits tc route i.
Proof.
  unfold estimateSQL, estimateAdmits. intros Hmode. destruct (es_estimateRequired es); simpl; [|by left].
  destruct (bool_decide (xi_mode i = "query") && es_metadata es && isMetadataStatement (xi_sql i)) eqn:Em.
  - intros _. right. left. rewrite !andb_true_iff, bool_decide_eq_true in Em. tauto.
  - destruct (er_explainer route) as [explain|]; [|done]. destruct (explain _ _) as [err|p] eqn:Ee; [done|]. intros Hd.
    apply outcome_bind_done in Hd as ([] & Ha & _). right. right. eexists explain, p, _. split; [done|]. split; [done|]. split; [reflexivity|].
    cbv zeta. unfold admitDecision in Ha. destruct (Allow _); [|done]. simpl in Ha. by destruct (overScannedBudget _ _).
Qed.

Lemma caught_inv {A} (m : call A) s o s' : caught m s = (o, s') -> exists r, o = Done r /\ m s = (r, s').
Proof. unfold caught. destruct (m s) as [r s1]. intros [= <- <-]. eauto. Qed.

(** Once the record is written, running the statement. *)
Lemma ran_hatch tc i route g plan ex e s0 s1 s' :
  es_routes es !! xi_datasource i = Some route ->
  HasPermission (policy (x_authorizer tc)) (x_role tc) (SQLExecutePermission (xi_datasource i)) = true ->
  estimateAdmits tc route i -> recordOf tc i "begin" e ->
  cs_asked s1 = cs_asked s0 -> cs_cache s1 = cs_cache s0 -> cs_audit s1 = cs_audit s0 ++ [(cs_calls s0, e)] ->
  let tc' := rerouted tc (xi_datasource i) (er_dialect route) (x_gate tc) (Some (er_db route)) (x_followsWrite tc) in
  ranRaw (newRawStatement tc' g (xi_sql i) (xi_args i) plan ex) s1 s' -> sentHatch tc i route s0 s'.
Proof.
  intros Hr Hp He Hrec Ha Hc Hl tc' (Hs & Hau & Hf). split; try done.
  - unfold sentRaw in *. by rewrite Ha in Hs.
  - exists e. by rewrite Hau, Hl.
  - intros db Hdb. destruct (Hf db Hdb) as [Hrecent Hdrop]. split; [done|]. by rewrite Hc in Hdrop.
Qed.

(** The body: nothing sent, or a statement and its record. *)
Lemma sqlBody_sent i tc s r s' :
  xi_mode i = "query" \/ xi_mode i = "exec" -> sqlBody ev es i tc s = (r, s') ->
  exists o t, r = Done (o, t) /\ tr_datasource t = xi_datasource i /\ tr_sql t = xi_sql i /\
    ((exists e, o = Refused e) /\ cs_asked s' = cs_asked s \/ exists route, sentHatch tc i route s s').
Proof.
  intros Hmode. unfold sqlBody, authorizeSQL.
  assert (forall e t s1, cs_asked s1 = cs_asked s -> tr_datasource t = xi_datasource i -> tr_sql t = xi_sql i -> exists o t',
    @Done (outcome Result * escapeTrace) (Refused e, t) = Done (o, t') /\ tr_datasource t' = xi_datasource i /\ tr_sql t' = xi_sql i /\
    ((exists e, o = Refused e) /\ cs_asked s1 = cs_asked s \/ exists route, sentHatch tc i route s s1)) as Hrefused.
  { intros e t s1 Hs1 Hd Hq. exists (Refused e), t. split_and!; try done. left. eauto. }
  destruct (es_routes es !! xi_datasource i) as [route|] eqn:Er; [|intros [= <- <-]; by apply Hrefused].
  destruct (HasPermission _ _ _) eqn:Ep; simpl; [|intros [= <- <-]; by apply Hrefused].
  set (tc' := rerouted _ _ _ _ _ _). set (g := mkDecision _ _ _ _ _ _). destruct (estimateSQL es tc' _ _ _ _) as [plan|e] eqn:Ee; [|intros [= <- <-]; by apply Hrefused].
  assert (estimateAdmits tc route i) as Hest by (exact (estimateSQL_done tc' _ _ _ Hmode Ee)). intros Hb.
  apply call_bind_inv in Hb as [(e & Hc & _)|(o & s1 & Hc & Hb)]; apply caught_inv in Hc as (b & Heq & Hbegin); [done|]. injection Heq as ->.
  apply recordDurably_inv in Hbegin as [(-> & Ha & Hca & _ & _ & Hl)|(-> & x & ->)]; [|injection Hb as <- <-; by apply Hrefused].
  match type of Hl with _ = _ ++ [(_, ?e)] => assert (recordOf tc i "begin" e) as Hrec by done end.
  pose proof (fun plan' ex s2 => ran_hatch tc i route g plan' ex _ s s1 s2 Er Ep Hest Hrec Ha Hca Hl) as Hran.
  case_bool_decide.
  - apply call_bind_inv in Hb as [(e & Hc & _)|(o & s2 & Hc & Hb)]; apply caught_inv in Hc as (got & Heq & Hq); [done|]. injection Heq as ->.
    injection Hb as <- <-. eexists _, _. split; [reflexivity|]. split; [done|]. split; [done|].
    apply queryRaw_ran in Hq as [(-> & e & ->)|Hq]; [left; eauto|right; eexists; by eapply Hran].
  - apply call_bind_inv in Hb as [(e & Hc & _)|(o & s2 & Hc & Hb)]; apply caught_inv in Hc as (got & Heq & Hq); [done|]. injection Heq as ->.
    injection Hb as <- <-. destruct got as [res|e]; eexists _, _; (split; [reflexivity|]); (split; [done|]); (split; [done|]).
    + apply execRaw_ran in Hq as [(_ & e & [=])|Hq]. right. eexists. by eapply Hran.
    + apply execRaw_ran in Hq as [(-> & _)|Hq]; [left; eauto|right; eexists; by eapply Hran].
Qed.

Lemma sentHatch_quiet tc i route s s0 s1 s' :
  quiet s s0 -> quiet s1 s' -> sentHatch (in_transaction tc "") i route s0 s1 -> sentHatch tc i route s s'.
Proof.
  intros (Ha & Hl & Hc & Ht) (Ha' & Hl' & Hc' & Ht') [H1' H2' H3' H4' (e & H5' & H5) H6']. split; try done.
  - unfold sentRaw in *. by rewrite Ha', <- Ha.
  - exists e. unfold cs_calls in *. by rewrite Hl', <- Hl, <- Ha.
  - intros db Hdb. destruct (H6' db Hdb) as [Hr Hd]. unfold cs_calls in *. rewrite Ha', Ht', Hc'. rewrite Hc in Hd. done.
Qed.

Lemma metering_quiet {A} tc ro (body : call A) s r s' :
  metering tc ro body s = (r, s') -> exists s0 s1, body s0 = (r, s1) /\ quiet s s0 /\ quiet s1 s'.
Proof.
  unfold metering. destruct (cs_meter s); [intros Hb; exists s, s'; by split_and!|]. destruct (body _) as [r1 s1] eqn:Hb.
  intros [= <- <-]. eexists _, s1. split; [exact Hb|]. split; [done|]. unfold endMetering. destruct (cs_meter s1); [|done].
  destruct (endMeter _) as [m []]; [by destruct (closeMeter m)|done].
Qed.

Lemma normalize_mode i i' : normalize i = Some i' -> xi_mode i' = "query" \/ xi_mode i' = "exec".
Proof.
  unfold normalize. destruct (_ || _) eqn:E; [done|]. intros [= <-]. simpl. apply orb_false_iff in E as [_ E].
  apply negb_false_iff, bool_decide_eq_true in E. set_solver.
Qed.

Lemma runSQL_sent tc i s r s' : runSQL ev es tc i s = (r, s') ->
  exists o t, r = Done (o, t) /\
    ((exists e, o = Refused e) /\ cs_asked s' = cs_asked s \/
     exists i' route, normalize i = Some i' /\ tr_datasource t = xi_datasource i' /\ tr_sql t = xi_sql i' /\ sentHatch tc i' route s s').
Proof.
  unfold runSQL. destruct (normalize i) as [i'|] eqn:En; [|intros [= <- <-]; eexists _, _; split; [reflexivity|]; left; eauto].
  intros Hr. assert (exists s0 s1, sqlBody ev es i' (in_transaction tc "") s0 = (r, s1) /\ quiet s s0 /\ quiet s1 s') as (s0 & s1 & Hb & Hq & Hq').
  { unfold beginCall, unmetered in Hr. case_bool_decide; [|by apply metering_quiet in Hr].
    destruct (metering _ _ _ _) as [r1 s2] eqn:Hm. injection Hr as <- <-. apply metering_quiet in Hm as (s0 & s1 & Hb & Hq & Hq').
    exists s0, s1. split; [done|]. split; [exact Hq|]. exact Hq'. }
  apply sqlBody_sent in Hb as (o & t & -> & Hd & Hs & [[He Ha]|[route Hsent]]); [| |by eapply normalize_mode]; exists o, t; (split; [done|]).
  - left. split; [done|]. destruct Hq as [Hq _], Hq' as [Hq' _]. congruence.
  - right. exists i', route. split; [done|]. split; [done|]. split; [done|]. by eapply sentHatch_quiet.
Qed.


End raw.

(** ** A trusted user *)

#[local] Existing Instances asciiStd tenBytes.

Definition trusted : Context :=
  mkContext peopleRegistry
    (@NewGrantAuthorizer asciiStd peopleRegistry (mkPolicy ∅ ∅ {["root"%string := mkPrincipal [] ∅ ["sql:execute@crm"%string]]}))
    "root" ∅ ∅ mysql None (Some 0%nat) noTightening "" (fun _ => None) (fun _ => false) (mkLimits 1 0 0 0 0 0 0 0 0 0) 0 0 0 None 0 "" false.

Definition hatch : escapes :=
  mkEscapes {["crm"%string := mkRoute "crm-escape" 7 mysql (Some (fun _ _ => inr (zeroPlan ScanIndex true))) (zeroThreshold)]} true true true.

Definition hatchEnv : environment :=
  mkEnv (fun n => 100 + Z.of_nat n) "s1" (fun _ => 5) (mkTargets ∅ ∅ ∅) None
    (fun _ _ => inr (mkAnswer (inr ["n"%string]) [[VInt KInt64 1]; [VInt KInt64 2]] None)) (fun _ _ => inl []) (fun _ c => c) (fun _ => true).

Definition countQuery : executeSQLInput := mkSQLInput "crm" " SELECT n FROM t " [] "".

Definition demoHatch : outcome Result * callState := executeSQL hatchEnv hatch trusted countQuery shopCall.

Lemma demoHatch_runs :
  match demoHatch with
  | (Done res, s') => r_truncated res = true /\ cs_asked s' = [mkAsked (Some 7%nat) "SELECT n FROM t" []] /\
      map (fun ne => (ne.1, ae_phase ne.2, ae_sql ne.2)) (cs_audit s') =
        [(0%nat, "begin"%string, "SELECT n FROM t"%string); (1%nat, "end"%string, "SELECT n FROM t"%string)]
  | _ => False
  end.
Proof. vm_compute. auto. Qed.

