(* ===== verification/Aggregate.v ===== *)
(** Aggregates: core/tool/tools_aggregate_impl.go, with AggregateTool.Run
    (tools_aggregate.go) on decoded input.

    The hints added to a refused plan are left out. *)

From S2P Require Import Prelude GoString Value Relalg Entity Numbers WriteCheck Dialect Codegen Cost Transaction Cache Invalidation Rbac FieldUses Order Filter Mask Pipeline Related ReadTool Results RunStatement RunRead.

Record aggJSON : Type := mkAggJSON { ag_func : string; ag_field : string; ag_distinct : bool }.

Record aggregateInput : Type := mkAggregate {
  gi_entity : string;
  gi_transaction : string;
  gi_groupBy : list string;
  gi_aggregates : list aggJSON;
  gi_filter : list condJSON;
  gi_having : list condJSON;
  gi_orderBy : list orderJSON;
  gi_limit : Z;
}.

Record aggregatePlan : Type := mkAggPlan {
  ap_res : Resolved;
  ap_tc : Context;
  ap_full : Predicate;
  ap_rel : related;
  ap_grant : Rbac.Decision;
}.

(** relalg.AggFunc of a name *)
Definition AggFunc_of_string (s : string) : AggFunc :=
  if decide (s = "count") then AggCount else if decide (s = "sum") then AggSum else if decide (s = "avg") then AggAvg
  else if decide (s = "min") then AggMin else if decide (s = "max") then AggMax else AggOther s.

Definition aggregateFieldNames (i : aggregateInput) : list string :=
  filterFields (gi_filter i) ++ gi_groupBy i
  ++ List.filter (fun f => negb (bool_decide (f = ""))) (ag_field <$> gi_aggregates i).

Definition aggregateColumn (a : aggJSON) : string :=
  if bool_decide (ag_field a = "") then ag_func a
  else if ag_distinct a then ag_func a +:+ "_distinct_" +:+ ag_field a
  else ag_func a +:+ "_" +:+ ag_field a.

(** One aggregate, after the names [taken]. *)
Definition aggregateCall (groupBy taken : list string) (a : aggJSON) : option AggCall :=
  let f := AggFunc_of_string (ag_func a) in
  let name := aggregateColumn a in
  let count := bool_decide (ag_func a = "count") in
  if negb (AggFunc_Valid f) then None
  else if bool_decide (ag_field a = "") && negb count then None
  else if ag_distinct a && (negb count || bool_decide (ag_field a = "")) then None
  else if bool_decide (name ∈ groupBy) || bool_decide (name ∈ taken) then None
  else Some (mkAgg f (ag_field a) (ag_distinct a) name).

Fixpoint aggregateLoop (groupBy : list string) (aggregates : list aggJSON) (calls : list AggCall) : option (list AggCall) :=
  match aggregates with
  | [] => Some calls
  | a :: aggregates => c ← aggregateCall groupBy (AggName <$> calls) a; aggregateLoop groupBy aggregates (calls ++ [c])
  end.

Definition aggregateCalls (aggregates : list aggJSON) (groupBy : list string) : option (list AggCall * list string) :=
  if bool_decide (aggregates = []) && bool_decide (groupBy = []) then None
  else calls ← aggregateLoop groupBy aggregates []; Some (calls, groupBy ++ (AggName <$> calls)).

Definition resultNullable (res : Resolved) (calls : list AggCall) (name : string) : bool :=
  match List.find (fun c => bool_decide (AggName c = name)) calls with
  | Some c => negb (bool_decide (AggFn c = AggCount))
  | None => match AttributeByName (REntity res) name with Some a => DNullable (ADomain a) | None => true end
  end.

Section aggregate.
Context `{GoStd} `{CostStd}.

Definition prepareAggregate (tc : Context) (i : aggregateInput) : outcome aggregatePlan :=
  '(ep, pred) ← planEntity tc (gi_entity i) ActionAggregate (gi_filter i);
  let '(res, tc) := (p_res ep, p_tc ep) in
  let '(own, paths) := splitPaths (REntity res) (aggregateFieldNames i) in
  if existsb (fun a => bool_decide (is_Some (pathOf (REntity res) (ag_field a)))) (gi_aggregates i) then Refused EInvalidInput
  else
    '(rel, pred, locals) ← relate tc res pred paths;
    let fields := own ++ locals in
    _ ← lift (check_uses (mkUses [] fields []) res);
    g ← authorizeRequest tc (mkRequest (x_role tc) (gi_entity i) ActionAggregate [] fields [] (x_subject tc) pred);
    Done (mkAggPlan res tc (andPreds pred (RowFilter g)) rel g).

(** The order term of a result column. *)
Definition aggregateTerm (res : Resolved) (calls : list AggCall) (columns : list string) (rename : gmap string string) (t : orderJSON)
  : option OrderTerm :=
  let dir := lower unicode_lower (if bool_decide (ODir t = "") then "asc"%string else ODir t) in
  if negb (bool_decide (dir = "asc") || bool_decide (dir = "desc")) || negb (bool_decide (OField t ∈ columns)) then None
  else let field := related_field rename (OField t) in Some (mkTerm field dir (resultNullable res calls field)).

Definition aggregateShape (res : Resolved) (i : aggregateInput) (agg : Expr) (calls : list AggCall) (columns : list string)
    (rename : gmap string string) (maxConds : Z) : outcome Expr :=
  having ← lift (filterToPredicate (gi_having i) maxConds);
  if HasExists having then Refused EInvalidInput
  else if negb (forallb (fun f => bool_decide (f ∈ columns)) (Fields having)) then Refused EInvalidInput
  else
    let expr := if is_pnil having then agg else EHaving agg (renamed rename having) in
    if (maxOrderTerms <? length (gi_orderBy i))%nat then Refused EInvalidInput
    else match mapM (aggregateTerm res calls columns rename) (gi_orderBy i) with
         | None => Refused EInvalidInput
         | Some terms =>
             let expr := match terms with [] => expr | _ => ESort expr terms end in
             if gi_limit i <? 0 then Refused EInvalidInput
             else Done (if 0 <? gi_limit i then ELimit expr (gi_limit i) 0 else expr)
         end.

(** The columns grouped by, and how the expression names what the result
    does; a column an aggregate is named like is refused. *)
Definition groupColumns (plan : aggregatePlan) (i : aggregateInput) (calls : list AggCall) : option (list string * gmap string string) :=
  let column g := related_field (rel_rename (ap_rel plan)) (columnOf (REntity (ap_res plan)) g) in
  let groupBy := column <$> gi_groupBy i in
  if existsb (fun g => existsb (fun c => bool_decide (AggName c = g)) calls) groupBy then None
  else Some (groupBy, fold_left (fun m g => <[g := column g]> m) (gi_groupBy i) ∅).

Definition aggregateScan (plan : aggregatePlan) : Expr :=
  let expr := wrap (ap_rel plan) (EScan (Entity.Ref (REntity (ap_res plan))) "") in
  if is_pnil (ap_full plan) then expr else ESelect expr (ap_full plan).

Definition aggregateExpression (plan : aggregatePlan) (i : aggregateInput) : outcome (Expr * list string) :=
  let res := ap_res plan in
  match aggregateCalls (gi_aggregates i) (gi_groupBy i) with
  | None => Refused EInvalidInput
  | Some (calls, columns) =>
      match groupColumns plan i calls with
      | None => Refused EInvalidInput
      | Some (groupBy, rename) =>
          let calls := (fun c => mkAgg (AggFn c) (columnOf (REntity res) (AggField c)) (AggDistinct c) (AggName c)) <$> calls in
          expr ← aggregateShape res i (EAggregate (aggregateScan plan) groupBy calls) calls columns rename
                   (lim_maxFilterConditions (x_limits (ap_tc plan)));
          Done (expr, columns)
      end
  end.

Definition compileAggregate (plan : aggregatePlan) (i : aggregateInput) : outcome statement :=
  let '(tc, res) := (ap_tc plan, ap_res plan) in
  '(expr, columns) ← aggregateExpression plan i;
  c ← compile tc (REntity res) expr None;
  '(sql, estimate) ← gateSQL tc c;
  Done (mkStatement_ tc res (ap_grant plan) sql estimate None None columns 0 false).

Context (ev : environment) `{RowSize}.

Definition aggregateWithLimit (i : aggregateInput) (limit : Z) : aggregateInput :=
  mkAggregate (gi_entity i) (gi_transaction i) (gi_groupBy i) (gi_aggregates i) (gi_filter i) (gi_having i) (gi_orderBy i) limit.

Definition planAggregate (tc : Context) (i : aggregateInput) : outcome (aggregateInput * aggregatePlan * statement * bool) :=
  let '(limit, capped) := capLimit tc (gi_limit i) in
  let i := aggregateWithLimit i limit in
  plan ← prepareAggregate tc i;
  st ← compileAggregate plan i;
  Done (i, plan, st, capped).

Definition aggregateBody (i : aggregateInput) (tc : Context) : call Result :=
  '(i, plan, st, capped) ← lifted (planAggregate tc i);
  got ← query ev st;
  let n := Z.of_nat (length (q_rows got)) in
  mret (mkResult (q_rows got) n (estimatedRows st) None (capped && (gi_limit i <=? n))).

Definition runAggregate (tc : Context) (i : aggregateInput) : call Result := beginCall tc true (gi_transaction i) (aggregateBody i).

Definition aggregateTool (tc : Context) (i : aggregateInput) : call Result :=
  let lim := x_limits tc in
  if (0 <? lim_maxGroupByFields lim) && (lim_maxGroupByFields lim <? Z.of_nat (length (gi_groupBy i))) then refuse EInvalidInput
  else if (0 <? lim_maxAggregates lim) && (lim_maxAggregates lim <? Z.of_nat (length (gi_aggregates i))) then refuse EInvalidInput
  else runAggregate tc i.

End aggregate.
