(* ===== verification/Procedure.v ===== *)
(** Procedures: core/tool/tools_execute_impl.go, with the tools of
    tools_execute.go on decoded input and the names of their tools. *)

From stdpp Require Import sorting.
From S2P Require Import Prelude GoString Value Relalg Entity Numbers WriteCheck Dialect Codegen Cost Transaction Cache Invalidation Rbac FieldUses Order Filter Mask Pipeline WriteTools Results RunStatement RunRead.

Record executeInput : Type := mkExecute { xe_entity : string; xe_args : list (string * value); xe_transaction : string }.

(** orderedProcArgs; the arguments are a JSON object's members. *)
Definition orderedProcArgs (params : list string) (args : list (string * value)) : option (list value) :=
  match params with
  | [] => match args with [] => Some [] | _ => None end
  | _ =>
      if negb (forallb (fun kv => bool_decide (kv.1 ∈ params)) args) then None
      else mapM (fun p => snd <$> List.find (fun kv => String.eqb kv.1 p) args) params
  end.

Definition allowedProcedureFields (res : Resolved) (g : Rbac.Decision) : gset string :=
  fold_left (fun fields f => match AttributeByName (REntity res) f with
                             | Some a => if AExcluded a then fields
                                         else (if bool_decide (AAlias a = "") then {[AName a]} else {[AName a; AAlias a]}) ∪ fields
                             | None => fields
                             end) (DFields g) ∅.

Section execute.
Context `{GoStd} `{CostStd}.

Definition prepareExecute (tc : Context) (i : executeInput) (requireDMLTools : bool) : outcome (Resolved * Context * Rbac.Decision) :=
  match Entity.Resolve (x_registry tc) (xe_entity i) with
  | None => Refused EEntityNotFound
  | Some res =>
      let e := REntity res in
      if requireDMLTools && negb (DMLTools (EMCP e)) then Refused EDMLToolsDisabled
      else if negb (bool_decide (EKind e = KindProcedure)) then Refused EInvalidInput
      else if negb (TrustedProcedure (EMCP e)) then Refused ENotAuthorized
      else
        tc ← routeEntity tc e ActionExecute;
        g ← authorizeRequest tc (mkRequest (x_role tc) (xe_entity i) ActionExecute [] [] [] (x_subject tc) PNil);
        Done (res, tc, g)
  end.

Definition compileExecute (tc : Context) (res : Resolved) (i : executeInput) : outcome (Statement * option Plan) :=
  match orderedProcArgs (EParams (REntity res)) (xe_args i) with
  | None => Refused EInvalidInput
  | Some args => c ← compile tc (REntity res) (ECall (Entity.Ref (REntity res)) args) None; gateSQL tc c
  end.

(** runExecute up to the statement. *)
Definition planExecute (tc : Context) (i : executeInput) (requireDMLTools : bool) : outcome statement :=
  '(res, tc, g) ← prepareExecute tc i requireDMLTools;
  '(sql, estimate) ← compileExecute tc res i;
  Done (mkStatement_ tc res g sql estimate (Some (allowedProcedureFields res g)) None [] (lim_maxProcedureRows (x_limits tc)) true).

Context (ev : environment) `{RowSize}.

Definition executeBody (i : executeInput) (requireDMLTools : bool) (tc : Context) : call Result :=
  st ← lifted (planExecute tc i requireDMLTools);
  got ← query ev st;
  mret (mkResult (q_rows got) (Z.of_nat (length (q_rows got))) 0 None (q_truncated got)).

Definition runExecute (tc : Context) (i : executeInput) (requireDMLTools : bool) : call Result :=
  beginCall tc false (xe_transaction i) (executeBody i requireDMLTools).

Definition executeTool (tc : Context) (i : executeInput) : call Result := runExecute tc i true.

(** A procedure's own tool, of the entity [e]. *)
Definition procedureTool (e : Entity) (tc : Context) (args : list (string * value)) : call Result :=
  runExecute tc (mkExecute (EName e) args "") false.

End execute.

(** ** The names of procedure tools *)

(** A rune a tool name may hold. *)
Definition nameRune (r : Z) : bool := inb 97 122 r || inb 65 90 r || inb 48 57 r || (r =? 95) || (r =? 45).

Definition procedureToolBase (e : Entity) : string :=
  let local := if bool_decide (ELocal e = "") then EName e else ELocal e in
  let base := of_bytes (map (fun r => if nameRune r then r else 95) (runes local)) in
  let base := if bool_decide (base = "") then "procedure"%string else base in
  "procedure_" +:+ str_take 100 base.

Section names.
(** hex.EncodeToString(sha256.Sum256(name)[:4]) *)
Context (nameHash : string -> string).

Definition exposed (e : Entity) : bool := CustomTool (EMCP e) && TrustedProcedure (EMCP e).

(** The tools of the registry's procedures, in order. *)
Definition ProcedureTools (procedures : list Entity) : list (string * Entity) :=
  let out := List.filter exposed procedures in
  let bases := procedureToolBase <$> out in
  (fun e => let base := procedureToolBase e in
            (if (1 <? length (List.filter (fun b => bool_decide (b = base)) bases))%nat then base +:+ "_" +:+ nameHash (EName e) else base, e)) <$> out.

Definition FindProcedureTool (procedures : list Entity) (name : string) : option Entity :=
  if negb (prefix_of "procedure_" name) then None
  else snd <$> List.find (fun t => String.eqb t.1 name) (ProcedureTools procedures).

End names.
