(* ===== verification/AggregateTheorems.v ===== *)
(** Aggregates and procedures are governed: what an aggregate computes it
    computes from rows in the caller's scope, and a procedure called is one the
    caller may execute, its arguments in their declared places. *)

From S2P Require Import Prelude GoString Value Relalg Interp InterpFacts InterpTheorems Entity EntityFacts Numbers WriteCheck Dialect Codegen Cost CostTheorems Transaction Cache Invalidation Rbac RbacTheorems FieldUses Order Filter Mask Pipeline PipelineFacts Related ReadTool ReadTheorems Results RunStatement RunRead Aggregate Procedure.

Set Default Proof Using "Type*".

(** ** The names of the result *)

Lemma aggregateLoop_names groupBy aggregates : forall calls out,
  aggregateLoop groupBy aggregates calls = Some out ->
  NoDup (AggName <$> calls) -> (forall c, c ∈ calls -> AggName c ∉ groupBy) ->
  NoDup (AggName <$> out) /\ (forall c, c ∈ out -> AggName c ∉ groupBy) /\ length out = (length calls + length aggregates)%nat.
Proof.
  induction aggregates as [|a aggregates IH]; intros calls out Hl Hnd Hg; simpl in Hl.
  { injection Hl as <-. split_and!; [done|done|simpl; lia]. }
  destruct (aggregateCall groupBy (AggName <$> calls) a) as [c|] eqn:Ec; [|done]. simpl in Hl.
  assert (AggName c ∉ groupBy /\ AggName c ∉ AggName <$> calls) as [H1 H2].
  { unfold aggregateCall in Ec. destruct (negb _); [done|]. destruct (_ && negb _); [done|]. destruct (ag_distinct a && _); [done|].
    destruct (_ || _) eqn:E; [done|]. injection Ec as <-. simpl. apply orb_false_iff in E as [E1 E2]. by rewrite bool_decide_eq_false in E1, E2. }
  destruct (IH _ _ Hl) as (? & ? & Hlen).
  - rewrite fmap_app. apply NoDup_app. split; [done|]. split; [|apply NoDup_singleton]. intros x Hx Hin. apply list_elem_of_singleton in Hin as ->. done.
  - intros c' Hc'. apply elem_of_app in Hc' as [Hc'|Hc']; [auto|]. apply list_elem_of_singleton in Hc' as ->. done.
  - split_and!; [done..|]. rewrite Hlen, length_app. simpl. lia.
Qed.

(** The calls an aggregate makes, as it names them. *)
Definition askedCall (column : string -> string) (a : aggJSON) : AggCall :=
  mkAgg (AggFunc_of_string (ag_func a)) (column (ag_field a)) (ag_distinct a) (aggregateColumn a).

Lemma aggregateLoop_calls groupBy aggregates : forall calls out,
  aggregateLoop groupBy aggregates calls = Some out -> out = calls ++ (askedCall id <$> aggregates).
Proof.
  induction aggregates as [|a aggregates IH]; intros calls out Hl; simpl in Hl.
  { injection Hl as <-. by rewrite app_nil_r. }
  destruct (aggregateCall groupBy (AggName <$> calls) a) as [c|] eqn:Ec; [|done]. simpl in Hl.
  rewrite (IH _ _ Hl), <- app_assoc. f_equal. simpl. f_equal. unfold aggregateCall in Ec.
  destruct (negb _); [done|]. destruct (_ && negb _); [done|]. destruct (ag_distinct a && _); [done|].
  destruct (_ || _); [done|]. by injection Ec as <-.
Qed.

(** ** What an aggregate computes *)

Section governed.
Context `{GoStd} `{CostStd}.

(** The plan of an aggregate, as a read's. *)
Definition asRead (plan : aggregatePlan) : readPlan :=
  mkReadPlan (ap_res plan) (ap_tc plan) [] (ap_full plan) [] (mkOrder [] false []) (ap_rel plan) (ap_grant plan).

(** What the plan says of its request. *)
Record plannedAggregate (tc : Context) (i : aggregateInput) (plan : aggregatePlan) : Prop := {
  pa_resolved : Entity.Resolve (x_registry tc) (gi_entity i) = Some (ap_res plan);
  pa_served : DMLTools (EMCP (REntity (ap_res plan))) = true /\ EUnavailable (REntity (ap_res plan)) = "";
  pa_allowed : exists reads pred, ap_grant plan = authorize (x_authorizer tc)
      (mkRequest (x_role tc) (gi_entity i) ActionAggregate [] reads [] (x_subject tc) pred) /\ Allowed (ap_grant plan) = true /\
      (forall f, f ∈ aggregateFieldNames i -> pathOf (REntity (ap_res plan)) f = None -> f ∈ reads) /\
      (forall f a, f ∈ reads -> a ∈ RAttributes (ap_res plan) -> named a f = true -> AMask a = "");
  pa_aggregated : forall a, a ∈ gi_aggregates i -> pathOf (REntity (ap_res plan)) (ag_field a) = None;
  pa_full : exists asked own pred,
    filterToPredicate (gi_filter i) (lim_maxFilterConditions (x_limits tc)) = Ok asked /\
    coercePredicate (REntity (ap_res plan)) (columnsPredicate (REntity (ap_res plan)) asked) = Ok own /\
    sentAs tc (REntity (ap_res plan)) (renamed (rel_rename (ap_rel plan)) own) pred /\
    ap_full plan = andPreds pred (RowFilter (ap_grant plan));
  pa_joins : Forall (authorizedJoin tc (REntity (ap_res plan))) (rel_joins (ap_rel plan));
  pa_across : forall p, p ∈ aggregateFieldNames i -> reachedAcross tc (REntity (ap_res plan)) (ap_rel plan) p;
}.

Lemma prepareAggregate_done tc i plan : prepareAggregate tc i = Done plan -> plannedAggregate tc i plan.
Proof.
  unfold prepareAggregate. intros Hp. apply outcome_bind_done in Hp as ([ep own] & Hplan & Hp).
  pose proof (splitPaths_own (REntity (p_res ep)) (aggregateFieldNames i)) as Hown.
  pose proof (splitPaths_path (REntity (p_res ep)) (aggregateFieldNames i)) as Hacross.
  pose proof (splitPaths_paths (REntity (p_res ep)) (aggregateFieldNames i)) as Hpaths.
  destruct (splitPaths _ (aggregateFieldNames i)) as [ownReads paths]. simpl in Hown, Hacross, Hpaths.
  destruct (existsb _ (gi_aggregates i)) eqn:Ep; [done|].
  apply outcome_bind_done in Hp as ([[rel pred] locals] & Hrel & Hp). apply outcome_bind_done in Hp as ([] & Hu%lift_done & Hp).
  apply outcome_bind_done in Hp as (g & Hauth & Hp). injection Hp as <-.
  destruct (planEntity_done _ _ _ _ _ _ Hplan) as (Hres & Hdml & Hroute). destruct (planEntity_filter _ _ _ _ _ _ Hplan) as (asked & Hask & Hco).
  destruct (routeEntity_keeps _ _ _ _ Hroute) as (Hreg & Haz & Hrole & Hsubj & _).
  destruct (authorizeRequest_done _ _ _ Hauth) as (Hg & Hal & Hav).
  destruct (relate_reaches tc _ _ _ _ _ _ _ ltac:(by split_and!) Hpaths Hrel) as (Hjoins & Hpa & Hsent).
  apply field_uses_checked in Hu as (_ & Hm & _). constructor; simpl; try done.
  - split; [done|]. apply Hav. by rewrite Hreg.
  - exists (ownReads ++ locals), pred. rewrite Hg, Haz, Hrole, Hsubj. split; [reflexivity|]. rewrite <- Haz, <- Hrole, <- Hsubj, <- Hg.
    split; [done|]. split; [|exact Hm]. intros f Hf Hpath. apply elem_of_app. left. by apply Hown.
  - intros a Ha. apply existsb_false in Ep. rewrite Forall_forall in Ep. specialize (Ep a Ha). simpl in Ep.
    apply bool_decide_eq_false in Ep. by apply eq_None_not_Some.
  - by exists asked, own, pred.
  - intros p Hp r f Hpath. by apply (Hpa p (Hacross _ _ _ Hp Hpath)).
Qed.

(** What the groups asked for keep of the groups computed. *)
Lemma aggregateShape_rows res i agg calls columns rename maxConds expr db out :
  (exists input groupBy aggs, agg = EAggregate input groupBy aggs) ->
  aggregateShape res i agg calls columns rename maxConds = Done expr -> eval db expr = Ok out ->
  exists groups, eval db agg = Ok groups /\ Cols out = Cols groups /\ Rows out ⊆ Rows groups /\
    (0 < gi_limit i -> Z.of_nat (length (Rows out)) <= gi_limit i).
Proof.
  intros (input & groupBy & aggs & ->) Hs. unfold aggregateShape in Hs. apply outcome_bind_done in Hs as (having & _ & Hs).
  destruct (HasExists having); [done|]. destruct (negb _); [done|]. destruct (_ <? _)%nat; [done|].
  destruct (mapM _ _) as [terms|]; [|done]. destruct (gi_limit i <? 0); [done|]. injection Hs as <-.
  set (agg := EAggregate _ _ _). set (e1 := if is_pnil having then agg else _). set (e2 := match terms with [] => e1 | _ => _ end).
  assert (forall o, eval db e1 = Ok o -> exists groups, eval db agg = Ok groups /\ Cols o = Cols groups /\ Rows o ⊆ Rows groups) as He1.
  { intros o Ho. unfold e1 in Ho. destruct (is_pnil having); [by exists o|]. cbn [eval agg] in Ho. apply bind_ok in Ho as (groups & Hg & Ho).
    exists groups. split; [exact Hg|]. destruct (evalSelect_spec _ _ _ _ Ho) as (Hc & _ & _ & Hr). split; [done|]. intros x Hx. by apply Hr in Hx as [? _]. }
  assert (forall o, eval db e2 = Ok o -> exists groups, eval db agg = Ok groups /\ Cols o = Cols groups /\ Rows o ⊆ Rows groups) as He2.
  { intros o Ho. unfold e2 in Ho. destruct terms as [|t0 ts]; [by apply He1|]. cbn [eval] in Ho. apply bind_ok in Ho as (o1 & Ho1 & Ho).
    destruct (He1 _ Ho1) as (groups & Hg & Hc & Hr). destruct (evalSort_spec _ _ _ Ho) as (_ & _ & Hc2 & _ & Hp & _).
    exists groups. split; [done|]. split; [congruence|]. intros x Hx. rewrite <- Hp in Hx. by apply Hr. }
  destruct (Z.ltb_spec 0 (gi_limit i)).
  - cbn [eval]. intros Ho. apply bind_ok in Ho as (o & Ho2 & Ho). destruct (He2 _ Ho2) as (groups & Hg & Hc & Hr).
    destruct (evalLimit_sub _ _ _ _ Ho) as (Hc3 & Hs3 & Hn). exists groups. split; [done|]. split; [congruence|]. split; [|done]. set_solver.
  - intros Ho. destruct (He2 _ Ho) as (groups & Hg & Hc & Hr). exists groups. split_and!; try done. lia.
Qed.

(** A negative limit is refused, and capLimit leaves it for that. *)
Lemma aggregateShape_limit res i agg calls columns rename maxConds expr :
  aggregateShape res i agg calls columns rename maxConds = Done expr -> 0 <= gi_limit i.
Proof.
  unfold aggregateShape. intros Hs. apply outcome_bind_done in Hs as (having & _ & Hs). destruct (HasExists having); [done|].
  destruct (negb _); [done|]. destruct (_ <? _)%nat; [done|]. destruct (mapM _ _); [|done]. by destruct (Z.ltb_spec (gi_limit i) 0).
Qed.

Lemma capLimit_negative tc limit : 0 <= (ReadTool.capLimit tc limit).1 -> 0 <= limit.
Proof. unfold ReadTool.capLimit. destruct (Z.ltb_spec limit 0); [|lia]. by rewrite orb_true_r. Qed.


End governed.

(** ** How many orders each customer has *)

Definition counterGrant : Grant := mkGrant "role:counter:0" [ActionRead; ActionAggregate] None PNil.

Definition counter : Context :=
  mkContext readerRegistry
    (@NewGrantAuthorizer asciiStd readerRegistry
       (mkPolicy {["counter"%string := {["default.orders"%string := [counterGrant]; "default.customers"%string := [counterGrant]]}]} ∅ ∅))
    "counter" {["tenant"%string := VString "acme"]} ∅ mysql None (Some 0%nat) noTightening "" (fun _ => None) (fun _ => false)
    (mkLimits 2 0 0 0 0 0 0 0 0 0) 0 0 0 None 0 "" false.

Definition ordersPerCustomer : aggregateInput :=
  mkAggregate "orders" "" ["customer.name"%string] [mkAggJSON "count" "id" false; mkAggJSON "max" "id" false] []
    [mkCondJSON "count_id" "gte" (VInt KInt64 1) None None None "" None] [mkOrderJSON "count_id" "desc"] 0.

Definition demoAggregate := @planAggregate asciiStd counter ordersPerCustomer.

Example aggregate_sql :
  match demoAggregate with
  | Done (_, plan, st, capped) =>
      st_sql (s_sql st) = "SELECT `customer`.`name`, COUNT(`_`.`id`), MAX(`_`.`id`) FROM `orders` AS `_` LEFT JOIN `customers` AS `customer` ON `customer`.`id` = `_`.`customer_id` AND `customer`.`tenant` = ? WHERE `_`.`tenant` = ? GROUP BY `customer`.`name` HAVING COUNT(`_`.`id`) >= ? ORDER BY COUNT(`_`.`id`) DESC LIMIT 2" /\
      st_args (s_sql st) = [VString "acme"; VString "acme"; VInt KInt64 1] /\
      s_columns st = ["customer.name"; "count_id"; "max_id"]%string /\ capped = true
  | Refused e => False
  end.
Proof. vm_compute. auto. Qed.

Lemma demoAggregate_evaluated :
  match demoAggregate with
  | Done (i, plan, st, _) =>
      match @aggregateExpression asciiStd plan i with
      | Done (expr, _) => match eval shopDB expr with
                          | Ok out => Rows out = [[VString "ann"; VInt KInt64 2; VString "3"]]
                          | Err _ => False
                          end
      | Refused _ => False
      end
  | Refused _ => False
  end.
Proof. vm_compute. reflexivity. Qed.

