(* ===== verification/ProcedureTheorems.v ===== *)
(** A procedure called is one the caller may execute, its arguments in their
    declared places, its rows cut to what the caller may see; and the tools
    of procedures are found by their names. *)

From S2P Require Import Prelude GoString Value Relalg Interp Entity EntityFacts Numbers WriteCheck Dialect Codegen Cost CostTheorems Transaction Cache Invalidation Rbac RbacTheorems FieldUses Order Filter Mask Pipeline PipelineFacts WriteTools ReadTool ReadTheorems Results RunStatement RunRead Procedure.

Set Default Proof Using "Type*".

(** ** Arguments in their places *)

(** The arguments of a call are the procedure's parameters, in order, each
    the one given by its name; none is left over or left out. *)
Lemma orderedProcArgs_spec params args vs :
  orderedProcArgs params args = Some vs ->
  length vs = length params /\
  (forall n p, params !! n = Some p -> exists v, vs !! n = Some v /\ snd <$> List.find (fun kv => String.eqb kv.1 p) args = Some v) /\
  (forall k v, (k, v) ∈ args -> k ∈ params).
Proof.
  unfold orderedProcArgs. destruct params as [|p0 params]; [destruct args; [|done]; intros [= <-]|].
  { split_and!; [done|intros n p Hn; rewrite lookup_nil in Hn; done|by intros ? ? ?%not_elem_of_nil]. }
  destruct (forallb _ args) eqn:Ea; [|done]. simpl negb. cbv iota. intros Hm. apply mapM_Some in Hm.
  split; [symmetry; exact (Forall2_length _ _ _ Hm)|]. split.
  - intros n p Hp. destruct (Forall2_lookup_l _ _ _ _ _ Hm Hp) as (v & Hv & Hf). by exists v.
  - intros k v Hin. rewrite forallb_forall in Ea. specialize (Ea (k, v) (proj1 (list_elem_of_In _ _) Hin)). simpl in Ea. by apply bool_decide_eq_true in Ea.
Qed.

Lemma allowed_fold res fields acc f :
  f ∈ fold_left (fun fields f => match AttributeByName (REntity res) f with
                             | Some a => if AExcluded a then fields
                                         else (if bool_decide (AAlias a = "") then {[AName a]} else {[AName a; AAlias a]}) ∪ fields
                             | None => fields
                             end) fields acc ->
  f ∈ (acc : gset string) \/ exists g a, g ∈ fields /\ AttributeByName (REntity res) g = Some a /\ AExcluded a = false /\ (f = AName a \/ f = AAlias a).
Proof.
  revert acc. induction fields as [|x fields IH]; intros acc Hf; simpl in Hf; [by left|].
  destruct (IH _ Hf) as [Hacc|(g & a & ? & ?)]; [|right; exists g, a; split; [by right|done]].
  destruct (AttributeByName (REntity res) x) as [a|] eqn:Ea; [|by left]. destruct (AExcluded a) eqn:Ex; [by left|].
  apply elem_of_union in Hacc as [Hx|]; [|by left]. right. exists x, a. split; [by left|]. split; [done|]. split; [done|].
  destruct (bool_decide (AAlias a = "")); set_solver.
Qed.

Section governed.
Context `{GoStd} `{CostStd}.

(** C11. A procedure runs only when it may.  Whatever the request, a procedure
    call that is planned is of an entity that is a procedure, trusted, known
    to the database and, for the generic tool, exposed to it; the caller is
    authorized to execute it; the statement is the compiled and gated form of
    a call of that procedure whose arguments are its parameters in their
    declared order, each by its name, with none left over; it counts as a
    write, its rows are capped, and it shows fields that the decision covers
    and that are not excluded, and no others. *)
Theorem procedure_governed (tc : Context) (i : executeInput) (requireDMLTools : bool) (st : statement) :
  planExecute tc i requireDMLTools = Done st ->
  let e := REntity (s_res st) in
  Entity.Resolve (x_registry tc) (xe_entity i) = Some (s_res st) /\ EKind e = KindProcedure /\ TrustedProcedure (EMCP e) = true /\
  EUnavailable e = "" /\ (requireDMLTools = true -> DMLTools (EMCP e) = true) /\
  s_grant st = authorize (x_authorizer tc) (mkRequest (x_role tc) (xe_entity i) ActionExecute [] [] [] (x_subject tc) PNil) /\
  Allowed (s_grant st) = true /\
  (exists args c, compile (s_tc st) e (ECall (Entity.Ref e) args) None = Done c /\ gateSQL (s_tc st) c = Done (s_sql st, s_plan st) /\
     length args = length (EParams e) /\
     (forall n p, EParams e !! n = Some p -> exists v, args !! n = Some v /\ snd <$> List.find (fun kv => String.eqb kv.1 p) (xe_args i) = Some v) /\
     (forall k v, (k, v) ∈ xe_args i -> k ∈ EParams e)) /\
  s_write st = true /\ s_rowCap st = lim_maxProcedureRows (x_limits (s_tc st)) /\
  exists fields, s_fields st = Some fields /\ forall f, f ∈ fields -> exists g a, g ∈ DFields (s_grant st) /\
    AttributeByName e g = Some a /\ AExcluded a = false /\ (f = AName a \/ f = AAlias a).
Proof.
  unfold planExecute, prepareExecute. intros Hp. apply outcome_bind_done in Hp as ([[res tc'] g] & Hpre & Hp).
  apply outcome_bind_done in Hp as ([sql est] & Hc & Hp). injection Hp as <-. simpl.
  destruct (Entity.Resolve _ _) as [r|] eqn:Er; [|done]. destruct (requireDMLTools && _) eqn:Ed; [done|].
  case_bool_decide as Hk; [|done]. simpl in Hpre. destruct (TrustedProcedure _) eqn:Et; [|done]. simpl in Hpre.
  apply outcome_bind_done in Hpre as (rtc & Hroute & Hpre). apply outcome_bind_done in Hpre as (g' & Hauth & Hpre). injection Hpre as -> -> ->.
  destruct (routeEntity_keeps _ _ _ _ Hroute) as (Hreg & Haz & Hrole & Hsubj & _). destruct (authorizeRequest_done _ _ _ Hauth) as (Hg & Hal & Hav).
  split; [done|]. split; [done|]. split; [done|]. split; [apply Hav; by rewrite Hreg|].
  split; [by intros ->; destruct (DMLTools (EMCP (REntity res)))|]. split; [by rewrite Hg, Haz, Hrole, Hsubj|]. split; [done|].
  split; [|split; [done|split; [done|]]].
  - unfold compileExecute in Hc. destruct (orderedProcArgs _ _) as [args|] eqn:Ea; [|done]. apply outcome_bind_done in Hc as (c & Hcomp & Hgate).
    exists args, c. destruct (orderedProcArgs_spec _ _ _ Ea) as (? & ? & ?). auto.
  - eexists. split; [done|]. intros f Hf. unfold allowedProcedureFields in Hf. destruct (allowed_fold _ _ _ _ Hf) as [Hf'|?]; [set_solver|done].
Qed.

End governed.

(** ** A procedure of two parameters *)

Definition transferEntity : Entity :=
  mkEntity "default.transfer" "transfer" "transfer" "" "" "" KindProcedure
    [mkAttr "balance" "left" "" (tenantDomain "text") false ""; mkAttr "note" "" "" (tenantDomain "text") true ""]
    [] [] [] [] [] (mkMCP true true true) [] PNil [] false "" [] "" [] [] false false [] false ["from"; "to"]%string.

Definition transferRegistry : Registry := Eval vm_compute in
  match NewRegistry [transferEntity] with Ok r => r | Err _ => emptyRegistry end.

Definition teller : Context :=
  mkContext transferRegistry
    (@NewGrantAuthorizer asciiStd transferRegistry
       (mkPolicy {["teller"%string := {["default.transfer"%string := [mkGrant "role:teller:0" [ActionExecute] None PNil]]}]} ∅ ∅))
    "teller" ∅ ∅ mysql None (Some 0%nat) noTightening "" (fun _ => None) (fun _ => false)
    (mkLimits 2 5 0 0 0 0 0 0 0 0) 0 0 0 None 0 "" false.

Definition transferCall : executeInput := mkExecute "transfer" [("to"%string, VString "bob"); ("from"%string, VString "ann")] "".

Definition demoExecute : outcome statement := @planExecute asciiStd teller transferCall true.

Lemma demoExecute_sql :
  match demoExecute with
  | Done st => st_sql (s_sql st) = "CALL `transfer`(?, ?)" /\ st_args (s_sql st) = [VString "ann"; VString "bob"] /\ s_rowCap st = 5 /\
      elements (default ∅ (s_fields st)) = ["balance"; "left"]%string
  | Refused _ => False
  end.
Proof. vm_compute. auto. Qed.

Lemma procedure_governed_witness :
  match demoExecute with
  | Done st => st_args (s_sql st) = [VString "ann"; VString "bob"] /\ TrustedProcedure (EMCP (REntity (s_res st))) = true /\
      Allowed (s_grant st) = true /\ s_write st = true /\
      Entity.Resolve (x_registry teller) "transfer" = Some (s_res st)
  | Refused _ => False
  end.
Proof.
  pose proof demoExecute_sql as Hx. destruct demoExecute as [st|] eqn:Hd; [|exact Hx]. unfold demoExecute in Hd. destruct Hx as (_ & Hargs & _).
  destruct (@procedure_governed asciiStd teller transferCall true st Hd) as (Hres & _ & Ht & _ & _ & _ & Ha & _ & Hw & _).
  split; [exact Hargs|]. split; [exact Ht|]. split; [exact Ha|]. split; [exact Hw|exact Hres].
Defined.

(** ** The tools of procedures *)

(** A tool found is of a procedure meant to have one. *)
Lemma FindProcedureTool_exposed hash procedures name e :
  FindProcedureTool hash procedures name = Some e -> e ∈ procedures /\ exposed e = true.
Proof.
  unfold FindProcedureTool. destruct (negb _); [done|]. destruct (List.find _ _) as [[n e']|] eqn:Ef; [|done]. intros [= <-].
  apply List.find_some in Ef as [Hin _]. unfold ProcedureTools in Hin. apply list_elem_of_In, list_elem_of_fmap in Hin as (x & [= _ ->] & Hin).
  apply list_elem_of_In, List.filter_In in Hin as [Hin Hx]. split; [by apply list_elem_of_In|done].
Qed.
