(* ===== verification/Semaphore.v ===== *)
(** The counting semaphore of core/bus/semaphore.go, whose size can change
    while work holds its slots, and the threads that use it.

    A waiter's channel is a number, given in order of arrival.  A thread's
    [select] between its channel and the end of its context is two events, so
    that a context may end as the slot is granted. *)

From S2P Require Import Prelude.

Record Semaphore : Type := mkSemaphore { size_ : Z; used : Z; waiters : list nat }.

Definition NewSemaphore (n : Z) : Semaphore := mkSemaphore n 0 [].

(** The loop of grantLocked: the slots used, the waiters left and the channels
    closed. *)
Fixpoint grantLoop (size used : Z) (ws : list nat) : Z * list nat * list nat :=
  match ws with
  | [] => (used, [], [])
  | w :: rest =>
      if used <? size then let '(used, rest, closed) := grantLoop size (used + 1) rest in (used, rest, w :: closed)
      else (used, ws, [])
  end.

Definition grantLocked (s : Semaphore) : Semaphore * list nat :=
  let '(used, rest, closed) := grantLoop (size_ s) (used s) (waiters s) in (mkSemaphore (size_ s) used rest, closed).

Definition Resize (n : Z) (s : Semaphore) : Semaphore * list nat := grantLocked (mkSemaphore n (used s) (waiters s)).

Definition free (s : Semaphore) : bool := (used s <? size_ s) && bool_decide (waiters s = []).

Definition TryAcquire (s : Semaphore) : Semaphore * bool :=
  if free s then (mkSemaphore (size_ s) (used s + 1) (waiters s), true) else (s, false).

(** Acquire's first critical section: the slot, or a place among the waiters
    on the channel [ch]. *)
Definition enqueue (ch : nat) (s : Semaphore) : Semaphore * bool :=
  if free s then (mkSemaphore (size_ s) (used s + 1) (waiters s), true)
  else (mkSemaphore (size_ s) (used s) (waiters s ++ [ch]), false).

Definition Release (s : Semaphore) : Semaphore * list nat := grantLocked (mkSemaphore (size_ s) (used s - 1) (waiters s)).

Fixpoint remove1 (ch : nat) (ws : list nat) : option (list nat) :=
  match ws with
  | [] => None
  | w :: ws => if decide (w = ch) then Some ws else cons w <$> remove1 ch ws
  end.

(** Acquire's second critical section, when the context ended first. *)
Definition abandon (ch : nat) (s : Semaphore) : Semaphore * list nat :=
  match remove1 ch (waiters s) with
  | Some ws => (mkSemaphore (size_ s) (used s) ws, [])
  | None => Release s
  end.

Record SlotStats : Type := mkSlotStats { Size : Z; Used : Z; Waiting_ : nat }.

Definition Stats (s : Semaphore) : SlotStats := mkSlotStats (size_ s) (used s) (length (waiters s)).

(** ** The threads *)

Inductive phase : Type := Out | Waiting (ch : nat) | Holding.

Record slots : Type := mkSlots { sem : Semaphore; nextChan : nat; closedChans : gset nat; phases : list phase }.

Inductive slotEvent : Type :=
  | Try (t : nat)                          (** TryAcquire *)
  | Enter (t : nat)                        (** Acquire's first section *)
  | Wake (t : nat)                         (** the channel was closed *)
  | GiveUp (t : nat)                       (** the context ended *)
  | Leave (t : nat)                        (** Release *)
  | Grow (n : Z).                          (** Resize *)

Definition with_phase (t : nat) (p : phase) (s : slots) : slots :=
  mkSlots (sem s) (nextChan s) (closedChans s) (<[t := p]> (phases s)).

(** Channels are closed under the lock. *)
Definition closing (r : Semaphore * list nat) (s : slots) : slots :=
  mkSlots r.1 (nextChan s) (list_to_set r.2 ∪ closedChans s) (phases s).

Definition slotStep (e : slotEvent) (s : slots) : option slots :=
  match e with
  | Try t =>
      match phases s !! t with
      | Some Out => let '(sm, ok) := TryAcquire (sem s) in
                    Some (with_phase t (if ok then Holding else Out) (closing (sm, []) s))
      | _ => None
      end
  | Enter t =>
      match phases s !! t with
      | Some Out => let ch := nextChan s in
                    let '(sm, ok) := enqueue ch (sem s) in
                    Some (mkSlots sm (S ch) (closedChans s) (<[t := if ok then Holding else Waiting ch]> (phases s)))
      | _ => None
      end
  | Wake t =>
      match phases s !! t with
      | Some (Waiting ch) => if decide (ch ∈ closedChans s) then Some (with_phase t Holding s) else None
      | _ => None
      end
  | GiveUp t =>
      match phases s !! t with
      | Some (Waiting ch) => Some (with_phase t Out (closing (abandon ch (sem s)) s))
      | _ => None
      end
  | Leave t =>
      match phases s !! t with
      | Some Holding => Some (with_phase t Out (closing (Release (sem s)) s))
      | _ => None
      end
  | Grow n => Some (closing (Resize n (sem s)) s)
  end.

(** Events that cannot happen are skipped. *)
Definition slotRun (es : list slotEvent) (s : slots) : slots := foldl (fun s e => default s (slotStep e s)) s es.

Definition slotStart (size : Z) (threads : nat) : slots := mkSlots (NewSemaphore size) 0 ∅ (replicate threads Out).
