(* ===== verification/SemaphoreTheorems.v ===== *)
(** What holds of a semaphore and its threads whatever the order of events. *)

From Stdlib Require Import Sorted.
From S2P Require Import Prelude Semaphore.

(** The slot a thread has: held, or granted and not yet collected. *)
Definition slotOf (closed : gset nat) (p : phase) : Z :=
  match p with
  | Out => 0
  | Waiting ch => if decide (ch ∈ closed) then 1 else 0
  | Holding => 1
  end.

(** The invariant but for the last: the slots used are those the threads have,
    and the waiters are the threads still waiting, in order of arrival, behind
    those granted. *)
Record slotCore (s : slots) : Prop := {
  sc_used : used (sem s) = sumOver (slotOf (closedChans s)) (phases s);
  sc_waiting : forall ch, ch ∈ waiters (sem s) <-> ch ∉ closedChans s /\ exists t, phases s !! t = Some (Waiting ch);
  sc_sorted : StronglySorted lt (waiters (sem s));
  sc_fresh : forall t ch, phases s !! t = Some (Waiting ch) -> (ch < nextChan s)%nat;
  sc_closed : forall ch, ch ∈ closedChans s -> (ch < nextChan s)%nat;
  sc_unique : forall t u ch, phases s !! t = Some (Waiting ch) -> phases s !! u = Some (Waiting ch) -> t = u;
  sc_fifo : forall ch w, ch ∈ closedChans s -> w ∈ waiters (sem s) -> (ch < w)%nat;
}.

(** No slot is free while a thread waits. *)
Record slotInv (s : slots) : Prop := {
  si_core : slotCore s;
  si_busy : waiters (sem s) <> [] -> size_ (sem s) <= used (sem s);
}.

Lemma slotOf_close closed ch p : p <> Waiting ch -> slotOf ({[ch]} ∪ closed) p = slotOf closed p.
Proof. destruct p as [|c|]; simpl; try done. intros Hne. repeat case_decide; set_solver. Qed.

Lemma sum_close closed ch ps t :
  ps !! t = Some (Waiting ch) -> (forall u, ps !! u = Some (Waiting ch) -> u = t) -> ch ∉ closed ->
  sumOver (slotOf ({[ch]} ∪ closed)) ps = sumOver (slotOf closed) ps + 1.
Proof.
  intros Ht Hu Hc. rewrite <- (list_insert_id _ _ _ Ht) at 1.
  assert (forall g, sumOver g ps = sumOver g (<[t := Out]> ps) + g (Waiting ch) - g Out) as Hs.
  { intros g. rewrite (sumOver_insert _ _ _ _ _ Ht). lia. }
  rewrite (list_insert_id _ _ _ Ht), !Hs. rewrite (sumOver_ext (slotOf ({[ch]} ∪ closed)) (slotOf closed)).
  - simpl. rewrite decide_True by set_solver. rewrite decide_False by done. lia.
  - intros p (u & Hp)%list_elem_of_lookup. apply slotOf_close. intros ->.
    destruct (decide (u = t)) as [->|Hne].
    + rewrite list_lookup_insert_eq in Hp by (by eapply lookup_lt_Some). done.
    + rewrite list_lookup_insert_ne in Hp by done. by apply Hu in Hp.
Qed.

(** The first waiter is granted. *)
Lemma core_grant sz us w ws n closed ps :
  slotCore (mkSlots (mkSemaphore sz us (w :: ws)) n closed ps) ->
  slotCore (mkSlots (mkSemaphore sz (us + 1) ws) n ({[w]} ∪ closed) ps).
Proof.
  intros [Hus Hw Hs Hf Hc Hu Hff]; simpl in *. destruct (proj1 (Hw w)) as [Hnc [t Ht]]; [set_solver|].
  apply StronglySorted_inv in Hs as [Hs Hall]. rewrite Forall_forall in Hall. constructor; simpl; try done.
  - rewrite (sum_close _ _ _ _ Ht); [lia| |done]. intros u Hu'. by eapply Hu.
  - intros ch. split.
    + intros Hin. destruct (proj1 (Hw ch)) as [? ?]; [set_solver|]. split; [|done]. specialize (Hall ch Hin). intros [->%elem_of_singleton|?]%elem_of_union; [lia|done].
    + intros [Hn Hex]. assert (ch ∈ w :: ws) as Hin by (apply Hw; set_solver). set_solver.
  - intros ch [->%elem_of_singleton|?]%elem_of_union; [by eapply Hf|by apply Hc].
  - intros ch x [->%elem_of_singleton|?]%elem_of_union Hx; [by apply Hall|]. apply Hff; [done|set_solver].
Qed.

(** What granting does of a semaphore in order. *)
Lemma grantLoop_core ws : forall sz us n closed ps us' rest cl,
  grantLoop sz us ws = (us', rest, cl) -> slotCore (mkSlots (mkSemaphore sz us ws) n closed ps) ->
  slotCore (mkSlots (mkSemaphore sz us' rest) n (list_to_set cl ∪ closed) ps) /\
  (rest <> [] -> sz <= us') /\ us <= us' <= Z.max us sz.
Proof.
  induction ws as [|w ws IH]; intros sz us n closed ps us' rest cl Hg Hcore; simpl in Hg.
  { injection Hg as <- <- <-. split; [simpl; by rewrite union_empty_l_L|]. split; [done|lia]. }
  destruct (Z.ltb_spec us sz).
  - destruct (grantLoop sz (us + 1) ws) as [[u2 r2] c2] eqn:E. injection Hg as <- <- <-.
    apply core_grant in Hcore. destruct (IH _ _ _ _ _ _ _ _ E Hcore) as (H1 & H2 & H3).
    split; [|split; [done|lia]]. 
    replace (list_to_set (w :: c2) ∪ closed) with (list_to_set c2 ∪ ({[w]} ∪ closed)) by set_solver. done.
  - injection Hg as <- <- <-. split; [simpl; by rewrite union_empty_l_L|]. split; [done|lia].
Qed.

Lemma grantLocked_inv s sm :
  slotCore (mkSlots sm (nextChan s) (closedChans s) (phases s)) ->
  slotInv (closing (grantLocked sm) s) /\ used sm <= used (grantLocked sm).1 <= Z.max (used sm) (size_ sm) /\ size_ (grantLocked sm).1 = size_ sm.
Proof.
  intros Hc. destruct sm as [sz us ws]. unfold grantLocked; simpl. destruct (grantLoop sz us ws) as [[us' rest] cl] eqn:E.
  destruct (grantLoop_core _ _ _ _ _ _ _ _ _ E Hc) as (H1 & H2 & H3). split; [|done]. constructor; [exact H1|exact H2].
Qed.

(** A thread leaves [p] for a phase that does not wait, its channel leaving
    the waiters. *)
Lemma core_move s t p p' sz ws n :
  slotCore s -> phases s !! t = Some p -> (forall ch, p' <> Waiting ch) -> (nextChan s <= n)%nat -> StronglySorted lt ws ->
  (forall ch, ch ∈ ws <-> ch ∈ waiters (sem s) /\ p <> Waiting ch) ->
  slotCore (mkSlots (mkSemaphore sz (used (sem s) - slotOf (closedChans s) p + slotOf (closedChans s) p') ws) n (closedChans s) (<[t := p']> (phases s))).
Proof.
  intros [Hus Hw Hs Hf Hc Hu Hff] Ht Hp' Hn Hsort Hws.
  assert (forall u ch, <[t := p']> (phases s) !! u = Some (Waiting ch) -> u <> t /\ phases s !! u = Some (Waiting ch)) as Hold.
  { intros u ch Hl. destruct (decide (u = t)) as [->|Hne].
    - rewrite list_lookup_insert_eq in Hl by (by eapply lookup_lt_Some). by injection Hl as Hl%Hp'.
    - by rewrite list_lookup_insert_ne in Hl by done. }
  constructor; simpl; try done.
  - rewrite (sumOver_insert _ _ _ _ _ Ht). lia.
  - intros ch. rewrite Hws, Hw. split.
    + intros [[Hnc [u Hx]] Hne]. split; [done|]. exists u. rewrite list_lookup_insert_ne; [done|]. intros <-. congruence.
    + intros [Hnc [u [Hne Hx]%Hold]]. split; [by eauto|]. intros ->. apply Hne. by eapply Hu.
  - intros u ch [_ Hx%Hf]%Hold. lia.
  - intros ch Hx%Hc. lia.
  - intros u v ch [_ H1]%Hold [_ H2]%Hold. by eapply Hu.
  - intros ch w Hx [Hy _]%Hws. by apply Hff.
Qed.

Lemma remove1_spec ch ws ws' : StronglySorted lt ws -> remove1 ch ws = Some ws' ->
  ch ∈ ws /\ StronglySorted lt ws' /\ forall x, x ∈ ws' <-> x ∈ ws /\ ch <> x.
Proof.
  revert ws'. induction ws as [|w ws IH]; intros ws' Hs Hr; simpl in Hr; [done|].
  apply StronglySorted_inv in Hs as [Hs Hall]. pose proof (proj1 (Forall_forall _ _) Hall) as Hlt. case_decide as Hd.
  - injection Hr as <-. subst w. split; [set_solver|]. split; [done|]. intros x. split; [|set_solver].
    intros Hx. split; [set_solver|]. specialize (Hlt x Hx). lia.
  - destruct (remove1 ch ws) as [r|] eqn:Er; [|done]. injection Hr as <-. destruct (IH _ Hs eq_refl) as (H1 & H2 & H3).
    split; [set_solver|]. split; [|set_solver]. constructor; [done|]. apply Forall_forall. intros x Hx. apply Hlt, H3, Hx.
Qed.

Lemma remove1_none ch ws : remove1 ch ws = None -> ch ∉ ws.
Proof.
  induction ws as [|w ws IH]; simpl; [set_solver|]. case_decide; [done|]. destruct (remove1 ch ws); [done|]. set_solver.
Qed.

(** A slot taken while one is free and nobody waits. *)
Lemma inv_take s t n :
  slotInv s -> phases s !! t = Some Out -> free (sem s) = true -> (nextChan s <= n)%nat ->
  slotInv (mkSlots (mkSemaphore (size_ (sem s)) (used (sem s) + 1) (waiters (sem s))) n (closedChans s) (<[t := Holding]> (phases s))).
Proof.
  intros [Hcore Hbusy] Ht Hfree Hn. unfold free in Hfree. apply andb_true_iff in Hfree as [_ Hnil%bool_decide_eq_true].
  constructor; simpl; [|by rewrite Hnil].
  replace (used (sem s) + 1) with (used (sem s) - slotOf (closedChans s) Out + slotOf (closedChans s) Holding) by (simpl; lia).
  apply core_move; try done; [by destruct Hcore|]. intros ch. split; [|tauto]. done.
Qed.

Lemma inv_enqueue s t :
  slotInv s -> phases s !! t = Some Out -> free (sem s) = false ->
  slotInv (mkSlots (mkSemaphore (size_ (sem s)) (used (sem s)) (waiters (sem s) ++ [nextChan s])) (S (nextChan s)) (closedChans s)
             (<[t := Waiting (nextChan s)]> (phases s))).
Proof.
  intros [[Hus Hw Hs Hf Hc Hu Hff] Hbusy] Ht Hfree.
  assert (forall u ch, <[t := Waiting (nextChan s)]> (phases s) !! u = Some (Waiting ch) ->
            (u = t /\ ch = nextChan s) \/ (u <> t /\ phases s !! u = Some (Waiting ch))) as Hold.
  { intros u ch Hl. destruct (decide (u = t)) as [->|Hne].
    - rewrite list_lookup_insert_eq in Hl by (by eapply lookup_lt_Some). injection Hl as <-. by left.
    - rewrite list_lookup_insert_ne in Hl by done. by right. }
  constructor; [constructor; simpl|simpl].
  - rewrite (sumOver_insert _ _ _ _ _ Ht). simpl. rewrite decide_False; [lia|]. intros Hx%Hc. lia.
  - intros ch. rewrite elem_of_app, list_elem_of_singleton, Hw. split.
    + intros [[Hnc [u Hx]]| ->].
      * split; [done|]. exists u. rewrite list_lookup_insert_ne; [done|]. intros <-. congruence.
      * split; [intros Hx%Hc; lia|]. exists t. apply list_lookup_insert_eq. by eapply lookup_lt_Some.
    + intros [Hnc [u [[_ ->]|[_ Hx]]%Hold]]; eauto.
  - apply StronglySorted_snoc; [done|]. apply Forall_forall. intros w [_ [u Hx]]%Hw. by eapply Hf.
  - intros u ch [[_ ->]|[_ Hx%Hf]]%Hold; lia.
  - intros ch Hx%Hc. lia.
  - intros u v ch [[-> ->]|[? H1]]%Hold [[-> Heq]|[? H2]]%Hold; try done; [apply Hf in H2; lia|apply Hf in H1; lia|by eapply Hu].
  - intros ch w Hx [Hy| ->%list_elem_of_singleton]%elem_of_app; [by apply Hff|by apply Hc].
  - intros _. unfold free in Hfree. apply andb_false_iff in Hfree as [Hlt%Z.ltb_ge|Hne%bool_decide_eq_false]; [done|auto].
Qed.

(** A slot given back while [t] leaves. *)
Lemma inv_release s t p :
  slotInv s -> phases s !! t = Some p -> slotOf (closedChans s) p = 1 ->
  slotInv (with_phase t Out (closing (Release (sem s)) s)) /\ used (Release (sem s)).1 <= Z.max (used (sem s)) (size_ (sem s)).
Proof.
  intros [Hcore Hbusy] Ht Hp. unfold Release.
  destruct (grantLocked_inv (with_phase t Out s) (mkSemaphore (size_ (sem s)) (used (sem s) - 1) (waiters (sem s)))) as (Hi & Hle & _).
  - simpl. replace (used (sem s) - 1) with (used (sem s) - slotOf (closedChans s) p + slotOf (closedChans s) Out) by (rewrite Hp; simpl; lia).
    apply core_move; try done; [by destruct Hcore|]. intros ch. split; [|tauto]. intros Hin. split; [done|]. intros ->. simpl in Hp.
    apply (sc_waiting _ Hcore) in Hin as [Hnc _]. by rewrite decide_False in Hp by done.
  - split; [exact Hi|]. simpl in Hle. lia.
Qed.

(** Every event keeps the invariant; only a change of size can leave more
    slots in use than there are. *)
Lemma slotStep_inv e s s' : slotInv s -> slotStep e s = Some s' ->
  slotInv s' /\ (used (sem s') <= Z.max (used (sem s)) (size_ (sem s'))).
Proof.
  intros Hi Hstep. destruct e as [t|t|t|t|t|n]; simpl in Hstep.
  - destruct (phases s !! t) as [[|ch|]|] eqn:Ht; try done. unfold TryAcquire in Hstep. destruct (free (sem s)) eqn:Ef; injection Hstep as <-.
    + unfold with_phase, closing; simpl. rewrite union_empty_l_L. split; [by apply inv_take|]. simpl. unfold free in Ef.
      apply andb_true_iff in Ef as [?%Z.ltb_lt _]. lia.
    + unfold with_phase, closing; simpl. rewrite union_empty_l_L, list_insert_id by done. destruct s. split; [exact Hi|]. simpl. lia.
  - destruct (phases s !! t) as [[|ch|]|] eqn:Ht; try done. unfold enqueue in Hstep. destruct (free (sem s)) eqn:Ef; injection Hstep as <-.
    + split; [apply inv_take; auto|]. simpl. unfold free in Ef. apply andb_true_iff in Ef as [?%Z.ltb_lt _]. lia.
    + split; [by apply inv_enqueue|]. simpl. lia.
  - destruct (phases s !! t) as [[|ch|]|] eqn:Ht; try done. case_decide as Hc; [|done]. injection Hstep as <-. split; [|simpl; lia].
    destruct Hi as [Hcore Hbusy]. constructor; [|exact Hbusy]. destruct s as [[sz us ws] n closed ps]. unfold with_phase; simpl in *.
    replace us with (us - slotOf closed (Waiting ch) + slotOf closed Holding) by (simpl; rewrite decide_True by done; lia).
    apply (core_move (mkSlots (mkSemaphore sz us ws) n closed ps)); try done; [by destruct Hcore|]. intros c. split; [|tauto].
    intros Hin. split; [done|]. intros [= ->]. by apply (sc_waiting _ Hcore) in Hin as [? _].
  - destruct (phases s !! t) as [[|ch|]|] eqn:Ht; try done. injection Hstep as <-. unfold abandon.
    destruct (remove1 ch (waiters (sem s))) as [ws|] eqn:Er.
    + destruct Hi as [Hcore Hbusy]. destruct (remove1_spec _ _ _ (sc_sorted _ Hcore) Er) as (Hin & Hs & Hws). split; [|simpl; lia].
      constructor; simpl.
      * unfold with_phase, closing; simpl. rewrite union_empty_l_L. apply (sc_waiting _ Hcore) in Hin as [Hnc _].
        replace (used (sem s)) with (used (sem s) - slotOf (closedChans s) (Waiting ch) + slotOf (closedChans s) Out)
          by (simpl; rewrite decide_False by done; lia).
        apply core_move; try done. intros x. rewrite Hws. naive_solver.
      * intros _. apply Hbusy. intros Hn. rewrite Hn in Hin. set_solver.
    + apply remove1_none in Er. assert (slotOf (closedChans s) (Waiting ch) = 1) as Hp.
      { simpl. destruct (decide (ch ∈ closedChans s)) as [|Hnc]; [done|]. exfalso. apply Er, (sc_waiting _ (si_core _ Hi)). eauto. }
      destruct (inv_release _ _ _ Hi Ht Hp) as [H1 H2]. split; [exact H1|]. simpl.
      destruct (grantLocked_inv s (mkSemaphore (size_ (sem s)) (used (sem s)) (waiters (sem s)))) as (_ & _ & _); [by destruct s as [[] ? ? ?], Hi|].
      unfold Release, grantLocked in *. simpl in *. destruct (grantLoop _ _ _) as [[? ?] ?]. simpl in *. lia.
  - destruct (phases s !! t) as [[|ch|]|] eqn:Ht; try done. injection Hstep as <-. destruct (inv_release _ _ _ Hi Ht eq_refl) as [H1 H2].
    split; [exact H1|]. simpl. unfold Release, grantLocked in *. simpl in *. destruct (grantLoop _ _ _) as [[? ?] ?]. simpl in *. lia.
  - injection Hstep as <-. unfold Resize. destruct (grantLocked_inv s (mkSemaphore n (used (sem s)) (waiters (sem s)))) as (H1 & H2 & H3).
    + destruct Hi as [[] _]. by constructor.
    + split; [exact H1|]. simpl in *. rewrite H3. lia.
Qed.

Lemma slotStart_inv size n : slotInv (slotStart size n).
Proof.
  assert (forall t ch, replicate n Out !! t <> Some (Waiting ch)) as Hno by (intros t ch [? _]%lookup_replicate; done).
  constructor; [constructor; simpl|done].
  - clear Hno. induction n as [|n IH]; [done|]. simpl in *. lia.
  - intros ch. split; [set_solver|]. intros [_ [t Ht]]. by apply Hno in Ht.
  - constructor.
  - intros t ch Ht. by apply Hno in Ht.
  - set_solver.
  - intros t u ch Ht. by apply Hno in Ht.
  - set_solver.
Qed.

Lemma slotRun_inv es s : slotInv s -> slotInv (slotRun es s).
Proof.
  unfold slotRun. revert s. induction es as [|e es IH]; intros s Hi; simpl; [done|]. apply IH. destruct (slotStep e s) as [s'|] eqn:E; [|done].
  by destruct (slotStep_inv _ _ _ Hi E).
Qed.


(** * The semaphore keeps its count, serves in order of arrival and serves
    everyone. *)

(** The slots the threads have. *)
Definition taken (s : slots) : Z := sumOver (slotOf (closedChans s)) (phases s).

Lemma taken_some s : 0 < taken s -> exists t p, phases s !! t = Some p /\ slotOf (closedChans s) p = 1.
Proof.
  unfold taken. induction (phases s) as [|p ps IH]; simpl; [lia|]. intros Hs. destruct (decide (slotOf (closedChans s) p = 1)) as [Hp|Hp].
  - by exists 0%nat, p.
  - destruct IH as (t & q & Ht & Hq); [|by exists (S t), q]. destruct p as [|ch|]; simpl in *; try lia. case_decide; lia.
Qed.

(** A semaphore counts right and serves in order.  After any events, in any
    order, of any threads (slots taken, waited for, given up as they are
    granted, given back, the size changed meanwhile), the slots counted as used
    are those threads hold or were granted; no slot is free while a thread
    waits, so that some thread is always there to hand one on; a thread that
    came first is granted first; and no event but a smaller size leaves more
    slots used than there are. *)
Theorem semaphore_fair (size : Z) (threads : nat) (es : list slotEvent) :
  let s := slotRun es (slotStart size threads) in
  used (sem s) = taken s /\
  (forall t ch, phases s !! t = Some (Waiting ch) -> ch ∉ closedChans s ->
     size_ (sem s) <= used (sem s) /\
     (0 < size_ (sem s) -> exists u p, phases s !! u = Some p /\ slotOf (closedChans s) p = 1)) /\
  (forall t u ch ch', phases s !! t = Some (Waiting ch) -> phases s !! u = Some (Waiting ch') -> (ch < ch')%nat ->
     ch' ∈ closedChans s -> ch ∈ closedChans s) /\
  (forall e s', slotStep e s = Some s' -> used (sem s') <= Z.max (used (sem s)) (size_ (sem s'))).
Proof.
  intros s. pose proof (slotRun_inv es _ (slotStart_inv size threads)) as [Hcore Hbusy]. fold s in Hcore, Hbusy.
  split; [apply (sc_used _ Hcore)|]. split; [|split].
  - intros t ch Ht Hn. assert (ch ∈ waiters (sem s)) as Hin by (apply (sc_waiting _ Hcore); eauto).
    assert (size_ (sem s) <= used (sem s)) as Hle by (apply Hbusy; intros E; rewrite E in Hin; set_solver). split; [done|].
    intros Hp. apply taken_some. unfold taken. rewrite <- (sc_used _ Hcore). lia.
  - intros t u ch ch' Ht Hu Hlt Hc. destruct (decide (ch ∈ closedChans s)) as [|Hn]; [done|].
    assert (ch ∈ waiters (sem s)) as Hin by (apply (sc_waiting _ Hcore); eauto). specialize (sc_fifo _ Hcore _ _ Hc Hin). lia.
  - intros e s' He. by apply (slotStep_inv e s s').
Qed.

(** ** Everyone is served *)

(** [ch] waits with at most [r] slots to be given back before it. *)
Definition behind (ch r : nat) (s : slots) : Prop :=
  ch ∉ closedChans s /\
  exists pre post, waiters (sem s) = pre ++ ch :: post /\ Z.of_nat (length pre) + Z.max 0 (used (sem s) - size_ (sem s)) <= Z.of_nat r.

Lemma grantLoop_behind sz ch post pre : forall us us' rest cl,
  grantLoop sz us (pre ++ ch :: post) = (us', rest, cl) ->
  ch ∈ cl \/ exists pre', rest = pre' ++ ch :: post /\ sz <= us' /\ Z.of_nat (length pre') + us' = Z.of_nat (length pre) + us.
Proof.
  induction pre as [|w pre IH]; intros us us' rest cl; simpl.
  - destruct (us <? sz) eqn:E; [|intros [= <- <- <-]; right; exists []; split; [done|]; apply Z.ltb_ge in E; simpl; lia].
    destruct (grantLoop sz (us + 1) post) as [[? ?] ?]. intros [= <- <- <-]. left. set_solver.
  - destruct (us <? sz) eqn:E.
    + destruct (grantLoop sz (us + 1) (pre ++ ch :: post)) as [[u2 r2] c2] eqn:Eg. intros [= <- <- <-].
      destruct (IH _ _ _ _ Eg) as [?|(pre' & -> & ? & Hl)]; [left; set_solver|right]. exists pre'. split; [done|]. split; [done|lia].
    + intros [= <- <- <-]. right. exists (w :: pre). split; [done|]. apply Z.ltb_ge in E. simpl. lia.
Qed.

(** A slot given back brings the waiter nearer. *)
Lemma release_behind s ch r :
  slotInv s -> behind ch r s ->
  ch ∈ (list_to_set (Release (sem s)).2 ∪ closedChans s : gset nat) \/ ((0 < r)%nat /\ forall t p, behind ch (r - 1) (with_phase t p (closing (Release (sem s)) s))).
Proof.
  intros Hi (Hn & pre & post & Hw & Hr). unfold behind, with_phase, closing, Release, grantLocked. simpl.
  destruct (grantLoop _ _ _) as [[us' rest] cl] eqn:E. rewrite Hw in E. simpl.
  assert (size_ (sem s) <= used (sem s)) as Hb by (apply (si_busy _ Hi); rewrite Hw; by destruct pre).
  destruct (decide (ch ∈ cl)) as [?|Hnc]; [left; set_solver|].
  destruct (grantLoop_behind _ _ _ _ _ _ _ _ E) as [?|(pre' & -> & Hle & Hl)]; [done|right]. split; [lia|]. intros t p. split; [set_solver|].
  exists pre', post. split; [done|]. lia.
Qed.

Lemma remove1_behind ch c ws ws' pre post :
  ch <> c -> remove1 c ws = Some ws' -> ws = pre ++ ch :: post -> exists pre' post', ws' = pre' ++ ch :: post' /\ (length pre' <= length pre)%nat.
Proof.
  intros Hne. revert ws' pre. induction ws as [|w ws IH]; intros ws' pre; simpl; [done|]. case_decide as Hd.
  - intros [= <-] Hw. destruct pre as [|x pre]; simpl in Hw; injection Hw as Hx Hws; [congruence|]. exists pre, post. split; [done|simpl; lia].
  - destruct (remove1 c ws) as [r|] eqn:Er; [|done]. intros [= <-] Hw. destruct pre as [|x pre]; simpl in Hw; injection Hw as -> Hws.
    + by exists [], r.
    + destruct (IH r pre eq_refl Hws) as (pre' & post' & -> & Hl). exists (x :: pre'), post'. split; [done|simpl; lia].
Qed.

(** The slots an event gives back. *)
Definition leaves (e : slotEvent) : nat := match e with Leave _ => 1 | _ => 0 end.

(** Every event of another thread, the size kept, leaves a waiter no farther;
    a slot given back, nearer. *)
Lemma step_behind e s s' t ch r :
  slotInv s -> phases s !! t = Some (Waiting ch) -> behind ch r s -> e <> GiveUp t -> (forall n, e <> Grow n) -> slotStep e s = Some s' ->
  phases s' !! t = Some (Waiting ch) /\
  (ch ∈ closedChans s' \/ behind ch (r - leaves e) s' /\ (leaves e <= r)%nat).
Proof.
  intros Hi Ht Hb He Hgrow Hstep. destruct e as [u|u|u|u|u|n]; simpl in Hstep.
  all: try (destruct (phases s !! u) as [[|c|]|] eqn:Hu; try done; try assert (u <> t) as Hne by congruence).
  all: assert (waiters (sem s) <> []) as Hnn by (destruct Hb as (_ & pre & post & -> & _); by destruct pre).
  all: assert (free (sem s) = false) as Hfree by (unfold free; apply andb_false_iff; right; by apply bool_decide_eq_false_2).
  - unfold TryAcquire in Hstep. rewrite Hfree in Hstep. injection Hstep as <-. simpl. rewrite list_lookup_insert_ne by done.
    split; [done|]. right. rewrite Nat.sub_0_r. split; [|simpl; lia]. destruct Hb as (Hn & Hb). split; [simpl; set_solver|done].
  - unfold enqueue in Hstep. rewrite Hfree in Hstep. injection Hstep as <-. simpl. rewrite list_lookup_insert_ne by done.
    split; [done|]. right. rewrite Nat.sub_0_r. split; [|simpl; lia]. destruct Hb as (Hn & pre & post & Hw & Hr). split; [done|].
    exists pre, (post ++ [nextChan s]). simpl. rewrite Hw, <- app_assoc. done.
  - case_decide; [|done]. injection Hstep as <-. assert (u <> t) as Hne by (intros ->; destruct Hb; congruence). simpl. rewrite list_lookup_insert_ne by done. split; [done|]. right.
    rewrite Nat.sub_0_r. split; [exact Hb|simpl; lia].
  - injection Hstep as <-. simpl. rewrite list_lookup_insert_ne by done. split; [done|]. rewrite Nat.sub_0_r.
    unfold abandon. destruct (remove1 c (waiters (sem s))) as [ws|] eqn:Er.
    + right. split; [|lia]. destruct Hb as (Hn & pre & post & Hw & Hr).
      assert (ch <> c) as Hcc by (intros ->; apply Hne; by eapply (sc_unique _ (si_core _ Hi))).
      destruct (remove1_behind _ _ _ _ _ _ Hcc Er Hw) as (pre' & post' & -> & Hl). split; [simpl; set_solver|]. exists pre', post'.
      simpl. split; [done|lia].
    + destruct (release_behind _ _ _ Hi Hb) as [?|[Hlt Hx]]; [by left|right]. split; [|lia].
      destruct (Hx u Out) as (Hn & pre & post & Hw & Hr). split; [done|]. exists pre, post. split; [done|lia].
  - injection Hstep as <-. simpl. rewrite list_lookup_insert_ne by done. split; [done|].
    destruct (release_behind _ _ _ Hi Hb) as [?|[Hlt Hx]]; [by left|right]. split; [apply Hx|simpl; lia].
  - by destruct (Hgrow n).
Qed.

(** The events of a run that happen. *)
Fixpoint happened (es : list slotEvent) (s : slots) : list slotEvent :=
  match es with
  | [] => []
  | e :: es => match slotStep e s with Some s' => e :: happened es s' | None => happened es s end
  end.

Definition given (es : list slotEvent) : nat := sum_list_with leaves es.

Lemma slotStep_closed e s s' : slotStep e s = Some s' -> closedChans s ⊆ closedChans s'.
Proof.
  destruct e as [t|t|t|t|t|n]; simpl; [destruct (phases s !! t) as [[| |]|]; try done..|]; repeat case_match; intros; simplify_eq; set_solver.
Qed.

Lemma run_closed es : forall s, closedChans s ⊆ closedChans (slotRun es s).
Proof.
  unfold slotRun. induction es as [|e es IH]; intros s; simpl; [done|]. destruct (slotStep e s) as [s'|] eqn:E; [|apply IH].
  apply slotStep_closed in E. etrans; [exact E|apply IH].
Qed.

Lemma run_behind es : forall s t ch r,
  slotInv s -> phases s !! t = Some (Waiting ch) -> behind ch r s ->
  (forall e, e ∈ es -> e <> GiveUp t /\ forall n, e <> Grow n) -> (r < given (happened es s))%nat -> ch ∈ closedChans (slotRun es s).
Proof.
  induction es as [|e es IH]; intros s t ch r Hi Ht Hb He Hr; simpl in *; [unfold given in Hr; simpl in Hr; lia|].
  destruct (He e) as (Hg & Hgr); [set_solver|]. unfold slotRun. simpl. fold (slotRun es).
  destruct (slotStep e s) as [s'|] eqn:Es; [|apply (IH s t ch r); try done; set_solver].
  destruct (slotStep_inv _ _ _ Hi Es) as [Hi' _]. destruct (step_behind e s s' t ch r Hi Ht Hb Hg Hgr Es) as [Ht' [Hc|[Hb' Hle]]].
  { by apply run_closed. }
  apply (IH s' t ch (r - leaves e)%nat); try done; [set_solver|]. unfold given in *. simpl in Hr. lia.
Qed.

Lemma waiting_behind s t ch :
  slotInv s -> phases s !! t = Some (Waiting ch) -> ch ∉ closedChans s ->
  behind ch (length (waiters (sem s)) - 1 + Z.to_nat (used (sem s) - size_ (sem s))) s.
Proof.
  intros Hi Ht Hn. split; [done|]. assert (ch ∈ waiters (sem s)) as Hin by (apply (sc_waiting _ (si_core _ Hi)); eauto).
  apply list_elem_of_split in Hin as (pre & post & Hw). exists pre, post. split; [done|]. rewrite Hw, length_app. simpl. lia.
Qed.

(** Nobody waits for ever.  From whatever state threads came to, a thread
    that waits, and whose context goes on, has its slot once as many slots
    were given back as there are threads waiting and slots used past the size;
    however the events of the other threads fall, new ones that come for a
    slot included. *)
Theorem semaphore_serves (size : Z) (threads : nat) (es later : list slotEvent) (t ch : nat) :
  let s := slotRun es (slotStart size threads) in
  phases s !! t = Some (Waiting ch) ->
  (forall e, e ∈ later -> e <> GiveUp t /\ forall n, e <> Grow n) ->
  (length (waiters (sem s)) + Z.to_nat (used (sem s) - size_ (sem s)) <= given (happened later s))%nat ->
  ch ∈ closedChans (slotRun later s).
Proof.
  intros s Ht He Hg. pose proof (slotRun_inv es _ (slotStart_inv size threads)) as Hi. fold s in Hi.
  destruct (decide (ch ∈ closedChans s)) as [Hc|Hn]; [by apply run_closed|].
  eapply run_behind; [exact Hi|exact Ht|exact (waiting_behind s t ch Hi Ht Hn)|exact He|].
  assert (ch ∈ waiters (sem s)) as Hin by (apply (sc_waiting _ (si_core _ Hi)); eauto).
  destruct (waiters (sem s)) as [|w ws]; [set_solver|]. simpl in *. lia.
Qed.

(** ** Three threads, one slot, one more as it grows, and a shrink *)

Definition queueUp : list slotEvent := [Try 0; Try 1; Enter 1; Enter 2; Grow 2; Enter 3; Wake 1; Grow 1].

Definition servedThen : list slotEvent := [Leave 0; Leave 1; Wake 2; Leave 2].

Example queue_up :
  let s := slotRun queueUp (slotStart 1 4) in
  phases s = [Holding; Holding; Waiting 1; Waiting 2] /\ used (sem s) = 2 /\ size_ (sem s) = 1 /\ waiters (sem s) = [1%nat; 2%nat] /\
  phases (slotRun servedThen s) = [Out; Out; Out; Waiting 2] /\ used (sem (slotRun servedThen s)) = 1.
Proof. vm_compute. auto 10. Qed.

Lemma semaphore_serves_witness :
  let s := slotRun queueUp (slotStart 1 4) in
  phases s !! 3%nat = Some (Waiting 2) /\ closedChans s = {[0%nat]} /\ 2%nat ∈ closedChans (slotRun servedThen s).
Proof.
  intros s. split; [reflexivity|]. split; [apply (bool_decide_unpack _); vm_compute; exact I|].
  apply (semaphore_serves 1 4 queueUp servedThen 3 2).
  - reflexivity.
  - intros e He. unfold servedThen in He. repeat (apply elem_of_cons in He as [->|He]; [split; [done|intros; done]|]). by apply not_elem_of_nil in He.
  - vm_compute. lia.
Defined.

Lemma semaphore_fair_witness :
  let s := slotRun queueUp (slotStart 1 4) in used (sem s) = 2 /\ taken s = 2 /\ size_ (sem s) <= used (sem s).
Proof.
  intros s. destruct (semaphore_fair 1 4 queueUp) as (Hu & Hw & _). fold s in Hu, Hw.
  split; [reflexivity|]. split; [rewrite <- Hu; reflexivity|]. apply (Hw 3%nat 2%nat); [reflexivity|].
  apply (bool_decide_unpack _). vm_compute. exact I.
Defined.
