(* ===== verification/Lane.v ===== *)
(** The lanes that admit a process's database work: core/bus/lane.go and the
    admission of core/bus/bus.go, with the slots the engine takes for the work
    of the Serve lane (core/engine/engine.go, submit and execute).

    The work in progress is a list of threads, each at a place of the code that
    admits it.  A step is one atomic access: of a counter, of a ticket's mark or
    of a semaphore (whose critical sections are those of Semaphore.v).  Which
    thread steps next, when contexts end, when work is done, when a ticket is
    canceled and when the limits change are events in any order. *)

From S2P Require Import Prelude Semaphore.

(** ** Lanes and limits *)

Inductive LaneName : Type := Serve | Admin | Scan | Background.

#[export] Instance LaneName_eq : EqDecision LaneName.
Proof. solve_decision. Defined.

Definition Lanes : list LaneName := [Serve; Admin; Scan; Background].

Record LaneLimits : Type := mkLaneLimits { MaxConcurrent : Z; MaxQueue : Z }.

Definition DefaultLimits (name : LaneName) : LaneLimits :=
  match name with
  | Serve => mkLaneLimits 256 0
  | Admin => mkLaneLimits 4 16
  | Scan => mkLaneLimits 2 8
  | Background => mkLaneLimits 2 64
  end.

Definition DefaultIO : Z := 16.

Record Lane : Type := mkLane {
  l_slots : slots;
  maxQueue : Z;
  queued : Z;                              (** waiting for a lane slot, or holding a ticket *)
  ioWait : Z;                              (** holding a lane slot, waiting for IO *)
  inflight : Z;
  rejected : Z;
  completed : Z;
}.

(** ** The work *)

(** What a call starts. *)
Inductive laneCall : Type := CTryEnter | CExecute | CAcquire (bounded : bool) | CQueue.

(** Where the work of a thread is; the comments say what it does next. *)
Inductive place : Type :=
  | Idle
  | Begun (c : laneCall)                   (** the call's first access, the bus seen open *)
  | Refusing                               (** rejected.Add(1), then fail *)
  (* TryEnter and the engine *)
  | Entered                                (** inflight.Add(1) *)
  | Engaged                               (** the engine: quota.io.Acquire, or a shared execution *)
  | Sharing                                (** waits for a shared execution *)
  | ServeIO                                (** inside it *)
  | Serving                                (** the tool runs *)
  | Served                                 (** quota.io.Release *)
  (* the engine's shared execution, in a thread of its own *)
  | ExecIO                                 (** inside quota.io.Acquire *)
  | Executing                              (** the tool runs *)
  | Executed                               (** quota.io.Release *)
  (* acquire *)
  | NoSlot (bounded : bool)                (** queued.Add(1) *)
  | Bounding (q : Z)                       (** maxQueue.Load *)
  | Over                                   (** queued.Add(-1), then refuse *)
  | Queued                                 (** slots.Acquire *)
  | InSlots                                (** inside it *)
  | SlotQueued                             (** ioWait.Add(1) *)
  | SlotBoth                               (** queued.Add(-1) *)
  | Unqueued                               (** queued.Add(-1), then fail *)
  | SlotOnly                               (** ioWait.Add(1) *)
  (* Queue and Ticket.Acquire *)
  | Sized                                  (** slots.Stats *)
  | Capacity (size : Z)                    (** maxQueue.Load *)
  | Counting (capacity : Z)                (** queued.Add(1) *)
  | Counted1 (capacity q : Z)              (** ioWait.Load *)
  | Counted2 (capacity q : Z)              (** inflight.Load *)
  | Ticketed                               (** holds a ticket; left.Load on Acquire *)
  | TakingSlot                             (** slots.Acquire *)
  | TicketInSlots                          (** inside it *)
  | TicketSlot                             (** ioWait.Add(1) *)
  | TicketBoth                             (** leave: left.CompareAndSwap *)
  | TicketLost                             (** leave, then fail *)
  (* admit *)
  | NeedIO                                 (** bus.io *)
  | InAux                                  (** inside aux.Acquire *)
  | HasAux                                 (** ioSlots.Acquire *)
  | InIO                                   (** inside it *)
  | HasIO                                  (** inflight.Add(1) *)
  | Starting                               (** ioWait.Add(-1) *)
  | NoIO                                   (** aux.Release, then fail *)
  | Failed                                 (** ioWait.Add(-1) *)
  | FailedSlot                             (** slots.Release, then fail *)
  | Running                                (** the work runs *)
  (* release *)
  | Ended                                  (** ioSlots.Release *)
  | EndedAux                               (** aux.Release *)
  | Leaving                                (** inflight.Add(-1) *)
  | Left                                   (** completed.Add(1) *)
  | LeftSlot.                              (** slots.Release *)

(** The mark of a thread's ticket, and whether the one who canceled it has
    still to take it off the queue's count. *)
Inductive ticket : Type := NoTicket | InQueue | Canceling | Gone.

Record thread : Type := mkThread { th_lane : LaneName; th_place : place; th_ticket : ticket }.

(** ** The steps of a thread *)

Inductive sempart : Type := LaneSlots | Aux | IO.
Inductive semop : Type := OTry | OEnter | OCollect | OGiveUp | OLeave.

Inductive effect : Type :=
  | Nothing
  | AddQueued (d : Z)
  | AddIoWait (d : Z)
  | AddInflight (d : Z)
  | AddRejected
  | AddCompleted
  | OnSem (s : sempart) (op : semop).

Definition at_ (p : place) (th : thread) : thread := mkThread (th_lane th) p (th_ticket th).
Definition marked (k : ticket) (p : place) (th : thread) : thread := mkThread (th_lane th) p k.

(** TryEnter, a shared execution, acquire and Queue at their first atomic access, the
    bus seen open. *)
Definition begin (c : laneCall) (th : thread) : effect * (bool -> thread) :=
  match c with
  | CTryEnter => (OnSem LaneSlots OTry, fun ok : bool => at_ (if ok then Entered else Refusing) th)
  | CExecute => (OnSem IO OEnter, fun _ : bool => at_ ExecIO th)
  | CAcquire bounded => (OnSem LaneSlots OTry, fun ok : bool => at_ (if ok then SlotOnly else NoSlot bounded) th)
  | CQueue => (Nothing, fun _ : bool => at_ Sized th)
  end.

(** The next step of a thread where [l] is its lane; the boolean is whether
    the semaphore gave a slot. *)
Definition next (l : Lane) (th : thread) : option (effect * (bool -> thread)) :=
  let go e p := Some (e, fun _ : bool => at_ p th) in
  match th_place th with
  | Idle | Sharing | Serving | Executing | Running | Ticketed => None
  | Begun c => Some (begin c th)
  | Refusing => go AddRejected Idle
  | Entered => go (AddInflight 1) Engaged
  | Engaged => go (OnSem IO OEnter) ServeIO
  | ServeIO => go (OnSem IO OCollect) Serving
  | Served => go (OnSem IO OLeave) Leaving
  | ExecIO => go (OnSem IO OCollect) Executing
  | Executed => go (OnSem IO OLeave) Idle
  | NoSlot bounded => go (AddQueued 1) (if bounded then Bounding (queued l + 1) else Queued)
  | Bounding q => go Nothing (if maxQueue l <? q then Over else Queued)
  | Over => go (AddQueued (-1)) Refusing
  | Queued => go (OnSem LaneSlots OEnter) InSlots
  | InSlots => go (OnSem LaneSlots OCollect) SlotQueued
  | SlotQueued => go (AddIoWait 1) SlotBoth
  | SlotBoth => go (AddQueued (-1)) NeedIO
  | Unqueued => go (AddQueued (-1)) Idle
  | SlotOnly => go (AddIoWait 1) NeedIO
  | Sized => go Nothing (Capacity (Size (Stats (sem (l_slots l)))))
  | Capacity size => go Nothing (Counting (size + maxQueue l))
  | Counting capacity => go (AddQueued 1) (Counted1 capacity (queued l + 1))
  | Counted1 capacity q => go Nothing (Counted2 capacity (q + ioWait l))
  | Counted2 capacity q =>
      if capacity <? q + inflight l then go Nothing Over
      else Some (Nothing, fun _ : bool => marked InQueue Ticketed th)
  | TakingSlot => go (OnSem LaneSlots OEnter) TicketInSlots
  | TicketInSlots => go (OnSem LaneSlots OCollect) TicketSlot
  | TicketSlot => go (AddIoWait 1) TicketBoth
  | TicketBoth =>
      match th_ticket th with
      | InQueue => Some (Nothing, fun _ : bool => marked Gone SlotBoth th)
      | _ => go Nothing Failed
      end
  | TicketLost =>
      match th_ticket th with
      | InQueue => Some (Nothing, fun _ : bool => marked Gone Unqueued th)
      | _ => go Nothing Idle
      end
  | NeedIO => if decide (th_lane th = Serve) then go (OnSem IO OEnter) InIO else go (OnSem Aux OEnter) InAux
  | InAux => go (OnSem Aux OCollect) HasAux
  | HasAux => go (OnSem IO OEnter) InIO
  | InIO => go (OnSem IO OCollect) HasIO
  | HasIO => go (AddInflight 1) Starting
  | Starting => go (AddIoWait (-1)) Running
  | NoIO => if decide (th_lane th = Serve) then go Nothing Failed else go (OnSem Aux OLeave) Failed
  | Failed => go (AddIoWait (-1)) FailedSlot
  | FailedSlot => go (OnSem LaneSlots OLeave) Idle
  | Ended => go (OnSem IO OLeave) (if decide (th_lane th = Serve) then Leaving else EndedAux)
  | EndedAux => go (OnSem Aux OLeave) Leaving
  | Leaving => go (AddInflight (-1)) Left
  | Left => go AddCompleted LeftSlot
  | LeftSlot => go (OnSem LaneSlots OLeave) Idle
  end.

(** Where a thread goes when its context ends as it waits. *)
Definition gaveUp (th : thread) : option (effect * (bool -> thread)) :=
  let go s p := Some (OnSem s OGiveUp, fun _ : bool => at_ p th) in
  match th_place th with
  | ServeIO => go IO Leaving
  | ExecIO => go IO Idle
  | InSlots => go LaneSlots Unqueued
  | TicketInSlots => go LaneSlots TicketLost
  | InAux => go Aux Failed
  | InIO => go IO NoIO
  | _ => None
  end.

(** ** The bus *)

Record Bus : Type := mkBus {
  b_io : slots;
  b_aux : slots;
  b_lanes : LaneName -> Lane;
  b_closed : bool;
  b_threads : list thread;
}.

Definition semOp (op : semop) (t : nat) (s : slots) : option (slots * bool) :=
  match op with
  | OTry => (fun s' => (s', match phases s' !! t with Some Holding => true | _ => false end)) <$> slotStep (Try t) s
  | OEnter => (fun s' => (s', true)) <$> slotStep (Enter t) s
  | OCollect => match phases s !! t with
                | Some Holding => Some (s, true)
                | _ => (fun s' => (s', true)) <$> slotStep (Wake t) s
                end
  | OGiveUp => (fun s' => (s', true)) <$> slotStep (GiveUp t) s
  | OLeave => (fun s' => (s', true)) <$> slotStep (Leave t) s
  end.

Definition setLane (name : LaneName) (l : Lane) (b : Bus) : Bus :=
  mkBus (b_io b) (b_aux b) (fun n => if decide (n = name) then l else b_lanes b n) (b_closed b) (b_threads b).

Definition addTo (e : effect) (l : Lane) : Lane :=
  match e with
  | AddQueued d => mkLane (l_slots l) (maxQueue l) (queued l + d) (ioWait l) (inflight l) (rejected l) (completed l)
  | AddIoWait d => mkLane (l_slots l) (maxQueue l) (queued l) (ioWait l + d) (inflight l) (rejected l) (completed l)
  | AddInflight d => mkLane (l_slots l) (maxQueue l) (queued l) (ioWait l) (inflight l + d) (rejected l) (completed l)
  | AddRejected => mkLane (l_slots l) (maxQueue l) (queued l) (ioWait l) (inflight l) (rejected l + 1) (completed l)
  | AddCompleted => mkLane (l_slots l) (maxQueue l) (queued l) (ioWait l) (inflight l) (rejected l) (completed l + 1)
  | _ => l
  end.

Definition with_slots (s : slots) (l : Lane) : Lane :=
  mkLane s (maxQueue l) (queued l) (ioWait l) (inflight l) (rejected l) (completed l).
Definition with_maxQueue (n : Z) (l : Lane) : Lane :=
  mkLane (l_slots l) n (queued l) (ioWait l) (inflight l) (rejected l) (completed l).

(** The semaphore of a part, as the lane [name] sees it. *)
Definition part (name : LaneName) (p : sempart) (b : Bus) : slots :=
  match p with LaneSlots => l_slots (b_lanes b name) | Aux => b_aux b | IO => b_io b end.

Definition set_part (name : LaneName) (p : sempart) (s : slots) (b : Bus) : Bus :=
  match p with
  | LaneSlots => setLane name (with_slots s (b_lanes b name)) b
  | Aux => mkBus (b_io b) s (b_lanes b) (b_closed b) (b_threads b)
  | IO => mkBus s (b_aux b) (b_lanes b) (b_closed b) (b_threads b)
  end.

Definition set_thread (t : nat) (th : thread) (b : Bus) : Bus :=
  mkBus (b_io b) (b_aux b) (b_lanes b) (b_closed b) (<[t := th]> (b_threads b)).

Definition apply_effect (t : nat) (name : LaneName) (e : effect) (b : Bus) : option (Bus * bool) :=
  match e with
  | Nothing => Some (b, true)
  | OnSem p op => '(s, ok) ← semOp op t (part name p b); Some (set_part name p s b, ok)
  | _ => Some (setLane name (addTo e (b_lanes b name)) b, true)
  end.

Inductive busEvent : Type :=
  | Call (t : nat) (name : LaneName) (c : laneCall)  (** a call begins *)
  | Step (t : nat)                                   (** the next atomic access *)
  | ContextEnds (t : nat)                            (** as it waits for a slot *)
  | Join (t : nat)                                   (** the engine shares an execution *)
  | WorkEnds (t : nat)                               (** the work returns *)
  | Take (t : nat)                                   (** Ticket.Acquire *)
  | Cancel (t : nat)                                 (** Ticket.Cancel, its mark *)
  | CancelEnd (t : nat)                              (** and its place in the queue *)
  | ResizePart (name : LaneName) (p : sempart) (n : Z)
  | SetQueue (name : LaneName) (n : Z)
  | CloseBus.

Definition act (t : nat) (r : effect * (bool -> thread)) (b : Bus) : option Bus :=
  let name := th_lane (r.2 true) in
  '(b', ok) ← apply_effect t name r.1 b; Some (set_thread t (r.2 ok) b').

Definition busStep (e : busEvent) (b : Bus) : option Bus :=
  match e with
  | Call t name c =>
      match b_threads b !! t with
      | Some (mkThread _ Idle (NoTicket | Gone)) =>
          match c with
          | CExecute => Some (set_thread t (mkThread name (Begun c) NoTicket) b)
          | _ => if b_closed b then Some b (* ErrClosed *) else Some (set_thread t (mkThread name (Begun c) NoTicket) b)
          end
      | _ => None
      end
  | Step t => th ← b_threads b !! t; r ← next (b_lanes b (th_lane th)) th; act t r b
  | ContextEnds t => th ← b_threads b !! t; r ← gaveUp th; act t r b
  | Join t =>
      th ← b_threads b !! t;
      match th_place th with Engaged => Some (set_thread t (at_ Sharing th) b) | _ => None end
  | WorkEnds t =>
      th ← b_threads b !! t;
      match th_place th with
      | Running => Some (set_thread t (at_ Ended th) b)
      | Serving => Some (set_thread t (at_ Served th) b)
      | Sharing => Some (set_thread t (at_ Leaving th) b)
      | Executing => Some (set_thread t (at_ Executed th) b)
      | _ => None
      end
  | Take t =>
      th ← b_threads b !! t;
      match th_place th with
      | Ticketed => Some (set_thread t (at_ (match th_ticket th with InQueue => TakingSlot | _ => Idle end) th) b)
      | _ => None
      end
  | Cancel t =>
      th ← b_threads b !! t;
      match th_ticket th with
      | InQueue => Some (set_thread t (marked Canceling (th_place th) th) b)
      | _ => None
      end
  | CancelEnd t =>
      th ← b_threads b !! t;
      match th_ticket th with
      | Canceling => act t (AddQueued (-1), fun _ : bool => marked Gone (th_place th) th) b
      | _ => None
      end
  | ResizePart name p n => s ← slotStep (Grow n) (part name p b); Some (set_part name p s b)
  | SetQueue name n => Some (setLane name (with_maxQueue n (b_lanes b name)) b)
  | CloseBus => Some (mkBus (b_io b) (b_aux b) (b_lanes b) true (b_threads b))
  end.

Definition busRun (es : list busEvent) (b : Bus) : Bus := foldl (fun b e => default b (busStep e b)) b es.

(** ** New and Update *)

Definition laneLimits (name : LaneName) (limits : LaneName -> option LaneLimits) : LaneLimits :=
  match limits name with
  | Some l => if 0 <? MaxConcurrent l then l else DefaultLimits name
  | None => DefaultLimits name
  end.

Definition resizeIO (io : Z) : list busEvent :=
  let io := if io <=? 0 then DefaultIO else io in
  [ResizePart Serve IO io; ResizePart Serve Aux (Z.max 1 (Z.quot io 2))].

Definition updateLane (name : LaneName) (limits : LaneLimits) : list busEvent :=
  [ResizePart name LaneSlots (Z.max 1 (MaxConcurrent limits)); SetQueue name (Z.max 0 (MaxQueue limits))].

(** Bus.Update; its map of lanes is in no order. *)
Definition Update (io : Z) (limits : LaneName -> option LaneLimits) : list busEvent :=
  resizeIO io ++ flat_map (fun name => updateLane name (laneLimits name limits)) Lanes.

Definition newLane (threads : nat) : Lane := mkLane (slotStart 0 threads) 0 0 0 0 0 0.

(** bus.New, for [threads] pieces of work. *)
Definition NewBus (io : Z) (limits : LaneName -> option LaneLimits) (threads : nat) : Bus :=
  busRun (Update io limits)
    (mkBus (slotStart 0 threads) (slotStart 0 threads) (fun _ => newLane threads) false (replicate threads (mkThread Serve Idle NoTicket))).

(** ** Stats *)

Record LaneStats : Type := mkLaneStats {
  st_MaxConcurrent : Z; st_MaxQueue : Z; st_Inflight : Z; st_Queued : Z; st_Rejected : Z; st_Completed : Z;
}.

Definition laneStats (l : Lane) : LaneStats :=
  mkLaneStats (Size (Stats (sem (l_slots l)))) (maxQueue l) (inflight l) (queued l + ioWait l) (rejected l) (completed l).

(** ** Background tasks *)

Record tasks : Type := mkTasks { tk_closed : bool; tk_count : gmap string Z; tk_wg : Z }.

Definition enter (name : string) (s : tasks) : tasks * bool :=
  if tk_closed s then (s, false)
  else (mkTasks false (<[name := default 0 (tk_count s !! name) + 1]> (tk_count s)) (tk_wg s + 1), true).

Definition exit (name : string) (s : tasks) : tasks :=
  let n := default 0 (tk_count s !! name) - 1 in
  mkTasks (tk_closed s) (if n =? 0 then delete name (tk_count s) else <[name := n]> (tk_count s)) (tk_wg s - 1).

(** Go and a timer that fires start a task, Close ends the starts; [running]
    are the tasks under way. *)
Inductive taskEvent : Type := StartTask (name : string) | EndTask (n : nat) | CloseTasks.

Definition taskStep (e : taskEvent) (x : tasks * list string) : tasks * list string :=
  let '(s, running) := x in
  match e with
  | StartTask name => let '(s, ok) := enter name s in (s, if ok then name :: running else running)
  | EndTask n => match running !! n with Some name => (exit name s, delete n running) | None => (s, running) end
  | CloseTasks => (mkTasks true (tk_count s) (tk_wg s), running)
  end.

Definition noTasks : tasks * list string := (mkTasks false ∅ 0, []).
