(* ===== verification/LaneTheorems.v ===== *)
(** What holds of the lanes of a bus whatever the order of events: each count
    is of the work in the places it counts, and each semaphore's slots are
    those of the work in the places that hold one. *)

From S2P Require Import Prelude Semaphore SemaphoreTheorems Lane.

(** ** What a place counts and holds *)

Definition ticketQueued (k : ticket) : Z := match k with InQueue | Canceling => 1 | _ => 0 end.

(** In the lane's queue. *)
Definition isQueued (th : thread) : Z :=
  match th_place th with
  | Bounding _ | Over | Queued | InSlots | SlotQueued | SlotBoth | Unqueued | Counted1 _ _ | Counted2 _ _ => 1
  | _ => 0
  end + ticketQueued (th_ticket th).

(** With a lane slot, counted as waiting for IO. *)
Definition isIoWait (th : thread) : Z :=
  match th_place th with
  | SlotBoth | TicketBoth | NeedIO | InAux | HasAux | InIO | HasIO | Starting | NoIO | Failed => 1
  | _ => 0
  end.

Definition isInflight (th : thread) : Z :=
  match th_place th with
  | Engaged | Sharing | ServeIO | Serving | Served | Starting | Running | Ended | EndedAux | Leaving => 1
  | _ => 0
  end.

(** A place has no slot of a semaphore, waits for one, or holds one. *)
Inductive need : Type := NOut | NIn | NHold.

Definition needSlots (th : thread) : need :=
  match th_place th with
  | Entered | Engaged | Sharing | ServeIO | Serving | Served | SlotQueued | SlotBoth | SlotOnly | TicketSlot | TicketBoth
  | NeedIO | InAux | HasAux | InIO | HasIO | Starting | NoIO | Failed | FailedSlot | Running | Ended | EndedAux | Leaving | Left | LeftSlot => NHold
  | InSlots | TicketInSlots => NIn
  | _ => NOut
  end.

Definition needAux (th : thread) : need :=
  match th_place th with
  | InAux => NIn
  | HasAux | EndedAux => NHold
  | InIO | HasIO | Starting | NoIO | Running | Ended => if decide (th_lane th = Serve) then NOut else NHold
  | _ => NOut
  end.

Definition needIO (th : thread) : need :=
  match th_place th with
  | ServeIO | ExecIO | InIO => NIn
  | Serving | Served | Executing | Executed | HasIO | Starting | Running | Ended => NHold
  | _ => NOut
  end.

Definition needOf (p : sempart) (th : thread) : need :=
  match p with LaneSlots => needSlots th | Aux => needAux th | IO => needIO th end.

(** The Serve lane takes no auxiliary slot, and no ticket is out while Queue
    decides on one. *)
Definition threadOk (th : thread) : Prop :=
  match th_place th with
  | InAux | HasAux | EndedAux => th_lane th <> Serve
  | Begun _ | Sized | Capacity _ | Counting _ | Counted1 _ _ | Counted2 _ _ => th_ticket th = NoTicket
  | _ => True
  end.

Definition needAfter (op : semop) (ok : bool) (n : need) : option need :=
  match op, n with
  | OTry, NOut => Some (if ok then NHold else NOut)
  | OEnter, NOut => Some NIn
  | OCollect, NIn => Some NHold
  | OGiveUp, NIn => Some NOut
  | OLeave, NHold => Some NOut
  | _, _ => None
  end.

(** A thread's phase at a semaphore is what its place says. *)
Definition fits (n : need) (p : option phase) : Prop :=
  match n with NOut => p = Some Out | NIn => p = Some Holding \/ exists ch, p = Some (Waiting ch) | NHold => p = Some Holding end.

#[export] Instance sempart_eq : EqDecision sempart.
Proof. solve_decision. Defined.

Definition toQueued (e : effect) : Z := match e with AddQueued d => d | _ => 0 end.
Definition toIoWait (e : effect) : Z := match e with AddIoWait d => d | _ => 0 end.
Definition toInflight (e : effect) : Z := match e with AddInflight d => d | _ => 0 end.

(** What a step is allowed to do to the thread it moves. *)
Record lawful (th : thread) (r : effect * (bool -> thread)) : Prop := {
  lw_lane : forall ok, th_lane (r.2 ok) = th_lane th;
  lw_ok : forall ok, threadOk (r.2 ok);
  lw_queued : forall ok, isQueued (r.2 ok) = isQueued th + toQueued r.1;
  lw_ioWait : forall ok, isIoWait (r.2 ok) = isIoWait th + toIoWait r.1;
  lw_inflight : forall ok, isInflight (r.2 ok) = isInflight th + toInflight r.1;
  lw_need : forall ok p, match r.1 with
                         | OnSem p' op => if decide (p = p') then needAfter op ok (needOf p th) = Some (needOf p (r.2 ok))
                                          else needOf p (r.2 ok) = needOf p th
                         | _ => needOf p (r.2 ok) = needOf p th
                         end;
}.

(** The laws of a step from a place known to a place known. *)
Ltac lawful_here :=
  constructor; cbn;
  [intros _; reflexivity|intros []; cbn; first [exact I|reflexivity|discriminate]
  |intros []; reflexivity|intros []; reflexivity|intros []; reflexivity|intros [] []; reflexivity].

Lemma next_lawful l th r : threadOk th -> next l th = Some r -> lawful th r.
Proof.
  destruct th as [name p k]. intros Hok Hn. destruct p.
  2: { destruct c; cbn in Hok; subst k; injection Hn as <-; lawful_here. }
  all: destruct k; cbn in Hok; try discriminate Hok.
  all: destruct name; try (exfalso; by apply Hok); cbn in Hn; try discriminate Hn.
  all: repeat match type of Hn with context [if ?b then _ else _] => destruct b end.
  all: try congruence.
  all: injection Hn as <-.
  all: lawful_here.
Qed.

Lemma gaveUp_lawful th r : threadOk th -> gaveUp th = Some r -> lawful th r.
Proof.
  destruct th as [name p k]. intros Hok Hn. destruct p; cbn in Hn; try discriminate Hn; injection Hn as <-.
  all: destruct k; cbn in Hok; try discriminate Hok.
  all: destruct name; try (exfalso; by apply Hok).
  all: lawful_here.
Qed.

(** ** A semaphore's step *)

Lemma slotStep_others e t u s s' :
  e ∈ [Try t; Enter t; Wake t; GiveUp t; Leave t] -> u <> t -> slotStep e s = Some s' -> phases s' !! u = phases s !! u.
Proof.
  intros He Hu. repeat (apply elem_of_cons in He as [->|He]); [..|by apply not_elem_of_nil in He]; simpl.
  all: destruct (phases s !! t) as [[|ch|]|]; try done; repeat case_match; intros; simplify_eq; simpl; by rewrite list_lookup_insert_ne.
Qed.

Lemma slotStep_length e s s' : slotStep e s = Some s' -> length (phases s') = length (phases s).
Proof.
  destruct e as [t|t|t|t|t|n]; simpl; [destruct (phases s !! t) as [[|ch|]|]; try done..|]; repeat case_match; intros; simplify_eq; simpl;
    by rewrite ?length_insert.
Qed.

Lemma semOp_fits op t s s' ok n :
  slotInv s -> fits n (phases s !! t) -> semOp op t s = Some (s', ok) ->
  slotInv s' /\ (forall u, u <> t -> phases s' !! u = phases s !! u) /\ (forall n', needAfter op ok n = Some n' -> fits n' (phases s' !! t)).
Proof.
  intros Hi Hf Hop.
  assert (forall e, slotStep e s = Some s' -> e ∈ [Try t; Enter t; Wake t; GiveUp t; Leave t] ->
            slotInv s' /\ (forall u, u <> t -> phases s' !! u = phases s !! u)) as Hstep.
  { intros e Hs He. split; [by apply (slotStep_inv e s)|]. intros u Hu. by eapply slotStep_others. }
  assert (forall p, is_Some (phases s !! t) -> <[t := p]> (phases s) !! t = Some p) as Hins.
  { intros p Hsome. apply list_lookup_insert_eq. by apply lookup_lt_is_Some. }
  destruct op; cbn [semOp] in Hop.
  1-2,4-5: lazymatch type of Hop with context [slotStep ?e ?x] => destruct (slotStep e x) as [s1|] eqn:E end; [|done]; injection Hop as -> Hok;
    destruct (Hstep _ E ltac:(rewrite !elem_of_cons; tauto)) as [H1 H2]; split; [done|]; split; [done|]; intros n' Hn.
  all: simpl in *.
  - destruct (phases s !! t) as [[|ch|]|] eqn:Ht; try done. unfold TryAcquire in E. destruct n; try done.
    destruct (free (sem s)); injection E as <-; simpl in *; rewrite Hins in * by done; subst ok; by injection Hn as <-.
  - destruct (phases s !! t) as [[|ch|]|] eqn:Ht; try done. unfold enqueue in E. destruct n; try done. injection Hn as <-.
    destruct (free (sem s)); injection E as <-; simpl; rewrite Hins by done; [by left|right; by eexists].
  - destruct (phases s !! t) as [[|ch|]|] eqn:Ht; try done. injection E as <-. simpl. rewrite Hins by done.
    destruct n; try done. by injection Hn as <-.
  - destruct (phases s !! t) as [[|ch|]|] eqn:Ht; try done. injection E as <-. simpl. rewrite Hins by done.
    destruct n; try done. by injection Hn as <-.
  - destruct (phases s !! t) as [[|ch|]|] eqn:Ht; try done; simpl in *.
    + case_decide; [|done]. simpl in Hop. injection Hop as <- <-. destruct (Hstep (Wake t)) as [H1 H2]; [simpl; rewrite Ht; by rewrite decide_True|rewrite !elem_of_cons; tauto|].
      split; [done|]. split; [done|]. intros n' Hn. simpl. rewrite Hins by done. destruct n; try done. by injection Hn as <-.
    + injection Hop as <- <-. split; [done|]. split; [done|]. intros n' Hn. destruct n; try done. by injection Hn as <-.
Qed.

(** ** The invariant *)

Definition on (name : LaneName) (g : thread -> Z) (th : thread) : Z := if decide (th_lane th = name) then g th else 0.

(** A thread's need of a lane's slots: none of another's. *)
Definition needIn (name : LaneName) (p : sempart) (th : thread) : need :=
  match p with
  | LaneSlots => if decide (th_lane th = name) then needOf p th else NOut
  | _ => needOf p th
  end.

Record busInv (b : Bus) : Prop := {
  bi_queued : forall name, queued (b_lanes b name) = sumOver (on name isQueued) (b_threads b);
  bi_ioWait : forall name, ioWait (b_lanes b name) = sumOver (on name isIoWait) (b_threads b);
  bi_inflight : forall name, inflight (b_lanes b name) = sumOver (on name isInflight) (b_threads b);
  bi_sems : forall name p, slotInv (part name p b);
  bi_len : forall name p, length (phases (part name p b)) = length (b_threads b);
  bi_fits : forall name p t th, b_threads b !! t = Some th -> fits (needIn name p th) (phases (part name p b) !! t);
  bi_ok : forall t th, b_threads b !! t = Some th -> threadOk th;
}.

(** Two views of one semaphore. *)
Definition same (name : LaneName) (p : sempart) (name' : LaneName) (p' : sempart) : bool :=
  bool_decide (p = p') && match p with LaneSlots => bool_decide (name = name') | _ => true end.

Lemma part_set name p s b name' p' :
  part name' p' (set_part name p s b) = if same name p name' p' then s else part name' p' b.
Proof. unfold same. destruct p, p'; simpl; repeat (case_bool_decide || case_decide); simpl; try done; congruence. Qed.

Lemma part_lane name l b name' p' : l_slots l = l_slots (b_lanes b name) -> part name' p' (setLane name l b) = part name' p' b.
Proof. intros Hl. destruct p'; simpl; [|done..]. case_decide; [by subst|done]. Qed.

Lemma needIn_own p th : needIn (th_lane th) p th = needOf p th.
Proof. destruct p; simpl; [|done..]. by rewrite decide_True. Qed.

Lemma effect_counts t name e b b' ok : apply_effect t name e b = Some (b', ok) ->
  b_threads b' = b_threads b /\ b_closed b' = b_closed b /\ forall n,
  queued (b_lanes b' n) = queued (b_lanes b n) + (if decide (name = n) then toQueued e else 0) /\
  ioWait (b_lanes b' n) = ioWait (b_lanes b n) + (if decide (name = n) then toIoWait e else 0) /\
  inflight (b_lanes b' n) = inflight (b_lanes b n) + (if decide (name = n) then toInflight e else 0).
Proof.
  unfold apply_effect. destruct e as [| | | | | |p op]; simpl.
  7: destruct (semOp _ _ _) as [[s ok']|]; [|done]; simpl; destruct p.
  all: intros [= <- <-]; simpl; (split; [done|]); (split; [done|]); intros n; repeat case_decide; subst; simpl; try done; lia.
Qed.

Lemma effect_parts t name e b b' ok name' p' : apply_effect t name e b = Some (b', ok) ->
  match e with
  | OnSem p op => exists s, semOp op t (part name p b) = Some (s, ok) /\ part name' p' b' = if same name p name' p' then s else part name' p' b
  | _ => part name' p' b' = part name' p' b
  end.
Proof.
  unfold apply_effect. destruct e as [| | | | | |p op]; simpl; try (intros [= <- <-]; try done; by apply part_lane).
  destruct (semOp _ _ _) as [[s ok']|]; [|done]. simpl. intros [= <- <-]. exists s. split; [done|]. apply part_set.
Qed.

Lemma same_part name p name' p' b : same name p name' p' = true -> p' = p /\ part name' p' b = part name p b /\ (p = LaneSlots -> name' = name).
Proof. unfold same. intros [->%bool_decide_eq_true Hn]%andb_true_iff. by destruct p'; simpl in *; [apply bool_decide_eq_true in Hn as ->|..]. Qed.

Lemma same_refl_other name p name' p' th : th_lane th = name -> same name p name' p' = false -> p' = p -> needIn name' p' th = NOut.
Proof.
  unfold same. intros Hl Hs ->. rewrite bool_decide_eq_true_2 in Hs by done. destruct p; simpl in *; try done.
  apply bool_decide_eq_false in Hs. by rewrite decide_False by congruence.
Qed.

(** The needs of a thread that steps, at the semaphore it steps on and at the
    others. *)
Lemma lawful_needs th r ok name' p' : lawful th r ->
  match r.1 with
  | OnSem p op => if same (th_lane th) p name' p' then needAfter op ok (needIn name' p' th) = Some (needIn name' p' (r.2 ok))
                  else needIn name' p' (r.2 ok) = needIn name' p' th
  | _ => needIn name' p' (r.2 ok) = needIn name' p' th
  end.
Proof.
  intros [Ll _ _ _ _ Ln]. specialize (Ln ok p'). specialize (Ll ok). destruct r.1 as [| | | | | |p op]; try (by destruct p'; simpl; [rewrite Ll; case_decide|..]).
  destruct (same (th_lane th) p name' p') eqn:Es.
  - destruct (same_part _ _ _ _ (mkBus (slotStart 0 0) (slotStart 0 0) (fun _ => newLane 0) false []) Es) as (-> & _ & Hname).
    rewrite decide_True in Ln by done. destruct p; simpl in *; try done. rewrite Ll, (Hname eq_refl), !decide_True by done. exact Ln.
  - case_decide as Hp.
    + subst p'. rewrite (same_refl_other _ _ _ _ th eq_refl Es eq_refl), (same_refl_other _ _ _ _ (r.2 ok) Ll Es eq_refl). done.
    + destruct p'; simpl; [rewrite Ll; by case_decide|done..].
Qed.

Lemma semOp_length op t s s' ok : semOp op t s = Some (s', ok) -> length (phases s') = length (phases s).
Proof.
  destruct op; cbn [semOp]; try (lazymatch goal with |- context [slotStep ?e ?x] => destruct (slotStep e x) as [s1|] eqn:E end; [|done]; intros [= <- <-]; by apply slotStep_length in E).
  destruct (phases s !! t) as [[| |]|]; try (intros [= <- <-]; done).
  all: destruct (slotStep (Wake t) s) as [s1|] eqn:E; [|done]; intros [= <- <-]; by apply slotStep_length in E.
Qed.

(** A step of a thread that keeps the laws keeps the invariant. *)
Lemma act_inv t th r b b' : busInv b -> b_threads b !! t = Some th -> lawful th r -> act t r b = Some b' -> busInv b'.
Proof.
  intros [Hq Hi Hf Hsem Hlen Hfit Hok] Ht Hlaw Hact. unfold act in Hact. rewrite (lw_lane _ _ Hlaw true) in Hact.
  destruct (apply_effect t (th_lane th) r.1 b) as [[b1 ok]|] eqn:Ea; [|done]. injection Hact as <-.
  destruct (effect_counts _ _ _ _ _ _ Ea) as (Hth & _ & Hc).
  assert (forall name g d, (forall ok, g (r.2 ok) = g th + d) -> sumOver (on name g) (<[t := r.2 ok]> (b_threads b)) =
            sumOver (on name g) (b_threads b) + if decide (th_lane th = name) then d else 0) as Hsum.
  { intros name g d Hd. rewrite (sumOver_insert _ _ _ _ _ Ht). unfold on. rewrite (lw_lane _ _ Hlaw). case_decide; [rewrite Hd; lia|lia]. }
  assert (forall u thu, u <> t -> <[t := r.2 ok]> (b_threads b) !! u = Some thu -> b_threads b !! u = Some thu) as Hother.
  { intros u thu Hu Hl. by rewrite list_lookup_insert_ne in Hl. }
  assert (forall name p, slotInv (part name p b1) /\ length (phases (part name p b1)) = length (b_threads b) /\
            (forall u, u <> t -> phases (part name p b1) !! u = phases (part name p b) !! u) /\
            fits (needIn name p (r.2 ok)) (phases (part name p b1) !! t)) as Hparts.
  { intros name p. pose proof (effect_parts _ _ _ _ _ _ name p Ea) as Hp. pose proof (lawful_needs th r ok name p Hlaw) as Hn.
    destruct r.1 as [| | | | | |p0 op]; try (rewrite Hp, Hn; by eauto). destruct Hp as (s & Hop & Hp).
    destruct (same (th_lane th) p0 name p) eqn:Es; [|rewrite Hp, Hn; by eauto].
    destruct (same_part _ _ _ _ b Es) as (-> & Hsame & _). rewrite Hp. rewrite <- Hsame in Hop. specialize (Hfit name p0 t th Ht).
    destruct (semOp_fits _ _ _ _ _ _ (Hsem name p0) Hfit Hop) as (H1 & H2 & H3). split; [done|]. split; [|auto].
    apply semOp_length in Hop. by rewrite Hop. }
  constructor; simpl; rewrite ?Hth.
  - intros name. destruct (Hc name) as (-> & _ & _). rewrite Hq, (Hsum name isQueued _ (lw_queued _ _ Hlaw)). done.
  - intros name. destruct (Hc name) as (_ & -> & _). rewrite Hi, (Hsum name isIoWait _ (lw_ioWait _ _ Hlaw)). done.
  - intros name. destruct (Hc name) as (_ & _ & ->). rewrite Hf, (Hsum name isInflight _ (lw_inflight _ _ Hlaw)). done.
  - intros name p. destruct (Hparts name p) as (? & _). by destruct p.
  - intros name p. rewrite length_insert. destruct (Hparts name p) as (_ & ? & _). by destruct p.
  - intros name p u thu Hu. destruct (Hparts name p) as (_ & _ & H3 & H4).
    assert (part name p (set_thread t (r.2 ok) b1) = part name p b1) as -> by (by destruct p).
    destruct (decide (u = t)) as [->|Hne].
    + rewrite list_lookup_insert_eq in Hu by (by eapply lookup_lt_Some). by injection Hu as <-.
    + rewrite H3 by done. eauto.
  - intros u thu Hu. destruct (decide (u = t)) as [->|Hne]; [|eauto].
    rewrite list_lookup_insert_eq in Hu by (by eapply lookup_lt_Some). injection Hu as <-. apply (lw_ok _ _ Hlaw).
Qed.

(** A thread that counts and holds what it did. *)
Lemma set_inv t th th' b :
  busInv b -> b_threads b !! t = Some th -> threadOk th' ->
  (forall name, on name isQueued th' = on name isQueued th /\ on name isIoWait th' = on name isIoWait th /\ on name isInflight th' = on name isInflight th) ->
  (forall name p, needIn name p th' = needIn name p th) -> busInv (set_thread t th' b).
Proof.
  intros [Hq Hi Hf Hsem Hlen Hfit Hok] Ht Hok' Hw Hn.
  assert (forall name p, part name p (set_thread t th' b) = part name p b) as Hp by (by intros name []).
  constructor; simpl.
  - intros name. rewrite (sumOver_insert _ _ _ _ _ Ht), Hq. destruct (Hw name) as (? & ? & ?). lia.
  - intros name. rewrite (sumOver_insert _ _ _ _ _ Ht), Hi. destruct (Hw name) as (? & ? & ?). lia.
  - intros name. rewrite (sumOver_insert _ _ _ _ _ Ht), Hf. destruct (Hw name) as (? & ? & ?). lia.
  - intros name p. by rewrite Hp.
  - intros name p. by rewrite Hp, length_insert.
  - intros name p u thu Hu. rewrite Hp. destruct (decide (u = t)) as [->|Hne].
    + rewrite list_lookup_insert_eq in Hu by (by eapply lookup_lt_Some). injection Hu as <-. rewrite Hn. eauto.
    + rewrite list_lookup_insert_ne in Hu by done. eauto.
  - intros u thu Hu. destruct (decide (u = t)) as [->|Hne].
    + rewrite list_lookup_insert_eq in Hu by (by eapply lookup_lt_Some). by injection Hu as <-.
    + rewrite list_lookup_insert_ne in Hu by done. eauto.
Qed.

(** The same, within one lane. *)
Lemma move_inv t th th' b :
  busInv b -> b_threads b !! t = Some th -> threadOk th' -> th_lane th' = th_lane th ->
  isQueued th' = isQueued th /\ isIoWait th' = isIoWait th /\ isInflight th' = isInflight th ->
  (forall p, needOf p th' = needOf p th) -> busInv (set_thread t th' b).
Proof.
  intros Hi Ht Hok Hl (H1 & H2 & H3) Hn. apply (set_inv t th); try done.
  - intros name. unfold on. rewrite Hl, H1, H2, H3. done.
  - intros name p. specialize (Hn p). by destruct p; simpl in *; rewrite ?Hl, ?Hn.
Qed.

Lemma slotStep_grow n s s' : slotStep (Grow n) s = Some s' -> phases s' = phases s.
Proof. by intros [= <-]. Qed.

Lemma busStep_inv e b b' : busInv b -> busStep e b = Some b' -> busInv b'.
Proof.
  intros Hb Hs. destruct e as [t name c|t|t|t|t|t|t|t|name p n|name n|]; simpl in Hs.
  - destruct (b_threads b !! t) as [[name0 p k]|] eqn:Ht; [|done]. destruct p; try done.
    assert (k = NoTicket \/ k = Gone) as Hk by (destruct k; auto; done).
    assert (busInv (set_thread t (mkThread name (Begun c) NoTicket) b)) as Hnew.
    { apply (set_inv t _ _ _ Hb Ht); [done|intros; unfold on, isQueued, isIoWait, isInflight; destruct Hk as [-> | ->]; simpl; by repeat case_decide|].
      intros name' []; simpl; unfold needSlots, needAux, needIO; simpl; by repeat case_decide. }
    by destruct Hk as [-> | ->], c, (b_closed b); injection Hs as <-.
  - destruct (b_threads b !! t) as [th|] eqn:Ht; [|done]. simpl in Hs. destruct (next _ th) as [r|] eqn:En; [|done].
    eapply act_inv; [done|done| |exact Hs]. eapply next_lawful; [by eapply bi_ok|done].
  - destruct (b_threads b !! t) as [th|] eqn:Ht; [|done]. simpl in Hs. destruct (gaveUp th) as [r|] eqn:En; [|done].
    eapply act_inv; [done|done| |exact Hs]. eapply gaveUp_lawful; [by eapply bi_ok|done].
  - destruct (b_threads b !! t) as [[name p k]|] eqn:Ht; [|done]. simpl in Hs. destruct p; try done. injection Hs as <-.
    apply (move_inv t _ _ _ Hb Ht); try done.
  - destruct (b_threads b !! t) as [[name p k]|] eqn:Ht; [|done]. simpl in Hs.
    destruct p; try done; injection Hs as <-; apply (move_inv t _ _ _ Hb Ht); try done; by intros [].
  - destruct (b_threads b !! t) as [[name p k]|] eqn:Ht; [|done]. simpl in Hs. destruct p; try done. injection Hs as <-.
    apply (move_inv t _ _ _ Hb Ht); destruct k; try done; by intros [].
  - destruct (b_threads b !! t) as [[name p k]|] eqn:Ht; [|done]. simpl in Hs. destruct k; try done. injection Hs as <-.
    pose proof (bi_ok _ Hb _ _ Ht) as Hok. apply (move_inv t _ _ _ Hb Ht); try done. by destruct p.
  - destruct (b_threads b !! t) as [[name p k]|] eqn:Ht; [|done]. simpl in Hs. destruct k; try done. pose proof (bi_ok _ Hb _ _ Ht) as Hok.
    eapply act_inv; [done|exact Ht| |exact Hs]. constructor; simpl; try done; intros _;
      try (unfold isQueued, isIoWait, isInflight; simpl; lia). by destruct p.
  - injection Hs as <-. set (s' := closing _ _).
    assert (slotStep (Grow n) (part name p b) = Some s') as Hstep by done. destruct (slotStep_inv _ _ _ (bi_sems _ Hb name p) Hstep) as [Hi' _].
    assert (b_threads (set_part name p s' b) = b_threads b) as Hth by (by destruct p).
    assert (forall nm, queued (b_lanes (set_part name p s' b) nm) = queued (b_lanes b nm) /\ ioWait (b_lanes (set_part name p s' b) nm) = ioWait (b_lanes b nm) /\
              inflight (b_lanes (set_part name p s' b) nm) = inflight (b_lanes b nm)) as Hc.
    { intros nm. destruct p; simpl; [case_decide; subst|..]; done. }
    assert (forall nm p', slotInv (part nm p' (set_part name p s' b)) /\ phases (part nm p' (set_part name p s' b)) = phases (part nm p' b)) as Hp.
    { intros nm p'. rewrite part_set. destruct (same name p nm p') eqn:Es; [|split; [apply (bi_sems _ Hb)|done]].
      destruct (same_part _ _ _ _ b Es) as (-> & -> & _). done. }
    destruct Hb as [Hq Hi Hf Hsem Hlen Hfit Hok]. constructor; rewrite ?Hth; try done.
    + intros nm. by rewrite (proj1 (Hc nm)).
    + intros nm. by destruct (Hc nm) as (_ & -> & _).
    + intros nm. by destruct (Hc nm) as (_ & _ & ->).
    + intros nm p'. apply Hp.
    + intros nm p'. by rewrite (proj2 (Hp nm p')).
    + intros nm p' u thu Hu. rewrite (proj2 (Hp nm p')). eauto.
  - injection Hs as <-. assert (forall nm p', part nm p' (setLane name (with_maxQueue n (b_lanes b name)) b) = part nm p' b) as Hp by (intros; by apply part_lane).
    destruct Hb as [Hq Hi Hf Hsem Hlen Hfit Hok]. constructor; simpl; try done; intros; rewrite ?Hp; try done; try (case_decide; subst; simpl; done). eauto.
  - injection Hs as <-. destruct Hb as [Hq Hi Hf Hsem Hlen Hfit Hok]. by constructor.
Qed.

Lemma busRun_inv es b : busInv b -> busInv (busRun es b).
Proof.
  unfold busRun. revert b. induction es as [|e es IH]; intros b Hb; simpl; [done|]. apply IH. destruct (busStep e b) as [b'|] eqn:E; [|done].
  by eapply busStep_inv.
Qed.

Lemma NewBus_inv io limits threads : busInv (NewBus io limits threads).
Proof.
  apply busRun_inv. constructor; simpl.
  1-3: intros name; symmetry; apply sumOver_zero; intros x Hx%elem_of_replicate; destruct Hx as [-> _]; unfold on; simpl; by case_decide.
  - intros name []; apply slotStart_inv.
  - intros name []; simpl; by rewrite !length_replicate.
  - intros name p t th Ht. apply lookup_replicate in Ht as [-> Hlt]. destruct p; simpl; [case_decide|..]; simpl; by apply lookup_replicate.
  - intros t th Ht. apply lookup_replicate in Ht as [-> _]. done.
Qed.


(** * The lanes of a bus: they leak nothing, admit no more than they may, and
    never stand still while work waits. *)

(** ** Nothing leaks *)

(** Work that is over: it holds no place and no ticket that counts. *)
Definition over (th : thread) : Prop := th_place th = Idle /\ ticketQueued (th_ticket th) = 0.

Lemma over_needs th name p : over th -> needIn name p th = NOut.
Proof. destruct th as [n pl k]. intros [Hp _]. simpl in Hp. subst pl. destruct p; simpl; [by case_decide|done..]. Qed.

Lemma quiet_sem s : slotInv s -> (forall t p, phases s !! t = Some p -> p = Out) -> used (sem s) = 0 /\ waiters (sem s) = [].
Proof.
  intros [Hcore _] Hout. split.
  - rewrite (sc_used _ Hcore). apply sumOver_zero. intros p (t & Ht)%list_elem_of_lookup. by rewrite (Hout _ _ Ht).
  - destruct (waiters (sem s)) as [|w ws] eqn:E; [done|]. destruct (proj1 (sc_waiting _ Hcore w)) as (_ & t & Ht); [rewrite E; set_solver|].
    by apply Hout in Ht.
Qed.

(** A lane's counts are exact and nothing leaks.  Whatever the limits, the
    work and the order of events (slots waited for, contexts that end as a slot
    is granted, tickets canceled at any point, queues that are full, limits
    that change, the bus closed), a lane's queued, waiting and running counts
    are of the work that is in its queue, waits for IO and runs; and once the
    work is over the counts are zero and every slot of every lane and of the
    IO is free again. *)
Theorem lane_counts_exact (io : Z) (limits : LaneName -> option LaneLimits) (threads : nat) (es : list busEvent) :
  let b := busRun es (NewBus io limits threads) in
  (forall name, queued (b_lanes b name) = sumOver (on name isQueued) (b_threads b) /\
     ioWait (b_lanes b name) = sumOver (on name isIoWait) (b_threads b) /\
     inflight (b_lanes b name) = sumOver (on name isInflight) (b_threads b)) /\
  ((forall t th, b_threads b !! t = Some th -> over th) ->
     forall name, queued (b_lanes b name) = 0 /\ ioWait (b_lanes b name) = 0 /\ inflight (b_lanes b name) = 0 /\
       forall p, used (sem (part name p b)) = 0 /\ waiters (sem (part name p b)) = []).
Proof.
  intros b. pose proof (busRun_inv es _ (NewBus_inv io limits threads)) as Hb. fold b in Hb.
  split; [intros name; by destruct Hb as [-> -> -> _ _ _ _]|]. intros Hover name.
  assert (forall g, (forall th, over th -> g th = 0) -> sumOver (on name g) (b_threads b) = 0) as Hz.
  { intros g Hg. apply sumOver_zero. intros th (t & Ht)%list_elem_of_lookup. unfold on. case_decide; [|done]. by apply Hg, (Hover t). }
  split; [rewrite (bi_queued _ Hb); apply Hz|split; [rewrite (bi_ioWait _ Hb); apply Hz|split; [rewrite (bi_inflight _ Hb); apply Hz|]]].
  1-3: intros th [Hp Hk]; unfold isQueued, isIoWait, isInflight; rewrite Hp; simpl; done.
  intros p. apply quiet_sem; [apply (bi_sems _ Hb)|]. intros t ph Ht. pose proof (lookup_lt_Some _ _ _ Ht) as Hlt.
  rewrite (bi_len _ Hb) in Hlt. apply lookup_lt_is_Some in Hlt as [th Hth]. pose proof (bi_fits _ Hb name p t th Hth) as Hf.
  rewrite (over_needs th name p (Hover _ _ Hth)), Ht in Hf. by injection Hf.
Qed.

(** ** No more than may *)

Definition holdsIn (name : LaneName) (p : sempart) (th : thread) : Z := match needIn name p th with NHold => 1 | _ => 0 end.

(** Those with a slot of a semaphore are at most the slots it counts as used. *)
Lemma holders_used b name p : busInv b -> sumOver (holdsIn name p) (b_threads b) <= used (sem (part name p b)).
Proof.
  intros Hb. rewrite (sc_used _ (si_core _ (bi_sems _ Hb name p))). apply sumOver_pointwise; [by rewrite (bi_len _ Hb)|].
  intros t th ph Ht Hph. pose proof (bi_fits _ Hb name p t th Ht) as Hf. rewrite Hph in Hf. unfold holdsIn.
  destruct (needIn name p th); simpl in Hf.
  - injection Hf as ->. simpl. lia.
  - destruct ph; simpl; [lia|case_decide; lia|lia].
  - injection Hf as ->. simpl. lia.
Qed.

Definition keepsSize (e : slotEvent) : Prop := match e with Grow _ => False | _ => True end.

Lemma slotStep_size e s s' : keepsSize e -> slotStep e s = Some s' -> size_ (sem s') = size_ (sem s).
Proof.
  assert (forall sm, size_ (grantLocked sm).1 = size_ sm) as Hg by (intros sm; unfold grantLocked; by destruct (grantLoop _ _ _) as [[? ?] ?]).
  intros Hk. destruct e as [t|t|t|t|t|n]; simpl in *; [destruct (phases s !! t) as [[|ch|]|]; try discriminate..|done].
  - unfold TryAcquire. destruct (free _); by intros [= <-].
  - unfold enqueue. destruct (free _); by intros [= <-].
  - case_decide; by intros [= <-].
  - intros [= <-]. simpl. unfold abandon. destruct (remove1 _ _); [reflexivity|]. unfold Release. by rewrite Hg.
  - intros [= <-]. simpl. unfold Release. by rewrite Hg.
Qed.

(** Within its size, with the size kept. *)
Definition within (s : slots) (n : Z) : Prop := size_ (sem s) = n /\ used (sem s) <= n.

Lemma semOp_within op t s s' ok n : slotInv s -> within s n -> semOp op t s = Some (s', ok) -> within s' n.
Proof.
  intros Hi [Hn Hu]. assert (forall e, keepsSize e -> slotStep e s = Some s' -> within s' n) as Hw.
  { intros e Hk Hs. split; [by rewrite (slotStep_size _ _ _ Hk Hs)|]. destruct (slotStep_inv _ _ _ Hi Hs) as [_ Hle].
    rewrite (slotStep_size _ _ _ Hk Hs) in Hle. lia. }
  destruct op; cbn [semOp]; try (lazymatch goal with |- context [slotStep ?e ?x] => destruct (slotStep e x) as [s1|] eqn:E end; [|done];
    intros [= -> Hok]; refine (Hw _ _ E); exact I).
  destruct (phases s !! t) as [[| |]|]; try (intros [= <- _]; by split).
  all: destruct (slotStep (Wake t) s) as [s1|] eqn:E; [|done]; intros [= -> _]; exact (Hw (Wake t) I E).
Qed.

Lemma semOp_size op t s s' ok : semOp op t s = Some (s', ok) -> size_ (sem s') = size_ (sem s).
Proof.
  destruct op; cbn [semOp]; try (lazymatch goal with |- context [slotStep ?e ?x] => destruct (slotStep e x) as [s1|] eqn:E end; [|done];
    intros [= -> Hok]; refine (slotStep_size _ _ _ _ E); exact I).
  destruct (phases s !! t) as [[| |]|]; try (intros [= <- _]; done).
  all: destruct (slotStep (Wake t) s) as [s1|] eqn:E; [|done]; intros [= -> _]; exact (slotStep_size (Wake t) _ _ I E).
Qed.

Definition keepsSizes (e : busEvent) : Prop := match e with ResizePart _ _ _ => False | _ => True end.

(** What every access of a semaphore keeps, and the changes of size of the
    event too, the event keeps of each semaphore of the bus. *)
Lemma busStep_keeps (P : slots -> Prop) e b b' name p :
  (forall op t s s' ok, slotInv s -> P s -> semOp op t s = Some (s', ok) -> P s') ->
  (forall nm q n s s', e = ResizePart nm q n -> P s -> slotStep (Grow n) s = Some s' -> P s') ->
  busInv b -> P (part name p b) -> busStep e b = Some b' -> P (part name p b').
Proof.
  intros Hop Hgrow Hb Hw Hs. assert (forall t th b, part name p (set_thread t th b) = part name p b) as Hset by (by destruct p).
  assert (forall t r, act t r b = Some b' -> P (part name p b')) as Hact.
  { intros t r. unfold act. destruct (apply_effect _ _ r.1 b) as [[b1 ok]|] eqn:Ea; [|done]. intros [= <-]. rewrite Hset.
    pose proof (effect_parts _ _ _ _ _ _ name p Ea) as Hp. destruct r.1 as [| | | | | |p0 op]; try (by rewrite Hp).
    destruct Hp as (s & Ho & ->). destruct (same _ p0 name p) eqn:Es; [|done]. destruct (same_part _ _ _ _ b Es) as (-> & Hsame & _).
    rewrite <- Hsame in Ho. eapply Hop; [by apply (bi_sems _ Hb)|done|done]. }
  destruct e as [t nm c|t|t|t|t|t|t|t|nm p0 z|nm z|]; simpl in Hs.
  2-8: destruct (b_threads b !! t) as [[name0 p0 k]|] eqn:Ht; [|done]; simpl in Hs.
  - destruct (b_threads b !! t) as [[name0 p0 k]|] eqn:Ht; [|done]. destruct p0, k, c, (b_closed b); simplify_eq; by rewrite ?Hset.
  - destruct (next _ _) as [r|]; [|done]. by eapply Hact.
  - destruct (gaveUp _) as [r|]; [|done]. by eapply Hact.
  - destruct p0; simplify_eq; by rewrite Hset.
  - destruct p0; simplify_eq; by rewrite Hset.
  - destruct p0; simplify_eq; by rewrite Hset.
  - destruct k; simplify_eq; by rewrite Hset.
  - destruct k; simplify_eq. by eapply Hact.
  - injection Hs as <-. rewrite part_set. destruct (same nm p0 name p) eqn:Es; [|done]. destruct (same_part _ _ _ _ b Es) as (-> & Hsame & _).
    eapply Hgrow; [done| |reflexivity]. by rewrite <- Hsame.
  - injection Hs as <-. by rewrite part_lane.
  - injection Hs as <-. by destruct p.
Qed.

Lemma busRun_keeps (P : slots -> Prop) (ok : busEvent -> Prop) es b name p :
  (forall e b b', ok e -> busInv b -> P (part name p b) -> busStep e b = Some b' -> P (part name p b')) ->
  busInv b -> Forall ok es -> P (part name p b) -> P (part name p (busRun es b)).
Proof.
  unfold busRun. intros Hstep Hb Hes. revert b Hb. induction Hes as [|e es He Hes IH]; intros b Hb Hw; simpl; [done|].
  destruct (busStep e b) as [b'|] eqn:E; simpl; [|by apply IH]. apply IH; [by eapply busStep_inv|by eapply Hstep].
Qed.

Lemma busRun_within es b name p n : busInv b -> Forall keepsSizes es -> within (part name p b) n -> within (part name p (busRun es b)) n.
Proof.
  apply (busRun_keeps (fun s => within s n)). intros e c c' He Hc. apply (busStep_keeps (fun s => within s n)); [|by intros ? ? ? ? ? ->|done].
  intros. by eapply semOp_within.
Qed.

(** The sizes New gives. *)
Definition sizeOf (io : Z) (limits : LaneName -> option LaneLimits) (name : LaneName) (p : sempart) : Z :=
  let io := if io <=? 0 then DefaultIO else io in
  match p with LaneSlots => Z.max 1 (MaxConcurrent (laneLimits name limits)) | Aux => Z.max 1 (Z.quot io 2) | IO => io end.

Lemma NewBus_within io limits threads name p : within (part name p (NewBus io limits threads)) (sizeOf io limits name p).
Proof.
  unfold NewBus, Update, resizeIO, busRun, sizeOf. set (i := if io <=? 0 then DefaultIO else io).
  assert (0 < i) by (unfold i, DefaultIO; destruct (Z.leb_spec io 0); lia).
  destruct p; [destruct name|..]; simpl; split; simpl; lia.
Qed.

(** Work that holds an IO slot it took after an auxiliary one. *)
Definition auxIO (th : thread) : Z :=
  if decide (th_lane th = Serve) then 0
  else match th_place th with HasIO | Starting | Running | Ended => 1 | _ => 0 end.

Definition anyIO (th : thread) : Z := match needIO th with NHold => 1 | _ => 0 end.

Lemma sum_le_used (g : thread -> Z) b name p :
  busInv b -> (forall th, g th <= holdsIn name p th) -> sumOver g (b_threads b) <= used (sem (part name p b)).
Proof. intros Hb Hg. etrans; [|by apply holders_used]. apply sumOver_le. auto. Qed.

(** C37. A bus admits no more than its limits.  Under the limits it was made
    with, whatever the order of events, a lane never has more work in flight
    than its concurrency, the work at the database at once, the engine's
    included, never exceeds the IO slots, and the lanes other than Serve never
    hold more than their half of them. *)
Theorem lanes_bounded (io : Z) (limits : LaneName -> option LaneLimits) (threads : nat) (es : list busEvent) :
  Forall keepsSizes es ->
  let b := busRun es (NewBus io limits threads) in
  let io' := if io <=? 0 then DefaultIO else io in
  (forall name, inflight (b_lanes b name) <= Z.max 1 (MaxConcurrent (laneLimits name limits))) /\
  sumOver anyIO (b_threads b) <= io' /\
  sumOver auxIO (b_threads b) <= Z.max 1 (Z.quot io' 2).
Proof.
  intros Hes b io'. pose proof (busRun_inv es _ (NewBus_inv io limits threads)) as Hb. fold b in Hb.
  assert (forall name p, used (sem (part name p b)) <= sizeOf io limits name p) as Hu.
  { intros name p. apply (busRun_within es (NewBus io limits threads) name p _ (NewBus_inv io limits threads) Hes), NewBus_within. }
  split; [|split].
  - intros name. rewrite (bi_inflight _ Hb). etrans; [|apply (Hu name LaneSlots)]. apply sum_le_used; [done|].
    intros [n p k]. unfold on, holdsIn, isInflight; simpl. case_decide; [|lia]. destruct p; simpl; lia.
  - etrans; [|apply (Hu Serve IO)]. apply sum_le_used; [done|]. intros th. unfold anyIO, holdsIn. simpl. lia.
  - etrans; [|apply (Hu Serve Aux)]. apply sum_le_used; [done|]. intros [n p k]. unfold auxIO, holdsIn, needIn, needOf, needAux; simpl.
    destruct p; repeat case_decide; lia.
Qed.

(** ** Nothing stands still *)

Definition positive (b : Bus) : Prop := forall name p, 0 < size_ (sem (part name p b)).

(** Work inside the caller's own code. *)
Definition atWork (th : thread) : bool := match th_place th with Serving | Sharing | Executing | Running => true | _ => false end.

(** Some thread can step, or is at work. *)
Definition moving (b : Bus) : Prop :=
  exists u th, b_threads b !! u = Some th /\ (atWork th = true \/ is_Some (busStep (Step u) b)).

(** The semaphore a thread is inside. *)
Definition insideOf (th : thread) : option sempart :=
  match th_place th with
  | InSlots | TicketInSlots => Some LaneSlots
  | InAux => Some Aux
  | ServeIO | ExecIO | InIO => Some IO
  | _ => None
  end.

Lemma semOp_enabled op t s n n' ok : op <> OCollect -> fits n (phases s !! t) -> needAfter op ok n = Some n' -> op <> OGiveUp -> is_Some (semOp op t s).
Proof.
  intros Hc Hf Hn Hg. destruct op; try done; destruct n; try done; simpl in *; rewrite Hf; simpl.
  - unfold TryAcquire. destruct (free _); simpl; by eexists.
  - unfold enqueue. destruct (free _); simpl; by eexists.
  - by eexists.
Qed.

(** A thread not inside a semaphore steps. *)
Lemma free_steps b t th :
  busInv b -> b_threads b !! t = Some th -> insideOf th = None -> th_place th <> Idle -> th_place th <> Ticketed -> atWork th = false ->
  is_Some (busStep (Step t) b).
Proof.
  intros Hb Ht Hin Hidle Htick Hwork. simpl. rewrite Ht. simpl. pose proof (bi_ok _ Hb _ _ Ht) as Hok.
  destruct (next (b_lanes b (th_lane th)) th) as [r|] eqn:En.
  2: { destruct th as [n p k]. unfold next in En. destruct p, k; simpl in *; try done; repeat case_match; done. }
  simpl. pose proof (next_lawful _ _ _ Hok En) as Hlaw. unfold act. rewrite (lw_lane _ _ Hlaw true).
  destruct r.1 as [| | | | | |p op] eqn:Er; simpl; try by eexists.
  assert (op <> OCollect /\ op <> OGiveUp) as [Hc Hg].
  { destruct th as [n pl k], r as [e f]. simpl in *. subst e. clear Hlaw. unfold next in En.
    destruct pl, k; simpl in *; try done; repeat case_match; simplify_eq; try done.
    destruct c; simpl in En; try discriminate En; injection En as <- <- _; done. }
  pose proof (lw_need _ _ Hlaw true p) as Hn. rewrite Er, decide_True in Hn by done. pose proof (bi_fits _ Hb (th_lane th) p t th Ht) as Hf.
  rewrite needIn_own in Hf. destruct (semOp_enabled _ _ _ _ _ _ Hc Hf Hn Hg) as [[s ok] ->]. simpl. by eexists.
Qed.

Lemma inside_need th p : insideOf th = Some p -> needOf p th = NIn.
Proof. destruct th as [n pl k]. destruct pl; simpl; intros [= <-]; done. Qed.

Lemma inside_step b t th p :
  b_threads b !! t = Some th -> insideOf th = Some p -> is_Some (semOp OCollect t (part (th_lane th) p b)) -> is_Some (busStep (Step t) b).
Proof.
  intros Ht Hin [[s ok] Hop]. simpl. rewrite Ht. simpl.
  assert (exists q, next (b_lanes b (th_lane th)) th = Some (OnSem p OCollect, fun _ => at_ q th)) as [q ->].
  { destruct th as [n pl k]. destruct pl; simpl in *; try done; injection Hin as <-; by eexists. }
  unfold act, mbind, option_bind. cbn [fst snd at_ th_lane apply_effect]. unfold mbind, option_bind. rewrite Hop. by eexists.
Qed.

(** A thread inside a semaphore steps, or another has its slots. *)
Lemma inside_moves b t th p :
  busInv b -> positive b -> b_threads b !! t = Some th -> insideOf th = Some p ->
  is_Some (busStep (Step t) b) \/
  exists u thu, b_threads b !! u = Some thu /\ (is_Some (busStep (Step u) b) \/ needIn (th_lane th) p thu = NHold).
Proof.
  intros Hb Hpos Ht Hin. pose proof (bi_fits _ Hb (th_lane th) p t th Ht) as Hf. rewrite needIn_own, (inside_need _ _ Hin) in Hf.
  set (s := part (th_lane th) p b) in *. pose proof (bi_sems _ Hb (th_lane th) p) as Hi. fold s in Hi.
  assert (forall u thu, b_threads b !! u = Some thu -> needIn (th_lane th) p thu = NIn -> is_Some (semOp OCollect u s) -> is_Some (busStep (Step u) b)) as Hcol.
  { intros u thu Hu Hn Hop. assert (insideOf thu = Some p /\ part (th_lane thu) p b = s) as [H1 H2].
    { destruct thu as [n pl k]. unfold s. destruct p; simpl in Hn; [case_decide as Hl; [subst|done]|..]; unfold needSlots, needAux, needIO in Hn;
      destruct pl; simpl in Hn; try discriminate Hn; repeat case_decide; try discriminate Hn; simpl; by rewrite ?Hl. }
    eapply inside_step; [done|done|by rewrite H2]. }
  destruct Hf as [Hh|[ch Hw]].
  { left. apply (Hcol t th Ht); [by rewrite needIn_own, (inside_need _ _ Hin)|]. simpl. rewrite Hh. by eexists. }
  destruct (decide (ch ∈ closedChans s)) as [Hc|Hc].
  { left. apply (Hcol t th Ht); [by rewrite needIn_own, (inside_need _ _ Hin)|]. simpl. rewrite Hw, decide_True by done. by eexists. }
  right. assert (ch ∈ waiters (sem s)) as Hwt by (apply (sc_waiting _ (si_core _ Hi)); eauto).
  assert (0 < taken s) as Htk.
  { unfold taken. rewrite <- (sc_used _ (si_core _ Hi)). pose proof (si_busy _ Hi ltac:(intros E; rewrite E in Hwt; set_solver)). specialize (Hpos (th_lane th) p).
    fold s in Hpos. lia. }
  destruct (taken_some _ Htk) as (u & ph & Hu & Hph). pose proof (lookup_lt_Some _ _ _ Hu) as Hlt. unfold s in Hlt. rewrite (bi_len _ Hb) in Hlt.
  apply lookup_lt_is_Some in Hlt as [thu Hthu]. exists u, thu. split; [done|]. pose proof (bi_fits _ Hb (th_lane th) p u thu Hthu) as Hfu.
  fold s in Hfu. rewrite Hu in Hfu. destruct (needIn (th_lane th) p thu) eqn:En; [|left|by right].
  - injection Hfu as ->. simpl in Hph. lia.
  - apply (Hcol u thu Hthu En). simpl. rewrite Hu. destruct ph as [|c|]; simpl in *; [lia| |by eexists].
    destruct (decide (c ∈ closedChans s)); [by eexists|lia].
Qed.

(** The order slots are taken in: a holder of one waits only for a later one. *)
Definition rank (p : sempart) : nat := match p with LaneSlots => 2 | Aux => 1 | IO => 0 end.

Lemma holder_order name p th q : needIn name p th = NHold -> insideOf th = Some q -> (rank q < rank p)%nat.
Proof.
  destruct th as [n pl k]. destruct p; simpl; [case_decide; [|done]|..]; destruct pl; simpl; repeat case_decide; intros Hn [= <-]; try done; simpl; lia.
Qed.

Lemma holder_busy name p th : needIn name p th = NHold -> th_place th <> Idle /\ th_place th <> Ticketed.
Proof. destruct th as [n pl k]. destruct p; simpl; [case_decide; [|done]|..]; destruct pl; simpl; repeat case_decide; done. Qed.

Lemma inside_moving b k : forall t th p,
  busInv b -> positive b -> b_threads b !! t = Some th -> insideOf th = Some p -> (rank p <= k)%nat -> moving b.
Proof.
  induction k as [k IH] using lt_wf_ind. intros t th p Hb Hpos Ht Hin Hk.
  destruct (inside_moves _ _ _ _ Hb Hpos Ht Hin) as [Hs|(u & thu & Hu & [Hs|Hh])]; [by exists t, th; auto|by exists u, thu; auto|].
  destruct (atWork thu) eqn:Ew; [by exists u, thu; auto|]. destruct (insideOf thu) as [q|] eqn:Ei.
  - pose proof (holder_order _ _ _ _ Hh Ei). apply (IH (rank q)) with (t := u) (th := thu) (p := q); [lia|done..].
  - destruct (holder_busy _ _ _ Hh). exists u, thu. split; [done|]. right. by apply free_steps with (th := thu).
Qed.

Definition resizesWell (e : busEvent) : Prop := match e with ResizePart _ _ n => 0 < n | _ => True end.

Lemma busRun_positive es b : busInv b -> Forall resizesWell es -> positive b -> positive (busRun es b).
Proof.
  intros Hb Hes Hp name p. apply (busRun_keeps (fun s => 0 < size_ (sem s)) resizesWell); [|done|done|apply Hp].
  intros e c c' He Hc. apply (busStep_keeps (fun s => 0 < size_ (sem s))); [| |done].
  - intros op t s s' ok Hi Hs Hop. by rewrite (semOp_size _ _ _ _ _ Hop).
  - intros nm q n s s' -> Hs [= <-]. simpl in *. unfold Resize, grantLocked. by destruct (grantLoop _ _ _) as [[? ?] ?].
Qed.

(** C25. The lanes never stand still.  Whatever happened, as long as every size
    is positive, where some work has begun and is not over (a ticket waiting
    for its own call apart), some thread can take its next step or is at work
    in its caller's code: no lost slot, and no two kinds of slots waited for
    in a circle, can leave everyone waiting. *)
Theorem lanes_never_stall (io : Z) (limits : LaneName -> option LaneLimits) (threads : nat) (es : list busEvent) (t : nat) (th : thread) :
  let b := busRun es (NewBus io limits threads) in
  Forall resizesWell es -> b_threads b !! t = Some th -> th_place th <> Idle -> th_place th <> Ticketed -> moving b.
Proof.
  intros b Hes Ht Hidle Htick. pose proof (busRun_inv es _ (NewBus_inv io limits threads)) as Hb. fold b in Hb.
  assert (positive b) as Hpos.
  { apply busRun_positive; [apply NewBus_inv|done|]. intros name p. destruct (NewBus_within io limits threads name p) as [-> _].
    unfold sizeOf, DefaultIO. destruct p; try lia. destruct (Z.leb_spec io 0); lia. }
  destruct (atWork th) eqn:Ew; [by exists t, th; auto|]. destruct (insideOf th) as [p|] eqn:Ei.
  - by apply (inside_moving b (rank p) t th p).
  - exists t, th. split; [done|]. right. by apply free_steps with (th := th).
Qed.

(** ** Two scans, a third in the queue, and an engine call, on one IO slot *)

Definition oneIO : Bus := NewBus 1 (fun _ => None) 4.

Definition steps (t n : nat) : list busEvent := replicate n (Step t).

(** The first scan runs, the second waits for the auxiliary slot, the third
    for the lane, and the engine's call for the IO slot. *)
Definition crowd : list busEvent :=
  Call 0 Scan (CAcquire true) :: steps 0 8 ++ Call 1 Scan (CAcquire true) :: steps 1 3 ++
  Call 2 Scan (CAcquire true) :: steps 2 4 ++ Call 3 Serve CTryEnter :: steps 3 3.

Example crowd_places :
  th_place <$> b_threads (busRun crowd oneIO) = [Running; InAux; InSlots; ServeIO] /\
  laneStats (b_lanes (busRun crowd oneIO) Scan) = mkLaneStats 2 8 1 2 0 0.
Proof. vm_compute. auto. Qed.

(** Everyone is done, the third scan's context having ended first. *)
Definition drained : list busEvent :=
  crowd ++ [ContextEnds 2; Step 2; WorkEnds 0] ++ steps 0 5 ++ steps 3 1 ++ [WorkEnds 3] ++ steps 3 4 ++ steps 1 5 ++ [WorkEnds 1] ++ steps 1 5.

Example drained_places :
  th_place <$> b_threads (busRun drained oneIO) = [Idle; Idle; Idle; Idle] /\
  laneStats (b_lanes (busRun drained oneIO) Scan) = mkLaneStats 2 8 0 0 0 2.
Proof. vm_compute. auto. Qed.

Lemma drained_over t th : b_threads (busRun drained oneIO) !! t = Some th -> over th.
Proof. do 4 (destruct t as [|t]; [vm_compute; intros [= <-]; split; reflexivity|]). vm_compute. discriminate. Qed.

Lemma lane_counts_exact_witness :
  let b := busRun drained (NewBus 1 (fun _ => None) 4) in
  queued (b_lanes b Scan) = 0 /\ used (sem (part Scan IO b)) = 0 /\ used (sem (part Scan Aux b)) = 0.
Proof.
  destruct (lane_counts_exact 1 (fun _ => None) 4 drained) as [_ Hz]. destruct (Hz drained_over Scan) as (Hq & _ & _ & Hp).
  destruct (Hp IO) as [Hio _]. destruct (Hp Aux) as [Haux _]. split; [exact Hq|]. split; [exact Hio|exact Haux].
Defined.

Lemma lanes_bounded_witness : let b := busRun crowd (NewBus 1 (fun _ => None) 4) in inflight (b_lanes b Scan) <= 2 /\ sumOver anyIO (b_threads b) <= 1.
Proof.
  intros b. destruct (lanes_bounded 1 (fun _ => None) 4 crowd) as (Hi & Hio & _).
  - repeat constructor.
  - split; [exact (Hi Scan)|exact Hio].
Defined.

Lemma lanes_never_stall_witness : th_place <$> (b_threads (busRun crowd oneIO) !! 3%nat) = Some ServeIO /\ moving (busRun crowd oneIO).
Proof.
  split; [reflexivity|].
  apply (lanes_never_stall 1 (fun _ => None) 4 crowd 3 (mkThread Serve ServeIO NoTicket)); [repeat constructor|reflexivity|discriminate|discriminate].
Defined.

(** ** Background tasks *)

Definition tally (name : string) (running : list string) : Z := sumOver (fun x => if decide (x = name) then 1 else 0) running.

Lemma tally_delete name running n x : running !! n = Some x ->
  tally name (delete n running) = tally name running - if decide (x = name) then 1 else 0.
Proof.
  unfold tally. revert n. induction running as [|y l IH]; intros [|n] Hn; simpl in *; try done; [injection Hn as ->; lia|].
  rewrite (IH _ Hn). lia.
Qed.

Lemma tally_nonneg name running : 0 <= tally name running.
Proof. unfold tally. induction running as [|y l IH]; simpl; [done|]. case_decide; lia. Qed.

(** The tasks counted by name, and waited for by Close, are those under way;
    a task started counts, and none starts once the bus is closed. *)
Lemma tasks_counted es :
  let '(s, running) := foldl (fun x e => taskStep e x) noTasks es in
  tk_wg s = Z.of_nat (length running) /\
  forall name, tk_count s !! name = if decide (tally name running = 0) then None else Some (tally name running).
Proof.
  assert (forall x, (tk_wg x.1 = Z.of_nat (length x.2) /\ forall name, tk_count x.1 !! name = if decide (tally name x.2 = 0) then None else Some (tally name x.2)) ->
    let y := foldl (fun x e => taskStep e x) x es in
    tk_wg y.1 = Z.of_nat (length y.2) /\ forall name, tk_count y.1 !! name = if decide (tally name y.2 = 0) then None else Some (tally name y.2)) as Hrun.
  { induction es as [|e es IH]; intros [s running] [Hw Hc]; simpl; [done|]. apply IH. clear IH. simpl in *.
    assert (forall name, default 0 (tk_count s !! name) = tally name running) as Hd by (intros name; rewrite Hc; case_decide; simpl; lia).
    destruct e as [name|n|]; simpl; [|destruct (running !! n) as [name|] eqn:Hn; [|done]|done].
    - unfold enter. destruct (tk_closed s); simpl; [done|]. split; [lia|]. intros nm. rewrite Hd.
      assert (tally nm (name :: running) = tally nm running + if decide (name = nm) then 1 else 0) as -> by (unfold tally; simpl; lia).
      pose proof (tally_nonneg nm running). destruct (decide (name = nm)) as [->|Hne].
      + rewrite lookup_insert_eq, decide_False by lia. done.
      + rewrite lookup_insert_ne by done. by rewrite Hc, Z.add_0_r.
    - unfold exit. simpl. split; [rewrite length_delete by eauto; apply lookup_lt_Some in Hn; lia|]. intros nm. rewrite Hd, (tally_delete nm _ _ _ Hn).
      destruct (decide (name = nm)) as [->|Hne].
      + destruct (Z.eqb_spec (tally nm running - 1) 0); [by rewrite lookup_delete_eq, decide_True|by rewrite lookup_insert_eq, decide_False].
      + rewrite Z.sub_0_r, <- Hc. destruct (_ =? 0); [by rewrite lookup_delete_ne|by rewrite lookup_insert_ne]. }
  specialize (Hrun noTasks). destruct (foldl _ noTasks es) as [s running]. apply Hrun. by split.
Qed.
