(* ===== verification/Engine.v ===== *)
(** The engine that runs tool calls: core/engine/engine.go and quota.go.

    The calls and the executions they share are a transition system whose
    steps are the engine's critical sections and channel operations, in any
    order, as time goes on: singleflight.Do and wait, the end of an execution's
    goroutine, the count of calls under way and Drain.  An execution's context
    ends when the callers waiting for it are all gone, or at the deadline of
    the call that started it.  The slot of the Serve lane and the IO
    slots are those of Lane.v; [execute] is what one execution does around its
    function. *)

From S2P Require Import Prelude SemaphoreTheorems.

Section engine.
(** What a call returns: a value or an error. *)
Context {R : Type}.

(** ** Shared executions *)

(** Where the goroutine of an execution is: in its function; its result kept;
    its key freed; its channel closed; over. *)
Inductive execPhase : Type := GRun | GStored | GUnlinked | GClosed | GEnded.

Record execution : Type := mkExecution {
  x_key : string;
  x_deadline : option Z;                   (** of its context: that of the call that started it *)
  x_waiters : Z;
  x_cancelled : bool;                      (** its context was cancelled *)
  x_phase : execPhase;
  x_result : option R;
  x_cut : bool;                            (** it was cancelled before its result *)
  x_at : Z;                                (** when its result came *)
  x_ended : bool;                          (** runCtx.Err() was not nil then *)
}.

(** Where a caller of Submit is. *)
Inductive caller : Type :=
  | Away
  | Entering (key : string) (deadline : option Z)  (** admitted, before Do *)
  | Direct                                 (** runs with no key *)
  | Awaiting (key : string) (c : nat)      (** in wait *)
  | Returning (key : string) (c : nat) (answer : option R).  (** with a result, or its context's end *)

Inductive draining : Type := Open | Closed | ActiveDone | Drained.

Record Engine : Type := mkEngine {
  e_map : gmap string nat;                 (** singleflight.m *)
  e_calls : list execution;
  e_callers : list caller;
  e_active : Z;
  e_executions : Z;
  e_drain : draining;
  e_now : Z;
}.

Definition linked (s : Engine) (key : string) (c : nat) : bool := bool_decide (e_map s !! key = Some c).

(** if s.m[key] == c { delete(s.m, key) } *)
Definition unlink (key : string) (c : nat) (m : gmap string nat) : gmap string nat :=
  if bool_decide (m !! key = Some c) then delete key m else m.

Definition with_caller (t : nat) (w : caller) (s : Engine) : Engine :=
  mkEngine (e_map s) (e_calls s) (<[t := w]> (e_callers s)) (e_active s) (e_executions s) (e_drain s) (e_now s).
Definition with_call (c : nat) (x : execution) (s : Engine) : Engine :=
  mkEngine (e_map s) (<[c := x]> (e_calls s)) (e_callers s) (e_active s) (e_executions s) (e_drain s) (e_now s).
Definition with_map (m : gmap string nat) (s : Engine) : Engine :=
  mkEngine m (e_calls s) (e_callers s) (e_active s) (e_executions s) (e_drain s) (e_now s).
Definition with_active (n : Z) (s : Engine) : Engine :=
  mkEngine (e_map s) (e_calls s) (e_callers s) n (e_executions s) (e_drain s) (e_now s).
Definition with_executions (n : Z) (s : Engine) : Engine :=
  mkEngine (e_map s) (e_calls s) (e_callers s) (e_active s) n (e_drain s) (e_now s).
Definition with_drain (d : draining) (s : Engine) : Engine :=
  mkEngine (e_map s) (e_calls s) (e_callers s) (e_active s) (e_executions s) d (e_now s).

Definition with_now (t : Z) (s : Engine) : Engine :=
  mkEngine (e_map s) (e_calls s) (e_callers s) (e_active s) (e_executions s) (e_drain s) t.

Definition addWaiters (n : Z) (x : execution) : execution :=
  mkExecution (x_key x) (x_deadline x) (x_waiters x + n) (x_cancelled x) (x_phase x) (x_result x) (x_cut x) (x_at x) (x_ended x).
Definition cancel (x : execution) : execution :=
  mkExecution (x_key x) (x_deadline x) (x_waiters x) true (x_phase x) (x_result x) (x_cut x) (x_at x) (x_ended x).
Definition at_phase (p : execPhase) (x : execution) : execution :=
  mkExecution (x_key x) (x_deadline x) (x_waiters x) (x_cancelled x) p (x_result x) (x_cut x) (x_at x) (x_ended x).

Definition passed (deadline : option Z) (now : Z) : bool := match deadline with Some d => d <=? now | None => false end.

(** c.val, c.err = fn(runCtx), then cancel(): the context is of no use now. *)
Definition store (now : Z) (r : R) (x : execution) : execution :=
  mkExecution (x_key x) (x_deadline x) (x_waiters x) true GStored (Some r) (x_cancelled x) now
    (x_cancelled x || passed (x_deadline x) now).

(** The execution Do starts: runCtx has the deadline of the caller's context,
    when it has one, and is not cancelled with it. *)
Definition started (key : string) (deadline : option Z) : execution := mkExecution key deadline 1 false GRun None false 0 false.

(** singleflight.Do's critical section. *)
Definition Do (key : string) (deadline : option Z) (s : Engine) : Engine * nat :=
  match e_map s !! key with
  | Some c => (match e_calls s !! c with Some x => with_call c (addWaiters 1 x) s | None => s end, c)
  | None =>
      let c := length (e_calls s) in
      (mkEngine (<[key := c]> (e_map s)) (e_calls s ++ [started key deadline]) (e_callers s)
         (e_active s) (e_executions s + 1) (e_drain s) (e_now s), c)
  end.

(** wait, when the caller's context ended. *)
Definition leaveWait (key : string) (c : nat) (s : Engine) : Engine :=
  match e_calls s !! c with
  | None => s
  | Some x =>
      let x := addWaiters (-1) x in
      if x_waiters x =? 0 then with_map (unlink key c (e_map s)) (with_call c (cancel x) s)
      else with_call c x s
  end.

Inductive engineEvent : Type :=
  | Tick (d : N)
  | Submit (t : nat) (key : string) (deadline : option Z)  (** admit *)
  | Begin (t : nat)                        (** Do, or execute with no key *)
  | Answered (t : nat)                     (** wait: the channel is closed *)
  | GivenUp (t : nat)                      (** wait: the context ended *)
  | DirectEnds (t : nat)
  | Return (t : nat)                       (** active.Done *)
  | FnReturns (c : nat) (r : R)            (** the function's result, or its panic as an error *)
  | Unlink (c : nat)
  | CloseDone (c : nat)
  | ExecDone (c : nat)                     (** executions.Done *)
  | DrainStart
  | DrainActive                            (** active.Wait returns *)
  | DrainExecutions.                       (** executions.Wait returns *)

Definition engineStep (e : engineEvent) (s : Engine) : option Engine :=
  match e with
  | Tick d => Some (with_now (e_now s + Z.of_N d) s)
  | Submit t key deadline =>
      match e_callers s !! t with
      | Some Away => match e_drain s with
                     | Open => Some (with_caller t (Entering key deadline) (with_active (e_active s + 1) s))
                     | _ => Some s         (* ErrClosed *)
                     end
      | _ => None
      end
  | Begin t =>
      match e_callers s !! t with
      | Some (Entering key deadline) =>
          if decide (key = "") then Some (with_caller t Direct s)
          else let '(s, c) := Do key deadline s in Some (with_caller t (Awaiting key c) s)
      | _ => None
      end
  | Answered t =>
      match e_callers s !! t with
      | Some (Awaiting key c) =>
          match e_calls s !! c with
          | Some x => match x_phase x with GClosed | GEnded => Some (with_caller t (Returning key c (x_result x)) s) | _ => None end
          | None => None
          end
      | _ => None
      end
  | GivenUp t =>
      match e_callers s !! t with
      | Some (Awaiting key c) => Some (with_caller t (Returning key c None) (leaveWait key c s))
      | _ => None
      end
  | DirectEnds t =>
      match e_callers s !! t with Some Direct => Some (with_caller t (Returning "" 0 None) s) | _ => None end
  | Return t =>
      match e_callers s !! t with
      | Some (Returning _ _ _) => Some (with_caller t Away (with_active (e_active s - 1) s))
      | _ => None
      end
  | FnReturns c r =>
      match e_calls s !! c with
      | Some x => match x_phase x with GRun => Some (with_call c (store (e_now s) r x) s) | _ => None end
      | None => None
      end
  | Unlink c =>
      match e_calls s !! c with
      | Some x => match x_phase x with
                  | GStored => Some (with_map (unlink (x_key x) c (e_map s)) (with_call c (at_phase GUnlinked x) s))
                  | _ => None
                  end
      | None => None
      end
  | CloseDone c =>
      match e_calls s !! c with
      | Some x => match x_phase x with GUnlinked => Some (with_call c (at_phase GClosed x) s) | _ => None end
      | None => None
      end
  | ExecDone c =>
      match e_calls s !! c with
      | Some x => match x_phase x with
                  | GClosed => Some (with_executions (e_executions s - 1) (with_call c (at_phase GEnded x) s))
                  | _ => None
                  end
      | None => None
      end
  | DrainStart => match e_drain s with Open => Some (with_drain Closed s) | _ => None end
  | DrainActive => match e_drain s with Closed => if e_active s =? 0 then Some (with_drain ActiveDone s) else None | _ => None end
  | DrainExecutions =>
      match e_drain s with ActiveDone => if e_executions s =? 0 then Some (with_drain Drained s) else None | _ => None end
  end.

Definition engineRun (es : list engineEvent) (s : Engine) : Engine := foldl (fun s e => default s (engineStep e s)) s es.

Definition engineStart (callers : nat) : Engine := mkEngine ∅ [] (replicate callers Away) 0 0 Open 0.

(** ** One execution *)

(** What execute does to the breaker, the limiter and the IO slots. *)
Inductive resourceOp : Type :=
  | BreakerAllow | BreakerRecord (success : bool) | BreakerRelease
  | LimiterAcquire | LimiterResult (failed : bool) | LimiterRelease
  | IOAcquire | IORelease | RunFn.

Inductive refusal : Type := CircuitOpen | RateLimited | ContextEnded.

(** The answers execute meets: whether there is a breaker and a limiter, and
    they admit the call; whether an IO slot comes before the context ends; and
    the function's result, with whether it failed and the failure counts. *)
Record meets : Type := mkMeets {
  mt_breaker : option bool; mt_limiter : option bool; mt_io : bool; mt_result : R; mt_failed : bool; mt_counts : bool;
}.

(** The deferred calls run in reverse, the limiter's result before them. *)
Definition execute (w : meets) : (refusal + R) * list resourceOp :=
  let record := negb (mt_failed w) || mt_counts w in
  let settle ran := match mt_breaker w with
                    | Some _ => [if ran && record then BreakerRecord (negb (mt_failed w)) else BreakerRelease]
                    | None => []
                    end in
  let unlimit := match mt_limiter w with Some _ => [LimiterRelease] | None => [] end in
  match mt_breaker w with
  | Some false => (inl CircuitOpen, [BreakerAllow])
  | b =>
      let allowed := match b with Some _ => [BreakerAllow] | None => [] end in
      match mt_limiter w with
      | Some false => (inl RateLimited, allowed ++ [LimiterAcquire] ++ settle false)
      | l =>
          let limited := match l with Some _ => [LimiterAcquire] | None => [] end in
          if mt_io w then
            let told := match l with Some _ => if record then [LimiterResult (mt_failed w)] else [] | None => [] end in
            (inr (mt_result w), allowed ++ limited ++ [IOAcquire; RunFn] ++ told ++ [IORelease] ++ unlimit ++ settle true)
          else (inl ContextEnded, allowed ++ limited ++ [IOAcquire] ++ unlimit ++ settle false)
      end
  end.

End engine.

Arguments Engine R : clear implicits.
Arguments engineEvent R : clear implicits.
Arguments execution R : clear implicits.
Arguments caller R : clear implicits.
Arguments meets R : clear implicits.


(** * Calls that share an execution: each gets the result of an execution of its
    own key that nobody cancelled, at most one of which runs at a time; the
    engine drains; and an execution settles what it took. *)

Section engine.
Context {R : Type}.
Implicit Types (s : Engine R) (x : execution R) (w : caller R).

(** ** Counts *)

Definition waitsOn (c : nat) w : Z := match w with Awaiting _ c' => if decide (c' = c) then 1 else 0 | _ => 0 end.
Definition isActive w : Z := match w with Away => 0 | _ => 1 end.
Definition isLive x : Z := match x_phase x with GEnded => 0 | _ => 1 end.

Definition waiting (c : nat) s : Z := sumOver (waitsOn c) (e_callers s).

Record counted s : Prop := {
  ct_active : e_active s = sumOver isActive (e_callers s);
  ct_executions : e_executions s = sumOver isLive (e_calls s);
  ct_drain : e_drain s = ActiveDone \/ e_drain s = Drained -> e_active s = 0;
  ct_drained : e_drain s = Drained -> e_executions s = 0;
}.

Lemma active_nonneg w : 0 <= isActive w.
Proof. destruct w; simpl; lia. Qed.
Lemma live_nonneg x : 0 <= isLive x.
Proof. unfold isLive. destruct (x_phase x); lia. Qed.
Lemma waits_nonneg c w : 0 <= waitsOn c w.
Proof. destruct w; simpl; try lia. case_decide; lia. Qed.

(** A caller at work keeps the count of active calls from zero. *)
Lemma working s t w : counted s -> e_callers s !! t = Some w -> isActive w = 1 -> e_active s <> 0.
Proof. intros Hc Ht Hw Hz. rewrite (ct_active _ Hc) in Hz. pose proof (sumOver_zero_all _ _ _ _ active_nonneg Hz Ht). lia. Qed.

Lemma live_call s c x : counted s -> e_calls s !! c = Some x -> isLive x = 1 -> e_executions s <> 0.
Proof. intros Hc Ht Hw Hz. rewrite (ct_executions _ Hc) in Hz. pose proof (sumOver_zero_all _ _ _ _ live_nonneg Hz Ht). lia. Qed.

(** Leaving a wait changes no count of executions. *)
Lemma leaveWait_keeps key c s :
  e_callers (leaveWait key c s) = e_callers s /\ e_active (leaveWait key c s) = e_active s /\ e_executions (leaveWait key c s) = e_executions s /\
  e_drain (leaveWait key c s) = e_drain s /\ sumOver isLive (e_calls (leaveWait key c s)) = sumOver isLive (e_calls s).
Proof.
  unfold leaveWait. destruct (e_calls s !! c) as [x|] eqn:Hc; [|done]. destruct (_ =? 0); simpl; split_and!; try done;
    rewrite (sumOver_insert _ _ _ _ _ Hc); [change (isLive (cancel (addWaiters (-1) x))) with (isLive x)|change (isLive (addWaiters (-1) x)) with (isLive x)]; lia.
Qed.

Lemma counted_step e s s' : counted s -> engineStep e s = Some s' -> counted s'.
Proof.
  intros Hs Hstep. pose proof Hs as [Ha Hx Hd Hdd].
  assert (forall t w w', e_callers s !! t = Some w -> sumOver isActive (<[t := w']> (e_callers s)) = sumOver isActive (e_callers s) - isActive w + isActive w') as Hsw
    by (intros; by apply sumOver_insert).
  assert (forall c x x', e_calls s !! c = Some x -> sumOver isLive (<[c := x']> (e_calls s)) = sumOver isLive (e_calls s) - isLive x + isLive x') as Hsx
    by (intros; by apply sumOver_insert).
  destruct e as [d|t key dl|t|t|t|t|t|c r|c|c|c| | |]; simpl in Hstep;
    [injection Hstep as <-; by destruct Hs|..].
  1-6: destruct (e_callers s !! t) as [w|] eqn:Ht; [|done]; pose proof (working s t w Hs Ht) as Hwork.
  7-10: destruct (e_calls s !! c) as [x|] eqn:Hc; [|done]; destruct (x_phase x) eqn:Hp; try done; injection Hstep as <-;
    assert (isLive x = 1) as Hl by (unfold isLive; by rewrite Hp).
  - destruct w; try done. destruct (e_drain s) eqn:Ed; injection Hstep as <-; try done. constructor; simpl; rewrite ?Ed; try done.
    + rewrite (Hsw _ _ _ Ht). simpl. lia.
    + by intros [?|?].
  - destruct w as [|key dl| | |]; try done. simpl in Hwork. specialize (Hwork eq_refl). case_decide.
    + injection Hstep as <-. constructor; simpl; try done. rewrite (Hsw _ _ _ Ht). simpl. lia.
    + unfold Do in Hstep. destruct (e_map s !! key) as [c|].
      * destruct (e_calls s !! c) as [x|] eqn:Hc; injection Hstep as <-; constructor; simpl; try done; rewrite ?(Hsw _ _ _ Ht), ?(Hsx _ _ _ Hc);
          try change (isLive (addWaiters 1 x)) with (isLive x); simpl; lia.
      * injection Hstep as <-. constructor; simpl; try done; rewrite ?(Hsw _ _ _ Ht), ?sumOver_snoc; try (unfold isLive at 2); simpl; try lia.
        intros Hdr. destruct Hwork. apply Hd. auto.
  - destruct w as [| | |key c|]; try done. destruct (e_calls s !! c) as [x|]; [|done].
    assert (s' = with_caller t (Returning key c (x_result x)) s) as -> by (destruct (x_phase x); by simplify_eq).
    constructor; simpl; try done. rewrite (Hsw _ _ _ Ht). simpl. lia.
  - destruct w as [| | |key c|]; try done. injection Hstep as <-. destruct (leaveWait_keeps key c s) as (H1 & H2 & H3 & H4 & H5).
    constructor; simpl; rewrite ?H1, ?H2, ?H3, ?H4, ?H5; try done. rewrite (Hsw _ _ _ Ht). simpl. lia.
  - destruct w; try done. injection Hstep as <-. constructor; simpl; try done. rewrite (Hsw _ _ _ Ht). simpl. lia.
  - destruct w; try done. injection Hstep as <-. specialize (Hwork eq_refl). constructor; simpl; try done.
    + rewrite (Hsw _ _ _ Ht). simpl. lia.
    + intros Hdr. by apply Hd in Hdr.
  - constructor; simpl; try done. rewrite (Hsx _ _ _ Hc), Hl. unfold isLive at 2; simpl. lia.
  - constructor; simpl; try done. rewrite (Hsx _ _ _ Hc), Hl. unfold isLive at 2; simpl. lia.
  - constructor; simpl; try done. rewrite (Hsx _ _ _ Hc), Hl. unfold isLive at 2; simpl. lia.
  - constructor; simpl; try done.
    + rewrite (Hsx _ _ _ Hc), Hl. unfold isLive at 2; simpl. lia.
    + intros Hdr. exfalso. apply (live_call s c x Hs Hc); [done|auto].
  - destruct (e_drain s); try done. injection Hstep as <-. constructor; simpl; try done. by intros [?|?].
  - destruct (e_drain s); try done. destruct (Z.eqb_spec (e_active s) 0); [|done]. injection Hstep as <-. by constructor.
  - destruct (e_drain s) eqn:Ed; try done. destruct (Z.eqb_spec (e_executions s) 0); [|done]. injection Hstep as <-. constructor; simpl; try done. intros _. auto.
Qed.
(** ** What callers wait for *)

Record shared s : Prop := {
  sh_link : forall key c, e_map s !! key = Some c ->
    exists x, e_calls s !! c = Some x /\ x_key x = key /\ 0 < x_waiters x /\ (x_phase x = GRun \/ x_phase x = GStored);
  sh_wait : forall t key c, e_callers s !! t = Some (Awaiting key c) -> exists x, e_calls s !! c = Some x /\ x_key x = key;
  sh_count : forall c x, e_calls s !! c = Some x -> waiting c s <= x_waiters x /\
    (x_phase x <> GClosed -> x_phase x <> GEnded -> x_waiters x = waiting c s);
  sh_cancelled : forall c x, e_calls s !! c = Some x -> x_phase x = GRun -> x_cancelled x = true -> x_waiters x = 0;
  sh_running : forall c x, e_calls s !! c = Some x -> x_phase x = GRun -> x_cancelled x = false -> e_map s !! x_key x = Some c;
  sh_cut : forall c x, e_calls s !! c = Some x -> x_cut x = true -> waiting c s = 0 /\ forall key, e_map s !! key <> Some c;
  sh_uncut : forall c x, e_calls s !! c = Some x -> x_phase x = GRun -> x_cut x = false;
  sh_result : forall c x, e_calls s !! c = Some x -> x_phase x <> GRun -> is_Some (x_result x);
  sh_return : forall t key c r, e_callers s !! t = Some (Returning key c (Some r)) ->
    exists x, e_calls s !! c = Some x /\ x_key x = key /\ x_result x = Some r /\ x_cut x = false /\ x_phase x <> GRun;
}.

Lemma waiting_caller c t w w' s : e_callers s !! t = Some w -> waiting c (with_caller t w' s) = waiting c s - waitsOn c w + waitsOn c w'.
Proof. intros Ht. unfold waiting. simpl. by rewrite (sumOver_insert _ _ _ _ _ Ht). Qed.

Lemma waiting_pos c t key s : e_callers s !! t = Some (Awaiting key c) -> 0 < waiting c s.
Proof.
  intros Ht. pose proof (sumOver_nonneg (waitsOn c) (e_callers s) (waits_nonneg c)) as Hn. destruct (decide (waiting c s = 0)) as [Hz|Hz].
  - pose proof (sumOver_zero_all _ _ _ _ (waits_nonneg c) Hz Ht) as Hx. simpl in Hx. rewrite decide_True in Hx by done. lia.
  - unfold waiting in *. lia.
Qed.

(** An execution that goes on: its key and, once it is there, its result. *)
Record goesOn x x' : Prop := {
  go_key : x_key x' = x_key x;
  go_run : x_phase x' = GRun -> x_phase x = GRun;
  go_result : x_phase x <> GRun -> x_result x' = x_result x /\ x_cut x' = x_cut x;
}.

Lemma goesOn_refl x : goesOn x x.
Proof. by constructor. Qed.

(** A caller that does not wait, and did not, moves. *)
Lemma shared_move t w w' s :
  shared s -> e_callers s !! t = Some w -> (forall c, waitsOn c w = 0) -> (forall c, waitsOn c w' = 0) ->
  (forall key c r, w' <> Returning key c (Some r)) -> shared (with_caller t w' s).
Proof.
  intros [] Ht Hw Hw' Hr. assert (forall c, waiting c (with_caller t w' s) = waiting c s) as Hwait
    by (intros c; rewrite (waiting_caller _ _ _ _ _ Ht), Hw, Hw'; lia).
  constructor; simpl; intros; rewrite ?Hwait; eauto.
  - apply list_lookup_insert_Some in H as [(-> & -> & _)|[_ H]]; [|eauto]. specialize (Hw' c). simpl in Hw'. by rewrite decide_True in Hw'.
  - apply list_lookup_insert_Some in H as [(-> & -> & _)|[_ H]]; [|eauto]. by destruct (Hr key c r).
Qed.

(** An execution's goroutine moves on, its key perhaps freed. *)
Lemma shared_goroutine c x x' m s :
  shared s -> e_calls s !! c = Some x -> goesOn x x' -> x_waiters x' = x_waiters x -> x_phase x' <> GRun -> is_Some (x_result x') ->
  (forall k d, m !! k = Some d -> e_map s !! k = Some d) -> (forall k d, e_map s !! k = Some d -> d <> c -> m !! k = Some d) ->
  (forall k, m !! k = Some c -> x_phase x' = GStored) -> (x_cut x' = true -> waiting c s = 0 /\ forall k, m !! k <> Some c) ->
  ((x_phase x = GClosed \/ x_phase x = GEnded) -> (x_phase x' = GClosed \/ x_phase x' = GEnded)) ->
  shared (with_map m (with_call c x' s)).
Proof.
  intros [] Hc [Hk Hrun Hres] Hw Hp Hsome Hm Hm' Hst Hcut Hcl.
  assert (forall d, waiting d (with_map m (with_call c x' s)) = waiting d s) as Hwait by done.
  assert (forall d y, <[c := x']> (e_calls s) !! d = Some y -> (d = c /\ y = x') \/ (d <> c /\ e_calls s !! d = Some y)) as Hl.
  { intros d y [(-> & -> & _)|[? ?]]%list_lookup_insert_Some; auto. }
  assert (forall d, e_calls s !! d <> None -> d <> c -> <[c := x']> (e_calls s) !! d = e_calls s !! d) as Ho by (intros; by rewrite list_lookup_insert_ne).
  assert (<[c := x']> (e_calls s) !! c = Some x') as Hh by (apply list_lookup_insert_eq; by eapply lookup_lt_Some).
  constructor; simpl; intros.
  - destruct (decide (c0 = c)) as [->|Hne].
    + pose proof (Hst _ H) as Hs'. apply Hm in H. destruct (sh_link0 _ _ H) as (y & Hy & Hky & Hwy & _). exists x'.
      rewrite Hh. assert (y = x) as -> by congruence. split_and!; try done; [congruence|lia|auto].
    + apply Hm in H. destruct (sh_link0 _ _ H) as (y & Hy & ?). exists y. rewrite Ho; [done|congruence|done].
  - destruct (sh_wait0 _ _ _ H) as (y & Hy & Hky). destruct (decide (c0 = c)) as [->|Hne].
    + exists x'. split; [done|]. rewrite Hk. congruence.
    + exists y. rewrite Ho; [done|congruence|done].
  - rewrite Hwait. destruct (Hl _ _ H) as [[-> ->]|[_ Hy]]; [|eauto]. destruct (sh_count0 _ _ Hc) as [H1 H2]. rewrite Hw. split; [done|].
    intros Hn1 Hn2. apply H2; intros E; destruct Hcl as [?|?]; auto.
  - destruct (Hl _ _ H) as [[-> ->]|[_ Hy]]; [done|eauto].
  - destruct (Hl _ _ H) as [[-> ->]|[Hne Hy]]; [done|]. apply Hm'; [eauto|done].
  - rewrite Hwait. destruct (Hl _ _ H) as [[-> ->]|[Hne Hy]]; [auto|]. destruct (sh_cut0 _ _ Hy H0) as [? Hno]. split; [done|].
    intros k Hx. by apply Hm, Hno in Hx.
  - destruct (Hl _ _ H) as [[-> ->]|[_ Hy]]; [done|eauto].
  - destruct (Hl _ _ H) as [[-> ->]|[_ Hy]]; [done|eauto].
  - destruct (sh_return0 _ _ _ _ H) as (y & Hy & Hky & Hry & Hcy & Hpy). destruct (decide (c0 = c)) as [->|Hne].
    + exists x'. assert (y = x) as -> by congruence. destruct (Hres Hpy) as [H1 H2]. rewrite H1, H2, Hk. done.
    + exists y. rewrite Ho; [done|congruence|done].
Qed.

(** A caller joins, or leaves, the execution [c]: [n] more wait for it. *)
Lemma shared_waiters t w w' c x x' n m s :
  shared s -> e_callers s !! t = Some w -> e_calls s !! c = Some x ->
  (forall d, waitsOn d w' = waitsOn d w + if decide (d = c) then n else 0) ->
  (forall key d, w' = Awaiting key d -> d = c /\ x_key x = key) -> (forall key d r, w' <> Returning key d (Some r)) ->
  x_key x' = x_key x -> x_waiters x' = x_waiters x + n -> x_phase x' = x_phase x -> x_result x' = x_result x -> x_cut x' = x_cut x ->
  (x_cut x = true -> n <= 0) -> (x_phase x = GRun -> x_cancelled x' = true -> x_waiters x' = 0) ->
  (x_phase x = GRun -> x_cancelled x' = false -> m !! x_key x = Some c) ->
  (forall k d, m !! k = Some d -> e_map s !! k = Some d) -> (forall k d, e_map s !! k = Some d -> d <> c -> m !! k = Some d) ->
  (forall k, m !! k = Some c -> 0 < x_waiters x') ->
  shared (with_caller t w' (with_map m (with_call c x' s))).
Proof.
  intros [] Ht Hc Hw Haw Hret Hk Hws Hp Hr Hcut Hn Hcan Hrun Hm Hm' Hpos.
  assert (forall d, waiting d (with_caller t w' (with_map m (with_call c x' s))) = waiting d s + if decide (d = c) then n else 0) as Hwait.
  { intros d. rewrite (waiting_caller _ t w) by done. rewrite Hw. unfold waiting; simpl. lia. }
  assert (forall d y, <[c := x']> (e_calls s) !! d = Some y -> (d = c /\ y = x') \/ (d <> c /\ e_calls s !! d = Some y)) as Hl.
  { intros d y [(-> & -> & _)|[? ?]]%list_lookup_insert_Some; auto. }
  assert (forall d y, e_calls s !! d = Some y -> exists y', <[c := x']> (e_calls s) !! d = Some y' /\ x_key y' = x_key y /\ x_result y' = x_result y /\
            x_cut y' = x_cut y /\ x_phase y' = x_phase y /\ (d <> c -> y' = y)) as Hfw.
  { intros d y Hy. destruct (decide (d = c)) as [->|Hne].
    - exists x'. rewrite list_lookup_insert_eq by (by eapply lookup_lt_Some). assert (y = x) as -> by congruence. done.
    - exists y. by rewrite list_lookup_insert_ne. }
  assert (forall u v, <[t := w']> (e_callers s) !! u = Some v -> v = w' \/ e_callers s !! u = Some v) as Hcl.
  { intros u v [(-> & -> & _)|[? ?]]%list_lookup_insert_Some; auto. }
  constructor; simpl; intros.
  - destruct (sh_link0 _ _ (Hm _ _ H)) as (y & Hy & Hky & Hwy & Hpy). destruct (Hfw _ _ Hy) as (y' & Hy' & H1 & H2 & H3 & H4 & H5). exists y'.
    split; [done|]. split; [congruence|]. split; [|by rewrite H4]. destruct (decide (c0 = c)) as [->|Hne]; [|by rewrite H5].
    destruct (Hl _ _ Hy') as [[_ ->]|[? _]]; [by apply (Hpos key)|done].
  - destruct (Hcl _ _ H) as [<-|Hold]; [destruct (Haw _ _ eq_refl) as [-> <-]|destruct (sh_wait0 _ _ _ Hold) as (y & Hc' & <-)];
      [destruct (Hfw _ _ Hc) as (y' & ? & ? & _)|destruct (Hfw _ _ Hc') as (y' & ? & ? & _)]; by exists y'.
  - rewrite Hwait. destruct (Hl _ _ H) as [[-> ->]|[Hne Hy]].
    + rewrite decide_True by done. destruct (sh_count0 _ _ Hc) as [H1 H2]. rewrite Hws, Hp. split; [lia|]. intros. rewrite H2 by done. done.
    + rewrite decide_False, Z.add_0_r by done. eauto.
  - destruct (Hl _ _ H) as [[-> ->]|[Hne Hy]]; [apply Hcan; congruence|eauto].
  - destruct (Hl _ _ H) as [[-> ->]|[Hne Hy]]; [rewrite Hk; apply Hrun; congruence|]. apply Hm'; [eauto|done].
  - rewrite Hwait. destruct (Hl _ _ H) as [[-> ->]|[Hne Hy]].
    + rewrite decide_True by done. destruct (sh_cut0 _ _ Hc) as [H1 H2]; [congruence|]. rewrite H1. split; [|intros k Hx; by apply Hm, H2 in Hx].
      specialize (Hn ltac:(congruence)). pose proof (sumOver_nonneg (waitsOn c) (<[t := w']> (e_callers s)) (waits_nonneg c)) as Hnn.
      specialize (Hwait c). rewrite decide_True, H1 in Hwait by done. unfold waiting in Hwait; simpl in Hwait. lia.
    + rewrite decide_False, Z.add_0_r by done. destruct (sh_cut0 _ _ Hy H0) as [? Hno]. split; [done|]. intros k Hx. by apply Hm, Hno in Hx.
  - destruct (Hl _ _ H) as [[-> ->]|[Hne Hy]]; [rewrite Hcut; apply (sh_uncut0 c x); congruence|eauto].
  - destruct (Hl _ _ H) as [[-> ->]|[Hne Hy]]; [rewrite Hr; apply (sh_result0 c x); congruence|eauto].
  - destruct (Hcl _ _ H) as [<-|Hold]; [by destruct (Hret key c0 r)|]. destruct (sh_return0 _ _ _ _ Hold) as (y & Hy & Hky & Hry & Hcy & Hpy).
    destruct (Hfw _ _ Hy) as (y' & ? & ? & ? & ? & ? & _). exists y'. split_and!; congruence.
Qed.

(** A new execution. *)
Lemma shared_new t key dl s :
  shared s -> e_callers s !! t = Some (Entering key dl) -> e_map s !! key = None ->
  shared (with_caller t (Awaiting key (length (e_calls s)))
    (mkEngine (<[key := length (e_calls s)]> (e_map s)) (e_calls s ++ [started key dl]) (e_callers s)
       (e_active s) (e_executions s + 1) (e_drain s) (e_now s))).
Proof.
  intros [] Ht Hk. set (n := length (e_calls s)). set (new := started key dl). set (s' := with_caller _ _ _).
  assert (forall d, waiting d s' = waiting d s + if decide (n = d) then 1 else 0) as Hwait.
  { intros d. unfold s'. rewrite (waiting_caller _ t (Entering key dl)) by done. unfold waiting; simpl. lia. }
  assert (forall d y, (e_calls s ++ [new]) !! d = Some y -> (d = n /\ y = new) \/ ((d < n)%nat /\ e_calls s !! d = Some y)) as Hl.
  { intros d y. destruct (decide (d < n)%nat) as [Hlt|Hge]; [rewrite lookup_app_l by done; auto|]. rewrite lookup_app_r by lia.
    fold n. destruct (d - n)%nat eqn:E; simpl; [intros [= <-]; left; split; [lia|done]|done]. }
  assert (forall d y, e_calls s !! d = Some y -> (e_calls s ++ [new]) !! d = Some y) as Hfw by (intros; by apply lookup_app_l_Some).
  assert (waiting n s = 0) as Hzero.
  { apply sumOver_zero. intros v (u & Hu)%list_elem_of_lookup. destruct v as [| | |k c|]; simpl; try done. case_decide; [|done]. subst c.
    destruct (sh_wait0 _ _ _ Hu) as (y & Hy & _). apply lookup_lt_Some in Hy. unfold n in Hy. lia. }
  assert (forall k d, <[key := n]> (e_map s) !! k = Some d -> (k = key /\ d = n) \/ (k <> key /\ e_map s !! k = Some d)) as Hm.
  { intros k d. rewrite lookup_insert_Some. naive_solver. }
  assert (forall k, e_map s !! k <> Some n) as Hno.
  { intros k Hx. destruct (sh_link0 _ _ Hx) as (y & Hy & _). apply lookup_lt_Some in Hy. unfold n in Hy. lia. }
  constructor; simpl; intros.
  - destruct (Hm _ _ H) as [[-> ->]|[_ Hx]].
    + exists new. split; [unfold n; by rewrite list_lookup_middle|]. split; [done|]. split; [simpl; lia|by left].
    + destruct (sh_link0 _ _ Hx) as (y & Hy & ?). exists y. auto.
  - apply list_lookup_insert_Some in H as [(-> & [= <- <-] & _)|[_ H]].
    + exists new. split; [unfold n; by rewrite list_lookup_middle|done].
    + destruct (sh_wait0 _ _ _ H) as (y & Hy & ?). exists y. auto.
  - rewrite Hwait. destruct (Hl _ _ H) as [[-> ->]|[Hlt Hy]]; [rewrite decide_True, Hzero by done; simpl; done|].
    rewrite decide_False, Z.add_0_r by lia. eauto.
  - destruct (Hl _ _ H) as [[-> ->]|[Hlt Hy]]; [done|eauto].
  - destruct (Hl _ _ H) as [[-> ->]|[Hlt Hy]]; [simpl; by rewrite lookup_insert_eq|]. specialize (sh_running0 _ _ Hy H0 H1).
    rewrite lookup_insert_ne; [done|congruence].
  - rewrite Hwait. destruct (Hl _ _ H) as [[-> ->]|[Hlt Hy]]; [done|]. rewrite decide_False, Z.add_0_r by lia.
    destruct (sh_cut0 _ _ Hy H0) as [? Hx]. split; [done|]. intros k [[_ ->]|[_ Hz]]%Hm; [lia|by apply Hx in Hz].
  - destruct (Hl _ _ H) as [[-> ->]|[Hlt Hy]]; [done|eauto].
  - destruct (Hl _ _ H) as [[-> ->]|[Hlt Hy]]; [done|eauto].
  - apply list_lookup_insert_Some in H as [(_ & ? & _)|[_ H]]; [done|]. destruct (sh_return0 _ _ _ _ H) as (y & Hy & ?). exists y. auto.
Qed.

(** A caller takes the result of an execution that is over. *)
Lemma shared_answer t key c x s :
  shared s -> e_callers s !! t = Some (Awaiting key c) -> e_calls s !! c = Some x -> x_phase x = GClosed \/ x_phase x = GEnded ->
  shared (with_caller t (Returning key c (x_result x)) s).
Proof.
  intros Hs Ht Hc Hp. pose proof Hs as [].
  assert (forall d, waiting d (with_caller t (Returning key c (x_result x)) s) = waiting d s - if decide (c = d) then 1 else 0) as Hwait
    by (intros d; rewrite (waiting_caller _ _ _ _ _ Ht); simpl; lia).
  assert (x_cut x = false) as Hcut.
  { destruct (x_cut x) eqn:E; [|done]. destruct (sh_cut0 _ _ Hc E) as [Hz _]. pose proof (waiting_pos _ _ _ _ Ht). lia. }
  constructor; simpl; intros; rewrite ?Hwait; eauto.
  - apply list_lookup_insert_Some in H as [(_ & ? & _)|[_ H]]; [done|eauto].
  - destruct (sh_count0 _ _ H) as [H1 H2]. case_decide as Hd; [|by rewrite Z.sub_0_r]. subst c0. assert (x0 = x) as -> by congruence.
    split; [lia|]. intros. naive_solver.
  - destruct (sh_cut0 _ _ H H0) as [H1 H2]. case_decide as Hd; [|by rewrite Z.sub_0_r]. subst c0. congruence.
  - apply list_lookup_insert_Some in H as [(_ & [= -> -> Hr] & _)|[_ H]]; [|eauto]. destruct (sh_wait0 _ _ _ Ht) as (y & Hy & Hk).
    exists x. assert (y = x) as -> by congruence. split_and!; try done. by destruct Hp as [-> | ->].
Qed.

Lemma unlink_spec key c (m : gmap string nat) :
  (forall k d, unlink key c m !! k = Some d -> m !! k = Some d) /\ (forall k d, m !! k = Some d -> d <> c -> unlink key c m !! k = Some d) /\
  unlink key c m !! key <> Some c.
Proof.
  unfold unlink. case_bool_decide as Hk; split_and!; try done.
  - intros k d [_ ?]%lookup_delete_Some. done.
  - intros k d Hd Hne. rewrite lookup_delete_ne; [done|]. intros <-. congruence.
  - by rewrite lookup_delete_eq.
Qed.

Lemma with_map_id s : with_map (e_map s) s = s.
Proof. by destruct s. Qed.

(** A caller whose context ended leaves the wait. *)
Lemma shared_leave t key c s : shared s -> e_callers s !! t = Some (Awaiting key c) -> shared (with_caller t (Returning key c None) (leaveWait key c s)).
Proof.
  intros Hs Ht. destruct (sh_wait _ Hs _ _ _ Ht) as (x & Hc & Hk). unfold leaveWait. rewrite Hc. simpl x_waiters.
  pose proof (sh_count _ Hs _ _ Hc) as [Hle Hcnt]. pose proof (waiting_pos _ _ _ _ Ht) as Hpos.
  assert (forall d, waitsOn d (Returning key c (@None R)) = waitsOn d (Awaiting key c) + if decide (d = c) then -1 else 0) as Hw.
  { intros d. simpl. repeat case_decide; congruence || lia. }
  assert (forall k, e_map s !! k = Some c -> k = key) as Hkey.
  { intros k Hx. destruct (sh_link _ Hs _ _ Hx) as (y & Hy & Hky & _). congruence. }
  destruct (unlink_spec key c (e_map s)) as (U1 & U2 & U3). destruct (Z.eqb_spec (x_waiters x + -1) 0) as [Hz|Hz].
  - eapply (shared_waiters t (Awaiting key c) _ c x); try done.
    + simpl. intros k Hx. assert (k = key) as -> by (apply Hkey, U1, Hx). by apply U3 in Hx.
  - replace (with_call c (addWaiters (-1) x) s) with (with_map (e_map s) (with_call c (addWaiters (-1) x) s)) by done.
    eapply (shared_waiters t (Awaiting key c) _ c x); try done.
    + simpl. intros Hrun Hcan. pose proof (sh_cancelled _ Hs _ _ Hc Hrun Hcan). lia.
    + simpl. intros Hrun Hcan. by apply (sh_running _ Hs).
    + simpl. intros k Hx. lia.
Qed.

Lemma shared_step e s s' : shared s -> engineStep e s = Some s' -> shared s'.
Proof.
  intros Hs Hstep. destruct e as [d|t key dl|t|t|t|t|t|c r|c|c|c| | |]; simpl in Hstep;
    [injection Hstep as <-; by destruct Hs|..].
  1-6: destruct (e_callers s !! t) as [w|] eqn:Ht; [|done].
  7-10: destruct (e_calls s !! c) as [x|] eqn:Hc; [|done]; destruct (x_phase x) eqn:Hp; try done; injection Hstep as <-;
    destruct (unlink_spec (x_key x) c (e_map s)) as (U1 & U2 & U3).
  - destruct w; try done. destruct (e_drain s); injection Hstep as <-; try done. eapply (shared_move t Away); try done. by destruct Hs.
  - destruct w as [|key dl| | |]; try done. case_decide; [injection Hstep as <-; by eapply (shared_move t (Entering key dl))|]. unfold Do in Hstep.
    destruct (e_map s !! key) as [c|] eqn:Hm; [|injection Hstep as <-; by apply shared_new].
    destruct (sh_link _ Hs _ _ Hm) as (x & Hc & Hk & Hpos & Hph). rewrite Hc in Hstep. injection Hstep as <-.
    replace (with_call c (addWaiters 1 x) s) with (with_map (e_map s) (with_call c (addWaiters 1 x) s)) by done.
    eapply (shared_waiters t (Entering key dl) _ c x); try done.
    + intros d. simpl. repeat case_decide; congruence || lia.
    + by intros ? ? [= <- <-].
    + intros Hcut. destruct (sh_cut _ Hs _ _ Hc Hcut) as [_ Hno]. by apply Hno in Hm.
    + simpl. intros Hrun Hcan. pose proof (sh_cancelled _ Hs _ _ Hc Hrun Hcan). lia.
    + simpl. intros _ _. congruence.
    + simpl. intros. lia.
  - destruct w as [| | |key c|]; try done. destruct (e_calls s !! c) as [x|] eqn:Hc; [|done].
    destruct (x_phase x) eqn:Hp; try done; injection Hstep as <-; apply shared_answer; auto.
  - destruct w as [| | |key c|]; try done. injection Hstep as <-. by apply shared_leave.
  - destruct w; try done. injection Hstep as <-. by eapply (shared_move t Direct).
  - destruct w as [| | | |key c a]; try done. injection Hstep as <-. eapply (shared_move t (Returning key c a)); try done. by destruct Hs.
  - rewrite <- (with_map_id (with_call c (store (e_now s) r x) s)). simpl e_map. eapply shared_goroutine; try done; simpl; eauto.
    + intros Hcan. pose proof (sh_cancelled _ Hs _ _ Hc Hp Hcan) as Hz. destruct (sh_count _ Hs _ _ Hc) as [_ Hcnt]. split; [by rewrite <- Hcnt, Hz by (by rewrite Hp)|].
      intros k Hx. destruct (sh_link _ Hs _ _ Hx) as (y & Hy & _ & Hpos & _). assert (y = x) as -> by congruence. lia.
    + rewrite Hp. by intros [?|?].
  - eapply shared_goroutine; try done; simpl; eauto.
    + apply (sh_result _ Hs _ _ Hc). by rewrite Hp.
    + intros k Hx. exfalso. pose proof (U1 _ _ Hx) as Hy. destruct (sh_link _ Hs _ _ Hy) as (y & Hy' & Hk & _). assert (k = x_key x) as -> by congruence. by apply U3 in Hx.
    + intros Hcut. destruct (sh_cut _ Hs _ _ Hc Hcut) as [? Hno]. split; [done|]. intros k Hx. by apply U1, Hno in Hx.
    + rewrite Hp. by intros [?|?].
  - rewrite <- (with_map_id (with_call c (at_phase GClosed x) s)). simpl e_map. eapply shared_goroutine; try done; simpl; eauto.
    + apply (sh_result _ Hs _ _ Hc). by rewrite Hp.
    + intros k Hx. destruct (sh_link _ Hs _ _ Hx) as (y & Hy' & _ & _ & Hph). assert (y = x) as -> by congruence. rewrite Hp in Hph. by destruct Hph.
    + intros Hcut. by apply (sh_cut _ Hs _ _ Hc).
  - cut (shared (with_call c (at_phase GEnded x) s)); [by intros []|]. rewrite <- (with_map_id (with_call c (at_phase GEnded x) s)). simpl e_map.
    eapply shared_goroutine; try done; simpl; eauto.
    + apply (sh_result _ Hs _ _ Hc). by rewrite Hp.
    + intros k Hx. destruct (sh_link _ Hs _ _ Hx) as (y & Hy' & _ & _ & Hph). assert (y = x) as -> by congruence. rewrite Hp in Hph. by destruct Hph.
    + intros Hcut. by apply (sh_cut _ Hs _ _ Hc).
  - destruct (e_drain s); try done. injection Hstep as <-. by destruct Hs.
  - destruct (e_drain s); try done. destruct (_ =? 0); [|done]. injection Hstep as <-. by destruct Hs.
  - destruct (e_drain s); try done. destruct (_ =? 0); [|done]. injection Hstep as <-. by destruct Hs.
Qed.

Lemma engineStart_ok n : counted (engineStart n : Engine R) /\ shared (engineStart n : Engine R).
Proof.
  assert (forall t w, replicate n (@Away R) !! t = Some w -> w = Away) as Hw by (by intros t w [-> _]%lookup_replicate).
  split; constructor; simpl; intros; try done; try (by apply Hw in H).
  - symmetry. apply sumOver_zero. intros w [-> _]%elem_of_replicate. done.
Qed.

Lemma engineRun_ok es s : counted s /\ shared s -> counted (engineRun es s) /\ shared (engineRun es s).
Proof.
  unfold engineRun. revert s. induction es as [|e es IH]; intros s Hs; simpl; [done|]. apply IH. destruct (engineStep e s) as [s'|] eqn:E; [|done].
  destruct Hs as [Hc Hsh]. split; [by eapply counted_step|by eapply shared_step].
Qed.

(** ** Deadlines *)

(** Of the calls that came, [es], one gave each execution its key and deadline;
    and what its context was when its result came. *)
Record timed (es : list (engineEvent R)) s : Prop := {
  ti_enter : forall t key dl, e_callers s !! t = Some (Entering key dl) -> Submit t key dl ∈ es;
  ti_call : forall c x, e_calls s !! c = Some x ->
    (exists t, Submit t (x_key x) (x_deadline x) ∈ es) /\
    (x_phase x <> GRun -> x_at x <= e_now s /\ x_ended x = x_cut x || passed (x_deadline x) (x_at x));
}.

Lemma timed_more es e s : timed es s -> timed (es ++ [e]) s.
Proof. intros []. split; intros; setoid_rewrite elem_of_app; naive_solver. Qed.

(** A caller moves, to where it does not start one. *)
Lemma timed_caller es t w s : timed es s -> (forall key dl, w = Entering key dl -> Submit t key dl ∈ es) -> timed es (with_caller t w s).
Proof. intros [] Hw. split; simpl; [|done]. intros u key dl [(-> & -> & _)|[_ ?]]%list_lookup_insert_Some; eauto. Qed.

(** An execution changes, but for what it was started with and its result. *)
Lemma timed_call es c x x' s : timed es s -> e_calls s !! c = Some x -> x_key x' = x_key x -> x_deadline x' = x_deadline x ->
  (x_phase x' <> GRun -> x_at x' <= e_now s /\ x_ended x' = x_cut x' || passed (x_deadline x') (x_at x')) -> timed es (with_call c x' s).
Proof.
  intros [] Hc Hk Hd Hx. split; simpl; [done|]. intros d y [(-> & -> & _)|[_ Hy]]%list_lookup_insert_Some; [|eauto].
  destruct (ti_call0 _ _ Hc) as [Ht _]. rewrite Hk, Hd. split; [done|]. by rewrite <- Hd.
Qed.

(** What timed does not speak of. *)
Lemma timed_rest es s s' : timed es s -> e_callers s' = e_callers s -> e_calls s' = e_calls s -> e_now s <= e_now s' -> timed es s'.
Proof.
  intros [] E1 E2 Hn. split; rewrite ?E1, ?E2; [done|]. intros c x Hc. destruct (ti_call0 _ _ Hc) as [? H]. split; [done|].
  intros Hp. destruct (H Hp). split; [lia|done].
Qed.

Lemma timed_Do es key dl s : timed es s -> (exists t, Submit t key dl ∈ es) -> timed es (Do key dl s).1.
Proof.
  intros Hs Ht. unfold Do. destruct (e_map s !! key) as [c|]; simpl.
  - destruct (e_calls s !! c) as [x|] eqn:Hc; [|done]. eapply timed_call; try done. apply (ti_call _ _ Hs _ _ Hc).
  - destruct Hs. split; simpl; [done|]. intros c x [Hc|[_ Hc]]%lookup_app_Some; [eauto|].
    destruct (c - _)%nat; [|done]. injection Hc as <-. by split.
Qed.

Lemma timed_leave es key c s : timed es s -> timed es (leaveWait key c s).
Proof.
  intros Hs. unfold leaveWait. destruct (e_calls s !! c) as [x|] eqn:Hc; [|done]. pose proof (proj2 (ti_call _ _ Hs _ _ Hc)) as Hx.
  destruct (_ =? 0); [|by eapply timed_call]. eapply (timed_rest _ (with_call c (cancel (addWaiters (-1) x)) s)); try done. by eapply timed_call.
Qed.

Lemma timed_step es e s : timed es s -> timed (es ++ [e]) (default s (engineStep e s)).
Proof.
  intros H0. pose proof (timed_more es e s H0) as Hs. destruct (engineStep e s) as [s'|] eqn:E; [|done]. simpl.
  assert (forall c x, e_calls s !! c = Some x -> x_phase x <> GRun -> x_at x <= e_now s /\ x_ended x = x_cut x || passed (x_deadline x) (x_at x)) as Hx
    by (intros c x Hc; apply (ti_call _ _ Hs _ _ Hc)).
  destruct e as [d|t key dl|t|t|t|t|t|c r|c|c|c| | |]; simpl in E.
  2-7: destruct (e_callers s !! t) as [w|] eqn:Ht; [|done].
  8-11: destruct (e_calls s !! c) as [x|] eqn:Hc; [|done]; destruct (x_phase x) eqn:Hp; try done; injection E as <-; pose proof (Hx _ _ Hc) as Hxc.
  - injection E as <-. eapply timed_rest; try done. simpl. lia.
  - destruct w; try done. destruct (e_drain s); injection E as <-; try done. apply timed_caller; [by eapply timed_rest|].
    intros ? ? [= <- <-]. set_solver.
  - destruct w as [|key dl| | |]; try done. case_decide; [injection E as <-; by apply timed_caller|].
    pose proof (timed_Do _ key dl s Hs ltac:(exists t; by eapply ti_enter)) as Hd. destruct (Do key dl s) as [s1 c]. injection E as <-. by apply timed_caller.
  - destruct w as [| | |key c|]; try done. destruct (e_calls s !! c) as [x|]; [|done].
    assert (s' = with_caller t (Returning key c (x_result x)) s) as -> by (destruct (x_phase x); by simplify_eq). by apply timed_caller.
  - destruct w as [| | |key c|]; try done. injection E as <-. apply timed_caller; [by apply timed_leave|done].
  - destruct w; try done. injection E as <-. by apply timed_caller.
  - destruct w; try done. injection E as <-. apply timed_caller; [by eapply timed_rest|done].
  - eapply timed_call; try done.
  - eapply (timed_rest _ (with_call c (at_phase GUnlinked x) s)); try done. eapply timed_call; try done. intros _. apply Hxc. by rewrite Hp.
  - eapply timed_call; try done. intros _. apply Hxc. by rewrite Hp.
  - eapply (timed_rest _ (with_call c (at_phase GEnded x) s)); try done. eapply timed_call; try done. intros _. apply Hxc. by rewrite Hp.
  - destruct (e_drain s); try done. injection E as <-. by eapply timed_rest.
  - destruct (e_drain s); try done. destruct (_ =? 0); [|done]. injection E as <-. by eapply timed_rest.
  - destruct (e_drain s); try done. destruct (_ =? 0); [|done]. injection E as <-. by eapply timed_rest.
Qed.

Lemma timed_run callers es : timed es (engineRun es (engineStart callers)).
Proof.
  induction es as [|e es IH] using rev_ind.
  - split; simpl; [|done]. intros t key dl. by intros [? _]%lookup_replicate.
  - unfold engineRun. rewrite foldl_snoc. by apply timed_step.
Qed.

(** ** The theorems *)

(** C23. Calls that share an execution are answered soundly.  Whatever calls
    come, join, give up and return, and however executions end, in any order
    and at any time: a call that returns with a result has the result of an
    execution of its own key, never one cancelled because its callers had
    left; the context that execution ran in had ended before its result only
    if its deadline had passed by then, which is the deadline of the call that
    started it (so a call that joined may get a result cut short by the
    deadline of another: [follower_cut_short]).  A call that waits never waits
    for an execution cancelled by others' leaving, and of one key at most one
    execution that is not so cancelled runs. *)
Theorem singleflight_sound (callers : nat) (es : list (engineEvent R)) :
  let s := engineRun es (engineStart callers) in
  (forall t key c r, e_callers s !! t = Some (Returning key c (Some r)) ->
     exists x leader, e_calls s !! c = Some x /\ x_key x = key /\ x_result x = Some r /\ x_cut x = false /\
       x_ended x = passed (x_deadline x) (x_at x) /\ x_at x <= e_now s /\ Submit leader key (x_deadline x) ∈ es) /\
  (forall t key c, e_callers s !! t = Some (Awaiting key c) ->
     exists x leader, e_calls s !! c = Some x /\ x_key x = key /\ x_cut x = false /\ (x_phase x = GRun -> x_cancelled x = false) /\
       Submit leader key (x_deadline x) ∈ es) /\
  (forall c d x y, e_calls s !! c = Some x -> e_calls s !! d = Some y -> x_key x = x_key y ->
     x_phase x = GRun -> x_phase y = GRun -> x_cancelled x = false -> x_cancelled y = false -> c = d).
Proof.
  intros s. destruct (engineRun_ok es _ (engineStart_ok callers)) as [_ Hs]. fold s in Hs. pose proof (timed_run callers es) as Ht0. fold s in Ht0. split; [|split].
  - intros t key c r Ht. destruct (sh_return _ Hs _ _ _ _ Ht) as (x & Hc & Hk & Hr & Hcut & Hp). destruct (ti_call _ _ Ht0 _ _ Hc) as [[u Hu] Hx].
    destruct (Hx Hp) as [Hle Hend]. rewrite Hcut in Hend. rewrite Hk in Hu. by exists x, u.
  - intros t key c Ht. destruct (sh_wait _ Hs _ _ _ Ht) as (x & Hc & Hk). pose proof (waiting_pos _ _ _ _ Ht) as Hpos.
    destruct (ti_call _ _ Ht0 _ _ Hc) as [[u Hu] _]. rewrite Hk in Hu. exists x, u. split; [done|]. split; [done|]. split; [|split; [|done]].
    + destruct (x_cut x) eqn:E; [|done]. destruct (sh_cut _ Hs _ _ Hc E) as [Hz _]. lia.
    + intros Hrun. destruct (x_cancelled x) eqn:E; [|done]. pose proof (sh_cancelled _ Hs _ _ Hc Hrun E). destruct (sh_count _ Hs _ _ Hc). lia.
  - intros c d x y Hc Hd Hk Hpx Hpy Hcx Hcy. pose proof (sh_running _ Hs _ _ Hc Hpx Hcx). pose proof (sh_running _ Hs _ _ Hd Hpy Hcy). congruence.
Qed.

(** A drained engine runs nothing.  Once Drain returned, whatever came
    before, no call is under way and every execution is over, those whose
    callers had left included; and whatever comes later, it stays so: later
    calls are refused. *)
Theorem drained_engine_idle (callers : nat) (es later : list (engineEvent R)) :
  let s := engineRun es (engineStart callers) in e_drain s = Drained ->
  let s' := engineRun later s in
  (forall t w, e_callers s' !! t = Some w -> w = Away) /\ (forall c x, e_calls s' !! c = Some x -> x_phase x = GEnded).
Proof.
  intros s Hd s'. destruct (engineRun_ok es _ (engineStart_ok callers)) as [Hc0 Hs0]. fold s in Hc0, Hs0.
  assert (e_drain s' = Drained) as Hd'.
  { unfold s'. clear s'. revert Hd. generalize s. unfold engineRun. induction later as [|e later IH]; intros u Hd; simpl; [done|]. apply IH.
    destruct (engineStep e u) as [u'|] eqn:E; [|done]. simpl. destruct e; simpl in E; repeat case_match; simplify_eq; try done; simpl; try congruence.
    all: unfold leaveWait, Do in *; repeat case_match; simplify_eq; done. }
  destruct (engineRun_ok later s (conj Hc0 Hs0)) as [Hc _]. fold s' in Hc. split.
  - intros t w Ht. pose proof (ct_drain _ Hc ltac:(auto)) as Hz. rewrite (ct_active _ Hc) in Hz. pose proof (sumOver_zero_all _ _ _ _ active_nonneg Hz Ht) as Hw.
    by destruct w.
  - intros c x Hx. pose proof (ct_drained _ Hc Hd') as Hz. rewrite (ct_executions _ Hc) in Hz. pose proof (sumOver_zero_all _ _ _ _ live_nonneg Hz Hx) as Hl.
    unfold isLive in Hl. by destruct (x_phase x).
Qed.

(** ** One execution *)

Definition times (p : resourceOp -> bool) (ops : list resourceOp) : nat := length (List.filter p ops).

Definition isSettled (o : resourceOp) : bool := match o with BreakerRecord _ | BreakerRelease => true | _ => false end.

(** What an execution takes it gives back, once: the breaker's ticket is
    settled when it was given, the limiter's place and the IO slot are given
    back when they were taken, and the outcome counts only when the function
    ran and its failure, if any, is one that counts. *)
Lemma execute_settles (w : meets R) :
  let '(out, ops) := execute w in
  (times isSettled ops = (if bool_decide (mt_breaker w = Some true) then 1 else 0))%nat /\
  (times (fun o => match o with LimiterRelease => true | _ => false end) ops =
     (if bool_decide (mt_limiter w = Some true) && negb (bool_decide (mt_breaker w = Some false)) then 1 else 0))%nat /\
  times (fun o => match o with IORelease => true | _ => false end) ops = times (fun o => match o with RunFn => true | _ => false end) ops /\
  (forall b, BreakerRecord b ∈ ops -> out = inr (mt_result w) /\ b = negb (mt_failed w) /\ (mt_failed w = true -> mt_counts w = true)).
Proof.
  destruct w as [[[]|] [[]|] [] r [] []]; cbn; (split; [reflexivity|]); (split; [reflexivity|]); (split; [reflexivity|]);
    intros b Hb; repeat (apply elem_of_cons in Hb as [Hb|Hb]; [try discriminate Hb; try (injection Hb as ->; done)|]); by apply not_elem_of_nil in Hb.
Qed.

End engine.

(** ** Two callers of one key, the first of whom gives up *)

Definition leaderLeaves : list (engineEvent Z) :=
  [Submit 0 "k" None; Begin 0; Submit 1 "k" None; Begin 1; GivenUp 0; Return 0; FnReturns 0 7; Unlink 0; CloseDone 0; Answered 1].

Example leader_leaves :
  let s := engineRun leaderLeaves (engineStart 2) in
  e_callers s = [Away; Returning "k" 0 (Some 7)] /\ e_map s = ∅ /\ e_active s = 1.
Proof. split; [vm_compute; reflexivity|]. split; [|reflexivity]. apply (bool_decide_unpack _). vm_compute. exact I. Qed.

Lemma singleflight_sound_witness :
  let s := engineRun leaderLeaves (engineStart 2) in
  exists x, e_calls s !! 0%nat = Some x /\ x_key x = "k"%string /\ x_result x = Some 7 /\ x_cut x = false.
Proof.
  destruct (singleflight_sound 2 leaderLeaves) as [Ha _]. destruct (Ha 1%nat "k"%string 0%nat 7 eq_refl) as (x & u & Hc & Hk & Hr & Hcut & _).
  exists x. split; [exact Hc|]. split; [exact Hk|]. split; [exact Hr|exact Hcut].
Defined.

(** A call with no deadline joins one whose deadline passes: it gets what that
    execution returned when its context had ended. *)
Example follower_cut_short :
  let s := engineRun [Submit 0 "k" (Some 5); Begin 0; Submit 1 "k" None; Begin 1; Tick 5; FnReturns 0 (-1); Unlink 0; CloseDone 0; Answered 1]
             (engineStart 2) in
  e_callers s !! 1%nat = Some (Returning "k" 0 (Some (-1))) /\ x_ended <$> e_calls s !! 0%nat = Some true.
Proof. vm_compute. auto. Qed.

Definition drainAll : list (engineEvent Z) := leaderLeaves ++ [DrainStart; Return 1; DrainActive; ExecDone 0; DrainExecutions].

Lemma drained_engine_idle_witness :
  let s := engineRun drainAll (engineStart 2) in
  e_drain s = Drained /\ forall t w, e_callers (engineRun [Submit 0 "k" None; Begin 0] s) !! t = Some w -> w = Away.
Proof.
  assert (e_drain (engineRun drainAll (engineStart 2)) = Drained) as Hd by reflexivity. split; [exact Hd|].
  apply (drained_engine_idle 2 drainAll [Submit 0 "k" None; Begin 0] Hd).
Defined.
