(* ===== verification/Revision.v ===== *)
(** Configuration revisions: core/revision/revision.go and memory.go.

    Times are whole microseconds, as the store truncates them; identifiers and
    the sequence are int64 and wrap around ([w64]).  SHA-256 in hexadecimal is a
    parameter. *)

From stdpp Require Import sorting.
From S2P Require Import Prelude.

Inductive State : Type := StateDraft | StatePublished | StateSuperseded | StateRolledBack | StateDiscarded | StateOther (s : string).

#[export] Instance State_eq : EqDecision State.
Proof. solve_decision. Defined.

Definition Unpublished (s : State) : bool := match s with StateDraft | StateDiscarded => true | _ => false end.

Definition Valid (s : State) : bool := match s with StateOther _ => false | _ => true end.

Inductive revError : Type :=
  | ErrNotFound | ErrNoPublished | ErrConflict | ErrInvalidState | ErrHashMismatch | ErrNoRollback | ErrNotEmpty.

Record Revision : Type := mkRevision {
  ID : Z;
  ParentID : Z;
  ContentHash : string;
  Payload : string;
  RState : State;
  Author : string;
  Comment : string;
  CreatedAt : Z;
  PublishedAt : Z;
}.

Record Draft : Type := mkDraft { d_parent : Z; d_payload : string; d_author : string; d_comment : string }.

Record Meta : Type := mkMeta { m_author : string; m_comment : string }.

Record MemoryStore : Type := mkStore { revs : gmap Z Revision; nextID : Z; seq : Z }.

Definition NewMemoryStore : MemoryStore := mkStore ∅ 1 0.

Definition with_state (st : State) (r : Revision) : Revision :=
  mkRevision (ID r) (ParentID r) (ContentHash r) (Payload r) st (Author r) (Comment r) (CreatedAt r) (PublishedAt r).

Definition publishedAs (now : Z) (r : Revision) : Revision :=
  mkRevision (ID r) (ParentID r) (ContentHash r) (Payload r) StatePublished (Author r) (Comment r) (CreatedAt r) now.

(** Revision.Summary *)
Definition Summary (r : Revision) : Revision :=
  mkRevision (ID r) (ParentID r) (ContentHash r) "" (RState r) (Author r) (Comment r) (CreatedAt r) (PublishedAt r).

(** m.revs in the map's order. *)
Definition allRevs (m : MemoryStore) : list Revision := (map_to_list (revs m)).*2.

Definition publishedLocked (m : MemoryStore) : option Revision :=
  List.find (fun r => bool_decide (RState r = StatePublished)) (allRevs m).

(** The published revision, absent when there is none: the expected one. *)
Definition checkCurrentLocked (expected : Z) (m : MemoryStore) : revError + option Revision :=
  let current := publishedLocked m in
  if bool_decide (default 0 (ID <$> current) = expected) then inr current else inl ErrConflict.

Definition better (r : Revision) (best : option Revision) : bool :=
  match best with
  | None => true
  | Some b => (PublishedAt b <? PublishedAt r) || ((PublishedAt r =? PublishedAt b) && (ID b <? ID r))
  end.

Definition RollbackTarget (all : list Revision) (current : Revision) (target : Z) : revError + Revision :=
  if negb (target =? 0) then
    match List.find (fun r => ID r =? target) all with
    | Some r => if Unpublished (RState r) then inl ErrInvalidState else inr r
    | None => inl ErrNotFound
    end
  else
    let pick best r := if negb (bool_decide (RState r = StateSuperseded)) || bool_decide (ContentHash r = ContentHash current) then best
                       else if better r best then Some r else best in
    match fold_left pick all None with Some r => inr r | None => inl ErrNoRollback end.

Section store.
Context (Hash : string -> string).

Definition Verify (r : Revision) : bool := bool_decide (Hash (Payload r) = ContentHash r).

Definition Create (now : Z) (d : Draft) (m : MemoryStore) : MemoryStore * Revision :=
  let r := mkRevision (nextID m) (d_parent d) (Hash (d_payload d)) (d_payload d) StateDraft (d_author d) (d_comment d) now 0 in
  (mkStore (<[ID r := r]> (revs m)) (w64 (nextID m + 1)) (w64 (seq m + 1)), r).

Definition Get (id : Z) (m : MemoryStore) : revError + Revision := match revs m !! id with Some r => inr r | None => inl ErrNotFound end.

Definition newer (a b : Revision) : Prop := ID b <= ID a.

#[export] Instance newer_dec a b : Decision (newer a b).
Proof. unfold newer. apply _. Defined.

Definition List_ (limit : Z) (m : MemoryStore) : list Revision :=
  let out := merge_sort newer (Summary <$> allRevs m) in
  if (0 <? limit) && (limit <? Z.of_nat (length out)) then take (Z.to_nat limit) out else out.

Definition Published (m : MemoryStore) : revError + Revision := match publishedLocked m with Some r => inr r | None => inl ErrNoPublished end.

Definition PublishedSummary (m : MemoryStore) : revError + Revision :=
  match publishedLocked m with Some r => inr (Summary r) | None => inl ErrNoPublished end.

Definition Publish (now id expectedCurrent : Z) (m : MemoryStore) : MemoryStore * (revError + Revision) :=
  match revs m !! id with
  | None => (m, inl ErrNotFound)
  | Some target =>
      if negb (bool_decide (RState target = StateDraft)) then (m, inl ErrInvalidState)
      else match checkCurrentLocked expectedCurrent m with
           | inl e => (m, inl e)
           | inr current =>
               let rs := match current with
                         | Some c => if ID c =? 0 then revs m else <[ID c := with_state StateSuperseded c]> (revs m)
                         | None => revs m
                         end in
               let target := publishedAs now target in
               (mkStore (<[id := target]> rs) (nextID m) (w64 (seq m + 1)), inr target)
           end
  end.

Definition Discard (id : Z) (m : MemoryStore) : MemoryStore * (revError + Revision) :=
  match revs m !! id with
  | None => (m, inl ErrNotFound)
  | Some target =>
      if negb (bool_decide (RState target = StateDraft)) then (m, inl ErrInvalidState)
      else let target := with_state StateDiscarded target in
           (mkStore (<[id := target]> (revs m)) (nextID m) (w64 (seq m + 1)), inr target)
  end.

Definition Rollback (now expectedCurrent target : Z) (meta : Meta) (m : MemoryStore) : MemoryStore * (revError + Revision) :=
  if expectedCurrent =? 0 then (m, inl ErrNoPublished)
  else match checkCurrentLocked expectedCurrent m with
       | inl e => (m, inl e)
       | inr None => (m, inl ErrConflict)  (* the expected one is not 0 *)
       | inr (Some current) =>
           match RollbackTarget (allRevs m) current target with
           | inl e => (m, inl e)
           | inr source =>
               let rs := <[ID current := with_state StateRolledBack current]> (revs m) in
               let r := mkRevision (nextID m) (ID source) (ContentHash source) (Payload source) StatePublished
                          (m_author meta) (m_comment meta) now now in
               (mkStore (<[ID r := r]> rs) (w64 (nextID m + 1)) (w64 (seq m + 1)), inr r)
           end
       end.

(** The loop of ValidateHistory. *)
Fixpoint validateLoop (rs : list Revision) (seen : gset Z) (published : nat) : revError + nat :=
  match rs with
  | [] => inr published
  | r :: rs =>
      if (ID r <=? 0) || bool_decide (ID r ∈ seen) then inl ErrInvalidState
      else if negb (Valid (RState r)) then inl ErrInvalidState
      else if negb (Verify r) then inl ErrHashMismatch
      else validateLoop rs ({[ID r]} ∪ seen) (if bool_decide (RState r = StatePublished) then S published else published)
  end.

Definition ValidateHistory (rs : list Revision) : option revError :=
  match validateLoop rs ∅ 0 with
  | inl e => Some e
  | inr n => if (1 <? n)%nat then Some ErrInvalidState else None
  end.

Definition importOne (m : MemoryStore) (r : Revision) : MemoryStore :=
  mkStore (<[ID r := r]> (revs m)) (if nextID m <=? ID r then w64 (ID r + 1) else nextID m) (seq m).

Definition ImportHistory (rs : list Revision) (m : MemoryStore) : MemoryStore * option revError :=
  match ValidateHistory rs with
  | Some e => (m, Some e)
  | None =>
      if negb (bool_decide (revs m = ∅)) then (m, Some ErrNotEmpty)
      else let m := fold_left importOne rs m in (mkStore (revs m) (nextID m) (w64 (seq m + 1)), None)
  end.

(** ** The calls of a store *)

Inductive revOp : Type :=
  | OCreate (d : Draft) | OPublish (id expected : Z) | ODiscard (id : Z) | ORollback (expected target : Z) (meta : Meta)
  | OImport (rs : list Revision).

Definition revStep (now : Z) (o : revOp) (m : MemoryStore) : MemoryStore :=
  match o with
  | OCreate d => (Create now d m).1
  | OPublish id expected => (Publish now id expected m).1
  | ODiscard id => (Discard id m).1
  | ORollback expected target meta => (Rollback now expected target meta m).1
  | OImport rs => (ImportHistory rs m).1
  end.

Definition revRun (os : list (Z * revOp)) (m : MemoryStore) : MemoryStore := foldl (fun m o => revStep o.1 o.2 m) m os.

End store.

(** BasedOn; the loop leaves the revisions it has seen, so the number of
    revisions is fuel enough. *)
Fixpoint basedLoop (fuel : nat) (m : MemoryStore) (seen : gset Z) (rev : Revision) : option (revError + Z) :=
  match fuel with
  | O => None
  | S fuel =>
      if negb (Unpublished (RState rev)) then Some (inr (ID rev))
      else
        let id := ParentID rev in
        if (id =? 0) || bool_decide (id ∈ seen) then Some (inr 0)
        else match Get id m with
             | inl e => Some (inl e)
             | inr parent => basedLoop fuel m ({[id]} ∪ seen) parent
             end
  end.

Definition BasedOn (m : MemoryStore) (rev : Revision) : option (revError + Z) := basedLoop (S (S (size (revs m)))) m ∅ rev.


(** * The store of revisions keeps its history: at most one revision is
    published, content never changes, states only go forward, and each change
    of what is published is the one its caller saw coming. *)

Section store.
Context (Hash : string -> string).

(** ** The invariant *)

Record storeOk (m : MemoryStore) : Prop := {
  so_key : forall id r, revs m !! id = Some r -> ID r = id /\ 0 < id < nextID m;
  so_one : forall i j r s, revs m !! i = Some r -> revs m !! j = Some s -> RState r = StatePublished -> RState s = StatePublished -> i = j;
  so_hash : forall id r, revs m !! id = Some r -> Verify Hash r = true;
  so_next : 0 < nextID m;
}.

(** One more identifier can be given without wrapping around. *)
Definition roomy (m : MemoryStore) : Prop := nextID m < 2 ^ 63 - 1.

(** The order of states: a draft is published or discarded, what is published
    is superseded or rolled back. *)
Definition later (a b : State) : Prop :=
  a = b \/ (a = StateDraft /\ b <> StateDraft) \/ (a = StatePublished /\ (b = StateSuperseded \/ b = StateRolledBack)).

(** A revision with its content as it was, and its state gone forward. *)
Definition content (r : Revision) := (ID r, ParentID r, ContentHash r, Payload r, Author r, Comment r, CreatedAt r).

Definition succeeds (m m' : MemoryStore) : Prop :=
  forall id r, revs m !! id = Some r -> exists r', revs m' !! id = Some r' /\ content r' = content r /\ later (RState r) (RState r').

Lemma later_trans a b c : later a b -> later b c -> later a c.
Proof. unfold later. intuition congruence. Qed.

Lemma succeeds_refl m : succeeds m m.
Proof. intros id r Hr. exists r. split; [done|]. split; [done|by left]. Qed.

Lemma succeeds_trans m1 m2 m3 : succeeds m1 m2 -> succeeds m2 m3 -> succeeds m1 m3.
Proof.
  intros H1 H2 id r Hr. destruct (H1 _ _ Hr) as (r2 & Hr2 & Hc2 & Hl2). destruct (H2 _ _ Hr2) as (r3 & Hr3 & Hc3 & Hl3).
  exists r3. split; [done|]. split; [congruence|by eapply later_trans].
Qed.

Lemma allRevs_elem m r : storeOk m -> r ∈ allRevs m <-> revs m !! ID r = Some r.
Proof.
  intros Hok. unfold allRevs. rewrite list_elem_of_fmap. split.
  - intros ([id r'] & -> & Hin). simpl. apply elem_of_map_to_list in Hin. destruct (so_key _ Hok _ _ Hin) as [-> _]. done.
  - intros Hr. exists (ID r, r). split; [done|]. by apply elem_of_map_to_list.
Qed.

Lemma publishedLocked_spec m : storeOk m ->
  match publishedLocked m with
  | Some r => revs m !! ID r = Some r /\ RState r = StatePublished
  | None => forall id r, revs m !! id = Some r -> RState r <> StatePublished
  end.
Proof.
  intros Hok. unfold publishedLocked. destruct (List.find _ _) as [r|] eqn:E.
  - apply List.find_some in E as [Hin Hs%bool_decide_eq_true]. split; [by apply (allRevs_elem m r Hok), list_elem_of_In|done].
  - intros id r Hr Hs. assert (r ∈ allRevs m) as Hin by (apply (allRevs_elem m r Hok); by destruct (so_key _ Hok _ _ Hr) as [-> _]).
    apply list_elem_of_In in Hin. eapply List.find_none in E; [|exact Hin]. by rewrite bool_decide_eq_false in E.
Qed.

Lemma published_is m r : storeOk m -> revs m !! ID r = Some r -> RState r = StatePublished -> publishedLocked m = Some r.
Proof.
  intros Hok Hr Hs. pose proof (publishedLocked_spec m Hok) as Hp. destruct (publishedLocked m) as [p|].
  - destruct Hp as [Hp Hps]. pose proof (so_one _ Hok _ _ _ _ Hr Hp Hs Hps). congruence.
  - by apply Hp in Hr.
Qed.

(** One revision is replaced by itself in another state. *)
Lemma replace_ok m id r r' n s :
  storeOk m -> revs m !! id = Some r -> content r' = content r -> later (RState r) (RState r') ->
  (RState r' = StatePublished -> forall j q, revs m !! j = Some q -> RState q = StatePublished -> j = id) -> nextID m <= n ->
  storeOk (mkStore (<[id := r']> (revs m)) n s) /\ succeeds m (mkStore (<[id := r']> (revs m)) n s).
Proof.
  intros Hok Hr Hc Hl Hone Hn. unfold content in Hc. injection Hc as Hid Hpar Hhash Hpay Hau Hco Hcr. split.
  - destruct Hok as [Hk H1 Hh Hnx]. constructor; simpl; [| | |lia].
    + intros i q. rewrite lookup_insert_Some. intros [[<- <-]|[_ Hq]].
      * destruct (Hk _ _ Hr) as [? ?]. split; [congruence|lia].
      * destruct (Hk _ _ Hq). split; [done|lia].
    + intros i j q q'. rewrite !lookup_insert_Some. intros [[<- <-]|[_ Hq]] [[<- <-]|[_ Hq']] Hs Hs'; eauto; symmetry; eauto.
    + intros i q. rewrite lookup_insert_Some. intros [[<- <-]|[_ Hq]]; [|eauto]. specialize (Hh _ _ Hr). unfold Verify in *. by rewrite Hpay, Hhash.
  - intros i q Hq. destruct (decide (i = id)) as [->|Hne].
    + exists r'. simpl. rewrite lookup_insert_eq. assert (q = r) as -> by congruence. split; [done|]. split; [unfold content; congruence|done].
    + exists q. simpl. rewrite lookup_insert_ne by done. split; [done|]. split; [done|by left].
Qed.

(** A revision with a new identifier. *)
Lemma append_ok m r s :
  storeOk m -> ID r = nextID m -> Verify Hash r = true ->
  (RState r = StatePublished -> forall j q, revs m !! j = Some q -> RState q <> StatePublished) -> roomy m ->
  storeOk (mkStore (<[ID r := r]> (revs m)) (w64 (nextID m + 1)) s) /\ succeeds m (mkStore (<[ID r := r]> (revs m)) (w64 (nextID m + 1)) s).
Proof.
  unfold roomy. intros Hok Hid Hv Hone Hroom. pose proof Hok as [Hk H1 Hh Hnx]. rewrite w64_id by lia. split.
  - constructor; simpl; [| | |lia].
    + intros i q. rewrite lookup_insert_Some. intros [[<- <-]|[_ Hq]]; [split; [done|lia]|]. destruct (Hk _ _ Hq). split; [done|lia].
    + intros i j q q'. rewrite !lookup_insert_Some. intros [[<- <-]|[_ Hq]] [[<- <-]|[_ Hq']] Hs Hs'; eauto; exfalso; by eapply Hone.
    + intros i q. rewrite lookup_insert_Some. intros [[<- <-]|[_ Hq]]; eauto.
  - intros i q Hq. destruct (Hk _ _ Hq). exists q. simpl. rewrite lookup_insert_ne by lia. split; [done|]. split; [done|by left].
Qed.

Lemma checkCurrent_spec expected m current : storeOk m -> checkCurrentLocked expected m = inr current ->
  current = publishedLocked m /\ default 0 (ID <$> publishedLocked m) = expected.
Proof. intros Hok. unfold checkCurrentLocked. case_bool_decide; [|done]. by intros [= <-]. Qed.

(** ** Publish, Discard and Rollback *)

Lemma Publish_ok now id expected m m' out :
  storeOk m -> Publish now id expected m = (m', out) -> storeOk m' /\ succeeds m m' /\
  match out with
  | inl _ => m' = m
  | inr r => default 0 (ID <$> publishedLocked m) = expected /\ ID r = id /\ publishedLocked m' = Some r /\ seq m' = w64 (seq m + 1) /\
             (exists d, revs m !! id = Some d /\ RState d = StateDraft /\ content r = content d) /\
             (forall c, publishedLocked m = Some c -> revs m' !! ID c = Some (with_state StateSuperseded c)) /\
             (forall j, j <> id -> (forall c, publishedLocked m = Some c -> j <> ID c) -> revs m' !! j = revs m !! j)
  end.
Proof.
  intros Hok. unfold Publish. destruct (revs m !! id) as [d|] eqn:Ed; [|intros [= <- <-]; auto using succeeds_refl].
  case_bool_decide as Hd; simpl; [|intros [= <- <-]; auto using succeeds_refl].
  destruct (checkCurrentLocked expected m) as [e|current] eqn:Ec; [intros [= <- <-]; auto using succeeds_refl|].
  destruct (checkCurrent_spec _ _ _ Hok Ec) as [-> Hexp]. intros [= <- <-]. pose proof (publishedLocked_spec m Hok) as Hp.
  destruct (so_key _ Hok _ _ Ed) as [Hid _]. set (rs := match publishedLocked m with Some c => _ | None => _ end).
  assert (storeOk (mkStore rs (nextID m) (seq m)) /\ succeeds m (mkStore rs (nextID m) (seq m)) /\ rs !! id = Some d /\
          (forall j q, rs !! j = Some q -> RState q <> StatePublished) /\
          (forall c, publishedLocked m = Some c -> rs !! ID c = Some (with_state StateSuperseded c) /\ ID c <> id) /\
          (forall j, (forall c, publishedLocked m = Some c -> j <> ID c) -> rs !! j = revs m !! j)) as (Hok1 & Hs1 & Hd1 & Hn1 & Hc1 & Hf1).
  { unfold rs. destruct (publishedLocked m) as [c|].
    - destruct Hp as [Hc Hcs]. destruct (so_key _ Hok _ _ Hc) as [_ Hpos]. destruct (Z.eqb_spec (ID c) 0); [lia|].
      assert (ID c <> id) as Hne by (intros E; rewrite E in Hc; assert (c = d) as -> by congruence; congruence).
      destruct (replace_ok m (ID c) c (with_state StateSuperseded c) (nextID m) (seq m) Hok Hc eq_refl) as [? ?]; [right; right; rewrite Hcs; auto|done|lia|].
      split; [done|]. split; [done|]. split; [by rewrite lookup_insert_ne|]. split; [|split].
      + intros j q. rewrite lookup_insert_Some. intros [[<- <-]|[Hj Hq]]; [done|]. intros Hqs. by pose proof (so_one _ Hok _ _ _ _ Hc Hq Hcs Hqs).
      + intros c' [= <-]. by rewrite lookup_insert_eq.
      + intros j Hj. rewrite lookup_insert_ne; [done|]. intros <-. by apply (Hj c).
    - split; [by destruct m|]. split; [destruct m; apply succeeds_refl|]. split; [done|]. split; [exact Hp|]. split; [done|done]. }
  destruct (replace_ok _ id d (publishedAs now d) (nextID m) (w64 (seq m + 1)) Hok1 Hd1 eq_refl) as [H1 H2];
    [right; left; rewrite Hd; done|intros _ j q Hq Hqs; by apply Hn1 in Hq|simpl; lia|].
  simpl in H1, H2. split; [done|]. split; [by eapply succeeds_trans|]. split; [done|]. split; [done|]. split; [|split; [done|split; [|split]]].
  - apply published_is; [done| |done]. simpl. by rewrite Hid, lookup_insert_eq.
  - by exists d.
  - intros c Hc. destruct (Hc1 _ Hc) as [? ?]. simpl. by rewrite lookup_insert_ne.
  - intros j Hj Hc. simpl. rewrite lookup_insert_ne by done. by apply Hf1.
Qed.

Lemma Discard_ok id m m' out : storeOk m -> Discard id m = (m', out) -> storeOk m' /\ succeeds m m' /\
  match out with
  | inl _ => m' = m
  | inr r => publishedLocked m' = publishedLocked m /\ seq m' = w64 (seq m + 1) /\ exists d, revs m !! id = Some d /\ RState d = StateDraft /\ r = with_state StateDiscarded d
  end.
Proof.
  intros Hok. unfold Discard. destruct (revs m !! id) as [d|] eqn:Ed; [|intros [= <- <-]; auto using succeeds_refl].
  case_bool_decide as Hd; simpl; [|intros [= <- <-]; auto using succeeds_refl]. intros [= <- <-].
  destruct (replace_ok m id d (with_state StateDiscarded d) (nextID m) (w64 (seq m + 1)) Hok Ed eq_refl) as [H1 H2]; [right; left; by rewrite Hd|done|lia|].
  split; [done|]. split; [done|]. split; [|split; [done|by exists d]].
  pose proof (publishedLocked_spec m Hok) as Hp. destruct (publishedLocked m) as [c|].
  - destruct Hp as [Hc Hs]. apply published_is; [done| |done]. simpl. rewrite lookup_insert_ne; [done|]. intros E. rewrite E in Ed. congruence.
  - pose proof (publishedLocked_spec _ H1) as Hp1. destruct (publishedLocked (mkStore _ _ _)) as [c|]; [|done]. destruct Hp1 as [Hc Hs].
    simpl in Hc. apply lookup_insert_Some in Hc as [[_ <-]|[_ Hc]]; [done|]. by apply Hp in Hc.
Qed.

(** ** Where a rollback goes *)

(** A revision that may be rolled back to without being named. *)
Definition eligible (current r : Revision) : Prop := RState r = StateSuperseded /\ ContentHash r <> ContentHash current.

(** Published no later, identifiers breaking ties. *)
Definition noLater (a b : Revision) : Prop := PublishedAt a < PublishedAt b \/ (PublishedAt a = PublishedAt b /\ ID a <= ID b).

Lemma noLater_trans a b c : noLater a b -> noLater b c -> noLater a c.
Proof. unfold noLater. lia. Qed.

Lemma pick_spec current all : forall best,
  (forall b, best = Some b -> eligible current b) ->
  match fold_left (fun best r => if negb (bool_decide (RState r = StateSuperseded)) || bool_decide (ContentHash r = ContentHash current) then best
                       else if better r best then Some r else best) all best with
  | Some r => (r ∈ all \/ best = Some r) /\ eligible current r /\ (forall b, best = Some b -> noLater b r) /\
              (forall x, x ∈ all -> eligible current x -> noLater x r)
  | None => best = None /\ forall x, x ∈ all -> ~ eligible current x
  end.
Proof.
  induction all as [|a all IH]; intros best Hb; simpl.
  { destruct best as [b|]; [|by split; [|intros ? ?%not_elem_of_nil]]. split; [by right|]. split; [auto|]. split; [intros ? [= <-]; right; lia|by intros ? ?%not_elem_of_nil]. }
  destruct (negb _ || _) eqn:Es.
  - assert (~ eligible current a) as Hna.
    { intros [Ha1 Ha2]. rewrite (bool_decide_eq_true_2 _ Ha1), (bool_decide_eq_false_2 _ Ha2) in Es. done. }
    specialize (IH best Hb). destruct (fold_left _ all best) as [r|].
    + destruct IH as (H1 & H2 & H3 & H4). split; [destruct H1; [left; by right|by right]|]. split; [done|]. split; [done|].
      intros x [->|Hx]%elem_of_cons Hex; [by destruct Hna|auto].
    + destruct IH as [H1 H2]. split; [done|]. intros x [->|Hx]%elem_of_cons; auto.
  - apply orb_false_iff in Es as [Hs1 Hs2]. apply negb_false_iff, bool_decide_eq_true in Hs1. apply bool_decide_eq_false in Hs2.
    assert (eligible current a) as Hea by done. destruct (better a best) eqn:Eb.
    + specialize (IH (Some a) ltac:(by intros ? [= <-])). destruct (fold_left _ all (Some a)) as [r|]; [|by destruct IH].
      destruct IH as (H1 & H2 & H3 & H4). pose proof (H3 a eq_refl) as Har. split; [left; destruct H1 as [?|[= ->]]; [by right|by left]|]. split; [done|]. split.
      * intros b ->. eapply noLater_trans; [|exact Har]. simpl in Eb. unfold noLater. lia.
      * intros x [->|Hx]%elem_of_cons Hex; auto.
    + specialize (IH best Hb). destruct best as [b|]; [|done]. destruct (fold_left _ all (Some b)) as [r|]; [|by destruct IH].
      destruct IH as (H1 & H2 & H3 & H4). pose proof (H3 b eq_refl) as Hbr. split; [destruct H1; [left; by right|by right]|]. split; [done|]. split; [done|].
      intros x [->|Hx]%elem_of_cons Hex; [|auto]. eapply noLater_trans; [|exact Hbr]. simpl in Eb. unfold noLater. lia.
Qed.

Lemma RollbackTarget_spec all current target r : RollbackTarget all current target = inr r ->
  r ∈ all /\ Unpublished (RState r) = false /\ (target <> 0 -> ID r = target) /\
  (target = 0 -> eligible current r /\ forall x, x ∈ all -> eligible current x -> noLater x r).
Proof.
  unfold RollbackTarget. destruct (Z.eqb_spec target 0) as [Ht|Ht]; simpl.
  - pose proof (pick_spec current all None ltac:(done)) as Hp. destruct (fold_left _ all None) as [q|]; [|done]. intros [= ->].
    destruct Hp as ([Hin|Hn] & He & _ & Hmax); [|done]. split; [done|]. split; [by destruct He as [-> _]|]. split; [done|]. auto.
  - destruct (List.find _ all) as [q|] eqn:Ef; [|done]. destruct (Unpublished (RState q)) eqn:Eu; [done|]. intros [= ->].
    apply List.find_some in Ef as [Hin Hq%Z.eqb_eq]. split; [by apply list_elem_of_In|]. split; [done|]. split; [done|done].
Qed.

Lemma Rollback_ok now expected target meta m m' out :
  storeOk m -> roomy m -> Rollback now expected target meta m = (m', out) -> storeOk m' /\ succeeds m m' /\
  match out with
  | inl _ => m' = m
  | inr r => publishedLocked m' = Some r /\ seq m' = w64 (seq m + 1) /\
      exists current source, publishedLocked m = Some current /\ ID current = expected /\ revs m' !! ID current = Some (with_state StateRolledBack current) /\
        revs m !! ID source = Some source /\ Unpublished (RState source) = false /\
        Payload r = Payload source /\ ContentHash r = ContentHash source /\ ParentID r = ID source /\
        (target <> 0 -> ID source = target) /\
        (target = 0 -> eligible current source /\ forall id x, revs m !! id = Some x -> eligible current x -> noLater x source) /\
        revs m !! ID r = None
  end.
Proof.
  intros Hok Hroom. unfold Rollback. destruct (Z.eqb_spec expected 0) as [He|He]; [intros [= <- <-]; auto using succeeds_refl|].
  destruct (checkCurrentLocked expected m) as [e|current] eqn:Ec; [intros [= <- <-]; auto using succeeds_refl|].
  destruct (checkCurrent_spec _ _ _ Hok Ec) as [Hcur Hexp]. destruct current as [c|]; [|intros [= <- <-]; auto using succeeds_refl].
  destruct (RollbackTarget (allRevs m) c target) as [e|source] eqn:Et; [intros [= <- <-]; auto using succeeds_refl|]. intros [= <- <-].
  destruct (RollbackTarget_spec _ _ _ _ Et) as (Hin & Hu & H1 & H2). apply (allRevs_elem m _ Hok) in Hin.
  pose proof (publishedLocked_spec m Hok) as Hp. rewrite <- Hcur in Hp, Hexp. destruct Hp as [Hc Hcs]. simpl in Hexp.
  destruct (replace_ok m (ID c) c (with_state StateRolledBack c) (nextID m) (seq m) Hok Hc eq_refl) as [Hok1 Hs1]; [right; right; rewrite Hcs; auto|done|lia|].
  set (r := mkRevision _ _ _ _ _ _ _ _ _).
  destruct (append_ok (mkStore (<[ID c := with_state StateRolledBack c]> (revs m)) (nextID m) (seq m)) r (w64 (seq m + 1)) Hok1 eq_refl) as [Hok2 Hs2].
  { exact (so_hash _ Hok _ _ Hin). }
  { intros _ j q. simpl. rewrite lookup_insert_Some. intros [[<- <-]|[Hj Hq]]; [done|]. intros Hqs. by pose proof (so_one _ Hok _ _ _ _ Hc Hq Hcs Hqs). }
  { exact Hroom. }
  simpl in Hok2, Hs2. destruct (so_key _ Hok _ _ Hc) as [_ Hlt]. split; [done|]. split; [by eapply succeeds_trans|]. split.
  { apply published_is; [done| |done]. simpl. by rewrite lookup_insert_eq. }
  split; [done|]. exists c, source. split; [done|]. split; [done|]. split; [simpl; rewrite lookup_insert_ne by lia; by rewrite lookup_insert_eq|].
  split; [done|]. split; [done|]. split; [done|]. split; [done|]. split; [done|]. split; [done|]. split.
  - intros Ht. destruct (H2 Ht) as [? Hm]. split; [done|]. intros id x Hx. apply Hm. apply (allRevs_elem m _ Hok). by destruct (so_key _ Hok _ _ Hx) as [-> _].
  - simpl. destruct (revs m !! nextID m) as [x|] eqn:Ex; [|done]. destruct (so_key _ Hok _ _ Ex). lia.
Qed.

(** ** Create and ImportHistory *)

Lemma Create_ok now d m : storeOk m -> roomy m -> storeOk (Create Hash now d m).1 /\ succeeds m (Create Hash now d m).1.
Proof. intros Hok Hroom. apply append_ok; try done. unfold Verify. simpl. by rewrite bool_decide_eq_true_2. Qed.

Lemma validateLoop_spec rs : forall seen n k,
  validateLoop Hash rs seen n = inr k ->
  NoDup (ID <$> rs) /\ (forall r, r ∈ rs -> 0 < ID r /\ ID r ∉ seen /\ Verify Hash r = true) /\
  k = (n + length (List.filter (fun r => bool_decide (RState r = StatePublished)) rs))%nat.
Proof.
  induction rs as [|r rs IH]; intros seen n k; simpl.
  { intros [= <-]. split; [constructor|]. split; [by intros ? ?%not_elem_of_nil|lia]. }
  destruct (_ || _) eqn:E1; [done|]. destruct (negb (Valid _)); [done|]. destruct (negb (Verify Hash r)) eqn:E3; [done|]. intros Hl.
  apply orb_false_iff in E1 as [Hpos%Z.leb_gt Hns%bool_decide_eq_false]. apply negb_false_iff in E3.
  destruct (IH _ _ _ Hl) as (Hnd & Hall & Hk). split; [|split].
  - apply NoDup_cons. split; [|done]. intros (x & Hx & Hin)%list_elem_of_fmap. destruct (Hall _ Hin) as (_ & Hn & _). set_solver.
  - intros x [->|Hx]%elem_of_cons; [done|]. destruct (Hall _ Hx) as (? & ? & ?). split; [done|]. split; [set_solver|done].
  - rewrite Hk. case_bool_decide; simpl; lia.
Qed.

Lemma import_fold top rs : forall m,
  (forall id r, revs m !! id = Some r -> ID r = id /\ 0 < id < nextID m) -> 0 < nextID m -> (forall r, r ∈ rs -> 0 < ID r <= top) -> 0 <= top < 2 ^ 63 - 1 ->
  let m' := fold_left importOne rs m in
  (forall id r, revs m' !! id = Some r -> ID r = id /\ 0 < id < nextID m') /\ 0 < nextID m' /\
  (forall id r, revs m' !! id = Some r -> r ∈ rs \/ revs m !! id = Some r) /\ nextID m' <= Z.max (nextID m) (top + 1).
Proof.
  induction rs as [|x rs IH]; intros m Hk Hn Hpos Htop; simpl; [split; [done|]; split; [done|]; split; [by auto|lia]|].
  pose proof (Hpos x ltac:(by left)) as Hx. assert (w64 (ID x + 1) = ID x + 1) as Hw by (apply w64_id; lia).
  destruct (IH (importOne m x)) as (H1 & H2 & H3 & H4); simpl; rewrite ?Hw.
  - intros id r. rewrite lookup_insert_Some. intros [[<- <-]|[_ Hr]].
    + split; [done|]. destruct (Z.leb_spec (nextID m) (ID x)); lia.
    + destruct (Hk _ _ Hr). split; [done|]. destruct (Z.leb_spec (nextID m) (ID x)); lia.
  - destruct (Z.leb_spec (nextID m) (ID x)); lia.
  - intros r Hr. apply Hpos. by right.
  - done.
  - simpl in H4. rewrite Hw in H4. split; [done|]. split; [done|]. split; [|destruct (Z.leb_spec (nextID m) (ID x)); lia]. intros id r Hr. destruct (H3 _ _ Hr) as [?|Hr']; [left; by right|]. simpl in Hr'.
    apply lookup_insert_Some in Hr' as [[_ <-]|[_ ?]]; [left; by left|by right].
Qed.

Lemma ImportHistory_ok top rs m : storeOk m -> Forall (fun r => ID r <= top) rs -> 0 <= top < 2 ^ 63 - 1 ->
  storeOk (ImportHistory Hash rs m).1 /\ succeeds m (ImportHistory Hash rs m).1 /\ nextID (ImportHistory Hash rs m).1 <= Z.max (nextID m) (top + 1).
Proof.
  intros Hok Hids Htop. unfold ImportHistory, ValidateHistory. destruct (validateLoop Hash rs ∅ 0) as [e|k] eqn:Ev; [by split; [|split; [apply succeeds_refl|simpl; lia]]|].
  destruct (1 <? k)%nat eqn:Ek; [by split; [|split; [apply succeeds_refl|simpl; lia]]|]. case_bool_decide as He; simpl; [|by split; [|split; [apply succeeds_refl|lia]]].
  destruct (validateLoop_spec _ _ _ _ Ev) as (Hnd & Hall & Hk). apply Nat.ltb_ge in Ek.
  destruct (import_fold top rs m) as (H1 & H2 & H3 & H4); [apply (so_key _ Hok)|apply (so_next _ Hok)|intros r Hr; split; [by apply Hall|by apply (proj1 (Forall_forall _ _) Hids)]|done|].
  split; [|split; [intros id r Hr; rewrite He in Hr; by rewrite lookup_empty in Hr|exact H4]].
  assert (forall id r, revs (fold_left importOne rs m) !! id = Some r -> r ∈ rs) as Hin.
  { intros id r Hr. destruct (H3 _ _ Hr) as [?|Hr']; [done|]. rewrite He in Hr'. by rewrite lookup_empty in Hr'. }
  constructor; simpl; [done| |intros id r Hr; by apply Hall, (Hin id)|done].
  intros i j r s Hr Hs Hrp Hsp. destruct (H1 _ _ Hr) as [<- _], (H1 _ _ Hs) as [<- _]. apply Hin in Hr, Hs.
  simpl in Hk. set (f := fun r => bool_decide (RState r = StatePublished)) in Hk.
  assert (r ∈ List.filter f rs /\ s ∈ List.filter f rs) as [Hfr Hfs].
  { split; apply list_elem_of_In, List.filter_In; (split; [by apply list_elem_of_In|]); by apply bool_decide_eq_true_2. }
  destruct (List.filter f rs) as [|a [|b l]]; [set_solver|set_solver|simpl in Hk; lia].
Qed.

(** The identifiers a call brings in are at most [top]. *)
Definition idsUpTo (top : Z) (o : Z * revOp) : Prop :=
  match o.2 with OImport rs => Forall (fun r => ID r <= top) rs | _ => True end.

Lemma revStep_ok top o m : storeOk m -> roomy m -> idsUpTo top o -> 0 <= top < 2 ^ 63 - 1 ->
  storeOk (revStep Hash o.1 o.2 m) /\ succeeds m (revStep Hash o.1 o.2 m) /\ nextID (revStep Hash o.1 o.2 m) <= Z.max (nextID m + 1) (top + 1).
Proof.
  unfold idsUpTo. intros Hok Hroom Hids Htop. pose proof (so_next _ Hok) as Hpos. unfold roomy in Hroom.
  assert (w64 (nextID m + 1) = nextID m + 1) as Hw by (apply w64_id; lia). destruct o as [now [d|id ex|id|ex t meta|rs]]; simpl in *.
  - destruct (Create_ok now d m Hok Hroom) as [? ?]. split; [done|]. split; [done|rewrite Hw; lia].
  - destruct (Publish now id ex m) as [m' out] eqn:E. destruct (Publish_ok _ _ _ _ _ _ Hok E) as (? & ? & _). split; [done|]. split; [done|].
    unfold Publish in E. repeat case_match; injection E as <- _; simpl; lia.
  - destruct (Discard id m) as [m' out] eqn:E. destruct (Discard_ok _ _ _ _ Hok E) as (? & ? & _). split; [done|]. split; [done|].
    unfold Discard in E. repeat case_match; injection E as <- _; simpl; lia.
  - destruct (Rollback now ex t meta m) as [m' out] eqn:E. destruct (Rollback_ok _ _ _ _ _ _ _ Hok Hroom E) as (? & ? & _). split; [done|]. split; [done|].
    unfold Rollback in E. repeat case_match; injection E as <- _; simpl; rewrite ?Hw; lia.
  - destruct (ImportHistory_ok top rs m Hok Hids Htop) as (? & ? & ?). split; [done|]. split; [done|lia].
Qed.

(** From a store whose next identifier is at most [b], no more calls than are
    left of the identifiers. *)
Lemma revRun_ok top os : forall m b,
  storeOk m -> Forall (idsUpTo top) os -> 0 <= top < b -> nextID m <= b -> b + Z.of_nat (length os) < 2 ^ 63 ->
  storeOk (revRun Hash os m) /\ succeeds m (revRun Hash os m) /\ nextID (revRun Hash os m) <= b + Z.of_nat (length os).
Proof.
  unfold revRun. induction os as [|o os IH]; intros m b Hok Hids Htop Hb Hlen; simpl in *; [split; [done|]; split; [apply succeeds_refl|lia]|].
  apply Forall_cons in Hids as [Ho Hids].
  destruct (revStep_ok top o m Hok) as (Hok1 & Hs1 & Hn1); [unfold roomy; lia|done|lia|].
  destruct (IH _ (b + 1) Hok1 Hids) as (Hok2 & Hs2 & Hn2); [lia|lia|lia|]. split; [done|]. split; [by eapply succeeds_trans|lia].
Qed.

Lemma NewMemoryStore_ok : storeOk NewMemoryStore.
Proof. constructor; simpl; try lia; intros; by rewrite lookup_empty in *. Qed.

(** ** The theorems *)

(** C33. Revisions keep their history, as long as their int64 identifiers do not
    run out: the identifiers imported are at most [top], and fewer calls are
    made than are left between it and the largest int64.  Then after any calls
    of the store, in any order and whether they succeed or not, at most one
    revision is published and every revision's hash is that of its content; and
    whatever calls come after, each revision is still there under its
    identifier, its content, parent, author and creation as they were, its state
    the same or gone forward: a draft published or discarded, a published one
    superseded or rolled back.  (Without the bound it fails:
    [imported_top_overwrites].) *)
Theorem revisions_keep_history (top : Z) (before after : list (Z * revOp)) :
  Forall (idsUpTo top) (before ++ after) -> 0 <= top -> top + 1 + Z.of_nat (length before + length after) < 2 ^ 63 ->
  let m := revRun Hash before NewMemoryStore in
  let m' := revRun Hash after m in
  (forall i j r s, revs m' !! i = Some r -> revs m' !! j = Some s -> RState r = StatePublished -> RState s = StatePublished -> i = j) /\
  (forall id r, revs m' !! id = Some r -> ID r = id /\ Hash (Payload r) = ContentHash r) /\
  (forall id r, revs m !! id = Some r -> exists r', revs m' !! id = Some r' /\ content r' = content r /\ later (RState r) (RState r')).
Proof.
  intros [Hb Ha]%Forall_app Htop Hlen m m'.
  destruct (revRun_ok top before NewMemoryStore (top + 1) NewMemoryStore_ok Hb) as (Hok & _ & Hn); [lia|simpl; lia|lia|]. fold m in Hok, Hn.
  destruct (revRun_ok top after m (top + 1 + Z.of_nat (length before)) Hok Ha) as (Hok' & Hs & _); [lia|lia|lia|]. fold m' in Hok', Hs.
  split; [apply (so_one _ Hok')|]. split; [|exact Hs]. intros id r Hr. split; [apply (so_key _ Hok' _ _ Hr)|].
  pose proof (so_hash _ Hok' _ _ Hr) as Hv. unfold Verify in Hv. by apply bool_decide_eq_true in Hv.
Qed.

(** Publishing and rolling back are compare-and-set.  In any state a store
    comes to before its identifiers run out, Publish and Rollback change nothing but succeed only when what is
    published is what the caller expected; then what they answer is what is
    published from then on, Publish the draft named with its content, Rollback
    a new revision with the content of one that had been published (the one
    named; or else the one last published, of other content, that was
    superseded), and the one published before is superseded or rolled back. *)
Theorem publishing_guarded (top : Z) (before : list (Z * revOp)) (now id expected target : Z) (meta : Meta) :
  Forall (idsUpTo top) before -> 0 <= top -> top + 2 + Z.of_nat (length before) < 2 ^ 63 ->
  let m := revRun Hash before NewMemoryStore in
  let '(m1, out1) := Publish now id expected m in
  let '(m2, out2) := Rollback now expected target meta m in
  match out1 with
  | inl _ => m1 = m
  | inr r => default 0 (ID <$> publishedLocked m) = expected /\ ID r = id /\ publishedLocked m1 = Some r /\
             (exists d, revs m !! id = Some d /\ RState d = StateDraft /\ content r = content d) /\
             (forall c, publishedLocked m = Some c -> revs m1 !! ID c = Some (with_state StateSuperseded c))
  end /\
  match out2 with
  | inl _ => m2 = m
  | inr r => publishedLocked m2 = Some r /\ revs m !! ID r = None /\
      exists current source, publishedLocked m = Some current /\ ID current = expected /\
        revs m2 !! ID current = Some (with_state StateRolledBack current) /\
        revs m !! ID source = Some source /\ Unpublished (RState source) = false /\ Payload r = Payload source /\
        (target <> 0 -> ID source = target) /\
        (target = 0 -> eligible current source /\ forall i x, revs m !! i = Some x -> eligible current x -> noLater x source)
  end.
Proof.
  intros Hb Htop Hlen m. destruct (revRun_ok top before NewMemoryStore (top + 1) NewMemoryStore_ok Hb) as (Hok & _ & Hn); [lia|simpl; lia|lia|]. fold m in Hok, Hn.
  destruct (Publish now id expected m) as [m1 out1] eqn:E1. destruct (Rollback now expected target meta m) as [m2 out2] eqn:E2.
  destruct (Publish_ok _ _ _ _ _ _ Hok E1) as (_ & _ & H1). destruct (Rollback_ok _ _ _ _ _ _ _ Hok ltac:(unfold roomy; lia) E2) as (_ & _ & H2). split.
  - destruct out1; [done|]. by destruct H1 as (? & ? & ? & _ & ? & ? & _).
  - destruct out2; [done|]. destruct H2 as (? & _ & c & s & ? & ? & ? & ? & ? & ? & _ & _ & ? & ? & ?). split; [done|]. split; [done|]. by exists c, s.
Qed.

(** ** What a draft builds on *)

(** One parent to the next, through revisions never published. *)
Inductive buildsOn (m : MemoryStore) : Revision -> Revision -> Prop :=
  | builds_self r : buildsOn m r r
  | builds_parent r p q : Unpublished (RState r) = true -> revs m !! ParentID r = Some p -> buildsOn m p q -> buildsOn m r q.

Lemma basedLoop_ends m fuel : forall seen rev,
  seen ⊆ dom (revs m) -> (size (dom (revs m)) - size seen < fuel)%nat ->
  exists out, basedLoop fuel m seen rev = Some out /\
    forall id, out = inr id -> id = 0 \/ exists q, buildsOn m rev q /\ ID q = id /\ Unpublished (RState q) = false.
Proof.
  induction fuel as [|fuel IH]; intros seen rev Hs Hf; [lia|]. simpl. destruct (Unpublished (RState rev)) eqn:Eu; simpl.
  2: { eexists. split; [done|]. intros id [= <-]. right. exists rev. split; [constructor|done]. }
  destruct (_ || _) eqn:E; [eexists; split; [done|]; intros id [= <-]; by left|]. apply orb_false_iff in E as [_ Hns%bool_decide_eq_false].
  unfold Get. destruct (revs m !! ParentID rev) as [p|] eqn:Ep; [|by eexists].
  assert (ParentID rev ∈ dom (revs m)) as Hd by (by apply elem_of_dom_2 in Ep).
  assert (size ({[ParentID rev]} ∪ seen) = S (size seen)) as Hsz by (rewrite size_union by set_solver; by rewrite size_singleton).
  assert (size ({[ParentID rev]} ∪ seen) <= size (dom (revs m)))%nat as Hle by (apply subseteq_size; set_solver).
  destruct (IH ({[ParentID rev]} ∪ seen) p) as (out & Ho & Hout); [set_solver|lia|]. exists out. split; [done|].
  intros id Hid. destruct (Hout id Hid) as [?|(q & Hq & ?)]; [by left|right]. exists q. split; [by eapply builds_parent|done].
Qed.

Lemma BasedOn_ends m rev : exists out, BasedOn m rev = Some out /\
  forall id, out = inr id -> id = 0 \/ exists q, buildsOn m rev q /\ ID q = id /\ Unpublished (RState q) = false.
Proof. apply basedLoop_ends; [set_solver|]. rewrite size_dom. lia. Qed.

End store.

(** ** A draft published over another, then rolled back *)

Definition demoHash (s : string) : string := "sha256:" +:+ s.

Definition demoOps : list (Z * revOp) :=
  [(1, OCreate (mkDraft 0 "one" "ann" "")); (2, OPublish 1 0); (3, OCreate (mkDraft 1 "two" "bob" "")); (4, OPublish 2 1);
   (5, OCreate (mkDraft 2 "three" "bob" "")); (6, OPublish 3 1); (7, ODiscard 3)].

Example demo_states :
  RState <$> ((revRun demoHash demoOps NewMemoryStore).(revs) !! 1) = Some StateSuperseded /\
  RState <$> ((revRun demoHash demoOps NewMemoryStore).(revs) !! 2) = Some StatePublished /\
  RState <$> ((revRun demoHash demoOps NewMemoryStore).(revs) !! 3) = Some StateDiscarded.
Proof. vm_compute. auto. Qed.

Lemma revisions_keep_history_witness :
  exists r', revs (revRun demoHash [(8, ORollback 2 0 (mkMeta "eve" ""))] (revRun demoHash demoOps NewMemoryStore)) !! 2 = Some r' /\
    content r' = (2, 1, "sha256:two", "two", "bob", "", 3)%string /\ later StatePublished (RState r').
Proof.
  destruct (revisions_keep_history demoHash 0 demoOps [(8, ORollback 2 0 (mkMeta "eve" ""))]) as (_ & _ & Hk);
    [repeat constructor|lia|simpl; lia|].
  destruct (Hk 2 (mkRevision 2 1 "sha256:two" "two" StatePublished "bob" "" 3 4) eq_refl) as (r' & Hr & Hc & Hl).
  exists r'. split; [exact Hr|]. split; [exact Hc|exact Hl].
Defined.

(** The largest int64 among the identifiers imported wraps the next one, and a
    smaller one after it sets it again: the revisions created from then on
    come to the identifier of one imported, and the last of them replaces it. *)
Definition demoImported (id : Z) : Revision := mkRevision id 0 "sha256:kept" "kept" StateSuperseded "ann" "" 1 2.

Example imported_top_overwrites :
  let m := (ImportHistory demoHash [demoImported 10; demoImported (2 ^ 63 - 1); demoImported 5] NewMemoryStore).1 in
  let m' := revRun demoHash (replicate 5 (3, OCreate (mkDraft 0 "new" "bob" ""))) m in
  (ImportHistory demoHash [demoImported 10; demoImported (2 ^ 63 - 1); demoImported 5] NewMemoryStore).2 = None /\ nextID m = 6 /\ Payload <$> (revs m !! 10) = Some "kept"%string /\ Payload <$> (revs m' !! 10) = Some "new"%string.
Proof. vm_compute. auto. Qed.

Lemma demo_rollback : match (Rollback 8 2 0 (mkMeta "eve" "") (revRun demoHash demoOps NewMemoryStore)).2 with inr r => Payload r = "one"%string | inl _ => False end.
Proof. vm_compute. reflexivity. Qed.

Lemma publishing_guarded_witness :
  match Rollback 8 2 0 (mkMeta "eve" "") (revRun demoHash demoOps NewMemoryStore) with
  | (m2, inr r) => publishedLocked m2 = Some r /\ Payload r = "one"%string
  | (_, inl _) => False
  end.
Proof.
  pose proof (publishing_guarded demoHash 0 demoOps 8 3 2 0 (mkMeta "eve" "") ltac:(repeat constructor) ltac:(lia) ltac:(simpl; lia)) as Hg. cbv zeta in Hg.
  pose proof demo_rollback as Hx. destruct (Publish 8 3 2 _) as [m1 o1].
  destruct (Rollback 8 2 0 (mkMeta "eve" "") _) as [m2 o2]. cbn [snd] in Hx. destruct Hg as [_ Hg].
  destruct o2 as [e|r]; [exact Hx|]. split; [apply Hg|exact Hx].
Defined.
