(* ===== verification/Prepared.v ===== *)
(** The cache of prepared statements of core/store/prepared.go.

    Entries and the calls that prepare them are objects shared by pointer:
    numbers into two heaps.  The threads that run statements step by the
    critical sections of the cache, in any order; what the database answers to
    a prepare and when contexts end are events. *)

From S2P Require Import Prelude.

Record preparedEntry : Type := mkEntry {
  pe_query : string;                       (** what its statement was prepared from *)
  pe_refs : Z;
  pe_retired : bool;
  pe_closes : nat;                         (** how often its statement was closed *)
}.

Record prepareCall : Type := mkPrepare {
  pc_query : string;
  pc_entry : option nat;
  pc_waiters : Z;
  pc_generation : Z;
  pc_complete : bool;
}.

Record PreparedDB : Type := mkPrepared {
  pd_max : Z;
  pd_items : gmap string nat;
  pd_order : list string;                  (** the least recently used first *)
  pd_preparing : gmap string nat;
  pd_generation : Z;
  pd_entries : list preparedEntry;
  pd_calls : list prepareCall;
}.

Definition WithPreparedCache (max : Z) : PreparedDB := mkPrepared max ∅ [] ∅ 0 [] [].

Definition set_items (items : gmap string nat) (order : list string) (d : PreparedDB) : PreparedDB :=
  mkPrepared (pd_max d) items order (pd_preparing d) (pd_generation d) (pd_entries d) (pd_calls d).
Definition set_preparing (p : gmap string nat) (d : PreparedDB) : PreparedDB :=
  mkPrepared (pd_max d) (pd_items d) (pd_order d) p (pd_generation d) (pd_entries d) (pd_calls d).
Definition set_entries (es : list preparedEntry) (d : PreparedDB) : PreparedDB :=
  mkPrepared (pd_max d) (pd_items d) (pd_order d) (pd_preparing d) (pd_generation d) es (pd_calls d).
Definition set_calls (cs : list prepareCall) (d : PreparedDB) : PreparedDB :=
  mkPrepared (pd_max d) (pd_items d) (pd_order d) (pd_preparing d) (pd_generation d) (pd_entries d) cs.
Definition set_generation (g : Z) (d : PreparedDB) : PreparedDB :=
  mkPrepared (pd_max d) (pd_items d) (pd_order d) (pd_preparing d) g (pd_entries d) (pd_calls d).

Definition addRefs (n : Z) (e : preparedEntry) : preparedEntry := mkEntry (pe_query e) (pe_refs e + n) (pe_retired e) (pe_closes e).
Definition closeStmt (e : preparedEntry) : preparedEntry := mkEntry (pe_query e) (pe_refs e) (pe_retired e) (S (pe_closes e)).
Definition retired (e : preparedEntry) : preparedEntry := mkEntry (pe_query e) (pe_refs e) true (pe_closes e).
Definition addCallWaiters (n : Z) (c : prepareCall) : prepareCall :=
  mkPrepare (pc_query c) (pc_entry c) (pc_waiters c + n) (pc_generation c) (pc_complete c).
Definition completed_ (e : option nat) (c : prepareCall) : prepareCall :=
  mkPrepare (pc_query c) e (pc_waiters c) (pc_generation c) true.

(** An update of an object of the heap. *)
Definition onEntry (i : nat) (f : preparedEntry -> preparedEntry) (d : PreparedDB) : PreparedDB := set_entries (alter f i (pd_entries d)) d.
Definition onCall (i : nat) (f : prepareCall -> prepareCall) (d : PreparedDB) : PreparedDB := set_calls (alter f i (pd_calls d)) d.

Definition retireEntry (e : preparedEntry) : preparedEntry :=
  let e := retired e in if pe_refs e =? 0 then closeStmt e else e.
Definition retireLocked (i : nat) : PreparedDB -> PreparedDB := onEntry i retireEntry.

Definition releaseEntry (e : preparedEntry) : preparedEntry :=
  let e := addRefs (-1) e in if (pe_refs e =? 0) && pe_retired e then closeStmt e else e.
Definition releaseLocked (i : nat) : PreparedDB -> PreparedDB := onEntry i releaseEntry.

(** list.Remove of a query's element *)
Definition dropQuery (q : string) (order : list string) : list string := filter (fun x => x <> q) order.

(** ** The threads *)

Inductive prepThread : Type :=
  | POut
  | PPreparing (q : string) (c : nat)      (** in the database's prepare *)
  | PWaiting (q : string) (c : nat)        (** in waitPrepare *)
  | PUsing (q : string) (e : nat).         (** runs the statement, or reads its rows *)

(** statement's first critical section. *)
Definition lookupStatement (q : string) (d : PreparedDB) : PreparedDB * prepThread :=
  match pd_items d !! q with
  | Some e => (set_items (pd_items d) (dropQuery q (pd_order d) ++ [q]) (onEntry e (addRefs 1) d), PUsing q e)
  | None =>
      match pd_preparing d !! q with
      | Some c => (onCall c (addCallWaiters 1) d, PWaiting q c)
      | None =>
          let c := length (pd_calls d) in
          (set_preparing (<[q := c]> (pd_preparing d)) (set_calls (pd_calls d ++ [mkPrepare q None 1 (pd_generation d) false]) d), PPreparing q c)
      end
  end.

Definition finishPrepareErrorLocked (q : string) (c : nat) (d : PreparedDB) : PreparedDB :=
  set_preparing (delete q (pd_preparing d)) (onCall c (completed_ None) d).

(** The oldest entry is dropped when the cache is full. *)
Definition evictOldest (d : PreparedDB) : PreparedDB :=
  if pd_max d <=? Z.of_nat (length (pd_order d)) then
    match pd_order d with
    | oldest :: order =>
        match pd_items d !! oldest with
        | Some e => retireLocked e (set_items (delete oldest (pd_items d)) order d)
        | None => set_items (pd_items d) order d
        end
    | [] => d
    end
  else d.

Definition finishPrepareSuccessLocked (q : string) (c : nat) (d : PreparedDB) : PreparedDB * nat :=
  let e := length (pd_entries d) in
  let '(waiters, generation) := match pd_calls d !! c with Some x => (pc_waiters x, pc_generation x) | None => (0, 0) end in
  let current := generation =? pd_generation d in
  let d := set_entries (pd_entries d ++ [mkEntry q waiters (negb current) 0]) (onCall c (completed_ (Some e)) d) in
  let d := if (current : bool) then
             let d := evictOldest d in set_items (<[q := e]> (pd_items d)) (pd_order d ++ [q]) d
           else d in
  (set_preparing (delete q (pd_preparing d)) d, e).

(** failed, when the plan is stale. *)
Definition failedStale (q : string) (e : nat) (d : PreparedDB) : PreparedDB :=
  if bool_decide (pd_items d !! q = Some e) then retireLocked e (set_items (delete q (pd_items d)) (dropQuery q (pd_order d)) d) else d.

(** waitPrepare, when the context ended. *)
Definition leavePrepare (c : nat) (d : PreparedDB) : PreparedDB :=
  let d := onCall c (addCallWaiters (-1)) d in
  match pd_calls d !! c with
  | Some x => match pc_complete x, pc_entry x with true, Some e => releaseLocked e d | _, _ => d end
  | None => d
  end.

Definition Close (d : PreparedDB) : PreparedDB :=
  let es := foldl (fun es e => alter retireEntry e es) (pd_entries d) (map_to_list (pd_items d)).*2 in
  set_items ∅ [] (set_entries es (set_generation (pd_generation d + 1) d)).

Inductive prepEvent : Type :=
  | Ask (t : nat) (q : string)
  | Prepared (t : nat) (ok : bool)         (** the database's answer *)
  | Told (t : nat)                         (** the prepare a thread waits for is done *)
  | CtxEnds (t : nat)                      (** as it waits *)
  | StalePlan (t : nat)
  | Done_ (t : nat)                        (** release *)
  | CloseAll.

Definition prepStep (e : prepEvent) (x : PreparedDB * list prepThread) : option (PreparedDB * list prepThread) :=
  let '(d, ts) := x in
  match e with
  | Ask t q =>
      match ts !! t with
      | Some POut => if pd_max d <=? 0 then Some (d, ts) (* not prepared *)
                     else let '(d, p) := lookupStatement q d in Some (d, <[t := p]> ts)
      | _ => None
      end
  | Prepared t ok =>
      match ts !! t with
      | Some (PPreparing q c) =>
          if ok then let '(d, e) := finishPrepareSuccessLocked q c d in Some (d, <[t := PUsing q e]> ts)
          else Some (finishPrepareErrorLocked q c d, <[t := POut]> ts)
      | _ => None
      end
  | Told t =>
      match ts !! t with
      | Some (PWaiting q c) =>
          match pd_calls d !! c with
          | Some x => if pc_complete x then Some (d, <[t := match pc_entry x with Some e => PUsing q e | None => POut end]> ts) else None
          | None => None
          end
      | _ => None
      end
  | CtxEnds t => match ts !! t with Some (PWaiting q c) => Some (leavePrepare c d, <[t := POut]> ts) | _ => None end
  | StalePlan t => match ts !! t with Some (PUsing q e) => Some (failedStale q e d, ts) | _ => None end
  | Done_ t => match ts !! t with Some (PUsing q e) => Some (releaseLocked e d, <[t := POut]> ts) | _ => None end
  | CloseAll => Some (Close d, ts)
  end.

Definition prepRun (es : list prepEvent) (x : PreparedDB * list prepThread) : PreparedDB * list prepThread :=
  foldl (fun x e => default x (prepStep e x)) x es.

Definition prepStart (max : Z) (threads : nat) : PreparedDB * list prepThread := (WithPreparedCache max, replicate threads POut).


(** * Prepared statements: none is used once closed, each is closed once and only
    when nobody uses it, and the cache keeps within its bound. *)

(** ** Who uses what *)

(** The thread uses the entry [e], or was given it by the call it waits for. *)
Definition uses (cs : list prepareCall) (e : nat) (th : prepThread) : Z :=
  match th with
  | PUsing _ e' => if decide (e' = e) then 1 else 0
  | PWaiting _ c => if decide (cs !! c ≫= pc_entry = Some e) then 1 else 0
  | _ => 0
  end.

(** The thread prepares, or waits for, the call [c]. *)
Definition awaits (c : nat) (th : prepThread) : Z :=
  match th with PPreparing _ c' | PWaiting _ c' => if decide (c' = c) then 1 else 0 | _ => 0 end.

Record prepInv (d : PreparedDB) (ts : list prepThread) : Prop := {
  pi_refs : forall e x, pd_entries d !! e = Some x -> pe_refs x = sumOver (uses (pd_calls d) e) ts;
  pi_closes : forall e x, pd_entries d !! e = Some x -> pe_closes x = if pe_retired x && (pe_refs x =? 0) then 1%nat else 0%nat;
  pi_item : forall q e, pd_items d !! q = Some e -> exists x, pd_entries d !! e = Some x /\ pe_query x = q /\ pe_retired x = false;
  pi_kept : forall e x, pd_entries d !! e = Some x -> pe_retired x = false -> pd_items d !! pe_query x = Some e;
  pi_nodup : NoDup (pd_order d);
  pi_order : forall q, q ∈ pd_order d <-> is_Some (pd_items d !! q);
  pi_max : pd_order d = [] \/ Z.of_nat (length (pd_order d)) <= pd_max d;
  pi_preparing : forall q c, pd_preparing d !! q = Some c -> pd_items d !! q = None /\
    exists x, pd_calls d !! c = Some x /\ pc_query x = q /\ pc_complete x = false;
  pi_open : forall c x, pd_calls d !! c = Some x -> pc_complete x = false ->
    pc_entry x = None /\ pc_waiters x = sumOver (awaits c) ts /\ pd_preparing d !! pc_query x = Some c;
  pi_given : forall c x e, pd_calls d !! c = Some x -> pc_entry x = Some e -> exists y, pd_entries d !! e = Some y /\ pe_query y = pc_query x;
  pi_preparer : forall t q c, ts !! t = Some (PPreparing q c) -> exists x, pd_calls d !! c = Some x /\ pc_query x = q /\ pc_complete x = false;
  pi_waiting : forall t q c, ts !! t = Some (PWaiting q c) -> exists x, pd_calls d !! c = Some x /\ pc_query x = q;
  pi_using : forall t q e, ts !! t = Some (PUsing q e) -> exists x, pd_entries d !! e = Some x /\ pe_query x = q;
  pi_one : forall t u q q' c, ts !! t = Some (PPreparing q c) -> ts !! u = Some (PPreparing q' c) -> t = u;
}.

Lemma uses_nonneg cs e th : 0 <= uses cs e th.
Proof. destruct th; simpl; try case_decide; lia. Qed.
Lemma awaits_nonneg c th : 0 <= awaits c th.
Proof. destruct th; simpl; try case_decide; lia. Qed.

Lemma alter_lookup {A} (f : A -> A) i (l : list A) j : alter f i l !! j = if decide (i = j) then f <$> l !! j else l !! j.
Proof. case_decide; [subst; apply list_lookup_alter_eq|by apply list_lookup_alter_ne]. Qed.

Lemma uses_calls cs cs' e th : (forall c, cs' !! c ≫= pc_entry = cs !! c ≫= pc_entry) -> uses cs' e th = uses cs e th.
Proof. intros Hc. destruct th; simpl; try done. by rewrite Hc. Qed.

(** What a thread in use of an entry says of it. *)
Lemma using_refs d ts t q e x : prepInv d ts -> ts !! t = Some (PUsing q e) -> pd_entries d !! e = Some x -> 0 < pe_refs x.
Proof.
  intros Hi Ht Hx. rewrite (pi_refs _ _ Hi _ _ Hx). pose proof (sumOver_nonneg (uses (pd_calls d) e) ts (uses_nonneg _ e)) as Hn.
  destruct (decide (sumOver (uses (pd_calls d) e) ts = 0)) as [Hz|]; [|lia].
  pose proof (sumOver_zero_all _ _ _ _ (uses_nonneg _ e) Hz Ht) as Hu. simpl in Hu. rewrite decide_True in Hu by done. lia.
Qed.

Lemma dropQuery_spec q l : NoDup l -> NoDup (dropQuery q l) /\ (forall x, x ∈ dropQuery q l <-> x ∈ l /\ x <> q) /\ (length (dropQuery q l) <= length l)%nat.
Proof.
  intros Hn. unfold dropQuery. split; [by apply NoDup_filter|]. split; [intros x; rewrite list_elem_of_filter; tauto|]. apply length_filter.
Qed.

(** ** Entries leave the cache *)

(** An entry retired as it leaves the cache. *)
Lemma retire_inv d ts q e :
  prepInv d ts -> pd_items d !! q = Some e ->
  prepInv (retireLocked e (set_items (delete q (pd_items d)) (dropQuery q (pd_order d)) d)) ts.
Proof.
  intros Hi Hq. pose proof Hi as []. destruct (pi_item0 _ _ Hq) as (x & Hx & Hxq & Hxr). destruct (dropQuery_spec q _ pi_nodup0) as (D1 & D2 & D3).
  assert (forall y, retireEntry y = mkEntry (pe_query y) (pe_refs y) true (if pe_refs y =? 0 then S (pe_closes y) else pe_closes y)) as Hret.
  { intros y. unfold retireEntry, retired, closeStmt. simpl. by destruct (_ =? 0). }
  assert (forall j y, pd_entries (retireLocked e (set_items (delete q (pd_items d)) (dropQuery q (pd_order d)) d)) !! j = Some y ->
    (j = e /\ y = retireEntry x) \/ (j <> e /\ pd_entries d !! j = Some y)) as Hl.
  { intros j y. simpl. rewrite alter_lookup. case_decide; [subst; rewrite Hx; intros [= <-]; by left|intros; by right]. }
  assert (forall j y, pd_entries d !! j = Some y -> exists y', alter retireEntry e (pd_entries d) !! j = Some y' /\ pe_query y' = pe_query y) as Hf.
  { intros j y Hy. rewrite alter_lookup. case_decide; [subst; rewrite Hx; exists (retireEntry x); split; [done|]; rewrite Hret; simpl; congruence|by exists y]. }
  constructor; simpl in *; try done.
  - intros j y Hy. destruct (Hl _ _ Hy) as [[-> ->]|[_ Hy']]; [rewrite Hret; exact (pi_refs0 _ _ Hx)|exact (pi_refs0 _ _ Hy')].
  - intros j y Hy. destruct (Hl _ _ Hy) as [[-> ->]|[_ Hy']]; [|exact (pi_closes0 _ _ Hy')]. rewrite Hret; simpl. rewrite (pi_closes0 _ _ Hx), Hxr. simpl. by destruct (_ =? 0).
  - intros p j [Hne Hp]%lookup_delete_Some. destruct (pi_item0 _ _ Hp) as (y & Hy & Hyq & Hyr). exists y. split; [|done]. rewrite alter_lookup. case_decide; [|done].
    subst. rewrite Hx in Hy. congruence.
  - intros j y Hy Hyr. destruct (Hl _ _ Hy) as [[-> ->]|[Hne Hy']]; [rewrite Hret in Hyr; done|]. specialize (pi_kept0 _ _ Hy' Hyr).
    rewrite lookup_delete_ne; [done|]. intros E. rewrite <- E in pi_kept0. congruence.
  - intros p. rewrite D2, pi_order0. rewrite <- !not_eq_None_Some. rewrite lookup_delete. case_decide; naive_solver.
  - destruct pi_max0 as [-> |?]; [by left|]. right. lia.
  - intros p c Hp. destruct (pi_preparing0 _ _ Hp) as [Hn ?]. split; [|done]. rewrite lookup_delete. by case_decide.
  - intros c y j Hc Hj. destruct (pi_given0 _ _ _ Hc Hj) as (z & Hz & Hzq). destruct (Hf _ _ Hz) as (z' & ? & ?). exists z'. split; [done|congruence].
  - intros t p j Ht. destruct (pi_using0 _ _ _ Ht) as (z & Hz & Hzq). destruct (Hf _ _ Hz) as (z' & ? & ?). exists z'. split; [done|congruence].
Qed.

Lemma evict_inv d ts : prepInv d ts -> prepInv (evictOldest d) ts /\
  (0 < pd_max d -> Z.of_nat (length (pd_order (evictOldest d))) < pd_max d) /\ pd_max (evictOldest d) = pd_max d /\
  pd_calls (evictOldest d) = pd_calls d /\ pd_preparing (evictOldest d) = pd_preparing d /\ length (pd_entries (evictOldest d)) = length (pd_entries d) /\
  (forall q e, pd_items (evictOldest d) !! q = Some e -> pd_items d !! q = Some e) /\ pd_generation (evictOldest d) = pd_generation d.
Proof.
  intros Hi. unfold evictOldest. destruct (Z.leb_spec (pd_max d) (Z.of_nat (length (pd_order d)))) as [Hle|Hlt]; [|split; [done|]; split_and!; try done; lia].
  destruct (pd_order d) as [|q order] eqn:Eo; [split; [done|]; split_and!; try done; rewrite Eo; simpl; lia|].
  assert (is_Some (pd_items d !! q)) as [e He] by (apply (pi_order _ _ Hi); rewrite Eo; by left). rewrite He.
  pose proof (pi_nodup _ _ Hi) as Hnd. rewrite Eo in Hnd. apply NoDup_cons in Hnd as [Hnq Hnd].
  assert (dropQuery q (pd_order d) = order) as Hdrop.
  { rewrite Eo. unfold dropQuery. rewrite filter_cons_False by tauto. clear -Hnq. induction order as [|a l IH]; [done|].
    rewrite filter_cons_True; [f_equal; apply IH; set_solver|set_solver]. }
  pose proof (retire_inv _ _ _ _ Hi He) as Hr. rewrite Hdrop in Hr. split; [done|]. simpl. split_and!; try done.
  - intros Hpos. destruct (pi_max _ _ Hi) as [E|Hm]; [congruence|]. rewrite Eo in Hm. simpl in Hm. lia.
  - apply length_alter.
  - intros p j Hp. by apply lookup_delete_Some in Hp as [_ ?].
Qed.

(** ** Threads move *)

(** A thread is given the entry [e], or gives it back: [n] more use it. *)
Lemma refs_inv d ts t w w' e x x' n order :
  prepInv d ts -> ts !! t = Some w -> pd_entries d !! e = Some x ->
  (forall j, uses (pd_calls d) j w' = uses (pd_calls d) j w + if decide (j = e) then n else 0) ->
  (forall c x, pd_calls d !! c = Some x -> pc_complete x = false -> awaits c w' = awaits c w) ->
  (forall q c, w' <> PPreparing q c /\ w' <> PWaiting q c) -> (forall q j, w' = PUsing q j -> exists y, pd_entries d !! j = Some y /\ pe_query y = q) ->
  pe_query x' = pe_query x -> pe_retired x' = pe_retired x -> pe_refs x' = pe_refs x + n ->
  pe_closes x' = (if pe_retired x && (pe_refs x' =? 0) then 1%nat else 0%nat) ->
  NoDup order -> (forall q, q ∈ order <-> q ∈ pd_order d) -> (length order <= length (pd_order d))%nat ->
  prepInv (set_items (pd_items d) order (set_entries (<[e := x']> (pd_entries d)) d)) (<[t := w']> ts).
Proof.
  intros Hi Ht Hx Hu Ha Hw Hus Hq Hr Hn Hc Ho1 Ho2 Ho3. pose proof Hi as [].
  assert (forall j y, <[e := x']> (pd_entries d) !! j = Some y -> (j = e /\ y = x') \/ (j <> e /\ pd_entries d !! j = Some y)) as Hl.
  { intros j y [(-> & -> & _)|[? ?]]%list_lookup_insert_Some; auto. }
  assert (forall j y, pd_entries d !! j = Some y -> exists y', <[e := x']> (pd_entries d) !! j = Some y' /\ pe_query y' = pe_query y /\ pe_retired y' = pe_retired y) as Hf.
  { intros j y Hy. destruct (decide (j = e)) as [->|Hne]; [exists x'; rewrite list_lookup_insert_eq by (by eapply lookup_lt_Some); split; [done|]; split; congruence|].
    exists y. by rewrite list_lookup_insert_ne. }
  assert (forall j, sumOver (uses (pd_calls d) j) (<[t := w']> ts) = sumOver (uses (pd_calls d) j) ts + if decide (j = e) then n else 0) as Hs.
  { intros j. rewrite (sumOver_insert _ _ _ _ _ Ht), Hu. lia. }
  assert (forall u v, <[t := w']> ts !! u = Some v -> v = w' \/ ts !! u = Some v) as Hts by (intros u v [(-> & -> & _)|[? ?]]%list_lookup_insert_Some; auto).
  constructor; simpl; try done.
  - intros j y Hy. rewrite Hs. destruct (Hl _ _ Hy) as [[-> ->]|[Hne Hy']]; [rewrite decide_True by done; rewrite Hn, (pi_refs0 _ _ Hx); lia|].
    rewrite decide_False by done. rewrite (pi_refs0 _ _ Hy'). lia.
  - intros j y Hy. destruct (Hl _ _ Hy) as [[-> ->]|[Hne Hy']]; [by rewrite Hc, Hr|eauto].
  - intros p j Hp. destruct (pi_item0 _ _ Hp) as (y & Hy & Hyq & Hyr). destruct (Hf _ _ Hy) as (y' & ? & ? & ?). exists y'. split; [done|]. split; congruence.
  - intros j y Hy Hyr. destruct (Hl _ _ Hy) as [[-> ->]|[Hne Hy']]; [rewrite Hq; apply pi_kept0; [done|congruence]|eauto].
  - intros p. by rewrite Ho2.
  - destruct pi_max0 as [E|?]; [left|right; lia]. rewrite E in Ho3. simpl in Ho3. destruct order; [done|simpl in Ho3; lia].
  - intros c y Hc' Hco. destruct (pi_open0 _ _ Hc' Hco) as (? & Hw' & ?). split; [done|]. split; [|done].
    rewrite (sumOver_insert _ _ _ _ _ Ht), (Ha _ _ Hc' Hco), Hw'. lia.
  - intros c y j Hc' Hj. destruct (pi_given0 _ _ _ Hc' Hj) as (z & Hz & ?). destruct (Hf _ _ Hz) as (z' & ? & ? & _). exists z'. split; [done|congruence].
  - intros u p c Hx'. destruct (Hts _ _ Hx') as [<-|?]; [by destruct (Hw p c)|eauto].
  - intros u p c Hx'. destruct (Hts _ _ Hx') as [<-|?]; [by destruct (Hw p c)|eauto].
  - intros u p j Hx'. destruct (Hts _ _ Hx') as [<-|Hold]; [destruct (Hus _ _ eq_refl) as (y & Hy & ?)|destruct (pi_using0 _ _ _ Hold) as (y & Hy & ?)];
      destruct (Hf _ _ Hy) as (y' & ? & ? & _); exists y'; (split; [done|congruence]).
  - intros u v p p' c Hx1 Hx2. apply list_lookup_insert_Some in Hx1 as [(_ & ? & _)|[Hn1 Hx1]]; [by destruct (Hw p c)|].
    apply list_lookup_insert_Some in Hx2 as [(_ & ? & _)|[Hn2 Hx2]]; [by destruct (Hw p' c)|eauto].
Qed.

Lemma set_same d : set_items (pd_items d) (pd_order d) d = d.
Proof. by destruct d. Qed.

Lemma release_inv d ts t w e x :
  prepInv d ts -> ts !! t = Some w -> pd_entries d !! e = Some x -> (forall j, uses (pd_calls d) j w = if decide (j = e) then 1 else 0) ->
  (forall c x, pd_calls d !! c = Some x -> pc_complete x = false -> awaits c w = 0) -> 0 < pe_refs x ->
  prepInv (releaseLocked e d) (<[t := POut]> ts).
Proof.
  intros Hi Ht Hx Hu Ha Hpos. assert (releaseLocked e d = set_items (pd_items d) (pd_order d) (set_entries (<[e := releaseEntry x]> (pd_entries d)) d)) as ->.
  { unfold releaseLocked, onEntry. destruct d; unfold set_entries, set_items; simpl in *. f_equal. apply list_eq. intros j. rewrite alter_lookup.
    case_decide; [subst; rewrite list_lookup_insert_eq by (by eapply lookup_lt_Some); by rewrite Hx|by rewrite list_lookup_insert_ne]. }
  pose proof (pi_closes _ _ Hi _ _ Hx) as Hc. destruct (Z.eqb_spec (pe_refs x) 0); [lia|]. rewrite andb_false_r in Hc.
  eapply (refs_inv d ts t w POut e x _ (-1)); try done.
  - intros j. simpl. rewrite Hu. case_decide; lia.
  - intros c y Hy Hco. by rewrite (Ha _ _ Hy Hco).
  - unfold releaseEntry. by destruct (_ && _).
  - unfold releaseEntry. by destruct (_ && _).
  - unfold releaseEntry. by destruct (_ && _).
  - unfold releaseEntry. simpl. destruct (pe_retired x); simpl; rewrite ?andb_true_r, ?andb_false_r; simpl; [|done]. destruct (_ =? 0) eqn:E; simpl; rewrite ?E, Hc; done.
  - apply (pi_nodup _ _ Hi).
Qed.

(** The call [c] has [n] more waiters, a thread's having joined or left. *)
Lemma waiters_inv d ts t w w' c x n :
  prepInv d ts -> ts !! t = Some w -> pd_calls d !! c = Some x -> pc_complete x = false ->
  (forall j, uses (pd_calls d) j w' = 0 /\ uses (pd_calls d) j w = 0) -> (forall k, awaits k w' = awaits k w + if decide (k = c) then n else 0) ->
  (forall q k, w' <> PPreparing q k) -> (forall q k, w' = PWaiting q k -> k = c /\ q = pc_query x) -> (forall q j, w' <> PUsing q j) ->
  prepInv (onCall c (addCallWaiters n) d) (<[t := w']> ts).
Proof.
  intros Hi Ht Hx Hco Hu Ha Hw1 Hw2 Hw3. pose proof Hi as [].
  assert (forall k, alter (addCallWaiters n) c (pd_calls d) !! k ≫= pc_entry = pd_calls d !! k ≫= pc_entry) as Hent.
  { intros k. rewrite alter_lookup. case_decide; [|done]. by destruct (pd_calls d !! k). }
  assert (forall k y, alter (addCallWaiters n) c (pd_calls d) !! k = Some y -> (k = c /\ y = addCallWaiters n x) \/ (k <> c /\ pd_calls d !! k = Some y)) as Hl.
  { intros k y. rewrite alter_lookup. case_decide; [subst; rewrite Hx; intros [= <-]; by left|auto]. }
  assert (forall k y, pd_calls d !! k = Some y -> exists y', alter (addCallWaiters n) c (pd_calls d) !! k = Some y' /\ pc_query y' = pc_query y /\ pc_complete y' = pc_complete y) as Hf.
  { intros k y Hy. rewrite alter_lookup. case_decide; [subst; rewrite Hy; by eexists|by exists y]. }
  assert (forall u v, <[t := w']> ts !! u = Some v -> v = w' \/ ts !! u = Some v) as Hts by (intros u v [(-> & -> & _)|[? ?]]%list_lookup_insert_Some; auto).
  constructor; simpl; try done.
  - intros j y Hy. rewrite (sumOver_ext _ (uses (pd_calls d) j)) by (intros th _; by apply uses_calls).
    rewrite (sumOver_insert _ _ _ _ _ Ht). destruct (Hu j) as [-> ->]. rewrite (pi_refs0 _ _ Hy). lia.
  - intros q k Hq. destruct (pi_preparing0 _ _ Hq) as (? & y & Hy & ? & ?). split; [done|]. destruct (Hf _ _ Hy) as (y' & ? & ? & ?). exists y'. split_and!; congruence.
  - intros k y Hy Hyc. rewrite (sumOver_insert _ _ _ _ _ Ht), Ha. destruct (Hl _ _ Hy) as [[-> ->]|[Hne Hy']].
    + destruct (pi_open0 _ _ Hx Hco) as (? & Hwx & ?). rewrite decide_True by done. simpl. split; [done|]. split; [lia|done].
    + destruct (pi_open0 _ _ Hy' Hyc) as (? & Hwx & ?). rewrite decide_False by done. split; [done|]. split; [lia|done].
  - intros k y j Hy Hj. destruct (Hl _ _ Hy) as [[-> ->]|[Hne Hy']]; [exact (pi_given0 _ _ _ Hx Hj)|eauto].
  - intros u p k Hp. destruct (Hts _ _ Hp) as [<-|Ho]; [by destruct (Hw1 p k)|]. destruct (pi_preparer0 _ _ _ Ho) as (y & Hy & ? & ?). destruct (Hf _ _ Hy) as (y' & ? & ? & ?).
    exists y'. split_and!; congruence.
  - intros u p k Hp. destruct (Hts _ _ Hp) as [<-|Ho].
    + destruct (Hw2 _ _ eq_refl) as [-> ->]. destruct (Hf _ _ Hx) as (y' & ? & ? & ?). by exists y'.
    + destruct (pi_waiting0 _ _ _ Ho) as (y & Hy & ?). destruct (Hf _ _ Hy) as (y' & ? & ? & ?). exists y'. split; congruence.
  - intros u p k Hp. destruct (Hts _ _ Hp) as [<-|Ho]; [by destruct (Hw3 p k)|eauto].
  - intros u v p p' k Hx1 Hx2. apply list_lookup_insert_Some in Hx1 as [(_ & ? & _)|[Hn1 Hx1]]; [by destruct (Hw1 p k)|].
    apply list_lookup_insert_Some in Hx2 as [(_ & ? & _)|[Hn2 Hx2]]; [by destruct (Hw1 p' k)|eauto].
Qed.

(** The count of waiters of a call that is over says nothing more. *)
Lemma over_inv d ts c x n : prepInv d ts -> pd_calls d !! c = Some x -> pc_complete x = true -> prepInv (onCall c (addCallWaiters n) d) ts.
Proof.
  intros Hi Hx Hco. pose proof Hi as [].
  assert (forall k, alter (addCallWaiters n) c (pd_calls d) !! k ≫= pc_entry = pd_calls d !! k ≫= pc_entry) as Hent.
  { intros k. rewrite alter_lookup. case_decide; [|done]. by destruct (pd_calls d !! k). }
  assert (forall k y, alter (addCallWaiters n) c (pd_calls d) !! k = Some y -> (k = c /\ y = addCallWaiters n x) \/ (k <> c /\ pd_calls d !! k = Some y)) as Hl.
  { intros k y. rewrite alter_lookup. case_decide; [subst; rewrite Hx; intros [= <-]; by left|auto]. }
  assert (forall k y, pd_calls d !! k = Some y -> exists y', alter (addCallWaiters n) c (pd_calls d) !! k = Some y' /\ pc_query y' = pc_query y /\ pc_complete y' = pc_complete y) as Hf.
  { intros k y Hy. rewrite alter_lookup. case_decide; [subst; rewrite Hy; by eexists|by exists y]. }
  constructor; simpl; try done.
  - intros j y Hy. rewrite (sumOver_ext _ (uses (pd_calls d) j)) by (intros th _; by apply uses_calls). auto.
  - intros q k Hq. destruct (pi_preparing0 _ _ Hq) as (? & y & Hy & ? & ?). split; [done|]. destruct (Hf _ _ Hy) as (y' & ? & ? & ?). exists y'. split_and!; congruence.
  - intros k y Hy Hyc. destruct (Hl _ _ Hy) as [[-> ->]|[Hne Hy']]; [simpl in Hyc; congruence|eauto].
  - intros k y j Hy Hj. destruct (Hl _ _ Hy) as [[-> ->]|[Hne Hy']]; [exact (pi_given0 _ _ _ Hx Hj)|eauto].
  - intros u p k Hp. destruct (pi_preparer0 _ _ _ Hp) as (y & Hy & ? & ?). destruct (Hf _ _ Hy) as (y' & ? & ? & ?). exists y'. split_and!; congruence.
  - intros u p k Hp. destruct (pi_waiting0 _ _ _ Hp) as (y & Hy & ?). destruct (Hf _ _ Hy) as (y' & ? & ? & ?). exists y'. split; congruence.
Qed.

(** A thread begins to prepare. *)
Lemma new_inv d ts t q :
  prepInv d ts -> ts !! t = Some POut -> pd_items d !! q = None -> pd_preparing d !! q = None ->
  prepInv (set_preparing (<[q := length (pd_calls d)]> (pd_preparing d)) (set_calls (pd_calls d ++ [mkPrepare q None 1 (pd_generation d) false]) d))
    (<[t := PPreparing q (length (pd_calls d))]> ts).
Proof.
  intros Hi Ht Hq Hp. pose proof Hi as []. set (n := length (pd_calls d)). set (new := mkPrepare _ _ _ _ _).
  assert (forall k y, (pd_calls d ++ [new]) !! k = Some y -> (k = n /\ y = new) \/ ((k < n)%nat /\ pd_calls d !! k = Some y)) as Hl.
  { intros k y. destruct (decide (k < n)%nat) as [Hlt|Hge]; [rewrite lookup_app_l by done; auto|]. rewrite lookup_app_r by lia. fold n.
    destruct (k - n)%nat eqn:E; simpl; [intros [= <-]; left; split; [lia|done]|done]. }
  assert (forall k y, pd_calls d !! k = Some y -> (pd_calls d ++ [new]) !! k = Some y) as Hf by (intros; by apply lookup_app_l_Some).
  assert ((pd_calls d ++ [new]) !! n = Some new) as Hnew by (unfold n; by rewrite list_lookup_middle).
  assert (forall k, (pd_calls d ++ [new]) !! k ≫= pc_entry = pd_calls d !! k ≫= pc_entry) as Hent.
  { intros k. destruct (decide (k < n)%nat); [by rewrite lookup_app_l|]. rewrite (lookup_ge_None_2 (pd_calls d)) by (fold n; lia).
    rewrite lookup_app_r by (fold n; lia). by destruct (k - length (pd_calls d))%nat. }
  assert (forall th u, ts !! u = Some th -> awaits n th = 0) as Hz.
  { intros th u Hu. destruct th as [|p c|p c|]; simpl; try done; (case_decide; [subst c|done]).
    - destruct (pi_preparer0 _ _ _ Hu) as (y & Hy & _). apply lookup_lt_Some in Hy. fold n in Hy. lia.
    - destruct (pi_waiting0 _ _ _ Hu) as (y & Hy & _). apply lookup_lt_Some in Hy. fold n in Hy. lia. }
  assert (forall u v, <[t := PPreparing q n]> ts !! u = Some v -> (u = t /\ v = PPreparing q n) \/ (u <> t /\ ts !! u = Some v)) as Hts
    by (intros u v [(-> & -> & _)|[? ?]]%list_lookup_insert_Some; auto).
  constructor; simpl; try done.
  - intros j y Hy. rewrite (sumOver_ext _ (uses (pd_calls d) j)) by (intros th _; by apply uses_calls).
    rewrite (sumOver_insert _ _ _ _ _ Ht). simpl. rewrite (pi_refs0 _ _ Hy). lia.
  - intros p k. rewrite lookup_insert_Some. intros [[<- <-]|[Hne Hk]]; [split; [done|]; by exists new|].
    destruct (pi_preparing0 _ _ Hk) as (? & y & ? & ? & ?). split; [done|]. exists y. auto.
  - intros k y Hy Hyc. rewrite (sumOver_insert _ _ _ _ _ Ht). simpl. destruct (Hl _ _ Hy) as [[-> ->]|[Hlt Hy']].
    + rewrite decide_True by done. simpl. split; [done|]. rewrite lookup_insert_eq. split; [|done].
      rewrite (sumOver_zero (awaits n) ts); [lia|]. intros th (u & Hu)%list_elem_of_lookup. eauto.
    + rewrite decide_False by lia. destruct (pi_open0 _ _ Hy' Hyc) as (? & ? & Hpr). split; [done|]. split; [lia|].
      rewrite lookup_insert_ne; [done|]. intros E. rewrite <- E in Hpr. congruence.
  - intros k y j Hy Hj. destruct (Hl _ _ Hy) as [[-> ->]|[Hlt Hy']]; [done|eauto].
  - intros u p k Hx. destruct (Hts _ _ Hx) as [[-> [= -> ->]]|[_ Ho]]; [by exists new|]. destruct (pi_preparer0 _ _ _ Ho) as (y & ? & ?). exists y. auto.
  - intros u p k Hx. destruct (Hts _ _ Hx) as [[_ ?]|[_ Ho]]; [done|]. destruct (pi_waiting0 _ _ _ Ho) as (y & ? & ?). exists y. auto.
  - intros u p k Hx. destruct (Hts _ _ Hx) as [[_ ?]|[_ Ho]]; [done|eauto].
  - intros u v p p' k Hx1 Hx2. destruct (Hts _ _ Hx1) as [[-> [= -> ->]]|[Hn1 Ho1]], (Hts _ _ Hx2) as [[-> E]|[Hn2 Ho2]]; try done; [| |eauto].
    + destruct (pi_preparer0 _ _ _ Ho2) as (y & Hy & _). apply lookup_lt_Some in Hy. fold n in Hy. lia.
    + injection E as -> ->. destruct (pi_preparer0 _ _ _ Ho1) as (y & Hy & _). apply lookup_lt_Some in Hy. fold n in Hy. lia.
Qed.

(** A prepare fails: those who wait for it are told. *)
Lemma fail_inv d ts t q c : prepInv d ts -> ts !! t = Some (PPreparing q c) -> prepInv (finishPrepareErrorLocked q c d) (<[t := POut]> ts).
Proof.
  intros Hi Ht. pose proof Hi as []. destruct (pi_preparer0 _ _ _ Ht) as (x & Hx & Hxq & Hxc). destruct (pi_open0 _ _ Hx Hxc) as (Hxe & Hxw & Hxp).
  assert (forall k, alter (completed_ None) c (pd_calls d) !! k ≫= pc_entry = pd_calls d !! k ≫= pc_entry) as Hent.
  { intros k. rewrite alter_lookup. case_decide; [|done]. subst. rewrite Hx. simpl. done. }
  assert (forall k y, alter (completed_ None) c (pd_calls d) !! k = Some y -> (k = c /\ y = completed_ None x) \/ (k <> c /\ pd_calls d !! k = Some y)) as Hl.
  { intros k y. rewrite alter_lookup. case_decide; [subst; rewrite Hx; intros [= <-]; by left|auto]. }
  assert (forall k y, pd_calls d !! k = Some y -> k <> c -> alter (completed_ None) c (pd_calls d) !! k = Some y) as Hf.
  { intros k y Hy Hne. by rewrite alter_lookup, decide_False. }
  assert (alter (completed_ None) c (pd_calls d) !! c = Some (completed_ None x)) as Hh by (by rewrite alter_lookup, decide_True, Hx).
  assert (forall u v, <[t := POut]> ts !! u = Some v -> v = POut \/ (u <> t /\ ts !! u = Some v)) as Hts by (intros u v [(-> & -> & _)|[? ?]]%list_lookup_insert_Some; auto).
  constructor; simpl; try done.
  - intros j y Hy. rewrite (sumOver_ext _ (uses (pd_calls d) j)) by (intros th _; by apply uses_calls).
    rewrite (sumOver_insert _ _ _ _ _ Ht). simpl. rewrite (pi_refs0 _ _ Hy). lia.
  - intros p k [Hne Hk]%lookup_delete_Some. destruct (pi_preparing0 _ _ Hk) as (? & y & ? & ? & ?). split; [done|]. exists y. split; [|done]. apply Hf; [done|]. intros ->. congruence.
  - intros k y Hy Hyc. destruct (Hl _ _ Hy) as [[-> ->]|[Hne Hy']]; [done|]. destruct (pi_open0 _ _ Hy' Hyc) as (? & Hw & Hp). split; [done|]. split.
    + rewrite (sumOver_insert _ _ _ _ _ Ht). simpl. rewrite decide_False by done. lia.
    + rewrite lookup_delete_ne; [done|]. intros E. congruence.
  - intros k y j Hy Hj. destruct (Hl _ _ Hy) as [[-> ->]|[Hne Hy']]; [done|eauto].
  - intros u p k Hp. destruct (Hts _ _ Hp) as [?|[Hne Ho]]; [done|]. destruct (pi_preparer0 _ _ _ Ho) as (y & Hy & ? & ?). exists y. split; [|done]. apply Hf; [done|].
    intros ->. apply Hne. by eapply pi_one0.
  - intros u p k Hp. destruct (Hts _ _ Hp) as [?|[Hne Ho]]; [done|]. destruct (pi_waiting0 _ _ _ Ho) as (y & Hy & ?). destruct (decide (k = c)) as [->|Hk].
    + exists (completed_ None x). split; [done|]. simpl. congruence.
    + exists y. auto.
  - intros u p k Hp. destruct (Hts _ _ Hp) as [?|[Hne Ho]]; [done|eauto].
  - intros u v p p' k Hx1 Hx2. destruct (Hts _ _ Hx1) as [?|[_ Ho1]]; [done|]. destruct (Hts _ _ Hx2) as [?|[_ Ho2]]; [done|eauto].
Qed.

(** ** A statement is prepared *)

Definition added (keep : bool) (q : string) (c : nat) (waiters : Z) (d : PreparedDB) : PreparedDB :=
  let e := length (pd_entries d) in
  let d := set_entries (pd_entries d ++ [mkEntry q waiters (negb keep) 0]) (onCall c (completed_ (Some e)) d) in
  let d := if keep then set_items (<[q := e]> (pd_items d)) (pd_order d ++ [q]) d else d in
  set_preparing (delete q (pd_preparing d)) d.

Lemma finish_added q c x d : pd_calls d !! c = Some x -> (forall p e, pd_items d !! p = Some e -> (e < length (pd_entries d))%nat) ->
  finishPrepareSuccessLocked q c d =
  let keep := pc_generation x =? pd_generation d in
  let dv := if keep then evictOldest d else d in (added keep q c (pc_waiters x) dv, length (pd_entries dv)).
Proof.
  intros Hx Hlt. unfold finishPrepareSuccessLocked. rewrite Hx. destruct (_ =? pd_generation d) eqn:Eg; simpl; [|done].
  assert (forall f new, evictOldest (set_entries (pd_entries d ++ [new]) (onCall c f d)) =
            set_entries (pd_entries (evictOldest d) ++ [new]) (onCall c f (evictOldest d)) /\ length (pd_entries (evictOldest d)) = length (pd_entries d)) as Hev.
  { intros f new. unfold evictOldest. simpl. destruct (_ <=? _); [|done]. destruct (pd_order d) as [|o order]; [done|].
    destruct (pd_items d !! o) as [e|] eqn:Eo; [|done]. unfold retireLocked, onEntry, onCall, set_entries; simpl. rewrite length_alter. split; [|done].
    f_equal. apply alter_app_l. by eapply Hlt. }
  destruct (Hev (completed_ (Some (length (pd_entries d)))) (mkEntry q (pc_waiters x) false 0)) as [-> Hlen]. unfold added. rewrite Hlen. done.
Qed.

Lemma added_inv keep d ts t q c x :
  prepInv d ts -> ts !! t = Some (PPreparing q c) -> pd_calls d !! c = Some x ->
  (keep = true -> Z.of_nat (length (pd_order d)) < pd_max d) ->
  prepInv (added keep q c (pc_waiters x) d) (<[t := PUsing q (length (pd_entries d))]> ts).
Proof.
  intros Hi Ht Hx Hroom. pose proof Hi as []. destruct (pi_preparer0 _ _ _ Ht) as (x' & Hx' & Hxq & Hxc). assert (x' = x) as -> by congruence. clear Hx'.
  destruct (pi_open0 _ _ Hx Hxc) as (Hxe & Hxw & Hxp). rewrite Hxq in Hxp. destruct (pi_preparing0 _ _ Hxp) as [Hnone _].
  set (e := length (pd_entries d)). set (new := mkEntry q (pc_waiters x) (negb keep) 0). set (cs := alter (completed_ (Some e)) c (pd_calls d)).
  assert (pd_entries (added keep q c (pc_waiters x) d) = pd_entries d ++ [new] /\ pd_calls (added keep q c (pc_waiters x) d) = cs /\
          pd_preparing (added keep q c (pc_waiters x) d) = delete q (pd_preparing d) /\ pd_max (added keep q c (pc_waiters x) d) = pd_max d /\
          pd_items (added keep q c (pc_waiters x) d) = (if keep then <[q := e]> (pd_items d) else pd_items d) /\
          pd_order (added keep q c (pc_waiters x) d) = (if keep then pd_order d ++ [q] else pd_order d)) as (E1 & E2 & E3 & E4 & E5 & E6) by (by destruct keep).
  assert (forall j y, (pd_entries d ++ [new]) !! j = Some y -> (j = e /\ y = new) \/ ((j < e)%nat /\ pd_entries d !! j = Some y)) as Hl.
  { intros j y. destruct (decide (j < e)%nat) as [Hlt|Hge]; [rewrite lookup_app_l by done; auto|]. rewrite lookup_app_r by lia. fold e.
    destruct (j - e)%nat eqn:E; simpl; [intros [= <-]; left; split; [lia|done]|done]. }
  assert (forall j y, pd_entries d !! j = Some y -> (pd_entries d ++ [new]) !! j = Some y) as Hf by (intros; by apply lookup_app_l_Some).
  assert ((pd_entries d ++ [new]) !! e = Some new) as Hnew by (unfold e; by rewrite list_lookup_middle).
  assert (forall k y, cs !! k = Some y -> (k = c /\ y = completed_ (Some e) x) \/ (k <> c /\ pd_calls d !! k = Some y)) as Hcl.
  { intros k y. unfold cs. rewrite alter_lookup. case_decide; [subst; rewrite Hx; intros [= <-]; by left|auto]. }
  assert (forall k, k <> c -> cs !! k = pd_calls d !! k) as Hcf by (intros; unfold cs; rewrite alter_lookup, decide_False; [done|congruence]).
  assert (cs !! c = Some (completed_ (Some e) x)) as Hch by (unfold cs; by rewrite alter_lookup, decide_True, Hx).
  assert (forall u v, <[t := PUsing q e]> ts !! u = Some v -> (u = t /\ v = PUsing q e) \/ (u <> t /\ ts !! u = Some v)) as Hts
    by (intros u v [(-> & -> & _)|[? ?]]%list_lookup_insert_Some; auto).
  assert (forall j th, j <> e -> uses cs j th = uses (pd_calls d) j th) as Hold.
  { intros j th Hj. destruct th as [| |p k|]; simpl; try done. destruct (decide (k = c)) as [->|Hk]; [|by rewrite Hcf].
    rewrite Hch, Hx. simpl. rewrite Hxe. rewrite !decide_False by congruence. done. }
  assert (sumOver (uses cs e) (<[t := PUsing q e]> ts) = pc_waiters x) as Hsum.
  { assert (forall g, sumOver g (<[t := PUsing q e]> ts) = sumOver g (<[t := POut]> ts) - g POut + g (PUsing q e)) as Hs1.
    { intros g. rewrite !(sumOver_insert g _ _ _ _ Ht). lia. }
    rewrite Hs1, Hxw. assert (sumOver (awaits c) ts = sumOver (awaits c) (<[t := POut]> ts) + 1) as ->.
    { rewrite (sumOver_insert _ _ _ _ _ Ht). simpl. rewrite decide_True by done. lia. }
    simpl. rewrite decide_True by done. rewrite (sumOver_ext (uses cs e) (awaits c)); [lia|].
    intros th (u & Hu)%list_elem_of_lookup. apply list_lookup_insert_Some in Hu as [(_ & <- & _)|[Hne Hu]]; [done|].
    destruct th as [|p k|p k|p j]; simpl; try done.
    - rewrite decide_False; [done|]. intros ->. apply Hne. symmetry. by eapply pi_one0.
    - destruct (decide (k = c)) as [->|Hk]; [rewrite Hch; simpl; by rewrite decide_True|]. rewrite Hcf by done. rewrite decide_False; [done|].
      destruct (pd_calls d !! k) as [y|] eqn:Ey; [|done]. simpl. intros Hy. destruct (pi_given0 _ _ _ Ey Hy) as (z & Hz & _). apply lookup_lt_Some in Hz. fold e in Hz. lia.
    - destruct (pi_using0 _ _ _ Hu) as (z & Hz & _). apply lookup_lt_Some in Hz. fold e in Hz. by rewrite decide_False by lia. }
  constructor; rewrite ?E1, ?E2, ?E3, ?E4, ?E5, ?E6.
  - intros j y Hy. destruct (Hl _ _ Hy) as [[-> ->]|[Hlt Hy']]; [done|]. rewrite (sumOver_ext _ (uses (pd_calls d) j)) by (intros th _; apply Hold; lia).
    rewrite (sumOver_insert _ _ _ _ _ Ht). simpl. rewrite decide_False by lia. rewrite (pi_refs0 _ _ Hy'). lia.
  - intros j y Hy. destruct (Hl _ _ Hy) as [[-> ->]|[Hlt Hy']]; [|eauto]. simpl. destruct (Z.eqb_spec (pc_waiters x) 0) as [Hz|]; [|by rewrite andb_false_r].
    exfalso. rewrite Hxw in Hz. pose proof (sumOver_zero_all _ _ _ _ (awaits_nonneg c) Hz Ht) as Hu. simpl in Hu. by rewrite decide_True in Hu.
  - intros p j Hp. assert ((p = q /\ j = e /\ keep = true) \/ pd_items d !! p = Some j) as [(-> & -> & ->)|Hp'].
    { destruct keep; [apply lookup_insert_Some in Hp as [[<- <-]|[_ ?]]; auto|auto]. }
    + by exists new.
    + destruct (pi_item0 _ _ Hp') as (y & ? & ?). exists y. auto.
  - intros j y Hy Hyr. destruct (Hl _ _ Hy) as [[-> ->]|[Hlt Hy']].
    + simpl in *. destruct keep; [by rewrite lookup_insert_eq|done].
    + specialize (pi_kept0 _ _ Hy' Hyr). destruct keep; [|done]. rewrite lookup_insert_ne; [done|]. intros E. rewrite <- E in pi_kept0. congruence.
  - destruct keep; [|done]. apply NoDup_app. split; [done|]. split; [|apply NoDup_singleton]. intros p Hp ->%list_elem_of_singleton.
    apply pi_order0 in Hp as [? Hp]. congruence.
  - intros p. destruct keep; [|done]. rewrite elem_of_app, pi_order0, list_elem_of_singleton. rewrite <- !not_eq_None_Some, lookup_insert. case_decide; naive_solver.
  - destruct keep; [|done]. right. rewrite length_app. simpl. specialize (Hroom eq_refl). lia.
  - intros p k [Hne Hk]%lookup_delete_Some. destruct (pi_preparing0 _ _ Hk) as (Hn & y & Hy & Hyq & ?). split.
    + destruct keep; [by rewrite lookup_insert_ne|done].
    + exists y. split; [|done]. rewrite Hcf; [done|]. intros ->. congruence.
  - intros k y Hy Hyc. destruct (Hcl _ _ Hy) as [[-> ->]|[Hne Hy']]; [done|]. destruct (pi_open0 _ _ Hy' Hyc) as (? & Hw & Hp). split; [done|]. split.
    + rewrite (sumOver_insert _ _ _ _ _ Ht). simpl. rewrite decide_False by congruence. lia.
    + rewrite lookup_delete_ne; [done|]. intros E. rewrite <- E in Hp. congruence.
  - intros k y j Hy Hj. destruct (Hcl _ _ Hy) as [[-> ->]|[Hne Hy']].
    + injection Hj as <-. by exists new.
    + destruct (pi_given0 _ _ _ Hy' Hj) as (z & ? & ?). exists z. auto.
  - intros u p k Hp. destruct (Hts _ _ Hp) as [[_ ?]|[Hne Ho]]; [done|]. destruct (pi_preparer0 _ _ _ Ho) as (y & Hy & ? & ?). exists y. split; [|done].
    rewrite Hcf; [done|]. intros ->. apply Hne. by eapply pi_one0.
  - intros u p k Hp. destruct (Hts _ _ Hp) as [[_ ?]|[Hne Ho]]; [done|]. destruct (pi_waiting0 _ _ _ Ho) as (y & Hy & ?). destruct (decide (k = c)) as [->|Hk].
    + exists (completed_ (Some e) x). split; [done|]. simpl. congruence.
    + exists y. by rewrite Hcf.
  - intros u p j Hp. destruct (Hts _ _ Hp) as [[_ [= -> ->]]|[Hne Ho]]; [by exists new|]. destruct (pi_using0 _ _ _ Ho) as (y & ? & ?). exists y. auto.
  - intros u v p p' k Hx1 Hx2. destruct (Hts _ _ Hx1) as [[_ ?]|[_ Ho1]]; [done|]. destruct (Hts _ _ Hx2) as [[_ ?]|[_ Ho2]]; [done|eauto].
Qed.

(** A thread moves on with what it has. *)
Lemma told_inv d ts t w w' :
  prepInv d ts -> ts !! t = Some w -> (forall j, uses (pd_calls d) j w' = uses (pd_calls d) j w) ->
  (forall c x, pd_calls d !! c = Some x -> pc_complete x = false -> awaits c w' = awaits c w) ->
  (forall q c, w' <> PPreparing q c /\ w' <> PWaiting q c) -> (forall q j, w' = PUsing q j -> exists y, pd_entries d !! j = Some y /\ pe_query y = q) ->
  prepInv d (<[t := w']> ts).
Proof.
  intros [] Ht Hu Ha Hw Hus.
  assert (forall u v, <[t := w']> ts !! u = Some v -> v = w' \/ ts !! u = Some v) as Hts by (intros u v [(-> & -> & _)|[? ?]]%list_lookup_insert_Some; auto).
  constructor; try done.
  - intros j y Hy. rewrite (sumOver_insert _ _ _ _ _ Ht), Hu, (pi_refs0 _ _ Hy). lia.
  - intros c y Hc Hco. destruct (pi_open0 _ _ Hc Hco) as (? & Hw' & ?). rewrite (sumOver_insert _ _ _ _ _ Ht), (Ha _ _ Hc Hco), Hw'. split; [done|]. split; [lia|done].
  - intros u p c Hx. destruct (Hts _ _ Hx) as [<-|?]; [by destruct (Hw p c)|eauto].
  - intros u p c Hx. destruct (Hts _ _ Hx) as [<-|?]; [by destruct (Hw p c)|eauto].
  - intros u p j Hx. destruct (Hts _ _ Hx) as [<-|?]; eauto.
  - intros u v p p' c Hx1 Hx2. apply list_lookup_insert_Some in Hx1 as [(_ & ? & _)|[Hn1 Hx1]]; [by destruct (Hw p c)|].
    apply list_lookup_insert_Some in Hx2 as [(_ & ? & _)|[Hn2 Hx2]]; [by destruct (Hw p' c)|eauto].
Qed.

(** ** The cache is closed *)

Lemma retireAll (l : list nat) : forall (es : list preparedEntry) (j : nat), NoDup l -> foldl (fun es e => alter retireEntry e es) es l !! j = if decide (j ∈ l) then retireEntry <$> es !! j else es !! j.
Proof.
  induction l as [|i l IH]; intros es j Hnd; [done|cbn [foldl]]. apply NoDup_cons in Hnd as [Hi Hnd]. rewrite IH by done.
  rewrite !alter_lookup. destruct (decide (i = j)) as [->|Hne].
  - by rewrite decide_False, decide_True by set_solver.
  - repeat case_decide; set_solver.
Qed.

Lemma close_inv d ts : prepInv d ts -> prepInv (Close d) ts.
Proof.
  intros []. set (l := (map_to_list (pd_items d)).*2).
  assert (forall e, e ∈ l <-> exists q, pd_items d !! q = Some e) as Hin.
  { intros e. unfold l. rewrite list_elem_of_fmap. split; [intros ([q e'] & -> & Hq%elem_of_map_to_list); eauto|]. intros [q Hq]. exists (q, e). split; [done|]. by apply elem_of_map_to_list. }
  assert (NoDup l) as Hnd.
  { unfold l. apply NoDup_fmap_2_strong; [|apply NoDup_map_to_list]. intros [q e] [q' e'] Hq%elem_of_map_to_list Hq'%elem_of_map_to_list. simpl. intros ->.
    destruct (pi_item0 _ _ Hq) as (x & Hx & <- & _), (pi_item0 _ _ Hq') as (y & Hy & <- & _). assert (x = y) as -> by congruence. done. }
  assert (forall j y, pd_entries (Close d) !! j = Some y -> exists x, pd_entries d !! j = Some x /\ pe_query y = pe_query x /\ pe_refs y = pe_refs x /\ pe_retired y = true /\
            pe_closes y = if pe_refs y =? 0 then 1%nat else 0%nat) as Hent.
  { intros j y. simpl. fold l. rewrite retireAll by done. case_decide as Hj.
    - destruct (pd_entries d !! j) as [x|] eqn:Hx; [|done]. intros [= <-]. exists x. apply Hin in Hj as [q Hq]. destruct (pi_item0 _ _ Hq) as (x' & Hx' & _ & Hr).
      assert (x' = x) as -> by congruence. specialize (pi_closes0 _ _ Hx). rewrite Hr in pi_closes0. simpl in pi_closes0.
      unfold retireEntry, retired, closeStmt. simpl. split; [done|]. destruct (pe_refs x =? 0) eqn:E; simpl; rewrite ?E, pi_closes0; done.
    - intros Hy. exists y. destruct (pe_retired y) eqn:Hr; [|destruct Hj; apply Hin; eauto]. split_and!; try done. by rewrite (pi_closes0 _ _ Hy), Hr. }
  assert (forall j x, pd_entries d !! j = Some x -> exists y, pd_entries (Close d) !! j = Some y /\ pe_query y = pe_query x) as Hf.
  { intros j x Hx. simpl. fold l. rewrite retireAll by done. rewrite Hx. case_decide; simpl; eexists; (split; [done|]); [|done].
    unfold retireEntry, retired, closeStmt. simpl. by destruct (_ =? 0). }
  constructor; try done.
  - intros j y Hy. destruct (Hent _ _ Hy) as (x & Hx & _ & -> & _). exact (pi_refs0 _ _ Hx).
  - intros j y Hy. destruct (Hent _ _ Hy) as (x & _ & _ & _ & -> & ->). done.
  - intros j y Hy Hr. destruct (Hent _ _ Hy) as (x & _ & _ & _ & Hr' & _). congruence.
  - constructor.
  - intros q. simpl. rewrite lookup_empty. split; [set_solver|by intros []].
  - by left.
  - intros q c Hq. destruct (pi_preparing0 _ _ Hq) as [_ ?]. done.
  - intros c x e Hc He. destruct (pi_given0 _ _ _ Hc He) as (y & Hy & ?). destruct (Hf _ _ Hy) as (y' & ? & ?). exists y'. split; [done|congruence].
  - intros t q e Ht. destruct (pi_using0 _ _ _ Ht) as (y & Hy & ?). destruct (Hf _ _ Hy) as (y' & ? & ?). exists y'. split; [done|congruence].
Qed.

(** ** Every event *)

Lemma evict_max d : pd_max (evictOldest d) = pd_max d.
Proof. unfold evictOldest. destruct (_ <=? _); [|done]. destruct (pd_order d); [done|]. by destruct (pd_items d !! _). Qed.

Lemma leave_inv d ts t q c : prepInv d ts -> ts !! t = Some (PWaiting q c) -> prepInv (leavePrepare c d) (<[t := POut]> ts).
Proof.
  intros Hi Ht. destruct (pi_waiting _ _ Hi _ _ _ Ht) as (x & Hx & Hxq). unfold leavePrepare. simpl. rewrite alter_lookup, decide_True, Hx by done. simpl.
  destruct (pc_complete x) eqn:Hco.
  - pose proof (over_inv _ _ _ _ (-1) Hi Hx Hco) as Hi'.
    assert (forall j, pc_entry x = Some j -> uses (pd_calls d) j (PWaiting q c) = 1) as Hu1 by (intros j Hj; simpl; rewrite Hx; simpl; by rewrite decide_True).
    assert (forall k, alter (addCallWaiters (-1)) c (pd_calls d) !! k ≫= pc_entry = pd_calls d !! k ≫= pc_entry) as Hent.
    { intros k. rewrite alter_lookup. case_decide; [|done]. by destruct (pd_calls d !! k). }
    assert (forall k y, alter (addCallWaiters (-1)) c (pd_calls d) !! k = Some y -> pc_complete y = false -> k <> c) as Hopen.
    { intros k y. rewrite alter_lookup. case_decide; [|congruence]. subst. rewrite Hx. intros [= <-]. simpl. congruence. }
    destruct (pc_entry x) as [e|] eqn:He.
    + destruct (pi_given _ _ Hi _ _ _ Hx He) as (y & Hy & _). eapply (release_inv _ ts t (PWaiting q c) e y); try done.
      * intros j. simpl. rewrite Hent, Hx. simpl. rewrite He. repeat case_decide; congruence.
      * intros k z Hz Hzc. simpl. rewrite decide_False; [done|]. intros <-. by apply (Hopen _ _ Hz).
      * rewrite (pi_refs _ _ Hi _ _ Hy). pose proof (sumOver_nonneg (uses (pd_calls d) e) ts (uses_nonneg _ e)) as Hn.
        destruct (decide (sumOver (uses (pd_calls d) e) ts = 0)) as [Hz|]; [|lia]. pose proof (sumOver_zero_all _ _ _ _ (uses_nonneg _ e) Hz Ht) as Hu.
        rewrite (Hu1 _ eq_refl) in Hu. lia.
    + eapply (told_inv _ _ _ (PWaiting q c)); try done.
      * intros j. simpl. rewrite Hent, Hx. simpl. rewrite He. by rewrite decide_False.
      * intros k z Hz Hzc. simpl. rewrite decide_False; [done|]. intros <-. by apply (Hopen _ _ Hz).
  - replace (match pc_entry x with Some _ => _ | None => _ end) with (onCall c (addCallWaiters (-1)) d) by (by destruct (pc_entry x)).
    destruct (pi_open _ _ Hi _ _ Hx Hco) as (He & _ & _). eapply (waiters_inv _ _ _ (PWaiting q c)); try done.
    + intros j. simpl. rewrite Hx. simpl. rewrite He. by rewrite decide_False.
    + intros k. simpl. repeat case_decide; congruence || lia.
Qed.

Lemma prepStep_inv e d ts d' ts' : 0 < pd_max d -> prepInv d ts -> prepStep e (d, ts) = Some (d', ts') -> prepInv d' ts' /\ pd_max d' = pd_max d.
Proof.
  intros Hmaxpos Hi Hs. destruct e as [t q|t ok|t|t|t|t|]; simpl in Hs; [destruct (ts !! t) as [w|] eqn:Ht; [|done]..|].
  - destruct w; try done. destruct (Z.leb_spec (pd_max d) 0); [by injection Hs as <- <-|]. unfold lookupStatement in Hs.
    destruct (pd_items d !! q) as [e|] eqn:Hq; [|destruct (pd_preparing d !! q) as [c|] eqn:Hp]; injection Hs as <- <-; (split; [|done]).
    + destruct (pi_item _ _ Hi _ _ Hq) as (x & Hx & Hxq & Hxr). pose proof (pi_closes _ _ Hi _ _ Hx) as Hc. rewrite Hxr in Hc. simpl in Hc.
      destruct (dropQuery_spec q _ (pi_nodup _ _ Hi)) as (D1 & D2 & D3). assert (q ∈ pd_order d) as Hqo by (apply (pi_order _ _ Hi); by eexists).
      assert (alter (addRefs 1) e (pd_entries d) = <[e := addRefs 1 x]> (pd_entries d)) as Halt.
      { apply list_eq. intros j. rewrite alter_lookup. case_decide; [subst; rewrite list_lookup_insert_eq by (by eapply lookup_lt_Some); by rewrite Hx|by rewrite list_lookup_insert_ne]. }
      unfold onEntry. rewrite Halt. eapply (refs_inv d ts t POut (PUsing q e) e x _ 1); try done.
      * intros j. simpl. repeat case_decide; congruence || lia.
      * intros p j [= <- <-]. by exists x.
      * simpl. rewrite Hxr. done.
      * apply NoDup_app. split; [done|]. split; [|apply NoDup_singleton]. intros p Hp ->%list_elem_of_singleton. by apply D2 in Hp as [_ ?].
      * intros p. rewrite elem_of_app, D2, list_elem_of_singleton. destruct (decide (p = q)) as [->|]; naive_solver.
      * rewrite length_app. simpl. assert (length (dropQuery q (pd_order d)) < length (pd_order d))%nat; [|lia]. unfold dropQuery. apply length_filter_lt with q; [done|tauto].
    + destruct (pi_preparing _ _ Hi _ _ Hp) as (_ & x & Hx & Hxq & Hxc). destruct (pi_open _ _ Hi _ _ Hx Hxc) as (He & _ & _).
      eapply (waiters_inv _ _ _ POut); try done.
      * intros j. simpl. rewrite Hx. simpl. rewrite He. by rewrite decide_False.
      * intros k. simpl. repeat case_decide; congruence || lia.
      * by intros ? ? [= <- <-].
    + by apply new_inv.
  - destruct w as [|q c| |]; try done. destruct ok; [|injection Hs as <- <-; split; [by apply fail_inv|done]].
    destruct (pi_preparer _ _ Hi _ _ _ Ht) as (x & Hx & Hxq & Hxc).
    assert (forall p j, pd_items d !! p = Some j -> (j < length (pd_entries d))%nat) as Hlt by (intros p j Hj; destruct (pi_item _ _ Hi _ _ Hj) as (y & Hy & _); by eapply lookup_lt_Some).
    destruct (finishPrepareSuccessLocked q c d) as [d1 e] eqn:Ef. rewrite (finish_added q c x d Hx Hlt) in Ef. injection Hs as <- <-. injection Ef as <- <-.
    destruct (_ =? pd_generation d) eqn:Eg; [|split; [by apply added_inv|done]].
    destruct (evict_inv _ _ Hi) as (Hi' & Hroom & Hmax & Hcalls & _ & _ & _). split; [|by rewrite <- Hmax]. apply added_inv; [done|done|by rewrite Hcalls|]. intros _. rewrite Hmax.
    by apply Hroom.
  - destruct w as [| |q c|]; try done. destruct (pd_calls d !! c) as [x|] eqn:Hx; [|done]. destruct (pc_complete x) eqn:Hco; [|done]. injection Hs as <- <-. split; [|done].
    eapply (told_inv _ _ _ (PWaiting q c)); try done.
    + intros j. simpl. rewrite Hx. simpl. destruct (pc_entry x); simpl; repeat case_decide; congruence.
    + intros k y Hy Hyc. simpl. rewrite (decide_False (P := c = k)) by congruence. by destruct (pc_entry x).
    + intros p k. by destruct (pc_entry x).
    + intros p j Hpj. destruct (pc_entry x) as [e|] eqn:He; [|done]. injection Hpj as <- <-. destruct (pi_given _ _ Hi _ _ _ Hx He) as (y & ? & ?).
      destruct (pi_waiting _ _ Hi _ _ _ Ht) as (x' & ? & ?). exists y. split; [done|congruence].
  - destruct w as [| |q c|]; try done. injection Hs as <- <-. split; [by eapply leave_inv|]. unfold leavePrepare. simpl.
    destruct (alter _ c (pd_calls d) !! c) as [x|]; [|done]. destruct (pc_complete x), (pc_entry x); done.
  - destruct w as [| | |q e]; try done. injection Hs as <- <-. unfold failedStale. case_bool_decide; [|done]. split; [by apply retire_inv|done].
  - destruct w as [| | |q e]; try done. injection Hs as <- <-. destruct (pi_using _ _ Hi _ _ _ Ht) as (x & Hx & _). split; [|done].
    eapply (release_inv _ _ _ (PUsing q e)); try done; [|by eapply using_refs]. intros j. simpl. repeat case_decide; congruence.
  - injection Hs as <- <-. split; [by apply close_inv|done].
Qed.

Lemma prepStart_inv max n : prepInv (WithPreparedCache max) (replicate n POut).
Proof.
  assert (forall t w, replicate n POut !! t = Some w -> w = POut) as Hw by (intros t w [-> _]%lookup_replicate; done).
  constructor; simpl; try done; try (intros; by rewrite lookup_empty in * || by (exfalso; naive_solver)); try (by left).
  intros q. rewrite lookup_empty. split; [set_solver|by intros []].
Qed.

Lemma prepRun_inv es : forall d ts, 0 < pd_max d -> prepInv d ts -> prepInv (prepRun es (d, ts)).1 (prepRun es (d, ts)).2 /\ pd_max (prepRun es (d, ts)).1 = pd_max d.
Proof.
  induction es as [|e es IH]; intros d ts Hm Hi; [done|]. change (prepRun (e :: es) (d, ts)) with (prepRun es (default (d, ts) (prepStep e (d, ts)))).
  destruct (prepStep e (d, ts)) as [[d' ts']|] eqn:Hs; [|by apply IH]. destruct (prepStep_inv _ _ _ _ _ Hm Hi Hs) as [Hi' Hm']. simpl. rewrite <- Hm'. apply IH; [lia|done].
Qed.

(** Nobody uses a statement: nobody holds one, or waits for one. *)
Lemma idle_uses cs e ts : (forall t w, ts !! t = Some w -> w = POut) -> sumOver (uses cs e) ts = 0.
Proof. intros Hw. apply sumOver_zero. intros x [t Ht]%list_elem_of_lookup. by rewrite (Hw _ _ Ht). Qed.

(** ** The cache is closed *)

(** A prepare was begun at a generation there had been. *)
Definition begunBy (d : PreparedDB) : Prop := forall c x, pd_calls d !! c = Some x -> pc_generation x <= pd_generation d.

(** The cache keeps nothing, and every prepare under way was begun before it was
    closed. *)
Definition sealed (d : PreparedDB) : Prop :=
  pd_items d = ∅ /\ forall c x, pd_calls d !! c = Some x -> pc_generation x < pd_generation d.

Definition isAsk (e : prepEvent) : bool := match e with Ask _ _ => true | _ => false end.

(** What happens to the calls, the items and the generation. *)
Lemma onCall_generation f c d k y : (forall x, pc_generation (f x) = pc_generation x) -> pd_calls (onCall c f d) !! k = Some y ->
  exists x, pd_calls d !! k = Some x /\ pc_generation y = pc_generation x.
Proof.
  intros Hf. simpl. rewrite alter_lookup. case_decide; [|by exists y]. destruct (pd_calls d !! k) as [x|]; [|done]. intros [= <-]. exists x. auto.
Qed.

Lemma evict_calls d : pd_calls (evictOldest d) = pd_calls d /\ pd_generation (evictOldest d) = pd_generation d.
Proof. unfold evictOldest. destruct (_ <=? _); [|done]. destruct (pd_order d); [done|]. by destruct (pd_items d !! _). Qed.

Lemma finish_calls q c d : let d' := (finishPrepareSuccessLocked q c d).1 in
  pd_generation d' = pd_generation d /\ forall k y, pd_calls d' !! k = Some y -> exists x, pd_calls d !! k = Some x /\ pc_generation y = pc_generation x.
Proof.
  unfold finishPrepareSuccessLocked. destruct (match pd_calls d !! c with Some _ => _ | None => _ end) as [waiters generation].
  destruct (generation =? pd_generation d); simpl.
  - destruct (evict_calls (set_entries (pd_entries d ++ [mkEntry q waiters false 0]) (onCall c (completed_ (Some (length (pd_entries d)))) d))) as [-> ->].
    split; [done|]. intros k y. by apply (onCall_generation (completed_ (Some (length (pd_entries d)))) c d).
  - split; [done|]. intros k y. by apply (onCall_generation (completed_ (Some (length (pd_entries d)))) c d).
Qed.

Lemma leave_calls c d : let d' := leavePrepare c d in pd_items d' = pd_items d /\ pd_generation d' = pd_generation d /\
  forall k y, pd_calls d' !! k = Some y -> exists x, pd_calls d !! k = Some x /\ pc_generation y = pc_generation x.
Proof.
  unfold leavePrepare. assert (forall k y, pd_calls (onCall c (addCallWaiters (-1)) d) !! k = Some y -> exists x, pd_calls d !! k = Some x /\ pc_generation y = pc_generation x) as H
    by (intros k y; by apply onCall_generation).
  destruct (pd_calls (onCall c (addCallWaiters (-1)) d) !! c) as [x|]; [|done]. by destruct (pc_complete x), (pc_entry x).
Qed.

(** What a step does to the generation and to the calls there are. *)
Lemma step_generation e d ts d' ts' : prepStep e (d, ts) = Some (d', ts') -> pd_generation d <= pd_generation d' /\
  forall k y, pd_calls d' !! k = Some y -> pc_generation y = pd_generation d \/ exists x, pd_calls d !! k = Some x /\ pc_generation y = pc_generation x.
Proof.
  intros Hs. assert (forall d0, pd_calls d0 = pd_calls d -> forall k y, pd_calls d0 !! k = Some y ->
    pc_generation y = pd_generation d \/ exists x, pd_calls d !! k = Some x /\ pc_generation y = pc_generation x) as Hsame
    by (intros d0 -> k y Hy; right; by exists y).
  destruct e as [t q|t ok|t|t|t|t|]; simpl in Hs; [destruct (ts !! t) as [w|]; [|done]..|].
  - destruct w; try done. destruct (pd_max d <=? 0); [injection Hs as <- <-; split; [lia|by apply Hsame]|]. unfold lookupStatement in Hs.
    destruct (pd_items d !! q) as [e|]; [injection Hs as <- <-; split; [simpl; lia|by apply Hsame]|]. destruct (pd_preparing d !! q) as [c|]; injection Hs as <- <-; (split; [simpl; lia|]).
    + intros k y Hy. right. by apply (onCall_generation _ c d) in Hy.
    + intros k y [Hy|[_ Hy]]%lookup_app_Some; [right; by exists y|]. left. destruct (k - _)%nat; [|done]. by injection Hy as <-.
  - destruct w as [|q c| |]; try done. destruct ok.
    + destruct (finish_calls q c d) as [Hg Hc]. destruct (finishPrepareSuccessLocked q c d) as [d1 e]. injection Hs as <- <-. simpl in *. split; [lia|auto].
    + injection Hs as <- <-. split; [simpl; lia|]. intros k y Hy. right. by apply (onCall_generation (completed_ None) c d).
  - destruct w as [| |q c|]; try done. destruct (pd_calls d !! c) as [x|]; [|done]. destruct (pc_complete x); [|done]. injection Hs as <- <-. split; [lia|by apply Hsame].
  - destruct w as [| |q c|]; try done. injection Hs as <- <-. destruct (leave_calls c d) as (_ & Hg & Hc). split; [lia|auto].
  - destruct w as [| | |q e]; try done. injection Hs as <- <-. unfold failedStale. case_bool_decide; (split; [simpl; lia|by apply Hsame]).
  - destruct w as [| | |q e]; try done. injection Hs as <- <-. split; [simpl; lia|by apply Hsame].
  - injection Hs as <- <-. split; [simpl; lia|by apply Hsame].
Qed.

Lemma step_begunBy e d ts d' ts' : begunBy d -> prepStep e (d, ts) = Some (d', ts') -> begunBy d'.
Proof.
  intros Hb Hs c x Hc. destruct (step_generation _ _ _ _ _ Hs) as [Hg Hx]. destruct (Hx _ _ Hc) as [->|(y & Hy & ->)]; [lia|]. specialize (Hb _ _ Hy). lia.
Qed.

Lemma step_sealed e d ts d' ts' : sealed d -> isAsk e = false -> prepInv d ts -> prepStep e (d, ts) = Some (d', ts') -> sealed d'.
Proof.
  intros [Hi Hb] Ha Hinv Hs. destruct e as [t q|t ok|t|t|t|t|]; [done| | | | | |]; simpl in Hs; [destruct (ts !! t) as [w|] eqn:Ht; [|done]..|].
  - destruct w as [|q c| |]; try done. destruct ok.
    + destruct (finish_calls q c d) as [Hg Hc]. destruct (pi_preparer _ _ Hinv _ _ _ Ht) as (x & Hx & _). specialize (Hb _ _ Hx) as Hlt.
      assert (pd_items (finishPrepareSuccessLocked q c d).1 = ∅) as Hit.
      { unfold finishPrepareSuccessLocked. rewrite Hx. rewrite (proj2 (Z.eqb_neq _ _)) by lia. done. }
      destruct (finishPrepareSuccessLocked q c d) as [d1 e]. injection Hs as <- <-. simpl in *. split; [done|].
      intros k y Hy. destruct (Hc _ _ Hy) as (z & Hz & ->). rewrite Hg. eauto.
    + injection Hs as <- <-. split; [done|]. intros k y Hy. apply (onCall_generation (completed_ None) c d) in Hy as (z & Hz & ->); [|done]. simpl. eauto.
  - destruct w as [| |q c|]; try done. destruct (pd_calls d !! c) as [x|]; [|done]. destruct (pc_complete x); [|done]. by injection Hs as <- <-.
  - destruct w as [| |q c|]; try done. injection Hs as <- <-. destruct (leave_calls c d) as (Hi' & Hg & Hc). split; [congruence|].
    intros k y Hy. destruct (Hc _ _ Hy) as (z & Hz & ->). rewrite Hg. eauto.
  - destruct w as [| | |q e]; try done. injection Hs as <- <-. unfold failedStale. rewrite Hi, lookup_empty. by rewrite bool_decide_eq_false_2.
  - destruct w as [| | |q e]; try done. by injection Hs as <- <-.
  - injection Hs as <- <-. split; [done|]. intros k y Hy. simpl in *. specialize (Hb _ _ Hy). lia.
Qed.

Lemma run_begunBy es : forall d ts, begunBy d -> begunBy (prepRun es (d, ts)).1.
Proof.
  induction es as [|e es IH]; intros d ts Hb; [done|]. change (prepRun (e :: es) (d, ts)) with (prepRun es (default (d, ts) (prepStep e (d, ts)))).
  destruct (prepStep e (d, ts)) as [[d' ts']|] eqn:Hs; [|by apply IH]. by apply IH, (step_begunBy _ _ _ _ _ Hb Hs).
Qed.

Lemma run_sealed es : forall d ts, 0 < pd_max d -> prepInv d ts -> sealed d -> forallb (fun e => negb (isAsk e)) es = true -> sealed (prepRun es (d, ts)).1.
Proof.
  induction es as [|e es IH]; intros d ts Hm Hi Hb Ha; [done|]. apply andb_true_iff in Ha as [Ha%negb_true_iff Has].
  change (prepRun (e :: es) (d, ts)) with (prepRun es (default (d, ts) (prepStep e (d, ts)))).
  destruct (prepStep e (d, ts)) as [[d' ts']|] eqn:Hs; [|by apply IH]. destruct (prepStep_inv _ _ _ _ _ Hm Hi Hs) as [Hi' Hm'].
  apply IH; [simpl; lia|done|by apply (step_sealed _ _ _ _ _ Hb Ha Hi Hs)|done].
Qed.

Lemma close_sealed d : begunBy d -> sealed (Close d).
Proof. intros Hb. split; [done|]. intros c x Hc. simpl in *. specialize (Hb _ _ Hc). lia. Qed.

(** A cache that keeps nothing has closed what nobody uses. *)
Lemma sealed_closed d ts : prepInv d ts -> sealed d -> (forall t w, ts !! t = Some w -> w = POut) ->
  forall e x, pd_entries d !! e = Some x -> pe_closes x = 1%nat.
Proof.
  intros Hi [Hs _] Hout e x Hx. rewrite (pi_closes _ _ Hi _ _ Hx), (pi_refs _ _ Hi _ _ Hx), (idle_uses _ _ _ Hout).
  destruct (pe_retired x) eqn:Hret; [done|]. pose proof (pi_kept _ _ Hi _ _ Hx Hret) as Hk. by rewrite Hs, lookup_empty in Hk.
Qed.

(** C26. The cache of prepared statements is safe under every interleaving of
    the threads that use it, with prepares that fail, contexts that end, plans
    that go stale and the cache being closed: a thread that runs a query runs a
    statement prepared from that very query, which no one has closed; every
    statement is closed at most once, and has been closed as soon as it is out
    of the cache and unused; the cache keeps at most its bound (which is not
    0: with 0 nothing is prepared), and what it keeps is open.  And once the
    cache is closed, whatever the threads were at (in the middle of a prepare,
    waiting for one, or running a statement) and whatever they do then but ask
    for another statement: when every thread is done, every statement it ever
    prepared has been closed exactly once. *)
Theorem prepared_statements_safe (max : Z) (threads : nat) (es rest : list prepEvent) :
  0 < max ->
  let '(d, ts) := prepRun es (prepStart max threads) in
  (forall t q e, ts !! t = Some (PUsing q e) -> exists x, pd_entries d !! e = Some x /\ pe_query x = q /\ pe_closes x = 0%nat) /\
  (forall e x, pd_entries d !! e = Some x -> (pe_closes x <= 1)%nat /\ (pe_retired x = true -> pe_refs x = 0 -> pe_closes x = 1%nat)) /\
  (forall q e, pd_items d !! q = Some e -> exists x, pd_entries d !! e = Some x /\ pe_query x = q /\ pe_retired x = false /\ pe_closes x = 0%nat) /\
  Z.of_nat (size (pd_items d)) <= max /\
  (forallb (fun e => negb (isAsk e)) rest = true ->
   let '(d', ts') := prepRun (CloseAll :: rest) (d, ts) in
   (forall t w, ts' !! t = Some w -> w = POut) -> forall e x, pd_entries d' !! e = Some x -> pe_closes x = 1%nat).
Proof.
  intros Hm. destruct (prepRun es (prepStart max threads)) as [d ts] eqn:Hr.
  destruct (prepRun_inv es (WithPreparedCache max) (replicate threads POut) Hm (prepStart_inv _ _)) as [Hi Hmax].
  pose proof (run_begunBy es (WithPreparedCache max) (replicate threads POut)) as Hb.
  unfold prepStart in Hr. rewrite Hr in Hi, Hmax, Hb. simpl in Hi, Hmax, Hb. split_and!.
  - intros t q e Ht. destruct (pi_using _ _ Hi _ _ _ Ht) as (x & Hx & Hq). exists x. split_and!; try done.
    pose proof (using_refs _ _ _ _ _ _ Hi Ht Hx). rewrite (pi_closes _ _ Hi _ _ Hx). rewrite (proj2 (Z.eqb_neq _ _)) by lia. by rewrite andb_false_r.
  - intros e x Hx. rewrite (pi_closes _ _ Hi _ _ Hx). split; [by destruct (_ && _); lia|]. by intros -> ->.
  - intros q e Hq. destruct (pi_item _ _ Hi _ _ Hq) as (x & Hx & ? & Hret). exists x. split_and!; try done. by rewrite (pi_closes _ _ Hi _ _ Hx), Hret.
  - assert (size (pd_items d) = length (pd_order d)) as ->.
    { rewrite <- size_dom, <- (size_list_to_set (C := gset string) (pd_order d)) by apply Hi. apply set_size_proper. intros q. rewrite elem_of_list_to_set, elem_of_dom.
      symmetry. apply Hi. }
    destruct (pi_max _ _ Hi) as [-> |?]; simpl; lia.
  - intros Ha. change (prepRun (CloseAll :: rest) (d, ts)) with (prepRun rest (Close d, ts)).
    pose proof (close_inv _ _ Hi) as Hc. assert (begunBy d) as Hbd by (apply Hb; intros c x; done).
    destruct (prepRun_inv rest (Close d) ts ltac:(simpl; lia) Hc) as [Hi' _]. pose proof (run_sealed rest (Close d) ts ltac:(simpl; lia) Hc (close_sealed _ Hbd) Ha) as Hs.
    destruct (prepRun rest (Close d, ts)) as [d' ts']. simpl in *. by apply sealed_closed.
Qed.

(** Two threads share one prepare, a third evicts the statement they use; a
    fourth is in a prepare as the cache is closed. *)
Lemma prepared_statements_safe_witness :
  let es := [Ask 0 "q"; Ask 1 "q"; Prepared 0 true; Ask 2 "r"; Prepared 2 true; Done_ 0; StalePlan 2; Told 1; Done_ 1; Done_ 2; Ask 0 "s"] in
  let '(d, ts) := prepRun (CloseAll :: [Prepared 0 true; Done_ 0]) (prepRun es (prepStart 1 3)) in
  ts = [POut; POut; POut] /\ (forall e x, pd_entries d !! e = Some x -> pe_closes x = 1%nat) /\ length (pd_entries d) = 3%nat.
Proof.
  pose proof (prepared_statements_safe 1 3 [Ask 0 "q"; Ask 1 "q"; Prepared 0 true; Ask 2 "r"; Prepared 2 true; Done_ 0; StalePlan 2; Told 1; Done_ 1; Done_ 2; Ask 0 "s"]
    [Prepared 0 true; Done_ 0] ltac:(lia)) as H.
  cbv zeta. destruct (prepRun [Ask 0 "q"; _; _; _; _; _; _; _; _; _; _] _) as [d0 ts0] eqn:E0. destruct H as (_ & _ & _ & _ & H). specialize (H eq_refl).
  destruct (prepRun _ (d0, ts0)) as [d ts] eqn:E.
  assert (ts = [POut; POut; POut] /\ length (pd_entries d) = 3%nat) as [-> Hl] by (vm_compute in E0; injection E0 as <- <-; vm_compute in E; injection E as <- <-; done).
  split; [done|]. split; [|done]. apply H. intros t w Ht%list_elem_of_lookup_2. rewrite !elem_of_cons, elem_of_nil in Ht. by destruct Ht as [?|[?|[?|[]]]].
Defined.
