(* ===== verification/Describe.v ===== *)
(** Naming and describing entities: core/tool/entity_ref.go, tools_describe.go
    and tools_describe_impl.go.

    Of an input only the decoded record is modelled, and of a result the values
    its JSON object is made of.  The authorizer's tables are empty (they change
    no decision), and no authorizer is absent. *)

From S2P Require Import Prelude GoString Value Relalg Entity EntityFacts Numbers Dialect Cost Rbac RbacTheorems Pipeline.

Section describe.
Context `{GoStd}.

(** ** References (entity_ref.go) *)

(** UsableBy, of an authorizer that answers Usable. *)
Definition UsableBy (authz : GrantAuthorizer) (role : string) (e : Entity) : bool := (Usable authz emptyMemo role (EName e)).1.

Definition visibleTo (tc : Context) : Entity -> bool := UsableBy (x_authorizer tc) (x_role tc).

Definition resolveEntityRef (tc : Context) (ref : string) : outcome string :=
  let matches := Match (x_registry tc) ref in
  match matches with
  | [e] => Done (EName e)
  | _ =>
      let visible := visibleTo tc in
      match List.filter visible matches with
      | [] => Done ref
      | [e] => Done (EName e)
      | usable => Refused (EAmbiguousEntity ref ((fun e => ShortName (x_registry tc) e (Some visible)) <$> usable))
      end
  end.

(** canonicalEntity, on the entity a tool's decoded input names; [selects] is
    whether the tool's input does. *)
Definition canonicalEntity (selects : bool) (tc : Context) (ref : string) : outcome string :=
  if negb selects || bool_decide (ref = "") then Done ref else resolveEntityRef tc ref.

Definition entityName (tc : Context) (e : Entity) (visible : Entity -> bool) : string := ShortName (x_registry tc) e (Some visible).

(** ** The listing *)

Definition describeDefaultLimit : Z := 100.
Definition describeMaxLimit : Z := 500.

Record describeInput : Type := mkDescribe {
  di_entity : string; di_search : string; di_datasource : string; di_offset : Z; di_limit : Z;
}.

Record listed : Type := mkListed { li_name : string; li_id : string; li_description : string; li_datasource : string }.
Record listing : Type := mkListing { lg_entities : list listed; lg_total : Z; lg_nextOffset : option Z }.

(** strings.Contains *)
Definition contains (s sub : string) : bool := match String.index 0 sub s with Some _ => true | None => false end.

Definition listedAs (tc : Context) (e : Entity) : listed :=
  mkListed (entityName tc e (visibleTo tc)) (EName e) (EDescription e) (DatasourceName e).

(** The filters of the loop of listEntities. *)
Definition skipped (tc : Context) (i : describeInput) (e : Entity) : bool :=
  negb (DMLTools (EMCP e)) || (negb (bool_decide (di_datasource i = "")) && negb (bool_decide (DatasourceName e = di_datasource i)))
  || negb (visibleTo tc e).

Definition unsearched (tc : Context) (i : describeInput) (e : Entity) : bool :=
  let search := lower unicode_lower (di_search i) in
  negb (bool_decide (search = "")) &&
  negb (contains (lower unicode_lower (entityName tc e (visibleTo tc) +:+ NUL +:+ EName e +:+ NUL +:+ EDescription e)) search).

Definition listStep (tc : Context) (i : describeInput) (acc : list listed * Z) (e : Entity) : list listed * Z :=
  let '(page, total) := acc in
  if skipped tc i e then acc
  else if unsearched tc i e then acc
  else ((if (di_offset i <=? total) && (Z.of_nat (length page) <? di_limit i) then page ++ [listedAs tc e] else page), total + 1).

Definition listEntities (tc : Context) (i : describeInput) : listing :=
  let '(page, total) := fold_left (listStep tc i) (entities (x_registry tc)) ([], 0) in
  let next := di_offset i + Z.of_nat (length page) in
  mkListing page total (if next <? total then Some next else None).

(** ** One entity *)

(** addReadable *)
Definition addReadable (e : Entity) (dec : Decision) (fields : gset string) : gset string :=
  fold_left (fun fields f => match AttributeByName e f with Some a => {[AName a]} ∪ fields | None => fields end)
    (concat (Scopes dec ++ [DFields dec])) fields.

Definition requestOf (tc : Context) (name : string) (action : Action) (fields read write : list string) : Request :=
  mkRequest (x_role tc) name action fields read write (x_subject tc) PNil.

Definition describeFieldRequests (tc : Context) (name : string) (action : Action) (attr : string) : list Request :=
  match action with
  | ActionCreate => [requestOf tc name action [] [] [attr]]
  | ActionUpdate => [requestOf tc name action [] [attr] []; requestOf tc name action [] [] [attr]]
  | ActionDelete => [requestOf tc name action [] [attr] []]
  | _ => [requestOf tc name action [attr] [] []]
  end.

Definition collectDescribeFields (tc : Context) (e : Entity) (action : Action) (fields : gset string) : gset string :=
  fold_left (fun fields attr =>
    if AExcluded attr then fields
    else if existsb (fun r => Allowed (authorize (x_authorizer tc) r)) (describeFieldRequests tc (EName e) action (AName attr))
         then {[AName attr]} ∪ fields else fields) (EAttributes e) fields.

Definition describeStep (tc : Context) (e : Entity) (acc : gset string * bool) (action : Action) : gset string * bool :=
  let '(fields, allowed) := acc in
  let dec := authorize (x_authorizer tc) (requestOf tc (EName e) action [] [] []) in
  if negb (Reachable dec) then acc
  else match action with
       | ActionRead | ActionAggregate => (addReadable e dec fields, true)
       | _ => (collectDescribeFields tc e action fields, true)
       end.

Definition describeFields (tc : Context) (e : Entity) : list string * bool :=
  let '(fields, allowed) := fold_left (describeStep tc e) (ActionsFor (EKind e)) (∅, false) in
  (OrderedNames e fields, allowed).

Definition VisibleKeys (e : Entity) (visible : list string) : list (list string) :=
  List.filter (fun key => forallb (fun c => bool_decide (c ∈ visible)) key) (IdentityKeys e false false).

(** title(20) is a prefix of the column title *)
Definition indexColumn (part : string) : string :=
  match cut "("%char part with
  | Some (column, rest) =>
      if negb (bool_decide (column = "")) && has_suffix part ")" then
        match parseInt64 (str_take (String.length rest - 1) rest) with Some _ => column | None => part end
      else part
  | None => part
  end.

Definition indexable (e : Entity) (visible : list string) (column : string) : bool :=
  match AttributeByName e column with
  | Some a => bool_decide (AName a = column) && negb (AExcluded a) && bool_decide (AMask a = "") && bool_decide (column ∈ visible)
  | None => false
  end.

(** The leading parts, up to the first the caller may not filter by. *)
Fixpoint leadingParts (e : Entity) (visible : list string) (parts : list string) : list string :=
  match parts with
  | [] => []
  | part :: parts =>
      let column := indexColumn part in
      if indexable e visible column then column :: leadingParts e visible parts else []
  end.

Record shownIndex : Type := mkShownIndex {
  si_name : string; si_fields : list string; si_method : string; si_unique : bool; si_partial : bool;
}.

Definition showIndex (e : Entity) (visible : list string) (ix : Index) : option shownIndex :=
  let fields := leadingParts e visible (IParts ix) in
  if bool_decide (fields = []) then None
  else Some (mkShownIndex (IName ix) fields (IMethod ix) (IUnique ix && (length fields =? length (IParts ix))%nat)
               (negb (bool_decide (IWhere ix = "")))).

Definition VisibleIndexes (e : Entity) (visible : list string) : list shownIndex := omap (showIndex e visible) (EIndexes e).

Record shownField : Type := mkShownField {
  sf_name : string; sf_alias : string; sf_description : string; sf_type : string; sf_required : bool; sf_readOnly : bool;
}.

Definition showField (e : Entity) (name : string) : option shownField :=
  match AttributeByName e name with
  | Some a => if AExcluded a then None
              else Some (mkShownField (AName a) (AAlias a) (ADescription a) (DType (ADomain a)) (Required (ADomain a)) (negb (Writable (ADomain a))))
  | None => None
  end.

Record described : Type := mkDescribed {
  dd_name : string; dd_id : string; dd_description : string; dd_datasource : string;
  dd_fields : list shownField; dd_keys : list (list string); dd_indexes : list shownIndex;
}.

Definition describeEntity (tc : Context) (name : string) : outcome described :=
  res ← resolveDMLEntity tc name;
  let e := REntity res in
  let '(names, allowed) := describeFields tc e in
  if negb allowed then Refused ENotAuthorized
  else Done (mkDescribed (entityName tc e (visibleTo tc)) (EName e) (EDescription e) (DatasourceName e)
               (omap (showField e) names) (VisibleKeys e names) (VisibleIndexes e names)).

(** DescribeTool.Run *)
Definition describeTool (tc : Context) (i : describeInput) : outcome (listing + described) :=
  if negb (bool_decide (di_entity i = "")) then d ← describeEntity tc (di_entity i); Done (inr d)
  else if (di_offset i <? 0) || (di_limit i <? 0) || (describeMaxLimit <? di_limit i) then Refused EInvalidInput
  else
    let limit := if di_limit i =? 0 then describeDefaultLimit else di_limit i in
    Done (inl (listEntities tc (mkDescribe (di_entity i) (di_search i) (di_datasource i) (di_offset i) limit))).

(** ** Hints of a refusal *)

(** readableFields, of an authorizer. *)
Definition readableFields (tc : Context) (e : Entity) : list string :=
  OrderedNames e (fold_left (fun fields action =>
    let dec := authorize (x_authorizer tc) (requestOf tc (EName e) action [] [] []) in
    if Reachable dec then addReadable e dec fields else fields) [ActionRead; ActionAggregate] ∅).

(** slices.Compact *)
Fixpoint compact (l : list string) : list string :=
  match l with
  | x :: l => match compact l with
              | y :: _ as l' => if bool_decide (x = y) then l' else x :: l'
              | [] => [x]
              end
  | [] => []
  end.

(** indexHint's names, "" when there are none. *)
Definition indexHint (e : Entity) (visible : list string) : list string :=
  compact ((fun ix => match si_fields ix with [f] => f | fs => "(" +:+ String.concat ", " fs +:+ ")" end) <$> VisibleIndexes e visible).

End describe.


(** * Naming and describing entities: references resolve to one entity the caller
    can use, a listing pages through what the caller can use, and a description
    shows exactly what some grant of the caller covers. *)

Section theorems.
Context `{GoStd}.

(** ** What a caller can use *)

Definition ownRegistry (tc : Context) : Prop := registry (x_authorizer tc) = x_registry tc.

Lemma visibleTo_spec tc e : registry_ok (x_registry tc) -> ownRegistry tc -> visibleTo tc e = usableSpec (x_authorizer tc) (x_role tc) (EName e).
Proof.
  intros Hok Hown. unfold visibleTo, UsableBy.
  pose proof (Usable_memo (x_authorizer tc) emptyMemo (x_role tc) (EName e) ltac:(by rewrite Hown) (memo_ok_empty _)) as Hu.
  destruct (Usable _ _ _ _). by destruct Hu.
Qed.

(** ** References *)

Lemma names_filter (P : Entity -> bool) (l : list Entity) : NoDup (EName <$> l) -> NoDup (EName <$> List.filter P l).
Proof.
  induction l as [|x l IH]; simpl; [done|]. intros [Hx Hl]%NoDup_cons. destruct (P x); simpl; [|auto]. constructor; [|auto].
  intros (y & Hy & Hyl)%list_elem_of_fmap. apply Hx. rewrite Hy. apply list_elem_of_fmap_2. apply list_elem_of_In, filter_In in Hyl as [? _]. by apply list_elem_of_In.
Qed.

(** The short name of an entity names it alone among those the caller sees. *)
Lemma ShortName_usable r e (visible : Entity -> bool) :
  registry_ok r -> e ∈ entities r -> canonical e -> visible e = true ->
  e ∈ Match r (ShortName r e (Some visible)) /\ List.filter visible (Match r (ShortName r e (Some visible))) = [e].
Proof.
  intros Hok He Hc Hv. assert (Match r (EName e) = [e]) as Hself by by apply Match_name.
  destruct (firstUnique_elem r (References e) (EName e) (Some visible)) as [Hin Hcase].
  { intros Hnil. pose proof (References_last e Hc) as Hl. by rewrite Hnil in Hl. }
  unfold ShortName. set (s := firstUnique r (References e) (EName e) (Some visible)) in *.
  destruct Hcase as [Hl|Hu].
  { rewrite (References_last e Hc) in Hl. injection Hl as Hl. rewrite <- Hl, Hself. simpl. rewrite Hv. split; [by left|done]. }
  unfold uniqueAmong in Hu. apply andb_true_iff in Hu as [Hn Hall]. rewrite (Match_spec r s Hok). destruct (byName r !! s) as [e'|] eqn:E.
  { rewrite (bool_decide_eq_true_2 (is_Some _)) in Hn by by eexists. simpl in Hn. case_bool_decide as Hs; [|done].
    rewrite Hs in E. apply (ok_byName r Hok) in E as [He' Hn']. rewrite <- Hn' in Hself. rewrite Match_name in Hself by done. injection Hself as ->.
    simpl. rewrite Hv. split; [by left|done]. }
  assert (e ∈ List.filter (fun e => bool_decide (s ∈ References e)) (entities r)) as Hme.
  { apply list_elem_of_In, filter_In. split; [by apply list_elem_of_In|by apply bool_decide_eq_true_2]. }
  split; [done|]. apply filter_unique; [|done..|].
  - apply names_filter, Hok.
  - intros x Hx Hxv. rewrite forallb_forall in Hall. specialize (Hall (EName x)). rewrite (ok_byRef r Hok) in Hall.
    assert (x ∈ entities r) as Hxe by (apply list_elem_of_In, filter_In in Hx as [? _]; by apply list_elem_of_In).
    rewrite (proj2 (ok_byName r Hok (EName x) x)) in Hall by done. rewrite Hxv, andb_true_r, negb_involutive in Hall.
    apply bool_decide_eq_true in Hall; [done|]. apply in_map. by apply list_elem_of_In.
Qed.

Lemma resolve_shortName tc e :
  registry_ok (x_registry tc) -> e ∈ entities (x_registry tc) -> canonical e -> visibleTo tc e = true ->
  resolveEntityRef tc (ShortName (x_registry tc) e (Some (visibleTo tc))) = Done (EName e).
Proof.
  intros Hok He Hc Hv. destruct (ShortName_usable _ e (visibleTo tc) Hok He Hc Hv) as [Hin Hf]. unfold resolveEntityRef.
  destruct (Match _ _) as [|x [|y l]] eqn:E; [by apply elem_of_nil in Hin|by apply list_elem_of_singleton in Hin as ->|]. by rewrite Hf.
Qed.

Lemma Match_registered r ref e : registry_ok r -> e ∈ Match r ref -> e ∈ entities r.
Proof.
  intros Hok. rewrite (Match_spec r ref Hok). destruct (byName r !! ref) as [e'|] eqn:E.
  - intros ->%list_elem_of_singleton. by apply (ok_byName r Hok) in E as [? _].
  - intros [? _]%list_elem_of_In%filter_In. by apply list_elem_of_In.
Qed.

Lemma ShortName_nonempty es r e visible : NewRegistry es = Ok r -> e ∈ es -> ShortName r e visible <> "".
Proof.
  intros Hreg He. assert (EName e <> "") as Hn.
  { destruct (NewRegistry_ok _ _ Hreg) as [_ Hes]. destruct (proj1 (NewRegistry_accepts es)) as [Hf _]; [by exists r|]. by eapply Forall_forall in Hf. }
  assert (forall ref, ref ∈ References e -> ref <> "") as Hall.
  { intros ref. unfold References, ReferencesOf, ID. case_decide; [by intros ->%list_elem_of_singleton|].
    repeat case_decide; rewrite !elem_of_cons, elem_of_nil; intros Href ->; destruct_or!; try done; by (destruct (EDataSource e) || idtac; destruct (ESchema e) || idtac). }
  unfold ShortName. apply Hall, firstUnique_elem. unfold References, ReferencesOf. by repeat case_decide.
Qed.

(** A reference names one entity, or says which ones it could.  A tool runs
    on the entity of the name its reference resolves to: the only one with
    that reference, or, of several, the only one the caller can use.  When the
    caller can use none of them the reference is left as it is and names
    nothing; and when it can use several the call is refused with one name for
    each, and for no other entity, and a retry with any of them resolves to
    that very entity. *)
Theorem entity_reference_sound (tc : Context) (es : list Entity) (ref : string) :
  NewRegistry es = Ok (x_registry tc) -> Forall canonical es -> ref <> "" ->
  let matches := Match (x_registry tc) ref in
  match canonicalEntity true tc ref with
  | Done name =>
      (exists e, e ∈ matches /\ name = EName e /\ Resolve (x_registry tc) name = Some (mkResolved e (visibleOf e)) /\
         (matches = [e] \/ visibleTo tc e = true /\ forall e', e' ∈ matches -> visibleTo tc e' = true -> e' = e)) \/
      (name = ref /\ (forall e, e ∈ matches -> visibleTo tc e = false) /\ Resolve (x_registry tc) ref = None)
  | Refused err =>
      exists candidates, err = EAmbiguousEntity ref candidates /\ (2 <= length candidates)%nat /\
        (forall c, c ∈ candidates <-> exists e, e ∈ matches /\ visibleTo tc e = true /\ c = ShortName (x_registry tc) e (Some (visibleTo tc))) /\
        (forall e, e ∈ matches -> visibleTo tc e = true ->
           canonicalEntity true tc (ShortName (x_registry tc) e (Some (visibleTo tc))) = Done (EName e))
  end.
Proof.
  intros Hreg Hcan Hne. cbv zeta. destruct (NewRegistry_ok _ _ Hreg) as [Hok Hes]. unfold canonicalEntity. simpl. rewrite bool_decide_eq_false_2 by done.
  pose proof (Resolve_Match (x_registry tc) ref Hok) as Hres. unfold resolveEntityRef.
  assert (forall e, e ∈ Match (x_registry tc) ref -> Resolve (x_registry tc) (EName e) = Some (mkResolved e (visibleOf e))) as Hself.
  { intros e He. rewrite Resolve_Match by done. by rewrite Match_name by (done || by eapply Match_registered). }
  assert (forall e, e ∈ List.filter (visibleTo tc) (Match (x_registry tc) ref) <-> e ∈ Match (x_registry tc) ref /\ visibleTo tc e = true) as Hfil
    by (intros e; by rewrite !list_elem_of_In, filter_In).
  destruct (List.filter (visibleTo tc) (Match (x_registry tc) ref)) as [|u [|v l]] eqn:Ef.
  - destruct (Match (x_registry tc) ref) as [|x [|y m]] eqn:Em; [right|left; exists x; split_and!; auto using list_elem_of_here|right];
      (split; [done|]); (split; [|done]); intros e He; apply not_true_iff_false; intros Hv; by eapply elem_of_nil, Hfil.
  - assert (u ∈ Match (x_registry tc) ref /\ visibleTo tc u = true) as [Hu Huv] by (apply Hfil; by left).
    destruct (Match (x_registry tc) ref) as [|x [|y m]] eqn:Em; left.
    + by apply elem_of_nil in Hu.
    + exists x. split_and!; auto using list_elem_of_here.
    + exists u. split_and!; auto. right. split; [done|]. intros e' He' Hv'. assert (e' ∈ [u]) as Hin by (by apply Hfil). by apply list_elem_of_singleton in Hin.
  - destruct (Match (x_registry tc) ref) as [|x [|y m]] eqn:Em; [done|exfalso; simpl in Ef; by destruct (visibleTo tc x)|].
    eexists. split; [done|]. split; [rewrite length_fmap; simpl; lia|]. split.
    + intros c. rewrite list_elem_of_fmap. split; [intros (e & -> & He%Hfil); exists e; naive_solver|].
      intros (e & He & Hv & ->). exists e. split; [done|]. by apply Hfil.
    + intros e He Hv. assert (e ∈ entities (x_registry tc)) as Hin by (eapply Match_registered; [done|by rewrite Em]).
      rewrite bool_decide_eq_false_2 by (eapply ShortName_nonempty; [done|by rewrite <- Hes]). apply (resolve_shortName tc e Hok Hin); [|done]. rewrite Hes in Hin. by eapply Forall_forall in Hcan.
Qed.
(** ** The listing *)

(** What a listing is of. *)
Definition listable (tc : Context) (i : describeInput) : list Entity :=
  List.filter (fun e => negb (skipped tc i e) && negb (unsearched tc i e)) (entities (x_registry tc)).

Definition pageOf (tc : Context) (i : describeInput) (es : list Entity) : list listed :=
  take (Z.to_nat (di_limit i)) (drop (Z.to_nat (di_offset i)) (listedAs tc <$> es)).

Lemma pageOf_snoc tc i es e : 0 <= di_offset i -> 0 <= di_limit i ->
  pageOf tc i (es ++ [e]) =
  if (di_offset i <=? Z.of_nat (length es)) && (Z.of_nat (length (pageOf tc i es)) <? di_limit i) then pageOf tc i es ++ [listedAs tc e] else pageOf tc i es.
Proof.
  intros Ho Hl. unfold pageOf. rewrite fmap_app. set (l := listedAs tc <$> es). assert (length l = length es) as Hlen by apply length_fmap.
  rewrite length_take, length_drop. destruct (Z.leb_spec (di_offset i) (Z.of_nat (length es))) as [H1|H1].
  - rewrite drop_app_le by lia. destruct (Z.ltb_spec (Z.of_nat (Z.to_nat (di_limit i) `min` (length l - Z.to_nat (di_offset i)))) (di_limit i)); simpl.
    + rewrite take_app_ge by (rewrite length_drop; lia). rewrite (take_ge (drop _ _)) by (rewrite length_drop; lia). f_equal.
      rewrite take_ge; [done|]. rewrite length_drop. simpl. lia.
    + rewrite take_app_le; [done|]. rewrite length_drop. lia.
  - simpl. rewrite drop_ge by (rewrite length_app; simpl; lia). by rewrite (drop_ge l) by lia.
Qed.

Lemma listFold tc i : 0 <= di_offset i -> 0 <= di_limit i -> forall l seen,
  fold_left (listStep tc i) l (pageOf tc i seen, Z.of_nat (length seen)) =
  (let all := seen ++ List.filter (fun e => negb (skipped tc i e) && negb (unsearched tc i e)) l in (pageOf tc i all, Z.of_nat (length all))).
Proof.
  intros Ho Hl. induction l as [|e l IH]; intros seen; [simpl; by rewrite app_nil_r|]. cbn [fold_left List.filter]. unfold listStep at 2.
  destruct (skipped tc i e); simpl; [apply IH|]. destruct (unsearched tc i e); simpl; [apply IH|].
  rewrite <- pageOf_snoc by done. replace (Z.of_nat (length seen) + 1) with (Z.of_nat (length (seen ++ [e]))) by (rewrite length_app; simpl; lia).
  rewrite IH. simpl. by rewrite <- !app_assoc.
Qed.

Lemma listEntities_spec tc i : 0 <= di_offset i -> 0 <= di_limit i ->
  lg_entities (listEntities tc i) = pageOf tc i (listable tc i) /\ lg_total (listEntities tc i) = Z.of_nat (length (listable tc i)) /\
  lg_nextOffset (listEntities tc i) =
    (let next := di_offset i + Z.of_nat (length (pageOf tc i (listable tc i))) in if next <? Z.of_nat (length (listable tc i)) then Some next else None).
Proof.
  intros Ho Hl. unfold listEntities. pose proof (listFold tc i Ho Hl (entities (x_registry tc)) []) as Hf. assert (pageOf tc i [] = []) as Hnil by (unfold pageOf; simpl; by rewrite drop_nil, take_nil).
  rewrite Hnil in Hf. cbn [length app] in Hf. change (Z.of_nat 0) with 0 in Hf. by rewrite Hf.
Qed.

(** Following nextOffset from page to page. *)
Fixpoint allPages (fuel : nat) (tc : Context) (i : describeInput) : option (list listed) :=
  match fuel with
  | O => None
  | S fuel =>
      match describeTool tc i with
      | Done (inl l) =>
          match lg_nextOffset l with
          | Some n => app (lg_entities l) <$> allPages fuel tc (mkDescribe (di_entity i) (di_search i) (di_datasource i) n (di_limit i))
          | None => Some (lg_entities l)
          end
      | _ => None
      end
  end.

(** The page a call asks for. *)
Definition askedPage (i : describeInput) : describeInput :=
  mkDescribe (di_entity i) (di_search i) (di_datasource i) (di_offset i) (if di_limit i =? 0 then describeDefaultLimit else di_limit i).

Lemma allPages_rest tc i : forall fuel n, di_entity i = "" -> 0 <= di_limit i <= describeMaxLimit -> 0 <= n ->
  (length (listable tc i) - Z.to_nat n < fuel)%nat ->
  allPages fuel tc (mkDescribe (di_entity i) (di_search i) (di_datasource i) n (di_limit i)) = Some (drop (Z.to_nat n) (listedAs tc <$> listable tc i)).
Proof.
  induction fuel as [|fuel IH]; intros n He Hl Hn Hf; [lia|]. set (j := mkDescribe _ _ _ n _). cbn [allPages].
  assert (describeTool tc j = Done (inl (listEntities tc (askedPage j)))) as ->.
  { unfold describeTool. subst j. simpl. rewrite He. simpl. destruct (Z.ltb_spec n 0); [lia|]. destruct (Z.ltb_spec (di_limit i) 0); [lia|].
    destruct (Z.ltb_spec describeMaxLimit (di_limit i)); [lia|]. done. }
  assert (0 < di_limit (askedPage j)) as Hpos by (subst j; simpl; unfold describeDefaultLimit; destruct (Z.eqb_spec (di_limit i) 0); lia).
  assert (listable tc (askedPage j) = listable tc i) as Hsame by done.
  destruct (listEntities_spec tc (askedPage j)) as (Hp & _ & Hx); [done|lia|]. rewrite Hx, Hp, Hsame. clear Hx Hp. cbv zeta. unfold pageOf.
  assert (di_offset (askedPage j) = n) as -> by done. set (lim := Z.to_nat (di_limit (askedPage j))). set (l := listedAs tc <$> listable tc i).
  assert (length l = length (listable tc i)) as Hlen by apply length_fmap. rewrite length_take, length_drop.
  destruct (Z.ltb_spec (n + Z.of_nat (lim `min` (length l - Z.to_nat n))) (Z.of_nat (length (listable tc i)))) as [Hlt|Hge].
  - change (mkDescribe (di_entity j) (di_search j) (di_datasource j) ?m (di_limit j)) with (mkDescribe (di_entity i) (di_search i) (di_datasource i) m (di_limit i)).
    rewrite IH by (done || lia). cbn [fmap option_fmap option_map]. f_equal. fold l. replace (Z.to_nat (n + _)) with (Z.to_nat n + lim)%nat by lia.
    rewrite <- drop_drop. by rewrite take_drop.
  - rewrite take_ge; [done|]. rewrite length_drop. lia.
Qed.

(** A listing shows what the caller can use, all of it.  Following the
    offsets a listing gives, from the first page until there is none, lists
    each entity that is served, matches the search and the datasource, and that
    the caller can use, once and in order, and nothing else; in as many calls
    as there are entities at most; and each name listed resolves, for that
    caller, to the entity listed. *)
Theorem listing_complete (tc : Context) (es : list Entity) (i : describeInput) :
  NewRegistry es = Ok (x_registry tc) -> Forall canonical es -> di_entity i = "" -> 0 <= di_limit i <= describeMaxLimit -> di_offset i = 0 ->
  allPages (S (length es)) tc i = Some (listedAs tc <$> listable tc i) /\
  (forall e, e ∈ listable tc i <-> e ∈ es /\ DMLTools (EMCP e) = true /\ (di_datasource i = "" \/ DatasourceName e = di_datasource i) /\
     visibleTo tc e = true /\ unsearched tc i e = false) /\
  NoDup (listable tc i) /\
  forall e, e ∈ listable tc i -> canonicalEntity true tc (li_name (listedAs tc e)) = Done (EName e).
Proof.
  intros Hreg Hcan He Hl Ho. destruct (NewRegistry_ok _ _ Hreg) as [Hok Hes].
  assert (forall e, e ∈ listable tc i <-> e ∈ es /\ DMLTools (EMCP e) = true /\ (di_datasource i = "" \/ DatasourceName e = di_datasource i) /\
     visibleTo tc e = true /\ unsearched tc i e = false) as Hin.
  { intros e. unfold listable. rewrite list_elem_of_In, filter_In, <- list_elem_of_In, Hes. unfold skipped.
    rewrite andb_true_iff, !negb_true_iff, !orb_false_iff, andb_false_iff, !negb_false_iff, !bool_decide_eq_true. tauto. }
  split_and!; [|done| |].
  - destruct i as [x1 x2 x3 x4 x5]. simpl in *. subst x4. pose proof (allPages_rest tc (mkDescribe x1 x2 x3 0 x5) (S (length es)) 0 He Hl ltac:(lia)) as Hp.
    simpl in Hp. rewrite drop_0 in Hp. apply Hp. unfold listable. rewrite Hes. pose proof (List.filter_length_le (fun e => negb (skipped tc (mkDescribe x1 x2 x3 0 x5) e) && negb (unsearched tc (mkDescribe x1 x2 x3 0 x5) e)) es) as Hle. lia.
  - apply (NoDup_fmap_1 EName). apply names_filter, Hok.
  - intros e (Hees & _ & _ & Hv & _)%Hin. unfold canonicalEntity. simpl. rewrite bool_decide_eq_false_2 by (by eapply ShortName_nonempty).
    apply resolve_shortName; [done|by rewrite Hes| |done]. by eapply Forall_forall in Hcan.
Qed.

(** ** What a description shows *)

(** The caller's grants for an action on an entity. *)
Definition candidatesOf (tc : Context) (e : Entity) (action : Action) : list Grant :=
  let role := NormalizeRole (x_role tc) in if decide (role = "") then [] else findCandidates (x_authorizer tc) e role action.

(** The grant lets the action use the field: read it, or write it. *)
Definition coversField (action : Action) (g : Grant) (f : string) (visible : list Attribute) : Prop :=
  match action with
  | ActionCreate => covers g [] [f] visible
  | ActionUpdate => covers g [f] [] visible \/ covers g [] [f] visible
  | _ => covers g [f] [] visible
  end.

(** No two attributes share a name or an alias, and none is without a name. *)
Definition distinctAttributes (e : Entity) : Prop :=
  forall a b, a ∈ EAttributes e -> b ∈ EAttributes e -> AName a <> "" /\ (AName a = AName b \/ AAlias b = AName a -> a = b).

Lemma authorize_own tc e action fields read write :
  registry_ok (x_registry tc) -> ownRegistry tc -> e ∈ entities (x_registry tc) ->
  authorize (x_authorizer tc) (requestOf tc (EName e) action fields read write) =
  decideWith (requestOf tc (EName e) action fields read write) (mkResolved e (visibleOf e)) (candidatesOf tc e action).
Proof. intros Hok Hown He. unfold authorize. simpl. by rewrite Hown, Resolve_Match, Match_name by done. Qed.

Lemma coveringGrants_nil grants visible : coveringGrants grants [] [] visible = grants.
Proof. apply filter_all. intros g _. unfold grantCovers. by destruct (GFields g). Qed.

Lemma length_zero {A} (l : list A) : (length l =? 0)%nat = bool_decide (l = []).
Proof. destruct l; [done|]. by rewrite bool_decide_eq_false_2. Qed.

(** An action that is not a read is allowed when a grant covers its fields. *)
Lemma allowed_covering req res grants :
  QAction req <> ActionRead ->
  Allowed (decideWith req res grants) = true <-> exists g, g ∈ grants /\ grantCovers g (requestFields req).1 (requestFields req).2 (RAttributes res) = true.
Proof.
  intros Ha. unfold decideWith, project. rewrite !length_zero. destruct (requestFields req) as [r w]. simpl.
  rewrite (bool_decide_eq_false_2 (QAction req = ActionRead)) by done. simpl.
  case_bool_decide as Hg; [simpl; split; [done|]; intros (g & Hin & _); subst; by apply elem_of_nil in Hin|].
  destruct (coveringGrants grants r w (RAttributes res)) as [|c cov] eqn:Ec.
  - simpl. split.
    + unfold deniedFieldScope. by repeat case_match.
    + intros (g & Hin & Hc). assert (g ∈ coveringGrants grants r w (RAttributes res)) as Hx by by apply coveringGrants_elem. rewrite Ec in Hx. by apply elem_of_nil in Hx.
  - simpl. split; [|by destruct (returnsRows _)]. intros _. exists c. apply coveringGrants_elem. rewrite Ec. by left.
Qed.

Lemma scope_spec visible g f : f ∈ grantProjection visible [] g <-> f ∈ AName <$> visible /\ covers g [f] [] visible.
Proof.
  unfold grantProjection, covers, projectFieldsForACL. destruct (GFields g) as [acl|]; [|simpl; tauto].
  rewrite list_elem_of_In, filter_In, <- list_elem_of_In. simpl. rewrite Forall_singleton, Forall_nil. tauto.
Qed.

Lemma Scopes_elem d scope f : f ∈ scope -> scope ∈ Scopes d <-> scope ∈ FieldScopes d.
Proof.
  intros Hf. unfold Scopes. rewrite list_elem_of_In, filter_In, <- list_elem_of_In. destruct scope; [by apply elem_of_nil in Hf|]. simpl. tauto.
Qed.

Lemma union_spec visible grants f : f ∈ unionProjection visible [] grants <-> exists g, g ∈ grants /\ f ∈ grantProjection visible [] g.
Proof.
  split; [intros Hf; by apply unionProjection_subset in Hf as [_ ?]|]. intros (g & Hg & Hf). unfold unionProjection.
  rewrite list_elem_of_In, filter_In, <- list_elem_of_In, bool_decide_eq_true, elem_of_list_to_set. split; [by eapply grantProjection_subset|].
  rewrite list_elem_of_In, in_flat_map. exists g. by rewrite <- !list_elem_of_In.
Qed.

(** A read of all fields tells what some grant projects. *)
Lemma readable_spec req res grants f :
  (QAction req = ActionRead \/ QAction req = ActionAggregate) -> QFields req = [] -> QReadFields req = [] -> QWriteFields req = [] ->
  let dec := decideWith req res grants in
  (Reachable dec = true /\ f ∈ concat (Scopes dec ++ [DFields dec])) <-> exists g, g ∈ grants /\ f ∈ grantProjection (RAttributes res) [] g.
Proof.
  intros Ha Hf Hr Hw dec. rewrite concat_app. simpl. rewrite app_nil_r, elem_of_app. split.
  - intros [_ [Hs|Hs]].
    + apply list_elem_of_In, in_concat in Hs as (scope & Hs & Hfs). apply list_elem_of_In in Hs. apply list_elem_of_In in Hfs. apply (Scopes_elem _ _ f) in Hs; [|done].
      apply decideWith_scopes in Hs as (g & ? & ->). eauto.
    + subst dec. unfold decideWith, project, requestFields in Hs. rewrite Hf, Hr, Hw in Hs. simpl in Hs. rewrite !length_zero in Hs.
      case_bool_decide; [by apply elem_of_nil in Hs|]. destruct Ha as [Ha|Ha]; rewrite Ha in Hs; simpl in Hs; rewrite coveringGrants_nil in Hs;
        try (destruct (_ && _) in Hs; [by apply elem_of_nil in Hs|]); (destruct (length grants =? 0)%nat in Hs; [unfold deniedFieldScope in Hs; simpl in Hs; by apply elem_of_nil in Hs|]);
        repeat (destruct (length _ =? 0)%nat in Hs; [by apply elem_of_nil in Hs|]); by apply union_spec.
  - intros (g & Hg & Hfg). assert (grants <> []) as Hne by (intros ->; by apply elem_of_nil in Hg).
    assert (f ∈ unionProjection (RAttributes res) [] grants) as Hu by (apply union_spec; eauto).
    assert (unionProjection (RAttributes res) [] grants <> []) as Hun by (intros E; rewrite E in Hu; by apply elem_of_nil in Hu).
    assert (dec = ambiguousFieldScope grants (RAttributes res) \/ (Allowed dec = true /\ DFields dec = unionProjection (RAttributes res) [] grants)) as Hdec.
    { subst dec. unfold decideWith, project, requestFields. rewrite Hf, Hr, Hw. simpl. rewrite !length_zero. rewrite (bool_decide_eq_false_2 (grants = [])) by done.
      rewrite (bool_decide_eq_false_2 (unionProjection _ _ _ = [])) by done. rewrite andb_false_r. destruct Ha as [Ha|Ha]; rewrite Ha; simpl; rewrite coveringGrants_nil, !length_zero.
      - rewrite (bool_decide_eq_false_2 (grants = [])) by done. rewrite (bool_decide_eq_false_2 (unionProjection _ _ _ = [])) by done.
        case_bool_decide; [by left|]. right. done.
      - rewrite (bool_decide_eq_false_2 (grants = [])) by done. by right. }
    destruct Hdec as [->|[Hal ->]]; [|split; [unfold Reachable; by rewrite Hal|by right]].
    assert (grantProjection (RAttributes res) [] g ∈ Scopes (ambiguousFieldScope grants (RAttributes res))) as Hin by (apply (Scopes_elem _ _ f); [done|]; simpl; by apply list_elem_of_fmap_2).
    split; [|left; apply list_elem_of_In, in_concat; exists (grantProjection (RAttributes res) [] g); by rewrite <- !list_elem_of_In].
    unfold Reachable. simpl. destruct (Scopes _); [by apply elem_of_nil in Hin|done].
Qed.

(** Whether something is reachable does not depend on the subject. *)
Lemma reachable_subject role name action subject p res grants :
  Reachable (decideWith (mkRequest role name action [] [] [] subject p) res grants) = Reachable (decideWith (actionRequest role name action) res grants).
Proof. unfold decideWith, project, requestFields, actionRequest. simpl. repeat (case_match; simpl); congruence || done. Qed.

(** A loop that adds names to a set. *)
Lemma fold_left_names {A} (f : gset string -> A -> gset string) (P : A -> string -> Prop) (l : list A) :
  (forall s x n, x ∈ l -> n ∈ f s x <-> n ∈ s \/ P x n) -> forall s n, n ∈ fold_left f l s <-> n ∈ s \/ exists x, x ∈ l /\ P x n.
Proof.
  induction l as [|x l IH]; intros Hf s n; simpl.
  - split; [by left|]. intros [?|(x & Hx & _)]; [done|by apply elem_of_nil in Hx].
  - rewrite IH by (intros; apply Hf; by right). rewrite Hf by by left. setoid_rewrite elem_of_cons. naive_solver.
Qed.

Lemma AttributeByName_own e a : distinctAttributes e -> a ∈ EAttributes e -> AttributeByName e (AName a) = Some a.
Proof.
  intros Hd Ha. unfold AttributeByName. rewrite decide_False by apply (Hd a a Ha Ha).
  destruct (List.find _ _) as [b|] eqn:Ef.
  - apply find_some in Ef as [Hb%list_elem_of_In Hn]. f_equal. symmetry. apply (Hd a b Ha Hb).
    apply orb_true_iff in Hn as [Hn%bool_decide_eq_true|Hn%bool_decide_eq_true]; auto.
  - apply list_elem_of_In in Ha. pose proof (find_none _ _ Ef _ Ha) as Hn. simpl in Hn. by rewrite bool_decide_eq_true_2 in Hn.
Qed.

Lemma AttributeByName_elem e n a : AttributeByName e n = Some a -> a ∈ EAttributes e.
Proof. unfold AttributeByName. case_decide; [done|]. intros [? _]%find_some. by apply list_elem_of_In. Qed.

(** The field [n] is an attribute that is shown, and some grant for the action covers it. *)
Definition grantedField (tc : Context) (e : Entity) (action : Action) (n : string) : Prop :=
  exists a g, a ∈ EAttributes e /\ AName a = n /\ AExcluded a = false /\ g ∈ candidatesOf tc e action /\ coversField action g n (visibleOf e).

Lemma visibleOf_elem e a : a ∈ visibleOf e <-> a ∈ EAttributes e /\ AExcluded a = false.
Proof. unfold visibleOf. by rewrite list_elem_of_In, filter_In, <- list_elem_of_In, negb_true_iff. Qed.

Section ofEntity.
Context (tc : Context) (e : Entity).
Context (Hok : registry_ok (x_registry tc)) (Hown : ownRegistry tc) (He : e ∈ entities (x_registry tc)) (Hd : distinctAttributes e).

Lemma addReadable_spec action s n :
  action = ActionRead \/ action = ActionAggregate ->
  let dec := authorize (x_authorizer tc) (requestOf tc (EName e) action [] [] []) in
  (n ∈ if Reachable dec then addReadable e dec s else s) <-> n ∈ s \/ grantedField tc e action n.
Proof using Hok Hown He Hd.
  intros Ha dec. pose proof (fun f => readable_spec (requestOf tc (EName e) action [] [] []) (mkResolved e (visibleOf e)) (candidatesOf tc e action) f Ha eq_refl eq_refl eq_refl) as Hr.
  simpl in Hr. rewrite <- (authorize_own tc e action [] [] [] Hok Hown He) in Hr. fold dec in Hr.
  assert (forall g, coversField action g n (visibleOf e) <-> covers g [n] [] (visibleOf e)) as Hcf by (by destruct Ha as [->| ->]).
  assert (grantedField tc e action n <-> Reachable dec = true /\ n ∈ concat (Scopes dec ++ [DFields dec])) as Hg.
  { rewrite Hr. setoid_rewrite scope_spec. unfold grantedField. setoid_rewrite Hcf. setoid_rewrite list_elem_of_fmap. setoid_rewrite visibleOf_elem. naive_solver. }
  rewrite Hg. destruct (Reachable dec) eqn:Ed; [|naive_solver]. unfold addReadable.
  rewrite (fold_left_names _ (fun f n => exists a, AttributeByName e f = Some a /\ AName a = n)).
  2:{ intros t x m _. destruct (AttributeByName e x) as [a|]; [|naive_solver]. rewrite elem_of_union, elem_of_singleton. naive_solver. }
  assert (forall f, f ∈ concat (Scopes dec ++ [DFields dec]) -> exists a, a ∈ EAttributes e /\ AName a = f) as Hattr.
  { intros f Hf. destruct (proj1 (Hr f) (conj eq_refl Hf)) as (g & _ & Hfg). apply scope_spec in Hfg as [(a & -> & Ha')%list_elem_of_fmap _]. apply visibleOf_elem in Ha' as [? _]. eauto. }
  split; (intros [?|Hx]; [by left|right]).
  - destruct Hx as (f & Hf & a & Hfa & <-). destruct (Hattr f Hf) as (a' & Ha' & <-). rewrite AttributeByName_own in Hfa by done. by injection Hfa as ->.
  - destruct Hx as [_ Hn]. exists n. split; [done|]. destruct (Hattr n Hn) as (a & Ha' & <-). exists a. split; [by apply AttributeByName_own|done].
Qed.

Lemma requests_spec action n : n <> "" -> action <> ActionRead -> action <> ActionAggregate ->
  existsb (fun r => Allowed (authorize (x_authorizer tc) r)) (describeFieldRequests tc (EName e) action n) = true <->
  exists g, g ∈ candidatesOf tc e action /\ coversField action g n (visibleOf e).
Proof using Hok Hown He.
  intros Hn Hr Hg.
  assert (forall fields read write r w, requestFields (requestOf tc (EName e) action fields read write) = (r, w) -> "" ∉ r -> "" ∉ w ->
    Allowed (authorize (x_authorizer tc) (requestOf tc (EName e) action fields read write)) = true <-> exists g, g ∈ candidatesOf tc e action /\ covers g r w (visibleOf e)) as Hcov.
  { intros fields read write r w Hreq Hnr Hnw. rewrite authorize_own, allowed_covering, Hreq by done. simpl. by setoid_rewrite (grantCovers_covers _ r w (visibleOf e) Hnr Hnw). }
  assert ("" ∉ [n]) as H1 by (rewrite list_elem_of_singleton; congruence). assert ("" ∉ @nil string) as H0 by apply not_elem_of_nil.
  destruct action; simpl; try done; rewrite ?orb_false_r, ?orb_true_iff; try (by apply Hcov).
  rewrite (Hcov [] [n] [] [n] []), (Hcov [] [] [n] [] [n]) by done. naive_solver.
Qed.

Lemma collect_spec action s n :
  action <> ActionRead -> action <> ActionAggregate ->
  (n ∈ if Reachable (authorize (x_authorizer tc) (requestOf tc (EName e) action [] [] [])) then collectDescribeFields tc e action s else s) <->
  n ∈ s \/ grantedField tc e action n.
Proof using Hok Hown He Hd.
  intros Hr Hg. assert (grantedField tc e action n -> Reachable (authorize (x_authorizer tc) (requestOf tc (EName e) action [] [] [])) = true) as Hreach.
  { intros (a & g & _ & _ & _ & Hin & _). unfold Reachable. apply orb_true_iff. left. rewrite authorize_own by done. apply allowed_covering; [done|]. exists g. split; [done|].
    unfold grantCovers, requestFields. by destruct (GFields g), action. }
  destruct (Reachable _) eqn:E; [|naive_solver]. unfold collectDescribeFields.
  rewrite (fold_left_names _ (fun a n => AName a = n /\ AExcluded a = false /\ exists g, g ∈ candidatesOf tc e action /\ coversField action g n (visibleOf e))).
  - unfold grantedField. naive_solver.
  - intros t a m Ha. destruct (AExcluded a); [naive_solver|]. pose proof (requests_spec action (AName a) (proj1 (Hd a a Ha Ha)) Hr Hg) as Hreq.
    destruct (existsb _ _); [rewrite elem_of_union, elem_of_singleton|]; naive_solver.
Qed.

Lemma describeFields_spec n : n ∈ (describeFields tc e).1 <-> exists action, action ∈ ActionsFor (EKind e) /\ grantedField tc e action n.
Proof using Hok Hown He Hd.
  assert (forall actions s b, (fold_left (describeStep tc e) actions (s, b)).1 =
    fold_left (fun s action => (describeStep tc e (s, false) action).1) actions s) as Hfst.
  { induction actions as [|action actions IH]; intros s b; [done|]. cbn [fold_left]. rewrite <- (IH _ (describeStep tc e (s, b) action).2). f_equal.
    unfold describeStep at 1. destruct (describeStep tc e (s, b) action) as [s' b'] eqn:E. unfold describeStep in *.
    destruct (Reachable _); simpl in *; [|by injection E as <- <-]. by destruct action; injection E as <- <-. }
  unfold describeFields. destruct (fold_left _ _ _) as [fields allowed] eqn:Ef. simpl.
  assert (fields = fold_left (fun s action => (describeStep tc e (s, false) action).1) (ActionsFor (EKind e)) ∅) as Hf by (by rewrite <- (Hfst _ _ false), Ef).
  assert (n ∈ fields <-> exists action, action ∈ ActionsFor (EKind e) /\ grantedField tc e action n) as Hn.
  { rewrite Hf. rewrite (fold_left_names _ (fun action n => grantedField tc e action n)); [set_solver|]. intros s action m _. unfold describeStep.
    pose proof (addReadable_spec action s m) as H1. pose proof (collect_spec action s m) as H2. simpl in H1.
    destruct (Reachable _); simpl; destruct action; naive_solver. }
  unfold OrderedNames. rewrite list_elem_of_In, filter_In, <- list_elem_of_In, bool_decide_eq_true, Hn. split; [by intros [_ ?]|]. intros Hx. split; [|done].
  destruct Hx as (_ & _ & a & _ & Ha & <- & _). by apply list_elem_of_fmap_2.
Qed.

Lemma describeFields_allowed : (describeFields tc e).2 = visibleTo tc e.
Proof using Hok Hown He.
  assert (forall actions s b, (fold_left (describeStep tc e) actions (s, b)).2 =
    b || existsb (fun action => Reachable (authorize (x_authorizer tc) (actionRequest (x_role tc) (EName e) action))) actions) as Hsnd.
  { induction actions as [|action actions IH]; intros s b; [simpl; by rewrite orb_false_r|]. cbn [fold_left existsb]. destruct (describeStep tc e (s, b) action) as [s' b'] eqn:E.
    rewrite IH, orb_assoc. f_equal. unfold describeStep in E. rewrite authorize_own in E by done. unfold requestOf in E. rewrite reachable_subject in E.
    assert (authorize (x_authorizer tc) (actionRequest (x_role tc) (EName e) action) = decideWith (actionRequest (x_role tc) (EName e) action) (mkResolved e (visibleOf e)) (candidatesOf tc e action)) as ->
      by (unfold authorize; simpl; by rewrite Hown, Resolve_Match, Match_name by done).
    destruct (Reachable _); simpl in E; [rewrite orb_true_r; by destruct action; injection E as <- <-|rewrite orb_false_r; by injection E as <- <-]. }
  rewrite visibleTo_spec by done. unfold usableSpec. rewrite Hown, Resolve_Match, Match_name by done. unfold describeFields.
  destruct (fold_left _ _ _) as [fields allowed] eqn:Ef. simpl. change allowed with ((fields, allowed).2). rewrite <- Ef. by rewrite Hsnd.
Qed.

End ofEntity.

(** A column of an index the caller may filter by: of a field shown, not
    masked. *)
Definition filterable (e : Entity) (shown : list string) (c : string) : Prop :=
  c ∈ shown /\ exists a, AttributeByName e c = Some a /\ AName a = c /\ AExcluded a = false /\ AMask a = "".

(** An index is shown by its leading columns, up to the first the caller may
    not filter by, and as unique only when they are all of it. *)
Definition shownAs (e : Entity) (shown : list string) (x : Index) (ix : shownIndex) : Prop :=
  si_name ix = IName x /\ si_method ix = IMethod x /\ si_fields ix <> [] /\
  exists rest, indexColumn <$> IParts x = si_fields ix ++ rest /\ Forall (filterable e shown) (si_fields ix) /\
    match rest with [] => True | c :: _ => ~ filterable e shown c end /\
    (si_unique ix = true <-> IUnique x = true /\ rest = []).

Lemma indexable_filterable e shown c : indexable e shown c = true <-> filterable e shown c.
Proof.
  unfold indexable, filterable. destruct (AttributeByName e c) as [a|]; [|split; [done|naive_solver]].
  rewrite !andb_true_iff, !bool_decide_eq_true, negb_true_iff. naive_solver.
Qed.

Lemma leadingParts_spec e shown parts : exists rest, indexColumn <$> parts = leadingParts e shown parts ++ rest /\
  Forall (filterable e shown) (leadingParts e shown parts) /\ match rest with [] => True | c :: _ => ~ filterable e shown c end.
Proof.
  induction parts as [|part parts (rest & Hr & Hf & Hn)]; [exists []; split_and!; [done|constructor|done]|]. simpl.
  destruct (indexable e shown (indexColumn part)) eqn:Ei.
  - exists rest. split; [simpl; f_equal; exact Hr|]. split; [|done]. constructor; [by apply indexable_filterable|done].
  - exists (indexColumn part :: (indexColumn <$> parts)). split; [done|]. split; [constructor|]. rewrite <- indexable_filterable. congruence.
Qed.

Lemma showIndex_spec e shown x ix : showIndex e shown x = Some ix -> shownAs e shown x ix.
Proof.
  unfold showIndex. case_bool_decide as Hne; [done|]. intros [= <-]. destruct (leadingParts_spec e shown (IParts x)) as (rest & Hr & Hf & Hn).
  split; [done|]. split; [done|]. split; [done|]. exists rest. split_and!; try done. simpl. apply (f_equal length) in Hr. rewrite length_fmap, length_app in Hr.
  rewrite andb_true_iff, Nat.eqb_eq, Hr. destruct rest; simpl; naive_solver lia.
Qed.

(** C15. A description shows what the caller's grants cover, and no more.  The
    registry is as NewRegistry builds it (and the authorizer's own), no field
    of an entity has an empty name, and none has the name of another, or its
    alias.  An entity that is
    described is one the caller can use.  A field is shown if and only if it
    is not excluded and some grant of the caller, for some action on the
    entity, covers reading or writing it as that action does; the keys shown
    are those of which every column is shown; and the indexes shown are those
    of the entity whose first column the caller may filter by (a field shown,
    not masked), each with its leading columns up to the first the caller may
    not filter by, unique only if these are all its columns. *)
Theorem description_exact (tc : Context) (es : list Entity) (name : string) (d : described) :
  NewRegistry es = Ok (x_registry tc) -> ownRegistry tc -> Forall distinctAttributes es -> describeEntity tc name = Done d ->
  exists res, resolveDMLEntity tc name = Done res /\ let e := REntity res in
    dd_id d = EName e /\ visibleTo tc e = true /\
    (forall n, n ∈ sf_name <$> dd_fields d <-> exists action, action ∈ ActionsFor (EKind e) /\ grantedField tc e action n) /\
    (forall k, k ∈ dd_keys d <-> k ∈ IdentityKeys e false false /\ forall c, c ∈ k -> c ∈ sf_name <$> dd_fields d) /\
    (forall ix, ix ∈ dd_indexes d -> exists x, x ∈ EIndexes e /\ shownAs e (sf_name <$> dd_fields d) x ix) /\
    (forall x part parts, x ∈ EIndexes e -> IParts x = part :: parts -> filterable e (sf_name <$> dd_fields d) (indexColumn part) ->
       exists ix, ix ∈ dd_indexes d /\ shownAs e (sf_name <$> dd_fields d) x ix).
Proof.
  intros Hreg Hown Hdist Hdesc. destruct (NewRegistry_ok _ _ Hreg) as [Hok Hes]. unfold describeEntity in Hdesc.
  apply outcome_bind_done in Hdesc as (res & Hres & Hdesc). exists res. split; [done|]. cbv zeta. set (e := REntity res) in *.
  assert (e ∈ entities (x_registry tc)) as He.
  { unfold resolveDMLEntity in Hres. destruct (Resolve _ _) as [r|] eqn:Er; [|done]. destruct (DMLTools _); [|done]. injection Hres as ->.
    pose proof (Resolve_entity _ _ _ Hok Er) as Hb. by apply (ok_byName _ Hok) in Hb as [? _]. }
  assert (distinctAttributes e) as Hd by (rewrite Hes in He; by eapply Forall_forall in Hdist).
  pose proof (describeFields_spec tc e Hok Hown He Hd) as Hf. pose proof (describeFields_allowed tc e Hok Hown He) as Hal.
  destruct (describeFields tc e) as [names allowed]. simpl in Hf, Hal. destruct allowed; [|done]. injection Hdesc as <-. simpl.
  assert (forall n, n ∈ names -> exists a, a ∈ EAttributes e /\ AName a = n /\ AExcluded a = false) as Hnames by (intros n (_ & _ & a & _ & ? & ? & ? & _)%Hf; eauto).
  assert (sf_name <$> omap (showField e) names = names) as Hshown.
  { clear Hf. induction names as [|n names IH]; [done|]. destruct (Hnames n (list_elem_of_here _ _)) as (a & Ha & <- & Hx). cbn [omap list_omap].
    unfold showField at 1. rewrite AttributeByName_own, Hx by done. simpl. f_equal. apply IH. intros m Hm. apply Hnames. by right. }
  rewrite Hshown. split_and!; try done.
  - intros k. unfold VisibleKeys. rewrite list_elem_of_In, filter_In, <- list_elem_of_In, forallb_forall. setoid_rewrite <- list_elem_of_In. by setoid_rewrite bool_decide_eq_true.
  - intros ix (x & Hx & Hix)%list_elem_of_omap. exists x. split; [done|]. by apply showIndex_spec.
  - intros x part parts Hx Hp Hf1. destruct (showIndex e names x) as [ix|] eqn:Eix.
    + exists ix. split; [by apply list_elem_of_omap; exists x|by apply showIndex_spec].
    + unfold showIndex in Eix. rewrite Hp in Eix. simpl in Eix. apply indexable_filterable in Hf1. by rewrite Hf1 in Eix.
Qed.

End theorems.

(** ** A clerk who sees some of the people of two systems *)

#[local] Existing Instance asciiStd.

Definition person (ds : string) : Entity :=
  mkEntity (ID ds "" "users") "users" "users" ds "" "" KindTable
    [mkAttr "id" "" "" (mkDomain "integer" false false false false) false "";
     mkAttr "name" "" "" (mkDomain "text" false false false false) false "";
     mkAttr "salary" "" "" (mkDomain "integer" false false false false) false "";
     mkAttr "ssn" "" "" (mkDomain "text" false false false false) true ""]
    [Entity.mkKey "pk" ["id"%string] true true false ""] [] [mkIndex "by_name" "btree" ["name(20)"%string; "salary"%string] true false ""]
    [] [] (mkMCP true false false) [] PNil [] false "" [] "" [] [] false false [] false [].

Definition systems : list Entity := [person "crm"; person "erp"; person "hr"].
Definition systemsRegistry : Registry := Eval vm_compute in match NewRegistry systems with Ok r => r | Err _ => emptyRegistry end.

Definition reads (ds : string) : string * list Grant := (ID ds "" "users", [mkGrant "g" [ActionRead] (Some (mkFP ["id"; "name"]%string [])) PNil]).
Definition reader (systems : list string) : Context :=
  mkContext systemsRegistry (NewGrantAuthorizer systemsRegistry (mkPolicy {[ "clerk"%string := list_to_map (reads <$> systems) ]} ∅ ∅)) "clerk" ∅ ∅ mysql None (Some 0%nat)
    noTightening "" (fun _ => None) (fun _ => false) (mkLimits 0 0 0 0 0 0 0 0 0 0) 0 0 0 None 0 "" false.

Lemma systems_registered : NewRegistry systems = Ok systemsRegistry.
Proof. vm_compute. reflexivity. Qed.
Lemma systems_canonical : Forall canonical systems.
Proof. repeat constructor; by intros _. Qed.
Lemma person_distinct ds : distinctAttributes (person ds).
Proof.
  intros a b Ha Hb. simpl in Ha, Hb. rewrite !elem_of_cons, elem_of_nil in Ha, Hb.
  destruct Ha as [->|[->|[->|[->|[]]]]], Hb as [->|[->|[->|[->|[]]]]]; (split; [done|]); intros [Hx|Hx]; by (discriminate Hx || reflexivity).
Qed.

(** The reader of two of three systems is askedPage which one is meant. *)
Lemma reader_ambiguous : canonicalEntity true (reader ["crm"; "erp"]%string) "users" = Refused (EAmbiguousEntity "users" ["crm.users"; "erp.users"]%string).
Proof. vm_compute. reflexivity. Qed.

Lemma entity_reference_sound_witness :
  exists e, e ∈ Match systemsRegistry "users" /\ visibleTo (reader ["crm"; "erp"]%string) e = true /\
    "erp.users"%string = ShortName systemsRegistry e (Some (visibleTo (reader ["crm"; "erp"]%string))).
Proof.
  pose proof (entity_reference_sound (reader ["crm"; "erp"]%string) systems "users" systems_registered systems_canonical ltac:(done)) as Hs.
  cbv zeta in Hs. rewrite reader_ambiguous in Hs. destruct Hs as (cs & Hcs & _ & Hall & _). injection Hcs as <-. apply Hall. right. left.
Defined.

Lemma listing_complete_witness :
  allPages 4 (reader ["crm"; "erp"]%string) (mkDescribe "" "USER" "" 0 1) =
    Some [mkListed "crm.users" "crm.users" "" "crm"; mkListed "erp.users" "erp.users" "" "erp"].
Proof.
  destruct (listing_complete (reader ["crm"; "erp"]%string) systems (mkDescribe "" "USER" "" 0 1) systems_registered systems_canonical eq_refl ltac:(vm_compute; intuition discriminate) eq_refl) as [Hp _].
  etransitivity; [exact Hp|]. vm_compute. reflexivity.
Defined.

Lemma description_exact_witness :
  exists d, describeEntity (reader ["erp"]%string) "erp.users" = Done d /\ sf_name <$> dd_fields d = ["id"; "name"]%string /\
    si_fields <$> dd_indexes d = [["name"]%string] /\
    ~ exists action, action ∈ ActionsFor KindTable /\ grantedField (reader ["erp"]%string) (person "erp") action "salary".
Proof.
  destruct (describeEntity (reader ["erp"]%string) "erp.users") as [d|] eqn:Ed; [|vm_compute in Ed; discriminate Ed]. exists d.
  assert (Forall distinctAttributes systems) as Hd by (repeat apply Forall_cons_2; apply person_distinct || apply Forall_nil_2).
  destruct (description_exact (reader ["erp"]%string) systems "erp.users" d systems_registered eq_refl Hd Ed) as (res & Hres & _ & _ & Hf & _).
  assert (REntity res = person "erp") as Hr by (vm_compute in Hres; injection Hres as <-; reflexivity).
  assert (sf_name <$> dd_fields d = ["id"; "name"]%string /\ si_fields <$> dd_indexes d = [["name"]%string]) as [H1 H2]
    by (vm_compute in Ed; injection Ed as <-; split; reflexivity).
  split; [reflexivity|]. split; [exact H1|]. split; [exact H2|]. rewrite <- Hr. change KindTable with (EKind (person "erp")). rewrite <- Hr. rewrite <- Hf, H1. rewrite !elem_of_cons, elem_of_nil. by intros [?|[?|[]]].
Defined.
