(* ===== verification/Redact.v ===== *)
(** What the audit log keeps of a call's input: core/audit/redact.go, and the
    fields core/tool/tool.go tells it are sensitive.

    The texts are encoding/json's: decoding, encoding and compacting are
    parameters, and so is SHA-256.  A decoded tree shares nothing, so writing
    it in place is rebuilding it. *)

From S2P Require Import Prelude GoString Value Relalg Entity Merge Describe.

Definition maxAuditInputBytes : nat := 4096%nat.
Definition EveryField : string := "*".
Definition stars : string := "***".
Definition quote : string := String "034" EmptyString.

Section redact.
(** the first 8 bytes of SHA-256, in hexadecimal *)
Context (sum : string -> string) (sensitive : gset string).

Definition isSensitive (f : string) : bool := bool_decide (f ∈ sensitive) || bool_decide (EveryField ∈ sensitive).

(** Keys whose object holds fields by name. *)
Definition holdsFields (k : string) : bool := bool_decide (k ∈ ["values"; "set"; "cursor"; "args"]).

(** node["field"], of an object whose sensitive fields were replaced ([mask]). *)
Definition fieldName (mask : bool) (m : gmap string json) : option string :=
  match m !! "field" with
  | Some v => if mask && isSensitive "field" then Some stars else match v with JStr f => Some f | _ => None end
  | None => None
  end.

Definition replaced (mask : bool) (m : gmap string json) (k : string) : bool :=
  (mask && isSensitive k) || (bool_decide (k = "value") && match fieldName mask m with Some f => isSensitive f | None => false end).

Definition hashed (token : string) : string := if bool_decide (token = "") then token else "sha256:" +:+ sum token.

(** redactValue; [mask] is whether the object holds fields by name. *)
Fixpoint redactValue (mask : bool) (v : json) : json :=
  match v with
  | JObj m =>
      JObj (map_fold (fun k child out =>
        <[k := if replaced mask m k then JStr (if bool_decide (k = "transaction") then hashed stars else stars)
               else match child with
                    | JStr token => JStr (if bool_decide (k = "transaction") then hashed token else token)
                    | _ => redactValue (holdsFields k) child
                    end]> out) ∅ m)
  | JList l => JList (map (redactValue false) l)
  | _ => v
  end.

Context (decode : string -> option json) (encode : json -> option string) (compact : string -> option string).

Definition redacted : string := "{" +:+ quote +:+ "redacted" +:+ quote +:+ ":true}".
Definition tooLarge : string :=
  "{" +:+ quote +:+ "redacted" +:+ quote +:+ ":true," +:+ quote +:+ "reason" +:+ quote +:+ ":" +:+ quote +:+ "input_too_large" +:+ quote +:+ "}".

Definition bounded (out : string) : string := if (maxAuditInputBytes <? String.length out)%nat then tooLarge else out.

Definition RedactInput (input : string) : string :=
  if bool_decide (sensitive = ∅) && negb (contains input (quote +:+ "transaction" +:+ quote)) && negb (contains input "\u") then
    match compact input with Some out => bounded out | None => redacted end
  else match decode input with
       | None => redacted
       | Some v => match encode (redactValue false v) with Some out => bounded out | None => redacted end
       end.

End redact.

(** sensitiveFields: of the entities a call may name, given whether it names one. *)
Definition sensitiveOf (e : Entity) : list string :=
  flat_map (fun a => if bool_decide (AMask a = "") then [] else AName a :: (if bool_decide (AAlias a = "") then [] else [AAlias a])) (EAttributes e).

Definition sensitiveFields (r : Registry) (entity : string) (namesEntity : bool) : gset string :=
  let matched := Match r entity in
  if bool_decide (matched = []) && namesEntity then {[EveryField]} else list_to_set (flat_map sensitiveOf matched).

(** ** What the log can tell *)

Section theorems.
Context (sum : string -> string) (sensitive : gset string).

(** Where a sensitive value is: a field of that name in an object of fields
    ([mask]), or the value beside its name. *)
Definition sensitivePlace (mask : bool) (m : gmap string json) (k : string) : Prop :=
  if mask then k ∈ sensitive \/ EveryField ∈ sensitive
  else k = "value" /\ exists f, m !! "field" = Some (JStr f) /\ (f ∈ sensitive \/ EveryField ∈ sensitive).

(** Two inputs that differ only in sensitive values, and in transaction tokens
    of one digest. *)
Inductive alike : bool -> json -> json -> Prop :=
  | alike_same mask v : alike mask v v
  | alike_list mask l l' : Forall2 (alike false) l l' -> alike mask (JList l) (JList l')
  | alike_obj mask m m' :
      dom m = dom m' ->
      (forall k x y, m !! k = Some x -> m' !! k = Some y -> ~ sensitivePlace mask m k ->
         (exists s t, k = "transaction" /\ x = JStr s /\ y = JStr t /\ s <> "" /\ t <> "" /\ sum s = sum t) \/ alike (holdsFields k) x y) ->
      alike mask (JObj m) (JObj m').

Lemma map_fold_insert_lookup (f : string -> json -> json) (m : gmap string json) k :
  map_fold (fun k v (out : gmap string json) => <[k := f k v]> out) ∅ m !! k = f k <$> m !! k.
Proof.
  induction m as [|i x m Hi Hfirst IH] using map_first_key_ind; [by rewrite map_fold_empty, !lookup_empty|].
  rewrite map_fold_insert_first_key by done. destruct (decide (i = k)) as [->|Hne]; [by rewrite !lookup_insert_eq|]. by rewrite !lookup_insert_ne.
Qed.

(** What becomes of a key's value. *)
Definition redactedAt (mask : bool) (m : gmap string json) (k : string) (child : json) : json :=
  if replaced sensitive mask m k then JStr (if bool_decide (k = "transaction") then hashed sum stars else stars)
  else match child with
       | JStr token => JStr (if bool_decide (k = "transaction") then hashed sum token else token)
       | _ => redactValue sum sensitive (holdsFields k) child
       end.

Lemma redactValue_obj mask m :
  exists m', redactValue sum sensitive mask (JObj m) = JObj m' /\ forall k, m' !! k = redactedAt mask m k <$> m !! k.
Proof. eexists. split; [reflexivity|]. intros k. by rewrite (map_fold_insert_lookup (redactedAt mask m)). Qed.

Lemma isSensitive_spec f : isSensitive sensitive f = true <-> f ∈ sensitive \/ EveryField ∈ sensitive.
Proof. unfold isSensitive. by rewrite orb_true_iff, !bool_decide_eq_true. Qed.

Lemma place_replaced mask m k : sensitivePlace mask m k -> replaced sensitive mask m k = true.
Proof.
  unfold sensitivePlace, replaced, fieldName. destruct mask; [intros ->%isSensitive_spec; done|]. intros [-> (f & -> & Hf%isSensitive_spec)]. simpl. by rewrite Hf.
Qed.

(** The name beside a value is not itself sensitive, so it is the same. *)
Lemma fieldName_alike mask m m' : alike mask (JObj m) (JObj m') -> fieldName sensitive mask m = fieldName sensitive mask m'.
Proof.
  intros Ha. inversion Ha as [|?|? ? ? Hd Hc]; subst; [done|]. unfold fieldName.
  destruct (m !! "field") as [x|] eqn:Ex, (m' !! "field") as [y|] eqn:Ey; [|..|done].
  - destruct mask; simpl; [destruct (isSensitive sensitive "field") eqn:Es; [done|]|];
      (destruct (Hc _ _ _ Ex Ey) as [(? & ? & ? & _)|Hxy]; [|done|by inversion Hxy]).
    + simpl. intros Hp%isSensitive_spec. congruence.
    + by intros [? _].
  - apply not_elem_of_dom in Ey. rewrite <- Hd in Ey. by apply not_elem_of_dom in Ey; rewrite Ex in Ey.
  - apply not_elem_of_dom in Ex. rewrite Hd in Ex. by apply not_elem_of_dom in Ex; rewrite Ey in Ex.
Qed.

Lemma redact_alike : forall mask v w, alike mask v w -> redactValue sum sensitive mask v = redactValue sum sensitive mask w.
Proof.
  fix IH 4. intros mask v w Ha. pose proof Ha as Ha'. destruct Ha as [mask v|mask l l' Hl|mask m m' Hd Hc]; [done| |].
  - simpl. f_equal. clear -IH Hl. induction Hl as [|x y l l' Hx Hl IHl]; [done|]. simpl. f_equal; [by apply IH|done].
  - destruct (redactValue_obj mask m) as (r & -> & Hr). destruct (redactValue_obj mask m') as (r' & -> & Hr'). f_equal. apply map_eq. intros k. rewrite Hr, Hr'.
    destruct (m !! k) as [x|] eqn:Ex, (m' !! k) as [y|] eqn:Ey; simpl; [|..|done].
    2:{ apply not_elem_of_dom in Ey. rewrite <- Hd in Ey. by apply not_elem_of_dom in Ey; rewrite Ex in Ey. }
    2:{ apply not_elem_of_dom in Ex. rewrite Hd in Ex. by apply not_elem_of_dom in Ex; rewrite Ey in Ex. }
    f_equal. unfold redactedAt. assert (replaced sensitive mask m' k = replaced sensitive mask m k) as -> by (unfold replaced; by rewrite (fieldName_alike _ _ _ Ha')).
    destruct (replaced sensitive mask m k) eqn:Er; [done|].
    destruct (Hc k x y Ex Ey) as [(s & t & -> & -> & -> & Hs & Ht & Hst)|Hxy]; [intros Hp%place_replaced; congruence| |].
    + rewrite bool_decide_eq_true_2 by done. unfold hashed. by rewrite !bool_decide_eq_false_2, Hst by done.
    + pose proof (IH _ _ _ Hxy) as Hxy'. destruct Hxy; [done|exact Hxy'|exact Hxy'].
Qed.

(** Some object of the value has the key. *)
Inductive hasKey (key : string) : json -> Prop :=
  | key_here m : is_Some (m !! key) -> hasKey key (JObj m)
  | key_under m k x : m !! k = Some x -> hasKey key x -> hasKey key (JObj m)
  | key_among l x : x ∈ l -> hasKey key x -> hasKey key (JList l).

(** With nothing sensitive, values without a token are alike only when they
    are the same. *)
Lemma alike_tokenless : sensitive = ∅ -> forall mask v w, alike mask v w -> ~ hasKey "transaction" v \/ ~ hasKey "transaction" w -> v = w.
Proof.
  intros Hs. assert (forall mask m k, ~ sensitivePlace mask m k) as Hplace.
  { intros mask m k. unfold sensitivePlace. rewrite Hs. destruct mask; [set_solver|]. intros [_ (f & _ & ?)]. set_solver. }
  fix IH 4. intros mask v w Ha Hno. destruct Ha as [mask v|mask l l' Hl|mask m m' Hd Hc]; [done| |].
  - f_equal. assert (forall x y, x ∈ l -> y ∈ l' -> ~ hasKey "transaction" x \/ ~ hasKey "transaction" y) as Hxy.
    { intros x y Hx Hy. destruct Hno as [Hno|Hno]; [left|right]; intros Hk; apply Hno; by eapply key_among. }
    clear Hno. induction Hl as [|x y l l' Hx Hl IHl]; [done|]. f_equal; [apply (IH _ _ _ Hx), Hxy; by left|].
    apply IHl. intros x' y' Hx' Hy'. apply Hxy; by right.
  - f_equal. apply map_eq. intros k. destruct (m !! k) as [x|] eqn:Ex, (m' !! k) as [y|] eqn:Ey; [|..|done].
    2:{ apply not_elem_of_dom in Ey. rewrite <- Hd in Ey. by apply not_elem_of_dom in Ey; rewrite Ex in Ey. }
    2:{ apply not_elem_of_dom in Ex. rewrite Hd in Ex. by apply not_elem_of_dom in Ex; rewrite Ey in Ex. }
    f_equal. destruct (Hc k x y Ex Ey (Hplace _ _ _)) as [(s & t & -> & _)|Hxy].
    + exfalso. destruct Hno as [Hno|Hno]; apply Hno, key_here; eauto.
    + apply (IH _ _ _ Hxy). destruct Hno as [Hno|Hno]; [left|right]; intros Hk; apply Hno; by eapply key_under.
Qed.

Definition tokenKey : string := quote +:+ "transaction" +:+ quote.

(** What RFC 8259 says of the text of a value: a key of it is spelled out, or
    with the escapes \u. *)
Definition spellsKeys (decode : string -> option json) : Prop :=
  forall input v, decode input = Some v -> hasKey "transaction" v -> contains input tokenKey = true \/ contains input "\u" = true.

(** C16. The log of a call tells nothing of what is sensitive.  Two inputs of
    different values that differ only in the values of sensitive fields
    (beside the field's name in a filter, under it in values, set, cursor or
    args; any field when the entity is not known), and in transaction tokens
    of one digest, leave the same text in the audit log, also where no field
    is sensitive, whatever the encoding of JSON, given that the text of a
    value spells each key of it out or with the escapes of RFC 8259; in
    particular each such value is replaced by stars, and a token by its
    digest.  (Keys are those spelled as the tools document them: the log
    looks for no other, [redaction_case_leak].) *)
Theorem redaction_hides (decode : string -> option json) (encode : json -> option string) (compact : string -> option string)
    (input input' : string) (v v' : json) :
  spellsKeys decode -> decode input = Some v -> decode input' = Some v' -> v <> v' -> alike false v v' ->
  RedactInput sum sensitive decode encode compact input = RedactInput sum sensitive decode encode compact input' /\
  (forall mask m k x, m !! k = Some x -> sensitivePlace mask m k \/ (k = "transaction" /\ exists s, x = JStr s) ->
     exists m' y, redactValue sum sensitive mask (JObj m) = JObj m' /\ m' !! k = Some y /\
       (sensitivePlace mask m k -> y = JStr (if bool_decide (k = "transaction") then hashed sum stars else stars)) /\
       forall s, k = "transaction" -> x = JStr s -> y = JStr (hashed sum s) \/ y = JStr (hashed sum stars)).
Proof.
  intros Hsp Hd Hd' Hne Ha. split.
  - assert (forall text w, decode text = Some w -> sensitive = ∅ -> hasKey "transaction" w ->
      negb (contains text tokenKey) && negb (contains text "\u") = false) as Hslow.
    { intros text w Hw _ Hk. destruct (Hsp _ _ Hw Hk) as [-> | ->]; [done|by rewrite andb_false_r]. }
    assert (forall text w, decode text = Some w ->
      RedactInput sum sensitive decode encode compact text = match encode (redactValue sum sensitive false w) with Some out => bounded out | None => redacted end \/
      sensitive = ∅ /\ ~ hasKey "transaction" w) as Hcases.
    { intros text w Hw. unfold RedactInput. rewrite Hw. fold tokenKey. destruct (bool_decide_reflect (sensitive = ∅)) as [He|]; [|by left].
      specialize (Hslow _ _ Hw He). simpl. destruct (negb _ && negb _); [|by left]. right. split; [done|]. by intros Hk%Hslow. }
    destruct (Hcases _ _ Hd) as [-> |[He Hno]]; [|by destruct Hne; eapply alike_tokenless; eauto].
    destruct (Hcases _ _ Hd') as [-> |[He Hno]]; [|by destruct Hne; eapply alike_tokenless; eauto].
    by rewrite (redact_alike _ _ _ Ha).
  - intros mask m k x Hx Hk. destruct (redactValue_obj mask m) as (m' & Hm & Hl). exists m', (redactedAt mask m k x).
    split; [done|]. split; [by rewrite Hl, Hx|]. unfold redactedAt. split.
    + by intros ->%place_replaced.
    + intros s -> ->. destruct (replaced sensitive mask m "transaction"); rewrite bool_decide_eq_true_2 by done; auto.
Qed.
End theorems.

(** The fields of a person whose number is masked, before and after. *)
Definition created (ssn : string) : json :=
  JObj {[ "entity" := JStr "people"; "values" := JObj {[ "name" := JStr "ann"; "ssn" := JStr ssn ]}; "transaction" := JStr "tok" ]}.

(** A decoder of such inputs, which takes the number for the whole text. *)
Definition decodeCreated (text : string) : option json := if contains text tokenKey then Some (created text) else None.

Lemma decodeCreated_spells : spellsKeys decodeCreated.
Proof. intros text v Hd _. unfold decodeCreated in Hd. destruct (contains text tokenKey); [by left|done]. Qed.

Definition createdText (ssn : string) : string := tokenKey +:+ ssn.

Lemma created_alike ssn ssn' : alike (fun _ => "d") {["ssn"]} false (created ssn) (created ssn').
Proof.
  constructor; [vm_compute; reflexivity|]. intros k x y Hx Hy Hr. right. unfold created in Hx, Hy. destruct (decide (k = "values")) as [->|Hk].
  - vm_compute in Hx, Hy. injection Hx as <-. injection Hy as <-. constructor; [vm_compute; reflexivity|]. intros k x y Hx Hy Hr'.
    destruct (decide (k = "ssn")) as [->|Hk]; [destruct Hr'; left; by apply elem_of_singleton|].
    assert (x = y) as ->; [|by right; constructor]. change (({[ "name" := JStr "ann"; "ssn" := JStr ssn ]} : gmap string json) !! k = Some x) in Hx.
    change (({[ "name" := JStr "ann"; "ssn" := JStr ssn' ]} : gmap string json) !! k = Some y) in Hy. rewrite lookup_insert in Hx, Hy. case_decide; [congruence|].
    by rewrite lookup_singleton_ne in Hx.
  - assert (x = y) as ->; [|constructor]. rewrite !lookup_insert in Hx, Hy. repeat case_decide; congruence.
Qed.

Lemma redaction_hides_witness :
  redactValue (fun _ => "d") {["ssn"]} false (created "123") =
    JObj {[ "entity" := JStr "people"; "values" := JObj {[ "name" := JStr "ann"; "ssn" := JStr stars ]}; "transaction" := JStr "sha256:d" ]} /\
  RedactInput (fun _ => "d") {["ssn"]} decodeCreated (fun _ => Some "text") (fun _ => None) (createdText "123") =
  RedactInput (fun _ => "d") {["ssn"]} decodeCreated (fun _ => Some "text") (fun _ => None) (createdText "456").
Proof.
  split; [vm_compute; reflexivity|].
  apply (redaction_hides (fun _ => "d") {["ssn"]} decodeCreated (fun _ => Some "text") (fun _ => None) (createdText "123") (createdText "456")
           (created (createdText "123")) (created (createdText "456")) decodeCreated_spells eq_refl eq_refl).
  - intros Heq. apply (f_equal (fun j => match j with JObj m => m !! "values" | _ => None end)) in Heq. vm_compute in Heq. discriminate Heq.
  - apply created_alike.
Defined.

(** With no field sensitive, a token is not in the log either. *)
Example tokenless_text :
  RedactInput (fun _ => "d") ∅ decodeCreated (fun _ => Some "text") (fun t => Some t) (createdText "123") = "text" /\
  RedactInput (fun _ => "d") ∅ decodeCreated (fun _ => Some "text") (fun t => Some t) "{}" = "{}".
Proof. vm_compute. done. Qed.

(** encoding/json matches the keys of an input to a tool's without regard to
    case, and the tools read it so; the log looks for the keys as spelled: a
    sensitive value under "VALUES" or a token under "Transaction" is logged. *)
Example redaction_case_leak :
  redactValue (fun _ => "d") {["ssn"]} false (JObj {[ "VALUES" := JObj {[ "ssn" := JStr "123" ]}; "Transaction" := JStr "tok" ]}) =
  JObj {[ "VALUES" := JObj {[ "ssn" := JStr "123" ]}; "Transaction" := JStr "tok" ]}.
Proof. vm_compute. reflexivity. Qed.
