(* ===== verification/Leasing.v ===== *)
(** Scan batches and the processes that run them: x/catalog/batches.go (the
    batches of MemoryStore) and x/leasing/leasing.go.

    Times are whole microseconds, as a store keeps them.  The identifiers of
    batches and of runs, random in the code, are numbers never given twice.
    Any number of processes run, beat for, lose and take over batches; a step
    is one call of the store, or what a run does between two of them.  Calls of
    the store may fail, and may be made with their answer lost; when contexts
    end, what work returns and when heartbeats are missed are events in any
    order.  What a run does for one item is a task; the items of a batch taken
    over are requeued in any order before any is run. *)

From S2P Require Import Prelude.

(** ** The store *)

Inductive ItemState : Type := ItemPending | ItemRunning | ItemDone | ItemFailed | ItemCanceled.

#[export] Instance ItemState_eq : EqDecision ItemState.
Proof. solve_decision. Defined.

Record BatchItem : Type := mkItem {
  bi_schema : string; bi_state : ItemState; bi_error : string; bi_attempts : nat; bi_notBefore : option Z;
}.

#[export] Instance BatchItem_eq : EqDecision BatchItem.
Proof. solve_decision. Defined.

Record Batch : Type := mkBatch {
  ba_datasource : string;
  ba_startedBy : string;
  ba_requestKey : string;
  ba_owner : nat;
  ba_startedAt : Z;
  ba_finishedAt : option Z;
  ba_heartbeat : Z;
  ba_canceled : bool;
  ba_items : list BatchItem;
}.

Definition memoryBatches : Type := gmap nat Batch.

Definition BatchRetention : Z := 30 * 24 * 3600 * 1000000.

Definition finished (b : Batch) : bool := bool_decide (is_Some (ba_finishedAt b)).

Definition pruned (b other : Batch) : bool :=
  bool_decide (ba_datasource other = ba_datasource b) &&
  match ba_finishedAt other with Some at_ => at_ <? ba_startedAt b - BatchRetention | None => false end.

Definition sameRequest (b other : Batch) : bool :=
  bool_decide (ba_datasource other = ba_datasource b) && negb (bool_decide (ba_requestKey b = "")) &&
  bool_decide (ba_requestKey other = ba_requestKey b) && bool_decide (ba_startedBy other = ba_startedBy b).

Definition openBatches (datasource : string) (st : memoryBatches) : Z :=
  Z.of_nat (size (filter (fun ib : nat * Batch => ba_datasource ib.2 = datasource /\ finished ib.2 = false) st)).

(** CreateBatch: the batch there is and whether it was created, or
    ErrTooManyBatches.  The code finds a batch of the same request in the order
    of its map. *)
Definition CreateBatch (id : nat) (b : Batch) (maxOpen : Z) (st : memoryBatches) : memoryBatches * option (nat * Batch * bool) :=
  let st := filter (fun ib : nat * Batch => pruned b ib.2 = false) st in
  match List.find (fun ib => sameRequest b ib.2) (map_to_list st) with
  | Some (id', other) => (st, Some (id', other, false))
  | None => if maxOpen <=? openBatches (ba_datasource b) st then (st, None) else (<[id := b]> st, Some (id, b, true))
  end.

Definition with_owner (owner : nat) (now : Z) (b : Batch) : Batch :=
  mkBatch (ba_datasource b) (ba_startedBy b) (ba_requestKey b) owner (ba_startedAt b) (ba_finishedAt b) now (ba_canceled b) (ba_items b).
Definition with_items (items : list BatchItem) (b : Batch) : Batch :=
  mkBatch (ba_datasource b) (ba_startedBy b) (ba_requestKey b) (ba_owner b) (ba_startedAt b) (ba_finishedAt b) (ba_heartbeat b) (ba_canceled b) items.
Definition with_canceled (b : Batch) : Batch :=
  mkBatch (ba_datasource b) (ba_startedBy b) (ba_requestKey b) (ba_owner b) (ba_startedAt b) (ba_finishedAt b) (ba_heartbeat b) true (ba_items b).
Definition with_end (at_ : Z) (b : Batch) : Batch :=
  mkBatch (ba_datasource b) (ba_startedBy b) (ba_requestKey b) (ba_owner b) (ba_startedAt b) (Some at_) at_ (ba_canceled b) (ba_items b).

Definition ClaimBatch (id owner : nat) (staleBefore now : Z) (st : memoryBatches) : memoryBatches * bool :=
  match st !! id with
  | Some b =>
      if finished b || (negb (bool_decide (ba_owner b = owner)) && negb (ba_heartbeat b <? staleBefore)) then (st, false)
      else (<[id := with_owner owner now b]> st, true)
  | None => (st, false)
  end.

(** the unfinished batch while owner owns it; otherwise ErrNotOwner *)
Definition owned (id owner : nat) (st : memoryBatches) : option Batch :=
  match st !! id with
  | Some b => if negb (bool_decide (ba_owner b = owner)) || finished b then None else Some b
  | None => None
  end.

Definition itemAt (schema : string) (items : list BatchItem) : option (nat * BatchItem) := list_find (fun it => bi_schema it = schema) items.

(** MoveItem; [None] is ErrNotOwner. *)
Definition MoveItem (id owner : nat) (now : Z) (item : BatchItem) (from : ItemState) (st : memoryBatches) : memoryBatches * option bool :=
  match owned id owner st with
  | None => (st, None)
  | Some b =>
      let b := with_owner owner now b in
      match itemAt (bi_schema item) (ba_items b) with
      | Some (i, it) =>
          if bool_decide (bi_state it = from) then (<[id := with_items (<[i := item]> (ba_items b)) b]> st, Some true)
          else (<[id := b]> st, Some false)
      | None => (<[id := b]> st, Some false)
      end
  end.

Definition endedItem (it : BatchItem) : BatchItem :=
  match bi_state it with
  | ItemPending | ItemRunning => mkItem (bi_schema it) ItemCanceled (bi_error it) (bi_attempts it) (bi_notBefore it)
  | _ => it
  end.

Definition FinishBatch (id owner : nat) (at_ : Z) (st : memoryBatches) : memoryBatches * bool :=
  match owned id owner st with
  | None => (st, false)
  | Some b => (<[id := with_end at_ (with_items (endedItem <$> ba_items b) b)]> st, true)
  end.

Definition CancelBatch (id : nat) (st : memoryBatches) : memoryBatches := alter with_canceled id st.

(** ** The runs *)

Record Options : Type := mkOptions { o_Attempts : nat; o_Backoff : Z; o_Stale : Z; o_MoveTries : nat }.

(** Why an item is moved. *)
Inductive goal : Type := GRequeue | GStart | GRetry | GSettle.

(** The state move asks an item to be in. *)
Definition fromOf (g : goal) : ItemState := match g with GStart => ItemPending | _ => ItemRunning end.

Inductive taskPhase : Type :=
  | TQueued (it : BatchItem)               (** in the queue, or waiting to be *)
  | TMove (g : goal) (it : BatchItem) (try_ : nat) (failed : bool)
  | TCheck (g : goal) (it : BatchItem)     (** move's written *)
  | TWork (it : BatchItem)
  | TOver.

Record leaseTask : Type := mkTask { tk_schema : string; tk_phase : taskPhase }.

(** A run of a batch, or a claim of it not yet read. *)
Record batchRun : Type := mkRun {
  ru_batch : nat;
  ru_owner : nat;
  ru_ready : bool;                         (** its batch was read *)
  ru_lost : bool;
  ru_stopped : bool;                       (** its context ended *)
  ru_closing : bool;                       (** its process stops *)
  ru_tasks : list leaseTask;
}.

(** The processes; of what happened, which run began which attempt of which
    item, which attempts were worked on, and what work returned. *)
Record leases : Type := mkLeases {
  le_store : memoryBatches;
  le_fresh : nat;
  le_runs : list batchRun;
  le_begun : gmap (nat * string * nat) nat;
  le_worked : list (nat * string * nat);
  le_results : list (nat * string * nat * ItemState * string);
}.

Definition with_tasks (ts : list leaseTask) (r : batchRun) : batchRun :=
  mkRun (ru_batch r) (ru_owner r) (ru_ready r) (ru_lost r) (ru_stopped r) (ru_closing r) ts.
Definition lose (r : batchRun) : batchRun := mkRun (ru_batch r) (ru_owner r) (ru_ready r) true true (ru_closing r) (ru_tasks r).
Definition stop (r : batchRun) : batchRun := mkRun (ru_batch r) (ru_owner r) (ru_ready r) (ru_lost r) true (ru_closing r) (ru_tasks r).
Definition closeRun (r : batchRun) : batchRun := mkRun (ru_batch r) (ru_owner r) (ru_ready r) (ru_lost r) true true (ru_tasks r).

Definition overTask (t : leaseTask) : leaseTask := mkTask (tk_schema t) TOver.
Definition set_phase (n : nat) (p : taskPhase) (r : batchRun) : batchRun := with_tasks (alter (fun t => mkTask (tk_schema t) p) n (ru_tasks r)) r.

Definition pendingAgain (it : BatchItem) : BatchItem := mkItem (bi_schema it) ItemPending (bi_error it) (bi_attempts it) (bi_notBefore it).

(** runBatch's task of an item: a pending one is queued. *)
Definition queuedTask (it : BatchItem) : leaseTask :=
  mkTask (bi_schema it) match bi_state it with ItemPending => TQueued it | _ => TOver end.

(** The task of an item of a batch taken over: a running one is requeued
    first. *)
Definition takenTask (it : BatchItem) : leaseTask :=
  match bi_state it with
  | ItemRunning => mkTask (bi_schema it) (TMove GRequeue (pendingAgain it) 1 false)
  | _ => queuedTask it
  end.

Definition requeuing (t : leaseTask) : bool := match tk_phase t with TMove GRequeue _ _ _ | TCheck GRequeue _ => true | _ => false end.

(** What follows a move, by its answer.  A batch with an item that could not
    be requeued is let go, as a lost one is. *)
Definition moved (n : nat) (g : goal) (it : BatchItem) (ok : bool) (r : batchRun) : batchRun :=
  match g, ok with
  | GRequeue, true => set_phase n (TQueued it) r
  | GRequeue, false => with_tasks (overTask <$> ru_tasks r) (lose r)
  | GStart, true => set_phase n (TWork it) r
  | GRetry, true => set_phase n (TQueued it) r
  | _, _ => set_phase n TOver r
  end.

(** move's case of an error, and of a read that failed. *)
Definition moveLost (n : nat) (g : goal) (it : BatchItem) (r : batchRun) : batchRun := moved n g it false (lose r).

Definition startedItem (it : BatchItem) : BatchItem := mkItem (bi_schema it) ItemRunning "" (S (bi_attempts it)) None.

Inductive workResult : Type := RDone (msg : string) | RFailed (msg : string) | RCanceled (msg : string) | RStopped.

Definition stateOf (res : workResult) : option (ItemState * string) :=
  match res with
  | RDone msg => Some (ItemDone, msg) | RFailed msg => Some (ItemFailed, msg) | RCanceled msg => Some (ItemCanceled, msg) | RStopped => None
  end.

Section system.
Context (o : Options).

(** The end of runItem, once the work returned. *)
Definition afterWork (it : BatchItem) (res : workResult) (now : Z) : taskPhase :=
  match res with
  | RStopped => TOver
  | RFailed msg =>
      if (bi_attempts it <? o_Attempts o)%nat then
        TMove GRetry (mkItem (bi_schema it) ItemPending msg (bi_attempts it) (Some (now + o_Backoff o * 2 ^ (Z.of_nat (bi_attempts it) - 1)))) 1 false
      else TMove GSettle (mkItem (bi_schema it) ItemFailed msg (bi_attempts it) (bi_notBefore it)) 1 false
  | RDone msg => TMove GSettle (mkItem (bi_schema it) ItemDone msg (bi_attempts it) (bi_notBefore it)) 1 false
  | RCanceled msg => TMove GSettle (mkItem (bi_schema it) ItemCanceled msg (bi_attempts it) (bi_notBefore it)) 1 false
  end.

Inductive leaseEvent : Type :=
  | LStart (b : Batch) (maxOpen now : Z) (reply : bool)
  | LClaim (id : nat) (now : Z)                    (** claim, and its answer *)
  | LClaimLost (id : nat) (now : Z)                (** claimed, the answer lost *)
  | LRead (r : nat) (resume : bool)                (** the batch is read; resumed, or to be ended *)
  | LBegin (r n : nat)                             (** a worker takes an item *)
  | LDrop (r n : nat)                              (** its context ended *)
  | LMove (r n : nat) (now : Z)                    (** MoveItem, answered *)
  | LMoveFails (r n : nat) (now : Z) (made : bool) (** MoveItem fails, made or not *)
  | LGivesUp (r n : nat)                           (** the run was lost meanwhile *)
  | LCheck (r n : nat) (ok : bool)                 (** written, or it fails *)
  | LWorked (r n : nat) (res : workResult) (now : Z)
  | LBeat (r : nat) (now : Z) (reply : bool)
  | LStop (r : nat)                                (** the batch is seen canceled, or stopped *)
  | LClose (r : nat)                               (** the process stops *)
  | LFinish (r : nat) (now : Z)
  | LCancel (id : nat).

Definition with_store (st : memoryBatches) (s : leases) : leases := mkLeases st (le_fresh s) (le_runs s) (le_begun s) (le_worked s) (le_results s).
Definition with_run (n : nat) (r : batchRun) (s : leases) : leases :=
  mkLeases (le_store s) (le_fresh s) (<[n := r]> (le_runs s)) (le_begun s) (le_worked s) (le_results s).
Definition with_new (r : option batchRun) (s : leases) : leases :=
  mkLeases (le_store s) (S (le_fresh s)) (le_runs s ++ match r with Some r => [r] | None => [] end) (le_begun s) (le_worked s) (le_results s).
Definition worksOn (id : nat) (it : BatchItem) (s : leases) : leases :=
  mkLeases (le_store s) (le_fresh s) (le_runs s) (le_begun s) ((id, bi_schema it, bi_attempts it) :: le_worked s) (le_results s).
Definition workReturned (id : nat) (it : BatchItem) (res : workResult) (s : leases) : leases :=
  mkLeases (le_store s) (le_fresh s) (le_runs s) (le_begun s) (le_worked s)
    (match stateOf res with Some (st, msg) => [(id, bi_schema it, bi_attempts it, st, msg)] | None => [] end ++ le_results s).

(** The store's MoveItem of a run; an item moved to running begins an attempt. *)
Definition storeMove (r : batchRun) (now : Z) (g : goal) (it : BatchItem) (s : leases) : leases * option bool :=
  let '(st, answer) := MoveItem (ru_batch r) (ru_owner r) now it (fromOf g) (le_store s) in
  let begun := match g, answer with
               | GStart, Some true => <[(ru_batch r, bi_schema it, bi_attempts it) := ru_owner r]> (le_begun s)
               | _, _ => le_begun s
               end in
  (mkLeases st (le_fresh s) (le_runs s) begun (le_worked s) (le_results s), answer).

(** A move ends: the run goes on, and works when it was to start. *)
Definition moveEnds (r n : nat) (ru : batchRun) (g : goal) (it : BatchItem) (ok : bool) (s : leases) : leases :=
  let s := with_run r (moved n g it ok ru) s in
  match g, ok with GStart, true => worksOn (ru_batch ru) it s | _, _ => s end.

Definition leaseStep (e : leaseEvent) (s : leases) : option leases :=
  match e with
  | LStart b maxOpen now reply =>
      let owner := le_fresh s in
      let b := mkBatch (ba_datasource b) (ba_startedBy b) (ba_requestKey b) owner now None now false (ba_items b) in
      let '(st, got) := CreateBatch owner b maxOpen (le_store s) in
      let new := match got with
                 | Some (id, b, true) => if reply then Some (mkRun id owner true false false false (queuedTask <$> ba_items b)) else None
                 | _ => None
                 end in
      Some (with_new new (with_store st s))
  | LClaim id now =>
      let '(st, ok) := ClaimBatch id (le_fresh s) (now - o_Stale o) now (le_store s) in
      Some (with_new (if ok then Some (mkRun id (le_fresh s) false false false false []) else None) (with_store st s))
  | LClaimLost id now => Some (with_new None (with_store (ClaimBatch id (le_fresh s) (now - o_Stale o) now (le_store s)).1 s))
  | LRead n resume =>
      r ← le_runs s !! n;
      if ru_ready r then None
      else match le_store s !! ru_batch r with
           | Some b =>
               let tasks := if resume && negb (ba_canceled b) then takenTask <$> ba_items b else [] in
               Some (with_run n (mkRun (ru_batch r) (ru_owner r) true (ru_lost r) (ru_stopped r) (ru_closing r) tasks) s)
           | None => None
           end
  | LBegin n t =>
      r ← le_runs s !! n;
      match ru_tasks r !! t with
      | Some (mkTask _ (TQueued it)) =>
          if existsb requeuing (ru_tasks r) || ru_stopped r then None
          else Some (with_run n (set_phase t (TMove GStart (startedItem it) 1 false) r) s)
      | _ => None
      end
  | LDrop n t =>
      r ← le_runs s !! n;
      match ru_tasks r !! t with
      | Some (mkTask _ (TQueued it)) => if ru_stopped r then Some (with_run n (set_phase t TOver r) s) else None
      | _ => None
      end
  | LMove n t now =>
      r ← le_runs s !! n;
      match ru_tasks r !! t with
      | Some (mkTask _ (TMove g it try_ failed)) =>
          let '(s, answer) := storeMove r now g it s in
          Some match answer with
               | Some ok => if ok || negb failed then moveEnds n t r g it ok s else with_run n (set_phase t (TCheck g it) r) s
               | None => with_run n (moveLost t g it r) s
               end
      | _ => None
      end
  | LMoveFails n t now made =>
      r ← le_runs s !! n;
      match ru_tasks r !! t with
      | Some (mkTask _ (TMove g it try_ failed)) =>
          let s := if made then (storeMove r now g it s).1 else s in
          Some (with_run n (if ru_closing r || negb (try_ <? o_MoveTries o)%nat then moveLost t g it r
                            else set_phase t (TMove g it (S try_) true) r) s)
      | _ => None
      end
  | LGivesUp n t =>
      r ← le_runs s !! n;
      match ru_tasks r !! t with
      | Some (mkTask _ (TMove g it _ _)) => if ru_lost r then Some (with_run n (moved t g it false r) s) else None
      | _ => None
      end
  | LCheck n t ok =>
      r ← le_runs s !! n;
      match ru_tasks r !! t with
      | Some (mkTask _ (TCheck g it)) =>
          match (if ok then le_store s !! ru_batch r else None) with
          | Some b =>
              let made := match itemAt (bi_schema it) (ba_items b) with Some (_, got) => bool_decide (got = it) | None => false end in
              Some (moveEnds n t r g it made s)
          | None => Some (with_run n (moveLost t g it r) s)
          end
      | _ => None
      end
  | LWorked n t res now =>
      r ← le_runs s !! n;
      match ru_tasks r !! t with
      | Some (mkTask _ (TWork it)) => Some (with_run n (set_phase t (afterWork it res now) r) (workReturned (ru_batch r) it res s))
      | _ => None
      end
  | LBeat n now reply =>
      r ← le_runs s !! n;
      let '(st, ok) := ClaimBatch (ru_batch r) (ru_owner r) (now - o_Stale o) now (le_store s) in
      if negb (ru_ready r) || ru_stopped r then None
      else Some (with_store st (if reply && negb ok then with_run n (lose r) s else s))
  | LStop n => r ← le_runs s !! n; Some (with_run n (stop r) s)
  | LClose n => r ← le_runs s !! n; Some (with_run n (closeRun r) s)
  | LFinish n now =>
      r ← le_runs s !! n;
      if ru_ready r && forallb (fun t => match tk_phase t with TOver => true | _ => false end) (ru_tasks r) && negb (ru_lost r) && negb (ru_closing r)
      then Some (with_store (FinishBatch (ru_batch r) (ru_owner r) now (le_store s)).1 s)
      else None
  | LCancel id => Some (with_store (CancelBatch id (le_store s)) s)
  end.

Definition leaseRun (es : list leaseEvent) (s : leases) : leases := foldl (fun s e => default s (leaseStep e s)) s es.

Definition noLeases : leases := mkLeases ∅ 0 [] ∅ [] [].

End system.

(** ** The assumptions of the theorems *)

(** The items a batch is started with, as StartScanBatch of
    x/admin/configapp/scanbatch.go makes them: distinct schemas, none begun. *)
Definition freshItem (it : BatchItem) : bool := bool_decide (bi_state it = ItemPending).

Definition saneEvent (e : leaseEvent) : bool :=
  match e with LStart b _ _ _ => bool_decide (NoDup (bi_schema <$> ba_items b)) && forallb freshItem (ba_items b) | _ => true end.

(** A heartbeat that takes a batch back: another run owns it, and missed its
    own. *)
Definition retakes (o : Options) (e : leaseEvent) (s : leases) : bool :=
  match e with
  | LBeat n now _ =>
      match le_runs s !! n with
      | Some r =>
          match le_store s !! ru_batch r with
          | Some b => negb (bool_decide (ba_owner b = ru_owner r)) && (ba_heartbeat b <? now - o_Stale o)
          | None => false
          end
      | None => false
      end
  | _ => false
  end.

Fixpoint neverRetakes (o : Options) (es : list leaseEvent) (s : leases) : bool :=
  match es with
  | [] => true
  | e :: es => negb (retakes o e s) && neverRetakes o es (default s (leaseStep o e s))
  end.
