(* ===== verification/LeasingTheorems.v ===== *)
(** The batches of Leasing.v: what is settled stays, what is recorded was
    returned by work, and no attempt of an item is worked on twice. *)

From S2P Require Import Prelude Leasing.

(** ** What the calls of the store do to it *)

Lemma create_lookup id b maxOpen st i b' :
  (CreateBatch id b maxOpen st).1 !! i = Some b' -> (i = id /\ b' = b) \/ st !! i = Some b'.
Proof.
  unfold CreateBatch. intros H.
  assert (Hkept : forall i', filter (fun ib : nat * Batch => pruned b ib.2 = false) st !! i' = Some b' -> st !! i' = Some b')
    by (intros i' [? _]%map_lookup_filter_Some; done).
  destruct (List.find _ _) as [[? ?]|]; cbn in H; [by right; apply Hkept|].
  destruct (_ <=? _)%Z; cbn in H; [by right; apply Hkept|].
  apply lookup_insert_Some in H as [[-> ->]|[_ H]]; auto.
Qed.

Lemma claim_lookup id w stale now st i b' :
  (ClaimBatch id w stale now st).1 !! i = Some b' ->
  st !! i = Some b' \/
  (exists b, i = id /\ st !! id = Some b /\ b' = with_owner w now b /\ finished b = false /\ (ba_owner b = w \/ (ba_heartbeat b < stale)%Z)).
Proof.
  unfold ClaimBatch. destruct (st !! id) as [b|] eqn:Hid; [|by left].
  destruct (finished b) eqn:Hf; cbn; [by left|].
  destruct (bool_decide_reflect (ba_owner b = w)) as [Ho|Ho]; cbn.
  - intros [[<- <-]|[_ H]]%lookup_insert_Some; [right; eauto 10|by left].
  - destruct (_ <? _)%Z eqn:Hs; cbn; [|by left].
    intros [[<- <-]|[_ H]]%lookup_insert_Some; [|by left].
    right. exists b. repeat split; auto. right. by apply Z.ltb_lt.
Qed.

Lemma owned_Some id w st b : owned id w st = Some b <-> st !! id = Some b /\ ba_owner b = w /\ finished b = false.
Proof.
  unfold owned. destruct (st !! id) as [b0|]; [|split; [done|by intros [? _]]].
  destruct (bool_decide_reflect (ba_owner b0 = w)); cbn; [destruct (finished b0) eqn:Hf|]; cbn;
    (split; [intros [= <-]|intros ([= ->] & ? & ?)]); try done; congruence.
Qed.

Lemma finish_lookup id w at_ st i b' :
  (FinishBatch id w at_ st).1 !! i = Some b' ->
  st !! i = Some b' \/
  (exists b, i = id /\ owned id w st = Some b /\ b' = with_end at_ (with_items (endedItem <$> ba_items b) b)).
Proof.
  unfold FinishBatch. destruct (owned id w st) as [b|] eqn:Hb; [|by left]. cbn.
  intros [[<- <-]|[_ H]]%lookup_insert_Some; [right; eauto|by left].
Qed.

Lemma cancel_lookup id st i b' :
  CancelBatch id st !! i = Some b' -> exists b, st !! i = Some b /\ (b' = b \/ b' = with_canceled b).
Proof. unfold CancelBatch. intros [(-> & b & ? & ->)|[_ ?]]%lookup_alter_Some; eauto. Qed.

(** MoveItem writes where the first item of the schema is, when it is as
    expected. *)
Inductive item_written (item : BatchItem) (from : ItemState) (items : list BatchItem) : list BatchItem -> option bool -> Prop :=
  | iw_made i got :
      itemAt (bi_schema item) items = Some (i, got) -> bi_state got = from -> item_written item from items (<[i := item]> items) (Some true)
  | iw_not :
      (forall i got, itemAt (bi_schema item) items = Some (i, got) -> bi_state got <> from) -> item_written item from items items (Some false).

Lemma move_cases id w now item from st :
  match owned id w st with
  | None => MoveItem id w now item from st = (st, None)
  | Some b => exists items answer,
      MoveItem id w now item from st = (<[id := with_items items (with_owner w now b)]> st, answer) /\ item_written item from (ba_items b) items answer
  end.
Proof.
  unfold MoveItem. destruct (owned id w st) as [b|]; [|done]. cbn [ba_items with_owner].
  destruct (itemAt _ _) as [[i got]|] eqn:Hat.
  - destruct (bool_decide_reflect (bi_state got = from)).
    + eexists _, _. split; [done|]. by econstructor.
    + exists (ba_items b), (Some false). split; [by destruct b|]. constructor. intros ? ?. by rewrite Hat; intros [= <- <-].
  - exists (ba_items b), (Some false). split; [by destruct b|]. constructor. by rewrite Hat.
Qed.

Lemma itemAt_Some schema items i it :
  itemAt schema items = Some (i, it) -> items !! i = Some it /\ bi_schema it = schema.
Proof. unfold itemAt. intros (? & ? & _)%list_find_Some. done. Qed.

(** ** Settled items *)

Definition isSettled (it : BatchItem) : bool :=
  match bi_state it with ItemPending | ItemRunning => false | _ => true end.

(** What becomes of a batch: its schemas stay, what is settled stays, and once
    finished all of it stays. *)
Record keeps (b b' : Batch) : Prop := {
  ke_schemas : bi_schema <$> ba_items b' = bi_schema <$> ba_items b;
  ke_settled : forall i it, ba_items b !! i = Some it -> isSettled it = true -> ba_items b' !! i = Some it;
  ke_finished : finished b = true -> ba_items b' = ba_items b /\ ba_finishedAt b' = ba_finishedAt b /\ ba_owner b' = ba_owner b;
}.

#[export] Instance keeps_preorder : PreOrder keeps.
Proof.
  split; [by constructor|]. intros b1 b2 b3 [S1 T1 F1] [S2 T2 F2]. constructor; [congruence|auto|].
  intros H1. destruct (F1 H1) as (E1 & E2 & E3). assert (Hf : finished b2 = true) by (unfold finished in *; by rewrite E2).
  destruct (F2 Hf) as (? & ? & ?). split_and!; congruence.
Qed.

(** A store after a call: new batches apart, its batches are those there were,
    in what became of them. *)
Definition kept (fresh : nat) (st st' : memoryBatches) : Prop :=
  forall i b', st' !! i = Some b' -> i = fresh \/ exists b, st !! i = Some b /\ keeps b b'.

Lemma kept_refl fresh st : kept fresh st st.
Proof. intros i b H. right. by exists b. Qed.

Lemma keeps_with_owner w now b : finished b = false -> keeps b (with_owner w now b).
Proof. intros Hf. constructor; [done..|]. by rewrite Hf. Qed.

Lemma item_written_schemas item from items items' answer :
  item_written item from items items' answer -> bi_schema <$> items' = bi_schema <$> items.
Proof.
  intros [i got [Hi Hs]%itemAt_Some _|]; [|done]. rewrite list_fmap_insert. apply list_insert_id. by rewrite list_lookup_fmap, Hi, <- Hs.
Qed.

Lemma keeps_move item from b items answer w now :
  finished b = false -> item_written item from (ba_items b) items answer -> from = ItemPending \/ from = ItemRunning ->
  keeps b (with_items items (with_owner w now b)).
Proof.
  intros Hf Hw Hfrom. constructor; cbn; [by eapply item_written_schemas| |by rewrite Hf].
  destruct Hw as [j got [Hj _]%itemAt_Some Hgot|]; [|done]. intros i it Hi Hset.
  rewrite list_lookup_insert_ne; [done|]. intros ->. rewrite Hj in Hi. injection Hi as ->.
  unfold isSettled in Hset. rewrite Hgot in Hset. by destruct Hfrom as [-> | ->].
Qed.

Lemma keeps_finish at_ b : finished b = false -> keeps b (with_end at_ (with_items (endedItem <$> ba_items b) b)).
Proof.
  intros Hf. constructor; cbn; [| |by rewrite Hf].
  - rewrite <- list_fmap_compose. apply list_fmap_ext. intros _ it _. unfold endedItem; cbn. by destruct (bi_state it).
  - intros i it Hi Hset. rewrite list_lookup_fmap, Hi. cbn. unfold endedItem, isSettled in *. by destruct (bi_state it).
Qed.

Lemma kept_create fresh b maxOpen st : kept fresh st (CreateBatch fresh b maxOpen st).1.
Proof. intros i b' [[-> _]|H]%create_lookup; [by left|right; by exists b']. Qed.

Lemma kept_claim fresh id w stale now st : kept fresh st (ClaimBatch id w stale now st).1.
Proof.
  intros i b' [H|(b & -> & H & -> & Hf & _)]%claim_lookup; right; [by exists b'|]. exists b. split; [done|]. by apply keeps_with_owner.
Qed.

Lemma kept_move fresh id w now item g st : kept fresh st (MoveItem id w now item (fromOf g) st).1.
Proof.
  pose proof (move_cases id w now item (fromOf g) st) as H. destruct (owned id w st) as [b|] eqn:Hb.
  - destruct H as (items & answer & -> & Hw). apply owned_Some in Hb as (Hid & Hw' & Hf).
    cbn [fst]. intros i b' [[<- <-]|[_ Hi]]%lookup_insert_Some; right; [|by exists b'].
    exists b. split; [done|]. eapply keeps_move; [done..|]. destruct g; auto.
  - rewrite H. apply kept_refl.
Qed.

Lemma kept_finish fresh id w at_ st : kept fresh st (FinishBatch id w at_ st).1.
Proof.
  intros i b' [H|(b & -> & (Hid & _ & Hf)%owned_Some & ->)]%finish_lookup; right; [by exists b'|].
  exists b. split; [done|]. by apply keeps_finish.
Qed.

Lemma kept_cancel fresh id st : kept fresh st (CancelBatch id st).
Proof. intros i b' (b & Hb & [-> | ->])%cancel_lookup; right; exists b; (split; [done|]); by constructor. Qed.

#[export] Hint Resolve kept_refl kept_create kept_claim kept_move kept_finish kept_cancel : core.

(** What is recorded as done or failed is what work returned. *)
Definition recorded (results : list (nat * string * nat * ItemState * string)) (id : nat) (it : BatchItem) : Prop :=
  match bi_state it with
  | ItemDone | ItemFailed => (id, bi_schema it, bi_attempts it, bi_state it, bi_error it) ∈ results
  | _ => True
  end.

Record storeFits (results : list (nat * string * nat * ItemState * string)) (fresh : nat) (st : memoryBatches) : Prop := {
  sf_fresh : forall i, (fresh <= i)%nat -> st !! i = None;
  sf_recorded : forall i b, st !! i = Some b -> Forall (recorded results i) (ba_items b);
  sf_finished : forall i b, st !! i = Some b -> finished b = true -> Forall (fun it => isSettled it = true) (ba_items b);
}.

Definition phaseFits (results : list (nat * string * nat * ItemState * string)) (id : nat) (p : taskPhase) : Prop :=
  match p with TMove _ it _ _ => recorded results id it | _ => True end.

Definition runFits (results : list (nat * string * nat * ItemState * string)) (r : batchRun) : Prop :=
  Forall (fun t => phaseFits results (ru_batch r) (tk_phase t)) (ru_tasks r).

Record settle_inv (s : leases) : Prop := {
  si_store : storeFits (le_results s) (le_fresh s) (le_store s);
  si_runs : Forall (runFits (le_results s)) (le_runs s);
}.

Lemma storeFits_sub results fresh st st' :
  storeFits results fresh st ->
  (forall i b', st' !! i = Some b' -> exists b, st !! i = Some b /\ ba_items b' = ba_items b /\ finished b' = finished b) ->
  storeFits results fresh st'.
Proof.
  intros [F R T] Hsub. constructor.
  - intros i Hi. destruct (st' !! i) as [b'|] eqn:E; [|done]. apply Hsub in E as (b & E & _). by rewrite F in E.
  - intros i b' (b & Hb & -> & _)%Hsub. eauto.
  - intros i b' (b & Hb & -> & ->)%Hsub. eauto.
Qed.

Lemma storeFits_weaken results results' fresh fresh' st :
  storeFits results fresh st -> (forall x, x ∈ results -> x ∈ results') -> (fresh <= fresh')%nat -> storeFits results' fresh' st.
Proof.
  intros [F R T] Hsub Hle. constructor; [intros; apply F; lia| |done].
  intros i b Hb. eapply Forall_impl; [by eapply R|]. intros it. unfold recorded. destruct (bi_state it); auto.
Qed.

Lemma storeFits_claim results fresh st id w stale now :
  storeFits results fresh st -> storeFits results fresh (ClaimBatch id w stale now st).1.
Proof.
  intros H. eapply storeFits_sub; [done|]. intros i b' [Hb|(b & -> & Hb & -> & _)]%claim_lookup; eauto.
Qed.

Lemma storeFits_cancel results fresh st id : storeFits results fresh st -> storeFits results fresh (CancelBatch id st).
Proof. intros H. eapply storeFits_sub; [done|]. intros i b' (b & Hb & [-> | ->])%cancel_lookup; eauto. Qed.

Lemma storeFits_create results fresh st b maxOpen :
  storeFits results fresh st -> ba_finishedAt b = None -> forallb freshItem (ba_items b) = true ->
  storeFits results (S fresh) (CreateBatch fresh b maxOpen st).1.
Proof.
  intros H Hnf Hitems. pose proof (storeFits_weaken _ _ _ (S fresh) _ H (fun x h => h) ltac:(lia)) as [F R T].
  assert (Hpend : Forall (fun it => bi_state it = ItemPending) (ba_items b)).
  { apply Forall_forall. intros it Hit. rewrite forallb_forall in Hitems. apply list_elem_of_In, Hitems in Hit.
    unfold freshItem in Hit. by case_bool_decide. }
  constructor.
  - intros i Hi. destruct (_ !! i) as [b'|] eqn:E; [|done]. apply create_lookup in E as [[-> _]|E]; [lia|]. by rewrite F in E.
  - intros i b' [[-> ->]|E]%create_lookup; [|eauto].
    eapply Forall_impl; [done|]. intros it. unfold recorded. by intros ->.
  - intros i b' [[-> ->]|E]%create_lookup; [|eauto]. unfold finished. by rewrite Hnf.
Qed.

Lemma storeFits_insert results fresh st i b b' :
  storeFits results fresh st -> st !! i = Some b -> Forall (recorded results i) (ba_items b') ->
  (finished b' = true -> Forall (fun it => isSettled it = true) (ba_items b')) -> storeFits results fresh (<[i := b']> st).
Proof.
  intros [F R T] Hb HR HT. constructor.
  - intros j Hj. unfold memoryBatches in *. rewrite lookup_insert_ne; [by apply F|]. intros ->. by rewrite F in Hb.
  - intros j b0 [[<- <-]|[_ E]]%lookup_insert_Some; eauto.
  - intros j b0 [[<- <-]|[_ E]]%lookup_insert_Some; eauto.
Qed.

Lemma storeFits_move results fresh st id w now item from :
  storeFits results fresh st -> recorded results id item -> storeFits results fresh (MoveItem id w now item from st).1.
Proof.
  intros H Hrec. pose proof (move_cases id w now item from st) as Hm. destruct (owned id w st) as [b|] eqn:Hb; [|by rewrite Hm].
  destruct Hm as (items & answer & -> & Hw). apply owned_Some in Hb as (Hb & _ & Hf). cbn [fst].
  eapply storeFits_insert; [done..| |cbn; unfold finished in *; cbn; congruence]. cbn.
  pose proof (sf_recorded _ _ _ H _ _ Hb). destruct Hw; [by apply Forall_insert|done].
Qed.

Lemma storeFits_finish results fresh st id w at_ :
  storeFits results fresh st -> storeFits results fresh (FinishBatch id w at_ st).1.
Proof.
  intros H. unfold FinishBatch. destruct (owned id w st) as [b|] eqn:Hb; [|done]. apply owned_Some in Hb as (Hb & _ & Hf). cbn [fst].
  eapply storeFits_insert; [done..| |intros _]; cbn; apply Forall_fmap.
  - eapply Forall_impl; [by eapply sf_recorded|]. intros it. unfold compose, recorded, endedItem. by destruct (bi_state it) eqn:E; cbn; rewrite ?E.
  - apply Forall_forall. intros it _. unfold compose, isSettled, endedItem. by destruct (bi_state it) eqn:E; cbn; rewrite ?E.
Qed.

(** ** Runs *)

Lemma runFits_set_phase results n p r :
  runFits results r -> phaseFits results (ru_batch r) p -> runFits results (set_phase n p r).
Proof.
  intros H Hp. unfold runFits, set_phase in *; cbn. apply Forall_alter; [done|]. intros t _ _. done.
Qed.

Lemma runFits_moved results n g it ok r : runFits results r -> runFits results (moved n g it ok r).
Proof.
  intros H. destruct g, ok; cbn; try (by apply runFits_set_phase). unfold runFits; cbn. apply Forall_fmap, Forall_true. done.
Qed.

Lemma runFits_lose results r : runFits results r -> runFits results (lose r).
Proof. done. Qed.

Lemma runFits_moveLost results n g it r : runFits results r -> runFits results (moveLost n g it r).
Proof. intros H. by apply runFits_moved. Qed.

Lemma runFits_weaken results results' r :
  runFits results r -> (forall x, x ∈ results -> x ∈ results') -> runFits results' r.
Proof.
  intros H Hsub. eapply Forall_impl; [done|]. intros t. unfold phaseFits, recorded.
  destruct (tk_phase t) as [|g it| | |]; try done. destruct (bi_state it); auto.
Qed.

Lemma phaseFits_taken results id it : phaseFits results id (tk_phase (takenTask it)).
Proof. unfold takenTask, queuedTask. by destruct (bi_state it) eqn:E; cbn; rewrite ?E. Qed.

Lemma phaseFits_queued results id it : phaseFits results id (tk_phase (queuedTask it)).
Proof. unfold queuedTask. by destruct (bi_state it). Qed.

#[export] Hint Resolve runFits_set_phase runFits_moved runFits_moveLost : core.

Lemma settle_with_run s n r : settle_inv s -> runFits (le_results s) r -> settle_inv (with_run n r s).
Proof. intros [S R] Hr. constructor; [done|]. cbn. by apply Forall_insert. Qed.

Lemma settle_with_new s r :
  settle_inv s -> match r with Some r => runFits (le_results s) r | None => True end -> settle_inv (with_new r s).
Proof.
  intros [S R] Hr. constructor; cbn; [eapply storeFits_weaken; eauto|]. apply Forall_app. split; [done|]. by destruct r; constructor.
Qed.

Lemma settle_with_store s st : settle_inv s -> storeFits (le_results s) (le_fresh s) st -> settle_inv (with_store st s).
Proof. intros [S R] Hst. by constructor. Qed.

Lemma settle_storeMove s r now g it s' answer :
  settle_inv s -> recorded (le_results s) (ru_batch r) it -> storeMove r now g it s = (s', answer) -> settle_inv s'.
Proof.
  intros [S R] Hrec. unfold storeMove. pose proof (storeFits_move _ _ _ (ru_batch r) (ru_owner r) now _ (fromOf g) S Hrec) as Hm.
  destruct (MoveItem _ _ _ _ _ _) as [st a]. intros [= <- <-]. by constructor.
Qed.

Lemma settle_moveEnds s n t r g it ok : settle_inv s -> runFits (le_results s) r -> settle_inv (moveEnds n t r g it ok s).
Proof.
  intros H Hr. pose proof (settle_with_run s n (moved t g it ok r) H (runFits_moved _ _ _ _ _ _ Hr)) as [S R].
  unfold moveEnds. by destruct g, ok; constructor.
Qed.

Lemma storeMove_same s r now g it :
  le_results (storeMove r now g it s).1 = le_results s /\ le_runs (storeMove r now g it s).1 = le_runs s /\
  le_fresh (storeMove r now g it s).1 = le_fresh s /\ le_worked (storeMove r now g it s).1 = le_worked s.
Proof. unfold storeMove. by destruct (MoveItem _ _ _ _ _ _). Qed.

(** One step at a time: the run, its task and the phase an event is about. *)
Ltac crack_step Hs :=
  repeat match type of Hs with
    | (le_runs _ !! ?n ≫= _) = Some _ => let ru := fresh "ru" in destruct (le_runs _ !! n) as [ru|] eqn:Hru; cbn [mbind option_bind] in Hs; [|discriminate]
    | match ?x !! ?t with Some _ => _ | None => None end = Some _ =>
        let sch := fresh "sch" in let p := fresh "p" in destruct (x !! t) as [[sch p]|] eqn:Htk; [|discriminate]
    | match ?p with TQueued _ => _ | _ => _ end = Some _ => destruct p as [it|g it try_ failed|g it|it|]; try discriminate
    | (let '(_, _) := storeMove ?r ?now ?g ?it ?s in _) = Some _ =>
        let s1 := fresh "s1" in let answer := fresh "answer" in destruct (storeMove r now g it s) as [s1 answer] eqn:Hm
    | match ?x with _ => _ end = Some _ => destruct x eqn:?; try discriminate
    | Some _ = Some _ => injection Hs as <-
    end.

(** What work returned, once its item moves on. *)
Lemma afterWork_fits o results id it res now :
  phaseFits (match stateOf res with Some (st, msg) => [(id, bi_schema it, bi_attempts it, st, msg)] | None => [] end ++ results) id
    (afterWork o it res now).
Proof.
  destruct res as [msg|msg|msg|]; unfold afterWork; repeat case_match; unfold phaseFits, recorded; cbn -[elem_of]; try done; simplify_eq/=; apply list_elem_of_here.
Qed.

Lemma run_fits s n r : settle_inv s -> le_runs s !! n = Some r -> runFits (le_results s) r.
Proof. intros H Hr. exact (proj1 (Forall_lookup _ _) (si_runs _ H) n r Hr). Qed.

Lemma task_fits s n r t sch p :
  settle_inv s -> le_runs s !! n = Some r -> ru_tasks r !! t = Some (mkTask sch p) -> phaseFits (le_results s) (ru_batch r) p.
Proof. intros H Hr Ht. exact (proj1 (Forall_lookup _ _) (run_fits _ _ _ H Hr) t _ Ht). Qed.

Lemma settle_step o e s s' : settle_inv s -> saneEvent e = true -> leaseStep o e s = Some s' -> settle_inv s'.
Proof.
  intros H Hsane Hs. destruct e; cbn [leaseStep] in Hs.
  - (* LStart *)
    set (b' := mkBatch _ _ _ _ _ _ _ _ _) in Hs.
    destruct (CreateBatch (le_fresh s) b' maxOpen (le_store s)) as [st got] eqn:Hc. injection Hs as <-.
    cbn [saneEvent] in Hsane. apply andb_prop in Hsane as [_ Hsane].
    pose proof (storeFits_create _ _ _ b' maxOpen (si_store _ H) eq_refl Hsane) as Hst. rewrite Hc in Hst.
    constructor; cbn; [done|]. apply Forall_app. split; [apply H|].
    destruct got as [[[i b0] []]|]; [destruct reply|..]; repeat constructor.
    apply Forall_fmap, Forall_true. intros it. apply phaseFits_queued.
  - (* LClaim *)
    destruct (ClaimBatch _ _ _ _ _) as [st ok] eqn:Hc. injection Hs as <-. apply settle_with_new; [|by destruct ok; cbn; [constructor|]].
    apply settle_with_store; [done|]. replace st with (ClaimBatch id (le_fresh s) (now - o_Stale o) now (le_store s)).1 by (by rewrite Hc).
    by apply storeFits_claim, H.
  - (* LClaimLost *)
    injection Hs as <-. apply settle_with_new; [|done]. apply settle_with_store; [done|]. by apply storeFits_claim, H.
  - (* LRead *)
    crack_step Hs. apply settle_with_run; [done|]. unfold runFits; cbn. destruct (_ && _); [|done].
    apply Forall_fmap, Forall_true. intros it. apply phaseFits_taken.
  - (* LBegin *) crack_step Hs. apply settle_with_run; [done|]. apply runFits_set_phase; [by eapply run_fits|done].
  - (* LDrop *) crack_step Hs. apply settle_with_run; [done|]. apply runFits_set_phase; [by eapply run_fits|done].
  - (* LMove *)
    crack_step Hs.
    pose proof (storeMove_same s ru now g it) as (Er & En & _). rewrite Hm in Er, En. cbn in Er, En.
    pose proof (settle_storeMove _ _ _ _ _ _ _ H (task_fits _ _ _ _ _ _ H Hru Htk) Hm) as H1.
    assert (Hr : runFits (le_results s1) ru) by (rewrite Er; by eapply run_fits).
    destruct answer as [ok|]; [destruct (_ || _); [by apply settle_moveEnds|]|]; apply settle_with_run; auto. by apply runFits_set_phase.
  - (* LMoveFails *)
    crack_step Hs. pose proof (storeMove_same s ru now g it) as (Er & En & _).
    destruct (storeMove _ _ _ _ _) as [s1 answer] eqn:Hm. cbn in Er, En.
    pose proof (task_fits _ _ _ _ _ _ H Hru Htk) as Hrec. cbn in Hrec.
    pose proof (settle_storeMove _ _ _ _ _ _ _ H Hrec Hm) as H1.
    pose proof (run_fits _ _ _ H Hru) as Hr.
    assert (Hfit : forall s0, settle_inv s0 -> le_results s0 = le_results s ->
      settle_inv (with_run r (if ru_closing ru || negb (try_ <? o_MoveTries o)%nat then moveLost n g it ru else set_phase n (TMove g it (S try_) true) ru) s0)).
    { intros s0 H0 E0. apply settle_with_run; [done|]. rewrite E0. destruct (_ || _); [by apply runFits_moveLost|by apply runFits_set_phase]. }
    destruct made; apply Hfit; auto.
  - (* LGivesUp *) crack_step Hs. apply settle_with_run; [done|]. apply runFits_moved. by eapply run_fits.
  - (* LCheck *)
    crack_step Hs; (apply settle_moveEnds || apply settle_with_run); try done; try apply runFits_moveLost; by eapply run_fits.
  - (* LWorked *)
    crack_step Hs. apply settle_with_run.
    + destruct H as [S R]. constructor; cbn; [eapply storeFits_weaken; [done| |done]|eapply Forall_impl; [done|]; intros x Hx; eapply runFits_weaken; [done|]];
        intros ? ?; apply elem_of_app; by right.
    + cbn. apply runFits_set_phase; [|apply afterWork_fits]. eapply runFits_weaken; [by eapply run_fits|]. intros ? ?. apply elem_of_app. by right.
  - (* LBeat *)
    crack_step Hs. pose proof (storeFits_claim _ _ _ (ru_batch ru) (ru_owner ru) (now - o_Stale o) now (si_store _ H)) as Hst.
    rewrite Heqp in Hst. cbn [fst] in Hst.
    destruct (reply && negb _); apply settle_with_store; auto. apply settle_with_run; [done|]. by apply runFits_lose; eapply run_fits.
  - (* LStop *) crack_step Hs. apply settle_with_run; [done|]. by eapply run_fits in Hru.
  - (* LClose *) crack_step Hs. apply settle_with_run; [done|]. by eapply run_fits in Hru.
  - (* LFinish *) crack_step Hs. apply settle_with_store; [done|]. by apply storeFits_finish, H.
  - (* LCancel *) crack_step Hs. apply settle_with_store; [done|]. by apply storeFits_cancel, H.
Qed.

Lemma storeMove_kept fresh r now g it s : kept fresh (le_store s) (le_store (storeMove r now g it s).1).
Proof. unfold storeMove. pose proof (kept_move fresh (ru_batch r) (ru_owner r) now it g (le_store s)). by destruct (MoveItem _ _ _ _ _ _). Qed.

Lemma moveEnds_same n t r g it ok s :
  le_store (moveEnds n t r g it ok s) = le_store s /\ le_fresh (moveEnds n t r g it ok s) = le_fresh s.
Proof. by destruct g, ok. Qed.

Lemma kept_step o e s s' :
  leaseStep o e s = Some s' -> kept (le_fresh s) (le_store s) (le_store s') /\ (le_fresh s <= le_fresh s')%nat.
Proof.
  intros Hs. destruct e; cbn [leaseStep] in Hs; crack_step Hs; cbn [with_new with_store with_run le_store le_fresh]; auto.
  - replace m with (CreateBatch (le_fresh s) (mkBatch (ba_datasource b) (ba_startedBy b) (ba_requestKey b) (le_fresh s) now None now false (ba_items b)) maxOpen (le_store s)).1
      by (by rewrite Heqp). auto.
  - replace m with (ClaimBatch id (le_fresh s) (now - o_Stale o) now (le_store s)).1 by (by rewrite Heqp). auto.
  - pose proof (storeMove_same s ru now g it) as (_ & _ & Ef & _). pose proof (storeMove_kept (le_fresh s) ru now g it s) as Hk.
    rewrite Hm in Ef, Hk. cbn [fst] in Ef, Hk. rewrite <- Ef at 2.
    destruct answer as [[]|]; [|destruct failed|]; cbn [orb negb]; rewrite ?(proj1 (moveEnds_same _ _ _ _ _ _ _)), ?(proj2 (moveEnds_same _ _ _ _ _ _ _)); auto.
  - pose proof (storeMove_same s ru now g it) as (_ & _ & Ef & _). pose proof (storeMove_kept (le_fresh s) ru now g it s) as Hk.
    destruct made; [rewrite Ef|]; auto.
  - rewrite (proj1 (moveEnds_same _ _ _ _ _ _ _)), (proj2 (moveEnds_same _ _ _ _ _ _ _)). auto.
  - replace m with (ClaimBatch (ru_batch ru) (ru_owner ru) (now - o_Stale o) now (le_store s)).1 by (by rewrite Heqp).
    destruct (reply && negb _); auto.
Qed.

Lemma settle_run o es s : settle_inv s -> forallb saneEvent es = true -> settle_inv (leaseRun o es s).
Proof.
  revert s. induction es as [|e es IH]; intros s H; cbn; [done|]. intros [Hs Hes]%andb_prop. apply IH; [|done].
  destruct (leaseStep o e s) eqn:E; [by eapply settle_step|done].
Qed.

Lemma settle_noLeases : settle_inv noLeases.
Proof. repeat constructor; intros *; by rewrite ?lookup_empty. Qed.

Lemma keeps_run o es s id b' :
  (id < le_fresh s)%nat -> le_store (leaseRun o es s) !! id = Some b' -> exists b, le_store s !! id = Some b /\ keeps b b'.
Proof.
  revert s. induction es as [|e es IH]; intros s Hid Hb'; cbn in Hb'; [by exists b'|].
  destruct (leaseStep o e s) as [s1|] eqn:E; cbn in Hb'; [|by apply IH].
  destruct (kept_step _ _ _ _ E) as [Hk Hle]. destruct (IH s1 ltac:(lia) Hb') as (b1 & Hb1 & H1).
  apply Hk in Hb1 as [->|(b & Hb & H0)]; [lia|]. exists b. split; [done|]. by transitivity b1.
Qed.

(** What the store holds, whatever the processes do, and whichever calls of
    it fail or lose their answers: every item recorded done or failed is what
    work returned for that attempt of it, a finished batch has nothing left to
    run, and what comes later never changes a settled item, nor anything of a
    finished batch. *)
Theorem batches_settle o es es' id b :
  forallb saneEvent es = true ->
  le_store (leaseRun o es noLeases) !! id = Some b ->
  (forall it, it ∈ ba_items b -> bi_state it = ItemDone \/ bi_state it = ItemFailed ->
     (id, bi_schema it, bi_attempts it, bi_state it, bi_error it) ∈ le_results (leaseRun o es noLeases)) /\
  (finished b = true -> forall it, it ∈ ba_items b -> bi_state it <> ItemPending /\ bi_state it <> ItemRunning) /\
  (forall b', le_store (leaseRun o es' (leaseRun o es noLeases)) !! id = Some b' ->
     (forall i it, ba_items b !! i = Some it -> isSettled it = true -> ba_items b' !! i = Some it) /\
     (finished b = true -> ba_items b' = ba_items b /\ ba_finishedAt b' = ba_finishedAt b /\ ba_owner b' = ba_owner b)).
Proof.
  intros Hes Hb. pose proof (settle_run o es _ settle_noLeases Hes) as [[F R T] _]. split_and!.
  - intros it Hit Hst. pose proof (proj1 (Forall_forall _ _) (R _ _ Hb) _ Hit) as Hrec. unfold recorded in Hrec.
    by destruct (bi_state it), Hst.
  - intros Hf it Hit. pose proof (proj1 (Forall_forall _ _) (T _ _ Hb Hf) _ Hit) as Hs. unfold isSettled in Hs. by destruct (bi_state it).
  - intros b' Hb'. apply keeps_run in Hb' as (b0 & Hb0 & [_ HT HF]).
    + rewrite Hb in Hb0. injection Hb0 as <-. auto.
    + apply not_le. intros Hle. by rewrite F in Hb.
Qed.

(** ** Attempts *)

Definition itemIn (schema : string) (items : list BatchItem) : option BatchItem := snd <$> itemAt schema items.

Definition attempt (id : nat) (it : BatchItem) : nat * string * nat := (id, bi_schema it, bi_attempts it).

Definition goalState (g : goal) (it : BatchItem) : Prop :=
  match g with GStart => bi_state it = ItemRunning | GRequeue | GRetry => bi_state it = ItemPending | GSettle => isSettled it = true end.

Definition itemOfPhase (p : taskPhase) : option BatchItem :=
  match p with TQueued it | TMove _ it _ _ | TCheck _ it | TWork it => Some it | TOver => None end.

(** An attempt a run began and has not worked on yet. *)
Definition begunBy (s : leases) (r : batchRun) (it : BatchItem) : Prop :=
  le_begun s !! attempt (ru_batch r) it = Some (ru_owner r) /\ attempt (ru_batch r) it ∉ le_worked s.

(** What a task knows of itself, its run's or not. *)
Definition phaseOk (s : leases) (r : batchRun) (schema : string) (p : taskPhase) : Prop :=
  (forall it, itemOfPhase p = Some it -> bi_schema it = schema) /\
  match p with
  | TMove g it _ _ => goalState g it
  | TCheck g it => goalState g it /\ (g = GStart -> begunBy s r it)
  | _ => True
  end.

(** What the store holds of the item of a task, while its run owns the batch. *)
Definition phaseSees (s : leases) (r : batchRun) (p : taskPhase) (got : BatchItem) : Prop :=
  match p with
  | TQueued it => got = it /\ bi_state it = ItemPending
  | TMove g it _ failed =>
      (bi_state got = fromOf g /\ bi_attempts it = match g with GStart => S (bi_attempts got) | _ => bi_attempts got end) \/
      (failed = true /\ got = it /\ (g = GStart -> begunBy s r it))
  | TCheck _ it => got = it
  | TWork it => got = it /\ bi_state it = ItemRunning
  | TOver => True
  end.

Definition taskOk (s : leases) (r : batchRun) (t : leaseTask) : Prop :=
  phaseOk s r (tk_schema t) (tk_phase t) /\
  forall b, owned (ru_batch r) (ru_owner r) (le_store s) = Some b ->
    exists got, itemIn (tk_schema t) (ba_items b) = Some got /\ phaseSees s r (tk_phase t) got.

Definition runOk (s : leases) (r : batchRun) : Prop := NoDup (tk_schema <$> ru_tasks r) /\ Forall (taskOk s r) (ru_tasks r).

Record attempts_inv (s : leases) : Prop := {
  ai_fresh : forall id, (le_fresh s <= id)%nat -> le_store s !! id = None;
  ai_owner : forall id b, le_store s !! id = Some b -> (ba_owner b < le_fresh s)%nat;
  ai_items : forall id b, le_store s !! id = Some b -> NoDup (bi_schema <$> ba_items b);
  ai_runs : forall r, r ∈ le_runs s -> (ru_owner r < le_fresh s)%nat /\ runOk s r;
  ai_owners : NoDup (ru_owner <$> le_runs s);
  ai_begun : forall id schema a w, le_begun s !! (id, schema, a) = Some w ->
    (id < le_fresh s)%nat /\
    (forall b it, le_store s !! id = Some b -> itemIn schema (ba_items b) = Some it -> (a <= bi_attempts it)%nat);
  ai_worked : forall k, k ∈ le_worked s -> is_Some (le_begun s !! k);
  ai_once : NoDup (le_worked s);
}.

Lemma itemIn_Some schema items it : itemIn schema items = Some it -> it ∈ items /\ bi_schema it = schema.
Proof.
  unfold itemIn. intros ([i it'] & H & ->)%fmap_Some. apply itemAt_Some in H as [H1 H2]. split; [|done]. by eapply list_elem_of_lookup_2.
Qed.

Lemma itemIn_elem schema items it :
  NoDup (bi_schema <$> items) -> it ∈ items -> bi_schema it = schema -> itemIn schema items = Some it.
Proof.
  intros Hnd Hit Hs. unfold itemIn, itemAt. destruct (list_find_elem_of (fun it => bi_schema it = schema) items it Hit Hs) as [[i it'] Hf].
  rewrite Hf. cbn. apply list_find_Some in Hf as (Hi & Hs' & _). apply list_elem_of_lookup in Hit as [j Hj].
  assert (i = j) as ->; [|congruence]. eapply NoDup_lookup; [exact Hnd|by rewrite list_lookup_fmap, Hi|].
  rewrite list_lookup_fmap, Hj. cbn. congruence.
Qed.

Lemma itemIn_schemas schema items items' :
  bi_schema <$> items' = bi_schema <$> items -> is_Some (itemIn schema items) -> is_Some (itemIn schema items').
Proof.
  intros E [it Hit]. apply itemIn_Some in Hit as [Hin Hs]. assert (Hin' : schema ∈ bi_schema <$> items') by (rewrite E; apply list_elem_of_fmap; eauto).
  apply list_elem_of_fmap in Hin' as (it' & Hs' & Hit'). unfold itemIn, itemAt.
  destruct (list_find_elem_of (fun it => bi_schema it = schema) items' it' Hit' (eq_sym Hs')) as [[i it2] ->]. by eexists.
Qed.

Lemma itemIn_fmap (f : BatchItem -> BatchItem) schema items :
  (forall it, bi_schema (f it) = bi_schema it) -> itemIn schema (f <$> items) = f <$> itemIn schema items.
Proof.
  intros Hf. unfold itemIn, itemAt. induction items as [|it items IH]; cbn; [done|]. rewrite Hf.
  destruct (decide (bi_schema it = schema)); cbn; [done|].
  destruct (list_find _ (f <$> items)) as [[? ?]|], (list_find _ items) as [[? ?]|]; cbn in *; congruence.
Qed.

Lemma itemIn_insert schema items i got item :
  itemAt (bi_schema item) items = Some (i, got) -> NoDup (bi_schema <$> items) ->
  itemIn schema (<[i := item]> items) = (if decide (schema = bi_schema item) then Some item else itemIn schema items).
Proof.
  intros [Hi Hs]%itemAt_Some Hnd.
  assert (Hsch : bi_schema <$> <[i := item]> items = bi_schema <$> items).
  { rewrite list_fmap_insert. apply list_insert_id. by rewrite list_lookup_fmap, Hi, <- Hs. }
  destruct (decide (schema = bi_schema item)) as [->|Hne].
  - apply itemIn_elem; [by rewrite Hsch| |done]. eapply list_elem_of_lookup_2, list_lookup_insert_eq, lookup_lt_Some, Hi.
  - destruct (itemIn schema items) as [it|] eqn:E.
    + apply itemIn_Some in E as [Hin Hs']. apply itemIn_elem; [by rewrite Hsch| |done]. apply list_elem_of_lookup in Hin as [j Hj].
      eapply list_elem_of_lookup_2. rewrite list_lookup_insert_ne; [exact Hj|]. intros <-. congruence.
    + apply eq_None_not_Some. intros Hx. apply (itemIn_schemas schema _ items) in Hx; [|done]. rewrite E in Hx. by destruct Hx.
Qed.

(** What a call of the store other than MoveItem does: it may make the batch
    [fresh], give a batch to a new owner, end one, and leaves the items' attempts
    and the rest of what an owner sees. *)
Record sameItems (fresh : nat) (b b' : Batch) : Prop := {
  sa_schemas : bi_schema <$> ba_items b' = bi_schema <$> ba_items b;
  sa_attempts : forall schema, bi_attempts <$> itemIn schema (ba_items b') = bi_attempts <$> itemIn schema (ba_items b);
  sa_owner : ba_owner b' = fresh \/ finished b' = true \/ (ba_owner b' = ba_owner b /\ ba_items b' = ba_items b /\ finished b = false);
}.

Definition storeLe (fresh fresh' : nat) (st st' : memoryBatches) : Prop :=
  forall id b', st' !! id = Some b' ->
    (ba_owner b' < fresh')%nat /\
    ((id = fresh /\ (fresh < fresh')%nat /\ ba_owner b' = fresh /\ NoDup (bi_schema <$> ba_items b')) \/
     exists b, st !! id = Some b /\ sameItems fresh b b').

Definition with_fresh (st : memoryBatches) (fresh : nat) (s : leases) : leases :=
  mkLeases st fresh (le_runs s) (le_begun s) (le_worked s) (le_results s).

Lemma taskOk_store s st' fresh' r t :
  attempts_inv s -> storeLe (le_fresh s) fresh' (le_store s) st' -> (ru_owner r < le_fresh s)%nat ->
  taskOk s r t -> taskOk (with_fresh st' fresh' s) r t.
Proof.
  intros H Hle Hr [Hp Hsees]. split; [done|]. cbn. intros b' (Hb' & Ho & Hf)%owned_Some.
  destruct (Hle _ _ Hb') as [_ [(_ & _ & ? & _)|(b & Hb & [_ _ [?|[?|(Ho' & Hi & Hf')]]])]]; [lia|lia|congruence|].
  rewrite Hi. apply Hsees, owned_Some. split_and!; congruence.
Qed.

Lemma inv_store s st' fresh' :
  attempts_inv s -> (le_fresh s <= fresh')%nat -> storeLe (le_fresh s) fresh' (le_store s) st' -> attempts_inv (with_fresh st' fresh' s).
Proof.
  intros H Hle Hst. constructor; cbn; try apply H.
  - intros id Hid. destruct (st' !! id) as [b'|] eqn:E; [|done].
    destruct (Hst _ _ E) as [_ [(-> & ? & _)|(b & Hb & _)]]; [lia|]. rewrite (ai_fresh _ H) in Hb; [done|lia].
  - intros id b' Hb'. apply (Hst _ _ Hb').
  - intros id b' Hb'. destruct (Hst _ _ Hb') as [_ [(_ & _ & _ & ?)|(b & Hb & [E _ _])]]; [done|]. rewrite E. by eapply ai_items.
  - intros r Hr. destruct (ai_runs _ H r Hr) as [Hlt [Hnd Hok]]. split; [lia|]. split; [done|].
    eapply Forall_impl; [done|]. intros t. by apply taskOk_store.
  - intros id schema a w Hbegun. destruct (ai_begun _ H _ _ _ _ Hbegun) as [Hid Ha]. split; [lia|].
    intros b' it Hb' Hit. destruct (Hst _ _ Hb') as [_ [(-> & _)|(b & Hb & [_ E _])]]; [lia|].
    specialize (E schema). rewrite Hit in E. destruct (itemIn schema (ba_items b)) as [it0|] eqn:E0; [|done].
    injection E as ->. eauto.
Qed.

Lemma storeLe_create fresh b maxOpen st :
  (forall id b, st !! id = Some b -> (ba_owner b < fresh)%nat) -> ba_owner b = fresh -> NoDup (bi_schema <$> ba_items b) ->
  storeLe fresh (S fresh) st (CreateBatch fresh b maxOpen st).1.
Proof.
  intros Ho Hb Hnd id b' [[-> ->]|H]%create_lookup; [split; [lia|left; auto]|].
  pose proof (Ho _ _ H). split; [lia|]. right. exists b'. split; [done|]. constructor; [done..|].
  destruct (finished b') eqn:Hf; auto.
Qed.

Lemma storeLe_claim fresh id w stale now st :
  (forall id b, st !! id = Some b -> (ba_owner b < fresh)%nat) ->
  w = fresh \/ (forall b, st !! id = Some b -> ba_owner b <> w -> ~ (ba_heartbeat b < stale)%Z) ->
  forall fresh', (fresh <= fresh')%nat -> (w < fresh')%nat -> storeLe fresh fresh' st (ClaimBatch id w stale now st).1.
Proof.
  intros Ho Hw fresh' Hle Hlt i b' [H|(b & -> & Hb & -> & Hf & Hown)]%claim_lookup.
  - pose proof (Ho _ _ H). split; [lia|]. right. exists b'. split; [done|]. constructor; [done..|]. destruct (finished b') eqn:Hf; auto.
  - split; [done|]. right. exists b. split; [done|]. constructor; [done..|]. cbn. destruct Hw as [->|Hw]; [by left|].
    right; right. split_and!; [|done..]. destruct (decide (ba_owner b = w)) as [|Hne]; [done|]. destruct Hown; [done|]. by destruct (Hw _ Hb Hne).
Qed.

Lemma storeLe_finish fresh id w at_ st :
  (forall id b, st !! id = Some b -> (ba_owner b < fresh)%nat) -> storeLe fresh fresh st (FinishBatch id w at_ st).1.
Proof.
  intros Ho i b' [H|(b & -> & (Hb & Hw & Hf)%owned_Some & ->)]%finish_lookup.
  - split; [eauto|]. right. exists b'. split; [done|]. constructor; [done..|]. destruct (finished b') eqn:Hf; auto.
  - split; [exact (Ho _ _ Hb)|]. right. exists b. split; [done|].
    assert (Hs : forall it, bi_schema (endedItem it) = bi_schema it) by (intros it; unfold endedItem; by destruct (bi_state it)).
    constructor; cbn [with_end with_items ba_items]; [|intros schema|by right; left].
    + rewrite <- list_fmap_compose. apply list_fmap_ext. intros _ it _. apply Hs.
    + rewrite itemIn_fmap by done. destruct (itemIn _ _) as [it|]; cbn; [|done]. unfold endedItem. by destruct (bi_state it).
Qed.

Lemma storeLe_cancel fresh id st :
  (forall id b, st !! id = Some b -> (ba_owner b < fresh)%nat) -> storeLe fresh fresh st (CancelBatch id st).
Proof.
  intros Ho i b' (b & Hb & Hb')%cancel_lookup. split; [destruct Hb' as [-> | ->]; exact (Ho _ _ Hb)|]. right. exists b. split; [done|].
  destruct Hb' as [-> | ->]; (constructor; [done..|]); cbn; destruct (finished b) eqn:Hf; auto.
Qed.

(** *** Runs *)

Lemma runOk_task s r t tk : runOk s r -> ru_tasks r !! t = Some tk -> taskOk s r tk.
Proof. intros [_ Hok] Ht. exact (proj1 (Forall_lookup _ _) Hok t tk Ht). Qed.

Lemma inv_run s n r : attempts_inv s -> le_runs s !! n = Some r -> (ru_owner r < le_fresh s)%nat /\ runOk s r.
Proof. intros H Hr. apply (ai_runs _ H). by eapply list_elem_of_lookup_2. Qed.

Lemma taskOk_impl s r sch p p' :
  taskOk s r (mkTask sch p) -> phaseOk s r sch p' -> (forall got, phaseSees s r p got -> phaseSees s r p' got) -> taskOk s r (mkTask sch p').
Proof.
  intros [_ Hsees] Hok Himp. split; [done|]. intros b Hb. destruct (Hsees b Hb) as (got & Hgot & Hp). exists got. auto.
Qed.

Lemma taskOk_over s r sch p : taskOk s r (mkTask sch p) -> taskOk s r (mkTask sch TOver).
Proof. intros H. by eapply taskOk_impl. Qed.

Lemma runOk_set_phase s r t sch p0 p :
  runOk s r -> ru_tasks r !! t = Some (mkTask sch p0) -> taskOk s r (mkTask sch p) -> runOk s (set_phase t p r).
Proof.
  intros [Hnd Hok] Ht Hp. split; cbn -[fmap].
  - rewrite (list_fmap_alter _ _ id) by (by apply Forall_true). by rewrite list_alter_id.
  - apply Forall_alter; [done|]. intros tk Htk _. rewrite Ht in Htk. injection Htk as <-. exact Hp.
Qed.

Lemma runOk_over s r : runOk s r -> runOk s (with_tasks (overTask <$> ru_tasks r) (lose r)).
Proof.
  intros [Hnd Hok]. split; cbn -[fmap].
  - by rewrite <- list_fmap_compose.
  - apply Forall_fmap. eapply Forall_impl; [done|]. intros [sch p] Hp. by apply (taskOk_over s r sch p).
Qed.

Lemma inv_with_run s n r r' :
  attempts_inv s -> le_runs s !! n = Some r -> ru_owner r' = ru_owner r -> runOk s r' -> attempts_inv (with_run n r' s).
Proof.
  intros H Hr Ho Hok. constructor; cbn -[fmap]; try apply H.
  - intros x [m Hm]%list_elem_of_lookup. apply list_lookup_insert_Some in Hm as [(<- & <- & _)|[_ Hm]]; [|exact (inv_run _ _ _ H Hm)].
    rewrite Ho. exact (conj (proj1 (inv_run _ _ _ H Hr)) Hok).
  - rewrite list_fmap_insert, list_insert_id; [apply H|]. by rewrite list_lookup_fmap, Hr, Ho.
Qed.

(** Two runs of the same owner are one, and two of its tasks on one schema too. *)
Lemma owner_unique s n m r r' :
  attempts_inv s -> le_runs s !! n = Some r -> le_runs s !! m = Some r' -> ru_owner r = ru_owner r' -> n = m.
Proof.
  intros H Hr Hr' E. eapply (NoDup_lookup _ n m (ru_owner r)); [apply (ai_owners _ H)|..]; rewrite list_lookup_fmap; [by rewrite Hr|by rewrite Hr', E].
Qed.

Lemma task_unique s r t t' tk tk' :
  runOk s r -> ru_tasks r !! t = Some tk -> ru_tasks r !! t' = Some tk' -> tk_schema tk = tk_schema tk' -> t = t'.
Proof.
  intros [Hnd _] Ht Ht' E. eapply (NoDup_lookup _ t t' (tk_schema tk)); [exact Hnd|..]; rewrite list_lookup_fmap; [by rewrite Ht|by rewrite Ht', E].
Qed.

(** Tasks stand by the attempts begun, which are never given to another run. *)
Lemma taskOk_begun s s' r tk :
  le_store s' = le_store s ->
  (forall it, itemOfPhase (tk_phase tk) = Some it -> tk_phase tk <> TWork it -> begunBy s r it -> begunBy s' r it) ->
  taskOk s r tk -> taskOk s' r tk.
Proof.
  destruct tk as [sch p]. cbn. intros Est Hb [[Hsch Hok] Hsees]. split.
  - split; [done|]. destruct p; cbn in *; auto. destruct Hok as [? Hbeg]. auto.
  - rewrite Est. intros b Hbt. destruct (Hsees b Hbt) as (got & Hgot & Hp). exists got. split; [done|].
    destruct p; cbn in *; auto. destruct Hp as [?|(? & ? & ?)]; [by left|right; auto].
Qed.

Lemma inv_worksOn s n r t sch it :
  attempts_inv s -> le_runs s !! n = Some r -> ru_tasks r !! t = Some (mkTask sch (TWork it)) -> begunBy s r it ->
  attempts_inv (worksOn (ru_batch r) it s).
Proof.
  intros H Hr Ht [Hbeg Hnw]. destruct (inv_run _ _ _ H Hr) as [_ Hrok].
  pose proof (runOk_task _ _ _ _ Hrok Ht) as [[Hsch _] _]. cbn in Hsch. specialize (Hsch it eq_refl).
  constructor; cbn; try apply H.
  - intros r' [m Hm]%list_elem_of_lookup. destruct (inv_run _ _ _ H Hm) as [Hlt [Hnd Hok]]. split; [done|]. split; [done|].
    apply Forall_lookup. intros t' tk Htk. eapply (taskOk_begun s); [done| |exact (runOk_task s r' t' tk (conj Hnd Hok) Htk)]. intros it' Hit' Hne [Hbeg' Hnw'].
    split; [done|]. cbn. apply not_elem_of_cons. split; [|done]. intros E. rewrite E in Hbeg'.
    assert (Eo : ru_owner r' = ru_owner r) by (change (le_begun s !! attempt (ru_batch r) it = Some (ru_owner r')) in Hbeg'; congruence).
    pose proof (owner_unique _ _ _ _ _ H Hm Hr Eo) as ->. rewrite Hr in Hm. injection Hm as <-.
    pose proof (runOk_task _ _ _ _ Hrok Htk) as [[Hsch' _] _]. specialize (Hsch' _ Hit').
    unfold attempt in E. assert (t' = t) as ->; [|rewrite Ht in Htk; injection Htk as <-; cbn in *; congruence].
    eapply task_unique; [done..|]. cbn. congruence.
  - intros k [->|Hk]%elem_of_cons; [by eexists|by apply (ai_worked _ H)].
  - constructor; [done|apply H].
Qed.

Lemma set_phase_lookup r t p sch p0 :
  ru_tasks r !! t = Some (mkTask sch p0) -> ru_tasks (set_phase t p r) !! t = Some (mkTask sch p).
Proof. intros Ht. cbn. by rewrite list_lookup_alter_eq, Ht. Qed.

(** A move ends well or not. *)
Lemma inv_moveEnds s n t r sch g it ok :
  attempts_inv s -> le_runs s !! n = Some r -> ru_tasks r !! t = Some (mkTask sch (TCheck g it)) -> attempts_inv (moveEnds n t r g it ok s).
Proof.
  intros H Hr Ht. destruct (inv_run _ _ _ H Hr) as [_ Hrok]. pose proof (runOk_task _ _ _ _ Hrok Ht) as Htk.
  pose proof Htk as [[Hsch [Hg Hbeg]] _]. cbn in Hsch, Hg, Hbeg.
  assert (Hrun : runOk s (moved t g it ok r)).
  { destruct g, ok; cbn [moved]; try (by apply runOk_over); (eapply runOk_set_phase; [done..|]);
      try (by eapply taskOk_over); (eapply taskOk_impl; [done|by split|]); cbn; intros got ->; auto. }
  assert (Hw : attempts_inv (with_run n (moved t g it ok r) s)).
  { eapply inv_with_run; [done..| |done]. by destruct g, ok. }
  unfold moveEnds. destruct g, ok; try done. eapply (inv_worksOn (with_run n _ s) n (set_phase t (TWork it) r) t sch it).
  - exact Hw.
  - cbn. apply list_lookup_insert_eq. by eapply lookup_lt_Some.
  - by eapply set_phase_lookup.
  - by apply Hbeg.
Qed.

(** *** MoveItem *)

(** The processes once [r] wrote [it] over item [i] of [b]. *)
Definition writtenBy (r : batchRun) (g : goal) (it : BatchItem) (b : Batch) (i : nat) (now : Z) (s : leases) : leases :=
  mkLeases (<[ru_batch r := with_items (<[i := it]> (ba_items b)) (with_owner (ru_owner r) now b)]> (le_store s)) (le_fresh s) (le_runs s)
    match g with GStart => <[attempt (ru_batch r) it := ru_owner r]> (le_begun s) | _ => le_begun s end (le_worked s) (le_results s).

Section written.
Context (s : leases) (n t : nat) (r : batchRun) (sch : string) (g : goal) (it : BatchItem) (try_ : nat) (failed : bool).
Context (b : Batch) (i : nat) (got : BatchItem) (now : Z).
Hypothesis (Hinv : attempts_inv s) (Hr : le_runs s !! n = Some r) (Ht : ru_tasks r !! t = Some (mkTask sch (TMove g it try_ failed))).
Hypothesis (Hb : owned (ru_batch r) (ru_owner r) (le_store s) = Some b).
Hypothesis (Hat : itemAt (bi_schema it) (ba_items b) = Some (i, got)) (Hfrom : bi_state got = fromOf g).

#[local] Abbreviation written := (writtenBy r g it b i now s).

Lemma written_facts :
  sch = bi_schema it /\ goalState g it /\ itemIn sch (ba_items b) = Some got /\
  bi_attempts it = match g with GStart => S (bi_attempts got) | _ => bi_attempts got end.
Proof using Hinv Hr Ht Hb Hat Hfrom.
  destruct (inv_run _ _ _ Hinv Hr) as [_ Hrok]. destruct (runOk_task _ _ _ _ Hrok Ht) as [[Hsch Hg] Hsees]. cbn in Hsch, Hg, Hsees.
  specialize (Hsch it eq_refl). subst sch. destruct (Hsees b Hb) as (got' & Hgot & Hp).
  assert (Hin : itemIn (bi_schema it) (ba_items b) = Some got) by (unfold itemIn; by rewrite Hat).
  rewrite Hin in Hgot. injection Hgot as <-. split_and!; [done..|].
  destruct Hp as [[_ ?]|(_ & -> & _)]; [done|]. exfalso. unfold goalState, isSettled in Hg. destruct g; cbn in Hfrom; rewrite Hfrom in Hg; done.
Qed.

Lemma written_unbegun : g = GStart -> le_begun s !! attempt (ru_batch r) it = None.
Proof using Hinv Hr Ht Hb Hat Hfrom.
  intros Eg. destruct written_facts as (Hs & _ & Hgot & Ha). rewrite Eg in Ha. rewrite Hs in Hgot. destruct (le_begun s !! _) as [w|] eqn:E; [|done].
  apply (ai_begun _ Hinv) in E as [_ E]. apply owned_Some in Hb as (Hb' & _). specialize (E b got Hb' Hgot). lia.
Qed.

Lemma written_begun k w : le_begun s !! k = Some w -> le_begun written !! k = Some w.
Proof using Hinv Hr Ht Hb Hat Hfrom.
  pose proof written_unbegun as Hu. intros Hk. unfold writtenBy; cbn. destruct g; try done. rewrite lookup_insert_ne; [done|]. intros <-.
  by rewrite Hu in Hk.
Qed.

Lemma written_begunBy r' it' : begunBy s r' it' -> begunBy written r' it'.
Proof using Hinv Hr Ht Hb Hat Hfrom. intros [H1 H2]. split; [by apply written_begun|done]. Qed.

Lemma written_items schema :
  itemIn schema (<[i := it]> (ba_items b)) = if decide (schema = bi_schema it) then Some it else itemIn schema (ba_items b).
Proof using Hinv Hb Hat. apply itemIn_insert with got; [done|]. apply owned_Some in Hb as (Hb' & _). by eapply ai_items. Qed.

(** A task but the one that moves its item. *)
Lemma written_task m r' t' tk :
  le_runs s !! m = Some r' -> ru_tasks r' !! t' = Some tk -> m <> n \/ t' <> t -> taskOk written r' tk.
Proof using Hinv Hr Ht Hb Hat Hfrom.
  intros Hm Ht' Hne. destruct (inv_run _ _ _ Hinv Hm) as [_ Hrok]. pose proof (runOk_task _ _ _ _ Hrok Ht') as [[Hsch Hok] Hsees].
  destruct written_facts as (Hs & _). split.
  - split; [done|]. destruct (tk_phase tk); auto. destruct Hok as [? Hbeg]. split; [done|]. intros ?. by apply written_begunBy, Hbeg.
  - intros b' (Hb' & Ho & Hf)%owned_Some. cbn in Hb'. apply lookup_insert_Some in Hb' as [[Ei <-]|[Hi Hb']].
    + cbn [ba_owner with_items with_owner ba_items] in Ho |- *. assert (m = n) as -> by (by eapply owner_unique). rewrite Hr in Hm. injection Hm as <-.
      destruct Hne as [?|Hne]; [done|]. rewrite written_items. rewrite decide_False.
      * destruct (Hsees b Hb) as (got' & Hgot & Hp). exists got'. split; [done|].
        destruct (tk_phase tk); cbn in *; auto. destruct Hp as [?|(? & ? & Hbeg)]; [by left|right]. split_and!; [done..|].
        intros ?. by apply written_begunBy, Hbeg.
      * intros E. apply Hne. eapply task_unique; [done..|]. cbn. congruence.
    + destruct (Hsees b') as (got' & Hgot & Hp); [by apply owned_Some|]. exists got'. split; [done|].
      destruct (tk_phase tk); cbn in *; auto. destruct Hp as [?|(? & ? & Hbeg)]; [by left|right]. split_and!; [done..|].
      intros ?. by apply written_begunBy, Hbeg.
Qed.

Lemma written_begins : g = GStart -> begunBy written r it.
Proof using Hinv Hr Ht Hb Hat Hfrom.
  intros E. pose proof (written_unbegun E) as Hu. split.
  - unfold writtenBy; cbn. rewrite E. apply lookup_insert_eq.
  - cbn. intros Hw%(ai_worked _ Hinv). rewrite Hu in Hw. by destruct Hw.
Qed.

Lemma written_check : taskOk written r (mkTask sch (TCheck g it)).
Proof using Hinv Hr Ht Hb Hat Hfrom.
  destruct written_facts as (Hs & Hg & _). split.
  - split; [by intros ? [= <-]|]. split; [done|]. apply written_begins.
  - intros b' (Hb' & _)%owned_Some. cbn in Hb'. apply lookup_insert_Some in Hb' as [[_ <-]|[? _]]; [|done]. cbn [with_items with_owner ba_items tk_schema].
    exists it. rewrite written_items, decide_True by done. done.
Qed.

Lemma written_bounds id schema a w :
  le_begun written !! (id, schema, a) = Some w ->
  (id < le_fresh s)%nat /\
  (forall b' it', le_store written !! id = Some b' -> itemIn schema (ba_items b') = Some it' -> (a <= bi_attempts it')%nat).
Proof using Hinv Hr Ht Hb Hat Hfrom.
  intros Hw. destruct written_facts as (Hs & Hg & Hgot & Ha). pose proof written_items as Hitems. rewrite Hs in Hgot.
  pose proof (proj1 (owned_Some _ _ _ _) Hb) as (Hid & _ & _).
  assert (Hlt : (ru_batch r < le_fresh s)%nat) by (apply not_le; intros Hle; by rewrite (ai_fresh _ Hinv) in Hid).
  assert (Hle : (bi_attempts got <= bi_attempts it)%nat) by (rewrite Ha; destruct g; lia).
  assert (Hcase : le_begun s !! (id, schema, a) = Some w \/ (id, schema, a) = attempt (ru_batch r) it).
  { unfold writtenBy in Hw; cbn in Hw. destruct g; auto. apply lookup_insert_Some in Hw as [[? _]|[_ ?]]; auto. }
  assert (Hnew : forall it', itemIn schema (<[i := it]> (ba_items b)) = Some it' -> ru_batch r = id -> (a <= bi_attempts it')%nat).
  { intros it' Hit' Eid. rewrite Hitems in Hit'. destruct (decide (schema = bi_schema it)) as [Esch|Hne].
    - injection Hit' as <-. destruct Hcase as [Hold|[= _ _ ->]]; [|done].
      apply (ai_begun _ Hinv) in Hold as [_ Hold]. rewrite <- Eid, Esch in Hold. specialize (Hold b got Hid Hgot). lia.
    - destruct Hcase as [Hold|[= _ ? _]]; [|done]. apply (ai_begun _ Hinv) in Hold as [_ Hold]. rewrite <- Eid in Hold. eauto. }
  split; [destruct Hcase as [Hold|[= -> _ _]]; [by apply (ai_begun _ Hinv) in Hold as [? _]|done]|].
  cbn [le_store writtenBy]. intros b' it' [[Eid <-]|[Hne Hb']]%lookup_insert_Some Hit'; [by apply Hnew|].
  destruct Hcase as [Hold|[= E _ _]]; [|done]. apply (ai_begun _ Hinv) in Hold as [_ Hold]. eauto.
Qed.
End written.

Lemma inv_written s n t r sch g it try_ failed b i got now :
  attempts_inv s -> le_runs s !! n = Some r -> ru_tasks r !! t = Some (mkTask sch (TMove g it try_ failed)) ->
  owned (ru_batch r) (ru_owner r) (le_store s) = Some b -> itemAt (bi_schema it) (ba_items b) = Some (i, got) -> bi_state got = fromOf g ->
  attempts_inv (with_run n (set_phase t (TCheck g it) r) (writtenBy r g it b i now s)).
Proof.
  intros H Hr Ht Hb Hat Hfrom. destruct (written_facts _ _ _ _ _ _ _ _ _ _ _ _ H Hr Ht Hb Hat Hfrom) as (Hs & Hg & Hgot & Ha).
  pose proof (proj1 (owned_Some _ _ _ _) Hb) as (Hid & Ho & Hf).
  pose proof (written_items _ _ _ _ _ _ H Hb Hat) as Hitems.
  constructor; cbn -[fmap]; try apply H.
  - intros id Hle. unfold memoryBatches in *. rewrite lookup_insert_ne; [by apply (ai_fresh _ H)|].
    intros <-. rewrite (ai_fresh _ H) in Hid; done.
  - intros id b' [[<- <-]|[_ E]]%lookup_insert_Some; [|by eapply ai_owner]. cbn. by apply (inv_run _ _ _ H Hr).
  - intros id b' [[<- <-]|[_ E]]%lookup_insert_Some; [|by eapply ai_items]. cbn -[fmap insert].
    rewrite (item_written_schemas it (bi_state got) (ba_items b) _ _ (iw_made _ _ _ _ _ Hat eq_refl)). by eapply ai_items.
  - intros x [m Hm]%list_elem_of_lookup. apply list_lookup_insert_Some in Hm as [(<- & <- & _)|[Hne Hm]].
    + destruct (inv_run _ _ _ H Hr) as [Hlt [Hnd Hok]]. split; [done|]. split.
      { cbn -[fmap]. rewrite (list_fmap_alter _ _ id) by (by apply Forall_true). by rewrite list_alter_id. }
      apply Forall_lookup. intros t' tk Htk. cbn in Htk. rewrite list_lookup_alter in Htk. destruct (decide (t = t')) as [<-|Hne].
      * rewrite Ht in Htk. injection Htk as <-. exact (written_check s n t r sch g it try_ failed b i got now H Hr Ht Hb Hat Hfrom).
      * exact (written_task s n t r sch g it try_ failed b i got now H Hr Ht Hb Hat Hfrom n r t' tk Hr Htk (or_intror (not_eq_sym Hne))).
    + destruct (inv_run _ _ _ H Hm) as [Hlt [Hnd _]]. split; [done|]. split; [done|]. apply Forall_lookup. intros t' tk Htk.
      exact (written_task s n t r sch g it try_ failed b i got now H Hr Ht Hb Hat Hfrom m x t' tk Hm Htk (or_introl (not_eq_sym Hne))).
  - rewrite list_fmap_insert, list_insert_id; [apply H|]. by rewrite list_lookup_fmap, Hr.
  - exact (written_bounds s n t r sch g it try_ failed b i got now H Hr Ht Hb Hat Hfrom).
  - intros k Hk%(ai_worked _ H). destruct Hk as [w Hw]. exists w.
    exact (written_begun s n t r sch g it try_ failed b i got now H Hr Ht Hb Hat Hfrom k w Hw).
Qed.

(** An answer of the store tells the run what became of the item. *)
Lemma inv_storeMove s n t r sch g it try_ failed now s1 answer :
  attempts_inv s -> le_runs s !! n = Some r -> ru_tasks r !! t = Some (mkTask sch (TMove g it try_ failed)) ->
  storeMove r now g it s = (s1, answer) ->
  match answer with None => s1 = s | Some _ => attempts_inv (with_run n (set_phase t (TCheck g it) r) s1) end.
Proof.
  intros H Hr Ht. unfold storeMove. pose proof (move_cases (ru_batch r) (ru_owner r) now it (fromOf g) (le_store s)) as Hc.
  destruct (owned _ _ _) as [b|] eqn:Hb; [|rewrite Hc; destruct s, g; by intros [= <- <-]].
  destruct Hc as (items & a & -> & Hw). destruct Hw as [i got Hat Hfrom|Hnot].
  - intros [= <- <-]. pose proof (inv_written s n t r sch g it try_ failed b i got now H Hr Ht Hb Hat Hfrom) as Hi. by destruct g.
  - replace (match g with GStart => _ | _ => _ end) with (le_begun s) by (by destruct g). intros [= <- <-].
    pose proof (proj1 (owned_Some _ _ _ _) Hb) as (Hid & Ho & Hf). destruct (inv_run _ _ _ H Hr) as [Hlt Hrok].
    assert (H1 : attempts_inv (with_fresh (<[ru_batch r := with_items (ba_items b) (with_owner (ru_owner r) now b)]> (le_store s)) (le_fresh s) s)).
    { apply inv_store; [done..|]. intros id b' [[<- <-]|[_ E]]%lookup_insert_Some.
      - split; [done|]. right. exists b. split; [done|]. constructor; [done..|]. cbn. right; right. auto.
      - split; [by eapply ai_owner|]. right. exists b'. split; [done|]. constructor; [done..|]. destruct (finished b') eqn:?; auto. }
    set (s1 := with_fresh _ _ _) in H1. change (attempts_inv (with_run n (set_phase t (TCheck g it) r) s1)).
    assert (Hr1 : le_runs s1 !! n = Some r) by done. destruct (inv_run _ _ _ H1 Hr1) as [_ Hrok1].
    pose proof (runOk_task _ _ _ _ Hrok Ht) as [[Hsch Hg] Hsees]. cbn in Hsch, Hg, Hsees. specialize (Hsch it eq_refl).
    destruct (Hsees b Hb) as (got & Hgot & Hp).
    assert (Hst : bi_state got <> fromOf g).
    { unfold itemIn in Hgot. apply fmap_Some in Hgot as ([i got'] & Hat & ->). eapply Hnot. by rewrite Hsch. }
    destruct Hp as [[? _]|(_ & -> & Hbeg)]; [done|].
    eapply inv_with_run; [done..|]. eapply runOk_set_phase; [done..|]. split.
    + split; [by intros ? [= <-]|]. split; [done|exact Hbeg].
    + intros b' (Hb' & _)%owned_Some. cbn in Hb'. apply lookup_insert_Some in Hb' as [[_ <-]|[? _]]; [|done]. by exists it.
Qed.

(** A run that ends, or moves its own tasks only. *)
Lemma inv_flags s n r r' :
  attempts_inv s -> le_runs s !! n = Some r -> ru_owner r' = ru_owner r -> ru_batch r' = ru_batch r -> ru_tasks r' = ru_tasks r ->
  attempts_inv (with_run n r' s).
Proof.
  intros H Hr Ho Hb Ht. eapply inv_with_run; [done..|]. destruct (inv_run _ _ _ H Hr) as [_ [Hnd Hok]].
  destruct r, r'; cbn in *; subst. exact (conj Hnd Hok).
Qed.

Lemma inv_phase s n r t sch p p' :
  attempts_inv s -> le_runs s !! n = Some r -> ru_tasks r !! t = Some (mkTask sch p) ->
  (taskOk s r (mkTask sch p) -> taskOk s r (mkTask sch p')) -> attempts_inv (with_run n (set_phase t p' r) s).
Proof.
  intros H Hr Ht Himp. destruct (inv_run _ _ _ H Hr) as [_ Hrok]. eapply inv_with_run; [done..|].
  eapply runOk_set_phase; [done..|]. by apply Himp, (runOk_task _ _ _ _ Hrok Ht).
Qed.

Lemma runOk_moved_lost s r t sch g it p :
  runOk s r -> ru_tasks r !! t = Some (mkTask sch p) -> runOk s (moved t g it false r).
Proof.
  intros Hrok Ht. pose proof (taskOk_over _ _ _ _ (runOk_task _ _ _ _ Hrok Ht)).
  destruct g; cbn [moved]; [by apply runOk_over|..]; by eapply runOk_set_phase.
Qed.

Lemma inv_moved_lost s n r t sch g it p :
  attempts_inv s -> le_runs s !! n = Some r -> ru_tasks r !! t = Some (mkTask sch p) -> attempts_inv (with_run n (moved t g it false r) s).
Proof.
  intros H Hr Ht. destruct (inv_run _ _ _ H Hr) as [_ Hrok]. eapply inv_with_run; [done..|by destruct g|]. by eapply runOk_moved_lost.
Qed.

Lemma inv_moveLost s n r t sch g it p :
  attempts_inv s -> le_runs s !! n = Some r -> ru_tasks r !! t = Some (mkTask sch p) -> attempts_inv (with_run n (moveLost t g it r) s).
Proof.
  intros H Hr Ht. destruct (inv_run _ _ _ H Hr) as [_ Hrok]. eapply inv_with_run; [done..|by destruct g|].
  unfold moveLost. eapply runOk_moved_lost; [exact Hrok|exact Ht].
Qed.

(** *** New runs *)

Lemma inv_with_new s st new :
  attempts_inv (with_fresh st (S (le_fresh s)) s) -> (forall r, r ∈ le_runs s -> (ru_owner r < le_fresh s)%nat) ->
  match new with Some r => ru_owner r = le_fresh s /\ runOk (with_fresh st (S (le_fresh s)) s) r | None => True end ->
  attempts_inv (with_new new (with_store st s)).
Proof.
  intros H Hlt Hnew. constructor; try apply H; cbn -[fmap].
  - intros r [Hr|Hr]%elem_of_app; [exact (ai_runs _ H r Hr)|]. destruct new as [r'|]; [|by apply not_elem_of_nil in Hr].
    apply list_elem_of_singleton in Hr as ->. destruct Hnew as [Ho Hok]. split; [lia|exact Hok].
  - rewrite fmap_app. apply NoDup_app. split_and!; [apply (ai_owners _ H)| |destruct new; cbn; [apply NoDup_singleton|constructor]].
    intros w (r & -> & Hr)%list_elem_of_fmap. specialize (Hlt r Hr). destruct new as [r'|]; cbn; [|apply not_elem_of_nil].
    intros E%list_elem_of_singleton. destruct Hnew as [Ho _]. lia.
Qed.

Lemma runOk_tasks s r b (f : BatchItem -> leaseTask) :
  (forall b', owned (ru_batch r) (ru_owner r) (le_store s) = Some b' -> ba_items b' = ba_items b) -> NoDup (bi_schema <$> ba_items b) ->
  ru_tasks r = f <$> ba_items b ->
  (forall it, it ∈ ba_items b -> tk_schema (f it) = bi_schema it /\ phaseOk s r (bi_schema it) (tk_phase (f it)) /\ phaseSees s r (tk_phase (f it)) it) ->
  runOk s r.
Proof.
  intros Hb Hnd Ht Hf. split; rewrite Ht.
  - rewrite <- list_fmap_compose. erewrite list_fmap_ext; [exact Hnd|]. intros i it Hi. cbn. apply Hf. by eapply list_elem_of_lookup_2.
  - apply Forall_fmap, Forall_forall. intros it Hit. destruct (Hf it Hit) as (Hs & Hok & Hsees). unfold compose, taskOk. rewrite Hs.
    split; [done|]. intros b' ->%Hb. exists it. split; [by apply itemIn_elem|done].
Qed.

Lemma queuedTask_ok s r it :
  tk_schema (queuedTask it) = bi_schema it /\ phaseOk s r (bi_schema it) (tk_phase (queuedTask it)) /\ phaseSees s r (tk_phase (queuedTask it)) it.
Proof. unfold queuedTask, phaseOk. destruct (bi_state it) eqn:E; cbn; repeat split; try done; by intros ? [= <-]. Qed.

Lemma takenTask_ok s r it :
  tk_schema (takenTask it) = bi_schema it /\ phaseOk s r (bi_schema it) (tk_phase (takenTask it)) /\ phaseSees s r (tk_phase (takenTask it)) it.
Proof.
  pose proof (queuedTask_ok s r it) as Hq. unfold takenTask. destruct (bi_state it) eqn:E; try exact Hq.
  unfold phaseOk. cbn. repeat split; try done; [by intros ? [= <-]|]. left. by rewrite E.
Qed.

Lemma create_made id b maxOpen st st' id' b' :
  CreateBatch id b maxOpen st = (st', Some (id', b', true)) -> id' = id /\ b' = b /\ st' !! id = Some b.
Proof.
  unfold CreateBatch. destruct (List.find _ _) as [[? ?]|]; [done|]. destruct (_ <=? _)%Z; [done|]. intros [= <- <- <-].
  unfold memoryBatches. by rewrite lookup_insert_eq.
Qed.

Lemma inv_start o b maxOpen now reply s s' :
  attempts_inv s -> saneEvent (LStart b maxOpen now reply) = true -> leaseStep o (LStart b maxOpen now reply) s = Some s' -> attempts_inv s'.
Proof.
  intros H Hsane Hs. cbn [leaseStep] in Hs. set (b' := mkBatch _ _ _ _ _ _ _ _ _) in Hs.
  destruct (CreateBatch (le_fresh s) b' maxOpen (le_store s)) as [st got] eqn:Hc. injection Hs as <-.
  cbn in Hsane. apply andb_prop in Hsane as [Hnd _]. apply bool_decide_eq_true in Hnd.
  assert (Hst : attempts_inv (with_fresh st (S (le_fresh s)) s)).
  { apply inv_store; [done|lia|]. replace st with (CreateBatch (le_fresh s) b' maxOpen (le_store s)).1 by (by rewrite Hc).
    apply storeLe_create; [apply H|done|done]. }
  apply inv_with_new; [done|by intros r Hr; apply (ai_runs _ H)|]. destruct got as [[[i b0] []]|]; [destruct reply|..]; try done.
  apply create_made in Hc as (-> & -> & Hb). split; [done|].
  eapply (runOk_tasks _ _ b' queuedTask); [|exact Hnd|done|intros it _; apply queuedTask_ok].
  intros b0 (E & _)%owned_Some. cbn in E. rewrite Hb in E. by injection E as <-.
Qed.

Lemma with_run_twice n r r' s : with_run n r (with_run n r' s) = with_run n r s.
Proof. unfold with_run. cbn. by rewrite list_insert_insert_eq. Qed.

Lemma set_phase_twice t p p' r : set_phase t p (set_phase t p' r) = set_phase t p r.
Proof. unfold set_phase, with_tasks. cbn. by rewrite list_alter_alter_eq. Qed.

Lemma over_set_phase t p r : overTask <$> ru_tasks (set_phase t p r) = overTask <$> ru_tasks r.
Proof.
  cbn -[fmap]. rewrite (list_fmap_alter _ _ id) by (by apply Forall_true). by apply list_alter_id.
Qed.

Lemma moved_check t g it ok p r : moved t g it ok (set_phase t p r) = moved t g it ok r.
Proof.
  destruct g, ok; cbn [moved]; rewrite ?set_phase_twice; try done. unfold with_tasks. by rewrite over_set_phase.
Qed.

Lemma moveEnds_check n t r g it ok s :
  moveEnds n t (set_phase t (TCheck g it) r) g it ok (with_run n (set_phase t (TCheck g it) r) s) = moveEnds n t r g it ok s.
Proof. unfold moveEnds. by rewrite moved_check, with_run_twice. Qed.

(** *** Steps *)

Lemma inv_move s n t r sch g it try_ failed now s1 answer :
  attempts_inv s -> le_runs s !! n = Some r -> ru_tasks r !! t = Some (mkTask sch (TMove g it try_ failed)) ->
  storeMove r now g it s = (s1, answer) ->
  attempts_inv match answer with
               | Some ok => if ok || negb failed then moveEnds n t r g it ok s1 else with_run n (set_phase t (TCheck g it) r) s1
               | None => with_run n (moveLost t g it r) s1
               end.
Proof.
  intros H Hr Ht Hm. pose proof (inv_storeMove _ _ _ _ _ _ _ _ _ _ _ _ H Hr Ht Hm) as Hi. destruct answer as [ok|].
  - destruct (ok || negb failed); [|done]. rewrite <- moveEnds_check. eapply inv_moveEnds; [done|..|by eapply set_phase_lookup].
    cbn. apply list_lookup_insert_eq. pose proof (storeMove_same s r now g it) as (_ & En & _). rewrite Hm in En. cbn in En. rewrite En.
    by eapply lookup_lt_Some.
  - subst s1. by eapply inv_moveLost.
Qed.

Lemma inv_moveFails s n t r sch g it try_ failed now (made last : bool) :
  attempts_inv s -> le_runs s !! n = Some r -> ru_tasks r !! t = Some (mkTask sch (TMove g it try_ failed)) ->
  attempts_inv (with_run n (if last then moveLost t g it r else set_phase t (TMove g it (S try_) true) r)
    (if made then (storeMove r now g it s).1 else s)).
Proof.
  intros H Hr Ht. destruct (storeMove r now g it s) as [s1 answer] eqn:Hm.
  pose proof (inv_storeMove _ _ _ _ _ _ _ _ _ _ _ _ H Hr Ht Hm) as Hi. pose proof (storeMove_same s r now g it) as (_ & En & _).
  rewrite Hm in En. cbn in En.
  assert (Hnot : attempts_inv (with_run n (if last then moveLost t g it r else set_phase t (TMove g it (S try_) true) r) s)).
  { destruct last; [by eapply inv_moveLost|]. eapply inv_phase; [done..|]. intros [[Hsch Hg] Hsees]. split; [by split|].
    intros b Hb. destruct (Hsees b Hb) as (got & Hgot & Hp). exists got. split; [done|]. cbn in *. destruct Hp as [?|(_ & ? & ?)]; auto. }
  destruct made; [|done]. cbn. destruct answer as [ok|]; [|by subst s1].
  set (rc := set_phase t (TCheck g it) r) in Hi. set (s2 := with_run n rc s1) in Hi.
  assert (Hrc : le_runs s2 !! n = Some rc) by (cbn; apply list_lookup_insert_eq; rewrite En; by eapply lookup_lt_Some).
  assert (Htc : ru_tasks rc !! t = Some (mkTask sch (TCheck g it))) by (by eapply set_phase_lookup).
  replace (with_run n _ s1) with (with_run n (if last then moveLost t g it rc else set_phase t (TMove g it (S try_) true) rc) s2).
  - destruct last; [by eapply inv_moveLost|]. eapply inv_phase; [done..|]. intros Hok. eapply taskOk_impl; [exact Hok|..].
    + destruct Hok as [[Hsch [Hg _]] _]. by split.
    + intros got ->. right. destruct Hok as [[_ [_ Hbeg]] _]. auto.
  - unfold s2, rc. rewrite with_run_twice, set_phase_twice. destruct last; [|done]. unfold moveLost.
    f_equal. apply (moved_check t g it false (TCheck g it) (lose r)).
Qed.

Lemma inv_read s n r b (resume : bool) :
  attempts_inv s -> le_runs s !! n = Some r -> le_store s !! ru_batch r = Some b ->
  attempts_inv (with_run n (mkRun (ru_batch r) (ru_owner r) true (ru_lost r) (ru_stopped r) (ru_closing r)
    (if resume then takenTask <$> ba_items b else [])) s).
Proof.
  intros H Hr Hb. eapply inv_with_run; [done..|]. destruct resume; [|split; cbn; constructor].
  eapply (runOk_tasks _ _ b takenTask); [|by eapply ai_items|done|intros it _; apply takenTask_ok].
  intros b0 (E & _)%owned_Some. cbn in E. rewrite Hb in E. by injection E as <-.
Qed.

Lemma inv_beat o n now reply s s' :
  attempts_inv s -> retakes o (LBeat n now reply) s = false -> leaseStep o (LBeat n now reply) s = Some s' -> attempts_inv s'.
Proof.
  intros H Hre Hs. cbn [leaseStep] in Hs. cbn [retakes] in Hre. destruct (le_runs s !! n) as [r|] eqn:Hr; [|done].
  cbn [mbind option_bind] in Hs. destruct (ClaimBatch _ _ _ _ _) as [st ok] eqn:Hc. destruct (_ || _); [done|]. injection Hs as <-.
  assert (Hs0 : attempts_inv (if reply && negb ok then with_run n (lose r) s else s))
    by (destruct (reply && negb ok); [by eapply inv_flags|done]).
  set (s0 := if reply && negb ok then _ else s) in *.
  assert (Es : le_store s0 = le_store s /\ le_fresh s0 = le_fresh s) by (unfold s0; by destruct (reply && negb ok)).
  destruct Es as [Es Ef]. replace (with_store st s0) with (with_fresh st (le_fresh s0) s0) by (by destruct s0).
  apply inv_store; [done..|]. rewrite Es, Ef. replace st with (ClaimBatch (ru_batch r) (ru_owner r) (now - o_Stale o) now (le_store s)).1 by (by rewrite Hc).
  apply storeLe_claim; [apply H|right|done|by apply (inv_run _ _ _ H Hr)].
  intros b Hb Hne Hst. rewrite Hb in Hre. rewrite bool_decide_eq_false_2 in Hre by done. cbn in Hre. lia.
Qed.

Lemma inv_returned id it res s : attempts_inv s -> attempts_inv (workReturned id it res s).
Proof. intros H. constructor; cbn; try apply H. Qed.

Lemma taskOk_afterWork o s r sch it res now :
  taskOk s r (mkTask sch (TWork it)) -> taskOk s r (mkTask sch (afterWork o it res now)).
Proof.
  intros H. pose proof H as [[Hsch _] _]. cbn in Hsch. specialize (Hsch it eq_refl).
  unfold afterWork. destruct res; repeat case_match; try (by eapply taskOk_over);
    (eapply taskOk_impl; [exact H|split; [by intros ? [= <-]|done]|intros got [-> Hst]; by left]).
Qed.

Lemma inv_step o e s s' :
  attempts_inv s -> saneEvent e = true -> retakes o e s = false -> leaseStep o e s = Some s' -> attempts_inv s'.
Proof.
  intros H Hsane Hre Hs. destruct e; try (by eapply inv_start); try (by eapply inv_beat); cbn [leaseStep] in Hs; crack_step Hs.
  - (* LClaim *)
    apply inv_with_new; [|by intros r Hr; apply (ai_runs _ H)|].
    + apply inv_store; [done|lia|]. replace m with (ClaimBatch id (le_fresh s) (now - o_Stale o) now (le_store s)).1 by (by rewrite Heqp).
      apply storeLe_claim; [apply H|by left|lia|lia].
    + destruct b; [|done]. split; [done|]. split; cbn; constructor.
  - (* LClaimLost *)
    apply inv_with_new; [|by intros r Hr; apply (ai_runs _ H)|done]. apply inv_store; [done|lia|].
    apply storeLe_claim; [apply H|by left|lia|lia].
  - (* LRead *) exact (inv_read s r ru _ _ H Hru Htk).
  - (* LBegin *)
    eapply inv_phase; [done..|]. intros [[Hsch _] Hsees]. split; [split; [|done]|].
    + intros it' [= <-]. cbn. by apply Hsch.
    + intros b Hb. destruct (Hsees b Hb) as (got & Hgot & -> & Hst). exists it. split; [done|]. by left.
  - (* LDrop *) eapply inv_phase; [done..|]. by apply taskOk_over.
  - (* LMove *) by eapply inv_move.
  - (* LMoveFails *) by eapply inv_moveFails.
  - (* LGivesUp *) by eapply inv_moved_lost.
  - (* LCheck *) by eapply inv_moveEnds.
  - by eapply inv_moveLost.
  - (* LWorked *)
    eapply (inv_phase (workReturned (ru_batch ru) it res s)); [by apply inv_returned|done..|]. by apply taskOk_afterWork.
  - (* LStop *) by eapply inv_flags.
  - (* LClose *) by eapply inv_flags.
  - (* LFinish *) apply (inv_store s _ (le_fresh s)); [done..|]. apply storeLe_finish, H.
  - (* LCancel *) apply (inv_store s _ (le_fresh s)); [done..|]. apply storeLe_cancel, H.
Qed.

Lemma inv_noLeases : attempts_inv noLeases.
Proof.
  constructor; cbn; try apply NoDup_nil_2; intros *; rewrite ?lookup_empty; try done; intros Hx; by apply not_elem_of_nil in Hx.
Qed.

Lemma inv_leaseRun o es s :
  attempts_inv s -> forallb saneEvent es = true -> neverRetakes o es s = true -> attempts_inv (leaseRun o es s).
Proof.
  revert s. induction es as [|e es IH]; intros s H; cbn; [done|]. intros [Hs Hes]%andb_prop [Hre Hres]%andb_prop. apply IH; [|done..].
  apply negb_true_iff in Hre. destruct (leaseStep o e s) eqn:E; [by eapply inv_step|done].
Qed.

(** C27. While no heartbeat takes a batch back from a run that itself missed its
    own, runs never redo each other's work: whatever else happens (processes
    that stop, pause or lose the store, batches taken over any number of times,
    writes whose answers were lost and that are tried again), no attempt of an
    item is worked on twice, and no item has fewer attempts recorded than were
    worked on. *)
Theorem attempts_worked_once o es :
  forallb saneEvent es = true -> neverRetakes o es noLeases = true ->
  NoDup (le_worked (leaseRun o es noLeases)) /\
  (forall id schema a b it, (id, schema, a) ∈ le_worked (leaseRun o es noLeases) ->
     le_store (leaseRun o es noLeases) !! id = Some b -> it ∈ ba_items b -> bi_schema it = schema -> (a <= bi_attempts it)%nat).
Proof.
  intros Hes Hre. pose proof (inv_leaseRun o es _ inv_noLeases Hes Hre) as H. split; [apply H|].
  intros id schema a b it Hw Hb Hit Hs. apply (ai_worked _ H) in Hw as [w Hw]. apply (ai_begun _ H) in Hw as [_ Hw].
  eapply Hw; [done|]. apply itemIn_elem; [by eapply ai_items|done..].
Qed.

(** ** Examples *)

Definition scanOptions : Options := mkOptions 3 5000000 30000000 4.

Definition scanOf (schema : string) : Batch := mkBatch "shop" "root" "" 0 0 None 0 false [mkItem schema ItemPending "" 0 None].

(** The first run begins and pauses; the second takes over, tries again a
    write whose answer was lost, works and ends the batch. *)
Definition takenOver : list leaseEvent :=
  [LStart (scanOf "s") 3 0 true; LBegin 0 0; LMove 0 0 1; LClaim 0 40000000; LRead 1 true; LMove 1 0 40000001; LBegin 1 0;
   LMoveFails 1 0 40000002 true; LMove 1 0 40000003; LCheck 1 0 true; LWorked 1 0 (RDone "5 tables") 40000004; LMove 1 0 40000005;
   LFinish 1 40000006].

Definition scanned : BatchItem := mkItem "s" ItemDone "5 tables" 2 None.

Lemma batches_settle_witness :
  (0%nat, "s", 2%nat, ItemDone, "5 tables") ∈ le_results (leaseRun scanOptions takenOver noLeases).
Proof.
  refine (proj1 (batches_settle scanOptions takenOver [LWorked 0 0 (RFailed "late") 50000000; LMove 0 0 50000001] 0
    (mkBatch "shop" "root" "" 1 0 (Some 40000006) 40000006 false [scanned]) _ _) scanned _ _).
  - vm_compute. reflexivity.
  - vm_compute. reflexivity.
  - apply list_elem_of_here.
  - left. reflexivity.
Defined.

Lemma attempts_worked_once_witness : NoDup [(0%nat, "s", 2%nat); (0%nat, "s", 1%nat)].
Proof.
  change (NoDup (le_worked (leaseRun scanOptions takenOver noLeases))). refine (proj1 (attempts_worked_once scanOptions takenOver _ _)); vm_compute; reflexivity.
Defined.

(** A heartbeat that comes once the run that took over missed its own takes
    the batch back: the paused run records its old attempt over the newer one,
    and tries again the attempt the other works on. *)
Example heartbeat_takes_back :
  let es := [LStart (scanOf "s") 3 0 true; LBegin 0 0; LMove 0 0 1; LClaim 0 40000000; LRead 1 true; LMove 1 0 40000001; LBegin 1 0;
             LMove 1 0 40000002; LBeat 0 80000000 true; LWorked 0 0 (RFailed "timeout") 80000001; LMove 0 0 80000002; LBegin 0 0; LMove 0 0 90000000] in
  forallb saneEvent es = true /\ neverRetakes scanOptions es noLeases = false /\
  le_worked (leaseRun scanOptions es noLeases) = [(0%nat, "s", 2%nat); (0%nat, "s", 2%nat); (0%nat, "s", 1%nat)].
Proof. split_and!; vm_compute; reflexivity. Qed.
