(* ===== verification/TransactionTools.v ===== *)
(** The transaction tools, core/tool/transaction_tools.go: begin_transaction up
    to the manager's Begin, commit_transaction and rollback_transaction around
    its Commit and Rollback (Transaction.v).

    Connections are numbers.  Inputs are decoded; timeouts are left out. *)

From S2P Require Import Prelude GoString Value Relalg Entity EntityFacts Numbers Transaction Cache CacheTheorems Rbac Invalidation InvalidationTheorems Pipeline Describe.

Inductive IsolationLevel : Type := LevelReadUncommitted | LevelReadCommitted | LevelRepeatableRead | LevelSerializable.

Definition parseIsolation (value : string) : outcome IsolationLevel :=
  if bool_decide (value = "") || bool_decide (value = "read_committed") then Done LevelReadCommitted
  else if bool_decide (value = "read_uncommitted") then Done LevelReadUncommitted
  else if bool_decide (value = "repeatable_read") then Done LevelRepeatableRead
  else if bool_decide (value = "serializable") then Done LevelSerializable
  else Refused EInvalidInput.

(** What the tools use of a Context beside it: TxBeginners, the ReadTx of its
    sources, and whether it has a transaction manager. *)
Record txServices : Type := mkTxServices {
  xt_tc : Context;
  xt_beginners : option (gmap string nat);
  xt_readTx : gmap string nat;
  xt_manager : bool;
}.

Record beginTransactionInput : Type := mkBeginInput { bt_datasource : string; bt_isolation : string; bt_readOnly : option bool }.

Definition parseBeginTransactionInput (i : beginTransactionInput) : beginTransactionInput :=
  mkBeginInput (if bool_decide (bt_datasource i = "") then "default" else bt_datasource i) (bt_isolation i) (bt_readOnly i).

Definition readTxOf (x : txServices) (datasource : string) : option nat :=
  match x_sources (xt_tc x) !! datasource with Some _ => xt_readTx x !! datasource | None => None end.

(** [None] is a datasource without a connection of its own. *)
Definition txConnections (x : txServices) (datasource : string) : list (option nat) :=
  match xt_beginners x with
  | None => []
  | Some bs => (bs !! datasource) :: match readTxOf x datasource with Some r => [Some r] | None => [] end
  end.

(** The only beginner, with its name, when there is one. *)
Definition onlyBeginner (bs : gmap string nat) : option (string * nat) :=
  match map_to_list bs with [nb] => Some nb | _ => None end.

Definition resolveTxBeginner (x : txServices) (datasource : string) : outcome (nat * string) :=
  let bs := default ∅ (xt_beginners x) in
  let found := match bs !! datasource with
               | Some b => Some (datasource, b)
               | None => if bool_decide (datasource = "default") then onlyBeginner bs else None
               end in
  match found with
  | Some (name, b) => if xt_manager x then Done (b, name) else Refused EInvalidInput
  | None => Refused EInvalidInput
  end.

Definition txAction (write : bool) (action : Action) : bool :=
  negb (write && (bool_decide (action = ActionRead) || bool_decide (action = ActionAggregate))).

Section begin.
Context `{GoStd}.

Definition entityAllows (tc : Context) (datasource : string) (write : bool) (e : Entity) : bool :=
  bool_decide (DatasourceName e = datasource) &&
  existsb (fun action => txAction write action &&
             Allowed (authorize (x_authorizer tc) (mkRequest (x_role tc) (EName e) action [] [] [] (x_subject tc) PNil)))
    (ActionsFor (EKind e)).

Definition transactionAllowed (tc : Context) (datasource : string) (write : bool) : bool :=
  existsb (entityAllows tc datasource write) (entities (x_registry tc)).

Definition resolveTransactionReadOnly (tc : Context) (datasource : string) (requested : option bool) : outcome bool :=
  let write := match requested with Some false => true | _ => false end in
  if transactionAllowed tc datasource write then Done (negb write) else Refused ENotAuthorized.

(** What Begin is asked. *)
Record beginRequest : Type := mkBegin {
  br_connection : nat;
  br_datasource : string;
  br_isolation : IsolationLevel;
  br_readOnly : bool;
}.

(** BeginTransactionTool.Run, up to Begin *)
Definition beginTransactionTool (x : txServices) (i : beginTransactionInput) : outcome beginRequest :=
  let i := parseBeginTransactionInput i in
  '(beginner, datasource) ← resolveTxBeginner x (bt_datasource i);
  readOnly ← resolveTransactionReadOnly (xt_tc x) datasource (bt_readOnly i);
  let beginner :=
    match x_sources (xt_tc x) !! datasource, readTxOf x datasource with
    | Some source, Some r => if readOnly && negb (followsWrite (xt_tc x) source datasource) then r else beginner
    | _, _ => beginner
    end in
  isolation ← parseIsolation (bt_isolation i);
  Done (mkBegin beginner datasource isolation readOnly).

End begin.

Definition transactionToken (token : string) : outcome string :=
  if bool_decide (token = "") then Refused EInvalidInput else Done token.

(** The token a tool ends a transaction by, when there is a manager. *)
Definition endsToken (manager : bool) (token : string) : outcome string :=
  token ← transactionToken token;
  if manager then Done token else Refused (ETransaction ErrTransactionNotFound).

Section ends.
Context {V : Type}.

(** CommitTransactionTool.Run, by what Commit answers for the token; what
    follows a write is done too when the commit may have been made. *)
Definition commitTransactionTool (manager : bool) (token : string) (now : Z) (session : string) (window : string -> Z) (w : WriteTargets)
    (Commit : string -> list CacheTarget * option txError) (tr : WriteTracker) (c : TTLCache V)
  : outcome unit * result (WriteTracker * TTLCache V) :=
  match endsToken manager token with
  | Refused e => (Refused e, Ok (tr, c))
  | Done token =>
      let '(targets, err) := Commit token in
      match err with
      | Some (ErrOutcomeUnknown cause) => (Refused (ETransaction (ErrOutcomeUnknown cause)), applyWrite now session window w targets tr c)
      | Some err => (Refused (ETransaction err), Ok (tr, c))
      | None => (Done tt, applyWrite now session window w targets tr c)
      end
  end.

Definition rollbackTransactionTool (manager : bool) (token : string) (Rollback : string -> option txError) : outcome unit :=
  token ← endsToken manager token;
  match Rollback token with Some err => Refused (ETransaction err) | None => Done tt end.

End ends.

(** ** Beginning *)

Section governed.
Context `{GoStd}.

Lemma transactionAllowed_spec tc datasource write :
  transactionAllowed tc datasource write = true <->
  exists e action, e ∈ entities (x_registry tc) /\ DatasourceName e = datasource /\ action ∈ ActionsFor (EKind e) /\
    (write = true -> action <> ActionRead /\ action <> ActionAggregate) /\
    Allowed (authorize (x_authorizer tc) (mkRequest (x_role tc) (EName e) action [] [] [] (x_subject tc) PNil)) = true.
Proof.
  assert (Htx : forall action, txAction write action = true <-> (write = true -> action <> ActionRead /\ action <> ActionAggregate)).
  { intros action. unfold txAction. destruct write, action; cbn; split; intros; try done; naive_solver. }
  unfold transactionAllowed, entityAllows. rewrite existsb_exists. setoid_rewrite andb_true_iff. setoid_rewrite existsb_exists.
  setoid_rewrite bool_decide_eq_true. setoid_rewrite andb_true_iff. setoid_rewrite Htx. setoid_rewrite <- list_elem_of_In. naive_solver.
Qed.

Lemma onlyBeginner_Some bs name b : onlyBeginner bs = Some (name, b) -> bs = {[name := b]}.
Proof.
  unfold onlyBeginner. destruct (map_to_list bs) as [|nb [|]] eqn:E; try done. intros [= ->].
  rewrite <- (list_to_map_to_list bs), E. cbn. apply insert_empty.
Qed.

Lemma resolveTxBeginner_Done x datasource b name :
  resolveTxBeginner x datasource = Done (b, name) ->
  xt_manager x = true /\ default ∅ (xt_beginners x) !! name = Some b /\
  (name = datasource \/ (datasource = "default" /\ default ∅ (xt_beginners x) = {[name := b]})).
Proof.
  unfold resolveTxBeginner. set (bs := default ∅ (xt_beginners x)). destruct (bs !! datasource) as [b0|] eqn:E.
  - destruct (xt_manager x); [|done]. intros [= <- <-]. auto.
  - case_bool_decide as Hd; [|done]. destruct (onlyBeginner bs) as [[n0 b0]|] eqn:Eo; [|done].
    destruct (xt_manager x); [|done]. intros [= <- <-]. apply onlyBeginner_Some in Eo. rewrite Eo.
    split_and!; [done|apply lookup_singleton_eq|auto].
Qed.

(** A transaction is begun only for a caller who may act on some entity of
    its datasource, and read-write only when that is asked for and some action
    that writes is allowed; it runs on a connection of the datasource, which the
    configuration still routes to, and on the read connection only when it is
    read-only and no read of the session has to follow a write. *)
Theorem begin_governed x i r :
  beginTransactionTool x i = Done r ->
  (exists e action, e ∈ entities (x_registry (xt_tc x)) /\ DatasourceName e = br_datasource r /\ action ∈ ActionsFor (EKind e) /\
     (br_readOnly r = false -> action <> ActionRead /\ action <> ActionAggregate) /\
     Allowed (authorize (x_authorizer (xt_tc x)) (mkRequest (x_role (xt_tc x)) (EName e) action [] [] [] (x_subject (xt_tc x)) PNil)) = true) /\
  (br_readOnly r = false <-> bt_readOnly i = Some false) /\
  Some (br_connection r) ∈ txConnections x (br_datasource r) /\
  (default ∅ (xt_beginners x) !! br_datasource r = Some (br_connection r) \/
   (br_readOnly r = true /\ readTxOf x (br_datasource r) = Some (br_connection r) /\
    forall source, x_sources (xt_tc x) !! br_datasource r = Some source -> followsWrite (xt_tc x) source (br_datasource r) = false)).
Proof.
  unfold beginTransactionTool. intros ([b name] & Hres & Hx)%outcome_bind_done. apply outcome_bind_done in Hx as (ro & Hro & Hx).
  apply outcome_bind_done in Hx as (iso & _ & [= <-]). cbn [br_connection br_datasource br_readOnly].
  apply resolveTxBeginner_Done in Hres as (_ & Hb & _).
  unfold resolveTransactionReadOnly in Hro. set (write := match _ with Some false => true | _ => false end) in Hro.
  destruct (transactionAllowed _ _ _) eqn:Hal; [|done]. injection Hro as <-.
  assert (Hbs : exists bs, xt_beginners x = Some bs) by (destruct (xt_beginners x); [eauto|change ((∅ : gmap string nat) !! name = Some b) in Hb; by rewrite lookup_empty in Hb]).
  destruct Hbs as [bs Hbs]. split_and!.
  - apply transactionAllowed_spec in Hal as (e & a & ? & ? & ? & Ha & ?). exists e, a. split_and!; auto; intros ?%negb_false_iff; by apply Ha.
  - unfold write; cbn. destruct (bt_readOnly i) as [[]|]; cbn; naive_solver.
  - unfold txConnections. rewrite Hbs in Hb |- *. cbn in Hb. rewrite Hb. unfold readTxOf.
    destruct (x_sources _ !! name) as [source|]; [|left]. destruct (xt_readTx x !! name) as [rt|]; [|left].
    destruct (_ && _); [right; left|left].
  - unfold readTxOf. destruct (x_sources _ !! name) as [source|]; [|by left]. destruct (xt_readTx x !! name) as [rt|]; [|by left].
    destruct (negb write && _) eqn:E; [|by left]. right. apply andb_prop in E as [? ?%negb_true_iff].
    split_and!; [done..|]. by intros ? [= <-].
Qed.

End governed.

(** ** Ending *)

Section followed.
Context {V : Type}.
Implicit Types c : TTLCache V.

Lemma applyWrite_spec now session window w targets tr c :
  cacheOk c -> withinCaps c ->
  exists c', applyWrite now session window w targets tr c = Ok (recordWrites now session window w ∅ targets tr, c') /\
    (forall t, t ∈ targets ->
       (forall k, CacheTheorems.covers (Physical t, Transaction.Relation t) k -> c_m c' !! k = None) /\ Stamp (Physical t) c < Stamp (Physical t) c').
Proof.
  intros Hc Hw. destruct (invalidate_spec targets c Hc Hw) as (c' & Hinv & _ & _ & Hall). exists c'.
  unfold applyWrite. rewrite Hinv. cbn. split; [done|]. intros t Ht. destruct (Hall t Ht). auto.
Qed.

(** What the database does with a commit: it is made, or its end is in doubt, or
    it is not made. *)
Definition dbCommits (a : answers) : Prop := a_ctx a = None /\ a_commit a = None.
Definition dbInDoubt (a : answers) : Prop := a_ctx a = None /\ exists e, a_commit a = Some e /\ uncertain e = true.

(** C20. A commit tells the truth and is followed whenever it may have been made.
    For a transaction that is open, a token that is not empty, and a cache as
    its calls leave it: the tool answers that it committed, and the outcome is
    committed, exactly when the database's Commit succeeded (asked once, and
    nothing after); the outcome is unknown, and the tool says so, exactly when
    that Commit failed in doubt.  In both cases no cached read of what the
    transaction wrote is left, no read that began before is stored after, and
    the session's reads of the databases written follow it.  Otherwise the
    transaction was rolled back, the tool answers an error, and nothing cached
    changes. *)
Theorem commit_followed (a : answers) (h h' : transactionHandle) o answer Commit token now session window w tr c :
  cacheOk c -> withinCaps c -> handle_finish a true h = (h', (o, answer)) -> h_closed h = false -> token <> "" -> Commit token = answer ->
  exists res tr' c', commitTransactionTool true token now session window w Commit tr c = (res, Ok (tr', c')) /\
    (res = Done tt <-> dbCommits a) /\ (o = OutcomeCommitted <-> dbCommits a) /\
    (h_calls h' = h_calls h ++ [TxCommit None] <-> dbCommits a) /\
    (o = OutcomeUnknown <-> dbInDoubt a) /\
    (dbInDoubt a -> exists e, a_commit a = Some e /\ res = Refused (ETransaction (ErrOutcomeUnknown e)) /\
       h_calls h' = h_calls h ++ [TxCommit (Some e); TxRollback]) /\
    (dbCommits a \/ dbInDoubt a -> forall t, t ∈ h_dirty h ->
       (forall k, CacheTheorems.covers (Physical t, Transaction.Relation t) k ->
          c_m c' !! k = None /\ forall now' v stamp size, stamp <= Stamp (Database k) c -> SetSized now' k v stamp size c' = Ok c') /\
       (forall d, d ∈ default [] (wt_datasources w !! Physical t) -> 0 < window d -> Recent now session d tr' = true)) /\
    (~ dbCommits a -> ~ dbInDoubt a -> o = OutcomeRolledBack /\ (exists cs, h_calls h' = h_calls h ++ cs ++ [TxRollback]) /\
       (exists e, res = Refused e) /\ tr' = tr /\ c' = c).
Proof.
  intros Hc Hw Hf Hcl Htok Hans. unfold commitTransactionTool, endsToken, transactionToken. rewrite bool_decide_eq_false_2 by done.
  cbn [mbind outcome_bind]. rewrite Hans. unfold handle_finish in Hf. rewrite Hcl in Hf.
  destruct (applyWrite_spec now session window w (elements (h_dirty h)) tr c Hc Hw) as (c' & Happ & Hall).
  assert (Hdirty : forall t, t ∈ h_dirty h ->
    (forall k, CacheTheorems.covers (Physical t, Transaction.Relation t) k ->
       c_m c' !! k = None /\ forall now' v stamp size, stamp <= Stamp (Database k) c -> SetSized now' k v stamp size c' = Ok c') /\
    (forall d, d ∈ default [] (wt_datasources w !! Physical t) -> 0 < window d ->
       Recent now session d (recordWrites now session window w ∅ (elements (h_dirty h)) tr) = true)).
  { intros t Ht%elem_of_elements. destruct (Hall t Ht) as [Hgone Hst]. split.
    - intros k Hk. split; [by apply Hgone|]. intros now' v stamp size Hle. destruct Hk as [Hdb _]. cbn in Hdb. rewrite <- Hdb in Hle.
      unfold SetSized. rewrite <- Hdb, (proj2 (Z.eqb_neq _ _)); [done|lia].
    - intros d Hd Hwin. eapply recordWrites_recent; [done|set_solver|done..]. }
  assert (Hcalls : forall cs, h_calls h ++ cs = h_calls h ++ [TxCommit None] -> cs = [TxCommit None]) by (intros cs; apply app_inv_head).
  unfold dbCommits, dbInDoubt. destruct (a_ctx a) as [e|].
  { injection Hf as <- <- <-. eexists _, tr, c. cbn. split_and!; [done|by split; [|intros [? _]]|by split; [|intros [? _]]|
      by split; [intros ?%Hcalls|intros [? _]]|by split; [|intros [? _]]|by intros [? _]|by intros [[? _]|[? _]]|].
    intros _ _. split_and!; [done|by exists []|eauto|done|done]. }
  assert (Hwrap : forall e, exists e', WrapDBError (Some e) = Some e') by (intros e; cbn; repeat case_match; eauto).
  destruct (a_commit a) as [e|].
  - assert (Hno : ~ (@None goErr = None /\ Some e = None)) by (by intros [_ ?]). destruct (uncertain e) eqn:Eu.
    + assert (Hyes : @None goErr = None /\ exists e0, Some e = Some e0 /\ uncertain e0 = true) by eauto.
      injection Hf as <- <- <-. rewrite Happ. eexists _, _, c'. cbn. split_and!; [done|by split|by split|by split; [intros ?%Hcalls|]|by split|eauto|auto|done].
    + assert (Hno' : ~ (@None goErr = None /\ exists e0, Some e = Some e0 /\ uncertain e0 = true)) by (intros (_ & e0 & [= <-] & ?); congruence).
      destruct (Hwrap e) as [e' Ew]. rewrite Ew in Hf. injection Hf as <- <- <-. eexists _, tr, c. cbn.
      split_and!; [done|by split|by split|by split; [intros ?%Hcalls|]|by split|done|by intros []|].
      intros _ _. split_and!; [done|by exists [TxCommit (Some e)]|eauto|done|done].
  - assert (Hno : ~ (@None goErr = None /\ exists e0 : goErr, None = Some e0 /\ uncertain e0 = true)) by (by intros (_ & e0 & ? & _)).
    injection Hf as <- <- <-. rewrite Happ. eexists _, _, c'. cbn. split_and!; [done|by split|by split|by split|by split|done|auto|].
    intros Hn. by destruct Hn.
Qed.

End followed.

(** ** Examples *)

#[local] Existing Instance asciiStd.

(** A reader of one datasource, which is the only one. *)
Definition oneSystem : txServices := mkTxServices (reader ["erp"]%string) (Some {[ "erp"%string := 1%nat ]}) ∅ true.

Example reader_begins :
  beginTransactionTool oneSystem (mkBeginInput "" "serializable" None) = Done (mkBegin 1 "erp" LevelSerializable true) /\
  beginTransactionTool oneSystem (mkBeginInput "erp" "" (Some false)) = Refused ENotAuthorized /\
  beginTransactionTool oneSystem (mkBeginInput "crm" "" None) = Refused EInvalidInput.
Proof. vm_compute. auto. Qed.

Lemma begin_governed_witness :
  exists e action, e ∈ entities systemsRegistry /\ DatasourceName e = "erp"%string /\ action ∈ ActionsFor (EKind e) /\
    Allowed (authorize (x_authorizer (reader ["erp"]%string)) (mkRequest "clerk" (EName e) action [] [] [] ∅ PNil)) = true.
Proof.
  destruct (begin_governed oneSystem (mkBeginInput "" "serializable" None) (mkBegin 1 "erp" LevelSerializable true)) as [(e & a & H1 & H2 & H3 & _ & H4) _].
  - vm_compute. reflexivity.
  - exists e, a. split; [exact H1|]. split; [exact H2|]. split; [exact H3|exact H4].
Defined.

(** A transaction that wrote to the items. *)
Definition itemsWritten : transactionHandle :=
  mkHandle (mkIdentity 0 "s" "scope" "main" None) {[ mkTarget shopDatabase (cacheRelation shopItems) ]} false 0 0 0 false [] false.

Lemma commit_followed_witness :
  match commitTransactionTool true "t" 5 "s" (fun _ => 10) shopTargets
          (fun _ => (handle_finish (mkAnswers None (Some [StoreConnectionLost]) None) true itemsWritten).2.2) (NewWriteTracker 0) shopFilled with
  | (Refused _, Ok (tr, c)) => c_m c !! itemsKey = None
  | _ => False
  end.
Proof.
  destruct (commit_followed (mkAnswers None (Some [StoreConnectionLost]) None) itemsWritten
              (handle_finish (mkAnswers None (Some [StoreConnectionLost]) None) true itemsWritten).1
              OutcomeUnknown (handle_finish (mkAnswers None (Some [StoreConnectionLost]) None) true itemsWritten).2.2
              (fun _ => (handle_finish (mkAnswers None (Some [StoreConnectionLost]) None) true itemsWritten).2.2) "t" 5 "s" (fun _ => 10) shopTargets (NewWriteTracker 0) shopFilled)
    as (res & tr & c & -> & Hres & _ & _ & _ & _ & Hdrop & _).
  - apply shopFilled_ok.
  - apply shopFilled_ok.
  - reflexivity.
  - reflexivity.
  - discriminate.
  - reflexivity.
  - destruct res as [[]|e].
    + exfalso. destruct (proj1 Hres eq_refl) as [_ Hno]. discriminate Hno.
    + destruct (Hdrop (or_intror (conj eq_refl (ex_intro _ [StoreConnectionLost] (conj eq_refl eq_refl)))) (mkTarget shopDatabase (cacheRelation shopItems))) as [Hgone _]; [cbn [itemsWritten h_dirty]; by apply elem_of_singleton|].
      apply Hgone. split; [reflexivity|]. right. right. reflexivity.
Defined.
