(* ===== verification/RunTool.v ===== *)
(** What every call goes through: RunTool of core/tool/tool.go with
    engineSubmitKey, acquireToolBudget and finalizeToolResult, and the audit
    record of core/tool/tool_audit.go.

    What the parts of a call answer is given: the reference, the caller's own
    limits, the budget, the tool through the engine (Engine.v), the audit sink.
    The model is the order of what is done, with what is accounted, recorded and
    returned.  encoding/json's length of a result is a parameter; hooks are
    marks in the trace, as are the ends of the metering and of the admission,
    which Go defers. *)

From S2P Require Import Prelude GoString Value Relalg Entity Transaction Invalidation Budget Results.

(** ** Shared executions *)

Section keys.
Context `{SubjectText}.

Record readCall : Type := mkShared {
  sc_tool : string;
  sc_readOnly : bool;
  sc_role : string;
  sc_subject : gmap string value;
  sc_session : string;
  sc_input : string;
  sc_transaction : string;                 (** transactionFromInput of the input *)
}.

(** engineSubmitKey: the key of a call, or why it is refused; [validate] is
    the manager's Validate, or ErrTransactionNotFound without one. *)
Definition engineSubmitKey (now : Z) (w : WriteTracker) (validate : string -> option txError) (c : readCall) : txError + string :=
  if negb (sc_readOnly c) then inr ""
  else if bool_decide (sc_transaction c = "") then
    let key := sc_tool c +:+ NUL +:+ scopeKey (sc_role c) (sc_subject c) +:+ NUL +:+ sc_input c in
    inr (if Wrote now (sc_session c) w then key +:+ NUL +:+ "session=" +:+ sc_session c else key)
  else match validate (sc_transaction c) with Some err => inl err | None => inr "" end.

Definition unseparated (s : string) : Prop := has_byte Ascii.zero s = false.

(** What a call's texts are: names and roles of the configuration, and texts
    of encoding/json, which escapes control characters. *)
Definition separable (c : readCall) : Prop :=
  unseparated (sc_tool c) /\ unseparated (sc_role c) /\ unseparated (subjectText (sc_subject c)) /\ unseparated (sc_input c).

End keys.

(** ** A call *)

Record toolKind : Type := mkKind { tk_readOnly : bool; tk_ends : bool; tk_durable : bool }.

Inductive auditor : Type := NoAuditor | BestEffort | Durable (failed : bool).

Section call.
Context {A E : Type} (encodedLen : list A -> option Z) (exceeded auditUnavailable : E).

Record callResult : Type := mkCallResult {
  cr_content : list A;
  cr_returnedRows : Z;
  cr_counted : bool;
  cr_returnedBytes : Z;
  cr_estimatedRows : Z;
}.

Definition noResult : callResult := mkCallResult [] 0 false 0 0.

Definition returnedRows (res : callResult) : Z :=
  if cr_counted res || (0 <? cr_returnedRows res) then cr_returnedRows res else Z.of_nat (length (cr_content res)).

Record callEnv : Type := mkEnv {
  cv_refErr : option E;
  cv_admit : option E;
  cv_budget : option (option E);           (** none, or its refusal *)
  cv_maxReturnedBytes : Z;
  cv_run : bool -> callResult * option E;  (** the tool, directly or through the engine *)
  cv_milliseconds : Z;
  cv_complete : Usage -> option E;
  cv_auditor : auditor;
}.

Inductive callEffect : Type :=
  | BeforeTool | Invoked (direct : bool) | Completed (u : Usage) | OnError | AfterTool
  | Audited (allowed : bool) (rows : Z) | EndMetering | ReleaseCaller.

(** The content of a result no meter counted is measured, and a read's held
    to the limit. *)
Definition measured (env : callEnv) (readOnly : bool) (res : callResult) (err : option E) : callResult * option E :=
  if cr_returnedBytes res =? 0 then
    match encodedLen (cr_content res) with
    | Some n =>
        (mkCallResult (cr_content res) (cr_returnedRows res) (cr_counted res) n (cr_estimatedRows res),
         match err with
         | None => if readOnly && (0 <? cv_maxReturnedBytes env) && (cv_maxReturnedBytes env <? n) then Some exceeded else None
         | Some _ => err
         end)
    | None => (res, err)
    end
  else (res, err).

Definition usageOf (env : callEnv) (res : callResult) : Usage :=
  mkUsage (cr_estimatedRows res) (returnedRows res) (cr_returnedBytes res) (1000000 * cv_milliseconds env) (returnedRows res + cv_milliseconds env).

Definition finalizeToolResult (env : callEnv) (readOnly leased : bool) (res : callResult) (err : option E)
  : callResult * option E * list callEffect :=
  let '(res, err) := measured env readOnly res err in
  if leased then
    let budgetErr := cv_complete env (usageOf env res) in
    (res, match err with None => if readOnly then budgetErr else None | Some _ => err end, [Completed (usageOf env res)])
  else (res, err, []).

(** recordToolAudit *)
Definition recordToolAudit (env : callEnv) (durable : bool) (res : callResult) (err : option E) : option E * list callEffect :=
  let event := [Audited (negb (bool_decide (is_Some err))) (returnedRows res)] in
  match cv_auditor env with
  | NoAuditor => (None, [])
  | BestEffort => if durable then (Some auditUnavailable, []) else (None, event)
  | Durable failed => if durable then (if failed then Some auditUnavailable else None, if failed then [] else event) else (None, event)
  end.

(** The admission of a call: its error, whether its caller is to be released
    and whether it has a lease. *)
Definition admission (t : toolKind) (env : callEnv) : option E * bool * bool :=
  match cv_refErr env with
  | Some e => (Some e, false, false)
  | None =>
      if tk_ends t then (None, false, false)
      else match cv_admit env with
           | Some e => (Some e, false, false)
           | None => match cv_budget env with
                     | None => (None, true, false)
                     | Some (Some e) => (Some e, true, false)
                     | Some None => (None, true, true)
                     end
           end
  end.

Definition RunTool (t : toolKind) (env : callEnv) : callResult * option E * list callEffect :=
  let '(err, release, leased) := admission t env in
  let '(res, err, ran) :=
    match err with
    | None =>
        let '(res, err) := cv_run env (tk_ends t) in
        let '(res, err, completed) := finalizeToolResult env (tk_readOnly t) leased res err in
        (res, err, Invoked (tk_ends t) :: completed)
    | Some e => (noResult, Some e, [])
    end in
  let '(auditErr, event) := recordToolAudit env (tk_durable t) res err in
  let trace := BeforeTool :: ran ++ (if bool_decide (is_Some err) then [OnError] else []) ++ AfterTool :: event
                 ++ EndMetering :: (if release then [ReleaseCaller] else []) in
  match auditErr, err with
  | Some e, None => (noResult, Some e, trace)
  | _, _ => (res, err, trace)
  end.

End call.

(** ** Theorems *)

Lemma unseparated_split a r a' r' :
  unseparated a -> unseparated a' -> a +:+ NUL +:+ r = a' +:+ NUL +:+ r' -> a = a' /\ r = r'.
Proof. apply split_byte_inj. Qed.

Lemma unseparated_not a r s : unseparated s -> s <> a +:+ NUL +:+ r.
Proof. unfold unseparated. intros Hs ->. rewrite !has_byte_app in Hs. simpl in Hs. by rewrite orb_true_r in Hs. Qed.

(** C24. Calls share an execution, and with it a result, only when they are the
    same read by the same caller: the same tool and input, under the same role
    and subject, outside transactions; and once a session wrote lately, its
    reads are shared with none but its own. *)
Theorem shared_calls_same_caller `{SubjectText} now w validate c now' w' validate' c' key :
  separable c -> separable c' -> key <> "" ->
  engineSubmitKey now w validate c = inr key -> engineSubmitKey now' w' validate' c' = inr key ->
  (sc_readOnly c = true /\ sc_readOnly c' = true) /\ (sc_transaction c = "" /\ sc_transaction c' = "") /\
  sc_tool c = sc_tool c' /\ sc_role c = sc_role c' /\ subjectText (sc_subject c) = subjectText (sc_subject c') /\ sc_input c = sc_input c' /\
  Wrote now (sc_session c) w = Wrote now' (sc_session c') w' /\ (Wrote now (sc_session c) w = true -> sc_session c = sc_session c').
Proof.
  intros (Ht & Hr & Hs & Hi) (Ht' & Hr' & Hs' & Hi') Hne Hk Hk'. unfold engineSubmitKey in Hk, Hk'.
  destruct (sc_readOnly c); [|by injection Hk as <-]. destruct (sc_readOnly c'); [|by injection Hk' as <-]. cbn [negb] in Hk, Hk'.
  destruct (bool_decide_reflect (sc_transaction c = "")) in Hk; [|destruct (validate _); [done|by injection Hk as <-]].
  destruct (bool_decide_reflect (sc_transaction c' = "")) in Hk'; [|destruct (validate' _); [done|by injection Hk' as <-]].
  injection Hk as Hk. injection Hk' as Hk'. rewrite <- Hk' in Hk. unfold scopeKey in Hk. clear Hk' Hne.
  assert (E : sc_tool c +:+ NUL +:+ sc_role c +:+ NUL +:+ subjectText (sc_subject c) +:+ NUL +:+ sc_input c +:+
                (if Wrote now (sc_session c) w then NUL +:+ "session=" +:+ sc_session c else "") =
              sc_tool c' +:+ NUL +:+ sc_role c' +:+ NUL +:+ subjectText (sc_subject c') +:+ NUL +:+ sc_input c' +:+
                (if Wrote now' (sc_session c') w' then NUL +:+ "session=" +:+ sc_session c' else "")).
  { change (String Ascii.zero (subjectText (sc_subject c))) with (NUL +:+ subjectText (sc_subject c)) in Hk.
    change (String Ascii.zero (subjectText (sc_subject c'))) with (NUL +:+ subjectText (sc_subject c')) in Hk.
    destruct (Wrote now (sc_session c) w), (Wrote now' (sc_session c') w'); rewrite ?string_app_nil_r; rewrite !string_app_assoc in Hk; exact Hk. }
  apply unseparated_split in E as [-> E]; [|done..]. apply unseparated_split in E as [-> E]; [|done..].
  apply unseparated_split in E as [-> E]; [|done..].
  destruct (Wrote now (sc_session c) w), (Wrote now' (sc_session c') w').
  - apply unseparated_split in E as [-> E]; [|done..]. simpl in E. injection E as E. split_and!; done.
  - rewrite string_app_nil_r in E. by destruct (unseparated_not (sc_input c) ("session=" +:+ sc_session c) _ Hi').
  - rewrite string_app_nil_r in E. by destruct (unseparated_not (sc_input c') ("session=" +:+ sc_session c') _ Hi).
  - rewrite !string_app_nil_r in E. subst. split_and!; done.
Qed.

Section accounted.
Context {A E : Type} (encodedLen : list A -> option Z) (exceeded auditUnavailable : E).
Implicit Types (env : callEnv (A := A) (E := E)).

Definition completes (e : callEffect) : bool := match e with Completed _ => true | _ => false end.
Definition releases (e : callEffect) : bool := match e with ReleaseCaller => true | _ => false end.
Definition audits (e : callEffect) : bool := match e with Audited _ _ => true | _ => false end.
Definition occurrences (p : callEffect -> bool) (tr : list callEffect) : nat := length (List.filter p tr).

Lemma finalize_spec env readOnly leased ran ranErr res err ran' :
  finalizeToolResult encodedLen exceeded env readOnly leased ran ranErr = (res, err, ran') ->
  ran' = (if leased then [Completed (usageOf env res)] else []) /\
  (forall e, ranErr = Some e -> err = Some e) /\ (readOnly = false -> ranErr = None -> err = None) /\
  (forall n, readOnly = true -> cr_returnedBytes ran = 0 -> encodedLen (cr_content ran) = Some n ->
     0 < cv_maxReturnedBytes env -> cv_maxReturnedBytes env < n -> is_Some err).
Proof.
  unfold finalizeToolResult. destruct (measured encodedLen exceeded env readOnly ran ranErr) as [res1 err1] eqn:Hm.
  assert (H1 : (forall e, ranErr = Some e -> err1 = Some e) /\ (readOnly = false -> ranErr = None -> err1 = None) /\
    (forall n, readOnly = true -> cr_returnedBytes ran = 0 -> encodedLen (cr_content ran) = Some n ->
       0 < cv_maxReturnedBytes env -> cv_maxReturnedBytes env < n -> is_Some err1)).
  { unfold measured in Hm. destruct (cr_returnedBytes ran =? 0) eqn:Eb; [|apply Z.eqb_neq in Eb; simplify_eq; split_and!; congruence].
    destruct (encodedLen (cr_content ran)) as [m|]; simplify_eq; [|split_and!; congruence]. destruct ranErr as [e0|].
    - split_and!; [congruence..|]. intros; by eexists.
    - split_and!; [done|by intros ->|]. intros n -> _ [= ->] H1%Z.ltb_lt H2%Z.ltb_lt. rewrite H1, H2. by eexists. }
  destruct H1 as (He & Hn & Hl). destruct leased; intros [= <- <- <-]; [|done]. split; [done|]. split_and!.
  - intros e ->%He. done.
  - intros Hr Hnone. rewrite (Hn Hr Hnone), Hr. done.
  - intros n Hr ? ? ? ?. destruct (Hl n) as [e ->]; [done..|]. by eexists.
Qed.

Lemma admitted_leased t env refused release leased :
  admission t env = (refused, release, leased) -> is_Some refused -> leased = false.
Proof. unfold admission. intros H [e ->]. repeat case_match; simplify_eq; done. Qed.

Lemma audit_spec env durable res err auditErr event :
  recordToolAudit auditUnavailable env durable res err = (auditErr, event) ->
  (event = [] \/ event = [Audited (negb (bool_decide (is_Some err))) (returnedRows res)]) /\
  (auditErr = None \/ (durable = true /\ auditErr = Some auditUnavailable)).
Proof. unfold recordToolAudit. intros. repeat case_match; simplify_eq; auto. Qed.

Lemma occurrences_app p tr tr' : occurrences p (tr ++ tr') = (occurrences p tr + occurrences p tr')%nat.
Proof. unfold occurrences. by rewrite List.filter_app, length_app. Qed.

Lemma occurrences_cons p e tr : occurrences p (e :: tr) = ((if p e then 1 else 0) + occurrences p tr)%nat.
Proof. unfold occurrences. cbn. by destruct (p e). Qed.

(** The trace of a call, by what ran. *)
Lemma trace_spec (ran : list callEffect) (failed release : bool) (event : list callEffect) p :
  occurrences p (BeforeTool :: ran ++ (if failed then [OnError] else []) ++ AfterTool :: event ++ EndMetering :: (if release then [ReleaseCaller] else [])) =
  (occurrences p [BeforeTool; AfterTool; EndMetering] + (if failed then occurrences p [OnError] else 0) +
   occurrences p ran + occurrences p event + (if release then occurrences p [ReleaseCaller] else 0))%nat.
Proof.
  destruct failed, release; cbn [app]; repeat (rewrite occurrences_cons || rewrite occurrences_app); change (occurrences p []) with 0%nat; lia.
Qed.

Lemma occurrences_zero p tr e : occurrences p tr = 0%nat -> e ∈ tr -> p e = false.
Proof.
  intros H Hin. destruct (p e) eqn:Ep; [|done]. unfold occurrences in H. apply length_zero_iff_nil in H.
  assert (Hf : e ∈ List.filter p tr) by (apply list_elem_of_In, filter_In; split; [by apply list_elem_of_In|done]).
  rewrite H in Hf. by apply not_elem_of_nil in Hf.
Qed.

Lemma audited_in_event (did event : list callEffect) (failed release : bool) allowed rows :
  occurrences audits did = 0%nat ->
  Audited allowed rows ∈ BeforeTool :: did ++ (if failed then [OnError] else []) ++ AfterTool :: event ++ EndMetering :: (if release then [ReleaseCaller] else []) ->
  Audited allowed rows ∈ event.
Proof.
  intros Hd. destruct failed, release; rewrite ?elem_of_cons, ?elem_of_app, ?elem_of_cons, ?elem_of_app, ?elem_of_cons, ?elem_of_nil;
    intros Hin; repeat match goal with H : _ \/ _ |- _ => destruct H end; try done; match goal with H : _ ∈ did |- _ => by apply (occurrences_zero _ _ _ Hd) in H end.
Qed.

(** A call is accounted once: its lease is completed exactly once when it has
    one, with the rows and bytes it returned; its caller's admission is given
    back exactly when it was taken; at most one record of it is kept, which
    says it was allowed when it succeeded.  A write the tool made is reported
    made whatever the accounting says, unless its durable record failed; a
    tool's failure is reported as it is; and a read past the limit of bytes is
    refused. *)
Theorem call_accounted t env res err tr :
  RunTool encodedLen exceeded auditUnavailable t env = (res, err, tr) ->
  let '(refused, release, leased) := admission t env in
  let '(ran, ranErr) := cv_run env (tk_ends t) in
  occurrences completes tr = (if leased then 1%nat else 0%nat) /\
  occurrences releases tr = (if release then 1%nat else 0%nat) /\
  (occurrences audits tr <= 1)%nat /\ (forall allowed rows, Audited allowed rows ∈ tr -> err = None -> allowed = true /\ rows = returnedRows res) /\
  (tk_readOnly t = false -> refused = None -> ranErr = None -> err = None \/ (tk_durable t = true /\ err = Some auditUnavailable)) /\
  (forall e, refused = None -> ranErr = Some e -> err = Some e) /\
  (forall n, refused = None -> tk_readOnly t = true -> cr_returnedBytes ran = 0 -> encodedLen (cr_content ran) = Some n ->
     0 < cv_maxReturnedBytes env -> cv_maxReturnedBytes env < n -> is_Some err).
Proof.
  unfold RunTool. destruct (admission t env) as [[refused release] leased] eqn:Hadm.
  pose proof (admitted_leased _ _ _ _ _ Hadm) as Hleased. destruct (cv_run env (tk_ends t)) as [ran ranErr].
  set (final := match refused with None => _ | Some e => _ end). destruct final as [[res1 err1] did] eqn:Hf.
  assert (Hfacts : occurrences completes did = (if leased then 1 else 0)%nat /\ occurrences releases did = 0%nat /\ occurrences audits did = 0%nat /\
    (forall e, refused = None -> ranErr = Some e -> err1 = Some e) /\ (tk_readOnly t = false -> refused = None -> ranErr = None -> err1 = None) /\
    (forall n, refused = None -> tk_readOnly t = true -> cr_returnedBytes ran = 0 -> encodedLen (cr_content ran) = Some n ->
       0 < cv_maxReturnedBytes env -> cv_maxReturnedBytes env < n -> is_Some err1)).
  { unfold final in Hf. destruct refused as [e|].
    - rewrite (Hleased ltac:(by eexists)). simplify_eq. split_and!; done.
    - destruct (finalizeToolResult _ _ _ _ _ _ _) as [[res2 err2] completed] eqn:Hfin. simplify_eq.
      apply finalize_spec in Hfin as (-> & ? & ? & ?). destruct leased; split_and!; try done; eauto. }
  destruct Hfacts as (Hc & Hr & Hau & He & Hw & Hl).
  destruct (recordToolAudit auditUnavailable env (tk_durable t) res1 err1) as [auditErr event] eqn:Ha.
  apply audit_spec in Ha as [Hev Haud].
  assert (Hcount : occurrences completes event = 0%nat /\ occurrences releases event = 0%nat /\ (occurrences audits event <= 1)%nat)
    by (destruct Hev as [-> | ->]; cbn; lia).
  intros Heq. assert (Htr : tr = BeforeTool :: did ++ (if bool_decide (is_Some err1) then [OnError] else []) ++ AfterTool :: event
                 ++ EndMetering :: (if release then [ReleaseCaller] else [])) by (destruct auditErr, err1; by simplify_eq).
  assert (Herr : (err = err1 /\ res = res1) \/ (err1 = None /\ tk_durable t = true /\ err = Some auditUnavailable))
    by (destruct auditErr, err1; simplify_eq; auto; destruct Haud as [?|[? [= ->]]]; [done|auto]).
  clear Heq. split_and!.
  - rewrite Htr, trace_spec, Hc. destruct (bool_decide _), release, leased; cbn; lia.
  - rewrite Htr, trace_spec, Hr. destruct (bool_decide _), release; cbn; lia.
  - rewrite Htr, trace_spec, Hau. destruct (bool_decide _), release; cbn; lia.
  - intros allowed rows Hin Hnone. destruct Herr as [[-> ->]|(_ & _ & ?)]; [|congruence]. subst err1.
    assert (Hev' : Audited allowed rows ∈ event) by (eapply audited_in_event; [exact Hau|by rewrite <- Htr]). destruct Hev as [-> | ->]; [by apply not_elem_of_nil in Hev'|].
    apply list_elem_of_singleton in Hev'. injection Hev' as -> ->. done.
  - intros Hro Href Hran. specialize (Hw Hro Href Hran). destruct Herr as [[-> ->]|(_ & ? & ?)]; auto.
  - intros e Href Hran. specialize (He e Href Hran). destruct Herr as [[-> ->]|(? & _)]; [done|congruence].
  - intros n H1 H2 H3 H4 H5 H6. destruct (Hl n H1 H2 H3 H4 H5 H6) as [e Hx]. destruct Herr as [[-> ->]|(? & _)]; [by eexists|congruence].
Qed.

End accounted.

(** ** Examples *)

#[local] Instance emptySubject : SubjectText := fun _ => "{}".

(** A clerk's read, from a session that wrote lately. *)
Definition clerkReads (session : string) : readCall := mkShared "read_records" true "clerk" ∅ session "{entity: orders}" "".
Definition wroteLately : WriteTracker := RecordWrite 0 "s1" "main" 10 (NewWriteTracker 0).

Example own_reads_apart :
  engineSubmitKey 5 wroteLately (fun _ => None) (clerkReads "s1") <> engineSubmitKey 5 wroteLately (fun _ => None) (clerkReads "s2") /\
  engineSubmitKey 20 wroteLately (fun _ => None) (clerkReads "s1") = engineSubmitKey 20 wroteLately (fun _ => None) (clerkReads "s2").
Proof. split; [vm_compute; discriminate|vm_compute; reflexivity]. Qed.

Lemma shared_calls_same_caller_witness :
  "clerk"%string = "clerk"%string /\ sc_input (clerkReads "s2") = sc_input (clerkReads "s3").
Proof.
  destruct (shared_calls_same_caller 5 wroteLately (fun _ => None) (clerkReads "s2") 6 wroteLately (fun _ => None) (clerkReads "s3")
              ("read_records" +:+ NUL +:+ "clerk" +:+ NUL +:+ "{}" +:+ NUL +:+ "{entity: orders}")) as (_ & _ & _ & Hr & _ & Hi & _).
  - vm_compute. repeat split; reflexivity.
  - vm_compute. repeat split; reflexivity.
  - discriminate.
  - vm_compute. reflexivity.
  - vm_compute. reflexivity.
  - split; [exact Hr|exact Hi].
Defined.

(** A write whose accounting finds its session past its budget. *)
Definition overdrawn : callEnv (A := nat) (E := string) :=
  mkEnv None None (Some None) 0 (fun _ => (mkCallResult [7%nat] 0 false 12 0, None)) 3 (fun _ => Some "over"%string) BestEffort.

Lemma call_accounted_witness :
  exists tr, RunTool (fun _ => None) "exceeded"%string "unavailable"%string (mkKind false false false) overdrawn =
    (mkCallResult [7%nat] 0 false 12 0, None, tr) /\ occurrences completes tr = 1%nat.
Proof.
  destruct (RunTool (fun _ => None) "exceeded"%string "unavailable"%string (mkKind false false false) overdrawn) as [[res err] tr] eqn:Er.
  pose proof (call_accounted (fun _ => None) "exceeded"%string "unavailable"%string (mkKind false false false) overdrawn res err tr Er) as Ha.
  destruct Ha as (Hc & _). exists tr. split; [|exact Hc]. vm_compute in Er. injection Er as <- <- <-. reflexivity.
Defined.
