(* ===== verification/EventStore.v ===== *)
(** The events kept for clients that reconnect: fairEventStore of
    x/mcpserver/eventstore.go.

    Sessions, and the streams of each, are max-heaps by the bytes they hold;
    which of those that hold the most comes first depends on how the heap was
    filled.  Here any does: a choice for each drop, the heaps' only law being
    that the first holds the most.  Events are texts.  [es_history] is what was
    appended to each stream, kept or not, since it was last opened anew (it is
    in no field of the store). *)

From S2P Require Import Prelude.

Record streamEvents : Type := mkStream { sv_size : Z; sv_first : Z; sv_data : list string; sv_lost : bool }.

Record sessionEvents : Type := mkSession { se_size : Z; se_streams : gmap string streamEvents }.

Record fairEventStore : Type := mkStore {
  es_nBytes : Z;
  es_sessions : gmap string sessionEvents;
  es_drops : nat;                          (** how many things were dropped *)
  es_history : gmap (string * string) (list string);
}.

Definition newFairEventStore : fairEventStore := mkStore 0 ∅ 0 ∅.

(** The first of a heap by size: one that holds the most. *)
Record firstOf {A} (size : A -> Z) (pick : nat -> gmap string A -> option string) : Prop := {
  fo_none : forall n m, pick n m = None -> m = ∅;
  fo_some : forall n m k, pick n m = Some k -> exists x, m !! k = Some x /\ forall k' y, m !! k' = Some y -> size y <= size x;
}.

(** A sum over a map. *)
Definition totalOf {A} (g : A -> Z) (m : gmap string A) : Z := sumOver (fun kx => g kx.2) (map_to_list m).

Inductive afterError : Type := UnknownSession | UnknownStream | ErrEventsPurged.

Section store.
Context (maxBytes eventCost streamCost : Z).
Context (pickSession : nat -> gmap string sessionEvents -> option string) (pickStream : nat -> gmap string streamEvents -> option string).

Definition with_stores (n : Z) (m : gmap string sessionEvents) (s : fairEventStore) : fairEventStore :=
  mkStore n m (es_drops s) (es_history s).

(** grow, of a stream and of its session *)
Definition growStream (n : Z) (x : streamEvents) : streamEvents := mkStream (sv_size x + n) (sv_first x) (sv_data x) (sv_lost x).
Definition growSession (streamID : string) (n : Z) (x : sessionEvents) : sessionEvents :=
  mkSession (se_size x + n) (alter (growStream n) streamID (se_streams x)).

Definition hold (sessionID streamID : string) (n : Z) (s : fairEventStore) : fairEventStore :=
  with_stores (es_nBytes s + n) (alter (growSession streamID n) sessionID (es_sessions s)) s.

Definition lookupStream (sessionID streamID : string) (s : fairEventStore) : option streamEvents :=
  session ← es_sessions s !! sessionID; se_streams session !! streamID.

(** a change of a stream's own fields *)
Definition onStream (sessionID streamID : string) (f : streamEvents -> streamEvents) (s : fairEventStore) : fairEventStore :=
  with_stores (es_nBytes s) (alter (fun x => mkSession (se_size x) (alter f streamID (se_streams x))) sessionID (es_sessions s)) s.

Definition dropFirst (x : streamEvents) : streamEvents := mkStream (sv_size x) (sv_first x + 1) (tail (sv_data x)) (sv_lost x).
Definition addEvent (data : string) (x : streamEvents) : streamEvents := mkStream (sv_size x) (sv_first x) (sv_data x ++ [data]) (sv_lost x).

Definition eventSize (data : string) : Z := eventCost + Z.of_nat (String.length data).

Definition dropStream (sessionID streamID : string) (size : Z) (s : fairEventStore) : fairEventStore :=
  let s := hold sessionID streamID (- size) s in
  match es_sessions s !! sessionID with
  | None => s
  | Some session =>
      let streams := delete streamID (se_streams session) in
      with_stores (es_nBytes s)
        (if bool_decide (streams = ∅) then delete sessionID (es_sessions s)
         else <[sessionID := mkSession (se_size session) streams]> (es_sessions s)) s
  end.

Definition dropped (s : fairEventStore) : fairEventStore := mkStore (es_nBytes s) (es_sessions s) (S (es_drops s)) (es_history s).

(** [None] when it dropped nothing *)
Definition dropOldestOfLargest (keep : option (string * string)) (s : fairEventStore) : option fairEventStore :=
  sessionID ← pickSession (es_drops s) (es_sessions s);
  session ← es_sessions s !! sessionID;
  if se_size session =? 0 then None
  else
    streamID ← pickStream (es_drops s) (se_streams session);
    stream ← se_streams session !! streamID;
    match sv_data stream with
    | [] => if bool_decide (keep = Some (sessionID, streamID)) then None else Some (dropped (dropStream sessionID streamID (sv_size stream) s))
    | first :: _ => Some (dropped (hold sessionID streamID (- eventSize first) (onStream sessionID streamID dropFirst s)))
    end.

(** What is left to drop. *)
Definition weightOf (x : sessionEvents) : Z := totalOf (fun y => 1 + Z.of_nat (length (sv_data y))) (se_streams x).
Definition weight (s : fairEventStore) : nat := Z.to_nat (totalOf weightOf (es_sessions s)).

Fixpoint roomLoop (fuel : nat) (n : Z) (keep : option (string * string)) (s : fairEventStore) : fairEventStore :=
  match fuel with
  | O => s
  | S fuel =>
      if maxBytes <? es_nBytes s + n then
        match dropOldestOfLargest keep s with Some s => roomLoop fuel n keep s | None => s end
      else s
  end.

(** makeRoom; each round drops an event or a stream *)
Definition makeRoom (n : Z) (keep : option (string * string)) (s : fairEventStore) : fairEventStore := roomLoop (S (weight s)) n keep s.

Definition addStream (sessionID streamID : string) (lost : bool) (s : fairEventStore) : fairEventStore :=
  let s := makeRoom streamCost None s in
  let session := default (mkSession 0 ∅) (es_sessions s !! sessionID) in
  hold sessionID streamID streamCost
    (with_stores (es_nBytes s)
       (<[sessionID := mkSession (se_size session) (<[streamID := mkStream 0 0 [] lost]> (se_streams session))]> (es_sessions s)) s).

(** What was appended is counted from here. *)
Definition openedAnew (sessionID streamID : string) (s : fairEventStore) : fairEventStore :=
  mkStore (es_nBytes s) (es_sessions s) (es_drops s) (delete (sessionID, streamID) (es_history s)).

Definition OpenStream (sessionID streamID : string) (s : fairEventStore) : fairEventStore :=
  match lookupStream sessionID streamID s with
  | None => addStream sessionID streamID false (openedAnew sessionID streamID s)
  | Some _ => s
  end.

Definition recordEvent (sessionID streamID data : string) (s : fairEventStore) : fairEventStore :=
  mkStore (es_nBytes s) (es_sessions s) (es_drops s)
    (<[(sessionID, streamID) := default [] (es_history s !! (sessionID, streamID)) ++ [data]]> (es_history s)).

Definition Append (sessionID streamID data : string) (s : fairEventStore) : fairEventStore :=
  recordEvent sessionID streamID data
    match lookupStream sessionID streamID s with
    | None => addStream sessionID streamID true s
    | Some stream =>
        if sv_lost stream then s
        else hold sessionID streamID (eventSize data)
               (onStream sessionID streamID (addEvent data) (makeRoom (eventSize data) (Some (sessionID, streamID)) s))
    end.

Definition after (sessionID streamID : string) (index : Z) (s : fairEventStore) : afterError + list string :=
  match es_sessions s !! sessionID with
  | None => inl UnknownSession
  | Some session =>
      match se_streams session !! streamID with
      | None => inl UnknownStream
      | Some stream =>
          let start := index + 1 in
          if sv_lost stream || (start <? sv_first stream) then inl ErrEventsPurged
          else inr (drop (Z.to_nat (Z.min (start - sv_first stream) (Z.of_nat (length (sv_data stream))))) (sv_data stream))
      end
  end.

Definition SessionClosed (sessionID : string) (s : fairEventStore) : fairEventStore :=
  match es_sessions s !! sessionID with
  | Some session => with_stores (es_nBytes s - se_size session) (delete sessionID (es_sessions s)) s
  | None => s
  end.

Inductive storeEvent : Type := SOpen (sessionID streamID : string) | SAppend (sessionID streamID data : string) | SClose (sessionID : string).

Definition storeStep (s : fairEventStore) (e : storeEvent) : fairEventStore :=
  match e with
  | SOpen sid st => OpenStream sid st s
  | SAppend sid st data => Append sid st data s
  | SClose sid => SessionClosed sid s
  end.

(** ** What was appended to a stream *)

Definition appendsTo (sid st : string) (e : storeEvent) : list string :=
  match e with SAppend sid' st' data => if bool_decide ((sid', st') = (sid, st)) then [data] else [] | _ => [] end.

(** The stream is opened when the store has no entry of it: never opened, or
    dropped for room, or closed with its session. *)
Definition opensAnew (sid st : string) (e : storeEvent) (s : fairEventStore) : bool :=
  match e with
  | SOpen sid' st' => bool_decide ((sid', st') = (sid, st)) && match lookupStream sid st s with None => true | Some _ => false end
  | _ => false
  end.

(** All of it, and what since it was last opened anew. *)
Definition appended (sid st : string) (es : list storeEvent) : list string := concat (map (appendsTo sid st) es).

Fixpoint sinceOpened (sid st : string) (es : list storeEvent) (s : fairEventStore) (before : list string) : list string :=
  match es with
  | [] => before
  | e :: es => sinceOpened sid st es (storeStep s e) ((if opensAnew sid st e s then [] else before) ++ appendsTo sid st e)
  end.

(** The stream is opened anew after something was appended to it. *)
Fixpoint reopened (sid st : string) (es : list storeEvent) (s : fairEventStore) (before : list string) : bool :=
  match es with
  | [] => false
  | e :: es => (opensAnew sid st e s && negb (bool_decide (before = []))) || reopened sid st es (storeStep s e) (before ++ appendsTo sid st e)
  end.

End store.

(** ** Sums over maps *)

Lemma total_insert {A} (g : A -> Z) m k x : m !! k = None -> totalOf g (<[k := x]> m) = g x + totalOf g m.
Proof. intros H. unfold totalOf. by rewrite (sumOver_perm _ _ _ (map_to_list_insert m k x H)). Qed.

Lemma total_delete {A} (g : A -> Z) m k x : m !! k = Some x -> totalOf g m = g x + totalOf g (delete k m).
Proof. intros H. rewrite <- (insert_delete_id m k x H) at 1. apply total_insert, lookup_delete_eq. Qed.

Lemma total_update {A} (g : A -> Z) m k x y : m !! k = Some x -> totalOf g (<[k := y]> m) = totalOf g m - g x + g y.
Proof.
  intros H. rewrite <- (insert_delete_eq m k y). rewrite total_insert by apply lookup_delete_eq. rewrite (total_delete g m k x H). lia.
Qed.

Lemma total_alter {A} (g : A -> Z) f m k x : m !! k = Some x -> totalOf g (alter f k m) = totalOf g m - g x + g (f x).
Proof.
  intros H. replace (alter f k m) with (<[k := f x]> m); [by apply total_update|].
  apply map_eq. intros i. destruct (decide (i = k)) as [->|Hne].
  - by rewrite lookup_insert_eq, lookup_alter_eq, H.
  - by rewrite lookup_insert_ne, lookup_alter_ne.
Qed.

Lemma total_empty {A} (g : A -> Z) : totalOf g ∅ = 0.
Proof. unfold totalOf. by rewrite map_to_list_empty. Qed.

Lemma total_nonneg {A} (g : A -> Z) m : (forall k x, m !! k = Some x -> 0 <= g x) -> 0 <= totalOf g m.
Proof.
  intros H. unfold totalOf. transitivity (sumOver (fun _ => 0) (map_to_list m)); [|apply sumOver_le; intros [k x] Hin; cbn; by eapply H, elem_of_map_to_list].
  rewrite sumOver_zero; done.
Qed.

(** ** The invariant *)

Section facts.
Context (maxBytes eventCost streamCost : Z).
Context (pickSession : nat -> gmap string sessionEvents -> option string) (pickStream : nat -> gmap string streamEvents -> option string).
Hypothesis (Hevent : 0 <= eventCost) (Hstream : 0 < streamCost).
Hypothesis (HfirstSession : firstOf se_size pickSession) (HfirstStream : firstOf sv_size pickStream).

Abbreviation histories := (gmap (string * string) (list string)).
Implicit Types (hist : histories) (s : fairEventStore).

(** A stream is counted exactly, and holds the end of what was appended. *)
Record streamOk hist (sid st : string) (x : streamEvents) : Prop := {
  so_size : sv_size x = streamCost + sumOver (eventSize eventCost) (sv_data x);
  so_lost : sv_lost x = true -> sv_data x = [];
  so_held : sv_lost x = false -> exists pre, default [] (hist !! (sid, st)) = pre ++ sv_data x /\ sv_first x = Z.of_nat (length pre);
}.

Record sessionOk hist (sid : string) (x : sessionEvents) : Prop := {
  sn_size : se_size x = totalOf sv_size (se_streams x);
  sn_some : se_streams x <> ∅;
  sn_streams : forall st y, se_streams x !! st = Some y -> streamOk hist sid st y;
}.

Record storeOk s : Prop := {
  sk_bytes : es_nBytes s = totalOf se_size (es_sessions s);
  sk_sessions : forall sid x, es_sessions s !! sid = Some x -> sessionOk (es_history s) sid x;
}.

Lemma eventSize_nonneg data : 0 <= eventSize eventCost data.
Proof using Hevent. unfold eventSize. lia. Qed.

Lemma events_nonneg data : 0 <= sumOver (eventSize eventCost) data.
Proof using Hevent. apply sumOver_nonneg, eventSize_nonneg. Qed.

Lemma streamOk_hist hist hist' sid st x : streamOk hist sid st x -> hist' !! (sid, st) = hist !! (sid, st) -> streamOk hist' sid st x.
Proof. intros [A B C] E. constructor; [done..|]. by rewrite E. Qed.

Lemma sessionOk_hist hist hist' sid x :
  sessionOk hist sid x -> (forall st, is_Some (se_streams x !! st) -> hist' !! (sid, st) = hist !! (sid, st)) -> sessionOk hist' sid x.
Proof. intros [A B C] E. constructor; [done..|]. intros st y Hy. eapply streamOk_hist; [by apply C|]. apply E. by exists y. Qed.

(** A stream is put in the place of another. *)
Definition put (sid st : string) (se : sessionEvents) (y : streamEvents) (n : Z) hist (s : fairEventStore) : fairEventStore :=
  mkStore (es_nBytes s + n) (<[sid := mkSession (se_size se + n) (<[st := y]> (se_streams se))]> (es_sessions s)) (es_drops s) hist.

Lemma storeOk_put sid st se x y n hist s :
  storeOk s -> es_sessions s !! sid = Some se -> se_streams se !! st = Some x -> streamOk hist sid st y ->
  n = sv_size y - sv_size x -> (forall sid' st', (sid', st') <> (sid, st) -> hist !! (sid', st') = es_history s !! (sid', st')) ->
  storeOk (put sid st se y n hist s).
Proof.
  intros [Hb Hs] Hse Hx Hy -> Hh. pose proof (Hs _ _ Hse) as [Hsz Hne Hst]. constructor; cbn.
  - rewrite (total_update _ _ _ _ _ Hse), Hb. cbn. lia.
  - intros sid' z [[<- <-]|[Hne' Hz]]%lookup_insert_Some.
    + constructor; cbn; [|apply insert_non_empty|].
      * rewrite (total_update _ _ _ _ _ Hx), Hsz. lia.
      * intros st' w [[<- <-]|[Hd Hw]]%lookup_insert_Some; [done|]. eapply streamOk_hist; [by apply Hst|]. apply Hh. congruence.
    + eapply sessionOk_hist; [by apply Hs|]. intros st' _. apply Hh. congruence.
Qed.

Lemma alter_some {A} (f : A -> A) (m : gmap string A) k x : m !! k = Some x -> alter f k m = <[k := f x]> m.
Proof.
  intros H. apply map_eq. intros i. destruct (decide (i = k)) as [->|Hne].
  - by rewrite lookup_insert_eq, lookup_alter_eq, H.
  - by rewrite lookup_insert_ne, lookup_alter_ne.
Qed.

(** hold after a change of the stream puts the changed stream. *)
Lemma hold_put sid st se x f n s :
  es_sessions s !! sid = Some se -> se_streams se !! st = Some x ->
  hold sid st n (onStream sid st f s) = put sid st se (growStream n (f x)) n (es_history s) s.
Proof.
  intros Hse Hx. unfold hold, onStream, put, with_stores; cbn. f_equal. unfold growSession.
  rewrite (alter_some _ (es_sessions s) sid se Hse). rewrite (alter_some _ _ sid (mkSession (se_size se) (alter f st (se_streams se)))) by apply lookup_insert_eq.
  rewrite insert_insert_eq. cbn. do 2 f_equal. rewrite (alter_some f _ _ _ Hx).
  rewrite (alter_some _ _ st (f x)) by apply lookup_insert_eq. by rewrite insert_insert_eq.
Qed.

Lemma storeOk_dropped s : storeOk s -> storeOk (dropped s).
Proof. intros [A B]. by constructor. Qed.

(** An event is dropped. *)
Lemma storeOk_dropFirst sid st se x first rest s :
  storeOk s -> es_sessions s !! sid = Some se -> se_streams se !! st = Some x -> sv_data x = first :: rest ->
  storeOk (hold sid st (- eventSize eventCost first) (onStream sid st dropFirst s)).
Proof.
  intros H Hse Hx Hd. rewrite (hold_put _ _ _ _ _ _ _ Hse Hx). pose proof (sn_streams _ _ _ (sk_sessions _ H _ _ Hse) _ _ Hx) as [Hsz Hl Hh].
  eapply storeOk_put; [done..| |cbn; lia|done]. rewrite Hd in *. constructor; cbn.
  - rewrite Hd in *. cbn in *. lia.
  - intros E. by specialize (Hl E).
  - intros E. destruct (Hh E) as (pre & Hpre & Hf). exists (pre ++ [first]). rewrite Hd. cbn. rewrite <- app_assoc. split; [done|].
    rewrite length_app. cbn. lia.
Qed.

(** The entry of a stream is dropped. *)
Lemma storeOk_dropStream sid st se x s :
  storeOk s -> es_sessions s !! sid = Some se -> se_streams se !! st = Some x -> storeOk (dropStream sid st (sv_size x) s).
Proof.
  intros [Hb Hs] Hse Hx. pose proof (Hs _ _ Hse) as [Hsz Hne Hst]. unfold dropStream, hold, with_stores. cbn.
  rewrite lookup_alter_eq, Hse. cbn. rewrite (alter_some _ _ _ _ Hx), delete_insert_eq.
  pose proof (total_delete sv_size _ _ _ Hx) as Hdel. rewrite (alter_some _ _ _ _ Hse).
  case_bool_decide as Hempty.
  - rewrite Hempty, total_empty in Hdel. rewrite delete_insert_eq. constructor; cbn.
    + rewrite Hb, (total_delete se_size _ _ _ Hse). lia.
    + intros sid' z [_ Hz]%lookup_delete_Some. eauto.
  - rewrite insert_insert_eq. constructor; cbn.
    + rewrite (total_update se_size _ _ _ _ Hse), Hb. cbn. lia.
    + intros sid' z [[<- <-]|[_ Hz]]%lookup_insert_Some; [|eauto]. constructor; cbn; [lia|done|].
      intros st' y [_ Hy]%lookup_delete_Some. eauto.
Qed.

(** *** Drops *)

Inductive dropsFrom (keep : option (string * string)) s : fairEventStore -> Prop :=
  | drops_event sid st se x first rest :
      es_sessions s !! sid = Some se -> (forall sid' y, es_sessions s !! sid' = Some y -> se_size y <= se_size se) ->
      se_streams se !! st = Some x -> (forall st' y, se_streams se !! st' = Some y -> sv_size y <= sv_size x) -> sv_data x = first :: rest ->
      dropsFrom keep s (dropped (hold sid st (- eventSize eventCost first) (onStream sid st dropFirst s)))
  | drops_stream sid st se x :
      es_sessions s !! sid = Some se -> (forall sid' y, es_sessions s !! sid' = Some y -> se_size y <= se_size se) ->
      se_streams se !! st = Some x -> (forall st' y, se_streams se !! st' = Some y -> sv_size y <= sv_size x) ->
      sv_data x = [] -> keep <> Some (sid, st) ->
      dropsFrom keep s (dropped (dropStream sid st (sv_size x) s)).

Abbreviation dropOldest := (dropOldestOfLargest eventCost pickSession pickStream).

Lemma dropOldest_Some keep s s' : dropOldest keep s = Some s' -> dropsFrom keep s s'.
Proof using HfirstSession HfirstStream.
  unfold dropOldestOfLargest. destruct (pickSession _ _) as [sid|] eqn:Ep; [|done]. cbn.
  apply (fo_some _ _ HfirstSession) in Ep as (se & Hse & Hmax). rewrite Hse. cbn. destruct (se_size se =? 0); [done|].
  destruct (pickStream _ _) as [st|] eqn:Eq; [|done]. cbn. apply (fo_some _ _ HfirstStream) in Eq as (x & Hx & Hmaxx). rewrite Hx. cbn.
  destruct (sv_data x) as [|first rest] eqn:Hd.
  - case_bool_decide; [done|]. intros [= <-]. by eapply drops_stream.
  - intros [= <-]. by eapply drops_event.
Qed.

(** Nothing is dropped from an empty store, or when the first stream is kept
    and has no event. *)
Lemma dropOldest_None keep s :
  storeOk s -> dropOldest keep s = None ->
  es_sessions s = ∅ \/
  exists sid st se x, keep = Some (sid, st) /\ es_sessions s !! sid = Some se /\ se_streams se !! st = Some x /\ sv_data x = [] /\
    (forall sid' y, es_sessions s !! sid' = Some y -> se_size y <= se_size se) /\
    (forall st' y, se_streams se !! st' = Some y -> sv_size y <= sv_size x).
Proof using Hevent Hstream HfirstSession HfirstStream.
  intros Hok. unfold dropOldestOfLargest. destruct (pickSession _ _) as [sid|] eqn:Ep; [|left; by eapply fo_none]. cbn.
  apply (fo_some _ _ HfirstSession) in Ep as (se & Hse & Hmax). rewrite Hse. cbn. pose proof (sk_sessions _ Hok _ _ Hse) as [Hsz Hne Hst].
  destruct (pickStream _ _) as [st|] eqn:Eq; [|apply (fo_none _ _ HfirstStream) in Eq; done].
  apply (fo_some _ _ HfirstStream) in Eq as (x & Hx & Hmaxx). cbn. rewrite Hx. cbn.
  assert (Hpos : 0 < se_size se).
  { rewrite Hsz, (total_delete _ _ _ _ Hx). pose proof (so_size _ _ _ _ (Hst _ _ Hx)). pose proof (events_nonneg (sv_data x)).
    assert (0 <= totalOf sv_size (delete st (se_streams se))); [|lia]. apply total_nonneg. intros k y [_ Hy]%lookup_delete_Some.
    rewrite (so_size _ _ _ _ (Hst _ _ Hy)). pose proof (events_nonneg (sv_data y)). lia. }
  rewrite (proj2 (Z.eqb_neq _ _)) by lia. destruct (sv_data x) as [|first rest] eqn:Hd; [|done].
  case_bool_decide as Hk; [|done]. intros _. right. exists sid, st, se, x. auto 10.
Qed.

Lemma storeOk_drops keep s s' : storeOk s -> dropsFrom keep s s' -> storeOk s'.
Proof. intros H [sid st se x first rest Hse _ Hx _ Hd|sid st se x Hse _ Hx _ _ _]; apply storeOk_dropped; [by eapply storeOk_dropFirst|by eapply storeOk_dropStream]. Qed.

Lemma weightOf_pos hist sid x : sessionOk hist sid x -> 1 <= weightOf x.
Proof.
  intros [_ Hne _]. apply map_choose in Hne as (st & y & Hy). unfold weightOf. rewrite (total_delete _ _ _ _ Hy).
  assert (0 <= totalOf (fun y => 1 + Z.of_nat (length (sv_data y))) (delete st (se_streams x))); [|lia]. apply total_nonneg. lia.
Qed.

Lemma total_weight_nonneg s : 0 <= totalOf weightOf (es_sessions s).
Proof. apply total_nonneg. intros. apply total_nonneg. lia. Qed.

(** Every drop leaves less to drop. *)
Lemma drops_weight keep s s' : dropsFrom keep s s' -> totalOf weightOf (es_sessions s') < totalOf weightOf (es_sessions s).
Proof.
  intros [sid st se x first rest Hse _ Hx _ Hd|sid st se x Hse _ Hx _ Hd _].
  - rewrite (hold_put _ _ _ _ _ _ _ Hse Hx). cbn [put dropped es_sessions]. rewrite (total_update _ _ _ _ _ Hse).
    assert (E : weightOf (mkSession (se_size se + - eventSize eventCost first) (<[st := growStream (- eventSize eventCost first) (dropFirst x)]> (se_streams se))) = weightOf se - 1).
    { unfold weightOf. cbn. rewrite (total_update _ _ _ _ _ Hx). cbn. rewrite Hd. cbn. lia. }
    rewrite E. lia.
  - unfold dropStream, hold, with_stores. cbn. rewrite lookup_alter_eq, Hse. cbn.
    rewrite (alter_some _ _ _ _ Hx), delete_insert_eq, (alter_some _ _ _ _ Hse).
    pose proof (total_delete (fun y => 1 + Z.of_nat (length (sv_data y))) _ _ _ Hx) as Hdel. cbn in Hdel.
    case_bool_decide as He; cbn.
    + rewrite delete_insert_eq, (total_delete weightOf _ _ _ Hse). rewrite He, total_empty in Hdel.
      assert (weightOf se = 1 + Z.of_nat (length (sv_data x)) + 0) by exact Hdel. lia.
    + rewrite insert_insert_eq, (total_update weightOf _ _ _ _ Hse).
      assert (weightOf se = 1 + Z.of_nat (length (sv_data x)) + weightOf (mkSession (se_size se + - sv_size x) (delete st (se_streams se)))) by exact Hdel. lia.
Qed.

Lemma roomLoop_inv (P : fairEventStore -> Prop) n keep fuel : forall s,
  (forall s s', P s -> dropsFrom keep s s' -> maxBytes < es_nBytes s + n -> P s') -> P s ->
  P (roomLoop maxBytes eventCost pickSession pickStream fuel n keep s).
Proof using HfirstSession HfirstStream.
  induction fuel as [|fuel IH]; intros s Hstep HP; cbn; [done|]. destruct (_ <? _) eqn:E; [|done].
  destruct (dropOldest keep s) as [s'|] eqn:Ed; [|done]. apply IH; [done|]. eapply Hstep; [done|by apply dropOldest_Some|by apply Z.ltb_lt].
Qed.

(** makeRoom ends: what is to come fits, or nothing can be dropped. *)
Lemma roomLoop_ends n keep fuel : forall s,
  (weight s < fuel)%nat ->
  let s' := roomLoop maxBytes eventCost pickSession pickStream fuel n keep s in
  es_nBytes s' + n <= maxBytes \/ dropOldest keep s' = None.
Proof using HfirstSession HfirstStream.
  induction fuel as [|fuel IH]; intros s Hw; [lia|]. cbn. destruct (_ <? _) eqn:E; [|left; apply Z.ltb_ge in E; lia].
  destruct (dropOldest keep s) as [s'|] eqn:Ed; [|by right]. apply IH.
  pose proof (drops_weight _ _ _ (dropOldest_Some _ _ _ Ed)). unfold weight in *. pose proof (total_weight_nonneg s'). lia.
Qed.

(** *** Streams *)

Lemma lookup_put sid st se y n hist s sid' st' :
  es_sessions s !! sid = Some se ->
  lookupStream sid' st' (put sid st se y n hist s) = if decide ((sid', st') = (sid, st)) then Some y else lookupStream sid' st' s.
Proof.
  intros Hse. unfold lookupStream, put; cbn. destruct (decide (sid' = sid)) as [->|Hd].
  - rewrite lookup_insert_eq, Hse. cbn. destruct (decide (st' = st)) as [->|Hd].
    + by rewrite lookup_insert_eq, decide_True.
    + rewrite lookup_insert_ne, decide_False by congruence. done.
  - rewrite lookup_insert_ne, decide_False by congruence. done.
Qed.

Lemma lookup_dropStream sid st se x s sid' st' :
  es_sessions s !! sid = Some se -> se_streams se !! st = Some x ->
  lookupStream sid' st' (dropStream sid st (sv_size x) s) = if decide ((sid', st') = (sid, st)) then None else lookupStream sid' st' s.
Proof.
  intros Hse Hx. unfold dropStream, hold, with_stores, lookupStream. cbn. rewrite lookup_alter_eq, Hse. cbn.
  rewrite (alter_some _ _ _ _ Hx), delete_insert_eq, (alter_some _ _ _ _ Hse). case_bool_decide as He; cbn.
  - rewrite delete_insert_eq. destruct (decide (sid' = sid)) as [->|Hd].
    + rewrite lookup_delete_eq. cbn. case_decide as E; [done|]. rewrite Hse. cbn. assert (st' <> st) by congruence.
      rewrite <- (lookup_delete_ne (se_streams se) st st') by done. by rewrite He, lookup_empty.
    + rewrite lookup_delete_ne, decide_False by congruence. done.
  - rewrite insert_insert_eq. destruct (decide (sid' = sid)) as [->|Hd].
    + rewrite lookup_insert_eq. cbn. rewrite Hse. cbn. case_decide as E.
      * injection E as ->. by rewrite lookup_delete_eq.
      * rewrite lookup_delete_ne by congruence. done.
    + rewrite lookup_insert_ne, decide_False by congruence. done.
Qed.

Lemma lookup_dropped sid st s : lookupStream sid st (dropped s) = lookupStream sid st s.
Proof. done. Qed.

Lemma lookupStream_Some sid st s x :
  lookupStream sid st s = Some x <-> exists se, es_sessions s !! sid = Some se /\ se_streams se !! st = Some x.
Proof. unfold lookupStream. destruct (es_sessions s !! sid); cbn; naive_solver. Qed.

(** What a drop leaves. *)
Lemma drops_streams keep s s' :
  dropsFrom keep s s' ->
  es_history s' = es_history s /\
  (forall sid st y, lookupStream sid st s' = Some y -> exists x, lookupStream sid st s = Some x /\ sv_lost y = sv_lost x) /\
  (forall sid st x, keep = Some (sid, st) -> lookupStream sid st s = Some x -> is_Some (lookupStream sid st s')).
Proof.
  intros [sid st se x first rest Hse _ Hx _ Hd|sid st se x Hse _ Hx _ Hd Hk].
  - rewrite (hold_put _ _ _ _ _ _ _ Hse Hx). split; [done|]. setoid_rewrite lookup_dropped. split.
    + intros sid' st' y. rewrite lookup_put by done. case_decide as E; [|eauto]. intros [= <-]. injection E as -> ->.
      exists x. split; [by apply lookupStream_Some; eauto|done].
    + intros sid' st' z _ Hz. rewrite lookup_put by done. case_decide; [by eexists|by exists z].
  - split; [unfold dropStream, hold, with_stores; cbn; by repeat case_match|]. setoid_rewrite lookup_dropped. split.
    + intros sid' st' y. rewrite (lookup_dropStream _ _ _ _ _ _ _ Hse Hx). case_decide; [done|eauto].
    + intros sid' st' z -> Hz. rewrite (lookup_dropStream _ _ _ _ _ _ _ Hse Hx). case_decide as E; [congruence|by exists z].
Qed.

Abbreviation room := (makeRoom maxBytes eventCost pickSession pickStream).

Lemma room_ok n keep s :
  storeOk s ->
  storeOk (room n keep s) /\ es_history (room n keep s) = es_history s /\
  (forall sid st y, lookupStream sid st (room n keep s) = Some y -> exists x, lookupStream sid st s = Some x /\ sv_lost y = sv_lost x) /\
  (forall sid st x, keep = Some (sid, st) -> lookupStream sid st s = Some x -> is_Some (lookupStream sid st (room n keep s))).
Proof using HfirstSession HfirstStream.
  intros Hok. unfold makeRoom. set (fuel := S (weight s)). generalize fuel. clear fuel. intros fuel.
  apply (roomLoop_inv (fun t => storeOk t /\ es_history t = es_history s /\
    (forall sid st y, lookupStream sid st t = Some y -> exists x, lookupStream sid st s = Some x /\ sv_lost y = sv_lost x) /\
    (forall sid st x, keep = Some (sid, st) -> lookupStream sid st s = Some x -> is_Some (lookupStream sid st t)))).
  - intros t t' (Ht & Hh & Hsub & Hk) Hd _. destruct (drops_streams _ _ _ Hd) as (Hh' & Hsub' & Hk'). split_and!.
    + by eapply storeOk_drops.
    + congruence.
    + intros sid st y Hy. destruct (Hsub' _ _ _ Hy) as (x & Hx & E). destruct (Hsub _ _ _ Hx) as (z & Hz & E'). exists z. split; [done|congruence].
    + intros sid st x E Hx. destruct (Hk _ _ _ E Hx) as [y Hy]. eauto.
  - split_and!; eauto.
Qed.

(** *** Operations *)

Abbreviation add := (addStream maxBytes eventCost streamCost pickSession pickStream).

Lemma addStream_eq sid st lost s :
  let s1 := room streamCost None s in
  let se := default (mkSession 0 ∅) (es_sessions s1 !! sid) in
  add sid st lost s = put sid st se (mkStream streamCost 0 [] lost) streamCost (es_history s1) s1.
Proof.
  cbv zeta. unfold addStream, hold, put, with_stores; cbn. f_equal. rewrite (alter_some _ _ sid _ (lookup_insert_eq _ _ _)). rewrite insert_insert_eq.
  unfold growSession; cbn. rewrite (alter_some _ _ st _ (lookup_insert_eq _ _ _)), insert_insert_eq. done.
Qed.

Lemma storeOk_add sid st lost s :
  storeOk s -> lookupStream sid st s = None -> (lost = false -> es_history s !! (sid, st) = None) -> storeOk (add sid st lost s).
Proof using HfirstSession HfirstStream.
  intros Hok Hnone Hl. rewrite addStream_eq. destruct (room_ok streamCost None s Hok) as (H1 & Hh & Hsub & _).
  set (s1 := room streamCost None s) in *. clearbody s1. assert (Hn : lookupStream sid st s1 = None).
  { destruct (lookupStream sid st s1) eqn:E; [|done]. apply Hsub in E as (? & E & _). congruence. }
  assert (Hnew : streamOk (es_history s1) sid st (mkStream streamCost 0 [] lost)).
  { rewrite Hh. constructor; [cbn; lia|done|]. intros E. exists []. cbn in E. by rewrite (Hl E). }
  destruct H1 as [Hb Hs]. constructor; cbn.
  - destruct (es_sessions s1 !! sid) as [se|] eqn:Hse; cbn.
    + rewrite (total_update _ _ _ _ _ Hse). cbn. lia.
    + rewrite total_insert by done. cbn. lia.
  - intros sid' z [[<- <-]|[Hd Hz]]%lookup_insert_Some; [|eauto]. unfold lookupStream in Hn.
    destruct (es_sessions s1 !! sid) as [se|] eqn:Hse; cbn in *.
    + destruct (Hs _ _ Hse) as [Hsz Hne Hst]. constructor; cbn; [rewrite total_insert by done; cbn; lia|apply insert_non_empty|].
      intros st' y [[<- <-]|[_ Hy]]%lookup_insert_Some; eauto.
    + constructor; cbn; [rewrite total_insert by apply lookup_empty; rewrite total_empty; cbn; lia|apply insert_non_empty|].
      intros st' y [[<- <-]|[_ Hy]]%lookup_insert_Some; [done|]. by rewrite lookup_empty in Hy.
Qed.

Lemma storeOk_record sid st data s :
  storeOk s -> (forall x, lookupStream sid st s = Some x -> sv_lost x = true) -> storeOk (recordEvent sid st data s).
Proof.
  intros [Hb Hs] Hlost. constructor; cbn; [done|]. intros sid' se Hse. destruct (Hs _ _ Hse) as [Hsz Hne Hst]. constructor; [done..|].
  intros st' y Hy. destruct (decide ((sid', st') = (sid, st))) as [E|Hd].
  - injection E as -> ->. destruct (Hst _ _ Hy) as [A B _]. constructor; [done..|]. intros E. rewrite Hlost in E; [done|]. apply lookupStream_Some. eauto.
  - eapply streamOk_hist; [by apply Hst|]. by rewrite lookup_insert_ne.
Qed.

Lemma lookup_add sid st lost s x : lookupStream sid st (add sid st lost s) = Some x -> sv_lost x = lost.
Proof.
  rewrite addStream_eq. unfold lookupStream, put; cbn. rewrite lookup_insert_eq. cbn. rewrite lookup_insert_eq. by intros [= <-].
Qed.

Abbreviation step := (storeStep maxBytes eventCost streamCost pickSession pickStream).

Lemma storeOk_append sid st data s : storeOk s -> storeOk (Append maxBytes eventCost streamCost pickSession pickStream sid st data s).
Proof using HfirstSession HfirstStream.
  intros Hok. unfold Append. destruct (lookupStream sid st s) as [x|] eqn:Hx.
  - destruct (sv_lost x) eqn:Hl; [apply storeOk_record; [done|congruence]|].
    destruct (room_ok (eventSize eventCost data) (Some (sid, st)) s Hok) as (H1 & Hh & Hsub & Hk).
    set (s1 := room _ _ s) in *. clearbody s1. destruct (Hk _ _ _ eq_refl Hx) as [y Hy]. destruct (Hsub _ _ _ Hy) as (x' & Hx' & Hly).
    apply lookupStream_Some in Hy as (se & Hse & Hy). rewrite (hold_put _ _ _ _ _ _ _ Hse Hy).
    destruct (sn_streams _ _ _ (sk_sessions _ H1 _ _ Hse) _ _ Hy) as [Hsz _ Hheld].
    destruct Hheld as (pre & Hpre & Hfirst); [congruence|].
    eapply (storeOk_put sid st se y _ _ (<[(sid, st) := default [] (es_history s1 !! (sid, st)) ++ [data]]> (es_history s1)) s1 H1 Hse Hy).
    + constructor; cbn; [rewrite sumOver_snoc; lia|congruence|]. intros _. exists pre. rewrite lookup_insert_eq. cbn. rewrite Hpre, <- app_assoc. done.
    + cbn. lia.
    + intros sid' st' Hd. by rewrite lookup_insert_ne.
  - apply storeOk_record; [by apply storeOk_add|]. apply lookup_add.
Qed.

Lemma storeOk_anew sid st s : storeOk s -> lookupStream sid st s = None -> storeOk (openedAnew sid st s).
Proof.
  intros [Hb Hs] Hnone. constructor; cbn; [done|]. intros sid' se Hse. destruct (Hs _ _ Hse) as [Hsz Hne Hst]. constructor; [done..|].
  intros st' y Hy. eapply streamOk_hist; [by apply Hst|]. rewrite lookup_delete_ne; [done|]. intros [= -> ->].
  assert (lookupStream sid' st' s = Some y) as E by (apply lookupStream_Some; eauto). congruence.
Qed.

Lemma storeOk_step s e : storeOk s -> storeOk (step s e).
Proof using HfirstSession HfirstStream.
  intros Hok. destruct e as [sid st|sid st data|sid]; cbn.
  - unfold OpenStream. destruct (lookupStream sid st s) eqn:E; [done|]. apply storeOk_add; [by apply storeOk_anew|done|]. intros _. cbn. apply lookup_delete_eq.
  - by apply storeOk_append.
  - unfold SessionClosed. destruct (es_sessions s !! sid) as [se|] eqn:Hse; [|done]. destruct Hok as [Hb Hs]. constructor; cbn.
    + rewrite Hb, (total_delete _ _ _ _ Hse). lia.
    + intros sid' x [_ Hx]%lookup_delete_Some. eauto.
Qed.

Lemma storeOk_run es : forall s, storeOk s -> storeOk (foldl step s es).
Proof using HfirstSession HfirstStream. induction es as [|e es IH]; intros s Hok; cbn; [done|]. by apply IH, storeOk_step. Qed.

(** The history is what was appended since the stream was last opened anew. *)
Lemma history_room n keep s : storeOk s -> es_history (room n keep s) = es_history s.
Proof using HfirstSession HfirstStream. intros Hok. by destruct (room_ok n keep s Hok) as (_ & ? & _). Qed.

Lemma history_add sid st lost s : storeOk s -> es_history (add sid st lost s) = es_history s.
Proof using HfirstSession HfirstStream. intros Hok. rewrite addStream_eq. exact (history_room streamCost None s Hok). Qed.

Lemma history_step s e sid st : storeOk s ->
  default [] (es_history (step s e) !! (sid, st)) =
  (if opensAnew sid st e s then [] else default [] (es_history s !! (sid, st))) ++ appendsTo sid st e.
Proof using HfirstSession HfirstStream.
  intros Hok. destruct e as [sid' st'|sid' st' data|sid']; cbn [storeStep opensAnew appendsTo]; rewrite ?app_nil_r.
  - unfold OpenStream. destruct (lookupStream sid' st' s) eqn:E.
    + case_bool_decide as Heq; [injection Heq as -> ->; by rewrite E|done].
    + rewrite history_add by (by apply storeOk_anew). cbn [openedAnew es_history].
      case_bool_decide as Heq; [injection Heq as -> ->; rewrite E; cbn; by rewrite lookup_delete_eq|]. cbn. by rewrite lookup_delete_ne.
  - unfold Append, recordEvent. cbn [es_history].
    assert (es_history (match lookupStream sid' st' s with
      | None => add sid' st' true s
      | Some stream => if sv_lost stream then s else hold sid' st' (eventSize eventCost data)
          (onStream sid' st' (addEvent data) (room (eventSize eventCost data) (Some (sid', st')) s)) end) = es_history s) as ->.
    { destruct (lookupStream sid' st' s) as [x|]; [destruct (sv_lost x); [done|]; by apply (history_room (eventSize eventCost data))|by apply history_add]. }
    case_bool_decide as Heq; [injection Heq as -> ->; by rewrite lookup_insert_eq|]. rewrite lookup_insert_ne by done. by rewrite app_nil_r.
  - unfold SessionClosed. by destruct (es_sessions s !! sid').
Qed.

Lemma history_run es sid st : forall s, storeOk s ->
  default [] (es_history (foldl step s es) !! (sid, st)) =
  sinceOpened maxBytes eventCost streamCost pickSession pickStream sid st es s (default [] (es_history s !! (sid, st))).
Proof using HfirstSession HfirstStream.
  induction es as [|e es IH]; intros s Hok; [done|]. cbn [foldl sinceOpened]. rewrite IH by (by apply storeOk_step). by rewrite history_step.
Qed.

Lemma since_appended es sid st : forall s before, reopened maxBytes eventCost streamCost pickSession pickStream sid st es s before = false ->
  sinceOpened maxBytes eventCost streamCost pickSession pickStream sid st es s before = before ++ appended sid st es.
Proof.
  induction es as [|e es IH]; intros s before; cbn [sinceOpened reopened]; [by rewrite app_nil_r|].
  intros [Ho Hr]%orb_false_iff. unfold appended. cbn [map concat]. fold (appended sid st es). rewrite app_assoc.
  rewrite <- (IH (step s e)) by done. f_equal. destruct (opensAnew sid st e s); [|done]. case_bool_decide as Hb; [by subst before|done].
Qed.

Lemma storeOk_new : storeOk newFairEventStore.
Proof. constructor; cbn; [by rewrite total_empty|]. intros sid x. by rewrite lookup_empty. Qed.

(** *** The bound *)

(** The stream whose only event took the store past its bound: the first of
    the first session, alone. *)
Record excess s (sid st data : string) : Prop := {
  ex_holds : exists se x, es_sessions s !! sid = Some se /\ se_streams se !! st = Some x /\ sv_data x = [data] /\
    (forall sid' y, es_sessions s !! sid' = Some y -> sid' <> sid -> se_size y < se_size se) /\
    (forall st' y, se_streams se !! st' = Some y -> st' <> st -> sv_size y < sv_size x);
  ex_bytes : es_nBytes s <= maxBytes + eventSize eventCost data;
}.

Definition bounded s : Prop := es_nBytes s <= maxBytes \/ exists sid st data, excess s sid st data.

Lemma stream_nonneg s sid se st x : storeOk s -> es_sessions s !! sid = Some se -> se_streams se !! st = Some x -> streamCost <= sv_size x.
Proof using Hevent.
  intros H Hse Hx. rewrite (so_size _ _ _ _ (sn_streams _ _ _ (sk_sessions _ H _ _ Hse) _ _ Hx)). pose proof (events_nonneg (sv_data x)). lia.
Qed.

Lemma session_size s sid se st x :
  storeOk s -> es_sessions s !! sid = Some se -> se_streams se !! st = Some x -> sv_size x <= se_size se.
Proof using Hevent Hstream.
  intros H Hse Hx. rewrite (sn_size _ _ _ (sk_sessions _ H _ _ Hse)), (total_delete _ _ _ _ Hx).
  assert (0 <= totalOf sv_size (delete st (se_streams se))); [|lia]. apply total_nonneg. intros k y [_ Hy]%lookup_delete_Some.
  pose proof (stream_nonneg _ _ _ _ _ H Hse Hy). lia.
Qed.

Lemma drops_bytes keep s s' : storeOk s -> dropsFrom keep s s' -> es_nBytes s' <= es_nBytes s.
Proof using Hevent Hstream.
  intros H [sid st se x first rest Hse _ Hx _ Hd|sid st se x Hse _ Hx _ Hd _]; cbn.
  - pose proof (eventSize_nonneg first). lia.
  - pose proof (stream_nonneg _ _ _ _ _ H Hse Hx). unfold dropStream, hold, with_stores. cbn. rewrite lookup_alter_eq, Hse. cbn. lia.
Qed.

Lemma excess_first s sid st data sid' st' se' x' :
  excess s sid st data -> es_sessions s !! sid' = Some se' -> se_streams se' !! st' = Some x' ->
  (forall k y, es_sessions s !! k = Some y -> se_size y <= se_size se') -> (forall k y, se_streams se' !! k = Some y -> sv_size y <= sv_size x') ->
  sv_data x' = [data].
Proof.
  intros [(se & x & Hse & Hx & Hd & Hs & Ht) _] Hse' Hx' Hms Hmt.
  assert (sid' = sid) as ->. { destruct (decide (sid' = sid)) as [|Hne]; [done|]. pose proof (Hs _ _ Hse' Hne). pose proof (Hms _ _ Hse). lia. }
  rewrite Hse in Hse'. injection Hse' as <-.
  assert (st' = st) as ->. { destruct (decide (st' = st)) as [|Hne]; [done|]. pose proof (Ht _ _ Hx' Hne). pose proof (Hmt _ _ Hx). lia. }
  rewrite Hx in Hx'. by injection Hx' as <-.
Qed.

(** The first drop takes the excess away. *)
Lemma bounded_drops keep s s' : storeOk s -> bounded s -> dropsFrom keep s s' -> es_nBytes s' <= maxBytes.
Proof using Hevent Hstream.
  intros Hok [Hb|(sid & st & data & He)] Hd; [pose proof (drops_bytes _ _ _ Hok Hd); lia|].
  destruct Hd as [sid' st' se x first rest Hse Hms Hx Hmt Hd|sid' st' se x Hse Hms Hx Hmt Hd _].
  - pose proof (excess_first _ _ _ _ _ _ _ _ He Hse Hx Hms Hmt) as E. rewrite Hd in E. injection E as -> ->. pose proof (ex_bytes _ _ _ _ He). cbn. lia.
  - pose proof (excess_first _ _ _ _ _ _ _ _ He Hse Hx Hms Hmt) as E. by rewrite Hd in E.
Qed.

(** Once there is room, or none can be made: then nothing but the stream kept
    comes first, with no event. *)
Lemma room_bounded n keep s :
  storeOk s -> bounded s -> 0 <= n ->
  let t := room n keep s in
  es_nBytes t + n <= maxBytes \/ es_sessions t = ∅ \/
  (es_nBytes t <= maxBytes /\ exists sid st se x, keep = Some (sid, st) /\ es_sessions t !! sid = Some se /\ se_streams se !! st = Some x /\ sv_data x = [] /\
    (forall sid' y, es_sessions t !! sid' = Some y -> se_size y <= se_size se) /\
    (forall st' y, se_streams se !! st' = Some y -> sv_size y <= sv_size x)).
Proof using Hevent Hstream HfirstSession HfirstStream.
  intros Hok Hb Hn. cbv zeta. assert (Ht : storeOk (room n keep s) /\ bounded (room n keep s)).
  { unfold makeRoom. generalize (S (weight s)). intros fuel. apply (roomLoop_inv (fun t => storeOk t /\ bounded t)); [|done].
    intros t t' [H1 H2] Hd _. split; [by eapply storeOk_drops|]. left. by eapply bounded_drops. }
  destruct (roomLoop_ends n keep (S (weight s)) s ltac:(lia)) as [?|Hnone]; [by left|right].
  fold (room n keep s) in Hnone. set (t := room n keep s) in *. destruct Ht as [Ht1 Ht2].
  destruct (dropOldest_None _ _ Ht1 Hnone) as [?|(sid & st & se & x & Hk & Hse & Hx & Hd & Hms & Hmt)]; [by left|right].
  split; [|by exists sid, st, se, x]. destruct Ht2 as [?|(sid' & st' & data & He)]; [done|].
  pose proof (excess_first _ _ _ _ _ _ _ _ He Hse Hx Hms Hmt) as E. by rewrite Hd in E.
Qed.

Lemma bounded_record sid st data s : bounded s -> bounded (recordEvent sid st data s).
Proof. intros [?|(sid' & st' & d & [Hh Hb])]; [by left|right; by exists sid', st', d]. Qed.

Lemma bounded_anew sid st s : bounded s -> bounded (openedAnew sid st s).
Proof. intros [?|(sid' & st' & d & [Hh Hb])]; [by left|right; by exists sid', st', d]. Qed.

Lemma bounded_add sid st lost s : streamCost <= maxBytes -> storeOk s -> bounded s -> bounded (add sid st lost s).
Proof using Hevent Hstream HfirstSession HfirstStream.
  intros Hmax Hok Hb. left. rewrite addStream_eq. cbn -[makeRoom]. destruct (room_ok streamCost None s Hok) as (H1 & _).
  destruct (room_bounded streamCost None s Hok Hb ltac:(lia)) as [?|[He|(_ & sid' & st' & _ & _ & ? & _)]]; [done| |done].
  rewrite (sk_bytes _ H1), He, total_empty. lia.
Qed.

Lemma bounded_append sid st data s :
  streamCost <= maxBytes -> storeOk s -> bounded s -> bounded (Append maxBytes eventCost streamCost pickSession pickStream sid st data s).
Proof using Hevent Hstream HfirstSession HfirstStream.
  intros Hmax Hok Hb. unfold Append. apply bounded_record. destruct (lookupStream sid st s) as [x|] eqn:Hx; [|by apply bounded_add].
  destruct (sv_lost x); [done|]. pose proof (eventSize_nonneg data) as Hn.
  destruct (room_ok (eventSize eventCost data) (Some (sid, st)) s Hok) as (H1 & _ & _ & Hk).
  pose proof (room_bounded (eventSize eventCost data) (Some (sid, st)) s Hok Hb Hn) as Hroom. cbv zeta in Hroom.
  set (t := room _ _ s) in *. clearbody t. destruct (Hk _ _ _ eq_refl Hx) as [y Hy]. apply lookupStream_Some in Hy as (se & Hse & Hy).
  rewrite (hold_put _ _ _ _ _ _ _ Hse Hy). destruct Hroom as [Hfit|[He|(Hle & sid' & st' & se' & x' & [= <- <-] & Hse' & Hx' & Hd & Hms & Hmt)]].
  - left. exact Hfit.
  - by rewrite He, lookup_empty in Hse.
  - rewrite Hse in Hse'. injection Hse' as <-. rewrite Hy in Hx'. injection Hx' as <-.
    destruct (decide (eventSize eventCost data = 0)) as [E0|Hpos]; [left; cbn; lia|]. right. exists sid, st, data. constructor; [|cbn; lia].
    eexists _, _. split; [apply lookup_insert_eq|]. split; [apply lookup_insert_eq|]. cbn. rewrite Hd. split; [done|]. split.
    + intros k z Hz Hne. rewrite lookup_insert_ne in Hz by done. pose proof (Hms _ _ Hz). lia.
    + intros k z Hz Hne. rewrite lookup_insert_ne in Hz by done. pose proof (Hmt _ _ Hz). lia.
Qed.

Lemma bounded_close sid s : storeOk s -> bounded s -> bounded (SessionClosed sid s).
Proof using Hevent Hstream.
  intros Hok Hb. unfold SessionClosed. destruct (es_sessions s !! sid) as [se|] eqn:Hse; [|done].
  assert (Hsz : 0 <= se_size se).
  { rewrite (sn_size _ _ _ (sk_sessions _ Hok _ _ Hse)). apply total_nonneg. intros st x Hx. pose proof (stream_nonneg _ _ _ _ _ Hok Hse Hx). lia. }
  destruct Hb as [Hb|(sid' & st & data & [(se' & x & Hse' & Hx & Hd & Hs & Ht) Hb])]; [left; cbn; lia|].
  destruct (decide (sid' = sid)) as [->|Hne].
  - left. cbn. rewrite Hse in Hse'. injection Hse' as <-. pose proof (session_size _ _ _ _ _ Hok Hse Hx) as Hx2.
    rewrite (so_size _ _ _ _ (sn_streams _ _ _ (sk_sessions _ Hok _ _ Hse) _ _ Hx)), Hd in Hx2. cbn in Hx2. lia.
  - right. exists sid', st, data. constructor; [|cbn; lia]. exists se', x. cbn. rewrite lookup_delete_ne by done. split_and!; try done.
    intros k y [_ Hy]%lookup_delete_Some. by apply Hs.
Qed.

Lemma bounded_run es : streamCost <= maxBytes -> forall s,
  storeOk s -> bounded s -> bounded (foldl step s es).
Proof using Hevent Hstream HfirstSession HfirstStream.
  intros Hmax. induction es as [|e es IH]; intros s Hok Hb; cbn; [done|]. apply IH; [by apply storeOk_step|].
  destruct e as [sid st|sid st data|sid]; cbn.
  - unfold OpenStream. destruct (lookupStream sid st s) eqn:E; [done|]. apply bounded_add; [done|by apply storeOk_anew|by apply bounded_anew].
  - by apply bounded_append.
  - by apply bounded_close.
Qed.

End facts.

(** ** Theorems *)

(** C28. A client that reconnects gets exactly what it missed.  Whatever was
    opened, appended, dropped for room and closed, in whatever order the heaps
    pick what to drop (the first of one holds the most): a replay after an
    index (-1 before them all) is what was appended to the stream after it, in order, since the store last made an entry for it on
    Open, or is refused; nothing is skipped, repeated or taken from another
    stream.  So when the stream was not opened anew (opened while the store has
    no entry of it: dropped for room, or closed with its session) after
    something was appended to it, it is what was ever appended after the index;
    opening a stream that the store holds changes nothing.  A stream that is
    opened anew counts its events from there: [reopened_forgets]. *)
Theorem replay_exact maxBytes eventCost streamCost pickSession pickStream es sid st index events :
  firstOf se_size pickSession -> firstOf sv_size pickStream -> -1 <= index ->
  let s := foldl (storeStep maxBytes eventCost streamCost pickSession pickStream) newFairEventStore es in
  after sid st index s = inr events ->
  events = drop (Z.to_nat (index + 1)) (sinceOpened maxBytes eventCost streamCost pickSession pickStream sid st es newFairEventStore []) /\
  (reopened maxBytes eventCost streamCost pickSession pickStream sid st es newFairEventStore [] = false ->
     events = drop (Z.to_nat (index + 1)) (appended sid st es)).
Proof.
  intros HS HT Hi s Hafter. pose proof (history_run maxBytes eventCost streamCost _ _ HS HT es sid st _ (storeOk_new eventCost streamCost)) as Hhist.
  cbn [newFairEventStore es_history] in Hhist. rewrite lookup_empty in Hhist. cbn [default] in Hhist.
  assert (events = drop (Z.to_nat (index + 1)) (default [] (es_history s !! (sid, st)))) as Hall;
    [|split; [by rewrite Hall; unfold s; rewrite Hhist|intros Hr; rewrite Hall; unfold s; rewrite Hhist, since_appended by done; done]].
  pose proof (storeOk_run maxBytes eventCost streamCost _ _ HS HT es _ (storeOk_new eventCost streamCost)) as [_ Hs].
  fold s in Hs. revert Hafter. unfold after. destruct (es_sessions s !! sid) as [se|] eqn:Hse; [|done].
  destruct (se_streams se !! st) as [x|] eqn:Hx; [|done]. destruct (sn_streams _ _ _ _ _ (Hs _ _ Hse) _ _ Hx) as [_ _ Hh].
  destruct (sv_lost x); [done|]. destruct (Hh eq_refl) as (pre & -> & Hf). cbn [orb]. destruct (_ <? _) eqn:E; [done|]. apply Z.ltb_ge in E.
  intros [= <-]. rewrite drop_app. rewrite (drop_ge pre) by lia. cbn.
  destruct (Z.le_ge_cases (index + 1 - sv_first x) (Z.of_nat (length (sv_data x)))).
  - f_equal. lia.
  - rewrite !drop_ge by lia. done.
Qed.

(** The store is bounded: what it counts is what its streams hold, and it is
    within its bound but for one event, the only one of its stream. *)
Theorem event_store_bounded maxBytes eventCost streamCost pickSession pickStream es :
  firstOf se_size pickSession -> firstOf sv_size pickStream -> 0 <= eventCost -> 0 < streamCost -> streamCost <= maxBytes ->
  let s := foldl (storeStep maxBytes eventCost streamCost pickSession pickStream) newFairEventStore es in
  es_nBytes s = totalOf (fun se => totalOf (fun x => streamCost + sumOver (eventSize eventCost) (sv_data x)) (se_streams se)) (es_sessions s) /\
  (es_nBytes s <= maxBytes \/
   exists sid st x data, lookupStream sid st s = Some x /\ sv_data x = [data] /\ es_nBytes s <= maxBytes + eventSize eventCost data).
Proof.
  intros HS HT He Hst Hmax s.
  pose proof (storeOk_run maxBytes eventCost streamCost _ _ HS HT es _ (storeOk_new eventCost streamCost)) as Hok. fold s in Hok. split.
  - rewrite (sk_bytes _ _ _ Hok). unfold totalOf. apply sumOver_ext. intros [sid se] Hin%elem_of_map_to_list. cbn.
    rewrite (sn_size _ _ _ _ _ (sk_sessions _ _ _ Hok _ _ Hin)). apply sumOver_ext. intros [st x] Hx%elem_of_map_to_list. cbn.
    exact (so_size _ _ _ _ _ _ (sn_streams _ _ _ _ _ (sk_sessions _ _ _ Hok _ _ Hin) _ _ Hx)).
  - destruct (bounded_run maxBytes eventCost streamCost _ _ He Hst HS HT es Hmax newFairEventStore (storeOk_new eventCost streamCost)) as [Hb|(sid & st & data & [(se & x & Hse & Hx & Hd & _) Hb])].
    + left. cbn. lia.
    + by left.
    + right. exists sid, st, x, data. split; [by apply lookupStream_Some; eauto|done].
Qed.

(** ** Examples *)

(** The first of those that hold the most, in the order of the map. *)
Fixpoint largest {A} (size : A -> Z) (l : list (string * A)) : option (string * A) :=
  match l with
  | [] => None
  | kx :: l => match largest size l with Some ky => if size kx.2 <? size ky.2 then Some ky else Some kx | None => Some kx end
  end.

Definition pickLargest {A} (size : A -> Z) (_ : nat) (m : gmap string A) : option string := fst <$> largest size (map_to_list m).

Lemma largest_spec {A} (size : A -> Z) l :
  match largest size l with Some kx => kx ∈ l /\ forall ky, ky ∈ l -> size ky.2 <= size kx.2 | None => l = [] end.
Proof.
  induction l as [|kx l IH]; cbn; [done|]. destruct (largest size l) as [ky|].
  - destruct IH as [Hin Hmax]. destruct (_ <? _) eqn:E.
    + apply Z.ltb_lt in E. split; [by right|]. intros kz [->|Hz]%elem_of_cons; [lia|auto].
    + apply Z.ltb_ge in E. split; [left|]. intros kz [->|Hz]%elem_of_cons; [lia|]. specialize (Hmax _ Hz). lia.
  - subst l. split; [left|]. intros kz ->%list_elem_of_singleton. lia.
Qed.

Lemma pickLargest_first {A} (size : A -> Z) : firstOf size (pickLargest size).
Proof.
  split; unfold pickLargest.
  - intros _ m H. pose proof (largest_spec size (map_to_list m)) as Hl. destruct (largest _ _); [done|]. by apply map_to_list_empty_iff.
  - intros _ m k H. pose proof (largest_spec size (map_to_list m)) as Hl. destruct (largest size (map_to_list m)) as [[k' x]|]; [|done].
    injection H as ->. destruct Hl as [Hin Hmax]. exists x. split; [by apply elem_of_map_to_list|]. intros k' y Hy%elem_of_map_to_list. exact (Hmax _ Hy).
Qed.

Definition smallStore : fairEventStore -> storeEvent -> fairEventStore := storeStep 20 1 1 (pickLargest se_size) (pickLargest sv_size).

(** Two events of a stream, of which the first is dropped for room. *)
Definition resumed : list storeEvent := [SOpen "b" "1"; SAppend "b" "1" "12345678"; SAppend "b" "1" "abcdefgh"; SAppend "b" "1" "z"].

Lemma replay_exact_witness : ["abcdefgh"; "z"]%string = drop 1 ["12345678"; "abcdefgh"; "z"]%string.
Proof.
  refine (proj2 (replay_exact 20 1 1 (pickLargest se_size) (pickLargest sv_size) resumed "b" "1" 0 ["abcdefgh"; "z"]%string
            (pickLargest_first se_size) (pickLargest_first sv_size) _ _) _); [vm_compute; discriminate|vm_compute; reflexivity|vm_compute; reflexivity].
Defined.

(** A stream dropped for room and opened again: its events are counted from
    there, and a client that missed the first of them all is not told so. *)
Example reopened_forgets :
  let es := [SOpen "b" "1"; SAppend "b" "1" "x"; SOpen "d" "1"; SAppend "d" "1" "a result of some size"; SOpen "b" "1"; SAppend "b" "1" "y"] in
  let s := foldl smallStore newFairEventStore es in
  appended "b" "1" es = ["x"; "y"]%string /\ after "b" "1" (-1) s = inr ["y"]%string /\
  reopened 20 1 1 (pickLargest se_size) (pickLargest sv_size) "b" "1" es newFairEventStore [] = true.
Proof. vm_compute. auto. Qed.

Lemma event_store_bounded_witness : es_nBytes (foldl smallStore newFairEventStore resumed) = 12.
Proof.
  destruct (event_store_bounded 20 1 1 (pickLargest se_size) (pickLargest sv_size) resumed (pickLargest_first se_size) (pickLargest_first sv_size)) as [Hb _].
  - vm_compute. discriminate.
  - vm_compute. reflexivity.
  - vm_compute. discriminate.
  - etransitivity; [exact Hb|]. vm_compute. reflexivity.
Defined.

(** A large event of one session costs another, which holds the most when it
    comes, its events. *)
Example large_event_costs_others :
  let es := [SOpen "b" "1"; SAppend "b" "1" "12345678"; SOpen "a" "1"] in
  let s := foldl smallStore newFairEventStore es in
  after "b" "1" (-1) s = inr ["12345678"]%string /\
  after "b" "1" (-1) (smallStore s (SAppend "a" "1" "a large result")) = inl ErrEventsPurged.
Proof. vm_compute. auto. Qed.

(** No room is made when the stream appended to comes first among streams
    without events, though the others could be dropped. *)
Example room_not_made :
  let s := foldl (storeStep 6 1 2 (pickLargest se_size) (pickLargest sv_size)) newFairEventStore
             [SOpen "a" "1"; SOpen "a" "2"; SOpen "a" "3"; SAppend "a" "3" "x"] in
  es_nBytes s = 8 /\ (lookupStream "a" "2" s = Some (mkStream 2 0 [] false)).
Proof. vm_compute. auto. Qed.
