(* ===== verification/Keyed.v ===== *)
(** The limits of each caller: core/ratelimit/keyed.go.

    Key states are shared by pointer between the table and the calls in
    flight, so they are numbers into a heap; so are token buckets, whose
    answers (float64 arithmetic on the wall clock) are inputs.  Of a rate, a
    float64, the code asks whether it is zero, positive or the same as another.
    The methods run under the mutex: each is a step. *)

From S2P Require Import Prelude.

Section keyed.
Context {F : Type} `{EqDecision F} (zero : F) (positive : F -> bool).

Record KeyLimits : Type := mkKeyLimits { kl_RPS : F; kl_MaxInflight : Z }.

#[export] Instance KeyLimits_eq : EqDecision KeyLimits.
Proof using EqDecision0. solve_decision. Defined.

Record keyState : Type := mkKeyState { ks_limits : KeyLimits; ks_bucket : option nat; ks_inflight : Z }.

(** [ky_fresh] numbers the states and the buckets made. *)
Record Keyed : Type := mkKeyed { ky_keys : gmap string nat; ky_states : gmap nat keyState; ky_fresh : nat }.

Definition NewKeyed : Keyed := mkKeyed ∅ ∅ 0.

(** NewTokenBucket *)
Definition newBucket (rps : F) (n : nat) : option nat := if positive rps then Some n else None.

(** The limits of a key that is kept. *)
Definition relimited (l : KeyLimits) (n : nat) (st : keyState) : keyState :=
  mkKeyState l (if bool_decide (kl_RPS (ks_limits st) = kl_RPS l) then ks_bucket st else newBucket (kl_RPS l) n) (ks_inflight st).

(** One round of Update, from the table [old]: the table there will be, and
    the states. *)
Definition updateKey (old : gmap string nat) (k : Keyed) (kl : string * KeyLimits) : Keyed :=
  let '(key, l) := kl in
  if bool_decide (l = mkKeyLimits zero 0) then k
  else
    let n := ky_fresh k in
    match old !! key with
    | None => mkKeyed (<[key := n]> (ky_keys k)) (<[n := mkKeyState l (newBucket (kl_RPS l) n) 0]> (ky_states k)) (S n)
    | Some p => mkKeyed (<[key := p]> (ky_keys k)) (alter (relimited l n) p (ky_states k)) (S n)
    end.

(** Update ranges over the limits in some order. *)
Definition UpdateKeys (limits : list (string * KeyLimits)) (k : Keyed) : Keyed :=
  foldl (updateKey (ky_keys k)) (mkKeyed ∅ (ky_states k) (ky_fresh k)) limits.

Inductive acquired : Type := Unlimited | Admits (p : nat) | ErrKeyRate | ErrKeyInflight.

Definition addInflight (n : Z) (st : keyState) : keyState := mkKeyState (ks_limits st) (ks_bucket st) (ks_inflight st + n).

(** Acquire; [allow] is what the bucket answers, when there is one. *)
Definition Acquire (key : string) (allow : bool) (k : Keyed) : acquired * Keyed :=
  match ky_keys k !! key with
  | None => (Unlimited, k)
  | Some p =>
      match ky_states k !! p with
      | None => (Unlimited, k)
      | Some st =>
          if (0 <? kl_MaxInflight (ks_limits st)) && (kl_MaxInflight (ks_limits st) <=? ks_inflight st) then (ErrKeyInflight, k)
          else if match ks_bucket st with Some _ => negb allow | None => false end then (ErrKeyRate, k)
          else (Admits p, mkKeyed (ky_keys k) (alter (addInflight 1) p (ky_states k)) (ky_fresh k))
      end
  end.

(** A call: its key, the state it counts in, and whether it was released. *)
Record keyedCall : Type := mkKeyedCall { kc_key : string; kc_state : option nat; kc_released : bool }.

Record limiter : Type := mkLimiter { lm_keyed : Keyed; lm_calls : list keyedCall }.

(** The release of a call, by its sync.Once. *)
Definition releaseCall (n : nat) (s : limiter) : limiter :=
  match lm_calls s !! n with
  | Some (mkKeyedCall key (Some p) false) =>
      mkLimiter (mkKeyed (ky_keys (lm_keyed s)) (alter (addInflight (-1)) p (ky_states (lm_keyed s))) (ky_fresh (lm_keyed s)))
        (<[n := mkKeyedCall key (Some p) true]> (lm_calls s))
  | Some (mkKeyedCall key None false) => mkLimiter (lm_keyed s) (<[n := mkKeyedCall key None true]> (lm_calls s))
  | _ => s
  end.

Inductive limitEvent : Type := KUpdate (limits : list (string * KeyLimits)) | KAcquire (key : string) (allow : bool) | KRelease (n : nat).

Definition limitStep (s : limiter) (e : limitEvent) : limiter :=
  match e with
  | KUpdate limits => mkLimiter (UpdateKeys limits (lm_keyed s)) (lm_calls s)
  | KAcquire key allow =>
      let '(got, k) := Acquire key allow (lm_keyed s) in
      mkLimiter k (lm_calls s ++ match got with
                                 | Unlimited => [mkKeyedCall key None false]
                                 | Admits p => [mkKeyedCall key (Some p) false]
                                 | _ => []
                                 end)
  | KRelease n => releaseCall n s
  end.

(** The calls in flight a state counts. *)
Definition counts (p : nat) (c : keyedCall) : Z := if bool_decide (kc_state c = Some p) && negb (kc_released c) then 1 else 0.
Definition inFlight (p : nat) (s : limiter) : Z := sumOver (counts p) (lm_calls s).

Record limiterOk (s : limiter) : Prop := {
  lo_known : forall p, is_Some (ky_states (lm_keyed s) !! p) -> (p < ky_fresh (lm_keyed s))%nat;
  lo_keys : forall key p, ky_keys (lm_keyed s) !! key = Some p -> is_Some (ky_states (lm_keyed s) !! p);
  lo_apart : forall key key' p, ky_keys (lm_keyed s) !! key = Some p -> ky_keys (lm_keyed s) !! key' = Some p -> key = key';
  lo_calls : forall c p, c ∈ lm_calls s -> kc_state c = Some p -> is_Some (ky_states (lm_keyed s) !! p) /\
    forall key, ky_keys (lm_keyed s) !! key = Some p -> key = kc_key c;
  lo_count : forall p st, ky_states (lm_keyed s) !! p = Some st -> ks_inflight st = inFlight p s;
}.

(** ** Counting *)

Lemma counts_nonneg p c : 0 <= counts p c.
Proof. unfold counts. destruct (_ && _); lia. Qed.

Lemma counts_none p key b : counts p (mkKeyedCall key None b) = 0.
Proof. unfold counts. cbn. by rewrite bool_decide_eq_false_2. Qed.

Lemma counts_released p key q : counts p (mkKeyedCall key q true) = 0.
Proof. unfold counts. cbn. by rewrite andb_false_r. Qed.

Lemma counts_held p key q : counts p (mkKeyedCall key (Some q) false) = if bool_decide (p = q) then 1 else 0.
Proof. unfold counts. cbn. rewrite andb_true_r. repeat case_bool_decide; congruence. Qed.

(** A round of Update: [old], [states0] and [fresh0] are what it began with. *)
Record updating (old : gmap string nat) (states0 : gmap nat keyState) (fresh0 : nat) (calls : list keyedCall) (k : Keyed) : Prop := {
  up_fresh : (fresh0 <= ky_fresh k)%nat;
  up_known : forall p, is_Some (ky_states k !! p) -> (p < ky_fresh k)%nat;
  up_old : forall p, is_Some (states0 !! p) -> is_Some (ky_states k !! p);
  up_keys : forall key p, ky_keys k !! key = Some p -> is_Some (ky_states k !! p) /\ (old !! key = Some p \/ (fresh0 <= p)%nat);
  up_apart : forall key key' p, ky_keys k !! key = Some p -> ky_keys k !! key' = Some p -> key = key';
  up_count : forall p st, ky_states k !! p = Some st -> ks_inflight st = sumOver (counts p) calls;
}.

Lemma updateKey_ok old states0 fresh0 calls k kl :
  (forall key p, old !! key = Some p -> is_Some (states0 !! p) /\ (p < fresh0)%nat) -> (forall key key' p, old !! key = Some p -> old !! key' = Some p -> key = key') ->
  (forall c p, c ∈ calls -> kc_state c = Some p -> (p < fresh0)%nat) ->
  updating old states0 fresh0 calls k -> updating old states0 fresh0 calls (updateKey old k kl).
Proof.
  intros Hlt Hap Hc [Hf Hk Ho Hkeys Hapart Hcount]. destruct kl as [key l]. cbn. case_bool_decide; [done|].
  destruct (old !! key) as [p|] eqn:Hold.
  - assert (Hiff : forall q, is_Some (alter (relimited l (ky_fresh k)) p (ky_states k) !! q) <-> is_Some (ky_states k !! q))
      by (intros q; by rewrite lookup_alter_is_Some).
    constructor; cbn.
    + lia.
    + intros q Hq%Hiff. pose proof (Hk q Hq). lia.
    + intros q Hq. apply Hiff. eauto.
    + intros key' q [[<- <-]|[_ Hq]]%lookup_insert_Some; [split; [apply Hiff, Ho; by eapply Hlt|by left]|].
      destruct (Hkeys _ _ Hq) as [? ?]. split; [by apply Hiff|done].
    + intros key' key'' q [[<- <-]|[Hn Hq]]%lookup_insert_Some [[<- E]|[Hn' Hq']]%lookup_insert_Some; [done|..|by eapply Hapart].
      * destruct (Hkeys _ _ Hq') as [_ [Hq2|?]]; [by eapply Hap|]. destruct (Hlt _ _ Hold). lia.
      * subst q. destruct (Hkeys _ _ Hq) as [_ [Hq2|?]]; [by eapply Hap|]. destruct (Hlt _ _ Hold). lia.
    + intros q st Hq. destruct (decide (p = q)) as [<-|Hne].
      * rewrite lookup_alter_eq in Hq. destruct (ky_states k !! p) as [st0|] eqn:E; [|done]. injection Hq as <-. cbn. by apply Hcount.
      * rewrite lookup_alter_ne in Hq by done. by apply Hcount.
  - assert (Hnew : ky_states k !! ky_fresh k = None).
    { destruct (ky_states k !! ky_fresh k) eqn:E; [|done]. pose proof (Hk (ky_fresh k) ltac:(by eexists)). lia. }
    constructor; cbn.
    + lia.
    + intros q [st [[<- _]|[_ Hq]]%lookup_insert_Some]; [lia|]. pose proof (Hk q ltac:(by eexists)). lia.
    + intros q Hq. destruct (Ho _ Hq) as [st Hst]. exists st. rewrite lookup_insert_ne; [done|]. intros <-. by rewrite Hnew in Hst.
    + intros key' q [[<- <-]|[_ Hq]]%lookup_insert_Some; [split; [rewrite lookup_insert_eq; by eexists|right; lia]|].
      destruct (Hkeys _ _ Hq) as [[st Hst] ?]. split; [|done]. exists st. rewrite lookup_insert_ne; [done|]. intros <-. by rewrite Hnew in Hst.
    + intros key' key'' q [[<- <-]|[Hn Hq]]%lookup_insert_Some [[<- E]|[Hn' Hq']]%lookup_insert_Some; [done|..|by eapply Hapart].
      * destruct (Hkeys _ _ Hq') as [[st Hst] _]. by rewrite Hnew in Hst.
      * subst q. destruct (Hkeys _ _ Hq) as [[st Hst] _]. by rewrite Hnew in Hst.
    + intros q st [[<- <-]|[_ Hq]]%lookup_insert_Some; [|by apply Hcount]. cbn. symmetry. apply sumOver_zero. intros c Hcc. unfold counts.
      rewrite bool_decide_eq_false_2; [done|]. intros E. pose proof (Hc _ _ Hcc E). lia.
Qed.

Lemma UpdateKeys_ok limits s : limiterOk s -> limiterOk (mkLimiter (UpdateKeys limits (lm_keyed s)) (lm_calls s)).
Proof.
  intros [Hk Hkeys Hap Hc Hcount]. unfold UpdateKeys.
  assert (H : updating (ky_keys (lm_keyed s)) (ky_states (lm_keyed s)) (ky_fresh (lm_keyed s)) (lm_calls s)
    (foldl (updateKey (ky_keys (lm_keyed s))) (mkKeyed ∅ (ky_states (lm_keyed s)) (ky_fresh (lm_keyed s))) limits)).
  { assert (H0 : updating (ky_keys (lm_keyed s)) (ky_states (lm_keyed s)) (ky_fresh (lm_keyed s)) (lm_calls s) (mkKeyed ∅ (ky_states (lm_keyed s)) (ky_fresh (lm_keyed s))))
      by (constructor; cbn [ky_keys ky_states ky_fresh]; [lia|done|done|intros *; by rewrite lookup_empty|intros *; by rewrite lookup_empty|done]).
    revert H0. generalize (mkKeyed ∅ (ky_states (lm_keyed s)) (ky_fresh (lm_keyed s))). induction limits as [|kl limits IH]; intros k H0; cbn; [done|].
    apply IH, updateKey_ok; auto; [|intros c p Hcc E; apply Hk; by apply (Hc c p)]. intros key p Hp. split; [by eapply Hkeys|]. apply Hk. by eapply Hkeys. }
  destruct H as [Uf Uk Uo Ukeys Uap Uc]. constructor; cbn.
  - done.
  - intros key p Hp. by apply Ukeys in Hp as [? _].
  - done.
  - intros c p Hcc E. destruct (Hc c p Hcc E) as [Hst Hkey]. pose proof (Hk p Hst) as Hlt. split.
    + by apply Uo.
    + intros key Hp. destruct (Ukeys _ _ Hp) as [_ [?|?]]; [by apply Hkey|lia].
  - done.
Qed.

(** A state's count changes with the calls of it. *)
Lemma limiterOk_count s p n calls :
  limiterOk s -> is_Some (ky_states (lm_keyed s) !! p) ->
  (forall c q, c ∈ calls -> kc_state c = Some q -> exists c', (c' ∈ lm_calls s \/ ky_keys (lm_keyed s) !! kc_key c = Some p /\ c' = c /\ q = p) /\ kc_state c' = Some q /\ kc_key c' = kc_key c) ->
  (forall q, sumOver (counts q) calls = inFlight q s + (if bool_decide (q = p) then n else 0)) ->
  limiterOk (mkLimiter (mkKeyed (ky_keys (lm_keyed s)) (alter (addInflight n) p (ky_states (lm_keyed s))) (ky_fresh (lm_keyed s))) calls).
Proof.
  intros [Hk Hkeys Hap Hc Hcount] Hp Hcalls Hsum. constructor; cbn.
  - intros q. rewrite lookup_alter_is_Some. apply Hk.
  - intros key q Hq. rewrite lookup_alter_is_Some. by eapply Hkeys.
  - done.
  - intros c q Hcc E. rewrite lookup_alter_is_Some. destruct (Hcalls c q Hcc E) as (c' & [Hin|(Hkey & -> & ->)] & E' & Ek).
    + destruct (Hc c' q Hin E') as [? Hx]. split; [done|]. intros key Hq. rewrite <- Ek. by apply Hx.
    + split; [done|]. intros key Hq. by eapply Hap.
  - intros q st Hq. unfold inFlight; cbn. rewrite Hsum. destruct (decide (q = p)) as [->|Hne].
    + rewrite lookup_alter_eq in Hq. destruct Hp as [st0 Hst0]. rewrite Hst0 in Hq. injection Hq as <-. cbn.
      rewrite bool_decide_eq_true_2 by done. by rewrite (Hcount _ _ Hst0).
    + rewrite lookup_alter_ne in Hq by done. rewrite bool_decide_eq_false_2 by done. rewrite (Hcount _ _ Hq). lia.
Qed.

Lemma limiterOk_step s e : limiterOk s -> limiterOk (limitStep s e).
Proof.
  intros Hok. destruct e as [limits|key allow|n]; cbn.
  - by apply UpdateKeys_ok.
  - assert (Hsame : forall calls, (calls = [] \/ calls = [mkKeyedCall key None false]) -> limiterOk (mkLimiter (lm_keyed s) (lm_calls s ++ calls))).
    { intros calls Hcalls. destruct Hok as [Hk Hkeys Hap Hc Hcount]. constructor; cbn; try done.
      - intros c p [Hcc|Hcc]%elem_of_app E; [by apply Hc|]. destruct Hcalls as [-> | ->]; [by apply not_elem_of_nil in Hcc|].
        by apply list_elem_of_singleton in Hcc as ->.
      - intros p st Hst. rewrite (Hcount _ _ Hst). unfold inFlight; cbn. destruct Hcalls as [-> | ->]; [by rewrite app_nil_r|].
        rewrite sumOver_snoc, counts_none. lia. }
    unfold Acquire. destruct (ky_keys (lm_keyed s) !! key) as [p|] eqn:Hkey; [|by apply Hsame; right].
    destruct (ky_states (lm_keyed s) !! p) as [st|] eqn:Hst; [|by apply Hsame; right].
    destruct (_ && _); [by apply Hsame; left|]. destruct (match ks_bucket st with Some _ => _ | None => _ end); [by apply Hsame; left|].
    apply limiterOk_count; [done|by exists st|..].
    + intros c q [Hcc|Hcc]%elem_of_app E; exists c; [auto|]. apply list_elem_of_singleton in Hcc as ->. injection E as <-. auto.
    + intros q. rewrite sumOver_snoc, counts_held. done.
  - unfold releaseCall. destruct (lm_calls s !! n) as [[key [p|] []]|] eqn:Hn; try done.
    + destruct (lo_calls _ Hok _ p (list_elem_of_lookup_2 _ _ _ Hn) eq_refl) as [Hst _].
      apply limiterOk_count; [done..| |].
      * intros c q [m Hm]%list_elem_of_lookup E. apply list_lookup_insert_Some in Hm as [(<- & <- & _)|[_ Hm]].
        -- injection E as <-. eexists. split; [left; by eapply list_elem_of_lookup_2|done].
        -- exists c. split; [left; by eapply list_elem_of_lookup_2|done].
      * intros q. rewrite (sumOver_insert _ _ _ _ _ Hn), counts_released, counts_held. unfold inFlight. case_bool_decide; lia.
    + destruct Hok as [Hk Hkeys Hap Hc Hcount]. constructor; cbn; try done.
      * intros c p [m Hm]%list_elem_of_lookup E. apply list_lookup_insert_Some in Hm as [(<- & <- & _)|[_ Hm]]; [done|].
        apply Hc; [by eapply list_elem_of_lookup_2|done].
      * intros p st Hst. rewrite (Hcount _ _ Hst). unfold inFlight; cbn. rewrite (sumOver_insert _ _ _ _ _ Hn), !counts_none. lia.
Qed.

Lemma limiterOk_run es : forall s, limiterOk s -> limiterOk (foldl limitStep s es).
Proof. induction es as [|e es IH]; intros s Hok; cbn; [done|]. by apply IH, limiterOk_step. Qed.

Definition noCalls : limiter := mkLimiter NewKeyed [].

Lemma limiterOk_new : limiterOk noCalls.
Proof.
  constructor; cbn; intros *; rewrite ?lookup_empty; try done; first [by intros []|by intros Hx; apply not_elem_of_nil in Hx].
Qed.

(** The calls a caller has in flight are counted exactly, across changes of
    its limits and however often a call is released: a state counts the calls
    of its own key that were admitted and not yet released; a call is refused
    for them exactly when they are as many as the caller may have, and one
    admitted leaves them within the limit. *)
Theorem caller_inflight_exact es key p st allow got k :
  let s := foldl limitStep noCalls es in
  ky_keys (lm_keyed s) !! key = Some p -> ky_states (lm_keyed s) !! p = Some st -> Acquire key allow (lm_keyed s) = (got, k) ->
  let limit := kl_MaxInflight (ks_limits st) in
  ks_inflight st = inFlight p s /\ (forall c, c ∈ lm_calls s -> kc_state c = Some p -> kc_key c = key) /\
  (got = ErrKeyInflight <-> 0 < limit /\ limit <= inFlight p s) /\
  (got = Admits p -> inFlight p (limitStep s (KAcquire key allow)) = inFlight p s + 1 /\
     (0 < limit -> inFlight p (limitStep s (KAcquire key allow)) <= limit)).
Proof.
  intros s Hkey Hst Hacq limit. pose proof (limiterOk_run es _ limiterOk_new) as [Hk Hkeys Hap Hc Hcount]. fold s in Hk, Hkeys, Hap, Hc, Hcount.
  pose proof (Hcount _ _ Hst) as Hin. cbn [limitStep]. rewrite Hacq. unfold Acquire in Hacq. rewrite Hkey, Hst in Hacq. fold limit in Hacq.
  split; [done|]. split; [intros c Hcc E; symmetry; by apply (Hc c p Hcc E)|]. rewrite Hin in Hacq.
  destruct ((0 <? limit) && (limit <=? inFlight p s)) eqn:E.
  - injection Hacq as <- <-. apply andb_prop in E as [?%Z.ltb_lt ?%Z.leb_le]. done.
  - assert (Hlim : 0 < limit -> inFlight p s < limit).
    { intros Hpos. apply andb_false_iff in E as [?%Z.ltb_ge|?%Z.leb_gt]; lia. }
    destruct (match ks_bucket st with Some _ => _ | None => _ end); injection Hacq as <- <-; (split; [split; [done|lia]|]); [done|].
    intros _. assert (Hone : forall k, inFlight p (mkLimiter k (lm_calls s ++ [mkKeyedCall key (Some p) false])) = inFlight p s + 1).
    { intros k. unfold inFlight. cbn [lm_calls]. by rewrite sumOver_snoc, counts_held, bool_decide_eq_true_2. }
    rewrite Hone. split; [done|]. intros Hpos. specialize (Hlim Hpos). lia.
Qed.

End keyed.

(** ** Example *)

(** Two calls at most; the limit is lowered while one is in flight. *)
Definition lowered : list (limitEvent (F := Z)) :=
  [KUpdate [("agent"%string, mkKeyLimits 0 2)]; KAcquire "agent" true; KUpdate [("agent"%string, mkKeyLimits 0 1)]].

Lemma caller_inflight_exact_witness :
  inFlight 0 (foldl (limitStep 0 (fun r => 0 <? r)) noCalls lowered) = 1 /\
  (ErrKeyInflight = ErrKeyInflight <-> 0 < 1 /\ 1 <= inFlight 0 (foldl (limitStep 0 (fun r => 0 <? r)) noCalls lowered)).
Proof.
  destruct (caller_inflight_exact 0 (fun r => 0 <? r) lowered "agent" 0 (mkKeyState (mkKeyLimits 0 1) None 1) true ErrKeyInflight
              (lm_keyed (foldl (limitStep 0 (fun r => 0 <? r)) noCalls lowered))) as (Hc & _ & Hr & _).
  - vm_compute. reflexivity.
  - vm_compute. reflexivity.
  - vm_compute. reflexivity.
  - split; [symmetry; exact Hc|exact Hr].
Defined.
